(* ===== verification/_CoqProject ===== *)
-Q . S2P
Prelude.v
Param.v
ProcData.v
RBTree.v
RBSpec.v
RBHeap.v
RBInsert.v
RBDelete.v
RunQueue.v
Sched.v
SchedInv.v
SchedKeep.v
SchedSys.v
CString.v
Mem.v
Kalloc.v
Spinlock.v
Sleeplock.v
Vm.v
VmInv.v
VmSpec.v
VmUser.v
VmFree.v
VmCopy.v
VmProc.v
ProcVm.v
ProcMem.v
Bio.v
BioSpec.v
Log.v
Cache.v
LogSpec.v
LogTx.v
LogCrash.v
Ring.v
Virtio.v
VirtioSpec.v
VirtioSys.v
Pipe.v
Uart.v
Console.v
Fs.v
FsPath.v
FsBlock.v
FsInode.v
FsRW.v
FsFile.v
FsDir.v
Mkfs.v
MkfsSpec.v
MkfsImage.v
File.v
SysFile.v
FileSpec.v
FdSpec.v
FdSys.v
Proc.v
ProcSpec.v
ProcFork.v
ProcWait.v
Grep.v
Umalloc.v
UmallocSpec.v
UmallocOverflow.v
Ulib.v
Printf.v
Sh.v
ShSpec.v
ShRound.v
