(* ===== verification/Prelude.v ===== *)
(** * A verification development for xv6-riscv with a completely fair scheduler

    The program is the xv6-riscv teaching kernel (src/kernel), its user
    programs (src/user) and the tool that makes its disk image (src/mkfs). The
    kernel departs from the usual xv6 in kernel/proc.c: runnable processes wait
    in an intrusive red-black tree ordered by virtual runtime, from which the
    harts pick the leftmost.

    ** How C is rendered

    A function becomes a definition of the monad [M S] declared below: it runs
    on a [World], which holds the locks taken, the channels woken so far and the
    component's state [S], and ends with [Done], [Panic] (the kernel's panic),
    [Fault] (an access the C text does not define), [Blocked] (the function
    would wait for ever) or [Timeout] (its fuel is used up). [acquire] and
    [release] panic exactly where spinlock.c does. Loops are [loopM fuel body],
    with [break], [continue] and an early return as values of the body.
    Machine integers are [Z] with the wrap written out ([u32], [u64], [i32]).
    The weakest precondition [wp m Φ w] means that [m] ends with [Done] and a
    result satisfying [Φ]: every theorem stated with [wp] or with an equation
    [m w = Done ..] therefore excludes panics, faults and lack of fuel.
    A function that sleeps is split where it gives up the processor, and each
    piece is one step of a relation in which any number of processes
    interleave.

    ** The parts, and where they are

    - kernel/param.h, memlayout.h, riscv.h: the constants and address macros
      are in Param.v.
    - kernel/proc.c, the run queue (lines 47-552). ProcData.v has the process
      table and the globals, RBTree.v every tree routine. RBSpec.v has
      red-black trees as pure data, RBHeap.v the predicate that relates the
      links of the process table to such a tree, RBInsert.v and RBDelete.v the
      refinement of insertion and removal, RunQueue.v the queue as an ordered
      sequence of processes and the time-slice arithmetic.
    - kernel/proc.c, the scheduler. Sched.v has the table's part of
      [scheduler], [sched], [yield], [sleep], [wakeup], [kill], [fork], [exit],
      [wait], and the class's nice-value calls; SchedInv.v the invariant,
      SchedSys.v the steps of all harts in every interleaving.
    - kernel/proc.c, address spaces: [proc_pagetable] and
      [proc_freepagetable] are in ProcVm.v.
    - kernel/proc.c, processes: Proc.v has [allocproc], [freeproc],
      [userinit], [growproc], [fork], [exit] and [wait] on the whole kernel
      state [ksys]: the process table and run queue, the open files, the file
      system and the memory. ProcMem.v describes the memory of all processes
      against the free list, SchedKeep.v what the scheduler's operations leave
      alone, ProcSpec.v the invariant [KInv] of the whole state with [allocproc]
      and [freeproc], ProcFork.v [fork], ProcWait.v [growproc] and [wait].
    - kernel/string.c: CString.v. Words in memory: Mem.v.
    - kernel/kalloc.c: Kalloc.v, the free list threaded through memory.
    - kernel/spinlock.c: Spinlock.v, one access of a lock at a time.
      kernel/sleeplock.c: Sleeplock.v.
    - kernel/vm.c: Vm.v is the translation. VmInv.v describes a page table by
      a finite map, VmSpec.v has [walk], [mappages] and [uvmunmap], VmUser.v
      [uvmalloc], [uvmdealloc] and [uvmcopy], VmFree.v [freewalk], VmCopy.v
      the copies between kernel and user memory, VmProc.v the theorems.
    - kernel/bio.c: Bio.v is the translation, BioSpec.v the invariant of the
      ring of buffers, Cache.v the interface [BufferCache] (a class) that the
      clients use and its instance.
    - kernel/virtio_disk.c: Virtio.v is the translation, VirtioSpec.v the
      contract of the device and what the driver does with descriptors,
      VirtioSys.v the calls, interrupts and device steps that interleave.
    - kernel/log.c: Log.v is the translation, LogSpec.v what commit and
      recovery do through that interface, LogTx.v transactions, LogCrash.v a
      machine that stops after any number of disk writes.
    - kernel/fs.c: Fs.v is the translation, FsPath.v the theory of path names.
      FsBlock.v has the bitmap and blocks inside a transaction (class
      [Mounted]), FsInode.v the block map of an inode, FsRW.v [readi] and
      [writei], FsFile.v a file as a sequence of bytes, FsDir.v a directory as
      a map from names to inode numbers.
    - mkfs/mkfs.c: Mkfs.v is the translation, MkfsSpec.v what [iappend] does to
      the image, MkfsImage.v the whole image and the kernel that reads it.
    - kernel/file.c, and [pipealloc]: File.v. kernel/sysfile.c and the argument
      fetching of kernel/syscall.c: SysFile.v. FileSpec.v and FdSpec.v have the
      invariant of the file table through each call, FdSys.v the system of
      processes that make calls, fork and exit.
    - kernel/pipe.c, console.c and uart.c: Pipe.v, Console.v and Uart.v, on the
      ring buffers of Ring.v.
    - kernel/printf.c and user/printf.c: Printf.v.
    - user/umalloc.c: Umalloc.v, UmallocSpec.v and, for the largest requests,
      UmallocOverflow.v. user/ulib.c: Ulib.v. user/grep.c: Grep.v. user/sh.c:
      Sh.v (the parser), ShSpec.v, ShRound.v.

    ** What the theorems show

    - The tree code is a priority queue: insertion and removal refine the
      ordered sequence on every well-formed queue, keep the colours balanced,
      never dereference a bad pointer, and their height is logarithmic.
    - No interleaving of the harts loses a process: a process is queued exactly
      when it is runnable, runs on at most one hart, and every step returns.
    - The page allocator accounts for every page; the address-space operations
      either do all their work or give every page back; a copy of an address
      space has the same contents in fresh pages; copies to and from user
      memory succeed exactly on the mapped addresses.
    - A process is made and removed whole: [fork] gives a queued child with a
      copy of the memory and registers and shared files, or leaves everything
      as it was; [wait] gives all of an exited child back; [growproc] moves
      only the end. Pages are always either free or of exactly one owner.
    - The disk driver with any device that keeps its contract is a disk that
      serves each transfer at one moment, which is what Bio.v takes it for, and
      a call that sleeps has a notification or an interrupt to come.
    - The buffer cache is a map with the disk behind it; a transaction is on
      the disk entirely or not at all whenever the machine stops. Transactions
      that each keep within their limit may still overfill the log together.
    - A file is the bytes last written to it: [writei] changes exactly the
      bytes it reports, [readi] returns them, whatever blocks hold them. A
      directory is a map: [dirlookup] looks a name up, [dirlink] adds one.
    - mkfs makes a file system in which the kernel finds the files mkfs was
      given, with the bitmap exact and no block in two files.
    - Descriptors are well typed: whatever calls the processes make, the file
      table's counts are exact and a pipe lives as long as one of its ends.
    - Locks exclude; pipes, the console and the UART deliver bytes in order
      and lose no wakeup, apart from the one after a kill that is shown.
    - The shell's parser returns on every line and reads back what is printed;
      grep selects the lines its pattern denotes; the user allocator's blocks
      and free list partition the heap as long as requests are below 2 GB, and
      the largest requests return a block that is not there.

    ** Fuel and bounds

    Every loop takes fuel computed from its data, and the theorems show that it
    is enough: the tree loops take more steps than there are processes, the
    page loops the number of pages, [walk] the three levels of Sv39, the
    parser one more than the length of the line, printint the number of digits
    of a 64-bit value. The only loops whose length the data does not bound are
    those that wait; they are cut at the wait.

    ** Not modelled

    The assembly files and the code that only writes control registers
    (start.c, plic.c, trampoline.S, swtch.S, kernelvec.S, kvminithart);
    trap.c but for the timer's branch; the proofs for [userinit] and [exit],
    which are translated in Proc.v; the wrappers of sysproc.c; exec.c and
    [sys_exec]; and the user programs that are sequences of system calls or
    tests. Each is listed with its reason in the manifest. *)
From stdpp Require Export base list gmap strings numbers sorting.
From Stdlib Require Export ZArith Lia Zquot.

Open Scope Z_scope.

(** ** Record update

    [r <| f := v |>] is [r] with field [f] replaced, for every record type
    that declares its eta expansion as an instance of [Settable]. *)
Class Settable (R : Type) := eta : R → R.
Class Setter {R T : Type} (proj : R → T) := set_field : (T → T) → R → R.
Arguments set_field {R T} proj {_} _ _.

Ltac solve_setter :=
  match goal with
  | |- @Setter ?R ?T ?proj =>
      let e := constr:(_ : Settable R) in
      let e := eval cbv delta [eta] in e in
      let e := eval hnf in e in
      let x := eval pattern proj in e in
      match x with
      | ?u proj =>
          let y := eval cbv beta in (fun (f : T → T) (r : R) => u (fun r0 => f (proj r0)) r) in
          let _ := constr:(fun (f : T → T) (r : R) => eq_refl : proj (y f r) = f (proj r)) in
          exact y
      end
  end.
#[export] Hint Extern 1 (Setter _) => solve_setter : typeclass_instances.

Declare Scope record_scope.
Notation "r <| f := v |>" := (set_field f (λ _, v) r)
  (at level 1, left associativity, f at level 200) : record_scope.
Notation "r <| f ::= g |>" := (set_field f g r)
  (at level 1, left associativity, f at level 200) : record_scope.
Open Scope record_scope.

(** ** Machine integers

    C integers are [Z] values kept in range by an explicit wrap. *)
Definition u8 (z : Z) : Z := z mod 2 ^ 8.
Definition u16 (z : Z) : Z := z mod 2 ^ 16.
Definition u32 (z : Z) : Z := z mod 2 ^ 32.
Definition u64 (z : Z) : Z := z mod 2 ^ 64.
(** Signed conversions: two's complement, as gcc defines them for riscv64. *)
Definition i8 (z : Z) : Z := (z + 2 ^ 7) mod 2 ^ 8 - 2 ^ 7.
Definition i16 (z : Z) : Z := (z + 2 ^ 15) mod 2 ^ 16 - 2 ^ 15.
Definition i32 (z : Z) : Z := (z + 2 ^ 31) mod 2 ^ 32 - 2 ^ 31.

Lemma u8_range z : 0 ≤ u8 z < 256.
Proof. unfold u8. change (2 ^ 8) with 256. apply Z.mod_pos_bound. lia. Qed.
Lemma u32_range z : 0 ≤ u32 z < 2 ^ 32.
Proof. unfold u32. apply Z.mod_pos_bound. lia. Qed.
Lemma u64_range z : 0 ≤ u64 z < 2 ^ 64.
Proof. unfold u64. apply Z.mod_pos_bound. lia. Qed.
Lemma i32_range z : - 2 ^ 31 ≤ i32 z < 2 ^ 31.
Proof. unfold i32. pose proof (Z.mod_pos_bound (z + 2 ^ 31) (2 ^ 32)). lia. Qed.
Lemma u8_small z : 0 ≤ z < 256 → u8 z = z.
Proof. intros. unfold u8. apply Z.mod_small. lia. Qed.
Lemma u32_small z : 0 ≤ z < 2 ^ 32 → u32 z = z.
Proof. intros. unfold u32. by apply Z.mod_small. Qed.
Lemma u64_small z : 0 ≤ z < 2 ^ 64 → u64 z = z.
Proof. intros. unfold u64. by apply Z.mod_small. Qed.
Lemma i32_small z : - 2 ^ 31 ≤ z < 2 ^ 31 → i32 z = z.
Proof. intros. unfold i32. rewrite Z.mod_small; lia. Qed.

(** ** Locks, channels and the kernel monad

    A lock is named by the string its [initlock] call gives it and the index
    of the structure that embeds it; a sleep channel likewise. *)
Abbreviation lock := (string * nat)%type.
Abbreviation chan := (string * nat)%type.

(** What a kernel thread can see: the spinlocks its hart holds (their number
    is [mycpu()->noff]), the channels it has called [wakeup] on, and the state
    of the component. *)
Record world (S : Type) := World {
  held : list lock;
  wakes : list chan;
  st : S;
}.
Arguments World {S}. Arguments held {S}. Arguments wakes {S}. Arguments st {S}.
#[export] Instance eta_world S : Settable (world S) :=
  λ w, World (held w) (wakes w) (st w).

(** How a kernel function ends. *)
Inductive outcome (S A : Type) : Type :=
  | Done (a : A) (w : world S)   (* returns *)
  | Panic (msg : string)         (* calls panic() *)
  | Fault                        (* dereferences null, indexes out of range, divides by 0 *)
  | Blocked (c : chan)           (* sleeps with nobody running to wake it *)
  | Timeout.                     (* the fuel of a loop of the model ran out *)
Arguments Done {S A}. Arguments Panic {S A}. Arguments Fault {S A}.
Arguments Blocked {S A}. Arguments Timeout {S A}.

Definition M (S A : Type) : Type := world S → outcome S A.

Definition ret {S A} (a : A) : M S A := λ w, Done a w.
Definition bind {S A B} (m : M S A) (f : A → M S B) : M S B := λ w,
  match m w with
  | Done a w' => f a w'
  | Panic s => Panic s
  | Fault => Fault
  | Blocked c => Blocked c
  | Timeout => Timeout
  end.

Declare Scope kernel_scope.
Delimit Scope kernel_scope with kernel.
Notation "x ← y ; z" := (bind y (λ x, z))
  (at level 20, y at level 100, z at level 200, only parsing) : kernel_scope.
Notation "' x ← y ; z" := (bind y (λ x, z))
  (at level 20, x pattern, y at level 100, z at level 200, only parsing) : kernel_scope.
Notation "x ;; z" := (bind x (λ _, z))
  (at level 100, z at level 200, only parsing, right associativity) : kernel_scope.
Open Scope kernel_scope.

Section primitives.
Context {S : Type}.

Definition panic {A} (msg : string) : M S A := λ _, Panic msg.
Definition fault {A} : M S A := λ _, Fault.
Definition blocked {A} (c : chan) : M S A := λ _, Blocked c.
Definition timeout {A} : M S A := λ _, Timeout.
Definition gets {A} (f : S → A) : M S A := λ w, Done (f (st w)) w.
Definition modify (f : S → S) : M S unit := λ w, Done () (w <| st ::= f |>).
Definition when (b : bool) (m : M S unit) : M S unit := if b then m else ret ().

(** C's short-circuit [b && m] and [b || m]. *)
Definition andM (b : bool) (m : M S bool) : M S bool := if b then m else ret false.
Definition orM (b : bool) (m : M S bool) : M S bool := if b then ret true else m.

(** [x] must be a pointer to something. *)
Definition nonnull {A} (x : option A) : M S A :=
  match x with Some a => ret a | None => fault end.

(** [acquire()] and [release()] as the thread that calls them sees them:
    spinlock.c panics on a second acquire and on a release by a hart that is
    not the holder. Spinlock.v models the lock word and the harts. *)
Definition holding (l : lock) : M S bool := λ w, Done (bool_decide (l ∈ held w)) w.
Definition acquire (l : lock) : M S unit := λ w,
  if bool_decide (l ∈ held w) then Panic "acquire" else Done () (w <| held ::= cons l |>).
Definition release (l : lock) : M S unit := λ w,
  if bool_decide (l ∈ held w)
  then Done () (w <| held ::= filter (λ l', l' ≠ l) |>) else Panic "release".
(** The depth of push_off() nesting. *)
Definition noff : M S nat := λ w, Done (length (held w)) w.

(** [wakeup()] of a component whose state does not hold the process table:
    the channel is recorded, and Sched.v's [wakeup] is what serves it. *)
Definition notify (c : chan) : M S unit := λ w, Done () (w <| wakes ::= λ l, l ++ [c] |>).
End primitives.

(** A component's operation run inside a larger state. *)
Definition zoom {S T A} (get : S → T) (put : T → S → S) (m : M T A) : M S A := λ w,
  match m (World (held w) (wakes w) (get (st w))) with
  | Done a w' => Done a (World (held w') (wakes w') (put (st w') (st w)))
  | Panic s => Panic s
  | Fault => Fault
  | Blocked c => Blocked c
  | Timeout => Timeout
  end.

(** ** Total-correctness reasoning

    [wp m Φ w]: run from [w], [m] returns (no panic, no fault, no block, no
    exhausted fuel) and its result satisfies [Φ]. *)
Definition wp {S A} (m : M S A) (Φ : A → world S → Prop) (w : world S) : Prop :=
  match m w with Done a w' => Φ a w' | _ => False end.

Lemma filter_ne_id {A} `{EqDecision A} (x : A) (l : list A) :
  x ∉ l → filter (λ y, y ≠ x) l = l.
Proof.
  induction l as [|y l IH]; [done|]. intros Hx.
  rewrite filter_cons_True by set_solver. f_equal. set_solver.
Qed.

(** ** Disjoint segments

    [NoDup] of a concatenation says that its segments are pairwise disjoint;
    [segs H] puts such a hypothesis in segment form, and [nin] then refutes that
    two of the segments share an element. *)
Lemma elem_of_concat {A} (ls : list (list A)) i l x :
  ls !! i = Some l → x ∈ l → x ∈ concat ls.
Proof.
  revert i. induction ls as [|l' ls IH]; intros [|i] Hi Hx; simplify_eq/=; set_solver.
Qed.
Lemma NoDup_concat_disj {A} (ls : list (list A)) i j l1 l2 x :
  NoDup (concat ls) → ls !! i = Some l1 → ls !! j = Some l2 → x ∈ l1 → x ∈ l2 → i = j.
Proof.
  revert i j. induction ls as [|l ls IH]; intros i j Hnd Hi Hj Hx1 Hx2; [done|].
  simpl in Hnd. apply NoDup_app in Hnd as (Hl & Hd & Hnd).
  destruct i as [|i], j as [|j]; simplify_eq/=; [done| | |f_equal; eauto].
  - exfalso. eapply Hd; eauto using elem_of_concat.
  - exfalso. eapply Hd; eauto using elem_of_concat.
Qed.

Ltac segments l :=
  lazymatch l with
  | ?l1 ++ ?l2 => let s1 := segments l1 in let s2 := segments l2 in
                  let s := eval cbv [app] in (s1 ++ s2) in s
  | ?x :: ?l => let s := segments l in constr:([x] :: s)
  | @nil ?A => constr:(@nil (list A))
  | _ => constr:([l])
  end.
Ltac segs H :=
  cbn [concat app] in H;
  lazymatch type of H with
  | NoDup ?l =>
      let s := segments l in
      let E := fresh in
      assert (l = concat s) as E
        by (cbn [concat]; repeat (rewrite <-app_assoc || rewrite app_nil_r || cbn [app]);
            reflexivity);
      rewrite E in H; clear E
  end.
Ltac seg_index l s :=
  lazymatch s with
  | l :: _ => constr:(0%nat)
  | _ :: ?s => let n := seg_index l s in constr:(S n)
  end.
Ltac seg_clash H l1 l2 x H1 H2 :=
  lazymatch type of H with
  | NoDup (concat ?s) =>
      let i := seg_index l1 s in
      let j := seg_index l2 s in
      discriminate (NoDup_concat_disj s i j l1 l2 x H eq_refl eq_refl H1 H2)
  end.
Ltac nin :=
  match goal with
  | H : NoDup (concat _) |- ?x ≠ ?y =>
      let E := fresh in intros E;
      seg_clash H [x] [y] x (list_elem_of_here x []) (eq_ind x (λ z, x ∈ [z]) (list_elem_of_here x []) y E)
  | H : NoDup (concat _) |- ?x ∉ ?l =>
      let E := fresh in intros E; seg_clash H [x] l x (list_elem_of_here x []) E
  | H : NoDup (concat _) |- ?x ∈ ?l → False =>
      let E := fresh in intros E; seg_clash H [x] l x (list_elem_of_here x []) E
  end.

Section wp.
Context {S : Type}.
Implicit Types w : world S.

Lemma wp_done {A} (m : M S A) Φ w : wp m Φ w ↔ ∃ a w', m w = Done a w' ∧ Φ a w'.
Proof. unfold wp. destruct (m w); naive_solver. Qed.
(** The state a run ends in (the initial one if it does not return). *)
Definition final {A} (m : M S A) (w : world S) : S :=
  match m w with Done _ w' => st w' | _ => st w end.
Lemma wp_final {A} (P : S → Prop) h k (m : M S A) w :
  wp m (λ _ w', ∃ s', w' = World h k s' ∧ P s') w → P (final m w).
Proof. unfold wp, final. destruct (m w); try done. by intros (s' & -> & ?). Qed.
Lemma wp_ret {A} (a : A) Φ w : Φ a w → wp (ret a) Φ w.
Proof. done. Qed.
Lemma wp_bind {A B} (m : M S A) (f : A → M S B) Φ w :
  wp m (λ a, wp (f a) Φ) w → wp (bind m f) Φ w.
Proof. unfold wp, bind. by destruct (m w). Qed.
(** A call can be seen as one whose result is returned. *)
Lemma wp_bind_ret {A} (m : M S A) Φ w : wp (bind m ret) Φ w → wp m Φ w.
Proof. unfold wp, bind. by destruct (m w). Qed.
Lemma wp_mono {A} (m : M S A) (Φ Ψ : A → world S → Prop) w :
  wp m Φ w → (∀ a w', Φ a w' → Ψ a w') → wp m Ψ w.
Proof. unfold wp. destruct (m w); naive_solver. Qed.
Lemma wp_gets {A} (f : S → A) Φ w : Φ (f (st w)) w → wp (gets f) Φ w.
Proof. done. Qed.
Lemma wp_modify f Φ h k (s : S) : Φ () (World h k (f s)) → wp (modify f) Φ (World h k s).
Proof. done. Qed.
Lemma wp_when (b : bool) (m : M S unit) Φ w :
  (if b then wp m Φ w else Φ () w) → wp (when b m) Φ w.
Proof. by destruct b. Qed.
Lemma wp_andM (b : bool) (m : M S bool) Φ w :
  (if b then wp m Φ w else Φ false w) → wp (andM b m) Φ w.
Proof. by destruct b. Qed.
Lemma wp_orM (b : bool) (m : M S bool) Φ w :
  (if b then Φ true w else wp m Φ w) → wp (orM b m) Φ w.
Proof. by destruct b. Qed.
Lemma wp_acquire l Φ h k (s : S) :
  l ∉ h → Φ () (World (l :: h) k s) → wp (acquire l) Φ (World h k s).
Proof. intros. unfold wp, acquire. simpl. by rewrite bool_decide_eq_false_2. Qed.
Lemma wp_release l Φ h k (s : S) :
  l ∉ h → Φ () (World h k s) → wp (release l) Φ (World (l :: h) k s).
Proof.
  intros Hl HΦ. unfold wp, release. simpl.
  rewrite bool_decide_eq_true_2 by set_solver. unfold set_field; cbn -[filter].
  rewrite filter_cons_False by naive_solver. by rewrite filter_ne_id.
Qed.
Lemma wp_notify c Φ h k (s : S) : Φ () (World h (k ++ [c]) s) → wp (notify c) Φ (World h k s).
Proof. done. Qed.
(** A last statement can be seen as one followed by nothing. *)
Lemma wp_seq_end (m : M S unit) Φ w : wp (m;; ret ()) Φ w → wp m Φ w.
Proof. unfold wp, bind. by destruct (m w) as [[]| | | |]. Qed.
End wp.
Lemma wp_zoom {S T A} (get : S → T) (put : T → S → S) (m : M T A) Φ h k (s : S) :
  wp m (λ a w', Φ a (World (held w') (wakes w') (put (st w') s))) (World h k (get s)) → wp (zoom get put m) Φ (World h k s).
Proof. unfold wp, zoom. cbn. by destruct (m _). Qed.

(** ** Loops

    [loopM d body a] iterates [body], which yields the next loop state ([inl])
    or the value the loop ends with ([inr]), at most [2 ^ d] times. Loops over
    64-bit quantities take [d = 64], which no run exhausts; [wp_loop] asks for
    a measure that proves it. *)
Fixpoint loop_steps {S A B} (d : nat) (body : A → M S (A + B)) (a : A) : M S (A + B) :=
  match d with
  | O => body a
  | Datatypes.S d =>
      r ← loop_steps d body a;
      match r with inl a' => loop_steps d body a' | inr b => ret (inr b) end
  end.
Definition loopM {S A B} (d : nat) (body : A → M S (A + B)) (a : A) : M S B :=
  r ← loop_steps d body a;
  match r with inl _ => timeout | inr b => ret b end.
Definition break {S A B} (b : B) : M S (A + B) := ret (inr b).
Definition continue {S A B} (a : A) : M S (A + B) := ret (inl a).

Section loops.
Context {S A B : Type} (body : A → M S (A + B)) (I : Z → A → world S → Prop) (Φ : B → world S → Prop).
Context (Hnonneg : ∀ n a w, I n a w → 0 ≤ n).
Context (Hbody : ∀ n a w, I n a w →
  wp (body a) (λ r w', match r with inl a' => ∃ n', I n' a' w' ∧ n' < n | inr b => Φ b w' end) w).

Lemma wp_loop_steps d : ∀ n a w, I n a w →
  wp (loop_steps d body a)
    (λ r w', match r with inl a' => ∃ n', I n' a' w' ∧ n' + 2 ^ Z.of_nat d ≤ n | inr b => Φ b w' end) w.
Proof.
  induction d as [|d IH]; intros n a w HI; cbn [loop_steps].
  - eapply wp_mono; [by apply Hbody|]. intros [a'|b] w' H; [|done]. destruct H as (n' & ? & ?).
    exists n'. split; [done|]. simpl. lia.
  - apply wp_bind. eapply wp_mono; [by apply IH|]. intros [a'|b] w' H; [|done].
    destruct H as (n' & HI' & Hn'). eapply wp_mono; [by apply IH|]. intros [a2|b] w2 H2; [|done].
    destruct H2 as (n2 & HI2 & Hn2). exists n2. split; [done|].
    rewrite Nat2Z.inj_succ, Z.pow_succ_r by lia. lia.
Qed.
Lemma wp_loop d n a w : I n a w → n < 2 ^ Z.of_nat d → wp (loopM d body a) Φ w.
Proof.
  intros HI Hn. apply wp_bind. eapply wp_mono; [by apply wp_loop_steps|].
  intros [a'|b] w' H; [|done]. destruct H as (n' & HI' & Hn'). apply Hnonneg in HI'. lia.
Qed.
End loops.
