(* ===== verification/Param.v ===== *)
(** * Kernel parameters and address arithmetic

    The constants of kernel/param.h, the physical and virtual layout of
    kernel/memlayout.h and the page-table macros of kernel/riscv.h, with the
    arithmetic facts the memory components use. *)
From S2P Require Import Prelude.

(** ** kernel/param.h *)
Definition NPROC : nat := 64.
Definition NCPU : nat := 8.
Definition NOFILE : nat := 16.
Definition NFILE : nat := 100.
Definition NINODE : nat := 50.
Definition NDEV : Z := 10.
Definition ROOTDEV : Z := 1.
Definition MAXARG : nat := 32.
Definition MAXOPBLOCKS : Z := 10.
Definition LOGSIZE : Z := MAXOPBLOCKS * 3.
Definition NBUF : nat := 30.
Definition FSSIZE : Z := 2000.
Definition MAXPATH : Z := 128.

(** ** kernel/riscv.h *)
Definition PGSIZE : Z := 4096.
Definition PGSHIFT : Z := 12.
Definition PGROUNDUP (sz : Z) : Z := Z.land (u64 (sz + PGSIZE - 1)) (u64 (Z.lnot (PGSIZE - 1))).
Definition PGROUNDDOWN (a : Z) : Z := Z.land a (u64 (Z.lnot (PGSIZE - 1))).
Definition PTE_V : Z := Z.shiftl 1 0.
Definition PTE_R : Z := Z.shiftl 1 1.
Definition PTE_W : Z := Z.shiftl 1 2.
Definition PTE_X : Z := Z.shiftl 1 3.
Definition PTE_U : Z := Z.shiftl 1 4.
Definition PA2PTE (pa : Z) : Z := u64 (Z.shiftl (Z.shiftr pa 12) 10).
Definition PTE2PA (pte : Z) : Z := u64 (Z.shiftl (Z.shiftr pte 10) 12).
Definition PTE_FLAGS (pte : Z) : Z := Z.land pte 0x3FF.
Definition PXMASK : Z := 0x1FF.
Definition PXSHIFT (level : Z) : Z := PGSHIFT + 9 * level.
Definition PX (level va : Z) : Z := Z.land (Z.shiftr va (PXSHIFT level)) PXMASK.
Definition MAXVA : Z := Z.shiftl 1 (9 + 9 + 9 + 12 - 1).
Definition SATP_SV39 : Z := Z.shiftl 8 60.
Definition MAKE_SATP (pagetable : Z) : Z := Z.lor SATP_SV39 (Z.shiftr pagetable 12).

(** ** kernel/memlayout.h *)
Definition UART0 : Z := 0x10000000.
Definition VIRTIO0 : Z := 0x10001000.
Definition PLIC : Z := 0x0c000000.
Definition KERNBASE : Z := 0x80000000.
Definition PHYSTOP : Z := KERNBASE + 128 * 1024 * 1024.
Definition TRAMPOLINE : Z := MAXVA - PGSIZE.
Definition KSTACK (p : Z) : Z := TRAMPOLINE - (p + 1) * 2 * PGSIZE.
Definition TRAPFRAME : Z := TRAMPOLINE - PGSIZE.

(** ** Page arithmetic *)
Lemma PGROUNDDOWN_eq a : 0 ≤ a < 2 ^ 64 → PGROUNDDOWN a = a - a mod PGSIZE.
Proof.
  intros Ha. unfold PGROUNDDOWN, PGSIZE.
  replace (u64 (Z.lnot (4096 - 1))) with (Z.ldiff (Z.ones 64) (Z.ones 12)) by reflexivity.
  replace (Z.land a (Z.ldiff (Z.ones 64) (Z.ones 12))) with (Z.ldiff (Z.land a (Z.ones 64)) (Z.ones 12)).
  - rewrite Z.land_ones, Z.mod_small by lia. rewrite Z.ldiff_ones_r by lia.
    rewrite Z.shiftl_mul_pow2, Z.shiftr_div_pow2 by lia. change (2 ^ 12) with 4096.
    pose proof (Z.div_mod a 4096). lia.
  - apply Z.bits_inj'. intros n Hn. rewrite !Z.ldiff_spec, !Z.land_spec, Z.ldiff_spec.
    by rewrite andb_assoc.
Qed.
Lemma PGROUNDUP_eq a : 0 ≤ a < 2 ^ 64 - PGSIZE →
  PGROUNDUP a = (a + PGSIZE - 1) - (a + PGSIZE - 1) mod PGSIZE.
Proof.
  intros Ha. unfold PGROUNDUP. change (PGROUNDDOWN (u64 (a + PGSIZE - 1)) = a + PGSIZE - 1 - (a + PGSIZE - 1) mod PGSIZE).
  unfold PGSIZE in *. rewrite u64_small by lia. apply PGROUNDDOWN_eq. lia.
Qed.
Lemma PGROUNDUP_bounds a : 0 ≤ a < 2 ^ 64 - PGSIZE →
  a ≤ PGROUNDUP a < a + PGSIZE ∧ PGROUNDUP a mod PGSIZE = 0.
Proof.
  intros Ha. rewrite PGROUNDUP_eq by done. unfold PGSIZE in *.
  pose proof (Z.mod_pos_bound (a + 4096 - 1) 4096). split; [lia|].
  rewrite Zminus_mod_idemp_r, Z.sub_diag. done.
Qed.
