(* ===== verification/ProcData.v ===== *)
(** * The process table

    The structures of kernel/proc.h and the globals of kernel/proc.c: the
    process control block with its CFS and red-black tree fields, the run
    queue header and the per-hart state. Pointers to a [struct proc] are
    indices into [proc[NPROC]], with [None] for the null pointer. *)
From S2P Require Import Prelude Param.

Abbreviation ptr := (option nat).

(** ** kernel/proc.h *)
Inductive procstate := UNUSED | USED | SLEEPING | RUNNABLE | RUNNING | ZOMBIE.
Inductive procColor := RED | BLACK.

#[export] Instance procstate_eq_dec : EqDecision procstate.
Proof. solve_decision. Defined.
#[export] Instance procColor_eq_dec : EqDecision procColor.
Proof. solve_decision. Defined.

(** Saved registers for kernel context switches. *)
Record context := mkContext {
  ra : Z; sp : Z;
  s0 : Z; s1 : Z; s2 : Z; s3 : Z; s4 : Z; s5 : Z;
  s6 : Z; s7 : Z; s8 : Z; s9 : Z; s10 : Z; s11 : Z;
}.
#[export] Instance eta_context : Settable context := λ c,
  mkContext (ra c) (sp c) (s0 c) (s1 c) (s2 c) (s3 c) (s4 c) (s5 c)
    (s6 c) (s7 c) (s8 c) (s9 c) (s10 c) (s11 c).
Definition context0 : context := mkContext 0 0 0 0 0 0 0 0 0 0 0 0 0 0.

(** Per-process state. The embedded spinlock is the lock [("proc", i)]. *)
Record proc := mkProc {
  state : procstate;
  chan_ : option chan;
  killed : Z;
  xstate : Z;
  pid : Z;
  parent : ptr;
  kstack : Z;
  sz : Z;
  pagetable : Z;
  trapframe : Z;
  context_ : context;
  ofile : list ptr;
  cwd : ptr;
  name : list Z;
  priority : Z;
  virtualRuntime : Z;
  currentRuntime : Z;
  maximumExecutiontime : Z;
  niceValue : Z;
  weightValue : Z;
  coloring : procColor;
  left : ptr;
  right : ptr;
  parentP : ptr;
}.
#[export] Instance eta_proc : Settable proc := λ p,
  mkProc (state p) (chan_ p) (killed p) (xstate p) (pid p) (parent p) (kstack p) (sz p)
    (pagetable p) (trapframe p) (context_ p) (ofile p) (cwd p) (name p) (priority p)
    (virtualRuntime p) (currentRuntime p) (maximumExecutiontime p) (niceValue p)
    (weightValue p) (coloring p) (left p) (right p) (parentP p).

(** A zeroed element of the statically allocated [proc[]]. *)
Definition proc0 : proc :=
  mkProc UNUSED None 0 0 0 None 0 0 0 0 context0 (replicate NOFILE None) None
    (replicate 16 0) 0 0 0 0 0 0 RED None None None.

(** Per-CPU state; [noff] is the length of the held-lock list of the monad. *)
Record cpu := mkCpu { cproc : ptr; ccontext : context; intena : bool }.
#[export] Instance eta_cpu : Settable cpu := λ c, mkCpu (cproc c) (ccontext c) (intena c).

(** ** kernel/proc.c globals *)
Record redblackTree := mkTree {
  count : Z;
  rbTreeWeight : Z;
  root : ptr;
  min_vRuntime : ptr;
  period : Z;
}.
#[export] Instance eta_tree : Settable redblackTree := λ t,
  mkTree (count t) (rbTreeWeight t) (root t) (min_vRuntime t) (period t).

(** The scheduler's state as seen by hart [tp]. *)
Record sched := mkSched {
  cpus : list cpu;
  procs : list proc;
  rbTree : redblackTree;
  initproc : ptr;
  nextpid : Z;
  tp : nat;
}.
#[export] Instance eta_sched : Settable sched := λ s,
  mkSched (cpus s) (procs s) (rbTree s) (initproc s) (nextpid s) (tp s).

Definition latency : Z := Z.of_nat NPROC / 2.
Definition min_granularity : Z := 2.

Definition tree_lock : lock := ("runnableTasks", 0%nat).
Definition proc_lock (i : nat) : lock := ("proc", i).
Definition wait_lock : lock := ("wait_lock", 0%nat).
Definition pid_lock : lock := ("nextpid", 0%nat).

(** ** Field access through a [struct proc] pointer *)
Definition rd {A} (f : proc → A) (p : ptr) : M sched A := λ w,
  match p with
  | Some i => match procs (st w) !! i with Some pr => Done (f pr) w | None => Fault end
  | None => Fault
  end.
Definition wr (p : ptr) (g : proc → proc) : M sched unit := λ w,
  match p with
  | Some i =>
      match procs (st w) !! i with
      | Some pr => Done () (w <| st ::= λ s, s <| procs ::= <[i := g pr]> |> |>)
      | None => Fault
      end
  | None => Fault
  end.
Definition rdt {A} (f : redblackTree → A) : M sched A := gets (λ s, f (rbTree s)).
Definition wrt (g : redblackTree → redblackTree) : M sched unit :=
  modify (λ s, s <| rbTree ::= g |>).
