(* ===== verification/RBTree.v ===== *)
(** * The CFS run queue: the red-black tree code of kernel/proc.c

    A line-by-line translation of the tree routines (proc.c lines 47-552),
    working on the process table with its intrusive left/right/parent
    pointers. *)
From S2P Require Import Prelude Param ProcData.
From Stdlib Require Import SpecFloat.

(** ** Weights

    [calculateWeight] computes with C doubles: IEEE 754 binary64, here the
    executable specification of the Standard Library. *)
Definition b64 : Z → Z → spec_float := λ m e, binary_normalize 53 1024 m e false.
Definition dmul : spec_float → spec_float → spec_float := SFmul 53 1024.
Definition ddiv : spec_float → spec_float → spec_float := SFdiv 53 1024.

(** Conversion of a double to int: truncation toward zero. *)
Definition double_to_int (x : spec_float) : Z :=
  match x with
  | S754_finite sgn m e =>
      let v := if 0 <=? e then Z.shiftl (Zpos m) e else Z.shiftr (Zpos m) (- e) in
      i32 (if sgn then - v else v)
  | _ => 0
  end.

(** The loop body runs [max 0 nice] times. *)
Fixpoint weight_denominator (n : nat) (denominator : spec_float) : spec_float :=
  match n with
  | O => denominator
  | S n => weight_denominator n (dmul denominator (b64 5 (-2)))
  end.

Definition calculateWeight (nice : Z) : Z :=
  let nice := if nice >? 30 then 30 else nice in
  let denominator := weight_denominator (Z.to_nat nice) (b64 5 (-2)) in
  double_to_int (ddiv (b64 1024 0) denominator).

(** ** The tree header *)
Definition rbinit : M sched unit :=
  wrt (λ t, t <| count := 0 |> <| root := None |> <| rbTreeWeight := 0 |>
              <| min_vRuntime := None |> <| period := latency |>).

Definition emptyTree : M sched bool := rdt (λ t, count t =? 0).
Definition fullTree : M sched bool := rdt (λ t, count t =? Z.of_nat NPROC).

(** ** Navigation *)
Definition retrieveGrandparentproc (process : ptr) : M sched ptr :=
  match process with
  | None => ret None
  | Some _ =>
      pp ← rd parentP process;
      match pp with
      | None => ret None
      | Some _ => rd parentP pp
      end
  end.

Definition retrieveUncleproc (process : ptr) : M sched ptr :=
  grandParent ← retrieveGrandparentproc process;
  match grandParent with
  | None => ret None
  | Some _ =>
      pp ← rd parentP process;
      gl ← rd left grandParent;
      if bool_decide (pp = gl) then rd right grandParent else rd left grandParent
  end.

(** ** Rotations *)
Definition rotateLeft (positionProc : ptr) : M sched unit :=
  save_right_Proc ← rd right positionProc;
  srl ← rd left save_right_Proc;
  wr positionProc (λ p, p <| right := srl |>);;
  srl ← rd left save_right_Proc;
  when (bool_decide (srl ≠ None)) (wr srl (λ p, p <| parentP := positionProc |>));;
  pp ← rd parentP positionProc;
  wr save_right_Proc (λ p, p <| parentP := pp |>);;
  pp ← rd parentP positionProc;
  (if bool_decide (pp = None) then
     wrt (λ t, t <| root := save_right_Proc |>)
   else
     ppl ← rd left pp;
     if bool_decide (positionProc = ppl) then wr pp (λ p, p <| left := save_right_Proc |>)
     else wr pp (λ p, p <| right := save_right_Proc |>));;
  wr save_right_Proc (λ p, p <| left := positionProc |>);;
  wr positionProc (λ p, p <| parentP := save_right_Proc |>).

Definition rotateRight (positionProc : ptr) : M sched unit :=
  save_left_Proc ← rd left positionProc;
  slr ← rd right save_left_Proc;
  wr positionProc (λ p, p <| left := slr |>);;
  slr ← rd right save_left_Proc;
  when (bool_decide (slr ≠ None)) (wr slr (λ p, p <| parentP := positionProc |>));;
  pp ← rd parentP positionProc;
  wr save_left_Proc (λ p, p <| parentP := pp |>);;
  pp ← rd parentP positionProc;
  (if bool_decide (pp = None) then
     wrt (λ t, t <| root := save_left_Proc |>)
   else
     ppr ← rd right pp;
     if bool_decide (positionProc = ppr) then wr pp (λ p, p <| right := save_left_Proc |>)
     else wr pp (λ p, p <| left := save_left_Proc |>));;
  wr save_left_Proc (λ p, p <| right := positionProc |>);;
  wr positionProc (λ p, p <| parentP := save_left_Proc |>).

(** ** Minimum and insertion *)
Fixpoint setMinimumVRuntimeproc (fuel : nat) (traversingProcess : ptr) : M sched ptr :=
  match fuel with
  | O => timeout
  | S fuel =>
      match traversingProcess with
      | None => ret None
      | Some _ =>
          l ← rd left traversingProcess;
          match l with
          | Some _ => setMinimumVRuntimeproc fuel l
          | None => ret traversingProcess
          end
      end
  end.

Fixpoint insertproc (fuel : nat) (traversingProcess insertingProcess : ptr) : M sched ptr :=
  match fuel with
  | O => timeout
  | S fuel =>
      wr insertingProcess (λ p, p <| coloring := RED |>);;
      match traversingProcess with
      | None => ret insertingProcess
      | Some _ =>
          tv ← rd virtualRuntime traversingProcess;
          iv ← rd virtualRuntime insertingProcess;
          (if tv <=? iv then
             wr insertingProcess (λ p, p <| parentP := traversingProcess |>);;
             r ← rd right traversingProcess;
             r' ← insertproc fuel r insertingProcess;
             wr traversingProcess (λ p, p <| right := r' |>)
           else
             wr insertingProcess (λ p, p <| parentP := traversingProcess |>);;
             l ← rd left traversingProcess;
             l' ← insertproc fuel l insertingProcess;
             wr traversingProcess (λ p, p <| left := l' |>));;
          ret traversingProcess
      end
  end.

Definition is_red (p : ptr) : M sched bool :=
  c ← rd coloring p; ret (bool_decide (c = RED)).

Fixpoint insertionCases (fuel : nat) (rbProcess : ptr) (cases : Z) : M sched unit :=
  match fuel with
  | O => timeout
  | S fuel =>
      match cases with
      | 1 =>
          pp ← rd parentP rbProcess;
          if bool_decide (pp = None) then wr rbProcess (λ p, p <| coloring := BLACK |>)
          else insertionCases fuel rbProcess 2
      | 2 =>
          pp ← rd parentP rbProcess;
          b ← is_red pp;
          when b (insertionCases fuel rbProcess 3)
      | 3 =>
          uncle ← retrieveUncleproc rbProcess;
          b ← andM (bool_decide (uncle ≠ None)) (is_red uncle);
          if b then
            pp ← rd parentP rbProcess;
            wr pp (λ p, p <| coloring := BLACK |>);;
            wr uncle (λ p, p <| coloring := BLACK |>);;
            grandparent ← retrieveGrandparentproc rbProcess;
            wr grandparent (λ p, p <| coloring := RED |>);;
            insertionCases fuel grandparent 1
          else insertionCases fuel rbProcess 4
      | 4 =>
          grandparent ← retrieveGrandparentproc rbProcess;
          pp ← rd parentP rbProcess;
          ppr ← rd right pp;
          c1 ← andM (bool_decide (rbProcess = ppr)) (gl ← rd left grandparent; ret (bool_decide (pp = gl)));
          if c1 then
            rotateLeft pp;;
            rbProcess ← rd left rbProcess;
            insertionCases fuel rbProcess 5
          else
            ppl ← rd left pp;
            c2 ← andM (bool_decide (rbProcess = ppl)) (gr ← rd right grandparent; ret (bool_decide (pp = gr)));
            if c2 then
              rotateRight pp;;
              rbProcess ← rd right rbProcess;
              insertionCases fuel rbProcess 5
            else insertionCases fuel rbProcess 5
      | 5 =>
          grandparent ← retrieveGrandparentproc rbProcess;
          when (bool_decide (grandparent ≠ None))
            (wr grandparent (λ p, p <| coloring := RED |>);;
             pp ← rd parentP rbProcess;
             wr pp (λ p, p <| coloring := BLACK |>);;
             ppl ← rd left pp;
             c1 ← andM (bool_decide (rbProcess = ppl)) (gl ← rd left grandparent; ret (bool_decide (pp = gl)));
             if c1 then rotateRight grandparent
             else
               ppr ← rd right pp;
               c2 ← andM (bool_decide (rbProcess = ppr)) (gr ← rd right grandparent; ret (bool_decide (pp = gr)));
               when c2 (rotateLeft grandparent))
      | _ => ret ()
      end
  end.

(** Enough fuel for any tree over the process table: the descent visits each
    process once, and a fix-up passes through at most four cases per level. *)
Definition tree_fuel : nat := 2 + NPROC.
Definition cases_fuel : nat := 4 * NPROC + 4.

Definition insertProcess (p : ptr) : M sched unit :=
  acquire tree_lock;;
  full ← fullTree;
  when (negb full)
    (r ← rdt root;
     r' ← insertproc tree_fuel r p;
     wrt (λ t, t <| root := r' |>);;
     c ← rdt count;
     when (c =? 0) (r ← rdt root; wr r (λ q, q <| parentP := None |>));;
     wrt (λ t, t <| count ::= λ c, i32 (c + 1) |>);;
     nice ← rd niceValue p;
     wr p (λ q, q <| weightValue := calculateWeight nice |>);;
     wv ← rd weightValue p;
     wrt (λ t, t <| rbTreeWeight ::= λ x, i32 (x + wv) |>);;
     insertionCases cases_fuel p 1;;
     m ← rdt min_vRuntime;
     stale ← orM (bool_decide (m = None)) (ml ← rd left m; ret (bool_decide (ml ≠ None)));
     when stale
       (r ← rdt root;
        m' ← setMinimumVRuntimeproc tree_fuel r;
        wrt (λ t, t <| min_vRuntime := m' |>)));;
  release tree_lock.

(** ** Removal of the leftmost process *)
Definition is_black (p : ptr) : M sched bool :=
  c ← rd coloring p; ret (bool_decide (c = BLACK)).

(** [p == 0 || p->coloring == BLACK]. *)
Definition null_or_black (p : ptr) : M sched bool :=
  orM (bool_decide (p = None)) (is_black p).

(** The steps of one iteration of the loop of case 2, in the order of the code:
    a red sibling is rotated away; the sibling's children are tested; a black
    far child is exchanged for a red one; the last rotation. *)
Definition rotate_red_sibling (parentProc siblingProcess : ptr) : M sched ptr :=
  b ← andM (bool_decide (siblingProcess ≠ None)) (is_red siblingProcess);
  if b then
    wr siblingProcess (λ p, p <| coloring := BLACK |>);;
    wr parentProc (λ p, p <| coloring := RED |>);;
    rotateLeft parentProc;;
    rd right parentProc
  else ret siblingProcess.

Definition children_black (siblingProcess : ptr) : M sched bool :=
  sl ← rd left siblingProcess;
  slb ← null_or_black sl;
  andM slb (sr ← rd right siblingProcess; null_or_black sr).

Definition rotate_near_child (parentProc siblingProcess : ptr) : M sched ptr :=
  sr ← rd right siblingProcess;
  srb ← null_or_black sr;
  if srb then
    sl ← rd left siblingProcess;
    when (bool_decide (sl ≠ None)) (wr sl (λ p, p <| coloring := BLACK |>));;
    wr siblingProcess (λ p, p <| coloring := RED |>);;
    rotateRight siblingProcess;;
    rd right parentProc
  else ret siblingProcess.

Definition rotate_parent (parentProc siblingProcess : ptr) : M sched unit :=
  pc ← rd coloring parentProc;
  wr siblingProcess (λ p, p <| coloring := pc |>);;
  wr parentProc (λ p, p <| coloring := BLACK |>);;
  sr ← rd right siblingProcess;
  wr sr (λ p, p <| coloring := BLACK |>);;
  rotateLeft parentProc.

(** The while loop of case 2 of [retrievingCases]; its result is the value of
    [process] when the loop is left. The body does nothing when [process] is not
    the left child of [parentProc]: the loop would then spin. *)
Fixpoint retrieving_while (fuel : nat) (parentProc process : ptr) : M sched ptr :=
  match fuel with
  | O => timeout
  | S fuel =>
      r ← rdt root;
      continue ← andM (bool_decide (process ≠ r)) (null_or_black process);
      if continue then
        ppl ← rd left parentProc;
        if bool_decide (process = ppl) then
          siblingProcess ← rd right parentProc;
          siblingProcess ← rotate_red_sibling parentProc siblingProcess;
          both ← children_black siblingProcess;
          if both then
            wr siblingProcess (λ p, p <| coloring := RED |>);;
            pp ← rd parentP parentProc;
            retrieving_while fuel pp parentProc
          else
            siblingProcess ← rotate_near_child parentProc siblingProcess;
            rotate_parent parentProc siblingProcess;;
            r ← rdt root;
            retrieving_while fuel parentProc r
        else retrieving_while fuel parentProc process
      else ret process
  end.

Definition retrievingCases_2 (parentProc process : ptr) : M sched unit :=
  process ← retrieving_while tree_fuel parentProc process;
  when (bool_decide (process ≠ None)) (wr process (λ p, p <| coloring := BLACK |>)).

(** The if/else chain of case 1: [process] is replaced by its right child. *)
Definition replace_by_child (parentProc process childProcess : ptr) : M sched unit :=
  r ← rdt root;
  if bool_decide (process = r) then
    wrt (λ t, t <| root := childProcess |>);;
    when (bool_decide (childProcess ≠ None))
      (wr childProcess (λ p, p <| parentP := None |>);;
       wr childProcess (λ p, p <| coloring := BLACK |>))
  else
    differ ← andM (bool_decide (childProcess ≠ None))
               (c1 ← rd coloring process; c2 ← rd coloring childProcess;
                ret (negb (bool_decide (c1 = c2))));
    if differ then
      wr childProcess (λ p, p <| parentP := parentProc |>);;
      wr parentProc (λ p, p <| left := childProcess |>);;
      wr childProcess (λ p, p <| coloring := BLACK |>)
    else
      red ← is_red process;
      if red then wr parentProc (λ p, p <| left := childProcess |>)
      else
        when (bool_decide (childProcess ≠ None))
          (wr childProcess (λ p, p <| parentP := parentProc |>));;
        wr parentProc (λ p, p <| left := childProcess |>);;
        retrievingCases_2 parentProc childProcess.

Definition retrievingCases_1 (parentProc process : ptr) : M sched unit :=
  childProcess ← rd right process;
  replace_by_child parentProc process childProcess;;
  wr process (λ p, p <| parentP := None |>);;
  wr process (λ p, p <| left := None |>);;
  wr process (λ p, p <| right := None |>).

Definition retrievingCases (parentProc process : ptr) (cases : Z) : M sched unit :=
  match cases with
  | 1 => retrievingCases_1 parentProc process
  | 2 => retrievingCases_2 parentProc process
  | _ => ret ()
  end.

(** Integer division in C truncates toward zero; by zero it is undefined. *)
Definition cdiv (a b : Z) : M sched Z := if b =? 0 then fault else ret (i32 (Z.quot a b)).

Definition retrieveProcess : M sched ptr :=
  acquire tree_lock;;
  empty ← emptyTree;
  if negb empty then
    c ← rdt count;
    when (c >? Z.quot latency min_granularity)
      (wrt (λ t, t <| period := i32 (c * min_granularity) |>));;
    foundProcess ← rdt min_vRuntime;
    s ← rd state foundProcess;
    if bool_decide (s ≠ RUNNABLE) then
      release tree_lock;;
      ret None
    else
      m ← rdt min_vRuntime;
      mp ← rd parentP m;
      retrievingCases mp m 1;;
      wrt (λ t, t <| count ::= λ c, i32 (c - 1) |>);;
      r ← rdt root;
      m' ← setMinimumVRuntimeproc tree_fuel r;
      wrt (λ t, t <| min_vRuntime := m' |>);;
      per ← rdt period;
      wv ← rd weightValue foundProcess;
      tw ← rdt rbTreeWeight;
      slice ← cdiv (i32 (per * wv)) tw;
      wr foundProcess (λ p, p <| maximumExecutiontime := slice |>);;
      wv ← rd weightValue foundProcess;
      wrt (λ t, t <| rbTreeWeight ::= λ x, i32 (x - wv) |>);;
      release tree_lock;;
      ret foundProcess
  else
    release tree_lock;;
    ret None.

(** ** Preemption *)
Definition checkPreemption (current min_vruntime : ptr) : M sched Z :=
  procRuntime ← rd currentRuntime current;
  maxt ← rd maximumExecutiontime current;
  if (procRuntime >=? maxt) && (procRuntime >=? min_granularity) then ret 1
  else
    c ← andM (bool_decide (min_vruntime ≠ None))
          (s ← rd state min_vruntime;
           andM (bool_decide (s = RUNNABLE))
             (cv ← rd virtualRuntime current;
              mv ← rd virtualRuntime min_vruntime;
              ret (cv >? mv)));
    if c then
      if negb (procRuntime =? 0) && (procRuntime >=? min_granularity) then ret 1
      else if procRuntime =? 0 then ret 1
      else ret 0
    else ret 0.

(** Concrete runs. *)
Definition sched0 : sched :=
  mkSched (replicate NCPU (mkCpu None context0 false)) (replicate NPROC proc0)
    (mkTree 0 0 None None latency) None 1 0.
