(* ===== verification/RBSpec.v ===== *)
(** * Red-black trees as pure data

    The abstract counterpart of the intrusive tree of proc.c: coloured trees
    whose nodes are process indices, their zippers, the red-black invariant
    of a tree and of a context, and the in-order sequence of a tree. *)
From S2P Require Import Prelude ProcData.

Inductive tree :=
  | E
  | T (c : procColor) (l : tree) (x : nat) (r : tree).

(** A context is a path from the hole to the root, innermost frame first. *)
Inductive side := L | R.
Record frame := Frame { f_side : side; f_col : procColor; f_node : nat; f_sib : tree }.
Abbreviation ctx := (list frame).

Definition fill (f : frame) (t : tree) : tree :=
  match f_side f with
  | L => T (f_col f) t (f_node f) (f_sib f)
  | R => T (f_col f) (f_sib f) (f_node f) t
  end.
Fixpoint zip (k : ctx) (t : tree) : tree :=
  match k with [] => t | f :: k => zip k (fill f t) end.

Fixpoint nodes (t : tree) : list nat :=
  match t with E => [] | T _ l x r => nodes l ++ x :: nodes r end.
Lemma nodes_nil t : nodes t = [] → t = E.
Proof. destruct t as [|c l x r]; simpl; [done|]. by destruct (nodes l). Qed.

(** The nodes of a context: those in-order before the hole, and after it. *)
Fixpoint knodes (k : ctx) : list nat * list nat :=
  match k with
  | [] => ([], [])
  | f :: k =>
      let '(a, b) := knodes k in
      match f_side f with
      | L => (a, f_node f :: nodes (f_sib f) ++ b)
      | R => (a ++ nodes (f_sib f) ++ [f_node f], b)
      end
  end.

Lemma nodes_zip k t : nodes (zip k t) = (knodes k).1 ++ nodes t ++ (knodes k).2.
Proof.
  revert t. induction k as [|[s c x u] k IH]; intros t; simpl.
  { by rewrite app_nil_r. }
  rewrite IH. destruct (knodes k) as [a b], s; simpl; by rewrite <-?app_assoc; simpl.
Qed.

Lemma zip_app k1 k2 t : zip (k1 ++ k2) t = zip k2 (zip k1 t).
Proof. revert t. induction k1; intros; simpl; eauto. Qed.

Definition tcol (t : tree) : procColor := match t with E => BLACK | T c _ _ _ => c end.
Definition kcol (k : ctx) : option procColor :=
  match k with [] => None | f :: _ => Some (f_col f) end.
Definition blacken (t : tree) : tree :=
  match t with E => E | T _ l x r => T BLACK l x r end.

(** [rb t n]: no red node has a red child, and every path from the root down
    has [n] black nodes. *)
Inductive rb : tree → nat → Prop :=
  | rb_E : rb E 0
  | rb_R l x r n : rb l n → rb r n → tcol l = BLACK → tcol r = BLACK → rb (T RED l x r) n
  | rb_B l x r n : rb l n → rb r n → rb (T BLACK l x r) (S n).

(** [rbk k n]: [k] becomes a red-black tree with a black root when its hole is
    filled by a tree of black height [n] (black if the innermost frame is red). *)
Inductive rbk : ctx → nat → Prop :=
  | rbk_nil n : rbk [] n
  | rbk_R s x u k n : rb u n → tcol u = BLACK → kcol k = Some BLACK → rbk k n →
      rbk (Frame s RED x u :: k) n
  | rbk_B s x u k n : rb u n → rbk k (S n) → rbk (Frame s BLACK x u :: k) n.

Definition is_rb (t : tree) : Prop := tcol t = BLACK ∧ ∃ n, rb t n.

Create HintDb rbdb.
#[export] Hint Constructors rb rbk : rbdb.

Lemma rb_E_inv t : rb t 0 → tcol t = BLACK → t = E.
Proof. inversion 1; simpl; congruence. Qed.
Lemma rb_0_inv t : rb t 0 → t = E ∨ ∃ y, t = T RED E y E.
Proof.
  inversion 1 as [|l x r n Hl Hr El Er|]; subst; [by left|right].
  apply rb_E_inv in Hl as ->, Hr as ->; eauto.
Qed.
Lemma rb_blacken t n : rb t n → tcol t = RED → rb (blacken t) (S n).
Proof. destruct 1; simpl; intros; try congruence; by constructor. Qed.
Lemma rb_S_inv t n : rb t (S n) → tcol t = BLACK →
  ∃ l x r, t = T BLACK l x r ∧ rb l n ∧ rb r n.
Proof. inversion 1; subst; simpl; intros; try congruence; eauto 10. Qed.

(** Filling the hole of a red-black context. *)
Lemma rb_zip k t n :
  rbk k n → rb t n → (tcol t = RED → kcol k ≠ Some RED) → (k = [] → tcol t = BLACK) →
  is_rb (zip k t).
Proof.
  intros Hk. revert t. induction Hk as [n|s x u k n Hu Eu Ek Hk IH|s x u k n Hu Hk IH];
    intros t Ht Hc Hr; simpl.
  - split; eauto.
  - assert (tcol t = BLACK) by (destruct (tcol t) eqn:?; naive_solver).
    apply IH; [destruct s; by constructor|rewrite Ek; by destruct s|by intros ->].
  - apply IH; [destruct s; by constructor|by destruct s|by destruct s].
Qed.

(** Insertion as a leaf, by the key [vr]; equal keys go right. *)
Section ins.
Context (vr : nat → Z).
Fixpoint ins (x : nat) (t : tree) : tree :=
  match t with
  | E => T RED E x E
  | T c l y r => if vr y <=? vr x then T c l y (ins x r) else T c (ins x l) y r
  end.
(** The run queue seen as a sequence: [x] goes after every key not above it. *)
Fixpoint enqueue (x : nat) (q : list nat) : list nat :=
  match q with
  | [] => [x]
  | y :: q => if vr y <=? vr x then y :: enqueue x q else x :: y :: q
  end.

Abbreviation sorted := (StronglySorted (λ a b, vr a ≤ vr b)).

Lemma enqueue_perm x q : enqueue x q ≡ₚ x :: q.
Proof.
  induction q as [|y q IH]; simpl; [done|]. case_match; [|done].
  rewrite IH. apply Permutation_swap.
Qed.
Lemma enqueue_sorted x q : sorted q → sorted (enqueue x q).
Proof.
  induction 1 as [|y q Hq IH Hy]; simpl; [by repeat constructor|].
  destruct (Z.leb_spec (vr y) (vr x)); constructor; try done.
  - rewrite enqueue_perm. by constructor.
  - by constructor.
  - constructor; [lia|]. eapply Forall_impl; [exact Hy|]. simpl; lia.
Qed.
Lemma enqueue_app_le x q1 y q2 :
  Forall (λ z, vr z ≤ vr x) (q1 ++ [y]) → enqueue x (q1 ++ y :: q2) = q1 ++ y :: enqueue x q2.
Proof.
  induction q1 as [|z q1 IH]; simpl; inversion_clear 1.
  - destruct (Z.leb_spec (vr y) (vr x)); [done|lia].
  - destruct (Z.leb_spec (vr z) (vr x)); [|lia]. by rewrite IH.
Qed.
Lemma enqueue_app_gt x q1 y q2 :
  vr x < vr y → enqueue x (q1 ++ y :: q2) = enqueue x q1 ++ y :: q2.
Proof.
  intros. induction q1 as [|z q1 IH]; simpl.
  - destruct (Z.leb_spec (vr y) (vr x)); [lia|done].
  - case_match; simpl; by rewrite ?IH.
Qed.
Lemma StronglySorted_app_inv q1 y q2 :
  sorted (q1 ++ y :: q2) → Forall (λ z, vr z ≤ vr y) q1 ∧ sorted q1 ∧ sorted q2.
Proof.
  induction q1 as [|z q1 IH]; simpl; intros Hs.
  - inversion_clear Hs. repeat constructor; done.
  - inversion_clear Hs as [|?? Hs' Hf]. destruct (IH Hs') as (?&?&?).
    apply Forall_app in Hf as [? Hf]. inversion_clear Hf.
    split; [by constructor|]. split; [by constructor|done].
Qed.

Lemma nodes_ins x t : sorted (nodes t) → nodes (ins x t) = enqueue x (nodes t).
Proof.
  induction t as [|c l IHl y r IHr]; simpl; [done|]. intros Hs.
  apply StronglySorted_app_inv in Hs as (Hl&Hsl&Hsr).
  destruct (Z.leb_spec (vr y) (vr x)) as [Hle|Hgt]; simpl.
  - rewrite IHr by done. rewrite enqueue_app_le; [done|].
    apply Forall_app; split; [|by repeat constructor].
    eapply Forall_impl; [exact Hl|]. simpl; lia.
  - rewrite IHl by done. by rewrite enqueue_app_gt.
Qed.

(** The inserted leaf sits in a red-black context. *)
Lemma ins_zip x t n k0 :
  rbk k0 n → rb t n → (tcol t = RED → kcol k0 = Some BLACK) →
  ∃ k, zip k0 (ins x t) = zip k (T RED E x E) ∧ rbk k 0.
Proof.
  revert n k0. induction t as [|c l IHl y r IHr]; intros n k0 Hk Ht Hc; simpl.
  { inversion Ht; subst. eauto. }
  inversion Ht as [|l' x' r' n' Hl Hr El Er|l' x' r' n' Hl Hr]; subst; case_match.
  - apply (IHr n (Frame R RED y l :: k0)); eauto with rbdb. by rewrite Er.
  - apply (IHl n (Frame L RED y r :: k0)); eauto with rbdb. by rewrite El.
  - apply (IHr n' (Frame R BLACK y l :: k0)); eauto with rbdb.
  - apply (IHl n' (Frame L BLACK y r :: k0)); eauto with rbdb.
Qed.
End ins.
