(* ===== verification/RBHeap.v ===== *)
(** * The pointer tree represents a pure tree

    The representation predicates that relate the process table to the trees
    of RBSpec.v, and the specification of the two rotations. *)
From S2P Require Import Prelude Param ProcData RBTree RBSpec.

(** [rep h par p t]: pointer [p] is the root of a copy of [t] in the table [h],
    and the parent pointer of that root is [par]. *)
Fixpoint rep (h : list proc) (par p : ptr) (t : tree) : Prop :=
  match t with
  | E => p = None
  | T c l x r =>
      p = Some x ∧ ∃ pr, h !! x = Some pr ∧ coloring pr = c ∧ parentP pr = par ∧
        rep h (Some x) (left pr) l ∧ rep h (Some x) (right pr) r
  end.

(** [repk h rt par p k]: in table [h], [k] is the context of a subtree whose
    root is [p] with parent pointer [par], in a tree rooted at [rt]. *)
Fixpoint repk (h : list proc) (rt par p : ptr) (k : ctx) : Prop :=
  match k with
  | [] => par = None ∧ rt = p
  | Frame s c x u :: k =>
      par = Some x ∧ ∃ pr, h !! x = Some pr ∧ coloring pr = c ∧
        match s with
        | L => left pr = p ∧ rep h (Some x) (right pr) u
        | R => right pr = p ∧ rep h (Some x) (left pr) u
        end ∧ repk h rt (parentP pr) (Some x) k
  end.

(** The tree rooted at [rt] is [zip k t]. *)
Definition foc (h : list proc) (rt : ptr) (k : ctx) (t : tree) : Prop :=
  ∃ par p, rep h par p t ∧ repk h rt par p k.

Lemma foc_fill h rt f k t : foc h rt (f :: k) t ↔ foc h rt k (fill f t).
Proof.
  destruct f as [s c x u]. unfold foc. split.
  - intros (par & p & Ht & -> & pr & Hx & <- & Hs & Hk).
    exists (parentP pr), (Some x). split; [|done].
    destruct s; destruct Hs as [<- Hu]; simpl; naive_solver.
  - intros (par & p & Ht & Hk). destruct s; simpl in Ht;
      destruct Ht as (-> & pr & Hx & <- & <- & Hl & Hr).
    + exists (Some x), (left pr). split; [done|]. simpl. naive_solver.
    + exists (Some x), (right pr). split; [done|]. simpl. naive_solver.
Qed.
Lemma foc_zip h rt k t : foc h rt k t ↔ rep h None rt (zip k t).
Proof.
  revert t. induction k as [|f k IH]; intros t; simpl.
  - unfold foc; simpl. naive_solver.
  - by rewrite foc_fill.
Qed.

(** ** Footprints *)
Fixpoint kn (k : ctx) : list nat :=
  match k with [] => [] | f :: k => f_node f :: nodes (f_sib f) ++ kn k end.
Lemma nodes_zip_kn k t : nodes (zip k t) ≡ₚ nodes t ++ kn k.
Proof.
  revert t. induction k as [|[s c x u] k IH]; intros t; simpl; [by rewrite app_nil_r|].
  rewrite IH. destruct s; simpl; solve_Permutation.
Qed.

Lemma rep_insert h par p t i v : i ∉ nodes t → rep h par p t → rep (<[i:=v]> h) par p t.
Proof.
  revert par p. induction t as [|c l IHl x r IHr]; intros par p; simpl; [done|].
  intros Hi (-> & pr & Hx & Hc & Hp & Hl & Hr).
  split; [done|]. exists pr. rewrite list_lookup_insert_ne by set_solver.
  naive_solver set_solver.
Qed.
Lemma repk_insert h rt par p k i v :
  i ∉ kn k → repk h rt par p k → repk (<[i:=v]> h) rt par p k.
Proof.
  revert par p. induction k as [|[s c x u] k IH]; intros par p; simpl; [done|].
  intros Hi (-> & pr & Hx & Hc & Hs & Hk).
  split; [done|]. exists pr. rewrite list_lookup_insert_ne by set_solver.
  split; [done|]. split; [done|]. split; [|by apply IH; [set_solver|]].
  destruct s; destruct Hs; split; try done; apply rep_insert; set_solver.
Qed.

(** ** Field access *)
Lemma wp_rd {A} (f : proc → A) i pr Φ h k s :
  procs s !! i = Some pr → Φ (f pr) (World h k s) → wp (rd f (Some i)) Φ (World h k s).
Proof. intros Hi. unfold wp, rd. simpl. by rewrite Hi. Qed.
Lemma wp_wr i g pr Φ h k s :
  procs s !! i = Some pr → Φ () (World h k (s <| procs ::= <[i := g pr]> |>)) →
  wp (wr (Some i) g) Φ (World h k s).
Proof. intros Hi. unfold wp, wr. simpl. by rewrite Hi. Qed.
Lemma wp_rdt {A} (f : redblackTree → A) Φ h k s :
  Φ (f (rbTree s)) (World h k s) → wp (rdt f) Φ (World h k s).
Proof. done. Qed.
Lemma wp_wrt g Φ h k s :
  Φ () (World h k (s <| rbTree ::= g |>)) → wp (wrt g) Φ (World h k s).
Proof. done. Qed.

(** Looks up an entry of a table written a few times. *)
Ltac look :=
  cbn [procs set_field];
  first
    [ eassumption
    | rewrite list_lookup_insert_ne by congruence; look
    | eapply list_lookup_insert_eq; rewrite ?length_insert; eapply lookup_lt_Some; eassumption ].

(** ** Only links change

    [erase] forgets the tree links of a process; [lo N s s'] says that from [s]
    to [s'] only the links of processes in [N], and the root, changed. *)
Definition erase (p : proc) : proc :=
  p <| coloring := RED |> <| left := None |> <| right := None |> <| parentP := None |>.
Record lo (N : list nat) (s s' : sched) : Prop := Lo {
  lo_rest : s' = s <| procs := procs s' |> <| rbTree := rbTree s' |>;
  lo_tree : rbTree s' = (rbTree s) <| root := root (rbTree s') |>;
  lo_data i : erase <$> procs s' !! i = erase <$> procs s !! i;
  lo_frame i : i ∉ N → procs s' !! i = procs s !! i;
}.

Lemma lo_refl N s : lo N s s.
Proof. split; try done; by destruct s as [?? []]. Qed.
Lemma lo_trans N s1 s2 s3 : lo N s1 s2 → lo N s2 s3 → lo N s1 s3.
Proof.
  intros [a1 b1 c1 d1] [a2 b2 c2 d2]. split.
  - rewrite a2, a1. by destruct s1.
  - rewrite b2, b1. by destruct (rbTree s1).
  - intros i. by rewrite c2, c1.
  - intros i Hi. by rewrite d2, d1.
Qed.
Lemma lo_wr N s i v pr :
  procs s !! i = Some pr → i ∈ N → erase v = erase pr → lo N s (s <| procs ::= <[i := v]> |>).
Proof.
  intros Hi HN He. split; [by destruct s|by destruct s as [?? []]| |]; intros j; simpl.
  - destruct (decide (i = j)) as [->|]; [|by rewrite list_lookup_insert_ne].
    rewrite list_lookup_insert_eq by (by eapply lookup_lt_Some). rewrite Hi. simpl. by rewrite He.
  - intros Hj. by rewrite list_lookup_insert_ne by naive_solver.
Qed.
Lemma lo_root N s p : lo N s (s <| rbTree ::= λ t, t <| root := p |> |>).
Proof. split; try done; by destruct s as [?? []]. Qed.

Ltac lo_solve :=
  lazymatch goal with
  | |- lo _ ?s ?s => apply lo_refl
  | |- lo _ _ (set_field procs _ _) =>
      eapply lo_trans; [|eapply lo_wr; [look | | reflexivity]]; [lo_solve|]
  | |- lo _ _ (set_field rbTree _ _) => eapply lo_trans; [|apply lo_root]; lo_solve
  end.

(** ** Rotations *)
Ltac bd_side := solve [congruence | let H := fresh in intros H; apply H; congruence].
Ltac bd :=
  match goal with
  | |- context [bool_decide ?P] =>
      first [ rewrite (bool_decide_eq_true_2 P) by bd_side
            | rewrite (bool_decide_eq_false_2 P) by bd_side ]
  end.
Ltac links :=
  repeat match goal with
  | H : left _ = _ |- _ => rewrite !H
  | H : right _ = _ |- _ => rewrite !H
  | H : parentP _ = _ |- _ => rewrite !H
  end.
(** Symbolic execution of straight-line table code. *)
Ltac wp_step :=
  lazymatch goal with
  | |- wp (bind _ _) _ _ => apply wp_bind
  | |- wp (rd _ (Some _)) _ _ => eapply wp_rd; [look|]
  | |- wp (wr (Some _) _) _ _ => eapply wp_wr; [look|]
  | |- wp (rdt _) _ _ => apply wp_rdt
  | |- wp (wrt _) _ _ => apply wp_wrt
  | |- wp (ret _) _ _ => apply wp_ret
  | |- wp (when _ _) _ _ => apply wp_when
  | |- wp (andM _ _) _ _ => apply wp_andM
  | |- wp (orM _ _) _ _ => apply wp_orM
  | |- wp (is_red _) _ _ => unfold is_red
  | |- wp (is_black _) _ _ => unfold is_black
  | |- wp (retrieveGrandparentproc _) _ _ => unfold retrieveGrandparentproc
  | |- wp (retrieveUncleproc _) _ _ => unfold retrieveUncleproc
  | |- context [bool_decide _] => bd
  end.
Ltac wp_heap :=
  repeat (wp_step; cbn [left right parentP coloring set_field root rbTree negb]; links).

Ltac tsegs H := cbn [nodes kn f_node f_sib concat app] in H; segs H.

Lemma rep_root h par i t : rep h par (Some i) t → i ∈ nodes t.
Proof. destruct t; simpl; [done|]. intros (? & _). set_solver. Qed.

Ltac rep_tac :=
  cbn [rep repk procs rbTree root set_field];
  repeat match goal with
  | |- _ ∧ _ => split
  | |- ∃ pr, _ !! _ = Some pr ∧ _ => eexists; split; [look|]
  | |- rep (<[_:=_]> _) _ _ _ => apply rep_insert; [nin|]
  | |- repk (<[_:=_]> _) _ _ _ _ => apply repk_insert; [nin|]
  | |- _ = _ => cbn; congruence
  | |- _ => progress cbn [rep repk left right parentP coloring set_field]; links
  | |- _ => eassumption
  end.

Lemma rotateLeft_spec h w s k c a x d b y e :
  foc (procs s) (root (rbTree s)) k (T c a x (T d b y e)) →
  NoDup (nodes (T c a x (T d b y e)) ++ kn k) →
  wp (rotateLeft (Some x)) (λ _ w', ∃ s', w' = World h w s' ∧
      foc (procs s') (root (rbTree s')) k (T d (T c a x b) y e) ∧
      lo (nodes (T c a x (T d b y e)) ++ kn k) s s') (World h w s).
Proof.
  intros (par & p & Ht & Hk) Hnd. simpl in Ht.
  destruct Ht as (-> & px & Hx & Hcx & Hpx & Ha & Hy' & py & Hy & Hcy & Hpy & Hb & He).
  tsegs Hnd. assert (x ≠ y) by nin.
  destruct b as [|cb bl z br]; simpl in Hb;
    [|destruct Hb as (Hpz & pz & Hz & Hcz & Hparz & Hbl & Hbr);
      tsegs Hnd; assert (x ≠ z) by nin; assert (y ≠ z) by nin];
  (destruct k as [|[sd cg g u] k]; simpl in Hk;
   [destruct Hk as [Hpar Hrt]
   |destruct Hk as (Hpar & pg & Hg & Hcg & Hs & Hk);
    tsegs Hnd; assert (x ≠ g) by nin; assert (y ≠ g) by nin; try assert (z ≠ g) by nin;
    destruct sd; destruct Hs as [Hgx Hu];
    [|assert (Some x ≠ left pg) by
        (intros Hl; rewrite <-Hl in Hu; apply rep_root in Hu; revert Hu; nin)]]);
  subst par; unfold rotateLeft; wp_heap;
  (eexists; split; [reflexivity|]; split; [|lo_solve; clear; set_solver]);
  do 2 eexists; split; rep_tac; congruence.
Qed.

Lemma rotateRight_spec h w s k c a x d b y e :
  foc (procs s) (root (rbTree s)) k (T c (T d e y b) x a) →
  NoDup (nodes (T c (T d e y b) x a) ++ kn k) →
  wp (rotateRight (Some x)) (λ _ w', ∃ s', w' = World h w s' ∧
      foc (procs s') (root (rbTree s')) k (T d e y (T c b x a)) ∧
      lo (nodes (T c (T d e y b) x a) ++ kn k) s s') (World h w s).
Proof.
  intros (par & p & Ht & Hk) Hnd. simpl in Ht.
  destruct Ht as (-> & px & Hx & Hcx & Hpx & (Hy' & py & Hy & Hcy & Hpy & He & Hb) & Ha).
  tsegs Hnd. assert (x ≠ y) by nin.
  destruct b as [|cb bl z br]; simpl in Hb;
    [|destruct Hb as (Hpz & pz & Hz & Hcz & Hparz & Hbl & Hbr);
      tsegs Hnd; assert (x ≠ z) by nin; assert (y ≠ z) by nin];
  (destruct k as [|[sd cg g u] k]; simpl in Hk;
   [destruct Hk as [Hpar Hrt]
   |destruct Hk as (Hpar & pg & Hg & Hcg & Hs & Hk);
    tsegs Hnd; assert (x ≠ g) by nin; assert (y ≠ g) by nin; try assert (z ≠ g) by nin;
    destruct sd; destruct Hs as [Hgx Hu];
    [assert (Some x ≠ right pg) by
        (intros Hl; rewrite <-Hl in Hu; apply rep_root in Hu; revert Hu; nin)|]]);
  subst par; unfold rotateRight; wp_heap;
  (eexists; split; [reflexivity|]; split; [|lo_solve; clear; set_solver]);
  do 2 eexists; split; rep_tac; congruence.
Qed.

