(* ===== verification/RBInsert.v ===== *)
(** * Insertion into the run queue

    [insertproc], [insertionCases], [setMinimumVRuntimeproc] and
    [insertProcess] of proc.c against the trees of RBSpec.v. *)
From S2P Require Import Prelude Param ProcData RBTree RBSpec RBHeap.

(** ** Reading a focused node *)
Definition troot (t : tree) : ptr := match t with E => None | T _ _ x _ => Some x end.
Definition kpar (k : ctx) : ptr := match k with [] => None | f :: _ => Some (f_node f) end.

Lemma rep_troot h par p t : rep h par p t → p = troot t.
Proof. destruct t; simpl; [done|]. by intros [-> _]. Qed.
Lemma repk_kpar h rt par p k : repk h rt par p k → par = kpar k.
Proof. destruct k as [|[]]; simpl; naive_solver. Qed.
Lemma foc_node h rt k c l x r : foc h rt k (T c l x r) →
  ∃ px, h !! x = Some px ∧ coloring px = c ∧ parentP px = kpar k ∧
        left px = troot l ∧ right px = troot r.
Proof.
  intros (par & p & (-> & px & Hx & Hc & Hp & Hl & Hr) & Hk). exists px.
  apply rep_troot in Hl, Hr. apply repk_kpar in Hk. naive_solver.
Qed.

Lemma troot_ne i t : i ∉ nodes t → Some i ≠ troot t.
Proof. destruct t; simpl; set_solver. Qed.

Lemma lo_mono N N' s s' : N ⊆ N' → lo N s s' → lo N' s s'.
Proof. intros HN [a b c d]. split; try done. intros i Hi. apply d. set_solver. Qed.

(** Repainting the focused node. *)
Lemma foc_color h rt k c c' l x r px :
  NoDup (nodes (T c l x r) ++ kn k) → h !! x = Some px →
  foc h rt k (T c l x r) → foc (<[x := px <| coloring := c' |>]> h) rt k (T c' l x r).
Proof.
  intros Hnd Hx (par & p & (-> & px' & Hx' & Hc & Hp & Hl & Hr) & Hk).
  simplify_eq. tsegs Hnd. do 2 eexists. split; [|apply repk_insert; [nin|done]].
  rep_tac.
Qed.

(** ** The leftmost process *)
Lemma setMinimumVRuntimeproc_spec t : ∀ fuel h w s par p,
  (length (nodes t) < fuel)%nat → rep (procs s) par p t →
  wp (setMinimumVRuntimeproc fuel p)
     (λ m w', m = head (nodes t) ∧ w' = World h w s) (World h w s).
Proof.
  induction t as [|c l IHl x r _]; intros fuel h w s par p Hf Ht; simpl in Ht.
  { subst. destruct fuel; [simpl in Hf; lia|]. simpl. by apply wp_ret. }
  destruct Ht as (-> & px & Hx & Hc & Hp & Hl & Hr).
  simpl in Hf. rewrite length_app in Hf. simpl in Hf.
  destruct fuel as [|fuel]; [lia|]. simpl. apply wp_bind. eapply wp_rd; [done|].
  destruct l as [|cl ll y lr].
  - simpl in Hl. rewrite Hl. by apply wp_ret.
  - assert (left px = Some y) as E by (by destruct Hl). rewrite E in *.
    eapply wp_mono; [apply (IHl fuel h w s (Some x)); [lia|done]|].
    intros m w' [-> ->]. split; [|done]. destruct (nodes ll) eqn:El; simpl; by rewrite El.
Qed.

(** ** Case 5: repaint and rotate the grandparent *)
Definition outer (s : side) (t : tree) (p : nat) (sib : tree) (g : nat) (u : tree) : tree :=
  match s with
  | L => T BLACK t p (T RED sib g u)
  | R => T BLACK (T RED u g sib) p t
  end.

(** A [NoDup] fact survives a rearrangement of its segments. *)
Ltac ndperm :=
  match goal with
  | H : NoDup (concat _) |- NoDup _ =>
      eapply NoDup_Permutation_proper; [|exact H];
      cbn [nodes kn f_node f_sib concat app]; solve_Permutation
  end.
Ltac app_norm := repeat (progress simpl || rewrite <-app_assoc); reflexivity.
Ltac lo_incl := eapply lo_mono; [|eassumption]; clear; set_solver.

Lemma case5_spec fuel h w s sd p sib g u k l f r :
  foc (procs s) (root (rbTree s)) (Frame sd RED p sib :: Frame sd BLACK g u :: k) (T RED l f r) →
  NoDup (nodes (T RED l f r) ++ kn (Frame sd RED p sib :: Frame sd BLACK g u :: k)) →
  wp (insertionCases (S fuel) (Some f) 5) (λ _ w', ∃ s', w' = World h w s' ∧
      foc (procs s') (root (rbTree s')) k (outer sd (T RED l f r) p sib g u) ∧
      lo (nodes (T RED l f r) ++ kn (Frame sd RED p sib :: Frame sd BLACK g u :: k)) s s')
    (World h w s).
Proof.
  intros Hf Hnd. pose proof (foc_node _ _ _ _ _ _ _ Hf) as (pf & Hpf & _ & Hfp & _).
  pose proof Hf as Hf1. rewrite foc_fill in Hf1.
  pose proof Hf1 as Hf2. rewrite foc_fill in Hf2.
  tsegs Hnd. assert (p ≠ g) by nin. assert (f ≠ p) by nin. assert (f ≠ g) by nin.
  destruct sd; simpl in Hf1, Hf2.
  - pose proof (foc_node _ _ _ _ _ _ _ Hf1) as (pp & Hpp & _ & Hppp & Hppl & _).
    pose proof (foc_node _ _ _ _ _ _ _ Hf2) as (pg & Hpg & _ & _ & Hpgl & _).
    cbn [kpar troot f_node fill f_side f_col f_sib] in *. cbn [insertionCases]. wp_heap.
    eapply (foc_color _ _ _ _ RED) in Hf2; [|ndperm|exact Hpg].
    change (T RED ?a g u) with (fill (Frame L RED g u) a) in Hf2. rewrite <-foc_fill in Hf2.
    eapply (foc_color _ _ _ _ BLACK) in Hf2; [|ndperm|look].
    rewrite foc_fill in Hf2.
    eapply wp_mono; [eapply rotateRight_spec; [exact Hf2|ndperm]|].
    intros _ w' (s' & -> & Hf' & Hlo). eexists; split; [done|]. split; [done|].
    eapply lo_trans; [|lo_incl]. lo_solve; set_solver.
  - pose proof (foc_node _ _ _ _ _ _ _ Hf1) as (pp & Hpp & _ & Hppp & Hppl & Hppr).
    pose proof (foc_node _ _ _ _ _ _ _ Hf2) as (pg & Hpg & _ & _ & Hpgl & Hpgr).
    assert (Some f ≠ troot sib) by (apply troot_ne; nin).
    cbn [kpar troot f_node fill f_side f_col f_sib] in *. cbn [insertionCases]. wp_heap.
    eapply (foc_color _ _ _ _ RED) in Hf2; [|ndperm|exact Hpg].
    change (T RED u g ?a) with (fill (Frame R RED g u) a) in Hf2. rewrite <-foc_fill in Hf2.
    eapply (foc_color _ _ _ _ BLACK) in Hf2; [|ndperm|look].
    rewrite foc_fill in Hf2.
    eapply wp_mono; [eapply rotateLeft_spec; [exact Hf2|ndperm]|].
    intros _ w' (s' & -> & Hf' & Hlo). eexists; split; [done|]. split; [done|].
    eapply lo_trans; [|lo_incl]. lo_solve; set_solver.
Qed.

(** ** The fix-up *)

(** The inserted process [x] is not black with a right child only. *)
Definition okx (x : nat) (t : tree) : Prop :=
  ∃ k c l r, t = zip k (T c l x r) ∧ (c = RED ∨ l ≠ E ∨ r = E).
(** At the node the fix-up works on, [x] is either that node, still a leaf, or
    strictly below it. *)
Definition okf (x : nat) (l : tree) (f : nat) (r : tree) : Prop :=
  (f = x ∧ l = E ∧ r = E) ∨ okx x l ∨ okx x r.

Lemma okx_fill x f t : okx x t → okx x (fill f t).
Proof. intros (k & c & l & r & -> & H). exists (k ++ [f]), c, l, r. by rewrite zip_app. Qed.
Lemma okx_zip x k t : okx x t → okx x (zip k t).
Proof. revert t. induction k as [|f k IH]; intros t H; [done|]. by apply IH, okx_fill. Qed.
Lemma okx_L x c l y r : okx x l → okx x (T c l y r).
Proof. exact (okx_fill x (Frame L c y r) l). Qed.
Lemma okx_R x c l y r : okx x r → okx x (T c l y r).
Proof. exact (okx_fill x (Frame R c y l) r). Qed.
Lemma okx_here x c l r : (c = RED ∨ l ≠ E ∨ r = E) → okx x (T c l x r).
Proof. intros H. by exists [], c, l, r. Qed.
Lemma okf_okx x c l f r : okf x l f r → okx x (T c l f r).
Proof.
  intros [(-> & -> & ->)|[H|H]]; [apply okx_here; auto|by apply okx_L|by apply okx_R].
Qed.
(** After a double rotation [f] is black and has two children. *)
Lemma okf_double x l f r c1 a b c2 d e : okf x l f r →
  okx x (T BLACK (T c1 a b l) f (T c2 r d e)).
Proof.
  intros [(-> & -> & ->)|[H|H]].
  - apply okx_here. auto.
  - by apply okx_L, okx_R.
  - by apply okx_R, okx_L.
Qed.
#[export] Hint Resolve okx_zip okx_fill okx_L okx_R okf_okx okf_double : rbdb.

Definition flip (s : side) : side := match s with L => R | R => L end.
(** The tree after a double rotation. *)
Definition inner (sd : side) (l : tree) (f : nat) (r : tree) (p : nat) (sib : tree) (g : nat) (u : tree) :=
  match sd with
  | L => T BLACK (T RED sib p l) f (T RED r g u)
  | R => T BLACK (T RED u g l) f (T RED r p sib)
  end.

(** Case 4 for an outer grandchild goes straight to case 5. *)
Lemma case4_outer_spec fuel h w s sd p sib g u k l f r :
  foc (procs s) (root (rbTree s)) (Frame sd RED p sib :: Frame sd BLACK g u :: k) (T RED l f r) →
  NoDup (nodes (T RED l f r) ++ kn (Frame sd RED p sib :: Frame sd BLACK g u :: k)) →
  wp (insertionCases (S (S fuel)) (Some f) 4) (λ _ w', ∃ s', w' = World h w s' ∧
      foc (procs s') (root (rbTree s')) k (outer sd (T RED l f r) p sib g u) ∧
      lo (nodes (T RED l f r) ++ kn (Frame sd RED p sib :: Frame sd BLACK g u :: k)) s s')
    (World h w s).
Proof.
  intros Hf Hnd. pose proof (case5_spec fuel h w _ _ _ _ _ _ _ _ _ _ Hf Hnd) as H5.
  pose proof (foc_node _ _ _ _ _ _ _ Hf) as (pf & Hpf & _ & Hfp & _).
  pose proof Hf as Hf1. rewrite foc_fill in Hf1.
  pose proof Hf1 as Hf2. rewrite foc_fill in Hf2.
  tsegs Hnd. assert (p ≠ g) by nin. assert (f ≠ p) by nin. assert (f ≠ g) by nin.
  assert (Some f ≠ troot sib) by (apply troot_ne; nin).
  assert (Some p ≠ troot u) by (apply troot_ne; nin).
  destruct sd; simpl in Hf1, Hf2;
    pose proof (foc_node _ _ _ _ _ _ _ Hf1) as (pp & Hpp & _ & Hppp & Hppl & Hppr);
    pose proof (foc_node _ _ _ _ _ _ _ Hf2) as (pg & Hpg & _ & _ & Hpgl & Hpgr);
    cbn [kpar troot f_node fill f_side f_col f_sib] in *;
    remember (S fuel) as fuel'; cbn [insertionCases]; wp_heap; exact H5.
Qed.

(** For an inner grandchild a first rotation makes it an outer one. *)
Lemma case4_inner_spec fuel h w s sd p sib g u k l f r :
  foc (procs s) (root (rbTree s)) (Frame (flip sd) RED p sib :: Frame sd BLACK g u :: k) (T RED l f r) →
  NoDup (nodes (T RED l f r) ++ kn (Frame (flip sd) RED p sib :: Frame sd BLACK g u :: k)) →
  wp (insertionCases (S (S fuel)) (Some f) 4) (λ _ w', ∃ s', w' = World h w s' ∧
      foc (procs s') (root (rbTree s')) k (inner sd l f r p sib g u) ∧
      lo (nodes (T RED l f r) ++ kn (Frame (flip sd) RED p sib :: Frame sd BLACK g u :: k)) s s')
    (World h w s).
Proof.
  intros Hf Hnd. pose proof (foc_node _ _ _ _ _ _ _ Hf) as (pf & Hpf & _ & Hfp & _).
  pose proof Hf as Hf1. rewrite foc_fill in Hf1.
  pose proof Hf1 as Hf2. rewrite foc_fill in Hf2.
  tsegs Hnd. assert (p ≠ g) by nin. assert (f ≠ p) by nin. assert (f ≠ g) by nin.
  assert (Some f ≠ troot sib) by (apply troot_ne; nin).
  assert (Some p ≠ troot u) by (apply troot_ne; nin).
  destruct sd; simpl in Hf1, Hf2;
    pose proof (foc_node _ _ _ _ _ _ _ Hf1) as (pp & Hpp & _ & Hppp & Hppl & Hppr);
    pose proof (foc_node _ _ _ _ _ _ _ Hf2) as (pg & Hpg & _ & _ & Hpgl & Hpgr);
    cbn [kpar troot f_node fill f_side f_col f_sib] in *;
    remember (S fuel) as fuel'; cbn [insertionCases]; wp_heap.
  - eapply wp_mono; [eapply rotateLeft_spec; [exact Hf1|ndperm]|].
    intros _ w' (s' & -> & Hf' & Hlo).
    pose proof (foc_node _ _ _ _ _ _ _ Hf') as (pf' & Hpf' & _ & _ & Hl' & _).
    cbn [troot] in Hl'. wp_heap. subst fuel'.
    change (T RED (T RED sib p l) f r) with (fill (Frame L RED f r) (T RED sib p l)) in Hf'.
    rewrite <-foc_fill in Hf'.
    eapply wp_mono; [eapply case5_spec; [exact Hf'|ndperm]|].
    intros _ w' (s'' & -> & Hf'' & Hlo'). exists s''. split; [done|]. split; [exact Hf''|].
    eapply lo_trans; lo_incl.
  - eapply wp_mono; [eapply rotateRight_spec; [exact Hf1|ndperm]|].
    intros _ w' (s' & -> & Hf' & Hlo).
    pose proof (foc_node _ _ _ _ _ _ _ Hf') as (pf' & Hpf' & _ & _ & _ & Hr').
    cbn [troot] in Hr'. wp_heap. subst fuel'.
    change (T RED l f (T RED r p sib)) with (fill (Frame R RED f l) (T RED r p sib)) in Hf'.
    rewrite <-foc_fill in Hf'.
    eapply wp_mono; [eapply case5_spec; [exact Hf'|ndperm]|].
    intros _ w' (s'' & -> & Hf'' & Hlo'). exists s''. split; [done|]. split; [exact Hf''|].
    eapply lo_trans; lo_incl.
Qed.

(** What the fix-up establishes. *)
Definition fixed (x : nat) (N q : list nat) (h : list lock) (w : list chan) (s : sched)
    (w' : world sched) : Prop :=
  ∃ s' t', w' = World h w s' ∧ rep (procs s') None (root (rbTree s')) t' ∧
    nodes t' = q ∧ is_rb t' ∧ okx x t' ∧ lo N s s'.

Lemma foc_color_fill h rt k sd c c' p sib t pp :
  NoDup (nodes t ++ kn (Frame sd c p sib :: k)) → h !! p = Some pp →
  foc h rt (Frame sd c p sib :: k) t →
  foc (<[p := pp <| coloring := c' |>]> h) rt (Frame sd c' p sib :: k) t.
Proof.
  intros Hnd Hp Hf. rewrite foc_fill in *. tsegs Hnd.
  destruct sd; (eapply foc_color; [ndperm|done|exact Hf]).
Qed.
Lemma foc_color_sib h rt k sd c c' p cu ul u ur t pu :
  NoDup (nodes t ++ kn (Frame sd c p (T cu ul u ur) :: k)) → h !! u = Some pu →
  foc h rt (Frame sd c p (T cu ul u ur) :: k) t →
  foc (<[u := pu <| coloring := c' |>]> h) rt (Frame sd c p (T c' ul u ur) :: k) t.
Proof.
  intros Hnd Hu Hf. rewrite foc_fill in *. tsegs Hnd.
  assert (∀ b, fill (Frame sd c p b) t = fill (Frame (flip sd) c p t) b) as E by (by destruct sd).
  rewrite E, <-foc_fill in Hf. rewrite E, <-foc_fill.
  eapply foc_color; [ndperm|done|exact Hf].
Qed.
Lemma foc_sib h rt k sd c p cu ul u ur t :
  foc h rt (Frame sd c p (T cu ul u ur) :: k) t → ∃ pu, h !! u = Some pu ∧ coloring pu = cu.
Proof.
  intros (par & q & _ & _ & pr & _ & _ & Hs & _).
  destruct sd; destruct Hs as (_ & _ & pu & ? & ? & _); eauto.
Qed.
Lemma foc_par h rt k sd c p sib t : foc h rt (Frame sd c p sib :: k) t →
  ∃ pp, h !! p = Some pp ∧ coloring pp = c ∧ parentP pp = kpar k ∧
    left pp = (if sd is L then troot t else troot sib) ∧
    right pp = (if sd is L then troot sib else troot t).
Proof. rewrite foc_fill. intros Hf. destruct sd; by apply foc_node in Hf. Qed.

(** Case 3 with a red uncle: the repainting. *)
Lemma case3_red_spec fuel h w s sd p sib sd2 g ul u ur k l f r Φ :
  foc (procs s) (root (rbTree s))
    (Frame sd RED p sib :: Frame sd2 BLACK g (T RED ul u ur) :: k) (T RED l f r) →
  NoDup (nodes (T RED l f r) ++ kn (Frame sd RED p sib :: Frame sd2 BLACK g (T RED ul u ur) :: k)) →
  (∀ s', foc (procs s') (root (rbTree s')) k
           (fill (Frame sd2 RED g (T BLACK ul u ur)) (fill (Frame sd BLACK p sib) (T RED l f r))) →
     lo (nodes (T RED l f r) ++ kn (Frame sd RED p sib :: Frame sd2 BLACK g (T RED ul u ur) :: k)) s s' →
     wp (insertionCases fuel (Some g) 1) Φ (World h w s')) →
  wp (insertionCases (S fuel) (Some f) 3) Φ (World h w s).
Proof.
  intros Hf Hnd HΦ.
  pose proof (foc_node _ _ _ _ _ _ _ Hf) as (pf & Hpf & _ & Hfp & _).
  pose proof (foc_par _ _ _ _ _ _ _ _ Hf) as (pp & Hpp & Hcp & Hppp & _).
  pose proof Hf as Hf1. rewrite foc_fill in Hf1.
  pose proof (foc_par _ _ _ _ _ _ _ _ Hf1) as (pg & Hpg & _ & _ & Hpgl & Hpgr).
  pose proof (foc_sib _ _ _ _ _ _ _ _ _ _ _ Hf1) as (pu & Hpu & Hcu).
  pose proof Hnd as Hnd'. tsegs Hnd'. 
  assert (p ≠ g) by nin. assert (f ≠ p) by nin. assert (f ≠ g) by nin.
  assert (u ≠ p) by nin. assert (u ≠ g) by nin. assert (u ≠ f) by nin.
  assert (∃ E, fill (Frame sd RED p sib) (T RED l f r) = E ∧ troot E = Some p) as (E & HE & HpE)
    by (destruct sd; eauto).
  assert (∀ h', h' = <[g := pg <| coloring := RED |>]>
                      (<[u := pu <| coloring := BLACK |>]>
                        (<[p := pp <| coloring := BLACK |>]> (procs s))) →
    foc h' (root (rbTree s)) k
      (fill (Frame sd2 RED g (T BLACK ul u ur)) (fill (Frame sd BLACK p sib) (T RED l f r)))) as Hfin.
  { intros h' ->. rewrite <-foc_fill.
    eapply foc_color_fill; [destruct sd; ndperm|look|].
    eapply foc_color_sib; [destruct sd; ndperm|look|].
    rewrite <-foc_fill. by eapply foc_color_fill. }
  rewrite HE, HpE in *. cbn [kpar troot f_node] in *.
  destruct sd2; cbn [insertionCases]; wp_heap;
    (apply HΦ; [by apply Hfin|lo_solve; clear; set_solver]).
Qed.

(** Case 3 with a black (or no) uncle leaves the state alone. *)
Lemma case3_black_spec fuel h w s sd p sib sd2 g u k l f r Φ :
  foc (procs s) (root (rbTree s))
    (Frame sd RED p sib :: Frame sd2 BLACK g u :: k) (T RED l f r) →
  NoDup (nodes (T RED l f r) ++ kn (Frame sd RED p sib :: Frame sd2 BLACK g u :: k)) →
  tcol u = BLACK →
  wp (insertionCases fuel (Some f) 4) Φ (World h w s) →
  wp (insertionCases (S fuel) (Some f) 3) Φ (World h w s).
Proof.
  intros Hf Hnd Hu HΦ.
  pose proof (foc_node _ _ _ _ _ _ _ Hf) as (pf & Hpf & _ & Hfp & _).
  pose proof (foc_par _ _ _ _ _ _ _ _ Hf) as (pp & Hpp & Hcp & Hppp & _).
  pose proof Hf as Hf1. rewrite foc_fill in Hf1.
  pose proof (foc_par _ _ _ _ _ _ _ _ Hf1) as (pg & Hpg & _ & _ & Hpgl & Hpgr).
  tsegs Hnd. assert (Some p ≠ troot u) by (apply troot_ne; nin).
  assert (∃ E, fill (Frame sd RED p sib) (T RED l f r) = E ∧ troot E = Some p) as (E & HE & HpE)
    by (destruct sd; eauto).
  rewrite HE, HpE in *. destruct u as [|cu ul u ur].
  - cbn [kpar troot f_node] in *. destruct sd2; cbn [insertionCases]; wp_heap; exact HΦ.
  - pose proof (foc_sib _ _ _ _ _ _ _ _ _ _ _ Hf1) as (pu & Hpu & Hcu).
    cbn [kpar troot f_node tcol] in *. rewrite Hu in Hcu.
    destruct sd2; cbn [insertionCases]; wp_heap; exact HΦ.
Qed.

(** Both rotations of case 4 end with a red-black tree over the same sequence. *)
Lemma case4_fixed x fuel h w s sd p sib sd2 g u k l f r n :
  foc (procs s) (root (rbTree s))
    (Frame sd RED p sib :: Frame sd2 BLACK g u :: k) (T RED l f r) →
  NoDup (nodes (T RED l f r) ++ kn (Frame sd RED p sib :: Frame sd2 BLACK g u :: k)) →
  rbk k (S n) → rb sib n → rb u n → rb l n → rb r n →
  tcol sib = BLACK → tcol u = BLACK → tcol l = BLACK → tcol r = BLACK → okf x l f r →
  wp (insertionCases (S (S fuel)) (Some f) 4) (λ _, fixed x
      (nodes (T RED l f r) ++ kn (Frame sd RED p sib :: Frame sd2 BLACK g u :: k))
      (nodes (zip (Frame sd RED p sib :: Frame sd2 BLACK g u :: k) (T RED l f r))) h w s)
    (World h w s).
Proof.
  intros Hf Hnd Hk Hsib Hu Hl Hr Esib Eu El Er Hok.
  assert (sd = sd2 ∨ sd = flip sd2) as [->| ->] by (destruct sd, sd2; auto).
  - eapply wp_mono; [by apply case4_outer_spec|].
    intros _ w' (s' & -> & Hf' & Hlo). rewrite foc_zip in Hf'.
    do 2 eexists. split; [done|]. split; [exact Hf'|]. split.
    + cbn [zip]. rewrite !nodes_zip. destruct sd2; app_norm.
    + split; [|split; [|done]].
      * eapply rb_zip; [done|..]; destruct sd2; simpl; eauto with rbdb; done.
      * destruct sd2; eauto with rbdb.
  - eapply wp_mono; [by apply case4_inner_spec|].
    intros _ w' (s' & -> & Hf' & Hlo). rewrite foc_zip in Hf'.
    do 2 eexists. split; [done|]. split; [exact Hf'|]. split.
    + cbn [zip]. rewrite !nodes_zip. destruct sd2; app_norm.
    + split; [|split; [|done]].
      * eapply rb_zip; [done|..]; destruct sd2; simpl; eauto with rbdb; done.
      * destruct sd2; eauto with rbdb.
Qed.

Lemma nodes_recolor sd c c' p sib t k :
  nodes (zip k (fill (Frame sd c p sib) t)) = nodes (zip k (fill (Frame sd c' p sib) t)).
Proof. rewrite !nodes_zip. by destruct sd. Qed.

(** Cases 1 and 2 under a parent. *)
Lemma case12_spec fuel h w s sd c p sib k t f Φ :
  foc (procs s) (root (rbTree s)) (Frame sd c p sib :: k) t → troot t = Some f →
  (if bool_decide (c = RED) then wp (insertionCases fuel (Some f) 3) Φ (World h w s)
   else Φ () (World h w s)) →
  wp (insertionCases (S (S fuel)) (Some f) 1) Φ (World h w s).
Proof.
  intros Hf Ht HΦ. destruct t as [|ct l f' r]; simplify_eq/=.
  pose proof (foc_node _ _ _ _ _ _ _ Hf) as (pf & Hpf & _ & Hfp & _).
  pose proof (foc_par _ _ _ _ _ _ _ _ Hf) as (pp & Hpp & Hcp & _).
  cbn [kpar f_node insertionCases] in *. wp_heap. by rewrite Hcp.
Qed.

Lemma rb_fill_B sd p sib t n : rb t n → rb sib n → rb (fill (Frame sd BLACK p sib) t) (S n).
Proof. intros. destruct sd; by constructor. Qed.
Lemma tcol_fill_B sd p sib t : tcol (fill (Frame sd BLACK p sib) t) = BLACK.
Proof. by destruct sd. Qed.
Lemma rb_repaint_B l x r n : rb (T RED l x r) n → rb (T BLACK l x r) (S n).
Proof. inversion 1; subst. by constructor. Qed.
Lemma okf_fill_L x sd p sib l f r g u : okf x l f r → okf x (fill (Frame sd BLACK p sib) (T RED l f r)) g u.
Proof. intros H. right; left. by apply okx_fill, okf_okx. Qed.
Lemma okf_fill_R x sd p sib l f r g u : okf x l f r → okf x u g (fill (Frame sd BLACK p sib) (T RED l f r)).
Proof. intros H. right; right. by apply okx_fill, okf_okx. Qed.
#[export] Hint Resolve rb_fill_B tcol_fill_B rb_repaint_B okf_fill_L okf_fill_R : rbdb.

Lemma fixed_weaken x N N' q q' h w s s' w' :
  lo N s s' → N' ⊆ N → q' = q → fixed x N' q' h w s' w' → fixed x N q h w s w'.
Proof.
  intros Hlo HN <- (s'' & t' & -> & Ht & Hq & Hrb & Hok & Hlo').
  do 2 eexists. split_and!; eauto using lo_trans, lo_mono.
Qed.

(** The fix-up terminates in a red-black tree with the same in-order sequence. *)
Lemma insertionCases_spec x : ∀ d k l f r n fuel h w s,
  (length k ≤ d)%nat → (2 * d + 1 ≤ fuel)%nat →
  foc (procs s) (root (rbTree s)) k (T RED l f r) → NoDup (nodes (T RED l f r) ++ kn k) →
  rbk k n → rb l n → rb r n → tcol l = BLACK → tcol r = BLACK → okf x l f r →
  wp (insertionCases fuel (Some f) 1)
     (λ _, fixed x (nodes (T RED l f r) ++ kn k) (nodes (zip k (T RED l f r))) h w s) (World h w s).
Proof.
  induction d as [d IH] using lt_wf_ind. intros k l f r n fuel h w s Hd Hfuel Hf Hnd Hk Hl Hr El Er Hok.
  destruct fuel as [|fuel]; [lia|].
  destruct Hk as [n|sd p sib k n Hsib Esib Ek Hk|sd p sib k n Hsib Hk].
  - pose proof (foc_node _ _ _ _ _ _ _ Hf) as (pf & Hpf & _ & Hfp & _). cbn [kpar] in Hfp.
    cbn [insertionCases]. wp_heap. do 2 eexists. split; [done|].
    eapply (foc_color _ _ _ _ BLACK) in Hf; [|done|exact Hpf].
    rewrite foc_zip in Hf. split; [exact Hf|]. split; [done|].
    split; [split; eauto with rbdb|]. split; [eauto with rbdb|]. lo_solve; clear; set_solver.
  - destruct Hk as [|?????? _ |sd2 g u k n Hu Hk]; [done|done|].
    simpl in Hd. destruct d as [|[|d]]; [lia|lia|].
    destruct fuel as [|[|[|[|fuel]]]]; [lia..|].
    eapply case12_spec; [exact Hf|done|]. rewrite bool_decide_eq_true_2 by done.
    destruct (tcol u) eqn:Eu.
    + destruct u as [|cu ul u ur]; [done|]. simpl in Eu; subst cu.
      eapply case3_red_spec; [done|done|]. intros s' Hf' Hlo.
      destruct sd2;
        [change (fill (Frame L ?c g ?a) ?b) with (T c b g a) in Hf'
        |change (fill (Frame R ?c g ?a) ?b) with (T c a g b) in Hf'];
        (eapply wp_mono;
         [eapply (IH d ltac:(lia) k); [lia|lia|exact Hf'| |exact Hk|by eauto with rbdb..];
          tsegs Hnd; destruct sd; ndperm|]);
        (intros ? w'; apply fixed_weaken;
         [done|destruct sd; clear; set_solver|destruct sd; cbn [zip]; rewrite !nodes_zip; app_norm]).
    + eapply case3_black_spec; [done..|]. by eapply case4_fixed.
  - destruct fuel as [|fuel]; [simpl in Hd; lia|].
    eapply case12_spec; [exact Hf|done|]. rewrite bool_decide_eq_false_2 by done.
    do 2 eexists. split; [done|]. rewrite foc_zip in Hf. split; [exact Hf|]. split; [done|].
    split; [|split; [eauto with rbdb|apply lo_refl]].
    eapply rb_zip; [by apply rbk_B|by apply rb_R|done|done].
Qed.

(** ** The descent *)

(** [vr] gives the virtual runtimes of the table. *)
Definition keyed (vr : nat → Z) (s : sched) : Prop :=
  ∀ i pr, procs s !! i = Some pr → virtualRuntime pr = vr i.

(** A field that is not a link is the same before and after. *)
Lemma lo_field {A} (f : proc → A) N s s' i pr' :
  (∀ p, f (erase p) = f p) → lo N s s' → procs s' !! i = Some pr' →
  ∃ pr, procs s !! i = Some pr ∧ f pr' = f pr.
Proof.
  intros Hf Hlo Hi. pose proof (lo_data _ _ _ Hlo i) as Hd. rewrite Hi in Hd.
  destruct (procs s !! i) as [pr|] eqn:E; [|done]. apply (inj Some) in Hd.
  exists pr. split; [done|]. by rewrite <-(Hf pr'), <-(Hf pr), Hd.
Qed.
Lemma lo_field_r {A} (f : proc → A) N s s' i pr :
  (∀ p, f (erase p) = f p) → lo N s s' → procs s !! i = Some pr →
  ∃ pr', procs s' !! i = Some pr' ∧ f pr' = f pr.
Proof.
  intros Hf Hlo Hi. pose proof (lo_data _ _ _ Hlo i) as Hd. rewrite Hi in Hd.
  destruct (procs s' !! i) as [pr'|] eqn:E; [|done]. apply (inj Some) in Hd.
  exists pr'. split; [done|]. by rewrite <-(Hf pr'), <-(Hf pr), Hd.
Qed.
Lemma lo_keyed vr N s s' : lo N s s' → keyed vr s → keyed vr s'.
Proof.
  intros Hlo Hk i pr' Hi.
  destruct (lo_field virtualRuntime _ _ _ _ _ (λ _, eq_refl) Hlo Hi) as (pr & Hp & ->). eauto.
Qed.

Lemma rep_frame h h' par p t :
  (∀ i, i ∈ nodes t → h' !! i = h !! i) → rep h par p t → rep h' par p t.
Proof.
  revert par p. induction t as [|c l IHl x r IHr]; intros par p; simpl; [done|].
  intros Hi (-> & pr & Hx & Hc & Hp & Hl & Hr).
  split; [done|]. exists pr. rewrite Hi by set_solver. naive_solver set_solver.
Qed.

Lemma ins_nodes vr x t i : i ∈ nodes (ins vr x t) → i = x ∨ i ∈ nodes t.
Proof. induction t as [|c l IHl y r IHr]; simpl; [set_solver|]. case_match; set_solver. Qed.

Lemma insertproc_spec vr x t : ∀ fuel h w s par p px,
  (length (nodes t) < fuel)%nat → keyed vr s → rep (procs s) par p t → NoDup (x :: nodes t) →
  procs s !! x = Some px → left px = None → right px = None → (t = E → parentP px = par) →
  wp (insertproc fuel p (Some x)) (λ p' w', ∃ s', w' = World h w s' ∧
      rep (procs s') par p' (ins vr x t) ∧ lo (x :: nodes t) s s') (World h w s).
Proof.
  induction t as [|c l IHl y r IHr];
    intros fuel h w s par p px Hfuel Hkey Ht Hnd Hx Hxl Hxr Hpar.
  - simpl in Ht. subst p. destruct fuel as [|fuel]; [lia|]. cbn [insertproc]. wp_heap.
    eexists. split; [done|]. split; [|lo_solve; set_solver]. simpl in *. rep_tac.
    by apply Hpar.
  - simpl in Ht. destruct Ht as (-> & py & Hy & Hc & Hp & Hl & Hr).
    cbn [nodes] in Hfuel. rewrite length_app in Hfuel. simpl in Hfuel.
    destruct fuel as [|fuel]; [lia|]. pose proof Hnd as Hnd'. tsegs Hnd'. assert (x ≠ y) by nin.
    cbn [insertproc]. wp_heap. rewrite (Hkey _ _ Hy). cbn [ins virtualRuntime set_field].
    rewrite (Hkey _ _ Hx).
    set (N := x :: nodes (T c l y r)) in *.
    assert (∀ g, lo [x] s (s <| procs ::= <[x := px <| coloring := RED |>]> |>
               <| procs ::= <[x := px <| coloring := RED |> <| parentP := g |>]> |>)) as Hlo1
      by (intros; lo_solve; set_solver).
    specialize (Hlo1 (Some y)). subst N. cbn [nodes] in *. rewrite NoDup_cons, NoDup_app in Hnd.
    destruct Hnd as (HxN & Hnl & _ & Hnr%NoDup_cons_1_2).
    destruct (vr y <=? vr x); wp_heap.
    + eapply wp_mono; [eapply (IHr fuel); [lia|by eapply lo_keyed| | |look|done..]|].
      { apply rep_frame with (procs s); [|done]. intros i Hi. eapply lo_frame; [done|set_solver]. }
      { apply NoDup_cons; set_solver. }
      intros p' ? (s' & -> & Hsub & Hlo').
      assert (lo (x :: nodes r) s s') as Hlo
        by (eapply lo_trans; [|exact Hlo']; eapply lo_mono; [|exact Hlo1]; set_solver).
      assert (procs s' !! y = Some py) as Hy' by
        (rewrite (lo_frame _ _ _ Hlo); [done|apply not_elem_of_cons; split; [done|nin]]).
      wp_heap. eexists. split; [done|]. split.
      * cbn [rep]. split; [done|]. eexists. split; [look|]. split_and!; [done..| |];
          apply rep_insert; try done; [nin| |intros [->|Hi]%ins_nodes; [done|revert Hi; nin]].
        apply rep_frame with (procs s); [|done]. intros i Hi.
        apply (lo_frame _ _ _ Hlo). apply not_elem_of_cons. split; [set_solver|].
        intros Hi'. seg_clash Hnd' (nodes l) (nodes r) i Hi Hi'.
      * eapply lo_trans; [eapply lo_mono; [|exact Hlo]; set_solver|].
        eapply lo_wr; [done|set_solver|done].
    + eapply wp_mono; [eapply (IHl fuel); [lia|by eapply lo_keyed| | |look|done..]|].
      { apply rep_frame with (procs s); [|done]. intros i Hi. eapply lo_frame; [done|set_solver]. }
      { apply NoDup_cons; set_solver. }
      intros p' ? (s' & -> & Hsub & Hlo').
      assert (lo (x :: nodes l) s s') as Hlo
        by (eapply lo_trans; [|exact Hlo']; eapply lo_mono; [|exact Hlo1]; set_solver).
      assert (procs s' !! y = Some py) as Hy' by
        (rewrite (lo_frame _ _ _ Hlo); [done|apply not_elem_of_cons; split; [done|nin]]).
      wp_heap. eexists. split; [done|]. split.
      * cbn [rep]. split; [done|]. eexists. split; [look|]. split_and!; [done..| |];
          apply rep_insert; try done; [intros [->|Hi]%ins_nodes; [done|revert Hi; nin]|nin|].
        apply rep_frame with (procs s); [|done]. intros i Hi.
        apply (lo_frame _ _ _ Hlo). apply not_elem_of_cons. split; [set_solver|].
        intros Hi'. seg_clash Hnd' (nodes r) (nodes l) i Hi Hi'.
      * eapply lo_trans; [eapply lo_mono; [|exact Hlo]; set_solver|].
        eapply lo_wr; [done|set_solver|done].
Qed.
