(* ===== verification/RBDelete.v ===== *)
(** * Removal of the leftmost process

    [retrievingCases] of proc.c against the trees of RBSpec.v: the tree stays
    red-black and the in-order sequence loses its head. *)
From S2P Require Import Prelude Param ProcData RBTree RBSpec RBHeap RBInsert.

Definition allL (k : ctx) : Prop := Forall (λ f, f_side f = L) k.

(** The part of the state the fix-up may change, and what it keeps. *)
Definition same (k : ctx) (t : tree) (k' : ctx) (t' : tree) : Prop :=
  nodes (zip k' t') = nodes (zip k t) ∧ nodes t' ++ kn k' ≡ₚ nodes t ++ kn k.

Lemma foc_root h rt k t : foc h rt k t → k ≠ [] → ∃ i, rt = Some i ∧ i ∈ kn k.
Proof.
  intros (par & p & _ & Hk). revert par p Hk. induction k as [|[sd c x u] k IH]; [done|].
  intros par p (_ & pr & Hx & _ & _ & Hk) _. destruct k as [|f k].
  - simpl in Hk. destruct Hk as [_ ->]. exists x. set_solver.
  - destruct (IH _ _ Hk ltac:(done)) as (i & -> & Hi). exists i. set_solver.
Qed.

Lemma wp_null_or_black h w s par p t Φ :
  rep (procs s) par p t → Φ (bool_decide (tcol t = BLACK)) (World h w s) →
  wp (null_or_black p) Φ (World h w s).
Proof.
  intros Ht HΦ. unfold null_or_black. destruct t as [|c l x r]; simpl in Ht.
  - subst p. by wp_heap.
  - destruct Ht as (-> & pr & Hx & <- & _). wp_heap. done.
Qed.

Lemma foc_sib_rep h rt k c p sib t : foc h rt (Frame L c p sib :: k) t →
  ∃ pp, h !! p = Some pp ∧ right pp = troot sib ∧ rep h (Some p) (right pp) sib.
Proof.
  intros (par & q & _ & _ & pr & Hp & _ & [_ Hr] & _). exists pr.
  split; [done|]. split; [|done]. by eapply rep_troot.
Qed.

(** ** A red sibling *)
Lemma rotate_red_sibling_spec h w s k cp p sib t n :
  foc (procs s) (root (rbTree s)) (Frame L cp p sib :: k) t →
  NoDup (nodes t ++ kn (Frame L cp p sib :: k)) →
  rbk (Frame L cp p sib :: k) (S n) → allL k →
  wp (rotate_red_sibling (Some p) (troot sib)) (λ q w', ∃ s' cp' sl x sr k',
      w' = World h w s' ∧ q = Some x ∧
      foc (procs s') (root (rbTree s')) (Frame L cp' p (T BLACK sl x sr) :: k') t ∧
      same (Frame L cp p sib :: k) t (Frame L cp' p (T BLACK sl x sr) :: k') t ∧
      rbk (Frame L cp' p (T BLACK sl x sr) :: k') (S n) ∧ allL k' ∧ (cp' = BLACK → k' = k) ∧
      lo (nodes t ++ kn (Frame L cp p sib :: k)) s s') (World h w s).
Proof.
  intros Hf Hnd Hk HL.
  pose proof (foc_par _ _ _ _ _ _ _ _ Hf) as (pp & Hpp & Hcp & Hppp & _ & Hpr).
  assert (rb sib (S n)) as Hsib by (by inversion Hk).
  inversion Hsib as [|l x r ? Hl Hr El Er|l x r ? Hl Hr]; subst.
  - inversion Hk as [| |? ? ? ? ? Hu Hk']; subst; [done|].
    pose proof (foc_sib _ _ _ _ _ _ _ _ _ _ _ Hf) as (px & Hpx & Hcx).
    tsegs Hnd. assert (x ≠ p) by nin. unfold rotate_red_sibling. cbn [troot] in *. wp_heap.
    eapply foc_color_sib with (c' := BLACK) in Hf; [|ndperm|exact Hpx].
    eapply foc_color_fill with (c' := RED) in Hf; [|ndperm|look].
    rewrite foc_fill in Hf. cbn [fill f_side f_col f_node f_sib] in Hf.
    eapply wp_mono; [eapply rotateLeft_spec; [exact Hf|ndperm]|].
    intros _ w' (s' & -> & Hf' & Hlo).
    apply rb_S_inv in Hl as (sl & y & sr & -> & Hsl & Hsr); [|done].
    change (T BLACK ?a x r) with (fill (Frame L BLACK x r) a) in Hf'. rewrite <-foc_fill in Hf'.
    change (T RED t p ?a) with (fill (Frame L RED p a) t) in Hf'. rewrite <-foc_fill in Hf'.
    pose proof (foc_par _ _ _ _ _ _ _ _ Hf') as (pp' & Hpp' & _ & _ & _ & Hpr').
    cbn [troot] in *. wp_heap.
    do 6 eexists. split; [done|]. split; [done|]. split; [exact Hf'|]. split_and!.
    + split; [cbn [zip]; rewrite !nodes_zip; app_norm|].
      cbn [nodes kn f_node f_sib]. solve_Permutation.
    + apply rbk_R; [by constructor|done..|]. by apply rbk_B.
    + by constructor.
    + done.
    + eapply lo_trans; [|lo_incl]. lo_solve; clear; set_solver.
  - pose proof (foc_sib _ _ _ _ _ _ _ _ _ _ _ Hf) as (px & Hpx & Hcx).
    unfold rotate_red_sibling. cbn [troot]. wp_heap.
    do 6 eexists. split; [done|]. split; [done|]. split; [exact Hf|].
    split_and!; try done. apply lo_refl.
Qed.

(** ** The sibling's children *)
Lemma foc_sib_node h rt k c p cx sl x sr t : foc h rt (Frame L c p (T cx sl x sr) :: k) t →
  ∃ px, h !! x = Some px ∧ coloring px = cx ∧ rep h (Some x) (left px) sl ∧
        rep h (Some x) (right px) sr.
Proof.
  intros (par & q & _ & _ & pr & _ & _ & [_ (_ & px & ? & ? & _ & ? & ?)] & _). eauto.
Qed.

Lemma foc_swap h rt k c p t u :
  foc h rt (Frame L c p u :: k) t ↔ foc h rt (Frame R c p t :: k) u.
Proof. by rewrite !foc_fill. Qed.

Lemma children_black_spec h w s k cp p cx sl x sr t :
  foc (procs s) (root (rbTree s)) (Frame L cp p (T cx sl x sr) :: k) t →
  wp (children_black (Some x)) (λ b w', w' = World h w s ∧
      b = bool_decide (tcol sl = BLACK ∧ tcol sr = BLACK)) (World h w s).
Proof.
  intros Hf. pose proof (foc_sib_node _ _ _ _ _ _ _ _ _ _ Hf) as (px & Hx & _ & Hl & Hr).
  unfold children_black. wp_step. wp_step. wp_step.
  eapply wp_null_or_black; [exact Hl|]. apply wp_andM.
  destruct (decide (tcol sl = BLACK)) as [E|E].
  - rewrite bool_decide_eq_true_2 by done. wp_step. wp_step.
    eapply wp_null_or_black; [exact Hr|]. split; [done|]. apply bool_decide_ext. tauto.
  - rewrite bool_decide_eq_false_2 by done. split; [done|].
    by rewrite bool_decide_eq_false_2 by tauto.
Qed.

Lemma rotate_near_child_spec h w s k cp p sl x sr t n :
  foc (procs s) (root (rbTree s)) (Frame L cp p (T BLACK sl x sr) :: k) t →
  NoDup (nodes t ++ kn (Frame L cp p (T BLACK sl x sr) :: k)) →
  rb sl n → rb sr n → ¬ (tcol sl = BLACK ∧ tcol sr = BLACK) →
  wp (rotate_near_child (Some p) (Some x)) (λ q w', ∃ s' cx sl' y fl f fr,
      w' = World h w s' ∧ q = Some y ∧
      foc (procs s') (root (rbTree s')) (Frame L cp p (T cx sl' y (T RED fl f fr)) :: k) t ∧
      same (Frame L cp p (T BLACK sl x sr) :: k) t
           (Frame L cp p (T cx sl' y (T RED fl f fr)) :: k) t ∧
      rb sl' n ∧ rb (T BLACK fl f fr) (S n) ∧
      lo (nodes t ++ kn (Frame L cp p (T BLACK sl x sr) :: k)) s s') (World h w s).
Proof.
  intros Hf Hnd Hl Hr Hc.
  pose proof (foc_sib_node _ _ _ _ _ _ _ _ _ _ Hf) as (px & Hx & Hcx & Hsl & Hsr).
  unfold rotate_near_child. wp_step. wp_step. wp_step.
  eapply wp_null_or_black; [exact Hsr|]. destruct (decide (tcol sr = BLACK)) as [Er|Er].
  - destruct sl as [|[] a z b]; [exfalso; naive_solver| |exfalso; naive_solver].
    inversion Hl as [|? ? ? ? Ha Hb Ea Eb|]; subst.
    destruct Hsl as (Hz' & pz & Hz & _). tsegs Hnd. assert (z ≠ x) by nin. assert (z ≠ p) by nin.
    assert (x ≠ p) by nin.
    rewrite foc_swap in Hf.
    change (T BLACK ?e x sr) with (fill (Frame L BLACK x sr) e) in Hf. rewrite <-foc_fill in Hf.
    eapply foc_color with (c' := BLACK) in Hf; [|ndperm|exact Hz].
    eapply foc_color_fill with (c' := RED) in Hf; [|ndperm|look].
    rewrite foc_fill in Hf. cbn [fill f_side f_col f_node f_sib] in Hf.
    wp_heap.
    eapply wp_mono; [eapply rotateRight_spec; [exact Hf|ndperm]|].
    intros _ w' (s' & -> & Hf' & Hlo). rewrite <-foc_swap in Hf'.
    pose proof (foc_par _ _ _ _ _ _ _ _ Hf') as (pp' & Hpp' & _ & _ & _ & Hpr'). cbn [troot] in *.
    wp_heap. do 7 eexists. split; [done|]. split; [done|]. split; [exact Hf'|]. split_and!.
    + split; [cbn [zip]; rewrite !nodes_zip; app_norm|].
      cbn [nodes kn f_node f_sib]. solve_Permutation.
    + done.
    + by constructor.
    + eapply lo_trans; [|lo_incl]. lo_solve; clear; set_solver.
  - destruct sr as [|[] fl f fr]; [done| |done]. wp_heap.
    do 7 eexists. split; [done|]. split; [done|]. split; [exact Hf|].
    split; [done|]. split; [done|]. split; [by apply rb_repaint_B|apply lo_refl].
Qed.

(** ** The last rotation *)
Lemma rotate_parent_spec h w s k cp p cx sl x fl f fr t :
  foc (procs s) (root (rbTree s)) (Frame L cp p (T cx sl x (T RED fl f fr)) :: k) t →
  NoDup (nodes t ++ kn (Frame L cp p (T cx sl x (T RED fl f fr)) :: k)) →
  wp (rotate_parent (Some p) (Some x)) (λ _ w', ∃ s', w' = World h w s' ∧
      foc (procs s') (root (rbTree s')) k (T cp (T BLACK t p sl) x (T BLACK fl f fr)) ∧
      lo (nodes t ++ kn (Frame L cp p (T cx sl x (T RED fl f fr)) :: k)) s s') (World h w s).
Proof.
  intros Hf Hnd.
  pose proof (foc_sib_node _ _ _ _ _ _ _ _ _ _ Hf) as (px & Hx & Hcx & Hsl & Hsr).
  pose proof (foc_par _ _ _ _ _ _ _ _ Hf) as (pp & Hpp & Hcp & _).
  destruct Hsr as (Hfr & pf & Hpf & _). tsegs Hnd.
  assert (x ≠ p) by nin. assert (f ≠ x) by nin. assert (f ≠ p) by nin.
  unfold rotate_parent. wp_heap. rewrite Hcp.
  eapply foc_color_sib with (c' := cp) in Hf; [|ndperm|exact Hx].
  eapply foc_color_fill with (c' := BLACK) in Hf; [|ndperm|look].
  rewrite foc_swap in Hf.
  change (T cp sl x ?e) with (fill (Frame R cp x sl) e) in Hf. rewrite <-foc_fill in Hf.
  eapply foc_color with (c' := BLACK) in Hf; [|ndperm|look].
  rewrite foc_fill, <-foc_swap, foc_fill in Hf. cbn [fill f_side f_col f_node f_sib] in Hf.
  eapply wp_mono; [eapply rotateLeft_spec; [exact Hf|ndperm]|].
  intros _ w' (s' & -> & Hf' & Hlo). eexists; split; [done|]. split; [exact Hf'|].
  eapply lo_trans; [|lo_incl]. lo_solve; clear; set_solver.
Qed.

(** ** The loop *)

(** The subtree at the hole lacks one black node on every path, or it is red
    and painting its root black supplies it. *)
Definition deficient (t : tree) (n : nat) : Prop :=
  match tcol t with RED => rb (blacken t) (S n) | BLACK => rb t n end.

Lemma deficient_blacken t n : deficient t n → is_rb (blacken t).
Proof.
  unfold deficient. destruct t as [|[] l x r]; simpl; intros H; split; eauto.
Qed.

(** What the loop leaves: painting the process it returns restores the tree. *)
Definition repaired (k : ctx) (t : tree) (h : list lock) (w : list chan) (s : sched)
    (q : ptr) (w' : world sched) : Prop :=
  ∃ s' k' u, w' = World h w s' ∧ foc (procs s') (root (rbTree s')) k' u ∧ q = troot u ∧
    same k t k' u ∧ is_rb (zip k' (blacken u)) ∧ lo (nodes t ++ kn k) s s'.

Lemma same_refl k t : same k t k t.
Proof. done. Qed.
Lemma same_trans k1 t1 k2 t2 k3 t3 : same k1 t1 k2 t2 → same k2 t2 k3 t3 → same k1 t1 k3 t3.
Proof. intros [? H12] [? H23]. split; [congruence|]. by rewrite H23. Qed.
Lemma same_NoDup k t k' t' : same k t k' t' → NoDup (nodes t ++ kn k) → NoDup (nodes t' ++ kn k').
Proof. intros [_ ->]. done. Qed.
Lemma same_lo k t k' t' s s' : same k t k' t' → lo (nodes t' ++ kn k') s s' → lo (nodes t ++ kn k) s s'.
Proof. intros [_ Hp]. apply lo_mono. intros i. by rewrite Hp. Qed.

Lemma repaired_step k t k' t' h w s s' q w' :
  same k t k' t' → lo (nodes t ++ kn k) s s' →
  repaired k' t' h w s' q w' → repaired k t h w s q w'.
Proof.
  intros Hs Hlo (s'' & k'' & u & -> & Hf & -> & Hs' & Hrb & Hlo').
  exists s'', k'', u. split_and!; eauto using same_trans, lo_trans, same_lo.
Qed.

Lemma while_root fuel pp Φ h w s :
  Φ (root (rbTree s)) (World h w s) →
  wp (retrieving_while (S fuel) pp (root (rbTree s))) Φ (World h w s).
Proof. intros HΦ. cbn [retrieving_while]. wp_heap. done. Qed.

Lemma while_red fuel pp k c l x r Φ h w s :
  foc (procs s) (root (rbTree s)) k (T c l x r) → c = RED →
  Φ (Some x) (World h w s) → wp (retrieving_while (S fuel) pp (Some x)) Φ (World h w s).
Proof.
  intros Hf -> HΦ. pose proof Hf as (par & p & Ht & _).
  assert (rep (procs s) par (Some x) (T RED l x r)) as Ht' by (by destruct Ht as [-> ?]).
  cbn [retrieving_while]. wp_step. wp_step. wp_step. wp_step.
  destruct (bool_decide _); [|by wp_heap].
  eapply wp_null_or_black; [exact Ht'|]. by wp_heap.
Qed.
Lemma repaired_here k t n h w s :
  foc (procs s) (root (rbTree s)) k t → rbk k (S n) → deficient t n → tcol t = RED ∨ k = [] →
  repaired k t h w s (troot t) (World h w s).
Proof.
  intros Hf Hk Hd Hc. exists s, k, t. split_and!; try done; [|apply lo_refl].
  destruct Hc as [Hc| ->]; [|by eapply deficient_blacken].
  unfold deficient in Hd. rewrite Hc in Hd. eapply rb_zip; [done|done|..]; by destruct t.
Qed.

(** The last rotation ends the loop. *)
Lemma final_tree k cp p sl x fr t n sib :
  rbk (Frame L cp p sib :: k) (S n) → rb t n → rb sl n → rb fr (S n) → tcol fr = BLACK →
  is_rb (zip k (T cp (T BLACK t p sl) x fr)).
Proof.
  intros Hk Ht Hl Hr Er. inversion Hk as [|? ? ? ? ? Hu Eu Ek Hk'|? ? ? ? ? Hu Hk']; subst.
  - eapply rb_zip; [done|..]; [by apply rb_R; [apply rb_B|..]|by rewrite Ek|by intros ->].
  - eapply rb_zip; [done|..]; [by apply rb_B; [apply rb_B|..]|done..].
Qed.
Lemma blacken_id t : tcol t = BLACK → blacken t = t.
Proof. by destruct t as [|[]]. Qed.

Lemma rotate_final_spec fuel h w s k cp p sl x sr t n :
  foc (procs s) (root (rbTree s)) (Frame L cp p (T BLACK sl x sr) :: k) t →
  NoDup (nodes t ++ kn (Frame L cp p (T BLACK sl x sr) :: k)) →
  rbk (Frame L cp p (T BLACK sl x sr) :: k) (S n) → rb t n →
  ¬ (tcol sl = BLACK ∧ tcol sr = BLACK) →
  wp (siblingProcess ← rotate_near_child (Some p) (Some x);
      rotate_parent (Some p) siblingProcess;;
      r ← rdt root;
      retrieving_while (S fuel) (Some p) r)
    (repaired (Frame L cp p (T BLACK sl x sr) :: k) t h w s) (World h w s).
Proof.
  intros Hf Hnd Hk Ht Hc.
  assert (rb sl n ∧ rb sr n) as [Hl Hr]
    by (inversion Hk as [|? ? ? ? ? Hu|? ? ? ? ? Hu]; subst; by inversion Hu).
  wp_step. eapply wp_mono; [eapply rotate_near_child_spec; eauto|].
  intros q w' (s1 & cx & sl' & y & fl & f & fr & -> & -> & Hf1 & Hs1 & Hl' & Hfar & Hlo1).
  wp_step. eapply wp_mono; [eapply rotate_parent_spec; [exact Hf1|by eapply same_NoDup]|].
  intros _ w' (s2 & -> & Hf2 & Hlo2). wp_step. wp_step.
  apply while_root. rewrite foc_zip in Hf2.
  pose proof (final_tree _ _ _ _ y _ _ _ _ Hk Ht Hl' Hfar eq_refl) as Hrb.
  exists s2, [], (zip k (T cp (T BLACK t p sl') y (T BLACK fl f fr))).
  split; [done|]. split; [by apply foc_zip|]. split; [by eapply rep_troot|].
  split; [eapply same_trans; [exact Hs1|]|split; [|by eauto using lo_trans, same_lo]].
  - split; [cbn [zip]; rewrite !nodes_zip; app_norm|].
    cbn [kn]. rewrite app_nil_r, nodes_zip_kn. cbn [nodes kn f_node f_sib]. solve_Permutation.
  - simpl. destruct Hrb as [Hb ?]. by rewrite blacken_id.
Qed.

Lemma move_up_spec fuel h w s k cp p sl x sr t Φ :
  foc (procs s) (root (rbTree s)) (Frame L cp p (T BLACK sl x sr) :: k) t →
  NoDup (nodes t ++ kn (Frame L cp p (T BLACK sl x sr) :: k)) →
  (∀ s', foc (procs s') (root (rbTree s')) k (T cp t p (T RED sl x sr)) →
     lo (nodes t ++ kn (Frame L cp p (T BLACK sl x sr) :: k)) s s' →
     wp (retrieving_while fuel (kpar k) (Some p)) Φ (World h w s')) →
  wp (wr (Some x) (λ p, p <| coloring := RED |>);;
      pp ← rd parentP (Some p);
      retrieving_while fuel pp (Some p)) Φ (World h w s).
Proof.
  intros Hf Hnd HΦ. pose proof (foc_sib_node _ _ _ _ _ _ _ _ _ _ Hf) as (px & Hx & _).
  pose proof (foc_par _ _ _ _ _ _ _ _ Hf) as (pp & Hpp & Hcp & Hppp & _ & Hpr).
  pose proof Hnd as Hnd'. tsegs Hnd'. assert (x ≠ p) by nin. wp_heap. apply HΦ.
  - cbn [procs set_field rbTree].
    change (T cp t p ?a) with (fill (Frame L cp p a) t). rewrite <-foc_fill.
    by eapply foc_color_sib.
  - lo_solve; clear; set_solver.
Qed.

Lemma retrieving_while_spec d : ∀ k t n fuel h w s,
  (length k ≤ d)%nat → (d + 2 ≤ fuel)%nat →
  foc (procs s) (root (rbTree s)) k t → NoDup (nodes t ++ kn k) →
  allL k → rbk k (S n) → deficient t n →
  wp (retrieving_while fuel (kpar k) (troot t)) (repaired k t h w s) (World h w s).
Proof.
  induction d as [d IH] using lt_wf_ind. intros k t n fuel h w s Hd Hfuel Hf Hnd HL Hk Ht.
  destruct fuel as [|fuel]; [lia|].
  destruct (tcol t) eqn:Et.
  { destruct t as [|c l x r]; [done|]. eapply while_red; [exact Hf|done|].
    eapply repaired_here; eauto. }
  destruct k as [|[sd cp p sib] k].
  { pose proof Hf as Hr. rewrite foc_zip in Hr. apply rep_troot in Hr. simpl in Hr.
    rewrite <-Hr. apply while_root. rewrite Hr. eapply repaired_here; eauto. }
  assert (sd = L ∧ allL k) as [-> HL'] by (by inversion HL).
  unfold deficient in Ht. rewrite Et in Ht.
  pose proof (foc_root _ _ _ _ Hf ltac:(done)) as (i & Hi & HiN).
  assert (troot t ≠ Some i) as Hti.
  { intros Hti. symmetry in Hti. revert Hti. apply troot_ne. intros Hi'.
    apply NoDup_app in Hnd as (_ & Hnd & _). eapply Hnd; eauto. }
  pose proof Hf as (par & q & Hrt & _). pose proof (rep_troot _ _ _ _ Hrt) as ->.
  pose proof (foc_par _ _ _ _ _ _ _ _ Hf) as (pp & Hpp & Hcp & Hppp & Hpl & Hpr).
  cbn [retrieving_while kpar f_node]. wp_step. wp_step. rewrite Hi. wp_step. wp_step.
  rewrite bool_decide_eq_true_2 by done.
  eapply wp_null_or_black; [exact Hrt|]. rewrite bool_decide_eq_true_2 by done.
  wp_step. eapply wp_rd; [exact Hpp|]. rewrite Hpl, bool_decide_eq_true_2 by done.
  wp_step. eapply wp_rd; [exact Hpp|]. rewrite Hpr.
  wp_step. eapply wp_mono; [by eapply rotate_red_sibling_spec|].
  intros q w' (s1 & cp' & sl & x & sr & k' & -> & -> & Hf1 & Hs1 & Hk1 & HL1 & HB & Hlo1).
  wp_step. eapply wp_mono; [by eapply children_black_spec|].
  intros b w' [-> ->].
  destruct (decide (tcol sl = BLACK ∧ tcol sr = BLACK)) as [Hb|Hb]; cycle 1.
  { rewrite bool_decide_eq_false_2 by done. eapply wp_mono; [|by intros ??; apply repaired_step].
    destruct fuel as [|fuel]; [lia|]. eapply rotate_final_spec; eauto using same_NoDup. }
  rewrite bool_decide_eq_true_2 by done.
  apply move_up_spec with (1 := Hf1); [by eapply same_NoDup|]. intros s2 Hf2 Hlo2.
  assert (same (Frame L cp p sib :: k) t k' (T cp' t p (T RED sl x sr))) as Hs2
    by (eapply same_trans; [exact Hs1|]; split; [cbn [zip]; rewrite !nodes_zip; app_norm
        |cbn [nodes kn f_node f_sib]; solve_Permutation]).
  eapply wp_mono; [|intros ??; eapply repaired_step with (s' := s2);
    [exact Hs2|exact (lo_trans _ _ _ _ Hlo1 (same_lo _ _ _ _ _ _ Hs1 Hlo2))]].
  inversion Hk1 as [|? ? ? ? ? Hu Eu Ek Hk'|? ? ? ? ? Hu Hk']; subst; inversion Hu; subst.
  - destruct fuel as [|fuel]; [lia|]. eapply while_red; [exact Hf2|done|].
    eapply repaired_here; eauto. unfold deficient. simpl. naive_solver eauto with rbdb.
  - rewrite HB in * by done. simpl in Hd. destruct d as [|d]; [lia|].
    eapply (IH d) with (t := T BLACK t p (T RED sl x sr));
      [lia|lia|lia|done|by eapply same_NoDup|done|done|].
    unfold deficient. simpl. naive_solver eauto with rbdb.
Qed.

(** ** Taking the leftmost process out *)
Lemma rb_unzip k t : is_rb (zip k t) →
  ∃ n, rb t n ∧ rbk k n ∧ (tcol t = RED → kcol k = Some BLACK).
Proof.
  revert t. induction k as [|[sd c x u] k IH]; intros t H; simpl in H.
  - destruct H as [Hc [n Hn]]. exists n. rewrite Hc. split_and!; [done|constructor|congruence].
  - apply IH in H as (n & Hn & Hk & Hc).
    destruct sd, c; simpl in Hc; inversion Hn; subst; eexists; split_and!; eauto with rbdb; congruence.
Qed.

Lemma leftmost m q t : nodes t = m :: q → ∃ k c r, t = zip k (T c E m r) ∧ allL k.
Proof.
  revert q. induction t as [|c l IHl x r _]; intros q; simpl; [done|].
  destruct (nodes l) as [|y ql] eqn:El; simpl; intros [= -> <-].
  - apply nodes_nil in El as ->. exists [], c, r. split; [done|constructor].
  - destruct (IHl ql eq_refl) as (k & c' & r' & -> & HL).
    exists (k ++ [Frame L c x r]), c', r'. rewrite zip_app. split; [done|].
    apply Forall_app; split; [done|]. by constructor.
Qed.

Lemma foc_relink h rt cp p sib k t pp q t' :
  foc h rt (Frame L cp p sib :: k) t → h !! p = Some pp →
  NoDup (p :: nodes sib ++ kn k) →
  rep (<[p := pp <| left := q |>]> h) (Some p) q t' →
  foc (<[p := pp <| left := q |>]> h) rt (Frame L cp p sib :: k) t'.
Proof.
  intros (par & q0 & _ & -> & pr & Hp & Hc & [_ Hu] & Hk) Hp' Hnd Ht'.
  simplify_eq. tsegs Hnd. do 2 eexists. split; [exact Ht'|]. rep_tac.
Qed.

(** What case 1 leaves when [m] has been unlinked from the context [k] and its
    subtree [r] put in its place. *)
Definition removed (m : nat) (N q : list nat) (h : list lock) (w : list chan) (s : sched)
    (w' : world sched) : Prop :=
  ∃ s' t', w' = World h w s' ∧ rep (procs s') None (root (rbTree s')) t' ∧ nodes t' = q ∧
    is_rb t' ∧ lo N s s'.

Lemma removed_here m N k t h w s s' q :
  foc (procs s') (root (rbTree s')) k t → is_rb (zip k t) → nodes (zip k t) = q → lo N s s' →
  removed m N q h w s (World h w s').
Proof. intros Hf Hrb Hn Hlo. rewrite foc_zip in Hf. exists s', (zip k t). done. Qed.

Lemma retrievingCases_2_spec k t n h w s :
  (length k + 2 ≤ tree_fuel)%nat → foc (procs s) (root (rbTree s)) k t → NoDup (nodes t ++ kn k) →
  allL k → rbk k (S n) → deficient t n →
  wp (retrievingCases_2 (kpar k) (troot t)) (λ _ w', ∃ s' t', w' = World h w s' ∧
      rep (procs s') None (root (rbTree s')) t' ∧ nodes t' = nodes (zip k t) ∧
      is_rb t' ∧ lo (nodes t ++ kn k) s s') (World h w s).
Proof.
  intros Hlen Hf Hnd HL Hk Ht. unfold retrievingCases_2. wp_step.
  eapply wp_mono; [eapply retrieving_while_spec with (d := length k); eauto|].
  intros q w' (s' & k' & u & -> & Hf' & -> & Hs & Hrb & Hlo). destruct u as [|c l x r].
  - cbn [troot]. wp_heap. exists s', (zip k' E). rewrite foc_zip in Hf'.
    destruct Hs as [Hs _]. done.
  - pose proof (foc_node _ _ _ _ _ _ _ Hf') as (px & Hx & _). cbn [troot]. wp_heap.
    eapply foc_color with (c' := BLACK) in Hf'; [|by eapply same_NoDup|done].
    rewrite foc_zip in Hf'. do 2 eexists. split; [done|]. split; [exact Hf'|].
    destruct Hs as [Hs HN]. split; [by rewrite <-Hs, !nodes_zip|]. split; [done|].
    eapply lo_trans; [exact Hlo|]. eapply lo_wr; [done|rewrite <-HN; simpl; set_solver|done].
Qed.

(** The root has no left child: its right child takes over. *)
Lemma replace_root_spec h w s c m r :
  foc (procs s) (root (rbTree s)) [] (T c E m r) → NoDup (nodes (T c E m r)) →
  is_rb (T c E m r) →
  wp (replace_by_child None (Some m) (troot r))
     (λ _, removed m (nodes (T c E m r)) (nodes r) h w s) (World h w s).
Proof.
  intros Hf Hnd [Hc [n Hn]]. simpl in Hc. subst c.
  assert (rb r (pred n)) as Hr by (inversion Hn; by subst).
  destruct Hf as (par & p & (-> & pm & Hm & _ & Hp & Hl & Hr') & Hk). destruct Hk as [-> Hrt].
  unfold replace_by_child. cbn [nodes] in Hnd. destruct r as [|cr rl y rr]; cbn [troot].
  - wp_heap. eapply (removed_here _ _ [] E); [|split; eauto with rbdb|done|lo_solve].
    by exists None, None.
  - destruct Hr' as (Hy & py & Hpy & _ & _ & Hrl & Hrr). tsegs Hnd. wp_heap.
    eapply (removed_here _ _ [] (T BLACK rl y rr)); [|split|done|lo_solve; clear; set_solver].
    + do 2 eexists. split; [|done]. rep_tac.
    + done.
    + destruct cr; eauto. exists (S (pred n)). by apply rb_repaint_B.
Qed.

Lemma foc_nonroot h rt k t x : foc h rt k t → NoDup (nodes t ++ kn k) → k ≠ [] → x ∈ nodes t → Some x ≠ rt.
Proof.
  intros Hf Hnd Hk Hx. destruct (foc_root _ _ _ _ Hf Hk) as (i & -> & Hi).
  intros [= ->]. apply NoDup_app in Hnd as (_ & Hd & _). by eapply Hd.
Qed.

(** The three ways of unlinking a process that is not the root. *)
Lemma replace_inner_spec h w s c m r cp p sib k :
  foc (procs s) (root (rbTree s)) (Frame L cp p sib :: k) (T c E m r) →
  NoDup (nodes (T c E m r) ++ kn (Frame L cp p sib :: k)) → allL k →
  is_rb (zip (Frame L cp p sib :: k) (T c E m r)) → (length k + 3 ≤ tree_fuel)%nat →
  wp (replace_by_child (Some p) (Some m) (troot r))
     (λ _, removed m (nodes (T c E m r) ++ kn (Frame L cp p sib :: k))
             (nodes (zip (Frame L cp p sib :: k) r)) h w s) (World h w s).
Proof.
  intros Hf Hnd HL Hrb Hlen. apply rb_unzip in Hrb as (n & Hn & Hk & Hc).
  assert (Some m ≠ root (rbTree s)) by (eapply foc_nonroot; eauto; set_solver).
  pose proof (foc_node _ _ _ _ _ _ _ Hf) as (pm & Hm & Hcm & _).
  pose proof (foc_par _ _ _ _ _ _ _ _ Hf) as (pp & Hp & _).
  pose proof Hnd as (_ & _ & Hnd1)%NoDup_app.
  tsegs Hnd. assert (m ≠ p) by nin.
  assert (r = E ∨ c = BLACK ∧ ∃ y, r = T RED E y E) as [-> |[-> [y ->]]].
  { inversion Hn as [|l' x' r' n' Hl Hr El Er|l' x' r' n' Hl Hr]; subst; inversion Hl; subst.
    - left. by apply rb_E_inv in Hr.
    - apply rb_0_inv in Hr as [->|]; auto. }
  - unfold replace_by_child. cbn [troot]. destruct c.
    + wp_heap. eapply (removed_here _ _ (Frame L cp p sib :: k) E).
      * eapply foc_relink; eauto; done.
      * inversion Hn; subst. eapply rb_zip; [done|eassumption|done..].
      * done.
      * lo_solve; clear; set_solver.
    + wp_heap. eapply foc_relink with (q := None) (t' := E) in Hf; [|done|done|done].
      inversion Hn as [| |? ? ? ? Hl]; subst. inversion Hl; subst.
      eapply wp_mono; [apply (retrievingCases_2_spec (Frame L cp p sib :: k) E 0)|].
      * simpl. lia.
      * exact Hf.
      * done.
      * by constructor.
      * done.
      * constructor.
      * intros _ w' (s' & t' & -> & Ht' & Hn' & Hrb' & Hlo). exists s', t'. split_and!; try done.
        eapply lo_trans; [|lo_incl]. lo_solve; clear; set_solver.
  - pose proof Hf as (par & q & (-> & pm' & Hm' & _ & _ & _ & (Hy & py & Hpy & Hcy & _ & Hyl & Hyr)) & _).
    simplify_eq. tsegs Hnd. assert (y ≠ p) by nin. assert (y ≠ m) by nin.
    unfold replace_by_child. cbn [troot]. wp_heap.
    eapply (removed_here _ _ (Frame L cp p sib :: k) (T BLACK E y E)).
    + destruct Hf as (? & ? & _ & -> & pp' & Hp' & Hcp & [_ Hu] & Hk'). simplify_eq.
      simpl in Hyl, Hyr. exists (Some p), (Some y). split; rep_tac.
    + inversion Hn as [| |? ? ? ? Hl Hr]; subst. inversion Hr; subst.
      eapply rb_zip; [done|by constructor|done..].
    + by rewrite !nodes_zip.
    + lo_solve; clear; set_solver.
Qed.

Lemma retrievingCases_1_spec h w s c m r k :
  foc (procs s) (root (rbTree s)) k (T c E m r) → NoDup (nodes (T c E m r) ++ kn k) → allL k →
  is_rb (zip k (T c E m r)) → (length k + 2 ≤ tree_fuel)%nat →
  wp (retrievingCases_1 (kpar k) (Some m)) (λ _ w', ∃ s' t' pm, w' = World h w s' ∧
      rep (procs s') None (root (rbTree s')) t' ∧ nodes t' = nodes (zip k r) ∧ is_rb t' ∧
      procs s' !! m = Some pm ∧ left pm = None ∧ right pm = None ∧ parentP pm = None ∧
      lo (nodes (T c E m r) ++ kn k) s s') (World h w s).
Proof.
  intros Hf Hnd HL Hrb Hlen.
  pose proof (foc_node _ _ _ _ _ _ _ Hf) as (pm & Hm & _ & _ & _ & Hmr).
  unfold retrievingCases_1. wp_step. wp_step. rewrite Hmr. wp_step.
  eapply wp_mono with (Φ := λ _, removed m (nodes (T c E m r) ++ kn k) (nodes (zip k r)) h w s).
  { destruct k as [|[sd cp p sib] k].
    - cbn [kn] in *. rewrite app_nil_r in *. by apply replace_root_spec.
    - inversion HL as [|? ? Hsd HL']; subst. simpl in Hsd. subst sd.
      eapply replace_inner_spec; eauto. simpl in Hlen. lia. }
  intros _ w' (s' & t' & -> & Ht' & Hn' & Hrb' & Hlo).
  assert (∃ pm', procs s' !! m = Some pm') as [pm' Hm'].
  { destruct (lo_field_r state _ _ _ _ _ (λ _, eq_refl) Hlo Hm) as (pm' & ? & _). eauto. }
  assert (m ∉ nodes t') as Hmt.
  { rewrite Hn', nodes_zip_kn. tsegs Hnd. intros [Hi|Hi]%elem_of_app; revert Hi; nin. }
  wp_heap. do 3 eexists. split; [done|]. split; [|split; [done|]].
  - cbn [procs rbTree set_field]. by repeat (apply rep_insert; [done|]).
  - split; [done|]. split; [look|]. split_and!; [done..|].
    eapply lo_trans; [exact Hlo|]. lo_solve; clear; set_solver.
Qed.
