(* ===== verification/RunQueue.v ===== *)
(** * The run queue as a priority queue

    The abstraction of the scheduler's tree is the sequence of queued process
    indices in the order they will be retrieved. [insertProcess] refines
    [enqueue] (stable insertion by virtual runtime) and [retrieveProcess]
    removes the head of the sequence. *)
From S2P Require Import Prelude Param ProcData RBTree RBSpec RBHeap RBInsert RBDelete.

(** ** Weights *)
Lemma calculateWeight_clamp nice :
  calculateWeight nice = calculateWeight (Z.max 0 (Z.min 30 nice)).
Proof.
  unfold calculateWeight. destruct (Z.gtb_spec nice 30), (Z.gtb_spec (Z.max 0 (Z.min 30 nice)) 30);
    try lia; do 3 f_equal; lia.
Qed.
Lemma calculateWeight_table n :
  0 ≤ n ≤ 30 → calculateWeight n = 1024 * 4 ^ (n + 1) / 5 ^ (n + 1).
Proof.
  intros Hn.
  assert (Forall (λ n, calculateWeight n = 1024 * 4 ^ (n + 1) / 5 ^ (n + 1)) (seqZ 0 31)) as H.
  { rewrite <-(bool_decide_eq_true (Forall _ _)). vm_compute. reflexivity. }
  rewrite Forall_forall in H. apply H. apply elem_of_seqZ. lia.
Qed.
Lemma calculateWeight_bounds n : 1 ≤ calculateWeight n ≤ 819.
Proof.
  rewrite calculateWeight_clamp. set (m := Z.max 0 (Z.min 30 n)).
  assert (Forall (λ n, 1 ≤ calculateWeight n ≤ 819) (seqZ 0 31)) as H.
  { rewrite <-(bool_decide_eq_true (Forall _ _)). vm_compute. reflexivity. }
  rewrite Forall_forall in H. apply H. apply elem_of_seqZ. lia.
Qed.

Lemma calculateWeight_antitone n m : 0 ≤ n ≤ m → m ≤ 30 → calculateWeight m ≤ calculateWeight n.
Proof.
  intros Hn Hm.
  assert (Forall (λ n, Forall (λ m, n ≤ m → calculateWeight m ≤ calculateWeight n) (seqZ 0 31)) (seqZ 0 31)) as H.
  { rewrite <-(bool_decide_eq_true (Forall _ _)). vm_compute. reflexivity. }
  rewrite Forall_forall in H. specialize (H n). rewrite Forall_forall in H.
  apply H; try apply elem_of_seqZ; lia.
Qed.

(** ** The representation invariant *)
Definition vruntime (s : sched) (i : nat) : Z := from_option virtualRuntime 0 (procs s !! i).
Definition weight (s : sched) (i : nat) : Z := from_option weightValue 0 (procs s !! i).
Definition weights (s : sched) (q : list nat) : Z := foldr (λ i a, weight s i + a) 0 q.

(** [RQ s q]: the tree of [s] is a red-black tree whose in-order sequence is
    [q], sorted by virtual runtime; the header's count, total weight and minimum
    agree with [q]; processes outside the queue have null links. *)
Record RQ (s : sched) (q : list nat) : Prop := mkRQ {
  rq_tree : ∃ t, rep (procs s) None (root (rbTree s)) t ∧ nodes t = q ∧ is_rb t;
  rq_nodup : NoDup q;
  rq_sorted : StronglySorted (λ a b, vruntime s a ≤ vruntime s b) q;
  rq_len : length (procs s) = NPROC;
  rq_count : count (rbTree s) = Z.of_nat (length q);
  rq_min : min_vRuntime (rbTree s) = head q;
  rq_weight i pr : i ∈ q → procs s !! i = Some pr → weightValue pr = calculateWeight (niceValue pr);
  rq_total : rbTreeWeight (rbTree s) = weights s q;
  rq_period : latency ≤ period (rbTree s) ≤ 2 * Z.of_nat NPROC;
  rq_out i pr : i ∉ q → procs s !! i = Some pr → left pr = None ∧ right pr = None ∧ parentP pr = None;
}.

Lemma rep_lookup h par p t i : rep h par p t → i ∈ nodes t → is_Some (h !! i).
Proof.
  revert par p. induction t as [|c l IHl x r IHr]; intros par p; simpl; [set_solver|].
  intros (-> & pr & Hx & _ & _ & Hl & Hr) [Hi|[->|Hi]%elem_of_cons]%elem_of_app; eauto.
Qed.
Lemma rq_bound s q i : RQ s q → i ∈ q → (i < NPROC)%nat.
Proof.
  intros HQ Hi. destruct (rq_tree _ _ HQ) as (t & Ht & <- & _).
  rewrite <-(rq_len _ _ HQ). by eapply lookup_lt_is_Some, rep_lookup.
Qed.
Lemma below_NPROC q : NoDup q → (∀ i, i ∈ q → (i < NPROC)%nat) → (length q ≤ NPROC)%nat.
Proof.
  intros Hnd Hq. transitivity (length (seq 0 NPROC)); [|by rewrite length_seq].
  apply submseteq_length, NoDup_submseteq; [done|].
  intros i Hi. apply elem_of_seq. apply Hq in Hi. lia.
Qed.
Lemma rq_le s q : RQ s q → (length q ≤ NPROC)%nat.
Proof. intros HQ. apply below_NPROC; [apply HQ|]. intros i. by apply rq_bound with s. Qed.
Lemma rq_cons_bound s q x : RQ s q → (x < NPROC)%nat → x ∉ q → (length q < NPROC)%nat.
Proof.
  intros HQ Hx Hq. apply (below_NPROC (x :: q)); [apply NoDup_cons; split; [done|apply HQ]|].
  intros i [->|Hi]%elem_of_cons; [done|]. by eapply rq_bound.
Qed.

Lemma weights_bounds s q :
  (∀ i pr, i ∈ q → procs s !! i = Some pr → weightValue pr = calculateWeight (niceValue pr)) →
  (∀ i, i ∈ q → is_Some (procs s !! i)) →
  Z.of_nat (length q) ≤ weights s q ≤ 819 * Z.of_nat (length q).
Proof.
  intros Hw Hl. induction q as [|i q IH]; simpl; [lia|].
  destruct (Hl i) as [pr Hi]; [set_solver|].
  assert (1 ≤ weight s i ≤ 819).
  { unfold weight. rewrite Hi. simpl. rewrite (Hw i) by (set_solver || done). apply calculateWeight_bounds. }
  assert (Z.of_nat (length q) ≤ weights s q ≤ 819 * Z.of_nat (length q)); [|lia].
  apply IH; intros; [eapply Hw|eapply Hl]; set_solver.
Qed.
Lemma rq_weights s q : RQ s q → Z.of_nat (length q) ≤ weights s q ≤ 819 * Z.of_nat (length q).
Proof.
  intros HQ. apply weights_bounds; [apply HQ|]. intros i Hi.
  apply lookup_lt_is_Some. rewrite (rq_len _ _ HQ). by eapply rq_bound.
Qed.
Lemma weights_tail s q m :
  RQ s (m :: q) → Z.of_nat (length q) ≤ weights s q ≤ 819 * Z.of_nat (length q).
Proof.
  intros HQ. apply weights_bounds.
  - intros i pr Hi Hpr. refine (rq_weight _ _ HQ i pr _ Hpr). by apply list_elem_of_further.
  - intros i Hi. apply lookup_lt_is_Some. rewrite (rq_len _ _ HQ).
    eapply rq_bound; [done|by apply list_elem_of_further].
Qed.
Lemma weights_perm s q q' : q ≡ₚ q' → weights s q = weights s q'.
Proof. induction 1; simpl; lia. Qed.
Lemma weights_ext s s' q : (∀ i, i ∈ q → weight s' i = weight s i) → weights s' q = weights s q.
Proof. induction q as [|i q IH]; simpl; intros H; [done|]. rewrite H, IH; set_solver. Qed.

(** ** Insertion *)

(** A change of fields that are not links. *)
Lemma rep_data h par p t i pr pr' :
  h !! i = Some pr → coloring pr' = coloring pr → parentP pr' = parentP pr →
  left pr' = left pr → right pr' = right pr → rep h par p t → rep (<[i := pr']> h) par p t.
Proof.
  intros Hi Hc Hp Hl Hr. revert par p. induction t as [|c l IHl x r IHr]; intros par p; simpl; [done|].
  intros (-> & px & Hx & Hcx & Hpx & Hlx & Hrx). split; [done|].
  destruct (decide (x = i)) as [->|].
  - simplify_eq. exists pr'. rewrite list_lookup_insert_eq by (by eapply lookup_lt_Some).
    rewrite Hc, Hp, Hl, Hr. split_and!; auto.
  - exists px. rewrite list_lookup_insert_ne by done. split_and!; auto.
Qed.

(** The descent, the new root and its null parent. *)
Lemma insert_leaf_spec {A} (K : M sched A) Φ h w s q x px t :
  RQ s q → rep (procs s) None (root (rbTree s)) t → nodes t = q →
  x ∉ q → procs s !! x = Some px →
  (∀ s1, rep (procs s1) None (root (rbTree s1)) (ins (vruntime s) x t) →
     lo (x :: q) s s1 → wp K Φ (World h w s1)) →
  wp (r ← rdt root;
      r' ← insertproc tree_fuel r (Some x);
      wrt (λ t, t <| root := r' |>);;
      c ← rdt count;
      when (c =? 0) (r ← rdt root; wr r (λ q, q <| parentP := None |>));;
      K) Φ (World h w s).
Proof.
  intros HQ Ht Hn Hq Hx HK.
  assert (length q < NPROC)%nat
    by (eapply rq_cons_bound; eauto; rewrite <-(rq_len _ _ HQ); by eapply lookup_lt_Some).
  destruct (rq_out _ _ HQ x px Hq Hx) as (Hl & Hr & Hp). rewrite <-Hn in Hq.
  wp_step. wp_step. wp_step.
  eapply wp_mono; [eapply (insertproc_spec (vruntime s)) with (par := None); try done|].
  { rewrite Hn. unfold tree_fuel. lia. }
  { intros i pr Hi. unfold vruntime. by rewrite Hi. }
  { rewrite <-Hn in *. apply NoDup_cons. split; [done|]. apply HQ. }
  intros p' ? (s1 & -> & Ht1 & Hlo). rewrite Hn in Hlo.
  assert (count (rbTree s1) = Z.of_nat (length q)) as Hcount
    by (rewrite (lo_tree _ _ _ Hlo); apply HQ).
  do 4 wp_step. cbn [count rbTree set_field]. rewrite Hcount. wp_step. wp_step.
  destruct (Z.eqb_spec (Z.of_nat (length q)) 0) as [E|E].
  - destruct q; [|simpl in E; lia]. apply nodes_nil in Hn as ->.
    simpl in Ht1. destruct Ht1 as (-> & px1 & Hx1 & Hc1 & Hp1 & Hl1 & Hr1).
    wp_heap. apply HK; [|eapply lo_trans; [exact Hlo|lo_solve; clear; set_solver]]. simpl in Hl1, Hr1.
    cbn [ins]. rep_tac.
  - apply HK; [|eapply lo_trans; [exact Hlo|lo_solve]]. done.
Qed.

Lemma kn_length k : (length k ≤ length (kn k))%nat.
Proof. induction k as [|f k IH]; simpl; [lia|]. rewrite length_app. lia. Qed.
Lemma nodes_ins_perm vr x t : nodes (ins vr x t) ≡ₚ x :: nodes t.
Proof.
  induction t as [|c l IHl y r IHr]; simpl; [done|]. case_match; simpl.
  - rewrite IHr. solve_Permutation.
  - rewrite IHl. solve_Permutation.
Qed.

Lemma insert_fix_spec vr h w s x t :
  rep (procs s) None (root (rbTree s)) (ins vr x t) → is_rb t → NoDup (x :: nodes t) →
  (length (nodes t) < NPROC)%nat →
  wp (insertionCases cases_fuel (Some x) 1)
     (λ _, fixed x (x :: nodes t) (nodes (ins vr x t)) h w s) (World h w s).
Proof.
  intros Ht [Hc [n Hn]] Hnd Hlen.
  destruct (ins_zip vr x t n []) as (k & Hk & Hrk); [constructor|done|by rewrite Hc|].
  simpl in Hk. rewrite Hk in *. rewrite <-foc_zip in Ht.
  assert (nodes (T RED E x E) ++ kn k ≡ₚ x :: nodes t) as Hp
    by (rewrite <-nodes_zip_kn, <-Hk; apply nodes_ins_perm).
  eapply wp_mono; [eapply (insertionCases_spec x (length k)); [done| |exact Ht| |exact Hrk|..]|].
  - pose proof (kn_length k). apply Permutation_length in Hp. rewrite length_app in Hp.
    simpl in Hp. unfold cases_fuel. lia.
  - by rewrite Hp.
  - constructor.
  - constructor.
  - done.
  - done.
  - by left.
  - intros ? w'. apply fixed_weaken; [apply lo_refl| |done]. intros i. by rewrite Hp.
Qed.

(** If a new process precedes the old minimum [m], then [m] has a left child. *)
Lemma new_min_left x m q t : is_rb t → okx x t → NoDup (x :: m :: q) → nodes t = x :: m :: q →
  ∃ k c r, t = zip k (T c (T RED E x E) m r) ∨ t = zip k (T c (T BLACK E x E) m r).
Proof.
  intros Hrb (k & c & l & r & -> & Hok) Hnd Hn. rewrite nodes_zip in Hn. simpl in Hn.
  destruct (knodes k).1 as [|a ka] eqn:Ek; cycle 1.
  { exfalso. injection Hn as -> Hn. apply NoDup_cons in Hnd as [Hx _]. apply Hx.
    rewrite <-Hn. set_solver. }
  destruct (nodes l) as [|a la] eqn:El; cycle 1.
  { exfalso. injection Hn as -> Hn. apply NoDup_cons in Hnd as [Hx _]. apply Hx.
    rewrite <-Hn. set_solver. }
  apply nodes_nil in El as ->. simpl in Hn. injection Hn as Hn.
  apply rb_unzip in Hrb as (n & Hx & Hk & _).
  assert (r = E) as ->.
  { destruct Hok as [->|[?| ->]]; [|done|done].
    inversion Hx as [|? ? ? ? Hl Hr _ Er|]; subst. inversion Hl; subst. by apply rb_E_inv in Hr. }
  destruct k as [|[[] c' y u] k]; simpl in *; [done| |].
  - destruct (knodes k) as [a b]; simplify_eq/=. exists k, c', u. destruct c; auto.
  - destruct (knodes k) as [a b]; simplify_eq/=. by destruct a, (nodes u).
Qed.

Lemma enqueue_head vr x m q : head (enqueue vr x (m :: q)) = Some m ∨ enqueue vr x (m :: q) = x :: m :: q.
Proof. simpl. case_match; auto. Qed.

Lemma update_min_spec Φ vr h w s q x t :
  rep (procs s) None (root (rbTree s)) t → is_rb t → okx x t → NoDup (x :: q) →
  nodes t = enqueue vr x q → min_vRuntime (rbTree s) = head q → (length q < NPROC)%nat →
  Φ () (World h w (s <| rbTree ::= λ tr, tr <| min_vRuntime := head (nodes t) |> |>)) →
  wp (m ← rdt min_vRuntime;
      stale ← orM (bool_decide (m = None)) (ml ← rd left m; ret (bool_decide (ml ≠ None)));
      when stale
        (r ← rdt root;
         m' ← setMinimumVRuntimeproc tree_fuel r;
         wrt (λ t, t <| min_vRuntime := m' |>))) Φ (World h w s).
Proof.
  intros Ht Hrb Hok Hnd Hn Hm Hlen HK.
  assert (length (nodes t) < tree_fuel)%nat as Hfuel.
  { rewrite Hn, enqueue_perm. simpl. unfold tree_fuel. lia. }
  assert (wp (when true (r ← rdt root; m' ← setMinimumVRuntimeproc tree_fuel r;
                         wrt (λ t, t <| min_vRuntime := m' |>))) Φ (World h w s)) as Hstale.
  { wp_step. wp_step. wp_step. wp_step.
    eapply wp_mono; [by eapply setMinimumVRuntimeproc_spec|]. intros m ? [-> ->].
    wp_step. exact HK. }
  wp_step. wp_step. rewrite Hm. destruct q as [|m q]; cbn [head].
  { wp_step. wp_step. rewrite bool_decide_eq_true_2 by done. exact Hstale. }
  assert (∃ pm, procs s !! m = Some pm) as [pm Hpm].
  { eapply rep_lookup; [exact Ht|]. rewrite Hn, enqueue_perm. set_solver. }
  wp_step. wp_step. rewrite bool_decide_eq_false_2 by done. wp_step. wp_step. wp_step.
  destruct (left pm) as [l|] eqn:El; [exact Hstale|].
  assert (head (nodes t) = Some m) as Hhead.
  { rewrite Hn. destruct (enqueue_head vr x m q) as [|E]; [done|]. exfalso. rewrite E in Hn.
    destruct (new_min_left x m q t Hrb Hok) as (k & c & r & Hz); [exact Hnd|exact Hn|].
    destruct Hz as [-> | ->]; rewrite <-foc_zip in Ht;
      apply foc_node in Ht as (pm' & ? & _ & _ & ? & _); simplify_eq/=. }
  rewrite Hhead in HK. wp_step.
  replace s with (s <| rbTree ::= λ tr, tr <| min_vRuntime := Some m |> |>); [exact HK|].
  destruct s as [? ? [] ? ? ?]; simpl in *; by subst.
Qed.

(** The fields of a process that are not links. *)
Definition data (s : sched) (i : nat) : option proc := erase <$> procs s !! i.

Lemma data_field {A} (f : proc → A) d s i :
  (∀ p, f (erase p) = f p) → from_option f d (procs s !! i) = from_option f d (data s i).
Proof. intros Hf. unfold data. destruct (procs s !! i); simpl; by rewrite ?Hf. Qed.
Lemma vruntime_data s i : vruntime s i = from_option virtualRuntime 0 (data s i).
Proof. by apply data_field. Qed.
Lemma weight_data s i : weight s i = from_option weightValue 0 (data s i).
Proof. by apply data_field. Qed.
Lemma data_lookup s i pr : procs s !! i = Some pr → data s i = Some (erase pr).
Proof. unfold data. by intros ->. Qed.
Lemma data_insert s i pr j : (i < length (procs s))%nat →
  data (s <| procs ::= <[i := pr]> |>) j = if decide (i = j) then Some (erase pr) else data s j.
Proof.
  intros Hi. unfold data. simpl. case_decide; [subst; by rewrite list_lookup_insert_eq|].
  by rewrite list_lookup_insert_ne.
Qed.
Lemma lo_length N s s' : lo N s s' → length (procs s') = length (procs s).
Proof.
  intros Hlo. rewrite <-(length_fmap erase (procs s')), <-(length_fmap erase (procs s)).
  f_equal. apply list_eq. intros i. rewrite !list_lookup_fmap. apply Hlo.
Qed.
Lemma sorted_impl {A} (P Q : A → A → Prop) l :
  (∀ a b, P a b → Q a b) → StronglySorted P l → StronglySorted Q l.
Proof. intros HPQ. induction 1; constructor; eauto using Forall_impl. Qed.

(** Inserting [x] changes its weight, and the links of queued processes. *)
Record inserted (x : nat) (px : proc) (q : list nat) (s s' : sched) : Prop := {
  ins_rest : s' = s <| procs := procs s' |> <| rbTree := rbTree s' |>;
  ins_period : period (rbTree s') = period (rbTree s);
  ins_other i : i ≠ x → data s' i = data s i;
  ins_self : data s' x = Some (erase (px <| weightValue := calculateWeight (niceValue px) |>));
  ins_frame i : i ∉ x :: q → procs s' !! i = procs s !! i;
}.

(** The header update between the descent and the fix-up. *)
Definition header_insert (x : nat) (px : proc) (wv : Z) (s : sched) : sched :=
  s <| rbTree ::= λ t, t <| count ::= λ c, i32 (c + 1) |> |>
    <| procs ::= <[x := px <| weightValue := wv |>]> |>
    <| rbTree ::= λ t, t <| rbTreeWeight ::= λ y, i32 (y + wv) |> |>.

Lemma RQ_inserted x px q s t' s' :
  RQ s q → procs s !! x = Some px → x ∉ q → inserted x px q s s' →
  rep (procs s') None (root (rbTree s')) t' → nodes t' = enqueue (vruntime s) x q → is_rb t' →
  length (procs s') = NPROC → count (rbTree s') = i32 (count (rbTree s) + 1) →
  rbTreeWeight (rbTree s') = i32 (rbTreeWeight (rbTree s) + calculateWeight (niceValue px)) →
  min_vRuntime (rbTree s') = head (nodes t') →
  RQ s' (enqueue (vruntime s) x q).
Proof.
  intros HQ Hx Hq [_ Hper Ho Hs Hfr] Ht' Hn Hrb Hlen Hc Hw Hm.
  pose proof (enqueue_perm (vruntime s) x q) as Hp.
  assert (length q < NPROC)%nat
    by (eapply rq_cons_bound; eauto; rewrite <-(rq_len _ _ HQ); by eapply lookup_lt_Some).
  assert (∀ i, vruntime s' i = vruntime s i) as Hv.
  { intros i. rewrite !vruntime_data. destruct (decide (i = x)) as [->|]; [|by rewrite Ho].
    rewrite Hs. by rewrite (data_lookup _ _ _ Hx). }
  assert (∀ i, i ∈ q → weight s' i = weight s i) as Hwt
    by (intros; rewrite !weight_data, Ho; [done|naive_solver]).
  pose proof (rq_weights _ _ HQ) as Hws. pose proof (calculateWeight_bounds (niceValue px)).
  split; eauto.
  - rewrite Hp. apply NoDup_cons. split; [done|apply HQ].
  - eapply sorted_impl; [|apply enqueue_sorted, HQ]. intros a b. by rewrite !Hv.
  - rewrite Hc, (rq_count _ _ HQ), Hp. simpl. rewrite i32_small; unfold NPROC in *; lia.
  - rewrite Hm. by rewrite Hn.
  - intros i pr. rewrite Hp. intros [->|Hi]%elem_of_cons Hpr.
    + rewrite (data_lookup _ _ _ Hpr) in Hs. apply (inj Some) in Hs.
      change (weightValue (erase pr) = calculateWeight (niceValue (erase pr))). by rewrite Hs.
    + assert (data s' i = data s i) as Hd by (apply Ho; naive_solver).
      rewrite (data_lookup _ _ _ Hpr) in Hd. unfold data in Hd.
      destruct (procs s !! i) as [pr0|] eqn:Hpr0; [|done]. apply (inj Some) in Hd.
      change (weightValue (erase pr) = calculateWeight (niceValue (erase pr))). rewrite Hd.
      exact (rq_weight _ _ HQ i pr0 Hi Hpr0).
  - rewrite Hw, (weights_perm _ _ _ Hp), (rq_total _ _ HQ). simpl.
    rewrite (weights_ext s s') by done. rewrite weight_data, Hs. simpl.
    rewrite i32_small; unfold NPROC in *; lia.
  - rewrite Hper. apply HQ.
  - intros i pr. rewrite Hp. intros Hi. rewrite Hfr by done. apply HQ. set_solver.
Qed.

Lemma inserted_chain x px q s s1 px1 s3 m :
  lo (x :: q) s s1 → procs s !! x = Some px → procs s1 !! x = Some px1 →
  lo (x :: q) (header_insert x px1 (calculateWeight (niceValue px)) s1) s3 →
  inserted x px q s (s3 <| rbTree ::= λ tr, tr <| min_vRuntime := m |> |>).
Proof.
  intros Hlo1 Hx Hx1 Hlo3.
  assert (x < length (procs s1))%nat as Hlt by (by eapply lookup_lt_Some).
  assert (∀ i, data s3 i = if decide (x = i)
     then Some (erase (px1 <| weightValue := calculateWeight (niceValue px) |>)) else data s1 i) as Hd.
  { intros i. rewrite <-(data_insert s1) by done. apply (lo_data _ _ _ Hlo3). }
  split.
  - destruct Hlo1 as [R1 _ _ _], Hlo3 as [R3 _ _ _]. rewrite R3. unfold header_insert. rewrite R1.
    by destruct s.
  - destruct Hlo1 as [_ T1 _ _], Hlo3 as [_ T3 _ _]. simpl. rewrite T3. simpl. by rewrite T1.
  - intros i Hi. change (data s3 i = data s i). rewrite Hd, decide_False by done.
    apply (lo_data _ _ _ Hlo1).
  - change (data s3 x = Some (erase (px <| weightValue := calculateWeight (niceValue px) |>))).
    rewrite Hd, decide_True by done. pose proof (lo_data _ _ _ Hlo1 x) as Hd1.
    rewrite Hx, Hx1 in Hd1. apply (inj Some) in Hd1. f_equal.
    change ((erase px1) <| weightValue := calculateWeight (niceValue px) |> =
            (erase px) <| weightValue := calculateWeight (niceValue px) |>). by rewrite Hd1.
  - intros i Hi. simpl. rewrite (lo_frame _ _ _ Hlo3) by done. simpl.
    rewrite list_lookup_insert_ne by set_solver. by apply (lo_frame _ _ _ Hlo1).
Qed.

Lemma insertProcess_spec s q x px h w :
  RQ s q → procs s !! x = Some px → x ∉ q → tree_lock ∉ h →
  wp (insertProcess (Some x)) (λ _ w', ∃ s', w' = World h w s' ∧
      RQ s' (enqueue (vruntime s) x q) ∧ inserted x px q s s') (World h w s).
Proof.
  intros HQ Hx Hq Hh. pose proof HQ as HQ'.
  destruct (rq_tree _ _ HQ) as (t & Ht & Hn & Hrb).
  assert (NoDup (x :: q)) as Hnd by (apply NoDup_cons; split; [done|apply HQ]).
  assert (length q < NPROC)%nat as Hlen
    by (eapply rq_cons_bound; eauto; rewrite <-(rq_len _ _ HQ); by eapply lookup_lt_Some).
  unfold insertProcess. apply wp_bind. apply wp_acquire; [done|].
  apply wp_bind. apply wp_rdt. rewrite (rq_count _ _ HQ).
  destruct (Z.eqb_spec (Z.of_nat (length q)) (Z.of_nat NPROC)); [lia|].
  apply wp_bind. apply wp_when. cbn [negb].
  apply (insert_leaf_spec _ _ _ _ s q x px t); try done. intros s1 Ht1 Hlo1.
  destruct (lo_field_r niceValue _ _ _ _ _ (λ _, eq_refl) Hlo1 Hx) as (px1 & Hx1 & Hnice).
  wp_step. wp_step. wp_step. eapply wp_rd; [look|]. rewrite Hnice.
  wp_step. wp_step. wp_step. wp_step. cbn [weightValue set_field]. wp_step. wp_step.
  lazymatch goal with |- wp ?m ?P _ => change (wp m P (World (tree_lock :: h) w
    (header_insert x px1 (calculateWeight (niceValue px)) s1))) end.
  wp_step. eapply wp_mono; [eapply insert_fix_spec with (vr := vruntime s) (t := t)|]; try done.
  { cbn [header_insert procs rbTree set_field root]. by eapply rep_data. }
  { by rewrite Hn. }
  { by rewrite Hn. }
  intros _ w' (s3 & t' & -> & Ht3 & Hn3 & Hrb3 & Hok & Hlo3). rewrite Hn in Hlo3.
  rewrite nodes_ins, Hn in Hn3 by (rewrite Hn; apply HQ).
  pose proof (inserted_chain _ _ _ _ _ _ _ (head (nodes t')) Hlo1 Hx Hx1 Hlo3) as Hins.
  eapply update_min_spec; [exact Ht3|done|done|exact Hnd|exact Hn3| |done|].
  { rewrite (lo_tree _ _ _ Hlo3). simpl. rewrite (lo_tree _ _ _ Hlo1). apply HQ. }
  apply wp_release; [done|]. eexists. split; [done|]. split; [|exact Hins].
  eapply RQ_inserted; eauto; simpl.
  - rewrite (lo_length _ _ _ Hlo3). simpl. rewrite length_insert, (lo_length _ _ _ Hlo1). apply HQ.
  - rewrite (lo_tree _ _ _ Hlo3). simpl. by rewrite (lo_tree _ _ _ Hlo1).
  - rewrite (lo_tree _ _ _ Hlo3). simpl. by rewrite (lo_tree _ _ _ Hlo1).
Qed.

(** ** Retrieval *)

(** The period the next time slice is computed from. *)
Definition epoch (s : sched) : Z :=
  if count (rbTree s) >? Z.quot latency min_granularity then count (rbTree s) * min_granularity
  else period (rbTree s).
Definition set_epoch (s : sched) : sched := s <| rbTree ::= λ t, t <| period := epoch s |> |>.

Lemma epoch_bounds s q : RQ s q → latency ≤ epoch s ≤ 2 * Z.of_nat NPROC.
Proof.
  intros HQ. unfold epoch. pose proof (rq_period _ _ HQ). rewrite (rq_count _ _ HQ).
  pose proof (rq_le _ _ HQ).
  change (Z.quot latency min_granularity) with 16. change min_granularity with 2. change latency with 32 in *.
  destruct (Z.gtb_spec (Z.of_nat (length q)) 16); lia.
Qed.
Lemma RQ_epoch s q : RQ s q → RQ (set_epoch s) q.
Proof. intros HQ. pose proof (epoch_bounds _ _ HQ). destruct HQ. by split. Qed.

Lemma set_epoch_spec {A} (K : M sched A) Φ h w s q :
  RQ s q → wp K Φ (World h w (set_epoch s)) →
  wp (c ← rdt count;
      when (c >? Z.quot latency min_granularity)
        (wrt (λ t, t <| period := i32 (c * min_granularity) |>));;
      K) Φ (World h w s).
Proof.
  intros HQ HK. pose proof (epoch_bounds _ _ HQ) as Hb. wp_step. wp_step. wp_step. wp_step.
  revert HK Hb. unfold set_epoch, epoch.
  destruct (count (rbTree s) >? Z.quot latency min_granularity); intros HK Hb.
  - apply wp_wrt. rewrite i32_small; [done|]. change latency with 32 in Hb. unfold NPROC in Hb. lia.
  - replace s with (s <| rbTree ::= λ t, t <| period := period (rbTree s) |> |>); [done|].
    by destruct s as [? ? [] ? ? ?].
Qed.

(** Retrieving [m] sets its time slice; queued processes change links only. *)
Record retrieved (m : nat) (pm : proc) (q : list nat) (s s' : sched) : Prop := {
  ret_rest : s' = s <| procs := procs s' |> <| rbTree := rbTree s' |>;
  ret_period : period (rbTree s') = epoch s;
  ret_other i : i ≠ m → data s' i = data s i;
  ret_self : data s' m = Some (erase (pm <| maximumExecutiontime :=
               epoch s * weightValue pm / weights s (m :: q) |>));
  ret_frame i : i ∉ m :: q → procs s' !! i = procs s !! i;
}.

Lemma RQ_retrieved m pm q s s' t' pm' :
  RQ s (m :: q) → procs s !! m = Some pm → retrieved m pm q s s' →
  rep (procs s') None (root (rbTree s')) t' → nodes t' = q → is_rb t' →
  length (procs s') = NPROC → count (rbTree s') = i32 (count (rbTree s) - 1) →
  rbTreeWeight (rbTree s') = i32 (rbTreeWeight (rbTree s) - weightValue pm) →
  min_vRuntime (rbTree s') = head q →
  procs s' !! m = Some pm' → left pm' = None → right pm' = None → parentP pm' = None →
  RQ s' q.
Proof.
  intros HQ Hm [_ Hper Ho Hs Hfr] Ht' Hn Hrb Hlen Hc Hw Hmin Hm' Hl' Hr' Hp'.
  pose proof (rq_nodup _ _ HQ) as [Hmq Hndq]%NoDup_cons.
  pose proof (epoch_bounds _ _ HQ) as He.
  assert (∀ i, vruntime s' i = vruntime s i) as Hv.
  { intros i. rewrite !vruntime_data. destruct (decide (i = m)) as [->|]; [|by rewrite Ho].
    rewrite Hs. by rewrite (data_lookup _ _ _ Hm). }
  assert (∀ i, i ∈ q → data s' i = data s i) as Hd by (intros; apply Ho; naive_solver).
  assert (∀ i, i ∈ q → weight s' i = weight s i) as Hwt
    by (intros; by rewrite !weight_data, Hd).
  assert (weights s (m :: q) = weightValue pm + weights s q) as Hsum
    by (simpl; unfold weight at 1; by rewrite Hm).
  pose proof (rq_le _ _ HQ) as Hle.
  split; eauto.
  - pose proof (rq_sorted _ _ HQ) as Hso. inversion Hso; subst.
    eapply sorted_impl; [|done]. intros a b. by rewrite !Hv.
  - rewrite Hc, (rq_count _ _ HQ). cbn [length] in *. rewrite i32_small; unfold NPROC in *; lia.
  - intros i pr Hi Hpr. specialize (Hd i Hi).
    rewrite (data_lookup _ _ _ Hpr) in Hd. unfold data in Hd.
    destruct (procs s !! i) as [pr0|] eqn:Hpr0; [|done]. apply (inj Some) in Hd.
    change (weightValue (erase pr) = calculateWeight (niceValue (erase pr))). rewrite Hd.
    refine (rq_weight _ _ HQ i pr0 _ Hpr0). set_solver.
  - rewrite Hw, (weights_ext s s'), (rq_total _ _ HQ), Hsum by done.
    replace (weightValue pm + weights s q - weightValue pm) with (weights s q) by lia.
    apply i32_small. cbn [length] in Hle.
    enough (Z.of_nat (length q) ≤ weights s q ≤ 819 * Z.of_nat (length q)) by (unfold NPROC in *; lia).
    by apply (weights_tail s q m).
  - by rewrite Hper.
  - intros i pr Hi Hpr. destruct (decide (i = m)) as [->|]; [naive_solver|].
    rewrite Hfr in Hpr by set_solver. refine (rq_out _ _ HQ i pr _ Hpr).
    by apply not_elem_of_cons.
Qed.

Lemma knodes_allL k : allL k → (knodes k).1 = [].
Proof.
  induction 1 as [|[[] ? ? ?] k Hs HL IH]; simpl in *; [done| |done]. by destruct (knodes k).
Qed.

Lemma slice_bounds e w t : 0 ≤ e ≤ 128 → 1 ≤ w ≤ 819 → w ≤ t < 2 ^ 31 →
  i32 (Z.quot (i32 (e * w)) t) = e * w / t ∧ 0 ≤ e * w / t ≤ e.
Proof.
  intros He Hw Ht. rewrite (i32_small (e * w)) by nia. rewrite Z.quot_div_nonneg by nia.
  assert (0 ≤ e * w / t ≤ e).
  { split; [apply Z.div_pos; nia|]. apply Z.div_le_upper_bound; nia. }
  split; [|done]. apply i32_small. lia.
Qed.

Lemma retrieved_chain m pm q s s1 pm1 mn sl :
  lo (m :: q) (set_epoch s) s1 → procs s !! m = Some pm → procs s1 !! m = Some pm1 →
  sl = epoch s * weightValue pm / weights s (m :: q) → ∀ f,
  (∀ t, period (f t) = period t) →
  retrieved m pm q s (s1 <| rbTree ::= λ t, t <| count ::= λ c, i32 (c - 1) |> |>
     <| rbTree ::= λ t, t <| min_vRuntime := mn |> |>
     <| procs ::= <[m := pm1 <| maximumExecutiontime := sl |>]> |> <| rbTree ::= f |>).
Proof.
  intros Hlo Hm Hm1 -> f Hf.
  assert (m < length (procs s1))%nat as Hlt by (by eapply lookup_lt_Some).
  pose proof (lo_data _ _ _ Hlo m) as Hd1. simpl in Hd1. rewrite Hm, Hm1 in Hd1. apply (inj Some) in Hd1.
  set (sl := epoch s * weightValue pm / weights s (m :: q)).
  split.
  - destruct Hlo as [R _ _ _]. rewrite R. by destruct s.
  - destruct Hlo as [_ T _ _]. simpl. rewrite Hf. simpl. by rewrite T.
  - intros i Hi. pose proof (lo_data _ _ _ Hlo i) as Hd. unfold data. simpl.
    by rewrite list_lookup_insert_ne by done.
  - unfold data. simpl. rewrite list_lookup_insert_eq by done. simpl. f_equal.
    change ((erase pm1) <| maximumExecutiontime := sl |> =
            (erase pm) <| maximumExecutiontime := sl |>). by rewrite Hd1.
  - intros i Hi. simpl. rewrite list_lookup_insert_ne by set_solver. by apply (lo_frame _ _ _ Hlo).
Qed.

(** The removal from the tree. *)
Lemma unlink_min_spec {A} (K : M sched A) Φ s q m h w :
  RQ s (m :: q) →
  (∀ s' t' pm, rep (procs s') None (root (rbTree s')) t' → nodes t' = q → is_rb t' →
     procs s' !! m = Some pm → left pm = None ∧ right pm = None ∧ parentP pm = None →
     lo (m :: q) s s' → wp K Φ (World h w s')) →
  wp (m ← rdt min_vRuntime;
      mp ← rd parentP m;
      retrievingCases mp m 1;;
      K) Φ (World h w s).
Proof.
  intros HQ HK. destruct (rq_tree _ _ HQ) as (t & Ht & Hn & Hrb).
  destruct (leftmost m q t Hn) as (k & c & r & -> & HL).
  pose proof Ht as Hf. rewrite <-foc_zip in Hf.
  pose proof (foc_node _ _ _ _ _ _ _ Hf) as (pm & Hm & _ & Hp & _).
  pose proof (nodes_zip_kn k (T c E m r)) as Hperm. rewrite Hn in Hperm.
  wp_step. wp_step. rewrite (rq_min _ _ HQ). cbn [head]. wp_step. wp_step. rewrite Hp. wp_step.
  cbn [retrievingCases].
  eapply wp_mono; [eapply retrievingCases_1_spec; [exact Hf| |done|done|]|].
  - rewrite <-Hperm. apply HQ.
  - pose proof (rq_le _ _ HQ) as Hle. apply Permutation_length in Hperm. pose proof (kn_length k).
    rewrite length_app in Hperm. cbn [length nodes app] in *. unfold tree_fuel. lia.
  - intros _ w' (s' & t' & pm' & -> & Ht' & Hn' & Hrb' & Hm' & Hl & Hr & Hpp & Hlo).
    apply (HK s' t' pm'); try done; [|eapply lo_mono; [|exact Hlo]; intros i; by rewrite Hperm].
    rewrite Hn'. rewrite nodes_zip in *. simpl in Hn.
    rewrite (knodes_allL k HL) in *. simpl in *. by injection Hn.
Qed.

Lemma retrieveProcess_spec s q m pm h w :
  RQ s (m :: q) → procs s !! m = Some pm → state pm = RUNNABLE → tree_lock ∉ h →
  wp retrieveProcess (λ r w', r = Some m ∧ ∃ s', w' = World h w s' ∧
      RQ s' q ∧ retrieved m pm q s s') (World h w s).
Proof.
  intros HQ Hm Hrun Hh. pose proof (RQ_epoch _ _ HQ) as HQe.
  pose proof (epoch_bounds _ _ HQ) as He. pose proof (rq_weights _ _ HQ) as Hws.
  pose proof (rq_le _ _ HQ) as Hle.
  pose proof (rq_weight _ _ HQ m pm ltac:(set_solver) Hm) as Hwm.
  pose proof (calculateWeight_bounds (niceValue pm)) as Hcw. rewrite <-Hwm in Hcw.
  unfold retrieveProcess. apply wp_bind. apply wp_acquire; [done|].
  apply wp_bind. apply wp_rdt. rewrite (rq_count _ _ HQ). cbn [length].
  destruct (Z.eqb_spec (Z.of_nat (S (length q))) 0); [lia|]. cbn [negb].
  eapply set_epoch_spec; [exact HQ|].
  wp_step. wp_step. rewrite (rq_min _ _ HQe). cbn [head].
  wp_step. eapply wp_rd; [exact Hm|]. rewrite Hrun, bool_decide_eq_false_2 by naive_solver.
  eapply unlink_min_spec; [exact HQe|]. intros s1 t1 pm1 Ht1 Hn1 Hrb1 Hm1 (Hl1 & Hr1 & Hp1) Hlo.
  wp_step. wp_step. wp_step. wp_step. wp_step.
  eapply wp_mono; [eapply setMinimumVRuntimeproc_spec; [|exact Ht1]|].
  { rewrite Hn1. unfold tree_fuel. cbn [length] in Hle. lia. }
  intros mn w' [-> ->]. rewrite Hn1.
  destruct (lo_field_r weightValue _ _ _ _ _ (λ _, eq_refl) Hlo Hm) as (pm1' & Hm1' & Hwv).
  assert (pm1' = pm1) as -> by congruence.
  assert (period (rbTree s1) = epoch s) as Hper by (by rewrite (lo_tree _ _ _ Hlo)).
  assert (rbTreeWeight (rbTree s1) = weights s (m :: q)) as Htw
    by (rewrite (lo_tree _ _ _ Hlo); apply HQ).
  assert (weightValue pm ≤ weights s (m :: q)) as Hwle
    by (simpl; unfold weight at 1; rewrite Hm; simpl; pose proof (weights_tail s q m HQ); lia).
  destruct (slice_bounds (epoch s) (weightValue pm) (weights s (m :: q))) as [Hsl _];
    [change latency with 32 in He; unfold NPROC in He; lia|lia|unfold NPROC in Hle; lia|].
  wp_step. wp_step. wp_step. wp_step. cbn [period rbTree set_field]. rewrite Hper.
  wp_step. eapply wp_rd; [look|]. rewrite Hwv. wp_step. wp_step. cbn [rbTreeWeight rbTree set_field].
  rewrite Htw. wp_step. unfold cdiv.
  destruct (Z.eqb_spec (weights s (m :: q)) 0); [lia|]. wp_step. rewrite Hsl.
  wp_step. wp_step. wp_step. wp_step. cbn [weightValue set_field]. rewrite Hwv. wp_step. wp_step.
  apply wp_bind. apply wp_release; [done|]. apply wp_ret. split; [done|]. eexists. split; [done|].
  pose proof (retrieved_chain m pm q s s1 pm1 (head q) _ Hlo Hm Hm1 eq_refl) as Hret.
  specialize (Hret (λ t, t <| rbTreeWeight ::= λ x, i32 (x - weightValue pm) |>)).
  specialize (Hret (λ _, eq_refl)).
  split; [|exact Hret].
  eapply RQ_retrieved with (pm' := pm1 <| maximumExecutiontime := _ |>);
    [exact HQ|exact Hm|exact Hret|..]; simpl; try done.
  - cbn [procs set_field]. by eapply rep_data.
  - rewrite length_insert, (lo_length _ _ _ Hlo). apply HQ.
  - by rewrite (lo_tree _ _ _ Hlo).
  - by rewrite (lo_tree _ _ _ Hlo).
  - look.
Qed.

(** Nothing to run: the queue is empty, or its head is not runnable. *)
Lemma retrieveProcess_none s q h w :
  RQ s q → (∀ m pm, head q = Some m → procs s !! m = Some pm → state pm ≠ RUNNABLE) →
  tree_lock ∉ h →
  wp retrieveProcess (λ r w', r = None ∧ w' = World h w (if q is [] then s else set_epoch s))
     (World h w s).
Proof.
  intros HQ Hrun Hh. unfold retrieveProcess. apply wp_bind. apply wp_acquire; [done|].
  apply wp_bind. apply wp_rdt. rewrite (rq_count _ _ HQ). destruct q as [|m q].
  { simpl. apply wp_bind. apply wp_release; [done|]. by apply wp_ret. }
  destruct (Z.eqb_spec (Z.of_nat (length (m :: q))) 0); [simpl in *; lia|]. cbn [negb].
  eapply set_epoch_spec; [exact HQ|].
  assert (is_Some (procs s !! m)) as [pm Hm].
  { apply lookup_lt_is_Some. rewrite (rq_len _ _ HQ). eapply rq_bound; [done|set_solver]. }
  wp_step. wp_step. rewrite (rq_min _ _ (RQ_epoch _ _ HQ)). cbn [head].
  wp_step. eapply wp_rd; [exact Hm|]. rewrite bool_decide_eq_true_2 by (by eapply Hrun).
  apply wp_bind. apply wp_release; [done|]. by apply wp_ret.
Qed.

(** ** Whole runs *)
Fixpoint insert_all (xs : list nat) : M sched unit :=
  match xs with [] => ret () | x :: xs => insertProcess (Some x);; insert_all xs end.
Fixpoint drain (fuel : nat) : M sched (list nat) :=
  match fuel with
  | O => ret []
  | S fuel =>
      p ← retrieveProcess;
      match p with
      | None => ret []
      | Some i => r ← drain fuel; ret (i :: r)
      end
  end.

Definition runnable (s : sched) (i : nat) : Prop := state <$> procs s !! i = Some RUNNABLE.
Lemma runnable_data s s' i : data s' i = data s i → runnable s i → runnable s' i.
Proof.
  unfold runnable, data. intros Hd Hi.
  assert (∀ o : option proc, state <$> o = state <$> (erase <$> o)) as E by (by intros []).
  rewrite E in *. by rewrite Hd.
Qed.
Lemma inserted_state x px q s s' i : inserted x px q s s' → procs s !! x = Some px →
  state <$> procs s' !! i = state <$> procs s !! i ∧ vruntime s' i = vruntime s i.
Proof.
  intros [_ _ Ho Hs _] Hx. rewrite !vruntime_data.
  assert (∀ o : option proc, state <$> o = state <$> (erase <$> o)) as E by (by intros []).
  rewrite (E (procs s' !! i)), (E (procs s !! i)). change (erase <$> procs ?a !! i) with (data a i).
  destruct (decide (i = x)) as [->|]; [|by rewrite Ho].
  rewrite Hs, (data_lookup _ _ _ Hx). done.
Qed.

Lemma enqueue_ext vr vr' x q : (∀ i, vr i = vr' i) → enqueue vr x q = enqueue vr' x q.
Proof. intros H. induction q as [|y q IH]; simpl; [done|]. by rewrite !H, IH. Qed.
Lemma foldl_enqueue_ext vr vr' xs q : (∀ i, vr i = vr' i) →
  foldl (λ q x, enqueue vr x q) q xs = foldl (λ q x, enqueue vr' x q) q xs.
Proof.
  intros H. revert q. induction xs as [|x xs IH]; intros q; simpl; [done|].
  by rewrite (enqueue_ext vr vr').
Qed.

Lemma foldl_enqueue_perm vr xs q : foldl (λ q x, enqueue vr x q) q xs ≡ₚ xs ++ q.
Proof.
  revert q. induction xs as [|x xs IH]; intros q; simpl; [done|].
  rewrite IH, enqueue_perm. by rewrite Permutation_middle.
Qed.

Lemma insert_all_spec xs : ∀ s q h w,
  RQ s q → NoDup (xs ++ q) → Forall (λ x, (x < NPROC)%nat) xs → tree_lock ∉ h →
  wp (insert_all xs) (λ _ w', ∃ s', w' = World h w s' ∧
      RQ s' (foldl (λ q x, enqueue (vruntime s) x q) q xs) ∧
      ∀ i, state <$> procs s' !! i = state <$> procs s !! i) (World h w s).
Proof.
  induction xs as [|x xs IH]; intros s q h w HQ Hnd Hxs Hh; simpl.
  { apply wp_ret. eauto. }
  inversion Hxs as [|? ? Hx Hxs']; subst.
  assert (is_Some (procs s !! x)) as [px Hpx] by (apply lookup_lt_is_Some; by rewrite (rq_len _ _ HQ)).
  simpl in Hnd. rewrite NoDup_cons in Hnd. destruct Hnd as [Hx' Hnd].
  apply wp_bind. eapply wp_mono; [eapply insertProcess_spec; [done|done|set_solver|done]|].
  intros _ ? (s1 & -> & HQ1 & Hins).
  eapply wp_mono; [eapply IH; [exact HQ1| |done|done]|].
  { rewrite enqueue_perm, <-Permutation_middle. by apply NoDup_cons. }
  intros _ ? (s2 & -> & HQ2 & Hst). eexists. split; [done|]. split.
  - rewrite (foldl_enqueue_ext _ (vruntime s)) in HQ2; [done|].
    intros i. by apply (inserted_state _ _ _ _ _ i Hins Hpx).
  - intros i. rewrite Hst. by apply (inserted_state _ _ _ _ _ i Hins Hpx).
Qed.
Lemma drain_spec q : ∀ fuel s h w,
  RQ s q → Forall (runnable s) q → tree_lock ∉ h → (length q < fuel)%nat →
  wp (drain fuel) (λ r w', r = q ∧ ∃ s', w' = World h w s' ∧ RQ s' []) (World h w s).
Proof.
  induction q as [|m q IH]; intros fuel s h w HQ Hrun Hh Hfuel; (destruct fuel as [|fuel]; [simpl in *; lia|]); cbn [drain]; apply wp_bind.
  - eapply wp_mono; [by eapply retrieveProcess_none|]. intros ? ? [-> ->]. apply wp_ret. eauto.
  - inversion Hrun as [|? ? Hm Hq]; subst. unfold runnable in Hm.
    destruct (procs s !! m) as [pm|] eqn:Hpm; [|done]. injection Hm as Hm.
    eapply wp_mono; [by eapply retrieveProcess_spec|].
    intros ? ? (-> & s1 & -> & HQ1 & [_ _ Ho _ _]). apply wp_bind.
    pose proof (rq_nodup _ _ HQ) as [Hmq _]%NoDup_cons. simpl in Hfuel.
    eapply wp_mono; [apply IH; [exact HQ1| |done|lia]|].
    + rewrite Forall_forall in *. intros i Hi. eapply runnable_data, Hq, Hi. apply Ho. naive_solver.
    + intros r ? (-> & s2 & -> & HQ2). apply wp_ret. eauto.
Qed.

(** ** Height *)
Fixpoint height (t : tree) : nat :=
  match t with E => 0 | T _ l _ r => S (max (height l) (height r)) end.

Lemma rb_height t n : rb t n →
  (height t ≤ 2 * n + (if tcol t is RED then 1 else 0))%nat.
Proof.
  induction 1 as [|l x r n Hl IHl Hr IHr El Er|l x r n Hl IHl Hr IHr]; simpl; [lia| |].
  - rewrite El, Er in *. lia.
  - destruct (tcol l), (tcol r); lia.
Qed.
Lemma rb_size t n : rb t n → (2 ^ n ≤ length (nodes t) + 1)%nat.
Proof.
  induction 1 as [|l x r n Hl IHl Hr IHr El Er|l x r n Hl IHl Hr IHr]; simpl; [lia| |];
    rewrite length_app; simpl; lia.
Qed.

(** ** A concrete table

    Every process runnable, with virtual runtimes that are not in table order. *)
Definition demo : sched :=
  sched0 <| procs := (λ i, proc0 <| state := RUNNABLE |>
                            <| virtualRuntime := Z.of_nat (7 * i) mod 10 |>) <$> seq 0 NPROC |>.
Lemma RQ_demo : RQ demo [].
Proof.
  split; [|constructor|constructor|done|done|done|set_solver|done|done|].
  { exists E. split_and!; [done|done|]. split; [done|]. exists 0%nat. constructor. }
  intros i pr _ Hi. unfold demo in Hi. cbn [procs set_field] in Hi.
  apply list_lookup_fmap_Some_1 in Hi as (j & -> & _). done.
Qed.
Definition demo1 : sched := final (insertProcess (Some 5%nat)) (World [] [] demo).
Lemma RQ_demo1 : RQ demo1 [5%nat].
Proof.
  apply (wp_final (λ s, RQ s [5%nat]) [] []).
  destruct (lookup_lt_is_Some_2 (procs demo) 5) as [px Hx]; [rewrite (rq_len _ _ RQ_demo); unfold NPROC; lia|].
  eapply wp_mono; [apply (insertProcess_spec demo [] 5 px); [exact RQ_demo|exact Hx|set_solver|set_solver]|].
  intros _ w (s' & -> & HQ & _). exists s'. split; [done|]. exact HQ.
Qed.
Lemma demo_lookup : ∃ px, procs demo !! 5%nat = Some px ∧ state px = RUNNABLE.
Proof. eexists. split; reflexivity. Qed.
Lemma demo1_lookup : ∃ px, procs demo1 !! 5%nat = Some px ∧ state px = RUNNABLE.
Proof. eexists. split; vm_compute; reflexivity. Qed.

(** ** The properties *)

(** C1: [insertProcess] refines [enqueue]: on a well-formed run queue [q], inserting
    a process that is not queued returns with the lock released and a well-formed
    queue, a red-black tree sorted by virtual runtime with a correct count,
    weight and minimum, whose sequence is [q] with the process placed after every
    process whose virtual runtime is not larger. Only links, the weight of the
    inserted process and the tree header change. *)
Theorem insertProcess_refines s q x px h w :
  RQ s q → procs s !! x = Some px → x ∉ q → tree_lock ∉ h →
  ∃ s', insertProcess (Some x) (World h w s) = Done () (World h w s') ∧
    RQ s' (enqueue (vruntime s) x q) ∧ inserted x px q s s'.
Proof.
  intros HQ Hx Hq Hh. pose proof (insertProcess_spec s q x px h w HQ Hx Hq Hh) as H.
  apply wp_done in H as ([] & w' & E & s' & -> & ?). eauto.
Qed.
Lemma insertProcess_refines_witness : ∃ px s',
  insertProcess (Some 5%nat) (World [] [] demo) = Done () (World [] [] s') ∧
  RQ s' [5%nat] ∧ inserted 5 px [] demo s'.
Proof.
  destruct demo_lookup as (px & Hx & _). exists px.
  apply (insertProcess_refines demo [] 5 px [] []);
    [exact RQ_demo|exact Hx|apply not_elem_of_nil|apply not_elem_of_nil].
Defined.

(** C2: [retrieveProcess] removes the head of the queue when it is runnable: it
    returns the process with the least virtual runtime (the first inserted among
    equals), the remaining queue is well formed, and the process gets the time
    slice period * weight / total weight; the division never faults. *)
Theorem retrieveProcess_refines s q m pm h w :
  RQ s (m :: q) → procs s !! m = Some pm → state pm = RUNNABLE → tree_lock ∉ h →
  ∃ s', retrieveProcess (World h w s) = Done (Some m) (World h w s') ∧
    RQ s' q ∧ retrieved m pm q s s'.
Proof.
  intros HQ Hm Hr Hh. pose proof (retrieveProcess_spec s q m pm h w HQ Hm Hr Hh) as H.
  apply wp_done in H as (r & w' & E & -> & s' & -> & ?). eauto.
Qed.
Lemma retrieveProcess_refines_witness : ∃ pm s',
  retrieveProcess (World [] [] demo1) = Done (Some 5%nat) (World [] [] s') ∧
  RQ s' [] ∧ retrieved 5 pm [] demo1 s'.
Proof.
  destruct demo1_lookup as (px & Hx & Hr). exists px.
  apply (retrieveProcess_refines demo1 [] 5 px [] []);
    [exact RQ_demo1|exact Hx|exact Hr|apply not_elem_of_nil].
Defined.

(** C31: inserting any set of processes into an empty queue and then retrieving
    until the queue is empty yields each of them once, in the order of a stable
    sort by virtual runtime; no step panics, faults or loops. *)
Theorem insert_all_drain s xs h w :
  RQ s [] → NoDup xs → Forall (λ x, (x < NPROC)%nat ∧ runnable s x) xs → tree_lock ∉ h →
  ∃ s', (insert_all xs;; drain (S NPROC)) (World h w s) =
          Done (foldl (λ q x, enqueue (vruntime s) x q) [] xs) (World h w s') ∧ RQ s' [].
Proof.
  intros HQ Hnd Hxs Hh. apply Forall_and in Hxs as [Hlt Hrun].
  assert (wp (insert_all xs;; drain (S NPROC)) (λ r w', ∃ s', w' = World h w s' ∧
    r = foldl (λ q x, enqueue (vruntime s) x q) [] xs ∧ RQ s' []) (World h w s)) as H.
  { apply wp_bind. eapply wp_mono; [apply (insert_all_spec xs s []); rewrite ?app_nil_r; done|].
    intros _ ? (s1 & -> & HQ1 & Hst).
    eapply wp_mono; [eapply drain_spec; [exact HQ1| |done|]|].
    - rewrite Forall_forall in *. intros i Hi. unfold runnable. rewrite Hst. apply Hrun.
      rewrite foldl_enqueue_perm in Hi. by rewrite app_nil_r in Hi.
    - pose proof (rq_le _ _ HQ1). lia.
    - intros r ? (-> & s2 & -> & ?). eauto. }
  apply wp_done in H as (r & w' & E & s' & -> & -> & ?). eauto.
Qed.
Lemma insert_all_drain_witness : ∃ s',
  (insert_all [3; 1; 4; 11; 5]%nat;; drain (S NPROC)) (World [] [] demo) =
    Done [3; 5; 1; 11; 4]%nat (World [] [] s') ∧ RQ s' [].
Proof.
  apply (insert_all_drain demo [3; 1; 4; 11; 5]%nat [] []);
    [exact RQ_demo|apply (bool_decide_unpack _); vm_compute; exact I
    |repeat constructor|apply not_elem_of_nil].
Defined.

(** When the queue is empty or its first process is not runnable,
    [retrieveProcess] returns null and leaves the process table and the queue
    as they are (only the period may be recomputed). *)
Theorem retrieveProcess_idle s q h w :
  RQ s q → (∀ m pm, head q = Some m → procs s !! m = Some pm → state pm ≠ RUNNABLE) →
  tree_lock ∉ h →
  ∃ s', retrieveProcess (World h w s) = Done None (World h w s') ∧ RQ s' q ∧ procs s' = procs s.
Proof.
  intros HQ Hr Hh. pose proof (retrieveProcess_none s q h w HQ Hr Hh) as H.
  apply wp_done in H as (r & w' & -> & -> & ->). eexists. split; [done|].
  destruct q; [done|]. split; [by apply RQ_epoch|done].
Qed.
Lemma retrieveProcess_idle_witness : ∃ s',
  retrieveProcess (World [] [] demo) = Done None (World [] [] s') ∧ RQ s' [] ∧ procs s' = procs demo.
Proof.
  apply (retrieveProcess_idle demo [] [] []); [exact RQ_demo|discriminate|apply not_elem_of_nil].
Defined.

(** The tree of a run queue of n processes has height at most
    2 * log2 (n + 1): insertion and retrieval follow logarithmic paths. *)
Theorem run_queue_height s q :
  RQ s q → ∃ t, rep (procs s) None (root (rbTree s)) t ∧ nodes t = q ∧
    (height t ≤ 2 * Nat.log2 (length q + 1))%nat.
Proof.
  intros HQ. destruct (rq_tree _ _ HQ) as (t & Ht & <- & Hc & n & Hn). exists t.
  split; [done|]. split; [done|]. pose proof (rb_height _ _ Hn) as Hh. rewrite Hc in Hh.
  pose proof (rb_size _ _ Hn) as Hs.
  apply Nat.log2_le_mono in Hs. rewrite Nat.log2_pow2 in Hs by lia. lia.
Qed.
Lemma run_queue_height_witness : ∃ t, rep (procs demo1) None (root (rbTree demo1)) t ∧
  nodes t = [5%nat] ∧ (height t ≤ 2 * Nat.log2 2)%nat.
Proof. apply (run_queue_height demo1 [5%nat]). exact RQ_demo1. Defined.

(** The weight of a process, computed by the code in double precision with
    a truncating conversion, is exactly floor (1024 * (4/5)^(nice + 1)) for nice
    clamped to 0..30; it lies in 1..819 and does not increase with nice. *)
Theorem calculateWeight_exact nice nice' :
  (let n := Z.max 0 (Z.min 30 nice) in
   calculateWeight nice = 1024 * 4 ^ (n + 1) / 5 ^ (n + 1)) ∧
  1 ≤ calculateWeight nice ≤ 819 ∧
  (nice ≤ nice' → calculateWeight nice' ≤ calculateWeight nice).
Proof.
  split; [|split; [apply calculateWeight_bounds|]].
  - rewrite calculateWeight_clamp. simpl. apply calculateWeight_table. lia.
  - intros Hle. rewrite (calculateWeight_clamp nice), (calculateWeight_clamp nice').
    apply calculateWeight_antitone; lia.
Qed.
