(* ===== verification/Sched.v ===== *)
(** * The scheduler: process states, sleep and wakeup

    kernel/proc.c from [procinit] on, for the part that works on the process
    table and the run queue alone. A function that switches away is cut at its
    [swtch]: the part before it ends by returning what the thread keeps on its
    kernel stack, and a [_leave] definition is the part after it. *)
From S2P Require Import Prelude Param ProcData RBTree.

(** ** Loops *)
Fixpoint forM {S A} (l : list A) (f : A → M S unit) : M S unit :=
  match l with [] => ret () | x :: l => f x;; forM l f end.
(** [for(p = proc; p < &proc[NPROC]; p++)]. *)
Definition for_procs (f : nat → M sched unit) : M sched unit := forM (seq 0 NPROC) f.

(** ** This hart *)
Definition cpuid : M sched nat := gets tp.
Definition mycpu : M sched cpu :=
  id ← cpuid;
  cs ← gets cpus;
  nonnull (cs !! id).
Definition set_mycpu (g : cpu → cpu) : M sched unit :=
  id ← cpuid;
  c ← mycpu;
  modify (λ s, s <| cpus ::= <[id := g c]> |>).
(** [push_off] and [pop_off] cancel out. *)
Definition myproc : M sched ptr := c ← mycpu; ret (cproc c).
(** Interrupts are off while the hart holds a spinlock (push_off). *)
Definition intr_get : M sched bool := n ← noff; ret (n =? 0)%nat.

(** ** Initialisation *)
Definition procinit : M sched unit :=
  for_procs (λ i,
    wr (Some i) (λ p, p <| state := UNUSED |>);;
    wr (Some i) (λ p, p <| kstack := KSTACK (Z.of_nat i) |>));;
  rbinit.

Definition allocpid : M sched Z :=
  acquire pid_lock;;
  pid ← gets nextpid;
  modify (λ s, s <| nextpid ::= λ n, i32 (n + 1) |>);;
  release pid_lock;;
  ret pid.

(** ** Dispatch *)

(** The body of the for loop of [scheduler] between [retrieveProcess] and
    [swtch]: [p->lock] stays held over the switch. The result says whether the
    hart switched to [p]. *)
Definition scheduler_dispatch (p : ptr) : M sched bool :=
  match p with
  | None => ret false
  | Some i =>
      acquire (proc_lock i);;
      s ← rd state p;
      if bool_decide (s = RUNNABLE) then
        wr p (λ q, q <| state := RUNNING |>);;
        set_mycpu (λ c, c <| cproc := p |>);;
        ret true
      else
        release (proc_lock i);;
        ret false
  end.
(** ... and after the switch back. *)
Definition scheduler_return (i : nat) : M sched unit :=
  set_mycpu (λ c, c <| cproc := None |>);;
  release (proc_lock i).

(** [sched] up to its [swtch]; the result is the saved [intena]. *)
Definition sched_enter : M sched bool :=
  p ← myproc;
  i ← nonnull p;
  h ← holding (proc_lock i);
  when (negb h) (panic "sched p->lock");;
  n ← noff;
  when (negb (n =? 1)%nat) (panic "sched locks");;
  s ← rd state p;
  when (bool_decide (s = RUNNING)) (panic "sched running");;
  on ← intr_get;
  when on (panic "sched interruptible");;
  c ← mycpu;
  ret (intena c).
Definition sched_leave (saved : bool) : M sched unit :=
  set_mycpu (λ c, c <| intena := saved |>).

(** ** Yield *)

(** The update of the runtime statistics shared by yield, wakeup and kill. *)
Definition account (p : ptr) : M sched unit :=
  v ← rd virtualRuntime p;
  c ← rd currentRuntime p;
  wr p (λ q, q <| virtualRuntime := i32 (v + c) |>);;
  wr p (λ q, q <| currentRuntime := 0 |>).

(** The same three steps put a process back on the run queue in all of them. *)
Definition make_runnable (p : ptr) : M sched unit :=
  wr p (λ q, q <| state := RUNNABLE |>);;
  account p;;
  insertProcess p.

(** [Some intena]: the hart switches to the scheduler. *)
Definition yield : M sched (option bool) :=
  p ← myproc;
  i ← nonnull p;
  acquire (proc_lock i);;
  m ← rdt min_vRuntime;
  c ← checkPreemption p m;
  if c =? 1 then
    make_runnable p;;
    saved ← sched_enter;
    ret (Some saved)
  else
    release (proc_lock i);;
    ret None.
Definition yield_leave (saved : bool) : M sched unit :=
  sched_leave saved;;
  p ← myproc;
  i ← nonnull p;
  release (proc_lock i).

(** ** Sleep and wakeup *)
Definition sleep (c : chan) (lk : lock) : M sched bool :=
  p ← myproc;
  i ← nonnull p;
  acquire (proc_lock i);;
  release lk;;
  wr p (λ q, q <| chan_ := Some c |>);;
  wr p (λ q, q <| state := SLEEPING |>);;
  sched_enter.
Definition sleep_leave (saved : bool) (lk : lock) : M sched unit :=
  sched_leave saved;;
  p ← myproc;
  i ← nonnull p;
  wr p (λ q, q <| chan_ := None |>);;
  release (proc_lock i);;
  acquire lk.

Definition wakeup_one (c : option chan) (i : nat) : M sched unit :=
  me ← myproc;
  when (negb (bool_decide (Some i = me)))
    (acquire (proc_lock i);;
     s ← rd state (Some i);
     pc ← rd chan_ (Some i);
     when (bool_decide (s = SLEEPING) && bool_decide (pc = c))
       (make_runnable (Some i));;
     release (proc_lock i)).
Definition wakeup (c : option chan) : M sched unit := for_procs (wakeup_one c).

(** ** Kill *)

(** The loop stops at the first process with the given pid. *)
Fixpoint kill_from (l : list nat) (target : Z) : M sched Z :=
  match l with
  | [] => ret (-1)
  | i :: l =>
      acquire (proc_lock i);;
      n ← rd pid (Some i);
      if n =? target then
        wr (Some i) (λ q, q <| killed := 1 |>);;
        s ← rd state (Some i);
        when (bool_decide (s = SLEEPING)) (make_runnable (Some i));;
        release (proc_lock i);;
        ret 0
      else
        release (proc_lock i);;
        kill_from l target
  end.
Definition kill (target : Z) : M sched Z := kill_from (seq 0 NPROC) target.

Definition setkilled (i : nat) : M sched unit :=
  acquire (proc_lock i);;
  wr (Some i) (λ q, q <| killed := 1 |>);;
  release (proc_lock i).
Definition is_killed (i : nat) : M sched Z :=
  acquire (proc_lock i);;
  k ← rd killed (Some i);
  release (proc_lock i);;
  ret k.

(** ** Parents *)

(** The channel a parent sleeps on is the address of its [struct proc]. *)
Definition proc_chan (p : ptr) : option chan := (λ i, ("proc", i)) <$> p.
Definition reparent (p : ptr) : M sched unit :=
  for_procs (λ i,
    pp ← rd parent (Some i);
    when (bool_decide (pp = p))
      (init ← gets initproc;
       wr (Some i) (λ q, q <| parent := init |>);;
       wakeup (proc_chan init))).

(** ** Nice values *)

(** [procs] prints one row per sleeping, running or runnable process. *)
Record row := mkRow {
  r_name : list Z; r_pid : Z; r_state : procstate; r_vruntime : Z; r_cruntime : Z;
  r_max : Z; r_nice : Z; r_weight : Z;
}.
Fixpoint procs_rows (l : list nat) : M sched (list row) :=
  match l with
  | [] => ret []
  | i :: l =>
      acquire (proc_lock i);;
      p ← rd (λ p, p) (Some i);
      release (proc_lock i);;
      rows ← procs_rows l;
      ret (if bool_decide (state p ∈ [SLEEPING; RUNNING; RUNNABLE])
           then mkRow (name p) (pid p) (state p) (virtualRuntime p) (currentRuntime p)
                  (maximumExecutiontime p) (niceValue p) (weightValue p) :: rows
           else rows)
  end.
Definition procs_listing : M sched (list row * Z) :=
  rows ← procs_rows (seq 0 NPROC);
  ret (rows, 23).

Fixpoint chprio_from (l : list nat) (target prio : Z) : M sched unit :=
  match l with
  | [] => ret ()
  | i :: l =>
      n ← rd pid (Some i);
      if n =? target then
        wr (Some i) (λ q, q <| niceValue := prio |>);;
        nice ← rd niceValue (Some i);
        wr (Some i) (λ q, q <| weightValue := calculateWeight nice |>)
      else chprio_from l target prio
  end.
Definition chprio (target prio : Z) : M sched Z :=
  chprio_from (seq 0 NPROC) target prio;;
  procs_listing;;
  ret target.

(** ** Creation and removal: the process-table part *)

(** The search of [allocproc] and its [found] block up to the first kalloc;
    it returns with the lock of the process held. *)
Definition alloc_fields (i : nat) : M sched unit :=
  n ← allocpid;
  wr (Some i) (λ p, p <| pid := n |>);;
  wr (Some i) (λ p, p <| state := USED |>);;
  wr (Some i) (λ p, p <| priority := 10 |>);;
  wr (Some i) (λ p, p <| virtualRuntime := 0 |>);;
  wr (Some i) (λ p, p <| currentRuntime := 0 |>);;
  wr (Some i) (λ p, p <| maximumExecutiontime := 0 |>);;
  wr (Some i) (λ p, p <| niceValue := 0 |>);;
  wr (Some i) (λ p, p <| left := None |>);;
  wr (Some i) (λ p, p <| right := None |>);;
  wr (Some i) (λ p, p <| parentP := None |>).
Fixpoint alloc_scan (l : list nat) : M sched ptr :=
  match l with
  | [] => ret None
  | i :: l =>
      acquire (proc_lock i);;
      s ← rd state (Some i);
      if bool_decide (s = UNUSED) then
        alloc_fields i;;
        ret (Some i)
      else
        release (proc_lock i);;
        alloc_scan l
  end.

(** The assignments of [freeproc] after its two deallocations. *)
Definition free_fields (i : nat) : M sched unit :=
  wr (Some i) (λ p, p <| pagetable := 0 |>);;
  wr (Some i) (λ p, p <| sz := 0 |>);;
  wr (Some i) (λ p, p <| pid := 0 |>);;
  wr (Some i) (λ p, p <| parent := None |>);;
  wr (Some i) (λ p, p <| name ::= <[0%nat := 0]> |>);;
  wr (Some i) (λ p, p <| chan_ := None |>);;
  wr (Some i) (λ p, p <| killed := 0 |>);;
  wr (Some i) (λ p, p <| xstate := 0 |>);;
  wr (Some i) (λ p, p <| state := UNUSED |>).

(** The end of [fork]: the child becomes runnable, and is queued after its
    lock has been released. *)
Definition fork_ready (i : nat) : M sched unit :=
  acquire (proc_lock i);;
  wr (Some i) (λ p, p <| state := RUNNABLE |>);;
  release (proc_lock i).

(** The end of [exit], from the second acquire on. *)
Definition exit_zombie (status : Z) : M sched unit :=
  p ← myproc;
  i ← nonnull p;
  acquire (proc_lock i);;
  wr p (λ q, q <| xstate := status |>);;
  wr p (λ q, q <| state := ZOMBIE |>);;
  release wait_lock;;
  sched_enter;;
  ret ().

(** The timer branch of [usertrap]. *)
Definition tick_current : M sched unit :=
  p ← myproc;
  c ← rd currentRuntime p;
  wr p (λ q, q <| currentRuntime := i32 (c + 1) |>).
