(* ===== verification/SchedInv.v ===== *)
(** * No process is lost

    The scheduler as a transition system: harts pick, run, preempt, put to
    sleep, wake, kill, create and reap processes in any order. An invariant ties
    the states of the processes to the run queue and to the harts: a process is
    RUNNABLE exactly when one party is responsible for it (the run queue, a hart
    that has just retrieved it, or the fork that is about to queue it), and
    RUNNING exactly when one hart runs it. *)
From S2P Require Import Prelude Param ProcData RBTree RBSpec RBHeap RBInsert RunQueue Sched.

Definition state_at (s : sched) (i : nat) : option procstate := state <$> procs s !! i.

Record Inv (s : sched) (q owned : list nat) : Prop := mkInv {
  inv_rq : RQ s q;
  inv_own i : state_at s i = Some RUNNABLE ↔ i ∈ q ++ owned;
  inv_nd : NoDup (q ++ owned);
  inv_run i : state_at s i = Some RUNNING ↔ i ∈ omap cproc (cpus s);
  inv_run_nd : NoDup (omap cproc (cpus s));
  inv_cpus : length (cpus s) = NCPU;
  inv_sleep i pr : procs s !! i = Some pr → state pr = SLEEPING → chan_ pr ≠ None;
}.

(** ** Framing *)
Lemma RQ_same s s' q : procs s' = procs s → rbTree s' = rbTree s → RQ s q → RQ s' q.
Proof.
  intros Hp Ht HQ. destruct HQ.
  assert (∀ i, vruntime s' i = vruntime s i) as Hv by (intros; unfold vruntime; by rewrite Hp).
  assert (weights s' q = weights s q) as Hw
    by (apply weights_ext; intros; unfold weight; by rewrite Hp).
  split; rewrite ?Hp, ?Ht, ?Hw; try done.
  eapply sorted_impl; [|done]. intros a b. by rewrite !Hv.
Qed.

Lemma RQ_cpus s q f : RQ s q → RQ (s <| cpus ::= f |>) q.
Proof. by apply RQ_same. Qed.
Lemma sorted_impl_in {A} (P Q : A → A → Prop) l :
  (∀ a b, a ∈ l → b ∈ l → P a b → Q a b) → StronglySorted P l → StronglySorted Q l.
Proof.
  intros HPQ Hs. induction Hs as [|a l Hl IH Ha]; constructor; [apply IH; set_solver|].
  rewrite Forall_forall in *. set_solver.
Qed.

(** Fields a process may change in the queue, and outside it. *)
Lemma RQ_wr_gen s q i pr pr' : RQ s q → procs s !! i = Some pr →
  (i ∈ q → coloring pr' = coloring pr ∧ parentP pr' = parentP pr ∧ left pr' = left pr ∧
     right pr' = right pr ∧ virtualRuntime pr' = virtualRuntime pr ∧ niceValue pr' = niceValue pr ∧
     weightValue pr' = weightValue pr) →
  (i ∉ q → left pr' = None ∧ right pr' = None ∧ parentP pr' = None) →
  RQ (s <| procs ::= <[i := pr']> |>) q.
Proof.
  intros HQ Hi Hin Hout. destruct HQ as [(t & Ht & Hn & Hrb) ?????????].
  assert (i < length (procs s))%nat by (by eapply lookup_lt_Some).
  assert (∀ j, j ∈ q → vruntime (s <| procs ::= <[i := pr']> |>) j = vruntime s j ∧
                       weight (s <| procs ::= <[i := pr']> |>) j = weight s j) as Hvw.
  { intros j Hj. unfold vruntime, weight. simpl. destruct (decide (i = j)) as [<-|].
    - rewrite list_lookup_insert_eq, Hi by done. simpl. naive_solver.
    - by rewrite list_lookup_insert_ne. }
  split; simpl; try done.
  - exists t. split; [|done]. destruct (decide (i ∈ q)) as [Hq|Hq].
    + destruct (Hin Hq) as (?&?&?&?&_). by eapply rep_data.
    + apply rep_insert; [by rewrite Hn|done].
  - eapply sorted_impl_in; [|done]. intros a b Ha Hb. simpl.
    by rewrite (proj1 (Hvw a Ha)), (proj1 (Hvw b Hb)).
  - by rewrite length_insert.
  - intros j pj Hj. destruct (decide (i = j)) as [<-|]; [|rewrite list_lookup_insert_ne by done; eauto].
    rewrite list_lookup_insert_eq by done. intros [= <-].
    destruct (Hin Hj) as (_ & _ & _ & _ & _ & -> & ->). eauto.
  - rewrite (weights_ext s); [done|]. intros j Hj. by apply Hvw.
  - intros j pj Hj. destruct (decide (i = j)) as [<-|]; [|rewrite list_lookup_insert_ne by done; eauto].
    rewrite list_lookup_insert_eq by done. intros [= <-]. eauto.
Qed.
Lemma RQ_wr s q i pr pr' : RQ s q → procs s !! i = Some pr →
  coloring pr' = coloring pr → parentP pr' = parentP pr → left pr' = left pr → right pr' = right pr →
  (i ∈ q → virtualRuntime pr' = virtualRuntime pr ∧ niceValue pr' = niceValue pr ∧
           weightValue pr' = weightValue pr) →
  RQ (s <| procs ::= <[i := pr']> |>) q.
Proof.
  intros HQ Hi Hc Hp Hl Hr Hq. eapply RQ_wr_gen; [done|done|naive_solver|].
  intros Hn. rewrite Hl, Hr, Hp. by eapply rq_out.
Qed.

Lemma state_at_wr s i j pr' : (i < length (procs s))%nat →
  state_at (s <| procs ::= <[i := pr']> |>) j = if decide (i = j) then Some (state pr') else state_at s j.
Proof.
  intros Hi. unfold state_at. simpl. case_decide; [subst; by rewrite list_lookup_insert_eq|].
  by rewrite list_lookup_insert_ne.
Qed.

(** What an operation on the run queue leaves alone. *)
Record frame_eq (s s' : sched) : Prop := {
  fe_cpus : cpus s' = cpus s;
  fe_tp : tp s' = tp s;
  fe_chan i : chan_ <$> procs s' !! i = chan_ <$> procs s !! i;
  fe_ident i : (λ p, (pid p, killed p, parent p, xstate p)) <$> procs s' !! i =
               (λ p, (pid p, killed p, parent p, xstate p)) <$> procs s !! i;
}.
Lemma frame_eq_trans s1 s2 s3 : frame_eq s1 s2 → frame_eq s2 s3 → frame_eq s1 s3.
Proof.
  intros [a1 b1 c1 d1] [a2 b2 c2 d2]. split; [congruence..| |]; intros; by rewrite ?c2, ?d2.
Qed.
Lemma frame_eq_wr s i pr pr' : procs s !! i = Some pr → chan_ pr' = chan_ pr →
  (pid pr', killed pr', parent pr', xstate pr') = (pid pr, killed pr, parent pr, xstate pr) →
  frame_eq s (s <| procs ::= <[i := pr']> |>).
Proof.
  intros Hi Hc Hd. split; [done..| |]; intros j; simpl; destruct (decide (i = j)) as [<-|];
    rewrite ?list_lookup_insert_ne by done; try done;
    rewrite list_lookup_insert_eq by (by eapply lookup_lt_Some); rewrite Hi; simpl; by rewrite ?Hc, ?Hd.
Qed.
Lemma data_proj {A} (f : proc → A) s s' i :
  (∀ p, f (erase p) = f p) → data s' i = data s i → f <$> procs s' !! i = f <$> procs s !! i.
Proof.
  unfold data. intros Hf Hd. destruct (procs s' !! i), (procs s !! i); simpl in *; try done.
  apply (inj Some) in Hd. f_equal. by rewrite <-(Hf p), Hd, Hf.
Qed.
Lemma inserted_frame x px q s s' : inserted x px q s s' → procs s !! x = Some px →
  frame_eq s s' ∧ (∀ i, state_at s' i = state_at s i).
Proof.
  intros [R _ Ho Hs _] Hx. assert (data s x = Some (erase px)) as Hdx by (by apply data_lookup).
  assert (∀ {A} (f : proc → A), (∀ p, f (erase p) = f p) →
    (∀ p v, f (p <| weightValue := v |>) = f p) → ∀ i, f <$> procs s' !! i = f <$> procs s !! i) as Hf.
  { intros A f Hf Hfw i. destruct (decide (i = x)) as [->|]; [|apply data_proj; auto].
    unfold data in Hs. destruct (procs s' !! x) as [px'|]; [|done]. apply (inj Some) in Hs.
    rewrite Hx. simpl. f_equal. by rewrite <-(Hf px'), Hs, Hf, Hfw. }
  split; [split|]; [by rewrite R..| | |]; intros; by apply (Hf _ _).
Qed.

Lemma make_runnable_spec s q i pr h w :
  RQ s q → procs s !! i = Some pr → i ∉ q → tree_lock ∉ h →
  wp (make_runnable (Some i)) (λ _ w', ∃ s' q', w' = World h w s' ∧ RQ s' q' ∧ q' ≡ₚ i :: q ∧
      frame_eq s s' ∧
      ∀ j, state_at s' j = if decide (i = j) then Some RUNNABLE else state_at s j) (World h w s).
Proof.
  intros HQ Hi Hq Hh. assert (i < length (procs s))%nat by (by eapply lookup_lt_Some).
  unfold make_runnable, account. wp_heap.
  lazymatch goal with |- wp _ _ (World _ _ ?s3) => set (s3' := s3) end.
  assert (RQ s3' q) as HQ3.
  { repeat (eapply RQ_wr; [|look|done..]; []). done. }
  assert (procs s3' !! i = Some (pr <| state := RUNNABLE |>
     <| virtualRuntime := i32 (virtualRuntime pr + currentRuntime pr) |> <| currentRuntime := 0 |>)) as Hi3
    by (subst s3'; look).
  eapply wp_mono; [by apply (insertProcess_spec s3' q i _ h w HQ3 Hi3)|].
  intros _ w' (s' & -> & HQ' & Hins). exists s', (enqueue (vruntime s3') i q).
  destruct (inserted_frame _ _ _ _ _ Hins Hi3) as [Hfr Hst].
  split_and!; [done|done|apply enqueue_perm| |].
  - eapply frame_eq_trans; [|exact Hfr].
    do 2 (eapply frame_eq_trans; [|eapply frame_eq_wr; [look|done|done]]). by eapply frame_eq_wr.
  - intros j. rewrite Hst. subst s3'. rewrite !state_at_wr by (simpl; by rewrite ?length_insert).
    by case_decide.
Qed.

(** ** Harts *)
Lemma omap_cproc_out (cs : list cpu) (j : nat) c i : cs !! j = Some c → cproc c = Some i →
  ∀ c', cproc c' = None → omap cproc cs ≡ₚ i :: omap cproc (<[j := c']> cs).
Proof.
  intros Hj Hc c' Hc'. rewrite <-(take_drop_middle cs j c Hj) at 1.
  rewrite insert_take_drop by (by eapply lookup_lt_Some).
  rewrite !omap_app. simpl. rewrite Hc, Hc'. solve_Permutation.
Qed.
Lemma omap_cproc_in (cs : list cpu) (j : nat) c i c' : cs !! j = Some c → cproc c = None → cproc c' = Some i →
  omap cproc (<[j := c']> cs) ≡ₚ i :: omap cproc cs.
Proof.
  intros Hj Hc Hc'. rewrite <-(take_drop_middle cs j c Hj) at 2.
  rewrite insert_take_drop by (by eapply lookup_lt_Some).
  rewrite !omap_app. simpl. rewrite Hc, Hc'. solve_Permutation.
Qed.
Lemma omap_cproc_keep (cs : list cpu) (j : nat) c c' : cs !! j = Some c → cproc c' = cproc c →
  omap cproc (<[j := c']> cs) = omap cproc cs.
Proof.
  intros Hj Hc'. rewrite <-(take_drop_middle cs j c Hj) at 2.
  rewrite insert_take_drop by (by eapply lookup_lt_Some). rewrite !omap_app. simpl. by rewrite Hc'.
Qed.

Lemma wp_mycpu Φ h w s c :
  cpus s !! tp s = Some c → Φ c (World h w s) → wp mycpu Φ (World h w s).
Proof. intros Hc HΦ. unfold mycpu, cpuid, wp, bind, gets, nonnull. simpl. by rewrite Hc. Qed.
Lemma wp_myproc Φ h w s c :
  cpus s !! tp s = Some c → Φ (cproc c) (World h w s) → wp myproc Φ (World h w s).
Proof. intros Hc HΦ. unfold myproc. apply wp_bind. by eapply wp_mycpu. Qed.
Lemma wp_set_mycpu g Φ h w s c : cpus s !! tp s = Some c →
  Φ () (World h w (s <| cpus ::= <[tp s := g c]> |>)) → wp (set_mycpu g) Φ (World h w s).
Proof.
  intros Hc HΦ. unfold set_mycpu. apply wp_bind, wp_gets. apply wp_bind. eapply wp_mycpu; [done|].
  by apply wp_modify.
Qed.
Lemma wp_sched_enter Φ h w s c i pr :
  cpus s !! tp s = Some c → cproc c = Some i → procs s !! i = Some pr → state pr ≠ RUNNING →
  h = [proc_lock i] → Φ (intena c) (World h w s) → wp sched_enter Φ (World h w s).
Proof.
  intros Hc Hi Hp Hs -> HΦ. unfold sched_enter. apply wp_bind. eapply wp_myproc; [done|]. rewrite Hi.
  unfold wp, bind, nonnull, holding, noff, when, rd, intr_get. simpl.
  rewrite bool_decide_eq_true_2 by set_solver. simpl. rewrite Hp. simpl.
  rewrite bool_decide_eq_false_2 by done. simpl. change (wp (c ← mycpu; ret (intena c)) Φ (World [proc_lock i] w s)).
  apply wp_bind. by eapply wp_mycpu.
Qed.

(** ** The steps of the system

    Each step is what one hart does between two points at which it holds no
    spinlock. *)

(** What the thread of a process does when it is switched to. *)
Inductive resume := RNew | RYield (saved : bool) | RSleep (saved : bool) (lk : lock).
Definition leave (r : resume) : M sched unit :=
  match r with
  | RNew => p ← myproc; i ← nonnull p; release (proc_lock i)     (* forkret *)
  | RYield saved => yield_leave saved
  | RSleep saved lk => sleep_leave saved lk;; release lk
  end.
Definition hart_run (i : nat) (r : resume) : M sched bool :=
  b ← scheduler_dispatch (Some i);
  when b (leave r);;
  ret b.
Definition hart_yield : M sched (option bool) :=
  p ← myproc;
  i ← nonnull p;
  r ← yield;
  match r with
  | Some saved => scheduler_return i;; ret r
  | None => ret r
  end.
Definition hart_sleep (c : chan) (lk : lock) : M sched bool :=
  p ← myproc;
  i ← nonnull p;
  acquire lk;;
  saved ← sleep c lk;
  scheduler_return i;;
  ret saved.
Definition hart_exit (status : Z) : M sched unit :=
  p ← myproc;
  i ← nonnull p;
  acquire wait_lock;;
  exit_zombie status;;
  scheduler_return i.
(** fork: allocproc with its lock released, and the two later sections. *)
Definition hart_alloc : M sched ptr :=
  p ← alloc_scan (seq 0 NPROC);
  match p with
  | Some i => release (proc_lock i);; ret p
  | None => ret None
  end.
(** wait: freeing a zombie. *)
Definition hart_reap (i : nat) : M sched bool :=
  acquire (proc_lock i);;
  s ← rd state (Some i);
  if bool_decide (s = ZOMBIE) then free_fields i;; release (proc_lock i);; ret true
  else release (proc_lock i);; ret false.

(** ** Preservation *)
Section hart.
Context (s : sched) (q owned : list nat) (HI : Inv s q owned).

Lemma inv_lookup i : (i < NPROC)%nat → is_Some (procs s !! i).
Proof. intros. apply lookup_lt_is_Some. by rewrite (rq_len _ _ (inv_rq _ _ _ HI)). Qed.
Lemma inv_running i : i ∈ omap cproc (cpus s) →
  ∃ pr, procs s !! i = Some pr ∧ state pr = RUNNING ∧ i ∉ q ++ owned.
Proof.
  intros Hi. pose proof Hi as Hs. rewrite <-(inv_run _ _ _ HI) in Hs. unfold state_at in Hs.
  destruct (procs s !! i) as [pr|] eqn:Hp; [|done]. injection Hs as Hs.
  exists pr. split_and!; [done..|]. rewrite <-(inv_own _ _ _ HI). unfold state_at. rewrite Hp.
  simpl. congruence.
Qed.
Lemma inv_hart c i : cpus s !! tp s = Some c → cproc c = Some i →
  ∃ pr, procs s !! i = Some pr ∧ state pr = RUNNING ∧ i ∉ q ++ owned.
Proof. intros Hc Hi. apply inv_running, list_elem_of_omap. eauto using list_elem_of_lookup_2. Qed.

(** The running process leaves the hart in state [st']. *)
Lemma Inv_switch_out s' q' c c' i st' :
  cpus s !! tp s = Some c → cproc c = Some i → cproc c' = None →
  RQ s' q' → q' ≡ₚ (if decide (st' = RUNNABLE) then i :: q else q) → st' ≠ RUNNING →
  (∀ j, state_at s' j = if decide (i = j) then Some st' else state_at s j) →
  cpus s' = <[tp s := c']> (cpus s) →
  (∀ j, i ≠ j → chan_ <$> procs s' !! j = chan_ <$> procs s !! j) →
  (st' = SLEEPING → ∀ pr, procs s' !! i = Some pr → chan_ pr ≠ None) →
  Inv s' q' owned.
Proof.
  intros Hc Hi Hc' HQ' Hq' Hst' Hs' Hcpu Hch Hsl.
  destruct (inv_hart c i Hc Hi) as (pr & Hp & Hr & Hni).
  pose proof (omap_cproc_out _ _ _ _ Hc Hi c' Hc') as Hperm.
  pose proof (inv_run_nd _ _ _ HI) as Hnd. rewrite Hperm, NoDup_cons in Hnd. destruct Hnd as [Hi' Hnd].
  split; try done.
  - intros j. rewrite Hs', Hq'. pose proof (inv_own _ _ _ HI j). destruct (decide (i = j)) as [<-|].
    + destruct (decide (st' = RUNNABLE)); set_solver.
    + destruct (decide (st' = RUNNABLE)); set_solver.
  - rewrite Hq'. pose proof (inv_nd _ _ _ HI).
    destruct (decide (st' = RUNNABLE)); [|done]. by apply NoDup_cons.
  - intros j. rewrite Hs', Hcpu. pose proof (inv_run _ _ _ HI j) as Hj. rewrite Hperm in Hj.
    destruct (decide (i = j)) as [<-|]; set_solver.
  - by rewrite Hcpu.
  - rewrite Hcpu, length_insert. apply HI.
  - intros j pj Hj Hsj. destruct (decide (i = j)) as [<-|Hne].
    + specialize (Hs' i). rewrite decide_True in Hs' by done. unfold state_at in Hs'.
      rewrite Hj in Hs'. naive_solver.
    + specialize (Hs' j). rewrite decide_False in Hs' by done. unfold state_at in Hs'. specialize (Hch j Hne).
      rewrite Hj in Hs', Hch. destruct (procs s !! j) as [pj0|] eqn:Hj0; [|done]. simpl in *.
      injection Hch as ->. eapply (inv_sleep _ _ _ HI); [done|congruence].
Qed.
End hart.

Lemma checkPreemption_spec s i pr m h w :
  procs s !! i = Some pr → (∀ j, m = Some j → is_Some (procs s !! j)) →
  wp (checkPreemption (Some i) m) (λ _ w', w' = World h w s) (World h w s).
Proof.
  intros Hi Hm. unfold checkPreemption. wp_step. wp_step. wp_step. wp_step.
  case_match; [by wp_step|]. wp_step. wp_step. destruct m as [j|].
  - destruct (Hm j eq_refl) as [pj Hj]. rewrite bool_decide_eq_true_2 by done.
    wp_step. wp_step. wp_step. case_bool_decide.
    + wp_step. wp_step. wp_step. wp_step. wp_step. by repeat case_match.
    + by wp_step.
  - rewrite bool_decide_eq_false_2 by naive_solver. by wp_step.
Qed.

Lemma head_lookup s q : RQ s q → ∀ j, min_vRuntime (rbTree s) = Some j → is_Some (procs s !! j).
Proof.
  intros HQ j. rewrite (rq_min _ _ HQ). intros Hj. apply head_Some_elem_of in Hj.
  apply lookup_lt_is_Some. rewrite (rq_len _ _ HQ). by eapply rq_bound.
Qed.
Lemma state_lookup s' i st' : state_at s' i = Some st' → ∃ pr, procs s' !! i = Some pr ∧ state pr = st'.
Proof. unfold state_at. destruct (procs s' !! i); naive_solver. Qed.

(** Only a step that switches ([sw]) changes its own hart, and no step another. *)
Definition harts (sw : bool) (s s' : sched) : Prop :=
  tp s' = tp s ∧ ∀ k, (sw = true → k ≠ tp s) → cpus s' !! k = cpus s !! k.
Lemma harts_same sw s s' : cpus s' = cpus s → tp s' = tp s → harts sw s s'.
Proof. intros Hc Ht. split; [done|]. intros. by rewrite Hc. Qed.
Lemma harts_refl sw s : harts sw s s.
Proof. by apply harts_same. Qed.
Lemma harts_frame sw s s' : frame_eq s s' → harts sw s s'.
Proof. intros [Hc Ht _ _]. by apply harts_same. Qed.
Lemma harts_trans sw s1 s2 s3 : harts sw s1 s2 → harts sw s2 s3 → harts sw s1 s3.
Proof.
  intros [t1 c1] [t2 c2]. split; [congruence|]. intros k Hk. rewrite c2, c1; [done|done|].
  intros Hs. rewrite t1. auto.
Qed.
Lemma harts_switch s s1 c : cpus s1 = cpus s → tp s1 = tp s →
  harts true s (s1 <| cpus ::= <[tp s1 := c]> |>).
Proof.
  intros Hc Ht. split; [done|]. intros k Hk. simpl. rewrite Hc, Ht.
  rewrite list_lookup_insert_ne; [done|]. naive_solver.
Qed.
#[export] Hint Resolve harts_refl harts_frame : core.

(** The result of a step: no lock held, the invariant holds. *)
Definition safe {A} (sw : bool) (m : M sched A) (s : sched) (w : list chan)
    (P : A → sched → Prop) : Prop :=
  wp m (λ a w', ∃ s', w' = World [] w s' ∧ harts sw s s' ∧ P a s') (World [] w s).

Lemma not_held_proc i : tree_lock ∉ [proc_lock i].
Proof. intros [=]%list_elem_of_singleton. Qed.
#[export] Hint Resolve not_held_proc : core.

Lemma hart_yield_safe s q owned w c i :
  Inv s q owned → cpus s !! tp s = Some c → cproc c = Some i →
  safe true hart_yield s w (λ r s', ∃ q', Inv s' q' owned ∧
    if r is Some _ then q' ≡ₚ i :: q else q' = q).
Proof.
  intros HI Hc Hi. destruct (inv_hart _ _ _ HI c i Hc Hi) as (pr & Hp & Hr & Hni).
  unfold safe, hart_yield. apply wp_bind. eapply wp_myproc; [done|]. rewrite Hi. wp_step. apply wp_ret. wp_step.
  unfold yield. apply wp_bind. eapply wp_myproc; [done|]. rewrite Hi. wp_step. apply wp_ret.
  apply wp_bind. apply wp_acquire; [set_solver|]. wp_step. wp_step. wp_step.
  eapply wp_mono; [eapply checkPreemption_spec; [done|by eapply head_lookup, HI]|].
  intros z ? ->. destruct (z =? 1).
  - wp_step. eapply wp_mono; [eapply make_runnable_spec; [apply HI|done|set_solver|done]|].
    intros _ ? (s1 & q1 & -> & HQ1 & Hq1 & [Hcpu Htp Hch _] & Hst).
    destruct (state_lookup s1 i RUNNABLE) as (pr1 & Hp1 & Hs1); [by rewrite Hst, decide_True|].
    wp_step. eapply wp_sched_enter; [by rewrite Hcpu, Htp|done|done|by rewrite Hs1|done|].
    apply wp_ret. unfold scheduler_return. wp_step. wp_step.
    eapply wp_set_mycpu; [by rewrite Hcpu, Htp|]. apply wp_release; [set_solver|]. apply wp_ret.
    eexists. split; [done|]. split; [by apply harts_switch|]. exists q1. split; [|done].
    eapply Inv_switch_out with (st' := RUNNABLE) (c' := c <| cproc := None |>); eauto; simpl; try done.
    + by apply RQ_cpus.
    + by rewrite Hcpu, Htp.
  - wp_step. apply wp_release; [set_solver|]. apply wp_ret. apply wp_ret. eauto 10.
Qed.

Lemma wp_release_under {S} l l' Φ k (s : S) : l ≠ l' →
  Φ () (World [l'] k s) → wp (release l) Φ (World [l'; l] k s).
Proof.
  intros Hl HΦ. unfold wp, release. simpl. rewrite bool_decide_eq_true_2 by set_solver.
  unfold set_field; cbn -[filter]. rewrite filter_cons_True by done.
  rewrite filter_cons_False by naive_solver. done.
Qed.

(** Symbolic execution of table writes by a hart that runs process [i]. *)
Lemma hart_sleep_safe s q owned w c i ch lk :
  Inv s q owned → cpus s !! tp s = Some c → cproc c = Some i → lk ≠ proc_lock i →
  safe true (hart_sleep ch lk) s w (λ _ s', Inv s' q owned ∧ state_at s' i = Some SLEEPING).
Proof.
  intros HI Hc Hi Hlk. destruct (inv_hart _ _ _ HI c i Hc Hi) as (pr & Hp & Hr & Hni).
  assert (i < length (procs s))%nat by (by eapply lookup_lt_Some).
  unfold safe, hart_sleep. apply wp_bind. eapply wp_myproc; [done|]. rewrite Hi. wp_step. apply wp_ret.
  apply wp_bind. apply wp_acquire; [set_solver|]. apply wp_bind.
  unfold sleep. apply wp_bind. eapply wp_myproc; [done|]. rewrite Hi. wp_step. apply wp_ret.
  apply wp_bind. apply wp_acquire; [set_solver|]. apply wp_bind. apply wp_release_under; [done|].
  wp_step. wp_step. wp_step. wp_step.
  eapply wp_sched_enter; [done|done|look|done|done|].
  unfold scheduler_return. wp_step. wp_step. eapply wp_set_mycpu; [done|].
  apply wp_release; [set_solver|]. apply wp_ret. eexists. split; [done|]. split; [by apply harts_switch|].
  lazymatch goal with |- Inv ?s' _ _ ∧ _ => set (s1 := s') end.
  assert (∀ j, state_at s1 j = if decide (i = j) then Some SLEEPING else state_at s j) as Hst.
  { intros j. unfold s1. change (state_at (?x <| cpus ::= _ |>)) with (state_at x).
    rewrite !state_at_wr by (simpl; by rewrite ?length_insert). by case_decide. }
  split; [|by rewrite Hst, decide_True].
  eapply Inv_switch_out with (st' := SLEEPING) (c' := c <| cproc := None |>); eauto; try done.
  - apply RQ_cpus. repeat (eapply RQ_wr; [|look|done..]; []). apply HI.
  - intros j Hj. simpl. by rewrite !list_lookup_insert_ne.
  - intros _ pr' Hp'. simpl in Hp'. rewrite list_lookup_insert_eq in Hp' by (by rewrite length_insert).
    by simplify_eq.
Qed.

Lemma hart_exit_safe s q owned w c i status :
  Inv s q owned → cpus s !! tp s = Some c → cproc c = Some i →
  safe true (hart_exit status) s w (λ _ s', Inv s' q owned ∧ state_at s' i = Some ZOMBIE).
Proof.
  intros HI Hc Hi. destruct (inv_hart _ _ _ HI c i Hc Hi) as (pr & Hp & Hr & Hni).
  assert (i < length (procs s))%nat by (by eapply lookup_lt_Some).
  unfold safe, hart_exit. apply wp_bind. eapply wp_myproc; [done|]. rewrite Hi. wp_step. apply wp_ret.
  apply wp_bind. apply wp_acquire; [set_solver|]. apply wp_bind.
  unfold exit_zombie. apply wp_bind. eapply wp_myproc; [done|]. rewrite Hi. wp_step. apply wp_ret.
  apply wp_bind. apply wp_acquire; [set_solver|]. wp_step. wp_step. wp_step. wp_step.
  apply wp_bind. apply wp_release_under; [done|]. apply wp_bind.
  eapply wp_sched_enter; [done|done|look|done|done|]. apply wp_ret.
  unfold scheduler_return. wp_step. eapply wp_set_mycpu; [done|].
  apply wp_release; [set_solver|]. eexists. split; [done|]. split; [by apply harts_switch|].
  lazymatch goal with |- Inv ?s' _ _ ∧ _ => set (s1 := s') end.
  assert (∀ j, state_at s1 j = if decide (i = j) then Some ZOMBIE else state_at s j) as Hst.
  { intros j. unfold s1. change (state_at (?x <| cpus ::= _ |>)) with (state_at x).
    rewrite !state_at_wr by (simpl; by rewrite ?length_insert). by case_decide. }
  split; [|by rewrite Hst, decide_True].
  eapply Inv_switch_out with (st' := ZOMBIE) (c' := c <| cproc := None |>); eauto; try done.
  - apply RQ_cpus. repeat (eapply RQ_wr; [|look|done..]; []). apply HI.
  - intros j Hj. simpl. by rewrite !list_lookup_insert_ne.
Qed.

(** A change of the state of a process that no hart runs and nobody owns. *)
Lemma Inv_update s q owned s' q' owned' i st0 st' :
  Inv s q owned → state_at s i = Some st0 → st0 ≠ RUNNING → st0 ≠ RUNNABLE → st' ≠ RUNNING →
  RQ s' q' → q' ++ owned' ≡ₚ (if decide (st' = RUNNABLE) then i :: q ++ owned else q ++ owned) →
  (∀ j, state_at s' j = if decide (i = j) then Some st' else state_at s j) →
  cpus s' = cpus s →
  (∀ j, i ≠ j → chan_ <$> procs s' !! j = chan_ <$> procs s !! j) → st' ≠ SLEEPING →
  Inv s' q' owned'.
Proof.
  intros HI Hst0 Hrun Hrbl Hst' HQ' Hq' Hs' Hcpu Hch Hsl.
  assert (i ∉ q ++ owned) as Hni by (rewrite <-(inv_own _ _ _ HI), Hst0; congruence).
  assert (i ∉ omap cproc (cpus s)) as Hno by (rewrite <-(inv_run _ _ _ HI), Hst0; congruence).
  split; try done.
  - intros j. rewrite Hs', Hq'. pose proof (inv_own _ _ _ HI j).
    destruct (decide (i = j)) as [<-|], (decide (st' = RUNNABLE)); set_solver.
  - rewrite Hq'. pose proof (inv_nd _ _ _ HI).
    destruct (decide (st' = RUNNABLE)); [|done]. by apply NoDup_cons.
  - intros j. rewrite Hs', Hcpu. pose proof (inv_run _ _ _ HI j).
    destruct (decide (i = j)) as [<-|]; set_solver.
  - rewrite Hcpu. apply HI.
  - rewrite Hcpu. apply HI.
  - intros j pj Hj Hsj. specialize (Hs' j). unfold state_at in Hs'. rewrite Hj in Hs'.
    destruct (decide (i = j)) as [<-|Hne]; [simplify_eq/=; congruence|].
    specialize (Hch j Hne). rewrite Hj in Hch.
    destruct (procs s !! j) as [pj0|] eqn:Hj0; [|done]. simpl in *.
    injection Hch as ->. eapply (inv_sleep _ _ _ HI); [done|congruence].
Qed.
(** Responsibility for a process changes hands. *)
Lemma Inv_handover s q owned s' q' owned' :
  Inv s q owned → RQ s' q' → q' ++ owned' ≡ₚ q ++ owned → frame_eq s s' →
  (∀ i, state_at s' i = state_at s i) → Inv s' q' owned'.
Proof.
  intros HI HQ' Hq [Hcpu Htp Hch _] Hst. split; try done.
  - intros i. rewrite Hst, Hq. apply HI.
  - rewrite Hq. apply HI.
  - intros i. rewrite Hst, Hcpu. apply HI.
  - rewrite Hcpu. apply HI.
  - rewrite Hcpu. apply HI.
  - intros i pr Hi Hs. specialize (Hst i). specialize (Hch i). unfold state_at in Hst.
    rewrite Hi in Hst, Hch. destruct (procs s !! i) as [pr0|] eqn:Hi0; [|done]. simpl in *.
    injection Hch as ->. eapply (inv_sleep _ _ _ HI); [done|congruence].
Qed.

Lemma retrieved_frame m pm q s s' : retrieved m pm q s s' → procs s !! m = Some pm →
  frame_eq s s' ∧ (∀ i, state_at s' i = state_at s i).
Proof.
  intros [R _ Ho Hs _] Hx.
  assert (∀ {A} (f : proc → A), (∀ p, f (erase p) = f p) →
    (∀ p v, f (p <| maximumExecutiontime := v |>) = f p) → ∀ i, f <$> procs s' !! i = f <$> procs s !! i) as Hf.
  { intros A f Hf Hfw i. destruct (decide (i = m)) as [->|]; [|apply data_proj; auto].
    unfold data in Hs. destruct (procs s' !! m) as [px'|]; [|done]. apply (inj Some) in Hs.
    rewrite Hx. simpl. f_equal. by rewrite <-(Hf px'), Hs, Hf, Hfw. }
  split; [split|]; [by rewrite R..| | |]; intros; by apply (Hf _ _).
Qed.

Lemma hart_pick_safe s q owned w : Inv s q owned →
  safe false retrieveProcess s w (λ r s', match r with
    | None => q = [] ∧ Inv s' q owned
    | Some m => ∃ q', q = m :: q' ∧ Inv s' q' (m :: owned) end).
Proof.
  intros HI. unfold safe. destruct q as [|m q].
  { eapply wp_mono; [by eapply retrieveProcess_none; [apply HI| |set_solver]|].
    intros r ? [-> ->]. eauto. }
  destruct (state_lookup s m RUNNABLE) as (pm & Hm & Hs); [apply (inv_own _ _ _ HI); set_solver|].
  eapply wp_mono; [eapply retrieveProcess_spec; [apply HI|done|done|set_solver]|].
  intros r ? (-> & s' & -> & HQ' & Hret). destruct (retrieved_frame _ _ _ _ _ Hret Hm) as [Hfr Hst].
  exists s'. split; [done|]. split; [by apply harts_frame|]. exists q. split; [done|].
  eapply Inv_handover; [done|done| |done|done]. solve_Permutation.
Qed.

Lemma fork_insert_safe s q owned w i : Inv s q (i :: owned) →
  safe false (insertProcess (Some i)) s w (λ _ s', ∃ q', q' ≡ₚ i :: q ∧ Inv s' q' owned).
Proof.
  intros HI. destruct (state_lookup s i RUNNABLE) as (pr & Hi & Hs).
  { apply (inv_own _ _ _ HI). set_solver. }
  assert (i ∉ q) by (pose proof (inv_nd _ _ _ HI) as (_ & Hd & _)%NoDup_app; set_solver).
  eapply wp_mono; [eapply insertProcess_spec; [apply HI|done|done|set_solver]|].
  intros _ ? (s' & -> & HQ' & Hins). destruct (inserted_frame _ _ _ _ _ Hins Hi) as [Hfr Hst].
  exists s'. split; [done|]. split; [by apply harts_frame|]. eexists. split; [apply enqueue_perm|].
  eapply Inv_handover; [done|done| |done|done]. rewrite enqueue_perm. solve_Permutation.
Qed.

Lemma Inv_switch_in s q owned s' c c' i :
  Inv s q (i :: owned) → cpus s !! tp s = Some c → cproc c = None → cproc c' = Some i →
  RQ s' q → (∀ j, state_at s' j = if decide (i = j) then Some RUNNING else state_at s j) →
  cpus s' = <[tp s := c']> (cpus s) →
  (∀ j, i ≠ j → chan_ <$> procs s' !! j = chan_ <$> procs s !! j) →
  Inv s' q owned.
Proof.
  intros HI Hc Hn Hc' HQ' Hs' Hcpu Hch.
  pose proof (omap_cproc_in _ _ _ _ c' Hc Hn Hc') as Hperm.
  pose proof (inv_nd _ _ _ HI) as Hnd. rewrite <-Permutation_middle, NoDup_cons in Hnd.
  destruct Hnd as [Hi Hnd].
  assert (i ∉ omap cproc (cpus s)) as Hno.
  { rewrite <-(inv_run _ _ _ HI). assert (state_at s i = Some RUNNABLE) by (apply (inv_own _ _ _ HI); set_solver).
    congruence. }
  split; try done.
  - intros j. rewrite Hs'. pose proof (inv_own _ _ _ HI j). destruct (decide (i = j)) as [<-|]; set_solver.
  - intros j. rewrite Hs', Hcpu, Hperm. pose proof (inv_run _ _ _ HI j).
    destruct (decide (i = j)) as [<-|]; set_solver.
  - rewrite Hcpu, Hperm. apply NoDup_cons. split; [done|]. apply HI.
  - rewrite Hcpu, length_insert. apply HI.
  - intros j pj Hj Hsj. specialize (Hs' j). unfold state_at in Hs'. rewrite Hj in Hs'.
    destruct (decide (i = j)) as [<-|Hne]; [simplify_eq/=; congruence|].
    specialize (Hch j Hne). rewrite Hj in Hch.
    destruct (procs s !! j) as [pj0|] eqn:Hj0; [|done]. simpl in *.
    injection Hch as ->. eapply (inv_sleep _ _ _ HI); [done|congruence].
Qed.

(** The thread that is switched to releases its lock, whatever it was doing. *)
Lemma leave_spec s q r i c pr w :
  RQ s q → cpus s !! tp s = Some c → cproc c = Some i → procs s !! i = Some pr →
  wp (leave r) (λ _ w', ∃ s' c', w' = World [] w s' ∧ RQ s' q ∧ tp s' = tp s ∧
      cpus s' = <[tp s := c']> (cpus s) ∧ cproc c' = Some i ∧
      (∀ j, state_at s' j = state_at s j) ∧
      (∀ j, i ≠ j → chan_ <$> procs s' !! j = chan_ <$> procs s !! j)) (World [proc_lock i] w s).
Proof.
  intros HQ Hc Hi Hp. assert (tp s < length (cpus s))%nat by (by eapply lookup_lt_Some).
  assert (i < length (procs s))%nat by (by eapply lookup_lt_Some).
  destruct r as [|saved|saved lk]; simpl.
  - apply wp_bind. eapply wp_myproc; [done|]. rewrite Hi. wp_step. apply wp_ret.
    apply wp_release; [set_solver|]. exists s, c. rewrite list_insert_id by done. done.
  - unfold yield_leave, sched_leave. wp_step. eapply wp_set_mycpu; [done|].
    apply wp_bind. eapply wp_myproc; [simpl; by apply list_lookup_insert_eq|]. simpl. rewrite Hi.
    wp_step. apply wp_ret. apply wp_release; [set_solver|].
    do 2 eexists. split; [done|]. split; [by apply RQ_cpus|]. done.
  - unfold sleep_leave, sched_leave. wp_step. wp_step. eapply wp_set_mycpu; [done|].
    apply wp_bind. eapply wp_myproc; [simpl; by apply list_lookup_insert_eq|]. simpl. rewrite Hi.
    wp_step. apply wp_ret. wp_step. eapply wp_wr; [exact Hp|].
    apply wp_bind, wp_release; [set_solver|]. apply wp_acquire; [set_solver|].
    apply wp_release; [set_solver|]. do 2 eexists. split; [done|].
    split; [eapply RQ_wr; [by apply RQ_cpus|exact Hp|done..]|].
    split; [done|]. split; [done|]. split; [done|]. split.
    + intros j. rewrite state_at_wr by done. case_decide; [subst|done]. simpl.
      unfold state_at. simpl. by rewrite Hp.
    + intros j Hj. simpl. by rewrite list_lookup_insert_ne.
Qed.

Lemma hart_run_safe s q owned w c i r :
  Inv s q (i :: owned) → cpus s !! tp s = Some c → cproc c = None →
  safe true (hart_run i r) s w (λ b s', b = true ∧ Inv s' q owned ∧ state_at s' i = Some RUNNING).
Proof.
  intros HI Hc Hn. destruct (state_lookup s i RUNNABLE) as (pr & Hi & Hs).
  { apply (inv_own _ _ _ HI). set_solver. }
  assert (tp s < length (cpus s))%nat by (by eapply lookup_lt_Some).
  assert (i < length (procs s))%nat by (by eapply lookup_lt_Some).
  unfold safe, hart_run, scheduler_dispatch. wp_step. apply wp_bind, wp_acquire; [set_solver|].
  wp_step. wp_step. rewrite Hs, bool_decide_eq_true_2 by done. wp_step. wp_step. wp_step.
  eapply wp_set_mycpu; [exact Hc|]. apply wp_ret. wp_step. wp_step.
  eapply wp_mono; [eapply leave_spec with (c := c <| cproc := Some i |>) (q := q)|].
  - apply RQ_cpus. eapply RQ_wr; [apply HI|done..].
  - simpl. by apply list_lookup_insert_eq.
  - done.
  - simpl. by apply list_lookup_insert_eq.
  - intros _ ? (s' & c' & -> & HQ' & Htp & Hcpu & Hc' & Hst & Hch). apply wp_ret.
    assert (∀ j, state_at s' j = if decide (i = j) then Some RUNNING else state_at s j) as Hst'.
    { intros j. rewrite Hst. change (state_at (?x <| cpus ::= _ |>)) with (state_at x).
      rewrite state_at_wr by done. by case_decide. }
    eexists. split; [done|]. split; [|split; [done|split; [|by rewrite Hst', decide_True]]].
    { split; [by rewrite Htp|]. intros k Hk. rewrite Hcpu. simpl. by rewrite !list_lookup_insert_ne by naive_solver. }
    eapply Inv_switch_in with (c' := c'); [done|done|done|done|done|done| |].
    + rewrite Hcpu. simpl. by rewrite list_insert_insert_eq.
    + intros j Hj. rewrite Hch by done. simpl. by rewrite list_lookup_insert_ne.
Qed.

(** ** Wakeup and kill *)
Definition myproc_of (s : sched) : option ptr := cproc <$> cpus s !! tp s.
Definition asleep_on (s : sched) (c : option chan) (i : nat) : bool :=
  match procs s !! i with
  | Some pr => bool_decide (state pr = SLEEPING) && bool_decide (chan_ pr = c)
  | None => false
  end.
Lemma asleep_on_eq s s' c i : state_at s' i = state_at s i →
  chan_ <$> procs s' !! i = chan_ <$> procs s !! i → asleep_on s' c i = asleep_on s c i.
Proof.
  unfold asleep_on, state_at. destruct (procs s' !! i), (procs s !! i); simpl; [|done..].
  intros [= ->] [= ->]. done.
Qed.

Lemma sleeping_running s q owned i c : Inv s q owned → asleep_on s c i = true →
  state_at s i = Some SLEEPING ∧ i ∉ q ++ owned.
Proof.
  intros HI Ha. unfold asleep_on in Ha. destruct (procs s !! i) as [pr|] eqn:Hp; [|done].
  apply andb_true_iff in Ha as [Hs%bool_decide_eq_true _].
  assert (state_at s i = Some SLEEPING) as Hst by (unfold state_at; rewrite Hp; simpl; congruence).
  split; [done|]. rewrite <-(inv_own _ _ _ HI). congruence.
Qed.

Lemma make_runnable_safe s q owned w h i :
  Inv s q owned → state_at s i = Some SLEEPING → tree_lock ∉ h →
  wp (make_runnable (Some i)) (λ _ w', ∃ s' q', w' = World h w s' ∧ Inv s' q' owned ∧ q' ≡ₚ i :: q ∧
      frame_eq s s' ∧ ∀ j, state_at s' j = if decide (i = j) then Some RUNNABLE else state_at s j)
    (World h w s).
Proof.
  intros HI Hs Hh. destruct (state_lookup s i SLEEPING Hs) as (pr & Hp & _).
  assert (i ∉ q ++ owned) by (rewrite <-(inv_own _ _ _ HI); congruence).
  eapply wp_mono; [eapply make_runnable_spec; [apply HI|done|set_solver|done]|].
  intros _ ? (s' & q' & -> & HQ' & Hq' & Hfr & Hst). exists s', q'. split_and!; try done.
  eapply Inv_update with (i := i) (st' := RUNNABLE); try done;
    [by rewrite Hq'|apply (fe_cpus _ _ Hfr)|intros; apply (fe_chan _ _ Hfr)].
Qed.

Lemma wakeup_one_safe s q owned w c me i :
  Inv s q owned → myproc_of s = Some me → (i < NPROC)%nat →
  safe false (wakeup_one c i) s w (λ _ s', ∃ q', Inv s' q' owned ∧ frame_eq s s' ∧
    ∀ j, state_at s' j = if decide (i = j) then
       (if negb (bool_decide (Some i = me)) && asleep_on s c i then Some RUNNABLE else state_at s i)
       else state_at s j).
Proof.
  intros HI Hme Hi. unfold myproc_of in Hme. destruct (cpus s !! tp s) as [hc|] eqn:Hc; [|done].
  injection Hme as <-. destruct (inv_lookup _ _ _ HI i Hi) as [pr Hp].
  unfold safe, wakeup_one. apply wp_bind. eapply wp_myproc; [done|]. apply wp_when.
  destruct (negb (bool_decide (Some i = cproc hc))); simpl.
  - apply wp_bind, wp_acquire; [set_solver|]. wp_step. wp_step. wp_step. wp_step. wp_step. wp_step.
    assert (asleep_on s c i = bool_decide (state pr = SLEEPING) && bool_decide (chan_ pr = c)) as Ha
      by (unfold asleep_on; by rewrite Hp).
    rewrite <-Ha. destruct (asleep_on s c i) eqn:E.
    + destruct (sleeping_running _ _ _ _ _ HI E) as [Hs _].
      eapply wp_mono; [by apply make_runnable_safe|].
      intros _ ? (s' & q' & -> & HI' & Hq' & Hfr & Hst). apply wp_release; [set_solver|].
      exists s'. split; [done|]. split; [by apply harts_frame|]. eauto.
    + apply wp_release; [set_solver|]. exists s. split_and!; [done..|]. exists q. split_and!; [done|by split|].
      intros j. by destruct (decide (i = j)) as [<-|].
  - exists s. split_and!; [done..|]. exists q. split_and!; [done|by split|]. intros j. by destruct (decide (i = j)) as [<-|].
Qed.

Lemma wakeup_list_safe l : ∀ s q owned w c me,
  Inv s q owned → myproc_of s = Some me → Forall (λ i, (i < NPROC)%nat) l → NoDup l →
  safe false (forM l (wakeup_one c)) s w (λ _ s', ∃ q', Inv s' q' owned ∧ frame_eq s s' ∧
    ∀ j, state_at s' j = if decide (j ∈ l) then
       (if negb (bool_decide (Some j = me)) && asleep_on s c j then Some RUNNABLE else state_at s j)
       else state_at s j).
Proof.
  induction l as [|i l IH]; intros s q owned w c me HI Hme Hl Hnd; cbn [forM].
  { apply wp_ret. exists s. split_and!; [done..|]. exists q. split_and!; [done|by split|].
    intros j. rewrite decide_False by set_solver. done. }
  inversion Hl as [|? ? Hi Hl']; subst. rewrite NoDup_cons in Hnd. destruct Hnd as [Hil Hnd].
  unfold safe. apply wp_bind. eapply wp_mono; [by eapply wakeup_one_safe|].
  intros _ ? (s1 & -> & Htp & q1 & HI1 & Hfr & Hst).
  assert (myproc_of s1 = Some me) as Hme1.
  { unfold myproc_of. by rewrite (fe_cpus _ _ Hfr), (fe_tp _ _ Hfr). }
  eapply wp_mono; [by eapply IH|].
  intros _ ? (s2 & -> & Htp2 & q2 & HI2 & Hfr2 & Hst2). exists s2. split; [done|]. split; [by eapply harts_trans|].
  exists q2. split; [done|]. split; [by eapply frame_eq_trans|]. intros j. rewrite Hst2, Hst.
  destruct (decide (i = j)) as [<-|Hne].
  - rewrite decide_False, decide_True by set_solver. done.
  - destruct (decide (j ∈ l)).
    + rewrite (decide_True (P := j ∈ i :: l)) by set_solver. f_equal.
      by rewrite (asleep_on_eq s s1); [|rewrite Hst, decide_False|apply Hfr].
    + by rewrite decide_False by set_solver.
Qed.

Definition pid_at (s : sched) (i : nat) : option Z := pid <$> procs s !! i.
(** What [kill] does to the table: the first process with that pid is marked,
    and made runnable if it sleeps. *)
Definition kill_effect (s : sched) (i : nat) (s' : sched) : Prop :=
  killed <$> procs s' !! i = Some 1 ∧
  ∀ j, state_at s' j = if decide (i = j)
       then (if decide (state_at s i = Some SLEEPING) then Some RUNNABLE else state_at s i)
       else state_at s j.

Lemma kill_hit s q owned w i pr : Inv s q owned → procs s !! i = Some pr →
  wp (wr (Some i) (λ q, q <| killed := 1 |>);;
      s ← rd state (Some i);
      when (bool_decide (s = SLEEPING)) (make_runnable (Some i));;
      release (proc_lock i);;
      ret 0) (λ r w', ∃ s' q', w' = World [] w s' ∧ harts false s s' ∧ r = 0 ∧ Inv s' q' owned ∧ kill_effect s i s')
    (World [proc_lock i] w s).
Proof.
  intros HI Hp. assert (i < length (procs s))%nat by (by eapply lookup_lt_Some).
  wp_step. wp_step. wp_step. wp_step. cbn [state set_field].
  set (s1 := s <| procs ::= <[i := pr <| killed := 1 |>]> |>).
  assert (∀ j, state_at s1 j = state_at s j) as Hs1.
  { intros j. unfold s1. rewrite state_at_wr by done. destruct (decide (i = j)) as [<-|]; [|done].
    unfold state_at. by rewrite Hp. }
  assert (state_at s i = Some (state pr)) as Hsi by (unfold state_at; by rewrite Hp).
  assert (Inv s1 q owned) as HI1.
  { split; try apply HI.
    - eapply RQ_wr; [apply HI|done..].
    - intros j. rewrite Hs1. apply HI.
    - intros j. rewrite Hs1. apply HI.
    - intros j pj. simpl. destruct (decide (i = j)) as [<-|]; [|rewrite list_lookup_insert_ne by done; apply HI].
      rewrite list_lookup_insert_eq by done. intros [= <-] Hs. by apply (inv_sleep _ _ _ HI i pr). }
  assert (killed <$> procs s1 !! i = Some 1) as Hk by (simpl; by rewrite list_lookup_insert_eq).
  wp_step. wp_step. case_bool_decide as Hsl.
  - eapply wp_mono; [apply (make_runnable_safe s1 q owned); [done|rewrite Hs1; congruence|done]|].
    intros _ ? (s2 & q2 & -> & HI2 & _ & Hfr & Hst2). apply wp_bind, wp_release; [set_solver|]. apply wp_ret.
    exists s2, q2. split_and!; [done|by eapply harts_trans; [|by apply harts_frame]|done|done|].
    split.
    + pose proof (fe_ident _ _ Hfr i) as Hid. destruct (procs s1 !! i); [|done].
      destruct (procs s2 !! i); [|done]. simpl in *. congruence.
    + intros j. rewrite Hst2, Hs1. case_decide; [|done]. by rewrite decide_True by congruence.
  - apply wp_bind, wp_release; [set_solver|]. apply wp_ret. exists s1, q. split_and!; try done. split; [done|].
    intros j. rewrite Hs1. destruct (decide (i = j)) as [<-|]; [|done]. by rewrite decide_False by congruence.
Qed.

Lemma kill_from_safe l : ∀ s q owned w target,
  Inv s q owned → Forall (λ i, (i < NPROC)%nat) l →
  safe false (kill_from l target) s w (λ r s', ∃ q', Inv s' q' owned ∧
    match list_find (λ i, pid_at s i = Some target) l with
    | None => r = -1 ∧ s' = s
    | Some (_, i) => r = 0 ∧ kill_effect s i s'
    end).
Proof.
  induction l as [|i l IH]; intros s q owned w target HI Hl; cbn [kill_from list_find].
  { apply wp_ret. eauto 10. }
  inversion Hl as [|? ? Hi Hl']; subst. destruct (inv_lookup _ _ _ HI i Hi) as [pr Hp].
  assert (pid_at s i = Some (pid pr)) as Hpid by (unfold pid_at; by rewrite Hp).
  unfold safe. apply wp_bind, wp_acquire; [set_solver|]. wp_step. wp_step.
  destruct (Z.eqb_spec (pid pr) target) as [E|E].
  - rewrite decide_True by congruence. eapply wp_mono; [by eapply kill_hit|].
    intros r ? (s' & q' & -> & Htp & -> & HI' & Hk). eauto 10.
  - rewrite decide_False by congruence. apply wp_bind, wp_release; [set_solver|].
    eapply wp_mono; [by eapply IH|]. intros r ? (s' & -> & Htp & q' & HI' & Hk).
    exists s'. split_and!; [done..|]. exists q'. split; [done|].
    destruct (list_find _ l) as [[? j]|]; done.
Qed.

(** ** Creation and removal *)
Lemma wp_allocpid Φ h w s : pid_lock ∉ h →
  Φ (nextpid s) (World h w (s <| nextpid ::= λ n, i32 (n + 1) |>)) → wp allocpid Φ (World h w s).
Proof.
  intros Hh HΦ. unfold allocpid. apply wp_bind, wp_acquire; [done|]. apply wp_bind, wp_gets.
  apply wp_bind, wp_modify. apply wp_bind, wp_release; [done|]. by apply wp_ret.
Qed.
Lemma RQ_nextpid s q f : RQ s q → RQ (s <| nextpid ::= f |>) q.
Proof. by apply RQ_same. Qed.

(** Every write to process [i], which is in no queue. *)
Ltac rq_out_solve Hl Hr Hp :=
  repeat (eapply RQ_wr_gen; [|look|set_solver|intros _; cbn; rewrite ?Hl, ?Hr, ?Hp; done]; []).

Lemma alloc_fields_safe s q owned w i :
  Inv s q owned → state_at s i = Some UNUSED →
  wp (alloc_fields i) (λ _ w', ∃ s', w' = World [proc_lock i] w s' ∧ harts false s s' ∧
      Inv s' q owned ∧ ∀ j, state_at s' j = if decide (i = j) then Some USED else state_at s j)
    (World [proc_lock i] w s).
Proof.
  intros HI Hs. destruct (state_lookup s i UNUSED Hs) as (pr & Hp & _).
  assert (i ∉ q) as Hq.
  { intros Hq. assert (state_at s i = Some RUNNABLE) by (apply (inv_own _ _ _ HI); set_solver). congruence. }
  destruct (rq_out _ _ (inv_rq _ _ _ HI) i pr Hq Hp) as (Hl & Hr & Hpp).
  assert (i < length (procs s))%nat by (by eapply lookup_lt_Some).
  unfold alloc_fields. apply wp_bind, wp_allocpid; [set_solver|].
  do 19 (first [wp_step]). eexists. split; [done|]. split; [by apply harts_same|].
  lazymatch goal with |- Inv ?s' _ _ ∧ _ => set (s1 := s') end.
  assert (∀ j, state_at s1 j = if decide (i = j) then Some USED else state_at s j) as Hst.
  { intros j. unfold s1. rewrite !state_at_wr by (simpl; by rewrite ?length_insert). by case_decide. }
  split; [|done].
  eapply Inv_update with (i := i) (st0 := UNUSED) (st' := USED); try done.
  - unfold s1. rq_out_solve Hl Hr Hpp. apply RQ_nextpid, HI.
  - intros j Hj. simpl. by rewrite !list_lookup_insert_ne.
Qed.

Lemma alloc_scan_safe l : ∀ s q owned w, Inv s q owned → Forall (λ i, (i < NPROC)%nat) l →
  wp (alloc_scan l) (λ r w', match r with
    | None => w' = World [] w s ∧ Forall (λ i, state_at s i ≠ Some UNUSED) l
    | Some i => ∃ s', w' = World [proc_lock i] w s' ∧ harts false s s' ∧ Inv s' q owned ∧
        state_at s i = Some UNUSED ∧
        ∀ j, state_at s' j = if decide (i = j) then Some USED else state_at s j
    end) (World [] w s).
Proof.
  induction l as [|i l IH]; intros s q owned w HI Hl; cbn [alloc_scan].
  { apply wp_ret. done. }
  inversion Hl as [|? ? Hi Hl']; subst. destruct (inv_lookup _ _ _ HI i Hi) as [pr Hp].
  assert (state_at s i = Some (state pr)) as Hs by (unfold state_at; by rewrite Hp).
  apply wp_bind, wp_acquire; [set_solver|]. wp_step. wp_step. case_bool_decide as E.
  - apply wp_bind. eapply wp_mono; [eapply alloc_fields_safe; [done|congruence]|].
    intros _ ? (s' & -> & Htp & HI' & Hst). apply wp_ret. rewrite E in Hs. eauto 10.
  - apply wp_bind, wp_release; [set_solver|]. eapply wp_mono; [by eapply IH|].
    intros [j|] ? Hr; [done|]. destruct Hr as [-> Hr]. split; [done|]. constructor; [congruence|done].
Qed.
Lemma seq_below : Forall (λ i, (i < NPROC)%nat) (seq 0 NPROC).
Proof. apply Forall_forall. intros i Hi%elem_of_seq. lia. Qed.

Lemma hart_alloc_safe s q owned w : Inv s q owned →
  safe false hart_alloc s w (λ r s', match r with
    | None => s' = s ∧ ∀ i, state_at s i ≠ Some UNUSED
    | Some i => Inv s' q owned ∧ state_at s' i = Some USED
    end).
Proof.
  intros HI. unfold safe, hart_alloc. apply wp_bind.
  eapply wp_mono; [eapply alloc_scan_safe; [exact HI|apply seq_below]|].
  intros [i|] ? Hr.
  - destruct Hr as (s' & -> & Htp & HI' & _ & Hst). apply wp_bind, wp_release; [set_solver|]. apply wp_ret.
    exists s'. split_and!; try done. by rewrite Hst, decide_True.
  - destruct Hr as [-> Hr]. apply wp_ret. exists s. split_and!; try done. intros i Hi.
    rewrite Forall_forall in Hr. apply (Hr i); [|done]. apply elem_of_seq.
    apply state_lookup in Hi as (pr & Hp & _). apply lookup_lt_Some in Hp.
    rewrite (rq_len _ _ (inv_rq _ _ _ HI)) in Hp. lia.
Qed.

Lemma fork_ready_safe s q owned w i : Inv s q owned → state_at s i = Some USED →
  safe false (fork_ready i) s w (λ _ s', Inv s' q (i :: owned)).
Proof.
  intros HI Hs. destruct (state_lookup s i USED Hs) as (pr & Hp & _).
  assert (i < length (procs s))%nat by (by eapply lookup_lt_Some).
  unfold safe, fork_ready. apply wp_bind, wp_acquire; [set_solver|]. wp_step. wp_step.
  apply wp_release; [set_solver|]. eexists. split; [done|]. split; [by apply harts_same|].
  eapply Inv_update with (i := i) (st0 := USED) (st' := RUNNABLE); try done.
  - eapply RQ_wr; [apply HI|done..].
  - simpl. solve_Permutation.
  - intros j. rewrite state_at_wr by done. by case_decide.
  - intros j Hj. simpl. by rewrite list_lookup_insert_ne.
Qed.

Lemma hart_reap_safe s q owned w i : Inv s q owned → (i < NPROC)%nat →
  safe false (hart_reap i) s w (λ b s', Inv s' q owned ∧
    b = bool_decide (state_at s i = Some ZOMBIE) ∧
    ∀ j, state_at s' j = if decide (i = j) then (if b then Some UNUSED else state_at s i) else state_at s j).
Proof.
  intros HI Hi. destruct (inv_lookup _ _ _ HI i Hi) as [pr Hp].
  assert (i < length (procs s))%nat by (by eapply lookup_lt_Some).
  assert (state_at s i = Some (state pr)) as Hs by (unfold state_at; by rewrite Hp). rewrite Hs.
  unfold safe, hart_reap. apply wp_bind, wp_acquire; [set_solver|]. wp_step. wp_step. case_bool_decide as E.
  - rewrite E in Hs. unfold free_fields. do 18 wp_step. apply wp_bind, wp_release; [set_solver|]. apply wp_ret.
    eexists. split; [done|]. split; [by apply harts_same|].
    lazymatch goal with |- Inv ?s' _ _ ∧ _ => set (s1 := s') end.
    assert (∀ j, state_at s1 j = if decide (i = j) then Some UNUSED else state_at s j) as Hst.
    { intros j. unfold s1. rewrite !state_at_wr by (simpl; by rewrite ?length_insert). by case_decide. }
    split; [|by rewrite E].
    eapply Inv_update with (i := i) (st0 := ZOMBIE) (st' := UNUSED); try done.
    + assert (i ∉ q) as Hq.
      { intros Hq. assert (state_at s i = Some RUNNABLE) by (apply (inv_own _ _ _ HI); set_solver). congruence. }
      destruct (rq_out _ _ (inv_rq _ _ _ HI) i pr Hq Hp) as (Hl & Hr & Hpp).
      unfold s1. rq_out_solve Hl Hr Hpp. apply HI.
    + intros j Hj. simpl. by rewrite !list_lookup_insert_ne.
  - apply wp_bind, wp_release; [set_solver|]. apply wp_ret. exists s. split_and!; try done.
    + by rewrite bool_decide_eq_false_2 by congruence.
    + intros j. by destruct (decide (i = j)) as [<-|].
Qed.

Lemma hart_tick_safe s q owned w c i : Inv s q owned → cpus s !! tp s = Some c → cproc c = Some i →
  safe false tick_current s w (λ _ s', Inv s' q owned).
Proof.
  intros HI Hc Hi. destruct (inv_hart _ _ _ HI c i Hc Hi) as (pr & Hp & Hr & Hni).
  assert (i < length (procs s))%nat by (by eapply lookup_lt_Some).
  unfold safe, tick_current. apply wp_bind. eapply wp_myproc; [done|]. rewrite Hi.
  wp_step. wp_step. wp_step. eexists. split; [done|]. split; [by apply harts_same|].
  eapply Inv_handover; [exact HI| |done|by eapply frame_eq_wr|].
  - eapply RQ_wr; [apply HI|done..].
  - intros j. rewrite state_at_wr by done. case_decide; [subst|done]. unfold state_at. by rewrite Hp.
Qed.

