(* ===== verification/SchedKeep.v ===== *)
(** * What the scheduler leaves alone

    The run queue and the functions that change the state of a process never
    touch its trapframe, page table, size, directory or name; they turn no
    process into an unused one, and an unused one into a live one only when the
    caller says so ([G]). With [ids], they keep pids and parents too. *)
From S2P Require Import Prelude Param ProcData RBTree Sched SchedInv.

Definition memf (p : proc) : Z * Z * Z * ptr * list Z := (trapframe p, pagetable p, sz p, cwd p, name p).
Record kept (ids : bool) (G : list nat) (s s' : sched) : Prop := {
  kt_len : length (procs s') = length (procs s);
  kt_mem i p p' : procs s !! i = Some p → procs s' !! i = Some p' → memf p' = memf p;
  kt_live i p p' : procs s !! i = Some p → procs s' !! i = Some p' → state p' = UNUSED → state p = UNUSED;
  kt_dead i p p' : procs s !! i = Some p → procs s' !! i = Some p' → i ∉ G → state p = UNUSED → state p' = UNUSED;
  kt_ident i p p' : procs s !! i = Some p → procs s' !! i = Some p' → ids = true → (pid p', parent p') = (pid p, parent p);
}.
Lemma kept_procs ids G s s' : procs s' = procs s → kept ids G s s'.
Proof. intros E. split; rewrite ?E; [done|..]; intros; simplify_eq; done. Qed.
Lemma kept_back ids G s s' i p' : kept ids G s s' → procs s' !! i = Some p' → ∃ p, procs s !! i = Some p.
Proof. intros H Hi. apply lookup_lt_is_Some. rewrite <- (kt_len _ _ _ _ H). by eapply lookup_lt_Some. Qed.
Lemma kept_comp ids G s1 s2 s3 : kept ids G s1 s2 → kept ids G s2 s3 → kept ids G s1 s3.
Proof.
  intros H1 H2. assert (Hm : ∀ i p3, procs s3 !! i = Some p3 → ∃ p2, procs s2 !! i = Some p2) by (intros; by eapply kept_back).
  split; [by rewrite (kt_len _ _ _ _ H2), (kt_len _ _ _ _ H1)|..]; intros i p p' Hp Hp'; destruct (Hm _ _ Hp') as [p2 Hp2].
  - rewrite (kt_mem _ _ _ _ H2 _ _ _ Hp2 Hp'). by eapply (kt_mem _ _ _ _ H1).
  - intros Hs. eapply (kt_live _ _ _ _ H1); [done|done|]. by eapply (kt_live _ _ _ _ H2).
  - intros Hg Hs. eapply (kt_dead _ _ _ _ H2); [done|done|done|]. by eapply (kt_dead _ _ _ _ H1).
  - intros Hi. rewrite (kt_ident _ _ _ _ H2 _ _ _ Hp2 Hp' Hi). by eapply (kt_ident _ _ _ _ H1).
Qed.
(** A process that is not unused needs no permission. *)
Lemma kept_upgrade ids G i s s' : state_at s i ≠ Some UNUSED → kept ids (i :: G) s s' → kept ids G s s'.
Proof.
  intros Hs H. split; try apply H. intros j p p' Hp Hp' Hj Hu. destruct (decide (j = i)) as [->|Hne].
  - destruct Hs. unfold state_at. by rewrite Hp, <- Hu.
  - eapply (kt_dead _ _ _ _ H); [done|done| |done]. set_solver.
Qed.

Definition keeps_at {A} (ids : bool) (G : list nat) (m : M sched A) (w : world sched) : Prop :=
  ∀ a w', m w = Done a w' → kept ids G (st w) (st w').
Lemma keeps_upgrade_at {A} ids G i (m : M sched A) w : state_at (st w) i ≠ Some UNUSED → keeps_at ids (i :: G) m w → keeps_at ids G m w.
Proof. intros Hs Hm a w' E. apply (kept_upgrade _ _ i); [done|]. by eapply Hm. Qed.
Definition steady {A} (ids : bool) (G : list nat) (m : M sched A) : Prop := ∀ w, keeps_at ids G m w.

Lemma steady_at {A} ids G (m : M sched A) w : steady ids G m → keeps_at ids G m w.
Proof. intros H. apply H. Qed.
Lemma keeps_bind {A B} ids G (m : M sched A) (f : A → M sched B) w :
  keeps_at ids G m w → (∀ a w', m w = Done a w' → keeps_at ids G (f a) w') → keeps_at ids G (bind m f) w.
Proof.
  intros Hm Hf b w'' E. unfold bind in E. destruct (m w) as [a w'| | | |] eqn:Em; try done.
  eapply kept_comp; [by apply (Hm a w')|]. by eapply (Hf a w').
Qed.
Lemma wp_conj {S A} (m : M S A) Φ Ψ w : wp m Φ w → wp m Ψ w → wp m (λ a w', Φ a w' ∧ Ψ a w') w.
Proof. unfold wp. by destruct (m w). Qed.
Lemma wp_keeps {A} ids G (m : M sched A) Φ w : keeps_at ids G m w → wp m Φ w → wp m (λ a w', Φ a w' ∧ kept ids G (st w) (st w')) w.
Proof. unfold wp, keeps_at. destruct (m w) eqn:E; try done. intros Hk H. split; [done|]. by eapply Hk. Qed.

Section rules.
Context (ids : bool) (G : list nat).
Local Abbreviation steady := (steady ids G).
Lemma st_same {A} (m : M sched A) : (∀ w a w', m w = Done a w' → procs (st w') = procs (st w)) → steady m.
Proof. intros H w a w' E. apply kept_procs. by eapply H. Qed.
Lemma st_bind {A B} (m : M sched A) (f : A → M sched B) : steady m → (∀ a, steady (f a)) → steady (bind m f).
Proof. intros Hm Hf w. apply keeps_bind; [apply Hm|]. intros. apply Hf. Qed.
Lemma st_ret {A} (a : A) : steady (ret a).
Proof. apply st_same. by intros w b w' [= _ <-]. Qed.
Lemma st_gets {A} (f : sched → A) : steady (gets f).
Proof. apply st_same. by intros w b w' [= _ <-]. Qed.
Lemma st_modify f : (∀ s, procs (f s) = procs s) → steady (modify f).
Proof. intros H. apply st_same. intros w b w' [= _ <-]. apply H. Qed.
Lemma st_panic {A} e : steady (panic (A := A) e).
Proof. by apply st_same. Qed.
Lemma st_fault {A} : steady (fault (A := A)).
Proof. by apply st_same. Qed.
Lemma st_timeout {A} : steady (timeout (A := A)).
Proof. by apply st_same. Qed.
Lemma st_nonnull {A} (x : option A) : steady (nonnull x).
Proof. destruct x; [apply st_ret|apply st_fault]. Qed.
Lemma st_when b m : steady m → steady (when b m).
Proof. intros. destruct b; [done|apply st_ret]. Qed.
Lemma st_andM b m : steady m → steady (andM b m).
Proof. intros. destruct b; [done|apply st_ret]. Qed.
Lemma st_orM b m : steady m → steady (orM b m).
Proof. intros. destruct b; [apply st_ret|done]. Qed.
Lemma st_acquire lk : steady (acquire lk).
Proof. apply st_same. intros w a w'. unfold acquire. case_bool_decide; [done|]. by intros [= _ <-]. Qed.
Lemma st_release lk : steady (release lk).
Proof. apply st_same. intros w a w'. unfold release. case_bool_decide; [|done]. by intros [= _ <-]. Qed.
Lemma st_holding lk : steady (holding lk).
Proof. apply st_same. by intros w a w' [= _ <-]. Qed.
Lemma st_noff : steady noff.
Proof. apply st_same. by intros w a w' [= _ <-]. Qed.
Lemma st_rd {A} (f : proc → A) p : steady (rd f p).
Proof. apply st_same. intros w a w'. unfold rd. destruct p; [|done]. destruct (_ !! _); [|done]. by intros [= _ <-]. Qed.
Lemma st_wr p g : (∀ q, memf (g q) = memf q ∧ (state (g q) = UNUSED → state q = UNUSED) ∧
    (ids = true → (pid (g q), parent (g q)) = (pid q, parent q)) ∧
    ((∀ i, p = Some i → i ∉ G) → state q = UNUSED → state (g q) = UNUSED)) → steady (wr p g).
Proof.
  intros H w a w'. unfold wr. destruct p as [i|]; [|done]. destruct (procs (st w) !! i) as [q|] eqn:Hq; [|done].
  intros [= _ <-]. cbn. destruct (H q) as (H1 & H2 & H3 & H4). pose proof (lookup_lt_Some _ _ _ Hq) as Hlt.
  split; cbn; [by rewrite length_insert|..]; intros j p p' Hp Hp'; (destruct (decide (i = j)) as [<-|];
    [rewrite list_lookup_insert_eq in Hp' by done|rewrite list_lookup_insert_ne in Hp' by done]); simplify_eq; try done.
  { unfold memf. congruence. }
  intros Hi Hs. apply H4; [|done]. by intros ? [= <-].
Qed.
End rules.

Create HintDb steady.
Ltac st_step :=
  lazymatch goal with
  | |- steady _ _ (bind _ _) => apply st_bind; [|intros ?]
  | |- steady _ _ (when _ _) => apply st_when
  | |- steady _ _ (andM _ _) => apply st_andM
  | |- steady _ _ (orM _ _) => apply st_orM
  | |- steady _ _ (ret _) => apply st_ret
  | |- steady _ _ (gets _) => apply st_gets
  | |- steady _ _ (rd _ _) => apply st_rd
  | |- steady _ _ (rdt _) => apply st_gets
  | |- steady _ _ (wrt _) => by apply st_modify
  | |- steady _ _ (modify _) => by apply st_modify
  | |- steady _ _ (wr _ _) => apply st_wr; intros ?; by repeat split
  | |- steady _ _ (acquire _) => apply st_acquire
  | |- steady _ _ (release _) => apply st_release
  | |- steady _ _ (holding _) => apply st_holding
  | |- steady _ _ noff => apply st_noff
  | |- steady _ _ (nonnull _) => apply st_nonnull
  | |- steady _ _ (panic _) => apply st_panic
  | |- steady _ _ fault => apply st_fault
  | |- steady _ _ timeout => apply st_timeout
  | |- steady _ _ (if ?b then _ else _) => destruct b
  | |- steady _ _ (match ?x with _ => _ end) => destruct x
  | |- steady _ _ _ => solve [eauto with steady]
  end.
Ltac stdy := repeat st_step.

Section ops.
Context (ids : bool) (G : list nat).
Local Abbreviation steady := (steady ids G).
Lemma st_grandparent p : steady (retrieveGrandparentproc p).
Proof. unfold retrieveGrandparentproc. stdy. Qed.
Lemma st_uncle p : steady (retrieveUncleproc p).
Proof. unfold retrieveUncleproc. apply st_bind; [apply st_grandparent|intros]. stdy. Qed.
Lemma st_rotateLeft p : steady (rotateLeft p).
Proof. unfold rotateLeft. stdy. Qed.
Lemma st_rotateRight p : steady (rotateRight p).
Proof. unfold rotateRight. stdy. Qed.
Lemma st_minimum n : ∀ p, steady (setMinimumVRuntimeproc n p).
Proof. induction n as [|n IH]; intros p; cbn [setMinimumVRuntimeproc]; stdy. Qed.
Lemma st_insertproc n : ∀ t p, steady (insertproc n t p).
Proof. induction n as [|n IH]; intros t p; cbn [insertproc]; stdy. Qed.
Lemma st_is_red p : steady (is_red p).
Proof. unfold is_red. stdy. Qed.
Lemma st_black p : steady (null_or_black p).
Proof. unfold null_or_black, is_black. stdy. Qed.
Hint Resolve st_grandparent st_uncle st_rotateLeft st_rotateRight st_minimum st_insertproc st_is_red st_black : steady.
Lemma st_insertionCases n : ∀ p c, steady (insertionCases n p c).
Proof. induction n as [|n IH]; intros p c; cbn [insertionCases]; stdy. Qed.
Hint Resolve st_insertionCases : steady.
Lemma st_insertProcess p : steady (insertProcess p).
Proof. unfold insertProcess, fullTree. stdy. Qed.
Hint Resolve st_insertProcess : steady.
Lemma st_red_sibling p q : steady (rotate_red_sibling p q).
Proof. unfold rotate_red_sibling. stdy. Qed.
Lemma st_children p : steady (children_black p).
Proof. unfold children_black. stdy. Qed.
Lemma st_near_child p q : steady (rotate_near_child p q).
Proof. unfold rotate_near_child. stdy. Qed.
Lemma st_rotate_parent p q : steady (rotate_parent p q).
Proof. unfold rotate_parent. stdy. Qed.
Hint Resolve st_red_sibling st_children st_near_child st_rotate_parent : steady.
Lemma st_retrieving n : ∀ p q, steady (retrieving_while n p q).
Proof. induction n as [|n IH]; intros p q; cbn [retrieving_while]; stdy. Qed.
Hint Resolve st_retrieving : steady.
Lemma st_replace p q c : steady (replace_by_child p q c).
Proof. unfold replace_by_child, retrievingCases_2. stdy. Qed.
Hint Resolve st_replace : steady.
Lemma st_retrieveProcess : steady retrieveProcess.
Proof. unfold retrieveProcess, emptyTree, retrievingCases, retrievingCases_1, cdiv. stdy. Qed.
Lemma st_mycpu : steady mycpu.
Proof. unfold mycpu, cpuid. stdy. Qed.
Hint Resolve st_retrieveProcess st_mycpu : steady.
Lemma st_myproc : steady myproc.
Proof. unfold myproc. stdy. Qed.
Lemma st_set_mycpu g : steady (set_mycpu g).
Proof. unfold set_mycpu, cpuid. stdy. Qed.
Hint Resolve st_myproc st_set_mycpu : steady.
Lemma st_checkPreemption p m : steady (checkPreemption p m).
Proof. unfold checkPreemption. stdy. Qed.
Lemma st_sched_enter : steady sched_enter.
Proof. unfold sched_enter, intr_get. stdy. Qed.
Lemma st_account p : steady (account p).
Proof. unfold account. stdy. Qed.
Hint Resolve st_checkPreemption st_sched_enter st_account : steady.
Lemma st_scheduler_return i : steady (scheduler_return i).
Proof. unfold scheduler_return. stdy. Qed.
Lemma st_tick : steady tick_current.
Proof. unfold tick_current. stdy. Qed.
Lemma st_is_killed i : steady (is_killed i).
Proof. unfold is_killed. stdy. Qed.
Lemma st_setkilled i : steady (setkilled i).
Proof. unfold setkilled. stdy. Qed.
Lemma st_sleep_leave b lk : steady (sleep_leave b lk).
Proof. unfold sleep_leave, sched_leave. stdy. Qed.
Lemma st_leave r : steady (leave r).
Proof. unfold leave, yield_leave, sleep_leave, sched_leave. stdy. Qed.
(** Making [i] runnable needs the permission for [i]. *)
Lemma st_wr_state i st' : i ∈ G → st' ≠ UNUSED → steady (wr (Some i) (λ p, p <| state := st' |>)).
Proof. intros Hi Hs. apply st_wr. intros q. repeat split; try done. intros H. by destruct (H i eq_refl). Qed.
Lemma st_make_runnable i : i ∈ G → steady (make_runnable (Some i)).
Proof. intros Hi. unfold make_runnable. apply st_bind; [by apply st_wr_state|intros]. stdy. Qed.
End ops.
#[export] Hint Resolve st_insertProcess st_retrieveProcess st_mycpu st_myproc st_set_mycpu st_checkPreemption st_sched_enter st_account
  st_scheduler_return st_tick st_is_killed st_setkilled st_sleep_leave st_leave : steady.

(** ** Steps with a test of the state *)
Lemma rd_inv {A} (f : proc → A) i w a w' : rd f (Some i) w = Done a w' → w' = w ∧ ∃ pr, procs (st w) !! i = Some pr ∧ a = f pr.
Proof. unfold rd. destruct (procs (st w) !! i) as [pr|]; [|done]. intros [= <- <-]. eauto. Qed.
(** [s ← rd state i; K s], where [K] may treat a process that is not unused as
    it likes. *)
Lemma keeps_test {A} ids i (K : procstate → M sched A) w :
  (∀ s', s' ≠ UNUSED → steady ids [i] (K s')) → steady ids [] (K UNUSED) → keeps_at ids [] (s' ← rd state (Some i); K s') w.
Proof.
  intros HK HU. apply keeps_bind; [apply st_rd|]. intros s' w' E. apply rd_inv in E as [-> (pr & Hp & ->)].
  destruct (decide (state pr = UNUSED)) as [E|E]; [rewrite E; apply HU|].
  intros a w'' E'. apply (kept_upgrade _ _ i); [unfold state_at; rewrite Hp; simpl; congruence|]. by eapply HK.
Qed.
Lemma keeps_test' {A} ids i (K : procstate → M sched A) :
  (∀ s', s' ≠ UNUSED → steady ids [i] (K s')) → steady ids [] (K UNUSED) → steady ids [] (s' ← rd state (Some i); K s').
Proof. intros HK HU w. by apply keeps_test. Qed.
Ltac not_unused := change (bool_decide (UNUSED = RUNNABLE)) with false; change (bool_decide (UNUSED = SLEEPING)) with false; cbn [andb when]; stdy.
Section steps.
Context (ids : bool).
Local Abbreviation steady := (steady ids []).
Lemma st_dispatch p : steady (scheduler_dispatch p).
Proof.
  unfold scheduler_dispatch. destruct p as [i|]; [|stdy]. st_step; [stdy|]. apply keeps_test'; [intros s' Hs|not_unused].
  case_bool_decide; [|stdy]. apply st_bind; [apply st_wr_state; [set_solver|done]|intros]. stdy.
Qed.
Lemma st_wakeup_one c i : steady (wakeup_one c i).
Proof.
  unfold wakeup_one. st_step; [stdy|]. st_step. st_step; [stdy|]. apply keeps_test'; [intros s' Hs|not_unused].
  st_step; [stdy|]. st_step; [|stdy]. st_step. apply st_make_runnable. set_solver.
Qed.
Lemma st_forM {A} (l : list A) f : (∀ a, steady (f a)) → steady (forM l f).
Proof. intros Hf. induction l as [|a l IH]; cbn [forM]; stdy; auto. Qed.
Lemma st_wakeup c : steady (wakeup c).
Proof. apply st_forM. intros. apply st_wakeup_one. Qed.
Lemma st_kill_from l t : steady (kill_from l t).
Proof.
  induction l as [|i l IH]; cbn [kill_from]; [stdy|]. st_step; [stdy|]. st_step; [stdy|]. st_step; [|stdy].
  st_step; [stdy|]. apply keeps_test'; [intros s' Hs|not_unused]. st_step; [|stdy]. st_step. apply st_make_runnable. set_solver.
Qed.
Lemma st_hart_run i r : steady (hart_run i r).
Proof. unfold hart_run. st_step; [apply st_dispatch|]. stdy. Qed.
End steps.
#[export] Hint Resolve st_dispatch st_wakeup st_kill_from st_hart_run : steady.
(** The current process is not unused; what it does to itself is free. *)
Section current.
Context (ids : bool) (s : sched) (c : cpu) (i : nat) (Hc : cpus s !! tp s = Some c) (Hi : cproc c = Some i).
Lemma keeps_cur {A} G (K : ptr → M sched A) h w : keeps_at ids G (K (Some i)) (World h w s) → keeps_at ids G (p ← myproc; K p) (World h w s).
Proof.
  intros HK. apply keeps_bind; [apply st_myproc|]. intros p w' E. unfold myproc, mycpu, cpuid, bind, gets, nonnull in E. cbn in E.
  rewrite Hc in E. cbn in E. injection E as <- <-. by rewrite Hi.
Qed.
Lemma keeps_ret_bind {A B} G (a : A) (f : A → M sched B) w : keeps_at ids G (f a) w → keeps_at ids G (x ← nonnull (Some a); f x) w.
Proof. done. Qed.
Lemma keeps_acquire {A} G lk (m : M sched A) h w : keeps_at ids G m (World (lk :: h) w s) → keeps_at ids G (acquire lk;; m) (World h w s).
Proof.
  intros Hm. apply keeps_bind; [apply st_acquire|]. intros [] w'. unfold acquire. cbn [held]. case_bool_decide; [done|]. by intros [= <-].
Qed.
Lemma keeps_yield h w : keeps_at ids [i] yield (World h w s).
Proof.
  unfold yield. apply keeps_cur. apply steady_at. st_step; [stdy|]. st_step; [stdy|]. st_step; [stdy|].
  st_step; [stdy|]. st_step; [|stdy]. st_step; [apply st_make_runnable; set_solver|]. stdy.
Qed.
Lemma keeps_sleep ch lk h w : keeps_at ids [i] (sleep ch lk) (World h w s).
Proof.
  unfold sleep. apply keeps_cur. apply steady_at. do 4 (st_step; [stdy|]). st_step; [apply st_wr_state; [set_solver|done]|]. stdy.
Qed.
Lemma keeps_exit_zombie status h w : keeps_at ids [i] (exit_zombie status) (World h w s).
Proof.
  unfold exit_zombie. apply keeps_cur. apply steady_at. do 3 (st_step; [stdy|]). st_step; [apply st_wr_state; [set_solver|done]|]. stdy.
Qed.
Context (Hs : state_at s i = Some RUNNING).
Lemma keeps_alive {A} (m : M sched A) h w : keeps_at ids [i] m (World h w s) → keeps_at ids [] m (World h w s).
Proof. apply keeps_upgrade_at. cbn. congruence. Qed.
Lemma keeps_hart_yield w : keeps_at ids [] hart_yield (World [] w s).
Proof.
  unfold hart_yield. apply keeps_alive, keeps_cur, keeps_ret_bind, keeps_bind; [apply keeps_yield|]. intros r w' _. apply steady_at. stdy.
Qed.
Lemma keeps_hart_sleep ch lk w : keeps_at ids [] (hart_sleep ch lk) (World [] w s).
Proof.
  unfold hart_sleep. apply keeps_alive, keeps_cur, keeps_ret_bind, keeps_acquire, keeps_bind; [apply keeps_sleep|].
  intros r w' _. apply steady_at. stdy.
Qed.
Lemma keeps_hart_exit status w : keeps_at ids [] (hart_exit status) (World [] w s).
Proof.
  unfold hart_exit. apply keeps_alive, keeps_cur, keeps_ret_bind, keeps_acquire, keeps_bind; [apply keeps_exit_zombie|].
  intros r w' _. apply steady_at. stdy.
Qed.
End current.
