(* ===== verification/SchedSys.v ===== *)
(** * The scheduler as a transition system

    The steps of SchedInv.v in every interleaving of NCPU harts: the invariant
    holds in every reachable state, and no step panics, faults or loops. *)
From S2P Require Import Prelude Param ProcData RBTree RBSpec RBHeap RBInsert RunQueue Sched SchedInv.

(** ** The system *)
Record sys := Sys {
  ys : sched;
  disp : list ptr;     (* per hart: retrieved, not yet switched to *)
  forking : list nat;  (* children made runnable by fork, not yet queued *)
}.
Definition sys_owned (y : sys) : list nat := omap id (disp y) ++ forking y.
Definition running_on (y : sys) (j : nat) : option ptr := cproc <$> cpus (ys y) !! j.

Inductive op :=
  | Pick | Run (r : resume) | Yield | Tick | Sleep (c : chan) (lk : lock) | Exit (status : Z)
  | Wakeup (c : option chan) | Kill (target : Z) | Alloc | Ready (i : nat) | Queue (i : nat) | Reap (i : nat).

(** When hart [j] may do [o]. *)
Definition enabled (y : sys) (j : nat) (o : op) : Prop :=
  (j < NCPU)%nat ∧
  match o with
  | Pick => running_on y j = Some None ∧ disp y !! j = Some None
  | Run _ => ∃ i, disp y !! j = Some (Some i)
  | Yield | Tick | Exit _ => ∃ i, running_on y j = Some (Some i)
  | Sleep _ lk => (∃ i, running_on y j = Some (Some i)) ∧ ∀ i, lk ≠ proc_lock i
  | Ready i => state_at (ys y) i = Some USED
  | Queue i => i ∈ forking y
  | Reap i => (i < NPROC)%nat
  | _ => True
  end.

(** What it runs; the result is the new [disp] and [forking]. *)
Definition exec (y : sys) (j : nat) (o : op) : M sched (list ptr * list nat) :=
  let d := disp y in let f := forking y in
  match o with
  | Pick => r ← retrieveProcess; ret (<[j := r]> d, f)
  | Run r =>
      match d !! j with
      | Some (Some i) => hart_run i r;; ret (<[j := None]> d, f)
      | _ => ret (d, f)
      end
  | Yield => hart_yield;; ret (d, f)
  | Tick => tick_current;; ret (d, f)
  | Sleep c lk => hart_sleep c lk;; ret (d, f)
  | Exit status => hart_exit status;; ret (d, f)
  | Wakeup c => wakeup c;; ret (d, f)
  | Kill target => kill target;; ret (d, f)
  | Alloc => hart_alloc;; ret (d, f)
  | Ready i => fork_ready i;; ret (d, i :: f)
  | Queue i => insertProcess (Some i);; ret (d, filter (λ i', i' ≠ i) f)
  | Reap i => hart_reap i;; ret (d, f)
  end.
Definition run_on (y : sys) (j : nat) (o : op) : outcome sched (list ptr * list nat) :=
  exec y j o (World [] [] ((ys y) <| tp := j |>)).

Inductive step : sys → sys → Prop :=
  | step_op y j o d f s' : enabled y j o → run_on y j o = Done (d, f) (World [] [] s') →
      step y (Sys s' d f).

Record SysInv (y : sys) : Prop := {
  si_inv : ∃ q, Inv (ys y) q (sys_owned y);
  si_len : length (disp y) = NCPU;
  si_disp j i : disp y !! j = Some (Some i) → running_on y j = Some None;
}.

Lemma Inv_tp s q owned j : Inv s q owned → Inv (s <| tp := j |>) q owned.
Proof. intros [HQ ? ? ? ? ? ?]. split; try done. by apply (RQ_same s). Qed.

Lemma omap_id_out (d : list ptr) j i : d !! j = Some (Some i) →
  omap id d ≡ₚ i :: omap id (<[j := None]> d).
Proof.
  intros Hj. rewrite <-(take_drop_middle d j _ Hj) at 1.
  rewrite insert_take_drop by (by eapply lookup_lt_Some). rewrite !omap_app. simpl. solve_Permutation.
Qed.
Lemma omap_id_in (d : list ptr) j i : d !! j = Some None →
  omap id (<[j := Some i]> d) ≡ₚ i :: omap id d.
Proof.
  intros Hj. rewrite <-(take_drop_middle d j _ Hj) at 2.
  rewrite insert_take_drop by (by eapply lookup_lt_Some). rewrite !omap_app. simpl. solve_Permutation.
Qed.
Lemma Inv_perm s q owned owned' : owned' ≡ₚ owned → Inv s q owned → Inv s q owned'.
Proof.
  intros Hp HI. split; try apply HI; [intros i; rewrite Hp; apply HI|rewrite Hp; apply HI].
Qed.
Lemma filter_ne_perm (i : nat) f : NoDup f → i ∈ f → f ≡ₚ i :: filter (λ i', i' ≠ i) f.
Proof.
  intros Hnd Hi. apply NoDup_Permutation; [done|apply NoDup_cons; split; [|by apply NoDup_filter]|].
  - intros [? _]%list_elem_of_filter. done.
  - intros j. rewrite elem_of_cons, list_elem_of_filter. destruct (decide (j = i)); naive_solver.
Qed.

Lemma running_cpu y j p : running_on y j = Some p → ∃ c, cpus (ys y) !! j = Some c ∧ cproc c = p.
Proof. unfold running_on. destruct (cpus (ys y) !! j); naive_solver. Qed.

(** A step of hart [j] leads back to the invariant. *)
Definition good_step (y : sys) (m : M sched (list ptr * list nat)) (j : nat) : Prop :=
  ∃ d f s', m (World [] [] ((ys y) <| tp := j |>)) = Done (d, f) (World [] [] s') ∧ SysInv (Sys s' d f).

Lemma good_of_safe {A} sw (m : M sched A) P y j (g : A → list ptr * list nat) :
  safe sw m ((ys y) <| tp := j |>) [] P →
  (∀ a s', P a s' → harts sw ((ys y) <| tp := j |>) s' → SysInv (Sys s' (g a).1 (g a).2)) →
  good_step y (a ← m; ret (g a)) j.
Proof.
  intros Hs Hg. unfold safe in Hs. apply wp_done in Hs as (a & w' & E & s' & -> & Hh & HP).
  exists (g a).1, (g a).2, s'. unfold bind, ret. rewrite E. destruct (g a) eqn:Ea.
  split; [done|]. specialize (Hg a s' HP Hh). by rewrite Ea in Hg.
Qed.

Lemma idle_kept y sw j s' k i : SysInv y → harts sw ((ys y) <| tp := j |>) s' → (sw = true → k ≠ j) →
  disp y !! k = Some (Some i) → cproc <$> cpus s' !! k = Some None.
Proof. intros HY [_ Hc] Hk Hd. rewrite Hc by done. by apply (si_disp _ HY k i). Qed.

(** A step that leaves [disp] alone. *)
Lemma keep_disp y q f s' sw j : SysInv y → Inv s' q (omap id (disp y) ++ f) →
  harts sw ((ys y) <| tp := j |>) s' →
  (sw = true → ∃ i, running_on y j = Some (Some i)) → SysInv (Sys s' (disp y) f).
Proof.
  intros HY HI Hh Hr. split; [by exists q|apply HY|].
  intros k i Hk. eapply idle_kept; [done|done| |done]. intros Hs ->. destruct (Hr Hs) as [p Hp].
  pose proof (si_disp _ HY j i Hk). congruence.
Qed.

Section exec.
Context (y : sys) (HY : SysInv y) (j : nat) (Hj : (j < NCPU)%nat).
Let s := (ys y) <| tp := j |>.

Lemma exec_inv : ∃ q, Inv s q (sys_owned y).
Proof. destruct (si_inv _ HY) as [q HI]. exists q. by apply Inv_tp. Qed.
Lemma exec_running p : running_on y j = Some p → ∃ c, cpus s !! tp s = Some c ∧ cproc c = p.
Proof. apply running_cpu. Qed.

Lemma exec_pick : running_on y j = Some None → disp y !! j = Some None → good_step y (exec y j Pick) j.
Proof.
  intros Hr Hd. destruct exec_inv as [q HI]. eapply good_of_safe; [by apply hart_pick_safe|].
  intros [m|] s' HP Hh; simpl.
  - destruct HP as (q' & -> & HI'). split.
    + exists q'. eapply Inv_perm; [|exact HI']. unfold sys_owned. simpl. by rewrite omap_id_in.
    + simpl. rewrite length_insert. apply HY.
    + intros k i Hk. unfold running_on. simpl in *. destruct (decide (j = k)) as [<-|].
      * destruct Hh as [_ Hc]. by rewrite Hc.
      * rewrite list_lookup_insert_ne in Hk by done. by eapply idle_kept.
  - rewrite list_insert_id by done. destruct HP as [_ HI']. by eapply (keep_disp y q).
Qed.
Lemma exec_run r i : disp y !! j = Some (Some i) → good_step y (exec y j (Run r)) j.
Proof.
  intros Hd. destruct exec_inv as [q HI]. unfold exec. rewrite Hd.
  destruct (exec_running None) as (c & Hc & Hn); [by eapply si_disp|].
  assert (Inv s q (i :: (omap id (<[j := None]> (disp y)) ++ forking y))) as HI1.
  { eapply Inv_perm; [|exact HI]. unfold sys_owned. by rewrite (omap_id_out _ _ _ Hd). }
  eapply (good_of_safe true _ _ y j (λ _, (_, _))); [by eapply hart_run_safe|].
  intros b s' (_ & HI' & _) Hh; simpl. split; [by exists q|simpl; rewrite length_insert; apply HY|].
  intros k i' Hk. simpl in Hk. destruct (decide (j = k)) as [<-|].
  - rewrite list_lookup_insert_eq in Hk; [done|]. by eapply lookup_lt_Some.
  - rewrite list_lookup_insert_ne in Hk by done. by eapply idle_kept.
Qed.
Lemma exec_queue i : i ∈ forking y → good_step y (exec y j (Queue i)) j.
Proof.
  intros Hi. destruct exec_inv as [q HI].
  pose proof (inv_nd _ _ _ HI) as (_ & _ & (_ & _ & Hnd)%NoDup_app)%NoDup_app.
  pose proof (filter_ne_perm i _ Hnd Hi) as Hp.
  assert (Inv s q (i :: (omap id (disp y) ++ filter (λ i', i' ≠ i) (forking y)))) as HI1.
  { eapply Inv_perm; [|exact HI]. unfold sys_owned. rewrite Hp at 2. solve_Permutation. }
  eapply (good_of_safe false _ _ y j (λ _, (_, _))); [by apply fork_insert_safe|].
  intros [] s' (q' & _ & HI') Hh; simpl. by eapply (keep_disp y q').
Qed.
End exec.

(** Every enabled step returns and keeps the invariant. *)
Lemma exec_good y j o : SysInv y → enabled y j o → good_step y (exec y j o) j.
Proof.
  intros HY [Hj He]. destruct (exec_inv y HY j) as [q HI].
  assert (∀ i, running_on y j = Some (Some i) → ∃ c, cpus ((ys y) <| tp := j |>) !! j = Some c ∧ cproc c = Some i)
    as Hrun by (intros i; apply running_cpu).
  destruct o; simpl in He.
  - destruct He. by apply exec_pick.
  - destruct He as [i Hi]. by eapply exec_run.
  - destruct He as [i Hi]. destruct (Hrun i Hi) as (c & Hc & Hp).
    eapply (good_of_safe true _ _ y j (λ _, (_, _))); [by eapply hart_yield_safe|].
    intros r s' (q' & HI' & _) Hh. eapply (keep_disp y q'); [done|exact HI'|exact Hh|done || eauto].
  - destruct He as [i Hi]. destruct (Hrun i Hi) as (c & Hc & Hp).
    eapply (good_of_safe false _ _ y j (λ _, (_, _))); [by eapply hart_tick_safe|].
    intros r s' HI' Hh. eapply (keep_disp y q); [done|done|exact Hh|done || eauto].
  - destruct He as [[i Hi] Hlk]. destruct (Hrun i Hi) as (c' & Hc & Hp).
    eapply (good_of_safe true _ _ y j (λ _, (_, _))); [by eapply hart_sleep_safe|].
    intros r s' [HI' _] Hh. eapply (keep_disp y q); [done|done|exact Hh|done || eauto].
  - destruct He as [i Hi]. destruct (Hrun i Hi) as (c & Hc & Hp).
    eapply (good_of_safe true _ _ y j (λ _, (_, _))); [by eapply hart_exit_safe|].
    intros r s' [HI' _] Hh. eapply (keep_disp y q); [done|done|exact Hh|done || eauto].
  - assert (∃ me, myproc_of ((ys y) <| tp := j |>) = Some me) as [me Hme].
    { unfold myproc_of. simpl. destruct (lookup_lt_is_Some_2 (cpus (ys y)) j) as [hc ->]; [|eauto].
      pose proof (inv_cpus _ _ _ HI) as Hn. simpl in Hn. by rewrite Hn. }
    eapply (good_of_safe false _ _ y j (λ _, (_, _)));
      [by eapply wakeup_list_safe; [| |apply seq_below|apply NoDup_seq]|].
    intros r s' (q' & HI' & _) Hh. eapply (keep_disp y q'); [done|exact HI'|exact Hh|done || eauto].
  - eapply (good_of_safe false _ _ y j (λ _, (_, _))); [by eapply kill_from_safe; [|apply seq_below]|].
    intros r s' (q' & HI' & _) Hh. eapply (keep_disp y q'); [done|exact HI'|exact Hh|done || eauto].
  - eapply (good_of_safe false _ _ y j (λ _, (_, _))); [by eapply hart_alloc_safe|].
    intros [i|] s' HP Hh; [destruct HP as [HI' _]|destruct HP as [-> _]]; (eapply (keep_disp y q); [done|done|exact Hh|done]).
  - eapply (good_of_safe false _ _ y j (λ _, (_, _))); [by eapply fork_ready_safe|].
    intros [] s' HI' Hh. eapply (keep_disp y q); [done| |exact Hh|done].
    eapply Inv_perm; [|exact HI']. unfold sys_owned. simpl. solve_Permutation.
  - by apply exec_queue.
  - eapply (good_of_safe false _ _ y j (λ _, (_, _))); [by eapply hart_reap_safe|].
    intros r s' [HI' _] Hh. eapply (keep_disp y q); [done|done|exact Hh|done || eauto].
Qed.

(** The state after procinit and before the first process. *)
Definition boot_sched : sched :=
  sched0 <| procs := imap (λ i p, p <| kstack := KSTACK (Z.of_nat i) |>) (replicate NPROC proc0) |>.
Definition boot : sys := Sys boot_sched (replicate NCPU None) [].
Lemma procinit_boots : procinit (World [] [] sched0) = Done () (World [] [] boot_sched).
Proof. vm_compute. reflexivity. Qed.

Lemma boot_lookup i pr : procs boot_sched !! i = Some pr →
  pr = proc0 <| kstack := KSTACK (Z.of_nat i) |>.
Proof.
  unfold boot_sched. cbn [procs set_field]. rewrite list_lookup_imap.
  destruct (replicate NPROC proc0 !! i) as [p|] eqn:Hi; [|done]. intros [= <-].
  by apply lookup_replicate in Hi as [-> _].
Qed.
Lemma boot_RQ : RQ boot_sched [].
Proof.
  split; [|constructor|constructor|done|done|done|set_solver|done|done|].
  { exists E. split_and!; [done|done|]. split; [done|]. exists 0%nat. constructor. }
  intros i pr _ Hi. by apply boot_lookup in Hi as ->.
Qed.
Lemma boot_inv : SysInv boot.
Proof.
  split; [|done|]; cycle 1.
  { intros j i Hj. unfold boot in Hj. cbn [disp] in Hj. by apply lookup_replicate in Hj as [? _]. }
  exists []. assert (∀ i, state_at boot_sched i ≠ Some RUNNABLE ∧ state_at boot_sched i ≠ Some RUNNING) as Hst.
  { intros i. unfold state_at. destruct (procs boot_sched !! i) as [pr|] eqn:Hi; [|done].
    by apply boot_lookup in Hi as ->. }
  split; try done.
  - apply boot_RQ.
  - intros i. split; [intros Hi; by destruct (Hst i)|set_solver].
  - constructor.
  - intros i. split; [intros Hi; by destruct (Hst i)|set_solver].
  - constructor.
  - intros i pr Hi. by apply boot_lookup in Hi as ->.
Qed.
Lemma reachable_inv y : rtc step boot y → SysInv y.
Proof.
  intros Hr. assert (∀ a b, rtc step a b → SysInv a → SysInv b) as H; [|by eapply H, boot_inv].
  clear. induction 1 as [|a b c Hab Hbc IH]; [done|]. intros Ha. apply IH.
  destruct Hab as [y j o d f s' He Hrun]. destruct (exec_good y j o Ha He) as (d' & f' & s'' & E & HI).
  unfold run_on in Hrun. rewrite E in Hrun. by simplify_eq.
Qed.

(** ** The properties *)

(** C3: in every state the harts can reach from boot by any interleaving of
    dispatching, preemption, sleeping, waking, killing, exiting, forking and
    reaping, the run queue is well formed, a process is RUNNABLE if and only if
    exactly one party is responsible for it (the run queue, a hart that has just
    retrieved it, or the fork about to queue it), and it is RUNNING if and only
    if exactly one hart runs it: no process is lost, queued twice or run twice.
    A wakeup or a kill is one step; [chprio] is not among the steps, because it
    leaves the total weight of the queue wrong, as is shown below. *)
Theorem scheduler_invariant y : rtc step boot y →
  ∃ q, RQ (ys y) q ∧ NoDup (q ++ sys_owned y) ∧
    (∀ i, state_at (ys y) i = Some RUNNABLE ↔ i ∈ q ++ sys_owned y) ∧
    NoDup (omap cproc (cpus (ys y))) ∧
    (∀ i, state_at (ys y) i = Some RUNNING ↔ i ∈ omap cproc (cpus (ys y))).
Proof.
  intros Hr. destruct (si_inv _ (reachable_inv y Hr)) as [q [? ? ? ? ? ? ?]]. eauto 10.
Qed.
Lemma scheduler_invariant_witness : ∃ y, step boot y ∧ ∃ q, RQ (ys y) q ∧ NoDup (q ++ sys_owned y) ∧
    (∀ i, state_at (ys y) i = Some RUNNABLE ↔ i ∈ q ++ sys_owned y) ∧
    NoDup (omap cproc (cpus (ys y))) ∧
    (∀ i, state_at (ys y) i = Some RUNNING ↔ i ∈ omap cproc (cpus (ys y))).
Proof.
  assert (enabled boot 0 Alloc) as He by (split; [unfold NCPU; lia|exact I]).
  destruct (exec_good boot 0 Alloc boot_inv He) as (d & f & s' & E & _).
  assert (step boot (Sys s' d f)) as Hs by exact (step_op boot 0 Alloc d f s' He E).
  exists (Sys s' d f). split; [exact Hs|].
  apply (scheduler_invariant (Sys s' d f)). exact (rtc_once _ _ Hs).
Defined.

(** C10: in a state that satisfies the invariant every enabled operation returns:
    no panic ("acquire", "release", "sched p->lock", "sched locks", "sched
    running", "sched interruptible"), no null dereference, no endless loop; it
    ends with no spinlock held and the invariant restored. *)
Theorem scheduler_step_returns y j o : SysInv y → enabled y j o →
  ∃ d f s', run_on y j o = Done (d, f) (World [] [] s') ∧ SysInv (Sys s' d f).
Proof. apply exec_good. Qed.
Lemma scheduler_step_returns_witness :
  ∃ d f s', run_on boot 3 Pick = Done (d, f) (World [] [] s') ∧ SysInv (Sys s' d f).
Proof.
  apply (scheduler_step_returns boot 3 Pick); [exact boot_inv|].
  split; [unfold NCPU; lia|split; reflexivity].
Defined.

(** [wakeup] makes runnable exactly the processes sleeping on the channel,
    other than the caller, and changes the state of no other process; none of
    them is left asleep. *)
Theorem wakeup_wakes s q owned w c me : Inv s q owned → myproc_of s = Some me →
  ∃ s' q', wakeup c (World [] w s) = Done () (World [] w s') ∧ Inv s' q' owned ∧
    ∀ i, state_at s' i =
      if negb (bool_decide (Some i = me)) && asleep_on s c i then Some RUNNABLE else state_at s i.
Proof.
  intros HI Hme.
  pose proof (wakeup_list_safe (seq 0 NPROC) s q owned w c me HI Hme seq_below (NoDup_seq _ _)) as H.
  apply wp_done in H as ([] & w' & E & s' & -> & _ & q' & HI' & _ & Hst). exists s', q'.
  split; [done|]. split; [done|]. intros i. rewrite Hst. case_decide as Hi; [done|].
  assert (asleep_on s c i = false) as ->; [|by rewrite andb_false_r].
  unfold asleep_on. destruct (procs s !! i) as [pr|] eqn:Hp; [|done].
  apply lookup_lt_Some in Hp. rewrite (rq_len _ _ (inv_rq _ _ _ HI)) in Hp.
  exfalso. apply Hi, elem_of_seq. lia.
Qed.
Lemma wakeup_wakes_witness : ∃ s' q',
  wakeup (Some ("ticks", 0%nat)) (World [] [] boot_sched) = Done () (World [] [] s') ∧ Inv s' q' [] ∧
    ∀ i, state_at s' i =
      if negb (bool_decide (Some i = None)) && asleep_on boot_sched (Some ("ticks", 0%nat)) i
      then Some RUNNABLE else state_at boot_sched i.
Proof.
  destruct (si_inv _ boot_inv) as [q HI]. 
  apply (wakeup_wakes boot_sched q [] [] (Some ("ticks", 0%nat)) None); [exact HI|reflexivity].
Defined.

(** [kill] marks the first process with the given pid and, if it sleeps,
    puts it back on the run queue; it returns 0, or -1 without any effect when
    no process has that pid. *)
Theorem kill_marks s q owned w target : Inv s q owned →
  ∃ r s' q', kill target (World [] w s) = Done r (World [] w s') ∧ Inv s' q' owned ∧
    match list_find (λ i, pid_at s i = Some target) (seq 0 NPROC) with
    | None => r = -1 ∧ s' = s
    | Some (_, i) => r = 0 ∧ kill_effect s i s'
    end.
Proof.
  intros HI. pose proof (kill_from_safe (seq 0 NPROC) s q owned w target HI seq_below) as H.
  apply wp_done in H as (r & w' & E & s' & -> & _ & q' & HI' & Hk). eauto 10.
Qed.
Lemma kill_marks_witness : ∃ r s' q',
  kill 7 (World [] [] boot_sched) = Done r (World [] [] s') ∧ Inv s' q' [] ∧ r = -1 ∧ s' = boot_sched.
Proof.
  destruct (si_inv _ boot_inv) as [q HI]. exact (kill_marks boot_sched q [] [] 7 HI).
Defined.

(** [checkPreemption] says 1 exactly when the running process has used its
    slice and at least the minimum granularity, or a runnable process with a
    smaller virtual runtime waits and the running one has just started or has
    used the minimum granularity; otherwise it says 0. *)
Theorem checkPreemption_exact s i pr m h w :
  procs s !! i = Some pr → (∀ j, m = Some j → is_Some (procs s !! j)) →
  ∃ b : bool, checkPreemption (Some i) m (World h w s) = Done (if b then 1 else 0) (World h w s) ∧
    (b = true ↔
      (maximumExecutiontime pr ≤ currentRuntime pr ∧ min_granularity ≤ currentRuntime pr) ∨
      (∃ j pj, m = Some j ∧ procs s !! j = Some pj ∧ state pj = RUNNABLE ∧
         virtualRuntime pj < virtualRuntime pr ∧
         (currentRuntime pr = 0 ∨ min_granularity ≤ currentRuntime pr))).
Proof.
  intros Hi Hm. unfold checkPreemption, bind, rd, ret, andM. do 3 (cbn [st]; rewrite ?Hi).
  destruct (Z.geb_spec (currentRuntime pr) (maximumExecutiontime pr));
    destruct (Z.geb_spec (currentRuntime pr) min_granularity); cbn [andb];
    [exists true; split; [done|]; split; [intros _; left; lia|done]|..];
    (destruct m as [j|];
     [destruct (Hm j eq_refl) as [pj Hj]; rewrite bool_decide_eq_true_2 by done; cbn [st]; rewrite Hj; cbn [st];
      destruct (decide (state pj = RUNNABLE)) as [Hs|Hs];
      [rewrite bool_decide_eq_true_2 by done; do 3 (cbn [st]; rewrite ?Hi, ?Hj);
       destruct (Z.gtb_spec (virtualRuntime pr) (virtualRuntime pj))
      |rewrite bool_decide_eq_false_2 by done]
     |rewrite bool_decide_eq_false_2 by naive_solver]);
    try (exists false; split; [done|]; split; [done|];
         intros [?|(j' & pj' & [= <-] & Hj' & Hs' & ? & ?)]; [lia|simplify_eq; lia || congruence]);
    destruct (Z.eqb_spec (currentRuntime pr) 0); cbn [negb andb];
    first [exists true; split; [done|]; split; [intros _; right; exists j, pj; split_and!; [done..|lia|lia]|done]
          |exists false; split; [done|]; split; [done|];
           intros [?|(j' & pj' & [= <-] & Hj' & Hs' & ? & [?|?])]; [lia|simplify_eq; lia..]].
Qed.
Lemma checkPreemption_exact_witness :
  let pr := proc0 <| state := RUNNABLE |> <| virtualRuntime := 7 |> in ∃ b : bool,
  checkPreemption (Some 1%nat) (Some 3%nat) (World [] [] demo) = Done (if b then 1 else 0) (World [] [] demo) ∧
    (b = true ↔
      (maximumExecutiontime pr ≤ currentRuntime pr ∧ min_granularity ≤ currentRuntime pr) ∨
      (∃ j pj, Some 3%nat = Some j ∧ procs demo !! j = Some pj ∧ state pj = RUNNABLE ∧
         virtualRuntime pj < virtualRuntime pr ∧
         (currentRuntime pr = 0 ∨ min_granularity ≤ currentRuntime pr))).
Proof.
  intros pr. apply (checkPreemption_exact demo 1 pr (Some 3%nat) [] []); [reflexivity|].
  intros j [= <-]. eexists. reflexivity.
Defined.

(** ** Changing the nice value *)
Lemma chprio_from_hit l s i pr target prio h w :
  (∃ n, list_find (λ j, pid_at s j = Some target) l = Some (n, i)) → procs s !! i = Some pr →
  Forall (λ j, is_Some (procs s !! j)) l →
  wp (chprio_from l target prio) (λ _ w', w' = World h w
      (s <| procs ::= <[i := pr <| niceValue := prio |>]> |>
         <| procs ::= <[i := pr <| niceValue := prio |> <| weightValue := calculateWeight prio |>]> |>))
    (World h w s).
Proof.
  intros [n Hf] Hi Hl. revert n Hf. induction l as [|j l IH]; intros n Hf; [done|].
  inversion Hl as [|? ? [pj Hj] Hl']; subst. cbn [chprio_from]. wp_step. wp_step.
  cbn [list_find] in Hf. assert (pid_at s j = Some (pid pj)) as Hpid by (unfold pid_at; by rewrite Hj).
  destruct (Z.eqb_spec (pid pj) target) as [E|E].
  - rewrite decide_True in Hf by congruence. simplify_eq. wp_step. wp_step. wp_step. wp_step. by wp_step.
  - rewrite decide_False in Hf by congruence. destruct (list_find _ l) as [[n' j']|] eqn:Hl2; [|done].
    simplify_eq/=. by eapply IH.
Qed.
Lemma procs_rows_spec l s w : Forall (λ j, is_Some (procs s !! j)) l →
  wp (procs_rows l) (λ _ w', w' = World [] w s) (World [] w s).
Proof.
  induction 1 as [|j l [pj Hj] Hl IH]; cbn [procs_rows]; [by apply wp_ret|].
  apply wp_bind, wp_acquire; [set_solver|]. wp_step. wp_step. apply wp_bind, wp_release; [set_solver|].
  wp_step. eapply wp_mono; [exact IH|]. intros rows ? ->. by apply wp_ret.
Qed.
Lemma weights_update s s' q i : NoDup q → i ∈ q → (∀ j, j ≠ i → weight s' j = weight s j) →
  weights s' q = weights s q - weight s i + weight s' i.
Proof.
  intros Hnd Hi Hw. apply list_elem_of_split in Hi as (q1 & q2 & ->).
  apply NoDup_app in Hnd as (_ & Hd & [Hi2 _]%NoDup_cons).
  assert (q1 ++ i :: q2 ≡ₚ i :: q1 ++ q2) as Hp by (by rewrite Permutation_middle).
  rewrite !(weights_perm _ _ _ Hp). simpl.
  rewrite (weights_ext s s' (q1 ++ q2)); [lia|]. intros j Hj. apply Hw. intros ->.
  apply elem_of_app in Hj as [Hj|Hj]; [apply (Hd i Hj); set_solver|done].
Qed.

(** C37: [chprio] on a queued process changes its weight but not the weight the
    tree header holds: afterwards the header is off by the difference, so the
    next time slice is computed from a wrong total. *)
Theorem chprio_stale_total s q i n target prio w :
  RQ s q → i ∈ q → list_find (λ j, pid_at s j = Some target) (seq 0 NPROC) = Some (n, i) →
  ∃ s', chprio target prio (World [] w s) = Done target (World [] w s') ∧
    rbTreeWeight (rbTree s') = weights s q ∧
    weights s' q = weights s q - weight s i + calculateWeight prio.
Proof.
  intros HQ Hi Hf.
  assert (Forall (λ j, is_Some (procs s !! j)) (seq 0 NPROC)) as Hall.
  { apply Forall_forall. intros j Hj%elem_of_seq. apply lookup_lt_is_Some. rewrite (rq_len _ _ HQ). lia. }
  destruct (lookup_lt_is_Some_2 (procs s) i) as [pr Hp]; [rewrite (rq_len _ _ HQ); by eapply rq_bound|].
  assert (i < length (procs s))%nat as Hlt by (by eapply lookup_lt_Some).
  assert (wp (chprio target prio) (λ r w', r = target ∧ ∃ s', w' = World [] w s' ∧
    rbTreeWeight (rbTree s') = weights s q ∧
    weights s' q = weights s q - weight s i + calculateWeight prio) (World [] w s)) as H.
  { unfold chprio, procs_listing. apply wp_bind. eapply wp_mono; [eapply chprio_from_hit; eauto|].
    intros _ ? ->. wp_step. wp_step. eapply wp_mono; [apply procs_rows_spec|].
    - eapply Forall_impl; [exact Hall|]. intros j [pj Hj]. simpl. apply lookup_lt_is_Some.
      rewrite !length_insert. by eapply lookup_lt_Some.
    - intros rows ? ->. wp_step. apply wp_ret. split; [done|]. eexists. split; [done|].
      split; [apply HQ|]. rewrite (weights_update s _ q i); [|apply HQ|done|].
      + f_equal. unfold weight. simpl. by rewrite list_lookup_insert_eq by (by rewrite length_insert).
      + intros j Hj. unfold weight. simpl. by rewrite !list_lookup_insert_ne by done. }
  apply wp_done in H as (r & w' & E & -> & s' & -> & ?). eauto.
Qed.
(** A process queued with nice 30 (weight 1) and then set to nice 0 (weight 819). *)
Definition demo0 : sched :=
  demo <| procs ::= <[5%nat := proc0 <| state := RUNNABLE |> <| pid := 9 |> <| niceValue := 30 |>]> |>.
Definition demo_nice : sched := final (insertProcess (Some 5%nat)) (World [] [] demo0).
Lemma RQ_demo_nice : RQ demo_nice [5%nat].
Proof.
  destruct demo_lookup as (px & Hx & _).
  assert (RQ demo0 []) as HQ0 by (eapply RQ_wr_gen; [exact RQ_demo|exact Hx|set_solver|done]).
  apply (wp_final (λ s, RQ s [5%nat]) [] []).
  destruct (lookup_lt_is_Some_2 (procs demo0) 5) as [p0 H0]; [rewrite (rq_len _ _ HQ0); unfold NPROC; lia|].
  eapply wp_mono; [apply (insertProcess_spec demo0 [] 5 p0); [exact HQ0|exact H0|set_solver|set_solver]|].
  intros _ w (s' & -> & HQ & _). exists s'. split; [done|]. exact HQ.
Qed.
Lemma chprio_stale_total_witness : ∃ s',
  chprio 9 0 (World [] [] demo_nice) = Done 9 (World [] [] s') ∧
    rbTreeWeight (rbTree s') = weights demo_nice [5%nat] ∧
    weights s' [5%nat] = weights demo_nice [5%nat] - weight demo_nice 5 + calculateWeight 0.
Proof.
  apply (chprio_stale_total demo_nice [5%nat] 5 5 9 0 []);
    [exact RQ_demo_nice|apply list_elem_of_here|vm_compute; reflexivity].
Defined.
