(* ===== verification/CString.v ===== *)
(** * Bytes in memory: kernel/string.c

    Memory is a map from addresses to bytes (an address never written holds 0).
    The routines of string.c are translated loop by loop; their specifications
    read the result byte by byte, overlap included. *)
From S2P Require Import Prelude.

(** ** Memory *)
Abbreviation mem := (gmap Z Z).
Definition rdb (m : mem) (a : Z) : Z := u8 (default 0 (m !! a)).
Definition wrb (m : mem) (a v : Z) : mem := <[a := u8 v]> m.

Lemma u8_idem z : u8 (u8 z) = u8 z.
Proof. apply u8_small, u8_range. Qed.
Lemma rdb_range m a : 0 ≤ rdb m a < 256.
Proof. apply u8_range. Qed.
Lemma u8_rdb m a : u8 (rdb m a) = rdb m a.
Proof. apply u8_idem. Qed.
Lemma rdb_wrb m a v b : rdb (wrb m a v) b = if decide (a = b) then u8 v else rdb m b.
Proof.
  unfold rdb, wrb. case_decide; [subst; rewrite lookup_insert_eq; apply u8_idem|].
  by rewrite lookup_insert_ne.
Qed.

(** ** The routines *)
Fixpoint memset_loop (m : mem) (cdst c i : Z) (k : nat) : mem :=
  match k with
  | O => m
  | S k => memset_loop (wrb m (cdst + i) c) cdst c (i + 1) k
  end.
Definition memset (m : mem) (dst c n : Z) : mem := memset_loop m dst c 0 (Z.to_nat n).

Fixpoint memcmp_loop (m : mem) (s1 s2 : Z) (n : nat) : Z :=
  match n with
  | O => 0
  | S n =>
      if negb (rdb m s1 =? rdb m s2) then rdb m s1 - rdb m s2
      else memcmp_loop m (s1 + 1) (s2 + 1) n
  end.
Definition memcmp (m : mem) (v1 v2 n : Z) : Z := memcmp_loop m v1 v2 (Z.to_nat n).

Fixpoint copy_back (m : mem) (d s : Z) (n : nat) : mem :=
  match n with
  | O => m
  | S n => copy_back (wrb m (d - 1) (rdb m (s - 1))) (d - 1) (s - 1) n
  end.
Fixpoint copy_fwd (m : mem) (d s : Z) (n : nat) : mem :=
  match n with
  | O => m
  | S n => copy_fwd (wrb m d (rdb m s)) (d + 1) (s + 1) n
  end.
Definition memmove (m : mem) (dst src n : Z) : mem :=
  if n =? 0 then m
  else if (src <? dst) && (src + n >? dst) then copy_back m (dst + n) (src + n) (Z.to_nat n)
  else copy_fwd m dst src (Z.to_nat n).
Definition memcpy (m : mem) (dst src n : Z) : mem := memmove m dst src n.

Fixpoint strncmp_loop (m : mem) (p q : Z) (n : nat) : Z :=
  match n with
  | O => 0
  | S n =>
      if negb (rdb m p =? 0) && (rdb m p =? rdb m q) then strncmp_loop m (p + 1) (q + 1) n
      else rdb m p - rdb m q
  end.
Definition strncmp (m : mem) (p q n : Z) : Z := strncmp_loop m p q (Z.to_nat n).

(** The second loop of [strncpy]; the test of the first one has already
    decremented [n] when it stops at a NUL. *)
Fixpoint zero_fill (m : mem) (s : Z) (n : nat) : mem :=
  match n with
  | O => m
  | S n => zero_fill (wrb m s 0) (s + 1) n
  end.
Fixpoint strncpy_loop (m : mem) (s t : Z) (n : nat) : mem :=
  match n with
  | O => m
  | S n =>
      let c := rdb m t in
      let m := wrb m s c in
      if c =? 0 then zero_fill m (s + 1) n else strncpy_loop m (s + 1) (t + 1) n
  end.
Definition strncpy (m : mem) (s t n : Z) : mem := strncpy_loop m s t (Z.to_nat n).

Fixpoint safestrcpy_loop (m : mem) (s t : Z) (n : nat) : mem :=
  match n with
  | O => wrb m s 0
  | S n =>
      let c := rdb m t in
      let m := wrb m s c in
      if c =? 0 then wrb m (s + 1) 0 else safestrcpy_loop m (s + 1) (t + 1) n
  end.
Definition safestrcpy (m : mem) (s t n : Z) : mem :=
  if n <=? 0 then m else safestrcpy_loop m s t (Z.to_nat (n - 1)).

(** [strlen] runs until it sees a NUL: [None] if there is none within [fuel]. *)
Fixpoint strlen_loop (m : mem) (s n : Z) (fuel : nat) : option Z :=
  match fuel with
  | O => None
  | S fuel => if rdb m (s + n) =? 0 then Some n else strlen_loop m s (n + 1) fuel
  end.
Definition strlen (m : mem) (s : Z) (fuel : nat) : option Z := strlen_loop m s 0 fuel.

(** ** Specifications *)
Definition within (lo n a : Z) : bool := (lo <=? a) && (a <? lo + n).
Lemma within_spec lo n a : within lo n a = true ↔ lo ≤ a < lo + n.
Proof. unfold within. rewrite andb_true_iff, Z.leb_le, Z.ltb_lt. done. Qed.
Lemma within_false lo n a : within lo n a = false ↔ ¬ (lo ≤ a < lo + n).
Proof. rewrite <-within_spec. by destruct (within lo n a). Qed.
(** Case analysis on the range tests of a goal. *)
Ltac within_cases :=
  repeat match goal with
  | |- context [within ?l ?n ?a] =>
      let E := fresh "Hw" in destruct (within l n a) eqn:E;
      [apply within_spec in E|apply within_false in E]
  | |- context [decide (?a = ?b)] => destruct (decide (a = b))
  end; subst; try lia; try done.

Lemma memset_loop_spec m d c i k a :
  rdb (memset_loop m d c i k) a = if within (d + i) (Z.of_nat k) a then u8 c else rdb m a.
Proof.
  revert m i. induction k as [|k IH]; intros m i; cbn [memset_loop]; [within_cases|].
  rewrite IH, rdb_wrb. within_cases.
Qed.
Lemma rdb_memset m d c n a : 0 ≤ n →
  rdb (memset m d c n) a = if within d n a then u8 c else rdb m a.
Proof. intros. unfold memset. rewrite memset_loop_spec. within_cases. Qed.

Lemma copy_back_spec n m d s a : s < d →
  rdb (copy_back m d s n) a =
    if within (d - Z.of_nat n) (Z.of_nat n) a then rdb m (a - d + s) else rdb m a.
Proof.
  revert m d s. induction n as [|n IH]; intros m d s Hlt; cbn [copy_back]; [within_cases|].
  rewrite IH, !rdb_wrb by lia. rewrite u8_rdb.
  within_cases; f_equal; lia.
Qed.
Lemma copy_fwd_spec n m d s a : ¬ (s < d ∧ d < s + Z.of_nat n) →
  rdb (copy_fwd m d s n) a =
    if within d (Z.of_nat n) a then rdb m (a - d + s) else rdb m a.
Proof.
  revert m d s. induction n as [|n IH]; intros m d s Hlt; cbn [copy_fwd]; [within_cases|].
  rewrite IH, !rdb_wrb by lia. rewrite u8_rdb.
  within_cases; f_equal; lia.
Qed.
Lemma rdb_memmove m d s n a : 0 ≤ n →
  rdb (memmove m d s n) a = if within d n a then rdb m (a - d + s) else rdb m a.
Proof.
  intros Hn. unfold memmove. destruct (Z.eqb_spec n 0); [within_cases|].
  destruct (Z.ltb_spec s d), (Z.gtb_spec (s + n) d); cbn [andb];
    rewrite ?copy_back_spec, ?copy_fwd_spec by lia; within_cases; f_equal; lia.
Qed.

Lemma memcmp_loop_zero m n : ∀ p q,
  memcmp_loop m p q n = 0 ↔ ∀ i, 0 ≤ i < Z.of_nat n → rdb m (p + i) = rdb m (q + i).
Proof.
  induction n as [|n IH]; intros p q; cbn [memcmp_loop]; [split; [lia|done]|].
  destruct (Z.eqb_spec (rdb m p) (rdb m q)) as [E|E]; cbn [negb].
  - rewrite IH. split; intros H i Hi.
    + destruct (decide (i = 0)) as [->|]; [by rewrite !Z.add_0_r|].
      specialize (H (i - 1)). replace (p + 1 + (i - 1)) with (p + i) in H by lia.
      replace (q + 1 + (i - 1)) with (q + i) in H by lia. apply H. lia.
    + specialize (H (i + 1)). replace (p + (i + 1)) with (p + 1 + i) in H by lia.
      replace (q + (i + 1)) with (q + 1 + i) in H by lia. apply H. lia.
  - split; [lia|]. intros H. specialize (H 0). rewrite !Z.add_0_r in H. lia.
Qed.

(** The C string at [p], cut at [n] bytes. *)
Fixpoint cstr (m : mem) (p : Z) (n : nat) : list Z :=
  match n with
  | O => []
  | S n => if rdb m p =? 0 then [] else rdb m p :: cstr m (p + 1) n
  end.
Lemma cstr_ext m m' p n :
  (∀ a, p ≤ a < p + Z.of_nat n → rdb m' a = rdb m a) → cstr m' p n = cstr m p n.
Proof.
  revert p. induction n as [|n IH]; intros p H; cbn [cstr]; [done|].
  rewrite H by lia. case_match; [done|]. f_equal. apply IH. intros a Ha. apply H. lia.
Qed.
Lemma cstr_length m p n : (length (cstr m p n) ≤ n)%nat.
Proof.
  revert p. induction n as [|n IH]; intros p; cbn [cstr]; [done|].
  case_match; simpl; [lia|]. specialize (IH (p + 1)). lia.
Qed.

Lemma strncmp_loop_zero m n : ∀ p q, strncmp_loop m p q n = 0 ↔ cstr m p n = cstr m q n.
Proof.
  induction n as [|n IH]; intros p q; cbn [strncmp_loop cstr]; [done|].
  destruct (Z.eqb_spec (rdb m p) 0) as [Ep|Ep], (Z.eqb_spec (rdb m q) 0) as [Eq|Eq],
    (Z.eqb_spec (rdb m p) (rdb m q)) as [E|E]; cbn [negb andb]; try (split; [lia|congruence]); try lia.
  - rewrite Ep, Eq. done.
  - rewrite IH, E. split; [by intros ->|by intros [= ?]].
Qed.

Definition disjoint (s t n : Z) : Prop := s + n ≤ t ∨ t + n ≤ s.

Lemma zero_fill_spec n m s a :
  rdb (zero_fill m s n) a = if within s (Z.of_nat n) a then 0 else rdb m a.
Proof.
  revert m s. induction n as [|n IH]; intros m s; cbn [zero_fill]; [within_cases|].
  rewrite IH, rdb_wrb. within_cases.
Qed.
Lemma nth_shift (l : list Z) s a x : s < a →
  nth (Z.to_nat (a - (s + 1))) l 0 = nth (Z.to_nat (a - s)) (x :: l) 0.
Proof. intros. replace (Z.to_nat (a - s)) with (S (Z.to_nat (a - (s + 1)))) by lia. done. Qed.
Lemma nth_nil_0 k : nth k [] 0 = 0.
Proof. by destruct k. Qed.

Lemma strncpy_loop_spec n : ∀ m s t a, disjoint s t (Z.of_nat n) →
  rdb (strncpy_loop m s t n) a =
    if within s (Z.of_nat n) a then nth (Z.to_nat (a - s)) (cstr m t n) 0 else rdb m a.
Proof.
  induction n as [|n IH]; intros m s t a Hd; cbn [strncpy_loop cstr]; [within_cases|].
  unfold disjoint in Hd. destruct (Z.eqb_spec (rdb m t) 0) as [E|E].
  - rewrite zero_fill_spec, rdb_wrb, E. within_cases; by rewrite ?nth_nil_0.
  - rewrite IH by (unfold disjoint; lia). rewrite rdb_wrb, u8_rdb.
    rewrite (cstr_ext m) by (intros; rewrite rdb_wrb; within_cases).
    within_cases; first [apply nth_shift; lia|by rewrite Z.sub_diag].
Qed.
Lemma safestrcpy_loop_spec n : ∀ m s t, disjoint s t (Z.of_nat (S n)) →
  cstr (safestrcpy_loop m s t n) s (S n) = cstr m t n ∧
  (∀ a, ¬ s ≤ a < s + Z.of_nat (S n) → rdb (safestrcpy_loop m s t n) a = rdb m a).
Proof.
  induction n as [|n IH]; intros m s t Hd; cbn [safestrcpy_loop]; unfold disjoint in Hd.
  { cbn [cstr]. rewrite rdb_wrb, decide_True by done. split; [done|].
    intros a Ha. rewrite rdb_wrb. within_cases. }
  destruct (Z.eqb_spec (rdb m t) 0) as [E|E].
  - split.
    + cbn [cstr]. rewrite !rdb_wrb, E, decide_False, decide_True by lia. done.
    + intros a Ha. rewrite !rdb_wrb. within_cases.
  - destruct (IH (wrb m s (rdb m t)) (s + 1) (t + 1)) as [H1 H2]; [unfold disjoint; lia|]. split.
    + remember (S n) as k eqn:Ek.
      assert (rdb (safestrcpy_loop (wrb m s (rdb m t)) (s + 1) (t + 1) n) s = rdb m t) as Hs.
      { rewrite H2, rdb_wrb, u8_rdb by lia. within_cases. }
      cbn [cstr]. rewrite Hs, H1. subst k. cbn [cstr].
      destruct (Z.eqb_spec (rdb m t) 0); [done|]. f_equal.
      apply cstr_ext. intros a Ha. rewrite rdb_wrb. within_cases.
    + intros a Ha. rewrite H2, rdb_wrb by lia. within_cases.
Qed.
Lemma strlen_loop_spec m s fuel : ∀ n, strlen_loop m s n fuel =
  if decide (length (cstr m (s + n) fuel) < fuel)%nat
  then Some (n + Z.of_nat (length (cstr m (s + n) fuel))) else None.
Proof.
  induction fuel as [|fuel IH]; intros n; cbn [strlen_loop cstr]; [by rewrite decide_False by (simpl; lia)|].
  destruct (Z.eqb_spec (rdb m (s + n)) 0).
  - rewrite decide_True by (simpl; lia). simpl. f_equal. lia.
  - rewrite IH. replace (s + (n + 1)) with (s + n + 1) by lia. cbn [length].
    repeat case_decide; try lia; [|done]. f_equal. lia.
Qed.

(** ** The properties *)

(** [memmove] copies as if through a temporary buffer, whether or not the
    regions overlap and in whichever direction, and touches nothing outside the
    destination. *)
Theorem memmove_correct m dst src n a : 0 ≤ n →
  rdb (memmove m dst src n) a = if within dst n a then rdb m (src + (a - dst)) else rdb m a.
Proof. intros Hn. rewrite rdb_memmove by done. within_cases. f_equal. lia. Qed.
Lemma memmove_correct_witness :
  rdb (memmove (memset ∅ 100 7 8) 104 100 8) 111 = if within 104 8 111 then
    rdb (memset ∅ 100 7 8) (100 + (111 - 104)) else rdb (memset ∅ 100 7 8) 111.
Proof. apply (memmove_correct (memset ∅ 100 7 8) 104 100 8 111). lia. Defined.

(** [safestrcpy] into a buffer of [n] > 0 bytes that does not overlap the
    source always leaves a NUL-terminated string within the buffer, equal to the
    source string cut at [n - 1] bytes, and writes nothing else. *)
Theorem safestrcpy_terminates m s t n : 0 < n → disjoint s t n →
  cstr (safestrcpy m s t n) s (Z.to_nat n) = cstr m t (Z.to_nat (n - 1)) ∧
  (length (cstr (safestrcpy m s t n) s (Z.to_nat n)) < Z.to_nat n)%nat ∧
  ∀ a, within s n a = false → rdb (safestrcpy m s t n) a = rdb m a.
Proof.
  intros Hn Hd. unfold safestrcpy. destruct (Z.leb_spec n 0); [lia|].
  assert (Z.to_nat n = S (Z.to_nat (n - 1))) as E by lia.
  destruct (safestrcpy_loop_spec (Z.to_nat (n - 1)) m s t) as [H1 H2].
  { by replace (Z.of_nat (S (Z.to_nat (n - 1)))) with n by lia. }
  rewrite E, H1. split; [done|]. split; [pose proof (cstr_length m t (Z.to_nat (n - 1))); lia|].
  intros a Ha%within_false. apply H2. lia.
Qed.
Lemma safestrcpy_terminates_witness :
  cstr (safestrcpy (memset ∅ 10 65 9) 200 10 4) 200 4 = cstr (memset ∅ 10 65 9) 10 3 ∧
  (length (cstr (safestrcpy (memset ∅ 10 65 9) 200 10 4) 200 4) < 4)%nat ∧
  ∀ a, within 200 4 a = false → rdb (safestrcpy (memset ∅ 10 65 9) 200 10 4) a = rdb (memset ∅ 10 65 9) a.
Proof. apply (safestrcpy_terminates (memset ∅ 10 65 9) 200 10 4); [lia|right; lia]. Defined.

(** [strncpy] copies the source up to its NUL and fills the rest of the
    [n] bytes with NULs. *)
Theorem strncpy_pads m s t n a : 0 ≤ n → disjoint s t n →
  rdb (strncpy m s t n) a =
    if within s n a then nth (Z.to_nat (a - s)) (cstr m t (Z.to_nat n)) 0 else rdb m a.
Proof.
  intros Hn Hd. unfold strncpy. rewrite strncpy_loop_spec; [|by rewrite Z2Nat.id].
  by rewrite Z2Nat.id.
Qed.
Lemma strncpy_pads_witness : rdb (strncpy (memset ∅ 10 65 3) 200 10 14) 205 =
  if within 200 14 205 then nth (Z.to_nat (205 - 200)) (cstr (memset ∅ 10 65 3) 10 14) 0
  else rdb (memset ∅ 10 65 3) 205.
Proof. apply (strncpy_pads (memset ∅ 10 65 3) 200 10 14 205); [lia|right; lia]. Defined.

(** [strncmp] is zero exactly when the two strings, cut at [n] bytes, are
    equal, and [memcmp] exactly when all [n] bytes are. *)
Theorem compare_zero m p q n : 0 ≤ n →
  (strncmp m p q n = 0 ↔ cstr m p (Z.to_nat n) = cstr m q (Z.to_nat n)) ∧
  (memcmp m p q n = 0 ↔ ∀ i, 0 ≤ i < n → rdb m (p + i) = rdb m (q + i)).
Proof.
  intros Hn. split; [apply strncmp_loop_zero|]. unfold memcmp. rewrite memcmp_loop_zero.
  by rewrite Z2Nat.id.
Qed.
Lemma compare_zero_witness :
  (strncmp (memset ∅ 10 65 9) 10 11 4 = 0 ↔ cstr (memset ∅ 10 65 9) 10 4 = cstr (memset ∅ 10 65 9) 11 4) ∧
  (memcmp (memset ∅ 10 65 9) 10 11 4 = 0 ↔
     ∀ i, 0 ≤ i < 4 → rdb (memset ∅ 10 65 9) (10 + i) = rdb (memset ∅ 10 65 9) (11 + i)).
Proof. apply (compare_zero (memset ∅ 10 65 9) 10 11 4). lia. Defined.
