(* ===== verification/Mem.v ===== *)
(** * Words in memory

    Little-endian loads and stores of [k] bytes (riscv64 is little-endian). *)
From S2P Require Import Prelude CString.

Fixpoint ld (k : nat) (m : mem) (a : Z) : Z :=
  match k with
  | O => 0
  | S k => rdb m a + 256 * ld k m (a + 1)
  end.
Fixpoint sto (k : nat) (m : mem) (a v : Z) : mem :=
  match k with
  | O => m
  | S k => sto k (wrb m a v) (a + 1) (v / 256)
  end.
Abbreviation ld64 := (ld 8).
Abbreviation st64 := (sto 8).
Abbreviation ld32 := (ld 4).
Abbreviation st32 := (sto 4).
Abbreviation ld16 := (ld 2).
Abbreviation st16 := (sto 2).

Lemma ld_range k m a : 0 ≤ ld k m a < 256 ^ Z.of_nat k.
Proof.
  revert a. induction k as [|k IH]; intros a; cbn [ld]; [simpl; lia|].
  specialize (IH (a + 1)). pose proof (rdb_range m a).
  rewrite Nat2Z.inj_succ, Z.pow_succ_r by lia. lia.
Qed.
Lemma ld_ext k m m' a :
  (∀ b, a ≤ b < a + Z.of_nat k → rdb m' b = rdb m b) → ld k m' a = ld k m a.
Proof.
  revert a. induction k as [|k IH]; intros a H; cbn [ld]; [done|].
  rewrite H by lia. rewrite IH; [done|]. intros b Hb. apply H. lia.
Qed.
Lemma rdb_sto k : ∀ m a v b, ¬ a ≤ b < a + Z.of_nat k → rdb (sto k m a v) b = rdb m b.
Proof.
  induction k as [|k IH]; intros m a v b Hb; cbn [sto]; [done|].
  rewrite IH by lia. rewrite rdb_wrb, decide_False by lia. done.
Qed.
Lemma ld_sto_other k j m a v b :
  b + Z.of_nat j ≤ a ∨ a + Z.of_nat k ≤ b → ld j (sto k m a v) b = ld j m b.
Proof. intros H. apply ld_ext. intros c Hc. apply rdb_sto. lia. Qed.
Lemma ld_sto_same k : ∀ m a v, ld k (sto k m a v) a = v mod 256 ^ Z.of_nat k.
Proof.
  induction k as [|k IH]; intros m a v; cbn [ld sto]; [by rewrite Z.mod_1_r|].
  rewrite IH, rdb_sto, rdb_wrb, decide_True by (done || lia).
  rewrite Nat2Z.inj_succ, Z.pow_succ_r by lia. rewrite Z.rem_mul_r by (try apply Z.pow_pos_nonneg; lia). done.
Qed.
#[global] Arguments ld : simpl never.
#[global] Arguments sto : simpl never.
Lemma ld64_st64 m a v : 0 ≤ v < 2 ^ 64 → ld64 (st64 m a v) a = v.
Proof. intros Hv. rewrite ld_sto_same. apply Z.mod_small. exact Hv. Qed.
Lemma ld32_st32 m a v : 0 ≤ v < 2 ^ 32 → ld32 (st32 m a v) a = v.
Proof. intros Hv. rewrite ld_sto_same. apply Z.mod_small. exact Hv. Qed.
Lemma ld64_range m a : 0 ≤ ld64 m a < 2 ^ 64.
Proof. apply (ld_range 8 m a). Qed.
