(* ===== verification/Kalloc.v ===== *)
(** * Physical memory allocator: kernel/kalloc.c

    The free list is threaded through the free pages themselves: the first
    eight bytes of a free page hold the address of the next one. *)
From S2P Require Import Prelude Param CString Mem.

Section kalloc.
(** [end], the first address after the kernel, is set by kernel.ld. *)
Context (kend : Z).

Record kmem := mkKmem { freelist : Z; ram : mem }.
#[export] Instance eta_kmem : Settable kmem := λ k, mkKmem (freelist k) (ram k).
Definition kmem_lock : lock := ("kmem", 0%nat).

(** Stores and loads of the C code. *)
Definition load64 (a : Z) : M kmem Z := gets (λ s, ld64 (ram s) a).
Definition store64 (a v : Z) : M kmem unit := modify (λ s, s <| ram ::= λ m, st64 m a v |>).
Definition do_memset (a c n : Z) : M kmem unit := modify (λ s, s <| ram ::= λ m, memset m a c n |>).

Definition kfree (pa : Z) : M kmem unit :=
  when (negb (pa mod PGSIZE =? 0) || (pa <? kend) || (pa >=? PHYSTOP)) (panic "kfree");;
  do_memset pa 1 PGSIZE;;
  acquire kmem_lock;;
  next ← gets freelist;
  store64 pa next;;
  modify (λ s, s <| freelist := pa |>);;
  release kmem_lock.

Definition kalloc : M kmem Z :=
  acquire kmem_lock;;
  r ← gets freelist;
  when (negb (r =? 0)) (next ← load64 r; modify (λ s, s <| freelist := next |>));;
  release kmem_lock;;
  when (negb (r =? 0)) (do_memset r 5 PGSIZE);;
  ret r.

(** [n] bounds the number of pages: PHYSTOP / PGSIZE is enough. *)
Fixpoint freerange_loop (n : nat) (p pa_end : Z) : M kmem unit :=
  match n with
  | O => timeout
  | S n =>
      if p + PGSIZE <=? pa_end then kfree p;; freerange_loop n (p + PGSIZE) pa_end
      else ret ()
  end.
Definition page_fuel : nat := Z.to_nat (PHYSTOP / PGSIZE + 1).
Definition freerange (pa_start pa_end : Z) : M kmem unit :=
  freerange_loop page_fuel (PGROUNDUP pa_start) pa_end.
Definition kinit : M kmem unit := freerange kend PHYSTOP.

(** ** The free list *)
Definition page_ok (pa : Z) : Prop := pa mod PGSIZE = 0 ∧ kend ≤ pa < PHYSTOP ∧ 0 < pa.

(** The list of free pages that starts at [p]. *)
Fixpoint chain (m : mem) (p : Z) (l : list Z) : Prop :=
  match l with
  | [] => p = 0
  | a :: l => p = a ∧ page_ok a ∧ chain m (ld64 m a) l
  end.
Definition KA (s : kmem) (l : list Z) : Prop := chain (ram s) (freelist s) l ∧ NoDup l.

(** Pages do not overlap. *)
Lemma page_disjoint a b : a mod PGSIZE = 0 → b mod PGSIZE = 0 → a ≠ b →
  a + PGSIZE ≤ b ∨ b + PGSIZE ≤ a.
Proof.
  unfold PGSIZE. intros Ha Hb Hne. apply Z.div_exact in Ha; [|lia]. apply Z.div_exact in Hb; [|lia]. lia.
Qed.
Lemma chain_ext m m' p l :
  (∀ a b, a ∈ l → a ≤ b < a + 8 → rdb m' b = rdb m b) → chain m p l → chain m' p l.
Proof.
  revert p. induction l as [|a l IH]; intros p H; [done|]. intros (-> & Ha & Hl).
  split; [done|]. split; [done|]. rewrite (ld_ext 8 m m') by (intros; apply (H a); [set_solver|lia]).
  apply IH; [|done]. intros a' b Ha'. apply H. set_solver.
Qed.
Lemma chain_ok m p l a : chain m p l → a ∈ l → page_ok a.
Proof.
  revert p. induction l as [|b l IH]; intros p; simpl; [set_solver|].
  intros (-> & Hb & Hl) [->|Ha]%elem_of_cons; [done|eauto].
Qed.

Lemma kfree_spec s l pa h w : KA s l → page_ok pa → pa ∉ l → kmem_lock ∉ h →
  wp (kfree pa) (λ _ w', ∃ s', w' = World h w s' ∧ KA s' (pa :: l) ∧
      ∀ b, ¬ pa ≤ b < pa + PGSIZE → rdb (ram s') b = rdb (ram s) b) (World h w s).
Proof.
  intros [Hc Hnd] Hpa Hl Hh. pose proof Hpa as (Hal & Hrange & Hpos). unfold kfree.
  apply wp_bind, wp_when. rewrite Hal. cbn [negb].
  destruct (Z.ltb_spec pa kend); [lia|]. destruct (Z.geb_spec pa PHYSTOP); [lia|]. cbn [orb negb Z.eqb].
  apply wp_bind, wp_modify. apply wp_bind, wp_acquire; [done|]. apply wp_bind, wp_gets.
  apply wp_bind, wp_modify. apply wp_bind, wp_modify. apply wp_release; [done|].
  cbn [freelist st set_field].
  assert (0 ≤ freelist s < 2 ^ 64) as Hf.
  { destruct l as [|a l]; simpl in Hc; [lia|]. destruct Hc as (-> & (_ & Ha & ?) & _).
    unfold PHYSTOP, KERNBASE in Ha. lia. }
  assert (∀ b, ¬ pa ≤ b < pa + PGSIZE →
    rdb (st64 (memset (ram s) pa 1 PGSIZE) pa (freelist s)) b = rdb (ram s) b) as Hout.
  { intros b Hb. rewrite rdb_sto by (unfold PGSIZE in *; lia).
    rewrite rdb_memset by (unfold PGSIZE; lia). destruct (within pa PGSIZE b) eqn:E; [|done].
    apply within_spec in E. lia. }
  eexists. split; [done|]. split; [|exact Hout]. split; [|by apply NoDup_cons].
  cbn [chain freelist ram set_field]. split; [done|]. split; [done|]. rewrite ld64_st64 by done.
  eapply chain_ext; [|exact Hc]. intros a b Ha Hb. apply Hout. 
  assert (a ≠ pa) as Hne by naive_solver. pose proof (chain_ok _ _ _ _ Hc Ha) as (Haa & _).
  pose proof (page_disjoint a pa Haa Hal Hne). unfold PGSIZE in *. lia.
Qed.

Lemma kalloc_spec s l h w : KA s l → kmem_lock ∉ h →
  wp kalloc (λ r w', ∃ s', w' = World h w s' ∧
      match l with
      | [] => r = 0 ∧ s' = s
      | pa :: l' => r = pa ∧ KA s' l' ∧ (∀ b, pa ≤ b < pa + PGSIZE → rdb (ram s') b = 5) ∧
          ∀ b, ¬ pa ≤ b < pa + PGSIZE → rdb (ram s') b = rdb (ram s) b
      end) (World h w s).
Proof.
  intros [Hc Hnd] Hh. unfold kalloc. apply wp_bind, wp_acquire; [done|]. apply wp_bind, wp_gets.
  cbn [st]. destruct l as [|pa l].
  { simpl in Hc. rewrite Hc. cbn [Z.eqb negb]. apply wp_bind, wp_ret. apply wp_bind, wp_release; [done|].
    apply wp_bind, wp_ret. apply wp_ret. eauto. }
  destruct Hc as (Hf & Hpa & Hc). rewrite Hf. pose proof Hpa as (Hal & Hrange & Hpos).
  destruct (Z.eqb_spec pa 0); [lia|]. cbn [negb].
  apply wp_bind, wp_when. apply wp_bind, wp_gets. apply wp_modify. apply wp_bind, wp_release; [done|].
  apply wp_bind, wp_when. apply wp_modify. apply wp_ret. eexists. split; [done|]. split; [done|].
  apply NoDup_cons in Hnd as [Hpl Hnd].
  assert (∀ b, ¬ pa ≤ b < pa + PGSIZE → rdb (memset (ram s) pa 5 PGSIZE) b = rdb (ram s) b) as Hout.
  { intros b Hb. rewrite rdb_memset by (unfold PGSIZE; lia). destruct (within pa PGSIZE b) eqn:E; [|done].
    apply within_spec in E. lia. }
  split; [|split; [|exact Hout]].
  - split; [|done]. cbn [freelist ram set_field st]. eapply chain_ext; [|exact Hc].
    intros a b Ha Hb. apply Hout. assert (a ≠ pa) as Hne by naive_solver.
    pose proof (chain_ok _ _ _ _ Hc Ha) as (Haa & _).
    pose proof (page_disjoint a pa Haa Hal Hne). unfold PGSIZE in *. lia.
  - intros b Hb. cbn [ram set_field]. rewrite rdb_memset by (unfold PGSIZE; lia).
    destruct (within pa PGSIZE b) eqn:E; [done|]. apply within_false in E. lia.
Qed.

(** The pages from [p] up to PHYSTOP, last first: the order freerange leaves. *)
Definition pages_from (p : Z) : list Z :=
  reverse ((λ i, p + PGSIZE * i) <$> seqZ 0 ((PHYSTOP - p) / PGSIZE)).

Lemma freerange_spec n : ∀ p s l h w,
  KA s l → p mod PGSIZE = 0 → kend ≤ p ≤ PHYSTOP → 0 < p → Forall (λ a, a < p) l → kmem_lock ∉ h →
  (PHYSTOP - p) / PGSIZE < Z.of_nat n →
  wp (freerange_loop n p PHYSTOP) (λ _ w', ∃ s', w' = World h w s' ∧ KA s' (pages_from p ++ l)) (World h w s).
Proof.
  induction n as [|n IH]; intros p s l h w HK Hal Hp Hpos Hl Hh Hn.
  { assert (0 ≤ (PHYSTOP - p) / PGSIZE) by (apply Z.div_pos; unfold PGSIZE; lia). lia. }
  cbn [freerange_loop]. unfold pages_from. destruct (Z.leb_spec (p + PGSIZE) PHYSTOP) as [Hle|Hgt].
  - apply wp_bind. eapply wp_mono; [eapply (kfree_spec s l p); [done| |rewrite Forall_forall in Hl; intros Hin%Hl; lia|done]|].
    { split; [done|]. unfold PGSIZE in *. lia. }
    intros _ ? (s' & -> & HK' & _).
    assert ((PHYSTOP - p) / PGSIZE = Z.succ ((PHYSTOP - (p + PGSIZE)) / PGSIZE)) as E.
    { replace (PHYSTOP - p) with (PHYSTOP - (p + PGSIZE) + 1 * PGSIZE) by lia.
      rewrite Z.div_add by (unfold PGSIZE; lia). lia. }
    assert (0 ≤ (PHYSTOP - (p + PGSIZE)) / PGSIZE) by (apply Z.div_pos; unfold PGSIZE in *; lia).
    eapply wp_mono; [eapply (IH (p + PGSIZE) s' (p :: l)); try done|].
    + unfold PGSIZE in *. rewrite <-Zplus_mod_idemp_r, Z.mod_same, Z.add_0_r by lia. done.
    + unfold PGSIZE in *. lia.
    + unfold PGSIZE in *. lia.
    + constructor; [unfold PGSIZE; lia|]. eapply Forall_impl; [exact Hl|]. unfold PGSIZE. simpl. lia.
    + lia.
    + intros _ ? (s2 & -> & HK2). exists s2. split; [done|]. revert HK2. unfold pages_from. rewrite E.
      rewrite (seqZ_cons 0 (Z.succ _)) by lia. rewrite fmap_cons, reverse_cons, <-app_assoc. simpl.
      replace (p + PGSIZE * 0) with p by lia. rewrite Z.pred_succ.
      change (Z.succ 0) with (1 + 0). rewrite <-(fmap_add_seqZ 1 0), <-list_fmap_compose.
      intros HK2. erewrite list_fmap_ext; [exact HK2|]. intros i x _. simpl. lia.
  - apply wp_ret. exists s. split; [done|]. rewrite Z.div_small by (unfold PGSIZE in *; lia). done.
Qed.

(** A client that allocates, and frees the [n]-th page it holds. *)
Inductive mem_op := MAlloc | MFree (n : nat).
Fixpoint client (ops : list mem_op) (pages : list Z) : M kmem (list Z) :=
  match ops with
  | [] => ret pages
  | MAlloc :: ops =>
      r ← kalloc;
      client ops (if r =? 0 then pages else r :: pages)
  | MFree n :: ops =>
      match pages !! n with
      | Some pa => kfree pa;; client ops (delete n pages)
      | None => client ops pages
      end
  end.

(** How many pages such a client holds at the end, from [n] with [f] free: an
    allocation fails only when no page is free. *)
Fixpoint held_after (ops : list mem_op) (f n : nat) : nat :=
  match ops with
  | [] => n
  | MAlloc :: ops => match f with O => held_after ops O n | S f => held_after ops f (S n) end
  | MFree k :: ops => if (k <? n)%nat then held_after ops (S f) (pred n) else held_after ops f n
  end.

Lemma client_spec ops : ∀ s l pages h w,
  KA s l → Forall page_ok pages → NoDup (l ++ pages) → kmem_lock ∉ h →
  wp (client ops pages) (λ pages' w', ∃ s' l', w' = World h w s' ∧ KA s' l' ∧
      length pages' = held_after ops (length l) (length pages) ∧ l' ++ pages' ≡ₚ l ++ pages) (World h w s).
Proof.
  induction ops as [|[|n] ops IH]; intros s l pages h w HK Hok Hnd Hh; cbn [client held_after].
  - apply wp_ret. eauto 10.
  - apply wp_bind. eapply wp_mono; [by apply kalloc_spec|].
    intros r ? (s' & -> & Hr). destruct l as [|pa l].
    + destruct Hr as [-> ->]. by apply (IH s [] pages).
    + destruct Hr as (-> & HK' & _). destruct HK as [(_ & Hpa & _) _].
      assert (pa ≠ 0) as Hne by (destruct Hpa; lia). rewrite (proj2 (Z.eqb_neq pa 0)) by done.
      eapply wp_mono; [apply (IH s' l (pa :: pages)); try done|].
      * by constructor.
      * by rewrite <-Permutation_middle.
      * intros pages' ? (s2 & l2 & -> & HK2 & Hok2 & Hp). exists s2, l2. split_and!; try done.
        rewrite Hp. by rewrite <-Permutation_middle.
  - destruct (pages !! n) as [pa|] eqn:Hn; [pose proof (lookup_lt_Some _ _ _ Hn)|apply lookup_ge_None in Hn; rewrite (proj2 (Nat.ltb_ge _ _)) by done; by apply IH].
    rewrite (proj2 (Nat.ltb_lt _ _)) by done.
    pose proof (delete_Permutation _ _ _ Hn) as Hp.
    rewrite Hp, <-Permutation_middle in Hnd. apply NoDup_cons in Hnd as [Hpl Hnd].
    apply wp_bind. eapply wp_mono; [eapply (kfree_spec s l pa); [done| |set_solver|done]|].
    { rewrite Forall_forall in Hok. by eapply Hok, list_elem_of_lookup_2. }
    intros _ ? (s' & -> & HK' & _).
    eapply wp_mono; [apply (IH s' (pa :: l) (delete n pages)); try done|].
    + by apply Forall_delete.
    + by apply NoDup_cons.
    + intros pages' ? (s2 & l2 & -> & HK2 & Hok2 & Hp2). exists s2, l2. split_and!; try done.
      { rewrite Hok2, length_delete by (by eexists). cbn [length]. by rewrite Nat.sub_1_r. }
      etrans; [exact Hp2|]. etrans; [|apply Permutation_app_head; symmetry; exact Hp].
      by rewrite <-Permutation_middle.
Qed.
End kalloc.

(** ** The properties *)

(** C34: every page is accounted for: whatever sequence of [kalloc] and [kfree]
    calls a client makes, freeing only pages it holds, no call panics, and the
    free pages and the held pages together stay the same set without
    duplicates, so no page is handed out twice or lost; and the client holds as
    many pages as [held_after] says, so kalloc fails only when none is free. *)
Theorem pages_accounted kend ops s l pages w :
  KA kend s l → Forall (page_ok kend) pages → NoDup (l ++ pages) →
  ∃ pages' s' l', client kend ops pages (World [] w s) = Done pages' (World [] w s') ∧
    KA kend s' l' ∧ l' ++ pages' ≡ₚ l ++ pages ∧ NoDup (l' ++ pages') ∧
    length pages' = held_after ops (length l) (length pages).
Proof.
  intros HK Hok Hnd. pose proof (client_spec kend ops s l pages [] w HK Hok Hnd) as H.
  apply wp_done in H as (pages' & ? & E & s' & l' & -> & HK' & Hlen & Hp); [|set_solver].
  exists pages', s', l'. split_and!; try done. by rewrite Hp.
Qed.
Lemma kinit_spec kend w : 0 < kend ≤ PHYSTOP →
  wp (kinit kend) (λ _ w', ∃ s', w' = World [] w s' ∧ KA kend s' (pages_from (PGROUNDUP kend)))
    (World [] w (mkKmem 0 ∅)).
Proof.
  intros Hk. assert (0 ≤ kend < 2 ^ 64 - PGSIZE) as Hk64 by (unfold PHYSTOP, KERNBASE, PGSIZE in *; lia).
  destruct (PGROUNDUP_bounds kend Hk64) as [Hup Hal]. unfold kinit, freerange. set (p := PGROUNDUP kend) in *.
  assert (PHYSTOP mod PGSIZE = 0) as Hph by reflexivity.
  assert (kend ≤ p ≤ PHYSTOP) as Hp.
  { split; [lia|]. apply Z.div_exact in Hal, Hph; [|unfold PGSIZE; lia..]. unfold PGSIZE in *. lia. }
  rewrite <- (app_nil_r (pages_from p)).
  apply freerange_spec; [split; [done|constructor]|done|done|lia|constructor|set_solver|].
  unfold page_fuel. assert ((PHYSTOP - p) / PGSIZE ≤ PHYSTOP / PGSIZE).
  { apply Z.div_le_mono; unfold PGSIZE; lia. }
  assert (0 ≤ PHYSTOP / PGSIZE) by (apply Z.div_pos; unfold PHYSTOP, KERNBASE, PGSIZE; lia). lia.
Qed.

(** Four pages, of which one is held and three are free. *)
Definition four_pages : kmem := final (kinit 0x87ffc000) (World [] [] (mkKmem 0 ∅)).
Definition three_free : kmem := final kalloc (World [] [] four_pages).
Lemma four_pages_ka : KA 0x87ffc000 four_pages [0x87fff000; 0x87ffe000; 0x87ffd000; 0x87ffc000].
Proof.
  change [0x87fff000; 0x87ffe000; 0x87ffd000; 0x87ffc000] with (pages_from (PGROUNDUP 0x87ffc000)).
  apply (wp_final (λ s, KA 0x87ffc000 s (pages_from (PGROUNDUP 0x87ffc000))) [] [] (kinit 0x87ffc000)).
  apply kinit_spec. unfold PHYSTOP, KERNBASE. lia.
Qed.
Lemma three_free_ka : KA 0x87ffc000 three_free [0x87ffe000; 0x87ffd000; 0x87ffc000].
Proof.
  apply (wp_final (λ s, KA 0x87ffc000 s [0x87ffe000; 0x87ffd000; 0x87ffc000]) [] [] kalloc).
  eapply wp_mono; [apply (kalloc_spec 0x87ffc000 four_pages _ [] [] four_pages_ka); set_solver|]. intros r w' (s' & -> & _ & HK & _). eauto.
Qed.
Lemma pages_accounted_witness : ∃ pages' s' l',
  client 0x87ffc000 [MAlloc; MFree 1; MAlloc; MAlloc; MAlloc; MAlloc; MFree 0] [0x87fff000] (World [] [] three_free) =
    Done pages' (World [] [] s') ∧
  KA 0x87ffc000 s' l' ∧ l' ++ pages' ≡ₚ [0x87ffe000; 0x87ffd000; 0x87ffc000; 0x87fff000] ∧ NoDup (l' ++ pages') ∧ length pages' = 3%nat.
Proof.
  apply (pages_accounted 0x87ffc000 [MAlloc; MFree 1; MAlloc; MAlloc; MAlloc; MAlloc; MFree 0] three_free
    [0x87ffe000; 0x87ffd000; 0x87ffc000] [0x87fff000] []).
  - exact three_free_ka.
  - apply Forall_singleton. unfold page_ok, PHYSTOP, KERNBASE. split; [reflexivity|lia].
  - apply (bool_decide_unpack _). vm_compute. exact I.
Defined.

(** [kinit] puts exactly the whole pages between the end of the kernel and
    PHYSTOP on the free list, and terminates. *)
Theorem kinit_all_pages kend w : 0 < kend ≤ PHYSTOP →
  ∃ s', kinit kend (World [] w (mkKmem 0 ∅)) = Done () (World [] w s') ∧
    ∃ l, KA kend s' l ∧
      ∀ pa, pa ∈ l ↔ pa mod PGSIZE = 0 ∧ kend ≤ pa ∧ pa + PGSIZE ≤ PHYSTOP.
Proof.
  intros Hk. assert (0 ≤ kend < 2 ^ 64 - PGSIZE) as Hk64 by (unfold PHYSTOP, KERNBASE, PGSIZE in *; lia).
  destruct (PGROUNDUP_bounds kend Hk64) as [Hup Hal]. pose proof (kinit_spec kend w Hk) as H.
  set (p := PGROUNDUP kend) in *. apply wp_done in H as ([] & ? & E & s' & -> & HK).
  exists s'. split; [done|]. exists (pages_from p). split; [done|]. intros pa.
  unfold pages_from. rewrite elem_of_reverse, list_elem_of_fmap.
  setoid_rewrite elem_of_seqZ.
  assert (p = PGSIZE * (p / PGSIZE)) as Ep by (apply Z.div_exact; [unfold PGSIZE; lia|done]).
  assert (PHYSTOP = PGSIZE * (PHYSTOP / PGSIZE)) as Eph by (apply Z.div_exact; [unfold PGSIZE; lia|done]).
  assert ((PHYSTOP - p) / PGSIZE = PHYSTOP / PGSIZE - p / PGSIZE) as Ed.
  { rewrite Eph, Ep at 1. rewrite <-Z.mul_sub_distr_l, Z.mul_comm, Z.div_mul by (unfold PGSIZE; lia). done. }
  rewrite Ed. unfold PGSIZE in *. split.
  - intros (i & -> & Hi). split; [|lia]. rewrite Ep, <-Z.mul_add_distr_l, Z.mul_comm, Z.mod_mul by lia. done.
  - intros (Hm & Hlo & Hhi). apply Z.div_exact in Hm; [|lia]. exists (pa / 4096 - p / 4096). split; lia.
Qed.
Lemma kinit_all_pages_witness : 
  ∃ s', kinit 0x87ffe001 (World [] [] (mkKmem 0 ∅)) = Done () (World [] [] s') ∧
    ∃ l, KA 0x87ffe001 s' l ∧
      ∀ pa, pa ∈ l ↔ pa mod PGSIZE = 0 ∧ 0x87ffe001 ≤ pa ∧ pa + PGSIZE ≤ PHYSTOP.
Proof. apply (kinit_all_pages 0x87ffe001 []). unfold PHYSTOP, KERNBASE. lia. Defined.
