(* ===== verification/Spinlock.v ===== *)
(** * Spinlocks and interrupts: kernel/spinlock.c

    The lock word and the holder field of every lock, the interrupt bookkeeping
    of every hart, and the harts executing [acquire] and [release] in any
    interleaving, one access of a lock per step. What a hart does to its own
    [noff], [intena] and interrupt enable between two such accesses, which no
    other hart sees, is one step. *)
From S2P Require Import Prelude.

Module Spin.
(** ** kernel/spinlock.h and the fields of [struct cpu] it uses *)
Record spinlock := mkLock { locked : Z; cpu : option nat }.
Record hart := mkHart { noff : Z; intena : bool; sie : bool }.
#[export] Instance eta_lock : Settable spinlock := λ l, mkLock (locked l) (cpu l).
#[export] Instance eta_hart : Settable hart := λ h, mkHart (noff h) (intena h) (sie h).

Definition initlock : spinlock := mkLock 0 None.
(** [lk->locked && lk->cpu == mycpu()] *)
Definition holding (lk : spinlock) (me : nat) : bool :=
  negb (locked lk =? 0) && bool_decide (cpu lk = Some me).

Definition push_off (c : hart) : hart :=
  let old := sie c in
  let c := c <| sie := false |> in
  let c := if noff c =? 0 then c <| intena := old |> else c in
  c <| noff ::= λ n, n + 1 |>.
#[global] Arguments push_off : simpl never.
Definition pop_off (c : hart) : hart + string :=
  if sie c then inr "pop_off - interruptible"
  else if noff c <? 1 then inr "pop_off"
  else
    let c := c <| noff ::= λ n, n - 1 |> in
    inl (if (noff c =? 0) && intena c then c <| sie := true |> else c).

(** ** Harts running acquire and release *)
Inductive pc :=
  | Run                      (* outside acquire and release *)
  | Entered (l : nat)        (* acquire: after push_off, before lk->locked is read *)
  | SawLocked (l : nat)      (* acquire: it was not 0, before lk->cpu is read *)
  | Spinning (l : nat)       (* before the amoswap of acquire *)
  | Won (l : nat)            (* after it, before lk->cpu = mycpu() *)
  | Leaving (l : nat)        (* release: lk->locked was not 0, before lk->cpu is read *)
  | Checked (l : nat)        (* release: holding is true, before lk->cpu = 0 *)
  | Unowned (l : nat)        (* after it *)
  | Unlocked                 (* after the store to lk->locked *)
  | PanicAcquire (l : nat)   (* in panic("acquire") *)
  | PanicRelease (l : nat)   (* in panic("release") *)
  | Dead (msg : string).     (* in a panic of pop_off *)
(** [mine]: the locks acquired and not released (bookkeeping of the proof). *)
Record thread := mkThread { th : hart; tpc : pc; mine : list nat }.
#[export] Instance eta_thread : Settable thread := λ t, mkThread (th t) (tpc t) (mine t).
Record machine := mkMachine { locks : list spinlock; threads : list thread }.
#[export] Instance eta_machine : Settable machine := λ m, mkMachine (locks m) (threads m).

Definition set_thread (i : nat) (t : thread) (m : machine) : machine := m <| threads ::= <[i := t]> |>.
Definition set_lock (l : nat) (lk : spinlock) (m : machine) : machine := m <| locks ::= <[l := lk]> |>.

(** One step of hart [i] in [acquire(l)] or [release(l)]; both begin with
    [holding(l)], which reads the two fields one after the other. *)
Inductive step : machine → machine → Prop :=
  | acquire_push m i l t lk :
      threads m !! i = Some t → locks m !! l = Some lk → tpc t = Run →
      step m (set_thread i (t <| th ::= push_off |> <| tpc := Entered l |>) m)
  | acquire_load m i l t lk :
      threads m !! i = Some t → locks m !! l = Some lk → tpc t = Entered l →
      step m (set_thread i (t <| tpc := if locked lk =? 0 then Spinning l else SawLocked l |>) m)
  | acquire_test m i l t lk :
      threads m !! i = Some t → locks m !! l = Some lk → tpc t = SawLocked l →
      step m (set_thread i (t <| tpc := if decide (cpu lk = Some i) then PanicAcquire l else Spinning l |>) m)
  | acquire_swap m i l t lk :
      threads m !! i = Some t → locks m !! l = Some lk → tpc t = Spinning l →
      step m (set_thread i (t <| tpc := if locked lk =? 0 then Won l else Spinning l |>)
               (set_lock l (lk <| locked := 1 |>) m))
  | acquire_own m i l t lk :
      threads m !! i = Some t → locks m !! l = Some lk → tpc t = Won l →
      step m (set_thread i (t <| tpc := Run |> <| mine ::= cons l |>)
               (set_lock l (lk <| cpu := Some i |>) m))
  | release_load m i l t lk :
      threads m !! i = Some t → locks m !! l = Some lk → tpc t = Run →
      step m (set_thread i (t <| tpc := if locked lk =? 0 then PanicRelease l else Leaving l |>) m)
  | release_test m i l t lk :
      threads m !! i = Some t → locks m !! l = Some lk → tpc t = Leaving l →
      step m (set_thread i (t <| tpc := if decide (cpu lk = Some i) then Checked l else PanicRelease l |>) m)
  | release_disown m i l t lk :
      threads m !! i = Some t → locks m !! l = Some lk → tpc t = Checked l →
      step m (set_thread i (t <| tpc := Unowned l |> <| mine ::= filter (λ k, k ≠ l) |>)
               (set_lock l (lk <| cpu := None |>) m))
  | release_store m i l t lk :
      threads m !! i = Some t → locks m !! l = Some lk → tpc t = Unowned l →
      step m (set_thread i (t <| tpc := Unlocked |>) (set_lock l (lk <| locked := 0 |>) m))
  | release_pop m i t :
      threads m !! i = Some t → tpc t = Unlocked →
      step m (set_thread i match pop_off (th t) with
                           | inl c => t <| th := c |> <| tpc := Run |>
                           | inr msg => t <| tpc := Dead msg |>
                           end m).

(** ** The invariant *)
Definition owns (t : thread) (l : nat) : Prop := l ∈ mine t ∨ tpc t = Won l ∨ tpc t = Unowned l.
(** What [noff] counts besides the locks held. *)
Definition pending (p : pc) : Z :=
  match p with Run | Leaving _ | Checked _ | PanicRelease _ | Dead _ => 0 | _ => 1 end.
Record thread_ok (t : thread) : Prop := {
  ok_nodup : NoDup (mine t);
  ok_out l : tpc t = Won l ∨ tpc t = Unowned l ∨ tpc t = Spinning l ∨ tpc t = PanicRelease l → l ∉ mine t;
  ok_in l : tpc t = Checked l ∨ tpc t = PanicAcquire l → l ∈ mine t;
  ok_noff : noff (th t) = Z.of_nat (length (mine t)) + pending (tpc t);
  ok_off : 0 < noff (th t) → sie (th t) = false;
  ok_alive msg : tpc t ≠ Dead msg;
}.
Record SI (m : machine) : Prop := {
  si_thread i t : threads m !! i = Some t → thread_ok t;
  si_one i j ti tj l : threads m !! i = Some ti → threads m !! j = Some tj →
    owns ti l → owns tj l → i = j;
  si_locked l lk : locks m !! l = Some lk →
    (locked lk = 0 ∨ locked lk = 1) ∧
    (locked lk = 1 ↔ ∃ i t, threads m !! i = Some t ∧ owns t l);
  si_cpu l lk i : locks m !! l = Some lk →
    (cpu lk = Some i ↔ ∃ t, threads m !! i = Some t ∧ l ∈ mine t);
}.

(** ** Preservation *)
Lemma SI_update m i l t t' lk lk' :
  SI m → threads m !! i = Some t → locks m !! l = Some lk → thread_ok t' →
  (∀ k, k ≠ l → (owns t' k ↔ owns t k) ∧ (k ∈ mine t' ↔ k ∈ mine t)) →
  (owns t' l → owns t l ∨ locked lk = 0) →
  (locked lk' = 0 ∨ locked lk' = 1) →
  (locked lk' = 1 ↔ owns t' l ∨ (locked lk = 1 ∧ ¬ owns t l)) →
  (cpu lk' = Some i ↔ l ∈ mine t') →
  (∀ j, j ≠ i → (cpu lk' = Some j ↔ cpu lk = Some j)) →
  SI (set_thread i t' (set_lock l lk' m)).
Proof.
  intros [HT H1 HL HC] Hi Hl Hok Hne Hown H01 Hlk Hme Hoth.
  assert (Hfree : ∀ j tj, threads m !! j = Some tj → owns tj l → locked lk = 0 → False).
  { intros j tj Hj Ho H0. destruct (HL l lk Hl) as [_ [_ HX]]. specialize (HX (ex_intro _ j (ex_intro _ tj (conj Hj Ho)))). lia. }
  assert (Hin : ∀ j tj k, j ≠ i → threads m !! j = Some tj → owns t' k → owns tj k → False).
  { intros j tj k Hji Hj Ho Ho'. destruct (decide (k = l)) as [->|Hk].
    - destruct (Hown Ho) as [Hx|Hx]; [exact (Hji (H1 _ _ _ _ _ Hj Hi Ho' Hx))|eauto].
    - apply Hji. eapply H1; eauto. by apply Hne. }
  unfold set_thread, set_lock; cbn. constructor; cbn.
  - intros j tj [(-> & <- & _)|[Hj Hx]]%list_lookup_insert_Some; eauto.
  - intros j1 j2 t1 t2 k [(-> & <- & _)|[Hn1 Hx1]]%list_lookup_insert_Some
      [(-> & <- & _)|[Hn2 Hx2]]%list_lookup_insert_Some Ho1 Ho2; [done| | |by eauto];
      exfalso; eauto.
  - assert (HE : ∀ k, (∃ j tj, <[i:=t']> (threads m) !! j = Some tj ∧ owns tj k) ↔
        owns t' k ∨ ∃ j tj, j ≠ i ∧ threads m !! j = Some tj ∧ owns tj k).
    { intros k. split.
      - intros (j & tj & [(-> & <- & _)|[Hj Hx]]%list_lookup_insert_Some & Ho); [by left|right; eauto 6].
      - intros [Ho|(j & tj & Hj & Hx & Ho)]; [exists i, t'|exists j, tj]; split; auto.
        + apply list_lookup_insert_eq. by eapply lookup_lt_Some.
        + by rewrite list_lookup_insert_ne. }
    intros k lkk [(<- & <- & _)|[Hk Hx]]%list_lookup_insert_Some; rewrite HE.
    + split; [done|]. rewrite Hlk. split; (intros [?|Hr]; [by left|]).
      * destruct Hr as [Hr Hn]. apply (HL l lk Hl) in Hr as (j & tj & Hj & Ho). right. exists j, tj.
        split; [intros ->|done]. congruence.
      * destruct Hr as (j & tj & Hj & Hx & Ho). right. split; [apply (HL l lk Hl); eauto|].
        intros Hot. apply Hj. eauto.
    + destruct (HL k lkk Hx) as [Hz Hiff]. split; [done|]. rewrite Hiff. split.
      * intros (j & tj & Hj & Ho). destruct (decide (j = i)) as [->|]; [|right; eauto 6].
        left. apply Hne; [done|]. congruence.
      * intros [Ho|(j & tj & Hj & Hx' & Ho)]; [|eauto]. exists i, t. split; [done|]. by apply Hne.
  - intros k lkk j [(<- & <- & _)|[Hk Hx]]%list_lookup_insert_Some; destruct (decide (j = i)) as [->|Hji].
    + rewrite Hme. rewrite list_lookup_insert_eq by (by eapply lookup_lt_Some). naive_solver.
    + rewrite Hoth, (HC l lk j Hl) by done. rewrite list_lookup_insert_ne by done. done.
    + rewrite (HC k lkk i Hx). rewrite list_lookup_insert_eq by (by eapply lookup_lt_Some).
      destruct (Hne k) as [_ Hm]; [done|]. naive_solver.
    + rewrite (HC k lkk j Hx), list_lookup_insert_ne by done. done.
Qed.

Lemma SI_thread m i t t' :
  SI m → threads m !! i = Some t → thread_ok t' →
  (∀ k, owns t' k ↔ owns t k) → mine t' = mine t → SI (set_thread i t' m).
Proof.
  intros [HT H1 HL HC] Hi Hok Ho Hm.
  assert (HX : ∀ j tj, <[i:=t']> (threads m) !! j = Some tj → ∃ tj0, threads m !! j = Some tj0 ∧
     (∀ k, owns tj k ↔ owns tj0 k) ∧ mine tj = mine tj0).
  { intros j tj [(-> & <- & _)|[Hj Hx]]%list_lookup_insert_Some; eauto. }
  assert (HY : ∀ j tj0, threads m !! j = Some tj0 → ∃ tj, <[i:=t']> (threads m) !! j = Some tj ∧
     (∀ k, owns tj k ↔ owns tj0 k) ∧ mine tj = mine tj0).
  { intros j tj0 Hj. destruct (decide (j = i)) as [->|]; [exists t'|exists tj0].
    - simplify_eq. rewrite list_lookup_insert_eq by (by eapply lookup_lt_Some). eauto.
    - by rewrite list_lookup_insert_ne. }
  unfold set_thread; constructor; cbn.
  - intros j tj [(-> & <- & _)|[Hj Hx]]%list_lookup_insert_Some; eauto.
  - intros j1 j2 t1 t2 k (u1 & ? & E1 & _)%HX (u2 & ? & E2 & _)%HX O1%E1 O2%E2. eauto.
  - intros l lk Hl. destruct (HL l lk Hl) as [Hz Hiff]. split; [done|]. rewrite Hiff. split.
    + intros (j & tj & (u & Hu & E & _)%HY & O%E). eauto.
    + intros (j & tj & (u & Hu & E & _)%HX & O%E). eauto.
  - intros l lk j Hl. rewrite (HC l lk j Hl). split.
    + intros (tj & (u & Hu & _ & E)%HY & O). exists u. by rewrite E.
    + intros (tj & (u & Hu & _ & E)%HX & O). exists u. by rewrite <- E.
Qed.

Lemma push_off_facts c : 0 ≤ noff c →
  noff (push_off c) = noff c + 1 ∧ sie (push_off c) = false ∧
  (noff c = 0 → intena (push_off c) = sie c) ∧ (0 < noff c → intena (push_off c) = intena c).
Proof. intros. unfold push_off; cbn. destruct (Z.eqb_spec (noff c) 0); cbn; repeat split; intros; lia || done. Qed.
Lemma pop_off_facts c : 0 < noff c → sie c = false →
  ∃ c', pop_off c = inl c' ∧ noff c' = noff c - 1 ∧ intena c' = intena c ∧
    (0 < noff c' → sie c' = false) ∧ (noff c' = 0 → sie c' = intena c).
Proof.
  intros Hn Hs. unfold pop_off. rewrite Hs. destruct (Z.ltb_spec (noff c) 1); [lia|]. cbn.
  destruct (Z.eqb_spec (noff c - 1) 0); cbn; [destruct (intena c) eqn:E; cbn|];
    (eexists; split; [done|]; cbn; repeat split; intros; lia || congruence).
Qed.

(** Inside the invariant, [holding] says exactly whether the hart has the lock. *)
Lemma holding_spec m l lk i t :
  SI m → locks m !! l = Some lk → threads m !! i = Some t → holding lk i = true ↔ l ∈ mine t.
Proof.
  intros HS Hl Hi. unfold holding. rewrite andb_true_iff, bool_decide_eq_true, negb_true_iff, Z.eqb_neq.
  rewrite (si_cpu m HS l lk i Hl). split.
  - intros (_ & t' & Ht & Hx). congruence.
  - intros Hm. split; [|eauto].
    destruct (si_locked m HS l lk Hl) as [_ [_ HX]].
    rewrite HX; [lia|]. exists i, t. split; [done|]. by left.
Qed.
Lemma filter_drop (l : nat) ks : NoDup ks → l ∈ ks → S (length (filter (λ k, k ≠ l) ks)) = length ks.
Proof.
  intros Hnd Hin. apply list_elem_of_split in Hin as (l1 & l2 & ->).
  assert (Hall : ∀ xs : list nat, l ∉ xs → filter (λ k, k ≠ l) xs = xs).
  { induction xs as [|x xs IH]; [done|]. intros Hx. rewrite filter_cons_True, IH by set_solver. done. }
  apply NoDup_app in Hnd as (_ & H1 & (H2 & _)%NoDup_cons).
  rewrite filter_app, filter_cons_False, !Hall by (set_solver || tauto). rewrite !length_app. cbn. lia.
Qed.

Ltac pc_tac := unfold owns, pending in *; cbn in *;
  repeat match goal with H : tpc _ = _ |- _ => rewrite H in * end; cbn in *.

Section steps.
Context (m : machine) (HS : SI m) (i l : nat) (t : thread) (lk : spinlock).
Context (Hi : threads m !! i = Some t) (Hl : locks m !! l = Some lk).

Lemma noff_spec p : tpc t = p → noff (th t) = Z.of_nat (length (mine t)) + pending p.
Proof. intros <-. by apply (si_thread m HS i t Hi). Qed.
Lemma owned_locked : owns t l → locked lk = 1.
Proof. intros Ho. apply (si_locked m HS l lk Hl). eauto. Qed.

Lemma unlocked_out : locked lk = 0 → l ∉ mine t.
Proof. intros E Hm. assert (locked lk = 1) by (apply owned_locked; by left). lia. Qed.
Lemma cpu_mine : cpu lk = Some i ↔ l ∈ mine t.
Proof. rewrite (si_cpu m HS l lk i Hl). naive_solver. Qed.
(** Steps that read a lock, or change nothing but the hart's own fields. *)
Lemma read_SI p' : pending p' = pending (tpc t) → (∀ k, tpc t ≠ Won k ∧ tpc t ≠ Unowned k ∧ p' ≠ Won k ∧ p' ≠ Unowned k) →
  (∀ k, p' = Spinning k ∨ p' = PanicRelease k → k ∉ mine t) → (∀ k, p' = Checked k ∨ p' = PanicAcquire k → k ∈ mine t) → (∀ msg, p' ≠ Dead msg) →
  SI (set_thread i (t <| tpc := p' |>) m).
Proof.
  intros Hp Hno Hout Hin Hd. destruct (si_thread m HS i t Hi) as [Hnd Ho Hi' Hno' Hoff Hal].
  apply (SI_thread m i t _ HS Hi); [|intros k; unfold owns; cbn; specialize (Hno k); naive_solver|done].
  split; cbn; try done; [|by rewrite Hp]. intros k [E|[E|E]]; [by destruct (Hno k) as (_ & _ & ? & _)|by destruct (Hno k) as (_ & _ & _ & ?)|by apply Hout].
Qed.
Lemma push_SI : tpc t = Run → SI (set_thread i (t <| th ::= push_off |> <| tpc := Entered l |>) m).
Proof.
  intros Hp. destruct (si_thread m HS i t Hi) as [Hnd Ho Hi' Hno Hoff Hal]. pose proof (noff_spec _ Hp) as Hn. cbn in Hn.
  destruct (push_off_facts (th t)) as (Hn' & Hs & _); [lia|].
  apply (SI_thread m i t _ HS Hi); [|intros k; pc_tac; naive_solver|done]. split; cbn; try done; [naive_solver..|]. rewrite Hn'. cbn. lia.
Qed.
Lemma load_SI : tpc t = Entered l → SI (set_thread i (t <| tpc := if locked lk =? 0 then Spinning l else SawLocked l |>) m).
Proof.
  intros Hp. destruct (Z.eqb_spec (locked lk) 0) as [E|E]; apply read_SI; rewrite ?Hp; try done; try naive_solver.
  intros k [[= <-]|[=]]. by apply unlocked_out.
Qed.
Lemma test_SI : tpc t = SawLocked l → SI (set_thread i (t <| tpc := if decide (cpu lk = Some i) then PanicAcquire l else Spinning l |>) m).
Proof.
  intros Hp. case_decide as E; rewrite cpu_mine in E; apply read_SI; rewrite ?Hp; try done; naive_solver.
Qed.
Lemma rload_SI : tpc t = Run → SI (set_thread i (t <| tpc := if locked lk =? 0 then PanicRelease l else Leaving l |>) m).
Proof.
  intros Hp. destruct (Z.eqb_spec (locked lk) 0) as [E|E]; apply read_SI; rewrite ?Hp; try done; try naive_solver.
  intros k [[=]|[= <-]]. by apply unlocked_out.
Qed.
Lemma rtest_SI : tpc t = Leaving l → SI (set_thread i (t <| tpc := if decide (cpu lk = Some i) then Checked l else PanicRelease l |>) m).
Proof.
  intros Hp. case_decide as E; rewrite cpu_mine in E; apply read_SI; rewrite ?Hp; try done; naive_solver.
Qed.
Lemma swap_SI : tpc t = Spinning l →
  SI (set_thread i (t <| tpc := if locked lk =? 0 then Won l else Spinning l |>)
       (set_lock l (lk <| locked := 1 |>) m)).
Proof.
  intros Hp. destruct (si_thread m HS i t Hi) as [Hnd Hpc Hin Hno Hoff Hal].
  destruct (si_locked m HS l lk Hl) as [H01 Hiff].
  pose proof (noff_spec _ Hp) as Hnf.
  assert (Hout : owns t l ↔ l ∈ mine t) by (unfold owns; rewrite Hp; naive_solver).
  apply (SI_update m i l t _ lk _ HS Hi Hl); cbn; [|intros k Hk|..].
  - constructor; cbn; try done; destruct (Z.eqb_spec (locked lk) 0) as [E|E]; try done.
    all: intros l' ?; cbn in *; naive_solver.
  - pc_tac. destruct (Z.eqb_spec (locked lk) 0); naive_solver.
  - pc_tac. destruct (Z.eqb_spec (locked lk) 0); naive_solver.
  - lia.
  - split; [intros _|done]. destruct (Z.eqb_spec (locked lk) 0); [left; unfold owns; cbn; tauto|].
    destruct (decide (l ∈ mine t)); [left; unfold owns; cbn; tauto|]. right. split; [lia|tauto].
  - rewrite (si_cpu m HS l lk i Hl). naive_solver.
  - done.
Qed.
Lemma no_other_cpu : owns t l → ∀ j, j ≠ i → cpu lk ≠ Some j.
Proof.
  intros Ho j Hj. rewrite (si_cpu m HS l lk j Hl). intros (tj & Htj & Hm).
  apply Hj. apply (si_one m HS j i tj t l Htj Hi); [by left|done].
Qed.
Lemma own_SI : tpc t = Won l →
  SI (set_thread i (t <| tpc := Run |> <| mine ::= cons l |>) (set_lock l (lk <| cpu := Some i |>) m)).
Proof.
  intros Hp. destruct (si_thread m HS i t Hi) as [Hnd Hpc Hin Hno Hoff Hal].
  assert (Ho : owns t l) by (unfold owns; tauto). pose proof (owned_locked Ho).
  apply (SI_update m i l t _ lk _ HS Hi Hl); cbn; [|intros k Hk|..].
  - constructor; cbn; try done. + constructor; auto. + naive_solver.
    + naive_solver. + rewrite (noff_spec _ Hp). cbn. lia.
  - pc_tac. set_solver.
  - tauto.
  - lia.
  - unfold owns; cbn. set_solver.
  - set_solver.
  - intros j Hj. pose proof (no_other_cpu Ho j Hj). naive_solver.
Qed.
Lemma disown_SI : tpc t = Checked l →
  SI (set_thread i (t <| tpc := Unowned l |> <| mine ::= filter (λ k, k ≠ l) |>)
       (set_lock l (lk <| cpu := None |>) m)).
Proof.
  intros Hp. destruct (si_thread m HS i t Hi) as [Hnd Hpc Hin Hno Hoff Hal].
  assert (Hh : l ∈ mine t) by (apply Hin; by left).
  assert (Ho : owns t l) by (by left). pose proof (owned_locked Ho).
  apply (SI_update m i l t _ lk _ HS Hi Hl); cbn; [|intros k Hk|..].
  - constructor; cbn; try done.
    + by apply NoDup_filter.
    + intros l' Hl'. rewrite list_elem_of_filter. naive_solver.
    + naive_solver.
    + rewrite (noff_spec _ Hp). pose proof (filter_drop l (mine t) Hnd Hh). cbn. lia.
  - pc_tac. rewrite list_elem_of_filter. naive_solver.
  - tauto.
  - lia.
  - unfold owns; cbn. tauto.
  - rewrite list_elem_of_filter. split; [done|tauto].
  - intros j Hj. pose proof (no_other_cpu Ho j Hj). naive_solver.
Qed.
Lemma store_SI : tpc t = Unowned l →
  SI (set_thread i (t <| tpc := Unlocked |>) (set_lock l (lk <| locked := 0 |>) m)).
Proof.
  intros Hp. destruct (si_thread m HS i t Hi) as [Hnd Hpc Hin Hno Hoff Hal].
  assert (Hnl : l ∉ mine t) by (apply Hpc; tauto).
  assert (Ho : owns t l) by (unfold owns; tauto).
  apply (SI_update m i l t _ lk _ HS Hi Hl); cbn; [|intros k Hk|..].
  - constructor; cbn; try done; [naive_solver..|]. by rewrite (noff_spec _ Hp).
  - pc_tac. naive_solver.
  - tauto.
  - lia.
  - unfold owns at 1; cbn. naive_solver.
  - rewrite (si_cpu m HS l lk i Hl). naive_solver.
  - done.
Qed.
End steps.

Lemma step_SI m m' : SI m → step m m' → SI m'.
Proof.
  intros HS Hstep. destruct Hstep as [| | | | | | | | |m i t Hi Hp]; [by eapply push_SI|by apply load_SI|by apply test_SI|
    by apply swap_SI|by apply own_SI|by apply rload_SI|by apply rtest_SI|by apply disown_SI|by apply store_SI|].
  destruct (si_thread m HS i t Hi) as [Hnd Hpc Hin Hno Hoff Hal].
  pose proof (noff_spec m HS i t Hi _ Hp) as Hn. cbn in Hn.
  destruct (pop_off_facts (th t)) as (c' & -> & Hn' & _ & Hs & _); [lia|apply Hoff; lia|].
  apply (SI_thread m i t _ HS Hi); [|intros k; pc_tac; naive_solver|done].
  constructor; cbn; try done; try naive_solver lia.
Qed.

(** ** From boot on *)
(** Locks after [initlock]; harts outside any critical section, with interrupts
    on or off. *)
Definition boot (nlocks : nat) (ies : list bool) : machine :=
  mkMachine (replicate nlocks initlock) ((λ b, mkThread (mkHart 0 false b) Run []) <$> ies).
Lemma boot_SI n ies : SI (boot n ies).
Proof.
  assert (HT : ∀ i t, threads (boot n ies) !! i = Some t → ∃ b, t = mkThread (mkHart 0 false b) Run []).
  { intros i t. cbn [threads boot]. intros (b & -> & _)%list_lookup_fmap_Some. eauto. }
  assert (HL : ∀ l lk, locks (boot n ies) !! l = Some lk → lk = initlock)
    by (intros l lk [-> _]%lookup_replicate; done).
  constructor.
  - intros i t (b & ->)%HT. constructor; cbn; try done; try lia; [constructor|naive_solver..].
  - intros i j ti tj l (b & ->)%HT _ [Ho|[Ho|Ho]]; cbn in *; [set_solver|done|done].
  - intros l lk ->%HL. split; [by left|]. split; [done|].
    intros (i & t & (b & ->)%HT & [Ho|[Ho|Ho]]); cbn in *; [set_solver|done|done].
  - intros l lk i ->%HL. split; [done|]. intros (t & (b & ->)%HT & Ho); cbn in *; set_solver.
Qed.
Lemma steps_SI n ies m : rtc step (boot n ies) m → SI m.
Proof.
  intros Hr. remember (boot n ies) as m0. assert (HS : SI m0) by (subst; apply boot_SI). clear Heqm0.
  induction Hr; eauto using step_SI.
Qed.

(** C29: In every state the harts reach by executing acquire and release one
    access of a lock at a time, in any interleaving and on any locks: two harts
    never hold the same lock; [holding] tells a hart exactly whether it holds
    the lock; although [holding] reads the two fields one after the other while
    other harts write them, acquire panics only on a lock the hart has and never
    waits for one it has, and release panics only on a lock the hart has not and
    never gives up one it has not; a hart that holds or is waiting for a lock
    has interrupts off; and no [pop_off] ever panics. *)
Theorem spinlock_mutex n ies m i t l lk :
  rtc step (boot n ies) m → threads m !! i = Some t → locks m !! l = Some lk →
  (∀ j tj, threads m !! j = Some tj → l ∈ mine t → l ∈ mine tj → j = i) ∧
  (holding lk i = true ↔ l ∈ mine t) ∧
  (tpc t = PanicAcquire l → l ∈ mine t) ∧ (tpc t = Spinning l → l ∉ mine t) ∧
  (tpc t = PanicRelease l → l ∉ mine t) ∧ (tpc t = Checked l → l ∈ mine t) ∧
  (mine t ≠ [] ∨ tpc t = Entered l ∨ tpc t = SawLocked l ∨ tpc t = Spinning l → sie (th t) = false) ∧
  (tpc t = Run → noff (th t) = Z.of_nat (length (mine t))) ∧
  (∀ msg, tpc t ≠ Dead msg).
Proof.
  intros Hr%steps_SI Hi Hl. destruct (si_thread m Hr i t Hi) as [Hnd Hpc Hin Hno Hoff Hal].
  split_and!; [|by eapply holding_spec|auto..| | |done].
  - intros j tj Hj H1 H2. by eapply (si_one m Hr j i); [done..|left|left].
  - intros Hm. apply Hoff. rewrite Hno. destruct Hm as [Hm|[Hm|[Hm|Hm]]]; [|rewrite Hm; cbn; lia..].
    destruct (mine t); [done|]. cbn. destruct (tpc t); cbn; lia.
  - intros Hp. by rewrite (noff_spec m Hr i t Hi _ Hp), Z.add_0_r.
Qed.
(** Two harts race for one lock; hart 1 spins while hart 0 holds it. *)
Definition race : machine :=
  mkMachine [mkLock 1 (Some 0%nat)]
    [mkThread (mkHart 1 true false) Run [0%nat]; mkThread (mkHart 1 false false) (Spinning 0) []].
Lemma spinlock_mutex_witness :
  rtc step (boot 1 [true; false]) race ∧ holding (mkLock 1 (Some 0%nat)) 0 = true.
Proof.
  assert (H : rtc step (boot 1 [true; false]) race).
  { eapply rtc_l; [by eapply (acquire_push _ 1%nat 0%nat)|]. cbn.
    eapply rtc_l; [by eapply (acquire_push _ 0%nat 0%nat)|]. cbn.
    eapply rtc_l; [by eapply (acquire_load _ 0%nat 0%nat)|]. cbn.
    eapply rtc_l; [by eapply (acquire_swap _ 0%nat 0%nat)|]. cbn.
    eapply rtc_l; [by eapply (acquire_load _ 1%nat 0%nat)|]. cbn.
    eapply rtc_l; [by eapply (acquire_own _ 0%nat 0%nat)|]. cbn.
    eapply rtc_l; [by eapply (acquire_test _ 1%nat 0%nat)|]. cbn.
    eapply rtc_l; [by eapply (acquire_swap _ 1%nat 0%nat)|]. cbn. apply rtc_refl. }
  split; [exact H|].
  apply (spinlock_mutex 1 [true; false] race 0%nat _ 0%nat _ H eq_refl eq_refl). constructor.
Defined.

(** ** Nesting *)
Inductive ev := Push | Pop.
Fixpoint nest (es : list ev) (c : hart) : hart + string :=
  match es with
  | [] => inl c
  | Push :: es => nest es (push_off c)
  | Pop :: es => match pop_off c with inl c => nest es c | inr e => inr e end
  end.
(** Depth after [es], [None] when a pop has no matching push. *)
Fixpoint depth (es : list ev) (d : nat) : option nat :=
  match es, d with
  | [], _ => Some d
  | Push :: es, _ => depth es (S d)
  | Pop :: es, S d => depth es d
  | Pop :: _, O => None
  end.
Lemma nest_spec c0 : 0 ≤ noff c0 → (0 < noff c0 → sie c0 = false) → ∀ es c d d',
  noff c = noff c0 + Z.of_nat d → ((0 < d)%nat → sie c = false) → (d = O → sie c = sie c0) →
  ((0 < d)%nat → noff c0 = 0 → intena c = sie c0) → depth es d = Some d' →
  ∃ c', nest es c = inl c' ∧ noff c' = noff c0 + Z.of_nat d' ∧
    ((0 < d')%nat → sie c' = false) ∧ (d' = O → sie c' = sie c0).
Proof.
  intros H0 H1 es. induction es as [|e es IH]; intros c d d' Hn Hs Hz Hi; cbn; [by intros [= <-]; eauto|].
  destruct e.
  - destruct (push_off_facts c) as (A & B & C & D); [lia|]. apply IH; [lia|done|done|].
    intros _ Hc0. destruct d; [rewrite C by lia; by apply Hz|rewrite D by lia; apply Hi; lia].
  - destruct d as [|d]; [done|]. assert (Hsf : sie c = false) by (apply Hs; lia).
    destruct (pop_off_facts c) as (c' & -> & A & B & C & D); [lia|done|].
    apply IH; [lia|intros; apply C; lia| |intros; rewrite B; apply Hi; lia].
    intros ->. destruct (Z.eq_dec (noff c0) 0); [rewrite D by lia; apply Hi; lia|].
    rewrite C by lia. symmetry. apply H1. lia.
Qed.

(** Push_off and pop_off nest like brackets: any sequence of them whose
    pops all match runs without a panic, keeps interrupts off while a push is
    unmatched, and once balanced leaves the interrupt enable and the nesting
    count as they were at the start. *)
Theorem push_pop_nest c es d :
  0 ≤ noff c → (0 < noff c → sie c = false) → depth es 0 = Some d →
  ∃ c', nest es c = inl c' ∧ noff c' = noff c + Z.of_nat d ∧
    ((0 < d)%nat → sie c' = false) ∧ (d = O → sie c' = sie c).
Proof. intros H0 H1 Hd. by apply (nest_spec c H0 H1 es c 0); [lia|lia| |lia|]. Qed.
Lemma push_pop_nest_witness :
  ∃ c', nest [Push; Push; Pop; Push; Pop; Pop] (mkHart 0 false true) = inl c' ∧ sie c' = true.
Proof.
  destruct (push_pop_nest (mkHart 0 false true) [Push; Push; Pop; Push; Pop; Pop] 0)
    as (c' & Hc & _ & _ & Hs); [done|done|reflexivity|].
  exists c'. split; [exact Hc|by apply Hs].
Defined.
End Spin.
