(* ===== verification/Sleeplock.v ===== *)
(** * Sleep locks: kernel/sleeplock.c

    Each critical section under the inner spinlock [lk->lk] is one step;
    [sleep] and [wakeup] act on the waiting processes as kernel/proc.c makes
    them act: marking the sleeper and dropping the spinlock is atomic for
    [wakeup], and a sleeper may also be woken by [kill]. *)
From S2P Require Import Prelude.

Module SleepLock.
Record sleeplock := mkSL { locked : Z; pid : Z }.
Definition initsleeplock : sleeplock := mkSL 0 0.
(** One turn of [acquiresleep]'s loop: [None] sleeps, else the lock is taken. *)
Definition acquiresleep (lk : sleeplock) (me : Z) : option sleeplock :=
  if negb (locked lk =? 0) then None else Some (mkSL 1 me).
Definition holdingsleep (lk : sleeplock) (me : Z) : bool := negb (locked lk =? 0) && (pid lk =? me).

Inductive at_ := Out | Trying | Asleep | Inside.
#[export] Instance at_dec : EqDecision at_.
Proof. solve_decision. Defined.
(** The lock and, for every process, its pid and where it is. *)
Record sys := mkSys { lk : sleeplock; procs : list (Z * at_) }.
(** [wakeup(lk)] *)
Definition wake (p : Z * at_) : Z * at_ := if decide (p.2 = Asleep) then (p.1, Trying) else p.
Definition releasesleep (ps : list (Z * at_)) : sys := mkSys (mkSL 0 0) (wake <$> ps).

Inductive step : sys → sys → Prop :=
  | s_call s i me : procs s !! i = Some (me, Out) → step s (mkSys (lk s) (<[i := (me, Trying)]> (procs s)))
  | s_sleep s i me : procs s !! i = Some (me, Trying) → acquiresleep (lk s) me = None →
      step s (mkSys (lk s) (<[i := (me, Asleep)]> (procs s)))
  | s_take s i me l : procs s !! i = Some (me, Trying) → acquiresleep (lk s) me = Some l →
      step s (mkSys l (<[i := (me, Inside)]> (procs s)))
  | s_killed s i me : procs s !! i = Some (me, Asleep) →
      step s (mkSys (lk s) (<[i := (me, Trying)]> (procs s)))
  | s_release s i me : procs s !! i = Some (me, Inside) →
      step s (releasesleep (<[i := (me, Out)]> (procs s))).

Record SL (s : sys) : Prop := {
  sl_pids : NoDup (procs s).*1;
  sl_one i j a b : procs s !! i = Some (a, Inside) → procs s !! j = Some (b, Inside) → i = j;
  sl_in i a : procs s !! i = Some (a, Inside) → locked (lk s) = 1 ∧ pid (lk s) = a;
  sl_free : locked (lk s) = 0 ∨ ∃ i a, procs s !! i = Some (a, Inside);
  sl_asleep i a : procs s !! i = Some (a, Asleep) → locked (lk s) = 1;
}.
Lemma pids_insert (ps : list (Z * at_)) i me x y : ps !! i = Some (me, x) → (<[i := (me, y)]> ps).*1 = ps.*1.
Proof. intros H. rewrite list_fmap_insert. apply list_insert_id. by rewrite list_lookup_fmap, H. Qed.
Lemma pids_wake (ps : list (Z * at_)) : (wake <$> ps).*1 = ps.*1.
Proof. rewrite <- list_fmap_compose. apply list_fmap_ext. intros i [a b] _. unfold wake; cbn. by case_decide. Qed.
Lemma wake_lookup (ps : list (Z * at_)) i a x : (wake <$> ps) !! i = Some (a, x) →
  x ≠ Asleep ∧ (ps !! i = Some (a, x) ∨ (x = Trying ∧ ps !! i = Some (a, Asleep))).
Proof.
  intros (p & Hp & Hi)%list_lookup_fmap_Some. destruct p as [b y]. unfold wake in Hp; cbn in *.
  case_decide; simplify_eq; naive_solver.
Qed.

(** A process that moves between positions other than [Inside]. *)
Lemma SL_move s i me x y : SL s → procs s !! i = Some (me, x) → x ≠ Inside → y ≠ Inside →
  (y = Asleep → locked (lk s) = 1) → SL (mkSys (lk s) (<[i := (me, y)]> (procs s))).
Proof.
  intros [H1 H2 H3 H4 H5] Hi Hx Hy Hz. constructor; cbn.
  - by erewrite pids_insert.
  - intros j k a b [(-> & Heq & _)|[? ?]]%list_lookup_insert_Some
      [(-> & Heq' & _)|[? ?]]%list_lookup_insert_Some; naive_solver.
  - intros j a [(-> & Heq & _)|[? ?]]%list_lookup_insert_Some; naive_solver.
  - destruct H4 as [?|(j & a & Hj)]; [by left|]. right. exists j, a.
    rewrite list_lookup_insert_ne; [done|]. intros ->. naive_solver.
  - intros j a [(-> & Heq & _)|[? ?]]%list_lookup_insert_Some; naive_solver.
Qed.
Lemma SL_take s i me : SL s → procs s !! i = Some (me, Trying) → locked (lk s) = 0 →
  SL (mkSys (mkSL 1 me) (<[i := (me, Inside)]> (procs s))).
Proof.
  intros [H1 H2 H3 H4 H5] Hi H0.
  assert (Hno : ∀ j a, procs s !! j = Some (a, Inside) → False) by (intros j a [? _]%H3; lia).
  constructor; cbn.
  - by erewrite pids_insert.
  - intros j k a b [(-> & Heq & _)|[? ?]]%list_lookup_insert_Some
      [(-> & Heq' & _)|[? ?]]%list_lookup_insert_Some; naive_solver.
  - intros j a [(-> & Heq & _)|[? ?]]%list_lookup_insert_Some; naive_solver.
  - right. exists i, me. apply list_lookup_insert_eq. by eapply lookup_lt_Some.
  - done.
Qed.
Lemma SL_release s i me : SL s → procs s !! i = Some (me, Inside) →
  SL (releasesleep (<[i := (me, Out)]> (procs s))).
Proof.
  intros [H1 H2 H3 H4 H5] Hi.
  assert (Hno : ∀ j a, (wake <$> <[i := (me, Out)]> (procs s)) !! j = Some (a, Inside) → False).
  { intros j a [_ [[(-> & Heq & _)|[Hj Hl]]%list_lookup_insert_Some|[? _]]]%wake_lookup; naive_solver. }
  constructor; cbn.
  - rewrite pids_wake. by erewrite pids_insert.
  - intros j k a b Hj. by destruct (Hno j a).
  - intros j a Hj. by destruct (Hno j a).
  - by left.
  - by intros j a [? _]%wake_lookup.
Qed.
Lemma step_SL s s' : SL s → step s s' → SL s'.
Proof.
  intros HS Hs. destruct Hs as [s0 i me Hi|s0 i me Hi Ha|s0 i me l Hi Ha|s0 i me Hi|s0 i me Hi]; unfold acquiresleep in *.
  - by eapply SL_move.
  - eapply (SL_move s0 i me Trying Asleep HS Hi); [done|done|]. intros _. destruct (Z.eqb_spec (locked (lk s0)) 0); [done|].
    destruct (sl_free _ HS) as [?|(j & a & [? _]%(sl_in _ HS))]; lia.
  - destruct (Z.eqb_spec (locked (lk s0)) 0); [|done]. injection Ha as <-. by apply SL_take.
  - by eapply SL_move.
  - by apply SL_release.
Qed.

Definition boot (pids : list Z) : sys := mkSys initsleeplock ((λ p, (p, Out)) <$> pids).
Lemma boot_SL pids : NoDup pids → SL (boot pids).
Proof.
  intros Hnd. assert (H : ∀ i a x, procs (boot pids) !! i = Some (a, x) → x = Out).
  { intros i a x. unfold boot, procs. intros (p & Hp & _)%list_lookup_fmap_Some. naive_solver. }
  constructor; try (intros; exfalso; naive_solver).
  - cbn. rewrite <- list_fmap_compose. cbn. by rewrite list_fmap_id.
  - by left.
Qed.
Lemma steps_SL pids s : NoDup pids → rtc step (boot pids) s → SL s.
Proof.
  intros Hnd Hr. remember (boot pids) as s0. assert (HS : SL s0) by (subst; by apply boot_SL).
  clear Heqs0. induction Hr; eauto using step_SL.
Qed.

(** C30: For processes with distinct pids calling acquiresleep and releasesleep
    in any interleaving, with sleepers killed at any time: at most one process
    is inside; holdingsleep tells a process exactly whether it is inside; and
    while a process sleeps on the lock some process is inside, so no wakeup is
    ever lost. *)
Theorem sleeplock_correct pids s i me x :
  NoDup pids → rtc step (boot pids) s → procs s !! i = Some (me, x) →
  (∀ j a, x = Inside → procs s !! j = Some (a, Inside) → j = i) ∧
  (holdingsleep (lk s) me = true ↔ x = Inside) ∧
  (x = Asleep → ∃ j a, procs s !! j = Some (a, Inside)).
Proof.
  intros Hnd Hr Hi. destruct (steps_SL pids s Hnd Hr) as [H1 H2 H3 H4 H5]. split_and!.
  - intros j a -> Hj. eauto.
  - unfold holdingsleep. rewrite andb_true_iff, negb_true_iff, Z.eqb_neq, Z.eqb_eq. split.
    + intros [Hn Hp]. destruct H4 as [?|(j & a & Hj)]; [lia|]. destruct (H3 _ _ Hj) as [_ Ha].
      assert (j = i) as ->; [|naive_solver].
      eapply NoDup_lookup; [exact H1|rewrite list_lookup_fmap, Hj; cbn; reflexivity|].
      rewrite list_lookup_fmap, Hi. cbn. congruence.
    + intros ->. destruct (H3 _ _ Hi). lia.
  - intros ->. specialize (H5 _ _ Hi). destruct H4 as [?|?]; [lia|done].
Qed.
Definition contended : sys := mkSys (mkSL 1 7) [(3, Asleep); (7, Inside)].
Lemma sleeplock_correct_witness :
  rtc step (boot [3; 7]) contended ∧ holdingsleep (lk contended) 7 = true.
Proof.
  assert (Hnd : NoDup [3; 7]) by (apply (bool_decide_unpack _); reflexivity).
  assert (H : rtc step (boot [3; 7]) contended).
  { eapply rtc_l; [by eapply (s_call _ 0%nat)|]. cbn. eapply rtc_l; [by eapply (s_call _ 1%nat)|]. cbn.
    eapply rtc_l; [by eapply (s_take _ 1%nat)|]. cbn.
    eapply rtc_l; [by eapply (s_sleep _ 0%nat)|]. apply rtc_refl. }
  split; [exact H|]. by apply (sleeplock_correct [3; 7] contended 1%nat 7 Inside Hnd H eq_refl).
Defined.
End SleepLock.
