(* ===== verification/Vm.v ===== *)
(** * Virtual memory: kernel/vm.c

    Sv39 page tables in physical memory, allocated by Kalloc.v. This file is
    the translation; VmInv.v and VmSpec.v hold the theory. *)
From S2P Require Import Prelude Param CString Mem Kalloc.

Section vm.
Context (kend : Z).
Local Abbreviation kalloc := kalloc.
Local Abbreviation kfree := (kfree kend).

(** A pointer that is about to be dereferenced. *)
Definition deref {A} (p : Z) (m : M kmem A) : M kmem A := if p =? 0 then fault else m.
Definition do_memmove (d s n : Z) : M kmem unit := modify (λ k, k <| ram ::= λ m, memmove m d s n |>).
Definition has (pte f : Z) : bool := negb (Z.land pte f =? 0).

(** The loop of [walk], from [level] down. *)
Fixpoint walk_loop (level : nat) (pagetable va : Z) (alloc : bool) : M kmem Z :=
  match level with
  | O => ret (pagetable + 8 * PX 0 va)
  | S l =>
      let pte := pagetable + 8 * PX (Z.of_nat level) va in
      v ← load64 pte;
      if has v PTE_V then walk_loop l (PTE2PA v) va alloc
      else if negb alloc then ret 0
      else
        pagetable ← kalloc;
        if pagetable =? 0 then ret 0
        else
          do_memset pagetable 0 PGSIZE;;
          store64 pte (Z.lor (PA2PTE pagetable) PTE_V);;
          walk_loop l pagetable va alloc
  end.
Definition walk (pagetable va : Z) (alloc : bool) : M kmem Z :=
  when (va >=? MAXVA) (panic "walk");;
  walk_loop 2 pagetable va alloc.

Definition walkaddr (pagetable va : Z) : M kmem Z :=
  if va >=? MAXVA then ret 0
  else
    pte ← walk pagetable va false;
    if pte =? 0 then ret 0
    else
      v ← load64 pte;
      if negb (has v PTE_V) then ret 0
      else if negb (has v PTE_U) then ret 0
      else ret (PTE2PA v).

Definition mappages (pagetable va size pa perm : Z) : M kmem Z :=
  when (size =? 0) (panic "mappages: size");;
  let last := PGROUNDDOWN (u64 (va + size - 1)) in
  loopM 64 (λ '(a, pa),
    pte ← walk pagetable a true;
    if pte =? 0 then break (-1)
    else
      v ← load64 pte;
      when (has v PTE_V) (panic "mappages: remap");;
      store64 pte (Z.lor (Z.lor (PA2PTE pa) perm) PTE_V);;
      if a =? last then break 0
      else continue (u64 (a + PGSIZE), u64 (pa + PGSIZE)))
    (PGROUNDDOWN va, pa).

Definition kvmmap (kpgtbl va pa sz perm : Z) : M kmem unit :=
  r ← mappages kpgtbl va sz pa perm;
  when (negb (r =? 0)) (panic "kvmmap").

Definition uvmunmap (pagetable va npages : Z) (do_free : bool) : M kmem unit :=
  when (negb (va mod PGSIZE =? 0)) (panic "uvmunmap: not aligned");;
  loopM 64 (λ a,
    if negb (a <? u64 (va + npages * PGSIZE)) then break ()
    else
      pte ← walk pagetable a false;
      when (pte =? 0) (panic "uvmunmap: walk");;
      v ← load64 pte;
      when (negb (has v PTE_V)) (panic "uvmunmap: not mapped");;
      when (PTE_FLAGS v =? PTE_V) (panic "uvmunmap: not a leaf");;
      when do_free (kfree (PTE2PA v));;
      store64 pte 0;;
      continue (u64 (a + PGSIZE)))
    va.

Definition uvmcreate : M kmem Z :=
  pagetable ← kalloc;
  if pagetable =? 0 then ret 0
  else do_memset pagetable 0 PGSIZE;; ret pagetable.

Definition uvmfirst (pagetable src sz : Z) : M kmem unit :=
  when (sz >=? PGSIZE) (panic "uvmfirst: more than a page");;
  mem ← kalloc;
  deref mem (do_memset mem 0 PGSIZE);;
  _ ← mappages pagetable 0 PGSIZE mem (Z.lor (Z.lor (Z.lor PTE_W PTE_R) PTE_X) PTE_U);
  do_memmove mem src sz.

Definition uvmdealloc (pagetable oldsz newsz : Z) : M kmem Z :=
  if newsz >=? oldsz then ret oldsz
  else
    when (PGROUNDUP newsz <? PGROUNDUP oldsz)
      (let npages := i32 ((PGROUNDUP oldsz - PGROUNDUP newsz) / PGSIZE) in
       uvmunmap pagetable (PGROUNDUP newsz) (u64 npages) true);;
    ret newsz.

Definition uvmalloc (pagetable oldsz newsz xperm : Z) : M kmem Z :=
  if newsz <? oldsz then ret oldsz
  else
    let oldsz := PGROUNDUP oldsz in
    loopM 64 (λ a,
      if negb (a <? newsz) then break newsz
      else
        mem ← kalloc;
        if mem =? 0 then uvmdealloc pagetable a oldsz;; break 0
        else
          do_memset mem 0 PGSIZE;;
          r ← mappages pagetable a PGSIZE mem (Z.lor (Z.lor PTE_R PTE_U) xperm);
          if negb (r =? 0) then kfree mem;; uvmdealloc pagetable a oldsz;; break 0
          else continue (u64 (a + PGSIZE)))
      oldsz.

(** [depth] bounds the recursion: a page table has three levels. *)
Fixpoint freewalk (depth : nat) (pagetable : Z) : M kmem unit :=
  match depth with
  | O => timeout
  | S depth =>
      loopM 10 (λ i,
        if negb (i <? 512) then break ()
        else
          pte ← load64 (pagetable + 8 * i);
          if has pte PTE_V && negb (has pte (Z.lor (Z.lor PTE_R PTE_W) PTE_X)) then
            freewalk depth (PTE2PA pte);;
            store64 (pagetable + 8 * i) 0;;
            continue (i + 1)
          else if has pte PTE_V then panic "freewalk: leaf"
          else continue (i + 1)) 0;;
      kfree pagetable
  end.

Definition uvmfree (pagetable sz : Z) : M kmem unit :=
  when (0 <? sz) (uvmunmap pagetable 0 (PGROUNDUP sz / PGSIZE) true);;
  freewalk 3 pagetable.

Definition uvmcopy (old new sz : Z) : M kmem Z :=
  let err i := uvmunmap new 0 (i / PGSIZE) true;; break (-1) in
  loopM 64 (λ i,
    if negb (i <? sz) then break 0
    else
      pte ← walk old i false;
      when (pte =? 0) (panic "uvmcopy: pte should exist");;
      v ← load64 pte;
      when (negb (has v PTE_V)) (panic "uvmcopy: page not present");;
      let pa := PTE2PA v in
      let flags := PTE_FLAGS v in
      mem ← kalloc;
      if mem =? 0 then err i
      else
        do_memmove mem pa PGSIZE;;
        r ← mappages new i PGSIZE mem flags;
        if negb (r =? 0) then kfree mem;; err i
        else continue (u64 (i + PGSIZE))) 0.

Definition uvmclear (pagetable va : Z) : M kmem unit :=
  pte ← walk pagetable va false;
  when (pte =? 0) (panic "uvmclear");;
  v ← load64 pte;
  store64 pte (Z.land v (u64 (Z.lnot PTE_U))).

Definition copyout (pagetable dstva src len : Z) : M kmem Z :=
  loopM 64 (λ '(dstva, src, len),
    if negb (0 <? len) then break 0
    else
      let va0 := PGROUNDDOWN dstva in
      pa0 ← walkaddr pagetable va0;
      if pa0 =? 0 then break (-1)
      else
        let n := PGSIZE - (dstva - va0) in
        let n := if n >? len then len else n in
        do_memmove (pa0 + (dstva - va0)) src n;;
        continue (u64 (va0 + PGSIZE), src + n, len - n))
    (dstva, src, len).

Definition copyin (pagetable dst srcva len : Z) : M kmem Z :=
  loopM 64 (λ '(dst, srcva, len),
    if negb (0 <? len) then break 0
    else
      let va0 := PGROUNDDOWN srcva in
      pa0 ← walkaddr pagetable va0;
      if pa0 =? 0 then break (-1)
      else
        let n := PGSIZE - (srcva - va0) in
        let n := if n >? len then len else n in
        do_memmove dst (pa0 + (srcva - va0)) n;;
        continue (dst + n, u64 (va0 + PGSIZE), len - n))
    (dst, srcva, len).

(** The inner loop of [copyinstr]: [n] bytes from [p] to [dst], or up to a nul.
    Returns got_null and the number of bytes copied before it. *)
Fixpoint copy_chunk (n : nat) (p dst : Z) : M kmem (bool * Z) :=
  match n with
  | O => ret (false, 0)
  | S n =>
      c ← gets (λ k, rdb (ram k) p);
      if c =? 0 then modify (λ k, k <| ram ::= λ m, wrb m dst 0 |>);; ret (true, 0)
      else
        modify (λ k, k <| ram ::= λ m, wrb m dst c |>);;
        '(g, k) ← copy_chunk n (p + 1) (dst + 1);
        ret (g, k + 1)
  end.
Definition copyinstr (pagetable dst srcva max : Z) : M kmem Z :=
  loopM 64 (λ '(dst, srcva, max),
    if negb (0 <? max) then break (-1)
    else
      let va0 := PGROUNDDOWN srcva in
      pa0 ← walkaddr pagetable va0;
      if pa0 =? 0 then break (-1)
      else
        let n := PGSIZE - (srcva - va0) in
        let n := if n >? max then max else n in
        '(got_null, k) ← copy_chunk (Z.to_nat n) (pa0 + (srcva - va0)) dst;
        if (got_null : bool) then break 0
        else continue (dst + k, u64 (va0 + PGSIZE), max - k))
    (dst, srcva, max).

(** The kernel's own page table; [etext] and [trampoline] come from kernel.ld
    and trampoline.S. *)
Context (etext trampoline : Z).
Fixpoint mapstacks (n : nat) (p : Z) (kpgtbl : Z) : M kmem unit :=
  match n with
  | O => ret ()
  | S n =>
      pa ← kalloc;
      when (pa =? 0) (panic "kalloc");;
      kvmmap kpgtbl (KSTACK p) pa PGSIZE (Z.lor PTE_R PTE_W);;
      mapstacks n (p + 1) kpgtbl
  end.
Definition proc_mapstacks (kpgtbl : Z) : M kmem unit := mapstacks NPROC 0 kpgtbl.
Definition kvmmake : M kmem Z :=
  kpgtbl ← kalloc;
  deref kpgtbl (do_memset kpgtbl 0 PGSIZE);;
  kvmmap kpgtbl UART0 UART0 PGSIZE (Z.lor PTE_R PTE_W);;
  kvmmap kpgtbl VIRTIO0 VIRTIO0 PGSIZE (Z.lor PTE_R PTE_W);;
  kvmmap kpgtbl PLIC PLIC 0x400000 (Z.lor PTE_R PTE_W);;
  kvmmap kpgtbl KERNBASE KERNBASE (u64 (etext - KERNBASE)) (Z.lor PTE_R PTE_X);;
  kvmmap kpgtbl etext etext (u64 (PHYSTOP - etext)) (Z.lor PTE_R PTE_W);;
  kvmmap kpgtbl TRAMPOLINE trampoline PGSIZE (Z.lor PTE_R PTE_X);;
  proc_mapstacks kpgtbl;;
  ret kpgtbl.
End vm.
