(* ===== verification/VmInv.v ===== *)
(** * Page tables as trees: the theory of kernel/vm.c

    [PT] describes a page table in memory by the finite map from its pages to
    their level and address prefix; [VM] abstracts it to a finite map from
    virtual page numbers to physical pages with flags, and accounts for every
    page of the allocator. *)
From S2P Require Import Prelude Param CString Mem Kalloc Vm.

(** ** Page-table entries *)
Definition pte_of (pa f : Z) : Z := Z.lor (Z.lor (PA2PTE pa) f) PTE_V.
Definition vpn (va : Z) : Z := va / PGSIZE.
Definition frame (pa : Z) : Prop := pa mod PGSIZE = 0 ∧ 0 < pa < 2 ^ 56.

Lemma lor_low a b n : 0 ≤ n → 0 ≤ b < 2 ^ n → Z.lor (a * 2 ^ n) b = a * 2 ^ n + b.
Proof.
  intros Hn Hb. assert (Z.land (a * 2 ^ n) b = 0) as E; [|pose proof (Z.add_lor_land (a * 2 ^ n) b); lia].
  apply Z.bits_inj'. intros i Hi. rewrite Z.land_spec, Z.bits_0.
  destruct (Z.lt_ge_cases i n).
  - by rewrite Z.mul_pow2_bits_low.
  - destruct (Z.eq_dec b 0) as [->|]; [by rewrite Z.bits_0, andb_false_r|].
    rewrite (Z.bits_above_log2 b i); [by rewrite andb_false_r|lia|]. apply Z.log2_lt_pow2; [lia|].
    pose proof (Z.pow_le_mono_r 2 n i). lia.
Qed.
Lemma PA2PTE_eq pa : frame pa → PA2PTE pa = pa / 4096 * 2 ^ 10.
Proof.
  intros [_ H]. unfold PA2PTE. rewrite Z.shiftl_mul_pow2, Z.shiftr_div_pow2 by lia.
  change (2 ^ 12) with 4096. apply u64_small. split.
  - apply Z.mul_nonneg_nonneg; [apply Z.div_pos|]; lia.
  - pose proof (Z.mul_div_le pa 4096). lia.
Qed.
Lemma flags_or f : 0 ≤ f < 2 ^ 10 → 0 ≤ Z.lor f PTE_V < 2 ^ 10.
Proof.
  intros Hf. change PTE_V with 1. assert (0 ≤ Z.lor f 1) by (apply Z.lor_nonneg; lia). split; [done|].
  destruct (Z.eq_dec (Z.lor f 1) 0) as [->|]; [lia|].
  apply Z.log2_lt_pow2; [lia|]. rewrite Z.log2_lor by lia.
  apply Z.max_lub_lt; [|done]. destruct (Z.eq_dec f 0) as [->|]; [done|]. apply Z.log2_lt_pow2; lia.
Qed.
Lemma pte_of_eq pa f : frame pa → 0 ≤ f < 2 ^ 10 → pte_of pa f = pa / 4096 * 2 ^ 10 + Z.lor f PTE_V.
Proof.
  intros Hpa Hf. unfold pte_of. rewrite <- Z.lor_assoc, PA2PTE_eq by done.
  apply lor_low; [lia|]. by apply flags_or.
Qed.
Lemma pte_of_range pa f : frame pa → 0 ≤ f < 2 ^ 10 → 0 ≤ pte_of pa f < 2 ^ 64.
Proof.
  intros Hpa Hf. rewrite pte_of_eq by done. pose proof (flags_or f Hf). destruct Hpa as [_ Hpa].
  pose proof (Z.div_pos pa 4096). pose proof (Z.mul_div_le pa 4096). lia.
Qed.
Lemma PTE2PA_of pa f : frame pa → 0 ≤ f < 2 ^ 10 → PTE2PA (pte_of pa f) = pa.
Proof.
  intros Hpa Hf. rewrite pte_of_eq by done. pose proof (flags_or f Hf). unfold PTE2PA.
  rewrite Z.shiftl_mul_pow2, Z.shiftr_div_pow2 by lia.
  rewrite Z.add_comm, Z.div_add, (Z.div_small (Z.lor f PTE_V)) by lia.
  destruct Hpa as [Hal Hpa]. apply Z.div_exact in Hal; [|done]. unfold PGSIZE in Hal.
  change (2 ^ 12) with 4096. rewrite u64_small; lia.
Qed.
Lemma PTE_FLAGS_of pa f : frame pa → 0 ≤ f < 2 ^ 10 → PTE_FLAGS (pte_of pa f) = Z.lor f PTE_V.
Proof.
  intros Hpa Hf. rewrite pte_of_eq by done. pose proof (flags_or f Hf). unfold PTE_FLAGS.
  change 0x3FF with (Z.ones 10). rewrite Z.land_ones, Z.add_comm, Z.mod_add, Z.mod_small by lia. done.
Qed.
Lemma has_low v g : 0 ≤ g < 2 ^ 10 → has v g = has (PTE_FLAGS v) g.
Proof.
  intros Hg. unfold has, PTE_FLAGS. do 2 f_equal. rewrite <- Z.land_assoc, (Z.land_comm 0x3FF).
  change 0x3FF with (Z.ones 10). rewrite Z.land_ones, (Z.mod_small g) by lia. done.
Qed.
Lemma has_of pa f g : frame pa → 0 ≤ f < 2 ^ 10 → 0 ≤ g < 2 ^ 10 → has (pte_of pa f) g = has (Z.lor f PTE_V) g.
Proof. intros. by rewrite has_low, PTE_FLAGS_of. Qed.
Lemma has_lor f g h : has (Z.lor f g) h = has f h || has g h.
Proof.
  unfold has. rewrite Z.land_lor_distr_l.
  destruct (Z.eqb_spec (Z.land f h) 0) as [->|N1]; [by rewrite Z.lor_0_l|].
  destruct (Z.eqb_spec (Z.lor (Z.land f h) (Z.land g h)) 0) as [E|]; [|done].
  apply Z.lor_eq_0_iff in E as [? _]. done.
Qed.
Lemma has_of_V pa f : frame pa → 0 ≤ f < 2 ^ 10 → has (pte_of pa f) PTE_V = true.
Proof. intros. rewrite has_of, has_lor by done. by rewrite orb_true_r. Qed.

(** ** Indices and prefixes *)
Definition pfx (l : nat) (va : Z) : Z := va / 2 ^ (12 + 9 * (Z.of_nat l + 1)).
Lemma PX_eq l va : 0 ≤ va → PX (Z.of_nat l) va = (va / 2 ^ (12 + 9 * Z.of_nat l)) mod 512.
Proof.
  intros. unfold PX, PXSHIFT, PXMASK, PGSHIFT. change 0x1FF with (Z.ones 9).
  by rewrite Z.land_ones, Z.shiftr_div_pow2 by lia.
Qed.
Lemma PX_range l va : 0 ≤ va → 0 ≤ PX (Z.of_nat l) va < 512.
Proof. intros. rewrite PX_eq by done. by apply Z.mod_pos_bound. Qed.
Lemma pfx_S l va : 0 ≤ va → pfx l va = pfx (S l) va * 512 + PX (Z.of_nat (S l)) va.
Proof.
  intros. rewrite PX_eq by done. unfold pfx. rewrite Nat2Z.inj_succ.
  set (k := 12 + 9 * Z.succ (Z.of_nat l)).
  replace (12 + 9 * (Z.of_nat l + 1)) with k by lia.
  replace (12 + 9 * (Z.succ (Z.of_nat l) + 1)) with (k + 9) by lia.
  rewrite Z.pow_add_r, <- Z.div_div by lia. change (2 ^ 9) with 512.
  pose proof (Z.div_mod (va / 2 ^ k) 512). lia.
Qed.
Lemma vpn_split va : 0 ≤ va → vpn va = pfx 0 va * 512 + PX 0 va.
Proof.
  intros Hva. pose proof (PX_eq 0 va Hva) as E. change (Z.of_nat 0) with 0 in E. rewrite E. unfold pfx, vpn, PGSIZE.
  change (2 ^ (12 + 9 * (Z.of_nat 0 + 1))) with (4096 * 512). change (2 ^ (12 + 9 * 0)) with 4096.
  rewrite <- Z.div_div by lia. pose proof (Z.div_mod (va / 4096) 512). lia.
Qed.
Lemma pfx_2 va : 0 ≤ va < MAXVA → pfx 2 va = 0.
Proof. intros [? H]. unfold pfx. apply Z.div_small. split; [done|]. eapply Z.lt_le_trans; [exact H|]. done. Qed.
Lemma vpn_base va : vpn (va - va mod PGSIZE) = vpn va.
Proof.
  unfold vpn. rewrite (Z.div_mod va PGSIZE) at 1 by done.
  replace (PGSIZE * (va / PGSIZE) + va mod PGSIZE - va mod PGSIZE) with (va / PGSIZE * PGSIZE) by lia.
  by apply Z.div_mul.
Qed.

(** ** The tree of page-table pages

    [T] maps each page of the table rooted at [root] to its level and to the
    bits of the virtual address that lead to it. *)
Abbreviation tables := (gmap Z (nat * Z)).
Record PT (m : mem) (lvl : nat) (p0 root : Z) (T : tables) : Prop := {
  pt_root : T !! root = Some (lvl, p0);
  pt_frame q x : T !! q = Some x → frame q;
  pt_lvl q l pre : T !! q = Some (l, pre) → (l ≤ lvl)%nat;
  pt_down p l pre i : T !! p = Some (S l, pre) → 0 ≤ i < 512 → has (ld64 m (p + 8 * i)) PTE_V = true →
    T !! PTE2PA (ld64 m (p + 8 * i)) = Some (l, pre * 512 + i) ∧ PTE_FLAGS (ld64 m (p + 8 * i)) = PTE_V;
  pt_up q l pre : T !! q = Some (l, pre) → q = root ∨ ∃ p pre' i, T !! p = Some (S l, pre') ∧
    0 ≤ i < 512 ∧ pre = pre' * 512 + i ∧ has (ld64 m (p + 8 * i)) PTE_V = true ∧ PTE2PA (ld64 m (p + 8 * i)) = q;
}.

(** What [walk] without allocation computes. *)
Fixpoint wlk (m : mem) (l : nat) (p va : Z) : option Z :=
  match l with
  | O => Some (p + 8 * PX 0 va)
  | S l' =>
      let v := ld64 m (p + 8 * PX (Z.of_nat l) va) in
      if has v PTE_V then wlk m l' (PTE2PA v) va else None
  end.
(** The leaf entry for [va]; 0 when a table is missing. *)
Definition leaf (m : mem) (root va : Z) : Z :=
  match wlk m 2 root va with Some a => ld64 m a | None => 0 end.

Lemma idx_split p i p' i' : 0 ≤ i < 512 → 0 ≤ i' < 512 → p * 512 + i = p' * 512 + i' → p = p' ∧ i = i'.
Proof. lia. Qed.
Section pt.
Context {m : mem} {lvl : nat} {p0 root : Z} {T : tables} (H : PT m lvl p0 root T).

Lemma pt_unique l : ∀ pre q1 q2, T !! q1 = Some (l, pre) → T !! q2 = Some (l, pre) → q1 = q2.
Proof.
  assert (Hk : ∀ k l, (l + k = S lvl)%nat → ∀ pre q1 q2, T !! q1 = Some (l, pre) → T !! q2 = Some (l, pre) → q1 = q2).
  - induction k as [|k IH]; intros l0 Hl pre q1 q2 H1 H2; [apply (pt_lvl _ _ _ _ _ H) in H1; lia|].
    assert (Hroot : ∀ q, T !! q = Some (l0, pre) → q = root → l0 = lvl).
    { intros q Hq ->. rewrite (pt_root _ _ _ _ _ H) in Hq. by injection Hq. }
    destruct (pt_up _ _ _ _ _ H _ _ _ H1) as [E1|(a1 & b1 & i1 & A1 & I1 & P1 & V1 & <-)],
             (pt_up _ _ _ _ _ H _ _ _ H2) as [E2|(a2 & b2 & i2 & A2 & I2 & P2 & V2 & <-)]; [congruence|..].
    + pose proof (Hroot _ H1 E1). apply (pt_lvl _ _ _ _ _ H) in A2. lia.
    + pose proof (Hroot _ H2 E2). apply (pt_lvl _ _ _ _ _ H) in A1. lia.
    + destruct (idx_split b1 i1 b2 i2) as [-> ->]; [done|done|lia|].
      by rewrite (IH (S l0) ltac:(lia) b2 a1 a2 A1 A2).
  - intros pre q1 q2 H1. apply (Hk (S lvl - l)%nat); [|done]. apply (pt_lvl _ _ _ _ _ H) in H1. lia.
Qed.

(** Following the table from a page whose prefix matches. *)
Lemma wlk_some l : ∀ p va a, 0 ≤ va → T !! p = Some (l, pfx l va) → wlk m l p va = Some a →
  ∃ q, T !! q = Some (0%nat, pfx 0 va) ∧ a = q + 8 * PX 0 va.
Proof.
  induction l as [|l IH]; intros p va a Hva Hp; cbn [wlk]; [intros [= <-]; eauto|].
  destruct (has _ _) eqn:E; [|done]. intros Ha.
  destruct (pt_down _ _ _ _ _ H p l _ (PX (Z.of_nat (S l)) va) Hp) as [Hd _]; [by apply PX_range|done|].
  eapply IH; [done| |exact Ha]. rewrite Hd. by rewrite <- pfx_S.
Qed.
Lemma wlk_in l : ∀ p q va l0, 0 ≤ va → (l0 + l = lvl)%nat → T !! q = Some (l0, pfx l0 va) →
  T !! p = Some (lvl, pfx lvl va) → wlk m lvl p va = wlk m l0 q va.
Proof.
  induction l as [|l IH]; intros p q va l0 Hva Hl Hq Hp.
  { replace l0 with lvl in * by lia. by rewrite (pt_unique _ _ _ _ Hp Hq). }
  destruct (pt_up _ _ _ _ _ H _ _ _ Hq) as [->|(p' & pre & i & Hp' & Hi & Hpre & Hv & <-)].
  { pose proof (pt_root _ _ _ _ _ H) as Hr. rewrite Hr in Hq. injection Hq. lia. }
  rewrite (pfx_S l0) in Hpre by done. apply idx_split in Hpre as [<- <-]; [|by apply PX_range|done].
  rewrite (IH p p' va (S l0) Hva) by (done || lia). cbn [wlk]. by rewrite Hv.
Qed.
End pt.

Section root_table.
Context {m : mem} {root : Z} {T : tables} (H : PT m 2 0 root T).
Lemma root_pfx va : 0 ≤ va < MAXVA → T !! root = Some (2%nat, pfx 2 va).
Proof. intros. rewrite pfx_2 by done. apply H. Qed.
Lemma leaf_in va q : 0 ≤ va < MAXVA → T !! q = Some (0%nat, pfx 0 va) →
  wlk m 2 root va = Some (q + 8 * PX 0 va) ∧ leaf m root va = ld64 m (q + 8 * PX 0 va).
Proof.
  intros Hva Hq. unfold leaf. rewrite (wlk_in H 2 root q va 0); [done|lia|done|done|by apply root_pfx].
Qed.
Lemma leaf_out va : 0 ≤ va < MAXVA → (∀ q, T !! q ≠ Some (0%nat, pfx 0 va)) →
  wlk m 2 root va = None ∧ leaf m root va = 0.
Proof.
  intros Hva Hno. unfold leaf. destruct (wlk m 2 root va) as [a|] eqn:E; [|done].
  destruct (wlk_some H 2 root va a) as (q & Hq & _); [lia|by apply root_pfx|done|by destruct (Hno q)].
Qed.
Lemma leaf_cases va : 0 ≤ va < MAXVA →
  (∃ q, T !! q = Some (0%nat, pfx 0 va) ∧ wlk m 2 root va = Some (q + 8 * PX 0 va) ∧
     leaf m root va = ld64 m (q + 8 * PX 0 va)) ∨
  ((∀ q, T !! q ≠ Some (0%nat, pfx 0 va)) ∧ wlk m 2 root va = None ∧ leaf m root va = 0).
Proof.
  intros Hva. destruct (wlk m 2 root va) as [a|] eqn:E.
  - destruct (wlk_some H 2 root va a) as (q & Hq & ->); [lia|by apply root_pfx|done|].
    left. exists q. split_and!; [done|done|by apply leaf_in].
  - right. assert (Hno : ∀ q, T !! q ≠ Some (0%nat, pfx 0 va)).
    { intros q Hq. destruct (leaf_in va q Hva Hq). congruence. }
    split; [done|]. unfold leaf. by rewrite E.
Qed.
End root_table.

(** ** Changing tables *)
Definition in_page (q b : Z) : Prop := q ≤ b < q + PGSIZE.
Lemma in_page_eq q q' b : q mod PGSIZE = 0 → q' mod PGSIZE = 0 → in_page q b → in_page q' b → q = q'.
Proof.
  intros Hq Hq' H1 H2. destruct (Z.eq_dec q q'); [done|].
  pose proof (page_disjoint q q' Hq Hq' n). unfold in_page in *. lia.
Qed.
Lemma slot_ext m m' q i : 0 ≤ i < 512 → (∀ b, in_page q b → rdb m' b = rdb m b) →
  ld64 m' (q + 8 * i) = ld64 m (q + 8 * i).
Proof. intros Hi H. apply ld_ext. intros b Hb. apply H. unfold in_page, PGSIZE. lia. Qed.
Lemma ld_zero k m a : (∀ b, a ≤ b < a + Z.of_nat k → rdb m b = 0) → ld k m a = 0.
Proof.
  revert a. induction k as [|k IH]; intros a H; [done|]. unfold ld; fold ld. rewrite H by lia.
  rewrite IH; [done|]. intros b Hb. apply H. lia.
Qed.
Lemma PT_ext m m' lvl p0 root T : PT m lvl p0 root T →
  (∀ p l pre b, T !! p = Some (S l, pre) → in_page p b → rdb m' b = rdb m b) → PT m' lvl p0 root T.
Proof.
  intros [H1 H2 H3 H4 H5] Hm. constructor; [done..| |].
  - intros p l pre i Hp Hi. rewrite (slot_ext m m' p i) by eauto. eauto.
  - intros q l pre Hq. destruct (H5 q l pre Hq) as [?|(p & pre' & i & Hp & Hi & ? & Hv & ?)]; [by left|right].
    exists p, pre', i. rewrite (slot_ext m m' p i) by eauto. done.
Qed.
(** A new, zeroed table [q] is hung into the free slot [i] of [p]. *)
Lemma PT_add m m' lvl p0 root T p l pre i q :
  PT m lvl p0 root T → T !! p = Some (S l, pre) → 0 ≤ i < 512 →
  has (ld64 m (p + 8 * i)) PTE_V = false → T !! q = None → frame q →
  ld64 m' (p + 8 * i) = pte_of q 0 → (∀ b, in_page q b → rdb m' b = 0) →
  (∀ p' l' pre' i', T !! p' = Some (S l', pre') → 0 ≤ i' < 512 → (p', i') ≠ (p, i) →
     ld64 m' (p' + 8 * i') = ld64 m (p' + 8 * i')) →
  PT m' lvl p0 root (<[q := (l, pre * 512 + i)]> T).
Proof.
  intros [H1 H2 H3 H4 H5] Hp Hi Hv Hq Hqf Hslot Hz Hrest.
  assert (Hz0 : ∀ i', 0 ≤ i' < 512 → has (ld64 m' (q + 8 * i')) PTE_V = false).
  { intros i' Hi'. by rewrite ld_zero by (intros; apply Hz; unfold in_page, PGSIZE; lia). }
  constructor.
  - rewrite lookup_insert_ne; [done|]. congruence.
  - intros q' x [(<- & _)|[_ Hx]]%lookup_insert_Some; eauto.
  - intros q' l' pre' [(<- & [= <- <-])|[_ Hx]]%lookup_insert_Some; [|eauto]. apply H3 in Hp. lia.
  - intros p' l' pre' i' [(<- & [= -> _])|[_ Hx]]%lookup_insert_Some Hi' Hv'; [by rewrite Hz0 in Hv'|].
    destruct (decide ((p', i') = (p, i))) as [[= -> ->]|Hne].
    + rewrite Hslot, PTE2PA_of, PTE_FLAGS_of by done. rewrite Hp in Hx. injection Hx as <- <-.
      by rewrite lookup_insert_eq.
    + rewrite (Hrest p' l' pre' i') in * by done. destruct (H4 _ _ _ _ Hx Hi' Hv') as [Hd Hf].
      split; [|done]. rewrite lookup_insert_ne; [done|]. intros E. congruence.
  - intros q' l' pre' [(<- & [= <- <-])|[_ Hx]]%lookup_insert_Some.
    + right. exists p, pre, i. rewrite lookup_insert_ne by congruence. rewrite Hslot.
      split_and!; [done|lia|lia|done|by apply has_of_V|by apply PTE2PA_of].
    + destruct (H5 _ _ _ Hx) as [->|(p' & pre2 & i2 & Hp2 & Hi2 & ? & Hv2 & ?)]; [by left|right].
      exists p', pre2, i2. rewrite lookup_insert_ne by congruence.
      assert ((p', i2) ≠ (p, i)) by congruence. rewrite (Hrest p' l' pre2 i2) by done. done.
Qed.

(** ** Growth: what [walk] with allocation does *)
(** The bytes an operation may touch: the table's pages and the free pages. *)
Definition foot (T : tables) (l : list Z) (b : Z) : Prop :=
  ∃ q, (is_Some (T !! q) ∨ q ∈ l) ∧ in_page q b.
Definition keep (T : tables) (l : list Z) (m m' : mem) : Prop := ∀ b, ¬ foot T l b → rdb m' b = rdb m b.
Section grow.
Context (kend : Z).
Record TB (s : kmem) (l : list Z) (T : tables) (root : Z) : Prop := {
  tb_ka : KA kend s l;
  tb_pt : PT (ram s) 2 0 root T;
  tb_ok q : is_Some (T !! q) → page_ok kend q ∧ q ∉ l;
  tb_low q pre : T !! q = Some (0%nat, pre) → 0 ≤ pre < 2 ^ 17;
}.
Record grow (m : mem) (T : tables) (l : list Z) (m' : mem) (T' : tables) (l' : list Z) : Prop := {
  gr_sub : T ⊆ T';
  gr_new : ∃ np, l = np ++ l' ∧ ∀ q, is_Some (T' !! q) ↔ is_Some (T !! q) ∨ q ∈ np;
  gr_zero q pre b : T' !! q = Some (0%nat, pre) → T !! q = None → in_page q b → rdb m' b = 0;
  gr_same q pre b : T !! q = Some (0%nat, pre) → in_page q b → rdb m' b = rdb m b;
  gr_keep : keep T l m m';
}.
Lemma grow_refl m T l : grow m T l m T l.
Proof. constructor; [done| |congruence|done|done]. exists []. split; [done|]. set_solver. Qed.
Lemma grow_foot m T l m' T' l' b : grow m T l m' T' l' → foot T' l' b → foot T l b.
Proof.
  intros [_ (np & -> & Hnp) _ _ _] (q & Hq & Hb). exists q. split; [|done].
  destruct Hq as [Hq|Hq]; [apply Hnp in Hq|]; set_solver.
Qed.
Lemma grow_trans m1 T1 l1 m2 T2 l2 m3 T3 l3 :
  grow m1 T1 l1 m2 T2 l2 → grow m2 T2 l2 m3 T3 l3 → grow m1 T1 l1 m3 T3 l3.
Proof.
  intros G1 G2. pose proof (λ b, grow_foot _ _ _ _ _ _ b G1) as Hft.
  destruct G1 as [S1 (n1 & E1 & N1) Z1 A1 K1], G2 as [S2 (n2 & E2 & N2) Z2 A2 K2]. constructor.
  - by trans T2.
  - exists (n1 ++ n2). subst. split; [by rewrite app_assoc|]. intros q. rewrite N2, N1. set_solver.
  - intros q pre b H3 H1 Hb. destruct (T2 !! q) as [x|] eqn:E; [|eauto].
    assert (x = (0%nat, pre)) as -> by (apply (lookup_weaken _ T3) in E; [congruence|done]).
    rewrite (A2 _ _ _ E Hb). eauto.
  - intros q pre b H1 Hb. rewrite (A2 q pre b); [eauto| |done]. by apply (lookup_weaken T1).
  - intros b Hb. rewrite K2; [by apply K1|]. auto.
Qed.

(** Growth does not change any leaf entry. *)
Lemma leaf_grow m T l m' T' l' root va : grow m T l m' T' l' → PT m 2 0 root T → PT m' 2 0 root T' →
  0 ≤ va < MAXVA → leaf m' root va = leaf m root va.
Proof.
  intros [S N Zr A K] P P' Hva.
  assert (Hi : 0 ≤ PX 0 va < 512) by (apply (PX_range 0); lia).
  destruct (leaf_cases P va Hva) as [(q & Hq & _ & ->)|(Hno & _ & ->)].
  - destruct (leaf_in P' va q Hva) as [_ ->]; [by apply (lookup_weaken T)|]. apply slot_ext; eauto.
  - destruct (leaf_cases P' va Hva) as [(q & Hq & _ & ->)|(_ & _ & ->)]; [|done].
    apply ld_zero. intros b Hb. eapply Zr; [exact Hq| |unfold in_page, PGSIZE; lia].
    destruct (T !! q) as [x|] eqn:E; [|done]. destruct (Hno q). rewrite E.
    apply (lookup_weaken _ T') in E; [congruence|done].
Qed.

Lemma page_ok_frame q : page_ok kend q → frame q.
Proof. intros (? & [_ H] & ?). unfold PHYSTOP, KERNBASE in H. split; [done|lia]. Qed.
Lemma KA_ext s s' l : KA kend s l → freelist s' = freelist s →
  (∀ q b, q ∈ l → in_page q b → rdb (ram s') b = rdb (ram s) b) → KA kend s' l.
Proof.
  intros [Hc Hnd] Hf Hm. split; [|done]. rewrite Hf. eapply chain_ext; [|exact Hc].
  intros a b Ha Hb. apply (Hm a); [done|]. unfold in_page, PGSIZE. lia.
Qed.
Lemma KA_ok s l q : KA kend s l → q ∈ l → page_ok kend q.
Proof. intros [Hc _] Hq. by eapply chain_ok. Qed.

(** One page-table page is added by [walk]. *)
Lemma TB_add s s1 q l' T root p l pre i :
  TB s (q :: l') T root → KA kend s1 l' →
  (∀ b, ¬ in_page q b → rdb (ram s1) b = rdb (ram s) b) →
  T !! p = Some (S l, pre) → 0 ≤ i < 512 → has (ld64 (ram s) (p + 8 * i)) PTE_V = false →
  (l = 0%nat → 0 ≤ pre * 512 + i < 2 ^ 17) →
  let m2 := st64 (memset (ram s1) q 0 PGSIZE) (p + 8 * i) (Z.lor (PA2PTE q) PTE_V) in
  let T2 := <[q := (l, pre * 512 + i)]> T in
  TB (s1 <| ram := m2 |>) l' T2 root ∧ grow (ram s) T (q :: l') m2 T2 l'.
Proof.
  intros [HK HP HT Hlow] HK1 Hout Hp Hi Hv Hl0 m2 T2.
  assert (Em : m2 = st64 (memset (ram s1) q 0 PGSIZE) (p + 8 * i) (Z.lor (PA2PTE q) PTE_V)) by done.
  assert (ET : T2 = <[q := (l, pre * 512 + i)]> T) by done. clearbody m2 T2.
  assert (Hqok : page_ok kend q) by (apply (KA_ok _ _ _ HK); set_solver).
  assert (Hqf := page_ok_frame q Hqok). destruct (NoDup_cons q l') as [Hnd _].
  destruct (Hnd (proj2 HK)) as [Hql Hndl]. clear Hnd.
  destruct (HT p) as [Hpok Hpl]; [eauto|]. assert (Hpq : p ≠ q) by (intros ->; apply Hpl; by left).
  assert (Hal : ∀ x, is_Some (T !! x) ∨ x ∈ q :: l' → x mod PGSIZE = 0).
  { intros x [Hx|Hx]; [by apply HT in Hx as [(? & _) _]|by destruct (KA_ok _ _ _ HK Hx)]. }
  assert (Hq' : is_Some (T !! q) ∨ q ∈ q :: l') by (right; by left).
  assert (Hp' : is_Some (T !! p) ∨ p ∈ q :: l') by (left; by eexists).
  assert (HTq : T !! q = None).
  { destruct (T !! q) eqn:E; [|done]. destruct (HT q) as [_ Hn]; [by eexists|]. destruct Hn. by left. }
  assert (HA : ∀ b, ¬ in_page q b → ¬ p + 8 * i ≤ b < p + 8 * i + 8 → rdb m2 b = rdb (ram s) b).
  { intros b H1 H2. rewrite Em. rewrite rdb_sto by (simpl; lia). rewrite rdb_memset by done.
    rewrite (proj2 (within_false _ _ _)) by exact H1. by apply Hout. }
  assert (HB : ∀ b, in_page q b → rdb m2 b = 0).
  { intros b Hb. rewrite Em. rewrite rdb_sto.
    - rewrite rdb_memset by done. by rewrite (proj2 (within_spec _ _ _)) by exact Hb.
    - intros Hx. apply Hpq. eapply in_page_eq; [by apply Hal|by apply Hal| |exact Hb].
      unfold in_page, PGSIZE. simpl in Hx. lia. }
  assert (HS : ld64 m2 (p + 8 * i) = pte_of q 0).
  { rewrite Em, ld64_st64; clear Em; [unfold pte_of; by rewrite Z.lor_0_r|].
    pose proof (pte_of_range q 0 Hqf) as Hr. unfold pte_of in Hr. rewrite Z.lor_0_r in Hr. by apply Hr. }
  clear Em.
  assert (HO : ∀ x b, is_Some (T !! x) ∨ x ∈ q :: l' → x ≠ q → x ≠ p → in_page x b → rdb m2 b = rdb (ram s) b).
  { intros x b Hx Hxq Hxp Hb. apply HA; intros Hb'; [apply Hxq|apply Hxp];
      (eapply in_page_eq; [by apply Hal|by apply Hal|exact Hb|]); [done|].
    unfold in_page, PGSIZE. lia. }
  split; [split|split].
  - eapply KA_ext; [exact HK1|done|]. intros x b Hx Hb. cbn [ram set_field].
    assert (x ≠ q) by (intros ->; done). assert (x ≠ p) by (intros ->; apply Hpl; by right).
    assert (Hx' : is_Some (T !! x) ∨ x ∈ q :: l') by (right; by right).
    rewrite (HO x b), Hout; [done| |done..]. intros Hb'. by eapply in_page_eq in Hb'; [|apply Hal|apply Hal|].
  - cbn [ram set_field]. rewrite ET. eapply PT_add; eauto.
    + intros p' l2 pre' i' Hpp' Hi' Hne. destruct (decide (p' = p)) as [->|Hpp].
      * assert (i' ≠ i) by congruence. apply ld_ext. intros b Hb. apply HA; [|simpl in Hb; lia].
        intros Hq. apply Hpq. eapply in_page_eq; [by apply Hal|by apply Hal| |exact Hq].
        unfold in_page, PGSIZE. simpl in Hb. lia.
      * apply slot_ext; [done|]. intros b Hb. apply (HO p'); [left; by eexists|intros ->; congruence|done|done].
  - intros x [y Hx]. rewrite ET in Hx. apply lookup_insert_Some in Hx as [(<- & _)|[_ Hx]]; [done|].
    destruct (HT x) as [? Hn]; [by eexists|]. split; [done|]. intros ?. apply Hn. by right.
  - intros x pre'. rewrite ET. intros [(<- & [= -> <-])|[_ Hx]]%lookup_insert_Some; eauto.
  - rewrite ET. by apply insert_subseteq.
  - exists [q]. split; [done|]. intros x. rewrite ET. rewrite lookup_insert_is_Some', list_elem_of_singleton. naive_solver.
  - rewrite ET. intros x pre' b [(<- & _)|[_ Hx]]%lookup_insert_Some Hn Hb; [by apply HB|congruence].
  - intros x pre' b Hx Hb. apply (HO x); [left; by eexists|congruence|congruence|done].
  - intros b Hb. apply HA; intros Hb'; apply Hb; [exists q|exists p]; (split; [done|]); [done|].
    unfold in_page, PGSIZE. lia.
Qed.

(** ** walk *)
Lemma walk_loop_find l : ∀ p va h k s,
  wp (walk_loop l p va false) (λ r w', w' = World h k s ∧ r = default 0 (wlk (ram s) l p va)) (World h k s).
Proof.
  induction l as [|l IH]; intros p va h k s; cbn [walk_loop wlk]; [by apply wp_ret|].
  apply wp_bind, wp_gets. cbn [st]. destruct (has _ _); [apply IH|]. by apply wp_ret.
Qed.
Lemma walk_find root va h k s : va < MAXVA →
  wp (walk root va false) (λ r w', w' = World h k s ∧ r = default 0 (wlk (ram s) 2 root va)) (World h k s).
Proof.
  intros Hva. unfold walk. apply wp_bind, wp_when. rewrite Z.geb_leb. destruct (Z.leb_spec MAXVA va); [lia|].
  apply walk_loop_find.
Qed.

Definition walked (s : kmem) (l : list Z) (T : tables) (root va : Z) h k (r : Z) (w' : world kmem) : Prop :=
  ∃ s' l' T', w' = World h k s' ∧ TB s' l' T' root ∧ grow (ram s) T l (ram s') T' l' ∧
    ((r = 0 ∧ l' = []) ∨ ∃ q, T' !! q = Some (0%nat, pfx 0 va) ∧ r = q + 8 * PX 0 va).
Lemma pfx_low va : 0 ≤ va < MAXVA → 0 ≤ pfx 0 va < 2 ^ 17.
Proof.
  intros [H1 H2]. unfold pfx. split; [by apply Z.div_pos|]. apply Z.div_lt_upper_bound; [done|].
  eapply Z.lt_le_trans; [exact H2|done].
Qed.
Lemma walk_loop_alloc lv : ∀ p va h k s l T root, 0 ≤ va < MAXVA → kmem_lock ∉ h →
  TB s l T root → T !! p = Some (lv, pfx lv va) →
  wp (walk_loop lv p va true) (walked s l T root va h k) (World h k s).
Proof.
  induction lv as [|lv IH]; intros p va h k s l T root Hva Hh HT Hp; cbn [walk_loop].
  { apply wp_ret. exists s, l, T. split_and!; [done|done|apply grow_refl|right; eauto]. }
  pose proof (PX_range (S lv) va ltac:(lia)) as Hi. set (i := PX (Z.of_nat (S lv)) va) in *.
  apply wp_bind, wp_gets. cbn [st]. destruct (has _ _) eqn:E.
  { destruct (pt_down _ _ _ _ _ (tb_pt _ _ _ _ HT) _ _ _ _ Hp Hi E) as [Hd _].
    apply IH; [done..|]. rewrite Hd. unfold i. by rewrite <- pfx_S by lia. }
  cbn [negb]. apply wp_bind. eapply wp_mono; [apply (kalloc_spec kend s l); [apply HT|done]|].
  intros r ? (s1 & -> & Hr). destruct l as [|q l].
  { destruct Hr as [-> ->]. cbn [Z.eqb]. apply wp_ret. exists s, [], T. split_and!; [done|done|apply grow_refl|by left]. }
  destruct Hr as (-> & HK1 & _ & Hout).
  assert (q ≠ 0) by (destruct (KA_ok _ _ q (tb_ka _ _ _ _ HT)) as (_ & _ & ?); [by left|lia]).
  destruct (Z.eqb_spec q 0); [done|].
  destruct (TB_add s s1 q l T root p lv _ i HT HK1 Hout Hp Hi E) as [HT2 G2].
  { intros ->. unfold i. rewrite <- pfx_S by lia. by apply pfx_low. }
  apply wp_bind, wp_modify, wp_bind, wp_modify. cbn [set_field].
  eapply wp_mono; [apply (IH q va h k _ l _ root Hva Hh HT2)|].
  { rewrite lookup_insert_eq. unfold i. by rewrite <- pfx_S by lia. }
  intros r w' (s' & l' & T' & -> & HT' & G' & Hr). exists s', l', T'. split_and!; [done|done| |done].
  by eapply grow_trans.
Qed.
Lemma walk_alloc root va h k s l T : 0 ≤ va < MAXVA → kmem_lock ∉ h → TB s l T root →
  wp (walk root va true) (walked s l T root va h k) (World h k s).
Proof.
  intros Hva Hh HT. unfold walk. apply wp_bind, wp_when. rewrite Z.geb_leb.
  destruct (Z.leb_spec MAXVA va); [lia|]. apply walk_loop_alloc; [done|done|done|].
  apply (root_pfx (tb_pt _ _ _ _ HT)). lia.
Qed.
End grow.
