(* ===== verification/VmSpec.v ===== *)
(** * What the operations of kernel/vm.c do to an address space *)
From S2P Require Import Prelude Param CString Mem Kalloc Vm VmInv.

(** ** Leaves by page number *)
Lemma PX_vpn l va : 0 ≤ va → PX (Z.of_nat l) (vpn va * PGSIZE) = PX (Z.of_nat l) va.
Proof.
  intros. assert (0 ≤ vpn va) by (by apply Z.div_pos).
  rewrite !PX_eq by (unfold PGSIZE; lia). f_equal. unfold vpn, PGSIZE.
  replace (2 ^ (12 + 9 * Z.of_nat l)) with (4096 * 2 ^ (9 * Z.of_nat l)) by (rewrite Z.pow_add_r by lia; done).
  by rewrite <- !Z.div_div, Z.div_mul by lia.
Qed.
Lemma wlk_vpn m l p va : 0 ≤ va → wlk m l p (vpn va * PGSIZE) = wlk m l p va.
Proof.
  intros Hva. revert p. induction l as [|l IH]; intros p; cbn [wlk].
  - change 0 with (Z.of_nat 0). by rewrite PX_vpn.
  - rewrite PX_vpn by done. destruct (has _ _); [apply IH|done].
Qed.
Lemma leaf_vpn m root va : 0 ≤ va → leaf m root (vpn va * PGSIZE) = leaf m root va.
Proof. intros. unfold leaf. by rewrite wlk_vpn. Qed.
Lemma leaf_same m m' root T va : PT m 2 0 root T → PT m' 2 0 root T →
  (∀ q pre b, T !! q = Some (0%nat, pre) → in_page q b → rdb m' b = rdb m b) →
  0 ≤ va < MAXVA → leaf m' root va = leaf m root va.
Proof.
  intros P P' Hm Hva. assert (Hi : 0 ≤ PX 0 va < 512) by (apply (PX_range 0); lia).
  destruct (leaf_cases P va Hva) as [(q & Hq & _ & ->)|(Hno & _ & ->)].
  - destruct (leaf_in P' va q Hva Hq) as [_ ->]. apply slot_ext; eauto.
  - by destruct (leaf_out P' va Hva Hno) as [_ ->].
Qed.
Lemma vpn_page v : vpn (v * PGSIZE) = v.
Proof. unfold vpn. by apply Z.div_mul. Qed.
Definition NPAGES : Z := 2 ^ 26.
Lemma page_va v : 0 ≤ v < NPAGES → 0 ≤ v * PGSIZE < MAXVA.
Proof. unfold NPAGES, PGSIZE. change MAXVA with (2 ^ 26 * 4096). lia. Qed.
Lemma va_page va : 0 ≤ va < MAXVA → 0 ≤ vpn va < NPAGES.
Proof.
  change MAXVA with (2 ^ 26 * 4096). unfold NPAGES, vpn, PGSIZE. intros.
  split; [apply Z.div_pos; lia|apply Z.div_lt_upper_bound; lia].
Qed.

(** ** The abstract address space *)
Abbreviation space := (gmap Z (Z * Z)).
(** The pages a table may use: its own and the free ones. *)
Definition pool (T : tables) (l : list Z) (q : Z) : Prop := is_Some (T !! q) ∨ q ∈ l.

Section space.
Context (kend : Z).

(** [VM s l T root U fr]: [l] is the free list, the page table at [root] has the
    pages [T] and maps virtual page [v] to [pa] with flags [f] exactly when
    [U !! v = Some (pa, f)]; the pages [fr] are allocated to somebody else
    (user memory, for instance); all these pages are distinct. *)
Record VM (s : kmem) (l : list Z) (T : tables) (root : Z) (U : space) (fr : list Z) : Prop := {
  vm_tb : TB kend s l T root;
  vm_some v pa f : U !! v = Some (pa, f) →
    0 ≤ v < NPAGES ∧ frame pa ∧ 0 ≤ f < 2 ^ 10 ∧ leaf (ram s) root (v * PGSIZE) = pte_of pa f;
  vm_none v : U !! v = None → 0 ≤ v < NPAGES → has (leaf (ram s) root (v * PGSIZE)) PTE_V = false;
  vm_nodup : NoDup (l ++ fr);
  vm_fr q : q ∈ fr → page_ok kend q ∧ T !! q = None;
}.

Lemma grow_pool m T l m' T' l' q : grow m T l m' T' l' → pool T' l' q ↔ pool T l q.
Proof. intros [_ (np & -> & Hnp) _ _ _]. unfold pool. rewrite Hnp, elem_of_app. tauto. Qed.
Lemma VM_grow s l T root U fr s' l' T' :
  VM s l T root U fr → TB kend s' l' T' root → grow (ram s) T l (ram s') T' l' → VM s' l' T' root U fr.
Proof.
  intros [HT HS HN Hnd Hfr] HT' G.
  assert (HL : ∀ v, 0 ≤ v < NPAGES → leaf (ram s') root (v * PGSIZE) = leaf (ram s) root (v * PGSIZE)).
  { intros v Hv. eapply leaf_grow; [exact G|apply HT|apply HT'|by apply page_va]. }
  constructor; [done|..].
  - intros v pa f Hv. destruct (HS v pa f Hv) as (A & B & C & D). by rewrite HL.
  - intros v Hv Hr. rewrite HL by done. eauto.
  - destruct (gr_new _ _ _ _ _ _ G) as (np & -> & _). rewrite <- app_assoc in Hnd.
    by apply NoDup_app in Hnd as (_ & _ & Hnd).
  - intros q Hq. destruct (Hfr q Hq) as [A B]. split; [done|].
    destruct (T' !! q) as [x|] eqn:E; [|done]. exfalso.
    destruct (proj1 (grow_pool _ _ _ _ _ _ q G)) as [Hx|Hx]; [left; by eexists|by rewrite B in Hx; destruct Hx|].
    apply NoDup_app in Hnd as (_ & Hd & _). by apply (Hd q).
Qed.

(** Memory may change freely outside the tables and the free list. *)
Lemma VM_keep s s' l T root U fr : VM s l T root U fr → freelist s' = freelist s →
  (∀ b, foot T l b → rdb (ram s') b = rdb (ram s) b) → VM s' l T root U fr.
Proof.
  intros [HT HS HN Hnd Hfr] Hf Hm.
  assert (HT' : TB kend s' l T root).
  { destruct HT as [HK HP HO Hlow]. split; [| |done|done].
    - eapply KA_ext; [done|done|]. intros q b Hq Hb. apply Hm. exists q. auto.
    - eapply PT_ext; [done|]. intros p lv pre b Hp Hb. apply Hm. exists p. eauto. }
  assert (HL : ∀ v, 0 ≤ v < NPAGES → leaf (ram s') root (v * PGSIZE) = leaf (ram s) root (v * PGSIZE)).
  { intros v Hv. eapply leaf_same; [apply HT|apply HT'| |by apply page_va].
    intros q pre b Hq Hb. apply Hm. exists q. eauto. }
  constructor; [done|..]; [|intros v Hv Hr; rewrite HL by done; eauto|done|done].
  intros v pa f Hv. destruct (HS v pa f Hv) as (A & B & C & D). by rewrite HL.
Qed.

(** ** Writing a leaf entry *)
Lemma slot_inj T m root q q' va va' : PT m 2 0 root T → 0 ≤ va → 0 ≤ va' →
  T !! q = Some (0%nat, pfx 0 va) → T !! q' = Some (0%nat, pfx 0 va') →
  ¬ (q + 8 * PX 0 va + 8 ≤ q' + 8 * PX 0 va' ∨ q' + 8 * PX 0 va' + 8 ≤ q + 8 * PX 0 va) → vpn va = vpn va'.
Proof.
  intros P Hva Hva' Hq Hq' Hov.
  pose proof (PX_range 0 va Hva) as Hi. pose proof (PX_range 0 va' Hva') as Hi'. change (Z.of_nat 0) with 0 in *.
  destruct (pt_frame _ _ _ _ _ P _ _ Hq) as [Hal _], (pt_frame _ _ _ _ _ P _ _ Hq') as [Hal' _].
  assert (q = q') as <-.
  { destruct (Z.eq_dec q q') as [|Hne]; [done|]. pose proof (page_disjoint q q' Hal Hal' Hne). unfold PGSIZE in *. lia. }
  rewrite Hq in Hq'. injection Hq' as E. rewrite !vpn_split by done. lia.
Qed.
Lemma store_leaf s l T root va q v :
  TB kend s l T root → 0 ≤ va < MAXVA → T !! q = Some (0%nat, pfx 0 va) → 0 ≤ v < 2 ^ 64 →
  let s' := s <| ram := st64 (ram s) (q + 8 * PX 0 va) v |> in
  TB kend s' l T root ∧ keep T l (ram s) (ram s') ∧
  ∀ va', 0 ≤ va' < MAXVA → leaf (ram s') root va' = if decide (vpn va' = vpn va) then v else leaf (ram s) root va'.
Proof.
  intros [HK HP HO Hlow] Hva Hq Hv s'.
  pose proof (PX_range 0 va ltac:(lia)) as Hi. change (Z.of_nat 0) with 0 in Hi.
  set (a := q + 8 * PX 0 va). assert (Hr : ∀ b, ¬ in_page q b → rdb (ram s') b = rdb (ram s) b).
  { intros b Hb. cbn [ram s' set_field]. apply rdb_sto. unfold in_page, PGSIZE in Hb. simpl. lia. }
  destruct (HO q) as [(Hal & _) Hql]; [by eexists|].
  assert (Hother : ∀ x b, x mod PGSIZE = 0 → x ≠ q → in_page x b → rdb (ram s') b = rdb (ram s) b).
  { intros x b Hx Hne Hb. apply Hr. intros Hb'. apply Hne. by eapply in_page_eq. }
  assert (P' : PT (ram s') 2 0 root T).
  { eapply PT_ext; [done|]. intros p lv pre b Hp Hb. apply (Hother p); [by apply HO; eexists|congruence|done]. }
  split_and!.
  - split; [|done|done|done]. eapply KA_ext; [done|done|]. intros x b Hx Hb.
    apply (Hother x); [by destruct (KA_ok _ _ _ _ HK Hx)|by intros ->|done].
  - intros b Hb. apply Hr. intros Hb'. apply Hb. exists q. split; [left; by eexists|done].
  - intros va' Hva'. destruct (leaf_cases HP va' Hva') as [(q' & Hq' & _ & ->)|(Hno & _ & ->)].
    + destruct (leaf_in P' va' q' Hva' Hq') as [_ ->]. cbn [ram s' set_field]. case_decide as E.
      * rewrite !vpn_split in E by lia. pose proof (PX_range 0 va' ltac:(lia)) as Hi'. change (Z.of_nat 0) with 0 in Hi'.
        apply idx_split in E as [E1 E2]; [|done|done]. rewrite E1 in Hq'.
        rewrite (pt_unique HP _ _ _ _ Hq' Hq), E2. by apply ld64_st64.
      * apply ld_sto_other. apply dec_stable. intros Hn. apply E.
        eapply (slot_inj T (ram s) root q' q va' va HP); try done; try lia.
    + destruct (leaf_out P' va' Hva' Hno) as [_ ->]. rewrite decide_False; [done|]. intros E.
      rewrite !vpn_split in E by lia. pose proof (PX_range 0 va' ltac:(lia)) as Hi'. change (Z.of_nat 0) with 0 in Hi'.
      apply idx_split in E as [E1 _]; [|done|done]. apply (Hno q). by rewrite E1.
Qed.
Lemma VM_set s l T root U U' fr va q v :
  VM s l T root U fr → 0 ≤ va < MAXVA → T !! q = Some (0%nat, pfx 0 va) → 0 ≤ v < 2 ^ 64 →
  (∀ v', v' ≠ vpn va → U' !! v' = U !! v') →
  match U' !! vpn va with
  | Some (pa, f) => frame pa ∧ 0 ≤ f < 2 ^ 10 ∧ v = pte_of pa f
  | None => has v PTE_V = false
  end →
  let s' := s <| ram := st64 (ram s) (q + 8 * PX 0 va) v |> in
  VM s' l T root U' fr ∧ keep T l (ram s) (ram s').
Proof.
  intros [HT HS HN Hnd Hfr] Hva Hq Hv HU Hat s'.
  destruct (store_leaf s l T root va q v HT Hva Hq Hv) as (HT' & Hk & HL). fold s' in HT', Hk, HL.
  split; [|done]. constructor; [done|..|done|done].
  - intros v' pa f Hv'. destruct (decide (v' = vpn va)) as [->|Hne].
    + rewrite Hv' in Hat. destruct Hat as (A & B & C). pose proof (va_page va Hva).
      rewrite HL, vpn_page, decide_True by (done || by apply page_va). done.
    + rewrite HU in Hv' by done. destruct (HS v' pa f Hv') as (A & B & C & D).
      rewrite HL, vpn_page, decide_False by (done || by apply page_va). done.
  - intros v' Hv' Hr. rewrite HL, vpn_page by (by apply page_va). case_decide as E.
    + subst v'. by rewrite Hv' in Hat.
    + apply HN; [|done]. by rewrite <- HU.
Qed.

(** ** The allocator under an address space *)
Lemma VM_perm s l T root U fr fr' : fr ≡ₚ fr' → VM s l T root U fr → VM s l T root U fr'.
Proof.
  intros Hp [HT HS HN Hnd Hfr]. constructor; [done..| |].
  - by rewrite <- Hp.
  - intros q Hq. apply Hfr. by rewrite Hp.
Qed.
Lemma pool_aligned s l T root U fr q : VM s l T root U fr → pool T l q → q mod PGSIZE = 0.
Proof.
  intros [[HK HP HO _] _ _ _ _] [Hq|Hq]; [by destruct (HO q Hq) as [(? & _) _]|by destruct (KA_ok _ _ _ _ HK Hq)].
Qed.
Lemma fr_foot s l T root U fr q b : VM s l T root U fr → q ∈ fr → in_page q b → ¬ foot T l b.
Proof.
  intros HV Hq Hb (p & Hp & Hb'). destruct (vm_fr _ _ _ _ _ _ HV q Hq) as [(Hal & _) Hn].
  assert (p = q) as -> by (eapply in_page_eq; eauto using pool_aligned).
  destruct Hp as [[x Hx]|Hp]; [congruence|].
  destruct (proj1 (NoDup_app _ _) (vm_nodup _ _ _ _ _ _ HV)) as (_ & Hd & _). by apply (Hd q).
Qed.
Lemma VM_kalloc s l T root U fr h k : VM s l T root U fr → kmem_lock ∉ h →
  wp kalloc (λ r w', ∃ s', w' = World h k s' ∧
      match l with
      | [] => r = 0 ∧ s' = s
      | pa :: l' => r = pa ∧ pa ≠ 0 ∧ VM s' l' T root U (pa :: fr) ∧
          ∀ b, ¬ in_page pa b → rdb (ram s') b = rdb (ram s) b
      end) (World h k s).
Proof.
  intros HV Hh. pose proof HV as [[HK HP HO Hlow] HS HN Hnd Hfr].
  eapply wp_mono; [by apply (kalloc_spec kend s l)|].
  intros r w' (s' & -> & Hr). exists s'. split; [done|]. destruct l as [|pa l]; [done|].
  destruct Hr as (-> & HK' & _ & Hout).
  assert (Hpa : page_ok kend pa) by (apply (KA_ok _ _ _ _ HK); by left).
  assert (HTpa : T !! pa = None).
  { destruct (T !! pa) eqn:E; [|done]. destruct (HO pa) as [_ Hn]; [by eexists|]. destruct Hn. by left. }
  split_and!; [done|by destruct Hpa as (_ & _ & ?); lia| |done].
  assert (HE : ∀ x b, is_Some (T !! x) → in_page x b → rdb (ram s') b = rdb (ram s) b).
  { intros x b Hx Hb. apply Hout. intros Hb'. assert (x = pa) as ->; [|rewrite HTpa in Hx; by destruct Hx].
    eapply in_page_eq; [by apply HO|by destruct Hpa|done|done]. }
  assert (HP' : PT (ram s') 2 0 root T) by (eapply PT_ext; [done|]; intros; eapply HE; eauto).
  assert (HL : ∀ v, 0 ≤ v < NPAGES → leaf (ram s') root (v * PGSIZE) = leaf (ram s) root (v * PGSIZE)).
  { intros v Hv. eapply leaf_same; [done|done| |by apply page_va]. intros; eapply HE; eauto. }
  constructor.
  - split; [done|done| |done]. intros q Hq. destruct (HO q Hq) as [? Hn]. split; [done|]. intros ?. apply Hn. by right.
  - intros v pa' f Hv. destruct (HS v pa' f Hv) as (A & B & C & D). by rewrite HL.
  - intros v Hv Hr. rewrite HL by done. eauto.
  - by rewrite <- Permutation_middle.
  - intros q [->|Hq]%elem_of_cons; [done|auto].
Qed.
Lemma VM_kfree s l T root U fr pa h k : VM s l T root U (pa :: fr) → kmem_lock ∉ h →
  wp (kfree kend pa) (λ _ w', ∃ s', w' = World h k s' ∧ VM s' (pa :: l) T root U fr ∧
    ∀ b, ¬ in_page pa b → rdb (ram s') b = rdb (ram s) b) (World h k s).
Proof.
  intros HV Hh. pose proof HV as [[HK HP HO Hlow] HS HN Hnd Hfr].
  destruct (Hfr pa) as [Hpa HTpa]; [by left|].
  rewrite <- Permutation_middle in Hnd. apply NoDup_cons in Hnd as [Hpl Hnd].
  eapply wp_mono; [apply (kfree_spec kend s l pa); [done|done| |done]|].
  { intros Hx. apply Hpl. apply elem_of_app. by left. }
  intros _ w' (s' & -> & HK' & Hout). exists s'. split_and!; [done| |done].
  assert (HE : ∀ x b, is_Some (T !! x) → in_page x b → rdb (ram s') b = rdb (ram s) b).
  { intros x b Hx Hb. apply Hout. intros Hb'. assert (x = pa) as ->; [|rewrite HTpa in Hx; by destruct Hx].
    eapply in_page_eq; [by apply HO|by destruct Hpa|done|done]. }
  assert (HP' : PT (ram s') 2 0 root T) by (eapply PT_ext; [done|]; intros; eapply HE; eauto).
  assert (HL : ∀ v, 0 ≤ v < NPAGES → leaf (ram s') root (v * PGSIZE) = leaf (ram s) root (v * PGSIZE)).
  { intros v Hv. eapply leaf_same; [done|done| |by apply page_va]. intros; eapply HE; eauto. }
  constructor.
  - split; [done|done| |done]. intros q Hq. destruct (HO q Hq) as [? Hn]. split; [done|].
    intros [->|?]%elem_of_cons; [rewrite HTpa in Hq; by destruct Hq|done].
  - intros v pa' f Hv. destruct (HS v pa' f Hv) as (A & B & C & D). by rewrite HL.
  - intros v Hv Hr. rewrite HL by done. eauto.
  - cbn [app]. by apply NoDup_cons.
  - intros q Hq. apply Hfr. by right.
Qed.
(** Writing the pages of [fr]. *)
Lemma VM_write s s' l T root U fr : VM s l T root U fr → freelist s' = freelist s →
  (∀ b, (∀ q, q ∈ fr → ¬ in_page q b) → rdb (ram s') b = rdb (ram s) b) → VM s' l T root U fr.
Proof.
  intros HV Hf Hm. eapply VM_keep; [done|done|]. intros b Hb. apply Hm. intros q Hq Hb'.
  by eapply fr_foot.
Qed.

(** ** mappages *)
(** Only tables and free pages change hands. *)
Record evo (s : kmem) (l : list Z) (T : tables) (s' : kmem) (l' : list Z) (T' : tables) : Prop := {
  ev_sub : T ⊆ T';
  ev_pool q : pool T' l' q ↔ pool T l q;
  ev_keep : keep T l (ram s) (ram s');
}.
Lemma pool_foot T l T' l' b : (∀ q, pool T' l' q ↔ pool T l q) → foot T' l' b ↔ foot T l b.
Proof. intros H. split; intros (q & Hq & Hb); exists q; (split; [by apply H|done]). Qed.
Lemma evo_refl s l T : evo s l T s l T.
Proof. by constructor. Qed.
Lemma evo_trans s1 l1 T1 s2 l2 T2 s3 l3 T3 :
  evo s1 l1 T1 s2 l2 T2 → evo s2 l2 T2 s3 l3 T3 → evo s1 l1 T1 s3 l3 T3.
Proof.
  intros [A1 B1 C1] [A2 B2 C2]. constructor.
  - by trans T2.
  - intros q. by rewrite B2, B1.
  - intros b Hb. rewrite C2, C1; [done|done|]. by rewrite (pool_foot _ _ _ _ b B1).
Qed.
Lemma grow_evo s l T s' l' T' : grow (ram s) T l (ram s') T' l' → evo s l T s' l' T'.
Proof. intros G. constructor; [apply G|intros; by eapply grow_pool|apply G]. Qed.

Fixpoint map_range (U : space) (v pa f : Z) (k : nat) : space :=
  match k with
  | O => U
  | S k => <[v + Z.of_nat k := (pa + Z.of_nat k * PGSIZE, f)]> (map_range U v pa f k)
  end.
Lemma map_range_lookup U v pa f k x : map_range U v pa f k !! x =
  if decide (v ≤ x < v + Z.of_nat k) then Some (pa + (x - v) * PGSIZE, f) else U !! x.
Proof.
  induction k as [|k IH]; cbn [map_range]; [by rewrite decide_False by lia|].
  destruct (decide (x = v + Z.of_nat k)) as [->|Hne].
  - rewrite lookup_insert_eq, decide_True by lia. do 2 f_equal. lia.
  - rewrite lookup_insert_ne, IH by done. repeat case_decide; done || lia.
Qed.

Lemma VM_walk s l T root U fr va h k : VM s l T root U fr → 0 ≤ va < MAXVA → kmem_lock ∉ h →
  wp (walk root va true) (λ r w', ∃ s' l' T', w' = World h k s' ∧ VM s' l' T' root U fr ∧ evo s l T s' l' T' ∧
    ((r = 0 ∧ l' = []) ∨ r ≠ 0 ∧ ∃ q, T' !! q = Some (0%nat, pfx 0 va) ∧ r = q + 8 * PX 0 va)) (World h k s).
Proof.
  intros HV Hva Hh. eapply wp_mono; [apply (walk_alloc kend root va h k s l T); [done|done|apply HV]|].
  intros r w' (s' & l' & T' & -> & HT' & G & Hr). exists s', l', T'. split_and!; [done| |by apply grow_evo|].
  - by eapply VM_grow.
  - destruct Hr as [?|(q & Hq & ->)]; [by left|right]. split; [|eauto].
    pose proof (PX_range 0 va ltac:(lia)) as Hi. change (Z.of_nat 0) with 0 in Hi.
    destruct (pt_frame _ _ _ _ _ (tb_pt _ _ _ _ _ HT') _ _ Hq). lia.
Qed.
Lemma leaf_at s l T root U fr va q : VM s l T root U fr → 0 ≤ va < MAXVA →
  T !! q = Some (0%nat, pfx 0 va) → ld64 (ram s) (q + 8 * PX 0 va) = leaf (ram s) root (vpn va * PGSIZE).
Proof. intros HV Hva Hq. rewrite leaf_vpn by lia. symmetry. by apply (leaf_in (tb_pt _ _ _ _ _ (vm_tb _ _ _ _ _ _ HV))). Qed.

Lemma u64_page a : 0 ≤ a < 2 ^ 63 → u64 (a + PGSIZE) = a + PGSIZE.
Proof. intros. apply u64_small. unfold PGSIZE. lia. Qed.
Lemma mappages_spec s l T root U fr va size pa perm N h k :
  VM s l T root U fr → kmem_lock ∉ h → 0 ≤ va → 0 < size → va + size ≤ MAXVA →
  Z.of_nat N = vpn (va + size - 1) - vpn va + 1 →
  frame pa → pa + Z.of_nat N * PGSIZE ≤ 2 ^ 56 → 0 ≤ perm < 2 ^ 10 →
  (∀ i, vpn va ≤ i < vpn va + Z.of_nat N → U !! i = None) →
  wp (mappages root va size pa perm) (λ r w', ∃ s' l' T' n, w' = World h k s' ∧
     VM s' l' T' root (map_range U (vpn va) pa perm n) fr ∧ evo s l T s' l' T' ∧
     ((r = 0 ∧ n = N) ∨ (r = -1 ∧ (n < N)%nat ∧ l' = []))) (World h k s).
Proof.
  intros HV Hh Hva Hsz Hmax HN Hpa Hpa2 Hperm HU. unfold mappages.
  assert (Hm : MAXVA = 2 ^ 38) by done.
  apply wp_bind, wp_when. rewrite (proj2 (Z.eqb_neq size 0)) by lia.
  rewrite u64_small, !PGROUNDDOWN_eq by lia.
  assert (Hpg : ∀ x, x - x mod PGSIZE = vpn x * PGSIZE) by (intros x; unfold vpn; pose proof (Z.div_mod x PGSIZE ltac:(done)); lia).
  rewrite !Hpg. set (v0 := vpn va) in *. set (v1 := vpn (va + size - 1)) in *.
  assert (Hv1 : 0 ≤ v0 ≤ v1 ∧ v1 < NPAGES).
  { split; [split; [by apply Z.div_pos|apply Z.div_le_mono; [done|lia]]|]. apply va_page. lia. }
  eapply (wp_loop _ (λ n '(a, p) w, ∃ j s' l' T', w = World h k s' ∧ a = (v0 + Z.of_nat j) * PGSIZE ∧
      p = pa + Z.of_nat j * PGSIZE ∧ n = Z.of_nat N - Z.of_nat j ∧ 0 < n ∧
      VM s' l' T' root (map_range U v0 pa perm j) fr ∧ evo s l T s' l' T')) with (n := Z.of_nat N).
  - intros n [a p] w (j & s' & l' & T' & _ & _ & _ & _ & ? & _). lia.
  - intros n [a p] w (j & s' & l' & T' & -> & -> & -> & Hn & Hpos & HV' & Hev).
    assert (Hvj : 0 ≤ v0 + Z.of_nat j < NPAGES) by lia. pose proof (page_va _ Hvj) as Hvaj.
    apply wp_bind. eapply wp_mono; [by apply (VM_walk s' l' T' root _ fr _ h k HV')|].
    intros r w' (s2 & l2 & T2 & -> & HV2 & Hev2 & Hr). pose proof (evo_trans _ _ _ _ _ _ _ _ _ Hev Hev2) as Hev3.
    destruct Hr as [[-> ->]|(Hr0 & q & Hq & ->)].
    { cbn [Z.eqb]. apply wp_ret. exists s2, [], T2, j. split_and!; [done|done|done|right; split_and!; [done|lia|done]]. }
    destruct (Z.eqb_spec (q + 8 * PX 0 ((v0 + Z.of_nat j) * PGSIZE)) 0); [done|].
    apply wp_bind, wp_gets. cbn [st]. rewrite (leaf_at s2 l2 T2 root _ fr _ q HV2 Hvaj Hq), vpn_page.
    rewrite (vm_none _ _ _ _ _ _ HV2); [|rewrite map_range_lookup, decide_False by lia; apply HU; lia|done].
    apply wp_bind, wp_ret. apply wp_bind, wp_modify.
    assert (Hfj : frame (pa + Z.of_nat j * PGSIZE)).
    { destruct Hpa as [Hal Hpa]. split; [|unfold PGSIZE in *; lia]. by rewrite Z_mod_plus_full. }
    destruct (VM_set s2 l2 T2 root _ (map_range U v0 pa perm (S j)) fr _ q (pte_of (pa + Z.of_nat j * PGSIZE) perm) HV2 Hvaj Hq)
      as [HV3 Hk3].
    { by apply pte_of_range. }
    { intros v'. rewrite vpn_page. intros Hne. cbn [map_range]. by rewrite lookup_insert_ne. }
    { rewrite vpn_page. cbn [map_range]. by rewrite lookup_insert_eq. }
    set (s3 := s2 <| ram := _ |>) in *. change (_ <| ram ::= _ |>) with s3.
    assert (Hev4 : evo s l T s3 l2 T2) by (eapply evo_trans; [exact Hev3|by constructor]).
    destruct (Z.eqb_spec ((v0 + Z.of_nat j) * PGSIZE) (v1 * PGSIZE)) as [E|E]; apply wp_ret.
    + exists s3, l2, T2, (S j). split_and!; [done|done|done|left]. split; [done|]. unfold PGSIZE in E. lia.
    + exists (n - 1). split; [|lia]. exists (S j), s3, l2, T2.
      rewrite !u64_small by (destruct Hpa; unfold PGSIZE, NPAGES in *; lia). 
      split_and!; [done|unfold PGSIZE; lia|unfold PGSIZE; lia|lia|unfold PGSIZE in E; lia|done|done].
  - exists 0%nat, s, l, T. split_and!; [done|lia|lia|lia|lia|done|apply evo_refl].
  - assert (v1 < 2 ^ 26) by (unfold NPAGES in Hv1; lia). simpl Z.of_nat. lia.
Qed.

(** ** uvmunmap *)
Lemma VM_find s l T root U fr va pa f : VM s l T root U fr → 0 ≤ va < MAXVA → U !! vpn va = Some (pa, f) →
  ∃ q, T !! q = Some (0%nat, pfx 0 va) ∧ wlk (ram s) 2 root va = Some (q + 8 * PX 0 va) ∧
    ld64 (ram s) (q + 8 * PX 0 va) = pte_of pa f ∧ q + 8 * PX 0 va ≠ 0.
Proof.
  intros HV Hva HU. destruct (vm_some _ _ _ _ _ _ HV _ _ _ HU) as (_ & Hpa & Hf & HL).
  rewrite leaf_vpn in HL by lia. pose proof (tb_pt _ _ _ _ _ (vm_tb _ _ _ _ _ _ HV)) as HP.
  destruct (leaf_cases HP va Hva) as [(q & Hq & Hw & E)|(_ & _ & E)].
  - exists q. split_and!; [done|done|congruence|].
    pose proof (PX_range 0 va ltac:(lia)) as Hi. change (Z.of_nat 0) with 0 in Hi.
    destruct (pt_frame _ _ _ _ _ HP _ _ Hq). lia.
  - rewrite E in HL. pose proof (has_of_V pa f Hpa Hf) as HH. by rewrite <- HL in HH.
Qed.
Fixpoint unmap_range (U : space) (v : Z) (k : nat) : space :=
  match k with O => U | S k => delete (v + Z.of_nat k) (unmap_range U v k) end.
Lemma unmap_range_lookup U v k x : unmap_range U v k !! x =
  if decide (v ≤ x < v + Z.of_nat k) then None else U !! x.
Proof.
  induction k as [|k IH]; cbn [unmap_range]; [by rewrite decide_False by lia|].
  destruct (decide (x = v + Z.of_nat k)) as [->|Hne].
  - by rewrite lookup_delete_eq, decide_True by lia.
  - rewrite lookup_delete_ne, IH by done. repeat case_decide; done || lia.
Qed.

(** [pas]: the physical pages of the range. *)
Definition mapped (U : space) (v : Z) (pas : list Z) : Prop :=
  ∀ i pa, pas !! i = Some pa → ∃ f, U !! (v + Z.of_nat i) = Some (pa, f) ∧ Z.lor f PTE_V ≠ PTE_V.

(** One turn of uvmunmap's loop after the entry has been found. *)
Lemma unmap_one {A} (K : M kmem A) Φ s l T root U fr pa f v q (do_free : bool) h k :
  VM s l T root U (if do_free then pa :: fr else fr) → kmem_lock ∉ h → 0 ≤ v < NPAGES → U !! v = Some (pa, f) →
  T !! q = Some (0%nat, pfx 0 (v * PGSIZE)) →
  (∀ s', VM s' (if do_free then pa :: l else l) T root (delete v U) fr → keep T (pa :: l) (ram s) (ram s') →
     wp K Φ (World h k s')) →
  wp (when do_free (kfree kend pa);; store64 (q + 8 * PX 0 (v * PGSIZE)) 0;; K) Φ (World h k s).
Proof.
  intros HV Hh Hv HU Hq HK. pose proof (page_va v Hv) as Hva.
  assert (Hset : ∀ s1 l1, VM s1 l1 T root U fr →
    (∀ s', VM s' l1 T root (delete v U) fr → keep T l1 (ram s1) (ram s') → wp K Φ (World h k s')) →
    wp (store64 (q + 8 * PX 0 (v * PGSIZE)) 0;; K) Φ (World h k s1)).
  { intros s1 l1 HV1 HK1. apply wp_bind, wp_modify.
    destruct (VM_set s1 l1 T root U (delete v U) fr (v * PGSIZE) q 0 HV1 Hva Hq) as [HV2 Hk2]; [done| | |eauto].
    - intros v'. rewrite vpn_page. intros. by rewrite lookup_delete_ne.
    - rewrite vpn_page. by rewrite lookup_delete_eq. }
  apply wp_bind, wp_when. destruct do_free.
  - eapply wp_mono; [by apply (VM_kfree s l T root U fr pa)|]. intros _ ? (s1 & -> & HV1 & Ho).
    apply (Hset s1 (pa :: l) HV1). intros s2 HV2 Hk2. apply HK; [done|].
    intros b Hb. rewrite Hk2, Ho; [done| |done]. intros Hb'. apply Hb. exists pa. split; [right; by left|done].
  - apply (Hset s l HV). intros s2 HV2 Hk2. apply HK; [done|]. intros b Hb. apply Hk2. intros (x & Hx & Hb').
    apply Hb. exists x. split; [|done]. destruct Hx; [by left|right; by right].
Qed.
Lemma VM_walk_found {A} (K : Z → M kmem A) Φ s l T root U fr v pa f h k :
  VM s l T root U fr → 0 ≤ v < NPAGES → U !! v = Some (pa, f) →
  (∀ q, T !! q = Some (0%nat, pfx 0 (v * PGSIZE)) → q + 8 * PX 0 (v * PGSIZE) ≠ 0 →
     ld64 (ram s) (q + 8 * PX 0 (v * PGSIZE)) = pte_of pa f → wp (K (q + 8 * PX 0 (v * PGSIZE))) Φ (World h k s)) →
  wp (bind (walk root (v * PGSIZE) false) K) Φ (World h k s).
Proof.
  intros HV Hv HU HK. pose proof (page_va v Hv) as Hva.
  destruct (VM_find s l T root U fr (v * PGSIZE) pa f HV Hva) as (q & Hq & Hw & Hld & Hne); [by rewrite vpn_page|].
  apply wp_bind. eapply wp_mono; [apply (walk_find root _ h k s); lia|]. intros r w' [-> ->]. rewrite Hw.
  by apply (HK q).
Qed.
Definition freed (do_free : bool) (l pas : list Z) (j : nat) : list Z :=
  if do_free then reverse (take j pas) ++ l else l.
Definition unfreed (do_free : bool) (pas fr : list Z) (j : nat) : list Z :=
  if do_free then drop j pas ++ fr else fr.

Lemma keep_freed s s1 s2 T l pas do_free j pa : pas !! j = Some pa →
  keep T (pas ++ l) (ram s) (ram s1) → keep T (pa :: freed do_free l pas j) (ram s1) (ram s2) →
  keep T (pas ++ l) (ram s) (ram s2).
Proof.
  intros Hpa H1 H2 b Hb. rewrite H2, H1; [done|done|]. intros (x & Hx & Hb'). apply Hb. exists x.
  split; [|done]. destruct Hx as [Hx|Hx]; [by left|right]. unfold freed in Hx.
  apply elem_of_cons in Hx as [->|Hx]; [apply elem_of_app; left; by eapply list_elem_of_lookup_2|].
  destruct do_free; [|apply elem_of_app; by right].
  apply elem_of_app in Hx as [Hx|Hx]; apply elem_of_app; [left|by right].
  rewrite elem_of_reverse in Hx. by apply elem_of_take in Hx as (? & ?%list_elem_of_lookup_2 & _).
Qed.
Lemma uvmunmap_spec s l T root U fr v0 pas (do_free : bool) h k :
  VM s l T root U (unfreed do_free pas fr 0) → kmem_lock ∉ h → 0 ≤ v0 → v0 + Z.of_nat (length pas) ≤ NPAGES →
  mapped U v0 pas →
  wp (uvmunmap kend root (v0 * PGSIZE) (Z.of_nat (length pas)) do_free) (λ _ w', ∃ s', w' = World h k s' ∧
     VM s' (freed do_free l pas (length pas)) T root (unmap_range U v0 (length pas))
       (unfreed do_free pas fr (length pas)) ∧ keep T (pas ++ l) (ram s) (ram s')) (World h k s).
Proof.
  intros HV Hh Hv0 Hv1 Hm. unfold uvmunmap. set (N := length pas) in *.
  apply wp_bind, wp_when. rewrite Z.mod_mul by done. cbn [Z.eqb negb].
  rewrite u64_small by (unfold PGSIZE, NPAGES in *; lia).
  eapply (wp_loop _ (λ n a w, ∃ j s', w = World h k s' ∧ a = (v0 + Z.of_nat j) * PGSIZE ∧
      n = Z.of_nat N - Z.of_nat j ∧ 0 ≤ n ∧ keep T (pas ++ l) (ram s) (ram s') ∧
      VM s' (freed do_free l pas j) T root (unmap_range U v0 j) (unfreed do_free pas fr j)))
    with (n := Z.of_nat N).
  - intros n a w (j & s' & _ & _ & _ & ? & _). lia.
  - intros n a w (j & s' & -> & -> & Hn & Hpos & Hk' & HV').
    destruct (Z.ltb_spec ((v0 + Z.of_nat j) * PGSIZE) (v0 * PGSIZE + Z.of_nat N * PGSIZE)) as [Hlt|Hge]; cbn [negb];
      unfold PGSIZE in Hlt || unfold PGSIZE in Hge.
    2:{ apply wp_ret. assert (j = N) as -> by lia. eauto. }
    assert (Hvj : 0 ≤ v0 + Z.of_nat j < NPAGES) by lia. pose proof (page_va _ Hvj) as Hvaj.
    destruct (lookup_lt_is_Some_2 pas j) as [pa Hpa]; [lia|]. destruct (Hm j pa Hpa) as (f & HU & Hf).
    assert (HU' : unmap_range U v0 j !! (v0 + Z.of_nat j) = Some (pa, f))
      by (rewrite unmap_range_lookup, decide_False by lia; done).
    destruct (vm_some _ _ _ _ _ _ HV' _ _ _ HU') as (_ & Hfr & Hfl & _).
    eapply (VM_walk_found _ _ s'); [exact HV'|done|exact HU'|]. intros q Hq Hne Hld.
    rewrite (proj2 (Z.eqb_neq _ 0)) by done. apply wp_bind, wp_ret. apply wp_bind, wp_gets. cbn [st].
    rewrite Hld, has_of_V, PTE_FLAGS_of, PTE2PA_of by done. rewrite (proj2 (Z.eqb_neq _ PTE_V)) by done.
    cbn [negb]. apply wp_bind, wp_ret. apply wp_bind, wp_ret.
    eapply (unmap_one _ _ s' _ T root _ (unfreed do_free pas fr (S j)) pa f _ q do_free h k); [|done|done|done|done|].
    { unfold unfreed in *. destruct do_free; [|done]. by rewrite (drop_S _ _ _ Hpa) in HV'. }
    intros s2 HV2 Hk2. apply wp_ret. exists (n - 1). split; [|lia]. exists (S j), s2.
    rewrite u64_page by (unfold NPAGES, PGSIZE in *; lia).
    split_and!; [done|unfold PGSIZE; lia|lia|lia|by eapply (keep_freed s); eauto|].
    unfold freed in *. destruct do_free; [|done]. by rewrite (take_S_r _ _ _ Hpa), reverse_snoc.
  - exists 0%nat, s. split_and!; [done|lia|lia|lia|done|by destruct do_free].
  - unfold NPAGES in *. simpl Z.of_nat. lia.
Qed.
End space.
