(* ===== verification/VmUser.v ===== *)
(** * Growing, shrinking, copying and freeing user memory *)
From S2P Require Import Prelude Param CString Mem Kalloc Vm VmInv VmSpec.

(** Pages needed for [sz] bytes. *)
Definition up (sz : Z) : Z := (sz + PGSIZE - 1) / PGSIZE.
Lemma PGROUNDUP_up sz : 0 ≤ sz ≤ MAXVA → PGROUNDUP sz = up sz * PGSIZE.
Proof.
  intros H. assert (MAXVA = 2 ^ 38) by done. rewrite PGROUNDUP_eq by (unfold PGSIZE; lia).
  unfold up. pose proof (Z.div_mod (sz + PGSIZE - 1) PGSIZE ltac:(done)). lia.
Qed.
Lemma up_bounds sz : 0 ≤ sz ≤ MAXVA → 0 ≤ up sz ≤ NPAGES ∧ sz ≤ up sz * PGSIZE < sz + PGSIZE.
Proof.
  intros H. assert (Hm : MAXVA = 2 ^ 38) by done. rewrite Hm in H. unfold up, NPAGES, PGSIZE.
  pose proof (Z.div_mod (sz + 4096 - 1) 4096 ltac:(done)). pose proof (Z.mod_pos_bound (sz + 4096 - 1) 4096 ltac:(lia)). lia.
Qed.
Lemma up_mono a b : a ≤ b → up a ≤ up b.
Proof. intros. apply Z.div_le_mono; [done|lia]. Qed.
Lemma up_page v : up (v * PGSIZE) = v.
Proof. unfold up, PGSIZE. symmetry. apply (Z.div_unique _ _ v 4095); lia. Qed.
Lemma up_lt a b : 0 ≤ a → a * PGSIZE < b → a < up b.
Proof. unfold up, PGSIZE. intros. apply Z.lt_le_trans with (a + 1); [lia|]. apply Z.div_le_lower_bound; lia. Qed.

(** Pages [pas] mapped from page [v] on, page [i] with flags [f i]. *)
Fixpoint map_pages (U : space) (v : Z) (pas : list Z) (f : Z → Z) : space :=
  match pas with [] => U | pa :: pas => <[v := (pa, f v)]> (map_pages U (v + 1) pas f) end.
Lemma map_pages_out U pas f : ∀ v x, ¬ v ≤ x < v + Z.of_nat (length pas) → map_pages U v pas f !! x = U !! x.
Proof.
  induction pas as [|pa pas IH]; intros v x Hx; [done|]. cbn [map_pages length] in *.
  rewrite lookup_insert_ne by lia. apply IH. lia.
Qed.
Lemma map_pages_in U pas f : ∀ v i pa, pas !! i = Some pa →
  map_pages U v pas f !! (v + Z.of_nat i) = Some (pa, f (v + Z.of_nat i)).
Proof.
  induction pas as [|p pas IH]; intros v [|i] pa Hi; simplify_eq/=.
  - by rewrite Z.add_0_r, lookup_insert_eq.
  - rewrite lookup_insert_ne by lia. replace (v + Z.of_nat (S i)) with (v + 1 + Z.of_nat i) by lia. by apply IH.
Qed.
Lemma map_pages_snoc U pas pa f : ∀ v, map_pages U v (pas ++ [pa]) f =
  <[v + Z.of_nat (length pas) := (pa, f (v + Z.of_nat (length pas)))]> (map_pages U v pas f).
Proof.
  induction pas as [|p pas IH]; intros v; cbn [map_pages app length].
  - by rewrite Z.add_0_r.
  - rewrite IH. replace (v + Z.of_nat (S (length pas))) with (v + 1 + Z.of_nat (length pas)) by lia.
    apply insert_insert_ne. lia.
Qed.
Lemma unmap_map_pages U pas f v : (∀ i, v ≤ i < v + Z.of_nat (length pas) → U !! i = None) →
  unmap_range (map_pages U v pas f) v (length pas) = U.
Proof.
  intros HU. apply map_eq. intros x. rewrite unmap_range_lookup. case_decide.
  - symmetry. by apply HU.
  - by apply map_pages_out.
Qed.
Lemma mapped_map_pages U pas f v :
  (∀ i, v ≤ i < v + Z.of_nat (length pas) → Z.lor (f i) PTE_V ≠ PTE_V) → mapped (map_pages U v pas f) v pas.
Proof.
  intros Hf i pa Hi. exists (f (v + Z.of_nat i)). split; [by apply map_pages_in|]. apply Hf.
  apply lookup_lt_Some in Hi. lia.
Qed.

Section user.
Context (kend : Z).
Local Abbreviation VM := (VM kend).

(** ** uvmdealloc *)
Lemma uvmdealloc_spec s l T root U fr oldsz newsz pas h k :
  VM s l T root U (pas ++ fr) → kmem_lock ∉ h → 0 ≤ newsz ≤ MAXVA → 0 ≤ oldsz ≤ MAXVA →
  Z.of_nat (length pas) = Z.max 0 (up oldsz - up newsz) → mapped U (up newsz) pas →
  wp (uvmdealloc kend root oldsz newsz) (λ r w', r = Z.min oldsz newsz ∧ ∃ s', w' = World h k s' ∧
     VM s' (reverse pas ++ l) T root (unmap_range U (up newsz) (length pas)) fr ∧ keep T (pas ++ l) (ram s) (ram s'))
    (World h k s).
Proof.
  intros HV Hh Hnew Hold Hlen Hm. unfold uvmdealloc. rewrite Z.geb_leb.
  destruct (up_bounds newsz Hnew) as [Hu1 _], (up_bounds oldsz Hold) as [Hu2 _].
  destruct (Z.leb_spec oldsz newsz) as [Hle|Hlt].
  { pose proof (up_mono _ _ Hle). destruct pas; [|cbn in Hlen; lia]. apply wp_ret. split; [lia|]. by exists s. }
  rewrite !PGROUNDUP_up by done. apply wp_bind, wp_when.
  replace (up newsz * PGSIZE <? up oldsz * PGSIZE) with (up newsz <? up oldsz) by (unfold PGSIZE; lia).
  destruct (Z.ltb_spec (up newsz) (up oldsz)) as [Hp|Hp].
  2:{ destruct pas; [|cbn in Hlen; lia]. apply wp_ret. split; [lia|]. by exists s. }
  replace ((up oldsz * PGSIZE - up newsz * PGSIZE) / PGSIZE) with (Z.of_nat (length pas)).
  2:{ rewrite <- Z.mul_sub_distr_r, Z.div_mul by done. lia. }
  rewrite i32_small, u64_small by (unfold NPAGES in *; lia).
  eapply wp_mono; [eapply (uvmunmap_spec kend s l T root U fr (up newsz) pas true); [done|done|lia|lia|done]|].
  intros _ w' (s' & -> & HV' & Hk'). apply wp_ret. split; [lia|]. exists s'. split_and!; [done| |done].
  unfold freed, unfreed in HV'. by rewrite firstn_all, drop_all in HV'.
Qed.

(** ** Building a range page by page

    Both uvmalloc and uvmcopy map fresh pages at [v], [v + 1], ... with flags
    [f] and contents [C], and unmap what they have mapped when memory runs out. *)
Record grown (s : kmem) (l : list Z) (T : tables) (root : Z) (U : space) (fr : list Z) (v : Z) (f : Z → Z)
    (C : Z → Z → Z) (pas : list Z) (s' : kmem) (l' : list Z) (T' : tables) : Prop := {
  gn_vm : VM s' l' T' root (map_pages U v pas f) (pas ++ fr);
  gn_data i pa o : pas !! i = Some pa → 0 ≤ o < PGSIZE → rdb (ram s') (pa + o) = C (v + Z.of_nat i) o;
  gn_sub : T ⊆ T';
  gn_pool q : pool T' l' q ∨ q ∈ pas ↔ pool T l q;
  gn_keep : keep T l (ram s) (ram s');
}.
Lemma grown_nil s l T root U fr v f C : VM s l T root U fr → grown s l T root U fr v f C [] s l T.
Proof. intros HV. constructor; [done|done|done| |done]. intros q. rewrite elem_of_nil. tauto. Qed.
(** Undoing a partial allocation. *)
Lemma grown_undo s l T root U fr v f C pas s' l' T' s2 :
  grown s l T root U fr v f C pas s' l' T' → (∀ i, v ≤ i < v + Z.of_nat (length pas) → U !! i = None) →
  VM s2 (reverse pas ++ l') T' root (unmap_range (map_pages U v pas f) v (length pas)) fr →
  keep T' (pas ++ l') (ram s') (ram s2) →
  VM s2 (reverse pas ++ l') T' root U fr ∧ evo s l T s2 (reverse pas ++ l') T'.
Proof.
  intros [HV Hz Hs Hp Hk] HU HV2 Hk2. rewrite unmap_map_pages in HV2 by done. split; [done|]. constructor; [done| |].
  - intros q. rewrite <- Hp. unfold pool. rewrite elem_of_app, elem_of_reverse. tauto.
  - intros b Hb. rewrite Hk2, Hk; [done|done|]. intros (x & Hx & Hb'). apply Hb. exists x. split; [|done].
    apply Hp. rewrite elem_of_app in Hx. unfold pool. tauto.
Qed.

(** Filling the page just allocated. *)
Lemma VM_fill s l T root U pa fr m : VM s l T root U (pa :: fr) →
  (∀ b, ¬ in_page pa b → rdb m b = rdb (ram s) b) → VM (s <| ram := m |>) l T root U (pa :: fr).
Proof.
  intros HV Hm. eapply VM_write; [done|done|]. intros b Hb. apply Hm. apply Hb. by left.
Qed.
(** [mappages] of one page. *)
Lemma mappages_one s l T root U fr v pa perm h k :
  VM s l T root U fr → kmem_lock ∉ h → 0 ≤ v < NPAGES → page_ok kend pa → 0 ≤ perm < 2 ^ 10 → U !! v = None →
  wp (mappages root (v * PGSIZE) PGSIZE pa perm) (λ r w', ∃ s' l' T', w' = World h k s' ∧ evo s l T s' l' T' ∧
     ((r = 0 ∧ VM s' l' T' root (<[v := (pa, perm)]> U) fr) ∨ (r = -1 ∧ VM s' l' T' root U fr ∧ l' = [])))
    (World h k s).
Proof.
  intros HV Hh Hv Hpa Hperm HU. assert (MAXVA = NPAGES * PGSIZE) by done.
  pose proof (page_ok_frame kend pa Hpa) as Hf. destruct Hpa as (_ & Hpa & _). unfold PHYSTOP, KERNBASE in Hpa.
  eapply wp_mono; [apply (mappages_spec kend s l T root U fr _ PGSIZE pa perm 1 h k HV Hh)|].
  - unfold PGSIZE. lia.
  - done.
  - unfold PGSIZE in *. lia.
  - rewrite vpn_page. unfold vpn, PGSIZE. rewrite <- (Z.div_unique (v * 4096 + 4096 - 1) 4096 v 4095); lia.
  - done.
  - unfold PGSIZE in *. lia.
  - done.
  - intros i. rewrite vpn_page. intros. by replace i with v by lia.
  - intros r w' (s' & l' & T' & n & -> & HV' & Hev & Hr). rewrite vpn_page in HV'. exists s', l', T'.
    split_and!; [done|done|]. destruct Hr as [[-> ->]|(-> & Hn & ->)].
    + left. split; [done|]. cbn [map_range] in HV'. change (Z.of_nat 0) with 0 in HV'. by rewrite Z.mul_0_l, !Z.add_0_r in HV'.
    + right. assert (n = 0)%nat as -> by lia. done.
Qed.

(** What holds between allocating a page [pa] and the end of the turn. *)
Lemma alloc_facts s l T root U fr v f C pas s' pa l2 T' s2 s3 l3 T3 U3 :
  grown s l T root U fr v f C pas s' (pa :: l2) T' →
  VM s2 l2 T' root U3 (pa :: pas ++ fr) →
  (∀ b, ¬ in_page pa b → rdb (ram s2) b = rdb (ram s') b) → evo s2 l2 T' s3 l3 T3 →
  T ⊆ T3 ∧ (∀ q, (pool T3 l3 q ∨ q = pa) ∨ q ∈ pas ↔ pool T l q) ∧ keep T l (ram s) (ram s3) ∧
  (∀ x b, x ∈ pas → in_page x b → rdb (ram s3) b = rdb (ram s') b) ∧
  (∀ b, in_page pa b → rdb (ram s3) b = rdb (ram s2) b).
Proof.
  intros [HV Hz Hs Hp Hk] HV2 Ho [E1 E2 E3].
  assert (Hpl : ∀ q, pool T' (pa :: l2) q ↔ pool T' l2 q ∨ q = pa) by (intros q; unfold pool; rewrite elem_of_cons; tauto).
  assert (Hin : ∀ x b, x ∈ pa :: pas ++ fr → in_page x b → rdb (ram s3) b = rdb (ram s2) b).
  { intros x b Hx Hb. apply E3. by eapply fr_foot. }
  split_and!.
  - by trans T'.
  - intros q. rewrite <- Hp, Hpl, E2. tauto.
  - intros b Hb. rewrite E3, Ho, Hk; [done|done| |]; intros Hb'; apply Hb.
    + exists pa. split; [|done]. apply Hp. rewrite Hpl. auto.
    + destruct Hb' as (x & Hx & Hb'). exists x. split; [|done]. apply Hp. rewrite Hpl. auto.
  - intros x b Hx Hb. rewrite (Hin x), Ho; [done| |apply elem_of_cons; right; apply elem_of_app; by left|done].
    intros Hb'. pose proof (vm_nodup _ _ _ _ _ _ _ HV) as Hnd.
    assert (x = pa) as ->; [|apply NoDup_app in Hnd as (_ & Hd & _); apply (Hd pa); [by left|apply elem_of_app; by left]].
    eapply in_page_eq; [| |done|done];
      apply (vm_fr _ _ _ _ _ _ _ HV2); [apply elem_of_cons; right; apply elem_of_app; by left|by left].
  - intros b Hb. apply (Hin pa); [by left|done].
Qed.
Lemma in_page_off pa o : 0 ≤ o < PGSIZE → in_page pa (pa + o).
Proof. unfold in_page. lia. Qed.
(** The page is mapped: the range has grown by one. *)
Lemma grown_snoc s l T root U fr v f C pas s' pa l2 T' s2 s3 l3 T3 :
  let x := v + Z.of_nat (length pas) in
  grown s l T root U fr v f C pas s' (pa :: l2) T' →
  VM s2 l2 T' root (map_pages U v pas f) (pa :: pas ++ fr) →
  (∀ b, ¬ in_page pa b → rdb (ram s2) b = rdb (ram s') b) →
  (∀ o, 0 ≤ o < PGSIZE → rdb (ram s2) (pa + o) = C x o) → evo s2 l2 T' s3 l3 T3 →
  VM s3 l3 T3 root (<[x := (pa, f x)]> (map_pages U v pas f)) (pa :: pas ++ fr) →
  grown s l T root U fr v f C (pas ++ [pa]) s3 l3 T3.
Proof.
  intros x G HV2 Ho Hd Hev HV3.
  destruct (alloc_facts s l T root U fr v f C pas s' pa l2 T' s2 s3 l3 T3 _ G HV2 Ho Hev) as (F1 & F2 & F3 & F4 & F5).
  constructor; [| |done| |done].
  - rewrite map_pages_snoc. eapply VM_perm; [|exact HV3]. rewrite <- app_assoc. apply Permutation_middle.
  - intros i p o [Hi|(Hlen & Hi)]%lookup_app_Some Hofs.
    + rewrite (F4 p) by (by eapply list_elem_of_lookup_2 || by apply in_page_off). by eapply (gn_data _ _ _ _ _ _ _ _ _ _ _ _ _ G).
    + apply list_lookup_singleton_Some in Hi as [Hi <-]. assert (i = length pas) as -> by lia.
      rewrite F5 by (by apply in_page_off). by apply Hd.
  - intros q. rewrite <- F2, elem_of_app, list_elem_of_singleton. tauto.
Qed.
(** It could not be mapped: freeing it leads back. *)
Lemma grown_back s l T root U fr v f C pas s' pa l2 T' s2 s3 T3 s4 :
  grown s l T root U fr v f C pas s' (pa :: l2) T' →
  VM s2 l2 T' root (map_pages U v pas f) (pa :: pas ++ fr) →
  (∀ b, ¬ in_page pa b → rdb (ram s2) b = rdb (ram s') b) → evo s2 l2 T' s3 [] T3 →
  VM s4 [pa] T3 root (map_pages U v pas f) (pas ++ fr) →
  (∀ b, ¬ in_page pa b → rdb (ram s4) b = rdb (ram s3) b) →
  grown s l T root U fr v f C pas s4 [pa] T3.
Proof.
  intros G HV2 Ho Hev HV4 Ho4.
  destruct (alloc_facts s l T root U fr v f C pas s' pa l2 T' s2 s3 [] T3 _ G HV2 Ho Hev) as (F1 & F2 & F3 & F4 & F5).
  assert (Hpp : ∀ x b, x ∈ pas → in_page x b → ¬ in_page pa b).
  { intros x b Hx Hb Hb'. eapply (fr_foot kend s4 [pa] T3 root _ (pas ++ fr) x b HV4); [apply elem_of_app; by left|done|].
    exists pa. split; [right; by left|done]. }
  constructor; [done| |done| |].
  - intros i p o Hi Hofs. assert (Hp : p ∈ pas) by (by eapply list_elem_of_lookup_2).
    rewrite Ho4, (F4 p) by (done || (by apply in_page_off) || by eapply Hpp; [done|apply in_page_off]).
    by eapply (gn_data _ _ _ _ _ _ _ _ _ _ _ _ _ G).
  - intros q. rewrite <- F2. unfold pool. rewrite elem_of_cons, elem_of_nil. tauto.
  - intros b Hb. rewrite Ho4; [by apply F3|]. intros Hb'. apply Hb. exists pa. split; [|done]. apply F2. auto.
Qed.
(** One turn of the loops of uvmalloc and uvmcopy. *)
Lemma grow_turn s l T root U fr v0 f C pas s' l' T' h k (fill : Z → M kmem unit) (undo : M kmem (Z + Z)) (Ψ : Z + Z → world kmem → Prop) :
  let v := v0 + Z.of_nat (length pas) in
  grown s l T root U fr v0 f C pas s' l' T' → kmem_lock ∉ h → 0 ≤ v < NPAGES → U !! v = None → 0 ≤ f v < 2 ^ 10 →
  (∀ pa l2 s1, l' = pa :: l2 → VM s1 l2 T' root (map_pages U v0 pas f) (pa :: pas ++ fr) →
     (∀ b, ¬ in_page pa b → rdb (ram s1) b = rdb (ram s') b) →
     wp (fill pa) (λ _ w', ∃ m2, w' = World h k (s1 <| ram := m2 |>) ∧
       (∀ b, ¬ in_page pa b → rdb m2 b = rdb (ram s1) b) ∧ (∀ o, 0 ≤ o < PGSIZE → rdb m2 (pa + o) = C v o)) (World h k s1)) →
  (∀ s' l' T', grown s l T root U fr v0 f C pas s' l' T' → wp undo Ψ (World h k s')) →
  (∀ pa s' l' T', grown s l T root U fr v0 f C (pas ++ [pa]) s' l' T' → Ψ (inl ((v + 1) * PGSIZE)) (World h k s')) →
  wp (mem ← kalloc;
      if mem =? 0 then undo
      else
        fill mem;;
        r ← mappages root (v * PGSIZE) PGSIZE mem (f v);
        if negb (r =? 0) then kfree kend mem;; undo else continue (u64 (v * PGSIZE + PGSIZE))) Ψ (World h k s').
Proof.
  intros v G Hh Hv HU Hf Hfill Hundo Hnext. pose proof (gn_vm _ _ _ _ _ _ _ _ _ _ _ _ _ G) as HV.
  apply wp_bind. eapply wp_mono; [by apply (VM_kalloc kend s' l' T' root)|]. intros r ? (s1 & -> & Hr).
  destruct l' as [|pa l2]; [destruct Hr as [-> ->]; by eapply Hundo|].
  destruct Hr as (-> & Hne & HV1 & Ho1). rewrite (proj2 (Z.eqb_neq pa 0)) by done.
  apply wp_bind. eapply wp_mono; [by eapply Hfill|]. intros _ ? (m2 & -> & Ho2 & Hd2).
  assert (HV2 : VM (s1 <| ram := m2 |>) l2 T' root (map_pages U v0 pas f) (pa :: pas ++ fr)) by (by apply VM_fill).
  assert (Ho : ∀ b, ¬ in_page pa b → rdb m2 b = rdb (ram s') b) by (intros b Hb; by rewrite Ho2, Ho1).
  destruct (vm_fr _ _ _ _ _ _ _ HV1 pa) as [Hpok _]; [by left|].
  apply wp_bind. eapply wp_mono; [apply (mappages_one _ l2 T' root _ _ v pa (f v) h k HV2); try done|].
  { rewrite map_pages_out by lia. done. }
  intros r ? (s3 & l3 & T3 & -> & Hev & Hr). destruct Hr as [[-> HV3]|(-> & HV3 & ->)]; cbn [Z.eqb negb].
  - apply wp_ret. rewrite u64_page by (unfold NPAGES, PGSIZE in *; lia).
    replace (v * PGSIZE + PGSIZE) with ((v + 1) * PGSIZE) by lia.
    by eapply (Hnext pa s3 l3 T3), (grown_snoc _ _ _ _ _ _ _ _ _ _ s' pa l2 T' (s1 <| ram := m2 |>)).
  - apply wp_bind. eapply wp_mono; [by apply (VM_kfree kend s3 [] T3 root)|]. intros _ ? (s4 & -> & HV4 & Ho4).
    eapply (Hundo s4 [pa] T3). by eapply (grown_back _ _ _ _ _ _ _ _ _ _ s' pa l2 T' (s1 <| ram := m2 |>) s3).
Qed.

(** ** uvmalloc *)
Definition uflags (xperm : Z) : Z := Z.lor (Z.lor PTE_R PTE_U) xperm.
Lemma flags_leaf xperm : Z.lor (uflags xperm) PTE_V ≠ PTE_V.
Proof.
  intros E. apply (f_equal (λ z, Z.testbit z 1)) in E. unfold uflags in E.
  by rewrite !Z.lor_spec in E.
Qed.
(** Zeroed pages from page [v] on. *)
Local Abbreviation zeroed s l T root U fr v xperm pas s' l' T' :=
  (grown s l T root U fr v (λ _, uflags xperm) (λ _ _, 0) pas s' l' T').
Lemma uvmalloc_undo s l T root U fr v xperm pas s' l' T' h k :
  zeroed s l T root U fr v xperm pas s' l' T' → kmem_lock ∉ h → 0 ≤ v → v + Z.of_nat (length pas) ≤ NPAGES →
  (∀ i, v ≤ i < v + Z.of_nat (length pas) → U !! i = None) →
  wp (uvmdealloc kend root ((v + Z.of_nat (length pas)) * PGSIZE) (v * PGSIZE);; break 0)
    (λ (r : Z + Z) w', r = inr 0 ∧ ∃ s' l' T', w' = World h k s' ∧ VM s' l' T' root U fr ∧ evo s l T s' l' T') (World h k s').
Proof.
  intros G Hh Hv Hmax HU. assert (MAXVA = NPAGES * PGSIZE) by done. apply wp_bind.
  eapply wp_mono; [eapply (uvmdealloc_spec s' l' T' root _ fr _ _ pas); [apply G|done| | | |]|].
  - unfold PGSIZE in *. lia.
  - unfold PGSIZE in *. lia.
  - rewrite !up_page. lia.
  - rewrite up_page. apply mapped_map_pages. intros. apply flags_leaf.
  - intros r w' (_ & s2 & -> & HV2 & Hk2). apply wp_ret. split; [done|]. rewrite up_page in HV2.
    destruct (grown_undo _ _ _ _ _ _ _ _ _ _ _ _ _ _ G HU HV2 Hk2). eauto 10.
Qed.

Lemma uvmalloc_spec s l T root U fr oldsz newsz xperm h k :
  VM s l T root U fr → kmem_lock ∉ h → 0 ≤ oldsz ≤ newsz → newsz ≤ MAXVA → 0 ≤ uflags xperm < 2 ^ 10 →
  (∀ i, up oldsz ≤ i < up newsz → U !! i = None) →
  wp (uvmalloc kend root oldsz newsz xperm) (λ r w', ∃ s' l' T', w' = World h k s' ∧
      ((r = newsz ∧ ∃ pas, Z.of_nat (length pas) = up newsz - up oldsz ∧
          zeroed s l T root U fr (up oldsz) xperm pas s' l' T') ∨
       (r = 0 ∧ VM s' l' T' root U fr ∧ evo s l T s' l' T'))) (World h k s).
Proof.
  intros HV Hh Hold Hnew Hf HU. unfold uvmalloc. destruct (Z.ltb_spec newsz oldsz); [lia|].
  rewrite PGROUNDUP_up by lia. set (v0 := up oldsz) in *.
  destruct (up_bounds newsz) as [Hn1 Hn2]; [lia|]. destruct (up_bounds oldsz) as [Ho1 Ho2]; [lia|].
  pose proof (up_mono oldsz newsz ltac:(lia)) as Hmono. fold v0 in Ho1, Ho2, Hmono.
  eapply (wp_loop _ (λ n a w, ∃ pas s' l' T', w = World h k s' ∧ a = (v0 + Z.of_nat (length pas)) * PGSIZE ∧
      n = up newsz - v0 - Z.of_nat (length pas) ∧ 0 ≤ n ∧ zeroed s l T root U fr v0 xperm pas s' l' T'))
    with (n := up newsz - v0).
  - intros n a w (pas & s' & l' & T' & _ & _ & _ & ? & _). lia.
  - intros n a w (pas & s' & l' & T' & -> & -> & -> & Hpos & G).
    destruct (Z.ltb_spec ((v0 + Z.of_nat (length pas)) * PGSIZE) newsz) as [Hlt|Hge]; cbn [negb].
    2:{ apply wp_ret. exists s', l', T'. split; [done|]. left. split; [done|]. exists pas. split; [|done].
        unfold PGSIZE in *. lia. }
    apply up_lt in Hlt; [|lia].
    apply (grow_turn s l T root U fr v0 _ _ pas s' l' T' h k (λ mem, do_memset mem 0 PGSIZE) _ _ G);
      [done|lia|apply HU; lia|done|..].
    + intros pa l2 s1 _ _ _. apply wp_modify. eexists. split; [reflexivity|].
      split; intros b Hb; rewrite rdb_memset by done; [by rewrite (proj2 (within_false _ _ _))|].
      rewrite (proj2 (within_spec _ _ _)) by (unfold PGSIZE in *; lia). done.
    + intros s2 l2 T2 G2. eapply wp_mono; [apply (uvmalloc_undo s l T root U fr v0 xperm pas s2 l2 T2 h k G2); try done; try lia|].
      { intros i Hi. apply HU. lia. }
      intros r w' (-> & s3 & l3 & T3 & -> & HV3 & Hev). exists s3, l3, T3. split; [done|]. by right.
    + intros pa s2 l2 T2 G2. exists (up newsz - v0 - Z.of_nat (S (length pas))). split; [|lia].
      exists (pas ++ [pa]), s2, l2, T2. rewrite length_app. cbn [length]. rewrite Nat.add_1_r.
      split_and!; [done|f_equal; lia|done|lia|done].
  - exists [], s, l, T. split_and!; [done|cbn; lia|cbn; lia|cbn; lia|by apply grown_nil].
  - unfold NPAGES in *. simpl Z.of_nat. lia.
Qed.
End user.
Abbreviation zeroed kend s l T root U fr v xperm pas s' l' T' :=
  (grown kend s l T root U fr v (λ _, uflags xperm) (λ _ _, 0) pas s' l' T').
