(* ===== verification/VmFree.v ===== *)
(** * Freeing a page table: freewalk and uvmfree *)
From S2P Require Import Prelude Param CString Mem Kalloc Vm VmInv VmSpec VmUser.

(** ** Subtrees *)
(** A table at level [l] with prefix [pre] lies below the one at [lv] with [p0]. *)
Definition under (lv : nat) (p0 : Z) (x : nat * Z) : Prop :=
  (x.1 ≤ lv)%nat ∧ x.2 / 512 ^ Z.of_nat (lv - x.1) = p0.
#[export] Instance under_dec lv p0 x : Decision (under lv p0 x).
Proof. apply _. Defined.
Lemma under_self lv p0 : under lv p0 (lv, p0).
Proof. split; [done|]. cbn. rewrite Nat.sub_diag. by rewrite Z.div_1_r. Qed.
Lemma under_child lv p0 l pre i : 0 ≤ i < 512 → (l < lv)%nat →
  under lv p0 (l, pre * 512 + i) ↔ under lv p0 (S l, pre).
Proof.
  intros Hi Hl. unfold under; cbn [fst snd]. replace (lv - l)%nat with (S (lv - S l)) by lia.
  rewrite Nat2Z.inj_succ, Z.pow_succ_r, <- Z.div_div by lia.
  replace ((pre * 512 + i) / 512) with pre; [split; intros [? ?]; split; done || lia|].
  apply (Z.div_unique _ _ pre i); lia.
Qed.
Lemma under_top lv p0 l pre : (l ≤ lv)%nat → under (S lv) p0 (l, pre) →
  ∃ i, 0 ≤ i < 512 ∧ under lv (p0 * 512 + i) (l, pre).
Proof.
  intros Hl [_ H]. cbn [fst snd] in H. replace (S lv - l)%nat with (S (lv - l)) in H by lia.
  rewrite Nat2Z.inj_succ, Z.pow_succ_r, Z.mul_comm, <- Z.div_div in H by lia.
  exists ((pre / 512 ^ Z.of_nat (lv - l)) mod 512). split; [by apply Z.mod_pos_bound|].
  split; [done|]. cbn [fst snd]. pose proof (Z.div_mod (pre / 512 ^ Z.of_nat (lv - l)) 512). lia.
Qed.

Section pt_sub.
Context {m : mem} {lv : nat} {p0 root : Z} {T : tables} (H : PT m lv p0 root T).
Lemma pt_top q pre : T !! q = Some (lv, pre) → q = root.
Proof.
  intros Hq. destruct (pt_up _ _ _ _ _ H _ _ _ Hq) as [?|(p & pre' & i & Hp & _)]; [done|].
  apply (pt_lvl _ _ _ _ _ H) in Hp. lia.
Qed.
Lemma pt_under q x : T !! q = Some x → under lv p0 x.
Proof.
  destruct x as [l pre]. intros Hq. pose proof (pt_lvl _ _ _ _ _ H _ _ _ Hq) as Hl.
  remember (lv - l)%nat as d eqn:Hd. revert q l pre Hq Hl Hd. induction d as [|d IH]; intros q l pre Hq Hl Hd.
  - assert (l = lv) as -> by lia. rewrite (pt_top _ _ Hq), (pt_root _ _ _ _ _ H) in Hq.
    injection Hq as <-. apply under_self.
  - destruct (pt_up _ _ _ _ _ H _ _ _ Hq) as [->|(p & pre' & i & Hp & Hi & -> & _)].
    { rewrite (pt_root _ _ _ _ _ H) in Hq. injection Hq. lia. }
    apply under_child; [done|lia|]. eapply IH; [exact Hp|lia|lia].
Qed.
Lemma pt_root_only q : T !! q = Some (lv, p0) ↔ q = root.
Proof. split; [apply pt_top|]. intros ->. apply H. Qed.
End pt_sub.

(** The subtree below entry [i] of the root, and the rest. *)
Section split.
Context {m : mem} {lv : nat} {p0 root : Z} {T : tables} (H : PT m (S lv) p0 root T).
Context (i : Z) (Hi : 0 ≤ i < 512) (Hv : has (ld64 m (root + 8 * i)) PTE_V = true).
Local Abbreviation c := (PTE2PA (ld64 m (root + 8 * i))).
Definition below (lv : nat) (p0 i : Z) (T : tables) : tables := filter (λ '(_, x), under lv (p0 * 512 + i) x) T.
Definition beside (lv : nat) (p0 i : Z) (T : tables) : tables := filter (λ '(_, x), ¬ under lv (p0 * 512 + i) x) T.
Lemma below_lookup q x : below lv p0 i T !! q = Some x ↔ T !! q = Some x ∧ under lv (p0 * 512 + i) x.
Proof. unfold below. by rewrite map_lookup_filter_Some. Qed.
Lemma beside_lookup q x : beside lv p0 i T !! q = Some x ↔ T !! q = Some x ∧ ¬ under lv (p0 * 512 + i) x.
Proof. unfold beside. by rewrite map_lookup_filter_Some. Qed.

Lemma PT_below : PT m lv (p0 * 512 + i) c (below lv p0 i T).
Proof.
  destruct (pt_down _ _ _ _ _ H _ _ _ _ (pt_root _ _ _ _ _ H) Hi Hv) as [Hc _]. constructor.
  - apply below_lookup. split; [done|]. apply under_self.
  - intros q x [Hq _]%below_lookup. by eapply (pt_frame _ _ _ _ _ H).
  - intros q l pre [_ [Hl _]]%below_lookup. done.
  - intros p l pre j [Hp Hu]%below_lookup Hj Hvj. destruct (pt_down _ _ _ _ _ H _ _ _ _ Hp Hj Hvj) as [Hd Hf].
    split; [|done]. apply below_lookup. split; [done|]. apply under_child; [done| |done]. destruct Hu as [Hu _]. cbn in Hu. lia.
  - intros q l pre [Hq Hu]%below_lookup. destruct (decide (l = lv)) as [->|Hne].
    + left. destruct Hu as [_ Hu]. cbn in Hu. rewrite Nat.sub_diag, Z.div_1_r in Hu. subst pre.
      by eapply (pt_unique H).
    + destruct (pt_up _ _ _ _ _ H _ _ _ Hq) as [->|(p & pre' & j & Hp & Hj & -> & Hvj & E)].
      { rewrite (pt_root _ _ _ _ _ H) in Hq. injection Hq as <- _. destruct Hu as [Hu _]. cbn in Hu. lia. }
      right. exists p, pre', j. split_and!; try done; try lia. apply below_lookup. split; [done|].
      destruct Hu as [Hl Hu]. cbn in Hl. eapply under_child; [exact Hj|lia|by split].
Qed.
Lemma PT_beside m' : has (ld64 m' (root + 8 * i)) PTE_V = false →
  (∀ q j, is_Some (beside lv p0 i T !! q) → 0 ≤ j < 512 → (q, j) ≠ (root, i) → ld64 m' (q + 8 * j) = ld64 m (q + 8 * j)) →
  PT m' (S lv) p0 root (beside lv p0 i T).
Proof.
  intros Hz Hm. constructor.
  - apply beside_lookup. split; [apply H|]. intros [Hu _]. cbn in Hu. lia.
  - intros q x [Hq _]%beside_lookup. by eapply (pt_frame _ _ _ _ _ H).
  - intros q l pre [Hq _]%beside_lookup. by eapply (pt_lvl _ _ _ _ _ H).
  - intros p l pre j Hp Hj Hvj. destruct (decide ((p, j) = (root, i))) as [[= -> ->]|Hne]; [congruence|].
    rewrite (Hm p j) in * by (done || by eexists). apply beside_lookup in Hp as [Hp Hu].
    destruct (pt_down _ _ _ _ _ H _ _ _ _ Hp Hj Hvj) as [Hd Hf]. split; [|done]. apply beside_lookup. split; [done|].
    destruct (decide (l = lv)) as [->|Hl].
    + intros [_ Hx]. cbn in Hx. rewrite Nat.sub_diag, Z.div_1_r in Hx. pose proof (pt_top H _ _ Hp) as ->.
      rewrite (pt_root _ _ _ _ _ H) in Hp. injection Hp as <-. apply Hne. f_equal. lia.
    + intros Hx. apply Hu. pose proof (pt_lvl _ _ _ _ _ H _ _ _ Hp). eapply under_child; [exact Hj| |done].  lia.
  - intros q l pre [Hq Hu]%beside_lookup. destruct (pt_up _ _ _ _ _ H _ _ _ Hq) as [?|(p & pre' & j & Hp & Hj & -> & Hvj & E)]; [by left|right].
    assert (Hb : beside lv p0 i T !! p = Some (S l, pre')).
    { apply beside_lookup. split; [done|]. intros Hx. apply Hu. destruct Hx as [Hl Hx]. cbn in Hl. apply under_child; [done|lia|by split]. }
    assert ((p, j) ≠ (root, i)).
    { intros [= -> ->]. rewrite (pt_root _ _ _ _ _ H) in Hp. injection Hp as <- <-. apply Hu. apply under_self. }
    exists p, pre', j. rewrite (Hm p j) by (done || by eexists). done.
Qed.
End split.

(** ** freewalk *)
Section freewalk.
Context (kend : Z).
(** A table without valid leaf entries, and the free pages. *)
Record FT (s : kmem) (l : list Z) (lv : nat) (p0 root : Z) (T : tables) : Prop := {
  ft_ka : KA kend s l;
  ft_pt : PT (ram s) lv p0 root T;
  ft_ok q : is_Some (T !! q) → page_ok kend q ∧ q ∉ l;
  ft_leaf q pre i : T !! q = Some (0%nat, pre) → 0 ≤ i < 512 → has (ld64 (ram s) (q + 8 * i)) PTE_V = false;
}.
Lemma FT_aligned s l lv p0 root T q : FT s l lv p0 root T → pool T l q → q mod PGSIZE = 0.
Proof. intros [HK _ HO _] [Hq|Hq]; [by destruct (HO q Hq) as [(? & _) _]|by destruct (KA_ok _ _ _ _ HK Hq)]. Qed.
Lemma FT_below s l lv p0 root T i : FT s l (S lv) p0 root T → 0 ≤ i < 512 →
  has (ld64 (ram s) (root + 8 * i)) PTE_V = true →
  FT s l lv (p0 * 512 + i) (PTE2PA (ld64 (ram s) (root + 8 * i))) (below lv p0 i T).
Proof.
  intros [HK HP HO HL] Hi Hv. constructor; [done|by apply (PT_below HP)|..].
  - intros q [x [Hx _]%below_lookup]. apply HO. by eexists.
  - intros q pre j [Hq _]%below_lookup. by eapply HL.
Qed.

(** After the subtree of entry [i] is freed and the entry is cleared. *)
Lemma FT_beside s l lv p0 root T i s2 l2 :
  FT s l (S lv) p0 root T → 0 ≤ i < 512 → has (ld64 (ram s) (root + 8 * i)) PTE_V = true →
  KA kend s2 l2 → (∀ q, q ∈ l2 ↔ pool (below lv p0 i T) l q) → keep (below lv p0 i T) l (ram s) (ram s2) →
  let s3 := s2 <| ram := st64 (ram s2) (root + 8 * i) 0 |> in
  FT s3 l2 (S lv) p0 root (beside lv p0 i T) ∧ (∀ q, pool (beside lv p0 i T) l2 q ↔ pool T l q) ∧
  keep T l (ram s) (ram s3).
Proof.
  intros HF Hi Hv HK2 Hl2 Hk s3. pose proof HF as [HK HP HO HL].
  assert (Hb : ∀ q, is_Some (beside lv p0 i T !! q) → is_Some (T !! q) ∧ ¬ pool (below lv p0 i T) l q).
  { intros q [x [Hx Hn]%beside_lookup]. split; [by eexists|]. intros [[y [Hy Hu]%below_lookup]|Hq]; [by simplify_eq|].
    by apply (HO q); [eexists|]. }
  assert (Hroot : is_Some (beside lv p0 i T !! root)).
  { exists (S lv, p0). apply beside_lookup. split; [apply HP|]. intros [Hu _]. cbn in Hu. lia. }
  assert (Hal : ∀ q, is_Some (T !! q) ∨ q ∈ l2 → q mod PGSIZE = 0).
  { intros q [Hq|Hq]; [by destruct (HO q Hq) as [(? & _) _]|by destruct (KA_ok _ _ _ _ HK2 Hq)]. }
  assert (H2 : ∀ q b, is_Some (beside lv p0 i T !! q) → in_page q b → rdb (ram s2) b = rdb (ram s) b).
  { intros q b Hq Hbq. destruct (Hb q Hq) as [Hq' Hn]. apply Hk. intros (x & Hx & Hbx). apply Hn.
    assert (x = q) as <-; [|done]. eapply in_page_eq; [|by apply Hal; left|done|done]. apply Hal. right. by apply Hl2. }
  assert (H3 : ∀ b, ¬ in_page root b → rdb (ram s3) b = rdb (ram s2) b).
  { intros b Hbr. cbn [ram s3 set_field]. apply rdb_sto. unfold in_page, PGSIZE in Hbr. simpl. lia. }
  assert (Hrl : root ∉ l2) by (rewrite Hl2; by apply Hb).
  assert (H3' : ∀ q b, is_Some (T !! q) ∨ q ∈ l2 → q ≠ root → in_page q b → rdb (ram s3) b = rdb (ram s2) b).
  { intros q b Hq Hne Hbq. apply H3. intros Hbr. apply Hne. eapply in_page_eq; [by apply Hal| |done|done].
    apply Hal. left. by apply Hb. }
  assert (Hslot : ∀ q j, is_Some (beside lv p0 i T !! q) → 0 ≤ j < 512 → (q, j) ≠ (root, i) →
    ld64 (ram s3) (q + 8 * j) = ld64 (ram s) (q + 8 * j)).
  { intros q j Hq Hj Hne. rewrite <- (slot_ext (ram s) (ram s2) q j) by eauto.
    destruct (decide (q = root)) as [->|Hqr].
    - assert (j ≠ i) by congruence. cbn [ram s3 set_field]. apply ld_sto_other. simpl. lia.
    - apply slot_ext; [done|]. intros b Hbq. apply (H3' q); [left; by apply Hb|done|done]. }
  split_and!.
  - constructor.
    + eapply KA_ext; [exact HK2|done|]. intros q b Hq Hbq. apply (H3' q); [by right|by intros ->|done].
    + apply (PT_beside HP i); [|done]. cbn [ram s3 set_field]. by rewrite ld64_st64.
    + intros q Hq. destruct (Hb q Hq) as [Hq' Hn]. split; [by apply HO|]. by rewrite Hl2.
    + intros q pre j Hq Hj. rewrite Hslot; [|by eexists|done|].
      * apply beside_lookup in Hq as [Hq _]. by eapply HL.
      * intros [= -> _]. apply beside_lookup in Hq as [Hq _]. by rewrite (pt_root _ _ _ _ _ HP) in Hq.
  - intros q. unfold pool at 1. rewrite Hl2. unfold pool. split.
    + intros [Hq|[[x [Hx _]%below_lookup]|Hq]]; [left; by apply Hb|left; by eexists|by right].
    + intros [[x Hx]|Hq]; [|tauto]. destruct (decide (under lv (p0 * 512 + i) x)).
      * right. left. exists x. by apply below_lookup.
      * left. exists x. by apply beside_lookup.
  - intros b Hbn. rewrite H3, Hk; [done| |].
    + intros (x & Hx & Hbx). apply Hbn. exists x. split; [|done].
      destruct Hx as [[y [Hy _]%below_lookup]|Hx]; [left; by eexists|by right].
    + intros Hbr. apply Hbn. exists root. split; [|done]. left. by apply Hb.
Qed.

(** The tables that are left when the entries below [i] have been freed. *)
Definition left_from (i : Z) (lv : nat) (p0 root : Z) (T : tables) : Prop :=
  ∀ q x, T !! q = Some x → q ≠ root → ∃ lv' j, lv = S lv' ∧ i ≤ j < 512 ∧ under lv' (p0 * 512 + j) x.
Lemma left_from_0 m lv p0 root T : PT m lv p0 root T → left_from 0 lv p0 root T.
Proof.
  intros HP q [l pre] Hq Hne. pose proof (pt_under HP _ _ Hq) as Hu. pose proof (pt_lvl _ _ _ _ _ HP _ _ _ Hq) as Hl.
  assert (l ≠ lv) by (intros ->; apply Hne; by eapply (pt_top HP)).
  destruct lv as [|lv]; [lia|]. destruct (under_top lv p0 l pre) as (j & Hj & Hx); [lia|done|]. exists lv, j. split_and!; [done|lia|lia|done].
Qed.
Lemma left_from_next m i lv p0 root T : PT m lv p0 root T → left_from i lv p0 root T → 0 ≤ i < 512 →
  has (ld64 m (root + 8 * i)) PTE_V = false → left_from (i + 1) lv p0 root T.
Proof.
  intros HP HL Hi Hv q x Hq Hne. destruct (HL q x Hq Hne) as (lv' & j & -> & Hj & Hu). exists lv', j.
  split_and!; [done| |lia|done]. destruct (decide (j = i)) as [->|]; [|lia]. exfalso.
  destruct x as [l pre]. remember (lv' - l)%nat as d eqn:Hd. revert q l pre Hq Hne Hu Hd.
  induction d as [|d IH]; intros q l pre Hq Hne Hu Hd;
    (destruct (pt_up _ _ _ _ _ HP _ _ _ Hq) as [?|(p & pre' & i' & Hp & Hi' & -> & Hv' & E)]; [done|]).
  - destruct Hu as [Hl Hu]. cbn in Hl, Hu. assert (l = lv') as -> by lia. rewrite Nat.sub_diag, Z.div_1_r in Hu.
    pose proof (pt_top HP _ _ Hp) as ->. rewrite (pt_root _ _ _ _ _ HP) in Hp. injection Hp as <-.
    apply idx_split in Hu as [_ ->]; [congruence|done|done].
  - apply (IH p (S l) pre' Hp); [| |lia].
    + intros ->. rewrite (pt_root _ _ _ _ _ HP) in Hp. injection Hp. lia.
    + destruct Hu as [Hl Hu]. cbn in Hl. apply (under_child lv' _ l pre' i'); [done|lia|by split].
Qed.
Lemma left_from_beside i lv p0 root T : left_from i (S lv) p0 root T → 0 ≤ i < 512 →
  left_from (i + 1) (S lv) p0 root (beside lv p0 i T).
Proof.
  intros HL Hi q x [Hq Hn]%beside_lookup Hne. destruct (HL q x Hq Hne) as (lv' & j & [= ->] & Hj & Hu).
  exists lv', j. split_and!; [done| |lia|done]. destruct (decide (j = i)) as [->|]; [done|lia].
Qed.

Lemma freewalk_spec lv : ∀ p0 root s l T h k, FT s l lv p0 root T → kmem_lock ∉ h →
  wp (freewalk kend (S lv) root) (λ _ w', ∃ s' l', w' = World h k s' ∧ KA kend s' l' ∧
    (∀ q, q ∈ l' ↔ pool T l q) ∧ keep T l (ram s) (ram s')) (World h k s).
Proof.
  induction lv as [lv IHlv] using lt_wf_ind; intros p0 root s l T h k HF Hh. cbn [freewalk].
  apply wp_bind. eapply (wp_loop _ (λ n i w, ∃ s' l' T', w = World h k s' ∧ n = 512 - i ∧ 0 ≤ i ≤ 512 ∧
      FT s' l' lv p0 root T' ∧ left_from i lv p0 root T' ∧ (∀ q, pool T' l' q ↔ pool T l q) ∧
      keep T l (ram s) (ram s'))) with (n := 512).
  - intros n i w (s' & l' & T' & _ & ? & ? & _). lia.
  - intros n i w (s' & l' & T' & -> & -> & Hi & HF' & HL & Hp & Hk).
    destruct (Z.ltb_spec i 512) as [Hlt|Hge]; cbn [negb].
    2:{ assert (i = 512) as -> by lia. apply wp_ret. pose proof HF' as [HK HP HO _].
        destruct (HO root) as [Hok Hn]; [eexists; apply HP|].
        eapply wp_mono; [by apply (kfree_spec kend s' l' root)|]. intros _ ? (s2 & -> & HK2 & Ho).
        exists s2, (root :: l'). split_and!; [done|done| |].
        - intros q. rewrite <- Hp, elem_of_cons. unfold pool. split; [intros [->|?]; [left; eexists; apply HP|by right]|].
          intros [[x Hx]|?]; [|by right]. destruct (decide (q = root)) as [->|Hne]; [by left|].
          destruct (HL q x Hx Hne) as (? & j & _ & ? & _). lia.
        - intros b Hb. rewrite Ho; [by apply Hk|]. intros Hbr. apply Hb. exists root. split; [|done].
          apply Hp. left. eexists. apply HP. }
    apply wp_bind, wp_gets. cbn [st]. destruct (has (ld64 (ram s') (root + 8 * i)) PTE_V) eqn:Hv; cbn [andb].
    + destruct lv as [|lv]; [by rewrite (ft_leaf _ _ _ _ _ _ HF' root p0 i) in Hv; [|apply HF'|lia]|].
      destruct (pt_down _ _ _ _ _ (ft_pt _ _ _ _ _ _ HF') _ _ _ i (pt_root _ _ _ _ _ (ft_pt _ _ _ _ _ _ HF'))) as [_ Hfl]; [lia|done|].
      rewrite (has_low _ (Z.lor _ _)), Hfl by done. change (negb (has PTE_V (Z.lor (Z.lor PTE_R PTE_W) PTE_X))) with true.
      apply wp_bind. eapply wp_mono; [apply (IHlv lv ltac:(lia) (p0 * 512 + i) (PTE2PA (ld64 (ram s') (root + 8 * i))) s' l' (below lv p0 i T')); [apply FT_below; done || lia|done]|].
      intros _ ? (s2 & l2 & -> & HK2 & Hl2 & Hk2).
      destruct (FT_beside s' l' lv p0 root T' i s2 l2 HF' ltac:(lia) Hv HK2 Hl2 Hk2) as (HF3 & Hp3 & Hk3).
      apply wp_bind, wp_modify. apply wp_ret. exists (512 - (i + 1)). split; [|lia].
      eexists _, l2, (beside lv p0 i T'). split_and!; [reflexivity|done|lia|lia|exact HF3|by apply left_from_beside; [|lia]| |].
      * intros q. by rewrite Hp3.
      * intros b Hb. rewrite <- Hk by done. apply Hk3. by rewrite (pool_foot _ _ _ _ b Hp).
    + apply wp_ret. exists (512 - (i + 1)). split; [|lia]. exists s', l', T'.
      split_and!; [done|done|lia|lia|done| |done|done]. eapply left_from_next; [apply HF'|done|lia|done].
  - exists s, l, T. split_and!; [done|lia|lia|lia|done|eapply left_from_0; apply HF|done|done].
  - simpl Z.of_nat. lia.
Qed.
End freewalk.
