(* ===== verification/VmCopy.v ===== *)
(** * Moving bytes between the kernel and user memory: walkaddr, copyin,
    copyout, copyinstr *)
From S2P Require Import Prelude Param CString Mem Kalloc Vm VmInv VmSpec VmUser.

(** The physical page behind a user address (0: none, or not for users), and
    the physical address. *)
Definition upage (U : space) (va : Z) : Z :=
  match U !! vpn va with Some (pa, f) => if has (Z.lor f PTE_V) PTE_U then pa else 0 | None => 0 end.
Definition phys (U : space) (va : Z) : Z := upage U va + va mod PGSIZE.

Lemma off_range va : 0 ≤ va mod PGSIZE < PGSIZE.
Proof. by apply Z.mod_pos_bound. Qed.
(** Addresses of one page. *)
Lemma same_page va i : 0 ≤ i → va mod PGSIZE + i < PGSIZE →
  vpn (va + i) = vpn va ∧ (va + i) mod PGSIZE = va mod PGSIZE + i.
Proof.
  intros Hi H. pose proof (off_range va). pose proof (Z.div_mod va PGSIZE ltac:(done)). unfold vpn.
  split; [symmetry; apply (Z.div_unique _ _ _ (va mod PGSIZE + i))|symmetry; apply (Z.mod_unique _ _ (va / PGSIZE))]; lia.
Qed.
Lemma upage_same U va i : 0 ≤ i → va mod PGSIZE + i < PGSIZE → upage U (va + i) = upage U va.
Proof. intros. unfold upage. by destruct (same_page va i) as [-> _]. Qed.
Lemma phys_same U va i : 0 ≤ i → va mod PGSIZE + i < PGSIZE → phys U (va + i) = upage U va + (va mod PGSIZE + i).
Proof. intros. unfold phys. rewrite upage_same by done. by destruct (same_page va i) as [_ ->]. Qed.
Lemma upage_base U va : upage U (va - va mod PGSIZE) = upage U va.
Proof. unfold upage. by rewrite vpn_base. Qed.

Section copy.
Context (kend : Z).
Local Abbreviation VM := (VM kend).

Lemma walkaddr_spec s l T root U fr va h k : VM s l T root U fr → 0 ≤ va →
  wp (walkaddr root va) (λ r w', w' = World h k s ∧ r = upage U va) (World h k s).
Proof.
  intros HV Hva. unfold walkaddr. rewrite Z.geb_leb. destruct (Z.leb_spec MAXVA va) as [Hge|Hlt].
  { apply wp_ret. split; [done|]. unfold upage. destruct (U !! vpn va) as [[pa f]|] eqn:E; [|done].
    destruct (vm_some _ _ _ _ _ _ _ HV _ _ _ E) as [Hr _]. apply page_va in Hr. exfalso.
    unfold vpn in Hr. pose proof (Z.div_mod va PGSIZE ltac:(done)). pose proof (off_range va).
    change MAXVA with (2 ^ 26 * PGSIZE) in *. unfold PGSIZE in *. lia. }
  assert (Hv := va_page va ltac:(lia)). pose proof (tb_pt _ _ _ _ _ (vm_tb _ _ _ _ _ _ _ HV)) as HP.
  apply wp_bind. eapply wp_mono; [by apply walk_find|]. intros r w' [-> ->].
  unfold upage. destruct (U !! vpn va) as [[pa f]|] eqn:E.
  - destruct (VM_find kend s l T root U fr va pa f HV ltac:(lia) E) as (q & Hq & Hw & Hld & Hne). rewrite Hw.
    cbn [default from_option id]. rewrite (proj2 (Z.eqb_neq _ 0)) by done. apply wp_bind, wp_gets. cbn [st].
    destruct (vm_some _ _ _ _ _ _ _ HV _ _ _ E) as (_ & Hpa & Hf & _).
    rewrite Hld, has_of_V, (has_of pa f PTE_U), PTE2PA_of by done. cbn [negb].
    by destruct (has (Z.lor f PTE_V) PTE_U); apply wp_ret.
  - pose proof (vm_none _ _ _ _ _ _ _ HV _ E Hv) as HN. rewrite leaf_vpn in HN by lia. unfold leaf in HN.
    destruct (wlk (ram s) 2 root va) as [a|]; cbn [default from_option id]; [|by apply wp_ret].
    destruct (Z.eqb_spec a 0); [by apply wp_ret|]. apply wp_bind, wp_gets. cbn [st]. rewrite HN. by apply wp_ret.
Qed.

(** ** copyin *)
(** The bytes [[dst, dst + d)] after copying from user address [va]. *)
Definition copied_in (m m' : mem) (U : space) (dst va d : Z) : Prop :=
  ∀ b, rdb m' b = if within dst d b then rdb m (phys U (va + (b - dst))) else rdb m b.
Definition mapped_upto (U : space) (va d : Z) : Prop := ∀ i, 0 ≤ i < d → upage U (va + i) ≠ 0.

Lemma chunk_bounds va len n : 0 < len → n = (if PGSIZE - va mod PGSIZE >? len then len else PGSIZE - va mod PGSIZE) →
  0 < n ≤ len ∧ va mod PGSIZE + n ≤ PGSIZE ∧ (n = len ∨ va mod PGSIZE + n = PGSIZE).
Proof.
  intros Hl ->. pose proof (off_range va). rewrite Z.gtb_ltb. destruct (Z.ltb_spec len (PGSIZE - va mod PGSIZE)); lia.
Qed.
Lemma mapped_chunk U va d n : mapped_upto U va d → upage U (va + d) ≠ 0 → 0 ≤ d →
  (va + d) mod PGSIZE + n ≤ PGSIZE → mapped_upto U va (d + n).
Proof.
  intros Hm Hu Hd Hn i Hi. destruct (decide (i < d)); [apply Hm; lia|].
  replace (va + i) with (va + d + (i - d)) by lia. rewrite upage_same; [done|lia|lia].
Qed.
Lemma copied_in_chunk U m m' dst va d n len :
  copied_in m m' U dst va d → mapped_upto U va d → upage U (va + d) ≠ 0 → 0 ≤ d → 0 ≤ n → d + n ≤ len →
  (va + d) mod PGSIZE + n ≤ PGSIZE →
  (∀ i, 0 ≤ i < len → upage U (va + i) ≠ 0 → within dst len (phys U (va + i)) = false) →
  copied_in m (memmove m' (dst + d) (upage U (va + d) + (va + d) mod PGSIZE) n) U dst va (d + n).
Proof.
  intros HC Hm Hu Hd Hn0 Hlen Hn Hdis b. rewrite rdb_memmove by done.
  destruct (within (dst + d) n b) eqn:E1.
  - apply within_spec in E1. rewrite (proj2 (within_spec dst (d + n) b)) by lia.
    replace (va + (b - dst)) with (va + d + (b - (dst + d))) by lia. rewrite phys_same by lia.
    rewrite HC, (proj2 (within_false _ _ _)); [f_equal; lia|].
    specialize (Hdis (d + (b - (dst + d))) ltac:(lia)).
    rewrite (Z.add_assoc va), upage_same, phys_same in Hdis by lia. specialize (Hdis Hu).
    apply within_false in Hdis. lia.
  - rewrite HC. apply within_false in E1. destruct (within dst d b) eqn:E2.
    + apply within_spec in E2. by rewrite (proj2 (within_spec _ _ _)) by lia.
    + apply within_false in E2. by rewrite (proj2 (within_false _ _ _)) by lia.
Qed.
Lemma foot_out s l T root U fr m' dst len : VM s l T root U fr →
  (∀ b, dst ≤ b < dst + len → ¬ foot T l b) → (∀ b, within dst len b = false → rdb m' b = rdb (ram s) b) →
  VM (s <| ram := m' |>) l T root U fr.
Proof.
  intros HV Hft Hm. eapply VM_keep; [done|done|]. intros b Hb. apply Hm. apply within_false. intros H. by eapply Hft.
Qed.
Lemma copyin_spec s l T root U fr dst srcva len h k :
  VM s l T root U fr → 0 ≤ srcva → 0 ≤ len → srcva + len < 2 ^ 64 →
  (∀ b, dst ≤ b < dst + len → ¬ foot T l b) →
  (∀ i, 0 ≤ i < len → upage U (srcva + i) ≠ 0 → within dst len (phys U (srcva + i)) = false) →
  wp (copyin root dst srcva len) (λ r w', ∃ m' d, w' = World h k (s <| ram := m' |>) ∧
     VM (s <| ram := m' |>) l T root U fr ∧ copied_in (ram s) m' U dst srcva d ∧ mapped_upto U srcva d ∧
     ((r = 0 ∧ d = len) ∨ (r = -1 ∧ 0 ≤ d < len ∧ upage U (srcva + d) = 0))) (World h k s).
Proof.
  intros HV Hva Hlen Hmax Hft Hdis.
  eapply (wp_loop _ (λ n '(dst', va', len') w, ∃ m' d, w = World h k (s <| ram := m' |>) ∧ 0 ≤ d ≤ len ∧ n = len' ∧
      len' = len - d ∧ dst' = dst + d ∧ (len' = 0 ∨ va' = srcva + d) ∧ copied_in (ram s) m' U dst srcva d ∧
      mapped_upto U srcva d ∧ VM (s <| ram := m' |>) l T root U fr)) with (n := len).
  - intros n [[dst' va'] len'] w (m' & d & _ & ? & ? & ? & _). lia.
  - intros n [[dst' va'] len'] w (m' & d & -> & Hd & -> & -> & -> & Hva' & HC & Hm & HV').
    destruct (Z.ltb_spec 0 (len - d)); cbn [negb].
    2:{ apply wp_ret. exists m', d. split_and!; [done|done|done|done|]. left. lia. }
    destruct Hva' as [?| ->]; [lia|]. pose proof (off_range (srcva + d)) as Hoff.
    rewrite PGROUNDDOWN_eq by lia. set (va0 := srcva + d - (srcva + d) mod PGSIZE).
    assert (0 ≤ va0) by (unfold va0; pose proof (Z.mod_le (srcva + d) PGSIZE); unfold PGSIZE in *; lia).
    apply wp_bind. eapply wp_mono; [by eapply walkaddr_spec|]. intros r w' [-> ->].
    unfold va0. rewrite upage_base. fold va0.
    destruct (Z.eqb_spec (upage U (srcva + d)) 0) as [E|E].
    { apply wp_ret. exists m', d. split_and!; [done|done|done|done|]. right. lia. }
    replace (srcva + d - va0) with ((srcva + d) mod PGSIZE) by (unfold va0; lia).
    set (n := if _ >? _ then _ else _). destruct (chunk_bounds (srcva + d) (len - d) n) as (Hn1 & Hn2 & Hn3); [lia|done|].
    apply wp_bind, wp_modify, wp_ret. exists (len - d - n). split; [|lia].
    pose proof (copied_in_chunk U (ram s) m' dst srcva d n len HC Hm E ltac:(lia) ltac:(lia) ltac:(lia) ltac:(lia) Hdis) as HC'.
    eexists _, (d + n). split_and!; [reflexivity|lia|lia|lia|lia|lia| |exact HC'|apply mapped_chunk; done || lia|].
    + destruct Hn3 as [->|Hn3]; [left; lia|]. destruct (Z.eq_dec n (len - d)); [left; lia|right].
      rewrite u64_small; unfold va0 in *; lia.
    + apply (foot_out s l T root U fr _ dst len HV Hft). intros b Hb. rewrite HC'.
      apply within_false in Hb. by rewrite (proj2 (within_false _ _ _)) by lia.
  - exists (ram s), 0. destruct s. split_and!; [done|lia|lia|done|lia|lia|by right; lia| |intros i Hi; lia|done].
    intros b. by rewrite (proj2 (within_false _ _ _)) by lia.
  - simpl Z.of_nat. lia.
Qed.

(** ** copyout *)
Definition copied_out (m m' : mem) (U : space) (src va d : Z) : Prop :=
  (∀ i, 0 ≤ i < d → rdb m' (phys U (va + i)) = rdb m (src + i)) ∧
  (∀ b, (∀ i, 0 ≤ i < d → b ≠ phys U (va + i)) → rdb m' b = rdb m b).
(** The user range is made of distinct bytes, apart from the tables, the free
    pages and the source. *)
Record out_range (T : tables) (l : list Z) (U : space) (src va len : Z) : Prop := {
  or_inj i j : 0 ≤ i < len → 0 ≤ j < len → upage U (va + i) ≠ 0 → upage U (va + j) ≠ 0 →
    phys U (va + i) = phys U (va + j) → i = j;
  or_src i j : 0 ≤ i < len → 0 ≤ j < len → upage U (va + i) ≠ 0 → phys U (va + i) ≠ src + j;
  or_foot i : 0 ≤ i < len → upage U (va + i) ≠ 0 → ¬ foot T l (phys U (va + i));
}.
Lemma copied_out_chunk T l U m m' src va d n len :
  out_range T l U src va len → copied_out m m' U src va d → mapped_upto U va (d + n) →
  0 ≤ d → 0 ≤ n → d + n ≤ len → (va + d) mod PGSIZE + n ≤ PGSIZE →
  copied_out m (memmove m' (upage U (va + d) + (va + d) mod PGSIZE) (src + d) n) U src va (d + n).
Proof.
  intros [Hinj Hsrc _] [HC1 HC2] Hm Hd Hn0 Hlen Hn.
  assert (Hph : ∀ i, d ≤ i < d + n → phys U (va + i) = upage U (va + d) + (va + d) mod PGSIZE + (i - d)).
  { intros i Hi. replace (va + i) with (va + d + (i - d)) by lia. rewrite phys_same; lia. }
  assert (Hout : ∀ j, 0 ≤ j < len → rdb m' (src + j) = rdb m (src + j)).
  { intros j Hj. apply HC2. intros i Hi E. apply (Hsrc i j); [lia|lia|apply Hm; lia|done]. }
  split.
  - intros i Hi. rewrite rdb_memmove by done. destruct (decide (i < d)) as [Hlt|Hge].
    + rewrite (proj2 (within_false _ _ _)); [apply HC1; lia|]. intros [H1 H2].
      assert (Hx : phys U (va + i) = phys U (va + (d + (phys U (va + i) - (upage U (va + d) + (va + d) mod PGSIZE))))).
      { rewrite (Hph (d + _)) by lia. lia. }
      apply Hinj in Hx; [lia|lia|lia|apply Hm; lia|apply Hm; lia].
    + rewrite Hph by lia. rewrite (proj2 (within_spec _ _ _)) by lia. rewrite <- (Hout i) by lia. f_equal. lia.
  - intros b Hb. rewrite rdb_memmove by done. rewrite (proj2 (within_false _ _ _)).
    + apply HC2. intros i Hi. apply Hb. lia.
    + intros Hx. apply (Hb (d + (b - (upage U (va + d) + (va + d) mod PGSIZE)))); [lia|]. rewrite Hph; lia.
Qed.
Lemma copyout_spec s l T root U fr dstva src len h k :
  VM s l T root U fr → 0 ≤ dstva → 0 ≤ len → dstva + len < 2 ^ 64 → out_range T l U src dstva len →
  wp (copyout root dstva src len) (λ r w', ∃ m' d, w' = World h k (s <| ram := m' |>) ∧
     VM (s <| ram := m' |>) l T root U fr ∧ copied_out (ram s) m' U src dstva d ∧ mapped_upto U dstva d ∧
     ((r = 0 ∧ d = len) ∨ (r = -1 ∧ 0 ≤ d < len ∧ upage U (dstva + d) = 0))) (World h k s).
Proof.
  intros HV Hva Hlen Hmax HR.
  eapply (wp_loop _ (λ n '(va', src', len') w, ∃ m' d, w = World h k (s <| ram := m' |>) ∧ 0 ≤ d ≤ len ∧ n = len' ∧
      len' = len - d ∧ src' = src + d ∧ (len' = 0 ∨ va' = dstva + d) ∧ copied_out (ram s) m' U src dstva d ∧
      mapped_upto U dstva d ∧ VM (s <| ram := m' |>) l T root U fr)) with (n := len).
  - intros n [[va' src'] len'] w (m' & d & _ & ? & ? & ? & _). lia.
  - intros n [[va' src'] len'] w (m' & d & -> & Hd & -> & -> & -> & Hva' & HC & Hm & HV').
    destruct (Z.ltb_spec 0 (len - d)); cbn [negb].
    2:{ apply wp_ret. exists m', d. split_and!; [done|done|done|done|]. left. lia. }
    destruct Hva' as [?| ->]; [lia|]. pose proof (off_range (dstva + d)) as Hoff.
    rewrite PGROUNDDOWN_eq by lia. set (va0 := dstva + d - (dstva + d) mod PGSIZE).
    assert (0 ≤ va0) by (unfold va0; pose proof (Z.mod_le (dstva + d) PGSIZE); unfold PGSIZE in *; lia).
    apply wp_bind. eapply wp_mono; [by eapply walkaddr_spec|]. intros r w' [-> ->].
    unfold va0. rewrite upage_base. fold va0.
    destruct (Z.eqb_spec (upage U (dstva + d)) 0) as [E|E].
    { apply wp_ret. exists m', d. split_and!; [done|done|done|done|]. right. lia. }
    replace (dstva + d - va0) with ((dstva + d) mod PGSIZE) by (unfold va0; lia).
    set (n := if _ >? _ then _ else _). destruct (chunk_bounds (dstva + d) (len - d) n) as (Hn1 & Hn2 & Hn3); [lia|done|].
    assert (Hm' : mapped_upto U dstva (d + n)) by (apply mapped_chunk; done || lia).
    apply wp_bind, wp_modify, wp_ret. exists (len - d - n). split; [|lia].
    pose proof (copied_out_chunk T l U (ram s) m' src dstva d n len HR HC Hm' ltac:(lia) ltac:(lia) ltac:(lia) ltac:(lia)) as HC'.
    eexists _, (d + n). split_and!; [reflexivity|lia|lia|lia|lia|lia| |exact HC'|done|].
    + destruct Hn3 as [->|Hn3]; [left; lia|]. destruct (Z.eq_dec n (len - d)); [left; lia|right].
      rewrite u64_small; unfold va0 in *; lia.
    + eapply VM_keep; [exact HV|done|]. intros b Hb. apply HC'. intros i Hi ->.
      apply (or_foot _ _ _ _ _ _ HR i); [lia|by apply Hm'|done].
  - exists (ram s), 0. destruct s. split_and!; [done|lia|lia|done|lia|lia|by right; lia| |intros i Hi; lia|done].
    split; [lia|done].
  - simpl Z.of_nat. lia.
Qed.

(** ** copyinstr *)
Lemma copy_chunk_spec n : ∀ p dst h k s, (∀ i, 0 ≤ i < Z.of_nat n → within dst (Z.of_nat n) (p + i) = false) →
  wp (copy_chunk n p dst) (λ '(g, c) w', ∃ m', w' = World h k (s <| ram := m' |>) ∧ 0 ≤ c ≤ Z.of_nat n ∧
     (∀ i, 0 ≤ i < c → rdb (ram s) (p + i) ≠ 0) ∧
     (if (g : bool) then c < Z.of_nat n ∧ rdb (ram s) (p + c) = 0 else c = Z.of_nat n) ∧
     (∀ b, rdb m' b = if within dst (if g then c + 1 else c) b then rdb (ram s) (p + (b - dst)) else rdb (ram s) b))
    (World h k s).
Proof.
  induction n as [|n IH]; intros p dst h k s Hdis; cbn [copy_chunk].
  { apply wp_ret. exists (ram s). destruct s. split_and!; [done|lia|lia|lia|done|]. intros b.
    by rewrite (proj2 (within_false _ _ _)) by lia. }
  apply wp_bind, wp_gets. cbn [st]. assert (Hp := Hdis 0 ltac:(lia)). rewrite Z.add_0_r in Hp. apply within_false in Hp.
  destruct (Z.eqb_spec (rdb (ram s) p) 0) as [E|E]; apply wp_bind, wp_modify.
  - apply wp_ret. eexists. split_and!; [reflexivity|lia|lia|lia|lia|by rewrite Z.add_0_r|]. intros b.
    rewrite rdb_wrb. case_decide as Hb.
    + subst b. rewrite (proj2 (within_spec _ _ _)) by lia. by rewrite Z.sub_diag, Z.add_0_r, E.
    + by rewrite (proj2 (within_false _ _ _)) by lia.
  - set (s1 := s <| ram ::= _ |>). apply wp_bind.
    eapply wp_mono; [apply (IH (p + 1) (dst + 1) h k s1)|].
    { intros i Hi. specialize (Hdis (i + 1) ltac:(lia)). apply within_false in Hdis. apply within_false. lia. }
    intros [g c] w' (m' & -> & Hc & Hnz & Hg & Hm). apply wp_ret. exists m'.
    assert (Hsame : ∀ i, 0 ≤ i < Z.of_nat n → rdb (ram s1) (p + 1 + i) = rdb (ram s) (p + (i + 1))).
    { intros i Hi. cbn [ram s1 set_field]. rewrite rdb_wrb, decide_False; [f_equal; lia|].
      specialize (Hdis (i + 1) ltac:(lia)). apply within_false in Hdis. lia. }
    split_and!; [done|lia|lia| | |].
    + intros i Hi. destruct (decide (i = 0)) as [->|]; [by rewrite Z.add_0_r|].
      specialize (Hnz (i - 1) ltac:(lia)). rewrite Hsame in Hnz by lia. by replace (i - 1 + 1) with i in Hnz by lia.
    + destruct g; [|lia]. destruct Hg as [Hg1 Hg2]. split; [lia|]. rewrite <- Hg2, Hsame by lia. done.
    + intros b. rewrite Hm. destruct (within (dst + 1) _ b) eqn:E1.
      * apply within_spec in E1. rewrite (proj2 (within_spec _ _ _)) by (destruct g; lia).
        replace (p + 1 + (b - (dst + 1))) with (p + 1 + (b - dst - 1)) by lia. rewrite Hsame by (destruct g; lia). f_equal. lia.
      * apply within_false in E1. cbn [ram s1 set_field]. rewrite rdb_wrb, u8_rdb. case_decide as Hb.
        -- subst b. rewrite (proj2 (within_spec _ _ _)) by (destruct g; lia). by rewrite Z.sub_diag, Z.add_0_r.
        -- rewrite (proj2 (within_false _ _ _)); [done|]. destruct g; lia.
Qed.
Definition ubyte (m : mem) (U : space) (va : Z) : Z := rdb m (phys U va).
(** The first [d] bytes at [va] are readable and not nul. *)
Definition nonnul_upto (m : mem) (U : space) (va d : Z) : Prop :=
  ∀ i, 0 ≤ i < d → upage U (va + i) ≠ 0 ∧ ubyte m U (va + i) ≠ 0.
Lemma str_chunk U m m' m2 dst va d c e n len :
  copied_in m m' U dst va d → nonnul_upto m U va d → upage U (va + d) ≠ 0 → 0 ≤ d → 0 ≤ c ≤ e → e ≤ n →
  d + n ≤ len → (va + d) mod PGSIZE + n ≤ PGSIZE →
  (∀ i, 0 ≤ i < len → upage U (va + i) ≠ 0 → within dst len (phys U (va + i)) = false) →
  let p := upage U (va + d) + (va + d) mod PGSIZE in
  (∀ i, 0 ≤ i < c → rdb m' (p + i) ≠ 0) →
  (∀ b, rdb m2 b = if within (dst + d) e b then rdb m' (p + (b - (dst + d))) else rdb m' b) →
  copied_in m m2 U dst va (d + e) ∧ nonnul_upto m U va (d + c) ∧
  (∀ i, 0 ≤ i < n → rdb m' (p + i) = ubyte m U (va + (d + i))).
Proof.
  intros HC Hnn Hu Hd Hce Hen Hlen Hn Hdis p Hnz H2.
  assert (Hp : ∀ i, 0 ≤ i < n → phys U (va + (d + i)) = p + i).
  { intros i Hi. rewrite Z.add_assoc, phys_same by lia. unfold p. lia. }
  assert (Hup : ∀ i, 0 ≤ i < n → upage U (va + (d + i)) ≠ 0) by (intros i Hi; rewrite Z.add_assoc, upage_same by lia; done).
  assert (Hb : ∀ i, 0 ≤ i < n → rdb m' (p + i) = ubyte m U (va + (d + i))).
  { intros i Hi. unfold ubyte. rewrite HC, Hp by done. rewrite (proj2 (within_false _ _ _)); [done|].
    specialize (Hdis (d + i) ltac:(lia) (Hup i Hi)). rewrite Hp in Hdis by done. apply within_false in Hdis. lia. }
  split_and!; [|intros i Hi; destruct (decide (i < d)); [apply Hnn; lia|]|done].
  - intros b. rewrite H2. destruct (within (dst + d) e b) eqn:E1.
    + apply within_spec in E1. rewrite (proj2 (within_spec _ _ _)) by lia. rewrite Hb by lia. unfold ubyte. do 2 f_equal. lia.
    + rewrite HC. apply within_false in E1. destruct (within dst d b) eqn:E2.
      * apply within_spec in E2. by rewrite (proj2 (within_spec _ _ _)) by lia.
      * apply within_false in E2. by rewrite (proj2 (within_false _ _ _)) by lia.
  - specialize (Hup (i - d) ltac:(lia)). specialize (Hnz (i - d) ltac:(lia)). rewrite Hb in Hnz by lia.
    by replace (d + (i - d)) with i in * by lia.
Qed.
Lemma copyinstr_spec s l T root U fr dst srcva max h k :
  VM s l T root U fr → 0 ≤ srcva → 0 ≤ max → srcva + max < 2 ^ 64 →
  (∀ b, dst ≤ b < dst + max → ¬ foot T l b) →
  (∀ i, 0 ≤ i < max → upage U (srcva + i) ≠ 0 → within dst max (phys U (srcva + i)) = false) →
  wp (copyinstr root dst srcva max) (λ r w', ∃ m' d, w' = World h k (s <| ram := m' |>) ∧
     VM (s <| ram := m' |>) l T root U fr ∧ 0 ≤ d ≤ max ∧ nonnul_upto (ram s) U srcva d ∧
     ((r = 0 ∧ d < max ∧ upage U (srcva + d) ≠ 0 ∧ ubyte (ram s) U (srcva + d) = 0 ∧ copied_in (ram s) m' U dst srcva (d + 1)) ∨
      (r = -1 ∧ (d = max ∨ upage U (srcva + d) = 0) ∧ copied_in (ram s) m' U dst srcva d))) (World h k s).
Proof.
  intros HV Hva Hlen Hmax Hft Hdis.
  eapply (wp_loop _ (λ n '(dst', va', len') w, ∃ m' d, w = World h k (s <| ram := m' |>) ∧ 0 ≤ d ≤ max ∧ n = len' ∧
      len' = max - d ∧ dst' = dst + d ∧ (len' = 0 ∨ va' = srcva + d) ∧ copied_in (ram s) m' U dst srcva d ∧
      nonnul_upto (ram s) U srcva d ∧ VM (s <| ram := m' |>) l T root U fr)) with (n := max).
  - intros n [[dst' va'] len'] w (m' & d & _ & ? & ? & ? & _). lia.
  - intros n [[dst' va'] len'] w (m' & d & -> & Hd & -> & -> & -> & Hva' & HC & Hm & HV').
    destruct (Z.ltb_spec 0 (max - d)); cbn [negb].
    2:{ apply wp_ret. exists m', d. split_and!; [done|done|lia|lia|done|]. right. split_and!; [done|left; lia|done]. }
    destruct Hva' as [?| ->]; [lia|]. pose proof (off_range (srcva + d)) as Hoff.
    rewrite PGROUNDDOWN_eq by lia. set (va0 := srcva + d - (srcva + d) mod PGSIZE).
    assert (0 ≤ va0) by (unfold va0; pose proof (Z.mod_le (srcva + d) PGSIZE); unfold PGSIZE in *; lia).
    apply wp_bind. eapply wp_mono; [by eapply walkaddr_spec|]. intros r w' [-> ->].
    unfold va0. rewrite upage_base. fold va0.
    destruct (Z.eqb_spec (upage U (srcva + d)) 0) as [E|E].
    { apply wp_ret. exists m', d. split_and!; [done|done|lia|lia|done|]. right. auto. }
    replace (srcva + d - va0) with ((srcva + d) mod PGSIZE) by (unfold va0; lia).
    set (n := if _ >? _ then _ else _). destruct (chunk_bounds (srcva + d) (max - d) n) as (Hn1 & Hn2 & Hn3); [lia|done|].
    apply wp_bind. eapply wp_mono; [apply copy_chunk_spec|].
    { intros i Hi. specialize (Hdis (d + i) ltac:(lia)). rewrite Z.add_assoc, upage_same, phys_same in Hdis by lia.
      specialize (Hdis E). apply within_false in Hdis. apply within_false. lia. }
    intros [g c] w' (m2 & -> & Hc & Hnz & Hg & Hm2).
    destruct (str_chunk U (ram s) m' m2 dst srcva d c (if g then c + 1 else c) n max HC Hm E) as (HC2 & Hnn2 & Hby);
      [lia|destruct g; lia|destruct g; lia|lia|lia|done|exact Hnz|exact Hm2|].
    assert (HV2 : VM (s <| ram := m2 |>) l T root U fr).
    { apply (foot_out s l T root U fr _ dst max HV Hft). intros b Hb. rewrite HC2.
      apply within_false in Hb. rewrite (proj2 (within_false _ _ _)); [done|]. destruct g; lia. }
    destruct g; apply wp_ret.
    + exists m2, (d + c). split_and!; [done|done|lia|lia|done|]. left. destruct Hg as [Hg1 Hg2].
      split_and!; [done|lia| | |by rewrite <- Z.add_assoc].
      * rewrite Z.add_assoc, upage_same by lia. done.
      * rewrite <- Hby by lia. done.
    + exists (max - (d + c)). split; [|lia]. exists m2, (d + c). split_and!; [done|lia|lia|lia|lia|lia| |done|done|done].
      destruct Hn3 as [?|Hn3]; [left; lia|]. destruct (Z.eq_dec n (max - d)); [left; lia|right].
      rewrite u64_small; unfold va0 in *; lia.
  - exists (ram s), 0. destruct s. split_and!; [done|lia|lia|done|lia|lia|by right; lia| |intros i Hi; lia|done].
    intros b. by rewrite (proj2 (within_false _ _ _)) by lia.
  - simpl Z.of_nat. lia.
Qed.
End copy.
