(* ===== verification/VmProc.v ===== *)
(** * Whole address spaces: uvmcreate, uvmcopy, uvmfree, and the theorems about
    kernel/vm.c *)
From S2P Require Import Prelude Param CString Mem Kalloc Vm VmInv VmSpec VmUser VmFree VmCopy.

Section proc.
Context (kend : Z).
Local Abbreviation VM := (VM kend).

(** ** uvmcreate *)
Lemma PT_empty m root : frame root → (∀ b, in_page root b → rdb m b = 0) → PT m 2 0 root {[root := (2%nat, 0)]}.
Proof.
  intros Hf Hz. constructor.
  - by rewrite lookup_singleton_eq.
  - by intros q x [<- _]%lookup_singleton_Some.
  - by intros q l pre [_ [= <- _]]%lookup_singleton_Some.
  - intros p l pre i [<- _]%lookup_singleton_Some Hi.
    by rewrite ld_zero by (intros; apply Hz; unfold in_page, PGSIZE; lia).
  - intros q l pre [<- _]%lookup_singleton_Some. by left.
Qed.
Lemma uvmcreate_spec s pa l fr h k : KA kend s (pa :: l) → NoDup ((pa :: l) ++ fr) → Forall (page_ok kend) fr →
  kmem_lock ∉ h →
  wp uvmcreate (λ r w', ∃ s', r = pa ∧ w' = World h k s' ∧ VM s' l {[pa := (2%nat, 0)]} pa ∅ fr ∧
    ∀ b, ¬ in_page pa b → rdb (ram s') b = rdb (ram s) b) (World h k s).
Proof.
  intros HK Hnd Hfr Hh. assert (Hok : page_ok kend pa) by (apply (KA_ok _ _ _ _ HK); by left).
  unfold uvmcreate. apply wp_bind. eapply wp_mono; [by apply (kalloc_spec kend s (pa :: l))|].
  intros r ? (s1 & -> & -> & HK1 & _ & Ho). assert (pa ≠ 0) by (destruct Hok as (_ & _ & ?); lia).
  rewrite (proj2 (Z.eqb_neq pa 0)) by done. apply wp_bind, wp_modify, wp_ret.
  set (s2 := s1 <| ram ::= _ |>). exists s2.
  assert (Hz : ∀ b, in_page pa b → rdb (ram s2) b = 0).
  { intros b Hb. cbn [ram s2 set_field]. rewrite rdb_memset by done. by rewrite (proj2 (within_spec _ _ _)). }
  assert (Ho2 : ∀ b, ¬ in_page pa b → rdb (ram s2) b = rdb (ram s1) b).
  { intros b Hb. cbn [ram s2 set_field]. rewrite rdb_memset by done. by rewrite (proj2 (within_false _ _ _)). }
  assert (Hf2 : freelist s2 = freelist s1) by done. clearbody s2.
  cbn [app] in Hnd. apply NoDup_cons in Hnd as [Hpa Hnd]. rewrite elem_of_app in Hpa.
  assert (HP := PT_empty (ram s2) pa (page_ok_frame kend pa Hok) Hz).
  split_and!; [done|done| |by intros b Hb; rewrite Ho2, Ho].
  constructor; [split|..].
  - eapply KA_ext; [done|done|]. intros q b Hq Hb. apply Ho2. intros Hb'. apply Hpa. left.
    assert (q = pa) as <-; [|done]. destruct (KA_ok _ _ _ _ HK1 Hq), Hok. by eapply in_page_eq.
  - done.
  - intros q [x [<- _]%lookup_singleton_Some]. tauto.
  - intros q pre [_ [=]]%lookup_singleton_Some.
  - done.
  - intros v _ Hv. destruct (leaf_out HP (v * PGSIZE)) as [_ ->]; [by apply page_va| |done].
    intros q [_ [=]]%lookup_singleton_Some.
  - done.
  - intros q Hq. split; [by rewrite Forall_forall in Hfr; apply Hfr|].
    apply lookup_singleton_None. intros ->. tauto.
Qed.

(** ** uvmfree *)
Lemma VM_FT s l T root fr : VM s l T root ∅ fr → FT kend s l 2 0 root T.
Proof.
  intros [[HK HP HO Hlow] HS HN Hnd Hfr]. constructor; [done|done|done|].
  intros q pre i Hq Hi. pose proof (Hlow _ _ Hq) as Hpre.
  set (va := (pre * 512 + i) * PGSIZE).
  assert (Hva : 0 ≤ va < MAXVA) by (apply page_va; unfold NPAGES; lia).
  assert (Hs := vpn_split va ltac:(lia)). unfold va in Hs at 1. rewrite vpn_page in Hs.
  pose proof (PX_range 0 va ltac:(lia)) as Hx. change (Z.of_nat 0) with 0 in Hx.
  apply idx_split in Hs as [E1 E2]; [|done|done]. clearbody va. rewrite E1 in Hq. rewrite E2.
  destruct (leaf_in HP va q Hva Hq) as [_ <-]. rewrite <- leaf_vpn by lia. apply HN; [done|by apply va_page].
Qed.
Lemma uvmfree_spec s l T root U fr sz pas h k :
  VM s l T root U (pas ++ fr) → kmem_lock ∉ h → 0 ≤ sz ≤ MAXVA → Z.of_nat (length pas) = up sz → mapped U 0 pas →
  (∀ v, is_Some (U !! v) → 0 ≤ v < up sz) →
  wp (uvmfree kend root sz) (λ _ w', ∃ s' l', w' = World h k s' ∧ KA kend s' l' ∧
     (∀ q, q ∈ l' ↔ q ∈ pas ∨ pool T l q) ∧ keep T (pas ++ l) (ram s) (ram s')) (World h k s).
Proof.
  intros HV Hh Hsz Hlen Hm Hdom. unfold uvmfree. destruct (up_bounds sz Hsz) as [Hu _].
  assert (Hall : unmap_range U 0 (length pas) = ∅).
  { apply map_eq. intros x. rewrite unmap_range_lookup, lookup_empty. case_decide as Hd; [done|].
    destruct (U !! x) as [y|] eqn:E; [|done]. destruct (Hdom x); [by eexists|]. lia. }
  apply wp_bind. eapply (wp_mono _ (λ _ w', ∃ s1, w' = World h k s1 ∧ VM s1 (reverse pas ++ l) T root ∅ fr ∧
    keep T (pas ++ l) (ram s) (ram s1))).
  - apply wp_when. destruct (Z.ltb_spec 0 sz).
    + rewrite PGROUNDUP_up, Z.div_mul, <- Hlen by (done || lia).
      eapply wp_mono; [eapply (uvmunmap_spec kend s l T root U fr 0 pas true); [done|done|done|lia|done]|].
      intros _ w' (s' & -> & HV' & Hk'). exists s'. split_and!; [done| |done].
      unfold freed, unfreed in HV'. by rewrite firstn_all, drop_all, Hall in HV'.
    + assert (sz = 0) as -> by lia. change (up 0) with 0 in *. destruct pas; [|cbn in Hlen; lia].
      exists s. split_and!; [done| |done]. cbn in Hall. by rewrite Hall in HV.
  - intros _ w' (s1 & -> & HV1 & Hk1). apply VM_FT in HV1.
    eapply wp_mono; [by apply (freewalk_spec kend 2 0 root s1 (reverse pas ++ l) T)|].
    intros _ w' (s2 & l2 & -> & HK2 & Hl2 & Hk2). exists s2, l2.
    assert (Hp : ∀ q, pool T (reverse pas ++ l) q ↔ q ∈ pas ∨ pool T l q)
      by (intros q; unfold pool; rewrite elem_of_app, elem_of_reverse; tauto).
    split_and!; [done|done|intros q; by rewrite Hl2, Hp|].
    intros b Hb. rewrite Hk2, Hk1; [done|done|]. intros (x & Hx & Hbx). apply Hb. exists x. split; [|done].
    apply Hp in Hx. unfold pool in Hx. rewrite elem_of_app. tauto.
Qed.

(** ** uvmcopy *)
(** The parent's table [To] maps [Uo]; its pages and frames belong to [fr]. *)
Record parent (m : mem) (old : Z) (To : tables) (Uo : space) (fr : list Z) : Prop := {
  pr_pt : PT m 2 0 old To;
  pr_own q : is_Some (To !! q) → q ∈ fr;
  pr_map v pa f : Uo !! v = Some (pa, f) → 0 ≤ v < NPAGES ∧ frame pa ∧ 0 ≤ f < 2 ^ 10 ∧
    pa ∈ fr ∧ leaf m old (v * PGSIZE) = pte_of pa f;
}.
Lemma parent_ext m m' old To Uo fr : parent m old To Uo fr →
  (∀ q b, q ∈ fr → in_page q b → rdb m' b = rdb m b) → parent m' old To Uo fr.
Proof.
  intros [HP HO HM] Hm. assert (HP' : PT m' 2 0 old To).
  { eapply PT_ext; [done|]. intros p l pre b Hp Hb. eapply Hm; [|done]. apply HO. by eexists. }
  constructor; [done|done|]. intros v pa f Hv. destruct (HM v pa f Hv) as (A & B & C & D & E). split_and!; try done; try lia.
  rewrite <- E. eapply leaf_same; [exact HP|exact HP'| |by apply page_va]. intros q pre b Hq Hb. eapply Hm; [|done]. apply HO. by eexists.
Qed.
Lemma parent_walk {A} (K : Z → M kmem A) Φ m old To Uo fr v pa f h k s : parent m old To Uo fr → ram s = m →
  Uo !! v = Some (pa, f) →
  (∀ a, a ≠ 0 → ld64 m a = pte_of pa f → wp (K a) Φ (World h k s)) → wp (bind (walk old (v * PGSIZE) false) K) Φ (World h k s).
Proof.
  intros [HP HO HM] <- Hv HK. destruct (HM v pa f Hv) as (Hr & Hpa & Hf & _ & HL). pose proof (page_va v Hr) as Hva.
  apply wp_bind. eapply wp_mono; [apply (walk_find old _ h k s); lia|]. intros r w' [-> ->].
  destruct (leaf_cases HP _ Hva) as [(q & Hq & Hw & E)|(_ & _ & E)].
  - rewrite Hw. cbn [default from_option id]. apply HK; [|by rewrite <- HL, E].
    pose proof (PX_range 0 (v * PGSIZE) ltac:(lia)) as Hi. change (Z.of_nat 0) with 0 in Hi.
    destruct (pt_frame _ _ _ _ _ HP _ _ Hq). lia.
  - rewrite E in HL. pose proof (has_of_V pa f Hpa Hf) as HH. by rewrite <- HL in HH.
Qed.
(** Flags and contents of the parent's page [v]. *)
Definition oflags (Uo : space) (v : Z) : Z := match Uo !! v with Some (_, f) => Z.lor f PTE_V | None => 0 end.
Definition obyte (m : mem) (Uo : space) (v o : Z) : Z := match Uo !! v with Some (pa, _) => rdb m (pa + o) | None => 0 end.
Local Abbreviation cloned s l T new U fr Uo pas s' l' T' :=
  (grown kend s l T new U fr 0 (oflags Uo) (obyte (ram s) Uo) pas s' l' T').

Lemma grown_fr s l T root U fr v f C pas s' l' T' q b : grown kend s l T root U fr v f C pas s' l' T' →
  VM s l T root U fr → q ∈ fr → in_page q b → rdb (ram s') b = rdb (ram s) b.
Proof. intros G HV Hq Hb. apply (gn_keep _ _ _ _ _ _ _ _ _ _ _ _ _ _ G). by eapply fr_foot. Qed.
Lemma uvmcopy_spec s l T new U fr old To Uo sz h k :
  VM s l T new U fr → parent (ram s) old To Uo fr → kmem_lock ∉ h → 0 ≤ sz ≤ MAXVA →
  (∀ v, 0 ≤ v < up sz → U !! v = None ∧ ∃ pa f, Uo !! v = Some (pa, f) ∧ Z.lor f PTE_V ≠ PTE_V) →
  wp (uvmcopy kend old new sz) (λ r w', ∃ s' l' T', w' = World h k s' ∧
      ((r = 0 ∧ ∃ pas, Z.of_nat (length pas) = up sz ∧ cloned s l T new U fr Uo pas s' l' T') ∨
       (r = -1 ∧ VM s' l' T' new U fr ∧ evo s l T s' l' T'))) (World h k s).
Proof.
  intros HV HPar Hh Hsz Hpg. unfold uvmcopy. destruct (up_bounds sz Hsz) as [Hu1 Hu2].
  eapply (wp_loop _ (λ n a w, ∃ pas s' l' T', w = World h k s' ∧ a = (0 + Z.of_nat (length pas)) * PGSIZE ∧
      n = up sz - Z.of_nat (length pas) ∧ 0 ≤ n ∧ cloned s l T new U fr Uo pas s' l' T')) with (n := up sz).
  - intros n a w (pas & s' & l' & T' & _ & _ & _ & ? & _). lia.
  - intros n a w (pas & s' & l' & T' & -> & -> & -> & Hpos & G).
    set (v := 0 + Z.of_nat (length pas)) in *. destruct (Z.ltb_spec (v * PGSIZE) sz) as [Hlt|Hge]; cbn [negb].
    2:{ apply wp_ret. exists s', l', T'. split; [done|]. left. split; [done|]. exists pas. split; [|done].
        unfold PGSIZE, v in *. lia. }
    apply up_lt in Hlt; [|lia]. destruct (Hpg v ltac:(lia)) as (HUv & pa & f & Hv & Hleaf).
    pose proof (parent_ext (ram s) (ram s') old To Uo fr HPar (λ q b, grown_fr _ _ _ _ _ _ _ _ _ _ _ _ _ q b G HV)) as HPar'.
    destruct (pr_map _ _ _ _ _ HPar v pa f Hv) as (_ & Hpf & Hff & Hin & _).
    eapply (parent_walk _ _ _ old To Uo fr v pa f h k s' HPar' eq_refl Hv). intros a Ha Hld.
    rewrite (proj2 (Z.eqb_neq a 0)) by done. apply wp_bind, wp_ret. apply wp_bind, wp_gets. cbn [st].
    rewrite Hld, has_of_V, PTE2PA_of, PTE_FLAGS_of by done. apply wp_bind, wp_ret.
    replace (Z.lor f PTE_V) with (oflags Uo v) by (unfold oflags; by rewrite Hv).
    apply (grow_turn kend s l T new U fr 0 (oflags Uo) _ pas s' l' T' h k (λ mem, do_memmove mem pa PGSIZE) _ _ G);
      fold v; [done|lia|done| | | |].
    + unfold oflags. rewrite Hv. by apply flags_or.
    + intros p l2 s1 El HV1 Ho1. apply wp_modify. eexists. split; [reflexivity|].
      split; intros b Hb; rewrite rdb_memmove by done; [by rewrite (proj2 (within_false _ _ _))|].
      rewrite (proj2 (within_spec _ _ _)) by (unfold PGSIZE in *; lia).
      replace (p + b - p + pa) with (pa + b) by lia. unfold obyte. rewrite Hv, Ho1.
      * apply (grown_fr _ _ _ _ _ _ _ _ _ _ _ _ _ pa _ G HV Hin). by apply in_page_off.
      * intros Hbp. apply (fr_foot kend s' l' T' new _ _ pa (pa + b) (gn_vm _ _ _ _ _ _ _ _ _ _ _ _ _ _ G));
          [apply elem_of_app; by right|by apply in_page_off|]. exists p. split; [right; rewrite El; by left|done].
    + intros s2 l2 T2 G2. rewrite Z.div_mul by done. replace v with (Z.of_nat (length pas)) by (unfold v; lia).
      apply wp_bind. eapply wp_mono; [eapply (uvmunmap_spec kend s2 l2 T2 new _ fr 0 pas true); [apply G2|done|done|lia|]|].
      * apply mapped_map_pages. intros i Hi. unfold oflags. destruct (Hpg i ltac:(lia)) as (_ & pa' & f' & -> & Hne).
        by rewrite <- Z.lor_assoc.
      * intros _ w' (s3 & -> & HV3 & Hk3). unfold freed, unfreed in HV3. rewrite firstn_all, drop_all in HV3.
        destruct (grown_undo kend _ _ _ _ _ _ _ _ _ _ _ _ _ s3 G2) as [HV4 Hev]; [|done|done|].
        { intros i Hi. apply Hpg. lia. }
        apply wp_ret. exists s3, (reverse pas ++ l2), T2. split; [done|]. right. done.
    + intros p s2 l2 T2 G2. exists (up sz - Z.of_nat (S (length pas))). split; [|unfold v in *; lia].
      exists (pas ++ [p]), s2, l2, T2. rewrite length_app. cbn [length]. rewrite Nat.add_1_r.
      split_and!; [done|unfold v; f_equal; lia|done|unfold v in *; lia|done].
  - exists [], s, l, T. split_and!; [done|cbn; lia|cbn; lia|cbn; lia|by apply grown_nil].
  - unfold NPAGES in *. simpl Z.of_nat. lia.
Qed.
End proc.
Abbreviation cloned kend s l T new U fr Uo pas s' l' T' :=
  (grown kend s l T new U fr 0 (oflags Uo) (obyte (ram s) Uo) pas s' l' T').

(** ** A concrete machine *)
Definition vkend : Z := 0x87ff0000.
Definition boot_mem : kmem := final (kinit vkend) (World [] [] (mkKmem 0 ∅)).
Definition proot : Z := 0x87fff000.
Definition with_table : kmem := final uvmcreate (World [] [] boot_mem).
Definition with_page : kmem := final (uvmalloc vkend proot 0 5000 PTE_W) (World [] [] with_table).
Definition free_pages : list Z := Eval vm_compute in pages_from vkend.

Lemma boot_mem_ka : KA vkend boot_mem free_pages.
Proof.
  change free_pages with (pages_from (PGROUNDUP vkend)).
  apply (wp_final (λ s, KA vkend s (pages_from (PGROUNDUP vkend))) [] [] (kinit vkend)).
  apply kinit_spec. unfold vkend, PHYSTOP, KERNBASE. lia.
Qed.
Lemma with_table_vm : VM vkend with_table (tail free_pages) {[proot := (2%nat, 0)]} proot ∅ [].
Proof.
  apply (wp_final (λ s, VM vkend s (tail free_pages) {[proot := (2%nat, 0)]} proot ∅ []) [] [] uvmcreate).
  eapply wp_mono; [apply (uvmcreate_spec vkend boot_mem proot (tail free_pages) []); [apply boot_mem_ka| |constructor|set_solver]|].
  - rewrite app_nil_r. exact (proj2 boot_mem_ka).
  - intros r w' (s' & -> & -> & HV & _). eauto.
Qed.
(** The value a run returns. *)
Definition result {S A} (m : M S A) (w : world S) : option A := match m w with Done a _ => Some a | _ => None end.
(** The world it ends in. *)
Definition ending {S A} (m : M S A) (w : world S) : world S := match m w with Done _ w' => w' | _ => w end.
Lemma wp_result {S A} (m : M S A) Φ w r : wp m Φ w → result m w = Some r → Φ r (ending m w).
Proof. unfold wp, result, ending. destruct (m w); try done. by intros H [= ->]. Qed.
Lemma final_end {S A} (m : M S A) w : final m w = st (ending m w).
Proof. unfold final, ending. by destruct (m w). Qed.
Lemma with_page_result : result (uvmalloc vkend proot 0 5000 PTE_W) (World [] [] with_table) = Some 5000.
Proof. vm_compute. reflexivity. Qed.

Lemma with_page_grown : ∃ pas l T, Z.of_nat (length pas) = 2 ∧
  zeroed vkend with_table (tail free_pages) {[proot := (2%nat, 0)]} proot ∅ [] 0 PTE_W pas with_page l T.
Proof.
  assert (H : wp (uvmalloc vkend proot 0 5000 PTE_W) (λ r w', ∃ s' l' T', w' = World [] [] s' ∧
      ((r = 5000 ∧ ∃ pas, Z.of_nat (length pas) = up 5000 - up 0 ∧
          zeroed vkend with_table (tail free_pages) {[proot := (2%nat, 0)]} proot ∅ [] (up 0) PTE_W pas s' l' T') ∨
       (r = 0 ∧ VM vkend s' l' T' proot ∅ [] ∧ evo with_table (tail free_pages) {[proot := (2%nat, 0)]} s' l' T')))
    (World [] [] with_table)).
  { apply (uvmalloc_spec vkend with_table (tail free_pages) _ proot ∅ [] 0 5000 PTE_W [] [] with_table_vm);
      [set_solver|lia|done|done|done]. }
  destruct (wp_result _ _ _ _ H with_page_result) as (s' & l & T & Es & [(_ & pas & Hl & G)|(E & _)]); [|discriminate E].
  exists pas, l, T. split; [exact Hl|]. apply (f_equal st) in Es. cbn [st] in Es. unfold with_page.
  rewrite final_end, Es. exact G.
Qed.

(** A table seen from another one: its pages are somebody else's. *)
Definition owned (T : tables) (fr : list Z) : list Z := elements (dom T) ++ fr.
Lemma VM_parent kend s l T root U fr : VM kend s l T root U fr → (∀ v pa f, U !! v = Some (pa, f) → pa ∈ fr) →
  parent (ram s) root T U (owned T fr) ∧ NoDup (l ++ owned T fr) ∧ Forall (page_ok kend) (owned T fr).
Proof.
  intros [[HK HP HO _] HS HN Hnd Hfr] Hin. unfold owned.
  assert (HD : ∀ q, q ∈ elements (dom T) ↔ is_Some (T !! q)) by (intros q; by rewrite elem_of_elements, elem_of_dom).
  apply NoDup_app in Hnd as (Hl & Hlf & Hf). split_and!.
  - constructor; [done| |].
    + intros q Hq. apply elem_of_app. left. by apply HD.
    + intros v pa f Hv. destruct (HS v pa f Hv) as (A & B & C & D). split_and!; try done; try lia.
      apply elem_of_app. right. eauto.
  - apply NoDup_app. split_and!; [done| |apply NoDup_app; split_and!; [apply NoDup_elements| |done]].
    + intros q Hq [Hx|Hx]%elem_of_app; [apply HD, HO in Hx; tauto|by apply (Hlf q)].
    + intros q Hq Hx. apply HD in Hq as [x Hq]. destruct (Hfr q Hx). congruence.
  - apply Forall_forall. intros q [Hq|Hq]%elem_of_app; [by apply HO, HD|by apply Hfr].
Qed.
Definition with_child : kmem := final uvmcreate (World [] [] with_page).
Lemma with_child_result : result uvmcreate (World [] [] with_page) = Some 0x87ffa000.
Proof. vm_compute. reflexivity. Qed.
Lemma with_child_fork : ∃ l T fr To Uo,
  VM vkend with_child l T 0x87ffa000 ∅ fr ∧ parent (ram with_child) proot To Uo fr ∧
  (∀ v, 0 ≤ v < 2 → ∃ pa f, Uo !! v = Some (pa, f) ∧ Z.lor f PTE_V ≠ PTE_V).
Proof.
  destruct with_page_grown as (pas & l & T & Hl & G). pose proof (gn_vm _ _ _ _ _ _ _ _ _ _ _ _ _ _ G) as HV.
  rewrite app_nil_r in HV. set (Up := map_pages ∅ 0 pas (λ _, uflags PTE_W)) in *.
  destruct (VM_parent vkend with_page l T proot Up pas HV) as (HPar & Hnd & Hok).
  { intros v pa f Hv. destruct (decide (0 ≤ v < 0 + Z.of_nat (length pas))) as [Hr|Hn].
    - destruct (lookup_lt_is_Some_2 pas (Z.to_nat v)) as [p Hp]; [lia|].
      pose proof (map_pages_in ∅ pas (λ _, uflags PTE_W) 0 (Z.to_nat v) p Hp) as Hx.
      rewrite Z.add_0_l, Z2Nat.id in Hx by lia. unfold Up in Hv. rewrite Hv in Hx. injection Hx as <- _. by eapply list_elem_of_lookup_2.
    - unfold Up in Hv. by rewrite map_pages_out in Hv. }
  assert (HW : ∃ new l2, l = new :: l2 ∧ wp uvmcreate (λ r w', ∃ s', r = new ∧ w' = World [] [] s' ∧
     VM vkend s' l2 {[new := (2%nat, 0)]} new ∅ (owned T pas) ∧
     ∀ b, ¬ in_page new b → rdb (ram s') b = rdb (ram with_page) b) (World [] [] with_page)).
  { destruct l as [|new l2].
    - exfalso. assert (H0 : wp uvmcreate (λ r _, r = 0) (World [] [] with_page)).
      { apply wp_bind. eapply wp_mono; [apply (kalloc_spec vkend with_page []); [apply HV|apply not_elem_of_nil]|].
        intros r w' (s' & -> & -> & ->). by apply wp_ret. }
      pose proof (wp_result _ _ _ _ H0 with_child_result) as E. discriminate E.
    - exists new, l2. split; [reflexivity|]. apply uvmcreate_spec; [apply HV|exact Hnd|exact Hok|apply not_elem_of_nil]. }
  destruct HW as (new & l2 & -> & HW). destruct (wp_result _ _ _ _ HW with_child_result) as (s' & <- & Es & HV' & Ho).
  assert (Ec : with_child = s') by (unfold with_child; rewrite final_end, Es; reflexivity). rewrite Ec. clear Ec Es HW.
  exists l2, {[0x87ffa000 := (2%nat, 0)]}, (owned T pas), T, Up. split_and!; [exact HV'| |].
  - eapply parent_ext; [exact HPar|]. intros q b Hq Hb. apply Ho. intros Hb'.
    apply (fr_foot _ _ _ _ _ _ _ q b HV' Hq Hb). exists 0x87ffa000. split; [|exact Hb']. left. eexists. apply lookup_singleton_eq.
  - intros v Hv. destruct (lookup_lt_is_Some_2 pas (Z.to_nat v)) as [p Hp]; [lia|].
    pose proof (map_pages_in ∅ pas (λ _, uflags PTE_W) 0 (Z.to_nat v) p Hp) as Hx. rewrite Z.add_0_l, Z2Nat.id in Hx by lia.
    exists p, (uflags PTE_W). split; [exact Hx|apply flags_leaf].
Qed.

(** ** The properties *)

(** C14: uvmalloc is all or nothing. Growing an address space from [oldsz] to
    [newsz] bytes either returns [newsz] with the missing pages mapped to
    fresh, distinct, zeroed pages (readable, for users, with the extra
    permissions) and nothing else mapped differently; or it returns 0 with the
    mapping exactly as before. In both cases no page is lost: what the table,
    the free list and the new range hold together is what table and free list
    held before, and memory outside them is untouched. *)
Theorem uvmalloc_all_or_nothing kend s l T root U fr oldsz newsz xperm w :
  VM kend s l T root U fr → 0 ≤ oldsz ≤ newsz → newsz ≤ MAXVA → 0 ≤ uflags xperm < 2 ^ 10 →
  (∀ i, up oldsz ≤ i < up newsz → U !! i = None) →
  ∃ r s' l' T', uvmalloc kend root oldsz newsz xperm (World [] w s) = Done r (World [] w s') ∧
    ((r = newsz ∧ ∃ pas, Z.of_nat (length pas) = up newsz - up oldsz ∧
        zeroed kend s l T root U fr (up oldsz) xperm pas s' l' T') ∨
     (r = 0 ∧ VM kend s' l' T' root U fr ∧ evo s l T s' l' T')).
Proof.
  intros HV Ho Hn Hf HU. pose proof (uvmalloc_spec kend s l T root U fr oldsz newsz xperm [] w HV) as H.
  apply wp_done in H as (r & w' & E & s' & l' & T' & -> & H); [eauto 10|apply not_elem_of_nil|done|done|done|done].
Qed.
Lemma uvmalloc_all_or_nothing_witness :
  ∃ r s' l' T', uvmalloc vkend proot 0 5000 PTE_W (World [] [] with_table) = Done r (World [] [] s') ∧
    ((r = 5000 ∧ ∃ pas, Z.of_nat (length pas) = 2 ∧
        zeroed vkend with_table (tail free_pages) {[proot := (2%nat, 0)]} proot ∅ [] 0 PTE_W pas s' l' T') ∨
     (r = 0 ∧ VM vkend s' l' T' proot ∅ [] ∧ evo with_table (tail free_pages) {[proot := (2%nat, 0)]} s' l' T')).
Proof.
  apply (uvmalloc_all_or_nothing vkend with_table (tail free_pages) {[proot := (2%nat, 0)]} proot ∅ [] 0 5000 PTE_W []);
    [exact with_table_vm|lia|discriminate|split; [discriminate|reflexivity]|reflexivity].
Defined.

(** C33: uvmfree gives back everything: every user page and every page-table
    page of an address space of [sz] bytes returns to the free list, exactly
    once, and no other page does. *)
Theorem uvmfree_returns_all kend s l T root U fr sz pas w :
  VM kend s l T root U (pas ++ fr) → 0 ≤ sz ≤ MAXVA → Z.of_nat (length pas) = up sz → mapped U 0 pas →
  (∀ v, is_Some (U !! v) → 0 ≤ v < up sz) →
  ∃ s' l', uvmfree kend root sz (World [] w s) = Done () (World [] w s') ∧ KA kend s' l' ∧ NoDup l' ∧
    (∀ q, q ∈ l' ↔ q ∈ pas ∨ is_Some (T !! q) ∨ q ∈ l).
Proof.
  intros HV Hsz Hl Hm Hd. pose proof (uvmfree_spec kend s l T root U fr sz pas [] w HV) as H.
  apply wp_done in H as ([] & w' & E & s' & l' & -> & HK & Hq & _); [|apply not_elem_of_nil|done..].
  exists s', l'. split_and!; [done|done|apply HK|exact Hq].
Qed.
Lemma uvmfree_returns_all_witness : ∃ (pas l : list Z) (T : tables) s' l',
  uvmfree vkend proot 5000 (World [] [] with_page) = Done () (World [] [] s') ∧ KA vkend s' l' ∧ NoDup l' ∧
  (∀ q, q ∈ l' ↔ q ∈ pas ∨ is_Some (T !! q) ∨ q ∈ l).
Proof.
  destruct with_page_grown as (pas & l & T & Hl & G). exists pas, l, T.
  apply (uvmfree_returns_all vkend with_page l T proot (map_pages ∅ 0 pas (λ _, uflags PTE_W)) [] 5000 pas []).
  - exact (gn_vm _ _ _ _ _ _ _ _ _ _ _ _ _ _ G).
  - split; discriminate.
  - exact Hl.
  - apply mapped_map_pages. intros. apply flags_leaf.
  - intros v [x Hx]. change (up 5000) with 2. destruct (decide (0 ≤ v < 0 + Z.of_nat (length pas))) as [|Hn]; [lia|].
    by rewrite map_pages_out in Hx.
Defined.

(** C13: uvmcopy gives the child its own copy. Either it returns 0 and every page
    of the parent's first [sz] bytes is mapped in the child at the same address
    with the same flags, to a fresh page with the same contents; or it returns
    -1 and the child's mapping is as before. The parent's tables and memory
    are unchanged, and no page is lost. *)
Theorem uvmcopy_clones kend s l T new U fr old To Uo sz w :
  VM kend s l T new U fr → parent (ram s) old To Uo fr → 0 ≤ sz ≤ MAXVA →
  (∀ v, 0 ≤ v < up sz → U !! v = None ∧ ∃ pa f, Uo !! v = Some (pa, f) ∧ Z.lor f PTE_V ≠ PTE_V) →
  ∃ r s' l' T', uvmcopy kend old new sz (World [] w s) = Done r (World [] w s') ∧
    parent (ram s') old To Uo fr ∧ (∀ q b, q ∈ fr → in_page q b → rdb (ram s') b = rdb (ram s) b) ∧
    ((r = 0 ∧ ∃ pas, Z.of_nat (length pas) = up sz ∧ cloned kend s l T new U fr Uo pas s' l' T') ∨
     (r = -1 ∧ VM kend s' l' T' new U fr ∧ evo s l T s' l' T')).
Proof.
  intros HV HP Hsz Hpg. pose proof (uvmcopy_spec kend s l T new U fr old To Uo sz [] w HV HP) as H.
  apply wp_done in H as (r & w' & E & s' & l' & T' & -> & H); [|apply not_elem_of_nil|done|done].
  assert (Hk : keep T l (ram s) (ram s')) by (destruct H as [(_ & pas & _ & G)|(_ & _ & Hev)]; [apply G|apply Hev]).
  assert (Hfr : ∀ q b, q ∈ fr → in_page q b → rdb (ram s') b = rdb (ram s) b).
  { intros q b Hq Hb. apply Hk. by eapply fr_foot. }
  exists r, s', l', T'. split_and!; [done|by eapply parent_ext|done|done].
Qed.
Lemma uvmcopy_clones_witness : ∃ r s', uvmcopy vkend proot 0x87ffa000 5000 (World [] [] with_child) = Done r (World [] [] s') ∧
  (r = 0 ∨ r = -1).
Proof.
  destruct with_child_fork as (l & T & fr & To & Uo & HV & HP & Hpg).
  destruct (uvmcopy_clones vkend with_child l T 0x87ffa000 ∅ fr proot To Uo 5000 []) as (r & s' & l' & T' & E & _ & _ & H).
  - exact HV.
  - exact HP.
  - split; discriminate.
  - intros v Hv. split; [reflexivity|]. apply Hpg. exact Hv.
  - exists r, s'. split; [exact E|]. destruct H as [(H & _)|(H & _)]; [left|right]; exact H.
Defined.

(** ** Copying across the boundary *)
(** The page table's and the allocator's pages all lie above the kernel. *)
Lemma foot_high kend s l T root U fr b : VM kend s l T root U fr → foot T l b → kend ≤ b.
Proof.
  intros [[HK HP HO _] _ _ _ _] (q & Hq & Hb). assert (page_ok kend q) as (_ & Hr & _).
  { destruct Hq as [Hq|Hq]; [by apply HO|by apply (KA_ok _ _ _ _ HK)]. }
  unfold in_page in Hb. lia.
Qed.
(** The two user pages of [with_page]. *)
Definition ubase (pas : list Z) : space := map_pages ∅ 0 pas (λ _, uflags PTE_W).
Lemma ubase_page pas va : 0 ≤ va < 4096 → upage (ubase pas) va = default 0 (head pas).
Proof.
  intros Hva. unfold upage, vpn. rewrite Z.div_small by (unfold PGSIZE; lia).
  destruct pas as [|p pas]; [done|]. unfold ubase. cbn [map_pages]. by rewrite lookup_insert_eq.
Qed.
Lemma with_page_vm : ∃ p pas l T, VM vkend with_page l T proot (ubase (p :: pas)) (p :: pas) ∧ vkend ≤ p.
Proof.
  destruct with_page_grown as ([|p pas] & l & T & Hl & G); [discriminate Hl|].
  pose proof (gn_vm _ _ _ _ _ _ _ _ _ _ _ _ _ _ G) as HV. rewrite app_nil_r in HV. exists p, pas, l, T.
  split; [exact HV|]. destruct (vm_fr _ _ _ _ _ _ _ HV p) as [(_ & Hr & _) _]; [by left|lia].
Qed.
Definition kbuf : Z := 0x80010000.

(** Copyin copies exactly. Whatever user range is named, copyin returns 0
    after moving all of it into the kernel buffer, or -1 at the first page that
    is not mapped for the user, with exactly the bytes before it copied; no
    other byte of memory changes and the page table stays intact. *)
Theorem copyin_exact kend s l T root U fr dst srcva len w :
  VM kend s l T root U fr → 0 ≤ srcva → 0 ≤ len → srcva + len < 2 ^ 64 →
  (∀ b, dst ≤ b < dst + len → ¬ foot T l b) →
  (∀ i, 0 ≤ i < len → upage U (srcva + i) ≠ 0 → within dst len (phys U (srcva + i)) = false) →
  ∃ r m' d, copyin root dst srcva len (World [] w s) = Done r (World [] w (s <| ram := m' |>)) ∧
    VM kend (s <| ram := m' |>) l T root U fr ∧
    (∀ b, rdb m' b = if within dst d b then ubyte (ram s) U (srcva + (b - dst)) else rdb (ram s) b) ∧
    mapped_upto U srcva d ∧ ((r = 0 ∧ d = len) ∨ (r = -1 ∧ 0 ≤ d < len ∧ upage U (srcva + d) = 0)).
Proof.
  intros HV H1 H2 H3 H4 H5. pose proof (copyin_spec kend s l T root U fr dst srcva len [] w HV H1 H2 H3 H4 H5) as H.
  apply wp_done in H as (r & w' & E & m' & d & -> & H). eauto 10.
Qed.
Lemma copyin_exact_witness : ∃ r s', copyin proot kbuf 100 50 (World [] [] with_page) = Done r (World [] [] s') ∧ r = 0.
Proof.
  destruct with_page_vm as (p & pas & l & T & HV & Hp).
  destruct (copyin_exact vkend with_page l T proot (ubase (p :: pas)) (p :: pas) kbuf 100 50 [] HV) as (r & m' & d & E & _ & _ & _ & H).
  - lia.
  - lia.
  - lia.
  - intros b Hb Hf. apply (foot_high _ _ _ _ _ _ _ _ HV) in Hf. unfold kbuf, vkend in *. lia.
  - intros i Hi _. apply within_false. unfold phys. rewrite ubase_page by lia. cbn [head default from_option id].
    pose proof (off_range (100 + i)). unfold kbuf, vkend in *. lia.
  - exists r, (with_page <| ram := m' |>). split; [exact E|]. destruct H as [(H & _)|(_ & Hd & Hu)]; [exact H|].
    rewrite ubase_page in Hu by lia. cbn in Hu. unfold vkend in Hp. lia.
Defined.

(** C35: What copyout stores at a mapped user range, copyin reads back: the two
    calls return 0 and the kernel's second buffer ends up with the bytes of
    the first, whatever the alignment and however many pages are crossed. *)
Theorem copy_roundtrip kend s l T root U fr va src dst len w :
  VM kend s l T root U fr → 0 ≤ va → 0 ≤ len → va + len < 2 ^ 64 → mapped_upto U va len →
  out_range T l U src va len → (∀ b, dst ≤ b < dst + len → ¬ foot T l b) →
  (∀ i, 0 ≤ i < len → within dst len (phys U (va + i)) = false) →
  ∃ m', (r ← copyout root va src len; r' ← copyin root dst va len; ret (r, r')) (World [] w s) =
      Done (0, 0) (World [] w (s <| ram := m' |>)) ∧
    ∀ i, 0 ≤ i < len → rdb m' (dst + i) = rdb (ram s) (src + i).
Proof.
  intros HV H1 H2 H3 Hm HR H4 H5.
  cut (wp (r ← copyout root va src len; r' ← copyin root dst va len; ret (r, r'))
    (λ a w', ∃ m', a = (0, 0) ∧ w' = World [] w (s <| ram := m' |>) ∧ ∀ i, 0 ≤ i < len → rdb m' (dst + i) = rdb (ram s) (src + i))
    (World [] w s)).
  { intros H. apply wp_done in H as (a & w' & E & m' & -> & -> & Hb). eauto. }
  apply wp_bind. eapply wp_mono; [by apply (copyout_spec kend s l T root U fr va src len [] w HV)|].
  intros r w' (m1 & d1 & -> & HV1 & [HC1 _] & _ & [[-> ->]|(_ & Hd & Hu)]); [|by destruct (Hm d1)].
  apply wp_bind. eapply wp_mono; [apply (copyin_spec kend _ l T root U fr dst va len [] w HV1); auto|].
  intros r w' (m2 & d2 & -> & _ & HC2 & _ & [[-> ->]|(_ & Hd & Hu)]); [|by destruct (Hm d2)].
  apply wp_ret. exists m2. split_and!; [done|done|]. intros i Hi. rewrite HC2, (proj2 (within_spec _ _ _)) by lia.
  replace (va + (dst + i - dst)) with (va + i) by lia. by apply HC1.
Qed.
Lemma copy_roundtrip_witness : ∃ m',
  (r ← copyout proot 100 kbuf 50; r' ← copyin proot (kbuf + 50) 100 50; ret (r, r')) (World [] [] with_page) =
      Done (0, 0) (World [] [] (with_page <| ram := m' |>)) ∧
    ∀ i, 0 ≤ i < 50 → rdb m' (kbuf + 50 + i) = rdb (ram with_page) (kbuf + i).
Proof.
  destruct with_page_vm as (p & pas & l & T & HV & Hp).
  assert (Hph : ∀ i, 0 ≤ i < 50 → phys (ubase (p :: pas)) (100 + i) = p + (100 + i)).
  { intros i Hi. unfold phys. rewrite ubase_page by lia. cbn [head default from_option id].
    rewrite Z.mod_small by (unfold PGSIZE; lia). reflexivity. }
  apply (copy_roundtrip vkend with_page l T proot (ubase (p :: pas)) (p :: pas) 100 kbuf (kbuf + 50) 50 [] HV).
  - lia.
  - lia.
  - lia.
  - intros i Hi. rewrite ubase_page by lia. cbn. unfold vkend in Hp. lia.
  - split.
    + intros i j Hi Hj _ _. rewrite !Hph by lia. lia.
    + intros i j Hi Hj _. rewrite Hph by lia. unfold kbuf, vkend in *. lia.
    + intros i Hi _. rewrite Hph by lia. apply (fr_foot _ _ _ _ _ _ _ p _ HV); [by left|]. unfold in_page, PGSIZE. lia.
  - intros b Hb Hf. apply (foot_high _ _ _ _ _ _ _ _ HV) in Hf. unfold kbuf, vkend in *. lia.
  - intros i Hi. apply within_false. rewrite Hph by lia. unfold kbuf, vkend in *. lia.
Defined.

(** Copyinstr returns 0 exactly when a nul byte is found among the first
    [max] bytes and every page up to it is mapped, and then the buffer holds
    the string with its nul; otherwise it returns -1: all [max] bytes are
    non-zero or an unmapped page comes first. Nothing outside the copied bytes
    changes. *)
Theorem copyinstr_exact kend s l T root U fr dst srcva max w :
  VM kend s l T root U fr → 0 ≤ srcva → 0 ≤ max → srcva + max < 2 ^ 64 →
  (∀ b, dst ≤ b < dst + max → ¬ foot T l b) →
  (∀ i, 0 ≤ i < max → upage U (srcva + i) ≠ 0 → within dst max (phys U (srcva + i)) = false) →
  ∃ r m' d, copyinstr root dst srcva max (World [] w s) = Done r (World [] w (s <| ram := m' |>)) ∧
    0 ≤ d ≤ max ∧ nonnul_upto (ram s) U srcva d ∧
    ((r = 0 ∧ d < max ∧ upage U (srcva + d) ≠ 0 ∧ ubyte (ram s) U (srcva + d) = 0 ∧ copied_in (ram s) m' U dst srcva (d + 1)) ∨
     (r = -1 ∧ (d = max ∨ upage U (srcva + d) = 0) ∧ copied_in (ram s) m' U dst srcva d)).
Proof.
  intros HV H1 H2 H3 H4 H5. pose proof (copyinstr_spec kend s l T root U fr dst srcva max [] w HV H1 H2 H3 H4 H5) as H.
  apply wp_done in H as (r & w' & E & m' & d & -> & _ & H). eauto 10.
Qed.
Lemma copyinstr_exact_witness : ∃ r s', copyinstr proot kbuf 100 50 (World [] [] with_page) = Done r (World [] [] s').
Proof.
  destruct with_page_vm as (p & pas & l & T & HV & Hp).
  destruct (copyinstr_exact vkend with_page l T proot (ubase (p :: pas)) (p :: pas) kbuf 100 50 [] HV) as (r & m' & d & E & _).
  - lia.
  - lia.
  - lia.
  - intros b Hb Hf. apply (foot_high _ _ _ _ _ _ _ _ HV) in Hf. unfold kbuf, vkend in *. lia.
  - intros i Hi _. apply within_false. unfold phys. rewrite ubase_page by lia. cbn [head default from_option id].
    pose proof (off_range (100 + i)). unfold kbuf, vkend in *. lia.
  - exists r, (with_page <| ram := m' |>). exact E.
Defined.
