(* ===== verification/ProcVm.v ===== *)
(** * The address space of a process: proc_pagetable and proc_freepagetable

    kernel/proc.c on top of vm.c: a new page table holds the trampoline and the
    trapframe of the process, two supervisor pages at the top of the address
    space, and no user memory. [trampoline] is the address of trampoline.S. *)
From S2P Require Import Prelude Param CString Mem Kalloc Vm VmInv VmSpec VmUser VmFree VmCopy VmProc.

Section procvm.
Context (kend trampoline : Z).

Definition proc_pagetable (trapframe : Z) : M kmem Z :=
  pagetable ← uvmcreate;
  if pagetable =? 0 then ret 0
  else
    r ← mappages pagetable TRAMPOLINE PGSIZE trampoline (Z.lor PTE_R PTE_X);
    if r <? 0 then uvmfree kend pagetable 0;; ret 0
    else
      r ← mappages pagetable TRAPFRAME PGSIZE trapframe (Z.lor PTE_R PTE_W);
      if r <? 0 then
        uvmunmap kend pagetable TRAMPOLINE 1 false;;
        uvmfree kend pagetable 0;;
        ret 0
      else ret pagetable.

Definition proc_freepagetable (pagetable sz : Z) : M kmem unit :=
  uvmunmap kend pagetable TRAMPOLINE 1 false;;
  uvmunmap kend pagetable TRAPFRAME 1 false;;
  uvmfree kend pagetable sz.

(** ** Specifications *)
Definition vtramp : Z := NPAGES - 1.
Definition vframe : Z := NPAGES - 2.
Lemma vtramp_va : TRAMPOLINE = vtramp * PGSIZE. Proof. done. Qed.
Lemma vframe_va : TRAPFRAME = vframe * PGSIZE. Proof. done. Qed.
(** What proc_pagetable maps. *)
Definition kernel_pages (trapframe : Z) : space :=
  <[vframe := (trapframe, Z.lor PTE_R PTE_W)]> {[vtramp := (trampoline, Z.lor PTE_R PTE_X)]}.

(** The whole pool is free again. *)
Definition all_free (s : kmem) (l : list Z) (s' : kmem) : Prop :=
  ∃ l', KA kend s' l' ∧ (∀ q, q ∈ l' ↔ q ∈ l) ∧ ∀ b, (∀ q, q ∈ l → ¬ in_page q b) → rdb (ram s') b = rdb (ram s) b.

Lemma mappages_frame s l T root U fr v pa perm h k :
  VM kend s l T root U fr → kmem_lock ∉ h → 0 ≤ v < NPAGES → frame pa → 0 ≤ perm < 2 ^ 10 → U !! v = None →
  wp (mappages root (v * PGSIZE) PGSIZE pa perm) (λ r w', ∃ s' l' T', w' = World h k s' ∧ evo s l T s' l' T' ∧
     ((r = 0 ∧ VM kend s' l' T' root (<[v := (pa, perm)]> U) fr) ∨ (r = -1 ∧ VM kend s' l' T' root U fr))) (World h k s).
Proof.
  intros HV Hh Hv Hpa Hperm HU. assert (MAXVA = NPAGES * PGSIZE) by done.
  eapply wp_mono; [apply (mappages_spec kend s l T root U fr _ PGSIZE pa perm 1 h k HV Hh)|].
  - unfold PGSIZE. lia.
  - done.
  - unfold PGSIZE in *. lia.
  - rewrite vpn_page. unfold vpn, PGSIZE. rewrite <- (Z.div_unique (v * 4096 + 4096 - 1) 4096 v 4095); lia.
  - done.
  - destruct Hpa as [Hal Hpa]. apply Z.div_exact in Hal; [|done]. unfold PGSIZE in *.
    assert (pa / 4096 < 2 ^ 44) by (apply Z.div_lt_upper_bound; lia). lia.
  - done.
  - intros i. rewrite vpn_page. intros. by replace i with v by lia.
  - intros r w' (s' & l' & T' & n & -> & HV' & Hev & Hr). rewrite vpn_page in HV'. exists s', l', T'.
    split_and!; [done|done|]. destruct Hr as [[-> ->]|(-> & Hn & ->)].
    + left. split; [done|]. cbn [map_range] in HV'. change (Z.of_nat 0) with 0 in HV'. by rewrite Z.mul_0_l, !Z.add_0_r in HV'.
    + right. assert (n = 0)%nat as -> by lia. done.
Qed.
(** Unmapping one page that stays allocated touches the table only. *)
Lemma unmap_kept s l T root U fr v pa f h k : VM kend s l T root U fr → kmem_lock ∉ h → 0 ≤ v < NPAGES →
  U !! v = Some (pa, f) → Z.lor f PTE_V ≠ PTE_V →
  wp (uvmunmap kend root (v * PGSIZE) 1 false) (λ _ w', ∃ s', w' = World h k s' ∧ VM kend s' l T root (delete v U) fr ∧
    keep T l (ram s) (ram s')) (World h k s).
Proof.
  intros HV Hh Hv HU Hf. unfold uvmunmap. apply wp_bind, wp_when. rewrite Z.mod_mul by done. cbn [Z.eqb negb].
  rewrite u64_small by (unfold PGSIZE, NPAGES in *; lia).
  eapply (wp_loop _ (λ n a w, (n = 1 ∧ a = v * PGSIZE ∧ w = World h k s) ∨
    (n = 0 ∧ a = (v + 1) * PGSIZE ∧ ∃ s', w = World h k s' ∧ VM kend s' l T root (delete v U) fr ∧ keep T l (ram s) (ram s')))) with (n := 1);
    [intros n a w [[-> _]|[-> _]]; lia| |by left|done].
  intros n a w [(-> & -> & ->)|(-> & -> & s' & -> & HV' & Hk)].
  - rewrite (proj2 (Z.ltb_lt _ _)) by (unfold PGSIZE; lia). cbn [negb].
    destruct (vm_some _ _ _ _ _ _ _ HV _ _ _ HU) as (_ & Hfr & Hfl & _).
    eapply (VM_walk_found _ _ _ s); [exact HV|done|exact HU|]. intros q Hq Hne Hld.
    rewrite (proj2 (Z.eqb_neq _ 0)) by done. apply wp_bind, wp_ret. apply wp_bind, wp_gets. cbn [st].
    rewrite Hld, has_of_V, PTE_FLAGS_of by done. rewrite (proj2 (Z.eqb_neq _ PTE_V)) by done.
    cbn [negb]. apply wp_bind, wp_ret. apply wp_bind, wp_ret. apply wp_bind, wp_ret. apply wp_bind, wp_modify. apply wp_ret.
    destruct (VM_set kend s l T root U (delete v U) fr (v * PGSIZE) q 0 HV (page_va v Hv) Hq) as [HV2 Hk2]; [done| | |].
    + intros v'. rewrite vpn_page. intros. by rewrite lookup_delete_ne.
    + rewrite vpn_page. by rewrite lookup_delete_eq.
    + exists 0. split; [|lia]. right. split; [done|]. rewrite u64_page by (unfold NPAGES, PGSIZE in *; lia). split; [unfold PGSIZE; lia|]. eauto.
  - rewrite (proj2 (Z.ltb_ge _ _)) by (unfold PGSIZE; lia). cbn [negb]. apply wp_ret. eauto.
Qed.
(** Giving back a table without user pages. *)
Lemma uvmfree_empty s l T root fr h k : VM kend s l T root ∅ fr → kmem_lock ∉ h →
  wp (uvmfree kend root 0) (λ _ w', ∃ s' l', w' = World h k s' ∧ KA kend s' l' ∧ (∀ q, q ∈ l' ↔ pool T l q) ∧ keep T l (ram s) (ram s')) (World h k s).
Proof.
  intros HV Hh. eapply wp_mono; [apply (uvmfree_spec kend s l T root ∅ fr 0 []); [done|done|done|done| |]|].
  - intros i pa. by rewrite lookup_nil.
  - intros v [x Hx]. by rewrite lookup_empty in Hx.
  - intros _ w' (s' & l' & -> & HK & Hl & Hk). exists s', l'. split; [done|]. split; [done|]. split; [|done].
    intros q. rewrite Hl. split; [intros [Hq|?]; [by apply not_elem_of_nil in Hq|done]|by right].
Qed.
Lemma foot_sub (T : tables) (l l0 : list Z) b : (∀ q, pool T l q → q ∈ l0) → (∀ q, q ∈ l0 → ¬ in_page q b) → ¬ foot T l b.
Proof. intros H Hb (q & Hq & Hin). apply (Hb q); [by apply H|done]. Qed.

(** A new table owns pages of the free list only, and failing gives them all back. *)
Lemma proc_pagetable_spec s l fr tf h k : KA kend s l → NoDup (l ++ fr) → Forall (page_ok kend) fr → frame trampoline → frame tf → kmem_lock ∉ h →
  wp (proc_pagetable tf) (λ r w', ∃ s', w' = World h k s' ∧
    ((r = 0 ∧ all_free s l s') ∨
     (r ≠ 0 ∧ ∃ l' T, VM kend s' l' T r (kernel_pages tf) fr ∧ (∀ q, pool T l' q ↔ q ∈ l) ∧
        ∀ b, (∀ q, q ∈ l → ¬ in_page q b) → rdb (ram s') b = rdb (ram s) b))) (World h k s).
Proof.
  intros HK Hnd Hfr Htr Htf Hh. unfold proc_pagetable. apply wp_bind. destruct l as [|pa l].
  { unfold uvmcreate. apply wp_bind. eapply wp_mono; [apply (kalloc_spec kend s [] h k HK Hh)|]. intros r w' (s' & -> & -> & ->).
    apply wp_ret, wp_ret. exists s. split; [done|]. left. split; [done|]. exists []. done. }
  assert (Hpa0 : pa ≠ 0) by (destruct (KA_ok kend _ _ pa HK ltac:(by left)) as (_ & _ & ?); lia).
  eapply wp_mono; [apply (uvmcreate_spec kend s pa l fr h k HK Hnd Hfr Hh)|]. intros r w' (s1 & -> & -> & HV1 & Ho1).
  rewrite (proj2 (Z.eqb_neq pa 0)) by done.
  assert (Hp1 : ∀ q, pool {[pa := (2%nat, 0)]} l q ↔ q ∈ pa :: l).
  { intros q. unfold pool. rewrite elem_of_cons. split; (intros [H|H]; [left|by right]); [destruct H as [x [<- _]%lookup_singleton_Some]; done|subst; eexists; apply lookup_singleton_eq]. }
  assert (Hout : ∀ s2 s3 l2 T2, keep T2 l2 (ram s2) (ram s3) → (∀ q, pool T2 l2 q ↔ pool {[pa := (2%nat, 0)]} l q) →
    (∀ b, (∀ q, q ∈ pa :: l → ¬ in_page q b) → rdb (ram s2) b = rdb (ram s) b) → ∀ b, (∀ q, q ∈ pa :: l → ¬ in_page q b) → rdb (ram s3) b = rdb (ram s) b).
  { intros s2 s3 l2 T2 Hk Hpl H2 b Hb. rewrite Hk; [by apply H2|]. apply (foot_sub _ _ (pa :: l)); [|done]. intros q Hq. by apply Hp1, Hpl. }
  assert (H1 : ∀ b, (∀ q, q ∈ pa :: l → ¬ in_page q b) → rdb (ram s1) b = rdb (ram s) b) by (intros b Hb; apply Ho1, Hb; by left).
  apply wp_bind. eapply wp_mono; [apply (mappages_frame s1 l _ pa ∅ fr vtramp trampoline _ h k HV1 Hh); done|].
  intros r w' (s2 & l2 & T2 & -> & Hev2 & [(-> & HV2)|(-> & HV2)]); cbn [Z.ltb Z.compare].
  2:{ apply wp_bind. eapply wp_mono; [apply (uvmfree_empty _ _ _ _ _ h k HV2 Hh)|]. intros _ w' (s3 & l3 & -> & HK3 & Hl3 & Hk3). apply wp_ret.
      exists s3. split; [done|]. left. split; [done|]. exists l3. split; [done|]. split; [intros q; by rewrite Hl3, (ev_pool _ _ _ _ _ _ Hev2), Hp1|].
      apply (Hout s2 s3 l2 T2 Hk3 (ev_pool _ _ _ _ _ _ Hev2)). apply (Hout s1 s2 l _ (ev_keep _ _ _ _ _ _ Hev2)); done. }
  pose proof (Hout s1 s2 l _ (ev_keep _ _ _ _ _ _ Hev2) (λ q, iff_refl _) H1) as H2.
  apply wp_bind. eapply wp_mono; [apply (mappages_frame s2 l2 T2 pa _ fr vframe tf _ h k HV2 Hh); done|].
  intros r w' (s3 & l3 & T3 & -> & Hev3 & Hr). pose proof (evo_trans _ _ _ _ _ _ _ _ _ Hev2 Hev3) as Hev.
  pose proof (Hout s2 s3 l2 T2 (ev_keep _ _ _ _ _ _ Hev3) (ev_pool _ _ _ _ _ _ Hev2) H2) as H3.
  destruct Hr as [(-> & HV3)|(-> & HV3)]; cbn [Z.ltb Z.compare].
  - apply wp_ret. exists s3. split; [done|]. right. split; [done|]. exists l3, T3. split; [done|]. split; [|done].
    intros q. by rewrite (ev_pool _ _ _ _ _ _ Hev), Hp1.
  - apply wp_bind. eapply wp_mono; [apply (unmap_kept s3 l3 T3 pa _ fr vtramp trampoline (Z.lor PTE_R PTE_X) h k HV3 Hh); done|].
    intros _ w' (s4 & -> & HV4 & Hk4). pose proof (Hout s3 s4 l3 T3 Hk4 (ev_pool _ _ _ _ _ _ Hev) H3) as H4.
    rewrite delete_insert_id in HV4 by done.
    apply wp_bind. eapply wp_mono; [apply (uvmfree_empty _ _ _ _ _ h k HV4 Hh)|]. intros _ w' (s5 & l5 & -> & HK5 & Hl5 & Hk5). apply wp_ret.
    exists s5. split; [done|]. left. split; [done|]. exists l5. split; [done|]. split; [intros q; by rewrite Hl5, (ev_pool _ _ _ _ _ _ Hev), Hp1|].
    apply (Hout s4 s5 l3 T3 Hk5 (ev_pool _ _ _ _ _ _ Hev) H4).
Qed.
(** The address space of a process: [sz] bytes of user memory in the pages
    [pas], and the two kernel pages. *)
Record proc_space (U : space) (tf sz : Z) (pas : list Z) : Prop := {
  ps_tramp : U !! vtramp = Some (trampoline, Z.lor PTE_R PTE_X);
  ps_frame : U !! vframe = Some (tf, Z.lor PTE_R PTE_W);
  ps_size : 0 ≤ sz ≤ TRAPFRAME ∧ Z.of_nat (length pas) = up sz;
  ps_user : mapped U 0 pas;
  ps_only v : is_Some (U !! v) → 0 ≤ v < up sz ∨ v = vtramp ∨ v = vframe;
}.
Lemma kernel_pages_space tf : proc_space (kernel_pages tf) tf 0 [].
Proof.
  split; try done. intros v [x Hx]. right. unfold kernel_pages in Hx. apply lookup_insert_Some in Hx as [[<- _]|[_ Hx]]; [by right|].
  apply lookup_singleton_Some in Hx as [<- _]. by left.
Qed.
Lemma proc_space_below U tf sz pas : proc_space U tf sz pas → 0 ≤ up sz ≤ vframe ∧ sz ≤ MAXVA.
Proof.
  intros [_ _ [Hsz _] _ _]. split; [|unfold TRAPFRAME, TRAMPOLINE, PGSIZE in *; lia]. split; [apply up_bounds; unfold TRAPFRAME, TRAMPOLINE, PGSIZE in *; lia|].
  rewrite vframe_va in Hsz. pose proof (up_mono sz (vframe * PGSIZE) ltac:(lia)) as H. by rewrite up_page in H.
Qed.
Lemma proc_freepagetable_spec s l T root U fr tf sz pas h k : VM kend s l T root U (pas ++ fr) → proc_space U tf sz pas → kmem_lock ∉ h →
  wp (proc_freepagetable root sz) (λ _ w', ∃ s' l', w' = World h k s' ∧ KA kend s' l' ∧ (∀ q, q ∈ l' ↔ q ∈ pas ∨ pool T l q) ∧
    keep T (pas ++ l) (ram s) (ram s')) (World h k s).
Proof.
  intros HV HS Hh. destruct (proc_space_below _ _ _ _ HS) as [Hup Hmax]. destruct HS as [Ht Hf [Hsz Hlen] Hu Ho].
  assert (Hw : ∀ x y : mem, keep T l x y → keep T (pas ++ l) x y).
  { intros x y H b Hb. apply H. intros (q & Hq & Hin). apply Hb. exists q. split; [|done]. destruct Hq; [by left|right; apply elem_of_app; by right]. }
  unfold proc_freepagetable. apply wp_bind. rewrite vtramp_va, vframe_va.
  eapply wp_mono; [eapply (unmap_kept s l T root U _ vtramp trampoline); [exact HV|done|done|exact Ht|done]|]. intros _ w' (s1 & -> & HV1 & Hk1).
  apply wp_bind. eapply wp_mono; [eapply (unmap_kept s1 l T root _ _ vframe tf); [exact HV1|done|done|rewrite lookup_delete_ne; done|done]|].
  intros _ w' (s2 & -> & HV2 & Hk2).
  assert (Hlow : ∀ v, v < vframe → delete vframe (delete vtramp U) !! v = U !! v) by (intros v Hv; rewrite !lookup_delete_ne by (unfold vtramp, vframe in *; lia); done).
  eapply wp_mono; [eapply (uvmfree_spec kend s2 l T root _ fr sz pas); [exact HV2|done|lia|done| |]|].
  - intros i pa Hi. apply lookup_lt_Some in Hi as Hli. rewrite Hlow by lia. by apply Hu.
  - intros v [x Hx]. apply lookup_delete_Some in Hx as [Hn1 Hx]. apply lookup_delete_Some in Hx as [Hn2 Hx].
    destruct (Ho v) as [?|[?|?]]; [by eexists|done|congruence..].
  - intros _ w' (s3 & l3 & -> & HK & Hl & Hk3). exists s3, l3. split; [done|]. split; [done|]. split; [done|].
    intros b Hb. rewrite Hk3, (Hw _ _ Hk2), (Hw _ _ Hk1); done.
Qed.

End procvm.

(** The page table of a process is made and given back without a leak. From
    any free list proc_pagetable either fails with every page free again and
    nothing else touched, or yields a table that maps exactly the trampoline
    (readable, executable) and the trapframe (readable, writable), neither of
    them for users, built from pages of the free list; proc_freepagetable then
    returns exactly those pages, leaving trampoline and trapframe alone. *)
Theorem proc_pagetable_lifecycle kend trampoline s l fr tf w :
  KA kend s l → NoDup (l ++ fr) → Forall (page_ok kend) fr → frame trampoline → tf ∈ fr →
  ∃ r s', proc_pagetable kend trampoline tf (World [] w s) = Done r (World [] w s') ∧
    ((r = 0 ∧ all_free kend s l s') ∨
     (r ≠ 0 ∧ (∃ l' T, VM kend s' l' T r (kernel_pages trampoline tf) fr ∧ (∀ q, pool T l' q ↔ q ∈ l)) ∧
      ∃ s2, proc_freepagetable kend r 0 (World [] w s') = Done () (World [] w s2) ∧ all_free kend s l s2)).
Proof.
  intros HK Hnd Hfr Htr Htf. assert (Hf : frame tf) by (apply (page_ok_frame kend); rewrite Forall_forall in Hfr; by apply Hfr).
  pose proof (proc_pagetable_spec kend trampoline s l fr tf [] w HK Hnd Hfr Htr Hf ltac:(apply not_elem_of_nil)) as H.
  apply wp_done in H as (r & w' & E & s' & -> & [H|(Hr & l' & T & HV & Hp & Ho)]); exists r, s'; (split; [done|]); [by left|].
  right. split; [done|]. split; [by exists l', T|].
  pose proof (proc_freepagetable_spec kend trampoline s' l' T r _ fr tf 0 [] [] w HV (kernel_pages_space trampoline tf) ltac:(apply not_elem_of_nil)) as H2.
  apply wp_done in H2 as ([] & w2 & E2 & s2 & l2 & -> & HK2 & Hl2 & Hk2). exists s2. split; [done|]. exists l2.
  assert (Hq : ∀ q, q ∈ l2 ↔ q ∈ l).
  { intros q. rewrite Hl2, Hp. split; [intros [Hq|?]; [by apply not_elem_of_nil in Hq|done]|by right]. }
  split; [done|]. split; [done|]. intros b Hb. rewrite Hk2; [by apply Ho|]. apply (foot_sub _ _ l); [|done]. intros q. by rewrite Hp.
Qed.
Definition demo_tramp : Z := 0x80007000.
Definition demo_tf : Z := 0x87fff000.
Definition with_frame : kmem := final kalloc (World [] [] boot_mem).
Lemma with_frame_ka : KA vkend with_frame (tail free_pages) ∧ hd 0 free_pages = demo_tf.
Proof.
  split; [|reflexivity]. apply (wp_final (λ s, KA vkend s (tail free_pages)) [] [] kalloc).
  eapply wp_mono; [apply (kalloc_spec vkend boot_mem free_pages [] []); [exact boot_mem_ka|apply not_elem_of_nil]|].
  intros r w' (s' & -> & H). exists s'. split; [reflexivity|]. exact (proj1 (proj2 H)).
Qed.
Lemma proc_pagetable_lifecycle_witness : ∃ r s', proc_pagetable vkend demo_tramp demo_tf (World [] [] with_frame) = Done r (World [] [] s') ∧
    ((r = 0 ∧ all_free vkend with_frame (tail free_pages) s') ∨
     (r ≠ 0 ∧ (∃ l' T, VM vkend s' l' T r (kernel_pages demo_tramp demo_tf) [demo_tf] ∧ (∀ q, pool T l' q ↔ q ∈ tail free_pages)) ∧
      ∃ s2, proc_freepagetable vkend r 0 (World [] [] s') = Done () (World [] [] s2) ∧ all_free vkend with_frame (tail free_pages) s2)).
Proof.
  apply (proc_pagetable_lifecycle vkend demo_tramp with_frame (tail free_pages) [demo_tf] demo_tf []).
  - exact (proj1 with_frame_ka).
  - rewrite Permutation_app_comm. exact (proj2 boot_mem_ka).
  - apply Forall_singleton. apply (KA_ok vkend _ _ demo_tf boot_mem_ka). by left.
  - split; [reflexivity|split; reflexivity].
  - by left.
Defined.
