(* ===== verification/ProcMem.v ===== *)
(** * Who owns the memory

    The pages that kinit put on the free list, [P], are at any time divided
    between the free list, the address spaces of the processes, and other
    holders ([ext]: pipes, page tables of the kernel). A process holds its
    trapframe, the pages of its page table and its user memory. The operations
    of vm.c and ProcVm.v that work on one process keep this partition and every
    byte of the others. *)
From S2P Require Import Prelude Param CString Mem Kalloc Vm VmInv VmSpec VmUser VmFree VmCopy VmProc ProcVm.

(** The memory of one process. *)
Record pmem := mkPmem { m_tf : Z; m_root : Z; m_tabs : tables; m_space : space; m_pas : list Z; m_sz : Z }.
#[export] Instance eta_pmem : Settable pmem := λ d,
  mkPmem (m_tf d) (m_root d) (m_tabs d) (m_space d) (m_pas d) (m_sz d).
Definition m_pages (d : pmem) : list Z := m_tf d :: elements (dom (m_tabs d)) ++ m_pas d.
Definition all_pages (ds : gmap nat pmem) : list Z := concat (m_pages <$> (map_to_list ds).*2).

Lemma all_pages_insert ds i d : ds !! i = None → all_pages (<[i := d]> ds) ≡ₚ m_pages d ++ all_pages ds.
Proof. intros Hi. unfold all_pages. rewrite map_to_list_insert by done. done. Qed.
Lemma all_pages_delete ds i d : ds !! i = Some d → all_pages ds ≡ₚ m_pages d ++ all_pages (delete i ds).
Proof.
  intros Hi. rewrite <- (insert_delete_id ds i d) at 1 by done. apply all_pages_insert. apply lookup_delete_eq.
Qed.
Lemma elem_of_all_pages ds q : q ∈ all_pages ds ↔ ∃ i d, ds !! i = Some d ∧ q ∈ m_pages d.
Proof.
  unfold all_pages. rewrite list_elem_of_In, in_concat. split.
  - intros (x & Hx & Hq). apply list_elem_of_In, list_elem_of_fmap in Hx as (d & -> & Hd).
    apply list_elem_of_fmap in Hd as ([i d'] & -> & Hd). apply elem_of_map_to_list in Hd. exists i, d'.
    split; [done|]. by apply list_elem_of_In.
  - intros (i & d & Hi & Hq). exists (m_pages d). split; [|by apply list_elem_of_In].
    apply list_elem_of_In, list_elem_of_fmap. exists d. split; [done|]. apply list_elem_of_fmap. exists (i, d).
    split; [done|]. by apply elem_of_map_to_list.
Qed.

(** The pages of [L] have not been written. *)
Definition untouched (L : list Z) (m m' : mem) : Prop := ∀ q b, q ∈ L → in_page q b → rdb m' b = rdb m b.
Lemma untouched_refl L m : untouched L m m.
Proof. done. Qed.
Lemma untouched_trans L m1 m2 m3 : untouched L m1 m2 → untouched L m2 m3 → untouched L m1 m3.
Proof. intros H1 H2 q b Hq Hb. rewrite (H2 q b Hq Hb). by apply (H1 q). Qed.
Lemma untouched_sub L L' m m' : (∀ q, q ∈ L' → q ∈ L) → untouched L m m' → untouched L' m m'.
Proof. intros HL H q b Hq Hb. apply (H q); auto. Qed.

Section mem.
Context (kend trampoline : Z).

(** What the page table of a process says, read in the memory [m]. *)
Record Space (m : mem) (d : pmem) : Prop := {
  sp_pt : PT m 2 0 (m_root d) (m_tabs d);
  sp_low q pre : m_tabs d !! q = Some (0%nat, pre) → 0 ≤ pre < 2 ^ 17;
  sp_some v pa f : m_space d !! v = Some (pa, f) →
    0 ≤ v < NPAGES ∧ frame pa ∧ 0 ≤ f < 2 ^ 10 ∧ leaf m (m_root d) (v * PGSIZE) = pte_of pa f;
  sp_none v : m_space d !! v = None → 0 ≤ v < NPAGES → has (leaf m (m_root d) (v * PGSIZE)) PTE_V = false;
  sp_proc : proc_space trampoline (m_space d) (m_tf d) (m_sz d) (m_pas d);
}.
Lemma tab_page d q : is_Some (m_tabs d !! q) → q ∈ m_pages d.
Proof. intros Hq. right. apply elem_of_app. left. by apply elem_of_elements, elem_of_dom. Qed.
Lemma Space_ext m m' d : Space m d →
  (∀ q b, is_Some (m_tabs d !! q) → in_page q b → rdb m' b = rdb m b) → Space m' d.
Proof.
  intros [HP HL HS HN HA] Hm.
  assert (Hq : ∀ q x b, m_tabs d !! q = Some x → in_page q b → rdb m' b = rdb m b)
    by (intros q x b Hq; apply Hm; by eexists).
  assert (HP' : PT m' 2 0 (m_root d) (m_tabs d)) by (eapply PT_ext; [exact HP|]; eauto).
  assert (HE : ∀ v, 0 ≤ v < NPAGES → leaf m' (m_root d) (v * PGSIZE) = leaf m (m_root d) (v * PGSIZE))
    by (intros v Hv; eapply leaf_same; [exact HP|exact HP'|eauto|by apply page_va]).
  split; [done|done| | |done].
  - intros v pa f Hv. destruct (HS v pa f Hv) as (A & B & C & D). by rewrite HE.
  - intros v Hv Hr. rewrite HE by done. by apply HN.
Qed.

(** [P] is divided between the free list [l], the processes and [ext]. *)
Record MemInv (P : list Z) (k : kmem) (l : list Z) (ds : gmap nat pmem) (ext : list Z) : Prop := {
  mi_ka : KA kend k l;
  mi_pool : NoDup P ∧ Forall (page_ok kend) P;
  mi_part : l ++ all_pages ds ++ ext ≡ₚ P;
  mi_space i d : ds !! i = Some d → Space (ram k) d;
}.
Lemma mi_nodup P k l ds ext : MemInv P k l ds ext → NoDup (l ++ all_pages ds ++ ext).
Proof. intros [_ [HP _] HQ _]. by rewrite HQ. Qed.
Lemma mi_ok P k l ds ext q : MemInv P k l ds ext → q ∈ all_pages ds ++ ext → page_ok kend q.
Proof.
  intros [_ [_ HP] HQ _] Hq. rewrite Forall_forall in HP. apply HP. rewrite <- HQ. apply elem_of_app. by right.
Qed.
(** The others, seen from process [i]. *)
Definition others (ds : gmap nat pmem) (ext : list Z) (i : nat) : list Z := all_pages (delete i ds) ++ ext.
Lemma part_split P k l ds ext i d : MemInv P k l ds ext → ds !! i = Some d →
  l ++ m_pages d ++ others ds ext i ≡ₚ P.
Proof. intros HI Hd. rewrite <- (mi_part _ _ _ _ _ HI), (all_pages_delete ds i d Hd). unfold others. solve_Permutation. Qed.

Lemma mi_open P k l ds ext i d : MemInv P k l ds ext → ds !! i = Some d →
  VM kend k l (m_tabs d) (m_root d) (m_space d) (m_pas d ++ m_tf d :: others ds ext i).
Proof.
  intros HI Hd. pose proof (part_split _ _ _ _ _ _ _ HI Hd) as HQ. destruct (mi_pool _ _ _ _ _ HI) as [HP Hok].
  rewrite Forall_forall in Hok. destruct (mi_space _ _ _ _ _ HI i d Hd) as [S1 S2 S3 S4 _].
  unfold m_pages in HQ. set (E := elements (dom (m_tabs d))) in *.
  assert (HE : ∀ q, q ∈ E ↔ is_Some (m_tabs d !! q)) by (intros q; unfold E; by rewrite elem_of_elements, elem_of_dom).
  assert (Hnd : NoDup (E ++ l ++ m_pas d ++ m_tf d :: others ds ext i)).
  { assert (Hp : E ++ l ++ m_pas d ++ m_tf d :: others ds ext i ≡ₚ P); [rewrite <- HQ; solve_Permutation|by rewrite Hp]. }
  apply NoDup_app in Hnd as (_ & Hdis & Hnd).
  split; [split|done|done|done|].
  - apply HI.
  - done.
  - intros q Hq. apply HE in Hq. split; [apply Hok; rewrite <- HQ; set_solver|]. intros Hl. apply (Hdis q Hq). set_solver.
  - done.
  - intros q Hq. split; [apply Hok; rewrite <- HQ; set_solver|]. apply eq_None_not_Some. intros Hs. apply HE in Hs. apply (Hdis q Hs). set_solver.
Qed.

(** The other address spaces, when their pages were not written. *)
Lemma spaces_ext P k l ds ext k' L : MemInv P k l ds ext → untouched L (ram k) (ram k') →
  ∀ i d, ds !! i = Some d → (∀ q, q ∈ m_pages d → q ∈ L) → Space (ram k') d.
Proof. intros HI Hu i d Hd HL. eapply Space_ext; [by eapply (mi_space _ _ _ _ _ HI)|]. intros q b Hq%tab_page. apply Hu. auto. Qed.
Lemma others_page ds ext i j d q : ds !! j = Some d → i ≠ j → q ∈ m_pages d → q ∈ others ds ext i.
Proof.
  intros Hd Hij Hq. apply elem_of_app. left. apply elem_of_all_pages. exists j, d. split; [|done].
  by rewrite lookup_delete_ne.
Qed.
Lemma mi_close P k l ds ext0 ext i k' l' d' :
  MemInv P k l ds ext0 →
  VM kend k' l' (m_tabs d') (m_root d') (m_space d') (m_pas d' ++ m_tf d' :: others ds ext i) →
  proc_space trampoline (m_space d') (m_tf d') (m_sz d') (m_pas d') →
  (∀ q, q ∈ P ↔ q ∈ l' ∨ q ∈ m_pages d' ∨ q ∈ others ds ext i) →
  untouched (others ds ext i) (ram k) (ram k') →
  MemInv P k' l' (<[i := d']> ds) ext.
Proof.
  intros HI [[K1 K2 K3 K4] V2 V3 V4 V5] HS HQ Hu. destruct (mi_pool _ _ _ _ _ HI) as [HP Hok].
  split; [done|done| |].
  - assert (Hpg : all_pages (<[i := d']> ds) ≡ₚ m_pages d' ++ all_pages (delete i ds)).
    { rewrite <- insert_delete_eq. apply all_pages_insert, lookup_delete_eq. }
    rewrite Hpg. apply NoDup_Permutation; [|done|].
    + assert (Hp : l' ++ (m_pages d' ++ all_pages (delete i ds)) ++ ext ≡ₚ
        elements (dom (m_tabs d')) ++ (l' ++ m_pas d' ++ m_tf d' :: others ds ext i)).
      { unfold m_pages, others. solve_Permutation. }
      rewrite Hp. apply NoDup_app. split; [apply NoDup_elements|]. split; [|done].
      intros q Hq%elem_of_elements%elem_of_dom Hin. apply elem_of_app in Hin as [Hin|Hin]; [by apply K3 in Hin|].
      apply V5 in Hin as [_ Hn]. rewrite Hn in Hq. by destruct Hq.
    + intros q. rewrite HQ. unfold others. rewrite !elem_of_app. tauto.
  - intros j dj Hj. destruct (decide (i = j)) as [<-|Hne].
    + rewrite lookup_insert_eq in Hj. injection Hj as <-. by split.
    + rewrite lookup_insert_ne in Hj by done. eapply (spaces_ext _ _ _ _ _ _ _ HI Hu j); [done|].
      intros q Hq. by eapply others_page.
Qed.
Lemma mi_keep P k l ds ext k' l' ext' : MemInv P k l ds ext → KA kend k' l' →
  l' ++ all_pages ds ++ ext' ≡ₚ P → untouched (all_pages ds) (ram k) (ram k') → MemInv P k' l' ds ext'.
Proof.
  intros HI HK HQ Hu. split; [done|apply HI|done|]. intros i d Hd. eapply (spaces_ext _ _ _ _ _ _ _ HI Hu); [done|].
  intros q Hq. apply elem_of_all_pages. eauto.
Qed.
(** A write that spares the free list and the page tables. *)
Lemma mi_poke P k l ds ext k' : MemInv P k l ds ext → freelist k' = freelist k → untouched l (ram k) (ram k') →
  (∀ i d q b, ds !! i = Some d → is_Some (m_tabs d !! q) → in_page q b → rdb (ram k') b = rdb (ram k) b) →
  MemInv P k' l ds ext.
Proof.
  intros HI Hf Hl Hu. split; [|apply HI|apply HI|].
  - eapply KA_ext; [apply HI|done|exact Hl].
  - intros i d Hd. eapply Space_ext; [by eapply (mi_space _ _ _ _ _ HI)|]. eauto.
Qed.
Lemma mi_apart P k l ds ext q q' b : MemInv P k l ds ext → q ∈ P → q' ∈ P → q ≠ q' → in_page q b → ¬ in_page q' b.
Proof.
  intros HI Hq Hq' Hne Hb Hb'. destruct (mi_pool _ _ _ _ _ HI) as [_ HP]. rewrite Forall_forall in HP. apply Hne.
  eapply in_page_eq; [apply (HP q Hq)|apply (HP q' Hq')|done|done].
Qed.

(** ** Single pages *)
Lemma kalloc_mem P k l ds ext h w : MemInv P k l ds ext → kmem_lock ∉ h →
  wp kalloc (λ r w', ∃ k', w' = World h w k' ∧ ((r = 0 ∧ l = [] ∧ k' = k) ∨
    (r ≠ 0 ∧ ∃ l', l = r :: l' ∧ MemInv P k' l' ds (r :: ext) ∧ untouched (all_pages ds ++ ext) (ram k) (ram k'))))
    (World h w k).
Proof.
  intros HI Hh. eapply wp_mono; [apply (kalloc_spec kend k l h w); [apply HI|done]|].
  intros r w' (k' & -> & Hr). exists k'. split; [done|]. destruct l as [|pa l']; [by left; destruct Hr|].
  destruct Hr as (-> & HK & _ & Ho). right. split; [destruct (KA_ok kend _ _ pa (mi_ka _ _ _ _ _ HI)) as (_ & _ & ?); [by left|lia]|].
  exists l'. split; [done|].
  assert (Hu : untouched (all_pages ds ++ ext) (ram k) (ram k')).
  { intros q b Hq Hb. apply Ho. pose proof (mi_nodup _ _ _ _ _ HI) as Hnd. simpl in Hnd. apply NoDup_cons in Hnd as [Hpa _].
    pose proof (mi_part _ _ _ _ _ HI) as HQ. eapply (mi_apart _ _ _ _ _ q pa b HI); [|rewrite <- HQ; by left| |done].
    - rewrite <- HQ. apply elem_of_app. by right.
    - intros ->. apply Hpa, elem_of_app. by right. }
  split; [|done]. eapply mi_keep; [done|done| |by eapply untouched_sub; [|exact Hu]; set_solver].
  rewrite <- (mi_part _ _ _ _ _ HI). solve_Permutation.
Qed.
Lemma kfree_mem P k l ds ext pa h w : MemInv P k l ds (pa :: ext) → kmem_lock ∉ h →
  wp (kfree kend pa) (λ _ w', ∃ k', w' = World h w k' ∧ MemInv P k' (pa :: l) ds ext ∧
    untouched (all_pages ds ++ ext) (ram k) (ram k')) (World h w k).
Proof.
  intros HI Hh. pose proof (mi_nodup _ _ _ _ _ HI) as Hnd. pose proof (mi_part _ _ _ _ _ HI) as HQ.
  assert (Hnd' : NoDup (pa :: l ++ all_pages ds ++ ext)).
  { assert (Hp : pa :: l ++ all_pages ds ++ ext ≡ₚ l ++ all_pages ds ++ pa :: ext) by solve_Permutation. by rewrite Hp. }
  apply NoDup_cons in Hnd' as [Hpa Hnd'].
  eapply wp_mono; [apply (kfree_spec kend k l pa h w); [apply HI|by eapply (mi_ok _ _ _ _ _ _ HI), elem_of_app; right; left| |done]|].
  { intros Hl. apply Hpa, elem_of_app. by left. }
  intros _ w' (k' & -> & HK & Ho). exists k'. split; [done|].
  assert (Hu : untouched (all_pages ds ++ ext) (ram k) (ram k')).
  { intros q b Hq Hb. apply Ho. eapply (mi_apart _ _ _ _ _ q pa b HI); [rewrite <- HQ; set_solver|rewrite <- HQ; set_solver| |done].
    intros ->. apply Hpa, elem_of_app. by right. }
  split; [|done]. eapply mi_keep; [done|done| |by eapply untouched_sub; [|exact Hu]; set_solver].
  rewrite <- HQ. solve_Permutation.
Qed.

(** ** Address spaces *)
Lemma keep_untouched T l L m m' : keep T l m m' → (∀ q b, q ∈ L → in_page q b → ¬ foot T l b) → untouched L m m'.
Proof. intros Hk HL q b Hq Hb. apply Hk. by apply (HL q). Qed.
Lemma vm_untouched k l T root U fr k' : VM kend k l T root U fr → keep T l (ram k) (ram k') → untouched fr (ram k) (ram k').
Proof. intros HV Hk. eapply keep_untouched; [exact Hk|]. intros q b Hq Hb. by eapply fr_foot. Qed.
Lemma others_fresh ds ext i : ds !! i = None → others ds ext i = all_pages ds ++ ext.
Proof. intros Hi. unfold others. by rewrite delete_id. Qed.

(** A new process: its trapframe [tf] was allocated before. *)
Definition new_pmem (tf root : Z) (T : tables) : pmem := mkPmem tf root T (kernel_pages trampoline tf) [] 0.
Lemma proc_pagetable_mem P k l ds ext tf i h w : MemInv P k l ds (tf :: ext) → ds !! i = None → frame trampoline → kmem_lock ∉ h →
  wp (proc_pagetable kend trampoline tf) (λ r w', ∃ k' l', w' = World h w k' ∧
    untouched (all_pages ds ++ tf :: ext) (ram k) (ram k') ∧
    ((r = 0 ∧ MemInv P k' l' ds (tf :: ext)) ∨
     (r ≠ 0 ∧ ∃ T, MemInv P k' l' (<[i := new_pmem tf r T]> ds) ext))) (World h w k).
Proof.
  intros HI Hi Htr Hh. pose proof (mi_nodup _ _ _ _ _ HI) as Hnd. pose proof (mi_part _ _ _ _ _ HI) as HQ.
  assert (Hfr : Forall (page_ok kend) (all_pages ds ++ tf :: ext)) by (apply Forall_forall; intros q; by apply (mi_ok _ _ _ _ _ _ HI)).
  assert (Htf : frame tf) by (apply (page_ok_frame kend); rewrite Forall_forall in Hfr; apply Hfr; set_solver).
  assert (Hdis : ∀ q b, q ∈ all_pages ds ++ tf :: ext → in_page q b → ∀ x, x ∈ l → ¬ in_page x b).
  { intros q b Hq Hb x Hx. eapply (mi_apart _ _ _ _ _ q x b HI); [rewrite <- HQ; set_solver|rewrite <- HQ; set_solver| |done].
    intros ->. apply NoDup_app in Hnd as (_ & Hd & _). by apply (Hd x). }
  eapply wp_mono; [apply (proc_pagetable_spec kend trampoline k l (all_pages ds ++ tf :: ext) tf h w); [apply HI|done..]|].
  intros r w' (k' & -> & [(-> & l' & HK & Hl & Ho)|(Hr & l' & T & HV & Hp & Ho)]); exists k', l'.
  - assert (Hu : untouched (all_pages ds ++ tf :: ext) (ram k) (ram k')) by (intros q b Hq Hb; apply Ho; by apply (Hdis q)).
    split; [done|]. split; [done|]. left. split; [done|]. eapply mi_keep; [done|done| |eapply untouched_sub; [|exact Hu]; set_solver].
    assert (Hp : l' ≡ₚ l); [|by rewrite Hp]. apply NoDup_Permutation; [apply HK| |done]. by apply NoDup_app in Hnd as (? & _).
  - assert (Hu : untouched (all_pages ds ++ tf :: ext) (ram k) (ram k')) by (intros q b Hq Hb; apply Ho; by apply (Hdis q)).
    split; [done|]. split; [done|]. right. split; [done|]. exists T. eapply (mi_close P k l ds (tf :: ext) ext); [exact HI| | | |].
    + cbn [new_pmem m_tabs m_root m_space m_pas m_tf app]. eapply VM_perm; [|exact HV]. rewrite others_fresh by done. solve_Permutation.
    + apply kernel_pages_space.
    + intros q. rewrite <- HQ, others_fresh by done. unfold m_pages. cbn [new_pmem m_tf m_tabs m_pas]. rewrite !elem_of_app, !elem_of_cons, !elem_of_app, elem_of_elements, elem_of_dom.
      rewrite <- (Hp q). unfold pool. rewrite elem_of_nil. tauto.
    + rewrite others_fresh by done. eapply untouched_sub; [|exact Hu]. set_solver.
Qed.

(** Giving everything back: what freeproc does with memory. *)
Lemma free_mem P k l ds ext i d h w : MemInv P k l ds ext → ds !! i = Some d → kmem_lock ∉ h →
  wp (kfree kend (m_tf d)) (λ _ w1, ∃ k1, w1 = World h w k1 ∧
    wp (proc_freepagetable kend (m_root d) (m_sz d)) (λ _ w2, ∃ k2 l2, w2 = World h w k2 ∧
      MemInv P k2 l2 (delete i ds) ext ∧ untouched (others ds ext i) (ram k) (ram k2)) (World h w k1)) (World h w k).
Proof.
  intros HI Hd Hh. pose proof (mi_open _ _ _ _ _ _ _ HI Hd) as HV. pose proof (part_split _ _ _ _ _ _ _ HI Hd) as HQ.
  pose proof (sp_proc _ _ (mi_space _ _ _ _ _ HI i d Hd)) as HS. set (O := others ds ext i) in *.
  eapply wp_mono; [eapply (VM_kfree kend k l (m_tabs d) (m_root d) (m_space d) (m_pas d ++ O)); [|done]|].
  { eapply VM_perm; [|exact HV]. solve_Permutation. }
  intros _ w1 (k1 & -> & HV1 & Ho1). exists k1. split; [done|].
  eapply wp_mono; [eapply (proc_freepagetable_spec kend trampoline k1 _ _ _ _ O); [exact HV1|exact HS|done]|].
  intros _ w2 (k2 & l2 & -> & HK2 & Hl2 & Hk2). exists k2, l2. split; [done|].
  assert (Hu1 : untouched O (ram k) (ram k1)).
  { intros q b Hq Hb. apply Ho1. eapply (mi_apart _ _ _ _ _ q (m_tf d) b HI); [rewrite <- HQ; set_solver|rewrite <- HQ; unfold m_pages; set_solver| |done].
    intros ->. pose proof (vm_nodup _ _ _ _ _ _ _ HV) as Hnd. apply NoDup_app in Hnd as (_ & _ & Hnd).
    apply NoDup_app in Hnd as (_ & _ & Hnd). by apply NoDup_cons in Hnd as [? _]. }
  assert (Hu2 : untouched O (ram k1) (ram k2)).
  { eapply keep_untouched; [exact Hk2|]. intros q b Hq Hb (x & Hx & Hbx).
    assert (Hxl : x ∈ m_pas d ∨ is_Some (m_tabs d !! x) ∨ x ∈ m_tf d :: l) by (rewrite elem_of_app in Hx; tauto).
    assert (HxP : x ∈ P ∧ x ≠ q).
    { rewrite <- HQ. unfold m_pages. pose proof (mi_pool _ _ _ _ _ HI) as [HP _]. rewrite <- HQ in HP. unfold m_pages in HP.
      assert (Hx' : x ∈ l ++ m_tf d :: elements (dom (m_tabs d)) ++ m_pas d) by (rewrite !elem_of_app, elem_of_cons, elem_of_app, elem_of_elements, elem_of_dom; rewrite elem_of_cons in Hxl; tauto).
      split; [rewrite app_assoc; apply elem_of_app; by left|]. intros ->. rewrite app_assoc in HP. apply NoDup_app in HP as (_ & HP & _). by apply (HP q). }
    destruct HxP as [HxP Hne]. eapply (mi_apart _ _ _ _ _ q x b HI); [rewrite <- HQ; set_solver|done|done|done|done]. }
  assert (Hu : untouched O (ram k) (ram k2)) by (by eapply untouched_trans).
  split; [|done]. split; [done|apply HI| |].
  - apply NoDup_Permutation; [|apply HI|].
    + pose proof (mi_pool _ _ _ _ _ HI) as [HP _]. rewrite <- HQ in HP. unfold m_pages in HP. rewrite app_assoc in HP.
      apply NoDup_app in HP as (_ & Hdis & HO). fold O. apply NoDup_app. split; [apply HK2|]. split; [|done].
      intros q Hq. apply Hdis. apply Hl2 in Hq. unfold pool in Hq. rewrite elem_of_cons in Hq.
      rewrite !elem_of_app, elem_of_cons, elem_of_app, elem_of_elements, elem_of_dom. tauto.
    + intros q. rewrite <- HQ. unfold m_pages, O, others. rewrite !elem_of_app, elem_of_cons, elem_of_app, elem_of_elements, elem_of_dom, Hl2.
      unfold pool. rewrite elem_of_cons. tauto.
  - intros j dj Hj. apply lookup_delete_Some in Hj as [Hne Hj]. eapply (spaces_ext _ _ _ _ _ _ _ HI Hu); [done|].
    intros q Hq. by eapply others_page.
Qed.

(** The user pages of an address space are below the two kernel pages. *)
Lemma space_user_page U tf size pas v pa f : proc_space trampoline U tf size pas → 0 ≤ v < up size →
  U !! v = Some (pa, f) → pas !! Z.to_nat v = Some pa ∧ Z.lor f PTE_V ≠ PTE_V.
Proof.
  intros [_ _ [_ Hlen] Hu _] Hv HU. destruct (lookup_lt_is_Some_2 pas (Z.to_nat v)) as [x Hx]; [lia|].
  destruct (Hu _ _ Hx) as (g & Hg & Hne). replace (0 + Z.of_nat (Z.to_nat v)) with v in Hg by lia. simplify_eq. done.
Qed.
Lemma space_user_some U tf size pas v : proc_space trampoline U tf size pas → 0 ≤ v < up size →
  ∃ pa f, U !! v = Some (pa, f) ∧ Z.lor f PTE_V ≠ PTE_V.
Proof.
  intros [_ _ [_ Hlen] Hu _] Hv. destruct (lookup_lt_is_Some_2 pas (Z.to_nat v)) as [x Hx]; [lia|].
  destruct (Hu _ _ Hx) as (g & Hg & Hne). replace (0 + Z.of_nat (Z.to_nat v)) with v in Hg by lia. eauto.
Qed.
Lemma space_extend U tf size pas size' pas' f : proc_space trampoline U tf size pas →
  size ≤ size' ≤ TRAPFRAME → Z.of_nat (length pas') = up size' - up size →
  (∀ v, up size ≤ v < up size' → Z.lor (f v) PTE_V ≠ PTE_V) →
  proc_space trampoline (map_pages U (up size) pas' f) tf size' (pas ++ pas').
Proof.
  intros HS Hsz Hlen Hf. destruct (proc_space_below _ _ _ _ _ HS) as [Hup _].
  assert (Hup' : up size' ≤ vframe).
  { rewrite vframe_va in Hsz. pose proof (up_mono size' (vframe * PGSIZE) ltac:(lia)) as H. by rewrite up_page in H. }
  destruct HS as [Ht Hfr [Hs Hl] Hu Ho].
  split.
  - rewrite map_pages_out by (unfold vtramp, vframe in *; lia). done.
  - rewrite map_pages_out by lia. done.
  - split; [lia|]. rewrite length_app. lia.
  - intros i pa Hi. destruct (decide (i < length pas)%nat) as [Hlt|Hge].
    + rewrite lookup_app_l in Hi by done. rewrite map_pages_out by lia. by apply Hu.
    + rewrite lookup_app_r in Hi by lia. pose proof (lookup_lt_Some _ _ _ Hi) as Hli.
      replace (0 + Z.of_nat i) with (up size + Z.of_nat (i - length pas)) by lia.
      rewrite (map_pages_in _ _ _ _ _ pa Hi). eexists. split; [done|]. apply Hf. lia.
  - intros v [x Hx]. destruct (decide (up size ≤ v < up size')); [left; lia|].
    rewrite map_pages_out in Hx by lia. destruct (Ho v) as [?|?]; [by eexists| |by right].
    left. pose proof (up_mono size size' ltac:(lia)). lia.
Qed.

(** ** fork *)
Definition user_part (d : pmem) : space := filter (λ x, x.1 < up (m_sz d)) (m_space d).
Lemma user_part_some d v x : user_part d !! v = Some x ↔ m_space d !! v = Some x ∧ v < up (m_sz d).
Proof. unfold user_part. apply map_lookup_filter_Some. Qed.
Lemma user_parent P k l ds ext i d n : MemInv P k l ds ext → ds !! i = Some d → n ≠ i → ∀ fr, (∀ q, q ∈ others ds ext n → q ∈ fr) →
  parent (ram k) (m_root d) (m_tabs d) (user_part d) fr.
Proof.
  intros HI Hd Hne fr Hfr. destruct (mi_space _ _ _ _ _ HI i d Hd) as [S1 S2 S3 S4 HS].
  assert (Hin : ∀ q, q ∈ m_pages d → q ∈ fr) by (intros q Hq; eapply Hfr, others_page; [exact Hd|done|done]).
  split; [done|intros q Hq; by apply Hin, tab_page|]. intros v pa f Hv. apply user_part_some in Hv as [Hv Hlt].
  destruct (S3 _ _ _ Hv) as (A & B & C & D). split_and!; try done; try lia. apply Hin. unfold m_pages.
  destruct (space_user_page _ _ _ _ v pa f HS) as [Hp _]; [lia|done|]. right. apply elem_of_app. right.
  by eapply list_elem_of_lookup_2.
Qed.
(** Page by page the same bytes with the same flags. *)
Definition clones (m m' : mem) (d d' : pmem) : Prop :=
  m_sz d' = m_sz d ∧ ∀ v pa f, 0 ≤ v < up (m_sz d) → m_space d !! v = Some (pa, f) →
    ∃ pa', m_space d' !! v = Some (pa', Z.lor f PTE_V) ∧ ∀ o, 0 ≤ o < PGSIZE → rdb m' (pa' + o) = rdb m (pa + o).

Lemma pool_page (P l : list Z) T d (O : list Z) (q : Z) : (∀ q, q ∈ P ↔ q ∈ l ∨ q ∈ m_pages d ∨ q ∈ O) → m_tabs d = T →
  q ∈ P ↔ pool T l q ∨ q ∈ m_pas d ∨ q = m_tf d ∨ q ∈ O.
Proof.
  intros H <-. rewrite H. unfold m_pages, pool. rewrite elem_of_cons, elem_of_app, elem_of_elements, elem_of_dom. tauto.
Qed.
Lemma part_elem P k l ds ext i d q : MemInv P k l ds ext → ds !! i = Some d →
  q ∈ P ↔ q ∈ l ∨ q ∈ m_pages d ∨ q ∈ others ds ext i.
Proof. intros HI Hd. rewrite <- (part_split _ _ _ _ _ _ _ HI Hd), !elem_of_app. done. Qed.

Lemma uvmcopy_mem P k l ds ext p dp n tf root T h w : MemInv P k l ds ext → ds !! p = Some dp →
  ds !! n = Some (new_pmem tf root T) → n ≠ p → kmem_lock ∉ h →
  wp (uvmcopy kend (m_root dp) root (m_sz dp)) (λ r w', ∃ k' l' d', w' = World h w k' ∧
    MemInv P k' l' (<[n := d']> ds) ext ∧ m_tf d' = tf ∧ m_root d' = root ∧
    untouched (tf :: others ds ext n) (ram k) (ram k') ∧
    ((r = 0 ∧ clones (ram k) (ram k') dp d') ∨ (r = -1 ∧ m_sz d' = 0))) (World h w k).
Proof.
  intros HI Hp Hn Hne Hh. pose proof (mi_open _ _ _ _ _ _ _ HI Hn) as HV. cbn [new_pmem m_tabs m_root m_space m_pas m_tf app] in HV.
  pose proof (sp_proc _ _ (mi_space _ _ _ _ _ HI p dp Hp)) as HS. destruct (proc_space_below _ _ _ _ _ HS) as [Hup Hmax].
  pose proof (user_parent _ _ _ _ _ _ _ n HI Hp Hne (tf :: others ds ext n) ltac:(set_solver)) as HPa.
  pose proof (λ q, pool_page P l T _ _ q (λ q, part_elem _ _ _ _ _ _ _ q HI Hn) eq_refl) as HQ. cbn [new_pmem m_pas m_tf] in HQ.
  assert (HU : ∀ v, v < vframe → kernel_pages trampoline tf !! v = None).
  { intros v Hv. unfold kernel_pages. rewrite lookup_insert_ne, lookup_singleton_ne by (unfold vtramp, vframe in *; lia). done. }
  eapply wp_mono; [eapply (uvmcopy_spec kend k l T root _ _ _ _ _ (m_sz dp) h w HV HPa Hh)|].
  { destruct HS as [_ _ [? _] _ _]. lia. }
  { intros v Hv. split; [apply HU; lia|]. destruct (space_user_some _ _ _ _ v HS Hv) as (pa & f & Hpa & Hf). exists pa, f.
    split; [|done]. apply user_part_some. split; [done|lia]. }
  intros r w' (k' & l' & T' & -> & [(-> & pas & Hlen & G)|(-> & HV' & Hev)]).
  - pose proof (gn_vm _ _ _ _ _ _ _ _ _ _ _ _ _ _ G) as HV'.
    pose proof (vm_untouched _ _ _ _ _ _ _ HV (gn_keep _ _ _ _ _ _ _ _ _ _ _ _ _ _ G)) as Hu.
    exists k', l', (mkPmem tf root T' (map_pages (kernel_pages trampoline tf) 0 pas (oflags (user_part dp))) pas (m_sz dp)).
    split; [done|]. split; [|split_and!; [done|done|done|left; split; [done|]]].
    + eapply (mi_close P k l ds ext ext n); [done|exact HV'| | |eapply untouched_sub; [|exact Hu]; set_solver].
      * apply (space_extend _ tf 0 [] (m_sz dp) pas _ (kernel_pages_space trampoline tf)).
        -- destruct HS as [_ _ [? _] _ _]. lia.
        -- change (up 0) with 0. lia.
        -- intros v Hv. change (up 0) with 0 in Hv. unfold oflags. destruct (space_user_some _ _ _ _ v HS) as (pa & f & Hpa & Hf); [lia|].
           rewrite (proj2 (user_part_some dp v (pa, f))) by (split; [done|lia]). by rewrite <- Z.lor_assoc, Z.lor_diag.
      * intros q. rewrite HQ. rewrite <- (gn_pool _ _ _ _ _ _ _ _ _ _ _ _ _ _ G q). unfold pool, m_pages. cbn [m_tf m_tabs m_pas].
        rewrite elem_of_cons, elem_of_app, elem_of_elements, elem_of_dom. rewrite elem_of_nil. tauto.
    + split; [done|]. intros v pa f Hv Hpa. cbn [m_space]. destruct (space_user_page _ _ _ _ v pa f HS Hv Hpa) as [Hi Hf].
      destruct (lookup_lt_is_Some_2 pas (Z.to_nat v)) as [x Hx]; [lia|]. exists x.
      pose proof (map_pages_in (kernel_pages trampoline tf) pas (oflags (user_part dp)) 0 _ _ Hx) as Hm.
      replace (0 + Z.of_nat (Z.to_nat v)) with v in Hm by lia.
      assert (Hup1 : user_part dp !! v = Some (pa, f)) by (apply user_part_some; split; [done|lia]).
      split; [rewrite Hm; unfold oflags; by rewrite Hup1|]. intros o Ho.
      rewrite (gn_data _ _ _ _ _ _ _ _ _ _ _ _ _ _ G _ _ o Hx Ho). unfold obyte. replace (0 + Z.of_nat (Z.to_nat v)) with v by lia. by rewrite Hup1.
  - pose proof (vm_untouched _ _ _ _ _ _ _ HV (ev_keep _ _ _ _ _ _ Hev)) as Hu. exists k', l', (new_pmem tf root T').
    split; [done|]. split; [|split_and!; [done|done|done|by right]].
    eapply (mi_close P k l ds ext ext n); [done|exact HV'|apply kernel_pages_space| |eapply untouched_sub; [|exact Hu]; set_solver].
    intros q. rewrite HQ. rewrite <- (ev_pool _ _ _ _ _ _ Hev q). unfold pool, m_pages. cbn [new_pmem m_tf m_tabs m_pas].
    rewrite elem_of_cons, elem_of_app, elem_of_elements, elem_of_dom. tauto.
Qed.

(** ** sbrk *)
Lemma pool_small P : NoDup P → Forall (page_ok kend) P → Z.of_nat (length P) * PGSIZE ≤ PHYSTOP.
Proof.
  intros Hnd HP. assert (Hs : P ⊆+ (λ v, v * PGSIZE) <$> seqZ 0 (PHYSTOP / PGSIZE)).
  { apply NoDup_submseteq; [done|]. intros q Hq. rewrite Forall_forall in HP. destruct (HP q Hq) as (Hal & Hr & Hpos).
    apply list_elem_of_fmap. exists (q / PGSIZE). split; [apply Z.div_exact in Hal; [lia|done]|]. apply elem_of_seqZ.
    split; [apply Z.div_pos; [lia|done]|]. rewrite Z.add_0_l. change (PHYSTOP / PGSIZE) with 557056. unfold PHYSTOP, KERNBASE, PGSIZE in *.
    apply Z.div_lt_upper_bound; lia. }
  apply submseteq_length in Hs. rewrite length_fmap, length_seqZ in Hs. change (PHYSTOP / PGSIZE) with 557056 in Hs.
  unfold PHYSTOP, KERNBASE, PGSIZE. lia.
Qed.
Lemma size_small P k l ds ext i d : MemInv P k l ds ext → ds !! i = Some d → 0 ≤ m_sz d ≤ PHYSTOP.
Proof.
  intros HI Hd. pose proof (sp_proc _ _ (mi_space _ _ _ _ _ HI i d Hd)) as HS. destruct (proc_space_below _ _ _ _ _ HS) as [_ Hmax].
  destruct HS as [_ _ [Hsz Hlen] _ _]. destruct (mi_pool _ _ _ _ _ HI) as [HP Hok]. pose proof (pool_small P HP Hok) as Hs.
  pose proof (Permutation_length (part_split _ _ _ _ _ _ _ HI Hd)) as HL. unfold m_pages in HL. rewrite !length_app in HL. cbn [length] in HL.
  rewrite length_app in HL. destruct (up_bounds (m_sz d)) as [_ Hb]; [lia|]. unfold PGSIZE in *. lia.
Qed.
Definition grown_pmem (d : pmem) (T : tables) (pas : list Z) (size : Z) : pmem :=
  mkPmem (m_tf d) (m_root d) T (map_pages (m_space d) (up (m_sz d)) pas (λ _, uflags PTE_W)) (m_pas d ++ pas) size.
Lemma uvmalloc_mem P k l ds ext i d size h w : MemInv P k l ds ext → ds !! i = Some d → m_sz d ≤ size ≤ TRAPFRAME → kmem_lock ∉ h →
  wp (uvmalloc kend (m_root d) (m_sz d) size PTE_W) (λ r w', ∃ k' l' T', w' = World h w k' ∧
    untouched (m_pas d ++ m_tf d :: others ds ext i) (ram k) (ram k') ∧
    ((r = size ∧ ∃ pas, MemInv P k' l' (<[i := grown_pmem d T' pas size]> ds) ext ∧
        ∀ pa o, pa ∈ pas → 0 ≤ o < PGSIZE → rdb (ram k') (pa + o) = 0) ∨
     (r = 0 ∧ MemInv P k' l' (<[i := d <| m_tabs := T' |>]> ds) ext))) (World h w k).
Proof.
  intros HI Hd Hsz Hh. pose proof (mi_open _ _ _ _ _ _ _ HI Hd) as HV.
  pose proof (sp_proc _ _ (mi_space _ _ _ _ _ HI i d Hd)) as HS. destruct (proc_space_below _ _ _ _ _ HS) as [Hup Hmax].
  pose proof (λ q, pool_page P l _ _ _ q (λ q, part_elem _ _ _ _ _ _ _ q HI Hd) eq_refl) as HQ.
  assert (Hup' : up size ≤ vframe).
  { rewrite vframe_va in Hsz. pose proof (up_mono size (vframe * PGSIZE) ltac:(lia)) as H. by rewrite up_page in H. }
  eapply wp_mono; [eapply (uvmalloc_spec kend k l _ _ _ _ (m_sz d) size PTE_W h w HV Hh)|].
  { destruct HS as [_ _ [? _] _ _]. lia. }
  { assert (TRAPFRAME ≤ MAXVA) by done. lia. }
  { done. }
  { intros v Hv. apply eq_None_not_Some. intros Hx. destruct HS as [_ _ _ _ Ho]. destruct (Ho v Hx) as [?|[?|?]]; unfold vtramp, vframe in *; lia. }
  intros r w' (k' & l' & T' & -> & Hr). exists k', l', T'. split; [done|]. destruct Hr as [(-> & pas & Hlen & G)|(-> & HV' & Hev)].
  - pose proof (vm_untouched _ _ _ _ _ _ _ HV (gn_keep _ _ _ _ _ _ _ _ _ _ _ _ _ _ G)) as Hu. split; [done|]. left. split; [done|]. exists pas. split.
    + eapply (mi_close P k l ds ext ext i); [done| | | |eapply untouched_sub; [|exact Hu]; set_solver].
      * cbn [grown_pmem m_tabs m_root m_space m_pas m_tf]. eapply VM_perm; [|exact (gn_vm _ _ _ _ _ _ _ _ _ _ _ _ _ _ G)]. solve_Permutation.
      * cbn [grown_pmem m_sz m_tf m_space m_pas]. eapply space_extend; [done|done|done|]. intros. apply flags_leaf.
      * intros q. rewrite HQ. rewrite <- (gn_pool _ _ _ _ _ _ _ _ _ _ _ _ _ _ G q). unfold pool, m_pages. cbn [grown_pmem m_tf m_tabs m_pas].
        rewrite elem_of_cons, !elem_of_app, elem_of_elements, elem_of_dom. tauto.
    + intros pa o Hpa Ho. apply list_elem_of_lookup in Hpa as [j Hj]. by rewrite (gn_data _ _ _ _ _ _ _ _ _ _ _ _ _ _ G _ _ o Hj Ho).
  - pose proof (vm_untouched _ _ _ _ _ _ _ HV (ev_keep _ _ _ _ _ _ Hev)) as Hu. split; [done|]. right. split; [done|].
    eapply (mi_close P k l ds ext ext i); [done|exact HV'|exact HS| |eapply untouched_sub; [|exact Hu]; set_solver].
    intros q. rewrite HQ. rewrite <- (ev_pool _ _ _ _ _ _ Hev q). unfold pool, m_pages. cbn.
    rewrite elem_of_cons, !elem_of_app, elem_of_elements, elem_of_dom. tauto.
Qed.

Definition shrunk_pmem (d : pmem) (size : Z) : pmem :=
  let n := Z.to_nat (up size) in
  mkPmem (m_tf d) (m_root d) (m_tabs d) (unmap_range (m_space d) (up size) (length (drop n (m_pas d)))) (take n (m_pas d)) size.
Lemma space_shrink U tf size pas size' : proc_space trampoline U tf size pas → 0 ≤ size' ≤ size →
  proc_space trampoline (unmap_range U (up size') (length (drop (Z.to_nat (up size')) pas))) tf size' (take (Z.to_nat (up size')) pas).
Proof.
  intros HS Hsz. destruct (proc_space_below _ _ _ _ _ HS) as [Hup Hmax]. destruct HS as [Ht Hf [Hs Hl] Hu Ho].
  pose proof (up_mono size' size ltac:(lia)) as Hle. assert (0 ≤ up size') by (apply up_bounds; lia).
  split; rewrite ?unmap_range_lookup, ?length_drop.
  - rewrite decide_False by (unfold vtramp, vframe in *; lia). done.
  - rewrite decide_False by lia. done.
  - split; [lia|]. rewrite length_take. lia.
  - intros i pa Hi. apply lookup_take_Some in Hi as [Hi Hlt]. rewrite unmap_range_lookup, decide_False by lia. by apply Hu.
  - intros v [x Hx]. rewrite unmap_range_lookup in Hx. case_decide; [done|]. destruct (Ho v) as [?|?]; [by eexists| |by right]. left. lia.
Qed.
Lemma uvmdealloc_mem P k l ds ext i d size h w : MemInv P k l ds ext → ds !! i = Some d → 0 ≤ size ≤ m_sz d → kmem_lock ∉ h →
  wp (uvmdealloc kend (m_root d) (m_sz d) size) (λ r w', r = size ∧ ∃ k' l', w' = World h w k' ∧
    MemInv P k' l' (<[i := shrunk_pmem d size]> ds) ext ∧
    untouched (take (Z.to_nat (up size)) (m_pas d) ++ m_tf d :: others ds ext i) (ram k) (ram k')) (World h w k).
Proof.
  intros HI Hd Hsz Hh. pose proof (mi_open _ _ _ _ _ _ _ HI Hd) as HV.
  pose proof (sp_proc _ _ (mi_space _ _ _ _ _ HI i d Hd)) as HS. destruct (proc_space_below _ _ _ _ _ HS) as [Hup Hmax].
  pose proof (λ q, pool_page P l _ _ _ q (λ q, part_elem _ _ _ _ _ _ _ q HI Hd) eq_refl) as HQ.
  pose proof HS as [_ _ [Hs Hl] Hu _]. set (n := Z.to_nat (up size)).
  pose proof (up_mono size (m_sz d) ltac:(lia)) as Hle. assert (0 ≤ up size) by (apply up_bounds; lia).
  assert (Hpas : m_pas d = take n (m_pas d) ++ drop n (m_pas d)) by (by rewrite take_drop).
  eapply wp_mono; [eapply (uvmdealloc_spec kend k l (m_tabs d) _ (m_space d) (take n (m_pas d) ++ m_tf d :: others ds ext i) _ _ (drop n (m_pas d)) h w); [|done|lia|lia| |]|].
  - eapply VM_perm; [|exact HV]. rewrite Hpas at 1. solve_Permutation.
  - rewrite length_drop. unfold n. lia.
  - intros j pa Hj. rewrite lookup_drop in Hj. destruct (Hu _ _ Hj) as (f & Hf & Hne). exists f. split; [|done]. rewrite <- Hf. f_equal. unfold n. lia.
  - intros r w' (-> & k' & -> & HV' & Hk). split; [lia|]. exists k', (reverse (drop n (m_pas d)) ++ l). split; [done|].
    assert (Hu' : untouched (take n (m_pas d) ++ m_tf d :: others ds ext i) (ram k) (ram k')).
    { intros q b Hq Hb. apply Hk. intros (x & Hx & Hbx). eapply fr_foot; [exact HV'|exact Hq|exact Hb|]. exists x. split; [|done].
      destruct Hx as [?|Hx]; [by left|right]. rewrite elem_of_app in *. rewrite elem_of_reverse. done. }
    split; [|done]. eapply (mi_close P k l ds ext ext i); [done|exact HV'|by apply (space_shrink _ _ (m_sz d))| |eapply untouched_sub; [|exact Hu']; set_solver].
    intros q. rewrite HQ. rewrite Hpas at 1. unfold pool, m_pages. cbn [shrunk_pmem m_tf m_tabs m_pas]. fold n.
    rewrite elem_of_cons, !elem_of_app, elem_of_reverse, elem_of_elements, elem_of_dom. tauto.
Qed.

(** ** Writing to user memory *)
Lemma user_phys U tf size pas x : proc_space trampoline U tf size pas → upage U x ≠ 0 →
  0 ≤ vpn x < up size ∧ pas !! Z.to_nat (vpn x) = Some (upage U x).
Proof.
  intros HS Hx. unfold upage in *. destruct (U !! vpn x) as [[pa f]|] eqn:E; [|done].
  destruct (has (Z.lor f PTE_V) PTE_U) eqn:Hu; [|done]. pose proof HS as [Ht Hf _ _ Ho].
  destruct (Ho (vpn x)) as [Hv|[Hv|Hv]]; [by eexists| | |].
  - split; [done|]. by destruct (space_user_page _ _ _ _ (vpn x) pa f HS Hv E).
  - rewrite Hv, Ht in E. injection E as <- <-. done.
  - rewrite Hv, Hf in E. injection E as <- <-. done.
Qed.
Lemma phys_page U x : in_page (upage U x) (phys U x).
Proof. unfold phys, in_page. pose proof (off_range x). lia. Qed.
Lemma user_page_pool P k l ds ext i d x : MemInv P k l ds ext → ds !! i = Some d → upage (m_space d) x ≠ 0 →
  upage (m_space d) x ∈ m_pas d ∧ upage (m_space d) x ∈ P.
Proof.
  intros HI Hd Hx. pose proof (sp_proc _ _ (mi_space _ _ _ _ _ HI i d Hd)) as HS.
  destruct (user_phys _ _ _ _ x HS Hx) as [_ Hp]. apply list_elem_of_lookup_2 in Hp. split; [done|].
  apply (part_elem _ _ _ _ _ _ _ _ HI Hd). right. left. unfold m_pages. set_solver.
Qed.
Lemma user_range P k l ds ext i d src va len : MemInv P k l ds ext → ds !! i = Some d → 0 ≤ va →
  (∀ j q, 0 ≤ j < len → q ∈ P → ¬ in_page q (src + j)) → out_range (m_tabs d) l (m_space d) src va len.
Proof.
  intros HI Hd Hva Hsrc. pose proof (sp_proc _ _ (mi_space _ _ _ _ _ HI i d Hd)) as HS. destruct (mi_pool _ _ _ _ _ HI) as [HPn HP].
  rewrite Forall_forall in HP. pose proof (mi_open _ _ _ _ _ _ _ HI Hd) as HV. split.
  - intros a b Ha Hb Hxa Hxb E. destruct (user_phys _ _ _ _ _ HS Hxa) as [Hva1 Hpa], (user_phys _ _ _ _ _ HS Hxb) as [Hvb1 Hpb].
    destruct (user_page_pool _ _ _ _ _ _ _ _ HI Hd Hxa) as [_ Ha1], (user_page_pool _ _ _ _ _ _ _ _ HI Hd Hxb) as [_ Hb1].
    assert (Heq : upage (m_space d) (va + a) = upage (m_space d) (va + b)).
    { eapply in_page_eq; [apply (HP _ Ha1)|apply (HP _ Hb1)|apply phys_page|rewrite E; apply phys_page]. }
    rewrite Heq in Hpa. assert (Hnd : NoDup (m_pas d)).
    { pose proof (vm_nodup _ _ _ _ _ _ _ HV) as Hnd. apply NoDup_app in Hnd as (_ & _ & Hnd). by apply NoDup_app in Hnd as (? & _). }
    pose proof (NoDup_lookup _ _ _ _ Hnd Hpa Hpb) as Hi. unfold phys in E. rewrite Heq in E. unfold vpn in *.
    pose proof (Z.div_mod (va + a) PGSIZE ltac:(done)). pose proof (Z.div_mod (va + b) PGSIZE ltac:(done)).
    assert ((va + a) / PGSIZE = (va + b) / PGSIZE) by lia. lia.
  - intros a j Ha Hj Hxa E. destruct (user_page_pool _ _ _ _ _ _ _ _ HI Hd Hxa) as [_ Ha1]. apply (Hsrc j _ Hj Ha1). rewrite <- E. apply phys_page.
  - intros a Ha Hxa Hft. destruct (user_page_pool _ _ _ _ _ _ _ _ HI Hd Hxa) as [Ha1 _]. eapply fr_foot; [exact HV| |apply phys_page|exact Hft]. set_solver.
Qed.
Lemma copyout_high root va src len h w k : MAXVA ≤ va < 2 ^ 64 → 0 < len →
  wp (copyout root va src len) (λ r w', r = -1 ∧ w' = World h w k) (World h w k).
Proof.
  intros Hva Hlen. unfold copyout.
  eapply (wp_loop _ (λ n a w', n = 0 ∧ a = (va, src, len) ∧ w' = World h w k)) with (n := 0); [lia| |done|done].
  intros n a w' (-> & -> & ->). rewrite (proj2 (Z.ltb_lt _ _)) by done. cbn [negb].
  assert (HM : MAXVA = 2 ^ 26 * PGSIZE) by done. rewrite PGROUNDDOWN_eq by (unfold PGSIZE in *; lia).
  assert (MAXVA ≤ va - va mod PGSIZE).
  { pose proof (Z.div_mod va PGSIZE ltac:(done)). assert (2 ^ 26 ≤ va / PGSIZE) by (apply Z.div_le_lower_bound; [done|lia]). unfold PGSIZE in *. lia. }
  apply wp_bind. unfold walkaddr. rewrite Z.geb_leb, (proj2 (Z.leb_le _ _)) by done. apply wp_ret. cbn [Z.eqb]. by apply wp_ret.
Qed.
(** The user memory keeps its bytes outside [len] of them from [va] on. *)
Definition elsewhere (m m' : mem) (d : pmem) (va len : Z) : Prop :=
  ∀ q b, q ∈ m_pas d → in_page q b → (∀ j, 0 ≤ j < len → b ≠ phys (m_space d) (va + j)) → rdb m' b = rdb m b.
Lemma high_unmapped U tf size pas va : proc_space trampoline U tf size pas → MAXVA ≤ va → upage U va = 0.
Proof.
  intros HS Hva. destruct (Z.eq_dec (upage U va) 0) as [|Hne]; [done|]. destruct (user_phys _ _ _ _ _ HS Hne) as [Hv _].
  destruct (proc_space_below _ _ _ _ _ HS) as [Hb _]. assert (Hf : vframe < 2 ^ 26) by done. assert (HM : MAXVA = 2 ^ 26 * PGSIZE) by done.
  assert (2 ^ 26 ≤ vpn va); [|lia]. unfold vpn. apply Z.div_le_lower_bound; [done|]. lia.
Qed.
Lemma copyout_mem P k l ds ext i d va src len h w : MemInv P k l ds ext → ds !! i = Some d → 0 ≤ va < 2 ^ 64 → 0 < len < 2 ^ 63 →
  (∀ j q, 0 ≤ j < len → q ∈ P → ¬ in_page q (src + j)) →
  wp (copyout (m_root d) va src len) (λ r w', ∃ k', w' = World h w k' ∧ MemInv P k' l ds ext ∧
    untouched (m_tf d :: others ds ext i) (ram k) (ram k') ∧
    ((r = 0 ∧ ∀ j, 0 ≤ j < len → upage (m_space d) (va + j) ≠ 0 ∧ rdb (ram k') (phys (m_space d) (va + j)) = rdb (ram k) (src + j)) ∨
     (r = -1 ∧ ∃ j, 0 ≤ j < len ∧ upage (m_space d) (va + j) = 0)) ∧ elsewhere (ram k) (ram k') d va len)
    (World h w k).
Proof.
  intros HI Hd Hva Hlen Hsrc. assert (HM : MAXVA = 2 ^ 38) by done. destruct (Z.le_gt_cases MAXVA va) as [Hh|Hl].
  { eapply wp_mono; [apply copyout_high; lia|]. intros r w' [-> ->]. exists k. split_and!; [done|done|done| |by intros q b].
    right. split; [done|]. exists 0. split; [lia|]. rewrite Z.add_0_r. eapply high_unmapped; [by eapply sp_proc, (mi_space _ _ _ _ _ HI i)|done]. }
  pose proof (mi_open _ _ _ _ _ _ _ HI Hd) as HV. pose proof (part_split _ _ _ _ _ _ _ HI Hd) as HQ.
  eapply wp_mono; [eapply (copyout_spec kend k l _ _ _ _ va src len h w HV); [lia|lia|lia|eapply user_range; [done|done|lia|done]]|].
  intros r w' (m' & n & -> & HV' & [Hc1 Hc2] & Hm & Hr). eexists. split; [done|].
  assert (Hn : n ≤ len) by (destruct Hr as [[_ ->]|(_ & ? & _)]; lia).
  assert (Hout : ∀ q b, q ∈ P → q ∉ m_pas d → in_page q b → rdb m' b = rdb (ram k) b).
  { intros q b Hq Hnq Hb. apply Hc2. intros j Hj ->. destruct (user_page_pool _ _ _ _ _ _ _ _ HI Hd (Hm j Hj)) as [Hp1 Hp2].
    eapply (mi_apart _ _ _ _ _ q _ _ HI Hq Hp2); [|exact Hb|apply phys_page]. by intros ->. }
  pose proof (mi_pool _ _ _ _ _ HI) as [HPn _]. rewrite <- HQ in HPn. unfold m_pages in HPn.
  assert (HPn' : NoDup (m_pas d ++ l ++ m_tf d :: elements (dom (m_tabs d)) ++ others ds ext i)).
  { assert (Hp : m_pas d ++ l ++ m_tf d :: elements (dom (m_tabs d)) ++ others ds ext i ≡ₚ
      l ++ (m_tf d :: elements (dom (m_tabs d)) ++ m_pas d) ++ others ds ext i) by solve_Permutation. by rewrite Hp. }
  apply NoDup_app in HPn' as (_ & Hdis & _).
  assert (Hout' : untouched (l ++ m_tf d :: elements (dom (m_tabs d)) ++ others ds ext i) (ram k) m').
  { intros q b Hq Hb. apply (Hout q); [rewrite <- HQ; unfold m_pages; set_solver| |done]. intros Hin. by apply (Hdis q). }
  split_and!.
  - eapply mi_poke; [exact HI|done|eapply untouched_sub; [|exact Hout']; set_solver|]. intros j dj q b Hj Hq Hb. apply (Hout' q); [|done].
    destruct (decide (i = j)) as [<-|Hne]; [simplify_eq; apply elem_of_dom, elem_of_elements in Hq; set_solver|].
    pose proof (others_page ds ext i j dj q Hj Hne (tab_page _ _ Hq)). set_solver.
  - eapply untouched_sub; [|exact Hout']. set_solver.
  - destruct Hr as [[-> ->]|(-> & Hn1 & Hn2)]; [left|right; split; [done|by exists n]]. split; [done|]. intros j Hj. split; [by apply Hm|by apply Hc1].
  - intros q b _ _ Hb. apply Hc2. intros j Hj. apply Hb. lia.
Qed.

(** Writing to a trapframe. *)
Lemma poke_frame P k l ds ext i d m : MemInv P k l ds ext → ds !! i = Some d →
  (∀ b, ¬ in_page (m_tf d) b → rdb m b = rdb (ram k) b) →
  MemInv P (k <| ram := m |>) l ds ext ∧ untouched (m_pas d ++ others ds ext i) (ram k) m.
Proof.
  intros HI Hd Hm. pose proof (part_split _ _ _ _ _ _ _ HI Hd) as HQ. pose proof (mi_pool _ _ _ _ _ HI) as [HPn _]. rewrite <- HQ in HPn.
  unfold m_pages in *. assert (HPn' : NoDup (m_tf d :: l ++ elements (dom (m_tabs d)) ++ m_pas d ++ others ds ext i)).
  { assert (Hp : m_tf d :: l ++ elements (dom (m_tabs d)) ++ m_pas d ++ others ds ext i ≡ₚ
      l ++ (m_tf d :: elements (dom (m_tabs d)) ++ m_pas d) ++ others ds ext i) by solve_Permutation. by rewrite Hp. }
  apply NoDup_cons in HPn' as [Hn _].
  assert (Hu : untouched (l ++ elements (dom (m_tabs d)) ++ m_pas d ++ others ds ext i) (ram k) m).
  { intros q b Hq Hb. apply Hm. eapply (mi_apart _ _ _ _ _ q (m_tf d) b HI); [rewrite <- HQ; set_solver|rewrite <- HQ; set_solver| |done].
    by intros ->. }
  split; [|eapply untouched_sub; [|exact Hu]; set_solver].
  eapply mi_poke; [exact HI|done|eapply untouched_sub; [|exact Hu]; set_solver|]. intros j dj q b Hj Hq Hb. apply (Hu q); [|done].
  destruct (decide (i = j)) as [<-|Hne]; [simplify_eq; apply elem_of_dom, elem_of_elements in Hq; set_solver|].
  pose proof (others_page ds ext i j dj q Hj Hne (tab_page _ _ Hq)). set_solver.
Qed.
Lemma clones_ext m0 m1 m2 m3 d d' : clones m1 m2 d d' → proc_space trampoline (m_space d) (m_tf d) (m_sz d) (m_pas d) →
  proc_space trampoline (m_space d') (m_tf d') (m_sz d') (m_pas d') →
  untouched (m_pas d) m0 m1 → untouched (m_pas d') m2 m3 → clones m0 m3 d d'.
Proof.
  intros [Hs Hc] HS HS' H0 H3. split; [done|]. intros v pa f Hv Hpa. destruct (Hc v pa f Hv Hpa) as (pa' & Hpa' & Hb). exists pa'. split; [done|].
  destruct (space_user_page _ _ _ _ v pa f HS Hv Hpa) as [Hi _]. destruct (space_user_page _ _ _ _ v pa' _ HS' ltac:(by rewrite Hs) Hpa') as [Hi' _].
  intros o Ho. rewrite (H3 pa' (pa' + o)), Hb, (H0 pa (pa + o)); [done| | |done| |]; try (by eapply list_elem_of_lookup_2); unfold in_page; lia.
Qed.
End mem.
