(* ===== verification/Bio.v ===== *)
(** * Buffer cache: kernel/bio.c

    The buffers of [bcache.buf] are numbered; number [NBUF] is [bcache.head].
    [prev] and [next] are the links of the LRU ring. A buffer's sleep lock is
    its holder's pid. The disk is the map of its blocks, with the list of the
    writes it has been sent, oldest first. *)
From S2P Require Import Prelude Param CString Mem.

Definition BSIZE : Z := 1024.
(** The contents of a block, by offset. *)
Abbreviation block := mem.

Record buf := mkBuf {
  valid : bool; dev : Z; blockno : Z; owner : option Z; refcnt : Z;
  prev : nat; next : nat; data : block;
}.
#[export] Instance eta_buf : Settable buf :=
  λ b, mkBuf (valid b) (dev b) (blockno b) (owner b) (refcnt b) (prev b) (next b) (data b).
Definition buf0 : buf := mkBuf false 0 0 None 0 0 0 ∅.

Abbreviation disk := (gmap Z block).
Definition blk (d : disk) (n : Z) : block := default ∅ (d !! n).
Record bsys := mkBsys { bufs : list buf; dsk : disk; writes : list (Z * block); me : Z }.
#[export] Instance eta_bsys : Settable bsys := λ s, mkBsys (bufs s) (dsk s) (writes s) (me s).

Definition head : nat := NBUF.
Definition bcache_lock : lock := ("bcache", 0%nat).
Definition getb (i : nat) : M bsys buf := b ← gets (λ s, bufs s !! i); nonnull b.
Definition setb (i : nat) (f : buf → buf) : M bsys unit :=
  getb i;; modify (λ s, s <| bufs ::= alter f i |>).

Fixpoint binit_loop (n : nat) (b : nat) : M bsys unit :=
  match n with
  | O => ret ()
  | S n =>
      hd ← getb head;
      setb b (λ x, x <| next := next hd |>);;
      setb b (λ x, x <| prev := head |>);;
      setb b (λ x, x <| owner := None |>);;
      setb (next hd) (λ x, x <| prev := b |>);;
      setb head (λ x, x <| next := b |>);;
      binit_loop n (S b)
  end.
Definition binit : M bsys unit :=
  setb head (λ x, x <| prev := head |>);;
  setb head (λ x, x <| next := head |>);;
  binit_loop NBUF 0.

(** [acquiresleep] and friends on [b->lock]; a taken lock puts the caller to sleep. *)
Definition buf_acquiresleep (i : nat) : M bsys unit :=
  b ← getb i;
  match owner b with
  | Some _ => blocked ("buf", i)
  | None => pid ← gets me; setb i (λ x, x <| owner := Some pid |>)
  end.
Definition buf_releasesleep (i : nat) : M bsys unit :=
  setb i (λ x, x <| owner := None |>);; notify ("buf", i).
Definition buf_holdingsleep (i : nat) : M bsys bool :=
  b ← getb i; pid ← gets me; ret (bool_decide (owner b = Some pid)).

(** The two scans of [bget], along [next] and along [prev]. *)
Fixpoint scan_cached (n : nat) (i : nat) (d bno : Z) : M bsys (option nat) :=
  match n with
  | O => timeout
  | S n =>
      if decide (i = head) then ret None
      else
        b ← getb i;
        if (dev b =? d) && (blockno b =? bno) then ret (Some i)
        else scan_cached n (next b) d bno
  end.
Fixpoint scan_free (n : nat) (i : nat) : M bsys (option nat) :=
  match n with
  | O => timeout
  | S n =>
      if decide (i = head) then ret None
      else
        b ← getb i;
        if refcnt b =? 0 then ret (Some i) else scan_free n (prev b)
  end.
Definition bget (d bno : Z) : M bsys nat :=
  acquire bcache_lock;;
  hd ← getb head;
  r ← scan_cached (S NBUF) (next hd) d bno;
  match r with
  | Some i =>
      setb i (λ x, x <| refcnt ::= λ n, n + 1 |>);;
      release bcache_lock;;
      buf_acquiresleep i;;
      ret i
  | None =>
      hd ← getb head;
      r ← scan_free (S NBUF) (prev hd);
      match r with
      | Some i =>
          setb i (λ x, x <| dev := d |>);;
          setb i (λ x, x <| blockno := bno |>);;
          setb i (λ x, x <| valid := false |>);;
          setb i (λ x, x <| refcnt := 1 |>);;
          release bcache_lock;;
          buf_acquiresleep i;;
          ret i
      | None => panic "bget: no buffers"
      end
  end.

(** [virtio_disk_rw]: the transfer, once the device has completed it. *)
Definition virtio_disk_rw (i : nat) (write : bool) : M bsys unit :=
  b ← getb i;
  if write then
    modify (λ s, s <| dsk ::= <[blockno b := data b]> |> <| writes ::= λ w, w ++ [(blockno b, data b)] |>)
  else
    d ← gets dsk;
    setb i (λ x, x <| data := blk d (blockno b) |>).

Definition bread (d bno : Z) : M bsys nat :=
  i ← bget d bno;
  b ← getb i;
  when (negb (valid b))
    (virtio_disk_rw i false;; setb i (λ x, x <| valid := true |>));;
  ret i.

Definition bwrite (i : nat) : M bsys unit :=
  h ← buf_holdingsleep i;
  when (negb h) (panic "bwrite");;
  virtio_disk_rw i true.

Definition brelse (i : nat) : M bsys unit :=
  h ← buf_holdingsleep i;
  when (negb h) (panic "brelse");;
  buf_releasesleep i;;
  acquire bcache_lock;;
  setb i (λ x, x <| refcnt ::= λ n, n - 1 |>);;
  b ← getb i;
  when (refcnt b =? 0)
    (setb (next b) (λ x, x <| prev := prev b |>);;
     setb (prev b) (λ x, x <| next := next b |>);;
     hd ← getb head;
     setb i (λ x, x <| next := next hd |>);;
     setb i (λ x, x <| prev := head |>);;
     setb (next hd) (λ x, x <| prev := i |>);;
     setb head (λ x, x <| next := i |>));;
  release bcache_lock.

Definition bpin (i : nat) : M bsys unit :=
  acquire bcache_lock;; setb i (λ x, x <| refcnt ::= λ n, n + 1 |>);; release bcache_lock.
Definition bunpin (i : nat) : M bsys unit :=
  acquire bcache_lock;; setb i (λ x, x <| refcnt ::= λ n, n - 1 |>);; release bcache_lock.
