(* ===== verification/BioSpec.v ===== *)
(** * The buffer cache as a map: invariant and specification of kernel/bio.c *)
From S2P Require Import Prelude Param CString Mem Bio.

(** ** The LRU ring *)
Section ring.
Implicit Types nx pv : nat → nat.
(** From [a] through [l] to [z], along [nx] and back along [pv]. *)
Fixpoint linked nx pv (a : nat) (l : list nat) (z : nat) : Prop :=
  match l with
  | [] => nx a = z ∧ pv z = a
  | x :: l => nx a = x ∧ pv x = a ∧ linked nx pv x l z
  end.
Definition upd (f : nat → nat) (i v : nat) : nat → nat := λ j, if decide (j = i) then v else f j.
Lemma upd_eq f i v : upd f i v i = v.
Proof. unfold upd. by rewrite decide_True. Qed.
Lemma upd_ne f i v j : j ≠ i → upd f i v j = f j.
Proof. intros. unfold upd. by rewrite decide_False. Qed.
Lemma linked_ext nx pv nx' pv' a l z : (∀ i, i ∈ a :: l → nx' i = nx i) → (∀ i, i ∈ l ++ [z] → pv' i = pv i) →
  linked nx pv a l z → linked nx' pv' a l z.
Proof.
  revert a. induction l as [|x l IH]; intros a Hn Hp; cbn [linked].
  - rewrite Hn, Hp by (by left). done.
  - intros (H1 & H2 & H3). rewrite Hn, Hp by (by left). split_and!; [done|done|].
    apply IH; [|by intros i Hi; apply Hp; right|done]. intros i Hi. apply Hn. by right.
Qed.
Lemma linked_app nx pv a l1 x l2 z : linked nx pv a (l1 ++ x :: l2) z ↔ linked nx pv a l1 x ∧ linked nx pv x l2 z.
Proof. revert a. induction l1 as [|y l1 IH]; intros a; cbn [linked app]; [tauto|]. rewrite IH. tauto. Qed.
Definition lastd (a : nat) (l : list nat) : nat := default a (last l).
Definition headd (l : list nat) (z : nat) : nat := default z (List.hd_error l).
Lemma lastd_cons a x l : lastd a (x :: l) = lastd x l.
Proof. unfold lastd. rewrite last_cons. by destruct (last l). Qed.
Lemma linked_last nx pv a l z : linked nx pv a l z → pv z = lastd a l ∧ nx a = headd l z.
Proof.
  revert a. induction l as [|x l IH]; intros a; cbn [linked]; [naive_solver|]. intros (H1 & H2 & H3).
  split; [|done]. destruct (IH x H3) as [-> _]. by rewrite lastd_cons.
Qed.
Lemma lastd_elem a l : lastd a l ∈ a :: l.
Proof.
  revert a. induction l as [|x l IH]; intros a; [by left|]. rewrite lastd_cons. right. apply IH.
Qed.
Lemma headd_elem l z : headd l z ∈ l ++ [z].
Proof. destruct l; by left. Qed.

Lemma headd_le (l1 l2 : list nat) (i : nat) z b : (∀ x, x ∈ l1 ++ i :: l2 → (x ≤ b)%nat) → (z ≤ b)%nat →
  (headd (l1 ++ l2) z ≤ b)%nat.
Proof.
  intros H Hz. pose proof (headd_elem (l1 ++ l2) z) as He. rewrite !elem_of_app, list_elem_of_singleton in He.
  destruct He as [[He|He]| ->]; [apply H, elem_of_app; by left|apply H, elem_of_app; right; by right|done].
Qed.
(** Taking [x] out of the list. *)
Lemma linked_unlink nx pv a l1 x l2 z : NoDup (a :: l1 ++ x :: l2) → z ∉ l1 ++ x :: l2 →
  linked nx pv a (l1 ++ x :: l2) z →
  linked (upd nx (lastd a l1) (headd l2 z)) (upd pv (headd l2 z) (lastd a l1)) a (l1 ++ l2) z.
Proof.
  revert a. induction l1 as [|c l1 IH]; intros a Hnd Hz; cbn [app linked].
  - intros (_ & _ & H). change (lastd a []) with a. cbn [app] in *. destruct l2 as [|y l2]; cbn [linked headd] in *.
    + by rewrite !upd_eq.
    + destruct H as (_ & _ & H). change (headd (y :: l2) z) with y. rewrite !upd_eq. split_and!; [done|done|].
      eapply linked_ext; [| |exact H].
      * intros i Hi. apply upd_ne. intros ->. apply NoDup_cons in Hnd as [Hnd _]. apply Hnd. by right.
      * intros i Hi. apply upd_ne. intros ->. apply NoDup_cons in Hnd as [_ Hnd]. apply NoDup_cons in Hnd as [_ Hnd].
        apply NoDup_cons in Hnd as [Hnd _]. apply elem_of_app in Hi as [Hi|Hi]; [done|]. apply list_elem_of_singleton in Hi as ->.
        apply Hz. right. by left.
  - intros (H1 & H2 & H3). rewrite lastd_cons. cbn [app] in *.
    assert (Hc : lastd c l1 ≠ a).
    { intros E. pose proof (lastd_elem c l1) as He. rewrite E in He. apply NoDup_cons in Hnd as [Hnd _]. apply Hnd.
      apply elem_of_cons in He as [->|He]; [by left|]. right. apply elem_of_app. by left. }
    assert (Hh : headd l2 z ≠ c).
    { intros E. pose proof (headd_elem l2 z) as He. rewrite E in He. apply elem_of_app in He as [He|He].
      - apply NoDup_cons in Hnd as [_ Hnd]. apply NoDup_cons in Hnd as [Hnd _]. apply Hnd. apply elem_of_app. right. by right.
      - apply list_elem_of_singleton in He as ->. apply Hz. by left. }
    rewrite !upd_ne by done. split_and!; [done|done|]. apply IH; [by apply NoDup_cons in Hnd as [_ ?]| |done].
    intros He. apply Hz. by right.
Qed.
(** Putting [x] at the front. *)
Lemma linked_push nx pv a x l z : x ∉ a :: l → x ≠ z → a ∉ l → NoDup l → z ∉ l → linked nx pv a l z →
  linked (upd (upd nx x (headd l z)) a x) (upd (upd pv x a) (headd l z) x) a (x :: l) z.
Proof.
  intros Hx Hxz Ha Hnd Hz H. assert (Hax : x ≠ a) by (intros ->; apply Hx; by left).
  assert (Hh : headd l z ≠ x).
  { pose proof (headd_elem l z) as He. intros E. rewrite E in He. apply elem_of_app in He as [He|He];
      [apply Hx; by right|]. by apply list_elem_of_singleton in He. }
  cbn [linked]. rewrite upd_eq, (upd_ne _ (headd l z)) by done. rewrite upd_eq. split_and!; [done|done|].
  destruct l as [|y l]; cbn [linked headd List.hd_error default] in *.
  - change (headd [] z) with z. rewrite upd_eq, upd_ne, upd_eq by done. done.
  - change (headd (y :: l) z) with y in *. rewrite upd_eq, upd_ne, upd_eq by done. destruct H as (_ & _ & H).
    split_and!; [done|done|]. eapply linked_ext; [| |exact H].
    + intros i Hi. assert (i ≠ a) by (intros ->; done). assert (i ≠ x) by (intros ->; apply Hx; by right). by rewrite !upd_ne.
    + intros i Hi. apply NoDup_cons in Hnd as [Hy Hnd].
      assert (i ≠ y). { intros ->. apply elem_of_app in Hi as [?|Hi]; [done|]. apply list_elem_of_singleton in Hi as ->. apply Hz. by left. }
      assert (i ≠ x). { intros ->. apply elem_of_app in Hi as [?|Hi]; [apply Hx; right; by right|]. by apply list_elem_of_singleton in Hi. }
      by rewrite !upd_ne.
Qed.
End ring.

(** ** Buffers and links apart

    [rep s cs nx pv d ws m]: the buffers without their links are [cs] (the last
    one being the list head), the links are the functions [nx] and [pv]. *)
Definition core (b : buf) : buf := b <| prev := O |> <| next := O |>.
Record rep (s : bsys) (cs : list buf) (nx pv : nat → nat) (d : disk) (ws : list (Z * block)) (m : Z) : Prop := {
  rp_core : core <$> bufs s = cs;
  rp_next i b : bufs s !! i = Some b → next b = nx i;
  rp_prev i b : bufs s !! i = Some b → prev b = pv i;
  rp_dsk : dsk s = d;
  rp_writes : writes s = ws;
  rp_me : me s = m;
}.
Lemma alter_insert {A} (f : A → A) i (l : list A) x : l !! i = Some x → alter f i l = <[i := f x]> l.
Proof.
  revert i. induction l as [|y l IH]; intros [|i] Hi; simplify_eq/=; [done|].
  unfold alter, insert in *. cbn [list_alter list_insert]. f_equal. by apply IH.
Qed.
Section rep.
Context {s : bsys} {cs : list buf} {nx pv : nat → nat} {d : disk} {ws : list (Z * block)} {m : Z}.
Context (H : rep s cs nx pv d ws m) {h : list lock} {k : list chan}.

Lemma bufs_lookup i c : cs !! i = Some c → ∃ b, bufs s !! i = Some b ∧ core b = c ∧ next b = nx i ∧ prev b = pv i.
Proof.
  rewrite <- (rp_core _ _ _ _ _ _ _ H), list_lookup_fmap. intros (b & Hb & ->)%fmap_Some.
  exists b. split_and!; [done|done|by apply (rp_next _ _ _ _ _ _ _ H)|by apply (rp_prev _ _ _ _ _ _ _ H)].
Qed.
Lemma wp_getb {A} (K : buf → M bsys A) Φ i c : cs !! i = Some c →
  (∀ b, core b = c → next b = nx i → prev b = pv i → wp (K b) Φ (World h k s)) → wp (bind (getb i) K) Φ (World h k s).
Proof.
  intros Hc HK. destruct (bufs_lookup i c Hc) as (b & Hb & Hcb & Hn & Hp).
  apply wp_bind, wp_bind, wp_gets. cbn [st]. rewrite Hb. apply wp_ret. by apply HK.
Qed.
(** Any update of one buffer. *)
Lemma wp_setb {A} (K : M bsys A) Φ i c f nx' pv' c' : cs !! i = Some c →
  (∀ b, core b = c → next b = nx i → prev b = pv i → core (f b) = c' ∧ next (f b) = nx' i ∧ prev (f b) = pv' i) →
  (∀ j, j ≠ i → nx' j = nx j ∧ pv' j = pv j) →
  (∀ s', rep s' (<[i := c']> cs) nx' pv' d ws m → wp K Φ (World h k s')) → wp (setb i f;; K) Φ (World h k s).
Proof.
  intros Hc Hf Hne HK. destruct (bufs_lookup i c Hc) as (b & Hb & Hcb & Hn & Hp).
  destruct (Hf b Hcb Hn Hp) as (F1 & F2 & F3).
  apply wp_bind. unfold setb. apply wp_bind, wp_bind, wp_gets. cbn [st]. rewrite Hb. apply wp_ret, wp_modify. unfold set_field; cbv beta.
  rewrite (alter_insert f i (bufs s) b Hb). apply HK. constructor; cbn [bufs dsk writes me set_field];
    [|intros j bj [(-> & <- & _)|[Hj Hbj]]%list_lookup_insert_Some..|apply H|apply H|apply H].
  - rewrite list_fmap_insert, F1. by rewrite (rp_core _ _ _ _ _ _ _ H).
  - done.
  - rewrite (rp_next _ _ _ _ _ _ _ H _ _ Hbj). symmetry. by apply Hne.
  - done.
  - rewrite (rp_prev _ _ _ _ _ _ _ H _ _ Hbj). symmetry. by apply Hne.
Qed.
Lemma wp_set_next {A} (K : M bsys A) Φ i v : (i < length cs)%nat →
  (∀ s', rep s' cs (upd nx i v) pv d ws m → wp K Φ (World h k s')) →
  wp (setb i (λ x, x <| next := v |>);; K) Φ (World h k s).
Proof.
  intros [c Hc]%lookup_lt_is_Some_2 HK. eapply (wp_setb K Φ i c _ (upd nx i v) pv c Hc).
  - intros b <- _ Hp. rewrite upd_eq. done.
  - intros j Hj. by rewrite upd_ne.
  - intros s' Hs. apply HK. by rewrite list_insert_id in Hs.
Qed.
Lemma wp_set_prev {A} (K : M bsys A) Φ i v : (i < length cs)%nat →
  (∀ s', rep s' cs nx (upd pv i v) d ws m → wp K Φ (World h k s')) →
  wp (setb i (λ x, x <| prev := v |>);; K) Φ (World h k s).
Proof.
  intros [c Hc]%lookup_lt_is_Some_2 HK. eapply (wp_setb K Φ i c _ nx (upd pv i v) c Hc).
  - intros b <- Hn _. rewrite upd_eq. done.
  - intros j Hj. by rewrite upd_ne.
  - intros s' Hs. apply HK. by rewrite list_insert_id in Hs.
Qed.
(** An update that leaves the links alone. *)
Lemma wp_set_core {A} (K : M bsys A) Φ i c f : cs !! i = Some c →
  (∀ b, core (f b) = f (core b) ∧ next (f b) = next b ∧ prev (f b) = prev b) →
  (∀ s', rep s' (<[i := f c]> cs) nx pv d ws m → wp K Φ (World h k s')) → wp (setb i f;; K) Φ (World h k s).
Proof.
  intros Hc Hf HK. eapply (wp_setb K Φ i c f nx pv); [done| |done|done].
  intros b <- Hn Hp. destruct (Hf b) as (-> & -> & ->). done.
Qed.
End rep.

(** ** The cache as its clients see it *)
Definition is_block (n : Z) (c : buf) : Prop := dev c = ROOTDEV ∧ blockno c = n.
(** Invariant of the buffers: at most one per block; an unreferenced one is
    unlocked and, if valid, equal to the disk. *)
Record CC (cs : list buf) (d : disk) : Prop := {
  cc_len : length cs = NBUF;
  cc_uniq i j ci cj n : cs !! i = Some ci → cs !! j = Some cj → is_block n ci → is_block n cj → i = j;
  cc_ref i c : cs !! i = Some c → 0 ≤ refcnt c ∧ (refcnt c = 0 → owner c = None) ∧ (dev c ≠ ROOTDEV → refcnt c = 0);
  cc_clean i c n : cs !! i = Some c → is_block n c → valid c = true → refcnt c = 0 → data c = blk d n;
}.
(** The current contents of block [n]: the cached copy, else the disk's. *)
Definition view (cs : list buf) (d : disk) (n : Z) : block :=
  match List.find (λ c, (dev c =? ROOTDEV) && (blockno c =? n) && valid c) cs with
  | Some c => data c
  | None => blk d n
  end.
Lemma view_cases cs d n :
  (∃ i c, cs !! i = Some c ∧ is_block n c ∧ valid c = true ∧ view cs d n = data c) ∨
  ((∀ i c, cs !! i = Some c → is_block n c → valid c = false) ∧ view cs d n = blk d n).
Proof.
  unfold view. destruct (List.find _ cs) as [c|] eqn:E.
  - left. apply List.find_some in E as [Hin Hc]. apply andb_prop in Hc as [Hc Hv]. apply andb_prop in Hc as [H1 H2].
    apply list_elem_of_In, list_elem_of_lookup in Hin as [i Hi]. exists i, c. unfold is_block. split_and!; [done|lia|lia|done|done].
  - right. split; [|done]. intros i c Hi [H1 H2]. pose proof (List.find_none _ _ E c) as Hn. 
    rewrite <- list_elem_of_In in Hn. specialize (Hn (list_elem_of_lookup_2 _ _ _ Hi)).
    cbv beta in Hn. rewrite H1, H2, !Z.eqb_refl in Hn. done.
Qed.
Lemma view_hit cs d n i c : CC cs d → cs !! i = Some c → is_block n c → valid c = true → view cs d n = data c.
Proof.
  intros HC Hi Hb Hv. destruct (view_cases cs d n) as [(j & c' & Hj & Hb' & _ & ->)|[Hn _]].
  - assert (j = i) as -> by (by eapply (cc_uniq _ _ HC)). congruence.
  - by rewrite (Hn i c Hi Hb) in Hv.
Qed.
Lemma view_miss cs d n : (∀ i c, cs !! i = Some c → is_block n c → valid c = false) → view cs d n = blk d n.
Proof.
  intros H. destruct (view_cases cs d n) as [(j & c' & Hj & Hb' & Hv & _)|[_ ?]]; [|done]. by rewrite (H j c' Hj Hb') in Hv.
Qed.

Definition ring_ok (nx pv : nat → nat) (o : list nat) : Prop := o ≡ₚ seq 0 NBUF ∧ linked nx pv head o head.
Definition BC (s : bsys) (o : list nat) (cs : list buf) (d : disk) (ws : list (Z * block)) (m : Z) : Prop :=
  ∃ hd nx pv, rep s (cs ++ [hd]) nx pv d ws m ∧ ring_ok nx pv o ∧ CC cs d.

Lemma order_lt o i : o ≡ₚ seq 0 NBUF → i ∈ o ↔ (i < NBUF)%nat.
Proof. intros ->. rewrite elem_of_seq. lia. Qed.
Lemma order_nodup o : o ≡ₚ seq 0 NBUF → NoDup o.
Proof. intros ->. apply NoDup_seq. Qed.
Lemma order_length o : o ≡ₚ seq 0 NBUF → length o = NBUF.
Proof. intros ->. apply length_seq. Qed.

(** The first position of [l] whose buffer satisfies [p]. *)
Definition pick (cs : list buf) (p : buf → bool) (l : list nat) : option nat :=
  List.find (λ i, p (default buf0 (cs !! i))) l.
Lemma pick_some cs p l i : pick cs p l = Some i → i ∈ l ∧ p (default buf0 (cs !! i)) = true.
Proof. intros [H1 H2]%List.find_some. by rewrite list_elem_of_In. Qed.
Lemma pick_none cs p l i : pick cs p l = None → i ∈ l → p (default buf0 (cs !! i)) = false.
Proof. intros H Hi. apply (List.find_none _ _ H). by rewrite <- list_elem_of_In. Qed.

Section scans.
Context {s : bsys} {cs : list buf} {hd : buf} {nx pv : nat → nat} {d : disk} {ws : list (Z * block)} {m : Z}.
Context (H : rep s (cs ++ [hd]) nx pv d ws m) (Hlen : length cs = NBUF) {h : list lock} {k : list chan}.
Lemma cs_lookup i c : cs !! i = Some c → (cs ++ [hd]) !! i = Some c.
Proof. intros Hi. rewrite lookup_app_l; [done|]. by eapply lookup_lt_Some. Qed.
Lemma hd_lookup : (cs ++ [hd]) !! head = Some hd.
Proof. unfold head. rewrite lookup_app_r by lia. by rewrite Hlen, Nat.sub_diag. Qed.
Lemma cs_lt i : (i < NBUF)%nat → is_Some (cs !! i).
Proof. intros. apply lookup_lt_is_Some. lia. Qed.

Lemma scan_cached_spec dv bno l : ∀ n a, linked nx pv a l head → (∀ i, i ∈ l → (i < NBUF)%nat) → (length l < n)%nat →
  wp (scan_cached n (headd l head) dv bno)
    (λ r w', w' = World h k s ∧ r = pick cs (λ c, (dev c =? dv) && (blockno c =? bno)) l) (World h k s).
Proof.
  induction l as [|x l IH]; intros [|n] a HL Hlt Hn; cbn [length] in Hn; [lia| |lia|]; cbn [scan_cached].
  - change (headd [] head) with head. rewrite decide_True by done. by apply wp_ret.
  - change (headd (x :: l) head) with x. assert (Hx : (x < NBUF)%nat) by (apply Hlt; by left).
    rewrite decide_False by (unfold head; lia). destruct (cs_lt x Hx) as [c Hc].
    apply (wp_getb H _ _ x c (cs_lookup x c Hc)). intros b Hcb Hnb _. destruct HL as (_ & _ & HL).
    unfold pick. cbn [List.find]. rewrite Hc. cbn [default from_option id]. rewrite <- Hcb.
    change (dev (core b)) with (dev b). change (blockno (core b)) with (blockno b).
    destruct ((dev b =? dv) && (blockno b =? bno)); [by apply wp_ret|].
    rewrite Hnb. destruct (linked_last _ _ _ _ _ HL) as [_ ->]. apply (IH n x HL); [|lia]. intros i Hi. apply Hlt. by right.
Qed.
Lemma scan_free_spec l : ∀ n z, linked nx pv head l z → (∀ i, i ∈ l → (i < NBUF)%nat) → (length l < n)%nat →
  wp (scan_free n (lastd head l)) (λ r w', w' = World h k s ∧ r = pick cs (λ c, refcnt c =? 0) (reverse l)) (World h k s).
Proof.
  induction l as [|x l IH] using rev_ind; intros [|n] z HL Hlt Hn; [cbn in Hn; lia| |lia|]; cbn [scan_free].
  - change (lastd head []) with head. rewrite decide_True by done. by apply wp_ret.
  - apply linked_app in HL as [HL _]. unfold lastd. rewrite last_snoc. cbn [default from_option id].
    assert (Hx : (x < NBUF)%nat) by (apply Hlt, elem_of_app; right; by left). rewrite decide_False by (unfold head; lia).
    destruct (cs_lt x Hx) as [c Hc]. apply (wp_getb H _ _ x c (cs_lookup x c Hc)). intros b Hcb _ Hpb.
    rewrite reverse_snoc. unfold pick. cbn [List.find]. rewrite Hc. cbn [default from_option id]. rewrite <- Hcb.
    change (refcnt (core b)) with (refcnt b). destruct (refcnt b =? 0); [by apply wp_ret|].
    rewrite Hpb. destruct (linked_last _ _ _ _ _ HL) as [-> _]. rewrite length_app in Hn. cbn in Hn.
    apply (IH n x HL); [|lia]. intros i Hi. apply Hlt, elem_of_app. by left.
Qed.
End scans.

(** ** bread *)
(** How [bget] leaves the buffer it returns. *)
Definition got (cs : list buf) (m dv bno : Z) (i : nat) (c' : buf) : Prop :=
  (∃ c, cs !! i = Some c ∧ dev c = dv ∧ blockno c = bno ∧
     c' = c <| refcnt ::= λ n, n + 1 |> <| owner := Some m |>) ∨
  ((∀ j c, cs !! j = Some c → ¬ (dev c = dv ∧ blockno c = bno)) ∧
   ∃ c, cs !! i = Some c ∧ refcnt c = 0 ∧ c' = mkBuf false dv bno (Some m) 1 (prev c) (next c) (data c)).
(** A buffer can be had: the block is cached and unlocked, or one is free. *)
Definition available (cs : list buf) (dv bno : Z) : Prop :=
  (∃ i c, cs !! i = Some c ∧ dev c = dv ∧ blockno c = bno) ∨ (∃ i c, cs !! i = Some c ∧ refcnt c = 0).

Lemma wp_buf_acquiresleep {A} (K : M bsys A) Φ s cs nx pv d ws m i c h k :
  rep s cs nx pv d ws m → cs !! i = Some c → owner c = None →
  (∀ s', rep s' (<[i := c <| owner := Some m |>]> cs) nx pv d ws m → wp K Φ (World h k s')) →
  wp (buf_acquiresleep i;; K) Φ (World h k s).
Proof.
  intros H Hc Ho HK. apply wp_bind. unfold buf_acquiresleep. apply (wp_getb H _ _ i c Hc). intros b Hcb _ _.
  assert (owner b = None) as -> by (by rewrite <- Ho, <- Hcb). apply wp_bind, wp_gets. cbn [st].
  rewrite (rp_me _ _ _ _ _ _ _ H).
  apply wp_seq_end, (wp_set_core H _ _ i c _ Hc); [done|]. intros s' Hs. by apply wp_ret, HK.
Qed.

Lemma bget_spec s o cs d ws m dv bno h k : BC s o cs d ws m → available cs dv bno → bcache_lock ∉ h →
  (∀ i c, cs !! i = Some c → dev c = dv → blockno c = bno → owner c = None) →
  wp (bget dv bno) (λ i w', ∃ s' hd nx pv c', w' = World h k s' ∧ got cs m dv bno i c' ∧
     rep s' (<[i := c']> cs ++ [hd]) nx pv d ws m ∧ ring_ok nx pv o) (World h k s).
Proof.
  intros (hd & nx & pv & H & Hring & HC) Hav Hh Hfree. pose proof (cc_len _ _ HC) as Hlen. destruct Hring as [Ho HL].
  assert (Hlt : ∀ i, i ∈ o → (i < NBUF)%nat) by (intros i; by apply order_lt).
  unfold bget. apply wp_bind, wp_acquire; [done|].
  apply (wp_getb H _ _ head hd (hd_lookup Hlen)). intros hb _ Hnb _. rewrite Hnb.
  destruct (linked_last _ _ _ _ _ HL) as [HLp HLn]. rewrite HLn. apply wp_bind.
  eapply wp_mono; [by apply (scan_cached_spec H Hlen dv bno o (S NBUF) head HL); [|rewrite order_length; [lia|]]|].
  intros r w' [-> ->]. destruct (pick cs _ o) as [i|] eqn:E.
  - apply pick_some in E as [Hi Hm]. destruct (cs_lt (cs := cs) Hlen i (Hlt i Hi)) as [c Hc]. rewrite Hc in Hm.
    cbn [default from_option id] in Hm. assert (Hd : dev c = dv ∧ blockno c = bno) by lia. destruct Hd as [Hd Hb].
    apply (wp_set_core H _ _ i c _ (cs_lookup i c Hc)); [done|]. intros s1 H1.
    rewrite insert_app_l in H1 by (by eapply lookup_lt_Some). apply wp_bind, wp_release; [done|].
    eapply (wp_buf_acquiresleep _ _ s1 _ nx pv d ws m i _ h k H1).
    + apply cs_lookup. apply list_lookup_insert_eq. by eapply lookup_lt_Some.
    + by apply (Hfree i c).
    + intros s2 H2. apply wp_ret. rewrite insert_app_l, list_insert_insert_eq in H2 by (rewrite ?length_insert; by eapply lookup_lt_Some).
      eexists s2, hd, nx, pv, _. split_and!; [done| |exact H2|by split]. left. exists c. done.
  - assert (Hmiss : ∀ j c, cs !! j = Some c → ¬ (dev c = dv ∧ blockno c = bno)).
    { intros j c Hj [H1 H2]. pose proof (pick_none _ _ _ j E) as Hp. rewrite Hj in Hp. cbn in Hp.
      rewrite H1, H2, !Z.eqb_refl in Hp. discriminate Hp. apply (order_lt o j Ho). rewrite <- Hlen. by eapply lookup_lt_Some. }
    apply (wp_getb H _ _ head hd (hd_lookup Hlen)). intros hb' _ _ Hpb. rewrite Hpb, HLp. apply wp_bind.
    eapply wp_mono; [by apply (scan_free_spec H Hlen o (S NBUF) head HL); [|rewrite order_length; [lia|]]|].
    intros r w' [-> ->]. destruct (pick cs _ (reverse o)) as [i|] eqn:E2.
    2:{ exfalso. destruct Hav as [(i & c & Hi & H1 & H2)|(i & c & Hi & H1)]; [by destruct (Hmiss i c Hi)|].
        pose proof (pick_none _ _ _ i E2) as Hp. rewrite Hi in Hp. cbn in Hp. rewrite H1 in Hp. discriminate Hp.
        apply elem_of_reverse, (order_lt o i Ho). rewrite <- Hlen. by eapply lookup_lt_Some. }
    apply pick_some in E2 as [Hi Hm]. rewrite elem_of_reverse in Hi.
    destruct (cs_lt (cs := cs) Hlen i (Hlt i Hi)) as [c Hc]. rewrite Hc in Hm. cbn [default from_option id] in Hm.
    assert (Hil : (i < length cs)%nat) by (by eapply lookup_lt_Some).
    apply (wp_set_core H _ _ i c _ (cs_lookup i c Hc)); [done|]. intros s1 H1.
    rewrite insert_app_l in H1 by done.
    apply (wp_set_core H1 _ _ i _ _ (cs_lookup i _ (list_lookup_insert_eq _ _ _ Hil))); [done|]. intros s2 H2.
    rewrite insert_app_l, list_insert_insert_eq in H2 by (by rewrite length_insert).
    apply (wp_set_core H2 _ _ i _ _ (cs_lookup i _ (list_lookup_insert_eq _ _ _ Hil))); [done|]. intros s3 H3.
    rewrite insert_app_l, list_insert_insert_eq in H3 by (by rewrite length_insert).
    apply (wp_set_core H3 _ _ i _ _ (cs_lookup i _ (list_lookup_insert_eq _ _ _ Hil))); [done|]. intros s4 H4.
    rewrite insert_app_l, list_insert_insert_eq in H4 by (by rewrite length_insert).
    apply wp_bind, wp_release; [done|].
    eapply (wp_buf_acquiresleep _ _ s4 _ nx pv d ws m i _ h k H4).
    + apply cs_lookup. by apply list_lookup_insert_eq.
    + apply (cc_ref _ _ HC i c Hc). lia.
    + intros s5 H5. apply wp_ret. rewrite insert_app_l, list_insert_insert_eq in H5 by (by rewrite length_insert).
      eexists s5, hd, nx, pv, _. split_and!; [done| |exact H5|by split]. right. split; [done|]. exists c. split_and!; [done|lia|done].
Qed.

(** The buffer [c'] that [bread] returns for block [n] at position [i]. *)
Record grabbed (cs : list buf) (d : disk) (m n : Z) (i : nat) (c' : buf) : Prop := {
  gb_lt : (i < length cs)%nat;
  gb_block : is_block n c';
  gb_valid : valid c' = true;
  gb_owner : owner c' = Some m;
  gb_data : data c' = view cs d n;
  gb_from : (∃ c, cs !! i = Some c ∧ is_block n c ∧ refcnt c' = refcnt c + 1) ∨
    ((∀ j c, cs !! j = Some c → ¬ is_block n c) ∧ ∃ c, cs !! i = Some c ∧ refcnt c = 0 ∧ refcnt c' = 1);
}.
Lemma grabbed_CC cs d m n i c' : CC cs d → grabbed cs d m n i c' → CC (<[i := c']> cs) d.
Proof.
  intros HC [Hlt Hb Hv Ho Hd Hfrom]. assert (Hr : 0 < refcnt c').
  { destruct Hfrom as [(c & Hc & _ & ->)|(_ & c & _ & _ & ->)]; [|lia]. destruct (cc_ref _ _ HC i c Hc). lia. }
  assert (Hother : ∀ j cj, cs !! j = Some cj → is_block n cj → j = i).
  { intros j cj Hj Hbj. destruct Hfrom as [(c & Hc & Hbc & _)|(Hn & _)]; [by eapply (cc_uniq _ _ HC)|by destruct (Hn j cj)]. }
  constructor.
  - rewrite length_insert. apply HC.
  - intros j1 j2 c1 c2 x [(-> & <- & _)|[Hj1 H1]]%list_lookup_insert_Some [(-> & <- & _)|[Hj2 H2]]%list_lookup_insert_Some B1 B2.
    + done.
    + assert (x = n) as -> by (destruct B1, Hb; congruence). symmetry. by eapply Hother.
    + assert (x = n) as -> by (destruct B2, Hb; congruence). by eapply Hother.
    + by eapply (cc_uniq _ _ HC).
  - intros j c [(-> & <- & _)|[Hj H1]]%list_lookup_insert_Some; [|by apply (cc_ref _ _ HC j)].
    split_and!; [lia|lia|]. destruct Hb. congruence.
  - intros j c x [(-> & <- & _)|[Hj H1]]%list_lookup_insert_Some; [lia|by apply (cc_clean _ _ HC j)].
Qed.
Lemma grabbed_view cs d m n i c' x : CC cs d → grabbed cs d m n i c' → view (<[i := c']> cs) d x = view cs d x.
Proof.
  intros HC G. pose proof (grabbed_CC _ _ _ _ _ _ HC G) as HC'. destruct G as [Hlt Hb Hv Ho Hd Hfrom].
  assert (Hat : <[i := c']> cs !! i = Some c') by (by apply list_lookup_insert_eq).
  destruct (decide (x = n)) as [->|Hx]; [by rewrite (view_hit _ _ n i c' HC' Hat Hb Hv)|].
  destruct (view_cases cs d x) as [(j & c & Hj & Hbj & Hvj & ->)|[Hn ->]].
  - destruct (decide (j = i)) as [->|Hji].
    + (* the evicted buffer was clean *)
      destruct Hfrom as [(c0 & Hc & Hbc & _)|(Hno & c0 & Hc & Hr & _)].
      { exfalso. apply Hx. rewrite Hj in Hc. injection Hc as <-. destruct Hbj, Hbc. congruence. }
      rewrite Hj in Hc. injection Hc as <-. rewrite (cc_clean _ _ HC i c x Hj Hbj Hvj Hr). apply view_miss.
      intros j' cj [(-> & <- & _)|[Hne H1]]%list_lookup_insert_Some Hbx; [destruct Hbx, Hb; congruence|].
      exfalso. apply Hne. symmetry. by eapply (cc_uniq _ _ HC).
    + eapply (view_hit _ _ _ j); [done| |done|done]. by rewrite list_lookup_insert_ne.
  - apply view_miss. intros j cj [(-> & <- & _)|[Hne H1]]%list_lookup_insert_Some Hbx; [destruct Hbx, Hb; congruence|]. eauto.
Qed.

Lemma wp_disk_read {A} (K : M bsys A) Φ s cs nx pv d ws m i c h k :
  rep s cs nx pv d ws m → cs !! i = Some c →
  (∀ s', rep s' (<[i := c <| data := blk d (blockno c) |> <| valid := true |>]> cs) nx pv d ws m → wp K Φ (World h k s')) →
  wp (virtio_disk_rw i false;; setb i (λ x, x <| valid := true |>);; K) Φ (World h k s).
Proof.
  intros H Hc HK. assert (Hlt : (i < length cs)%nat) by (by eapply lookup_lt_Some).
  assert (HW : wp (virtio_disk_rw i false) (λ _ w', ∃ s', w' = World h k s' ∧
     rep s' (<[i := c <| data := blk d (blockno c) |>]> cs) nx pv d ws m) (World h k s)).
  { unfold virtio_disk_rw. apply (wp_getb H _ _ i c Hc). intros b Hcb _ _. apply wp_bind, wp_gets. cbn [st].
    rewrite (rp_dsk _ _ _ _ _ _ _ H). replace (blockno b) with (blockno c) by (by rewrite <- Hcb).
    apply wp_seq_end, (wp_set_core H _ _ i c _ Hc); [done|]. intros s' Hs. apply wp_ret. eauto. }
  apply wp_bind. eapply wp_mono; [exact HW|]. intros _ w' (s1 & -> & H1).
  apply (wp_set_core H1 _ _ i _ _ (list_lookup_insert_eq _ _ _ Hlt)); [done|]. intros s2 H2.
  rewrite list_insert_insert_eq in H2. by apply HK.
Qed.
Lemma bread_spec s o cs d ws m n h k : BC s o cs d ws m → available cs ROOTDEV n → bcache_lock ∉ h →
  (∀ i c, cs !! i = Some c → is_block n c → owner c = None) →
  wp (bread ROOTDEV n) (λ i w', ∃ s' c', w' = World h k s' ∧ grabbed cs d m n i c' ∧
     BC s' o (<[i := c']> cs) d ws m) (World h k s).
Proof.
  intros HB Hav Hh Hfree. pose proof HB as (_ & _ & _ & _ & _ & HC). unfold bread. apply wp_bind.
  eapply wp_mono; [apply (bget_spec s o cs d ws m ROOTDEV n h k HB Hav Hh); intros i c Hc H1 H2; by eapply Hfree|].
  intros i w' (s1 & hd & nx & pv & c' & -> & Hgot & H1 & Hring).
  assert (Hi : (i < length cs)%nat) by (destruct Hgot as [(c & Hc & _)|(_ & c & Hc & _)]; by eapply lookup_lt_Some).
  assert (Hc' : (<[i := c']> cs ++ [hd]) !! i = Some c') by (apply cs_lookup; by apply list_lookup_insert_eq).
  assert (Hfin : ∀ s2 c2, rep s2 (<[i := c2]> cs ++ [hd]) nx pv d ws m → grabbed cs d m n i c2 →
    ∃ s' c'0, World h k s2 = World h k s' ∧ grabbed cs d m n i c'0 ∧ BC s' o (<[i := c'0]> cs) d ws m).
  { intros s2 c2 H2 HG. exists s2, c2. split_and!; [done|done|]. exists hd, nx, pv. split_and!; [done|done|by eapply grabbed_CC]. }
  apply (wp_getb H1 _ _ i c' Hc'). intros b Hcb _ _. replace (valid b) with (valid c') by (by rewrite <- Hcb).
  destruct (valid c') eqn:Hv; cbn [negb].
  - apply wp_bind, wp_ret, wp_ret. apply (Hfin s1 c' H1). destruct Hgot as [(c & Hc & Hd & Hb & ->)|(_ & c & _ & _ & ->)]; [|done].
    constructor; try done. + symmetry. by eapply (view_hit _ _ _ i c HC Hc). + left. by exists c.
  - unfold when.
    assert (HW : wp (virtio_disk_rw i false;; setb i (λ x, x <| valid := true |>);; ret i)
      (λ i0 w', ∃ s' c'0, w' = World h k s' ∧ grabbed cs d m n i0 c'0 ∧ BC s' o (<[i0 := c'0]> cs) d ws m) (World h k s1)).
    { apply (wp_disk_read _ _ s1 _ nx pv d ws m i c' h k H1 Hc'). intros s2 H2. apply wp_ret.
      rewrite insert_app_l, list_insert_insert_eq in H2 by (by rewrite length_insert). apply (Hfin s2 _ H2).
      destruct Hgot as [(c & Hc & Hd & Hb & ->)|(Hn & c & Hc & Hr & ->)].
      - constructor; try done; [|by left; exists c]. cbn. rewrite Hb. symmetry. apply view_miss.
        intros j cj Hj Hbj. assert (j = i) as -> by (by eapply (cc_uniq _ _ HC)). rewrite Hc in Hj. by injection Hj as <-.
      - constructor; try done; [|by right; split; [|exists c]]. cbn. symmetry. apply view_miss. intros j cj Hj Hbj. by destruct (Hn j cj). }
    unfold wp, bind in HW |- *. by destruct (virtio_disk_rw i false _).
Qed.

(** ** Writing, releasing and pinning *)
(** Replacing buffer [c] by [c'] for the same block. *)
Lemma CC_set cs d i c c' : CC cs d → cs !! i = Some c → dev c' = dev c → blockno c' = blockno c →
  0 ≤ refcnt c' → (refcnt c' = 0 → owner c' = None) → (dev c ≠ ROOTDEV → refcnt c' = 0) →
  (∀ n, is_block n c' → valid c' = true → refcnt c' = 0 → data c' = blk d n) → CC (<[i := c']> cs) d.
Proof.
  intros HC Hc Hd Hb Hr Hro Hrd Hcl. assert (HB : ∀ x, is_block x c' → is_block x c) by (intros x [? ?]; split; congruence).
  constructor.
  - rewrite length_insert. apply HC.
  - intros j1 j2 c1 c2 x [(-> & <- & _)|[Hj1 H1]]%list_lookup_insert_Some [(-> & <- & _)|[Hj2 H2]]%list_lookup_insert_Some B1 B2;
      [done|..]; by eapply (cc_uniq _ _ HC); eauto.
  - intros j cj [(-> & <- & _)|[Hj H1]]%list_lookup_insert_Some; [|by apply (cc_ref _ _ HC j)]. rewrite Hd. auto.
  - intros j cj x [(-> & <- & _)|[Hj H1]]%list_lookup_insert_Some; [auto|by apply (cc_clean _ _ HC j)].
Qed.
Lemma view_set cs d i c c' n x : CC cs d → cs !! i = Some c → is_block n c → is_block n c' →
  valid c = true → valid c' = true → CC (<[i := c']> cs) d →
  view (<[i := c']> cs) d x = if decide (x = n) then data c' else view cs d x.
Proof.
  intros HC Hc Hb Hb' Hv Hv' HC'. assert (Hlt : (i < length cs)%nat) by (by eapply lookup_lt_Some).
  case_decide as E; [subst; by eapply (view_hit _ _ _ i); [|apply list_lookup_insert_eq|..]|].
  destruct (view_cases cs d x) as [(j & cj & Hj & Hbj & Hvj & ->)|[Hn ->]].
  - eapply (view_hit _ _ _ j); [done| |done|done]. rewrite list_lookup_insert_ne; [done|].
    intros ->. rewrite Hc in Hj. injection Hj as <-. destruct Hb, Hbj. congruence.
  - apply view_miss. intros j cj [(-> & <- & _)|[Hne H1]]%list_lookup_insert_Some Hbx; [destruct Hbx, Hb'; congruence|]. eauto.
Qed.
Lemma view_disk cs d n x y : (∃ i c, cs !! i = Some c ∧ is_block n c ∧ valid c = true) →
  view cs (<[n := y]> d) x = view cs d x.
Proof.
  intros (i & c & Hi & Hb & Hv). unfold view. destruct (List.find _ cs) as [c0|] eqn:E; [done|].
  unfold blk. rewrite lookup_insert_ne; [done|]. intros <-. pose proof (List.find_none _ _ E c) as Hn. rewrite <- list_elem_of_In in Hn.
  specialize (Hn (list_elem_of_lookup_2 _ _ _ Hi)). destruct Hb as [H1 H2]. cbv beta in Hn. by rewrite H1, H2, !Z.eqb_refl, Hv in Hn.
Qed.

Lemma wp_holding {A} (K : bool → M bsys A) Φ s cs nx pv d ws m i c h k :
  rep s cs nx pv d ws m → cs !! i = Some c → owner c = Some m → wp (K true) Φ (World h k s) →
  wp (bind (buf_holdingsleep i) K) Φ (World h k s).
Proof.
  intros H Hc Ho HK. apply wp_bind. unfold buf_holdingsleep. apply (wp_getb H _ _ i c Hc). intros b Hcb _ _.
  apply wp_bind, wp_gets. cbn [st]. rewrite (rp_me _ _ _ _ _ _ _ H). apply wp_ret.
  assert (owner b = Some m) as -> by (by rewrite <- Ho, <- Hcb). by rewrite bool_decide_eq_true_2.
Qed.
Lemma bwrite_spec s o cs d ws m i c n h k : BC s o cs d ws m → cs !! i = Some c → owner c = Some m → is_block n c →
  valid c = true →
  wp (bwrite i) (λ _ w', ∃ s', w' = World h k s' ∧ BC s' o cs (<[n := data c]> d) (ws ++ [(n, data c)]) m) (World h k s).
Proof.
  intros (hd & nx & pv & H & Hring & HC) Hc Ho Hb Hv. pose proof (cs_lookup (hd := hd) i c Hc) as Hc'.
  unfold bwrite. apply (wp_holding _ _ s _ nx pv d ws m i c h k H Hc' Ho). cbn [negb]. apply wp_bind, wp_ret.
  unfold virtio_disk_rw. apply (wp_getb H _ _ i c Hc'). intros b Hcb _ _.
  replace (blockno b) with n by (rewrite <- (proj2 Hb), <- Hcb; done). replace (data b) with (data c) by (by rewrite <- Hcb).
  apply wp_modify. eexists. split; [reflexivity|]. exists hd, nx, pv. split_and!; [|done|].
  - constructor; cbn; try apply H; by rewrite ?(rp_dsk _ _ _ _ _ _ _ H), ?(rp_writes _ _ _ _ _ _ _ H).
  - constructor; [apply HC|apply HC|apply HC|]. intros j cj x Hj Hbj Hvj Hrj. unfold blk.
    destruct (decide (x = n)) as [->|Hne].
    + assert (j = i) as -> by (by eapply (cc_uniq _ _ HC)). rewrite lookup_insert_eq. cbn. congruence.
    + rewrite lookup_insert_ne by done. by eapply (cc_clean _ _ HC).
Qed.
Lemma set_core_spec s o cs d ws m i c f c' h k : BC s o cs d ws m → cs !! i = Some c →
  (∀ b, core (f b) = f (core b) ∧ next (f b) = next b ∧ prev (f b) = prev b) → c' = f c → CC (<[i := c']> cs) d →
  wp (setb i f) (λ _ w', ∃ s', w' = World h k s' ∧ BC s' o (<[i := c']> cs) d ws m) (World h k s).
Proof.
  intros (hd & nx & pv & H & Hring & HC) Hc Hf -> HC'.
  apply wp_seq_end, (wp_set_core H _ _ i c _ (cs_lookup i c Hc) Hf). intros s' Hs. apply wp_ret. exists s'. split; [done|].
  rewrite insert_app_l in Hs by (by eapply lookup_lt_Some). exists hd, nx, pv. done.
Qed.
Lemma bpin_spec s o cs d ws m i c h k : BC s o cs d ws m → cs !! i = Some c → dev c = ROOTDEV → bcache_lock ∉ h →
  wp (bpin i) (λ _ w', ∃ s', w' = World h k s' ∧ BC s' o (<[i := c <| refcnt ::= λ n, n + 1 |>]> cs) d ws m) (World h k s).
Proof.
  intros HB Hc Hd Hh. pose proof HB as (_ & _ & _ & _ & _ & HC). destruct (cc_ref _ _ HC i c Hc) as (Hr & _).
  unfold bpin. apply wp_bind, wp_acquire; [done|]. apply wp_bind.
  eapply wp_mono; [eapply (set_core_spec s o cs d ws m i c); [done|done|done|done|]|].
  - apply (CC_set cs d i c); try done; cbn; try lia. 
  - intros _ w' (s' & -> & HB'). apply wp_release; [done|]. eauto.
Qed.
Lemma bunpin_spec s o cs d ws m i c n h k : BC s o cs d ws m → cs !! i = Some c → is_block n c → bcache_lock ∉ h →
  0 < refcnt c → (refcnt c = 1 → owner c = None ∧ data c = blk d n) →
  wp (bunpin i) (λ _ w', ∃ s', w' = World h k s' ∧ BC s' o (<[i := c <| refcnt ::= λ n, n - 1 |>]> cs) d ws m) (World h k s).
Proof.
  intros HB Hc Hb Hh Hr H1. pose proof HB as (_ & _ & _ & _ & _ & HC).
  unfold bunpin. apply wp_bind, wp_acquire; [done|]. apply wp_bind.
  eapply wp_mono; [eapply (set_core_spec s o cs d ws m i c); [done|done|done|done|]|].
  - apply (CC_set cs d i c); try done; cbn; [lia| | |].
    + intros E. apply H1. lia.
    + by destruct Hb.
    + intros x [_ Hx] _ E. cbn in Hx. destruct Hb as [_ Hb]. assert (x = n) as -> by congruence. apply H1. lia.
  - intros _ w' (s' & -> & HB'). apply wp_release; [done|]. eauto.
Qed.

(** ** brelse *)
(** Buffer [i] moves to the front of the ring. *)
Lemma move_front s cs hd nx pv o d ws m i h k : rep s (cs ++ [hd]) nx pv d ws m → length cs = NBUF → ring_ok nx pv o →
  (i < NBUF)%nat →
  wp (setb (nx i) (λ x, x <| prev := pv i |>);;
      setb (pv i) (λ x, x <| next := nx i |>);;
      hd ← getb head;
      setb i (λ x, x <| next := next hd |>);;
      setb i (λ x, x <| prev := head |>);;
      setb (next hd) (λ x, x <| prev := i |>);;
      setb head (λ x, x <| next := i |>))
    (λ _ w', ∃ s' nx' pv' l1 l2, w' = World h k s' ∧ o = l1 ++ i :: l2 ∧ rep s' (cs ++ [hd]) nx' pv' d ws m ∧
       ring_ok nx' pv' (i :: l1 ++ l2)) (World h k s).
Proof.
  intros H Hlen [Ho HL] Hi. assert (Hin : i ∈ o) by (by apply (order_lt o i Ho)).
  apply list_elem_of_split in Hin as (l1 & l2 & ->). pose proof (order_nodup _ Ho) as Hnd.
  assert (Hhd : head ∉ l1 ++ i :: l2) by (rewrite (order_lt _ head Ho); unfold head; lia).
  assert (Hlast : (lastd head l1 ≤ NBUF)%nat ∧ (headd l2 head ≤ NBUF)%nat).
  { split.
    - pose proof (lastd_elem head l1) as Hx. apply elem_of_cons in Hx as [Hx|Hx]; [by rewrite Hx|]. assert (lastd head l1 ∈ l1 ++ i :: l2) as Hy%(order_lt _ _ Ho); [|lia].
      apply elem_of_app. by left.
    - pose proof (headd_elem l2 head) as Hx. apply elem_of_app in Hx as [Hx|Hx%list_elem_of_singleton]; [|by rewrite Hx].
      assert (headd l2 head ∈ l1 ++ i :: l2) as Hy%(order_lt _ _ Ho); [|lia]. apply elem_of_app. right. by right. }
  pose proof (linked_unlink nx pv head l1 i l2 head ltac:(by apply NoDup_cons) Hhd HL) as HL1.
  apply linked_app in HL as [HLa HLb]. destruct (linked_last _ _ _ _ _ HLa) as [Hp _]. destruct (linked_last _ _ _ _ _ HLb) as [_ Hn].
  rewrite Hp, Hn. assert (Hlen' : length (cs ++ [hd]) = S NBUF) by (rewrite length_app; cbn; lia).
  apply (wp_set_prev H); [lia|]. intros s1 H1. apply (wp_set_next H1); [lia|]. intros s2 H2.
  apply (wp_getb H2 _ _ head hd (hd_lookup Hlen)). intros hb _ Hnb _. destruct (linked_last _ _ _ _ _ HL1) as [_ Hn1].
  rewrite Hnb, Hn1. assert (Hh2 : (headd (l1 ++ l2) head ≤ NBUF)%nat) by (apply (headd_le l1 l2 i); [intros x Hx%(order_lt _ _ Ho); lia|done]).
  apply (wp_set_next H2); [lia|]. intros s3 H3. apply (wp_set_prev H3); [lia|]. intros s4 H4.
  apply (wp_set_prev H4); [lia|]. intros s5 H5. apply wp_seq_end, (wp_set_next H5); [unfold head; lia|]. intros s6 H6.
  apply wp_ret. eexists s6, _, _, l1, l2. split_and!; [done|done|exact H6|]. split; [by rewrite <- Ho, Permutation_middle|].
  apply linked_push; [..|done]; rewrite <- Permutation_middle in Hnd; apply NoDup_cons in Hnd as [Hni Hnd].
  - intros [->|?]%elem_of_cons; [|done]. unfold head in Hi. lia.
  - unfold head. lia.
  - intros Hx. apply Hhd. apply elem_of_app in Hx as [?|?]; apply elem_of_app; [by left|right; by right].
  - done.
  - intros Hx. apply Hhd. apply elem_of_app in Hx as [?|?]; apply elem_of_app; [by left|right; by right].
Qed.
Lemma brelse_spec s o cs d ws m i c n h k : BC s o cs d ws m → cs !! i = Some c → owner c = Some m → is_block n c →
  bcache_lock ∉ h → 0 < refcnt c → (refcnt c = 1 → valid c = true → data c = blk d n) →
  wp (brelse i) (λ _ w', ∃ s' o', w' = World h (k ++ [("buf", i)]) s' ∧
     BC s' o' (<[i := c <| owner := None |> <| refcnt ::= λ n, n - 1 |>]> cs) d ws m) (World h k s).
Proof.
  intros (hd & nx & pv & H & Hring & HC) Hc Ho Hb Hh Hr H1. pose proof (cs_lookup (hd := hd) i c Hc) as Hc'.
  assert (Hlt : (i < length cs)%nat) by (by eapply lookup_lt_Some). pose proof (cc_len _ _ HC) as Hlen.
  assert (HCC : CC (<[i := c <| owner := None |> <| refcnt ::= λ n, n - 1 |>]> cs) d).
  { apply (CC_set cs d i c); try done; cbn; [lia|by destruct Hb|].
    intros x [_ Hx] Hv E. cbn in Hx. destruct Hb as [_ Hb]. assert (x = n) as -> by congruence. apply H1; [lia|done]. }
  unfold brelse. apply (wp_holding _ _ s _ nx pv d ws m i c h k H Hc' Ho). cbn [negb]. apply wp_bind, wp_ret.
  apply wp_bind. unfold buf_releasesleep.
  apply (wp_set_core H _ _ i c _ Hc'); [done|]. intros s1 Hs1. rewrite insert_app_l in Hs1 by done.
  apply wp_notify. apply wp_bind, wp_acquire; [done|].
  apply (wp_set_core Hs1 _ _ i _ _ (cs_lookup i _ (list_lookup_insert_eq _ _ _ Hlt))); [done|]. intros s2 Hs2.
  rewrite insert_app_l, list_insert_insert_eq in Hs2 by (by rewrite length_insert).
  set (c2 := c <| owner := None |> <| refcnt ::= λ n, n - 1 |>) in *.
  apply (wp_getb Hs2 _ _ i c2 (cs_lookup i _ (list_lookup_insert_eq _ _ _ Hlt))). intros b Hcb Hnb Hpb.
  rewrite Hnb, Hpb. apply wp_bind, wp_when. destruct (refcnt b =? 0).
  - eapply wp_mono; [apply (move_front s2 _ hd nx pv o d ws m i _ _ Hs2); [by rewrite length_insert|done|lia]|].
    intros _ w' (s3 & nx' & pv' & l1 & l2 & -> & -> & Hs3 & Hring'). apply wp_release; [done|].
    exists s3, (i :: l1 ++ l2). split; [done|]. exists hd, nx', pv'. done.
  - apply wp_release; [done|]. exists s2, o. split; [done|]. exists hd, nx, pv. done.
Qed.
