(* ===== verification/Log.v ===== *)
(** * Write-ahead log: kernel/log.c

    The log's counters and in-memory header over the buffer cache of Bio.v.
    A wait ([sleep]) shows as [Blocked]: in the sequential view of one thread
    nobody can make its condition true. *)
From S2P Require Import Prelude Param CString Mem Bio.

Record logheader := mkLh { lh_n : Z; lh_block : list Z }.
Record log := mkLog { start : Z; log_size : Z; outstanding : Z; committing : bool; ldev : Z; lh : logheader }.
#[export] Instance eta_lh : Settable logheader := λ l, mkLh (lh_n l) (lh_block l).
#[export] Instance eta_log : Settable log :=
  λ l, mkLog (start l) (log_size l) (outstanding l) (committing l) (ldev l) (lh l).
Record lsys := mkLsys { bs : bsys; lg : log }.
#[export] Instance eta_lsys : Settable lsys := λ s, mkLsys (bs s) (lg s).

Definition lift {A} (m : M bsys A) : M lsys A := zoom bs (λ b s, s <| bs := b |>) m.
Definition log_lock : lock := ("log", 0%nat).
Definition getl {A} (f : log → A) : M lsys A := gets (λ s, f (lg s)).
Definition setl (f : log → log) : M lsys unit := modify (λ s, s <| lg ::= f |>).
(** [log.lh.block[i]], within the array. *)
Definition get_block (i : nat) : M lsys Z := b ← getl (λ l, lh_block (lh l) !! i); nonnull b.
Definition set_block (i : nat) (v : Z) : M lsys unit :=
  get_block i;; setl (λ l, l <| lh ::= λ h, h <| lh_block ::= <[i := v]> |> |>).
Definition set_data (i : nat) (f : block → block) : M lsys unit :=
  lift (setb i (λ b, b <| data ::= f |>)).
(** [memmove(to->data, from->data, BSIZE)] *)
Definition copy_data (to from : nat) : M lsys unit :=
  b ← lift (getb from); set_data to (λ _, data b).

Fixpoint install_trans_loop (n : nat) (tail : nat) (recovering : bool) : M lsys unit :=
  match n with
  | O => ret ()
  | S n =>
      d ← getl ldev; st ← getl start;
      lbuf ← lift (bread d (st + Z.of_nat tail + 1));
      bno ← get_block tail;
      dbuf ← lift (bread d bno);
      copy_data dbuf lbuf;;
      lift (bwrite dbuf);;
      when (negb recovering) (lift (bunpin dbuf));;
      lift (brelse lbuf);;
      lift (brelse dbuf);;
      install_trans_loop n (S tail) recovering
  end.
Definition install_trans (recovering : bool) : M lsys unit :=
  n ← getl (λ l, lh_n (lh l)); install_trans_loop (Z.to_nat n) 0 recovering.

Fixpoint read_blocks (n : nat) (i : nat) (buf : nat) : M lsys unit :=
  match n with
  | O => ret ()
  | S n =>
      b ← lift (getb buf);
      set_block i (ld32 (data b) (4 + 4 * Z.of_nat i));;
      read_blocks n (S i) buf
  end.
Definition read_head : M lsys unit :=
  d ← getl ldev; st ← getl start;
  buf ← lift (bread d st);
  b ← lift (getb buf);
  setl (λ l, l <| lh ::= λ h, h <| lh_n := i32 (ld32 (data b) 0) |> |>);;
  n ← getl (λ l, lh_n (lh l));
  read_blocks (Z.to_nat n) 0 buf;;
  lift (brelse buf).

Fixpoint write_blocks (n : nat) (i : nat) (buf : nat) : M lsys unit :=
  match n with
  | O => ret ()
  | S n =>
      v ← get_block i;
      set_data buf (λ m, st32 m (4 + 4 * Z.of_nat i) v);;
      write_blocks n (S i) buf
  end.
Definition write_head : M lsys unit :=
  d ← getl ldev; st ← getl start;
  buf ← lift (bread d st);
  n ← getl (λ l, lh_n (lh l));
  set_data buf (λ m, st32 m 0 n);;
  write_blocks (Z.to_nat n) 0 buf;;
  lift (bwrite buf);;
  lift (brelse buf).

Definition recover_from_log : M lsys unit :=
  read_head;;
  install_trans true;;
  setl (λ l, l <| lh ::= λ h, h <| lh_n := 0 |> |>);;
  write_head.
Definition initlog (d logstart nlog : Z) : M lsys unit :=
  when (4 + 4 * LOGSIZE >=? BSIZE) (panic "initlog: too big logheader");;
  setl (λ l, l <| start := logstart |>);;
  setl (λ l, l <| log_size := nlog |>);;
  setl (λ l, l <| ldev := d |>);;
  recover_from_log.

Definition begin_op : M lsys unit :=
  acquire log_lock;;
  l ← getl id;
  if committing l then blocked ("log", 0%nat)
  else if lh_n (lh l) + (outstanding l + 1) * MAXOPBLOCKS >? LOGSIZE then blocked ("log", 0%nat)
  else setl (λ l, l <| outstanding ::= λ n, n + 1 |>);; release log_lock.

Fixpoint write_log_loop (n : nat) (tail : nat) : M lsys unit :=
  match n with
  | O => ret ()
  | S n =>
      d ← getl ldev; st ← getl start;
      to ← lift (bread d (st + Z.of_nat tail + 1));
      bno ← get_block tail;
      from ← lift (bread d bno);
      copy_data to from;;
      lift (bwrite to);;
      lift (brelse from);;
      lift (brelse to);;
      write_log_loop n (S tail)
  end.
Definition write_log : M lsys unit :=
  n ← getl (λ l, lh_n (lh l)); write_log_loop (Z.to_nat n) 0.
Definition commit : M lsys unit :=
  n ← getl (λ l, lh_n (lh l));
  when (0 <? n)
    (write_log;;
     write_head;;
     install_trans false;;
     setl (λ l, l <| lh ::= λ h, h <| lh_n := 0 |> |>);;
     write_head).

Definition end_op : M lsys unit :=
  acquire log_lock;;
  setl (λ l, l <| outstanding ::= λ n, n - 1 |>);;
  l ← getl id;
  when (committing l) (panic "log.committing");;
  let do_commit := outstanding l =? 0 in
  (if do_commit then setl (λ l, l <| committing := true |>) else notify ("log", 0%nat));;
  release log_lock;;
  when do_commit
    (commit;;
     acquire log_lock;;
     setl (λ l, l <| committing := false |>);;
     notify ("log", 0%nat);;
     release log_lock).

(** The position of [bno] among the first [n] logged blocks, or [n]. *)
Fixpoint find_block (n : nat) (i : nat) (bno : Z) : M lsys nat :=
  match n with
  | O => ret i
  | S n =>
      v ← get_block i;
      if v =? bno then ret i else find_block n (S i) bno
  end.
Definition log_write (b : nat) : M lsys unit :=
  acquire log_lock;;
  l ← getl id;
  when ((lh_n (lh l) >=? LOGSIZE) || (lh_n (lh l) >=? log_size l - 1)) (panic "too big a transaction");;
  when (outstanding l <? 1) (panic "log_write outside of trans");;
  bf ← lift (getb b);
  i ← find_block (Z.to_nat (lh_n (lh l))) 0 (blockno bf);
  set_block i (blockno bf);;
  when (Z.of_nat i =? lh_n (lh l))
    (lift (bpin b);;
     setl (λ l, l <| lh ::= λ h, h <| lh_n ::= λ n, n + 1 |> |>));;
  release log_lock.
