(* ===== verification/Cache.v ===== *)
(** * What the buffer cache promises

    The interface between kernel/bio.c and its clients: the cache is a map from
    block numbers to their current contents, with a reference count and a
    holder for the blocks in use. [BufferCache] states the promise, and
    [bio_cache] is the proof that bio.c keeps it. *)
From S2P Require Import Prelude Param CString Mem Bio BioSpec.

Record cache := mkCache {
  cV : Z → block;           (* current contents *)
  cD : disk;                (* contents on disk *)
  cW : list (Z * block);    (* writes sent to the disk *)
  cR : gmap Z Z;            (* positive reference counts *)
  cH : gmap Z nat;          (* blocks locked by the caller, and their buffers *)
}.
#[export] Instance eta_cache : Settable cache := λ c, mkCache (cV c) (cD c) (cW c) (cR c) (cH c).
Definition rc (C : cache) (n : Z) : Z := default 0 (cR C !! n).
Definition updV (V : Z → block) (n : Z) (x : block) : Z → block := λ j, if decide (j = n) then x else V j.
Definition unref (R : gmap Z Z) (n : Z) : gmap Z Z :=
  match R !! n with Some r => if r =? 1 then delete n R else <[n := r - 1]> R | None => R end.

Class BufferCache (R : bsys → cache → Prop) := {
  cache_bread s C n h k : R s C → cH C !! n = None → bcache_lock ∉ h →
    (is_Some (cR C !! n) ∨ (size (cR C) < NBUF)%nat) →
    wp (bread ROOTDEV n) (λ i w', ∃ s', w' = World h k s' ∧
      R s' (C <| cR ::= <[n := rc C n + 1]> |> <| cH ::= <[n := i]> |>)) (World h k s);
  cache_get s C n i h k : R s C → cH C !! n = Some i →
    wp (getb i) (λ b w', w' = World h k s ∧ data b = cV C n ∧ blockno b = n) (World h k s);
  cache_set s C n i f h k : R s C → cH C !! n = Some i →
    wp (setb i (λ b, b <| data ::= f |>)) (λ _ w', ∃ s', w' = World h k s' ∧
      R s' (C <| cV ::= λ V, updV V n (f (V n)) |>)) (World h k s);
  cache_bwrite s C n i h k : R s C → cH C !! n = Some i →
    wp (bwrite i) (λ _ w', ∃ s', w' = World h k s' ∧
      R s' (C <| cD ::= <[n := cV C n]> |> <| cW ::= λ W, W ++ [(n, cV C n)] |>)) (World h k s);
  cache_brelse s C n i h k : R s C → cH C !! n = Some i → bcache_lock ∉ h →
    (rc C n = 1 → cV C n = blk (cD C) n) →
    wp (brelse i) (λ _ w', ∃ s', w' = World h (k ++ [("buf", i)]) s' ∧
      R s' (C <| cR ::= λ R, unref R n |> <| cH ::= delete n |>)) (World h k s);
  cache_bpin s C n i h k : R s C → cH C !! n = Some i → bcache_lock ∉ h →
    wp (bpin i) (λ _ w', ∃ s', w' = World h k s' ∧ R s' (C <| cR ::= <[n := rc C n + 1]> |>)) (World h k s);
  cache_bunpin s C n i h k : R s C → cH C !! n = Some i → bcache_lock ∉ h → 1 < rc C n →
    wp (bunpin i) (λ _ w', ∃ s', w' = World h k s' ∧ R s' (C <| cR ::= λ R, unref R n |>)) (World h k s);
  cache_held s C n i : R s C → cH C !! n = Some i → 0 < rc C n;
  cache_count s C n r : R s C → cR C !! n = Some r → 0 < r;
  cache_clean s C n : R s C → cR C !! n = None → cV C n = blk (cD C) n;
  cache_ext s C V : R s C → (∀ n, V n = cV C n) → R s (C <| cV := V |>);
}.

(** ** bio.c *)
Definition counts (cs : list buf) (R : gmap Z Z) : Prop :=
  ∀ n r, R !! n = Some r ↔ 0 < r ∧ ∃ i c, cs !! i = Some c ∧ is_block n c ∧ refcnt c = r.
Definition holders (m : Z) (cs : list buf) (H : gmap Z nat) : Prop :=
  ∀ n i, H !! n = Some i ↔ ∃ c, cs !! i = Some c ∧ is_block n c ∧ owner c = Some m.
(** A buffer is unlocked, or locked by the caller with a block read in. *)
Definition quiet (m : Z) (cs : list buf) : Prop :=
  ∀ i c, cs !! i = Some c → owner c = None ∨ (owner c = Some m ∧ valid c = true ∧ dev c = ROOTDEV).
Definition bio (m : Z) (s : bsys) (C : cache) : Prop :=
  ∃ o cs, BC s o cs (cD C) (cW C) m ∧ (∀ n, cV C n = view cs (cD C) n) ∧
    counts cs (cR C) ∧ holders m cs (cH C) ∧ quiet m cs.
Section bio.
Context (m : Z).

Lemma rc_some s C o cs : BC s o cs (cD C) (cW C) m →
  counts cs (cR C) → ∀ n i c, cs !! i = Some c → is_block n c → rc C n = refcnt c.
Proof.
  intros (_ & _ & _ & _ & _ & HC) HR n i c Hi Hb. unfold rc. destruct (cc_ref _ _ HC i c Hi) as (Hr & _).
  destruct (cR C !! n) as [r|] eqn:E.
  - apply HR in E as (_ & j & cj & Hj & Hbj & <-). assert (j = i) as -> by (by eapply (cc_uniq _ _ HC)). cbn. congruence.
  - cbn. destruct (Z.eq_dec (refcnt c) 0) as [|Hne]; [done|]. 
    assert (cR C !! n = Some (refcnt c)) by (apply HR; split; [lia|eauto]). congruence.
Qed.
(** As long as fewer than NBUF blocks are referenced, a buffer is free. *)
Lemma free_buffer cs d (R : gmap Z Z) : CC cs d → counts cs R →
  (size R < NBUF)%nat → ∃ i c, cs !! i = Some c ∧ refcnt c = 0.
Proof.
  intros HC HR Hsz. destruct (decide (Exists (λ c, refcnt c = 0) cs)) as [He|Hn].
  { apply Exists_exists in He as (c & [i Hi]%list_elem_of_lookup & Hc). eauto. }
  apply not_Exists_Forall in Hn; [|solve_decision]. rewrite Forall_lookup in Hn. exfalso.
  assert (Hdev : ∀ i c, cs !! i = Some c → is_block (blockno c) c).
  { intros i c Hi. split; [|done]. destruct (Z.eq_dec (dev c) ROOTDEV); [done|].
    destruct (cc_ref _ _ HC i c Hi) as (_ & _ & H0). by destruct (Hn i c Hi); apply H0. }
  assert (Hnd : NoDup (blockno <$> cs)).
  { apply NoDup_alt. intros i j n. rewrite !list_lookup_fmap. intros (ci & Hi & ->)%fmap_Some (cj & Hj & E)%fmap_Some.
    eapply (cc_uniq _ _ HC i j ci cj (blockno ci)); [done|done|by eapply Hdev|]. rewrite E. by eapply Hdev. }
  assert (Hsub : list_to_set (C := gset Z) (blockno <$> cs) ⊆ dom R).
  { intros n Hn'. rewrite elem_of_list_to_set, list_elem_of_fmap in Hn'. destruct Hn' as (c & -> & [i Hi]%list_elem_of_lookup).
    apply elem_of_dom. exists (refcnt c). apply HR. split; [|by exists i, c; split_and!; [|eapply Hdev|]].
    destruct (cc_ref _ _ HC i c Hi). specialize (Hn i c Hi). cbn in Hn. lia. }
  apply subseteq_size in Hsub. rewrite size_list_to_set, length_fmap, (cc_len _ _ HC), size_dom in Hsub by done. lia.
Qed.

Section update.
Context {cs : list buf} {d : disk} {i : nat} {c c' : buf} {n : Z}.
Context (HC' : CC (<[i := c']> cs) d) (HCu : ∀ i j ci cj n, cs !! i = Some ci → cs !! j = Some cj → is_block n ci → is_block n cj → i = j).
Context (Hi : cs !! i = Some c) (Hb' : is_block n c').
Context (Hfrom : is_block n c ∨ ((∀ j cj, cs !! j = Some cj → ¬ is_block n cj) ∧ refcnt c = 0 ∧ owner c = None)).
Lemma upd_at : <[i := c']> cs !! i = Some c'.
Proof. apply list_lookup_insert_eq. by eapply lookup_lt_Some. Qed.
Lemma block_inj x y b : is_block x b → is_block y b → x = y.
Proof. intros [_ ?] [_ ?]. congruence. Qed.
Lemma counts_update R : counts cs R →
  counts (<[i := c']> cs) (if refcnt c' =? 0 then delete n R else <[n := refcnt c']> R).
Proof.
  intros HR x r. destruct (decide (x = n)) as [->|Hx].
  - destruct (cc_ref _ _ HC' i c' upd_at) as (Hr & _). destruct (Z.eqb_spec (refcnt c') 0) as [E|E].
    + rewrite lookup_delete_eq. split; [done|]. intros (Hpos & j & cj & Hj & Hbj & <-).
      assert (j = i) as -> by (eapply (cc_uniq _ _ HC'); eauto using upd_at). rewrite upd_at in Hj. injection Hj as <-. lia.
    + rewrite lookup_insert_eq. split; [intros [= <-]; split; [lia|]; exists i, c'; eauto using upd_at|].
      intros (_ & j & cj & Hj & Hbj & <-). assert (j = i) as -> by (eapply (cc_uniq _ _ HC'); eauto using upd_at).
      rewrite upd_at in Hj. by injection Hj as <-.
  - assert ((if refcnt c' =? 0 then delete n R else <[n := refcnt c']> R) !! x = R !! x) as ->
      by (destruct (_ =? _); [by rewrite lookup_delete_ne|by rewrite lookup_insert_ne]).
    rewrite (HR x r). split; intros (Hpos & j & cj & Hj & Hbj & Hrj); (split; [done|]); exists j, cj; split_and!; try done.
    + rewrite list_lookup_insert_ne; [done|]. intros ->. rewrite Hi in Hj. injection Hj as <-.
      destruct Hfrom as [Hb|(_ & H0 & _)]; [by apply Hx; eapply block_inj|lia].
    + apply list_lookup_insert_Some in Hj as [(-> & -> & _)|[_ Hj]]; [|done]. by destruct Hx; eapply block_inj.
Qed.
Lemma holders_update H : holders m cs H →
  holders m (<[i := c']> cs) (if decide (owner c' = Some m) then <[n := i]> H else delete n H).
Proof.
  intros HH x j. destruct (decide (x = n)) as [->|Hx].
  - case_decide as E.
    + rewrite lookup_insert_eq. split; [intros [= <-]; exists c'; eauto using upd_at|].
      intros (cj & Hj & Hbj & _). f_equal. eapply (cc_uniq _ _ HC'); eauto using upd_at.
    + rewrite lookup_delete_eq. split; [done|]. intros (cj & Hj & Hbj & Ho).
      assert (j = i) as -> by (eapply (cc_uniq _ _ HC'); eauto using upd_at). rewrite upd_at in Hj. congruence.
  - assert ((if decide (owner c' = Some m) then <[n := i]> H else delete n H) !! x = H !! x) as ->
      by (case_decide; [by rewrite lookup_insert_ne|by rewrite lookup_delete_ne]).
    rewrite (HH x j). split; intros (cj & Hj & Hbj & Hoj); exists cj; split_and!; try done.
    + rewrite list_lookup_insert_ne; [done|]. intros ->. rewrite Hi in Hj. injection Hj as <-.
      destruct Hfrom as [Hb|(_ & _ & H0)]; [by apply Hx; eapply block_inj|congruence].
    + apply list_lookup_insert_Some in Hj as [(-> & -> & _)|[_ Hj]]; [|done]. by destruct Hx; eapply block_inj.
Qed.
End update.

(** What is known of a block the caller has locked. *)
Lemma bio_held s C n i : bio m s C → cH C !! n = Some i → ∃ o cs c, BC s o cs (cD C) (cW C) m ∧ CC cs (cD C) ∧
  (∀ n, cV C n = view cs (cD C) n) ∧ counts cs (cR C) ∧ holders m cs (cH C) ∧ quiet m cs ∧
  cs !! i = Some c ∧ is_block n c ∧ owner c = Some m ∧ valid c = true ∧ 0 < refcnt c ∧ rc C n = refcnt c ∧
  cR C !! n = Some (refcnt c) ∧ cV C n = data c.
Proof.
  intros (o & cs & HB & HV & HR & HH & HQ) Hi. pose proof Hi as (c & Hc & Hb & Ho)%HH.
  pose proof HB as (_ & _ & _ & _ & _ & HC). destruct (cc_ref _ _ HC i c Hc) as (Hr & Hro & _).
  assert (0 < refcnt c) by (destruct (Z.eq_dec (refcnt c) 0) as [E|]; [rewrite (Hro E) in Ho; done|lia]).
  assert (Hv : valid c = true) by (destruct (HQ i c Hc) as [?|(_ & ? & _)]; [congruence|done]).
  exists o, cs, c. split_and!; try done.
  - by eapply rc_some.
  - apply HR. eauto 10.
  - rewrite HV. by eapply view_hit.
Qed.
Lemma quiet_update cs i c' : quiet m cs → owner c' = None ∨ (owner c' = Some m ∧ valid c' = true ∧ dev c' = ROOTDEV) →
  quiet m (<[i := c']> cs).
Proof. intros HQ Hc j cj [(-> & <- & _)|[_ Hj]]%list_lookup_insert_Some; eauto. Qed.

Lemma bio_bread s C n h k : bio m s C → cH C !! n = None → bcache_lock ∉ h →
  (is_Some (cR C !! n) ∨ (size (cR C) < NBUF)%nat) →
  wp (bread ROOTDEV n) (λ i w', ∃ s', w' = World h k s' ∧
    bio m s' (C <| cR ::= <[n := rc C n + 1]> |> <| cH ::= <[n := i]> |>)) (World h k s).
Proof.
  intros (o & cs & HB & HV & HR & HH & HQ) Hn Hh Hav. pose proof HB as (_ & _ & _ & _ & _ & HC).
  eapply wp_mono; [apply (bread_spec s o cs (cD C) (cW C) m n h k HB); [|done|]|].
  - destruct Hav as [[r Hr]|Hsz]; [left|right; by eapply free_buffer]. apply HR in Hr as (_ & i & c & Hi & [? ?] & _). eauto.
  - intros i c Hi Hb. destruct (HQ i c Hi) as [?|[Ho _]]; [done|]. assert (cH C !! n = Some i) by (apply HH; eauto). congruence.
  - intros i w' (s' & c' & -> & G & HB'). exists s'. split; [done|]. exists o, (<[i := c']> cs).
    pose proof (grabbed_CC _ _ _ _ _ _ HC G) as HC'. pose proof (λ x, grabbed_view cs (cD C) m n i c' x HC G) as HV'.
    destruct G as [Hlt Hb Hv Ho Hd Hfrom]. destruct (lookup_lt_is_Some_2 cs i Hlt) as [c Hc].
    assert (Hf : is_block n c ∨ ((∀ j cj, cs !! j = Some cj → ¬ is_block n cj) ∧ refcnt c = 0 ∧ owner c = None)).
    { destruct Hfrom as [(c0 & Hc0 & ? & _)|(Hno & c0 & Hc0 & Hr0 & _)]; rewrite Hc in Hc0; injection Hc0 as <-; [by left|right].
      split_and!; [done|done|]. by apply (cc_ref _ _ HC i c Hc). }
    assert (Hr : refcnt c' = rc C n + 1).
    { destruct Hfrom as [(c0 & Hc0 & Hb0 & ->)|(Hno & c0 & Hc0 & Hr0 & ->)]; [by rewrite (rc_some s C o cs HB HR n i c0)|].
      unfold rc. destruct (cR C !! n) as [r|] eqn:E; [|done]. apply HR in E as (_ & j & cj & Hj & Hbj & _). by destruct (Hno j cj). }
    destruct (cc_ref _ _ HC' i c' (upd_at Hc)) as (Hr0 & Hro & _).
    split_and!; cbn [cV cD cW cR cH set_field].
    + exact HB'.
    + intros x. by rewrite HV'.
    + rewrite <- Hr. pose proof (counts_update HC' Hc Hb Hf (cR C) HR) as HU.
      destruct (Z.eqb_spec (refcnt c') 0) as [E|_]; [by rewrite (Hro E) in Ho|done].
    + pose proof (holders_update HC' Hc Hb Hf (cH C) HH) as HU. by rewrite decide_True in HU.
    + apply quiet_update; [done|]. right. split_and!; [done|done|by destruct Hb].
Qed.
(** Operations on a block that is held: the buffer stays for the same block. *)
Lemma bio_step s' C C' o' cs i c c' n : CC cs (cD C) → counts cs (cR C) → holders m cs (cH C) → quiet m cs →
  cs !! i = Some c → is_block n c → is_block n c' → valid c' = true → BC s' o' (<[i := c']> cs) (cD C') (cW C') m →
  (∀ x, cV C' x = view (<[i := c']> cs) (cD C') x) → owner c' = None ∨ owner c' = Some m →
  cR C' = (if refcnt c' =? 0 then delete n (cR C) else <[n := refcnt c']> (cR C)) →
  cH C' = (if decide (owner c' = Some m) then <[n := i]> (cH C) else delete n (cH C)) → bio m s' C'.
Proof.
  intros HC HR HH HQ Hc Hb Hb' Hv' HB' HV' Ho ER EH. pose proof HB' as (_ & _ & _ & _ & _ & HC').
  exists o', (<[i := c']> cs). rewrite ER, EH. split_and!; [done|done| | |].
  - apply (counts_update HC' Hc Hb'); [by left|done].
  - apply (holders_update HC' Hc Hb'); [by left|done].
  - apply quiet_update; [done|]. destruct Ho as [?|?]; [by left|right]. split_and!; [done|done|by destruct Hb'].
Qed.

Lemma view_same cs d i c c' n x : CC cs d → cs !! i = Some c → is_block n c → is_block n c' → valid c = true →
  valid c' = true → data c' = data c → CC (<[i := c']> cs) d → view (<[i := c']> cs) d x = view cs d x.
Proof.
  intros HC Hc Hb Hb' Hv Hv' Hd HC'. rewrite (view_set cs d i c c' n x) by done. case_decide as E; [|done].
  subst. rewrite Hd. symmetry. by eapply view_hit.
Qed.
Lemma pos_neq0 r : 0 < r → (r =? 0) = false.
Proof. intros. apply Z.eqb_neq. lia. Qed.
Lemma unref_eq (R : gmap Z Z) n r : R !! n = Some r → 0 < r →
  unref R n = (if r - 1 =? 0 then delete n R else <[n := r - 1]> R).
Proof. intros Hr ?. unfold unref. rewrite Hr. destruct (Z.eqb_spec r 1), (Z.eqb_spec (r - 1) 0); done || lia. Qed.

Lemma bio_get s C n i h k : bio m s C → cH C !! n = Some i →
  wp (getb i) (λ b w', w' = World h k s ∧ data b = cV C n ∧ blockno b = n) (World h k s).
Proof.
  intros HB Hi. destruct (bio_held s C n i HB Hi) as (o & cs & c & (hd & nx & pv & H & _ & _) & _ & _ & _ & _ & _ & Hc & Hb & _ & _ & _ & _ & _ & ->).
  destruct (bufs_lookup H i c (cs_lookup i c Hc)) as (b & Eb & Hcb & _). apply wp_bind, wp_gets. cbn [st]. rewrite Eb. apply wp_ret.
  split_and!; [done|by rewrite <- Hcb|]. destruct Hb as [_ <-]. by rewrite <- Hcb.
Qed.
Lemma bio_set s C n i f h k : bio m s C → cH C !! n = Some i →
  wp (setb i (λ b, b <| data ::= f |>)) (λ _ w', ∃ s', w' = World h k s' ∧
    bio m s' (C <| cV ::= λ V, updV V n (f (V n)) |>)) (World h k s).
Proof.
  intros HB Hi. destruct (bio_held s C n i HB Hi) as (o & cs & c & HBC & HC & HV & HR & HH & HQ & Hc & Hb & Ho & Hv & Hr & _ & HRn & HVn).
  set (c' := c <| data ::= f |>). assert (HC' : CC (<[i := c']> cs) (cD C)).
  { apply (CC_set cs (cD C) i c); try done; cbn; [lia|lia|by destruct Hb|]. intros; lia. }
  eapply wp_mono; [by apply (set_core_spec s o cs (cD C) (cW C) m i c _ c' h k HBC Hc)|].
  intros _ w' (s' & -> & HB'). exists s'. split; [done|].
  eapply (bio_step s' C _ o cs i c c' n); try done; cbn [cV cD cW cR cH set_field].
  - intros x. rewrite (view_set cs (cD C) i c c' n x) by done. unfold updV. case_decide; [|done]. cbn. by rewrite HVn.
  - by right.
  - rewrite pos_neq0 by done. symmetry. by apply insert_id.
  - rewrite decide_True by done. symmetry. by apply insert_id.
Qed.
Lemma bio_bwrite s C n i h k : bio m s C → cH C !! n = Some i →
  wp (bwrite i) (λ _ w', ∃ s', w' = World h k s' ∧
    bio m s' (C <| cD ::= <[n := cV C n]> |> <| cW ::= λ W, W ++ [(n, cV C n)] |>)) (World h k s).
Proof.
  intros HB Hi. destruct (bio_held s C n i HB Hi) as (o & cs & c & HBC & HC & HV & HR & HH & HQ & Hc & Hb & Ho & Hv & Hr & _ & HRn & HVn).
  eapply wp_mono; [by apply (bwrite_spec s o cs (cD C) (cW C) m i c n h k HBC Hc)|].
  intros _ w' (s' & -> & HB'). exists s'. split; [done|]. rewrite HVn. exists o, cs. cbn [cV cD cW cR cH set_field].
  split_and!; [exact HB'| |done|done|done]. intros x. rewrite view_disk by eauto. apply HV.
Qed.
Lemma bio_brelse s C n i h k : bio m s C → cH C !! n = Some i → bcache_lock ∉ h →
  (rc C n = 1 → cV C n = blk (cD C) n) →
  wp (brelse i) (λ _ w', ∃ s', w' = World h (k ++ [("buf", i)]) s' ∧
    bio m s' (C <| cR ::= λ R, unref R n |> <| cH ::= delete n |>)) (World h k s).
Proof.
  intros HB Hi Hh Hcl. destruct (bio_held s C n i HB Hi) as (o & cs & c & HBC & HC & HV & HR & HH & HQ & Hc & Hb & Ho & Hv & Hr & Hrc & HRn & HVn).
  eapply wp_mono; [apply (brelse_spec s o cs (cD C) (cW C) m i c n h k HBC Hc Ho Hb Hh Hr)|].
  { intros H1 _. rewrite <- HVn. apply Hcl. lia. }
  intros _ w' (s' & o' & -> & HB'). exists s'. split; [done|]. pose proof HB' as (_ & _ & _ & _ & _ & HC').
  eapply (bio_step s' C _ o' cs i c _ n HC HR HH HQ Hc Hb); try exact HB'; cbn [cV cD cW cR cH set_field]; try done.
  - intros x. rewrite HV. symmetry. by eapply view_same.
  - by left.
  - by rewrite (unref_eq _ _ _ HRn Hr).
Qed.
Lemma bio_bpin s C n i h k : bio m s C → cH C !! n = Some i → bcache_lock ∉ h →
  wp (bpin i) (λ _ w', ∃ s', w' = World h k s' ∧ bio m s' (C <| cR ::= <[n := rc C n + 1]> |>)) (World h k s).
Proof.
  intros HB Hi Hh. destruct (bio_held s C n i HB Hi) as (o & cs & c & HBC & HC & HV & HR & HH & HQ & Hc & Hb & Ho & Hv & Hr & Hrc & HRn & HVn).
  eapply wp_mono; [by apply (bpin_spec s o cs (cD C) (cW C) m i c h k HBC Hc (proj1 Hb))|].
  intros _ w' (s' & -> & HB'). exists s'. split; [done|]. pose proof HB' as (_ & _ & _ & _ & _ & HC').
  eapply (bio_step s' C _ o cs i c _ n HC HR HH HQ Hc Hb); try exact HB'; cbn [cV cD cW cR cH set_field]; try done.
  - intros x. rewrite HV. symmetry. by eapply view_same.
  - by right.
  - cbn [refcnt]. rewrite Hrc. rewrite pos_neq0; [done|]. cbn. lia.
  - rewrite decide_True by done. symmetry. by apply insert_id.
Qed.
Lemma bio_bunpin s C n i h k : bio m s C → cH C !! n = Some i → bcache_lock ∉ h → 1 < rc C n →
  wp (bunpin i) (λ _ w', ∃ s', w' = World h k s' ∧ bio m s' (C <| cR ::= λ R, unref R n |>)) (World h k s).
Proof.
  intros HB Hi Hh H1. destruct (bio_held s C n i HB Hi) as (o & cs & c & HBC & HC & HV & HR & HH & HQ & Hc & Hb & Ho & Hv & Hr & Hrc & HRn & HVn).
  eapply wp_mono; [apply (bunpin_spec s o cs (cD C) (cW C) m i c n h k HBC Hc Hb Hh Hr); intros; lia|].
  intros _ w' (s' & -> & HB'). exists s'. split; [done|]. pose proof HB' as (_ & _ & _ & _ & _ & HC').
  eapply (bio_step s' C _ o cs i c _ n HC HR HH HQ Hc Hb); try exact HB'; cbn [cV cD cW cR cH set_field]; try done.
  - intros x. rewrite HV. symmetry. by eapply view_same.
  - by right.
  - by rewrite (unref_eq _ _ _ HRn Hr).
  - rewrite decide_True by done. symmetry. by apply insert_id.
Qed.
#[export] Instance bio_cache : BufferCache (bio m).
Proof.
  split; eauto using bio_bread, bio_get, bio_set, bio_bwrite, bio_brelse, bio_bpin, bio_bunpin.
  - intros s C n i HB Hi. destruct (bio_held s C n i HB Hi) as (o & cs & c & _ & _ & _ & _ & _ & _ & _ & _ & _ & _ & Hr & -> & _). done.
  - intros s C n r (o & cs & _ & _ & HR & _) Hr. by apply HR in Hr as [? _].
  - intros s C n (o & cs & (_ & _ & _ & _ & _ & HC) & HV & HR & _) Hn. rewrite HV.
    destruct (view_cases cs (cD C) n) as [(i & c & Hi & Hb & Hv & ->)|[_ ->]]; [|done].
    eapply (cc_clean _ _ HC); [done..|]. destruct (cc_ref _ _ HC i c Hi) as [H0 _].
    destruct (Z.eq_dec (refcnt c) 0) as [|Hne]; [done|].
    assert (cR C !! n = Some (refcnt c)) by (apply HR; split; [lia|eauto]). congruence.
  - intros s C V (o & cs & HB & HV & Hrest) HVV. exists o, cs. split_and!; [done| |apply Hrest..]. intros n. cbn. by rewrite HVV.
Qed.
End bio.

(** ** The cache at boot: all buffers free, none with a block *)
Definition booted (D : disk) : bsys := final binit (World [] [] (mkBsys (repeat buf0 (S NBUF)) D [] 1)).
Lemma booted_bufs D : ∃ l, booted D = mkBsys l D [] 1 ∧ core <$> l = repeat buf0 NBUF ++ [buf0] ∧
  linked (λ i, next (default buf0 (l !! i))) (λ i, prev (default buf0 (l !! i))) head (reverse (seq 0 NBUF)) head.
Proof. eexists. split; [vm_compute; reflexivity|]. split; [reflexivity|]. vm_compute. tauto. Qed.
Lemma booted_bio D : bio 1 (booted D) (mkCache (blk D) D [] ∅ ∅).
Proof.
  destruct (booted_bufs D) as (l & -> & Hcore & Hlink). exists (reverse (seq 0 NBUF)), (repeat buf0 NBUF).
  assert (Hc : ∀ i c, repeat buf0 NBUF !! i = Some c → c = buf0).
  { intros i c Hi. apply list_elem_of_lookup_2, list_elem_of_In, repeat_spec in Hi. done. }
  assert (Hb : ∀ n c, c = buf0 → ¬ is_block n c) by (intros n c -> [? _]; done).
  split_and!.
  - eexists buf0, _, _. split_and!; [|split; [apply reverse_Permutation|exact Hlink]|].
    + split; cbn; try done; intros i b ->; done.
    + split.
      * apply repeat_length.
      * intros i j ci cj n Hi Hj Hbi. by apply Hc, (Hb n) in Hi.
      * intros i c ->%Hc. cbn. split_and!; [lia|done|done].
      * intros i c n Hi Hbi. by apply Hc, (Hb n) in Hi.
  - intros n. cbn [cV cD]. destruct (view_cases (repeat buf0 NBUF) D n) as [(i & c & Hi & Hbi & _)|[_ ->]]; [|done]. by apply Hc, (Hb n) in Hi.
  - intros n r. cbn. rewrite lookup_empty. split; [done|]. intros (_ & i & c & Hi & Hbi & _). by apply Hc, (Hb n) in Hi.
  - intros n i. cbn. rewrite lookup_empty. split; [done|]. intros (c & Hi & Hbi & _). by apply Hc, (Hb n) in Hi.
  - intros i c ->%Hc. by left.
Qed.

(** C28: a block read through the cache is coherent. If the caller does not hold
    block [n] and a buffer is free or already has it, [bread] returns a buffer
    for block [n] with the block's current contents, valid, locked by the
    caller and counted once more; no other buffer is for block [n]; the cache's
    contents, the disk and the other blocks' counts and locks are unchanged. *)
Theorem bread_coherent m s C n h k : bio m s C → cH C !! n = None → bcache_lock ∉ h →
  is_Some (cR C !! n) ∨ (size (cR C) < NBUF)%nat →
  ∃ i s' b, bread ROOTDEV n (World h k s) = Done i (World h k s') ∧ bufs s' !! i = Some b ∧
    data b = cV C n ∧ valid b = true ∧ owner b = Some m ∧ dev b = ROOTDEV ∧ blockno b = n ∧
    (∀ j c, bufs s' !! j = Some c → (j < NBUF)%nat → dev c = ROOTDEV → blockno c = n → j = i) ∧
    bio m s' (C <| cR ::= <[n := rc C n + 1]> |> <| cH ::= <[n := i]> |>).
Proof.
  intros HB Hn Hh Hav. destruct (proj1 (wp_done _ _ _) (cache_bread s C n h k HB Hn Hh Hav)) as (i & w & Hrun & s' & -> & HB').
  destruct (bio_held m s' _ n i HB') as (o & cs & c & (hd & nx & pv & H & _) & HC & _ & _ & _ & _ & Hc & [Hd Hbn] & Ho & Hv & _ & _ & _ & HVn).
  { apply lookup_insert_eq. }
  destruct (bufs_lookup H i c (cs_lookup i c Hc)) as (b & Eb & Hcb & _). exists i, s', b.
  split; [exact Hrun|]. clear Hrun. rewrite <- Hcb in HVn, Hd, Hbn, Ho, Hv. split_and!; try done.
  intros j x Hx Hj Hdx Hbx. eapply (cc_uniq _ _ HC j i (core x) c n); [|done|done|].
  - pose proof (rp_core _ _ _ _ _ _ _ H) as Hcore. assert (Hcx : (cs ++ [hd]) !! j = Some (core x)) by (rewrite <- Hcore, list_lookup_fmap, Hx; done).
    rewrite lookup_app_l in Hcx by (by rewrite (cc_len _ _ HC)). done.
  - rewrite <- Hcb. done.
Qed.
Lemma bread_coherent_witness :
  ∃ i s' b, bread ROOTDEV 41 (World [] [] (booted {[41 := st32 ∅ 0 7]})) = Done i (World [] [] s') ∧ bufs s' !! i = Some b ∧
    data b = st32 ∅ 0 7 ∧ owner b = Some 1.
Proof.
  destruct (bread_coherent 1 (booted {[41 := st32 ∅ 0 7]}) (mkCache (blk {[41 := st32 ∅ 0 7]}) {[41 := st32 ∅ 0 7]} [] ∅ ∅) 41 [] [])
    as (i & s' & b & Hrun & Hb & Hd & _ & Ho & _).
  - apply booted_bio.
  - reflexivity.
  - apply not_elem_of_nil.
  - right. cbn [cR]. rewrite map_size_empty. unfold NBUF. lia.
  - exists i, s', b. split; [exact Hrun|]. split; [exact Hb|]. split; [exact Hd|exact Ho].
Defined.
