(* ===== verification/LogSpec.v ===== *)
(** * What the log does: kernel/log.c over the cache interface *)
From S2P Require Import Prelude Param CString Mem Bio BioSpec Cache Log.

(** ** Lists of disk writes *)
Definition apply_ws (D : disk) (ws : list (Z * block)) : disk := foldl (λ d w, <[w.1 := w.2]> d) D ws.
Definition apply_V (V : Z → block) (ws : list (Z * block)) : Z → block := foldl (λ V w, updV V w.1 w.2) V ws.
Lemma apply_ws_app D ws ws' : apply_ws D (ws ++ ws') = apply_ws (apply_ws D ws) ws'.
Proof. apply foldl_app. Qed.
Lemma apply_ws_out ws : ∀ D x, x ∉ ws.*1 → blk (apply_ws D ws) x = blk D x.
Proof.
  induction ws as [|[n y] ws IH]; intros D x Hx; [done|]. cbn. rewrite IH by set_solver.
  unfold blk. rewrite lookup_insert_ne; [done|]. set_solver.
Qed.
Lemma apply_ws_in ws : ∀ D x y, NoDup ws.*1 → (x, y) ∈ ws → blk (apply_ws D ws) x = y.
Proof.
  induction ws as [|[n z] ws IH]; intros D x y Hnd; [set_solver|]. cbn in *. apply NoDup_cons in Hnd as [Hn Hnd].
  intros [[= -> ->]|Hin]%elem_of_cons; [|by apply IH]. rewrite apply_ws_out by done. unfold blk. by rewrite lookup_insert_eq.
Qed.
Lemma apply_V_out ws : ∀ V x, x ∉ ws.*1 → apply_V V ws x = V x.
Proof.
  induction ws as [|[n y] ws IH]; intros V x Hx; [done|]. cbn. rewrite IH by set_solver.
  unfold updV. cbn. rewrite decide_False; [done|]. set_solver.
Qed.
Lemma apply_V_in ws : ∀ V x y, NoDup ws.*1 → (x, y) ∈ ws → apply_V V ws x = y.
Proof.
  induction ws as [|[n z] ws IH]; intros V x y Hnd; [set_solver|]. cbn in *. apply NoDup_cons in Hnd as [Hn Hnd].
  intros [[= -> ->]|Hin]%elem_of_cons; [|by apply IH]. rewrite apply_V_out by done. unfold updV. by rewrite decide_True.
Qed.
Lemma apply_V_app V ws ws' : apply_V V (ws ++ ws') = apply_V (apply_V V ws) ws'.
Proof. apply foldl_app. Qed.

(** ** Reference counts *)
Lemma unref_ref (R : gmap Z Z) n : (∀ x r, R !! x = Some r → 0 < r) → unref (<[n := default 0 (R !! n) + 1]> R) n = R.
Proof.
  intros HR. unfold unref. rewrite lookup_insert_eq. destruct (R !! n) as [r|] eqn:E; cbn [default from_option id].
  - specialize (HR n r E). rewrite (proj2 (Z.eqb_neq _ 1)) by lia. rewrite insert_insert_eq.
    replace (r + 1 - 1) with r by lia. by apply insert_id.
  - cbn. by rewrite delete_insert_id.
Qed.
Lemma unref_other (R : gmap Z Z) n x v : x ≠ n → unref (<[x := v]> R) n = <[x := v]> (unref R n).
Proof.
  intros Hx. unfold unref. rewrite lookup_insert_ne by done. destruct (R !! n) as [r|]; [|done].
  destruct (r =? 1); [by rewrite delete_insert_ne|by rewrite insert_insert_ne].
Qed.
Lemma unref_lookup_ne (R : gmap Z Z) n x : x ≠ n → unref R n !! x = R !! x.
Proof.
  intros Hx. unfold unref. destruct (R !! n) as [r|]; [|done].
  destruct (r =? 1); [by rewrite lookup_delete_ne|by rewrite lookup_insert_ne].
Qed.
Lemma unref_pos (R : gmap Z Z) n : (∀ x r, R !! x = Some r → 0 < r) → ∀ x r, unref R n !! x = Some r → 0 < r.
Proof.
  intros HR x r. destruct (decide (x = n)) as [->|Hx]; [|rewrite unref_lookup_ne by done; apply HR].
  unfold unref. destruct (R !! n) as [v|] eqn:E; [|congruence]. specialize (HR _ _ E).
  destruct (Z.eqb_spec v 1); [by rewrite lookup_delete_eq|]. rewrite lookup_insert_eq. intros [= <-]. lia.
Qed.
Lemma unref_size (R : gmap Z Z) n : (size (unref R n) ≤ size R)%nat.
Proof.
  unfold unref. destruct (R !! n) as [r|] eqn:E; [|done].
  destruct (r =? 1); [rewrite map_size_delete_Some; [lia|done]|rewrite map_size_insert_Some; [done|by eexists]].
Qed.

Section log.
Context {R : bsys → cache → Prop} `{!BufferCache R}.
Context {h : list lock} (Hh : bcache_lock ∉ h).

Definition LS (s : lsys) (C : cache) (L : log) : Prop := R (bs s) C ∧ lg s = L.
Lemma wp_lift {A B} (m : M bsys A) (K : A → M lsys B) Ψ Φ s k :
  wp m Ψ (World h k (bs s)) →
  (∀ a w', Ψ a w' → wp (K a) Φ (World (held w') (wakes w') (s <| bs := st w' |>))) →
  wp (bind (lift m) K) Φ (World h k s).
Proof.
  intros Hm HK. unfold wp, bind, lift, zoom in *. cbn [held wakes st]. destruct (m _) as [a w'| | | |]; try done.
  by apply HK.
Qed.
Lemma wp_getl {A B} (f : log → A) (K : A → M lsys B) Φ s C L k : LS s C L →
  wp (K (f L)) Φ (World h k s) → wp (bind (getl f) K) Φ (World h k s).
Proof. intros [_ <-] HK. by apply wp_bind, wp_gets. Qed.
Lemma wp_get_block {B} (K : Z → M lsys B) Φ s C L k i v : LS s C L → lh_block (lh L) !! i = Some v →
  wp (K v) Φ (World h k s) → wp (bind (get_block i) K) Φ (World h k s).
Proof. intros [_ <-] Hv HK. apply wp_bind, wp_bind, wp_gets. cbn [st]. rewrite Hv. by apply wp_ret. Qed.

Section ops.
Context {V : Z → block} {D : disk} {W : list (Z * block)} {Rf : gmap Z Z} {H : gmap Z nat} {L : log} {s : lsys}.
Context (HL : LS s (mkCache V D W Rf H) L) {B : Type} (Φ : B → world lsys → Prop) {k : list chan} (n : Z).

Lemma wp_bread (K : nat → M lsys B) : H !! n = None → is_Some (Rf !! n) ∨ (size Rf < NBUF)%nat →
  (∀ i s', LS s' (mkCache V D W (<[n := default 0 (Rf !! n) + 1]> Rf) (<[n := i]> H)) L → wp (K i) Φ (World h k s')) →
  wp (bind (lift (bread ROOTDEV n)) K) Φ (World h k s).
Proof.
  intros Hn Hav HK. destruct HL as [HR HLg].
  eapply wp_lift; [by apply (cache_bread (bs s) _ n h k HR)|]. intros i w' (s' & -> & HR'). by apply HK.
Qed.
Lemma wp_get (K : buf → M lsys B) i : H !! n = Some i →
  (∀ b, data b = V n → blockno b = n → wp (K b) Φ (World h k s)) → wp (bind (lift (getb i)) K) Φ (World h k s).
Proof.
  intros Hn HK. destruct HL as [HR HLg]. eapply wp_lift; [by apply (cache_get (bs s) _ n i h k HR)|].
  intros b w' (-> & Hd & Hb). cbn [held wakes st]. destruct s. by apply HK.
Qed.
Lemma wp_set_data (K : M lsys B) i f : H !! n = Some i →
  (∀ s', LS s' (mkCache (updV V n (f (V n))) D W Rf H) L → wp K Φ (World h k s')) →
  wp (set_data i f;; K) Φ (World h k s).
Proof.
  intros Hn HK. destruct HL as [HR HLg]. eapply wp_lift; [by apply (cache_set (bs s) _ n i f h k HR)|].
  intros _ w' (s' & -> & HR'). by apply HK.
Qed.
Lemma wp_bwrite (K : M lsys B) i : H !! n = Some i →
  (∀ s', LS s' (mkCache V (<[n := V n]> D) (W ++ [(n, V n)]) Rf H) L → wp K Φ (World h k s')) →
  wp (lift (bwrite i);; K) Φ (World h k s).
Proof.
  intros Hn HK. destruct HL as [HR HLg]. eapply wp_lift; [by apply (cache_bwrite (bs s) _ n i h k HR)|].
  intros _ w' (s' & -> & HR'). by apply HK.
Qed.
Lemma wp_brelse (K : M lsys B) i : H !! n = Some i → (default 0 (Rf !! n) = 1 → V n = blk D n) →
  (∀ s' k', LS s' (mkCache V D W (unref Rf n) (delete n H)) L → wp K Φ (World h k' s')) →
  wp (lift (brelse i);; K) Φ (World h k s).
Proof.
  intros Hn Hc HK. destruct HL as [HR HLg]. eapply wp_lift; [by apply (cache_brelse (bs s) _ n i h k HR)|].
  intros _ w' (s' & -> & HR'). by apply HK.
Qed.
Lemma wp_bunpin (K : M lsys B) i : H !! n = Some i → 1 < default 0 (Rf !! n) →
  (∀ s', LS s' (mkCache V D W (unref Rf n) H) L → wp K Φ (World h k s')) → wp (lift (bunpin i);; K) Φ (World h k s).
Proof.
  intros Hn Hc HK. destruct HL as [HR HLg]. eapply wp_lift; [by apply (cache_bunpin (bs s) _ n i h k HR)|].
  intros _ w' (s' & -> & HR'). by apply HK.
Qed.
Lemma wp_bpin (K : M lsys B) i : H !! n = Some i →
  (∀ s', LS s' (mkCache V D W (<[n := default 0 (Rf !! n) + 1]> Rf) H) L → wp K Φ (World h k s')) →
  wp (lift (bpin i);; K) Φ (World h k s).
Proof.
  intros Hn HK. destruct HL as [HR HLg]. eapply wp_lift; [by apply (cache_bpin (bs s) _ n i h k HR)|].
  intros _ w' (s' & -> & HR'). by apply HK.
Qed.
Lemma LS_pos : ∀ x r, Rf !! x = Some r → 0 < r.
Proof. intros x r. apply (cache_count (bs s) (mkCache V D W Rf H) x r). apply HL. Qed.
End ops.

(** ** write_log and install_trans *)
Definition log_block (st : Z) (tail : nat) : Z := st + Z.of_nat tail + 1.
(** The writes of [write_log] and of [install_trans] for the blocks [bl]. *)
Fixpoint log_writes (V : Z → block) (st : Z) (tail : nat) (bl : list Z) : list (Z * block) :=
  match bl with [] => [] | b :: bl => (log_block st tail, V b) :: log_writes V st (S tail) bl end.
Fixpoint home_writes (V : Z → block) (st : Z) (tail : nat) (bl : list Z) : list (Z * block) :=
  match bl with [] => [] | b :: bl => (b, V (log_block st tail)) :: home_writes V st (S tail) bl end.
Lemma log_writes_ext V V' st bl : ∀ tail, (∀ b, b ∈ bl → V' b = V b) → log_writes V' st tail bl = log_writes V st tail bl.
Proof.
  induction bl as [|b bl IH]; intros tail HV; [done|]. cbn. rewrite HV by (by left). f_equal. apply IH. intros. apply HV. by right.
Qed.
Lemma home_writes_ext V V' st bl : ∀ tail, (∀ j, (tail ≤ j < tail + length bl)%nat → V' (log_block st j) = V (log_block st j)) →
  home_writes V' st tail bl = home_writes V st tail bl.
Proof.
  induction bl as [|b bl IH]; intros tail HV; [done|]. cbn in *. rewrite HV by lia. f_equal. apply IH. intros. apply HV. lia.
Qed.
(** The blocks of a transaction: distinct, and outside the log. *)
Definition outside (st : Z) (bl : list Z) (tail : nat) : Prop :=
  ∀ b j, b ∈ bl → (tail ≤ j < tail + length bl)%nat → b ≠ log_block st j.
Definition listed (L : log) (tail : nat) (bl : list Z) : Prop :=
  ∀ i b, bl !! i = Some b → lh_block (lh L) !! (tail + i)%nat = Some b.
Lemma outside_tl st b bl tail : outside st (b :: bl) tail → outside st bl (S tail).
Proof. intros HO x j Hx Hj. apply HO; [by right|cbn; lia]. Qed.
Lemma listed_tl L b bl tail : listed L tail (b :: bl) → listed L (S tail) bl.
Proof. intros HO i x Hx. replace (S tail + i)%nat with (tail + S i)%nat by lia. by apply HO. Qed.

Lemma write_log_turn {A} (K : M lsys A) Φ s V D W Rf L k tail a b : LS s (mkCache V D W Rf ∅) L → a ≠ b →
  is_Some (Rf !! b) → (size Rf < NBUF)%nat →
  lh_block (lh L) !! tail = Some b →
  (∀ s' k', LS s' (mkCache (updV V a (V b)) (<[a := V b]> D) (W ++ [(a, V b)]) Rf ∅) L → wp K Φ (World h k' s')) →
  wp (to ← lift (bread ROOTDEV a); bno ← get_block tail; from ← lift (bread ROOTDEV bno);
      copy_data to from;; lift (bwrite to);; lift (brelse from);; lift (brelse to);; K) Φ (World h k s).
Proof.
  intros HL Hab Hpin Hsz Hlb HK. pose proof (LS_pos HL) as Hpos.
  apply (wp_bread HL Φ a); [done|by right|]. intros i s1 H1. apply (wp_get_block _ _ _ _ _ _ _ _ H1 Hlb).
  apply (wp_bread H1 Φ b); [by rewrite lookup_insert_ne|left; by rewrite lookup_insert_ne|]. intros j s2 H2.
  rewrite (lookup_insert_ne Rf a b) in H2 by done.
  assert (HVab : updV V a (V b) a = V b) by (unfold updV; by rewrite decide_True).
  assert (Hga : (<[b := j]> (<[a := i]> ∅) : gmap Z nat) !! a = Some i) by (by rewrite lookup_insert_ne, lookup_insert_eq).
  unfold copy_data. apply wp_bind. apply (wp_get H2 _ b); [by rewrite lookup_insert_eq|]. intros bf Hd _. apply wp_seq_end.
  rewrite Hd. eapply (wp_set_data H2 _ a); [exact Hga|]. intros s3 H3. apply wp_ret.
  apply (wp_bwrite H3 Φ a); [exact Hga|]. intros s4 H4. rewrite HVab in H4.
  apply (wp_brelse H4 Φ b); [by rewrite lookup_insert_eq| |].
  { rewrite lookup_insert_eq. destruct Hpin as [r Hr]. rewrite Hr. cbn. specialize (Hpos _ _ Hr). lia. }
  intros s5 k5 H5. apply (wp_brelse H5 Φ a); [by rewrite lookup_delete_ne, lookup_insert_ne, lookup_insert_eq| |].
  { intros _. rewrite HVab. unfold blk. by rewrite lookup_insert_eq. }
  intros s6 k6 H6. apply HK.
  assert (E1 : unref (<[b := default 0 (Rf !! b) + 1]> (<[a := default 0 (Rf !! a) + 1]> Rf)) b = <[a := default 0 (Rf !! a) + 1]> Rf).
  { pose proof (unref_ref (<[a := default 0 (Rf !! a) + 1]> Rf) b) as HU. rewrite lookup_insert_ne in HU by done. apply HU.
    intros x r [(<- & <-)|[_ Hx]]%lookup_insert_Some; [|eauto]. destruct (Rf !! a) as [v|] eqn:E; cbn; [specialize (Hpos _ _ E)|]; lia. }
  rewrite E1, unref_ref in H6 by done.
  rewrite delete_insert_id, delete_insert_id in H6; [done|done|by rewrite lookup_insert_ne].
Qed.
Lemma write_log_loop_spec Rf L bl : ∀ tail s V D W k, LS s (mkCache V D W Rf ∅) L → ldev L = ROOTDEV → (size Rf < NBUF)%nat →
  listed L tail bl → (∀ b, b ∈ bl → is_Some (Rf !! b)) → outside (start L) bl tail →
  wp (write_log_loop (length bl) tail) (λ _ w', ∃ s' k', w' = World h k' s' ∧
    let ws := log_writes V (start L) tail bl in
    LS s' (mkCache (apply_V V ws) (apply_ws D ws) (W ++ ws) Rf ∅) L) (World h k s).
Proof.
  induction bl as [|b bl IH]; intros tail s V D W k HL Hdev Hsz Hlist Hpin Hout; cbn [write_log_loop length].
  { apply wp_ret. exists s, k. rewrite app_nil_r. done. }
  apply (wp_getl _ _ _ s _ L k HL), (wp_getl _ _ _ s _ L k HL). rewrite Hdev.
  assert (Hb : lh_block (lh L) !! tail = Some b) by (specialize (Hlist 0%nat b eq_refl); by rewrite Nat.add_0_r in Hlist).
  assert (Hab : log_block (start L) tail ≠ b) by (intros E; apply (Hout b tail); [by left|cbn; lia|done]).
  apply (write_log_turn _ _ s V D W Rf L k tail _ b HL Hab); [apply Hpin; by left|done|done|]. intros s1 k1 H1.
  eapply wp_mono; [apply (IH (S tail) s1 _ _ _ k1 H1 Hdev Hsz); [by eapply listed_tl|intros; apply Hpin; by right|by eapply outside_tl]|].
  intros _ w' (s2 & k2 & -> & H2). exists s2, k2. split; [done|]. cbn [log_writes] in *.
  rewrite (log_writes_ext V) in H2.
  - rewrite <- app_assoc in H2. exact H2.
  - intros x Hx. unfold updV. rewrite decide_False; [done|]. intros ->. apply (Hout (log_block (start L) tail) tail); [by right|cbn; lia|done].
Qed.

(** [install_trans] drops the pin of the block unless it recovers. *)
Definition unpin (rec : bool) (Rf : gmap Z Z) (b : Z) : gmap Z Z := if rec then Rf else unref Rf b.
Lemma release_two {A} (K : M lsys A) Φ s V D W Rf L k a b i j :
  LS s (mkCache V D W (<[a := default 0 (Rf !! a) + 1]> Rf) (<[b := j]> (<[a := i]> ∅))) L → a ≠ b →
  (∀ x r, Rf !! x = Some r → 0 < r) → V a = blk D a → V b = blk D b →
  (∀ s' k', LS s' (mkCache V D W (unref Rf b) ∅) L → wp K Φ (World h k' s')) →
  wp (lift (brelse i);; lift (brelse j);; K) Φ (World h k s).
Proof.
  intros HL Hab Hpos Ha Hb HK.
  apply (wp_brelse HL Φ a); [by rewrite lookup_insert_ne, lookup_insert_eq|done|]. intros s1 k1 H1.
  rewrite unref_ref in H1 by done.
  apply (wp_brelse H1 Φ b); [by rewrite lookup_delete_ne, lookup_insert_eq|done|]. intros s2 k2 H2.
  apply HK. rewrite delete_insert_ne in H2 by done. rewrite (delete_insert_id ∅ a) in H2 by done.
  by rewrite delete_insert_id in H2.
Qed.
Lemma install_turn {A} (K : M lsys A) Φ rec s V D W Rf L k tail a b : LS s (mkCache V D W Rf ∅) L → a ≠ b →
  is_Some (Rf !! b) ∨ (rec = true ∧ (S (size Rf) < NBUF)%nat) → (size Rf < NBUF)%nat → V a = blk D a →
  lh_block (lh L) !! tail = Some b →
  (∀ s' k', LS s' (mkCache (updV V b (V a)) (<[b := V a]> D) (W ++ [(b, V a)]) (unpin rec Rf b) ∅) L → wp K Φ (World h k' s')) →
  wp (lbuf ← lift (bread ROOTDEV a); bno ← get_block tail; dbuf ← lift (bread ROOTDEV bno);
      copy_data dbuf lbuf;; lift (bwrite dbuf);; when (negb rec) (lift (bunpin dbuf));;
      lift (brelse lbuf);; lift (brelse dbuf);; K) Φ (World h k s).
Proof.
  intros HL Hab Hpin Hsz Hclean Hlb HK. pose proof (LS_pos HL) as Hpos.
  apply (wp_bread HL Φ a); [done|by right|]. intros i s1 H1. apply (wp_get_block _ _ _ _ _ _ _ _ H1 Hlb).
  apply (wp_bread H1 Φ b); [by rewrite lookup_insert_ne| |].
  { destruct Hpin as [Hpin|[_ Hs]]; [left; by rewrite lookup_insert_ne|right].
    rewrite map_size_insert. destruct (Rf !! a); cbn; lia. }
  intros j s2 H2. rewrite (lookup_insert_ne Rf a b) in H2 by done.
  assert (HVab : updV V b (V a) b = V a) by (unfold updV; by rewrite decide_True).
  assert (HVba : updV V b (V a) a = V a) by (unfold updV; by rewrite decide_False).
  assert (Hga : (<[b := j]> (<[a := i]> ∅) : gmap Z nat) !! a = Some i) by (by rewrite lookup_insert_ne, lookup_insert_eq).
  assert (Hgb : (<[b := j]> (<[a := i]> ∅) : gmap Z nat) !! b = Some j) by apply lookup_insert_eq.
  unfold copy_data. apply wp_bind. apply (wp_get H2 _ a); [exact Hga|]. intros bf Hd _. apply wp_seq_end.
  rewrite Hd. eapply (wp_set_data H2 _ b); [exact Hgb|]. intros s3 H3. apply wp_ret.
  apply (wp_bwrite H3 Φ b); [exact Hgb|]. intros s4 H4. rewrite HVab in H4.
  set (Rb := <[b := default 0 (Rf !! b) + 1]> Rf) in *.
  assert (HRb : <[b := default 0 (Rf !! b) + 1]> (<[a := default 0 (Rf !! a) + 1]> Rf) = <[a := default 0 (Rb !! a) + 1]> Rb).
  { unfold Rb. rewrite (lookup_insert_ne Rf b a) by done. by rewrite insert_insert_ne. }
  rewrite HRb in H4.
  assert (HRbpos : ∀ x r, Rb !! x = Some r → 0 < r).
  { intros x r [(<- & <-)|[_ Hx]]%lookup_insert_Some; [|eauto]. destruct (Rf !! b) as [v|] eqn:E; cbn; [specialize (Hpos _ _ E)|]; lia. }
  assert (Eun : unref (unpin rec Rb b) b = unpin rec Rf b) by (destruct rec; cbn; unfold Rb; by rewrite unref_ref).
  assert (HG : ∀ s5, LS s5 (mkCache (updV V b (V a)) (<[b := V a]> D) (W ++ [(b, V a)])
      (<[a := default 0 (unpin rec Rb b !! a) + 1]> (unpin rec Rb b)) (<[b := j]> (<[a := i]> ∅))) L →
      wp (lift (brelse i);; lift (brelse j);; K) Φ (World h k s5)).
  { intros s5 H5. eapply (release_two _ Φ s5 _ _ _ _ L k a b i j H5); [done|by destruct rec; [|apply unref_pos]| | |].
    - rewrite HVba, Hclean. unfold blk. by rewrite lookup_insert_ne.
    - rewrite HVab. unfold blk. by rewrite lookup_insert_eq.
    - rewrite Eun. apply HK. }
  destruct rec; cbn [negb when unpin] in *; [apply wp_bind, wp_ret; by apply HG|].
    apply (wp_bunpin H4 Φ b); [exact Hgb| |].
    { rewrite lookup_insert_ne by done. unfold Rb. rewrite lookup_insert_eq.
      destruct Hpin as [[r Hr]|[? _]]; [|done]. rewrite Hr. cbn. specialize (Hpos _ _ Hr). lia. }
    intros s5 H5. apply HG. rewrite unref_other in H5 by done. by rewrite unref_lookup_ne by done.
Qed.
Lemma unpin_lookup rec Rf b x : x ≠ b → unpin rec Rf b !! x = Rf !! x.
Proof. destruct rec; [done|apply unref_lookup_ne]. Qed.
Lemma unpin_size rec Rf b : (size (unpin rec Rf b) ≤ size Rf)%nat.
Proof. destruct rec; [done|apply unref_size]. Qed.
Lemma foldl_unpin_size rec bl : ∀ Rf, (size (foldl (unpin rec) Rf bl) ≤ size Rf)%nat.
Proof. induction bl as [|b bl IH]; intros Rf; [done|]. cbn. etrans; [apply IH|apply unpin_size]. Qed.
Lemma install_loop_spec rec L bl : ∀ tail s V D W Rf k, LS s (mkCache V D W Rf ∅) L → ldev L = ROOTDEV →
  (size Rf < NBUF)%nat → (∀ b, b ∈ bl → is_Some (Rf !! b)) ∨ (rec = true ∧ (S (size Rf) < NBUF)%nat) →
  listed L tail bl → NoDup bl → outside (start L) bl tail →
  (∀ j, (tail ≤ j < tail + length bl)%nat → V (log_block (start L) j) = blk D (log_block (start L) j)) →
  wp (install_trans_loop (length bl) tail rec) (λ _ w', ∃ s' k', w' = World h k' s' ∧
    let ws := home_writes V (start L) tail bl in
    LS s' (mkCache (apply_V V ws) (apply_ws D ws) (W ++ ws) (foldl (unpin rec) Rf bl) ∅) L) (World h k s).
Proof.
  induction bl as [|b bl IH]; intros tail s V D W Rf k HL Hdev Hsz Hpin Hlist Hnd Hout Hclean; cbn [install_trans_loop length].
  { apply wp_ret. exists s, k. rewrite app_nil_r. done. }
  apply (wp_getl _ _ _ s _ L k HL), (wp_getl _ _ _ s _ L k HL). rewrite Hdev. apply NoDup_cons in Hnd as [Hnb Hnd].
  assert (Hb : lh_block (lh L) !! tail = Some b) by (specialize (Hlist 0%nat b eq_refl); by rewrite Nat.add_0_r in Hlist).
  assert (Hab : ∀ j, (tail ≤ j < tail + length (b :: bl))%nat → log_block (start L) j ≠ b) by (intros j Hj E; apply (Hout b j); [by left|done|done]).
  assert (Hupd : ∀ x j, (tail ≤ j < tail + length (b :: bl))%nat → updV V b x (log_block (start L) j) = V (log_block (start L) j))
    by (intros x j Hj; unfold updV; rewrite decide_False; [done|by apply Hab]).
  apply (install_turn _ _ rec s V D W Rf L k tail _ b HL); [apply Hab; cbn; lia| |done|apply Hclean; cbn; lia|done|].
  { destruct Hpin as [Hp|?]; [left; apply Hp; by left|by right]. }
  intros s1 k1 H1. eapply wp_mono; [apply (IH (S tail) s1 _ _ _ _ k1 H1 Hdev)|].
  - pose proof (unpin_size rec Rf b). lia.
  - pose proof (unpin_size rec Rf b). destruct Hpin as [Hp|[? ?]]; [left|right; split; [done|lia]].
    intros x Hx. rewrite unpin_lookup by (intros ->; done). apply Hp. by right.
  - by eapply listed_tl.
  - done.
  - by eapply outside_tl.
  - intros j Hj. cbn [length] in *. rewrite Hupd by lia. rewrite Hclean by lia. unfold blk. rewrite lookup_insert_ne; [done|].
    intros E. by apply (Hab j); [lia|].
  - intros _ w' (s2 & k2 & -> & H2). exists s2, k2. split; [done|]. cbn [home_writes] in *.
    rewrite (home_writes_ext V) in H2 by (intros j Hj; apply Hupd; cbn [length]; lia). rewrite <- app_assoc in H2. exact H2.
Qed.

(** ** The header block *)
Fixpoint put_blocks (m : block) (i : nat) (bl : list Z) : block :=
  match bl with [] => m | b :: bl => put_blocks (st32 m (4 + 4 * Z.of_nat i) b) (S i) bl end.
Definition head_of (m : block) (bl : list Z) : block := put_blocks (st32 m 0 (Z.of_nat (length bl))) 0 bl.
Lemma put_blocks_other bl : ∀ m i a, a + 4 ≤ 4 + 4 * Z.of_nat i → ld32 (put_blocks m i bl) a = ld32 m a.
Proof.
  induction bl as [|b bl IH]; intros m i a Ha; [done|]. cbn [put_blocks]. rewrite IH by lia. apply ld_sto_other. lia.
Qed.
Lemma put_blocks_nth bl : ∀ m i j b, bl !! j = Some b → 0 ≤ b < 2 ^ 32 → ld32 (put_blocks m i bl) (4 + 4 * Z.of_nat (i + j)) = b.
Proof.
  induction bl as [|x bl IH]; intros m i [|j] b Hb Hr; try done; cbn [put_blocks]; cbn in Hb.
  - injection Hb as ->. rewrite Nat.add_0_r, put_blocks_other by lia. by apply ld32_st32.
  - replace (i + S j)%nat with (S i + j)%nat by lia. by apply IH.
Qed.
Definition fits (bl : list Z) : Prop := Z.of_nat (length bl) < 2 ^ 31 ∧ Forall (λ b, 0 ≤ b < 2 ^ 32) bl.
(** A header read back is the header written. *)
Lemma head_roundtrip m bl : fits bl → i32 (ld32 (head_of m bl) 0) = Z.of_nat (length bl) ∧
  ∀ j b, bl !! j = Some b → ld32 (head_of m bl) (4 + 4 * Z.of_nat j) = b.
Proof.
  intros [Hl Hb]. unfold head_of. split.
  - rewrite put_blocks_other, ld32_st32 by lia. apply i32_small. lia.
  - intros j b Hj. apply (put_blocks_nth bl _ 0 j b Hj). by eapply Forall_lookup_1 in Hb.
Qed.

Lemma LS_ext s V V' D W Rf H L : LS s (mkCache V D W Rf H) L → (∀ n, V' n = V n) → LS s (mkCache V' D W Rf H) L.
Proof. intros [HR HL] HV. split; [|done]. exact (cache_ext _ _ V' HR HV). Qed.
Lemma updV_eq V n x : updV V n x n = x.
Proof. unfold updV. by rewrite decide_True. Qed.
Lemma updV_ne V n x m : m ≠ n → updV V n x m = V m.
Proof. intros. unfold updV. by rewrite decide_False. Qed.
Lemma updV_updV V n x y m : updV (updV V n x) n y m = updV V n y m.
Proof. unfold updV. by case_decide. Qed.
Lemma write_blocks_spec Φ D W Rf H L n buf bl : H !! n = Some buf →
  ∀ i s V k, LS s (mkCache V D W Rf H) L → listed L i bl →
  (∀ s', LS s' (mkCache (updV V n (put_blocks (V n) i bl)) D W Rf H) L → Φ () (World h k s')) →
  wp (write_blocks (length bl) i buf) Φ (World h k s).
Proof.
  intros Hn. induction bl as [|b bl IH]; intros i s V k HL Hlist HK; cbn [write_blocks length].
  { apply wp_ret, HK. cbn. eapply LS_ext; [exact HL|]. intros x. unfold updV. case_decide; congruence. }
  eapply wp_get_block; [exact HL|specialize (Hlist 0%nat b eq_refl); by rewrite Nat.add_0_r in Hlist|].
  eapply (wp_set_data HL _ n); [done|]. intros s1 H1. apply (IH (S i) s1 _ k H1); [by eapply listed_tl|].
  intros s2 H2. apply HK. eapply LS_ext; [exact H2|]. intros x. rewrite updV_updV, updV_eq. done.
Qed.
Lemma write_head_spec s V D W Rf L bl k : LS s (mkCache V D W Rf ∅) L → ldev L = ROOTDEV → (size Rf < NBUF)%nat →
  lh_n (lh L) = Z.of_nat (length bl) → listed L 0 bl →
  wp write_head (λ _ w', ∃ s' k', w' = World h k' s' ∧ let x := head_of (V (start L)) bl in
    LS s' (mkCache (updV V (start L) x) (<[start L := x]> D) (W ++ [(start L, x)]) Rf ∅) L) (World h k s).
Proof.
  intros HL Hdev Hsz Hn Hlist. unfold write_head. set (x := head_of _ _). pose proof (LS_pos HL) as Hpos.
  apply (wp_getl _ _ _ s _ L k HL), (wp_getl _ _ _ s _ L k HL). rewrite Hdev.
  apply (wp_bread HL _ (start L)); [done|by right|]. intros buf s1 H1. apply (wp_getl _ _ _ s1 _ L k H1). rewrite Hn, Nat2Z.id.
  eapply (wp_set_data H1 _ (start L)); [apply lookup_insert_eq|]. intros s2 H2.
  apply wp_bind. eapply (write_blocks_spec _ _ _ _ _ L (start L)); [apply lookup_insert_eq|exact H2|done|]. intros s3 H3.
  rewrite updV_eq in H3. apply (LS_ext _ _ (updV V (start L) x)) in H3; [|intros; by rewrite updV_updV].
  apply (wp_bwrite H3 _ (start L)); [apply lookup_insert_eq|]. intros s4 H4. rewrite updV_eq in H4.
  apply wp_seq_end. apply (wp_brelse H4 _ (start L)); [apply lookup_insert_eq| |].
  { intros _. rewrite updV_eq. unfold blk. by rewrite lookup_insert_eq. }
  intros s5 k5 H5. apply wp_ret. exists s5, k5. split; [done|]. rewrite unref_ref, delete_insert_id in H5; done.
Qed.

Lemma wp_setl {B} (K : M lsys B) f Φ s C L k : LS s C L →
  (∀ s', LS s' C (f L) → wp K Φ (World h k s')) → wp (setl f;; K) Φ (World h k s).
Proof. intros [HR <-] HK. apply wp_bind, wp_modify, HK. split; [done|]. by destruct s. Qed.

(** ** commit *)
Definition home_list (V : Z → block) (bl : list Z) : list (Z * block) := (λ b, (b, V b)) <$> bl.
Lemma home_writes_list V U st bl : ∀ tail, (∀ i b, bl !! i = Some b → V (log_block st (tail + i)) = U b) →
  home_writes V st tail bl = home_list U bl.
Proof.
  induction bl as [|b bl IH]; intros tail HV; [done|]. cbn. f_equal.
  - specialize (HV 0%nat b eq_refl). rewrite Nat.add_0_r in HV. by rewrite HV.
  - apply IH. intros i x Hx. specialize (HV (S i) x Hx). by rewrite <- HV, Nat.add_succ_r.
Qed.
Lemma home_writes_fst V st bl : ∀ tail, (home_writes V st tail bl).*1 = bl.
Proof. induction bl as [|b bl IH]; intros tail; [done|]. cbn. by rewrite IH. Qed.
Lemma log_block_inj st i j : log_block st i = log_block st j → i = j.
Proof. unfold log_block. lia. Qed.
Lemma log_writes_fst V st bl : ∀ tail a, a ∈ (log_writes V st tail bl).*1 ↔
  ∃ j, (tail ≤ j < tail + length bl)%nat ∧ a = log_block st j.
Proof.
  induction bl as [|b bl IH]; intros tail a; cbn; [split; [by intros ?%elem_of_nil|clear; intros (j & ? & _); lia]|clear BufferCache0 Hh R h].
  rewrite elem_of_cons, IH. split.
  - intros [->|(j & Hj & ->)]; [exists tail; split; [lia|done]|exists j; split; [lia|done]].
  - intros (j & Hj & ->). destruct (decide (j = tail)) as [->|]; [by left|right; exists j; split; [lia|done]].
Qed.
Lemma log_writes_nodup V st bl : ∀ tail, NoDup (log_writes V st tail bl).*1.
Proof.
  induction bl as [|b bl IH]; intros tail; cbn; [constructor|]. constructor; [|apply IH].
  rewrite log_writes_fst. intros (j & Hj & E%log_block_inj). lia.
Qed.
Lemma log_writes_in V st bl : ∀ tail i b, bl !! i = Some b → (log_block st (tail + i), V b) ∈ log_writes V st tail bl.
Proof.
  induction bl as [|x bl IH]; intros tail [|i] b Hb; try done; cbn in *.
  - injection Hb as ->. rewrite Nat.add_0_r. by left.
  - right. rewrite <- Nat.add_succ_comm. by apply IH.
Qed.
Lemma home_list_fst V bl : (home_list V bl).*1 = bl.
Proof. unfold home_list. rewrite <- list_fmap_compose. apply list_fmap_id. Qed.

Definition commit_writes (V : Z → block) (st : Z) (bl : list Z) : list (Z * block) :=
  log_writes V st 0 bl ++ [(st, head_of (V st) bl)] ++ home_list V bl ++ [(st, head_of (head_of (V st) bl) [])].
(** A transaction ready to commit: its blocks, in the order of the header. *)
Record ready (L : log) (Rf : gmap Z Z) (bl : list Z) : Prop := {
  r_dev : ldev L = ROOTDEV;
  r_n : lh_n (lh L) = Z.of_nat (length bl);
  r_listed : listed L 0 bl;
  r_nodup : NoDup bl;
  r_outside : outside (start L) bl 0;
  r_start : start L ∉ bl;
  r_pins : ∀ b, b ∈ bl → is_Some (Rf !! b);
  r_size : (size Rf < NBUF)%nat;
}.
Lemma commit_spec s V D W Rf L bl k : LS s (mkCache V D W Rf ∅) L → ready L Rf bl → bl ≠ [] →
  wp commit (λ _ w', ∃ s' k' V', w' = World h k' s' ∧ let ws := commit_writes V (start L) bl in
    LS s' (mkCache V' (apply_ws D ws) (W ++ ws) (foldl unref Rf bl) ∅) (L <| lh ::= λ h, h <| lh_n := 0 |> |>)) (World h k s).
Proof.
  intros HL [Hdev Hn Hlist Hnd Hout Hst Hpin Hsz] Hne. unfold commit. apply (wp_getl _ _ _ s _ L k HL). rewrite Hn.
  assert (Z.of_nat (length bl) > 0) by (destruct bl; [done|cbn; lia]).
  apply wp_when. rewrite (proj2 (Z.ltb_lt _ _)) by lia.
  unfold write_log. apply wp_bind. apply (wp_getl _ _ _ s _ L k HL). rewrite Hn, Nat2Z.id.
  eapply wp_mono; [by apply (write_log_loop_spec Rf L bl 0 s V D W k)|]. intros _ w' (s1 & k1 & -> & H1). cbv zeta in H1.
  set (ws1 := log_writes V (start L) 0 bl) in *.
  assert (HV1 : apply_V V ws1 (start L) = V (start L)).
  { apply apply_V_out. unfold ws1. rewrite log_writes_fst. intros (j & _ & E). unfold log_block in E. lia. }
  apply wp_bind. eapply wp_mono; [by apply (write_head_spec s1 _ _ _ _ L bl k1 H1)|]. intros _ w' (s2 & k2 & -> & H2).
  cbv zeta in H2. rewrite HV1 in H2. set (h1 := head_of (V (start L)) bl) in *.
  assert (HV2 : ∀ i b, bl !! i = Some b → updV (apply_V V ws1) (start L) h1 (log_block (start L) (0 + i)) = V b).
  { intros i b Hb. rewrite updV_ne by (unfold log_block; lia). apply apply_V_in; [apply log_writes_nodup|]. by apply log_writes_in. }
  unfold install_trans. apply wp_bind. apply (wp_getl _ _ _ s2 _ L k2 H2). rewrite Hn, Nat2Z.id.
  eapply wp_mono; [apply (install_loop_spec false L bl 0 s2 _ _ _ _ k2 H2 Hdev Hsz (or_introl Hpin) Hlist Hnd Hout)|].
  { intros j Hj. destruct (lookup_lt_is_Some_2 bl j) as [b Hb]; [lia|]. etrans; [exact (HV2 j b Hb)|].
    unfold blk. rewrite lookup_insert_ne by (unfold log_block; lia). symmetry.
    apply apply_ws_in; [apply log_writes_nodup|]. by apply (log_writes_in V (start L) bl 0). }
  intros _ w' (s3 & k3 & -> & H3). cbv zeta in H3. rewrite (home_writes_list _ V (start L) bl 0) in H3 by exact HV2.
  apply (wp_setl _ _ _ s3 _ L k3 H3). intros s4 H4.
  eapply wp_mono; [apply (write_head_spec s4 _ _ _ _ _ [] k3 H4)|].
  - done.
  - eapply Nat.le_lt_trans; [apply foldl_unpin_size|done].
  - done.
  - intros i b Hb. done.
  - intros _ w' (s5 & k5 & -> & H5). cbv zeta in H5. eexists s5, k5, _. split; [done|].
    change (start (L <| lh ::= _ |>)) with (start L) in H5.
    rewrite (apply_V_out (home_list V bl)), updV_eq in H5 by (by rewrite home_list_fst).
    unfold commit_writes. rewrite !apply_ws_app, !app_assoc. exact H5.
Qed.

(** ** Recovery *)
(** The header block [m] names the blocks [bl]. *)
Definition header (m : block) (bl : list Z) : Prop :=
  i32 (ld32 m 0) = Z.of_nat (length bl) ∧ ∀ j b, bl !! j = Some b → ld32 m (4 + 4 * Z.of_nat j) = b.
Fixpoint lay (i : nat) (bl : list Z) (l : list Z) : list Z :=
  match bl with [] => l | b :: bl => lay (S i) bl (<[i := b]> l) end.
Lemma lay_lt bl : ∀ i l j, (j < i)%nat → lay i bl l !! j = l !! j.
Proof. induction bl as [|b bl IH]; intros i l j Hj; [done|]. cbn. rewrite IH by lia. apply list_lookup_insert_ne. lia. Qed.
Lemma lay_nth bl : ∀ i l j b, (i + length bl ≤ length l)%nat → bl !! j = Some b → lay i bl l !! (i + j)%nat = Some b.
Proof.
  induction bl as [|x bl IH]; intros i l [|j] b Hlen Hb; try done; cbn [length] in Hlen; cbn in *.
  - injection Hb as ->. rewrite Nat.add_0_r, lay_lt by lia. apply list_lookup_insert_eq. lia.
  - rewrite <- Nat.add_succ_comm. apply IH; [rewrite length_insert; lia|done].
Qed.
Lemma lay_length bl : ∀ i l, length (lay i bl l) = length l.
Proof. induction bl as [|b bl IH]; intros i l; [done|]. cbn. by rewrite IH, length_insert. Qed.
Lemma wp_set_block {B} (K : M lsys B) i v Φ s C L k : LS s C L → (i < length (lh_block (lh L)))%nat →
  (∀ s', LS s' C (L <| lh ::= λ h, h <| lh_block ::= <[i := v]> |> |>) → wp K Φ (World h k s')) →
  wp (set_block i v;; K) Φ (World h k s).
Proof.
  intros HL [x Hx]%lookup_lt_is_Some_2 HK. apply wp_bind. eapply wp_get_block; [exact HL|exact Hx|].
  apply wp_seq_end, (wp_setl _ _ _ _ C L k HL). intros s' H'. apply wp_ret, HK, H'.
Qed.
Lemma read_blocks_spec Φ V D W Rf H n buf bl : H !! n = Some buf →
  ∀ i s L k, LS s (mkCache V D W Rf H) L → (i + length bl ≤ length (lh_block (lh L)))%nat →
  (∀ j b, bl !! j = Some b → ld32 (V n) (4 + 4 * Z.of_nat (i + j)) = b) →
  (∀ s', LS s' (mkCache V D W Rf H) (L <| lh ::= λ h, h <| lh_block ::= lay i bl |> |>) → Φ () (World h k s')) →
  wp (read_blocks (length bl) i buf) Φ (World h k s).
Proof.
  intros Hn. induction bl as [|b bl IH]; intros i s L k HL Hlen Hld HK; cbn [read_blocks length].
  { apply wp_ret, HK. cbn. destruct L as [? ? ? ? ? []]. exact HL. }
  cbn [length] in Hlen. eapply (wp_get HL _ n); [done|]. intros bf Hd _. rewrite Hd.
  specialize (Hld 0%nat b eq_refl) as Hb. rewrite Nat.add_0_r in Hb. rewrite Hb.
  apply (wp_set_block _ _ _ _ _ _ L k HL); [lia|]. intros s1 H1. apply (IH (S i) s1 _ k H1).
  - cbn. rewrite length_insert. lia.
  - intros j x Hx. specialize (Hld (S j) x Hx). by rewrite <- Hld, Nat.add_succ_r.
  - intros s2 H2. apply HK. destruct L as [? ? ? ? ? []]. exact H2.
Qed.
Definition recovery_writes (D : disk) (st : Z) (bl : list Z) : list (Z * block) :=
  home_writes (blk D) st 0 bl ++ [(st, head_of (blk D st) [])].
Lemma read_head_spec s D W L bl k : LS s (mkCache (blk D) D W ∅ ∅) L → ldev L = ROOTDEV →
  (length bl ≤ length (lh_block (lh L)))%nat → header (blk D (start L)) bl →
  wp read_head (λ _ w', ∃ s' k', w' = World h k' s' ∧ LS s' (mkCache (blk D) D W ∅ ∅)
    (L <| lh := mkLh (Z.of_nat (length bl)) (lay 0 bl (lh_block (lh L))) |>)) (World h k s).
Proof.
  intros HL Hdev Hlen [Hn Hld]. unfold read_head.
  apply (wp_getl _ _ _ s _ L k HL), (wp_getl _ _ _ s _ L k HL). rewrite Hdev.
  apply (wp_bread HL _ (start L)); [done|right; rewrite map_size_empty; unfold NBUF; lia|]. intros buf s1 H1.
  apply (wp_get H1 _ (start L)); [apply lookup_insert_eq|]. intros bf Hd _. rewrite Hd, Hn.
  apply (wp_setl _ _ _ _ _ _ _ H1). intros s2 H2. apply (wp_getl _ _ _ _ _ _ _ H2).
  cbn [lh lh_n set_field]. rewrite Nat2Z.id. apply wp_bind.
  eapply (read_blocks_spec _ _ _ _ _ _ (start L)); [apply lookup_insert_eq|exact H2|done|exact Hld|]. intros s3 H3.
  apply wp_seq_end, (wp_brelse H3 _ (start L)); [apply lookup_insert_eq|done|]. intros s4 k4 H4. apply wp_ret.
  exists s4, k4. split; [done|]. rewrite unref_ref, delete_insert_id in H4 by done. exact H4.
Qed.
Lemma recover_spec s D W L bl k : LS s (mkCache (blk D) D W ∅ ∅) L → ldev L = ROOTDEV →
  (length bl ≤ length (lh_block (lh L)))%nat → header (blk D (start L)) bl → NoDup bl → outside (start L) bl 0 → start L ∉ bl →
  wp recover_from_log (λ _ w', ∃ s' k' V', w' = World h k' s' ∧ let ws := recovery_writes D (start L) bl in
    LS s' (mkCache V' (apply_ws D ws) (W ++ ws) ∅ ∅) (L <| lh := mkLh 0 (lay 0 bl (lh_block (lh L))) |>)) (World h k s).
Proof.
  intros HL Hdev Hlen Hh1 Hnd Hout Hst. unfold recover_from_log.
  apply wp_bind. eapply wp_mono; [by apply (read_head_spec s D W L bl k HL Hdev)|]. intros _ w' (s1 & k1 & -> & H1).
  set (L1 := L <| lh := _ |>) in H1. unfold install_trans. apply wp_bind. apply (wp_getl _ _ _ _ _ _ _ H1).
  change (lh_n (lh L1)) with (Z.of_nat (length bl)). rewrite Nat2Z.id.
  eapply wp_mono; [apply (install_loop_spec true L1 bl 0 s1 _ _ _ _ k1 H1 Hdev); [..|done|done|done]|].
  - rewrite map_size_empty. unfold NBUF. lia.
  - right. split; [done|]. rewrite map_size_empty. unfold NBUF. lia.
  - intros i b Hb. by apply lay_nth.
  - intros _ w' (s2 & k2 & -> & H2). cbv zeta in H2. change (start L1) with (start L) in H2.
    set (ws := home_writes _ _ _ _) in H2.
    assert (Hsame : foldl (unpin true) (∅ : gmap Z Z) bl = ∅) by (clear; induction bl; [done|]; by cbn).
    rewrite Hsame in H2. apply (wp_setl _ _ _ _ _ _ _ H2). intros s3 H3.
    eapply wp_mono; [apply (write_head_spec s3 _ _ _ _ _ [] k2 H3)|]; [done|rewrite map_size_empty; unfold NBUF; lia|done|done|].
    intros _ w' (s4 & k4 & -> & H4). cbv zeta in H4. eexists s4, k4, _. split; [done|].
    change (start (L1 <| lh ::= _ |>)) with (start L) in H4.
    rewrite apply_V_out in H4; [|unfold ws; by rewrite home_writes_fst].
    unfold recovery_writes. rewrite apply_ws_app, app_assoc. exact H4.
Qed.
Lemma initlog_spec s V D W L bl st nlog k : LS s (mkCache V D W ∅ ∅) L → length (lh_block (lh L)) = Z.to_nat LOGSIZE →
  header (blk D st) bl → (length bl ≤ Z.to_nat LOGSIZE)%nat → NoDup bl → outside st bl 0 → st ∉ bl →
  wp (initlog ROOTDEV st nlog) (λ _ w', ∃ s' k' V', w' = World h k' s' ∧ let ws := recovery_writes D st bl in
    LS s' (mkCache V' (apply_ws D ws) (W ++ ws) ∅ ∅)
      (mkLog st nlog (outstanding L) (committing L) ROOTDEV (mkLh 0 (lay 0 bl (lh_block (lh L)))))) (World h k s).
Proof.
  intros HL0 Hlen Hhd Hle Hnd Hout Hst.
  assert (HV : ∀ x, V x = blk D x) by (intros x; by apply (cache_clean (bs s) (mkCache V D W ∅ ∅)); [apply HL0|]).
  apply (LS_ext _ _ (blk D)) in HL0; [|intros; by rewrite HV]. clear V HV.
  unfold initlog. apply wp_bind, wp_when. change (4 + 4 * LOGSIZE >=? BSIZE) with false. cbv iota.
  apply (wp_setl _ _ _ _ _ _ _ HL0). intros s1 H1. apply (wp_setl _ _ _ _ _ _ _ H1). intros s2 H2.
  apply (wp_setl _ _ _ _ _ _ _ H2). intros s3 H3. clear HL0 H1 H2. 
  set (L3 := L <| start := _ |> <| log_size := _ |> <| ldev := _ |>) in *.
  eapply wp_mono; [apply (recover_spec s3 D W L3 bl k H3); try done; cbn; lia|].
  intros _ w' (s4 & k4 & V' & -> & H4). exists s4, k4, V'. split; [done|]. exact H4.
Qed.
End log.
