(* ===== verification/LogTx.v ===== *)
(** * Transactions: begin_op, log_write and end_op

    A file-system call brackets its block updates with [begin_op] and [end_op]
    and calls [log_write] in place of [bwrite] (kernel/log.c). *)
From S2P Require Import Prelude Param CString Mem Bio BioSpec Cache Log LogSpec.

(** The log that mkfs makes has LOGSIZE blocks, one of which is the header. *)
Definition log_slots : nat := Z.to_nat LOGSIZE - 1.
(** The disk's data blocks: not the header, not a block of the log. *)
Definition home (st x : Z) : Prop := x ≠ st ∧ ∀ j, (j < log_slots)%nat → x ≠ log_block st j.
(** The header names the blocks [bl], each pinned once and nothing else. *)
Record txn (L : log) (Rf : gmap Z Z) (bl : list Z) : Prop := {
  t_dev : ldev L = ROOTDEV;
  t_n : lh_n (lh L) = Z.of_nat (length bl);
  t_len : length (lh_block (lh L)) = Z.to_nat LOGSIZE;
  t_listed : listed L 0 bl;
  t_nodup : NoDup bl;
  t_home : Forall (home (start L)) bl;
  t_max : (length bl ≤ log_slots)%nat;
  t_pins : ∀ b, Rf !! b = if decide (b ∈ bl) then Some 1 else None;
}.
Lemma txn_outside L Rf bl : txn L Rf bl → outside (start L) bl 0 ∧ start L ∉ bl.
Proof.
  intros HT. pose proof (t_home _ _ _ HT) as Hf. pose proof (t_max _ _ _ HT). rewrite Forall_forall in Hf. split.
  - intros b j Hb Hj. apply Hf in Hb as [_ Hb]. apply Hb. lia.
  - intros [Hs _]%Hf. done.
Qed.
Lemma txn_size L Rf bl : txn L Rf bl → size Rf = length bl.
Proof.
  intros HT. rewrite <- size_dom. pose proof (t_nodup _ _ _ HT) as Hnd.
  rewrite <- (size_list_to_set (C := gset Z) bl Hnd). f_equal. apply leibniz_equiv_iff. intros b.
  rewrite elem_of_dom, (t_pins _ _ _ HT), elem_of_list_to_set. case_decide; split; try done; by intros [].
Qed.
Lemma txn_ready L Rf bl : txn L Rf bl → (length bl < NBUF)%nat → ready L Rf bl.
Proof.
  intros HT Hlt. destruct (txn_outside _ _ _ HT) as [Ho Hs]. pose proof (txn_size _ _ _ HT). destruct HT as [? ? ? ? ? ? ? Hp].
  split; try done; [|lia]. intros b Hb. rewrite Hp, decide_True by done. by eexists.
Qed.

Section tx.
Context {R : bsys → cache → Prop} `{!BufferCache R}.
Context {h : list lock} (Hb : bcache_lock ∉ h) (Hl : log_lock ∉ h).
Implicit Types (s : lsys) (L : log).
Lemma bcache_log : bcache_lock ∉ log_lock :: h.
Proof. intros [?|?]%elem_of_cons; [discriminate|done]. Qed.

Lemma find_block_spec h' C L n bl : ∀ i s k, LS (R := R) s C L → listed L i bl →
  wp (find_block (length bl) i n) (λ r w', w' = World h' k s ∧
    ((∃ j, bl !! j = Some n ∧ r = (i + j)%nat) ∨ (r = (i + length bl)%nat ∧ n ∉ bl))) (World h' k s).
Proof.
  induction bl as [|b bl IH]; intros i s k HL Hlist; cbn [find_block length].
  { apply wp_ret. split; [done|]. right. split; [lia|]. set_solver. }
  eapply wp_get_block; [exact HL|specialize (Hlist 0%nat b eq_refl); by rewrite Nat.add_0_r in Hlist|].
  destruct (Z.eqb_spec b n) as [->|Hne].
  - apply wp_ret. split; [done|]. left. exists 0%nat. split; [done|lia].
  - eapply wp_mono; [apply (IH (S i) s k HL); by eapply listed_tl|].
    intros r w' [-> [(j & Hj & ->)|(-> & Hn)]]; (split; [done|]).
    + left. exists (S j). split; [done|lia].
    + right. split; [lia|]. set_solver.
Qed.
Definition logged (L : log) (bl : list Z) (n : Z) : log :=
  L <| lh := mkLh (Z.of_nat (length bl) + 1) (<[length bl := n]> (lh_block (lh L))) |>.
Lemma log_write_spec {B} (K : M lsys B) Φ s V D W Rf H L bl n i k :
  LS (R := R) s (mkCache V D W Rf H) L → H !! n = Some i → lh_n (lh L) = Z.of_nat (length bl) → listed L 0 bl →
  length (lh_block (lh L)) = Z.to_nat LOGSIZE → Z.of_nat (length bl) < LOGSIZE → Z.of_nat (length bl) < log_size L - 1 → 1 ≤ outstanding L →
  (n ∈ bl → ∀ s', LS (R := R) s' (mkCache V D W Rf H) L → wp K Φ (World h k s')) →
  (n ∉ bl → ∀ s', LS (R := R) s' (mkCache V D W (<[n := default 0 (Rf !! n) + 1]> Rf) H) (logged L bl n) → wp K Φ (World h k s')) →
  wp (log_write i;; K) Φ (World h k s).
Proof.
  intros HL Hn Hlen Hlist Hbl Hmax Hsz Hout Hold Hnew. unfold log_write. apply wp_bind, wp_bind, wp_acquire; [done|].
  apply (wp_getl _ _ _ _ _ _ _ HL). unfold id. rewrite Hlen.
  apply wp_bind, wp_when. rewrite !Z.geb_leb, (proj2 (Z.leb_gt _ _)), (proj2 (Z.leb_gt _ _)) by lia. cbn [orb].
  apply wp_bind, wp_when. rewrite (proj2 (Z.ltb_ge _ _)) by lia.
  eapply (wp_get HL _ n); [exact Hn|]. intros bf _ Hbn. rewrite Hbn, Nat2Z.id.
  apply wp_bind. eapply wp_mono; [apply (find_block_spec (log_lock :: h) _ L n bl 0 s k HL Hlist)|].
  assert (HK : ∀ s' C' L', LS (R := R) s' C' L' → (∀ s', LS (R := R) s' C' L' → wp K Φ (World h k s')) →
    wp (release log_lock) (λ _, wp K Φ) (World (log_lock :: h) k s')).
  { intros s' C' L' H' HK. apply wp_release; [done|]. by apply HK. }
  intros r w' [-> [(j & Hj & ->)|(-> & Hnot)]].
  - assert (Hj' : lh_block (lh L) !! j = Some n) by (by apply Hlist in Hj). pose proof (lookup_lt_Some _ _ _ Hj).
    eapply wp_set_block; [exact HL|by eapply lookup_lt_Some|]. intros s1 H1.
    assert (L <| lh ::= λ h, h <| lh_block ::= <[(0 + j)%nat := n]> |> |> = L) as E.
    { destruct L as [? ? ? ? ? [? l]]. unfold set_field. cbn in *. by rewrite list_insert_id. }
    rewrite E in H1. rewrite (proj2 (Z.eqb_neq _ _)) by lia. cbn [when]. apply wp_bind, wp_ret.
    apply (HK _ _ _ H1). apply Hold. by eapply list_elem_of_lookup_2.
  - eapply wp_set_block; [exact HL|lia|]. intros s1 H1. rewrite Z.eqb_refl. cbn [when]. apply wp_bind.
    apply (wp_bpin bcache_log H1 _ n); [exact Hn|]. intros s2 H2. apply wp_seq_end, (wp_setl _ _ _ _ _ _ _ H2). intros s3 H3.
    apply wp_ret, (HK _ _ _ H3). intros s4 H4. apply Hnew; [done|]. destruct L as [? ? ? ? ? []]. cbn in Hlen. subst. exact H4.
Qed.
Lemma txn_logged L Rf bl n : txn L Rf bl → home (start L) n → n ∉ bl → (length bl < log_slots)%nat →
  txn (logged L bl n) (<[n := 1]> Rf) (bl ++ [n]).
Proof.
  intros [] Hh Hn Hlt. unfold log_slots in *. change (Z.to_nat LOGSIZE) with 30%nat in *. split; try done.
  - cbn. rewrite length_app. cbn. lia.
  - cbn. by rewrite length_insert.
  - intros i b Hi. cbn. apply lookup_app_Some in Hi as [Hi|[Hge Hi]].
    + rewrite list_lookup_insert_ne; [by apply t_listed0|]. apply lookup_lt_Some in Hi. lia.
    + apply list_lookup_singleton_Some in Hi as [Hi ->]. replace i with (length bl) by lia. apply list_lookup_insert_eq. lia.
  - apply NoDup_app. split_and!; [done|set_solver|apply NoDup_singleton].
  - apply Forall_app_2; [done|by apply Forall_singleton].
  - rewrite length_app. unfold log_slots. change (Z.to_nat LOGSIZE) with 30%nat. cbn. lia.
  - intros b. destruct (decide (b = n)) as [->|Hne].
    + rewrite lookup_insert_eq, decide_True; [done|set_solver].
    + rewrite lookup_insert_ne, t_pins0 by done. repeat case_decide; try done; set_solver.
Qed.

(** One update of a transaction, as the file system writes them. *)
Definition update (n : Z) (f : block → block) : M lsys unit :=
  b ← lift (bread ROOTDEV n); set_data b f;; log_write b;; lift (brelse b).
Definition add (bl : list Z) (n : Z) : list Z := if decide (n ∈ bl) then bl else bl ++ [n].
(** Between operations of one transaction: nothing locked, [bl] logged. *)
Definition TX s V D W L bl : Prop := ∃ Rf, LS (R := R) s (mkCache V D W Rf ∅) L ∧ txn L Rf bl.
Lemma update_spec {B} (K : M lsys B) Φ s V D W L bl n f k : TX s V D W L bl → home (start L) n →
  Z.of_nat (length bl) < LOGSIZE - 1 → Z.of_nat (length bl) < log_size L - 1 → (length bl < NBUF)%nat → 1 ≤ outstanding L →
  (∀ s' L' k', TX s' (updV V n (f (V n))) D W L' (add bl n) →
    start L' = start L ∧ log_size L' = log_size L ∧ outstanding L' = outstanding L ∧ committing L' = committing L →
    wp K Φ (World h k' s')) →
  wp (update n f;; K) Φ (World h k s).
Proof.
  intros (Rf & HL & HT) Hhome Hmax Hsz Hbuf Hout HK. pose proof (txn_size _ _ _ HT) as HR. pose proof (LS_pos HL) as Hpos.
  unfold update. apply wp_bind. apply (wp_bread Hb HL _ n); [done|right; lia|]. intros i s1 H1.
  eapply (wp_set_data H1 _ n); [apply lookup_insert_eq|]. intros s2 H2.
  pose proof (t_pins _ _ _ HT n) as Hp.
  apply (log_write_spec _ _ s2 _ _ _ _ _ L bl n i k H2); try apply HT; try done; [apply lookup_insert_eq|lia| |]; intros Hin s3 H3.
  - rewrite decide_True in Hp by done. apply wp_seq_end, (wp_brelse Hb H3 _ n); [apply lookup_insert_eq|rewrite Hp, lookup_insert_eq; done|].
    intros s4 k4 H4. apply wp_ret, (HK s4 L k4); [|done]. exists Rf.
    rewrite unref_ref, delete_insert_id in H4 by done. unfold add. by rewrite decide_True.
  - rewrite decide_False in Hp by done. rewrite Hp in H3. cbn [default from_option] in H3. rewrite lookup_insert_eq in H3.
    set (R1 := <[n := 1]> Rf) in *. assert (HR1 : default 0 (R1 !! n) = 1) by (unfold R1; by rewrite lookup_insert_eq).
    apply wp_seq_end, (wp_brelse Hb H3 _ n); [apply lookup_insert_eq|rewrite lookup_insert_eq; done|].
    intros s4 k4 H4. apply wp_ret, (HK s4 (logged L bl n) k4); [|done]. exists R1. split.
    + change (default 0 (Some (0 + 1)) + 1) with (1 + 1) in H4. rewrite <- HR1 in H4 at 1. change (0 + 1) with 1 in H4. fold R1 in H4.
      rewrite unref_ref, delete_insert_id in H4; [done|done|].
      intros x r [(<- & <-)|[_ Hx]]%lookup_insert_Some; [lia|eauto].
    + unfold add. rewrite decide_False by done. apply txn_logged; [done|done|done|unfold log_slots; lia].
Qed.

Definition updates (ups : list (Z * (block → block))) : M lsys unit :=
  foldr (λ u m, update u.1 u.2;; m) (ret ()) ups.
Definition transaction (ups : list (Z * (block → block))) : M lsys unit :=
  begin_op;; updates ups;; end_op.
Definition write_to (V : Z → block) (ups : list (Z * (block → block))) : Z → block :=
  foldl (λ V u, updV V u.1 (u.2 (V u.1))) V ups.
Definition blocks_of (bl : list Z) (ups : list (Z * (block → block))) : list Z := foldl (λ bl u, add bl u.1) bl ups.
Lemma add_length bl n : (length (add bl n) ≤ S (length bl))%nat.
Proof. unfold add. case_decide; [lia|]. rewrite length_app. cbn. lia. Qed.
Lemma updates_spec Φ D W ups : ∀ s V L bl k, TX s V D W L bl → Forall (λ u, home (start L) u.1) ups →
  Z.of_nat (length bl + length ups) ≤ MAXOPBLOCKS → MAXOPBLOCKS < log_size L → 1 ≤ outstanding L →
  (∀ s' L' k', TX s' (write_to V ups) D W L' (blocks_of bl ups) →
    start L' = start L ∧ log_size L' = log_size L ∧ outstanding L' = outstanding L ∧ committing L' = committing L → Φ () (World h k' s')) →
  wp (updates ups) Φ (World h k s).
Proof.
  induction ups as [|[n f] ups IH]; intros s V L bl k HT Hhome Hmax Hsz Hout HK; cbn [updates foldr].
  { apply wp_ret. by apply (HK s L k). }
  cbn [length] in Hmax. apply Forall_cons in Hhome as [Hn Hhome]. unfold LOGSIZE, MAXOPBLOCKS, NBUF in *.
  apply (update_spec _ _ s V D W L bl n f k HT Hn); unfold LOGSIZE, MAXOPBLOCKS, NBUF; [lia|lia|lia|done|].
  intros s1 L1 k1 H1 (E1 & E2 & E3 & E4). pose proof (add_length bl n). apply (IH s1 _ L1 _ k1 H1).
  - by rewrite E1.
  - lia.
  - lia.
  - lia.
  - intros s2 L2 k2 H2 (F1 & F2 & F3 & F4). apply (HK s2 L2 k2); [done|]. split_and!; congruence.
Qed.

(** A log between transactions. *)
Record idle (L : log) : Prop := {
  i_dev : ldev L = ROOTDEV; i_n : lh_n (lh L) = 0; i_out : outstanding L = 0; i_com : committing L = false;
  i_len : length (lh_block (lh L)) = Z.to_nat LOGSIZE }.
Lemma idle_txn L : idle L → txn L ∅ [].
Proof. intros []. split; try done; cbn; [apply NoDup_nil_2|lia]. Qed.
Lemma begin_op_spec {B} (K : M lsys B) Φ s C L k : LS (R := R) s C L → committing L = false →
  lh_n (lh L) + (outstanding L + 1) * MAXOPBLOCKS ≤ LOGSIZE →
  (∀ s', LS (R := R) s' C (L <| outstanding ::= λ n, n + 1 |>) → wp K Φ (World h k s')) →
  wp (begin_op;; K) Φ (World h k s).
Proof.
  intros HL Hc Hfit HK. unfold begin_op. apply wp_bind, wp_bind, wp_acquire; [done|].
  apply (wp_getl _ _ _ _ _ _ _ HL). unfold id. rewrite Hc, Z.gtb_ltb, (proj2 (Z.ltb_ge _ _)) by done.
  apply (wp_setl _ _ _ _ _ _ _ HL). intros s1 H1. apply wp_release; [done|]. by apply HK.
Qed.
Lemma foldl_unref_txn bl : ∀ Rf : gmap Z Z, NoDup bl → (∀ b, Rf !! b = if decide (b ∈ bl) then Some 1 else None) → foldl unref Rf bl = ∅.
Proof.
  induction bl as [|b bl IH]; intros Rf Hnd HR; cbn.
  - apply map_eq. intros b. rewrite HR, lookup_empty. case_decide; [set_solver|done].
  - apply NoDup_cons in Hnd as [Hn Hnd]. apply IH; [done|]. intros x. unfold unref. rewrite HR, decide_True by (by left). cbn.
    destruct (decide (x = b)) as [->|Hx]; [by rewrite lookup_delete_eq, decide_False|]. rewrite lookup_delete_ne, HR by done.
    repeat case_decide; try done; set_solver.
Qed.
Definition tx_writes (V : Z → block) (st : Z) (bl : list Z) : list (Z * block) :=
  if decide (bl = []) then [] else commit_writes V st bl.
Lemma commit_txn_spec s V D W Rf L bl k : LS (R := R) s (mkCache V D W Rf ∅) L → txn L Rf bl → (length bl < NBUF)%nat →
  wp commit (λ _ w', ∃ s' k' V', w' = World h k' s' ∧ let ws := tx_writes V (start L) bl in
    LS (R := R) s' (mkCache V' (apply_ws D ws) (W ++ ws) ∅ ∅) (L <| lh ::= λ h, h <| lh_n := 0 |> |>)) (World h k s).
Proof.
  intros HL HT Hbuf. assert (Hun : foldl unref Rf bl = ∅) by (apply foldl_unref_txn; apply HT).
  unfold tx_writes. case_decide as Hbl; [subst bl; cbn in Hun|].
  - unfold commit. apply (wp_getl _ _ _ _ _ _ _ HL). rewrite (t_n _ _ _ HT). change (0 <? Z.of_nat (length [])) with false.
    apply wp_ret. exists s, k, V. split; [done|]. subst Rf. rewrite app_nil_r.
    destruct HT as [_ Hn _ _ _ _ _ _], L as [? ? ? ? ? []]. cbn in Hn. by subst.
  - eapply wp_mono; [by apply (commit_spec Hb s V D W Rf L bl k HL (txn_ready _ _ _ HT Hbuf))|].
    intros _ w' (s3 & k3 & V3 & -> & H3). rewrite Hun in H3. by exists s3, k3, V3.
Qed.
Lemma end_op_spec s V D W L bl k : TX s V D W L bl → outstanding L = 1 → committing L = false → (length bl < NBUF)%nat →
  wp end_op (λ _ w', ∃ s' k' V' L', w' = World h k' s' ∧ let ws := tx_writes V (start L) bl in
    LS (R := R) s' (mkCache V' (apply_ws D ws) (W ++ ws) ∅ ∅) L' ∧ idle L' ∧ start L' = start L ∧ log_size L' = log_size L) (World h k s).
Proof.
  intros (Rf & HL & HT) Hout Hc Hbuf. unfold end_op. apply wp_bind, wp_acquire; [done|].
  apply (wp_setl _ _ _ _ _ _ _ HL). intros s1 H1. apply (wp_getl _ _ _ _ _ _ _ H1). unfold id. cbn [committing outstanding set_field].
  rewrite Hc, Hout. cbn [when]. apply wp_bind, wp_ret. change (1 - 1 =? 0) with true. cbv iota beta zeta.
  apply (wp_setl _ _ _ _ _ _ _ H1). intros s2 H2. apply wp_bind, wp_release; [done|]. cbn [when].
  set (L2 := L <| outstanding ::= _ |> <| committing := true |>) in *.
  apply wp_bind. eapply wp_mono; [apply (commit_txn_spec s2 V D W Rf L2 bl k H2); [destruct HT; by split|done]|].
  intros _ w' (s3 & k3 & V3 & -> & H3). cbv zeta in H3. apply wp_bind, wp_acquire; [done|].
  apply (wp_setl _ _ _ _ _ _ _ H3). intros s4 H4. apply wp_bind, wp_notify, wp_release; [done|]. eexists _, _, V3, _. split; [done|].
  split; [exact H4|]. destruct HT. split; [|done]. split; try done. cbn. lia.
Qed.
Lemma transaction_spec s V D W L ups k : LS (R := R) s (mkCache V D W ∅ ∅) L → idle L →
  Forall (λ u, home (start L) u.1) ups → Z.of_nat (length ups) ≤ MAXOPBLOCKS → MAXOPBLOCKS < log_size L →
  wp (transaction ups) (λ _ w', ∃ s' k' V' L', w' = World h k' s' ∧
    let ws := tx_writes (write_to V ups) (start L) (blocks_of [] ups) in
    LS (R := R) s' (mkCache V' (apply_ws D ws) (W ++ ws) ∅ ∅) L' ∧ idle L' ∧ start L' = start L ∧ log_size L' = log_size L) (World h k s).
Proof.
  intros HL HI Hhome Hlen Hsz. unfold transaction. apply (begin_op_spec _ _ _ _ L k HL); [apply HI| |].
  { rewrite (i_n _ HI), (i_out _ HI). unfold LOGSIZE, MAXOPBLOCKS. lia. }
  intros s1 H1. apply wp_bind. apply (updates_spec _ D W ups s1 V (L <| outstanding ::= λ n, n + 1 |>) [] k); try done.
  - exists ∅. split; [exact H1|]. pose proof (idle_txn _ HI) as []. by split.
  - cbn. rewrite (i_out _ HI). lia.
  - intros s2 L2 k2 H2 (E1 & E2 & E3 & E4). cbn in E1, E2, E3, E4. eapply wp_mono; [apply (end_op_spec s2 _ D W L2 _ k2 H2)|].
    + rewrite E3, (i_out _ HI). done.
    + by rewrite E4, (i_com _ HI).
    + assert (Hle : (length (blocks_of [] ups) ≤ length ups)%nat); [|unfold MAXOPBLOCKS, NBUF in *; lia].
      change (length ups) with (length (@nil Z) + length ups)%nat. generalize (@nil Z). clear. unfold blocks_of.
      induction ups as [|u ups IH]; intros bl; cbn; [lia|]. specialize (IH (add bl u.1)). pose proof (add_length bl u.1). lia.
    + rewrite E1, E2. done.
Qed.
End tx.
