(* ===== verification/LogCrash.v ===== *)
(** * Crashes

    A machine that stops after any number of a transaction's disk writes, and
    again during any number of recoveries, comes back with all of the
    transaction's updates or none (kernel/log.c, kernel/bio.c). *)
From S2P Require Import Prelude Param CString Mem Bio BioSpec Cache Log LogSpec LogTx.

(** ** The machine after a crash *)
Lemma slots_le : (log_slots ≤ Z.to_nat LOGSIZE)%nat.
Proof. unfold log_slots. lia. Qed.
Definition log0 : log := mkLog 0 0 0 false 0 (mkLh 0 (repeat 0 (Z.to_nat LOGSIZE))).
(** Memory is lost, the disk is not, and [binit] has run. *)
Definition boot (D : disk) : lsys :=
  mkLsys (booted D) log0.
Lemma boot_LS D : LS (R := bio 1) (boot D) (mkCache (blk D) D [] ∅ ∅) log0.
Proof. split; [apply booted_bio|done]. Qed.

(** ** What is on the disk *)
Section disk.
Context (st : Z).
(** Nothing to recover: the data blocks are [U]. *)
Definition Clean (D : disk) (U : Z → block) : Prop :=
  header (blk D st) [] ∧ ∀ x, home st x → blk D x = U x.
(** A committed transaction on [bl] to install: the data blocks are to be [U]. *)
Definition Pending (bl : list Z) (D : disk) (U : Z → block) : Prop :=
  header (blk D st) bl ∧ (∀ i b, bl !! i = Some b → blk D (log_block st i) = U b) ∧
  ∀ x, home st x → x ∉ bl → blk D x = U x.
Lemma head_header m bl : fits bl → header (head_of m bl) bl.
Proof. apply head_roundtrip. Qed.
Lemma fits_nil : fits [].
Proof. split; [done|constructor]. Qed.
Lemma blk_insert D n x : blk (<[n := x]> D) n = x.
Proof. unfold blk. by rewrite lookup_insert_eq. Qed.
Lemma blk_insert_ne D n x m : m ≠ n → blk (<[n := x]> D) m = blk D m.
Proof. intros. unfold blk. by rewrite lookup_insert_ne. Qed.
Lemma take_snoc_cases {A} p (l : list A) x : take p (l ++ [x]) = take p l ∨ take p (l ++ [x]) = l ++ [x].
Proof.
  destruct (decide (p ≤ length l)%nat) as [H|H]; [left|right].
  - rewrite take_app_le by done. done.
  - apply take_ge. rewrite length_app. cbn. lia.
Qed.

Section bl.
Context {bl : list Z} (Hmax : (length bl ≤ log_slots)%nat) (Hhome : Forall (home st) bl) (Hnd : NoDup bl) (Hfits : fits bl).
Lemma bl_home b : b ∈ bl → b ≠ st ∧ ∀ j, (j < length bl)%nat → b ≠ log_block st j.
Proof.
  intros Hb. rewrite Forall_forall in Hhome. apply Hhome in Hb as [? Hb]. split; [done|]. intros j Hj. apply Hb. lia.
Qed.
Lemma Pending_write D U b : Pending bl D U → b ∈ bl → Pending bl (<[b := U b]> D) U.
Proof.
  intros (Hh & Hl & Hd) Hb. destruct (bl_home b Hb) as [H1 H2]. split_and!.
  - by rewrite blk_insert_ne.
  - intros i c Hi. rewrite blk_insert_ne; [by apply Hl|]. intros E. apply (H2 i); [by eapply lookup_lt_Some|done].
  - intros x Hx Hn. rewrite blk_insert_ne; [by apply Hd|]. by intros ->.
Qed.
Lemma Pending_writes U l : ∀ D, Pending bl D U → (∀ b, b ∈ l → b ∈ bl) → Pending bl (apply_ws D (home_list U l)) U.
Proof.
  induction l as [|b l IH]; intros D HP Hl; [done|]. cbn. apply IH; [apply Pending_write; [done|]; apply Hl; by left|].
  intros x Hx. apply Hl. by right.
Qed.
Lemma installed D U x : Pending bl D U → home st x → blk (apply_ws D (home_list U bl)) x = U x.
Proof.
  intros (_ & _ & Hd) Hx. destruct (decide (x ∈ bl)) as [Hin|Hn].
  - apply apply_ws_in; [by rewrite home_list_fst|]. unfold home_list. apply list_elem_of_fmap. eauto.
  - rewrite apply_ws_out by (by rewrite home_list_fst). by apply Hd.
Qed.
(** After the installs, a header with no blocks makes the disk clean. *)
Lemma finish D U m : Pending bl D U → Clean (<[st := head_of m []]> (apply_ws D (home_list U bl))) U.
Proof.
  intros HP. split; [rewrite blk_insert; apply head_header, fits_nil|]. intros x Hx.
  rewrite blk_insert_ne by apply Hx. by apply installed.
Qed.
Lemma take_home_list U p : take p (home_list U bl) = home_list U (take p bl).
Proof. unfold home_list. symmetry. apply fmap_take. Qed.
Lemma install_prefix D U m p : Pending bl D U →
  let D' := apply_ws D (take p (home_list U bl ++ [(st, head_of m [])])) in Pending bl D' U ∨ Clean D' U.
Proof.
  intros HP. cbv zeta. destruct (take_snoc_cases p (home_list U bl) (st, head_of m [])) as [-> | ->].
  - left. rewrite take_home_list. apply Pending_writes; [done|]. intros b Hb. by eapply elem_of_take in Hb as (i & Hb & _); apply list_elem_of_lookup_2 in Hb.
  - right. rewrite apply_ws_app. by apply finish.
Qed.
(** [write_log] touches no data block; writing the header is the commit. *)
Lemma log_prefix D U V p : Clean D U → Clean (apply_ws D (take p (log_writes V st 0 bl))) U.
Proof.
  intros [Hh Hd]. assert (Hout : ∀ x, (∀ j, (j < length bl)%nat → x ≠ log_block st j) → x ∉ (take p (log_writes V st 0 bl)).*1).
  { intros x Hx Hin. rewrite fmap_take in Hin. apply elem_of_take in Hin as (i & Hi & _). apply list_elem_of_lookup_2, log_writes_fst in Hi as (j & Hj & ->).
    by apply (Hx j); [lia|]. }
  split; [rewrite apply_ws_out; [done|]; apply Hout; intros j _; unfold log_block; lia|].
  intros x Hx. rewrite apply_ws_out; [by apply Hd|]. apply Hout. intros j Hj. apply Hx. lia.
Qed.
Lemma committed D V m : Clean D (blk D) → (∀ x, home st x → x ∉ bl → V x = blk D x) →
  Pending bl (<[st := head_of m bl]> (apply_ws D (log_writes V st 0 bl))) V.
Proof.
  intros HC HV. split_and!.
  - rewrite blk_insert. by apply head_header.
  - intros i b Hi. rewrite blk_insert_ne by (unfold log_block; lia). apply apply_ws_in; [apply log_writes_nodup|].
    by apply (log_writes_in V st bl 0).
  - intros x Hx Hn. rewrite blk_insert_ne by apply Hx. rewrite HV by done.
    destruct (log_prefix D (blk D) V (length (log_writes V st 0 bl)) HC) as [_ Hd]. rewrite firstn_all in Hd. by apply Hd.
Qed.
Lemma commit_prefix D V p : Clean D (blk D) → (∀ x, home st x → x ∉ bl → V x = blk D x) →
  let D' := apply_ws D (take p (commit_writes V st bl)) in
  Clean D' (blk D) ∨ Pending bl D' V ∨ Clean D' V.
Proof.
  intros HC HV. cbv zeta. unfold commit_writes. set (lw := log_writes V st 0 bl).
  destruct (decide (p ≤ length lw)%nat) as [Hp|Hp].
  { left. rewrite take_app_le by done. by apply log_prefix. }
  right. rewrite take_app_ge by lia. destruct (p - length lw)%nat as [|q] eqn:Eq; [lia|].
  rewrite apply_ws_app. cbn [take app]. pose proof (committed D V (V st) HC HV) as HP.
  exact (install_prefix _ V _ q HP).
Qed.
End bl.
End disk.

(** ** Mounting, transactions and crashes *)
Section crash.
Context (st nlog : Z).
Definition mount (D : disk) : lsys := final (initlog ROOTDEV st nlog) (World [] [] (boot D)).
(** The disk writes between two states, and the disk after the first [p] of them. *)
Definition written (s s' : lsys) : list (Z * block) := drop (length (writes (bs s))) (writes (bs s')).
Definition crashed (s s' : lsys) (p : nat) : disk := apply_ws (dsk (bs s)) (take p (written s s')).
(** A crash during the recovery from disk [D] leaves disk [D']. *)
Definition recrash (D D' : disk) : Prop := ∃ p, D' = crashed (boot D) (mount D) p.
(** The state after some transactions. *)
Definition session (D : disk) (txs : list (list (Z * (block → block)))) : lsys :=
  foldl (λ s ups, final (transaction ups) (World [] [] s)) (mount D) txs.

Definition Recoverable (D : disk) (U : Z → block) : Prop :=
  ∃ bl, (length bl ≤ log_slots)%nat ∧ Forall (home st) bl ∧ NoDup bl ∧ fits bl ∧ Pending st bl D U.
Lemma Clean_Pending D U : Clean st D U ↔ Pending st [] D U.
Proof.
  split; [intros [Hh Hd]; split_and!; [done|done|intros; by apply Hd]|].
  intros (Hh & _ & Hd). split; [done|]. intros x Hx. apply Hd; [done|]. apply not_elem_of_nil.
Qed.
Lemma Clean_Recoverable D U : Clean st D U → Recoverable D U.
Proof.
  intros HC%Clean_Pending. exists []. split_and!; [cbn; lia|constructor|apply NoDup_nil_2|apply fits_nil|done].
Qed.
Lemma LS_disk m s V D W Rf H L : LS (R := bio m) s (mkCache V D W Rf H) L → dsk (bs s) = D ∧ writes (bs s) = W.
Proof. intros [(o & cs & (hd & nx & pv & [] & _) & _) _]. done. Qed.
(** A mounted file system between transactions, with data blocks [U]. *)
Definition Sess (s : lsys) (U : Z → block) : Prop :=
  ∃ V D W L, LS (R := bio 1) s (mkCache V D W ∅ ∅) L ∧ idle L ∧ start L = st ∧ log_size L = nlog ∧ Clean st D U.
Lemma mount_spec D U : Recoverable D U →
  (∃ w, initlog ROOTDEV st nlog (World [] [] (boot D)) = Done () w) ∧ Sess (mount D) U ∧
  ∀ p, Recoverable (crashed (boot D) (mount D) p) U.
Proof.
  intros (bl & Hmax & Hhome & Hnd & Hfits & HP). pose proof HP as (Hhd & Hlog & _).
  assert (Hws : recovery_writes D st bl = home_list U bl ++ [(st, head_of (blk D st) [])]).
  { unfold recovery_writes. f_equal. apply home_writes_list. intros i b Hi. by apply Hlog. }
  assert (Hst : st ∉ bl) by (intros Hin; rewrite Forall_forall in Hhome; by apply Hhome in Hin as [? _]).
  assert (Hout : outside st bl 0) by (intros b j Hb Hj; rewrite Forall_forall in Hhome; apply Hhome in Hb as [_ Hb]; apply Hb; lia).
  assert (Hwp := initlog_spec (h := []) (not_elem_of_nil _) _ _ D [] log0 bl st nlog [] (boot_LS D) eq_refl Hhd (Nat.le_trans _ _ _ Hmax slots_le) Hnd Hout Hst).
  rewrite Hws in Hwp. apply (proj1 (wp_done _ _ _)) in Hwp as ([] & w & Hrun & s' & k' & V' & -> & HL).
  assert (Hm : mount D = s') by (unfold mount, final; by rewrite Hrun). rewrite Hm.
  destruct (LS_disk _ _ _ _ _ _ _ _ HL) as [_ Hw], (LS_disk _ _ _ _ _ _ _ _ (boot_LS D)) as [Hbd Hbw].
  split_and!.
  - exists (World [] k' s'). exact Hrun.
  - clear Hrun Hm Hbd Hbw. eexists V', _, _, _. split; [exact HL|]. split; [|split; [done|split; [done|]]].
    + split; try done. cbn. by rewrite lay_length.
    + rewrite apply_ws_app. by apply finish.
  - intros p. unfold crashed, written. rewrite Hw, Hbd, Hbw. change (drop (length []) ([] ++ ?l)) with l.
    destruct (install_prefix st Hmax Hhome Hnd D U (blk D st) p HP) as [HP'|HC]; [|apply Clean_Recoverable, HC].
    exists bl. exact (conj Hmax (conj Hhome (conj Hnd (conj Hfits HP')))).
Qed.

(** ** Transactions *)
Abbreviation upds := (list (Z * (block → block))).
Definition valid_tx (ups : upds) : Prop :=
  Forall (λ u, home st u.1 ∧ 0 ≤ u.1 < 2 ^ 32) ups ∧ Z.of_nat (length ups) ≤ MAXOPBLOCKS.
Lemma blocks_of_elem (ups : upds) : ∀ bl x, x ∈ blocks_of bl ups ↔ x ∈ bl ∨ x ∈ ups.*1.
Proof.
  induction ups as [|u ups IH]; intros bl x; cbn; [set_solver|]. rewrite IH. unfold add. case_decide; set_solver.
Qed.
Lemma blocks_of_nodup (ups : upds) : ∀ bl, NoDup bl → NoDup (blocks_of bl ups).
Proof.
  induction ups as [|u ups IH]; intros bl Hbl; cbn; [done|]. apply IH. unfold add. case_decide; [done|].
  apply NoDup_app. split_and!; [done|set_solver|apply NoDup_singleton].
Qed.
Lemma blocks_of_length (ups : upds) : ∀ bl, (length (blocks_of bl ups) ≤ length bl + length ups)%nat.
Proof.
  induction ups as [|u ups IH]; intros bl; cbn; [lia|]. specialize (IH (add bl u.1)). pose proof (add_length bl u.1). unfold blocks_of in *. lia.
Qed.
Lemma write_to_out (ups : upds) : ∀ V x, x ∉ ups.*1 → write_to V ups x = V x.
Proof.
  induction ups as [|u ups IH]; intros V x Hx; cbn; [done|]. cbn in Hx. rewrite not_elem_of_cons in Hx.
  etrans; [apply (IH (updV V u.1 (u.2 (V u.1)))); tauto|]. apply updV_ne. tauto.
Qed.
Lemma write_to_ext (ups : upds) : ∀ V U, Forall (λ u, home st u.1) ups → (∀ x, home st x → V x = U x) →
  ∀ x, home st x → write_to V ups x = write_to U ups x.
Proof.
  induction ups as [|u ups IH]; intros V U Hups HVU x Hx; cbn; [by apply HVU|]. apply Forall_cons in Hups as [Hu Hups].
  apply IH; [done| |done]. intros y Hy. unfold updV. case_decide; [by rewrite (HVU u.1)|by apply HVU].
Qed.
Lemma tx_blocks ups : valid_tx ups → let bl := blocks_of [] ups in
  (length bl ≤ log_slots)%nat ∧ Forall (home st) bl ∧ NoDup bl ∧ fits bl.
Proof.
  intros [Hf Hlen]. cbv zeta. pose proof (blocks_of_length ups []) as Hl. cbn in Hl. unfold MAXOPBLOCKS in *.
  assert (Hin : ∀ b, b ∈ blocks_of [] ups → home st b ∧ 0 ≤ b < 2 ^ 32).
  { intros b [Hb|Hb]%blocks_of_elem; [by apply elem_of_nil in Hb|]. apply list_elem_of_fmap in Hb as (u & -> & Hu).
    rewrite Forall_forall in Hf. by apply Hf. }
  split_and!; [unfold log_slots, LOGSIZE, MAXOPBLOCKS; lia| |apply blocks_of_nodup, NoDup_nil_2|split; [lia|]];
    apply Forall_forall; intros b Hb; by apply Hin.
Qed.
Lemma Clean_ext D U U' : (∀ x, home st x → U x = U' x) → Clean st D U → Clean st D U'.
Proof. intros HU [Hh Hd]. split; [done|]. intros x Hx. rewrite <- HU by done. by apply Hd. Qed.
Lemma Recoverable_ext D U U' : (∀ x, home st x → U x = U' x) → Recoverable D U → Recoverable D U'.
Proof.
  intros HU (bl & Hmax & Hhome & Hnd & Hfits & Hh & Hl & Hd). exists bl. split_and!; try done. split_and!; [done| |].
  - intros i b Hi. rewrite <- HU; [by apply Hl|]. rewrite Forall_forall in Hhome. apply Hhome. by eapply list_elem_of_lookup_2.
  - intros x Hx Hn. rewrite <- HU by done. by apply Hd.
Qed.
(** The writes of a transaction, cut at any point, and all of them. *)
Lemma tx_writes_cut D ups : Clean st D (blk D) → valid_tx ups →
  let U' := write_to (blk D) ups in let ws := tx_writes U' st (blocks_of [] ups) in
  Clean st (apply_ws D ws) U' ∧ ∀ p, Recoverable (apply_ws D (take p ws)) (blk D) ∨ Recoverable (apply_ws D (take p ws)) U'.
Proof.
  intros HC HT. destruct (tx_blocks ups HT) as (Hmax & Hhome & Hnd & Hfits). cbv zeta. unfold tx_writes.
  set (bl := blocks_of [] ups) in *. case_decide as Hbl.
  - assert (Hnil : ∀ x, write_to (blk D) ups x = blk D x).
    { intros x. apply write_to_out. intros Hx. apply (not_elem_of_nil x). rewrite <- Hbl. apply blocks_of_elem. by right. }
    split; [eapply Clean_ext; [|exact HC]; intros; by rewrite Hnil|]. intros p. rewrite take_nil. left. by apply Clean_Recoverable.
  - assert (HV : ∀ x, home st x → x ∉ bl → write_to (blk D) ups x = blk D x).
    { intros x _ Hx. apply write_to_out. intros Hin. apply Hx, blocks_of_elem. by right. }
    split.
    + unfold commit_writes. rewrite !apply_ws_app. apply (finish st); try done. by apply committed.
    + intros p. destruct (commit_prefix st Hmax Hhome Hnd Hfits D _ p HC HV) as [H|[H|H]].
      * left. by apply Clean_Recoverable.
      * right. exists bl. split_and!; try done; apply H.
      * right. by apply Clean_Recoverable.
Qed.
Lemma transaction_Sess s U ups : Sess s U → valid_tx ups → MAXOPBLOCKS < nlog →
  let s' := final (transaction ups) (World [] [] s) in
  (∃ w, transaction ups (World [] [] s) = Done () w) ∧ Sess s' (write_to U ups) ∧
  (∀ p, Recoverable (crashed s s' p) U ∨ Recoverable (crashed s s' p) (write_to U ups)) ∧
  ∀ p, (length (written s s') ≤ p)%nat → Recoverable (crashed s s' p) (write_to U ups).
Proof.
  intros (V & D & W & L & HL & HI & Hst & Hsz & HC) HT Hn. pose proof HT as [Hf Hlen].
  assert (HV : ∀ x, V x = blk D x) by (intros x; by apply (cache_clean (bs s) (mkCache V D W ∅ ∅)); [apply HL|]).
  apply (LS_ext _ _ (blk D)) in HL; [|intros; by rewrite HV]. clear V HV.
  assert (Hhome : Forall (λ u, home st u.1) ups) by (eapply Forall_impl; [exact Hf|]; by intros u [? _]).
  assert (HCD : Clean st D (blk D)) by (split; [apply HC|done]).
  assert (HU : ∀ x, home st x → write_to (blk D) ups x = write_to U ups x) by (apply write_to_ext; [done|apply HC]).
  destruct (tx_writes_cut D ups HCD HT) as [Hall Hcut].
  assert (Hwp := transaction_spec (h := []) (not_elem_of_nil _) (not_elem_of_nil _) s (blk D) D W L ups [] HL HI).
  rewrite Hst, Hsz in Hwp. specialize (Hwp Hhome Hlen Hn).
  apply (proj1 (wp_done _ _ _)) in Hwp as ([] & w & Hrun & s' & k' & V' & L' & -> & HL' & HI' & Hst' & Hsz').
  unfold final. rewrite Hrun. cbn [Prelude.st]. set (ws := tx_writes _ _ _) in *.
  destruct (LS_disk _ _ _ _ _ _ _ _ HL) as [Hd Hw], (LS_disk _ _ _ _ _ _ _ _ HL') as [_ Hw'].
  assert (Hcr : ∀ p, crashed s s' p = apply_ws D (take p ws)) by (intros p; unfold crashed, written; rewrite Hw, Hw', Hd; by rewrite drop_app_length).
  split_and!.
  - by eexists.
  - exists V', (apply_ws D ws), (W ++ ws), L'. split_and!; try done. by eapply Clean_ext.
  - intros p. rewrite Hcr. destruct (Hcut p) as [HR|HR]; [left|right]; (eapply Recoverable_ext; [|exact HR]); [|done]. apply HC.
  - intros p Hp. rewrite Hcr, take_ge by (unfold written in Hp; rewrite Hw, Hw', drop_app_length in Hp; done).
    apply Clean_Recoverable. by eapply Clean_ext.
Qed.
Lemma session_Sess D U txs : Recoverable D U → Forall valid_tx txs → MAXOPBLOCKS < nlog →
  Sess (session D txs) (foldl write_to U txs).
Proof.
  intros HR Htx Hn. unfold session. generalize (mount_spec D U HR). intros (_ & HS & _). revert HS. generalize (mount D), U.
  induction Htx as [|ups txs Hups Htx IH]; intros s U' HS; [done|]. cbn. apply IH. by apply transaction_Sess.
Qed.
Lemma recrash_Recoverable D D' U : rtc recrash D D' → Recoverable D U → Recoverable D' U.
Proof. induction 1 as [|D D1 D' [p ->] _ IH]; intros HR; [done|]. apply IH. by apply mount_spec. Qed.
Lemma Sess_disk s U x : Sess s U → home st x → blk (dsk (bs s)) x = U x.
Proof. intros (V & D & W & L & HL & _ & _ & _ & HC) Hx. destruct (LS_disk _ _ _ _ _ _ _ _ HL) as [-> _]. by apply HC. Qed.
End crash.

(** C4: crash atomicity and durability of the file system's transactions. On a
    machine mounted from a disk whose log is empty, after any transactions
    [txs], run one more, [ups] (at most MAXOPBLOCKS updates of data blocks). It
    completes. If power fails after any [p] of its disk writes, and again during
    any number of recoveries, then the next mount completes and every data block
    holds its contents before [ups], or every data block holds its contents
    after it; the latter if the crash comes after the transaction's last write. *)
Theorem transaction_crash_atomic st nlog D txs ups : header (blk D st) [] → MAXOPBLOCKS < nlog →
  Forall (valid_tx st) txs → valid_tx st ups →
  let s := session st nlog D txs in let s' := final (transaction ups) (World [] [] s) in
  let old := foldl write_to (blk D) txs in let new := write_to old ups in
  (∃ w, transaction ups (World [] [] s) = Done () w) ∧
  ∀ p D', rtc (recrash st nlog) (crashed s s' p) D' →
    (∃ w, initlog ROOTDEV st nlog (World [] [] (boot D')) = Done () w) ∧
    let D'' := dsk (bs (mount st nlog D')) in
    ((∀ x, home st x → blk D'' x = old x) ∨ (∀ x, home st x → blk D'' x = new x)) ∧
    ((length (written s s') ≤ p)%nat → ∀ x, home st x → blk D'' x = new x).
Proof.
  intros Hh Hn Htxs Hups. cbv zeta. assert (HR : Recoverable st D (blk D)) by (apply Clean_Recoverable; split; [exact Hh|reflexivity]).
  pose proof (session_Sess st nlog D (blk D) txs HR Htxs Hn) as HS.
  destruct (transaction_Sess st nlog _ _ ups HS Hups Hn) as (Hdone & _ & Hcut & Hfull).
  split; [exact Hdone|]. intros p D' Hrc.
  assert (Hmt : ∀ U, Recoverable st D' U → (∃ w, initlog ROOTDEV st nlog (World [] [] (boot D')) = Done () w) ∧
    ∀ x, home st x → blk (dsk (bs (mount st nlog D'))) x = U x).
  { intros U HU. destruct (mount_spec st nlog D' U HU) as (Hd & HS' & _). split; [exact Hd|]. intros x Hx. eapply Sess_disk; [exact HS'|exact Hx]. }
  split_and!.
  - destruct (Hcut p) as [H|H]; eapply recrash_Recoverable in H; [|exact Hrc| |exact Hrc]; by apply Hmt in H as [? _].
  - destruct (Hcut p) as [H|H]; eapply recrash_Recoverable in H; [|exact Hrc| |exact Hrc]; apply Hmt in H as [_ H]; [left|right]; exact H.
  - intros Hp. eapply recrash_Recoverable in Hrc; [|exact (Hfull p Hp)]. apply Hmt in Hrc as [_ H]. exact H.
Qed.

Definition demo_tx : list (Z * (block → block)) := [(41, λ m, st32 m 0 7); (50, λ m, st32 m 4 8); (41, λ m, st32 m 0 9)].
Lemma demo_tx_valid : valid_tx 2 demo_tx.
Proof.
  split; [|done]. unfold demo_tx. repeat (apply Forall_cons; split; [|]); [..|apply Forall_nil; exact I];
    (split; [split; [done|intros j Hj; change log_slots with 29%nat in Hj; cbn; unfold log_block; lia]|cbn; lia]).
Qed.
Lemma transaction_crash_atomic_witness :
  let s := session 2 30 ∅ [demo_tx] in let s' := final (transaction demo_tx) (World [] [] s) in
  (∃ w, transaction demo_tx (World [] [] s) = Done () w) ∧
  ∃ w, initlog ROOTDEV 2 30 (World [] [] (boot (crashed s s' 3))) = Done () w.
Proof.
  destruct (transaction_crash_atomic 2 30 ∅ [demo_tx] demo_tx) as [Hdone Hcrash].
  - split; [reflexivity|]. intros j b Hb. discriminate Hb.
  - reflexivity.
  - apply Forall_cons. split; [exact demo_tx_valid|apply Forall_nil; exact I].
  - exact demo_tx_valid.
  - cbv zeta. split; [exact Hdone|]. exact (proj1 (Hcrash 3%nat _ (rtc_refl _ _))).
Defined.

(** ** The reservation of log space *)
Lemma bind_panic {S A B} (m : M S A) (f : A → M S B) e w : wp m (λ a w', f a w' = Panic e) w → bind m f w = Panic e.
Proof. unfold wp, bind. by destruct (m w). Qed.
Lemma wp_seq_ret {S} (m : M S unit) Φ w : wp (m;; ret ()) Φ w → wp m Φ w.
Proof. unfold wp, bind. destruct (m w) as [[] w'| | | |]; done. Qed.
Section overfull.
Context {R : bsys → cache → Prop} `{!BufferCache R} {h : list lock} (Hb : bcache_lock ∉ h) (Hl : log_lock ∉ h).
Lemma log_write_full s C L i k : LS (R := R) s C L → LOGSIZE - 1 ≤ lh_n (lh L) → log_size L = LOGSIZE →
  log_write i (World h k s) = Panic "too big a transaction".
Proof.
  intros [_ <-] Hn Hs. unfold log_write. apply bind_panic, wp_acquire; [done|]. apply bind_panic, wp_gets. cbn [st]. unfold id.
  rewrite Hs, !Z.geb_leb, (proj2 (Z.leb_le (LOGSIZE - 1) _)), orb_true_r by done. done.
Qed.
Lemma update_full s V D W L bl n f k : TX (R := R) s V D W L bl → length bl = log_slots → log_size L = LOGSIZE →
  update n f (World h k s) = Panic "too big a transaction".
Proof.
  intros (Rf & HL & HT) Hlen Hs. pose proof (txn_size _ _ _ HT) as HR. unfold update. apply bind_panic, wp_bind_ret, (wp_bread Hb HL _ n); [done| |].
  { right. rewrite HR, Hlen. unfold log_slots, LOGSIZE, NBUF, MAXOPBLOCKS. lia. }
  intros i s1 H1. apply wp_ret, bind_panic.
  assert (Hset : wp (set_data i f;; ret ()) (λ _ w', (log_write i;; lift (brelse i)) w' = Panic "too big a transaction") (World h k s1)).
  { eapply (wp_set_data H1 _ n); [apply lookup_insert_eq|]. intros s2 H2. apply wp_ret. unfold bind. erewrite log_write_full; [done|exact H2| |done].
    rewrite (t_n _ _ _ HT), Hlen. done. }
  by apply wp_seq_ret.
Qed.
(** Updates inside a transaction: each needs a free place in the header when it
    comes, also one of a block that is there already. *)
Lemma updates_full D W ups : ∀ s V L bl k, TX (R := R) s V D W L bl → Forall (λ u, home (start L) u.1) ups → log_size L = LOGSIZE → 1 ≤ outstanding L →
  (∀ pre u post, ups = pre ++ u :: post → (log_slots ≤ length (blocks_of bl pre))%nat → updates ups (World h k s) = Panic "too big a transaction") ∧
  ((∀ pre u post, ups = pre ++ u :: post → (length (blocks_of bl pre) < log_slots)%nat) → ∃ w, updates ups (World h k s) = Done () w).
Proof.
  induction ups as [|[n f] ups IH]; intros s V L bl k HT Hhome Hs Hout.
  { split; [intros [|? pre] u post; done|]. intros _. by eexists. }
  apply Forall_cons in Hhome as [Hn Hhome]. destruct (decide (length bl < log_slots)%nat) as [Hlt|Hge].
  - assert (Hwp : wp (update n f;; ret ()) (λ _ w', ∃ s' L' k', w' = World h k' s' ∧ TX (R := R) s' (updV V n (f (V n))) D W L' (add bl n) ∧
      start L' = start L ∧ log_size L' = log_size L ∧ outstanding L' = outstanding L) (World h k s)).
    { apply (update_spec Hb Hl _ _ s V D W L bl n f k HT Hn); try done; try (rewrite Hs); unfold log_slots, LOGSIZE, NBUF, MAXOPBLOCKS in *; try lia.
      intros s' L' k' HT' (E1 & E2 & E3 & _). apply wp_ret. by exists s', L', k'. }
    apply wp_seq_ret, wp_done in Hwp as ([] & w1 & Hrun & s1 & L1 & k1 & -> & HT1 & E1 & E2 & E3).
    destruct (IH s1 _ L1 (add bl n) k1 HT1) as [IH1 IH2]; [by rewrite E1|congruence|lia|].
    assert (Ho : updates ((n, f) :: ups) (World h k s) = updates ups (World h k1 s1)) by (cbn [updates foldr fst snd]; unfold bind at 1; by rewrite Hrun).
    rewrite Ho. split.
    + intros [|u0 pre] u post E Hp; cbn in E, Hp; [lia|]. injection E as <- E. by eapply IH1.
    + intros Hp. apply IH2. intros pre u post E. apply (Hp ((n, f) :: pre) u post). cbn. by rewrite E.
  - destruct HT as (Rf & HL & HT). pose proof (t_max _ _ _ HT). assert (Hlen : length bl = log_slots) by lia. split.
    + intros _ _ _ _ _. cbn [updates foldr fst snd]. unfold bind at 1. erewrite update_full; [done|by exists Rf|done|done].
    + intros Hp. specialize (Hp [] (n, f) ups eq_refl). cbn in Hp. lia.
Qed.
Lemma begin_thrice {B} (K : M lsys B) Φ s C L k : LS (R := R) s C L → idle L →
  (∀ s', LS (R := R) s' C (L <| outstanding := 3 |>) → wp K Φ (World h k s')) → wp (begin_op;; begin_op;; begin_op;; K) Φ (World h k s).
Proof.
  intros HL [_ Hn Ho Hc _] HK. assert (HM : 3 * MAXOPBLOCKS ≤ LOGSIZE) by done. unfold MAXOPBLOCKS in *.
  apply (begin_op_spec Hl _ _ _ _ _ _ HL Hc); [rewrite Hn, Ho; unfold MAXOPBLOCKS; lia|]. intros s1 H1.
  apply (begin_op_spec Hl _ _ _ _ _ _ H1 Hc); [cbn; rewrite Hn, Ho; unfold MAXOPBLOCKS; lia|]. intros s2 H2.
  apply (begin_op_spec Hl _ _ _ _ _ _ H2 Hc); [cbn; rewrite Hn, Ho; unfold MAXOPBLOCKS; lia|]. intros s3 H3. apply HK.
  destruct L. cbn in *. subst. exact H3.
Qed.
End overfull.

(** C38: begin_op reserves more of the log than there is. On a machine mounted
    from a disk with an empty log of the size mkfs makes (LOGSIZE blocks, the
    header among them), after any transactions, begin_op admits three
    operations at once, which may write MAXOPBLOCKS blocks each. Let them
    update data blocks, in any order, with anything. If some update comes when
    29 different blocks have been updated before it, the kernel panics in
    log_write; if none does, all the updates are made. So three operations that
    keep to their reservation of 30 blocks in all panic the kernel. *)
Theorem log_reservation_overcommits st D txs ups : header (blk D st) [] → Forall (valid_tx st) txs → Forall (λ u, home st u.1) ups →
  let run := (begin_op;; begin_op;; begin_op;; updates ups) (World [] [] (session st LOGSIZE D txs)) in
  (∀ pre u post, ups = pre ++ u :: post → (29 ≤ length (blocks_of [] pre))%nat → run = Panic "too big a transaction") ∧
  ((∀ pre u post, ups = pre ++ u :: post → (length (blocks_of [] pre) < 29)%nat) → ∃ w, run = Done () w).
Proof.
  intros Hh Htxs Hups. cbv zeta. assert (HR : Recoverable st D (blk D)) by (apply Clean_Recoverable; split; [exact Hh|reflexivity]).
  destruct (session_Sess st LOGSIZE D (blk D) txs HR Htxs ltac:(done)) as (V & D' & W & L & HL & HI & Hst & Hsz & _).
  assert (Hlk : ∀ k : lock, k ∉ []) by (intros k; apply not_elem_of_nil).
  assert (Hwp : wp (begin_op;; begin_op;; begin_op;; ret ()) (λ _ w', ∃ s', w' = World [] [] s' ∧ LS (R := bio 1) s' (mkCache V D' W ∅ ∅) (L <| outstanding := 3 |>))
    (World [] [] (session st LOGSIZE D txs))).
  { eapply (begin_thrice (Hlk _)); [exact HL|exact HI|]. intros s' Hs'. apply wp_ret. by exists s'. }
  apply wp_done in Hwp as ([] & w1 & Hrun & s1 & -> & HL1).
  assert (HT : TX (R := bio 1) s1 V D' W (L <| outstanding := 3 |>) []) by (exists ∅; split; [exact HL1|]; destruct (idle_txn L HI); by split).
  destruct (updates_full (Hlk _) (Hlk _) D' W ups s1 V _ [] [] HT) as [H1 H2]; [cbn; by rewrite Hst|done|cbn; lia|].
  assert (E : (begin_op;; begin_op;; begin_op;; updates ups) (World [] [] (session st LOGSIZE D txs)) = updates ups (World [] [] s1)).
  { revert Hrun. unfold bind. destruct (begin_op (World [] [] (session st LOGSIZE D txs))) as [[] w2| | | |]; try done. destruct (begin_op w2) as [[] w3| | | |]; try done.
    destruct (begin_op w3) as [[] w4| | | |]; try done. by intros [= ->]. }
  rewrite E. exact (conj H1 H2).
Qed.
(** Thirty blocks, from 100 on. *)
Definition thirty : list (Z * (block → block)) := (λ i, (100 + Z.of_nat i, λ m, m)) <$> seq 0 30.
Lemma log_reservation_overcommits_witness :
  (begin_op;; begin_op;; begin_op;; updates thirty) (World [] [] (session 2 LOGSIZE ∅ [demo_tx])) = Panic "too big a transaction".
Proof.
  destruct (log_reservation_overcommits 2 ∅ [demo_tx] thirty) as [H _].
  - split; [reflexivity|]. intros j b Hb. discriminate Hb.
  - apply Forall_cons. split; [exact demo_tx_valid|apply Forall_nil; exact I].
  - apply Forall_forall. intros u (i & -> & Hi%elem_of_seq)%list_elem_of_fmap. split; cbn [fst]; [lia|].
    intros j Hj. change log_slots with 29%nat in Hj. unfold log_block. lia.
  - apply (H (take 29 thirty) (129, λ m, m) []); vm_compute; [reflexivity|lia].
Defined.
