(* ===== verification/Ring.v ===== *)
(** * Ring buffers indexed by free-running counters

    The pipes, the console and the UART keep a queue in an array of [N] bytes,
    at the indices [r mod N], ..., [(w - 1) mod N] of two counters that wrap at
    a power of two. [holds N d r q]: from counter [r] on, [d] holds [q]. *)
From S2P Require Import Prelude.

Lemma mod_add_inj a n m W : 0 ≤ n < W → 0 ≤ m < W → (a + n) mod W = (a + m) mod W → n = m.
Proof.
  intros Hn Hm E. assert (H : (n - m) mod W = 0).
  { replace (n - m) with ((a + n) - (a + m)) by lia. rewrite Zminus_mod, E, Z.sub_diag. apply Zmod_0_l. }
  apply Z.mod_divide in H as [z Hz]; [|lia]. assert (z = 0) by nia. lia.
Qed.
Section ring.
Context (N : Z) (Npos : 0 < N).
Implicit Types (d q : list Z) (r n : Z).

Definition ring_slot (n : Z) : nat := Z.to_nat (n mod N).
Definition holds (d : list Z) (r : Z) (q : list Z) : Prop :=
  ∀ k b, q !! k = Some b → d !! ring_slot (r + Z.of_nat k) = Some b.

Lemma ring_slot_lt n : (ring_slot n < Z.to_nat N)%nat.
Proof. unfold ring_slot. pose proof (Z.mod_pos_bound n N Npos). lia. Qed.
(** The counter may wrap at any multiple of the size. *)
Lemma ring_slot_mod n W : (N | W) → ring_slot (n mod W) = ring_slot n.
Proof. intros H. unfold ring_slot. f_equal. by apply Z.mod_mod_divide. Qed.
Lemma ring_slot_inj a i j : 0 ≤ i < N → 0 ≤ j < N → ring_slot (a + i) = ring_slot (a + j) → i = j.
Proof.
  unfold ring_slot. intros Hi Hj E%Z2Nat.inj; try (apply Z.mod_pos_bound; lia). by apply (mod_add_inj a i j N).
Qed.
Lemma holds_nil d r : holds d r [].
Proof. intros k b. by rewrite lookup_nil. Qed.
Lemma holds_head d r b q : holds d r (b :: q) → d !! ring_slot r = Some b.
Proof. intros H. specialize (H 0%nat b eq_refl). by rewrite Z.add_0_r in H. Qed.
Lemma holds_mod d r q W : (N | W) → holds d r q → holds d (r mod W) q.
Proof.
  intros HW H k b Hk. rewrite <- (H k b Hk). f_equal. destruct (decide (W = 0)) as [->|]; [by rewrite Zmod_0_r|].
  rewrite <- (ring_slot_mod (r mod W + Z.of_nat k) W HW), Zplus_mod_idemp_l. by apply ring_slot_mod.
Qed.
Lemma holds_tail d r b q : holds d r (b :: q) → holds d (r + 1) q.
Proof. intros H k x Hk. rewrite <- (H (S k) x Hk). do 2 f_equal. lia. Qed.
Lemma holds_app d r q q' : holds d r (q ++ q') → holds d r q.
Proof. intros H k b Hk. apply H. by apply lookup_app_l_Some. Qed.
(** Storing behind the queue, while there is room. *)
Lemma holds_push d r q b : length d = Z.to_nat N → Z.of_nat (length q) < N → holds d r q →
  holds (<[ring_slot (r + Z.of_nat (length q)) := b]> d) r (q ++ [b]).
Proof.
  intros Hd Hq H k x [Hk|[Hge Hk]]%lookup_app_Some.
  - rewrite list_lookup_insert_ne; [by apply H|]. apply lookup_lt_Some in Hk. intros E%ring_slot_inj; lia.
  - apply list_lookup_singleton_Some in Hk as [Hk ->]. replace k with (length q) by lia. apply list_lookup_insert_eq.
    rewrite Hd. apply ring_slot_lt.
Qed.
Lemma holds_last d r q b : holds d r (q ++ [b]) → d !! ring_slot (r + Z.of_nat (length q)) = Some b.
Proof. intros H. apply H. rewrite lookup_app_r by lia. by rewrite Nat.sub_diag. Qed.
(** Counters [a] and [a + n] that wrap at [W] differ by [n]. *)
Lemma counter_eqb a n m W : 0 ≤ n < W → 0 ≤ m < W → ((a + n) mod W =? (a + m) mod W) = (n =? m).
Proof.
  intros Hn Hm. apply eq_true_iff_eq. rewrite !Z.eqb_eq. split; [|by intros ->]. by apply mod_add_inj.
Qed.
End ring.
#[export] Hint Resolve holds_nil holds_head holds_tail holds_app : core.
