(* ===== verification/Virtio.v ===== *)
(** * The disk driver: kernel/virtio_disk.c

    The descriptor table and the two rings that the driver shares with the
    device are fields of [disk], next to the driver's own book-keeping. The
    addresses the driver puts in descriptors are names: the header [ops[i]], the
    data of buffer [b], the status byte of [info[i]]. A buffer is its block
    number, its data and its flag [b->disk]; [store] is the medium, by block.
    Register writes are recorded in [regs]; those that the device acts on later
    also change [notified], how far it was told to look at the avail ring, and
    [isr], its interrupt status, which holds the interrupt line up while it is
    not 0. [virtio_disk_rw] sleeps in two
    places, so a call is a sequence of sections, each run under vdisk_lock. *)
From S2P Require Import Prelude Param CString Mem Kalloc Bio Ring.

Module Virtio.
(** ** kernel/virtio.h *)
(** The registers [VIRTIO_MMIO_..], and where they are. *)
Inductive mmio :=
  | MAGIC_VALUE
  | VERSION
  | DEVICE_ID
  | VENDOR_ID
  | DEVICE_FEATURES
  | DRIVER_FEATURES
  | QUEUE_SEL
  | QUEUE_NUM_MAX
  | QUEUE_NUM
  | QUEUE_READY
  | QUEUE_NOTIFY
  | INTERRUPT_STATUS
  | INTERRUPT_ACK
  | STATUS
  | QUEUE_DESC_LOW
  | QUEUE_DESC_HIGH
  | DRIVER_DESC_LOW
  | DRIVER_DESC_HIGH
  | DEVICE_DESC_LOW
  | DEVICE_DESC_HIGH.
Definition offset (r : mmio) : Z :=
  match r with
  | MAGIC_VALUE => 0x000
  | VERSION => 0x004
  | DEVICE_ID => 0x008
  | VENDOR_ID => 0x00c
  | DEVICE_FEATURES => 0x010
  | DRIVER_FEATURES => 0x020
  | QUEUE_SEL => 0x030
  | QUEUE_NUM_MAX => 0x034
  | QUEUE_NUM => 0x038
  | QUEUE_READY => 0x044
  | QUEUE_NOTIFY => 0x050
  | INTERRUPT_STATUS => 0x060
  | INTERRUPT_ACK => 0x064
  | STATUS => 0x070
  | QUEUE_DESC_LOW => 0x080
  | QUEUE_DESC_HIGH => 0x084
  | DRIVER_DESC_LOW => 0x090
  | DRIVER_DESC_HIGH => 0x094
  | DEVICE_DESC_LOW => 0x0a0
  | DEVICE_DESC_HIGH => 0x0a4
  end.
Definition VIRTIO_CONFIG_S_ACKNOWLEDGE : Z := 1.
Definition VIRTIO_CONFIG_S_DRIVER : Z := 2.
Definition VIRTIO_CONFIG_S_DRIVER_OK : Z := 4.
Definition VIRTIO_CONFIG_S_FEATURES_OK : Z := 8.
Definition VIRTIO_BLK_F_RO : Z := 5.
Definition VIRTIO_BLK_F_SCSI : Z := 7.
Definition VIRTIO_BLK_F_CONFIG_WCE : Z := 11.
Definition VIRTIO_BLK_F_MQ : Z := 12.
Definition VIRTIO_F_ANY_LAYOUT : Z := 27.
Definition VIRTIO_RING_F_INDIRECT_DESC : Z := 28.
Definition VIRTIO_RING_F_EVENT_IDX : Z := 29.
Definition NUM : Z := 8.
Definition VRING_DESC_F_NEXT : Z := 1.
Definition VRING_DESC_F_WRITE : Z := 2.
Definition VIRTIO_BLK_T_IN : Z := 0.
Definition VIRTIO_BLK_T_OUT : Z := 1.

Inductive address := Null | Ops (i : nat) | Data (b : nat) | Status (i : nat).
Record virtq_desc := mkDesc { addr : address; len : Z; flags : Z; next : nat }.
Record virtio_blk_req := mkReq { type : Z; reserved : Z; sector : Z }.
Record dbuf := mkDbuf { blockno : Z; data : mem; ondisk : bool }.
#[export] Instance eta_dbuf : Settable dbuf := λ b, mkDbuf (blockno b) (data b) (ondisk b).
Definition desc0 : virtq_desc := mkDesc Null 0 0 0.
Definition req0 : virtio_blk_req := mkReq 0 0 0.

(** [avail_idx] and [avail_ring] are [avail->idx] and [avail->ring]; [used_at]
    and [used_ring] are [used->idx] and the ids of [used->ring]; [used_idx] is
    how far the driver has looked. *)
Record disk := mkDisk {
  desc : list virtq_desc; avail_idx : Z; avail_ring : list Z; used_at : Z; used_ring : list Z;
  free : list bool; used_idx : Z; info_b : list (option nat); info_status : list Z; ops : list virtio_blk_req;
  pages : list Z; bufs : list dbuf; store : gmap Z mem; regs : list (mmio * Z);
  notified : Z; isr : Z }.
#[export] Instance eta_disk : Settable disk := λ d,
  mkDisk (desc d) (avail_idx d) (avail_ring d) (used_at d) (used_ring d) (free d) (used_idx d) (info_b d) (info_status d) (ops d)
    (pages d) (bufs d) (store d) (regs d) (notified d) (isr d).
Definition vdisk_lock : lock := ("virtio_disk", 0%nat).
Definition free_chan : chan := ("disk.free", 0%nat).
Definition buf_chan (b : nat) : chan := ("buf", b).

(** [disk.f[i] = v] *)
Definition store_at {A} (f : disk → list A) (put : (list A → list A) → disk → disk) (i : nat) (v : A) : M disk unit :=
  o ← gets (λ d, f d !! i); nonnull o;; modify (put (<[i := v]>)).
Definition set_desc (i : nat) (v : virtq_desc) : M disk unit := store_at desc (λ g d, d <| desc ::= g |>) i v.
Definition set_free (i : nat) (v : bool) : M disk unit := store_at free (λ g d, d <| free ::= g |>) i v.
Definition set_info_b (i : nat) (v : option nat) : M disk unit := store_at info_b (λ g d, d <| info_b ::= g |>) i v.
Definition set_status (i : nat) (v : Z) : M disk unit := store_at info_status (λ g d, d <| info_status ::= g |>) i v.
Definition set_ops (i : nat) (v : virtio_blk_req) : M disk unit := store_at ops (λ g d, d <| ops ::= g |>) i v.
Definition set_avail (i : nat) (v : Z) : M disk unit := store_at avail_ring (λ g d, d <| avail_ring ::= g |>) i v.
Definition get_buf (b : nat) : M disk dbuf := o ← gets (λ d, bufs d !! b); nonnull o.
Definition set_ondisk (b : nat) (v : bool) : M disk unit :=
  x ← get_buf b; modify (λ d, d <| bufs ::= <[b := x <| ondisk := v |>]> |>).
(** What the device keeps of a write to its registers. *)
Definition effect (r : mmio) (v : Z) (d : disk) : disk :=
  match r with
  | QUEUE_NOTIFY => d <| notified := avail_idx d |>
  | INTERRUPT_ACK => d <| isr ::= λ i, Z.land i (Z.lnot v) |>
  | STATUS => if v =? 0 then d <| notified := 0 |> <| isr := 0 |> else d
  | _ => d
  end.
(** [*R(r) = v] *)
Definition WriteR (r : mmio) (v : Z) : M disk unit := modify (λ d, effect r v d <| regs ::= λ l, l ++ [(r, v)] |>).

(** ** Descriptors *)
Fixpoint alloc_desc_loop (n : nat) (i : nat) : M disk (option nat) :=
  match n with
  | O => ret None
  | S n =>
      o ← gets (λ d, free d !! i);
      f ← nonnull o;
      if f : bool then set_free i false;; ret (Some i) else alloc_desc_loop n (S i)
  end.
Definition alloc_desc : M disk (option nat) := alloc_desc_loop (Z.to_nat NUM) 0.
Definition free_desc (i : nat) : M disk unit :=
  when (Z.of_nat i >=? NUM) (panic "free_desc 1");;
  o ← gets (λ d, free d !! i);
  f ← nonnull o;
  when f (panic "free_desc 2");;
  set_desc i desc0;;
  set_free i true;;
  notify free_chan.
Fixpoint free_chain_loop (k : nat) (i : nat) : M disk unit :=
  match k with
  | O => timeout
  | S k =>
      o ← gets (λ d, desc d !! i);
      x ← nonnull o;
      free_desc i;;
      if negb (Z.land (flags x) VRING_DESC_F_NEXT =? 0) then free_chain_loop k (next x) else ret ()
  end.
Definition free_chain (i : nat) : M disk unit := free_chain_loop (S (Z.to_nat NUM)) i.
Fixpoint free_all (idx : list nat) : M disk unit :=
  match idx with [] => ret () | i :: idx => free_desc i;; free_all idx end.
Fixpoint alloc3_loop (n : nat) (idx : list nat) : M disk (option (list nat)) :=
  match n with
  | O => ret (Some idx)
  | S n =>
      o ← alloc_desc;
      match o with
      | None => free_all idx;; ret None
      | Some i => alloc3_loop n (idx ++ [i])
      end
  end.
Definition alloc3_desc : M disk (option (list nat)) := alloc3_loop 3 [].

(** ** A transfer *)
Inductive ending := Return | SleepFree | SleepBuf (i : nat).
Definition data_flags (write : bool) : Z := Z.lor (if write then 0 else VRING_DESC_F_WRITE) VRING_DESC_F_NEXT.
(** The three descriptors are formatted and handed to the device. *)
Definition submit (b : nat) (write : bool) (i0 i1 i2 : nat) : M disk unit :=
  x ← get_buf b;
  set_ops i0 (mkReq (if write then VIRTIO_BLK_T_OUT else VIRTIO_BLK_T_IN) 0 (u32 (blockno x * (BSIZE / 512))));;
  set_desc i0 (mkDesc (Ops i0) 16 VRING_DESC_F_NEXT i1);;
  set_desc i1 (mkDesc (Data b) BSIZE (data_flags write) i2);;
  set_status i0 0xff;;
  set_desc i2 (mkDesc (Status i0) 1 VRING_DESC_F_WRITE 0);;
  set_ondisk b true;;
  set_info_b i0 (Some b);;
  d ← gets id;
  set_avail (ring_slot NUM (avail_idx d)) (Z.of_nat i0);;
  modify (λ d, d <| avail_idx ::= λ n, u16 (n + 1) |>);;
  WriteR QUEUE_NOTIFY 0.
(** [while(b->disk == 1) sleep(..)] and what follows it. *)
Definition rw_wait (b : nat) (i0 : nat) : M disk ending :=
  x ← get_buf b;
  if ondisk x then release vdisk_lock;; ret (SleepBuf i0)
  else
    set_info_b i0 None;;
    free_chain i0;;
    release vdisk_lock;;
    ret Return.
(** virtio_disk_rw from its start, or after a sleep for descriptors. *)
Definition virtio_disk_rw (b : nat) (write : bool) : M disk ending :=
  acquire vdisk_lock;;
  o ← alloc3_desc;
  match o with
  | None => release vdisk_lock;; ret SleepFree
  | Some idx =>
      match idx with
      | [i0; i1; i2] => submit b write i0 i1 i2;; rw_wait b i0
      | _ => fault
      end
  end.
(** The same after a sleep for the device. *)
Definition virtio_disk_rw_woken (b : nat) (i0 : nat) : M disk ending :=
  acquire vdisk_lock;; rw_wait b i0.

(** ** Interrupts *)
Fixpoint intr_loop (k : nat) : M disk unit :=
  d ← gets id;
  if used_idx d =? used_at d then ret ()
  else
    match k with
    | O => timeout
    | S k =>
        id ← nonnull (used_ring d !! ring_slot NUM (used_idx d));
        st ← nonnull (info_status d !! Z.to_nat id);
        when (negb (st =? 0)) (panic "virtio_disk_intr status");;
        o ← nonnull (info_b d !! Z.to_nat id);
        b ← nonnull o;
        set_ondisk b false;;
        notify (buf_chan b);;
        modify (λ d, d <| used_idx ::= λ n, u16 (n + 1) |>);;
        intr_loop k
    end.
Definition virtio_disk_intr : M disk unit :=
  acquire vdisk_lock;;
  status ← gets isr;
  WriteR INTERRUPT_ACK (Z.land status 0x3);;
  d ← gets id;
  intr_loop (Z.to_nat (u16 (used_at d - used_idx d)));;
  release vdisk_lock.

(** ** Initialisation

    [read] tells what a register reads, given the writes so far. *)
Record vsys := mkVsys { vd : disk; vk : kmem }.
#[export] Instance eta_vsys : Settable vsys := λ s, mkVsys (vd s) (vk s).
Section init.
Context (read : list (mmio * Z) → mmio → Z).
Definition dop {A} (m : M disk A) : M vsys A := zoom vd (λ d s, s <| vd := d |>) m.
Definition kop {A} (m : M kmem A) : M vsys A := zoom vk (λ k s, s <| vk := k |>) m.
Definition ReadR (r : mmio) : M vsys Z := gets (λ s, read (regs (vd s)) r).
Definition put_status (v : Z) : M vsys unit := dop (WriteR STATUS v).
Definition without (l : list Z) (features : Z) : Z := fold_left (λ f b, Z.land f (Z.lnot (Z.shiftl 1 b))) l features.
Definition negotiate : M vsys unit :=
  features ← ReadR DEVICE_FEATURES;
  dop (WriteR DRIVER_FEATURES (u32 (without [VIRTIO_BLK_F_RO; VIRTIO_BLK_F_SCSI; VIRTIO_BLK_F_CONFIG_WCE; VIRTIO_BLK_F_MQ;
    VIRTIO_F_ANY_LAYOUT; VIRTIO_RING_F_EVENT_IDX; VIRTIO_RING_F_INDIRECT_DESC] features))).
Definition put_address (low high : mmio) (a : Z) : M vsys unit :=
  dop (WriteR low (u32 a));; dop (WriteR high (u32 (Z.shiftr a 32))).
Fixpoint free_from (n : nat) (i : nat) : M disk unit :=
  match n with O => ret () | S n => set_free i true;; free_from n (S i) end.
(** The zeroed pages, seen as the descriptor table and the two rings. *)
Definition clear_rings (p : list Z) (d : disk) : disk :=
  let n := Z.to_nat NUM in
  mkDisk (repeat desc0 n) 0 (repeat 0 n) 0 (repeat 0 n) (free d) (used_idx d) (info_b d) (info_status d) (ops d) p (bufs d) (store d) (regs d) (notified d) (isr d).
Definition virtio_disk_init : M vsys unit :=
  magic ← ReadR MAGIC_VALUE; version ← ReadR VERSION; device ← ReadR DEVICE_ID; vendor ← ReadR VENDOR_ID;
  when (negb (magic =? 0x74726976) || negb (version =? 2) || negb (device =? 2) || negb (vendor =? 0x554d4551))
    (panic "could not find virtio disk");;
  put_status 0;;
  let status := Z.lor 0 VIRTIO_CONFIG_S_ACKNOWLEDGE in
  put_status status;;
  let status := Z.lor status VIRTIO_CONFIG_S_DRIVER in
  put_status status;;
  negotiate;;
  let status := Z.lor status VIRTIO_CONFIG_S_FEATURES_OK in
  put_status status;;
  status ← ReadR STATUS;
  when (Z.land status VIRTIO_CONFIG_S_FEATURES_OK =? 0) (panic "virtio disk FEATURES_OK unset");;
  dop (WriteR QUEUE_SEL 0);;
  ready ← ReadR QUEUE_READY;
  when (negb (ready =? 0)) (panic "virtio disk should not be ready");;
  max ← ReadR QUEUE_NUM_MAX;
  when (max =? 0) (panic "virtio disk has no queue 0");;
  when (max <? NUM) (panic "virtio disk max queue too short");;
  pdesc ← kop kalloc; pavail ← kop kalloc; pused ← kop kalloc;
  when ((pdesc =? 0) || (pavail =? 0) || (pused =? 0)) (panic "virtio disk kalloc");;
  kop (do_memset pdesc 0 PGSIZE);; kop (do_memset pavail 0 PGSIZE);; kop (do_memset pused 0 PGSIZE);;
  dop (modify (clear_rings [pdesc; pavail; pused]));;
  dop (WriteR QUEUE_NUM NUM);;
  put_address QUEUE_DESC_LOW QUEUE_DESC_HIGH pdesc;;
  put_address DRIVER_DESC_LOW DRIVER_DESC_HIGH pavail;;
  put_address DEVICE_DESC_LOW DEVICE_DESC_HIGH pused;;
  dop (WriteR QUEUE_READY 0x1);;
  dop (free_from (Z.to_nat NUM) 0);;
  put_status (Z.lor status VIRTIO_CONFIG_S_DRIVER_OK).
End init.
End Virtio.
