(* ===== verification/VirtioSpec.v ===== *)
(** * The disk driver and the device

    What the device does with the rings is its contract: it takes heads from
    the avail ring in order, at least as far as it was notified of them, and
    carries out the requests it took in any order, with success, so that the
    status byte is 0, and raising its interrupt. It raises it at every
    completion, as the driver leaves [avail->flags] 0 and has not negotiated
    VIRTIO_RING_F_EVENT_IDX.
    Any number of calls of virtio_disk_rw, interrupts and steps of a device that
    keeps the contract interleave. *)
From S2P Require Import Prelude Param CString Mem Kalloc Bio Ring Virtio.
Import Virtio.

(** ** The device *)
Record device := mkDevice { seen : Z; work : list nat }.
(** The request at head [h], as the chain of descriptors describes it: its
    block, whether it writes the medium, the buffer and the status byte. *)
Definition request (d : disk) (h : nat) : option (Z * bool * nat * nat) :=
  match desc d !! h with
  | Some (mkDesc (Ops o) 16 f0 i1) =>
      match desc d !! i1, ops d !! o with
      | Some (mkDesc (Data b) l1 f1 i2), Some r =>
          match desc d !! i2 with
          | Some (mkDesc (Status s) 1 f2 _) =>
              let wr := type r =? VIRTIO_BLK_T_OUT in
              if (f0 =? VRING_DESC_F_NEXT) && (l1 =? BSIZE) && (f1 =? data_flags wr) && (f2 =? VRING_DESC_F_WRITE)
              then Some (sector r / (BSIZE / 512), wr, b, s) else None
          | _ => None
          end
      | _, _ => None
      end
  | _ => None
  end.
(** The transfer is made, the status byte cleared, the head returned and the
    interrupt raised. *)
Definition carry_out (d : disk) (h : nat) : option disk :=
  match request d h with
  | Some (n, wr, b, s) =>
      match bufs d !! b with
      | Some x =>
          Some ((if wr : bool then d <| store ::= <[n := data x]> |> else d <| bufs ::= <[b := x <| data := default ∅ (store d !! n) |>]> |>)
            <| info_status ::= <[s := 0]> |> <| used_ring ::= <[ring_slot NUM (used_at d) := Z.of_nat h]> |> <| used_at ::= λ n, u16 (n + 1) |>
            <| isr ::= Z.lor 1 |>)
      | None => None
      end
  | None => None
  end.
Inductive contract : disk * device → disk * device → Prop :=
  | fetches d v h : seen v ≠ avail_idx d → avail_ring d !! ring_slot NUM (seen v) = Some h →
      contract (d, v) (d, mkDevice (u16 (seen v + 1)) (work v ++ [Z.to_nat h]))
  | completes d v h rest d' : work v ≡ₚ h :: rest → carry_out d h = Some d' → contract (d, v) (d', mkDevice (seen v) rest).

(** ** Free descriptors *)
Fixpoint nfree (l : list bool) : nat := match l with [] => 0 | b :: l => (if b : bool then 1 else 0) + nfree l end.
Lemma nfree_insert l i (b c : bool) : l !! i = Some b → (nfree (<[i := c]> l) + (if b then 1 else 0) = nfree l + (if c then 1 else 0))%nat.
Proof. revert i. induction l as [|x l IH]; intros [|i] Hi; simplify_eq/=; [lia|]. specialize (IH i Hi). lia. Qed.
Lemma nfree_none l : (∀ i, l !! i ≠ Some true) → nfree l = 0%nat.
Proof.
  induction l as [|b l IH]; intros H; [done|]. cbn. destruct b; [by destruct (H 0%nat)|]. apply IH. intros i. apply (H (S i)).
Qed.

Section store.
Implicit Types d : disk.
Lemma wp_store {A} (f : disk → list A) put i (v : A) Φ h k d : is_Some (f d !! i) → Φ () (World h k (put (<[i := v]>) d)) →
  wp (store_at f put i v) Φ (World h k d).
Proof. intros [x Hx] H. unfold store_at. apply wp_bind, wp_gets. cbn [st]. rewrite Hx. cbn [nonnull]. apply wp_bind, wp_ret, wp_modify. exact H. Qed.
Lemma wp_get_buf b x Φ h k d : bufs d !! b = Some x → Φ x (World h k d) → wp (get_buf b) Φ (World h k d).
Proof. intros Hx H. unfold get_buf. apply wp_bind, wp_gets. cbn [st]. rewrite Hx. exact H. Qed.
Lemma wp_set_ondisk b x v Φ h k d : bufs d !! b = Some x → Φ () (World h k (d <| bufs ::= <[b := x <| ondisk := v |>]> |>)) →
  wp (set_ondisk b v) Φ (World h k d).
Proof. intros Hx H. unfold set_ondisk. apply wp_bind. eapply wp_get_buf; [done|]. apply wp_modify. exact H. Qed.
End store.

Section descs.
Implicit Types d : disk.
Lemma alloc_desc_spec d h k : length (free d) = 8%nat →
  wp alloc_desc (λ r w', match r with
    | None => w' = World h k d ∧ nfree (free d) = 0%nat
    | Some i => free d !! i = Some true ∧ w' = World h k (d <| free ::= <[i := false]> |>)
    end) (World h k d).
Proof.
  intros Hlen. unfold alloc_desc. change (Z.to_nat NUM) with 8%nat.
  assert (H : ∀ n i, (i + n = 8)%nat → (∀ j, (j < i)%nat → free d !! j ≠ Some true) → wp (alloc_desc_loop n i) (λ r w', match r with
    | None => w' = World h k d ∧ nfree (free d) = 0%nat
    | Some i => free d !! i = Some true ∧ w' = World h k (d <| free ::= <[i := false]> |>) end) (World h k d)).
  { induction n as [|n IH]; intros i Hi Hb; cbn [alloc_desc_loop].
    - apply wp_ret. split; [done|]. apply nfree_none. intros j Hj. apply (Hb j); [|done]. apply lookup_lt_Some in Hj. lia.
    - apply wp_bind, wp_gets. cbn [st]. destruct (lookup_lt_is_Some_2 (free d) i) as [b Eb]; [lia|]. rewrite Eb. cbn [nonnull]. apply wp_bind, wp_ret. destruct b.
      + apply wp_bind, wp_store; [by eauto|]. by apply wp_ret.
      + apply IH; [lia|]. intros j Hj. destruct (decide (j = i)) as [->|]; [congruence|apply Hb; lia]. }
  by apply H; [|lia].
Qed.
Lemma free_desc_spec d i Φ h k : length (desc d) = 8%nat → free d !! i = Some false → (i < 8)%nat →
  Φ () (World h (k ++ [free_chan]) (d <| desc ::= <[i := desc0]> |> <| free ::= <[i := true]> |>)) → wp (free_desc i) Φ (World h k d).
Proof.
  intros Hl Hf Hi H. unfold free_desc. apply wp_bind, wp_when. destruct (Z.geb_spec (Z.of_nat i) NUM); [unfold NUM in *; lia|].
  apply wp_bind, wp_gets. cbn [st]. rewrite Hf. cbn [nonnull]. apply wp_bind, wp_ret, wp_bind, wp_when.
  apply wp_bind, wp_store; [apply lookup_lt_is_Some_2; lia|]. apply wp_bind, wp_store; [cbn; eauto|]. apply wp_notify. exact H.
Qed.
(** The entries of [idx] set to [v]. *)
Fixpoint put_all {A} (v : A) (idx : list nat) (l : list A) : list A := match idx with [] => l | i :: idx => <[i := v]> (put_all v idx l) end.
Lemma length_put_all {A} (v : A) idx l : length (put_all v idx l) = length l.
Proof. induction idx; cbn; [done|]. by rewrite length_insert. Qed.
Lemma put_all_in {A} (v : A) idx l i : i ∈ idx → (i < length l)%nat → put_all v idx l !! i = Some v.
Proof.
  intros Hi Hl. induction idx as [|j idx IH]; [by apply elem_of_nil in Hi|]. cbn. destruct (decide (i = j)) as [->|Hne].
  - apply list_lookup_insert_eq. by rewrite length_put_all.
  - rewrite list_lookup_insert_ne by done. apply IH. set_solver.
Qed.
Lemma put_all_out {A} (v : A) idx l i : i ∉ idx → put_all v idx l !! i = l !! i.
Proof. intros Hi. induction idx as [|j idx IH]; [done|]. cbn. rewrite list_lookup_insert_ne by set_solver. apply IH. set_solver. Qed.
Lemma put_all_insert {A} (v : A) idx i l : i ∉ idx → put_all v idx (<[i := v]> l) = <[i := v]> (put_all v idx l).
Proof. intros Hi. induction idx as [|j idx IH]; [done|]. cbn [put_all]. rewrite IH by set_solver. apply list_insert_insert_ne. set_solver. Qed.
Lemma put_all_snoc {A} (v : A) idx i l : i ∉ idx → put_all v (idx ++ [i]) l = <[i := v]> (put_all v idx l).
Proof. intros Hi. rewrite <- put_all_insert by done. clear Hi. induction idx as [|j idx IH]; cbn; [done|]. by rewrite IH. Qed.
Lemma put_all_back (l : list bool) idx : (∀ i, i ∈ idx → l !! i = Some true) → put_all true idx (put_all false idx l) = l.
Proof.
  intros H. apply list_eq. intros i. destruct (decide (i ∈ idx)) as [Hi|Hi].
  - rewrite (H i Hi). apply put_all_in; [done|]. rewrite length_put_all. apply H in Hi. by eapply lookup_lt_Some.
  - by rewrite !put_all_out.
Qed.
Lemma nfree_put (l : list bool) idx : NoDup idx → (∀ i, i ∈ idx → l !! i = Some true) → (nfree (put_all false idx l) + length idx = nfree l)%nat.
Proof.
  induction idx as [|i idx IH]; intros Hnd H; cbn [put_all length]; [lia|]. apply NoDup_cons in Hnd as [Hi Hnd].
  assert (E : put_all false idx l !! i = Some true) by (rewrite put_all_out by done; apply H; set_solver).
  pose proof (nfree_insert _ i _ false E) as N. cbv iota in N. specialize (IH Hnd ltac:(set_solver)). lia.
Qed.
Lemma free_all_spec idx : ∀ d h k, length (desc d) = 8%nat → NoDup idx → (∀ i, i ∈ idx → (i < 8)%nat ∧ free d !! i = Some false) →
  wp (free_all idx) (λ _ w', ∃ l, w' = World h (k ++ replicate (length idx) free_chan) (d <| desc := l |> <| free ::= put_all true idx |>) ∧
    length l = length (desc d) ∧ ∀ i, i ∉ idx → l !! i = desc d !! i) (World h k d).
Proof.
  induction idx as [|i idx IH]; intros d h k Hd Hnd Hf; cbn [free_all].
  { apply wp_ret. exists (desc d). cbn. rewrite app_nil_r. by destruct d. }
  apply NoDup_cons in Hnd as [Hi Hnd]. destruct (Hf i) as [Hlt Hfi]; [set_solver|]. apply wp_bind, free_desc_spec; [done|done|done|].
  eapply wp_mono; [apply IH; [cbn; by rewrite length_insert|done|]|].
  - intros j Hj. destruct (Hf j) as [? ?]; [set_solver|]. split; [done|]. cbn. rewrite list_lookup_insert_ne; [done|]. set_solver.
  - intros _ w' (l & -> & Hl & Ho). exists l. rewrite <- app_assoc. split; [|split].
    + unfold set_field; cbn. by rewrite put_all_insert.
    + rewrite Hl. cbn. by rewrite length_insert.
    + intros j Hj. rewrite Ho by set_solver. cbn. rewrite list_lookup_insert_ne by set_solver. done.
Qed.
(** What a failed allocation leaves: nothing but cleared free descriptors. *)
Definition scrubbed (d d' : disk) : Prop := ∃ l, d' = d <| desc := l |> ∧ length l = length (desc d) ∧
  ∀ i, free d !! i = Some false → l !! i = desc d !! i.
Lemma alloc3_loop_spec n : ∀ idx d h k, length (free d) = 8%nat → length (desc d) = 8%nat → NoDup idx → (∀ i, i ∈ idx → free d !! i = Some true) →
  wp (alloc3_loop n idx) (λ r w', match r with
    | None => ∃ d' m, w' = World h (k ++ replicate m free_chan) d' ∧ scrubbed d d' ∧ (nfree (free d) < length idx + n)%nat
    | Some idx' => length idx' = (length idx + n)%nat ∧ NoDup idx' ∧ (∀ i, i ∈ idx' → free d !! i = Some true) ∧
        w' = World h k (d <| free ::= put_all false idx' |>)
    end) (World h k (d <| free ::= put_all false idx |>)).
Proof.
  induction n as [|n IH]; intros idx d h k Hl Hd Hnd Hf; cbn [alloc3_loop]; [apply wp_ret; split_and!; [lia|done..]|].
  apply wp_bind. eapply wp_mono; [apply alloc_desc_spec; cbn; by rewrite length_put_all|]. cbn [free set_field]. intros [i|] w' H0.
  - destruct H0 as [F0 ->]. destruct (decide (i ∈ idx)) as [Hin|Hin].
    { rewrite put_all_in in F0; [done|done|]. apply Hf in Hin. by eapply lookup_lt_Some. }
    rewrite put_all_out in F0 by done. assert (E : (d <| free ::= put_all false idx |>) <| free ::= <[i := false]> |> = d <| free ::= put_all false (idx ++ [i]) |>) by (unfold set_field; cbn; by rewrite put_all_snoc).
    rewrite E. clear E. eapply wp_mono; [apply (IH (idx ++ [i]) d); [done|done|apply NoDup_app; split_and!; [done|set_solver|apply NoDup_singleton]|set_solver]|].
    intros [idx'|] w''; rewrite length_app; cbn [length].
    + intros (E & H). split; [lia|exact H].
    + intros (d' & m & -> & Hs & Hn). exists d', m. split_and!; [done|done|lia].
  - destruct H0 as [-> Hn]. pose proof (nfree_put _ _ Hnd Hf) as E. apply wp_bind. eapply wp_mono; [apply free_all_spec; [done|done|]|].
    + intros i Hi. pose proof (Hf i Hi) as Hi'. apply lookup_lt_Some in Hi'. split; [lia|]. by apply put_all_in.
    + intros _ w' (l & -> & Hll & Ho). apply wp_ret. eexists _, _. split; [done|]. split; [|lia]. exists l. split; [|split; [done|]].
      * unfold set_field; cbn. by rewrite put_all_back.
      * intros i Hi. apply Ho. intros Hin. rewrite (Hf i Hin) in Hi. done.
Qed.
Lemma alloc3_spec d h k : length (free d) = 8%nat → length (desc d) = 8%nat →
  wp alloc3_desc (λ r w', match r with
    | None => ∃ d' m, w' = World h (k ++ replicate m free_chan) d' ∧ scrubbed d d' ∧ (nfree (free d) < 3)%nat
    | Some idx => ∃ i0 i1 i2, idx = [i0; i1; i2] ∧ NoDup idx ∧ (∀ i, i ∈ idx → free d !! i = Some true) ∧
        w' = World h k (d <| free ::= put_all false idx |>)
    end) (World h k d).
Proof.
  intros Hl Hd. unfold alloc3_desc. pose proof (alloc3_loop_spec 3 [] d h k Hl Hd (NoDup_nil_2) ltac:(set_solver)) as H.
  assert (E : d <| free ::= put_all false [] |> = d) by (by destruct d). rewrite E in H. eapply wp_mono; [exact H|]. clear H E. intros [idx|] w'; [|done].
  intros (E & H). destruct idx as [|i0 [|i1 [|i2 [|]]]]; try done. exists i0, i1, i2. done.
Qed.

(** ** Requests in flight

    The chain of a request: its second and third descriptor, its buffer, its
    direction and the call that made it. *)
Record flight := mkFlight { f1 : nat; f2 : nat; fb : nat; fw : bool; ft : nat }.
Definition members (h : nat) (f : flight) : list nat := [h; f1 f; f2 f].
Record chain (d : disk) (h : nat) (f : flight) : Prop := {
  c0 : desc d !! h = Some (mkDesc (Ops h) 16 VRING_DESC_F_NEXT (f1 f));
  c1 : desc d !! f1 f = Some (mkDesc (Data (fb f)) BSIZE (data_flags (fw f)) (f2 f));
  c2 : desc d !! f2 f = Some (mkDesc (Status h) 1 VRING_DESC_F_WRITE 0);
  c_info : info_b d !! h = Some (Some (fb f));
  c_req : ∃ x, bufs d !! fb f = Some x ∧
    ops d !! h = Some (mkReq (if fw f then VIRTIO_BLK_T_OUT else VIRTIO_BLK_T_IN) 0 (u32 (blockno x * (BSIZE / 512))));
}.
Record lens (d : disk) : Prop := {
  l_desc : length (desc d) = 8%nat; l_avail : length (avail_ring d) = 8%nat; l_used : length (used_ring d) = 8%nat;
  l_free : length (free d) = 8%nat; l_info : length (info_b d) = 8%nat; l_status : length (info_status d) = 8%nat; l_ops : length (ops d) = 8%nat;
}.
Definition submitted (d : disk) (b : nat) (x : dbuf) (w : bool) (i0 i1 i2 : nat) : disk :=
  d <| ops ::= <[i0 := mkReq (if w then VIRTIO_BLK_T_OUT else VIRTIO_BLK_T_IN) 0 (u32 (blockno x * (BSIZE / 512)))]> |>
    <| desc ::= λ l, <[i2 := mkDesc (Status i0) 1 VRING_DESC_F_WRITE 0]> (<[i1 := mkDesc (Data b) BSIZE (data_flags w) i2]>
         (<[i0 := mkDesc (Ops i0) 16 VRING_DESC_F_NEXT i1]> l)) |>
    <| info_status ::= <[i0 := 0xff]> |> <| bufs ::= <[b := x <| ondisk := true |>]> |> <| info_b ::= <[i0 := Some b]> |>
    <| avail_ring ::= <[ring_slot NUM (avail_idx d) := Z.of_nat i0]> |> <| avail_idx ::= λ n, u16 (n + 1) |>
    <| notified := u16 (avail_idx d + 1) |> <| regs ::= λ l, l ++ [(QUEUE_NOTIFY, 0)] |>.
Lemma slot_lt n : (ring_slot NUM n < 8)%nat.
Proof. by apply ring_slot_lt. Qed.
Lemma submit_spec d b x w i0 i1 i2 Φ h k : lens d → bufs d !! b = Some x → (i0 < 8)%nat → (i1 < 8)%nat → (i2 < 8)%nat →
  Φ () (World h k (submitted d b x w i0 i1 i2)) → wp (submit b w i0 i1 i2) Φ (World h k d).
Proof.
  intros [] Hb H0 H1 H2 H. unfold submit.
  apply wp_bind. eapply wp_get_buf; [done|].
  apply wp_bind, wp_store; [apply lookup_lt_is_Some_2; lia|].
  apply wp_bind, wp_store; [apply lookup_lt_is_Some_2; cbn; lia|].
  apply wp_bind, wp_store; [apply lookup_lt_is_Some_2; cbn; rewrite length_insert; lia|].
  apply wp_bind, wp_store; [apply lookup_lt_is_Some_2; cbn; lia|].
  apply wp_bind, wp_store; [apply lookup_lt_is_Some_2; cbn; rewrite !length_insert; lia|].
  apply wp_bind. eapply wp_set_ondisk; [done|].
  apply wp_bind, wp_store; [apply lookup_lt_is_Some_2; cbn; lia|].
  apply wp_bind, wp_gets. cbn [st id avail_idx set_field].
  apply wp_bind, wp_store; [apply lookup_lt_is_Some_2; cbn; rewrite l_avail0; apply slot_lt|].
  apply wp_bind, wp_modify, wp_modify. exact H.
Qed.
Lemma free_chain_step n d i x Φ h k : length (desc d) = 8%nat → desc d !! i = Some x → free d !! i = Some false → (i < 8)%nat →
  (let w' := World h (k ++ [free_chan]) (d <| desc ::= <[i := desc0]> |> <| free ::= <[i := true]> |>) in
   if negb (Z.land (flags x) VRING_DESC_F_NEXT =? 0) then wp (free_chain_loop n (next x)) Φ w' else Φ () w') → wp (free_chain_loop (S n) i) Φ (World h k d).
Proof.
  intros Hl Hx Hf Hi H. cbn [free_chain_loop]. apply wp_bind, wp_gets. cbn [st]. rewrite Hx. cbn [nonnull].
  apply wp_bind, wp_ret, wp_bind, free_desc_spec; [done|done|done|]. by destruct (negb _).
Qed.
Lemma free_chain_spec d0 d i f Φ h k : lens d → chain d0 i f → desc d = desc d0 → NoDup (members i f) → (∀ j, j ∈ members i f → free d !! j = Some false) →
  Φ () (World h (k ++ [free_chan; free_chan; free_chan])
    (d <| desc ::= put_all desc0 [f2 f; f1 f; i] |> <| free ::= put_all true [f2 f; f1 f; i] |>)) → wp (free_chain i) Φ (World h k d).
Proof.
  intros [] [E0 E1 E2 _ _] Ed Hnd Hf H. rewrite <- Ed in E0, E1, E2. unfold members in *.
  assert (Hlt : ∀ j, j ∈ [i; f1 f; f2 f] → (j < 8)%nat) by (intros j Hj; apply Hf, lookup_lt_Some in Hj; lia).
  apply NoDup_cons in Hnd as [Hi Hnd]. apply NoDup_cons in Hnd as [H1 _]. assert (i ≠ f1 f ∧ i ≠ f2 f ∧ f1 f ≠ f2 f) as (N1 & N2 & N3) by set_solver.
  assert (Ew : ∀ w, negb (Z.land (data_flags w) VRING_DESC_F_NEXT =? 0) = true) by (by intros []).
  unfold free_chain. change (S (Z.to_nat NUM)) with 9%nat. eapply free_chain_step; [done|exact E0|apply Hf; set_solver|apply Hlt; set_solver|].
  cbn [flags next]. change (negb (Z.land VRING_DESC_F_NEXT VRING_DESC_F_NEXT =? 0)) with true. cbv iota zeta.
  eapply free_chain_step; [cbn; by rewrite length_insert|cbn; rewrite list_lookup_insert_ne by done; exact E1|cbn; rewrite list_lookup_insert_ne by done; apply Hf; set_solver|apply Hlt; set_solver|].
  cbn [flags next]. rewrite Ew. cbv iota zeta.
  eapply free_chain_step; [cbn; by rewrite !length_insert|cbn; rewrite !list_lookup_insert_ne by done; exact E2|cbn; rewrite !list_lookup_insert_ne by done; apply Hf; set_solver|apply Hlt; set_solver|].
  cbn [flags next]. change (negb (Z.land VRING_DESC_F_WRITE VRING_DESC_F_NEXT =? 0)) with false. cbv iota zeta. rewrite <- !app_assoc. exact H.
Qed.
End descs.
