(* ===== verification/VirtioSys.v ===== *)
(** * Transfers through the driver are atomic disk operations

    Calls of virtio_disk_rw by any number of processes, interrupts and the steps
    of a device that keeps its contract interleave; together they implement a
    disk that performs each transfer at one moment between the call and its
    return. *)
From S2P Require Import Prelude Param CString Mem Kalloc Bio Ring Virtio VirtioSpec.
Import Virtio.

(** ** The invariant of the descriptors *)
Record DI (d : disk) (fl : gmap nat flight) : Prop := {
  di_lens : lens d;
  di_chain h f : fl !! h = Some f → chain d h f;
  di_nd h f : fl !! h = Some f → NoDup (members h f);
  di_disj h h' f f' i : fl !! h = Some f → fl !! h' = Some f' → i ∈ members h f → i ∈ members h' f' → h = h';
  di_free i : free d !! i = Some false ↔ ∃ h f, fl !! h = Some f ∧ i ∈ members h f;
}.
Lemma DI_ext d d' fl : DI d fl → lens d' → desc d' = desc d → info_b d' = info_b d → ops d' = ops d → free d' = free d →
  (∀ b x, bufs d !! b = Some x → ∃ x', bufs d' !! b = Some x' ∧ blockno x' = blockno x) → DI d' fl.
Proof.
  intros [HL HC HN HD HF] HL' E1 E2 E3 E4 Hb. split; [done| |done|done|by rewrite E4]. intros h f Hf. destruct (HC h f Hf) as [C0 C1 C2 Ci (x & Hx & Ho)].
  split; rewrite ?E1, ?E2, ?E3; try done. destruct (Hb _ _ Hx) as (x' & Hx' & E). exists x'. by rewrite E.
Qed.
Lemma member_free d fl h f i : DI d fl → fl !! h = Some f → i ∈ members h f → free d !! i = Some false.
Proof. intros HD Hf Hi. apply (di_free _ _ HD). eauto. Qed.
Lemma member_lt d fl h f i : DI d fl → fl !! h = Some f → i ∈ members h f → (i < 8)%nat.
Proof. intros HD Hf Hi. rewrite <- (l_free _ (di_lens _ _ HD)). eapply lookup_lt_Some. by eapply member_free. Qed.
Lemma member_head h f : h ∈ members h f.
Proof. apply list_elem_of_here. Qed.
Lemma DI_scrubbed d d' fl : DI d fl → scrubbed d d' → DI d' fl.
Proof.
  intros HD (l & -> & Hl & Ho). pose proof HD as [HL HC HN HDj HF]. split; [|intros h f Hf|done|done|done].
  - destruct HL. split; cbn; congruence.
  - destruct (HC h f Hf) as [C0 C1 C2 Ci Cr]. split; cbn; try done; rewrite Ho; try done; (eapply member_free; [done|done|unfold members; set_solver]).
Qed.
Lemma lens_submitted d b x w i0 i1 i2 idx : lens d → lens (submitted (d <| free ::= put_all false idx |>) b x w i0 i1 i2).
Proof. intros []. split; cbn; rewrite ?length_insert, ?length_put_all; done. Qed.
Lemma DI_submitted d fl b x w i0 i1 i2 t : DI d fl → bufs d !! b = Some x → NoDup [i0; i1; i2] → (∀ i, i ∈ [i0; i1; i2] → free d !! i = Some true) →
  DI (submitted (d <| free ::= put_all false [i0; i1; i2] |>) b x w i0 i1 i2) (<[i0 := mkFlight i1 i2 b w t]> fl).
Proof.
  intros HD Hx Hnd Hf. pose proof HD as [HL HC HN HDj HF]. set (f := mkFlight i1 i2 b w t). set (d' := submitted _ _ _ _ _ _ _).
  assert (Hnew : ∀ h g i, fl !! h = Some g → i ∈ members h g → i ∉ members i0 f).
  { intros h g i Hg Hi Hi'. pose proof (member_free _ _ _ _ _ HD Hg Hi). rewrite (Hf i) in H; done. }
  assert (Hlt : ∀ i, i ∈ [i0; i1; i2] → (i < 8)%nat) by (intros i Hi; apply Hf, lookup_lt_Some in Hi; destruct HL; lia).
  assert (N : i0 ≠ i1 ∧ i0 ≠ i2 ∧ i1 ≠ i2) by (rewrite !NoDup_cons in Hnd; set_solver). destruct N as (N1 & N2 & N3).
  assert (L0 : (i0 < 8)%nat) by (apply Hlt; set_solver). assert (L1 : (i1 < 8)%nat) by (apply Hlt; set_solver). assert (L2 : (i2 < 8)%nat) by (apply Hlt; set_solver).
  split; [by apply lens_submitted| | | |].
  - intros h g [[<- <-]|[Hne Hg]]%lookup_insert_Some.
    + split; cbn.
      * rewrite !list_lookup_insert_ne by done. apply list_lookup_insert_eq. destruct HL; lia.
      * rewrite list_lookup_insert_ne by done. apply list_lookup_insert_eq. rewrite length_insert. destruct HL; lia.
      * apply list_lookup_insert_eq. rewrite !length_insert. destruct HL; lia.
      * apply list_lookup_insert_eq. destruct HL; lia.
      * eexists. split; [apply list_lookup_insert_eq; by eapply lookup_lt_Some|]. apply list_lookup_insert_eq. destruct HL; lia.
    + destruct (HC h g Hg) as [C0 C1 C2 Ci (y & Hy & Ho)]. assert (Hm : ∀ i, i ∈ members h g → i ≠ i0 ∧ i ≠ i1 ∧ i ≠ i2).
      { intros i Hi. pose proof (Hnew h g i Hg Hi) as Hn. unfold members in Hn. set_solver. }
      destruct (Hm h) as (M1 & M2 & M3); [apply member_head|]. destruct (Hm (f1 g)) as (P1 & P2 & P3); [unfold members; set_solver|].
      destruct (Hm (f2 g)) as (Q1 & Q2 & Q3); [unfold members; set_solver|].
      split; cbn; rewrite ?list_lookup_insert_ne by done; try done.
      destruct (decide (fb g = b)) as [E|E].
      * rewrite E in *. exists (x <| ondisk := true |>). split; [apply list_lookup_insert_eq; by eapply lookup_lt_Some|]. rewrite list_lookup_insert_ne by done. rewrite Ho. cbn. congruence.
      * exists y. rewrite !list_lookup_insert_ne by done. done.
  - intros h g [[<- <-]|[Hne Hg]]%lookup_insert_Some; [done|by apply HN].
  - intros h h' g g' i [[<- <-]|[Hne Hg]]%lookup_insert_Some [[<- <-]|[Hne' Hg']]%lookup_insert_Some Hi Hi'; [done| | |by eapply HDj].
    + by destruct (Hnew h' g' i).
    + by destruct (Hnew h g i).
  - intros i. change (free d') with (put_all false [i0; i1; i2] (free d)). destruct (decide (i ∈ [i0; i1; i2])) as [Hi|Hi].
    + rewrite put_all_in; [|done|destruct HL; specialize (Hlt i Hi); lia]. split; [|done]. intros _. exists i0, f. split; [apply lookup_insert_eq|done].
    + rewrite put_all_out by done. rewrite HF. split; intros (h & g & Hg & Hm).
      * exists h, g. split; [|done]. rewrite lookup_insert_ne; [done|]. intros ->. pose proof (member_free _ _ _ _ _ HD Hg (member_head _ _)). rewrite (Hf h) in H; [done|]. set_solver.
      * apply lookup_insert_Some in Hg as [[<- <-]|[Hne Hg]]; [done|]. eauto.
Qed.
Definition finished (d : disk) (h : nat) (f : flight) : disk :=
  d <| info_b ::= <[h := None]> |> <| desc ::= put_all desc0 [f2 f; f1 f; h] |> <| free ::= put_all true [f2 f; f1 f; h] |>.
Lemma members_rev h f i : i ∈ [f2 f; f1 f; h] ↔ i ∈ members h f.
Proof. unfold members. set_solver. Qed.
Lemma DI_finished d fl h f : DI d fl → fl !! h = Some f → DI (finished d h f) (delete h fl).
Proof.
  intros HD Hf. pose proof HD as [HL HC HN HDj HF]. split.
  - destruct HL. split; unfold finished; cbn -[put_all]; rewrite ?length_insert, ?length_put_all; done.
  - intros h' g [Hne Hg]%lookup_delete_Some. destruct (HC h' g Hg) as [C0 C1 C2 Ci Cr].
    assert (Hm : ∀ i, i ∈ members h' g → i ∉ [f2 f; f1 f; h]) by (intros i Hi Hi'%members_rev; by destruct Hne; eapply HDj).
    split; unfold finished; cbn -[put_all]; rewrite ?put_all_out by (apply Hm; unfold members; set_solver); try done.
    by rewrite list_lookup_insert_ne by done.
  - intros h' g [Hne Hg]%lookup_delete_Some. by apply HN.
  - intros h1 h2 g1 g2 i [_ H1]%lookup_delete_Some [_ H2]%lookup_delete_Some. by eapply HDj.
  - intros i. unfold finished; cbn -[put_all]. destruct (decide (i ∈ [f2 f; f1 f; h])) as [Hi|Hi].
    + rewrite put_all_in; [|done|destruct HL; rewrite l_free; eapply member_lt; [done|done|by apply members_rev]]. split; [done|].
      intros (h' & g & [Hne Hg]%lookup_delete_Some & Hi'). destruct Hne. eapply HDj; [done|done|by apply members_rev|done].
    + rewrite put_all_out by done. rewrite HF. split; intros (h' & g & Hg & Hi').
      * exists h', g. split; [|done]. apply lookup_delete_Some. split; [|done]. intros <-. rewrite members_rev in Hi. congruence.
      * apply lookup_delete_Some in Hg as [_ Hg]. eauto.
Qed.

(** ** The rings

    [qa] are the heads in the avail ring that the device has not fetched, [qu]
    those in the used ring that the driver has not looked at. *)
Record QI (d : disk) (v : device) (fl : gmap nat flight) (qa qu : list nat) : Prop := {
  qi_seen : 0 ≤ seen v < 2 ^ 16;
  qi_avail : avail_idx d = u16 (seen v + Z.of_nat (length qa));
  qi_aring : holds NUM (avail_ring d) (seen v) (Z.of_nat <$> qa);
  qi_uidx : 0 ≤ used_idx d < 2 ^ 16;
  qi_used : used_at d = u16 (used_idx d + Z.of_nat (length qu));
  qi_uring : holds NUM (used_ring d) (used_idx d) (Z.of_nat <$> qu);
  qi_nd : NoDup (qa ++ work v ++ qu);
  qi_dom h : h ∈ qa ++ work v ++ qu → is_Some (fl !! h);
  qi_wait h : h ∈ qa ++ work v → info_status d !! h = Some 0xff;
  qi_done h f : fl !! h = Some f → h ∉ qa ++ work v → info_status d !! h = Some 0;
  qi_disk h f x : fl !! h = Some f → bufs d !! fb f = Some x → ondisk x = bool_decide (h ∈ qa ++ work v ++ qu);
  qi_inj h h' f f' : fl !! h = Some f → fl !! h' = Some f' → fb f = fb f' → h = h';
  qi_told : notified d = avail_idx d;
  qi_isr : isr d = 0 ∨ isr d = 1;
}.
Lemma NUM_divides : (NUM | 2 ^ 16).
Proof. by exists 8192. Qed.
Lemma short_list (l : list nat) : NoDup l → (∀ h, h ∈ l → (h < 8)%nat) → Z.of_nat (length l) ≤ NUM.
Proof.
  intros Hnd Hl. assert (H : (length l ≤ length (seq 0 8))%nat); [|cbn in H; unfold NUM; lia]. apply submseteq_length, NoDup_submseteq; [done|].
  intros h Hh. apply elem_of_seq. specialize (Hl h Hh). lia.
Qed.
Lemma QI_submitted d v fl qa qu b x w i0 i1 i2 t : DI d fl → QI d v fl qa qu → bufs d !! b = Some x → (∀ i, i ∈ [i0; i1; i2] → free d !! i = Some true) →
  (∀ h f, fl !! h = Some f → fb f ≠ b) →
  QI (submitted (d <| free ::= put_all false [i0; i1; i2] |>) b x w i0 i1 i2) v (<[i0 := mkFlight i1 i2 b w t]> fl) (qa ++ [i0]) qu.
Proof.
  intros HD HQ Hx Hf Hb. pose proof HQ as [Hs Ha Har Hu Hus Hur Hnd Hdom Hw Hdn Hdk Hinj Htl His]. pose proof (di_lens _ _ HD) as [].
  assert (Hi0 : fl !! i0 = None).
  { destruct (fl !! i0) as [f|] eqn:E; [|done]. pose proof (member_free _ _ _ _ _ HD E (member_head _ _)). rewrite (Hf i0) in H; [done|set_solver]. }
  assert (Hn0 : i0 ∉ qa ++ work v ++ qu) by (intros [f Hf']%Hdom; congruence).
  assert (Hlt : (i0 < 8)%nat) by (rewrite <- l_free; eapply lookup_lt_Some, Hf; set_solver).
  assert (Hnd' : NoDup ((qa ++ [i0]) ++ work v ++ qu)).
  { rewrite <- app_assoc. cbn. apply NoDup_app in Hnd as (H1 & H2 & H3). apply NoDup_app. split; [done|]. split; [set_solver|]. apply NoDup_cons. split; [set_solver|done]. }
  assert (Hshort : Z.of_nat (length qa) < NUM).
  { assert (H : Z.of_nat (length (i0 :: qa)) ≤ NUM); [|cbn in H; lia]. apply short_list.
    - apply NoDup_cons. split; [set_solver|]. by apply NoDup_app in Hnd as (? & _).
    - intros h [->|Hh]%elem_of_cons; [done|]. destruct (Hdom h) as [f Hf']; [set_solver|]. exact (member_lt _ _ _ _ _ HD Hf' (member_head _ _)). }
  split; cbn -[put_all].
  - done.
  - rewrite Ha, length_app. unfold u16. rewrite Zplus_mod_idemp_l. f_equal. cbn. lia.
  - rewrite fmap_app. cbn. rewrite Ha. unfold u16. rewrite ring_slot_mod by apply NUM_divides. replace (length qa) with (length (Z.of_nat <$> qa)) by apply length_fmap.
    apply holds_push; [done|done|by rewrite length_fmap|done].
  - done.
  - done.
  - done.
  - done.
  - intros h Hh. destruct (decide (h = i0)) as [->|Hne]; [rewrite lookup_insert_eq; eauto|]. rewrite lookup_insert_ne by done. apply Hdom. set_solver.
  - intros h Hh. destruct (decide (h = i0)) as [->|Hne]; [apply list_lookup_insert_eq; lia|]. rewrite list_lookup_insert_ne by done. apply Hw. set_solver.
  - intros h f [[<- <-]|[Hne Hf']]%lookup_insert_Some Hh; [set_solver|]. rewrite list_lookup_insert_ne by done. eapply Hdn; [done|set_solver].
  - intros h f y [[<- <-]|[Hne Hf']]%lookup_insert_Some.
    + cbn. rewrite list_lookup_insert_eq by (by eapply lookup_lt_Some). intros [= <-]. symmetry. apply bool_decide_eq_true. set_solver.
    + rewrite list_lookup_insert_ne by (intros E; by destruct (Hb h f Hf')). intros Hy. rewrite (Hdk h f y Hf' Hy). apply bool_decide_ext. set_solver.
  - intros h h' f f' [[<- <-]|[Hne Hf1]]%lookup_insert_Some [[<- <-]|[Hne' Hf2]]%lookup_insert_Some E; [done| | |by eapply Hinj].
    + by destruct (Hb h' f' Hf2).
    + by destruct (Hb h f Hf1).
  - done.
  - done.
Qed.
Lemma QI_finished d v fl qa qu h f : QI d v fl qa qu → fl !! h = Some f → h ∉ qa ++ work v ++ qu → QI (finished d h f) v (delete h fl) qa qu.
Proof.
  intros [Hs Ha Har Hu Hus Hur Hnd Hdom Hw Hdn Hdk Hinj Htl His] Hf Hh. split; try done.
  - intros g Hg. rewrite lookup_delete_ne by (intros ->; done). by apply Hdom.
  - intros g f' [Hne Hg]%lookup_delete_Some. by eapply Hdn.
  - intros g f' x [Hne Hg]%lookup_delete_Some. by apply Hdk.
  - intros h1 h2 g1 g2 [_ H1]%lookup_delete_Some [_ H2]%lookup_delete_Some. by apply Hinj.
Qed.
Lemma QI_seen d v fl qa qu h : QI d v fl (h :: qa) qu → QI d (mkDevice (u16 (seen v + 1)) (work v ++ [h])) fl qa qu.
Proof.
  intros [Hs Ha Har Hu Hus Hur Hnd Hdom Hw Hdn Hdk Hinj Htl His].
  assert (Hp : ∀ g, g ∈ qa ++ (work v ++ [h]) ↔ g ∈ (h :: qa) ++ work v) by set_solver.
  assert (Hp' : ∀ g, g ∈ qa ++ (work v ++ [h]) ++ qu ↔ g ∈ (h :: qa) ++ work v ++ qu) by set_solver.
  split; cbn [seen work]; try done.
  - apply Z.mod_pos_bound. lia.
  - rewrite Ha. unfold u16. rewrite Zplus_mod_idemp_l. f_equal. cbn. lia.
  - apply holds_mod; [apply NUM_divides|]. eauto.
  - eapply NoDup_Permutation_proper; [|exact Hnd]. rewrite <- (app_assoc (work v)). cbn. rewrite <- Permutation_middle. by rewrite <- Permutation_middle.
  - intros g Hg. apply Hdom, Hp', Hg.
  - intros g Hg. apply Hw, Hp, Hg.
  - intros g f Hf Hg. eapply Hdn; [done|]. by rewrite <- Hp.
  - intros g f x Hf Hx. rewrite (Hdk g f x Hf Hx). apply bool_decide_ext. by rewrite Hp'.
Qed.
(** One entry of the used ring is looked at. *)
Lemma QI_looked d v fl qa qu h f x : QI d v fl qa (h :: qu) → fl !! h = Some f → bufs d !! fb f = Some x →
  QI (d <| bufs ::= <[fb f := x <| ondisk := false |>]> |> <| used_idx ::= λ n, u16 (n + 1) |>) v fl qa qu.
Proof.
  intros [Hs Ha Har Hu Hus Hur Hnd Hdom Hw Hdn Hdk Hinj Htl His] Hf Hx.
  assert (Hh : h ∉ qa ++ work v ++ qu).
  { rewrite app_assoc in Hnd |- *. apply NoDup_app in Hnd as (_ & H1 & H2). apply NoDup_cons in H2 as [H2 _]. set_solver. }
  split; cbn; try done.
  - apply Z.mod_pos_bound. lia.
  - rewrite Hus. unfold u16. rewrite Zplus_mod_idemp_l. f_equal. cbn. lia.
  - apply holds_mod; [apply NUM_divides|]. eauto.
  - rewrite app_assoc in Hnd |- *. apply NoDup_app in Hnd as (H1 & H2 & H3). apply NoDup_app. apply NoDup_cons in H3 as [H3 H4]. split_and!; [done|set_solver|done].
  - intros g Hg. apply Hdom. set_solver.
  - intros g g' y Hg Hy. destruct (decide (g = h)) as [->|Hne].
    + rewrite Hf in Hg. injection Hg as <-. rewrite list_lookup_insert_eq in Hy by (by eapply lookup_lt_Some). injection Hy as <-. symmetry. by apply bool_decide_eq_false.
    + rewrite list_lookup_insert_ne in Hy by (intros E; by destruct Hne; eapply Hinj). rewrite (Hdk g g' y Hg Hy). apply bool_decide_ext. set_solver.
Qed.
(** The device has carried out a request. *)
Definition carried (d : disk) (h : nat) (f : flight) (x : dbuf) : disk :=
  (if fw f then d <| store ::= <[blockno x := data x]> |> else d <| bufs ::= <[fb f := x <| data := default ∅ (store d !! blockno x) |>]> |>)
    <| info_status ::= <[h := 0]> |> <| used_ring ::= <[ring_slot NUM (used_at d) := Z.of_nat h]> |> <| used_at ::= λ n, u16 (n + 1) |>
    <| isr ::= Z.lor 1 |>.
Lemma carry_out_spec d fl h f x : DI d fl → fl !! h = Some f → bufs d !! fb f = Some x → 0 ≤ blockno x < 2 ^ 31 → carry_out d h = Some (carried d h f x).
Proof.
  intros HD Hf Hx Hn. destruct (di_chain _ _ HD h f Hf) as [C0 C1 C2 Ci (y & Hy & Ho)]. rewrite Hx in Hy. injection Hy as <-.
  unfold carry_out, request. rewrite C0, C1, Ho, C2. cbn [type sector]. change (BSIZE / 512) with 2.
  assert (Es : u32 (blockno x * 2) / 2 = blockno x) by (unfold u32; rewrite Z.mod_small by lia; by apply Z.div_mul).
  rewrite Es. unfold carried. destruct (fw f); rewrite !Z.eqb_refl; cbn [andb]; [change (VIRTIO_BLK_T_OUT =? VIRTIO_BLK_T_OUT) with true|change (VIRTIO_BLK_T_IN =? VIRTIO_BLK_T_OUT) with false]; rewrite ?Z.eqb_refl; cbn [andb]; by rewrite Hx.
Qed.
Lemma carried_isr d h f x : isr d = 0 ∨ isr d = 1 → isr (carried d h f x) = 1.
Proof. intros H. replace (isr (carried d h f x)) with (Z.lor 1 (isr d)) by (unfold carried; by destruct (fw f)). by destruct H as [-> | ->]. Qed.
Lemma QI_carried d v fl qa qu h f x rest : DI d fl → QI d v fl qa qu → work v ≡ₚ h :: rest → fl !! h = Some f → bufs d !! fb f = Some x →
  QI (carried d h f x) (mkDevice (seen v) rest) fl qa (qu ++ [h]).
Proof.
  intros HD [Hs Ha Har Hu Hus Hur Hnd Hdom Hw Hdn Hdk Hinj Htl His] Hp Hf Hx. pose proof (di_lens _ _ HD) as [].
  assert (Hin : ∀ g, g ∈ work v ↔ g = h ∨ g ∈ rest) by (intros g; rewrite Hp; apply elem_of_cons).
  assert (Hperm : qa ++ rest ++ qu ++ [h] ≡ₚ qa ++ work v ++ qu) by (rewrite Hp; rewrite (app_assoc rest), <- Permutation_cons_append; done).
  assert (Hnd' : NoDup (qa ++ rest ++ qu ++ [h])) by (by rewrite Hperm).
  assert (Hh : h ∉ qa ++ rest) by (rewrite !app_assoc in Hnd'; apply NoDup_app in Hnd' as (_ & H & _); set_solver).
  assert (Hhl : (h < 8)%nat) by exact (member_lt _ _ _ _ _ HD Hf (member_head _ _)).
  assert (Hshort : Z.of_nat (length qu) < NUM).
  { assert (H : Z.of_nat (length (qu ++ [h])) ≤ NUM); [|rewrite length_app in H; cbn in H; lia]. apply short_list.
    - rewrite !app_assoc, <- app_assoc in Hnd'. by apply NoDup_app in Hnd' as (_ & _ & ?).
    - intros g Hg. destruct (Hdom g) as [f' Hf']; [rewrite <- Hperm; set_solver|]. exact (member_lt _ _ _ _ _ HD Hf' (member_head _ _)). }
  assert (Hst : info_status (carried d h f x) = <[h := 0]> (info_status d)) by (unfold carried; by destruct (fw f)).
  assert (Hod : ∀ b y, bufs (carried d h f x) !! b = Some y → ∃ y0, bufs d !! b = Some y0 ∧ ondisk y = ondisk y0).
  { intros b y. unfold carried. destruct (fw f); cbn; [by eauto|]. intros [(<- & <- & _)|[_ Hy]]%list_lookup_insert_Some; eauto. }
  split; rewrite ?Hst; cbn [seen work].
  - done.
  - unfold carried. by destruct (fw f).
  - unfold carried. by destruct (fw f).
  - unfold carried. by destruct (fw f).
  - replace (used_at (carried d h f x)) with (u16 (used_at d + 1)) by (unfold carried; by destruct (fw f)).
    replace (used_idx (carried d h f x)) with (used_idx d) by (unfold carried; by destruct (fw f)).
    rewrite Hus, length_app. unfold u16. rewrite Zplus_mod_idemp_l. f_equal. cbn. lia.
  - replace (used_idx (carried d h f x)) with (used_idx d) by (unfold carried; by destruct (fw f)).
    replace (used_ring (carried d h f x)) with (<[ring_slot NUM (used_at d) := Z.of_nat h]> (used_ring d)) by (unfold carried; by destruct (fw f)).
    rewrite fmap_app, Hus. unfold u16. rewrite ring_slot_mod by apply NUM_divides. cbn. replace (length qu) with (length (Z.of_nat <$> qu)) by apply length_fmap.
    apply holds_push; [done|done|by rewrite length_fmap|done].
  - done.
  - intros g Hg. apply Hdom. by rewrite <- Hperm.
  - intros g Hg. rewrite list_lookup_insert_ne by (intros ->; done). apply Hw. set_solver.
  - intros g g' Hg Hn. destruct (decide (g = h)) as [->|Hne]; [apply list_lookup_insert_eq; lia|]. rewrite list_lookup_insert_ne by done. eapply Hdn; [done|set_solver].
  - intros g g' y Hg Hy. destruct (Hod _ _ Hy) as (y0 & Hy0 & ->). rewrite (Hdk g g' y0 Hg Hy0). apply bool_decide_ext. by rewrite Hperm.
  - done.
  - unfold carried. by destruct (fw f).
  - right. by apply carried_isr.
Qed.

(** ** What each section does *)
Lemma lock_notin_nil (l : lock) : l ∉ [].
Proof. apply not_elem_of_nil. Qed.
Definition shown (x : dbuf) : Z * mem := (blockno x, data x).
Lemma lens_free d idx : lens d → lens (d <| free ::= put_all false idx |>).
Proof. intros []. split; cbn -[put_all]; rewrite ?length_put_all; done. Qed.
Lemma rw_spec d v fl qa qu b x w : DI d fl → QI d v fl qa qu → bufs d !! b = Some x → (∀ h f, fl !! h = Some f → fb f ≠ b) →
  wp (virtio_disk_rw b w) (λ e w', match e with
    | SleepFree => ∃ d' m, w' = World [] (replicate m free_chan) d' ∧ scrubbed d d' ∧ (nfree (free d) < 3)%nat
    | SleepBuf i0 => ∃ i1 i2, w' = World [] [] (submitted (d <| free ::= put_all false [i0; i1; i2] |>) b x w i0 i1 i2) ∧
        NoDup [i0; i1; i2] ∧ ∀ i, i ∈ [i0; i1; i2] → free d !! i = Some true
    | Return => False
    end) (World [] [] d).
Proof.
  intros HD HQ Hx Hb. pose proof (di_lens _ _ HD) as HL. unfold virtio_disk_rw. apply wp_bind, wp_acquire; [apply lock_notin_nil|].
  apply wp_bind. eapply wp_mono; [apply alloc3_spec; apply HL|]. intros [idx|] w'.
  - intros (i0 & i1 & i2 & -> & Hnd & Hf & ->). assert (Hlt : ∀ i, i ∈ [i0; i1; i2] → (i < 8)%nat) by (intros i Hi; apply Hf, lookup_lt_Some in Hi; destruct HL; lia).
    apply wp_bind. eapply submit_spec; [by apply lens_free|exact Hx|apply Hlt; set_solver..|].
    set (d' := submitted _ _ _ _ _ _ _). unfold rw_wait. apply wp_bind. eapply wp_get_buf.
    { cbn -[put_all]. apply list_lookup_insert_eq. by eapply lookup_lt_Some. }
    cbn [ondisk set_field]. apply wp_bind, wp_release, wp_ret; [apply lock_notin_nil|]. eauto.
  - intros (d' & m & -> & Hs & Hn). apply wp_bind, wp_release, wp_ret; [apply lock_notin_nil|]. eauto.
Qed.
Lemma woken_spec d v fl qa qu h f : DI d fl → QI d v fl qa qu → fl !! h = Some f →
  wp (virtio_disk_rw_woken (fb f) h) (λ e w', if decide (h ∈ qa ++ work v ++ qu) then e = SleepBuf h ∧ w' = World [] [] d
    else e = Return ∧ w' = World [] [free_chan; free_chan; free_chan] (finished d h f)) (World [] [] d).
Proof.
  intros HD HQ Hf. destruct (di_chain _ _ HD h f Hf) as [C0 C1 C2 Ci (x & Hx & Ho)]. unfold virtio_disk_rw_woken, rw_wait.
  apply wp_bind, wp_acquire; [apply lock_notin_nil|]. apply wp_bind. eapply wp_get_buf; [done|]. rewrite (qi_disk _ _ _ _ _ HQ h f x Hf Hx). case_bool_decide as Hl.
  - apply wp_bind, wp_release, wp_ret; [apply lock_notin_nil|]. by rewrite decide_True.
  - apply wp_bind, wp_store; [eauto|]. apply wp_bind. eapply (free_chain_spec d _ h f).
    + destruct (di_lens _ _ HD). split; cbn; rewrite ?length_insert; done.
    + by apply (di_chain _ _ HD).
    + done.
    + by apply (di_nd _ _ HD).
    + intros j Hj. exact (member_free d fl h f j HD Hf Hj).
    + apply wp_bind, wp_release, wp_ret; [apply lock_notin_nil|]. by rewrite decide_False.
Qed.
(** Interrupts change nothing but the flags [b->disk] and how far the used ring
    has been looked at. *)
Record quiet (d d' : disk) : Prop := {
  q_store : store d' = store d; q_free : free d' = free d; q_status : info_status d' = info_status d; q_bufs : shown <$> bufs d' = shown <$> bufs d;
}.
Lemma shown_at (l l' : list dbuf) b x : shown <$> l' = shown <$> l → l !! b = Some x → ∃ x', l' !! b = Some x' ∧ shown x' = shown x.
Proof.
  intros E Hx. assert (H : (shown <$> l') !! b = Some (shown x)) by (by rewrite E, list_lookup_fmap, Hx).
  rewrite list_lookup_fmap in H. apply fmap_Some in H as (x' & Hx' & ->). eauto.
Qed.
Lemma shown_ondisk (l : list dbuf) b x v : l !! b = Some x → shown <$> <[b := x <| ondisk := v |>]> l = shown <$> l.
Proof. intros Hx. rewrite list_fmap_insert. apply list_insert_id. by rewrite list_lookup_fmap, Hx. Qed.
Lemma counter_ne r (q : list nat) : 0 ≤ r < 2 ^ 16 → q ≠ [] → Z.of_nat (length q) ≤ NUM → r ≠ u16 (r + Z.of_nat (length q)).
Proof.
  intros Hr Hq Hl E. destruct q as [|h q]; [done|]. assert (H : 0 = Z.of_nat (length (h :: q))); [|cbn in H; lia].
  apply (mod_add_inj r _ _ (2 ^ 16)); [lia|unfold NUM in Hl; lia|]. rewrite Z.add_0_r, Z.mod_small by done. exact E.
Qed.
Lemma part_short d v fl qa qu q : DI d fl → QI d v fl qa qu → q `sublist_of` qa ++ work v ++ qu → Z.of_nat (length q) ≤ NUM.
Proof.
  intros HD HQ Hq. apply short_list; [eapply sublist_NoDup; [apply (qi_nd _ _ _ _ _ HQ)|exact Hq]|].
  intros h Hh. destruct (qi_dom _ _ _ _ _ HQ h) as [f Hf]; [by eapply sublist_subseteq|]. exact (member_lt _ _ _ _ _ HD Hf (member_head _ _)).
Qed.
Lemma intr_loop_spec v fl qa qu : ∀ d n hl ks, DI d fl → QI d v fl qa qu → n = length qu →
  wp (intr_loop n) (λ _ w', ∃ d' ks', w' = World hl ks' d' ∧ DI d' fl ∧ QI d' v fl qa [] ∧ quiet d d' ∧ (∀ c, c ∈ ks → c ∈ ks') ∧
    ∀ h f, h ∈ qu → fl !! h = Some f → buf_chan (fb f) ∈ ks') (World hl ks d).
Proof.
  induction qu as [|h qu IH]; intros d n hl ks HD HQ ->; cbn [length intr_loop]; apply wp_bind, wp_gets; cbn [st id];
    assert (Eq := qi_used _ _ _ _ _ HQ); pose proof (qi_uidx _ _ _ _ _ HQ) as Hu.
  - cbn in Eq. rewrite Z.add_0_r in Eq. unfold u16 in Eq. rewrite Z.mod_small in Eq by lia. rewrite Eq, Z.eqb_refl. apply wp_ret.
    exists d, ks. split_and!; try done. intros h f Hh. by apply elem_of_nil in Hh.
  - assert (Ene : (used_idx d =? used_at d) = false).
    { apply Z.eqb_neq. rewrite Eq. apply counter_ne; [done|done|]. eapply part_short; [done|done|]. do 2 apply sublist_inserts_l. done. }
    rewrite Ene. destruct (qi_dom _ _ _ _ _ HQ h) as [f Hf]; [set_solver|]. destruct (di_chain _ _ HD h f Hf) as [C0 C1 C2 Ci (x & Hx & Ho)].
    assert (Hr := qi_uring _ _ _ _ _ HQ). cbn [fmap list_fmap] in Hr. rewrite (holds_head _ _ _ _ _ Hr). cbn [nonnull]. apply wp_bind, wp_ret. rewrite Nat2Z.id.
    assert (Hst : info_status d !! h = Some 0).
    { eapply (qi_done _ _ _ _ _ HQ); [done|]. pose proof (qi_nd _ _ _ _ _ HQ) as Hnd. rewrite app_assoc in Hnd. apply NoDup_app in Hnd as (_ & Hd & _).
      intros Hin. apply (Hd h Hin). set_solver. }
    rewrite Hst. cbn [nonnull]. apply wp_bind, wp_ret. apply wp_bind, wp_when. cbn [Z.eqb negb]. rewrite Ci. cbn [nonnull].
    apply wp_bind, wp_ret, wp_bind, wp_ret, wp_bind. eapply wp_set_ondisk; [done|]. apply wp_bind, wp_notify, wp_bind, wp_modify.
    pose proof (QI_looked _ _ _ _ _ _ _ _ HQ Hf Hx) as HQ'. set (d1 := d <| bufs ::= _ |> <| used_idx ::= _ |>) in *.
    assert (HD' : DI d1 fl).
    { eapply DI_ext; [done| |done..|]; [destruct (di_lens _ _ HD); by split|]. intros b y Hy. cbn. destruct (decide (b = fb f)) as [->|Hne].
      - rewrite list_lookup_insert_eq by (by eapply lookup_lt_Some). eexists. split; [done|]. cbn. congruence.
      - rewrite list_lookup_insert_ne by done. eauto. }
    eapply wp_mono; [apply (IH d1 _ hl _ HD' HQ' eq_refl)|]. intros _ w' (d' & ks' & -> & HD2 & HQ2 & [Q1 Q2 Q3 Q4] & Hk & Hall). exists d', ks'. split_and!; try done.
    + split; [by rewrite Q1|by rewrite Q2|by rewrite Q3|]. rewrite Q4. cbn. by apply shown_ondisk.
    + intros c Hc. apply Hk. set_solver.
    + intros g g' [->|Hg]%elem_of_cons Hg'; [|by eapply Hall]. rewrite Hf in Hg'. injection Hg' as <-. apply Hk. set_solver.
Qed.
Lemma intr_spec d v fl qa qu : DI d fl → QI d v fl qa qu →
  wp virtio_disk_intr (λ _ w', ∃ d' ks, w' = World [] ks d' ∧ DI d' fl ∧ QI d' v fl qa [] ∧ quiet d d' ∧
    ∀ h f, h ∈ qu → fl !! h = Some f → buf_chan (fb f) ∈ ks) (World [] [] d).
Proof.
  intros HD HQ. unfold virtio_disk_intr. apply wp_bind, wp_acquire; [apply lock_notin_nil|]. apply wp_bind, wp_gets. apply wp_bind, wp_modify. apply wp_bind, wp_gets. cbn [st id].
  match goal with |- wp _ _ (World _ _ ?t) => set (d1 := t) end. assert (HD1 : DI d1 fl) by (eapply DI_ext; [done| |done..|by eauto]; destruct (di_lens _ _ HD); by split).
  assert (HQ1 : QI d1 v fl qa qu).
  { destruct HQ. split; try done. left. cbn. by destruct qi_isr0 as [-> | ->]. } apply wp_bind. eapply wp_mono; [eapply (intr_loop_spec v fl qa qu d1 _ _ _ HD1 HQ1)|].
  - change (used_at d1) with (used_at d). change (used_idx d1) with (used_idx d). rewrite (qi_used _ _ _ _ _ HQ). unfold u16. rewrite Zminus_mod_idemp_l.
    replace (used_idx d + Z.of_nat (length qu) - used_idx d) with (Z.of_nat (length qu)) by lia. rewrite Z.mod_small; [lia|].
    assert (Z.of_nat (length qu) ≤ NUM); [|unfold NUM in *; lia]. eapply part_short; [done|done|]. do 2 apply sublist_inserts_l. done.
  - intros _ w' (d' & ks & -> & HD2 & HQ2 & [Q1 Q2 Q3 Q4] & _ & Hall). apply wp_release; [apply lock_notin_nil|]. exists d', ks. split_and!; done.
Qed.

(** ** Calls, interrupts and the device, interleaved *)
Inductive phase := PAlloc (asleep : bool) | PWait (h : nat) (asleep : bool) | PReturned.
Abbreviation call := (nat * bool * phase)%type.
Record sys := mkSys { dk : disk; dv : device; cs : list call }.
Definition wake_phase (ks : list chan) (b : nat) (ph : phase) : phase :=
  match ph with
  | PAlloc true => if decide (free_chan ∈ ks) then PAlloc false else ph
  | PWait h true => if decide (buf_chan b ∈ ks) then PWait h false else ph
  | _ => ph
  end.
Definition wake (ks : list chan) (c : call) : call := (c.1.1, c.1.2, wake_phase ks c.1.1 c.2).
Definition after (e : ending) : phase :=
  match e with Return => PReturned | SleepFree => PAlloc true | SleepBuf h => PWait h true end.
(** Buffer [b] is in use by a call that has not returned. *)
Definition busy (l : list call) (b : nat) : Prop := ∃ t w ph, l !! t = Some (b, w, ph) ∧ ph ≠ PReturned.
Definition good (x : dbuf) : Prop := 0 ≤ blockno x < 2 ^ 31.
Section system.
Context (dev : disk * device → disk * device → Prop).
(** A buffer has one user at a time (its sleep lock, in bio.c): calls are made,
    and contents changed, for buffers that no other call uses. *)
Inductive step : sys → sys → Prop :=
  | step_call d v l b w x : bufs d !! b = Some x → ¬ busy l b → step (mkSys d v l) (mkSys d v (l ++ [(b, w, PAlloc false)]))
  | step_client d v l b x x' : bufs d !! b = Some x → ¬ busy l b → good x' → ondisk x' = ondisk x →
      step (mkSys d v l) (mkSys (d <| bufs ::= <[b := x']> |>) v l)
  | step_rw d v l t b w e ks d' : l !! t = Some (b, w, PAlloc false) → virtio_disk_rw b w (World [] [] d) = Done e (World [] ks d') →
      step (mkSys d v l) (mkSys d' v (<[t := (b, w, after e)]> (wake ks <$> l)))
  | step_woken d v l t b w h e ks d' : l !! t = Some (b, w, PWait h false) → virtio_disk_rw_woken b h (World [] [] d) = Done e (World [] ks d') →
      step (mkSys d v l) (mkSys d' v (<[t := (b, w, after e)]> (wake ks <$> l)))
  | step_intr d v l ks d' : virtio_disk_intr (World [] [] d) = Done () (World [] ks d') → step (mkSys d v l) (mkSys d' v (wake ks <$> l))
  | step_device d v d' v' l : dev (d, v) (d', v') → step (mkSys d v l) (mkSys d' v' l).
End system.
(** After virtio_disk_init: no request made, every descriptor free. *)
Definition initial (s : sys) : Prop :=
  lens (dk s) ∧ avail_idx (dk s) = 0 ∧ used_at (dk s) = 0 ∧ used_idx (dk s) = 0 ∧ notified (dk s) = 0 ∧ isr (dk s) = 0 ∧ (∀ i, free (dk s) !! i ≠ Some false) ∧
  (∀ b x, bufs (dk s) !! b = Some x → good x) ∧ dv s = mkDevice 0 [] ∧ cs s = [].

(** ** Atomic transfers

    The same calls on a disk that serves each of them in one step. *)
Inductive aphase := Requested | Transferred | Over.
Record amach := mkA { a_store : gmap Z mem; a_bufs : list (Z * mem); a_calls : list (nat * bool * aphase) }.
Definition abusy (l : list (nat * bool * aphase)) (b : nat) : Prop := ∃ t w ph, l !! t = Some (b, w, ph) ∧ ph ≠ Over.
Inductive astep : amach → amach → Prop :=
  | a_call m bs l b w x : bs !! b = Some x → ¬ abusy l b → astep (mkA m bs l) (mkA m bs (l ++ [(b, w, Requested)]))
  | a_client m bs l b x x' : bs !! b = Some x → ¬ abusy l b → astep (mkA m bs l) (mkA m (<[b := x']> bs) l)
  | a_write m bs l t b n x : l !! t = Some (b, true, Requested) → bs !! b = Some (n, x) →
      astep (mkA m bs l) (mkA (<[n := x]> m) bs (<[t := (b, true, Transferred)]> l))
  | a_read m bs l t b n x : l !! t = Some (b, false, Requested) → bs !! b = Some (n, x) →
      astep (mkA m bs l) (mkA m (<[b := (n, default ∅ (m !! n))]> bs) (<[t := (b, false, Transferred)]> l))
  | a_return m bs l t b w : l !! t = Some (b, w, Transferred) → astep (mkA m bs l) (mkA m bs (<[t := (b, w, Over)]> l)).
Definition abs_call (d : disk) (c : call) : nat * bool * aphase :=
  match c with
  | (b, w, PAlloc _) => (b, w, Requested)
  | (b, w, PWait h _) => (b, w, if decide (info_status d !! h = Some 0) then Transferred else Requested)
  | (b, w, PReturned) => (b, w, Over)
  end.
Definition abs (s : sys) : amach := mkA (store (dk s)) (shown <$> bufs (dk s)) (abs_call (dk s) <$> cs s).

(** ** The invariant of the calls *)
Definition one_user (l : list call) : Prop :=
  ∀ t t' b w w' ph ph', l !! t = Some (b, w, ph) → ph ≠ PReturned → l !! t' = Some (b, w', ph') → ph' ≠ PReturned → t = t'.
Record CI (d : disk) (l : list call) (fl : gmap nat flight) (live : list nat) : Prop := {
  ci_wait t b w h a : l !! t = Some (b, w, PWait h a) → ∃ f, fl !! h = Some f ∧ fb f = b ∧ fw f = w ∧ ft f = t;
  ci_flight h f : fl !! h = Some f → ∃ a, l !! ft f = Some (fb f, fw f, PWait h a);
  ci_uniq : one_user l;
  ci_buf t b w ph : l !! t = Some (b, w, ph) → ∃ x, bufs d !! b = Some x;
  ci_good b x : bufs d !! b = Some x → good x;
  ci_asleep t b w h : l !! t = Some (b, w, PWait h true) → h ∈ live;
  ci_starve t b w : l !! t = Some (b, w, PAlloc true) → (nfree (free d) < 3)%nat;
}.
(** While an entry of the used ring has not been looked at, the interrupt is
    raised. *)
Definition VI (s : sys) : Prop := ∃ fl qa qu, DI (dk s) fl ∧ QI (dk s) (dv s) fl qa qu ∧
  CI (dk s) (cs s) fl (qa ++ work (dv s) ++ qu) ∧ (qu ≠ [] → isr (dk s) = 1).
Lemma initial_VI s : initial s → VI s.
Proof.
  intros (HL & Ha & Hu & Hi & Hn & Hr & Hf & Hg & Hv & Hc). exists ∅, [], []. split_and!.
  - split; [done|done|done|done|]. intros i. split; [by intros ?%Hf|by intros (h & f & ? & _)].
  - split; rewrite ?Hv, ?Ha, ?Hu, ?Hi, ?Hn, ?Hr; cbn; try tauto; try done; try (intros h Hh; by apply elem_of_nil in Hh). apply NoDup_nil_2.
  - split; rewrite ?Hc; try done.
  - done.
Qed.

(** ** Each step *)
Lemma wake_at ks (l : list call) t b w ph : (wake ks <$> l) !! t = Some (b, w, ph) → ∃ ph0, l !! t = Some (b, w, ph0) ∧ ph = wake_phase ks b ph0.
Proof. rewrite list_lookup_fmap. intros ([[b' w'] ph0] & Hx & [= -> -> ->])%fmap_Some. eauto. Qed.
Lemma at_wake ks (l : list call) t b w ph : l !! t = Some (b, w, ph) → (wake ks <$> l) !! t = Some (b, w, wake_phase ks b ph).
Proof. intros H. by rewrite list_lookup_fmap, H. Qed.
Lemma wake_wait ks b ph h a : wake_phase ks b ph = PWait h a → ∃ a0, ph = PWait h a0 ∧ (a = true → a0 = true ∧ buf_chan b ∉ ks).
Proof. destruct ph as [[]|h' []|]; cbn; repeat case_decide; intros [=]; subst; eexists; (split; [done|]); done. Qed.
Lemma wake_alloc ks b ph : wake_phase ks b ph = PAlloc true → ph = PAlloc true ∧ free_chan ∉ ks.
Proof. destruct ph as [[]|h' []|]; cbn; repeat case_decide; intros [=]; done. Qed.
Lemma wake_returned ks b ph : wake_phase ks b ph ≠ PReturned ↔ ph ≠ PReturned.
Proof. destruct ph as [[]|h' []|]; cbn; repeat case_decide; done. Qed.
Lemma CI_wake d l fl live ks : CI d l fl live → CI d (wake ks <$> l) fl live.
Proof.
  intros [H1 H2 H3 H4 H5 H6 H7]. split.
  - intros t b w h a (ph & Ht & E)%wake_at. symmetry in E. apply wake_wait in E as (a0 & -> & _). by eapply H1.
  - intros h f Hf. destruct (H2 h f Hf) as [a Ha]. apply (at_wake ks) in Ha. destruct a; cbn in Ha; [case_decide|]; eauto.
  - intros t t' b w w' ph ph' (ph0 & Ht & ->)%wake_at Hn (ph1 & Ht' & ->)%wake_at Hn'. rewrite wake_returned in Hn, Hn'. by eapply H3.
  - intros t b w ph (ph0 & Ht & _)%wake_at. by eapply H4.
  - done.
  - intros t b w h (ph & Ht & E)%wake_at. symmetry in E. apply wake_wait in E as (a0 & -> & Ha). destruct (Ha eq_refl) as [-> _]. by eapply H6.
  - intros t b w (ph & Ht & E)%wake_at. symmetry in E. apply wake_alloc in E as [-> _]. by eapply H7.
Qed.
Lemma abs_wake d ks (l : list call) : abs_call d <$> (wake ks <$> l) = abs_call d <$> l.
Proof.
  rewrite <- list_fmap_compose. apply list_fmap_ext. intros i [[b w] ph] _. cbn. destruct ph as [[]|h []|]; cbn; repeat case_decide; done.
Qed.
Lemma abs_ext d d' (l : list call) : (∀ t b w h a, l !! t = Some (b, w, PWait h a) → info_status d' !! h = info_status d !! h) → abs_call d' <$> l = abs_call d <$> l.
Proof. intros H. apply list_fmap_ext. intros i [[b w] ph] Hi. destruct ph as [|h a|]; cbn; [done| |done]. by rewrite (H i b w h a Hi). Qed.
Lemma abs_insert_same d (l : list call) t c c' : l !! t = Some c → abs_call d c' = abs_call d c → abs_call d <$> <[t := c']> l = abs_call d <$> l.
Proof. intros Ht E. rewrite list_fmap_insert, E. apply list_insert_id. by rewrite list_lookup_fmap, Ht. Qed.
Lemma insert_at {A} (l : list A) t t' (c c' : A) : <[t := c]> l !! t' = Some c' → (t' = t ∧ c' = c) ∨ (t' ≠ t ∧ l !! t' = Some c').
Proof. intros [(-> & <- & _)|[? ?]]%list_lookup_insert_Some; [by left|right; split; [congruence|done]]. Qed.
Lemma one_user_insert l t b w ph ph' : one_user l → l !! t = Some (b, w, ph) → (ph' ≠ PReturned → ph ≠ PReturned) → one_user (<[t := (b, w, ph')]> l).
Proof.
  intros Hu Ht Hp t1 t2 b' w1 w2 p1 p2 L1 N1 L2 N2. apply insert_at in L1 as [[-> E1]|[D1 L1]], L2 as [[-> E2]|[D2 L2]]; simplify_eq; [done| | |by eapply Hu].
  - eapply (Hu t t2); eauto.
  - eapply (Hu t1 t); eauto.
Qed.
Section moves.
Context (d d' : disk) (l : list call) (fl : gmap nat flight) (live : list nat) (t b : nat) (w : bool).
Context (HC : CI d l fl live).
Lemma CI_starved a : l !! t = Some (b, w, PAlloc a) → bufs d' = bufs d → free d' = free d → (nfree (free d) < 3)%nat →
  CI d' (<[t := (b, w, PAlloc true)]> l) fl live.
Proof.
  intros Ht Eb Ef Hn. destruct HC as [H1 H2 H3 H4 H5 H6 H7]. split; rewrite ?Eb, ?Ef.
  - intros t' b' w' h a' [(-> & [=])|[_ Hl]]%insert_at. by eapply H1.
  - intros h f Hf. destruct (H2 h f Hf) as [a' Ha]. exists a'. rewrite list_lookup_insert_ne; [done|]. intros ->. congruence.
  - by eapply one_user_insert.
  - intros t' b' w' ph [(-> & [= -> -> ->])|[_ Hl]]%insert_at; by eapply H4.
  - done.
  - intros t' b' w' h [(-> & [=])|[_ Hl]]%insert_at. by eapply H6.
  - done.
Qed.
Lemma CI_resleep h a : l !! t = Some (b, w, PWait h a) → h ∈ live → CI d (<[t := (b, w, PWait h true)]> l) fl live.
Proof.
  intros Ht Hl. destruct HC as [H1 H2 H3 H4 H5 H6 H7]. split.
  - intros t' b' w' h' a' [(-> & [= -> -> -> ->])|[_ Hl']]%insert_at; by eapply H1.
  - intros h' f Hf. destruct (H2 h' f Hf) as [a' Ha]. destruct (decide (ft f = t)) as [E|E]; [|exists a'; by rewrite list_lookup_insert_ne].
    exists true. rewrite E, list_lookup_insert_eq by (by eapply lookup_lt_Some). rewrite E, Ht in Ha. congruence.
  - by eapply one_user_insert.
  - intros t' b' w' ph [(-> & [= -> -> ->])|[_ Hl']]%insert_at; by eapply H4.
  - done.
  - intros t' b' w' h' [(-> & [= -> -> ->])|[_ Hl']]%insert_at; [done|by eapply H6].
  - intros t' b' w' [(-> & [=])|[_ Hl']]%insert_at. by eapply H7.
Qed.
Lemma CI_submitted a i0 i1 i2 live' : l !! t = Some (b, w, PAlloc a) → fl !! i0 = None → (∀ h, h ∈ live → h ∈ live') → i0 ∈ live' →
  (∀ b' x, bufs d' !! b' = Some x → good x) → (∀ b', is_Some (bufs d !! b') → is_Some (bufs d' !! b')) → (nfree (free d') ≤ nfree (free d))%nat →
  CI d' (<[t := (b, w, PWait i0 true)]> l) (<[i0 := mkFlight i1 i2 b w t]> fl) live'.
Proof.
  intros Ht Hi Hsub Hin Hg Hb Hn. destruct HC as [H1 H2 H3 H4 H5 H6 H7]. split.
  - intros t' b' w' h a' [(-> & [= -> -> -> ->])|[N Hl]]%insert_at; [eexists; split; [apply lookup_insert_eq|done]|].
    destruct (H1 _ _ _ _ _ Hl) as (f & Hf & ?). exists f. split; [|done]. rewrite lookup_insert_ne; [done|congruence].
  - intros h f [[<- <-]|[N Hf]]%lookup_insert_Some; [exists true; apply list_lookup_insert_eq; by eapply lookup_lt_Some|].
    destruct (H2 h f Hf) as [a' Ha]. exists a'. rewrite list_lookup_insert_ne; [done|]. intros E. rewrite <- E, Ht in Ha. done.
  - by eapply one_user_insert.
  - intros t' b' w' ph Hl. apply Hb. apply insert_at in Hl as [(-> & [= -> -> ->])|[_ Hl]]; by eapply H4.
  - done.
  - intros t' b' w' h [(-> & [= -> -> ->])|[_ Hl]]%insert_at; [done|]. by eapply Hsub, H6.
  - intros t' b' w' [(-> & [=])|[_ Hl]]%insert_at. apply H7 in Hl. lia.
Qed.
Lemma CI_returned h a : l !! t = Some (b, w, PWait h a) → bufs d' = bufs d → (∀ t b w, l !! t ≠ Some (b, w, PAlloc true)) →
  CI d' (<[t := (b, w, PReturned)]> l) (delete h fl) live.
Proof.
  intros Ht Eb Hn. destruct HC as [H1 H2 H3 H4 H5 H6 H7]. split; rewrite ?Eb.
  - intros t' b' w' h' a' [(-> & [=])|[N Hl]]%insert_at. destruct (H1 _ _ _ _ _ Hl) as (f & Hf & Ef & Ew & Et). exists f. split; [|done].
    rewrite lookup_delete_ne; [done|]. intros ->. destruct (H1 _ _ _ _ _ Ht) as (f' & Hf' & _ & _ & Et'). congruence.
  - intros h' f [N Hf]%lookup_delete_Some. destruct (H2 h' f Hf) as [a' Ha]. exists a'. rewrite list_lookup_insert_ne; [done|]. intros E. rewrite <- E, Ht in Ha. congruence.
  - by eapply one_user_insert.
  - intros t' b' w' ph [(-> & [= -> -> ->])|[_ Hl]]%insert_at; by eapply H4.
  - done.
  - intros t' b' w' h' [(-> & [=])|[_ Hl]]%insert_at. by eapply H6.
  - intros t' b' w' [(-> & [=])|[_ Hl]]%insert_at. by apply Hn in Hl.
Qed.
End moves.
Definition advances (s s' : sys) : Prop := VI s' ∧ (abs s' = abs s ∨ astep (abs s) (abs s')).
Lemma not_in_flight d l fl live t b w a h f : CI d l fl live → l !! t = Some (b, w, PAlloc a) → fl !! h = Some f → fb f ≠ b.
Proof. intros HC Ht Hf E. destruct (ci_flight _ _ _ _ HC h f Hf) as [a' Ha]. rewrite E in Ha. pose proof (ci_uniq _ _ _ _ HC _ _ _ _ _ _ _ Ht ltac:(done) Ha ltac:(done)) as Et. congruence. Qed.
Lemma rw_advances d v l t b w e ks d' : VI (mkSys d v l) → l !! t = Some (b, w, PAlloc false) → virtio_disk_rw b w (World [] [] d) = Done e (World [] ks d') →
  advances (mkSys d v l) (mkSys d' v (<[t := (b, w, after e)]> (wake ks <$> l))).
Proof.
  intros (fl & qa & qu & HD & HQ & HC & Hiq) Ht Hrun. cbn in HD, HQ, HC, Hiq. destruct (ci_buf _ _ _ _ HC _ _ _ _ Ht) as [x Hx].
  assert (Hnb : ∀ h f, fl !! h = Some f → fb f ≠ b) by (intros h f; by eapply not_in_flight).
  pose proof (rw_spec d v fl qa qu b x w HD HQ Hx Hnb) as Hwp. unfold wp in Hwp. rewrite Hrun in Hwp.
  pose proof (CI_wake _ _ _ _ ks HC) as HCw. pose proof (at_wake ks _ _ _ _ _ Ht) as Htw. cbn in Htw. destruct e as [| |i0]; [done| |].
  - destruct Hwp as (d2 & m & [= -> <-] & Hs & Hn). pose proof (DI_scrubbed _ _ _ HD Hs) as HD'. destruct Hs as (dl & -> & _). split.
    + exists fl, qa, qu. split; [done|]. split; [destruct HQ; by split|]. split; [by eapply CI_starved|done].
    + left. unfold abs. cbn [dk cs store bufs set_field]. f_equal. rewrite (abs_ext d) by done. erewrite abs_insert_same; [apply abs_wake|exact Htw|done].
  - destruct Hwp as (i1 & i2 & [= -> ->] & Hnd & Hf). set (d2 := submitted _ _ _ _ _ _ _).
    assert (Hi0 : fl !! i0 = None).
    { destruct (fl !! i0) as [f|] eqn:E; [|done]. pose proof (member_free _ _ _ _ _ HD E (member_head _ _)). rewrite (Hf i0) in H; [done|set_solver]. } split.
    + exists (<[i0 := mkFlight i1 i2 b w t]> fl), (qa ++ [i0]), qu. split; [by apply DI_submitted|]. split; [by apply QI_submitted|]. split; [|done].
      cbn [dk dv cs after]. eapply CI_submitted; [exact HCw|exact Htw|done|set_solver|set_solver| | |].
      * intros b' y Hy. change (bufs d2) with (<[b := x <| ondisk := true |>]> (bufs d)) in Hy. apply insert_at in Hy as [[-> ->]|[_ Hy]]; [by apply (ci_good _ _ _ _ HC b x)|by eapply (ci_good _ _ _ _ HC)].
      * intros b' [y Hy]. change (bufs d2) with (<[b := x <| ondisk := true |>]> (bufs d)). apply lookup_lt_is_Some_2. rewrite length_insert. by eapply lookup_lt_Some.
      * change (free d2) with (put_all false [i0; i1; i2] (free d)). pose proof (nfree_put (free d) _ Hnd Hf). lia.
    + left. unfold abs. cbn [dk cs]. change (store d2) with (store d). change (bufs d2) with (<[b := x <| ondisk := true |>]> (bufs d)).
      rewrite shown_ondisk by done. f_equal. assert (E : ∀ h, h ≠ i0 → info_status d2 !! h = info_status d !! h) by (intros h Hh; cbn; by rewrite list_lookup_insert_ne).
      rewrite list_fmap_insert. cbn [after abs_call]. assert (Es : info_status d2 !! i0 = Some 0xff).
      { cbn. apply list_lookup_insert_eq. rewrite (l_status _ (di_lens _ _ HD)). rewrite <- (l_free _ (di_lens _ _ HD)). eapply lookup_lt_Some, Hf. set_solver. }
      rewrite Es, decide_False by done. rewrite (abs_ext d).
      * rewrite list_insert_id; [apply abs_wake|]. by rewrite list_lookup_fmap, Htw.
      * intros t' b' w' h a Hh. apply E. intros ->. destruct (ci_wait _ _ _ _ HCw _ _ _ _ _ Hh) as (f & Hf' & _). congruence.
Qed.
Lemma woken_advances d v l t b w h e ks d' : VI (mkSys d v l) → l !! t = Some (b, w, PWait h false) → virtio_disk_rw_woken b h (World [] [] d) = Done e (World [] ks d') →
  advances (mkSys d v l) (mkSys d' v (<[t := (b, w, after e)]> (wake ks <$> l))).
Proof.
  intros (fl & qa & qu & HD & HQ & HC & Hiq) Ht Hrun. cbn in HD, HQ, HC, Hiq. destruct (ci_wait _ _ _ _ HC _ _ _ _ _ Ht) as (f & Hf & <- & <- & <-).
  pose proof (woken_spec d v fl qa qu h f HD HQ Hf) as Hwp. unfold wp in Hwp. rewrite Hrun in Hwp.
  pose proof (CI_wake _ _ _ _ ks HC) as HCw. pose proof (at_wake ks _ _ _ _ _ Ht) as Htw. cbn in Htw. case_decide as Hl.
  - destruct Hwp as [-> [= -> ->]]. split; [exists fl, qa, qu; split; [done|]; split; [done|]; split; [by eapply CI_resleep|done]|]. left. unfold abs. cbn [dk cs]. f_equal.
    erewrite abs_insert_same; [apply abs_wake|exact Htw|done].
  - destruct Hwp as [-> [= -> ->]]. split.
    + exists (delete h fl), qa, qu. split; [by apply DI_finished|]. split; [by apply QI_finished|]. split; [|done]. eapply (CI_returned d); [exact HCw|exact Htw|done|].
      intros t' b' w' (ph & _ & E)%wake_at. symmetry in E. apply wake_alloc in E as [_ E]. set_solver.
    + right. unfold abs. cbn [dk cs]. change (store (finished d h f)) with (store d). change (bufs (finished d h f)) with (bufs d).
      rewrite list_fmap_insert. assert (Ea : abs_call (finished d h f) <$> (wake [free_chan; free_chan; free_chan] <$> l) = abs_call d <$> l) by (etrans; [by apply (abs_ext d (finished d h f))|apply abs_wake]). rewrite Ea. clear Ea. apply a_return. rewrite list_lookup_fmap, Ht. cbn.
      rewrite decide_True; [done|]. eapply (qi_done _ _ _ _ _ HQ); [done|]. set_solver.
Qed.
Lemma CI_quiet d d' l fl live live' ks : CI d l fl live → quiet d d' → (∀ h, h ∈ live → h ∉ live' → ∃ f, fl !! h = Some f ∧ buf_chan (fb f) ∈ ks) → CI d' (wake ks <$> l) fl live'.
Proof.
  intros HC [Q1 Q2 Q3 Q4] Hk. pose proof (CI_wake _ _ _ _ ks HC) as [H1 H2 H3 H4 H5 H6 H7]. split; try done.
  - intros t b w ph Hl. destruct (H4 _ _ _ _ Hl) as [x Hx]. destruct (shown_at _ _ _ _ Q4 Hx) as (x' & Hx' & _). eauto.
  - intros b x Hx. symmetry in Q4. destruct (shown_at _ _ _ _ Q4 Hx) as (x' & Hx' & E). apply H5 in Hx'. unfold good in *. injection E as E1 E2. by rewrite <- E1.
  - intros t b w h Hl. pose proof (H6 _ _ _ _ Hl) as Hh. destruct (decide (h ∈ live')) as [|Hn]; [done|]. destruct (Hk h Hh Hn) as (f & Hf & Hc).
    destruct (H1 _ _ _ _ _ Hl) as (f' & Hf' & <- & _). rewrite Hf in Hf'. injection Hf' as <-.
    apply wake_at in Hl as (ph & _ & E). symmetry in E. apply wake_wait in E as (a0 & _ & E). by destruct (E eq_refl).
  - intros t b w Hl. rewrite Q2. by eapply H7.
Qed.
Lemma intr_advances d v l ks d' : VI (mkSys d v l) → virtio_disk_intr (World [] [] d) = Done () (World [] ks d') →
  advances (mkSys d v l) (mkSys d' v (wake ks <$> l)).
Proof.
  intros (fl & qa & qu & HD & HQ & HC & Hiq) Hrun. cbn in HD, HQ, HC, Hiq. pose proof (intr_spec d v fl qa qu HD HQ) as Hwp. unfold wp in Hwp. rewrite Hrun in Hwp.
  destruct Hwp as (d2 & ks2 & [= <- <-] & HD' & HQ' & Hq & Hk). split.
  - exists fl, qa, []. split; [done|]. split; [done|]. split; [|done]. eapply CI_quiet; [done|done|]. intros h Hh Hn. cbn in Hn.
    destruct (qi_dom _ _ _ _ _ HQ h Hh) as [f Hf]. exists f. split; [done|]. eapply Hk; [|done]. set_solver.
  - left. unfold abs. cbn [dk cs]. destruct Hq as [Q1 Q2 Q3 Q4]. rewrite Q1, Q4. f_equal. rewrite (abs_ext d); [apply abs_wake|]. intros. by rewrite Q3.
Qed.
Lemma fetch_advances d v l h : VI (mkSys d v l) → seen v ≠ avail_idx d → avail_ring d !! ring_slot NUM (seen v) = Some h →
  advances (mkSys d v l) (mkSys d (mkDevice (u16 (seen v + 1)) (work v ++ [Z.to_nat h])) l).
Proof.
  intros (fl & qa & qu & HD & HQ & HC & Hiq) Hne Hh. cbn in HD, HQ, HC, Hiq. destruct qa as [|g qa].
  { destruct Hne. rewrite (qi_avail _ _ _ _ _ HQ). cbn. rewrite Z.add_0_r. unfold u16. symmetry. apply Z.mod_small, (qi_seen _ _ _ _ _ HQ). }
  assert (Hr := qi_aring _ _ _ _ _ HQ). cbn [fmap list_fmap] in Hr. rewrite (holds_head _ _ _ _ _ Hr) in Hh. injection Hh as <-. rewrite Nat2Z.id.
  split; [|by left]. exists fl, qa, qu. split; [done|]. split; [by apply QI_seen|]. split; [|done]. cbn [dk dv cs work].
  destruct HC as [H1 H2 H3 H4 H5 H6 H7]. split; try done. intros t b w h Hl. apply H6 in Hl. set_solver.
Qed.
Lemma carried_calls d l fl live h f x a : CI d l fl live → fl !! h = Some f → (h < length (info_status d))%nat → l !! ft f = Some (fb f, fw f, PWait h a) →
  abs_call (carried d h f x) <$> l = <[ft f := (fb f, fw f, Transferred)]> (abs_call d <$> l).
Proof.
  intros HC Hf Hlen Ha. assert (Hst : info_status (carried d h f x) = <[h := 0]> (info_status d)) by (unfold carried; by destruct (fw f)).
  rewrite <- (list_insert_id l (ft f) _ Ha) at 1. rewrite list_fmap_insert. cbn [abs_call]. rewrite Hst, list_lookup_insert_eq, decide_True by done.
  apply list_eq. intros t. destruct (decide (t = ft f)) as [->|Hne].
  - rewrite !list_lookup_insert_eq; [done|rewrite length_fmap; by eapply lookup_lt_Some..].
  - rewrite !list_lookup_insert_ne by done. rewrite !list_lookup_fmap. destruct (l !! t) as [[[b w] [|h' a'|]]|] eqn:El; cbn [fmap option_fmap option_map abs_call]; try done.
    rewrite Hst, list_lookup_insert_ne; [done|]. intros <-. destruct (ci_wait _ _ _ _ HC _ _ _ _ _ El) as (f' & Hf' & _ & _ & Et). congruence.
Qed.
Lemma complete_advances d v l h rest d' : VI (mkSys d v l) → work v ≡ₚ h :: rest → carry_out d h = Some d' →
  advances (mkSys d v l) (mkSys d' (mkDevice (seen v) rest) l).
Proof.
  intros (fl & qa & qu & HD & HQ & HC & Hiq) Hp Hc. cbn in HD, HQ, HC, Hiq. assert (Hw : h ∈ work v) by (rewrite Hp; set_solver).
  destruct (qi_dom _ _ _ _ _ HQ h) as [f Hf]; [set_solver|]. destruct (di_chain _ _ HD h f Hf) as [_ _ _ _ (x & Hx & _)].
  pose proof (ci_good _ _ _ _ HC _ _ Hx) as Hg. rewrite (carry_out_spec d fl h f x) in Hc by done. injection Hc as <-.
  assert (Hlen : (h < length (info_status d))%nat) by (rewrite (l_status _ (di_lens _ _ HD)); exact (member_lt _ _ _ _ _ HD Hf (member_head _ _))).
  assert (Hold : info_status d !! h = Some 0xff) by (apply (qi_wait _ _ _ _ _ HQ); set_solver).
  assert (Hb : ∀ b y, bufs (carried d h f x) !! b = Some y → ∃ y0, bufs d !! b = Some y0 ∧ blockno y = blockno y0).
  { intros b y. unfold carried. destruct (fw f); cbn; [by eauto|]. intros [(<- & <- & _)|[_ Hy]]%list_lookup_insert_Some; eauto. }
  assert (Hb' : ∀ b y0, bufs d !! b = Some y0 → ∃ y, bufs (carried d h f x) !! b = Some y ∧ blockno y = blockno y0).
  { intros b y0 Hy. unfold carried. destruct (fw f); cbn; [by eauto|]. destruct (decide (b = fb f)) as [->|Hne]; [|rewrite list_lookup_insert_ne by done; eauto].
    rewrite list_lookup_insert_eq by (by eapply lookup_lt_Some). eexists. split; [done|]. cbn. congruence. }
  destruct (ci_flight _ _ _ _ HC h f Hf) as [a Ha]. split.
  - exists fl, qa, (qu ++ [h]). split; [|split; [|split; [|intros _; by apply carried_isr, (qi_isr _ _ _ _ _ HQ)]]].
    + eapply DI_ext; [done| |unfold carried; by destruct (fw f)..|done]. destruct (di_lens _ _ HD). unfold carried. destruct (fw f); split; cbn; rewrite ?length_insert; done.
    + by apply QI_carried.
    + cbn [dk dv cs work]. destruct HC as [H1 H2 H3 H4 H5 H6 H7]. split; try done.
      * intros t b w ph Hl. destruct (H4 _ _ _ _ Hl) as [y Hy]. destruct (Hb' b y Hy) as (y' & Hy' & _). eauto.
      * intros b y Hy. destruct (Hb b y Hy) as (y0 & Hy0 & E). unfold good. rewrite E. by eapply H5.
      * intros t b w h' Hl. apply H6 in Hl. revert Hl. rewrite Hp. set_solver.
      * replace (free (carried d h f x)) with (free d) by (unfold carried; by destruct (fw f)). done.
  - right. unfold abs. cbn [dk cs].
    rewrite (carried_calls _ _ _ _ _ _ _ _ HC Hf Hlen Ha). assert (Hreq : (abs_call d <$> l) !! ft f = Some (fb f, fw f, Requested)) by (rewrite list_lookup_fmap, Ha; cbn; by rewrite Hold).
    assert (Hsh : (shown <$> bufs d) !! fb f = Some (blockno x, data x)) by (by rewrite list_lookup_fmap, Hx).
    unfold carried. destruct (fw f) eqn:Ew; cbn [store bufs set_field]; [by eapply a_write|]. rewrite list_fmap_insert. by eapply a_read.
Qed.
Lemma busy_abs d l b : ¬ busy l b → ¬ abusy (abs_call d <$> l) b.
Proof.
  intros Hn (t & w & ph & Ht & Hp). apply Hn. rewrite list_lookup_fmap in Ht. apply fmap_Some in Ht as ([[b' w'] ph'] & Ht & E).
  destruct ph' as [a|h a|]; cbn in E; simplify_eq; eexists _, _, _; (split; [exact Ht|done]).
Qed.
Lemma call_advances d v l b w x : VI (mkSys d v l) → bufs d !! b = Some x → ¬ busy l b → advances (mkSys d v l) (mkSys d v (l ++ [(b, w, PAlloc false)])).
Proof.
  intros (fl & qa & qu & HD & HQ & HC & Hiq) Hx Hn. cbn in HD, HQ, HC, Hiq.
  assert (Hl : ∀ t c, (l ++ [(b, w, PAlloc false)]) !! t = Some c → l !! t = Some c ∨ t = length l ∧ c = (b, w, PAlloc false)).
  { intros t c [Hc|[Hge Hc]]%lookup_app_Some; [by left|]. right. apply list_lookup_singleton_Some in Hc as [? <-]. split; [lia|done]. }
  split.
  - exists fl, qa, qu. split; [done|]. split; [done|]. split; [|done]. cbn [dk dv cs]. destruct HC as [H1 H2 H3 H4 H5 H6 H7]. split.
    + intros t b' w' h a [Ht|[_ [=]]]%Hl. by eapply H1.
    + intros h f Hf. destruct (H2 h f Hf) as [a Ha]. exists a. by apply lookup_app_l_Some.
    + intros t1 t2 b' w1 w2 p1 p2 [L1|[-> E1]]%Hl N1 [L2|[-> E2]]%Hl N2; simplify_eq; [by eapply H3| | |done]; destruct Hn; unfold busy; eauto 6.
    + intros t b' w' ph [Ht|[_ E]]%Hl; [by eapply H4|]. injection E as -> -> ->. eauto.
    + done.
    + intros t b' w' h [Ht|[_ [=]]]%Hl. by eapply H6.
    + intros t b' w' [Ht|[_ [=]]]%Hl. by eapply H7.
  - right. unfold abs. cbn [dk cs]. rewrite fmap_app. cbn. eapply a_call; [by rewrite list_lookup_fmap, Hx|by apply busy_abs].
Qed.
Lemma client_advances d v l b x x' : VI (mkSys d v l) → bufs d !! b = Some x → ¬ busy l b → good x' → ondisk x' = ondisk x →
  advances (mkSys d v l) (mkSys (d <| bufs ::= <[b := x']> |>) v l).
Proof.
  intros (fl & qa & qu & HD & HQ & HC & Hiq) Hx Hn Hg Ho. cbn in HD, HQ, HC, Hiq.
  assert (Hfb : ∀ h f, fl !! h = Some f → fb f ≠ b).
  { intros h f Hf E. apply Hn. destruct (ci_flight _ _ _ _ HC h f Hf) as [a Ha]. rewrite E in Ha. unfold busy. eauto 6. }
  split.
  - exists fl, qa, qu. split; [|split; [|split; [|done]]].
    + destruct HD as [HL HCh HN HDj HF]. split; [destruct HL; by split| |done|done|done]. intros h f Hf. destruct (HCh h f Hf) as [C0 C1 C2 Ci (y & Hy & Hr)].
      split; try done. exists y. split; [|done]. cbn. rewrite list_lookup_insert_ne; [done|]. intros E. by apply (Hfb h f Hf).
    + destruct HQ. split; try done. intros h f y Hf Hy. cbn in Hy. rewrite list_lookup_insert_ne in Hy; [by apply (qi_disk0 h f)|]. intros E. by apply (Hfb h f Hf).
    + cbn [dk dv cs]. destruct HC as [H1 H2 H3 H4 H5 H6 H7]. split; try done.
      * intros t b' w' ph Ht. destruct (H4 _ _ _ _ Ht) as [y Hy]. cbn. apply lookup_lt_is_Some_2. rewrite length_insert. by eapply lookup_lt_Some.
      * intros b' y [[-> ->]|[_ Hy]]%insert_at; [done|by eapply H5].
  - right. unfold abs. cbn. rewrite list_fmap_insert. eapply a_client; [by rewrite list_lookup_fmap, Hx|by apply busy_abs].
Qed.
Section runs.
Context (dev : disk * device → disk * device → Prop) (dev_ok : ∀ x y, dev x y → contract x y).
Lemma step_advances s s' : step dev s s' → VI s → advances s s'.
Proof.
  destruct 1 as [d v l b w x Hx Hn|d v l b x x' Hx Hn Hg Ho|d v l t b w e ks d' Ht Hr|d v l t b w h e ks d' Ht Hr|d v l ks d' Hr|d v d' v' l Hd]; intros HV.
  - by eapply call_advances.
  - by eapply client_advances.
  - by eapply rw_advances.
  - by eapply woken_advances.
  - by eapply intr_advances.
  - apply dev_ok in Hd. inversion Hd; subst; [by eapply fetch_advances|by eapply complete_advances].
Qed.
Lemma run_advances s s' : rtc (step dev) s s' → VI s → VI s' ∧ rtc astep (abs s) (abs s').
Proof.
  induction 1 as [s|s s1 s2 H1 _ IH]; intros HV; [done|]. destruct (step_advances _ _ H1 HV) as [HV1 Ha]. destruct (IH HV1) as [HV2 Hr]. split; [done|].
  destruct Ha as [<-|Ha]; [done|by eapply rtc_l].
Qed.
End runs.
Lemma nfree_all l : (∀ i, l !! i ≠ Some false) → nfree l = length l.
Proof. induction l as [|b l IH]; intros H; [done|]. cbn. destruct b; [|by destruct (H 0%nat)]. f_equal. apply IH. intros i. apply (H (S i)). Qed.
Lemma some_taken (l : list bool) : (nfree l < length l)%nat → ∃ i, l !! i = Some false.
Proof.
  induction l as [|b l IH]; cbn; [lia|]. intros H. destruct b; [|by exists 0%nat]. destruct IH as [i Hi]; [lia|]. by exists (S i).
Qed.

(** C8: the disk driver implements atomic transfers. Take any interleaving of
    calls of virtio_disk_rw on buffers that each have one user, of disk
    interrupts, and of the steps of a device that keeps its contract (it fetches
    the heads the driver makes available, and completes the requests it fetched
    in any order, with success). Seen through [abs], which forgets descriptors, rings and
    sleeping, this is a run of a disk that serves every call in one atomic
    step between the call and its return: a write stores the buffer at its
    block, a read loads it, and nothing else touches the medium or the data of
    a buffer in use. *)
Theorem virtio_refines dev s0 s : (∀ x y, dev x y → contract x y) → initial s0 → rtc (step dev) s0 s → rtc astep (abs s0) (abs s).
Proof. intros Hd Hi Hr. by apply (run_advances dev Hd s0 s Hr), initial_VI. Qed.
(** C27: the disk driver never stops working. In every state of such a run, each
    section that can run returns: no descriptor is freed twice or out of range,
    no completion is reported for a buffer that is gone, and no loop runs for
    ever. Every request the device has fetched is a well-formed chain that it
    can carry out. A call that sleeps for its transfer has something to come
    that leads to its wakeup: a head to fetch, of which the device has been
    notified, a request to complete, or an entry of the used ring to look at,
    with the interrupt of the device still raised. A call sleeps for descriptors only while
    another call's request is in flight. *)
Theorem virtio_never_stuck dev s0 s : (∀ x y, dev x y → contract x y) → initial s0 → rtc (step dev) s0 s →
  (∀ t b w, cs s !! t = Some (b, w, PAlloc false) → ∃ e ks d', virtio_disk_rw b w (World [] [] (dk s)) = Done e (World [] ks d')) ∧
  (∀ t b w h, cs s !! t = Some (b, w, PWait h false) → ∃ e ks d', virtio_disk_rw_woken b h (World [] [] (dk s)) = Done e (World [] ks d')) ∧
  (∃ ks d', virtio_disk_intr (World [] [] (dk s)) = Done () (World [] ks d')) ∧
  (∀ h, h ∈ work (dv s) → is_Some (carry_out (dk s) h)) ∧
  (∀ t b w h, cs s !! t = Some (b, w, PWait h true) → (seen (dv s) ≠ avail_idx (dk s) ∧ notified (dk s) = avail_idx (dk s)) ∨
    work (dv s) ≠ [] ∨ (used_idx (dk s) ≠ used_at (dk s) ∧ isr (dk s) ≠ 0)) ∧
  (∀ t b w, cs s !! t = Some (b, w, PAlloc true) → ∃ t' b' w' h a, cs s !! t' = Some (b', w', PWait h a)).
Proof.
  intros Hd Hi Hr. destruct (run_advances dev Hd s0 s Hr (initial_VI _ Hi)) as [(fl & qa & qu & HD & HQ & HC & Hiq) _]. split_and!.
  - intros t b w Ht. destruct (ci_buf _ _ _ _ HC _ _ _ _ Ht) as [x Hx].
    pose proof (rw_spec _ _ _ _ _ b x w HD HQ Hx (λ h f Hf, not_in_flight _ _ _ _ _ _ _ _ h f HC Ht Hf)) as (e & w' & E & H)%wp_done.
    destruct e; [done|destruct H as (? & ? & -> & _)|destruct H as (? & ? & -> & _)]; eauto.
  - intros t b w h Ht. destruct (ci_wait _ _ _ _ HC _ _ _ _ _ Ht) as (f & Hf & <- & _).
    pose proof (woken_spec _ _ _ _ _ h f HD HQ Hf) as (e & w' & E & H)%wp_done. case_decide; destruct H as [-> ->]; eauto.
  - pose proof (intr_spec _ _ _ _ _ HD HQ) as ([] & w' & E & ? & ? & -> & _)%wp_done. eauto.
  - intros h Hh. destruct (qi_dom _ _ _ _ _ HQ h) as [f Hf]; [set_solver|]. destruct (di_chain _ _ HD h f Hf) as [_ _ _ _ (x & Hx & _)].
    rewrite (carry_out_spec _ _ _ _ _ HD Hf Hx (ci_good _ _ _ _ HC _ _ Hx)). eauto.
  - intros t b w h Ht. pose proof (ci_asleep _ _ _ _ HC _ _ _ _ Ht) as Hl. apply elem_of_app in Hl as [Hl|[Hl|Hl]%elem_of_app].
    + left. split; [|apply HQ]. rewrite (qi_avail _ _ _ _ _ HQ). apply counter_ne; [apply HQ|intros ->; by apply elem_of_nil in Hl|]. eapply part_short; [done|done|]. by apply sublist_inserts_r.
    + right; left. intros E. rewrite E in Hl. by apply elem_of_nil in Hl.
    + right; right. split; [|rewrite Hiq; [done|intros ->; by apply elem_of_nil in Hl]]. rewrite (qi_used _ _ _ _ _ HQ). apply counter_ne; [apply HQ|intros ->; by apply elem_of_nil in Hl|]. eapply part_short; [done|done|]. do 2 apply sublist_inserts_l. done.
  - intros t b w Ht. pose proof (ci_starve _ _ _ _ HC _ _ _ Ht) as Hn. destruct (some_taken (free (dk s))) as [i Hi']; [rewrite (l_free _ (di_lens _ _ HD)); lia|].
    apply (di_free _ _ HD) in Hi' as (h & f & Hf & _). destruct (ci_flight _ _ _ _ HC h f Hf) as [a Ha]. eauto 6.
Qed.

(** ** Initialisation leads to such a state *)
Record present (read : list (mmio * Z) → mmio → Z) : Prop := {
  p_magic l : read l MAGIC_VALUE = 0x74726976; p_version l : read l VERSION = 2; p_device l : read l DEVICE_ID = 2; p_vendor l : read l VENDOR_ID = 0x554d4551;
  p_features l : Z.land (read l STATUS) VIRTIO_CONFIG_S_FEATURES_OK ≠ 0; p_ready l : read l QUEUE_READY = 0; p_max l : NUM ≤ read l QUEUE_NUM_MAX;
}.
(** The static arrays and the buffers before any call. *)
Record static (d : disk) : Prop := {
  s_free : length (free d) = 8%nat; s_info : length (info_b d) = 8%nat; s_status : length (info_status d) = 8%nat; s_ops : length (ops d) = 8%nat;
  s_idx : used_idx d = 0; s_bufs b x : bufs d !! b = Some x → good x;
}.
Lemma free_from_spec n : ∀ i d h k, (i + n = 8)%nat → length (free d) = 8%nat → (∀ j, (j < i)%nat → free d !! j ≠ Some false) →
  wp (free_from n i) (λ _ w', ∃ l, w' = World h k (d <| free := l |>) ∧ length l = 8%nat ∧ ∀ j, l !! j ≠ Some false) (World h k d).
Proof.
  induction n as [|n IH]; intros i d h k Hi Hl Hf; cbn [free_from].
  { apply wp_ret. exists (free d). split_and!; [by destruct d|done|]. intros j Hj. apply (Hf j); [|done]. apply lookup_lt_Some in Hj. lia. }
  apply wp_bind, wp_store; [apply lookup_lt_is_Some_2; lia|]. eapply wp_mono; [apply (IH (S i)); [lia|cbn; by rewrite length_insert|]|].
  - intros j Hj. cbn. destruct (decide (j = i)) as [->|Hne]; [by rewrite list_lookup_insert_eq by lia|]. rewrite list_lookup_insert_ne by done. apply Hf. lia.
  - intros _ w' (l & -> & H). by exists l.
Qed.
(** The registers written so far are of no consequence. *)
Definition sans_regs (d : disk) : disk :=
  mkDisk (desc d) (avail_idx d) (avail_ring d) (used_at d) (used_ring d) (free d) (used_idx d) (info_b d) (info_status d) (ops d) (pages d) (bufs d) (store d) [] (notified d) (isr d).
Lemma wp_regs r v D K Φ h k (s : vsys) : (∀ d, effect r v d = d) → sans_regs (vd s) = D → vk s = K → (∀ s', sans_regs (vd s') = D → vk s' = K → Φ () (World h k s')) →
  wp (dop (WriteR r v)) Φ (World h k s).
Proof. intros He <- <- H. apply H; [|done]. cbn. by rewrite He. Qed.
Lemma wp_reset Φ h k (s : vsys) : (∀ s', sans_regs (vd s') = sans_regs ((vd s) <| notified := 0 |> <| isr := 0 |>) → vk s' = vk s → Φ () (World h k s')) →
  wp (put_status 0) Φ (World h k s).
Proof. intros H. by apply H. Qed.
Lemma kop_kalloc kend D p l Φ h w (s : vsys) : sans_regs (vd s) = D → KA kend (vk s) (p :: l) → kmem_lock ∉ h →
  (∀ s', sans_regs (vd s') = D → KA kend (vk s') l → Φ p (World h w s')) → wp (kop kalloc) Φ (World h w s).
Proof.
  intros HD HK Hh H. apply wp_zoom. eapply wp_mono; [by eapply kalloc_spec|]. intros r w' (k' & -> & -> & HK' & _). cbn. by apply H.
Qed.
Lemma kop_memset D Φ h w a c n (s : vsys) : sans_regs (vd s) = D → (∀ s', sans_regs (vd s') = D → Φ () (World h w s')) → wp (kop (do_memset a c n)) Φ (World h w s).
Proof. intros HD H. by apply H. Qed.
Ltac regs_step := eapply wp_regs; [reflexivity|eassumption|first [eassumption|reflexivity]|]; let s' := fresh "s" in intros s' ? ?.
Lemma virtio_disk_init_ready kend read d k p1 p2 p3 l h : present read → static d → KA kend k (p1 :: p2 :: p3 :: l) → kmem_lock ∉ h →
  wp (virtio_disk_init read) (λ _ w', initial (mkSys (vd (st w')) (mkDevice 0 []) []) ∧ pages (vd (st w')) = [p1; p2; p3] ∧ NoDup [p1; p2; p3]) (World h [] (mkVsys d k)).
Proof.
  intros [] Hs HK Hh. assert (Hnd : NoDup [p1; p2; p3]).
  { destruct HK as [_ Hnd]. change (p1 :: p2 :: p3 :: l) with ([p1; p2; p3] ++ l) in Hnd. by apply NoDup_app in Hnd as (? & _). }
  assert (Hpos : ∀ p, p ∈ p1 :: p2 :: p3 :: l → (p =? 0) = false).
  { intros p Hp. apply Z.eqb_neq. destruct HK as [Hc _]. pose proof (chain_ok _ _ _ _ _ Hc Hp) as (_ & _ & ?). lia. }
  unfold virtio_disk_init, negotiate, put_address, put_status, ReadR.
  do 4 (apply wp_bind, wp_gets). rewrite p_magic0, p_version0, p_device0, p_vendor0. apply wp_bind, wp_when. cbn [negb orb Z.eqb].
  apply wp_bind, wp_reset. cbn [vd vk]. set (dz := d <| notified := 0 |> <| isr := 0 |>). intros s HD HK0.
  do 2 (apply wp_bind; regs_step). apply wp_bind, wp_bind, wp_gets. regs_step. apply wp_bind. regs_step. apply wp_bind, wp_gets.
  apply wp_bind, wp_when. rewrite (proj2 (Z.eqb_neq _ 0) (p_features0 _)). apply wp_bind. regs_step. apply wp_bind, wp_gets. rewrite p_ready0. apply wp_bind, wp_when. cbn [Z.eqb negb].
  apply wp_bind, wp_gets. set (max := read _ QUEUE_NUM_MAX). assert (Hmax : NUM ≤ max) by apply p_max0.
  apply wp_bind, wp_when. destruct (Z.eqb_spec max 0) as [E|_]; [unfold NUM in *; lia|]. apply wp_bind, wp_when. destruct (Z.ltb_spec max NUM); [lia|].
  apply wp_bind. eapply kop_kalloc; [eassumption|replace (vk _) with k; exact HK|done|]. intros t1 D1 HK1.
  apply wp_bind. eapply kop_kalloc; [exact D1|exact HK1|done|]. intros t2 D2 HK2.
  apply wp_bind. eapply kop_kalloc; [exact D2|exact HK2|done|]. intros t3 D3 HK3. apply wp_bind, wp_when. rewrite !Hpos by set_solver. cbn [orb].
  apply wp_bind. eapply kop_memset; [exact D3|]. intros t4 D4. apply wp_bind. eapply kop_memset; [exact D4|]. intros t5 D5.
  apply wp_bind. eapply kop_memset; [exact D5|]. intros t6 D6. apply wp_bind, wp_zoom, wp_modify.
  match goal with |- wp _ _ (World _ _ ?t) => set (t7 := t) end.
  assert (D7 : sans_regs (vd t7) = sans_regs (clear_rings [p1; p2; p3] dz)).
  { unfold t7. clear -D6. destruct t6 as [[] ?], dz. unfold sans_regs in *. cbn in *. injection D6 as. subst. reflexivity. }
  clearbody t7. apply wp_bind. regs_step. do 3 (apply wp_bind, wp_bind; regs_step; regs_step). apply wp_bind. regs_step. apply wp_bind, wp_zoom.
  match goal with H : sans_regs (vd ?t) = _ |- wp _ _ (World _ _ (vd ?t)) => destruct t as [dd kk]; rename H into DD; cbn [vd] in DD |- * end.
  assert (Hdd : static dd ∧ length (desc dd) = 8%nat ∧ length (avail_ring dd) = 8%nat ∧ length (used_ring dd) = 8%nat ∧ avail_idx dd = 0 ∧ used_at dd = 0 ∧ pages dd = [p1; p2; p3] ∧ notified dd = 0 ∧ isr dd = 0).
  { clear -DD Hs. destruct dd, d, Hs. unfold sans_regs in DD. cbn in *. injection DD as. subst. by split_and!. }
  destruct Hdd as ([] & G1 & G2 & G3 & G4 & G5 & G6 & G7 & G8). eapply wp_mono; [apply free_from_spec; [done|done|lia]|]. intros _ w' (fr & -> & Hfl & Hf).
  unfold initial. cbn. destruct (_ =? 0); cbn; split_and!; done.
Qed.

(** ** A run: one write of block 5 *)
Definition demo_disk : disk := mkDisk (repeat desc0 8) 0 (repeat 0 8) 0 (repeat 0 8) (repeat true 8) 0 (repeat None 8) (repeat 0 8) (repeat req0 8)
  [] [mkDbuf 5 {[0 := 42]} false] ∅ [] 0 0.
Definition demo0 : sys := mkSys demo_disk (mkDevice 0 []) [].
Definition demo1 : sys := mkSys demo_disk (mkDevice 0 []) [(0%nat, true, PAlloc false)].
Definition demo_d2 : disk := Eval vm_compute in final (virtio_disk_rw 0 true) (World [] [] demo_disk).
Definition demo_d4 : disk := Eval vm_compute in default demo_disk (carry_out demo_d2 0).
Definition demo_d5 : disk := Eval vm_compute in final virtio_disk_intr (World [] [] demo_d4).
Definition demo_d6 : disk := Eval vm_compute in final (virtio_disk_rw_woken 0 0) (World [] [] demo_d5).
Definition demo2 : sys := mkSys demo_d2 (mkDevice 0 []) [(0%nat, true, PWait 0 true)].
Definition demo3 : sys := mkSys demo_d2 (mkDevice 1 [0%nat]) (cs demo2).
Definition demo4 : sys := mkSys demo_d4 (mkDevice 1 []) (cs demo2).
Definition demo5 : sys := mkSys demo_d5 (mkDevice 1 []) [(0%nat, true, PWait 0 false)].
Definition demo6 : sys := mkSys demo_d6 (mkDevice 1 []) [(0%nat, true, PReturned)].
Lemma demo_disk_initial : initial demo0.
Proof.
  split_and!; try done; [intros i Hi; do 8 (destruct i as [|i]; [done|]); done|]. intros [|b] x; cbn; [|done]. intros [= <-]. unfold good; cbn. lia.
Qed.
Lemma demo_steps : rtc (step contract) demo0 demo5.
Proof.
  apply (rtc_l _ _ demo1); [apply (step_call _ demo_disk _ [] 0 true (mkDbuf 5 {[0 := 42]} false)); [done|intros (t & w & ph & Ht & _); by rewrite lookup_nil in Ht]|].
  apply (rtc_l _ _ demo2); [apply (step_rw _ demo_disk (mkDevice 0 []) (cs demo1) 0 0 true (SleepBuf 0) [] demo_d2); [done|vm_compute; reflexivity]|].
  apply (rtc_l _ _ demo3); [apply step_device, (fetches demo_d2 (mkDevice 0 []) 0); done|].
  apply (rtc_l _ _ demo4); [apply step_device, (completes demo_d2 (mkDevice 1 [0%nat]) 0 [] demo_d4); [done|vm_compute; reflexivity]|].
  apply rtc_once. apply (step_intr _ demo_d4 (mkDevice 1 []) (cs demo2) [buf_chan 0] demo_d5). vm_compute. reflexivity.
Qed.
Lemma demo_returns : rtc (step contract) demo0 demo6.
Proof.
  eapply rtc_r; [exact demo_steps|].
  apply (step_woken _ demo_d5 (mkDevice 1 []) (cs demo5) 0 0 true 0 Return [free_chan; free_chan; free_chan] demo_d6); [done|]. vm_compute. reflexivity.
Qed.
Lemma virtio_refines_witness : rtc astep (abs demo0) (abs demo6) ∧ a_store (abs demo6) !! 5 = Some {[0 := 42]} ∧ a_calls (abs demo6) = [(0%nat, true, Over)].
Proof. split; [|split; vm_compute; reflexivity]. apply (virtio_refines contract demo0 demo6); [done|apply demo_disk_initial|apply demo_returns]. Defined.
Lemma virtio_never_stuck_witness : ∃ e ks d', virtio_disk_rw_woken 0 0 (World [] [] demo_d5) = Done e (World [] ks d').
Proof.
  destruct (virtio_never_stuck contract demo0 demo5 (λ _ _ H, H) demo_disk_initial demo_steps) as (_ & H & _). apply (H 0%nat 0%nat true 0%nat). reflexivity.
Defined.
