(* ===== verification/Pipe.v ===== *)
(** * Pipes: kernel/pipe.c

    [pipewrite] and [piperead] run under the pipe's lock except while they
    sleep, so a call is a sequence of sections, each from [acquire] (or the end
    of [sleep], which takes the lock again) to [release] (or [sleep], which
    drops it). A section is a function here; the interleavings of any number
    of calls are sequences of sections. [killed] is another hart's word and may
    change at any turn of the loop; [copyin] and [copyout] stand for the
    transfers of one byte at offset [i] of the user buffer (Vm.v). The bytes
    that went through are recorded: [tx] those copied in, [rx] those taken out
    and whether the reader's buffer took them. *)
From S2P Require Import Prelude Param Ring.

Module Pipe.
Definition PIPESIZE : Z := 512.
Record pipe := mkPipe { data : list Z; nread : Z; nwrite : Z; readopen : bool; writeopen : bool }.
#[export] Instance eta_pipe : Settable pipe := λ p, mkPipe (data p) (nread p) (nwrite p) (readopen p) (writeopen p).
Record psys := mkPsys { pi : pipe; tx : list Z; rx : list (Z * bool) }.
#[export] Instance eta_psys : Settable psys := λ s, mkPsys (pi s) (tx s) (rx s).
Definition pipe_lock : lock := ("pipe", 0%nat).
Definition nread_chan : chan := ("nread", 0%nat).
Definition nwrite_chan : chan := ("nwrite", 0%nat).

(** How a section ends: the call returns, or sleeps and goes on from [i]. *)
Inductive ending := Return (r : Z) | Sleep (i : Z).
#[export] Instance ending_eq : EqDecision ending.
Proof. solve_decision. Defined.

(** The fields [pipealloc] sets. *)
Definition pipe_init (p : pipe) : pipe :=
  p <| readopen := true |> <| writeopen := true |> <| nwrite := 0 |> <| nread := 0 |>.

(** [pi->data[n % PIPESIZE]] *)
Definition slot (n : Z) : nat := ring_slot PIPESIZE n.
Definition put (ch : Z) (s : psys) : psys :=
  s <| pi ::= λ p, p <| data ::= <[slot (nwrite p) := ch]> |> <| nwrite ::= λ n, u32 (n + 1) |> |> <| tx ::= λ l, l ++ [ch] |>.
Definition take_out (ch : Z) (ok : bool) (s : psys) : psys :=
  s <| pi ::= λ p, p <| nread ::= λ n, u32 (n + 1) |> |> <| rx ::= λ l, l ++ [(ch, ok)] |>.

Section section.
Context (killed : Z → bool) (copyin : Z → option Z) (copyout : Z → Z → bool).

Definition write_end (i : Z) : M psys ending :=
  notify nread_chan;; release pipe_lock;; ret (Return i).
(** [k] is [n - i], the turns left. *)
Fixpoint write_while (k : nat) (i n : Z) : M psys ending :=
  if i <? n then
    match k with
    | O => timeout
    | S k =>
        p ← gets pi;
        if negb (readopen p) || killed i then
          release pipe_lock;; ret (Return (-1))
        else if nwrite p =? u32 (nread p + PIPESIZE) then
          notify nread_chan;; release pipe_lock;; ret (Sleep i)
        else match copyin i with
          | None => write_end i
          | Some ch => modify (put ch);; write_while k (i + 1) n
          end
    end
  else write_end i.
Definition pipewrite (i n : Z) : M psys ending :=
  acquire pipe_lock;; write_while (Z.to_nat (n - i)) i n.

Definition read_end (i : Z) : M psys ending :=
  notify nwrite_chan;; release pipe_lock;; ret (Return i).
Fixpoint read_for (k : nat) (i n : Z) : M psys ending :=
  if i <? n then
    match k with
    | O => timeout
    | S k =>
        p ← gets pi;
        if nread p =? nwrite p then read_end i
        else
          ch ← nonnull (data p !! slot (nread p));
          modify (take_out ch (copyout i ch));;
          if copyout i ch then read_for k (i + 1) n else read_end i
    end
  else read_end i.
Definition piperead (n : Z) : M psys ending :=
  acquire pipe_lock;;
  p ← gets pi;
  if (nread p =? nwrite p) && writeopen p then
    if killed 0 then release pipe_lock;; ret (Return (-1))
    else release pipe_lock;; ret (Sleep 0)
  else read_for (Z.to_nat n) 0 n.
End section.

(** The pipe is freed when the result is [true]. *)
Definition pipeclose (writable : bool) : M psys bool :=
  acquire pipe_lock;;
  (if writable then modify (λ s, s <| pi ::= λ p, p <| writeopen := false |> |>);; notify nread_chan
   else modify (λ s, s <| pi ::= λ p, p <| readopen := false |> |>);; notify nwrite_chan);;
  p ← gets pi;
  release pipe_lock;;
  ret (negb (readopen p) && negb (writeopen p)).

(** ** The queue in the ring *)
Record PI (s : psys) (q : list Z) : Prop := {
  pi_data : length (data (pi s)) = Z.to_nat PIPESIZE;
  pi_nread : 0 ≤ nread (pi s) < 2 ^ 32;
  pi_nwrite : nwrite (pi s) = u32 (nread (pi s) + Z.of_nat (length q));
  pi_max : Z.of_nat (length q) ≤ PIPESIZE;
  pi_queue : holds PIPESIZE (data (pi s)) (nread (pi s)) q;
  pi_fifo : tx s = (rx s).*1 ++ q;
}.
Lemma pipe_wrap : (PIPESIZE | 2 ^ 32).
Proof. by exists 8388608. Qed.
Lemma PI_full s q : PI s q → (nwrite (pi s) =? u32 (nread (pi s) + PIPESIZE)) = bool_decide (Z.of_nat (length q) = PIPESIZE).
Proof.
  intros [_ Hr Hw Hm _ _]. rewrite Hw. unfold u32. rewrite counter_eqb by (unfold PIPESIZE in *; lia).
  case_bool_decide; [by apply Z.eqb_eq|by apply Z.eqb_neq].
Qed.
Lemma PI_empty s q : PI s q → (nread (pi s) =? nwrite (pi s)) = bool_decide (q = []).
Proof.
  intros [_ Hr Hw Hm _ _]. rewrite Hw. unfold u32. rewrite <- (Z.mod_small (nread (pi s)) (2 ^ 32)) at 1 by done.
  rewrite <- (Z.add_0_r (nread (pi s))) at 1. rewrite counter_eqb by (unfold PIPESIZE in *; lia). by destruct q.
Qed.
Lemma PI_put s q ch : PI s q → Z.of_nat (length q) ≠ PIPESIZE → PI (put ch s) (q ++ [ch]).
Proof.
  intros [Hd Hr Hw Hm Hq Hf] Hn. split; cbn.
  - by rewrite length_insert.
  - done.
  - rewrite Hw, length_app. unfold u32. rewrite Zplus_mod_idemp_l. f_equal. cbn. lia.
  - rewrite length_app. cbn. lia.
  - rewrite Hw. unfold slot, u32. rewrite ring_slot_mod by apply pipe_wrap. apply holds_push; [done|done|lia|done].
  - by rewrite Hf, app_assoc.
Qed.
Lemma PI_take s b q ok : PI s (b :: q) → data (pi s) !! slot (nread (pi s)) = Some b ∧ PI (take_out b ok s) q.
Proof.
  intros [Hd Hr Hw Hm Hq Hf]. split; [by eapply holds_head|]. cbn [length] in *.
  split; cbn; try done.
  - apply u32_range.
  - rewrite Hw. unfold u32. rewrite Zplus_mod_idemp_l. f_equal. lia.
  - lia.
  - apply holds_mod; [apply pipe_wrap|]. eauto.
  - rewrite Hf, fmap_app, <- app_assoc. done.
Qed.

(** ** What one section does *)
Record wrote (killed : Z → bool) (copyin : Z → option Z) (i n : Z) (s : psys) (q : list Z) (e : ending) (ks : list chan) (s' : psys) (l : list Z) : Prop := {
  w_pi : PI s' (q ++ l);
  w_rx : rx s' = rx s;
  w_open : readopen (pi s') = readopen (pi s) ∧ writeopen (pi s') = writeopen (pi s);
  w_bytes k b : l !! k = Some b → copyin (i + Z.of_nat k) = Some b;
  w_end : match e with
    | Sleep i' => i' = i + Z.of_nat (length l) ∧ Z.of_nat (length (q ++ l)) = PIPESIZE ∧ readopen (pi s) = true ∧ nread_chan ∈ ks
    | Return r => (r = i + Z.of_nat (length l) ∧ nread_chan ∈ ks) ∨
                  (r = -1 ∧ (readopen (pi s) = false ∨ killed (i + Z.of_nat (length l)) = true))
    end;
  w_first : l ≠ [] → readopen (pi s) = true ∧ killed i = false;
}.
Lemma wrote_nil killed copyin i n s q e ks : PI s q →
  match e with
    | Sleep i' => i' = i ∧ Z.of_nat (length q) = PIPESIZE ∧ readopen (pi s) = true ∧ nread_chan ∈ ks
    | Return r => (r = i ∧ nread_chan ∈ ks) ∨ (r = -1 ∧ (readopen (pi s) = false ∨ killed i = true))
    end → wrote killed copyin i n s q e ks s [].
Proof. intros HP He. split; rewrite ?app_nil_r; try done. cbn [length Z.of_nat]. by rewrite Z.add_0_r. Qed.
Lemma wrote_cons killed copyin i n s q e ks s' ch l : copyin i = Some ch → killed i = false → readopen (pi s) = true →
  wrote killed copyin (i + 1) n (put ch s) (q ++ [ch]) e ks s' l → wrote killed copyin i n s q e ks s' (ch :: l).
Proof.
  intros Hc Hk Hro [Hp Hr Ho Hb He Hs]. split; try done.
  - by rewrite <- app_assoc in Hp.
  - intros [|k] b Hk'; [cbn in Hk'; injection Hk' as <-; by rewrite Z.add_0_r|]. rewrite <- (Hb k b Hk'). f_equal. lia.
  - rewrite <- app_assoc in He. cbn [length app] in *. replace (i + Z.of_nat (S (length l))) with (i + 1 + Z.of_nat (length l)) by lia. exact He.
Qed.
Lemma write_while_spec killed copyin n : ∀ k i s q ks, PI s q → n - i ≤ Z.of_nat k →
  wp (write_while killed copyin k i n) (λ e w', ∃ ks' s' l, w' = World [] (ks ++ ks') s' ∧ wrote killed copyin i n s q e ks' s' l)
    (World [pipe_lock] ks s).
Proof.
  assert (Hend : ∀ i s q ks, PI s q → wp (write_end i) (λ e w', ∃ ks' s' l, w' = World [] (ks ++ ks') s' ∧ wrote killed copyin i n s q e ks' s' l)
    (World [pipe_lock] ks s)).
  { intros i s q ks HP. apply wp_bind, wp_notify, wp_bind, wp_release, wp_ret; [apply not_elem_of_nil|].
    exists [nread_chan], s, []. split; [done|]. apply wrote_nil; [done|]. left. split; [done|]. by left. }
  induction k as [|k IH]; intros i s q ks HP Hk; cbn [write_while].
  { rewrite (proj2 (Z.ltb_ge i n)) by lia. by apply Hend. }
  destruct (i <? n); [|by apply Hend]. apply wp_bind, wp_gets. cbn [st].
  destruct (readopen (pi s)) eqn:Ho; cbn [negb orb]; [destruct (killed i) eqn:Hki|].
  - apply wp_bind, wp_release, wp_ret; [apply not_elem_of_nil|]. exists [], s, []. rewrite app_nil_r. split; [done|].
    apply wrote_nil; [done|]. right. split; [done|by right].
  - rewrite (PI_full s q HP). case_bool_decide as Hf.
    + apply wp_bind, wp_notify, wp_bind, wp_release, wp_ret; [apply not_elem_of_nil|]. exists [nread_chan], s, []. split; [done|].
      apply wrote_nil; [done|]. split_and!; try done. by left.
    + destruct (copyin i) as [ch|] eqn:Hc; [|by apply Hend]. apply wp_bind, wp_modify.
      eapply wp_mono; [apply (IH (i + 1) _ _ ks (PI_put s q ch HP Hf)); lia|].
      intros e w' (ks' & s' & l & -> & HW). exists ks', s', (ch :: l). split; [done|]. by apply wrote_cons.
  - apply wp_bind, wp_release, wp_ret; [apply not_elem_of_nil|]. exists [], s, []. rewrite app_nil_r. split; [done|].
    apply wrote_nil; [done|]. right. split; [done|by left].
Qed.

Record readd (i n : Z) (s : psys) (q : list Z) (e : ending) (ks : list chan) (s' : psys) (l q' : list Z) : Prop := {
  d_split : q = l ++ q';
  d_pi : PI s' q';
  d_tx : tx s' = tx s;
  d_open : readopen (pi s') = readopen (pi s) ∧ writeopen (pi s') = writeopen (pi s);
  d_end : (∃ r, e = Return r ∧ (r = i + Z.of_nat (length l) ∨ r = i + Z.of_nat (length l) - 1)) ∧ nwrite_chan ∈ ks;
}.
Lemma read_for_spec copyout n : ∀ k i s q ks, PI s q → n - i ≤ Z.of_nat k →
  wp (read_for copyout k i n) (λ e w', ∃ ks' s' l q', w' = World [] (ks ++ ks') s' ∧ readd i n s q e ks' s' l q')
    (World [pipe_lock] ks s).
Proof.
  assert (Hstop : ∀ i s q ks, PI s q → wp (read_end i) (λ e w', ∃ ks' s' l q', w' = World [] (ks ++ ks') s' ∧ readd i n s q e ks' s' l q')
    (World [pipe_lock] ks s)).
  { intros i s q ks HP. apply wp_bind, wp_notify, wp_bind, wp_release, wp_ret; [apply not_elem_of_nil|].
    exists [nwrite_chan], s, [], q. split; [done|]. split; try done. split; [|by left]. eexists. split; [done|left]. cbn. lia. }
  induction k as [|k IH]; intros i s q ks HP Hk; cbn [read_for].
  { rewrite (proj2 (Z.ltb_ge i n)) by lia. by apply Hstop. }
  destruct (i <? n); [|by apply Hstop]. apply wp_bind, wp_gets. cbn [st].
  rewrite (PI_empty s q HP). case_bool_decide as Hq; [by apply Hstop|]. destruct q as [|b q]; [done|].
  destruct (PI_take s b q true HP) as [Hb _]. rewrite Hb. cbn [nonnull]. apply wp_bind, wp_ret, wp_bind, wp_modify.
  destruct (PI_take s b q (copyout i b) HP) as [_ HP']. destruct (copyout i b).
  - eapply wp_mono; [apply (IH (i + 1) _ _ ks HP'); lia|]. intros e w' (ks' & s' & l & q' & -> & [-> Hpi Htx Hop [(r & -> & Hr) Hw]]).
    exists ks', s', (b :: l), q'. split; [done|]. split; try done. split; [|done]. exists r. split; [done|]. cbn [length]. lia.
  - apply wp_bind, wp_notify, wp_bind, wp_release, wp_ret; [apply not_elem_of_nil|].
    exists [nwrite_chan], (take_out b false s), [b], q. split; [done|]. split; try done. split; [|by left]. eexists. split; [done|right]. cbn. lia.
Qed.

(** ** Any number of calls, in any order of sections *)
Inductive call := Write (i n : Z) | Read (n : Z).
Inductive status := Ready | Asleep | Returned (r : Z).
#[export] Instance status_eq : EqDecision status.
Proof. solve_decision. Defined.
Definition chan_of (c : call) : chan := match c with Write _ _ => nwrite_chan | Read _ => nread_chan end.
Record sys := mkSys { ps : psys; ths : list (call * status) }.
(** [wakeup] on the channels [ks]. *)
Definition wake (ks : list chan) (c : call * status) : call * status :=
  if decide (c.2 = Asleep ∧ chan_of c.1 ∈ ks) then (c.1, Ready) else c.
Definition run_section (killed : Z → bool) (copyin : Z → option Z) (copyout : Z → Z → bool) (c : call) : M psys ending :=
  match c with Write i n => pipewrite killed copyin i n | Read n => piperead killed copyout n end.
Definition after (c : call) (e : ending) : call * status :=
  match e with
  | Return r => (c, Returned r)
  | Sleep i => (match c with Write _ n => Write i n | Read n => Read n end, Asleep)
  end.
(** [P] constrains how [killed] may change within a section. *)
Inductive step (P : (Z → bool) → Prop) : sys → sys → Prop :=
  | step_call s l c : (∃ n, c = Write 0 n ∨ c = Read n) → step P (mkSys s l) (mkSys s (l ++ [(c, Ready)]))
  | step_section s l t c killed copyin copyout e ks s' : l !! t = Some (c, Ready) → P killed →
      run_section killed copyin copyout c (World [] [] s) = Done e (World [] ks s') →
      step P (mkSys s l) (mkSys s' (wake ks <$> <[t := after c e]> l))
  | step_kill s l t c : l !! t = Some (c, Asleep) → step P (mkSys s l) (mkSys s (<[t := (c, Ready)]> l))
  | step_close s l b r ks s' : pipeclose b (World [] [] s) = Done r (World [] ks s') → step P (mkSys s l) (mkSys s' (wake ks <$> l)).
Definition any_killed (killed : Z → bool) : Prop := True.
Definition stable_killed (killed : Z → bool) : Prop := ∀ i j, killed i = killed j.
(** A new pipe, in a page with any contents. *)
Definition initial (s : sys) : Prop := ∃ p, length (data p) = Z.to_nat PIPESIZE ∧ s = mkSys (mkPsys (pipe_init p) [] []) [].

Lemma section_spec killed copyin copyout c s q : PI s q →
  wp (run_section killed copyin copyout c) (λ e w', ∃ ks s', w' = World [] ks s' ∧
    match c with
    | Write i n => ∃ l, wrote killed copyin i n s q e ks s' l
    | Read n => (s' = s ∧ (e = Return (-1) ∨ e = Sleep 0 ∧ q = [] ∧ writeopen (pi s) = true)) ∨
                ∃ l q', readd 0 n s q e ks s' l q'
    end) (World [] [] s).
Proof.
  intros HP. destruct c as [i n|n]; cbn [run_section].
  - apply wp_bind, wp_acquire; [apply not_elem_of_nil|]. eapply wp_mono; [apply (write_while_spec killed copyin n _ i s q [] HP); lia|].
    intros e w' (ks & s' & l & -> & HW). exists ks, s'. split; [done|]. by exists l.
  - apply wp_bind, wp_acquire; [apply not_elem_of_nil|]. apply wp_bind, wp_gets. cbn [st]. rewrite (PI_empty s q HP).
    case_bool_decide as Hq; [destruct (writeopen (pi s)) eqn:Hwo|]; cbn [andb].
    + destruct (killed 0); apply wp_bind, wp_release, wp_ret; try apply not_elem_of_nil; exists [], s; (split; [done|]); left; (split; [done|]);
        [by left|by right].
    + eapply wp_mono; [apply (read_for_spec copyout n _ 0 s q [] HP); lia|].
      intros e w' (ks & s' & l & q' & -> & HW). exists ks, s'. split; [done|]. right. by exists l, q'.
    + eapply wp_mono; [apply (read_for_spec copyout n _ 0 s q [] HP); lia|].
      intros e w' (ks & s' & l & q' & -> & HW). exists ks, s'. split; [done|]. right. by exists l, q'.
Qed.
Lemma pipeclose_PI s q b : PI s q → PI (s <| pi ::= λ p, if b : bool then p <| writeopen := false |> else p <| readopen := false |> |>) q.
Proof. intros []. by destruct b; split. Qed.
Lemma pipeclose_spec s b : pipeclose b (World [] [] s) =
  Done (negb (if b then readopen (pi s) else false) && negb (if b then false else writeopen (pi s)))
    (World [] [if b then nread_chan else nwrite_chan]
      (s <| pi ::= λ p, if b : bool then p <| writeopen := false |> else p <| readopen := false |> |>)).
Proof. destruct s as [[] ? ?], b; vm_compute; try done. Qed.
Lemma step_PI P s s' q : step P s s' → PI (ps s) q → ∃ q', PI (ps s') q'.
Proof.
  intros Hst HP. destruct Hst as [s l c _|s l t c killed copyin copyout e ks s' Ht _ Hrun|s l t c Ht|s l b r ks s' Hrun]; cbn in *; eauto.
  - pose proof (section_spec killed copyin copyout c s q HP) as Hwp. unfold wp in Hwp. rewrite Hrun in Hwp.
    destruct Hwp as (ks' & s2 & [= <- <-] & Hc). destruct c as [i n|n].
    + destruct Hc as (w & HW). eexists. apply HW.
    + destruct Hc as [[-> _]|(w & q' & HW)]; [eauto|]. eexists. apply HW.
  - rewrite pipeclose_spec in Hrun. injection Hrun as _ _ <-. eexists. by apply pipeclose_PI.
Qed.

(** ** No lost wakeup *)
(** A sleeping writer waits on a full pipe, a sleeping reader on an empty one,
    and the other end is open. *)
Definition waits (s : psys) (q : list Z) (c : call) : Prop :=
  match c with
  | Write _ _ => Z.of_nat (length q) = PIPESIZE ∧ readopen (pi s) = true
  | Read _ => q = [] ∧ writeopen (pi s) = true
  end.
Definition NL (s : sys) (q : list Z) : Prop := PI (ps s) q ∧ ∀ t c, ths s !! t = Some (c, Asleep) → waits (ps s) q c.
Lemma wake_asleep ks x c : wake ks x = (c, Asleep) → x = (c, Asleep) ∧ chan_of c ∉ ks.
Proof. unfold wake. destruct x as [c' st]. case_decide as Hd; cbn in *; [done|]. intros [= -> ->]. split; [done|]. tauto. Qed.
Lemma wrote_waits killed copyin i n s q e ks s' l c : wrote killed copyin i n s q e ks s' l → stable_killed killed →
  waits s q c → chan_of c ∉ ks → Z.of_nat (length (q ++ l)) ≤ PIPESIZE → waits s' (q ++ l) c.
Proof.
  intros [_ _ [Ho1 Ho2] _ He Hfirst] Hst Hw Hk Hmax. destruct c as [j m|m]; cbn in *.
  - destruct Hw as [Hw ?]. rewrite Ho1. split; [|done]. rewrite length_app in *. lia.
  - destruct Hw as [-> ?]. rewrite Ho2. split; [|done]. destruct l as [|b l]; [done|]. destruct (Hfirst ltac:(done)) as [Hr Hki].
    destruct e as [r|i']; [|tauto]. destruct He as [?|(_ & [?|Hkl])]; [tauto|congruence|].
    rewrite (Hst _ i) in Hkl. congruence.
Qed.
Lemma readd_waits i n s q e ks s' l q' c : readd i n s q e ks s' l q' → waits s q c → chan_of c ∉ ks → waits s' q' c.
Proof.
  intros [-> _ _ [Ho1 Ho2] [_ Hks]] Hw Hk. destruct c as [j m|m]; cbn in *; [done|].
  destruct Hw as [E ?]. apply app_eq_nil in E as [_ ->]. rewrite Ho2. done.
Qed.
Lemma section_NL s l t c killed copyin copyout e ks s' q : NL (mkSys s l) q → l !! t = Some (c, Ready) → stable_killed killed →
  run_section killed copyin copyout c (World [] [] s) = Done e (World [] ks s') →
  ∃ q', NL (mkSys s' (wake ks <$> <[t := after c e]> l)) q'.
Proof.
  intros [HP HN] Ht Hst Hrun. pose proof (section_spec killed copyin copyout c s q HP) as Hwp. unfold wp in Hwp. rewrite Hrun in Hwp.
  destruct Hwp as (ks' & s2 & [= <- <-] & Hc). clear Hrun. cbn in *.
  assert (Hold : ∀ q', PI s' q' → (∀ c', waits s q c' → chan_of c' ∉ ks → waits s' q' c') →
    (∀ c', after c e = (c', Asleep) → waits s' q' c') → NL (mkSys s' (wake ks <$> <[t := after c e]> l)) q').
  { intros q' HP' Hother Hself. split; [done|]. intros t' c' Ht'. cbn in *. rewrite list_lookup_fmap in Ht'.
    apply fmap_Some in Ht' as (x & Hx & Hwk). symmetry in Hwk. apply wake_asleep in Hwk as [-> Hn].
    apply list_lookup_insert_Some in Hx as [(_ & Hx & _)|[_ Hx]]; [by apply Hself|]. apply Hother; [by eapply HN|done]. }
  destruct c as [i n|n].
  - destruct Hc as (w & HW). exists (q ++ w). apply Hold; [apply HW| |].
    + intros c' Hw Hk. eapply wrote_waits; [exact HW|done|done|done|]. apply (pi_max _ _ (w_pi _ _ _ _ _ _ _ _ _ _ HW)).
    + intros c'. destruct e as [r|j]; [done|]. intros [= <-]. destruct (w_end _ _ _ _ _ _ _ _ _ _ HW) as (_ & Hf & Hr & _).
      destruct (w_open _ _ _ _ _ _ _ _ _ _ HW) as [Ho _]. cbn. by rewrite Ho.
  - destruct Hc as [[-> He]|(w & q' & HW)].
    + exists q. apply Hold; [done|done|]. intros c'. destruct He as [-> |(-> & Hq & Hw)]; [done|]. intros [= <-]. done.
    + exists q'. apply Hold; [apply HW| |].
      * intros c' Hw Hk. by eapply readd_waits.
      * destruct (d_end _ _ _ _ _ _ _ _ _ HW) as [(r & -> & _) _]. done.
Qed.
Lemma step_NL s s' q : step stable_killed s s' → NL s q → ∃ q', NL s' q'.
Proof.
  intros Hst HN. destruct Hst as [s l c _|s l t c killed copyin copyout e ks s' Ht Hk Hrun|s l t c Ht|s l b r ks s' Hrun].
  - destruct HN as [HP HN]. exists q. split; [done|]. intros t c' Hc. cbn in *.
    apply lookup_app_Some in Hc as [Hc|[_ Hc]]; [by eapply HN|]. by apply list_lookup_singleton_Some in Hc as [_ [= _ ?]].
  - by eapply section_NL.
  - destruct HN as [HP HN]. exists q. split; [done|]. intros t' c' Hc. cbn in *.
    apply list_lookup_insert_Some in Hc as [(_ & [=] & _)|[_ Hc]]. by eapply HN.
  - destruct HN as [HP HN]. rewrite pipeclose_spec in Hrun. injection Hrun as _ <- <-. exists q. split; [by apply pipeclose_PI|].
    intros t c Hc. cbn in *. rewrite list_lookup_fmap in Hc. apply fmap_Some in Hc as (x & Hx & Hwk). symmetry in Hwk.
    apply wake_asleep in Hwk as [-> Hn]. specialize (HN t c Hx). destruct b, c; cbn in *; try done; by destruct Hn; left.
Qed.
Lemma initial_NL s : initial s → NL s [].
Proof.
  intros (p & Hd & ->). split; [|intros t c [=]]. split; cbn; done.
Qed.

(** C16: a pipe is a FIFO channel of at most PIPESIZE bytes. In every state that
    any number of concurrent reads, writes, closes and kills can reach, with
    faults of the users' buffers at any byte, the bytes written so far are the
    bytes taken out so far followed by the [(nwrite - nread) mod 2^32] bytes in
    the ring, in order, at most PIPESIZE of them, also after the 32-bit
    counters wrapped. *)
Theorem pipe_fifo s0 s : initial s0 → rtc (step any_killed) s0 s →
  ∃ q, tx (ps s) = (rx (ps s)).*1 ++ q ∧ Z.of_nat (length q) ≤ PIPESIZE ∧
    Z.of_nat (length q) = u32 (nwrite (pi (ps s)) - nread (pi (ps s))) ∧
    ∀ k b, q !! k = Some b → data (pi (ps s)) !! slot (nread (pi (ps s)) + Z.of_nat k) = Some b.
Proof.
  intros Hi Hr. assert (HP : ∃ q, PI (ps s) q).
  { assert (H0 : ∃ q, PI (ps s0) q) by (eexists; by apply initial_NL). clear Hi.
    induction Hr as [s|s s1 s2 H1 _ IH]; [done|]. apply IH. destruct H0 as [q HP]. by eapply step_PI. }
  destruct HP as [q [Hd Hn Hw Hm Hq Hf]]. exists q. split_and!; try done. rewrite Hw. unfold u32, PIPESIZE in *.
  rewrite Zminus_mod_idemp_l, Z.mod_small; lia.
Qed.
(** C17: no lost wakeup. As long as a process is not killed in the middle of its
    turn in [pipewrite], in every reachable state a sleeping writer waits on a
    full pipe whose read end is open, a sleeping reader waits on an empty pipe
    whose write end is open, and so never both sleep. *)
Theorem pipe_no_lost_wakeup s0 s : initial s0 → rtc (step stable_killed) s0 s →
  (∀ t i n, ths s !! t = Some (Write i n, Asleep) →
    nwrite (pi (ps s)) = u32 (nread (pi (ps s)) + PIPESIZE) ∧ readopen (pi (ps s)) = true ∧
    ∀ t' n', ths s !! t' ≠ Some (Read n', Asleep)) ∧
  (∀ t n, ths s !! t = Some (Read n, Asleep) → nwrite (pi (ps s)) = nread (pi (ps s)) ∧ writeopen (pi (ps s)) = true).
Proof.
  intros Hi Hr. assert (HN : ∃ q, NL s q).
  { assert (H0 : ∃ q, NL s0 q) by (eexists; by apply initial_NL). clear Hi.
    induction Hr as [s|s s1 s2 H1 _ IH]; [done|]. apply IH. destruct H0 as [q HN]. by eapply step_NL. }
  destruct HN as (q & HP & HN). split.
  - intros t i n [Hf Ho]%HN. split_and!; [|done|].
    + pose proof (PI_full _ _ HP) as E. rewrite bool_decide_eq_true_2 in E by done. by apply Z.eqb_eq.
    + intros t' n' [Hq _]%HN. subst q. done.
  - intros t n [Hq Ho]%HN. split; [|done]. pose proof (PI_empty _ _ HP) as E. rewrite bool_decide_eq_true_2 in E by done.
    apply Z.eqb_eq in E. done.
Qed.

(** Run a section of call [t], by computation. *)
Ltac section_step t killed copyin copyout HP :=
  lazymatch goal with |- rtc (step ?P) ?x _ =>
    let x' := eval vm_compute in x in
    lazymatch x' with mkSys ?s ?l =>
      let c := eval vm_compute in (default (Read 0) (fst <$> l !! t)) in
      let r := eval vm_compute in (run_section killed copyin copyout c (World [] [] s)) in
      lazymatch r with Done ?e (World _ ?ks ?s') =>
        let l' := eval vm_compute in (wake ks <$> <[t := after c e]> l) in
        apply (rtc_l _ _ (mkSys s' l'));
        [exact (step_section P s l t c killed copyin copyout e ks s' eq_refl HP
           (@eq_refl (outcome psys ending) (Done e (World [] ks s')) <: run_section killed copyin copyout c (World [] [] s) = Done e (World [] ks s')))|]
      end
    end
  end.
(** A new pipe. *)
Definition demo0 : sys := mkSys (mkPsys (pipe_init (mkPipe (repeat 5 (Z.to_nat PIPESIZE)) 0 0 false false)) [] []) [].
Lemma demo_initial : initial demo0.
Proof. by exists (mkPipe (repeat 5 (Z.to_nat PIPESIZE)) 0 0 false false). Qed.

(** C39: the exception is real. A writer that another hart kills after it stored
    a byte returns -1 without waking the readers: a reader then sleeps although
    the pipe holds data, and no call is left to wake it. *)
Theorem pipe_kill_loses_wakeup : ∃ s0 s t n, initial s0 ∧ rtc (step any_killed) s0 s ∧
  ths s !! t = Some (Read n, Asleep) ∧ nwrite (pi (ps s)) ≠ nread (pi (ps s)) ∧
  ∀ t' c st, ths s !! t' = Some (c, st) → t' ≠ t → st = Returned (-1).
Proof.
  eexists demo0, _, 0%nat, 8. split; [apply demo_initial|]. split.
  - eapply rtc_l; [apply (step_call _ _ _ (Read 8)); eauto|]. section_step 0%nat (λ _ : Z, false) (λ _ : Z, @None Z) (λ _ _ : Z, true) I.
    eapply rtc_l; [apply (step_call _ _ _ (Write 0 8)); eauto|]. section_step 1%nat (λ i : Z, 0 <? i) (λ _ : Z, Some 65) (λ _ _ : Z, true) I.
    apply rtc_refl.
  - split; [reflexivity|]. split; [discriminate|]. intros [|[|t']] c st; [done| |done]. intros [= _ <-]. done.
Qed.

(** ** A run: three bytes in, two out, then a sleeping reader *)
Definition demo_put (s : psys) : psys := final (pipewrite (λ _, false) (λ i, Some (65 + i)) 0 3) (World [] [] s).
Definition demo_get (n : Z) (s : psys) : psys := final (piperead (λ _, false) (λ _ _, true) n) (World [] [] s).
Definition demo : sys := mkSys (demo_get 2 (demo_get 2 (demo_put (ps demo0)))) [(Write 0 3, Returned 3); (Read 2, Returned 2); (Read 2, Returned 1); (Read 2, Asleep)].
Lemma demo_reach (P : (Z → bool) → Prop) : P (λ _, false) → rtc (step P) demo0 demo.
Proof.
  intros HP. eapply rtc_l; [apply (step_call _ _ _ (Write 0 3)); eauto|]. section_step 0%nat (λ _ : Z, false) (λ i : Z, Some (65 + i)) (λ _ _ : Z, true) HP.
  do 2 (eapply rtc_l; [apply (step_call _ _ _ (Read 2)); eauto|]).
  eapply rtc_l; [apply (step_call _ _ _ (Read 2)); eauto|].
  section_step 1%nat (λ _ : Z, false) (λ _ : Z, @None Z) (λ _ _ : Z, true) HP. section_step 2%nat (λ _ : Z, false) (λ _ : Z, @None Z) (λ _ _ : Z, true) HP.
  section_step 3%nat (λ _ : Z, false) (λ _ : Z, @None Z) (λ _ _ : Z, true) HP.
  lazymatch goal with |- rtc _ ?a demo => assert (a = demo) as -> by (vm_compute; reflexivity) end. apply rtc_refl.
Qed.
Lemma pipe_fifo_witness : rx (ps demo) = [(65, true); (66, true); (67, true)] ∧
  ∃ q, tx (ps demo) = (rx (ps demo)).*1 ++ q ∧ Z.of_nat (length q) = u32 (nwrite (pi (ps demo)) - nread (pi (ps demo))).
Proof.
  split; [vm_compute; reflexivity|]. destruct (pipe_fifo demo0 demo demo_initial (demo_reach _ I)) as (q & Htx & _ & Hlen & _).
  exists q. split; [exact Htx|exact Hlen].
Defined.
Lemma pipe_no_lost_wakeup_witness : ths demo !! 3%nat = Some (Read 2, Asleep) ∧ writeopen (pi (ps demo)) = true.
Proof.
  split; [reflexivity|].
  exact (proj2 (proj2 (pipe_no_lost_wakeup demo0 demo demo_initial (demo_reach stable_killed (λ _ _, eq_refl))) 3%nat 2 eq_refl)).
Defined.
End Pipe.
