(* ===== verification/Uart.v ===== *)
(** * The UART driver: kernel/uart.c

    A register access is an event: writes are recorded in [regs], and a read of
    the line status register finds the transmitter idle or not as [idle] says,
    the [n]-th read of the run, while its low bit tells whether a byte waits in
    [rhr]. [uartputc] sleeps while the ring is full, so a call is a sequence of
    sections as in Pipe.v, the first of which tests [panicked].
    [uartputc_sync] takes no lock: each of its register accesses is a step of
    its own between such sections; inside one it could only change what the
    device answers, and that is arbitrary already. Its [push_off] and [pop_off]
    touch the hart and not this state (Spinlock.v). The bytes uartputc accepted
    ([queued]) and those that went to the wire ([sent], with [true] for the ones
    from the ring) are recorded; [owes] tells that the device was seen busy, or
    was given a byte, since its last interrupt, so that it will interrupt. *)
From S2P Require Import Prelude Ring.

Module Uart.
Definition RHR : Z := 0.
Definition THR : Z := 0.
Definition IER : Z := 1.
Definition IER_RX_ENABLE : Z := Z.shiftl 1 0.
Definition IER_TX_ENABLE : Z := Z.shiftl 1 1.
Definition FCR : Z := 2.
Definition FCR_FIFO_ENABLE : Z := Z.shiftl 1 0.
Definition FCR_FIFO_CLEAR : Z := Z.shiftl 3 1.
Definition LCR : Z := 3.
Definition LCR_EIGHT_BITS : Z := Z.shiftl 3 0.
Definition LCR_BAUD_LATCH : Z := Z.shiftl 1 7.
Definition LSR : Z := 5.
Definition LSR_RX_READY : Z := Z.shiftl 1 0.
Definition LSR_TX_IDLE : Z := Z.shiftl 1 5.
Definition UART_TX_BUF_SIZE : Z := 32.

Record uart := mkUart {
  uart_tx_buf : list Z; uart_tx_w : Z; uart_tx_r : Z; panicked : bool;
  rhr : list Z; reads : nat; regs : list (Z * Z);
  queued : list Z; sent : list (bool * Z); owes : bool;
}.
#[export] Instance eta_uart : Settable uart := λ u,
  mkUart (uart_tx_buf u) (uart_tx_w u) (uart_tx_r u) (panicked u) (rhr u) (reads u) (regs u) (queued u) (sent u) (owes u).
Definition uart_tx_lock : lock := ("uart", 0%nat).
Definition tx_chan : chan := ("uart_tx_r", 0%nat).
Inductive ending := Return | Sleep.
#[export] Instance ending_eq : EqDecision ending.
Proof. solve_decision. Defined.

Section driver.
Context (idle : nat → bool).

Definition WriteReg (reg v : Z) : M uart unit := modify (λ u, u <| regs ::= λ l, l ++ [(reg, v)] |>).
(** [WriteReg(THR, c)]: a byte goes to the wire. *)
Definition transmit (ring : bool) (c : Z) : M uart unit :=
  WriteReg THR c;; modify (λ u, u <| sent ::= λ l, l ++ [(ring, u8 c)] |> <| owes := true |>).
(** [ReadReg(LSR)] *)
Definition ReadLSR : M uart Z :=
  u ← gets id;
  modify (λ u, u <| reads ::= S |>);;
  ret (Z.lor (if bool_decide (rhr u = []) then 0 else LSR_RX_READY) (if idle (reads u) then LSR_TX_IDLE else 0)).
(** [(ReadReg(LSR) & LSR_TX_IDLE) == 0] *)
Definition tx_busy : M uart bool :=
  lsr ← ReadLSR;
  let busy := Z.land lsr LSR_TX_IDLE =? 0 in
  modify (λ u, u <| owes ::= orb busy |>);;
  ret busy.

Definition uartinit : M uart unit :=
  WriteReg IER 0x00;;
  WriteReg LCR LCR_BAUD_LATCH;;
  WriteReg 0 0x03;;
  WriteReg 1 0x00;;
  WriteReg LCR LCR_EIGHT_BITS;;
  WriteReg FCR (Z.lor FCR_FIFO_ENABLE FCR_FIFO_CLEAR);;
  WriteReg IER (Z.lor IER_TX_ENABLE IER_RX_ENABLE).

(** [k] bounds the turns: the ring holds at most its size. *)
Fixpoint uartstart_loop (k : nat) : M uart unit :=
  u ← gets id;
  if uart_tx_w u =? uart_tx_r u then ret ()
  else
    busy ← tx_busy;
    if busy : bool then ret ()
    else match k with
    | O => timeout
    | S k =>
        c ← nonnull (uart_tx_buf u !! ring_slot UART_TX_BUF_SIZE (uart_tx_r u));
        modify (λ u, u <| uart_tx_r ::= λ n, u64 (n + 1) |>);;
        notify tx_chan;;
        transmit true c;;
        uartstart_loop k
    end.
Definition uartstart : M uart unit := uartstart_loop (Z.to_nat UART_TX_BUF_SIZE).

(** uartputc from the test of the [while] on, with the lock held. *)
Definition uartputc_loop (c : Z) : M uart ending :=
  u ← gets id;
  if uart_tx_w u =? u64 (uart_tx_r u + UART_TX_BUF_SIZE) then
    release uart_tx_lock;; ret Sleep
  else
    modify (λ u, u <| uart_tx_buf ::= <[ring_slot UART_TX_BUF_SIZE (uart_tx_w u) := u8 c]> |> <| queued ::= λ l, l ++ [u8 c] |>);;
    modify (λ u, u <| uart_tx_w ::= λ n, u64 (n + 1) |>);;
    uartstart;;
    release uart_tx_lock;;
    ret Return.
(** The first section of uartputc. After a panic on another hart it never
    returns. *)
Definition uartputc (c : Z) : M uart ending :=
  acquire uart_tx_lock;;
  u ← gets id;
  if panicked u then timeout else uartputc_loop c.
(** A later section: [sleep] takes the lock again and returns. *)
Definition uartputc_resume (c : Z) : M uart ending :=
  acquire uart_tx_lock;; uartputc_loop c.

Definition uartputc_sync (c : Z) : M uart unit :=
  u ← gets id;
  if panicked u then timeout
  else
    loopM 64 (λ _ : unit, busy ← tx_busy; if busy : bool then continue () else break ()) ();;
    transmit false c.

(** -1 when no byte waits. *)
Definition uartgetc : M uart Z :=
  lsr ← ReadLSR;
  if negb (Z.land lsr 0x01 =? 0) then
    rx ← gets rhr;
    c ← nonnull (head rx);
    modify (λ u, u <| rhr ::= tail |>);;
    ret (u8 c)
  else ret (-1).
(** The last three lines of uartintr, whose loop is in Console.v. *)
Definition uartintr_send : M uart unit :=
  acquire uart_tx_lock;; uartstart;; release uart_tx_lock.
End driver.

(** ** The queue in the ring *)
Definition of_ring (l : list (bool * Z)) : list Z := l ≫= λ '(b, c), if b : bool then [c] else [].
Record UI (u : uart) (q : list Z) : Prop := {
  ui_len : length (uart_tx_buf u) = Z.to_nat UART_TX_BUF_SIZE;
  ui_r : 0 ≤ uart_tx_r u < 2 ^ 64;
  ui_w : uart_tx_w u = u64 (uart_tx_r u + Z.of_nat (length q));
  ui_max : Z.of_nat (length q) ≤ UART_TX_BUF_SIZE;
  ui_holds : holds UART_TX_BUF_SIZE (uart_tx_buf u) (uart_tx_r u) q;
  ui_bytes : Forall (λ b, 0 ≤ b < 256) q;
  ui_fifo : queued u = of_ring (sent u) ++ q;
}.
Lemma wrap_divides : (UART_TX_BUF_SIZE | 2 ^ 64).
Proof. by exists 576460752303423488. Qed.
Lemma of_ring_app l l' : of_ring (l ++ l') = of_ring l ++ of_ring l'.
Proof. apply bind_app. Qed.
Lemma UI_empty u q : UI u q → (uart_tx_w u =? uart_tx_r u) = bool_decide (q = []).
Proof.
  intros [_ Hr Hw Hm _ _ _]. rewrite Hw. rewrite <- (Z.mod_small (uart_tx_r u) (2 ^ 64)) at 2 by done. unfold u64.
  rewrite <- (Z.add_0_r (uart_tx_r u)) at 2. rewrite counter_eqb by (unfold UART_TX_BUF_SIZE in *; lia).
  by destruct q.
Qed.
Lemma UI_full u q : UI u q → (uart_tx_w u =? u64 (uart_tx_r u + UART_TX_BUF_SIZE)) = (Z.of_nat (length q) =? UART_TX_BUF_SIZE).
Proof. intros [_ Hr Hw Hm _ _ _]. rewrite Hw. apply counter_eqb; unfold UART_TX_BUF_SIZE in *; lia. Qed.
Lemma UI_push u q c : UI u q → Z.of_nat (length q) ≠ UART_TX_BUF_SIZE → 0 ≤ c < 256 →
  UI (u <| uart_tx_buf ::= <[ring_slot UART_TX_BUF_SIZE (uart_tx_w u) := c]> |> <| queued ::= λ l, l ++ [c] |> <| uart_tx_w ::= λ n, u64 (n + 1) |>) (q ++ [c]).
Proof.
  intros [Hl Hr Hw Hm Hh Hby Hf] Hn Hc. split; cbn.
  - by rewrite length_insert.
  - done.
  - rewrite Hw, length_app. unfold u64. rewrite Zplus_mod_idemp_l. f_equal. cbn. lia.
  - rewrite length_app. cbn. lia.
  - rewrite Hw. unfold u64. rewrite ring_slot_mod by apply wrap_divides. apply holds_push; [done|done|lia|done].
  - apply Forall_app. split; [done|]. by apply Forall_singleton.
  - by rewrite Hf, app_assoc.
Qed.
Lemma UI_pop u b q : UI u (b :: q) →
  UI (u <| uart_tx_r ::= λ n, u64 (n + 1) |> <| sent ::= λ l, l ++ [(true, b)] |>) q.
Proof.
  intros [Hl Hr Hw Hm Hh Hby Hf]. cbn [length] in *. split; cbn.
  - done.
  - apply u64_range.
  - rewrite Hw. unfold u64. rewrite Zplus_mod_idemp_l. f_equal. lia.
  - lia.
  - apply holds_mod; [apply wrap_divides|]. eauto.
  - by apply Forall_cons in Hby as [_ ?].
  - rewrite of_ring_app, Hf, <- app_assoc. done.
Qed.

(** ** What one call does *)
Lemma tx_busy_spec idle Φ h ks u : let b := negb (idle (reads u)) in
  Φ b (World h ks (u <| reads ::= S |> <| owes ::= orb b |>)) → wp (tx_busy idle) Φ (World h ks u).
Proof.
  intros b H. unfold tx_busy, ReadLSR. apply wp_bind, wp_bind, wp_gets, wp_bind, wp_modify, wp_ret. cbn [st id].
  assert (E : (Z.land (Z.lor (if bool_decide (rhr u = []) then 0 else LSR_RX_READY) (if idle (reads u) then LSR_TX_IDLE else 0)) LSR_TX_IDLE =? 0) = b).
  { subst b. case_bool_decide; by destruct (idle (reads u)). }
  rewrite E. apply wp_bind, wp_modify, wp_ret. exact H.
Qed.
Lemma UI_ghost u q n b : UI u q → UI (u <| reads := n |> <| owes := b |>) q.
Proof. by intros []. Qed.
(** [u'] is [u] after the bytes [l] of the ring went to the wire. *)
Record drained (u u' : uart) (l : list Z) : Prop := {
  dr_sent : sent u' = sent u ++ (pair true <$> l);
  dr_queued : queued u' = queued u;
  dr_rhr : rhr u' = rhr u;
  dr_panicked : panicked u' = panicked u;
}.
Lemma uartstart_loop_spec idle k : ∀ u q h ks, UI u q → (length q ≤ k)%nat →
  wp (uartstart_loop idle k) (λ _ w', ∃ u' l q', w' = World h (ks ++ replicate (length l) tx_chan) u' ∧
    q = l ++ q' ∧ UI u' q' ∧ drained u u' l ∧ (q' = [] ∨ owes u' = true)) (World h ks u).
Proof.
  assert (Hstop : ∀ u q h ks u', UI u' q → drained u u' [] → (q = [] ∨ owes u' = true) → ∃ u2 l q', World h ks u' = World h (ks ++ replicate (length l) tx_chan) u2 ∧
    q = l ++ q' ∧ UI u2 q' ∧ drained u u2 l ∧ (q' = [] ∨ owes u2 = true)).
  { intros u q h ks u' HU Hd Ho. exists u', [], q. cbn. by rewrite app_nil_r. }
  induction k as [|k IH]; intros u q h ks HU Hk; cbn [uartstart_loop]; apply wp_bind, wp_gets; cbn [st id]; rewrite (UI_empty u q HU).
  - destruct q; [|cbn in Hk; lia]. rewrite bool_decide_eq_true_2 by done. apply wp_ret. apply Hstop; [done| |by left]. split; rewrite ?app_nil_r; done.
  - case_bool_decide as Hq; [apply wp_ret; apply Hstop; [done| |by left]; split; rewrite ?app_nil_r; done|]. destruct q as [|b q]; [done|].
    apply wp_bind, tx_busy_spec. destruct (idle (reads u)); cbn [negb].
    2:{ apply wp_ret. apply Hstop; [by apply (UI_ghost u (b :: q) (S (reads u)) true)| |by right]. split; cbn; rewrite ?app_nil_r; done. }
    rewrite (holds_head _ _ _ _ _ (ui_holds _ _ HU)). cbn [nonnull]. apply wp_bind, wp_ret, wp_bind, wp_modify, wp_bind, wp_notify.
    apply wp_bind, wp_bind, wp_modify, wp_modify. pose proof (ui_bytes _ _ HU) as Hb. apply Forall_cons in Hb as [Hb _]. cbn [length] in Hk.
    eapply wp_mono; [apply (IH _ q); [|lia]|].
    { rewrite (u8_small b) by done. destruct (UI_pop u b q HU). split; cbn in *; done. }
    intros _ w' (u' & l & q' & -> & -> & HU' & [Hs Hqd Hr Hp] & Ho). exists u', (b :: l), q'. rewrite <- app_assoc. split; [done|]. split; [done|].
    split; [done|]. split; [|done]. split; cbn in *; [|done..]. rewrite Hs, (u8_small b) by done. by rewrite <- app_assoc.
Qed.
Lemma uartstart_spec idle u q h ks : UI u q →
  wp (uartstart idle) (λ _ w', ∃ u' l q', w' = World h (ks ++ replicate (length l) tx_chan) u' ∧
    q = l ++ q' ∧ UI u' q' ∧ drained u u' l ∧ (q' = [] ∨ owes u' = true)) (World h ks u).
Proof. intros HU. apply uartstart_loop_spec; [done|]. pose proof (ui_max _ _ HU). lia. Qed.
(** A section of uartputc either finds the ring full and sleeps, or queues the
    byte and drains what the wire takes. *)
Definition put_post (u : uart) (q : list Z) (c : Z) (ks : list chan) (e : ending) (w' : world uart) : Prop :=
  (e = Sleep ∧ Z.of_nat (length q) = UART_TX_BUF_SIZE ∧ w' = World [] ks u) ∨
  (e = Return ∧ Z.of_nat (length q) ≠ UART_TX_BUF_SIZE ∧ ∃ u' l q', w' = World [] (ks ++ replicate (length l) tx_chan) u' ∧
    q ++ [u8 c] = l ++ q' ∧ UI u' q' ∧ queued u' = queued u ++ [u8 c] ∧ sent u' = sent u ++ (pair true <$> l) ∧ panicked u' = panicked u ∧ rhr u' = rhr u ∧
    (q' = [] ∨ owes u' = true)).
Lemma uartputc_loop_spec idle u q c ks : UI u q → wp (uartputc_loop idle c) (put_post u q c ks) (World [uart_tx_lock] ks u).
Proof.
  intros HU. unfold uartputc_loop. apply wp_bind, wp_gets. cbn [st id]. rewrite (UI_full u q HU).
  destruct (Z.eqb_spec (Z.of_nat (length q)) UART_TX_BUF_SIZE) as [Hf|Hf].
  - apply wp_bind, wp_release, wp_ret; [apply not_elem_of_nil|]. by left.
  - apply wp_bind, wp_modify, wp_bind, wp_modify, wp_bind. pose proof (UI_push u q (u8 c) HU Hf (u8_range c)) as HU'.
    eapply wp_mono; [apply (uartstart_spec _ _ _ _ _ HU')|]. intros _ w' (u' & l & q' & -> & E & HU2 & [Hs Hqd Hr Hpk] & Ho).
    apply wp_bind, wp_release, wp_ret; [apply not_elem_of_nil|]. right. split; [done|]. split; [done|]. exists u', l, q'. cbn in *. by split_and!.
Qed.
Lemma uartputc_spec idle u q c ks : UI u q → panicked u = false → wp (uartputc idle c) (put_post u q c ks) (World [] ks u).
Proof.
  intros HU Hp. apply wp_bind, wp_acquire; [apply not_elem_of_nil|]. apply wp_bind, wp_gets. cbn [st id]. rewrite Hp. by apply uartputc_loop_spec.
Qed.
Lemma uartputc_resume_spec idle u q c ks : UI u q → wp (uartputc_resume idle c) (put_post u q c ks) (World [] ks u).
Proof. intros HU. apply wp_bind, wp_acquire; [apply not_elem_of_nil|]. by apply uartputc_loop_spec. Qed.
(** The device is found idle again and again: [j] is the next time. *)
Lemma uartputc_sync_spec idle u q c h ks j : UI u q → panicked u = false → (reads u ≤ j)%nat → Z.of_nat j < Z.of_nat (reads u) + 2 ^ 64 → idle j = true →
  wp (uartputc_sync idle c) (λ _ w', ∃ u', w' = World h ks u' ∧ UI u' q ∧ queued u' = queued u ∧ sent u' = sent u ++ [(false, u8 c)] ∧
    panicked u' = false ∧ rhr u' = rhr u ∧ owes u' = true) (World h ks u).
Proof.
  intros HU Hp Hj Hlt Hid. unfold uartputc_sync. apply wp_bind, wp_gets. cbn [st id]. rewrite Hp. apply wp_bind.
  eapply (wp_loop _ (λ n _ w, ∃ m o, w = World h ks (u <| reads := m |> <| owes := o |>) ∧ (m ≤ j)%nat ∧ n = Z.of_nat j - Z.of_nat m)) with (n := Z.of_nat j - Z.of_nat (reads u)).
  - intros n _ w (m & o & _ & Hm & ->). lia.
  - intros n _ w (m & o & -> & Hm & ->). apply wp_bind, tx_busy_spec. change (reads (u <| reads := m |> <| owes := o |>)) with m.
    destruct (idle m) eqn:Em; cbn [negb].
    + apply wp_ret. apply wp_bind, wp_modify, wp_modify. eexists. split; [reflexivity|]. split; [|done].
      destruct HU as [Hl Hr Hw Hmx Hh Hby Hf]. split; cbn; try done. rewrite of_ring_app, Hf. cbn. by rewrite app_nil_r.
    + apply wp_ret. assert (m ≠ j) by congruence. exists (Z.of_nat j - Z.of_nat (S m)). split; [|lia]. exists (S m), (true || o). split; [done|]. split; lia.
  - exists (reads u), (owes u). split; [by destruct u|]. done.
  - change (Z.of_nat 64) with 64. lia.
Qed.

(** ** Any number of writers, with interrupts and kernel output in between *)
Inductive status := Ready | Asleep | Woken | Returned.
#[export] Instance status_eq : EqDecision status.
Proof. solve_decision. Defined.
(** A uartputc_sync reads LSR until the device is idle, then writes THR. *)
Inductive polling := Polling | SawIdle | Written.
Record sys := mkSys { dev : uart; ths : list (Z * status); syncs : list (Z * polling) }.
Definition wake (ks : list chan) (t : Z * status) : Z * status :=
  if decide (t.2 = Asleep ∧ tx_chan ∈ ks) then (t.1, Woken) else t.
Definition after (c : Z) (e : ending) : Z * status := (c, match e with Return => Returned | Sleep => Asleep end).
Inductive step (idle : nat → bool) : sys → sys → Prop :=
  | step_call u l y c : step idle (mkSys u l y) (mkSys u (l ++ [(c, Ready)]) y)
  | step_first u l y t c e ks u' : l !! t = Some (c, Ready) → uartputc idle c (World [] [] u) = Done e (World [] ks u') →
      step idle (mkSys u l y) (mkSys u' (wake ks <$> <[t := after c e]> l) y)
  | step_resume u l y t c e ks u' : l !! t = Some (c, Woken) → uartputc_resume idle c (World [] [] u) = Done e (World [] ks u') →
      step idle (mkSys u l y) (mkSys u' (wake ks <$> <[t := after c e]> l) y)
  | step_interrupt u l y ks u' : uartintr_send idle (World [] [] (u <| owes := false |>)) = Done () (World [] ks u') →
      step idle (mkSys u l y) (mkSys u' (wake ks <$> l) y)
  | step_sync_call u l y c : panicked u = false → step idle (mkSys u l y) (mkSys u l (y ++ [(c, Polling)]))
  | step_sync_poll u l y t c b u' : y !! t = Some (c, Polling) → tx_busy idle (World [] [] u) = Done b (World [] [] u') →
      step idle (mkSys u l y) (mkSys u' l (<[t := (c, if b : bool then Polling else SawIdle)]> y))
  | step_sync_write u l y t c u' : y !! t = Some (c, SawIdle) → transmit false c (World [] [] u) = Done () (World [] [] u') →
      step idle (mkSys u l y) (mkSys u' l (<[t := (c, Written)]> y)).
(** The driver after uartinit. *)
Definition initial (s : sys) : Prop := length (uart_tx_buf (dev s)) = Z.to_nat UART_TX_BUF_SIZE ∧ uart_tx_w (dev s) = 0 ∧ uart_tx_r (dev s) = 0 ∧
  panicked (dev s) = false ∧ queued (dev s) = [] ∧ sent (dev s) = [] ∧ ths s = [] ∧ syncs s = [].

Record SI (s : sys) (q : list Z) : Prop := {
  si_ui : UI (dev s) q;
  si_up : panicked (dev s) = false;
  si_owes : q = [] ∨ owes (dev s) = true;
  si_full t c : ths s !! t = Some (c, Asleep) → Z.of_nat (length q) = UART_TX_BUF_SIZE;
}.
Lemma uart_wake_asleep ks x c : wake ks x = (c, Asleep) → x = (c, Asleep) ∧ tx_chan ∉ ks.
Proof. unfold wake. destruct x as [c' st]. case_decide as Hd; cbn in *; [done|]. intros [= -> ->]. split; [done|]. tauto. Qed.
Lemma asleep_after ks (l : list (Z * status)) t c : (wake ks <$> l) !! t = Some (c, Asleep) → l !! t = Some (c, Asleep) ∧ tx_chan ∉ ks.
Proof. rewrite list_lookup_fmap. intros (x & Hx & E)%fmap_Some. symmetry in E. by apply uart_wake_asleep in E as [-> ?]. Qed.
Lemma replicate_notin {A} (x : A) n : x ∉ replicate n x → n = 0%nat.
Proof. destruct n; [done|]. cbn. set_solver. Qed.
Lemma put_SI u l y t c e ks u' q : SI (mkSys u l y) q → put_post u q c [] e (World [] ks u') →
  ∃ q', SI (mkSys u' (wake ks <$> <[t := after c e]> l) y) q'.
Proof.
  intros [HU Hp Ho Hf] [(-> & Hfull & [= -> ->])|(-> & Hnf & u2 & l' & q' & [= -> <-] & E & HU' & _ & _ & Hp' & _ & Ho')]; cbn in *.
  - exists q. split; cbn; try done.
  - exists q'. split; cbn; try done; [by rewrite Hp'|]. intros t' c' [Hin Hn]%asleep_after. apply replicate_notin in Hn. destruct l'; [|done].
    apply list_lookup_insert_Some in Hin as [(_ & [=] & _)|[_ Hin]]. by apply Hf in Hin.
Qed.
Lemma interrupt_SI idle u l y ks u' q : SI (mkSys u l y) q → uartintr_send idle (World [] [] (u <| owes := false |>)) = Done () (World [] ks u') →
  ∃ q', SI (mkSys u' (wake ks <$> l) y) q'.
Proof.
  intros [HU Hp _ Hf] Hrun. cbn [dev ths] in *. assert (HU0 : UI (u <| owes := false |>) q) by (by destruct HU).
  assert (Hwp : wp (uartintr_send idle) (λ _ w', ∃ u' l q', w' = World [] (replicate (length l) tx_chan) u' ∧ q = l ++ q' ∧ UI u' q' ∧
    drained (u <| owes := false |>) u' l ∧ (q' = [] ∨ owes u' = true)) (World [] [] (u <| owes := false |>))).
  { apply wp_bind, wp_acquire; [apply not_elem_of_nil|]. apply wp_bind. eapply wp_mono; [apply uartstart_spec, HU0|].
    intros _ w' (u2 & l' & q' & -> & H). apply wp_release; [apply not_elem_of_nil|]. exists u2, l', q'. done. }
  unfold wp in Hwp. rewrite Hrun in Hwp. destruct Hwp as (u2 & l' & q' & [= -> <-] & -> & HU' & [_ _ _ Hp'] & Ho').
  exists q'. split; cbn; try done; [by rewrite Hp'|]. intros t c [Hin Hn]%asleep_after. apply replicate_notin in Hn. destruct l'; [|done]. by eapply Hf.
Qed.
Lemma poll_SI idle u l y y' b u' q : SI (mkSys u l y) q → tx_busy idle (World [] [] u) = Done b (World [] [] u') → SI (mkSys u' l y') q.
Proof.
  intros [HU Hp Ho Hf] Hrun. cbn [dev ths] in *.
  assert (Hwp : wp (tx_busy idle) (λ _ w', ∃ n b, w' = World [] [] (u <| reads := n |> <| owes ::= orb b |>)) (World [] [] u)) by (apply tx_busy_spec; eauto).
  unfold wp in Hwp. rewrite Hrun in Hwp. destruct Hwp as (n & b' & [= ->]). split; cbn; [|done| |done]; [by destruct HU|].
  destruct Ho as [?|Ho]; [by left|]. right. rewrite Ho. apply orb_true_r.
Qed.
Lemma write_SI u l y y' c u' q : SI (mkSys u l y) q → transmit false c (World [] [] u) = Done () (World [] [] u') → SI (mkSys u' l y') q.
Proof.
  intros [HU Hp Ho Hf] Hrun. cbn [dev ths] in *. injection Hrun as <-. split; cbn; [|done|by right|done].
  destruct HU as [Hl Hr Hw Hm Hh Hby Hq]. split; cbn; try done. rewrite of_ring_app, Hq. cbn. by rewrite app_nil_r.
Qed.
Lemma run_post {S A} (m : M S A) Φ w a w' : wp m Φ w → m w = Done a w' → Φ a w'.
Proof. unfold wp. intros H E. by rewrite E in H. Qed.
Lemma uart_step_SI idle s s' q : step idle s s' → SI s q → ∃ q', SI s' q'.
Proof.
  intros Hst HS. pose proof (si_ui _ _ HS) as HU. pose proof (si_up _ _ HS) as Hp.
  destruct Hst as [u l y c|u l y t c e ks u' Ht Hrun|u l y t c e ks u' Ht Hrun|u l y ks u' Hrun|u l y c Hpk|u l y t c b u' Ht Hrun|u l y t c u' Ht Hrun]; cbn [dev] in HU, Hp.
  - exists q. destruct HS as [_ _ Ho Hf]. split; cbn in *; try done. intros t c' [Hc|[_ Hc]]%lookup_app_Some; [by eapply Hf|].
    by apply list_lookup_singleton_Some in Hc as [_ [= _ ?]].
  - eapply put_SI; [done|]. by eapply (run_post _ _ _ _ _ (uartputc_spec idle u q c [] HU Hp)).
  - eapply put_SI; [done|]. by eapply (run_post _ _ _ _ _ (uartputc_resume_spec idle u q c [] HU)).
  - by eapply interrupt_SI.
  - exists q. by destruct HS.
  - exists q. by eapply poll_SI.
  - exists q. by eapply write_SI.
Qed.
Lemma reachable_SI idle s0 s : initial s0 → rtc (step idle) s0 s → ∃ q, SI s q.
Proof.
  intros (Hl & Hw & Hr & Hp & Hq & Hs & Ht & _) Hrtc.
  assert (H0 : ∃ q, SI s0 q).
  { exists []. split; [|done|by left|by rewrite Ht]. split; rewrite ?Hw, ?Hr; try done. rewrite Hq, Hs. done. }
  clear -H0 Hrtc. induction Hrtc as [s|s s1 s2 H1 _ IH]; [done|]. apply IH. destruct H0 as [q H0]. by eapply uart_step_SI.
Qed.
(** The transmitter becomes idle again after every byte. *)
Definition idle_again (idle : nat → bool) : Prop := ∀ n, ∃ j, (n ≤ j)%nat ∧ Z.of_nat j < Z.of_nat n + 2 ^ 64 ∧ idle j = true.

(** C21: output to the console is in order and cannot get stuck. In every state
    that any number of concurrent uartputc calls, transmit interrupts and
    polled kernel output can reach, the register accesses of the latter in any
    order with the others: the bytes accepted so far are those of them already
    on the wire followed by at most 32 bytes in the ring; a writer sleeps only
    on a full ring; and while the ring is not empty the device was seen busy, or
    was given a byte, since its last interrupt, so that an interrupt that drains
    the ring is still to come. In such a state a call of uartputc always returns
    or sleeps, so does one that goes on after a sleep, and a polled write
    returns as the transmitter becomes idle again. *)
Theorem uart_fifo idle s0 s : idle_again idle → initial s0 → rtc (step idle) s0 s →
  ∃ q, queued (dev s) = of_ring (sent (dev s)) ++ q ∧ Z.of_nat (length q) = u64 (uart_tx_w (dev s) - uart_tx_r (dev s)) ∧
    Z.of_nat (length q) ≤ UART_TX_BUF_SIZE ∧
    (∀ t c, ths s !! t = Some (c, Asleep) → Z.of_nat (length q) = UART_TX_BUF_SIZE) ∧
    (q ≠ [] → owes (dev s) = true) ∧
    (∀ c, wp (uartputc idle c) (λ _ _, True) (World [] [] (dev s))) ∧
    (∀ c, wp (uartputc_resume idle c) (λ _ _, True) (World [] [] (dev s))) ∧
    (∀ c, wp (uartputc_sync idle c) (λ _ _, True) (World [] [] (dev s))).
Proof.
  intros Hi H0 Hr. destruct (reachable_SI idle s0 s H0 Hr) as (q & [HU Hp Ho Hf]). exists q. pose proof HU as [Hl Hrr Hw Hm Hh Hby Hq].
  split_and!; [done| |done|done|tauto|..].
  - rewrite Hw. unfold u64, UART_TX_BUF_SIZE in *. rewrite Zminus_mod_idemp_l, Z.mod_small; lia.
  - intros c. eapply wp_mono; [by apply uartputc_spec|]. done.
  - intros c. eapply wp_mono; [by apply uartputc_resume_spec|]. done.
  - intros c. destruct (Hi (reads (dev s))) as (j & H1 & H2 & H3). eapply wp_mono; [by eapply uartputc_sync_spec|]. done.
Qed.
(** 65 goes out at once, 66 finds the device busy and stays in the ring, and a
    polled 67 has found it idle and is about to write. *)
Definition demo_idle (n : nat) : bool := Nat.even n.
Definition demo0 : sys := mkSys (mkUart (repeat 0 32) 0 0 false [] 0 [] [] [] false) [] [].
Definition demo_put (c : Z) (u : uart) : uart := match uartputc demo_idle c (World [] [] u) with Done _ w => st w | _ => u end.
Definition demo_u1 : uart := Eval vm_compute in demo_put 65 (dev demo0).
Definition demo_u2 : uart := Eval vm_compute in demo_put 66 demo_u1.
Definition demo_u3 : uart := Eval vm_compute in match tx_busy demo_idle (World [] [] demo_u2) with Done _ w => st w | _ => demo_u2 end.
Definition demo3 : sys := mkSys demo_u3 [(65, Returned); (66, Returned)] [(67, SawIdle)].
Lemma uart_demo_steps : rtc (step demo_idle) demo0 demo3.
Proof.
  apply (rtc_l _ _ _ _ (step_call demo_idle (dev demo0) [] [] 65)).
  eapply rtc_l; [exact (step_first demo_idle (dev demo0) [(65, Ready)] [] 0 65 Return [tx_chan] demo_u1 eq_refl ltac:(vm_compute; reflexivity))|].
  eapply rtc_l; [exact (step_call demo_idle demo_u1 [(65, Returned)] [] 66)|].
  eapply rtc_l; [exact (step_first demo_idle demo_u1 [(65, Returned); (66, Ready)] [] 1 66 Return [] demo_u2 eq_refl ltac:(vm_compute; reflexivity))|].
  eapply rtc_l; [exact (step_sync_call demo_idle demo_u2 [(65, Returned); (66, Returned)] [] 67 eq_refl)|].
  apply rtc_once. exact (step_sync_poll demo_idle demo_u2 [(65, Returned); (66, Returned)] [(67, Polling)] 0 67 false demo_u3 eq_refl ltac:(vm_compute; reflexivity)).
Qed.
Lemma uart_fifo_witness : ∃ q, queued (dev demo3) = of_ring (sent (dev demo3)) ++ q ∧ Z.of_nat (length q) = u64 (uart_tx_w (dev demo3) - uart_tx_r (dev demo3)) ∧
    Z.of_nat (length q) ≤ UART_TX_BUF_SIZE ∧
    (∀ t c, ths demo3 !! t = Some (c, Asleep) → Z.of_nat (length q) = UART_TX_BUF_SIZE) ∧
    (q ≠ [] → owes (dev demo3) = true) ∧
    (∀ c, wp (uartputc demo_idle c) (λ _ _, True) (World [] [] (dev demo3))) ∧
    (∀ c, wp (uartputc_resume demo_idle c) (λ _ _, True) (World [] [] (dev demo3))) ∧
    (∀ c, wp (uartputc_sync demo_idle c) (λ _ _, True) (World [] [] (dev demo3))).
Proof.
  apply (uart_fifo demo_idle demo0 demo3).
  - intros n. destruct (Nat.even n) eqn:E; [exists n|exists (S n)]; (split; [lia|]); (split; [lia|]); unfold demo_idle; [done|].
    by rewrite Nat.even_succ, <- Nat.negb_even, E.
  - by vm_compute.
  - exact uart_demo_steps.
Defined.
End Uart.
