(* ===== verification/Console.v ===== *)
(** * The console line discipline: kernel/console.c, and uartintr of uart.c

    [consoleread] sleeps while no line is ready, so a call is a sequence of
    sections as in Pipe.v. [copyout] and [copyin] stand for the transfers of one
    byte at an offset of the user's buffer. Calls of procdump are counted in
    [dumps]. The abstract console is a line editor: the input [ready] to be
    read, the [line] being typed, and the echo of each key. *)
From S2P Require Import Prelude Ring Uart.

Module Console.
Import Uart.
Definition BACKSPACE : Z := 0x100.
(** Control-x: [C(x)] *)
Definition ctrl (x : Z) : Z := x - 64.
Definition INPUT_BUF_SIZE : Z := 128.
Abbreviation CTRL_P := (ctrl 80). Abbreviation CTRL_U := (ctrl 85). Abbreviation CTRL_H := (ctrl 72). Abbreviation CTRL_D := (ctrl 68).
Abbreviation DELETE := 127. Abbreviation NL := 10. Abbreviation CR := 13.

Record cons_ := mkCons { buf : list Z; r : Z; w : Z; e : Z }.
#[export] Instance eta_cons : Settable cons_ := λ c, mkCons (buf c) (r c) (w c) (e c).
Record console := mkConsole { cons : cons_; ua : uart; dumps : nat }.
#[export] Instance eta_console : Settable console := λ c, mkConsole (cons c) (ua c) (dumps c).
Definition cons_lock : lock := ("cons", 0%nat).
Definition r_chan : chan := ("cons.r", 0%nat).
(** How a section of consoleread ends: [n] bytes are left to be read. *)
Inductive rending := RReturn (v : Z) | RSleep (n : Z).

Section console.
Context (idle : nat → bool).
Definition on_uart {A} (m : M uart A) : M console A := zoom ua (λ u s, s <| ua := u |>) m.
Definition get {A} (f : cons_ → A) : M console A := gets (λ s, f (cons s)).
Definition set (f : cons_ → cons_) : M console unit := modify (λ s, s <| cons ::= f |>).
Definition at_ (c : cons_) (n : Z) : option Z := buf c !! ring_slot INPUT_BUF_SIZE n.

Definition consputc (c : Z) : M console unit :=
  if c =? BACKSPACE then
    on_uart (uartputc_sync idle 8);; on_uart (uartputc_sync idle 32);; on_uart (uartputc_sync idle 8)
  else on_uart (uartputc_sync idle c).

(** [k] bounds the turns: the line fits in the buffer. *)
Fixpoint kill_line (k : nat) : M console unit :=
  c ← get id;
  if e c =? w c then ret ()
  else
    last ← nonnull (at_ c (u32 (e c - 1)));
    if last =? NL then ret ()
    else match k with
    | O => timeout
    | S k =>
        set (λ c, c <| e ::= λ n, u32 (n - 1) |>);;
        consputc BACKSPACE;;
        kill_line k
    end.
Definition consoleintr (c : Z) : M console unit :=
  acquire cons_lock;;
  (if c =? CTRL_P then modify (λ s, s <| dumps ::= S |>)
   else if c =? CTRL_U then kill_line (Z.to_nat INPUT_BUF_SIZE)
   else if (c =? CTRL_H) || (c =? DELETE) then
     x ← get id;
     when (negb (e x =? w x)) (set (λ c, c <| e ::= λ n, u32 (n - 1) |>);; consputc BACKSPACE)
   else
     x ← get id;
     when (negb (c =? 0) && (u32 (e x - r x) <? INPUT_BUF_SIZE))
       (let c := if c =? CR then NL else c in
        consputc c;;
        set (λ x, x <| buf ::= <[ring_slot INPUT_BUF_SIZE (e x) := u8 c]> |>);;
        set (λ x, x <| e ::= λ n, u32 (n + 1) |>);;
        x ← get id;
        when ((c =? NL) || (c =? CTRL_D) || (u32 (e x - r x) =? INPUT_BUF_SIZE))
          (set (λ x, x <| w := e x |>);; notify r_chan)));;
  release cons_lock.

(** [target] bytes were asked for and [n] are still wanted. *)
Fixpoint read_loop (killed : bool) (copyout : Z → Z → bool) (k : nat) (target n : Z) : M console rending :=
  if negb (0 <? n) then release cons_lock;; ret (RReturn (target - n))
  else match k with
  | O => timeout
  | S k =>
      x ← get id;
      if r x =? w x then
        release cons_lock;; ret (if killed then RReturn (-1) else RSleep n)
      else
        c ← nonnull (at_ x (r x));
        set (λ x, x <| r ::= λ n, u32 (n + 1) |>);;
        if c =? CTRL_D then
          when (n <? target) (set (λ x, x <| r ::= λ n, u32 (n - 1) |>));;
          release cons_lock;; ret (RReturn (target - n))
        else if negb (copyout (target - n) c) then release cons_lock;; ret (RReturn (target - n))
        else if c =? NL then release cons_lock;; ret (RReturn (target - (n - 1)))
        else read_loop killed copyout k target (n - 1)
  end.
Definition consoleread (killed : bool) (copyout : Z → Z → bool) (target n : Z) : M console rending :=
  acquire cons_lock;; read_loop killed copyout (Z.to_nat n) target n.

(** A section of consolewrite from byte [i], or, with [Some c], from the
    uartputc of byte [i] that slept. [inr] is the pair to go on from. *)
Fixpoint consolewrite (copyin : Z → option Z) (k : nat) (i n : Z) (pending : option Z) : M console (Z + Z * Z) :=
  if negb (i <? n) then ret (inl i)
  else match k, (if pending then pending else copyin i) with
  | O, _ => timeout
  | S _, None => ret (inl i)
  | S k, Some c =>
      d ← on_uart (if pending then uartputc_resume idle c else uartputc idle c);
      match d with
      | Sleep => ret (inr (i, c))
      | Return => consolewrite copyin k (i + 1) n None
      end
  end.

(** The loop of uartintr: [k] bounds the bytes that wait. *)
Fixpoint uartintr_loop (k : nat) : M console unit :=
  c ← on_uart (uartgetc idle);
  if c =? -1 then ret ()
  else match k with
  | O => timeout
  | S k => consoleintr c;; uartintr_loop k
  end.
Definition uartintr : M console unit :=
  k ← gets (λ s, length (rhr (ua s)));
  uartintr_loop k;;
  on_uart (uartintr_send idle).
End console.

(** ** The abstract line editor *)
Record editor := mkEd { ready : list Z; line : list Z }.
Definition rubout : list Z := [8; 32; 8].
(** A key: the new state, the echo and whether readers are woken. *)
Definition ed_key (c : Z) (s : editor) : editor * list Z * bool :=
  if c =? CTRL_P then (s, [], false)
  else if c =? CTRL_U then (mkEd (ready s) [], line s ≫= (λ _, rubout), false)
  else if (c =? CTRL_H) || (c =? DELETE) then
    (mkEd (ready s) (take (length (line s) - 1) (line s)), if bool_decide (line s = []) then [] else rubout, false)
  else if negb (c =? 0) && (Z.of_nat (length (ready s ++ line s)) <? INPUT_BUF_SIZE) then
    let c := if c =? CR then NL else c in
    let l := line s ++ [c] in
    if (c =? NL) || (c =? CTRL_D) || (Z.of_nat (length (ready s ++ l)) =? INPUT_BUF_SIZE)
    then (mkEd (ready s ++ l) [], [c], true)
    else (mkEd (ready s) l, [c], false)
  else (s, [], false).
(** The keys of one interrupt. *)
Fixpoint ed_keys (cs : list Z) (s : editor) : editor * list Z * bool :=
  match cs with
  | [] => (s, [], false)
  | c :: cs =>
      let '(s, out, woken) := ed_key c s in
      let '(s, out', woken') := ed_keys cs s in (s, out ++ out', woken || woken')
  end.
(** A section of a read: the bytes copied out, what remains and how it ends. *)
Fixpoint ed_read (killed : bool) (copyout : Z → Z → bool) (k : nat) (target n : Z) (q : list Z) : list Z * list Z * rending :=
  if negb (0 <? n) then ([], q, RReturn (target - n))
  else match k, q with
  | O, _ => ([], q, RReturn (-1))
  | S _, [] => ([], [], if killed then RReturn (-1) else RSleep n)
  | S k, c :: q' =>
      if c =? CTRL_D then ([], if n <? target then q else q', RReturn (target - n))
      else if negb (copyout (target - n) c) then ([], q', RReturn (target - n))
      else if c =? NL then ([c], q', RReturn (target - n + 1))
      else let '(l, q2, x) := ed_read killed copyout k target (n - 1) q' in (c :: l, q2, x)
  end.

(** ** The concrete console implements the editor *)
Record CI (s : console) (d : editor) : Prop := {
  ci_len : length (buf (cons s)) = Z.to_nat INPUT_BUF_SIZE;
  ci_r : 0 ≤ r (cons s) < 2 ^ 32;
  ci_w : w (cons s) = u32 (r (cons s) + Z.of_nat (length (ready d)));
  ci_e : e (cons s) = u32 (r (cons s) + Z.of_nat (length (ready d ++ line d)));
  ci_max : Z.of_nat (length (ready d ++ line d)) ≤ INPUT_BUF_SIZE;
  ci_holds : holds INPUT_BUF_SIZE (buf (cons s)) (r (cons s)) (ready d ++ line d);
  ci_line : NL ∉ line d;
}.
(** The driver below it. *)
Definition UP (s : console) : Prop := (∃ q, UI (ua s) q) ∧ panicked (ua s) = false.
(** [s'] is [s] with another console and [out] echoed. *)
Record echoed (s s' : console) (out : list Z) : Prop := {
  ec_sent : sent (ua s') = sent (ua s) ++ (pair false <$> out);
  ec_queued : queued (ua s') = queued (ua s);
  ec_rhr : rhr (ua s') = rhr (ua s);
}.
Lemma echoed_refl s : echoed s s [].
Proof. split; cbn; by rewrite ?app_nil_r. Qed.
Lemma echoed_trans s1 s2 s3 l l' : echoed s1 s2 l → echoed s2 s3 l' → echoed s1 s3 (l ++ l').
Proof. intros [H1 H2 H3] [H4 H5 H6]. split; [rewrite H4, H1, fmap_app; by rewrite <- app_assoc|congruence..]. Qed.
Lemma input_wrap : (INPUT_BUF_SIZE | 2 ^ 32).
Proof. by exists 33554432. Qed.
Lemma CI_line_empty s d : CI s d → (e (cons s) =? w (cons s)) = bool_decide (line d = []).
Proof.
  intros [_ Hr Hw He Hm _ _]. rewrite Hw, He. unfold u32. rewrite length_app in *. rewrite counter_eqb by (unfold INPUT_BUF_SIZE in *; lia).
  destruct (line d); cbn [length]; [rewrite bool_decide_eq_true_2 by done; apply Z.eqb_eq; lia|rewrite bool_decide_eq_false_2 by done; apply Z.eqb_neq; lia].
Qed.
Lemma CI_ready_empty s d : CI s d → (r (cons s) =? w (cons s)) = bool_decide (ready d = []).
Proof.
  intros [_ Hr Hw He Hm _ _]. rewrite Hw. unfold u32. rewrite <- (Z.mod_small (r (cons s)) (2 ^ 32)) at 1 by done.
  rewrite <- (Z.add_0_r (r (cons s))) at 1. rewrite length_app in *. rewrite counter_eqb by (unfold INPUT_BUF_SIZE in *; lia). by destruct (ready d).
Qed.
Lemma CI_count s d : CI s d → u32 (e (cons s) - r (cons s)) = Z.of_nat (length (ready d ++ line d)).
Proof. intros [_ Hr Hw He Hm _ _]. rewrite He. unfold u32, INPUT_BUF_SIZE in *. rewrite Zminus_mod_idemp_l, Z.mod_small; lia. Qed.
(** The four changes of the indices. *)
Lemma CI_rubout s q l b : CI s (mkEd q (l ++ [b])) → at_ (cons s) (u32 (e (cons s) - 1)) = Some b ∧
  CI (s <| cons ::= λ c, c <| e ::= λ n, u32 (n - 1) |> |>) (mkEd q l).
Proof.
  intros [Hl Hr Hw He Hm Hh Hn]. cbn [ready line] in *. rewrite app_assoc, length_app in *. cbn [length] in *.
  assert (E : u32 (e (cons s) - 1) = u32 (r (cons s) + Z.of_nat (length (q ++ l)))).
  { rewrite He. unfold u32. rewrite Zminus_mod_idemp_l. f_equal. lia. }
  split.
  - unfold at_. rewrite E. unfold u32. rewrite ring_slot_mod by apply input_wrap. by apply holds_last.
  - split; cbn; try done; [lia|eauto|set_solver].
Qed.
Lemma CI_type s q l c : CI s (mkEd q l) → Z.of_nat (length (q ++ l)) < INPUT_BUF_SIZE →
  let s' := s <| cons ::= λ x, x <| buf ::= <[ring_slot INPUT_BUF_SIZE (e x) := c]> |> |> <| cons ::= λ x, x <| e ::= λ n, u32 (n + 1) |> |> in
  (c ≠ NL → CI s' (mkEd q (l ++ [c]))) ∧ CI (s' <| cons ::= λ x, x <| w := e x |> |>) (mkEd (q ++ l ++ [c]) []).
Proof.
  intros [Hl Hr Hw He Hm Hh Hn] Hroom. cbn [ready line] in *.
  assert (Hlen : length (<[ring_slot INPUT_BUF_SIZE (e (cons s)) := c]> (buf (cons s))) = Z.to_nat INPUT_BUF_SIZE) by (by rewrite length_insert).
  assert (He' : u32 (e (cons s) + 1) = u32 (r (cons s) + Z.of_nat (length (q ++ l ++ [c])))).
  { rewrite He, app_assoc, (length_app (q ++ l)). unfold u32. rewrite Zplus_mod_idemp_l. f_equal. cbn. lia. }
  assert (Hh' : holds INPUT_BUF_SIZE (<[ring_slot INPUT_BUF_SIZE (e (cons s)) := c]> (buf (cons s))) (r (cons s)) (q ++ l ++ [c])).
  { rewrite He. unfold u32. rewrite ring_slot_mod by apply input_wrap. rewrite app_assoc. by apply holds_push. }
  assert (Hmax : Z.of_nat (length (q ++ l ++ [c])) ≤ INPUT_BUF_SIZE) by (rewrite app_assoc, (length_app (q ++ l)); cbn; lia).
  split; [intros Hc|]; split; cbn [ready line]; rewrite ?app_nil_r; try done; [set_solver|cbn; set_solver].
Qed.
Lemma CI_read s b q l : CI s (mkEd (b :: q) l) → at_ (cons s) (r (cons s)) = Some b ∧
  CI (s <| cons ::= λ x, x <| r ::= λ n, u32 (n + 1) |> |>) (mkEd q l).
Proof.
  intros [Hl Hr Hw He Hm Hh Hn]. cbn [ready line app length] in *. split; [by eapply holds_head|].
  split; cbn [ready line]; cbn; try done; [apply u32_range| | |lia|].
  - rewrite Hw. unfold u32. rewrite Zplus_mod_idemp_l. f_equal. lia.
  - rewrite He. unfold u32. rewrite Zplus_mod_idemp_l. f_equal. lia.
  - apply holds_mod; [apply input_wrap|]. eauto.
Qed.
(** [cons.r--] takes the read back. *)
Lemma unread s : 0 ≤ r (cons s) < 2 ^ 32 →
  s <| cons ::= λ x, x <| r ::= λ n, u32 (n + 1) |> |> <| cons ::= λ x, x <| r ::= λ n, u32 (n - 1) |> |> = s.
Proof.
  intros Hr. destruct s as [[b r' w' e'] u n]. cbn in Hr.
  assert (E : u32 (u32 (r' + 1) - 1) = r').
  { unfold u32. rewrite Zminus_mod_idemp_l. replace (r' + 1 - 1) with r' by lia. by apply Z.mod_small. }
  change (mkConsole (mkCons b (u32 (u32 (r' + 1) - 1)) w' e') u n = mkConsole (mkCons b r' w' e') u n). by rewrite E.
Qed.

Section specs.
Context (idle : nat → bool) (Hidle : idle_again idle).

Lemma sync_spec c s h ks : UP s →
  wp (on_uart (uartputc_sync idle c)) (λ _ w', ∃ s', w' = World h ks s' ∧ UP s' ∧ cons s' = cons s ∧ dumps s' = dumps s ∧ echoed s s' [u8 c]) (World h ks s).
Proof.
  intros [[q HU] Hp]. apply wp_zoom. destruct (Hidle (reads (ua s))) as (j & H1 & H2 & H3).
  eapply wp_mono; [by apply (uartputc_sync_spec idle (ua s) q c h ks j)|].
  intros _ w' (u' & -> & HU' & Hq & Hs & Hp' & Hr & _). cbn [held wakes st]. eexists. split; [reflexivity|].
  split; [split; [by exists q|done]|]. split; [done|]. split; [done|]. by split.
Qed.
Definition shown (c : Z) : list Z := if c =? BACKSPACE then rubout else [u8 c].
Lemma consputc_spec c s h ks : UP s →
  wp (consputc idle c) (λ _ w', ∃ s', w' = World h ks s' ∧ UP s' ∧ cons s' = cons s ∧ dumps s' = dumps s ∧ echoed s s' (shown c)) (World h ks s).
Proof.
  intros HU. unfold consputc, shown. destruct (c =? BACKSPACE); [|by apply sync_spec].
  apply wp_bind. eapply wp_mono; [by apply sync_spec|]. intros _ w1 (s1 & -> & HU1 & Ec1 & Ed1 & H1).
  apply wp_bind. eapply wp_mono; [by apply sync_spec|]. intros _ w2 (s2 & -> & HU2 & Ec2 & Ed2 & H2).
  eapply wp_mono; [by apply sync_spec|]. intros _ w3 (s3 & -> & HU3 & Ec3 & Ed3 & H3).
  exists s3. split; [done|]. split; [done|]. split; [congruence|]. split; [congruence|].
  apply (echoed_trans _ _ _ [8] [32; 8] H1). by apply (echoed_trans _ s2 _ [32] [8]).
Qed.
Lemma CI_ext s s' d : cons s' = cons s → CI s d → CI s' d.
Proof. intros E []. split; rewrite ?E; done. Qed.
Lemma kill_line_spec q k : ∀ l s h ks, (length l ≤ k)%nat → CI s (mkEd q l) → UP s →
  wp (kill_line idle k) (λ _ w', ∃ s', w' = World h ks s' ∧ CI s' (mkEd q []) ∧ UP s' ∧ dumps s' = dumps s ∧ echoed s s' (l ≫= λ _, rubout)) (World h ks s).
Proof.
  induction k as [|k IH]; intros l s h ks Hk HC HU; cbn [kill_line]; apply wp_bind, wp_gets; cbn [st id]; rewrite (CI_line_empty _ _ HC); cbn [line].
  - destruct l; [|cbn in Hk; lia]. rewrite bool_decide_eq_true_2 by done. apply wp_ret. exists s. split_and!; try done. apply echoed_refl.
  - case_bool_decide as Hl; [subst l; apply wp_ret; exists s; split_and!; try done; apply echoed_refl|].
    destruct (exists_last Hl) as (l' & b & ->). pose proof HC as HC0. apply CI_rubout in HC as [E HC]. rewrite E. cbn [nonnull]. apply wp_bind, wp_ret.
    assert (Hb : b ≠ NL) by (pose proof (ci_line _ _ HC0); cbn in *; set_solver). rewrite (proj2 (Z.eqb_neq _ _)) by done.
    apply wp_bind, wp_modify, wp_bind. eapply wp_mono; [apply consputc_spec; exact HU|]. intros _ w1 (s1 & -> & HU1 & Ec & Ed & H1).
    rewrite length_app in Hk. cbn in Hk.
    eapply wp_mono; [apply (IH l' s1); [lia|by eapply CI_ext|done]|]. intros _ w2 (s2 & -> & HC2 & HU2 & Ed2 & H2).
    exists s2. split; [done|]. split; [done|]. split; [done|]. split; [by rewrite Ed2, Ed|].
    replace ((l' ++ [b]) ≫= λ _, rubout) with (rubout ++ (l' ≫= λ _, rubout)).
    + eapply echoed_trans; [|exact H2]. destruct H1. by split.
    + rewrite bind_app. cbn. clear. induction l' as [|x l' IH]; [done|]. cbn in *. by rewrite IH.
Qed.
(** One key. *)
Lemma consoleintr_spec c s d ks : 0 ≤ c < 256 → CI s d → UP s →
  wp (consoleintr idle c) (λ _ w', ∃ s', let '(d', out, woken) := ed_key c d in
    w' = World [] (ks ++ if woken : bool then [r_chan] else []) s' ∧ CI s' d' ∧ UP s' ∧ echoed s s' out) (World [] ks s).
Proof.
  intros Hc HC HU. destruct d as [q l]. unfold consoleintr. apply wp_bind, wp_acquire; [apply not_elem_of_nil|]. apply wp_bind. unfold ed_key. cbn [ready line].
  assert (Hend : ∀ s' d' out, CI s' d' → UP s' → echoed s s' out → wp (release cons_lock) (λ _ w', ∃ s', w' = World [] (ks ++ []) s' ∧ CI s' d' ∧ UP s' ∧ echoed s s' out) (World [cons_lock] ks s')).
  { intros s' d' out H1 H2 H3. apply wp_release; [apply not_elem_of_nil|]. exists s'. by rewrite app_nil_r. }
  destruct (c =? CTRL_P); [|destruct (c =? CTRL_U); [|destruct ((c =? CTRL_H) || (c =? DELETE))]].
  - apply wp_modify, Hend; [by apply (CI_ext s)|done|]. by split; cbn; rewrite ?app_nil_r.
  - eapply wp_mono; [apply (kill_line_spec q _ l); [|done..]|].
    { pose proof (ci_max _ _ HC) as Hm. cbn [ready line] in Hm. rewrite length_app in Hm. lia. }
    intros _ w' (s' & -> & HC' & HU' & _ & He). by apply Hend.
  - apply wp_bind, wp_gets. cbn [st id]. rewrite (CI_line_empty _ _ HC). cbn [line]. apply wp_when. case_bool_decide as Hl; cbn [negb].
    + subst l. apply Hend; [done|done|apply echoed_refl].
    + destruct (exists_last Hl) as (l' & b & ->). apply CI_rubout in HC as [_ HC]. apply wp_bind, wp_modify.
      eapply wp_mono; [apply consputc_spec; exact HU|]. intros _ w1 (s1 & -> & HU1 & Ec & Ed & H1).
      apply Hend; [|done|destruct H1; by split]. eapply CI_ext; [exact Ec|]. rewrite length_app, Nat.add_sub, take_app_length. exact HC.
  - apply wp_bind, wp_gets. cbn [st id]. rewrite (CI_count _ _ HC). cbn [ready line]. apply wp_when.
    destruct (negb (c =? 0) && (Z.of_nat (length (q ++ l)) <? INPUT_BUF_SIZE)) eqn:Hroom; [|apply Hend; [done|done|apply echoed_refl]].
    apply andb_true_iff in Hroom as [_ Hroom]. apply Z.ltb_lt in Hroom. set (c' := if c =? CR then NL else c).
    assert (Hc' : 0 ≤ c' < 256) by (unfold c'; destruct (c =? CR); lia).
    apply wp_bind. eapply wp_mono; [apply consputc_spec; exact HU|]. intros _ w1 (s1 & -> & HU1 & Ec & Ed & H1).
    replace (shown c') with [c'] in H1.
    2:{ unfold shown, BACKSPACE. rewrite (proj2 (Z.eqb_neq _ _)) by lia. by rewrite u8_small. }
    apply (CI_ext s s1 (mkEd q l) Ec) in HC. destruct (CI_type _ _ _ c' HC Hroom) as [Ht1 Ht2].
    apply wp_bind, wp_modify, wp_bind, wp_modify, wp_bind, wp_gets. cbn [st id]. rewrite (u8_small c') by done.
    assert (Hcount : u32 (e (cons (s1 <| cons ::= λ x, x <| buf ::= <[ring_slot INPUT_BUF_SIZE (e x) := c']> |> |> <| cons ::= λ x, x <| e ::= λ n, u32 (n + 1) |> |>)) -
      r (cons (s1 <| cons ::= λ x, x <| buf ::= <[ring_slot INPUT_BUF_SIZE (e x) := c']> |> |> <| cons ::= λ x, x <| e ::= λ n, u32 (n + 1) |> |>))) = Z.of_nat (length (q ++ l ++ [c']))).
    { pose proof (CI_count _ _ Ht2) as E. cbn [ready line] in E. by rewrite app_nil_r in E. }
    rewrite Hcount. apply wp_when. destruct ((c' =? NL) || (c' =? CTRL_D) || (Z.of_nat (length (q ++ l ++ [c'])) =? INPUT_BUF_SIZE)) eqn:Ecommit.
    + apply wp_bind, wp_modify, wp_notify, wp_release; [apply not_elem_of_nil|]. eexists. split; [reflexivity|]. split; [exact Ht2|]. split; [done|]. destruct H1; by split.
    + apply Hend; [|done|destruct H1; by split]. apply Ht1. intros E. by rewrite E in Ecommit.
Qed.
(** One section of a read. *)
Lemma read_loop_spec killed copyout target k : ∀ n s q l ks, n ≤ Z.of_nat k → CI s (mkEd q l) → UP s →
  wp (read_loop killed copyout k target n) (λ x w', ∃ s' q' bs, ed_read killed copyout k target n q = (bs, q', x) ∧
    w' = World [] ks s' ∧ CI s' (mkEd q' l) ∧ ua s' = ua s) (World [cons_lock] ks s).
Proof.
  assert (Hend : ∀ (x : rending) s s' q l ks (bs : list Z), CI s' (mkEd q l) → ua s' = ua s → wp (release cons_lock;; ret x) (λ y w', ∃ s' q' bs', (bs, q, x) = (bs', q', y) ∧
    w' = World [] ks s' ∧ CI s' (mkEd q' l) ∧ ua s' = ua s) (World [cons_lock] ks s')).
  { intros x s s' q l ks bs H1 H2. apply wp_bind, wp_release, wp_ret; [apply not_elem_of_nil|]. by exists s', q, bs. }
  induction k as [|k IH]; intros n s q l ks Hk HC HU; cbn [read_loop ed_read].
  { rewrite (proj2 (Z.ltb_ge 0 n)) by lia. cbn [negb]. by apply Hend. }
  destruct (0 <? n); cbn [negb]; [|by apply Hend].
  apply wp_bind, wp_gets. cbn [st id]. rewrite (CI_ready_empty _ _ HC). cbn [ready]. case_bool_decide as Hq.
  { subst q. destruct killed; by apply Hend. }
  destruct q as [|c q]; [done|]. destruct (CI_read _ _ _ _ HC) as [E HC']. rewrite E. cbn [nonnull]. apply wp_bind, wp_ret, wp_bind, wp_modify.
  destruct (c =? CTRL_D).
  - apply wp_bind, wp_when. destruct (n <? target); [apply wp_modify; rewrite unread by apply HC|]; by apply Hend.
  - destruct (copyout (target - n) c); cbn [negb]; [|by apply Hend]. destruct (c =? NL).
    { replace (target - n + 1) with (target - (n - 1)) by lia. by apply Hend. }
    eapply wp_mono; [apply (IH (n - 1) _ q l ks); [lia|exact HC'|exact HU]|]. intros x w' (s' & q' & bs & Er & -> & HC2 & Eu).
    exists s', q', (c :: bs). rewrite Er. split; [done|]. split; [done|]. split; [done|]. by rewrite Eu.
Qed.
(** The input side of one interrupt. *)
Lemma uartgetc_spec u Φ h ks :
  match rhr u with
  | [] => Φ (-1) (World h ks (u <| reads ::= S |>))
  | c :: cs => Φ (u8 c) (World h ks (u <| reads ::= S |> <| rhr := cs |>))
  end → wp (uartgetc idle) Φ (World h ks u).
Proof.
  intros H. unfold uartgetc, ReadLSR. apply wp_bind, wp_bind, wp_gets, wp_bind, wp_modify, wp_ret. cbn [st id].
  destruct (rhr u) as [|c cs] eqn:E.
  - rewrite bool_decide_eq_true_2 by done. destruct (idle (reads u)); by apply wp_ret.
  - rewrite bool_decide_eq_false_2 by done.
    assert (Hn : negb (Z.land (Z.lor LSR_RX_READY (if idle (reads u) then LSR_TX_IDLE else 0)) 1 =? 0) = true) by (by destruct (idle (reads u))).
    rewrite Hn. apply wp_bind, wp_gets. cbn [st]. change (rhr (u <| reads ::= S |>)) with (rhr u). rewrite E. cbn [head nonnull].
    apply wp_bind, wp_ret, wp_bind, wp_modify, wp_ret. destruct u. cbn in *. subst. exact H.
Qed.
Lemma UP_ext s u : UP s → (∀ q, UI (ua s) q → UI u q) → panicked u = panicked (ua s) → UP (s <| ua := u |>).
Proof. intros [[q H] Hp] HU E. split; [exists q; by apply HU|]. cbn. congruence. Qed.
Lemma uartintr_loop_spec cs : ∀ s d ks, rhr (ua s) = cs → Forall (λ c, 0 ≤ c < 256) cs → CI s d → UP s →
  wp (uartintr_loop idle (length cs)) (λ _ w', ∃ s' ks', let '(d', out, woken) := ed_keys cs d in
    w' = World [] (ks ++ ks') s' ∧ rhr (ua s') = [] ∧ CI s' d' ∧ UP s' ∧ (woken = true → r_chan ∈ ks') ∧
    sent (ua s') = sent (ua s) ++ (pair false <$> out) ∧ queued (ua s') = queued (ua s)) (World [] ks s).
Proof.
  induction cs as [|c cs IH]; intros s d ks Hr Hcs HC HU; cbn [uartintr_loop length ed_keys]; apply wp_bind, wp_zoom, uartgetc_spec; rewrite Hr; cbn [held wakes st].
  - apply wp_ret. eexists _, []. rewrite app_nil_r. split; [reflexivity|]. split; [done|]. split; [by apply (CI_ext s)|].
    split; [apply UP_ext; [done| |done]; intros q []; by split|]. split; [done|]. split; [|done]. by rewrite app_nil_r.
  - apply Forall_cons in Hcs as [Hc Hcs]. rewrite (u8_small c) by done. rewrite (proj2 (Z.eqb_neq c (-1))) by lia.
    set (s1 := s <| ua := ((ua s) <| reads ::= S |> <| rhr := cs |>) |>). apply wp_bind.
    assert (HU1 : UP s1) by (apply UP_ext; [done| |done]; intros q []; by split).
    eapply wp_mono; [apply (consoleintr_spec c s1 d ks Hc); [by apply (CI_ext s)|done]|].
    destruct (ed_key c d) as [[d1 out1] woken1]. intros _ w1 (s2 & -> & HC2 & HU2 & [Hs2 Hq2 Hr2]).
    eapply wp_mono; [apply (IH s2 d1); [done|done|done|done]|]. destruct (ed_keys cs d1) as [[d2 out2] woken2].
    intros _ w2 (s3 & ks3 & -> & Hr3 & HC3 & HU3 & Hk3 & Hs3 & Hq3). eexists s3, ((if woken1 then [r_chan] else []) ++ ks3).
    rewrite app_assoc. split; [done|]. split; [done|]. split; [done|]. split; [done|]. split; [|split].
    + intros [-> | ->]%orb_true_iff; apply elem_of_app; [left; by left|right; auto].
    + rewrite Hs3, Hs2, fmap_app, app_assoc. done.
    + by rewrite Hq3, Hq2.
Qed.
Lemma uartintr_spec cs s d : rhr (ua s) = cs → Forall (λ c, 0 ≤ c < 256) cs → CI s d → UP s →
  wp (uartintr idle) (λ _ w', ∃ s' ks l, let '(d', out, woken) := ed_keys cs d in
    w' = World [] ks s' ∧ rhr (ua s') = [] ∧ CI s' d' ∧ UP s' ∧ (woken = true → r_chan ∈ ks) ∧
    sent (ua s') = sent (ua s) ++ (pair false <$> out) ++ (pair true <$> l)) (World [] [] s).
Proof.
  intros Hr Hcs HC HU. unfold uartintr. apply wp_bind, wp_gets. cbn [st]. rewrite Hr. apply wp_bind.
  eapply wp_mono; [by apply (uartintr_loop_spec cs s d)|]. destruct (ed_keys cs d) as [[d' out] woken].
  intros _ w1 (s1 & ks1 & -> & Hr1 & HC1 & [[q HU1] Hp1] & Hk1 & Hs1 & Hq1). apply wp_zoom. unfold uartintr_send.
  apply wp_bind, wp_acquire; [apply not_elem_of_nil|]. apply wp_bind. eapply wp_mono; [apply uartstart_spec, HU1|].
  intros _ w2 (u2 & l & q2 & -> & -> & HU2 & [Hs2 Hq2 Hr2 Hp2] & _). apply wp_release; [apply not_elem_of_nil|]. cbn [held wakes st].
  eexists _, _, l. split; [reflexivity|]. split; [by cbn; rewrite Hr2|]. split; [by apply (CI_ext s1)|].
  split; [split; [by exists q2|cbn; congruence]|]. split; [intros Hw; apply elem_of_app; left; cbn; auto|]. cbn. by rewrite Hs2, Hs1, <- app_assoc.
Qed.
End specs.

(** A key that makes input ready wakes the readers. *)
Lemma ed_key_woken c d d' out woken : ed_key c d = (d', out, woken) → ready d' ≠ ready d → woken = true.
Proof. unfold ed_key. repeat case_match; intros [= <- <- <-]; cbn; done. Qed.
Lemma ed_keys_woken cs : ∀ d d' out woken, ed_keys cs d = (d', out, woken) → ready d' ≠ ready d → woken = true.
Proof.
  induction cs as [|c cs IH]; cbn; intros d d' out woken; [by intros [= <- <- <-]|].
  destruct (ed_key c d) as [[d1 o1] k1] eqn:E1. destruct (ed_keys cs d1) as [[d2 o2] k2] eqn:E2. intros [= <- <- <-] H.
  apply orb_true_iff. destruct (decide (ready d1 = ready d)) as [E|E]; [right; eapply IH; [done|congruence]|left; by eapply ed_key_woken].
Qed.
(** Text without editing keys is appended to the line. *)
Definition plain (c : Z) : Prop := 0 < c < 256 ∧ c ∉ [CTRL_P; CTRL_U; CTRL_H; CTRL_D; DELETE; CR; NL].
Lemma ed_key_plain c d : plain c → Z.of_nat (length (ready d ++ line d)) + 1 < INPUT_BUF_SIZE → ed_key c d = (mkEd (ready d) (line d ++ [c]), [c], false).
Proof.
  intros [Hc Hn] Hl. rewrite !not_elem_of_cons in Hn. destruct Hn as (H1 & H2 & H3 & H4 & H5 & H6 & H7 & _). unfold ed_key, INPUT_BUF_SIZE in *.
  repeat rewrite (proj2 (Z.eqb_neq c _)) by (done || lia). cbn [orb negb andb]. rewrite (proj2 (Z.ltb_lt _ _)) by lia.
  rewrite app_assoc, (length_app (ready d ++ line d)). cbn [length]. rewrite (proj2 (Z.eqb_neq (Z.of_nat _) _)) by lia. done.
Qed.
Lemma ed_keys_line text : ∀ q l, Forall plain text → Z.of_nat (length (q ++ l ++ text)) < INPUT_BUF_SIZE →
  ed_keys (text ++ [CR]) (mkEd q l) = (mkEd (q ++ l ++ text ++ [NL]) [], text ++ [NL], true).
Proof.
  induction text as [|c text IH]; intros q l Hp Hl; cbn [app ed_keys].
  - rewrite app_nil_r in Hl. unfold ed_key. cbn [ready line]. change (CR =? CR) with true. cbn -[INPUT_BUF_SIZE length Z.of_nat app].
    rewrite (proj2 (Z.ltb_lt _ _)) by done. done.
  - apply Forall_cons in Hp as [Hc Hp]. rewrite !length_app in Hl. cbn [length] in Hl. rewrite ed_key_plain by (done || (cbn [ready line]; rewrite length_app; lia)).
    cbn [ready line]. rewrite IH; [|done|rewrite !length_app; cbn; lia]. by rewrite <- !app_assoc.
Qed.
Lemma ed_read_sleep killed copyout target m k : ∀ n q bs q', ed_read killed copyout k target n q = (bs, q', RSleep m) → q' = [].
Proof.
  induction k as [|k IH]; intros n q bs q'; cbn [ed_read]; repeat case_match; try done; intros [= <- <- E]; [done|]. subst. by eapply IH.
Qed.
Lemma ed_read_line copyout text : ∀ k target n q, Forall plain text → Z.of_nat (length text) < n → n ≤ Z.of_nat k →
  (∀ i c, (text ++ [NL]) !! i = Some c → copyout (target - n + Z.of_nat i) c = true) →
  ed_read false copyout k target n (text ++ NL :: q) = (text ++ [NL], q, RReturn (target - n + Z.of_nat (length text) + 1)).
Proof.
  induction text as [|c text IH]; intros [|k] target n q Hp Hn Hk Hcp; cbn [length] in *; try lia; cbn [ed_read app]; rewrite (proj2 (Z.ltb_lt 0 n)) by lia; cbn [negb].
  - specialize (Hcp 0%nat NL eq_refl). rewrite Z.add_0_r in Hcp. rewrite Hcp. change (NL =? CTRL_D) with false. change (NL =? NL) with true. cbn [negb]. do 2 f_equal. cbn. lia.
  - apply Forall_cons in Hp as [[Hc Hnin] Hp]. rewrite !not_elem_of_cons in Hnin. destruct Hnin as (_ & _ & _ & H4 & _ & _ & H7 & _).
    rewrite !(proj2 (Z.eqb_neq c _)) by done. pose proof (Hcp 0%nat c eq_refl) as Hc0. rewrite Z.add_0_r in Hc0. rewrite Hc0. cbn [negb].
    rewrite (IH k target (n - 1) q Hp); [do 2 f_equal; lia|lia|lia|]. intros i x Hx. rewrite <- (Hcp (S i) x Hx). f_equal. lia.
Qed.

(** The console after consoleinit. *)
Definition boot_console (b : list Z) (u : uart) : console := mkConsole (mkCons b 0 0 0) u 0.
Lemma boot_CI b u : length b = Z.to_nat INPUT_BUF_SIZE → CI (boot_console b u) (mkEd [] []).
Proof. intros Hb. split; try done. apply not_elem_of_nil. Qed.

(** C20: the console implements the line editor. Whatever bytes arrive, one UART
    interrupt leaves the console in the state the editor reaches on those keys,
    with the editor's echo on the wire ahead of pending output, and wakes the
    readers when it makes input ready; and a section of consoleread takes
    exactly what the editor's read takes and ends as it does: at a newline, at
    an end-of-file mark (kept for the next call when bytes were read before),
    at a fault of the buffer, or asleep only when nothing is ready. The 32-bit
    indices may wrap. *)
Theorem console_refines idle s d : idle_again idle → CI s d → UP s →
  (∀ cs, rhr (ua s) = cs → Forall (λ c, 0 ≤ c < 256) cs →
    wp (uartintr idle) (λ _ w', ∃ s' ks l, let '(d', out, _) := ed_keys cs d in
      w' = World [] ks s' ∧ rhr (ua s') = [] ∧ CI s' d' ∧ UP s' ∧ (ready d' ≠ ready d → r_chan ∈ ks) ∧
      sent (ua s') = sent (ua s) ++ (pair false <$> out) ++ (pair true <$> l)) (World [] [] s)) ∧
  (∀ killed copyout target n,
    wp (consoleread killed copyout target n) (λ x w', ∃ s' q' bs, ed_read killed copyout (Z.to_nat n) target n (ready d) = (bs, q', x) ∧
      w' = World [] [] s' ∧ CI s' (mkEd q' (line d)) ∧ UP s' ∧ (∀ m, x = RSleep m → q' = [])) (World [] [] s)).
Proof.
  intros Hi HC HU. split.
  - intros cs Hr Hcs. eapply wp_mono; [by apply (uartintr_spec idle Hi cs s d)|]. destruct (ed_keys cs d) as [[d' out] woken] eqn:E.
    intros _ w' (s' & ks & l & -> & Hr' & HC' & HU' & Hk & Hs). exists s', ks, l. split_and!; try done. intros H. by eapply Hk, ed_keys_woken.
  - intros killed copyout target n. destruct d as [q l]. apply wp_bind, wp_acquire; [apply not_elem_of_nil|].
    eapply wp_mono; [apply (read_loop_spec killed copyout target _ n s q l []); [lia|done|done]|].
    intros x w' (s' & q' & bs & E & -> & HC' & Eu). exists s', q', bs. split; [done|]. split; [done|]. split; [done|]. split; [by unfold UP; rewrite Eu|].
    intros m ->. cbn [ready] in E. by eapply ed_read_sleep.
Qed.
Definition demo_uart (keys : list Z) : uart := mkUart (repeat 0 32) 0 0 false keys 0 [] [] [] false.
Definition demo_console (keys : list Z) : console := boot_console (repeat 0 128) (demo_uart keys).
Lemma demo_UP keys : UP (demo_console keys).
Proof. split; [|done]. exists []. by split. Qed.
Lemma demo_again : idle_again (λ _, true).
Proof. intros n. exists n. split; [lia|]. split; [lia|done]. Qed.
Lemma console_refines_witness :
  (∀ cs, rhr (ua (demo_console [104; 105; 8; 13])) = cs → Forall (λ c, 0 ≤ c < 256) cs →
    wp (uartintr (λ _, true)) (λ _ w', ∃ s' ks l, let '(d', out, _) := ed_keys cs (mkEd [] []) in
      w' = World [] ks s' ∧ rhr (ua s') = [] ∧ CI s' d' ∧ UP s' ∧ (ready d' ≠ [] → r_chan ∈ ks) ∧
      sent (ua s') = [] ++ (pair false <$> out) ++ (pair true <$> l)) (World [] [] (demo_console [104; 105; 8; 13]))) ∧
  (∀ killed copyout target n,
    wp (consoleread killed copyout target n) (λ x w', ∃ s' q' bs, ed_read killed copyout (Z.to_nat n) target n [] = (bs, q', x) ∧
      w' = World [] [] s' ∧ CI s' (mkEd q' []) ∧ UP s' ∧ (∀ m, x = RSleep m → q' = [])) (World [] [] (demo_console [104; 105; 8; 13]))).
Proof. exact (console_refines (λ _, true) (demo_console [104; 105; 8; 13]) (mkEd [] []) demo_again (boot_CI (repeat 0 128) _ eq_refl) (demo_UP _)). Defined.
(** What is typed is what is read. On an empty console, a line of at most
    127 plain characters and a carriage return are echoed in full and leave one
    line that a read of enough bytes returns: it returns the length with the
    newline, although its buffer accepts only the bytes typed, in order. *)
Theorem typed_line_read idle s text target : idle_again idle → CI s (mkEd [] []) → UP s → Forall plain text →
  Z.of_nat (length text) < INPUT_BUF_SIZE → Z.of_nat (length text) < target → rhr (ua s) = text ++ [CR] →
  wp (uartintr idle;; consoleread false (λ i c, bool_decide ((text ++ [NL]) !! Z.to_nat i = Some c)) target target)
    (λ x w', x = RReturn (Z.of_nat (length text) + 1) ∧ CI (st w') (mkEd [] []) ∧ UP (st w') ∧
      ∃ l, sent (ua (st w')) = sent (ua s) ++ (pair false <$> text ++ [NL]) ++ (pair true <$> l)) (World [] [] s).
Proof.
  intros Hi HC HU Hp Hl Ht Hr. apply wp_bind. eapply wp_mono; [apply (uartintr_spec idle Hi (text ++ [CR]) s (mkEd [] []) Hr); [|done|done]|].
  { apply Forall_app. split; [|by apply Forall_singleton]. eapply Forall_impl; [exact Hp|]. intros c [Hc _]. lia. }
  rewrite (ed_keys_line text [] [] Hp) by done. intros _ w' (s' & ks & l & -> & Hr' & HC' & HU' & _ & Hs). cbn [app] in HC'.
  apply wp_bind, wp_acquire; [apply not_elem_of_nil|].
  eapply wp_mono; [apply (read_loop_spec false _ target _ target s' (text ++ [NL]) [] ks); [lia|done|done]|].
  intros x w' (s2 & q' & bs & E & -> & HC2 & Eu). rewrite ed_read_line in E; [|done|done|lia|].
  - injection E as <- <- <-. cbn [st]. rewrite Eu. split; [f_equal; lia|]. split; [done|]. split; [by unfold UP; rewrite Eu|]. by exists l.
  - intros i c Hc. apply bool_decide_eq_true_2. by replace (Z.to_nat (target - target + Z.of_nat i)) with i by lia.
Qed.
Lemma typed_line_read_witness :
  wp (uartintr (λ _, true);; consoleread false (λ i c, bool_decide (([104; 105] ++ [NL]) !! Z.to_nat i = Some c)) 10 10)
    (λ x w', x = RReturn 3 ∧ CI (st w') (mkEd [] []) ∧ UP (st w') ∧
      ∃ l, sent (ua (st w')) = [] ++ (pair false <$> [104; 105] ++ [NL]) ++ (pair true <$> l)) (World [] [] (demo_console [104; 105; CR])).
Proof.
  apply (typed_line_read (λ _, true) (demo_console [104; 105; CR]) [104; 105] 10 demo_again (boot_CI (repeat 0 128) _ eq_refl) (demo_UP _)).
  - assert (H : ∀ c, c = 104 ∨ c = 105 → plain c).
    { intros c Hc. split; [lia|]. unfold ctrl. rewrite !not_elem_of_cons. repeat split; try lia. apply not_elem_of_nil. }
    constructor; [apply H; by left|]. constructor; [apply H; by right|constructor].
  - done.
  - done.
  - done.
Defined.
End Console.
