(* ===== verification/Fs.v ===== *)
(** * File system: kernel/fs.c

    Blocks, inodes, directories and paths over the log and the buffer cache.
    Kernel variables that the code addresses (a [struct dirent] on the stack,
    path names) live in [km]; user memory is [um], with [umap] telling which
    pages the user may access (what copyin and copyout do page by page is proved
    in VmCopy.v). A pointer to an inode is its index in [itable]. *)
From S2P Require Import Prelude Param CString Mem Bio Log.

Module Fs.
(** ** kernel/fs.h *)
Definition ROOTINO : Z := 1.
Definition FSMAGIC : Z := 0x10203040.
Definition NDIRECT : Z := 12.
Definition NINDIRECT : Z := BSIZE / 4.
Definition MAXFILE : Z := NDIRECT + NINDIRECT.
Definition IPB : Z := BSIZE / 64.
Definition BPB : Z := BSIZE * 8.
Definition DIRSIZ : Z := 14.
Definition T_DIR : Z := 1.
Definition T_FILE : Z := 2.
Definition T_DEVICE : Z := 3.
(** [sizeof(struct dirent)]: inum at 0, name at 2. *)
Definition DIRENT : Z := 16.

Record superblock := mkSb { magic : Z; sbsize : Z; nblocks : Z; ninodes : Z; nlog : Z; logstart : Z; inodestart : Z; bmapstart : Z }.
Record inode := mkInode {
  idev : Z; inum : Z; iref : Z; iowner : option Z; ivalid : bool;
  itype : Z; imajor : Z; iminor : Z; inlink : Z; isize : Z; iaddrs : list Z }.
Definition inode0 : inode := mkInode 0 0 0 None false 0 0 0 0 0 (repeat 0 13).
#[export] Instance eta_inode : Settable inode := λ i,
  mkInode (idev i) (inum i) (iref i) (iowner i) (ivalid i) (itype i) (imajor i) (iminor i) (inlink i) (isize i) (iaddrs i).
Record fsys := mkFs { ls : lsys; itable : list inode; sb : superblock; cwd : nat; km : mem; um : mem; umap : Z → bool }.
#[export] Instance eta_fsys : Settable fsys := λ s,
  mkFs (ls s) (itable s) (sb s) (cwd s) (km s) (um s) (umap s).
Definition IBLOCK (i : Z) (b : superblock) : Z := i / IPB + inodestart b.
Definition BBLOCK (b : Z) (s : superblock) : Z := b / BPB + bmapstart s.

Definition logged {A} (m : M lsys A) : M fsys A := zoom ls (λ l s, s <| ls := l |>) m.
Definition bread (d n : Z) : M fsys nat := logged (lift (Bio.bread d n)).
Definition brelse (b : nat) : M fsys unit := logged (lift (Bio.brelse b)).
Definition log_write (b : nat) : M fsys unit := logged (Log.log_write b).
Definition bdata (b : nat) : M fsys mem := x ← logged (lift (getb b)); ret (data x).
Definition set_bdata (b : nat) (f : mem → mem) : M fsys unit := logged (set_data b f).
Definition geti (ip : nat) : M fsys inode := o ← gets (λ s, itable s !! ip); nonnull o.
Definition seti (ip : nat) (f : inode → inode) : M fsys unit :=
  i ← geti ip; modify (λ s, s <| itable ::= <[ip := f i]> |>).

(** ** Blocks *)
Definition readsb (d : Z) : M fsys unit :=
  bp ← bread d 1;
  m ← bdata bp;
  modify (λ s, s <| sb := mkSb (ld32 m 0) (ld32 m 4) (ld32 m 8) (ld32 m 12) (ld32 m 16) (ld32 m 20) (ld32 m 24) (ld32 m 28) |>);;
  brelse bp.
Definition fsinit (d : Z) : M fsys unit :=
  readsb d;;
  s ← gets sb;
  when (negb (magic s =? FSMAGIC)) (panic "invalid file system");;
  logged (initlog d (logstart s) (nlog s)).
Definition bzero (d bno : Z) : M fsys unit :=
  bp ← bread d bno;
  set_bdata bp (λ m, memset m 0 0 BSIZE);;
  log_write bp;;
  brelse bp.

(** [bp->data[bi/8] & (1 << (bi % 8))] *)
Definition bit_of (m : mem) (bi : Z) : Z := Z.land (rdb m (bi / 8)) (Z.shiftl 1 (bi mod 8)).
(** The first clear bit from [bi] on, below [BPB] and the end of the disk. *)
Fixpoint free_bit (k : nat) (m : mem) (size b bi : Z) : option Z :=
  match k with
  | O => None
  | S k =>
      if (bi <? BPB) && (b + bi <? size) then
        if bit_of m bi =? 0 then Some bi else free_bit k m size b (bi + 1)
      else None
  end.
Fixpoint balloc_loop (k : nat) (d b : Z) : M fsys Z :=
  match k with
  | O => timeout
  | S k =>
      s ← gets sb;
      if b <? sbsize s then
        bp ← bread d (BBLOCK b s);
        m ← bdata bp;
        match free_bit (Z.to_nat BPB) m (sbsize s) b 0 with
        | Some bi =>
            set_bdata bp (λ m, wrb m (bi / 8) (Z.lor (rdb m (bi / 8)) (Z.shiftl 1 (bi mod 8))));;
            log_write bp;;
            brelse bp;;
            bzero d (b + bi);;
            ret (b + bi)
        | None => brelse bp;; balloc_loop k d (b + BPB)
        end
      else ret 0
  end.
Definition balloc (d : Z) : M fsys Z :=
  s ← gets sb; balloc_loop (Z.to_nat (sbsize s / BPB + 2)) d 0.
Definition bfree (d b : Z) : M fsys unit :=
  s ← gets sb;
  bp ← bread d (BBLOCK b s);
  m ← bdata bp;
  let bi := b mod BPB in
  when (bit_of m bi =? 0) (panic "freeing free block");;
  set_bdata bp (λ m, wrb m (bi / 8) (Z.land (rdb m (bi / 8)) (Z.lnot (Z.shiftl 1 (bi mod 8)))));;
  log_write bp;;
  brelse bp.

(** ** Inodes *)
Definition itable_lock : lock := ("itable", 0%nat).
Definition iinit : M fsys unit := modify (λ s, s <| itable ::= fmap (λ i, i <| iowner := None |>) |>).

(** One pass over the table: an entry for the inode, and the first empty one. *)
Fixpoint iget_scan (l : list inode) (i : nat) (d n : Z) (empty : option nat) : option nat * option nat :=
  match l with
  | [] => (None, empty)
  | ip :: l =>
      if (iref ip >? 0) && (idev ip =? d) && (inum ip =? n) then (Some i, empty)
      else iget_scan l (S i) d n
             (match empty with None => if iref ip =? 0 then Some i else None | Some e => Some e end)
  end.
Definition iget (d n : Z) : M fsys nat :=
  acquire itable_lock;;
  t ← gets itable;
  match iget_scan t 0 d n None with
  | (Some ip, _) => seti ip (λ i, i <| iref ::= λ r, r + 1 |>);; release itable_lock;; ret ip
  | (None, None) => panic "iget: no inodes"
  | (None, Some ip) =>
      seti ip (λ i, i <| idev := d |> <| inum := n |> <| iref := 1 |> <| ivalid := false |>);;
      release itable_lock;; ret ip
  end.

(** The [struct dinode] at offset [o] of a block: type, major, minor and nlink
    are shorts at 0, 2, 4, 6; size is at 8 and the addresses from 12. *)
Definition get_addrs (m : mem) (o : Z) : list Z := (λ i, ld32 m (o + 12 + 4 * Z.of_nat i)) <$> seq 0 13.
Definition put_addrs (m : mem) (o : Z) (l : list Z) : mem :=
  foldl (λ m '(i, a), st32 m (o + 12 + 4 * Z.of_nat i) a) m (imap pair l).
Definition get_dinode (m : mem) (o : Z) (i : inode) : inode :=
  i <| itype := i16 (ld16 m o) |> <| imajor := i16 (ld16 m (o + 2)) |> <| iminor := i16 (ld16 m (o + 4)) |>
    <| inlink := i16 (ld16 m (o + 6)) |> <| isize := ld32 m (o + 8) |> <| iaddrs := get_addrs m o |>.
Definition put_dinode (m : mem) (o : Z) (i : inode) : mem :=
  put_addrs (st32 (st16 (st16 (st16 (st16 m o (itype i)) (o + 2) (imajor i)) (o + 4) (iminor i)) (o + 6) (inlink i)) (o + 8) (isize i)) o (iaddrs i).
Definition dinode_at (n : Z) : Z := 64 * (n mod IPB).

Fixpoint ialloc_loop (k : nat) (d type n : Z) : M fsys (option nat) :=
  match k with
  | O => timeout
  | S k =>
      s ← gets sb;
      if n <? ninodes s then
        bp ← bread d (IBLOCK n s);
        m ← bdata bp;
        if ld16 m (dinode_at n) =? 0 then
          set_bdata bp (λ m, st16 (memset m (dinode_at n) 0 64) (dinode_at n) type);;
          log_write bp;;
          brelse bp;;
          ip ← iget d n;
          ret (Some ip)
        else brelse bp;; ialloc_loop k d type (n + 1)
      else ret None
  end.
Definition ialloc (d type : Z) : M fsys (option nat) :=
  s ← gets sb; ialloc_loop (Z.to_nat (ninodes s + 1)) d type 1.
Definition iupdate (ip : nat) : M fsys unit :=
  i ← geti ip; s ← gets sb;
  bp ← bread (idev i) (IBLOCK (inum i) s);
  set_bdata bp (λ m, put_dinode m (dinode_at (inum i)) i);;
  log_write bp;;
  brelse bp.
Definition idup (ip : nat) : M fsys nat :=
  acquire itable_lock;; seti ip (λ i, i <| iref ::= λ r, r + 1 |>);; release itable_lock;; ret ip.

Definition my_pid : M fsys Z := gets (λ s, me (bs (ls s))).
Definition iacquiresleep (ip : nat) : M fsys unit :=
  i ← geti ip;
  match iowner i with
  | Some _ => blocked ("inode", ip)
  | None => pid ← my_pid; seti ip (λ i, i <| iowner := Some pid |>)
  end.
Definition ireleasesleep (ip : nat) : M fsys unit :=
  seti ip (λ i, i <| iowner := None |>);; notify ("inode", ip).
Definition ilock (ip : nat) : M fsys unit :=
  i ← geti ip;
  when (iref i <? 1) (panic "ilock");;
  iacquiresleep ip;;
  i ← geti ip;
  when (negb (ivalid i))
    (s ← gets sb;
     bp ← bread (idev i) (IBLOCK (inum i) s);
     m ← bdata bp;
     seti ip (get_dinode m (dinode_at (inum i)));;
     brelse bp;;
     seti ip (λ i, i <| ivalid := true |>);;
     i ← geti ip;
     when (itype i =? 0) (panic "ilock: no type")).
Definition iunlock (ip : nat) : M fsys unit :=
  i ← geti ip; pid ← my_pid;
  when (negb (bool_decide (iowner i = Some pid)) || (iref i <? 1)) (panic "iunlock");;
  ireleasesleep ip.

(** ** Inode contents *)
(** [ip->addrs[n]], within the array. *)
Definition get_addr (ip : nat) (n : Z) : M fsys Z := i ← geti ip; nonnull (iaddrs i !! Z.to_nat n).
Definition set_addr (ip : nat) (n a : Z) : M fsys unit := seti ip (λ i, i <| iaddrs ::= <[Z.to_nat n := a]> |>).
(** [ip->addrs[n]], allocated if it is 0. *)
Definition bmap_slot (ip : nat) (n : Z) : M fsys Z :=
  addr ← get_addr ip n;
  if addr =? 0 then
    i ← geti ip;
    addr ← balloc (idev i);
    if addr =? 0 then ret 0 else set_addr ip n addr;; ret addr
  else ret addr.
(** Entry [bn] of the indirect block [addr], allocated if it is 0. *)
Definition bmap_entry (ip : nat) (addr bn : Z) : M fsys Z :=
  i ← geti ip;
  bp ← bread (idev i) addr;
  m ← bdata bp;
  let addr := ld32 m (4 * bn) in
  addr ← (if addr =? 0 then
            addr ← balloc (idev i);
            when (negb (addr =? 0)) (set_bdata bp (λ m, st32 m (4 * bn) addr);; log_write bp);;
            ret addr
          else ret addr);
  brelse bp;;
  ret addr.
Definition bmap (ip : nat) (bn : Z) : M fsys Z :=
  if bn <? NDIRECT then bmap_slot ip bn
  else
    let bn := bn - NDIRECT in
    if bn <? NINDIRECT then
      addr ← bmap_slot ip NDIRECT;
      if addr =? 0 then ret 0 else bmap_entry ip addr bn
    else panic "bmap: out of range".

Fixpoint itrunc_direct (k : nat) (ip : nat) (i : Z) : M fsys unit :=
  match k with
  | O => ret ()
  | S k =>
      a ← get_addr ip i;
      when (negb (a =? 0)) (x ← geti ip; bfree (idev x) a;; set_addr ip i 0);;
      itrunc_direct k ip (i + 1)
  end.
Fixpoint itrunc_indirect (k : nat) (d : Z) (bp : nat) (j : Z) : M fsys unit :=
  match k with
  | O => ret ()
  | S k =>
      m ← bdata bp;
      when (negb (ld32 m (4 * j) =? 0)) (bfree d (ld32 m (4 * j)));;
      itrunc_indirect k d bp (j + 1)
  end.
Definition itrunc (ip : nat) : M fsys unit :=
  itrunc_direct (Z.to_nat NDIRECT) ip 0;;
  a ← get_addr ip NDIRECT;
  when (negb (a =? 0))
    (i ← geti ip;
     bp ← bread (idev i) a;
     itrunc_indirect (Z.to_nat NINDIRECT) (idev i) bp 0;;
     brelse bp;;
     bfree (idev i) a;;
     set_addr ip NDIRECT 0);;
  seti ip (λ i, i <| isize := 0 |>);;
  iupdate ip.
Definition iput (ip : nat) : M fsys unit :=
  acquire itable_lock;;
  i ← geti ip;
  when ((iref i =? 1) && ivalid i && (inlink i =? 0))
    (iacquiresleep ip;;
     release itable_lock;;
     itrunc ip;;
     seti ip (λ i, i <| itype := 0 |>);;
     iupdate ip;;
     seti ip (λ i, i <| ivalid := false |>);;
     ireleasesleep ip;;
     acquire itable_lock);;
  seti ip (λ i, i <| iref ::= λ r, r - 1 |>);;
  release itable_lock.
Definition iunlockput (ip : nat) : M fsys unit := iunlock ip;; iput ip.

(** dev, ino, type, nlink, size *)
Record stat := mkStat { st_dev : Z; st_ino : Z; st_type : Z; st_nlink : Z; st_size : Z }.
Definition stati (ip : nat) : M fsys stat :=
  i ← geti ip; ret (mkStat (idev i) (inum i) (itype i) (inlink i) (isize i)).

(** ** Transfers to and from a buffer *)
Fixpoint copy_bytes (n : nat) (dst : mem) (d : Z) (src : mem) (s : Z) : mem :=
  match n with
  | O => dst
  | S n => copy_bytes n (wrb dst d (rdb src s)) (d + 1) src (s + 1)
  end.
(** The bytes before the first page the user may not access, and whether that is all. *)
Fixpoint copy_mapped (n : nat) (um : Z → bool) (at_ : Z) (dst : mem) (d : Z) (src : mem) (s : Z) : mem * Z :=
  match n with
  | O => (dst, 0)
  | S n =>
      if um (PGROUNDDOWN at_)
      then copy_mapped n um (at_ + 1) (wrb dst d (rdb src s)) (d + 1) src (s + 1) else (dst, -1)
  end.
Definition either_copyout (user_dst : bool) (dst : Z) (src : mem) (s len : Z) : M fsys Z :=
  if user_dst then
    x ← gets (λ x, copy_mapped (Z.to_nat len) (umap x) dst (um x) dst src s);
    modify (λ s, s <| um := x.1 |>);; ret x.2
  else modify (λ x, x <| km := copy_bytes (Z.to_nat len) (km x) dst src s |>);; ret 0.
Definition either_copyin (bp : nat) (d : Z) (user_src : bool) (src len : Z) : M fsys Z :=
  m ← bdata bp;
  x ← gets (λ x, if user_src then copy_mapped (Z.to_nat len) (umap x) src m d (um x) src
                 else (copy_bytes (Z.to_nat len) m d (km x) src, 0));
  set_bdata bp (λ _, x.1);; ret x.2.

Definition min (a b : Z) : Z := if a <? b then a else b.
(** [tot], [off] and [dst] of readi's loop. *)
Fixpoint readi_loop (k : nat) (ip : nat) (user_dst : bool) (n tot off dst : Z) : M fsys Z :=
  if tot <? n then
    match k with
    | O => timeout
    | S k =>
        addr ← bmap ip (off / BSIZE);
        if addr =? 0 then ret tot
        else
          i ← geti ip;
          bp ← bread (idev i) addr;
          let m := min (n - tot) (BSIZE - off mod BSIZE) in
          b ← bdata bp;
          r ← either_copyout user_dst dst b (off mod BSIZE) m;
          if r =? -1 then brelse bp;; ret (-1)
          else brelse bp;; readi_loop k ip user_dst n (tot + m) (off + m) (dst + m)
    end
  else ret tot.
Definition readi (ip : nat) (user_dst : bool) (dst off n : Z) : M fsys Z :=
  i ← geti ip;
  if (off >? isize i) || (u32 (off + n) <? off) then ret 0
  else
    let n := if u32 (off + n) >? isize i then isize i - off else n in
    readi_loop (Z.to_nat (n / BSIZE + 2)) ip user_dst n 0 off dst.

(** Ends with [tot] and [off]. *)
Fixpoint writei_loop (k : nat) (ip : nat) (user_src : bool) (n tot off src : Z) : M fsys (Z * Z) :=
  if tot <? n then
    match k with
    | O => timeout
    | S k =>
        addr ← bmap ip (off / BSIZE);
        if addr =? 0 then ret (tot, off)
        else
          i ← geti ip;
          bp ← bread (idev i) addr;
          let m := min (n - tot) (BSIZE - off mod BSIZE) in
          r ← either_copyin bp (off mod BSIZE) user_src src m;
          if r =? -1 then brelse bp;; ret (tot, off)
          else log_write bp;; brelse bp;; writei_loop k ip user_src n (tot + m) (off + m) (src + m)
    end
  else ret (tot, off).
Definition writei (ip : nat) (user_src : bool) (src off n : Z) : M fsys Z :=
  i ← geti ip;
  if (off >? isize i) || (u32 (off + n) <? off) then ret (-1)
  else if u32 (off + n) >? MAXFILE * BSIZE then ret (-1)
  else
    '(tot, off) ← writei_loop (Z.to_nat (n / BSIZE + 2)) ip user_src n 0 off src;
    i ← geti ip;
    when (off >? isize i) (seti ip (λ i, i <| isize := off |>));;
    iupdate ip;;
    ret tot.

(** ** Directories *)
Definition namecmp (m : mem) (s t : Z) : Z := strncmp m s t DIRSIZ.
(** Where the [struct dirent] of dirlookup and dirlink is. *)
Definition DE : Z := 0.
(** The inode and the offset of its entry ([*poff]). *)
Fixpoint dirlookup_loop (k : nat) (dp : nat) (name off : Z) : M fsys (option (nat * Z)) :=
  match k with
  | O => timeout
  | S k =>
      d ← geti dp;
      if off <? isize d then
        r ← readi dp false DE off DIRENT;
        when (negb (r =? DIRENT)) (panic "dirlookup read");;
        m ← gets km;
        if ld16 m DE =? 0 then dirlookup_loop k dp name (off + DIRENT)
        else if namecmp m name (DE + 2) =? 0 then ip ← iget (idev d) (ld16 m DE); ret (Some (ip, off))
        else dirlookup_loop k dp name (off + DIRENT)
      else ret None
  end.
Definition dirlookup (dp : nat) (name : Z) : M fsys (option (nat * Z)) :=
  d ← geti dp;
  when (negb (itype d =? T_DIR)) (panic "dirlookup not DIR");;
  dirlookup_loop (Z.to_nat (isize d / DIRENT + 2)) dp name 0.
(** The offset of the first empty entry, or the end of the directory. *)
Fixpoint dirlink_loop (k : nat) (dp : nat) (off : Z) : M fsys Z :=
  match k with
  | O => timeout
  | S k =>
      d ← geti dp;
      if off <? isize d then
        r ← readi dp false DE off DIRENT;
        when (negb (r =? DIRENT)) (panic "dirlink read");;
        m ← gets km;
        if ld16 m DE =? 0 then ret off else dirlink_loop k dp (off + DIRENT)
      else ret off
  end.
Definition dirlink (dp : nat) (name n : Z) : M fsys Z :=
  x ← dirlookup dp name;
  match x with
  | Some (ip, _) => iput ip;; ret (-1)
  | None =>
      d ← geti dp;
      off ← dirlink_loop (Z.to_nat (isize d / DIRENT + 2)) dp 0;
      modify (λ s, s <| km ::= λ m, st16 (strncpy m (DE + 2) name DIRSIZ) DE n |>);;
      r ← writei dp false DE off DIRENT;
      if negb (r =? DIRENT) then ret (-1) else ret 0
  end.

(** ** Paths *)
Definition SLASH : Z := 47.
(** The loops of skipelem: past the slashes, and past the name. *)
Definition skip_slashes (path : Z) : M fsys Z :=
  loopM 64 (λ p, c ← gets (λ s, rdb (km s) p); if c =? SLASH then continue (p + 1) else break p) path.
Definition skip_name (path : Z) : M fsys Z :=
  loopM 64 (λ p, c ← gets (λ s, rdb (km s) p);
    if negb (c =? SLASH) && negb (c =? 0) then continue (p + 1) else break p) path.
Definition skipelem (path name : Z) : M fsys (option Z) :=
  path ← skip_slashes path;
  c ← gets (λ s, rdb (km s) path);
  if c =? 0 then ret None
  else
    let s := path in
    path ← skip_name path;
    let len := path - s in
    (if len >=? DIRSIZ then modify (λ x, x <| km ::= λ m, memmove m name s DIRSIZ |>)
     else modify (λ x, x <| km ::= λ m, wrb (memmove m name s len) (name + len) 0 |>));;
    path ← skip_slashes path;
    ret (Some path).

Definition namex (path : Z) (nameiparent : bool) (name : Z) : M fsys (option nat) :=
  c ← gets (λ s, rdb (km s) path);
  ip ← (if c =? SLASH then iget ROOTDEV ROOTINO else d ← gets cwd; idup d);
  loopM 64 (λ '(path, ip),
    x ← skipelem path name;
    match x with
    | None => if nameiparent : bool then iput ip;; break None else break (Some ip)
    | Some path =>
        ilock ip;;
        i ← geti ip;
        if negb (itype i =? T_DIR) then iunlockput ip;; break None
        else
          c ← gets (λ s, rdb (km s) path);
          if nameiparent && (c =? 0) then iunlock ip;; break (Some ip)
          else
            x ← dirlookup ip name;
            match x with
            | None => iunlockput ip;; break None
            | Some (next, _) => iunlockput ip;; continue (path, next)
            end
    end) (path, ip).
(** [char name[DIRSIZ]] of namei. *)
Definition NAME : Z := 16.
Definition namei (path : Z) : M fsys (option nat) := namex path false NAME.
Definition nameiparent (path name : Z) : M fsys (option nat) := namex path true name.
End Fs.
