(* ===== verification/FsPath.v ===== *)
(** * Path names: skipelem and the path's components (kernel/fs.c) *)
From S2P Require Import Prelude Param CString Mem Bio Log Fs.

Module FsPath.
Import Fs.
(** The bytes of [l], none of them 0, and a 0 after them. *)
Fixpoint has_str (m : mem) (p : Z) (l : list Z) : Prop :=
  match l with
  | [] => rdb m p = 0
  | c :: l => rdb m p = c ∧ c ≠ 0 ∧ has_str m (p + 1) l
  end.
(** The components of a path: what is between slashes, if anything. *)
Fixpoint split (l : list Z) : list (list Z) :=
  match l with
  | [] => [[]]
  | c :: l => if c =? SLASH then [] :: split l
              else match split l with e :: es => (c :: e) :: es | [] => [[c]] end
  end.
Definition components (l : list Z) : list (list Z) := filter (λ e, e ≠ []) (split l).

Lemma has_str_app m l1 : ∀ p l2, has_str m p (l1 ++ l2) → has_str m (p + Z.of_nat (length l1)) l2.
Proof.
  induction l1 as [|c l1 IH]; intros p l2 H; cbn in *; [by rewrite Z.add_0_r|]. destruct H as (_ & _ & H).
  apply IH in H. by replace (p + Z.of_nat (S (length l1))) with (p + 1 + Z.of_nat (length l1)) by lia.
Qed.
Lemma has_str_ext m m' l : ∀ p, (∀ a, p ≤ a ≤ p + Z.of_nat (length l) → rdb m' a = rdb m a) → has_str m p l → has_str m' p l.
Proof.
  induction l as [|c l IH]; intros p Hext H; cbn [has_str length] in *; [rewrite Hext by lia; done|].
  destruct H as (H1 & H2 & H3). rewrite Hext by lia. split_and!; [done|done|]. apply IH; [|done]. intros a Ha. apply Hext. lia.
Qed.
Lemma has_str_cstr m l1 l2 : ∀ p n, has_str m p (l1 ++ l2) → (n ≤ length l1)%nat → cstr m p n = take n l1.
Proof.
  induction l1 as [|c l1 IH]; intros p [|n] H Hn; cbn in *; try done; [lia|]. destruct H as (H1 & H2 & H3).
  rewrite H1. destruct (Z.eqb_spec c 0); [done|]. f_equal. apply IH; [done|lia].
Qed.

(** ** The reference decomposition *)
Fixpoint span (f : Z → bool) (l : list Z) : list Z * list Z :=
  match l with
  | [] => ([], [])
  | c :: l' => if f c then let r := span f l' in (c :: r.1, r.2) else ([], l)
  end.
Lemma span_app f l : (span f l).1 ++ (span f l).2 = l.
Proof. induction l as [|c l IH]; [done|]. cbn. destruct (f c); cbn; [by rewrite IH|done]. Qed.
Lemma span_head f l c r : (span f l).2 = c :: r → f c = false.
Proof. induction l as [|x l IH]; cbn; [done|]. destruct (f x) eqn:E; cbn; [done|]. by intros [= <- _]. Qed.
Definition is_slash (c : Z) : bool := c =? SLASH.
Definition in_name (c : Z) : bool := negb (c =? SLASH) && negb (c =? 0).
Lemma components_slashes l : components (span is_slash l).2 = components l.
Proof.
  induction l as [|c l IH]; [done|]. cbn [span]. unfold is_slash at 1. destruct (c =? SLASH) eqn:E; [|done].
  cbn [snd]. rewrite IH. unfold components. cbn [split]. by rewrite E.
Qed.
Lemma split_name l : Forall (λ c, c ≠ 0) l →
  split l = match (span in_name l).2 with [] => [(span in_name l).1] | _ :: r => (span in_name l).1 :: split r end.
Proof.
  induction 1 as [|c l Hc Hl IH]; [done|]. cbn [split span]. destruct (Z.eqb_spec c SLASH) as [->|Hs]; [done|].
  assert (in_name c = true) as ->.
  { unfold in_name. apply Z.eqb_neq in Hs, Hc. by rewrite Hs, Hc. }
  cbn [fst snd]. rewrite IH. by destruct (span in_name l).2.
Qed.
(** A path is empty, or a name followed by the rest. *)
Lemma components_cons c l : Forall (λ c, c ≠ 0) (c :: l) → c ≠ SLASH →
  components (c :: l) = (span in_name (c :: l)).1 :: components (span is_slash (span in_name (c :: l)).2).2.
Proof.
  intros Hz Hc. rewrite components_slashes. unfold components at 1. rewrite split_name by done.
  assert (Hne : (span in_name (c :: l)).1 ≠ []).
  { apply Forall_cons in Hz as [Hz _]. cbn. unfold in_name at 1. destruct (Z.eqb_spec c SLASH); [done|]. by destruct (Z.eqb_spec c 0). }
  destruct (span in_name (c :: l)).2 as [|x r] eqn:E; [by rewrite filter_cons_True|]. rewrite filter_cons_True by done. f_equal.
  assert (x = SLASH) as ->.
  { pose proof (span_head _ _ _ _ E) as Hx. unfold in_name in Hx. rewrite <- (span_app in_name (c :: l)), E, Forall_app in Hz.
    destruct Hz as [_ [Hx0 _]%Forall_cons]. destruct (Z.eqb_spec x SLASH); [done|]. by destruct (Z.eqb_spec x 0). }
  done.
Qed.

(** ** The loops *)
Section loops.
Context {h : list lock} {k : list chan}.
Lemma scan_spec (f : Z → bool) (s : fsys) p l (Φ : Z → world fsys → Prop) : f 0 = false → has_str (km s) p l →
  Z.of_nat (length l) < 2 ^ 64 → Φ (p + Z.of_nat (length (span f l).1)) (World h k s) →
  wp (loopM 64 (λ p, c ← gets (λ s, rdb (km s) p); if f c then continue (p + 1) else break p) p) Φ (World h k s).
Proof.
  intros Hf0 Hs Hlen HΦ.
  apply (wp_loop _ (λ n q w, ∃ l', n = Z.of_nat (length l') ∧ w = World h k s ∧ has_str (km s) q l' ∧
    q + Z.of_nat (length (span f l').1) = p + Z.of_nat (length (span f l).1))) with (n := Z.of_nat (length l)).
  - intros n q w (l' & -> & _). lia.
  - intros n q w (l' & -> & -> & Hq & Hp). apply wp_bind, wp_gets. cbn [st]. destruct l' as [|c l']; cbn [has_str span] in *.
    + rewrite Hq, Hf0. apply wp_ret. cbn in Hp. rewrite Z.add_0_r in Hp. by rewrite Hp.
    + destruct Hq as (-> & _ & Hq). destruct (f c); apply wp_ret.
      * exists (Z.of_nat (length l')). split; [|cbn; lia]. exists l'. split_and!; try done. cbn in Hp. lia.
      * cbn in Hp. rewrite Z.add_0_r in Hp. by rewrite Hp.
  - by exists l.
  - exact Hlen.
Qed.
Lemma has_str_nonzero m l : ∀ p, has_str m p l → Forall (λ c, c ≠ 0) l.
Proof. induction l as [|c l IH]; intros p H; [constructor|]. destruct H as (_ & ? & ?). constructor; eauto. Qed.
Lemma span_length f l : (length (span f l).1 + length (span f l).2 = length l)%nat.
Proof. rewrite <- length_app. by rewrite span_app. Qed.
Lemma has_str_span f m p l : has_str m p l → has_str m (p + Z.of_nat (length (span f l).1)) (span f l).2.
Proof. intros H. apply has_str_app. by rewrite span_app. Qed.

(** What is left of path [l] after its first component, and where. *)
Definition rest (l : list Z) : list Z := (span is_slash (span in_name (span is_slash l).2).2).2.
Definition first (l : list Z) : list Z := (span in_name (span is_slash l).2).1.
(** [name] holds the first DIRSIZ bytes of [e]. *)
Definition named (m : mem) (name : Z) (e : list Z) : Prop := cstr m name (Z.to_nat DIRSIZ) = take (Z.to_nat DIRSIZ) e.
Definition store_name (m : mem) (name s len : Z) : mem :=
  if len >=? DIRSIZ then memmove m name s DIRSIZ else wrb (memmove m name s len) (name + len) 0.
Lemma store_name_out m name s len a : 0 ≤ len → ¬ name ≤ a < name + DIRSIZ → rdb (store_name m name s len) a = rdb m a.
Proof.
  intros Hl Ha. unfold store_name, DIRSIZ in *. rewrite Z.geb_leb. destruct (Z.leb_spec 14 len).
  - rewrite rdb_memmove by lia. within_cases.
  - rewrite rdb_wrb, decide_False, rdb_memmove by lia. within_cases.
Qed.
Lemma store_name_named m name s e r : has_str m s (e ++ r) → named (store_name m name s (Z.of_nat (length e))) name e.
Proof.
  intros Hs. unfold named, store_name, DIRSIZ. rewrite Z.geb_leb. destruct (Z.leb_spec 14 (Z.of_nat (length e))) as [Hl|Hl].
  - change (Z.to_nat 14) with 14%nat. rewrite <- (has_str_cstr m e r s 14 Hs) by lia.
    assert (Hc : ∀ n j, 0 ≤ j → j + Z.of_nat n ≤ 14 → cstr (memmove m name s 14) (name + j) n = cstr m (s + j) n).
    { induction n as [|n IH]; intros j Hj Hn; [done|]. cbn [cstr]. rewrite !rdb_memmove by lia.
      replace (name + j - name + s) with (s + j) by lia.
      replace (name + j + 1) with (name + (j + 1)) by lia. replace (s + j + 1) with (s + (j + 1)) by lia. rewrite IH by lia. within_cases. }
    specialize (Hc 14%nat 0). rewrite !Z.add_0_r in Hc. apply Hc; lia.
  - rewrite take_ge by lia. set (m' := wrb _ _ _).
    assert (Hc : ∀ e' j n, 0 ≤ j → j + Z.of_nat (length e') = Z.of_nat (length e) → has_str m (s + j) (e' ++ r) → (length e' < n)%nat → cstr m' (name + j) n = e').
    { induction e' as [|c e' IH]; intros j [|n] Hj Hlen Hs' Hn; cbn [length app has_str cstr] in *; try lia.
      - unfold m'. rewrite rdb_wrb, decide_True by lia. done.
      - destruct Hs' as (H1 & H2 & H3). unfold m' at 1 2. rewrite rdb_wrb, decide_False, rdb_memmove by lia.
        replace (name + j - name + s) with (s + j) by lia.
        assert (within name (Z.of_nat (length e)) (name + j) = true) as -> by (apply within_spec; lia). rewrite H1.
        destruct (Z.eqb_spec c 0); [done|]. f_equal. replace (name + j + 1) with (name + (j + 1)) by lia. apply IH; try lia.
        by replace (s + (j + 1)) with (s + j + 1) by lia. }
    specialize (Hc e 0 (Z.to_nat 14)). rewrite !Z.add_0_r in Hc. apply Hc; [lia|lia|done|lia].
Qed.
Lemma skipelem_spec (s : fsys) p name l (Φ : option Z → world fsys → Prop) : has_str (km s) p l → Z.of_nat (length l) < 2 ^ 64 →
  name + DIRSIZ ≤ p ∨ p + Z.of_nat (length l) < name →
  ((span is_slash l).2 = [] → Φ None (World h k s)) →
  (∀ m' p', (span is_slash l).2 ≠ [] → has_str m' p' (rest l) → named m' name (first l) →
     (∀ a, ¬ name ≤ a < name + DIRSIZ → rdb m' a = rdb (km s) a) → p' + Z.of_nat (length (rest l)) = p + Z.of_nat (length l) →
     Φ (Some p') (World h k (s <| km := m' |>))) →
  wp (skipelem p name) Φ (World h k s).
Proof.
  intros Hs Hlen Hd Hnone Hsome. unfold skipelem, skip_slashes, skip_name.
  apply wp_bind, (scan_spec is_slash s p l _ eq_refl Hs Hlen). set (p1 := p + _). set (l1 := (span is_slash l).2) in *.
  assert (H1 : has_str (km s) p1 l1) by (by apply has_str_span). pose proof (span_length is_slash l) as Hl1. fold l1 in Hl1.
  apply wp_bind, wp_gets. cbn [st]. destruct (Z.eqb_spec (rdb (km s) p1) 0) as [E|E].
  { apply wp_ret, Hnone. destruct l1 as [|c l1']; [done|]. destruct H1 as (? & ? & _). congruence. }
  assert (Hne : l1 ≠ []) by (destruct l1; [done|discriminate]).
  apply wp_bind, (scan_spec in_name s p1 l1 _ eq_refl H1); [lia|].
  set (e := (span in_name l1).1). set (l2 := (span in_name l1).2). pose proof (span_length in_name l1) as Hl2. fold e l2 in Hl2.
  replace (p1 + Z.of_nat (length e) - p1) with (Z.of_nat (length e)) by lia.
  set (m' := store_name (km s) name p1 (Z.of_nat (length e))).
  assert (Hout : ∀ a, ¬ name ≤ a < name + DIRSIZ → rdb m' a = rdb (km s) a) by (intros a Ha; apply store_name_out; [lia|done]).
  assert (Hnm : named m' name e) by (apply (store_name_named _ _ _ e l2); unfold e, l2; by rewrite span_app).
  assert (H2 : has_str m' (p1 + Z.of_nat (length e)) l2).
  { apply (has_str_ext (km s)); [|by apply has_str_span]. intros a Ha. apply Hout. lia. }
  apply wp_bind. apply (wp_mono _ (λ _ w', w' = World h k (s <| km := m' |>))).
  { unfold m', store_name. destruct (_ >=? _); apply wp_modify; by destruct s. }
  intros _ w' ->. assert (Ekm : km (s <| km := m' |>) = m') by reflexivity. rewrite <- Ekm in H2.
  apply wp_bind, (scan_spec is_slash (s <| km := m' |>) (p1 + Z.of_nat (length e)) l2 _ eq_refl H2); [lia|]. apply wp_ret.
  pose proof (span_length is_slash l2) as Hl3. apply (Hsome m'); [done|rewrite Ekm in H2; by apply (has_str_span is_slash) in H2|done|done|].
  unfold rest. fold l1 l2. lia.
Qed.
End loops.

Lemma span_forall f P l : Forall P l → Forall P (span f l).2.
Proof. intros H. rewrite <- (span_app f l), Forall_app in H. apply H. Qed.
Lemma components_step l : Forall (λ c, c ≠ 0) l → (span is_slash l).2 ≠ [] → components l = first l :: components (rest l).
Proof.
  intros Hz Hne. rewrite <- components_slashes. unfold first, rest. apply (span_forall is_slash) in Hz.
  destruct (span is_slash l).2 as [|c l1] eqn:E; [done|]. apply components_cons; [done|].
  apply span_head in E. unfold is_slash in E. by apply Z.eqb_neq.
Qed.
Lemma components_none l : (span is_slash l).2 = [] → components l = [].
Proof. intros E. by rewrite <- components_slashes, E. Qed.

(** C32: skipelem is the decomposition of a path into its components. On a path
    with no component left it returns null and changes nothing. Otherwise it
    stores the first component in [name], cut to DIRSIZ bytes, changes no other
    byte, and returns a pointer to the rest of the path, whose components are
    the remaining ones and which is empty exactly if there are none, as the
    caller's check for the last component needs. *)
Theorem skipelem_components (s : fsys) p name l h k : has_str (km s) p l → Z.of_nat (length l) < 2 ^ 64 →
  name + DIRSIZ ≤ p ∨ p + Z.of_nat (length l) < name →
  match components l with
  | [] => skipelem p name (World h k s) = Done None (World h k s)
  | e :: es => ∃ p' m' l', skipelem p name (World h k s) = Done (Some p') (World h k (s <| km := m' |>)) ∧
      has_str m' p' l' ∧ components l' = es ∧ (l' = [] ↔ es = []) ∧ p' + Z.of_nat (length l') = p + Z.of_nat (length l) ∧
      cstr m' name (Z.to_nat DIRSIZ) = take (Z.to_nat DIRSIZ) e ∧
      ∀ a, ¬ name ≤ a < name + DIRSIZ → rdb m' a = rdb (km s) a
  end.
Proof.
  intros Hs Hlen Hd. pose proof (has_str_nonzero _ _ _ Hs) as Hz. destruct (decide ((span is_slash l).2 = [])) as [E|E].
  - rewrite (components_none l E).
    assert (Hwp : wp (skipelem p name) (λ r w', r = None ∧ w' = World h k s) (World h k s)) by (by apply (skipelem_spec s p name l)).
    apply wp_done in Hwp as (r & w' & Hrun & -> & ->). done.
  - rewrite (components_step l Hz E).
    assert (Hwp : wp (skipelem p name) (λ r w', ∃ m' p', r = Some p' ∧ w' = World h k (s <| km := m' |>) ∧ has_str m' p' (rest l) ∧
      named m' name (first l) ∧ (∀ a, ¬ name ≤ a < name + DIRSIZ → rdb m' a = rdb (km s) a) ∧ p' + Z.of_nat (length (rest l)) = p + Z.of_nat (length l))
      (World h k s)).
    { apply (skipelem_spec s p name l); [done|done|done|done|]. intros m' p' _ H1 H2 H3 H4. by exists m', p'. }
    apply wp_done in Hwp as (r & w' & Hrun & m' & p' & -> & -> & H1 & H2 & H3 & H4).
    exists p', m', (rest l). split_and!; try done. split; [by intros ->|]. intros En.
    destruct (decide ((span is_slash (rest l)).2 = [])) as [Er|Er].
    + unfold rest in Er |- *. destruct (span is_slash (span in_name (span is_slash l).2).2).2 as [|c r'] eqn:Ec; [done|].
      apply span_head in Ec. cbn in Er. by rewrite Ec in Er.
    + rewrite components_step in En; [done| |done]. by eapply has_str_nonzero.
Qed.
(** "//usr//a", at 100, with the name at 200. *)
Definition demo_path : list Z := [47; 47; 117; 115; 114; 47; 47; 97].
Definition demo_fs : fsys := mkFs (mkLsys (mkBsys [] ∅ [] 0) (mkLog 0 0 0 false 0 (mkLh 0 []))) [] (mkSb 0 0 0 0 0 0 0 0) 0
  (foldl (λ m '(i, c), wrb m (100 + Z.of_nat i) c) ∅ (imap pair demo_path)) ∅ (λ _, false).
Lemma skipelem_components_witness : ∃ p' m' l', skipelem 100 200 (World [] [] demo_fs) = Done (Some p') (World [] [] (demo_fs <| km := m' |>)) ∧
  has_str m' p' l' ∧ components l' = [[97]] ∧ cstr m' 200 14 = [117; 115; 114].
Proof.
  assert (Hs : has_str (km demo_fs) 100 demo_path) by (vm_compute; tauto || (repeat split; discriminate)).
  pose proof (skipelem_components demo_fs 100 200 demo_path [] [] Hs eq_refl) as H.
  destruct H as (p' & m' & l' & H1 & H2 & H3 & _ & _ & H4 & _); [right; reflexivity|].
  exists p', m', l'. split; [exact H1|]. split; [exact H2|]. split; [exact H3|exact H4].
Defined.
End FsPath.
