(* ===== verification/FsBlock.v ===== *)
(** * Blocks of the file system: bread, log_write, balloc and bfree

    The layer between kernel/fs.c and the log. Inside a transaction the disk is
    a function [V] from block numbers to contents, [bl] are the blocks logged so
    far and [H] the blocks locked by the caller; [FX] says that the log, the
    cache and the disk stand for them. The primitives of fs.c are then updates
    of [V], and balloc and bfree updates of the bitmap. *)
From S2P Require Import Prelude Param CString Mem Bio BioSpec Cache Log LogSpec LogTx Fs.
Import Fs.

Lemma wp_bind_inv {S A B} (m : M S A) (f : A → M S B) Φ w : wp (bind m f) Φ w → wp m (λ a, wp (f a) Φ) w.
Proof. unfold wp, bind. by destruct (m w). Qed.
Lemma wp_assoc {S A B C} (m : M S A) (f : A → M S B) (g : B → M S C) Φ w : wp (a ← m; bind (f a) g) Φ w → wp (bind (bind m f) g) Φ w.
Proof. unfold wp, bind. by destruct (m w). Qed.

(** ** References: a logged block is pinned once, a locked one once more *)
Definition refs (bl : list Z) (H : gmap Z nat) (n : Z) : option Z :=
  match bool_decide (n ∈ bl), H !! n with
  | true, Some _ => Some 2
  | true, None | false, Some _ => Some 1
  | false, None => None
  end.
Definition pins (bl : list Z) : gmap Z Z := gset_to_gmap 1 (list_to_set bl).
Lemma pins_lookup bl b : pins bl !! b = if decide (b ∈ bl) then Some 1 else None.
Proof.
  unfold pins. rewrite lookup_gset_to_gmap. case_decide as Hb.
  - by rewrite option_guard_True by (by apply elem_of_list_to_set).
  - rewrite option_guard_False; [done|]. by rewrite elem_of_list_to_set.
Qed.
Lemma refs_size (Rf : gmap Z Z) bl (H : gmap Z nat) : NoDup bl → (∀ n, Rf !! n = refs bl H n) → (size Rf ≤ length bl + size H)%nat.
Proof.
  intros Hnd HR. rewrite <- size_dom, <- (size_dom H), <- (size_list_to_set (C := gset Z) bl Hnd).
  trans (size (list_to_set bl ∪ dom H : gset Z)).
  - apply subseteq_size. intros n [r Hn]%elem_of_dom. rewrite HR in Hn. unfold refs in Hn.
    rewrite elem_of_union, elem_of_list_to_set, elem_of_dom. case_bool_decide; [by left|].
    destruct (H !! n); [right; by eexists|done].
  - rewrite size_union_alt. apply Nat.add_le_mono_l, subseteq_size. set_solver.
Qed.
Lemma refs_insert bl (H : gmap Z nat) n i x : H !! n = None →
  refs bl (<[n := i]> H) x = if decide (x = n) then Some (default 0 (refs bl H n) + 1) else refs bl H x.
Proof.
  intros Hn. unfold refs. case_decide as E; [subst x|by rewrite lookup_insert_ne].
  rewrite lookup_insert_eq, Hn. by case_bool_decide.
Qed.
Lemma refs_add bl (H : gmap Z nat) n x : n ∉ bl →
  refs (bl ++ [n]) H x = if decide (x = n) then Some (default 0 (refs bl H n) + 1) else refs bl H x.
Proof.
  intros Hn. unfold refs. case_decide as E; [subst x|].
  - rewrite (bool_decide_eq_true_2 (n ∈ bl ++ [n])) by set_solver. rewrite bool_decide_eq_false_2 by done. by destruct (H !! n).
  - rewrite (bool_decide_ext (x ∈ bl ++ [n]) (x ∈ bl)); [done|]. set_solver.
Qed.

Lemma elem_add bl n x : x ∈ add bl n ↔ x = n ∨ x ∈ bl.
Proof. unfold add. case_decide; [|set_solver]. split; [by right|]. by intros [->|?]. Qed.

(** ** Bits *)
Definition set_bit (m : mem) (bi : Z) : mem := wrb m (bi / 8) (Z.lor (rdb m (bi / 8)) (Z.shiftl 1 (bi mod 8))).
Definition clear_bit (m : mem) (bi : Z) : mem := wrb m (bi / 8) (Z.land (rdb m (bi / 8)) (Z.lnot (Z.shiftl 1 (bi mod 8)))).
Lemma bit_of_testbit m bi : (bit_of m bi =? 0) = negb (Z.testbit (rdb m (bi / 8)) (bi mod 8)).
Proof.
  unfold bit_of. pose proof (Z.mod_pos_bound bi 8 ltac:(lia)) as Hj. set (j := bi mod 8) in *. rewrite Z.shiftl_1_l.
  destruct (Z.testbit (rdb m (bi / 8)) j) eqn:E; cbn [negb].
  - apply Z.eqb_neq. intros E0. assert (Z.testbit (Z.land (rdb m (bi / 8)) (2 ^ j)) j = false) as E1 by (by rewrite E0, Z.bits_0).
    rewrite Z.land_spec, E, Z.pow2_bits_true in E1; [done|lia].
  - apply Z.eqb_eq. apply Z.bits_inj_0. intros i. rewrite Z.land_spec, Z.pow2_bits_eqb by lia.
    destruct (Z.eqb_spec j i) as [<-|]; [by rewrite E|by rewrite andb_false_r].
Qed.
Lemma testbit_u8 x j : 0 ≤ j < 8 → Z.testbit (u8 x) j = Z.testbit x j.
Proof. intros. unfold u8. by rewrite Z.mod_pow2_bits_low by lia. Qed.
Lemma bit_index bi bj : bi / 8 = bj / 8 → bi mod 8 = bj mod 8 → bi = bj.
Proof. intros. rewrite (Z.div_mod bi 8), (Z.div_mod bj 8) by lia. congruence. Qed.
Lemma bit_set m bi bj : (bit_of (set_bit m bi) bj =? 0) = if decide (bj = bi) then false else bit_of m bj =? 0.
Proof.
  rewrite !bit_of_testbit. unfold set_bit. rewrite rdb_wrb. pose proof (Z.mod_pos_bound bi 8 ltac:(lia)). pose proof (Z.mod_pos_bound bj 8 ltac:(lia)).
  destruct (decide (bj = bi)) as [->|Hne].
  - rewrite decide_True, testbit_u8, Z.lor_spec, Z.shiftl_1_l, Z.pow2_bits_true by lia. by rewrite orb_true_r.
  - case_decide as E; [|done]. rewrite testbit_u8, Z.lor_spec, Z.shiftl_1_l, Z.pow2_bits_false, orb_false_r, E; [done| |lia].
    intros E'. by destruct Hne; apply bit_index.
Qed.
Lemma bit_clear m bi bj : (bit_of (clear_bit m bi) bj =? 0) = if decide (bj = bi) then true else bit_of m bj =? 0.
Proof.
  rewrite !bit_of_testbit. unfold clear_bit. rewrite rdb_wrb. pose proof (Z.mod_pos_bound bi 8 ltac:(lia)). pose proof (Z.mod_pos_bound bj 8 ltac:(lia)).
  destruct (decide (bj = bi)) as [->|Hne].
  - rewrite decide_True, testbit_u8, Z.land_spec, Z.lnot_spec, Z.shiftl_1_l, Z.pow2_bits_true by lia. by rewrite andb_false_r.
  - case_decide as E; [|done]. rewrite testbit_u8, Z.land_spec, Z.lnot_spec, Z.shiftl_1_l, Z.pow2_bits_false, andb_true_r, E; [done| |lia|lia].
    intros E'. by destruct Hne; apply bit_index.
Qed.
Lemma free_bit_spec m sz b k : ∀ bi, 0 ≤ bi → match free_bit k m sz b bi with
  | Some r => bi ≤ r < BPB ∧ b + r < sz ∧ (bit_of m r =? 0) = true ∧ ∀ x, bi ≤ x < r → (bit_of m x =? 0) = false
  | None => ∀ x, bi ≤ x < bi + Z.of_nat k → x < BPB → b + x < sz → (bit_of m x =? 0) = false
  end.
Proof.
  induction k as [|k IH]; intros bi Hbi; cbn [free_bit]; [intros; lia|].
  destruct (Z.ltb_spec bi BPB); cbn [andb]; [|intros; lia]. destruct (Z.ltb_spec (b + bi) sz); [|intros; lia].
  destruct (bit_of m bi =? 0) eqn:E; [split_and!; [lia|lia|lia|done|intros; lia]|].
  specialize (IH (bi + 1) ltac:(lia)). destruct (free_bit k m sz b (bi + 1)) as [r|].
  - destruct IH as (? & ? & ? & Hx). split_and!; [lia|lia|lia|done|]. intros x Hr. destruct (Z.eq_dec x bi) as [->|]; [done|apply Hx; lia].
  - intros x Hr ? ?. destruct (Z.eq_dec x bi) as [->|]; [done|apply IH; lia].
Qed.

(** ** The bitmap *)
(** Block [x] of the disk is marked in use. *)
Definition used (b : superblock) (V : Z → block) (x : Z) : bool :=
  (0 <=? x) && (x <? sbsize b) && negb (bit_of (V (BBLOCK x b)) (x mod BPB) =? 0).
Definition mark (b : superblock) (V : Z → block) (x : Z) : Z → block := updV V (BBLOCK x b) (set_bit (V (BBLOCK x b)) (x mod BPB)).
Definition unmark (b : superblock) (V : Z → block) (x : Z) : Z → block := updV V (BBLOCK x b) (clear_bit (V (BBLOCK x b)) (x mod BPB)).
(** The first block after the bitmap. *)
Definition dstart (b : superblock) : Z := bmapstart b + (sbsize b - 1) / BPB + 1.
(** The log, the inodes, the bitmap and the data blocks follow each other. *)
Record geometry (lst : Z) (b : superblock) : Prop := {
  g_size : 0 < sbsize b < 2 ^ 32;
  g_log : 0 ≤ lst ∧ lst + LOGSIZE ≤ inodestart b;
  g_inodes : 0 ≤ ninodes b ∧ inodestart b + ninodes b / IPB < bmapstart b;
  g_data : dstart b ≤ sbsize b;
}.
Lemma BPB_index x y : x / BPB = y / BPB → x mod BPB = y mod BPB → x = y.
Proof. intros. rewrite (Z.div_mod x BPB), (Z.div_mod y BPB) by (unfold BPB, BSIZE; lia). congruence. Qed.
Lemma used_range b V x : used b V x = true → 0 ≤ x < sbsize b.
Proof. unfold used. destruct (Z.leb_spec 0 x), (Z.ltb_spec x (sbsize b)); (done || lia). Qed.
Lemma used_upd b V x f y : used b (updV V (BBLOCK x b) f) y =
  if decide (y / BPB = x / BPB) then (0 <=? y) && (y <? sbsize b) && negb (bit_of f (y mod BPB) =? 0) else used b V y.
Proof.
  unfold used. case_decide as E.
  - assert (BBLOCK y b = BBLOCK x b) as -> by (unfold BBLOCK; by rewrite E). by rewrite updV_eq.
  - rewrite updV_ne; [done|]. unfold BBLOCK. lia.
Qed.
Lemma used_mark b V x y : 0 ≤ x < sbsize b → used b (mark b V x) y = if decide (y = x) then true else used b V y.
Proof.
  intros Hx. unfold mark. rewrite used_upd, bit_set. destruct (decide (y = x)) as [->|Hne].
  { rewrite !decide_True, (proj2 (Z.leb_le _ _)), (proj2 (Z.ltb_lt _ _)) by (done || lia). done. }
  case_decide as E; [|done]. rewrite decide_False; [|intros ?; by destruct Hne; apply BPB_index].
  unfold used, BBLOCK. by rewrite E.
Qed.
Lemma used_unmark b V x y : used b (unmark b V x) y = if decide (y = x) then false else used b V y.
Proof.
  unfold unmark. rewrite used_upd, bit_clear. destruct (decide (y = x)) as [->|Hne].
  { rewrite !decide_True by done. by rewrite andb_false_r. }
  case_decide as E; [|done]. rewrite decide_False; [|intros ?; by destruct Hne; apply BPB_index].
  unfold used, BBLOCK. by rewrite E.
Qed.
Section predicates.
Context (b : superblock).
(** The blocks locked are data blocks in use, so the allocator never meets them. *)
Definition busy (V : Z → block) (H : gmap Z nat) : Prop := ∀ x i, H !! x = Some i → dstart b ≤ x ∧ used b V x = true.
(** What marks the blocks that balloc must not hand out. *)
Definition meta_used (V : Z → block) : Prop := ∀ x, 0 ≤ x < dstart b → used b V x = true.
(** What balloc does to the disk when it returns [r]. *)
Definition allocated (V : Z → block) (r : Z) : Z → block := updV (mark b V r) r (memset (mark b V r r) 0 0 BSIZE).
Definition fresh (V : Z → block) (r : Z) : Prop :=
  dstart b ≤ r < sbsize b ∧ used b V r = false ∧ ∀ x, 0 ≤ x < r → used b V x = true.
Definition full (V : Z → block) : Prop := ∀ x, 0 ≤ x < sbsize b → used b V x = true.

End predicates.

Section allocated.
Context {lst : Z} {b : superblock} (Hg : geometry lst b).
Lemma BBLOCK_below x : 0 ≤ x < sbsize b → bmapstart b ≤ BBLOCK x b < dstart b.
Proof.
  intros Hx. unfold BBLOCK, dstart in *. change BPB with 8192.
  assert (x / 8192 ≤ (sbsize b - 1) / 8192) by (apply Z.div_le_mono; lia). pose proof (Z.div_pos x 8192). lia.
Qed.
Lemma used_data V a f x : dstart b ≤ a → used b (updV V a f) x = used b V x.
Proof.
  intros Ha. unfold used. destruct (Z.leb_spec 0 x), (Z.ltb_spec x (sbsize b)); cbn [andb]; try done.
  rewrite updV_ne; [done|]. pose proof (BBLOCK_below x). lia.
Qed.
Lemma dstart_pos : 0 < dstart b.
Proof.
  destruct (g_inodes _ _ Hg), (g_size _ _ Hg), (g_log _ _ Hg). unfold dstart, LOGSIZE, MAXOPBLOCKS in *.
  change BPB with 8192 in *. change IPB with 16 in *. pose proof (Z.div_pos (ninodes b) 16). pose proof (Z.div_pos (sbsize b - 1) 8192). lia.
Qed.
Context {V : Z → block} {r : Z} (Hf : fresh b V r).
Lemma fresh_range : 0 ≤ r < sbsize b.
Proof. destruct Hf as (? & _). pose proof dstart_pos. lia. Qed.
Lemma allocated_used x : used b (allocated b V r) x = if decide (x = r) then true else used b V x.
Proof. unfold allocated. rewrite used_data by apply Hf. apply used_mark, fresh_range. Qed.
Lemma allocated_other x : x ≠ r → dstart b ≤ x → allocated b V r x = V x.
Proof.
  intros Hx Hd. unfold allocated, mark. rewrite updV_ne by done. apply updV_ne.
  pose proof (BBLOCK_below r fresh_range). lia.
Qed.
Lemma allocated_low x : x < bmapstart b → allocated b V r x = V x.
Proof.
  intros Hx. pose proof (BBLOCK_below r fresh_range). destruct Hf as (? & _). unfold allocated, mark. rewrite !updV_ne by lia. done.
Qed.
Lemma allocated_zero o : 0 ≤ o < BSIZE → rdb (allocated b V r r) o = 0.
Proof.
  intros Ho. unfold allocated. rewrite updV_eq, rdb_memset by done. by rewrite (proj2 (within_spec _ _ _)).
Qed.
End allocated.

(** A file system that is mounted and has a transaction open: the cache it uses,
    the disk when the transaction began and the writes sent to it before, the
    log's place and length, the number of calls in the transaction and the
    superblock; the caller holds the spinlocks [h]. *)
Class Mounted (h : list lock) := {
  m_R : bsys → cache → Prop;
  m_cache :: BufferCache m_R;
  m_disk : disk;
  m_writes : list (Z * block);
  m_start : Z;
  m_nlog : Z;
  m_out : Z;
  m_sb : superblock;
  m_log : LOGSIZE ≤ m_nlog;
  m_in : 1 ≤ m_out;
  m_geometry : geometry m_start m_sb;
  m_bcache_lock : bcache_lock ∉ h;
  m_log_lock : log_lock ∉ h;
}.
Section fx.
Context {h : list lock} `{MT : !Mounted h}.
Local Abbreviation D := m_disk.
Local Abbreviation W := m_writes.
Local Abbreviation lst := m_start.
Local Abbreviation b := m_sb.
Local Abbreviation Hb := m_bcache_lock.
Local Abbreviation Hl := m_log_lock.
Local Abbreviation Hg := m_geometry.
Local Abbreviation R := m_R.

Record FX (l : lsys) (V : Z → block) (bl : list Z) (H : gmap Z nat) : Prop := {
  fx_log : ∃ Rf L, LS (R := R) l (mkCache V D W Rf H) L ∧ txn L (pins bl) bl ∧ (∀ n, Rf !! n = refs bl H n) ∧
    start L = lst ∧ log_size L = m_nlog ∧ outstanding L = m_out ∧ committing L = false;
  fx_clean n : n ∉ bl → V n = blk D n;
}.
(** The buffers and the log have room for what is held and logged. *)
Definition room (bl : list Z) (H : gmap Z nat) (n : nat) : Prop := (length bl + size H + n < 29)%nat.
Lemma wp_logged {A B} (m : M lsys A) (K : A → M fsys B) Ψ Φ s k : wp m Ψ (World h k (ls s)) →
  (∀ a w', Ψ a w' → wp (K a) Φ (World (held w') (wakes w') (s <| ls := st w' |>))) → wp (bind (logged m) K) Φ (World h k s).
Proof. intros Hm HK. apply wp_bind, wp_zoom. eapply wp_mono; [exact Hm|]. intros a w' H. by apply HK. Qed.

Section ops.
Context {B : Type} (Φ : B → world fsys → Prop).
Lemma fs_bread (K : nat → M fsys B) s V bl H n k : FX (ls s) V bl H → H !! n = None → room bl H 0 →
  (∀ i l', FX l' V bl (<[n := i]> H) → wp (K i) Φ (World h k (s <| ls := l' |>))) →
  wp (bind (bread ROOTDEV n) K) Φ (World h k s).
Proof.
  intros [(Rf & L & HL & HT & HR & HLg) Hc] Hn Hroom HK. unfold bread.
  pose proof (refs_size _ _ _ (t_nodup _ _ _ HT) HR) as Hsz. unfold room in Hroom.
  eapply (wp_logged _ _ (λ i w', ∃ l', w' = World h k l' ∧ FX l' V bl (<[n := i]> H)) _ s k).
  - apply (wp_bind_ret). apply (wp_bread Hb HL _ n); [done|right; unfold NBUF; lia|].
    intros i l' H'. apply wp_ret. exists l'. split; [done|]. split; [|done]. eexists _, L. split; [exact H'|]. split; [done|].
    split; [|done]. intros x. rewrite refs_insert, <- HR by done. case_decide; [subst; by rewrite lookup_insert_eq|].
    by rewrite lookup_insert_ne.
  - intros i w' (l' & -> & H'). by apply HK.
Qed.
Lemma fs_bdata (K : mem → M fsys B) s V bl H n i k : FX (ls s) V bl H → H !! n = Some i →
  wp (K (V n)) Φ (World h k s) → wp (bind (bdata i) K) Φ (World h k s).
Proof.
  intros [(Rf & L & HL & HT & HR & HLg) Hc] Hn HK. unfold bdata.
  apply wp_bind. eapply (wp_logged _ _ _ _ s k); [apply wp_bind_ret; apply (wp_get HL (λ b w', w' = World h k (ls s) ∧ data b = V n) n _ i Hn)|].
  - intros b Hd _. by apply wp_ret.
  - intros b w' [-> Hd]. apply wp_ret. rewrite Hd. by destruct s.
Qed.
Lemma fs_brelse (K : M fsys B) s V bl H n i k : FX (ls s) V bl H → H !! n = Some i →
  (∀ l' k', FX l' V bl (delete n H) → wp K Φ (World h k' (s <| ls := l' |>))) →
  wp (brelse i;; K) Φ (World h k s).
Proof.
  intros [(Rf & L & HL & HT & HR & HLg) Hc] Hn HK. unfold brelse.
  eapply (wp_logged _ _ (λ _ w', ∃ k' l', w' = World h k' l' ∧ FX l' V bl (delete n H)) _ s k).
  - apply wp_seq_end. apply (wp_brelse Hb HL _ n); [done| |].
    + rewrite HR. unfold refs. rewrite Hn. case_bool_decide; [done|]. intros _. by apply Hc.
    + intros l' k' H'. apply wp_ret. exists k', l'. split; [done|]. split; [|done]. eexists _, L. split; [exact H'|]. split; [done|].
      split; [|done]. intros x. unfold unref. rewrite !HR.
      assert (E : refs bl H x = if decide (x = n) then Some (default 0 (refs bl (delete n H) n) + 1) else refs bl (delete n H) x).
      { rewrite <- (refs_insert _ _ _ i) by apply lookup_delete_eq. rewrite insert_delete_id by done. done. }
      destruct (decide (x = n)) as [->|Hx].
      * unfold refs. rewrite Hn, lookup_delete_eq. case_bool_decide; cbn; [by rewrite lookup_insert_eq|by rewrite lookup_delete_eq].
      * rewrite <- E, <- (HR x). unfold refs. rewrite Hn. case_bool_decide; cbn; [by rewrite lookup_insert_ne|by rewrite lookup_delete_ne].
  - intros _ w' (k' & l' & -> & H'). by apply HK.
Qed.
Lemma fs_update (K : M fsys B) s V bl H n i f k : FX (ls s) V bl H → H !! n = Some i → home lst n → room bl H 0 →
  (∀ l', FX l' (updV V n (f (V n))) (add bl n) H → wp K Φ (World h k (s <| ls := l' |>))) →
  wp (set_bdata i f;; log_write i;; K) Φ (World h k s).
Proof.
  intros [(Rf & L & HL & HT & HR & E1 & E2 & E3 & E4) Hc] Hn Hhome Hroom HK. unfold set_bdata, log_write, room in *.
  eapply (wp_logged _ _ (λ _ w', ∃ l', w' = World h k l' ∧ LS (R := R) l' (mkCache (updV V n (f (V n))) D W Rf H) L) _ s k).
  { apply wp_seq_end. apply (wp_set_data HL _ n); [done|]. intros l' H'. apply wp_ret. eauto. }
  intros _ w' (l1 & -> & H1).
  assert (Hclean : ∀ x, x ∉ add bl n → updV V n (f (V n)) x = blk D x).
  { intros x Hx. rewrite elem_add in Hx. rewrite updV_ne by tauto. apply Hc. tauto. }
  eapply (wp_logged _ _ (λ _ w', ∃ l', w' = World h k l' ∧ FX l' (updV V n (f (V n))) (add bl n) H) _ _ k).
  - apply wp_seq_end. pose proof Hroom as Hroom'. assert (Z.of_nat (length bl) < LOGSIZE) by (unfold LOGSIZE, MAXOPBLOCKS; lia).
    pose proof m_log as Hnlog. pose proof m_in as Hout. unfold LOGSIZE, MAXOPBLOCKS in Hnlog.
    apply (log_write_spec Hb Hl _ _ l1 _ _ _ _ _ L bl n i k H1); try apply HT; try done; try lia; intros Hin l2 H2; apply wp_ret; exists l2;
      (split; [done|]); (split; [|done]); unfold add.
    + rewrite decide_True by done. by exists Rf, L.
    + rewrite decide_False by done. eexists _, _. split; [exact H2|].
      pose proof (txn_logged Hb Hl L (pins bl) bl n HT) as HT'. rewrite E1 in HT'. specialize (HT' Hhome Hin).
      split; [|split; [|done]].
      * assert (<[n := 1]> (pins bl) = pins (bl ++ [n])) as <-; [|apply HT'; unfold log_slots, LOGSIZE, MAXOPBLOCKS; lia].
        apply map_eq. intros x. rewrite pins_lookup. destruct (decide (x = n)) as [->|Hx].
        -- rewrite lookup_insert_eq, decide_True; [done|set_solver].
        -- rewrite lookup_insert_ne, pins_lookup by done. apply decide_ext. set_solver.
      * intros x. rewrite refs_add, <- HR by done. case_decide; [subst; by rewrite lookup_insert_eq|by rewrite lookup_insert_ne].
  - intros _ w' (l' & -> & H'). by apply HK.
Qed.
End ops.
Lemma room_insert bl (H : gmap Z nat) n i j : H !! n = None → room bl H (S j) → room bl (<[n := i]> H) j.
Proof. intros Hn. unfold room. rewrite map_size_insert_None by done. lia. Qed.
Lemma room_le bl H i j : room bl H i → (j ≤ i)%nat → room bl H j.
Proof. unfold room. lia. Qed.
Lemma room_add bl H n j : room bl H (S j) → room (add bl n) H j.
Proof. unfold room. pose proof (add_length bl n). lia. Qed.

Lemma home_meta x : inodestart b ≤ x → home lst x.
Proof. destruct (g_log _ _ Hg). intros. unfold home, log_block, log_slots, LOGSIZE, MAXOPBLOCKS in *. split; [lia|intros; lia]. Qed.
Lemma bzero_spec {B} (K : M fsys B) Φ s V bl H n k : FX (ls s) V bl H → H !! n = None → home lst n → room bl H 1 →
  (∀ l' k', FX l' (updV V n (memset (V n) 0 0 BSIZE)) (add bl n) H → wp K Φ (World h k' (s <| ls := l' |>))) →
  wp (bzero ROOTDEV n;; K) Φ (World h k s).
Proof.
  intros HF Hn Hhome Hroom HK. unfold bzero. apply wp_bind.
  eapply (fs_bread _ _ s V bl H n); [exact HF|done|by eapply room_le; [done|lia]|]. intros i l1 H1.
  eapply (fs_update _ _ _ _ _ _ n); [exact H1|apply lookup_insert_eq|done|by apply room_insert|]. intros l2 H2.
  apply wp_seq_end. eapply (fs_brelse _ _ _ _ _ _ n); [exact H2|apply lookup_insert_eq|]. intros l3 k3 H3. rewrite delete_insert_id in H3 by done. apply wp_ret. by apply HK.
Qed.

Lemma BBLOCK_range x : 0 ≤ x < sbsize b → bmapstart b ≤ BBLOCK x b < dstart b ∧ home lst (BBLOCK x b).
Proof.
  intros Hx. destruct (g_inodes _ _ Hg) as [Hn Hi]. unfold BBLOCK, dstart in *. change BPB with 8192. change IPB with 16 in *.
  assert (x / 8192 ≤ (sbsize b - 1) / 8192) by (apply Z.div_le_mono; lia).
  pose proof (Z.div_pos x 8192). pose proof (Z.div_pos (ninodes b) 16). split; [lia|]. apply home_meta. lia.
Qed.
Lemma dstart_home x : dstart b ≤ x → home lst x.
Proof.
  intros. apply home_meta. destruct (g_inodes _ _ Hg), (g_size _ _ Hg). unfold dstart in *. change BPB with 8192 in *. change IPB with 16 in *.
  pose proof (Z.div_pos (ninodes b) 16). pose proof (Z.div_pos (sbsize b - 1) 8192). lia.
Qed.
Lemma BPB_pos : 0 < BPB.
Proof. done. Qed.
Lemma BPB_split q bi : 0 ≤ bi < BPB → (q * BPB + bi) / BPB = q ∧ (q * BPB + bi) mod BPB = bi.
Proof.
  intros. rewrite Z.add_comm. pose proof BPB_pos. by rewrite Z.div_add, Z.div_small, Z.mod_add, Z.mod_small by lia.
Qed.
Lemma used_at V q bi : 0 ≤ q → 0 ≤ bi < BPB → q * BPB + bi < sbsize b →
  used b V (q * BPB + bi) = negb (bit_of (V (q + bmapstart b)) bi =? 0).
Proof.
  intros Hq Hbi Hs. destruct (BPB_split q bi Hbi) as [E1 E2]. pose proof BPB_pos. unfold used, BBLOCK. rewrite E1, E2.
  rewrite (proj2 (Z.leb_le _ _)), (proj2 (Z.ltb_lt _ _)) by lia. done.
Qed.
Lemma balloc_loop_spec {B} (K : Z → M fsys B) Φ V bl H : meta_used b V → busy b V H → room bl H 2 → ∀ n q s k,
  FX (ls s) V bl H → sb s = b → 0 ≤ q ≤ sbsize b / BPB + 1 → sbsize b / BPB + 1 - q < Z.of_nat n →
  (∀ x, 0 ≤ x < q * BPB → x < sbsize b → used b V x = true) →
  (∀ r l' k', fresh b V r → FX l' (allocated b V r) (add (add bl (BBLOCK r b)) r) H → wp (K r) Φ (World h k' (s <| ls := l' |>))) →
  (∀ l' k', full b V → FX l' V bl H → wp (K 0) Φ (World h k' (s <| ls := l' |>))) →
  wp (bind (balloc_loop n ROOTDEV (q * BPB)) K) Φ (World h k s).
Proof.
  intros Hmeta Hbusy Hroom. pose proof BPB_pos as HP. induction n as [|n IH]; intros q s k HF Hsb Hq Hn Hlow HK HK0; [lia|].
  cbn [balloc_loop]. apply wp_bind, wp_bind, wp_gets. cbn [st]. rewrite Hsb. destruct (Z.ltb_spec (q * BPB) (sbsize b)) as [Hlt|Hge].
  2:{ apply wp_ret. replace s with (s <| ls := ls s |>) by (by destruct s). apply HK0; [|done]. intros x Hx. apply Hlow; lia. }
  assert (EB : BBLOCK (q * BPB) b = q + bmapstart b) by (unfold BBLOCK; by rewrite Z.div_mul by lia). rewrite EB.
  destruct (BBLOCK_range (q * BPB)) as [HBr HBh]; [lia|]. rewrite EB in HBr, HBh. set (bb := q + bmapstart b) in *.
  assert (HHb : H !! bb = None) by (destruct (H !! bb) eqn:E; [apply Hbusy in E; lia|done]).
  eapply (fs_bread _ _ s V bl H bb); [exact HF|done|by eapply room_le; [done|lia]|]. intros i l1 H1.
  eapply (fs_bdata _ _ _ _ _ _ bb); [exact H1|apply lookup_insert_eq|].
  pose proof (free_bit_spec (V bb) (sbsize b) (q * BPB) (Z.to_nat BPB) 0 ltac:(lia)) as Hfree.
  destruct (free_bit _ _ _ _ _) as [bi|].
  - destruct Hfree as (Hbi & Hsz & Hz & Hbelow). set (r := q * BPB + bi) in *.
    destruct (BPB_split q bi Hbi) as [Er1 Er2]. fold r in Er1, Er2.
    assert (EBr : BBLOCK r b = bb) by (unfold BBLOCK, bb; by rewrite Er1).
    assert (Hfr : fresh b V r).
    { assert (Hu : used b V r = false) by (unfold r; rewrite used_at by lia; fold bb; by rewrite Hz). split_and!; [|done|done|].
      - destruct (Z.lt_ge_cases r (dstart b)); [|done]. rewrite Hmeta in Hu; [done|]. unfold r in *. lia.
      - intros x Hx. destruct (Z.lt_ge_cases x (q * BPB)); [apply Hlow; lia|]. replace x with (q * BPB + (x - q * BPB)) by lia.
        unfold r in *. rewrite used_at by lia. fold bb. rewrite Hbelow by lia. done. }
    assert (HHr : H !! r = None).
    { destruct (H !! r) eqn:E; [|done]. apply Hbusy in E as [_ E]. destruct Hfr as (_ & E' & _). congruence. }
    eapply (fs_update _ _ _ _ _ _ bb); [exact H1|apply lookup_insert_eq|done|by apply room_insert; [|eapply room_le; [done|lia]]|]. intros l2 H2.
    eapply (fs_brelse _ _ _ _ _ _ bb); [exact H2|apply lookup_insert_eq|]. intros l3 k3 H3. rewrite delete_insert_id in H3 by done.
    change (updV V bb _) with (updV V bb (set_bit (V bb) bi)) in H3. fold r.
    assert (EM : updV V bb (set_bit (V bb) bi) = mark b V r) by (unfold mark; by rewrite EBr, Er2). rewrite EM in H3.
    eapply bzero_spec; [exact H3|done|apply dstart_home; apply Hfr|by apply room_add|].
    intros l4 k4 H4. apply wp_ret. rewrite <- EBr in H4. by apply HK.
  - eapply (fs_brelse _ _ _ _ _ _ bb); [exact H1|apply lookup_insert_eq|]. intros l2 k2 H2. rewrite delete_insert_id in H2 by done.
    apply wp_bind_inv. replace (q * BPB + BPB) with ((q + 1) * BPB) by lia. eapply IH; [exact H2|done| | | | |].
    + pose proof (Z.div_le_lower_bound (sbsize b) BPB q). lia.
    + lia.
    + intros x Hx Hs. destruct (Z.lt_ge_cases x (q * BPB)); [apply Hlow; lia|]. replace x with (q * BPB + (x - q * BPB)) by lia.
      rewrite used_at by lia. fold bb. rewrite Hfree by lia. done.
    + intros r l' k'. apply HK.
    + intros l' k'. apply HK0.
Qed.
Lemma balloc_spec {B} (K : Z → M fsys B) Φ s V bl H k : meta_used b V → busy b V H → room bl H 2 → FX (ls s) V bl H → sb s = b →
  (∀ r l' k', fresh b V r → FX l' (allocated b V r) (add (add bl (BBLOCK r b)) r) H → wp (K r) Φ (World h k' (s <| ls := l' |>))) →
  (∀ l' k', full b V → FX l' V bl H → wp (K 0) Φ (World h k' (s <| ls := l' |>))) →
  wp (bind (balloc ROOTDEV) K) Φ (World h k s).
Proof.
  intros Hm Hbu Hr HF Hsb HK HK0. unfold balloc. apply wp_bind, wp_bind, wp_gets. cbn [st]. rewrite Hsb. apply wp_bind_inv.
  pose proof (Z.div_pos (sbsize b) BPB). pose proof BPB_pos. destruct (g_size _ _ Hg).
  apply (balloc_loop_spec K Φ V bl H Hm Hbu Hr _ 0 s k HF Hsb); try done; [lia|lia|intros; lia].
Qed.
Lemma bfree_spec {B} (K : M fsys B) Φ s V bl H n k : FX (ls s) V bl H → sb s = b → busy b V H → room bl H 1 → dstart b ≤ n < sbsize b → used b V n = true →
  (∀ l' k', FX l' (unmark b V n) (add bl (BBLOCK n b)) H → wp K Φ (World h k' (s <| ls := l' |>))) →
  wp (bfree ROOTDEV n;; K) Φ (World h k s).
Proof.
  intros HF Hsb Hbusy Hroom Hn Hu HK. unfold bfree. apply wp_bind, wp_bind, wp_gets. cbn [st]. rewrite Hsb.
  assert (Hd : 0 ≤ dstart b) by (destruct (g_inodes _ _ Hg), (g_size _ _ Hg), (g_log _ _ Hg); unfold dstart, LOGSIZE, MAXOPBLOCKS in *; change BPB with 8192 in *; change IPB with 16 in *; pose proof (Z.div_pos (ninodes b) 16); pose proof (Z.div_pos (sbsize b - 1) 8192); lia).
  destruct (BBLOCK_range n) as [HBr HBh]; [lia|]. set (bb := BBLOCK n b) in *.
  assert (HHb : H !! bb = None) by (destruct (H !! bb) eqn:E; [apply Hbusy in E; lia|done]).
  eapply (fs_bread _ _ s V bl H bb); [exact HF|done|by eapply room_le; [done|lia]|]. intros i l1 H1.
  eapply (fs_bdata _ _ _ _ _ _ bb); [exact H1|apply lookup_insert_eq|]. unfold used in Hu. fold bb in Hu. apply andb_prop in Hu as [_ Hu%negb_true_iff]. rewrite Hu.
  cbn [when]. apply wp_bind, wp_ret.
  eapply (fs_update _ _ _ _ _ _ bb); [exact H1|apply lookup_insert_eq|done|by apply room_insert|]. intros l2 H2.
  apply wp_seq_end. eapply (fs_brelse _ _ _ _ _ _ bb); [exact H2|apply lookup_insert_eq|]. intros l3 k3 H3. rewrite delete_insert_id in H3 by done.
  apply wp_ret. by apply HK.
Qed.
End fx.
