(* ===== verification/FsInode.v ===== *)
(** * Files: bmap, readi and writei of kernel/fs.c

    The contents of an inode, as the block map [addrs] and the indirect block
    give them. [file_ok] is the invariant of one file, [grows] what allocating
    and writing may change: the file's own blocks and free ones, nothing else. *)
From S2P Require Import Prelude Param CString Mem Bio BioSpec Cache Log LogSpec LogTx Fs FsBlock.
Import Fs.

(** ** The block map *)
Definition addr_at (i : inode) (n : Z) : Z := default 0 (iaddrs i !! Z.to_nat n).
Abbreviation ind i := (addr_at i NDIRECT).
Definition entry (m : block) (j : Z) : Z := ld32 m (4 * j).
(** The address of block [bn] of the file, 0 if it has none. *)
Definition baddr (V : Z → block) (i : inode) (bn : Z) : Z :=
  if bn <? NDIRECT then addr_at i bn
  else if ind i =? 0 then 0 else entry (V (ind i)) (bn - NDIRECT).
Definition in_file (bn : Z) : Prop := 0 ≤ bn < MAXFILE.
Definition own (V : Z → block) (i : inode) (x : Z) : Prop := x ≠ 0 ∧ (x = ind i ∨ ∃ bn, in_file bn ∧ x = baddr V i bn).
(** The byte at [off]. *)
Definition fbyte (V : Z → block) (i : inode) (off : Z) : Z := rdb (V (baddr V i (off / BSIZE))) (off mod BSIZE).

Section file.
Context (b : superblock).
Definition dblk (V : Z → block) (x : Z) : Prop := dstart b ≤ x < sbsize b ∧ used b V x = true.
Record file_ok (V : Z → block) (i : inode) : Prop := {
  fo_dev : idev i = ROOTDEV;
  fo_len : length (iaddrs i) = 13%nat;
  fo_size : 0 ≤ isize i ≤ MAXFILE * BSIZE;
  fo_own x : own V i x → dblk V x;
  fo_inj bn bn' : in_file bn → in_file bn' → baddr V i bn ≠ 0 → baddr V i bn = baddr V i bn' → bn = bn';
  fo_ind bn : in_file bn → baddr V i bn ≠ 0 → baddr V i bn ≠ ind i;
  fo_hole bn : 0 ≤ bn → bn * BSIZE < isize i → baddr V i bn ≠ 0;
}.
Record grows (V : Z → block) (i : inode) (V' : Z → block) (i' : inode) : Prop := {
  gr_inode : i' = i <| iaddrs := iaddrs i' |>;
  gr_addr bn : in_file bn → baddr V i bn ≠ 0 → baddr V' i' bn = baddr V i bn;
  gr_ind : ind i ≠ 0 → ind i' = ind i;
  gr_own x : own V' i' x → own V i x ∨ used b V x = false;
  gr_used x : used b V x = true → used b V' x = true;
  gr_leak x : used b V' x = true → used b V x = true ∨ own V' i' x;
  gr_frame x : dstart b ≤ x → used b V x = true → ¬ own V i x → V' x = V x;
  gr_low x : x < bmapstart b → V' x = V x;
}.
Lemma grows_refl V i : grows V i V i.
Proof. split; try done; [by destruct i|by left|by left]. Qed.
Lemma own_mono V i V' i' x : grows V i V' i' → own V i x → own V' i' x.
Proof.
  intros G (Hx & [->|(bn & Hbn & ->)]); (split; [done|]).
  - left. by rewrite (gr_ind _ _ _ _ G).
  - right. exists bn. split; [done|]. by rewrite (gr_addr _ _ _ _ G).
Qed.
Lemma grows_trans V1 i1 V2 i2 V3 i3 : grows V1 i1 V2 i2 → grows V2 i2 V3 i3 → grows V1 i1 V3 i3.
Proof.
  intros G1 G2. split.
  - rewrite (gr_inode _ _ _ _ G2), (gr_inode _ _ _ _ G1). done.
  - intros bn Hbn H1. rewrite (gr_addr _ _ _ _ G2), (gr_addr _ _ _ _ G1); [done..|]. by rewrite (gr_addr _ _ _ _ G1).
  - intros H. rewrite (gr_ind _ _ _ _ G2), (gr_ind _ _ _ _ G1); [done..|]. by rewrite (gr_ind _ _ _ _ G1).
  - intros x [H|H]%(gr_own _ _ _ _ G2); [by apply (gr_own _ _ _ _ G1)|]. right.
    destruct (used b V1 x) eqn:E; [|done]. apply (gr_used _ _ _ _ G1) in E. congruence.
  - intros x H. by apply (gr_used _ _ _ _ G2), (gr_used _ _ _ _ G1).
  - intros x [H|H]%(gr_leak _ _ _ _ G2); [|by right]. apply (gr_leak _ _ _ _ G1) in H as [H|H]; [by left|].
    right. by apply (own_mono _ _ _ _ _ G2).
  - intros x Hd Hu Hn. rewrite (gr_frame _ _ _ _ G2); [by apply (gr_frame _ _ _ _ G1)|done|by apply (gr_used _ _ _ _ G1)|].
    intros [H|H]%(gr_own _ _ _ _ G1); [done|congruence].
  - intros x H. by rewrite (gr_low _ _ _ _ G2), (gr_low _ _ _ _ G1).
Qed.

(** ** One block more *)
Context {lst : Z} (Hg : geometry lst b).
Lemma own_nonzero V i x : file_ok V i → own V i x → dstart b ≤ x < sbsize b ∧ used b V x = true.
Proof. intros HF H. by apply (fo_own _ _ HF). Qed.
(** [r] becomes block [nb] of the file, or its indirect block if [nb] is -1. *)
Record adds (V : Z → block) (i : inode) (nb r : Z) (V' : Z → block) (i' : inode) : Prop := {
  ad_inode : i' = i <| iaddrs := iaddrs i' |>;
  ad_len : length (iaddrs i') = 13%nat;
  ad_ind : ind i' = if decide (nb = -1) then r else ind i;
  ad_addr bn : in_file bn → baddr V' i' bn = if decide (bn = nb) then r else baddr V i bn;
  ad_nb : nb = -1 ∧ ind i = 0 ∨ in_file nb ∧ baddr V i nb = 0;
  ad_used x : used b V' x = if decide (x = r) then true else used b V x;
  ad_data x : dstart b ≤ x → x ≠ r → x ≠ ind i → V' x = V x;
  ad_low x : x < bmapstart b → V' x = V x;
}.
Lemma adds_own V i nb r V' i' : file_ok V i → fresh b V r → adds V i nb r V' i' → ∀ x, own V' i' x ↔ own V i x ∨ x = r.
Proof.
  intros HF Hf A x. pose proof (dstart_pos Hg). assert (Hr : r ≠ 0) by (destruct Hf as (? & _); lia).
  pose proof (ad_nb _ _ _ _ _ _ A) as Hnb. unfold own. rewrite (ad_ind _ _ _ _ _ _ A). split.
  - intros (Hx & [Hi|(bn & Hbn & Hb)]).
    + case_decide; [by right|]. left. split; [done|]. by left.
    + rewrite (ad_addr _ _ _ _ _ _ A) in Hb by done. case_decide; [by right|]. left. split; [done|]. right. eauto.
  - intros [(Hx & [Hi|(bn & Hbn & Hb)])| ->].
    + split; [done|]. left. rewrite decide_False; [done|]. intros ->. destruct Hnb as [[_ ?]|[[? ?] _]]; [congruence|lia].
    + split; [done|]. right. exists bn. split; [done|]. rewrite (ad_addr _ _ _ _ _ _ A), decide_False; [done| |done].
      intros ->. destruct Hnb as [[-> _]|[_ ?]]; [destruct Hbn; lia|congruence].
    + split; [done|]. destruct Hnb as [[-> _]|[Hin _]]; [left; by rewrite decide_True|].
      right. exists nb. split; [done|]. by rewrite (ad_addr _ _ _ _ _ _ A), decide_True.
Qed.
Lemma adds_fresh V i r x : file_ok V i → fresh b V r → own V i x → x ≠ r.
Proof. intros HF (_ & Hu & _) [_ Hx]%(fo_own _ _ HF) ->. congruence. Qed.
Lemma adds_grows V i nb r V' i' : file_ok V i → fresh b V r → adds V i nb r V' i' → grows V i V' i'.
Proof.
  intros HF Hf A. pose proof (adds_own _ _ _ _ _ _ HF Hf A) as HO. pose proof (ad_nb _ _ _ _ _ _ A) as Hnb. split.
  - apply A.
  - intros bn Hbn Hne. rewrite (ad_addr _ _ _ _ _ _ A), decide_False; [done| |done].
    intros ->. destruct Hnb as [[-> _]|[_ ?]]; [destruct Hbn; lia|congruence].
  - intros Hi. rewrite (ad_ind _ _ _ _ _ _ A), decide_False; [done|]. intros ->. destruct Hnb as [[_ ?]|[[? ?] _]]; [congruence|lia].
  - intros x [Hx| ->]%HO; [by left|]. right. apply Hf.
  - intros x Hx. rewrite (ad_used _ _ _ _ _ _ A). by case_decide.
  - intros x. rewrite (ad_used _ _ _ _ _ _ A). case_decide; [|by left]. right. apply HO. by right.
  - intros x Hd Hu Hn. apply (ad_data _ _ _ _ _ _ A); [done| |].
    + intros ->. destruct Hf as (_ & ? & _). congruence.
    + intros ->. apply Hn. split; [|by left]. pose proof (dstart_pos Hg). lia.
  - apply A.
Qed.
Lemma adds_ok V i nb r V' i' : file_ok V i → fresh b V r → adds V i nb r V' i' → file_ok V' i'.
Proof.
  intros HF Hf A. pose proof (adds_own _ _ _ _ _ _ HF Hf A) as HO. pose proof (ad_inode _ _ _ _ _ _ A) as Ei.
  pose proof (ad_nb _ _ _ _ _ _ A) as Hnb. assert (Hr0 : r ≠ 0) by (pose proof (dstart_pos Hg); destruct Hf as (? & _); lia).
  assert (Hold : ∀ bn, in_file bn → baddr V i bn ≠ 0 → baddr V i bn ≠ r).
  { intros bn Hbn Hne. eapply adds_fresh; [done|done|]. split; [done|]. right. eauto. }
  split.
  - rewrite Ei. apply HF.
  - apply A.
  - rewrite Ei. apply HF.
  - intros x [Hx| ->]%HO; unfold dblk; rewrite (ad_used _ _ _ _ _ _ A).
    + destruct (fo_own _ _ HF _ Hx) as [? ?]. split; [done|]. by case_decide.
    + rewrite decide_True by done. split; [apply Hf|done].
  - intros bn bn' Hbn Hbn'. rewrite !(ad_addr _ _ _ _ _ _ A) by done. repeat case_decide; subst; try done.
    + intros _ E. destruct (Hold bn' Hbn'); congruence.
    + intros Hne E. by destruct (Hold bn Hbn Hne).
    + by apply HF.
  - intros bn Hbn. rewrite (ad_addr _ _ _ _ _ _ A), (ad_ind _ _ _ _ _ _ A) by done. repeat case_decide; subst.
    + destruct Hbn; lia.
    + intros _ E. apply (adds_fresh V i r (ind i) HF Hf); [|done]. split; [by rewrite <- E|by left].
    + by apply Hold.
    + by apply HF.
  - intros bn H0. assert (isize i' = isize i) as -> by (by rewrite Ei). intros Hlt. pose proof (fo_hole _ _ HF bn H0 Hlt) as Hne.
    assert (in_file bn) by (split; [done|]; pose proof (fo_size _ _ HF); unfold BSIZE in *; lia).
    rewrite (ad_addr _ _ _ _ _ _ A) by done. by case_decide.
Qed.

Lemma addr_at_set i n r m : length (iaddrs i) = 13%nat → 0 ≤ n ≤ NDIRECT → 0 ≤ m →
  addr_at (i <| iaddrs ::= <[Z.to_nat n := r]> |>) m = if decide (m = n) then r else addr_at i m.
Proof.
  unfold NDIRECT. intros Hl Hn Hm. unfold addr_at. cbn [iaddrs set_field]. case_decide as E; [subst|].
  - by rewrite list_lookup_insert_eq by lia.
  - by rewrite list_lookup_insert_ne by lia.
Qed.
Lemma entry_zero V r j : fresh b V r → 0 ≤ j < NINDIRECT → entry (allocated b V r r) j = 0.
Proof.
  intros Hf Hj. unfold entry. rewrite (ld_ext 4 ∅); [done|]. intros x Hx. change NINDIRECT with 256 in Hj.
  rewrite allocated_zero by (unfold BSIZE; lia). done.
Qed.
Lemma ind_data V i : file_ok V i → ind i ≠ 0 → dstart b ≤ ind i < sbsize b ∧ used b V (ind i) = true.
Proof. intros HF Hi. apply (fo_own _ _ HF). split; [done|]. by left. Qed.
Lemma adds_slot V i n r : file_ok V i → fresh b V r → 0 ≤ n ≤ NDIRECT → addr_at i n = 0 →
  adds V i (if decide (n = NDIRECT) then -1 else n) r (allocated b V r) (i <| iaddrs ::= <[Z.to_nat n := r]> |>).
Proof.
  intros HF Hf Hn Hz. pose proof (fo_len _ _ HF) as Hl. pose proof (dstart_pos Hg) as Hdp. set (i' := i <| iaddrs ::= _ |>).
  assert (Hat : ∀ m, 0 ≤ m → addr_at i' m = if decide (m = n) then r else addr_at i m) by (intros; by apply addr_at_set).
  assert (Hr : r ≠ 0) by (destruct Hf as (? & _); lia).
  assert (Hi : ind i' = if decide (n = NDIRECT) then r else ind i).
  { rewrite Hat by done. repeat case_decide; congruence. }
  split.
  - done.
  - cbn. by rewrite length_insert.
  - rewrite Hi. unfold NDIRECT in *. repeat case_decide; (done || lia).
  - intros bn [H0 Hmax]. unfold baddr. rewrite Hi, Hat by done. unfold MAXFILE in Hmax. change NINDIRECT with 256 in Hmax.
    destruct (Z.ltb_spec bn NDIRECT); [repeat case_decide; unfold NDIRECT in *; (done || lia)|].
    rewrite (decide_False (P := bn = _)) by (case_decide; unfold NDIRECT in *; lia). case_decide as E.
    + subst n. rewrite Hz, (proj2 (Z.eqb_neq r 0)) by done. cbn. apply entry_zero; [done|]. unfold NDIRECT in *. change NINDIRECT with 256. lia.
    + destruct (Z.eqb_spec (ind i) 0) as [|Hne]; [done|]. destruct (ind_data V i HF Hne) as [Hd Hu].
      rewrite (allocated_other Hg Hf); [done| |lia]. intros E'. destruct Hf as (_ & ? & _). congruence.
  - case_decide as E; [left; by rewrite E in Hz|]. right. unfold in_file, MAXFILE, baddr. change NINDIRECT with 256.
    destruct (Z.ltb_spec n NDIRECT); [split; [lia|done]|lia].
  - intros x. apply (allocated_used Hg Hf).
  - intros x Hd Hx _. by apply (allocated_other Hg Hf).
  - intros x Hx. by apply (allocated_low Hg Hf).
Qed.
Lemma adds_entry V i bn r : file_ok V i → fresh b V r → NDIRECT ≤ bn < MAXFILE → ind i ≠ 0 → entry (V (ind i)) (bn - NDIRECT) = 0 →
  adds V i bn r (updV (allocated b V r) (ind i) (st32 (V (ind i)) (4 * (bn - NDIRECT)) r)) i.
Proof.
  intros HF Hf Hn Hi Hz. pose proof (fo_len _ _ HF) as Hl. destruct (ind_data V i HF Hi) as [Hd Hu].
  assert (Hr : r ≠ ind i) by (intros E'; destruct Hf as (_ & ? & _); congruence).
  assert (Hr32 : 0 ≤ r < 2 ^ 32) by (pose proof (fresh_range Hg Hf); destruct (g_size _ _ Hg); lia).
  split.
  - by destruct i.
  - done.
  - rewrite decide_False; [done|]. unfold NDIRECT in *. lia.
  - intros m [H0 Hmax]. unfold baddr. destruct (Z.ltb_spec m NDIRECT); [rewrite decide_False by lia; done|].
    rewrite (proj2 (Z.eqb_neq _ 0)), updV_eq by done. unfold entry. case_decide as E.
    + subst m. by rewrite ld32_st32.
    + rewrite ld_sto_other by (change (Z.of_nat 4) with 4; lia). done.
  - right. split; [split; unfold NDIRECT in *; lia|]. unfold baddr. rewrite (proj2 (Z.ltb_ge _ _)) by lia.
    by rewrite (proj2 (Z.eqb_neq _ 0)).
  - intros x. rewrite (used_data) by lia. apply (allocated_used Hg Hf).
  - intros x Hx1 Hx2 Hx3. rewrite updV_ne by done. by apply (allocated_other Hg Hf).
  - intros x Hx. rewrite updV_ne; [by apply (allocated_low Hg Hf)|].
    pose proof (BBLOCK_below r (fresh_range Hg Hf)). lia.
Qed.
End file.

(** ** bmap *)
Definition put (s : fsys) (l : lsys) (ip : nat) (i : inode) : fsys := s <| ls := l |> <| itable ::= <[ip := i]> |>.
(** What the transaction has logged, and what the indirect block may still add. *)
Definition cost (bl : list Z) (i : inode) : nat :=
  (length bl + if (ind i =? 0)%Z then 2 else if decide (ind i ∈ bl) then 0 else 1)%nat.

Section inode.
Context {h : list lock} `{MT : !Mounted h}.
Local Abbreviation b := m_sb.
Local Abbreviation Hg := m_geometry.
Lemma wp_geti {B} (K : inode → M fsys B) Φ s ip i k : itable s !! ip = Some i → wp (K i) Φ (World h k s) → wp (bind (geti ip) K) Φ (World h k s).
Proof. intros Hi HK. apply wp_bind, wp_bind, wp_gets. cbn [st]. rewrite Hi. by apply wp_ret. Qed.
Lemma wp_seti {B} (K : M fsys B) Φ s ip i f k : itable s !! ip = Some i → wp K Φ (World h k (put s (ls s) ip (f i))) → wp (seti ip f;; K) Φ (World h k s).
Proof.
  intros Hi HK. apply wp_bind. unfold seti. eapply wp_geti; [done|]. apply wp_modify.
  replace (s <| itable ::= <[ip := f i]> |>) with (put s (ls s) ip (f i)) by (by destruct s). done.
Qed.
Lemma put_id s l ip i : itable s !! ip = Some i → put s l ip i = s <| ls := l |>.
Proof. intros Hi. unfold put. destruct s. unfold set_field. cbn in *. by rewrite list_insert_id. Qed.
Lemma put_put s l ip i l' i' : put (put s l ip i) l' ip i' = put s l' ip i'.
Proof. unfold put. destruct s. unfold set_field. cbn. by rewrite list_insert_insert_eq. Qed.
Lemma put_at s l ip i i0 : itable s !! ip = Some i0 → itable (put s l ip i) !! ip = Some i.
Proof. intros Hi. cbn. apply list_lookup_insert_eq. by eapply lookup_lt_Some. Qed.

Lemma bmap_slot_spec {B} (K : Z → M fsys B) Φ s V bl ip i n k : FX (ls s) V bl ∅ → sb s = b → itable s !! ip = Some i →
  file_ok b V i → meta_used b V → 0 ≤ n ≤ NDIRECT → room bl ∅ 2 →
  (addr_at i n ≠ 0 → wp (K (addr_at i n)) Φ (World h k s)) →
  (addr_at i n = 0 → ∀ r l' k', fresh b V r → FX l' (allocated b V r) (add (add bl (BBLOCK r b)) r) ∅ →
     wp (K r) Φ (World h k' (put s l' ip (i <| iaddrs ::= <[Z.to_nat n := r]> |>)))) →
  (addr_at i n = 0 → ∀ l' k', full b V → FX l' V bl ∅ → wp (K 0) Φ (World h k' (s <| ls := l' |>))) →
  wp (bind (bmap_slot ip n) K) Φ (World h k s).
Proof.
  intros HF Hsb Hi Hok Hm Hn Hroom H1 H2 H3. unfold bmap_slot, get_addr. apply wp_bind, wp_bind. eapply wp_geti; [done|].
  assert (E : iaddrs i !! Z.to_nat n = Some (addr_at i n)).
  { unfold addr_at. destruct (lookup_lt_is_Some_2 (iaddrs i) (Z.to_nat n)) as [a Ha]; [|by rewrite Ha].
    rewrite (fo_len _ _ _ Hok). unfold NDIRECT in *. lia. }
  rewrite E. apply wp_ret. destruct (Z.eqb_spec (addr_at i n) 0) as [E0|E0]; [|by apply wp_ret, H1].
  eapply wp_geti; [done|]. rewrite (fo_dev _ _ _ Hok).
  apply (balloc_spec _ _ s V bl ∅ k); try done.
  - intros r l' k' Hf HF'. rewrite (proj2 (Z.eqb_neq r 0)) by (pose proof (dstart_pos Hg); destruct Hf; lia).
    eapply wp_seti; [done|]. apply wp_ret. by apply H2.
  - intros l' k' Hfull HF'. apply wp_ret. by apply H3.
Qed.
Lemma bmap_entry_spec {B} (K : Z → M fsys B) Φ s V bl ip i j k : FX (ls s) V bl ∅ → sb s = b → itable s !! ip = Some i →
  file_ok b V i → meta_used b V → ind i ≠ 0 → 0 ≤ j < NINDIRECT → room bl ∅ 4 →
  (entry (V (ind i)) j ≠ 0 → ∀ l' k', FX l' V bl ∅ → wp (K (entry (V (ind i)) j)) Φ (World h k' (s <| ls := l' |>))) →
  (entry (V (ind i)) j = 0 → ∀ r l' k', fresh b V r →
     FX l' (updV (allocated b V r) (ind i) (st32 (V (ind i)) (4 * j) r)) (add (add (add bl (BBLOCK r b)) r) (ind i)) ∅ →
     wp (K r) Φ (World h k' (s <| ls := l' |>))) →
  (entry (V (ind i)) j = 0 → ∀ l' k', full b V → FX l' V bl ∅ → wp (K 0) Φ (World h k' (s <| ls := l' |>))) →
  wp (bind (bmap_entry ip (ind i) j) K) Φ (World h k s).
Proof.
  intros HF Hsb Hi Hok Hm Hind Hj Hroom H1 H2 H3. destruct (ind_data _ _ _ Hok Hind) as [Hd Hu].
  unfold bmap_entry. apply wp_bind. eapply wp_geti; [done|]. rewrite (fo_dev _ _ _ Hok).
  eapply (fs_bread _ _ s V bl ∅ (ind i)); [exact HF|done|by eapply room_le; [done|lia]|]. intros x l1 HF1.
  eapply (fs_bdata _ _ _ _ _ _ (ind i)); [exact HF1|apply lookup_insert_eq|]. fold (entry (V (ind i)) j).
  assert (Hfin : ∀ a V' bl' l k', FX l V' bl' (<[ind i := x]> ∅) → (∀ l' k', FX l' V' bl' ∅ → wp (K a) Φ (World h k' (s <| ls := l' |>))) →
    wp (brelse x;; ret a) (λ a, wp (K a) Φ) (World h k' (s <| ls := l |>))).
  { intros a V' bl' l k' HF' HK. eapply (fs_brelse _ _ _ _ _ _ (ind i)); [exact HF'|apply lookup_insert_eq|]. intros l' k2 HF2.
    rewrite delete_insert_id in HF2 by done. apply wp_ret. by apply HK. }
  destruct (Z.eqb_spec (entry (V (ind i)) j) 0) as [E|E].
  - apply wp_bind. eapply (balloc_spec _ _ _ V bl (<[ind i := x]> ∅)); [done| | |exact HF1|done| |].
    + intros y z [[<- _]|[_ Hz]]%lookup_insert_Some; [split; [lia|done]|]. by rewrite lookup_empty in Hz.
    + apply room_insert; [done|]. by eapply room_le; [done|lia].
    + intros r l2 k2 Hf HF2. assert (Hr0 : r ≠ 0) by (pose proof (dstart_pos Hg); destruct Hf; lia).
      assert (Hri : ind i ≠ r) by (intros E'; destruct Hf as (_ & ? & _); congruence).
      rewrite (proj2 (Z.eqb_neq r 0)) by done. cbn [negb when]. apply wp_bind.
      apply wp_seq_end, wp_assoc. eapply (fs_update _ _ _ _ _ _ (ind i)); [exact HF2|apply lookup_insert_eq| | |].
      * apply dstart_home. lia.
      * apply room_insert; [done|]. apply room_add, room_add. by eapply room_le; [done|lia].
      * intros l3 HF3. apply wp_ret, wp_ret. rewrite (allocated_other Hg Hf) in HF3 by (done || lia).
        apply (Hfin _ _ _ _ _ HF3). intros l4 k4 HF4. by apply H2.
    + intros l2 k2 Hfull HF2. cbn [negb when Z.eqb]. apply wp_bind, wp_ret, wp_ret. apply (Hfin _ _ _ _ _ HF2). intros l3 k3 HF3. by apply H3.
  - apply wp_ret. apply (Hfin _ _ _ _ _ HF1). intros l2 k2 HF2. by apply H1.
Qed.

(** What bmap does where the file had no block. *)
Record extended (V : Z → block) (bl : list Z) (i : inode) (bn r : Z) (V' : Z → block) (bl' : list Z) (i' : inode) : Prop := {
  x_ok : file_ok b V' i';
  x_grows : grows b V i V' i';
  x_quiet x : own V i x → x ≠ ind i → V' x = V x;
  x_cost : (cost bl' i' ≤ cost bl i + 2)%nat;
  x_addr : baddr V' i' bn = r;
  x_only bm : in_file bm → bm ≠ bn → baddr V' i' bm = baddr V i bm;
  x_zero : r ≠ 0 → r ∈ bl' ∧ ∀ o, 0 ≤ o < BSIZE → rdb (V' r) o = 0;
  x_full : r = 0 → full b V';
}.
Lemma extended_none V bl i bn : file_ok b V i → full b V → baddr V i bn = 0 → extended V bl i bn 0 V bl i.
Proof. intros. split; try done; [apply grows_refl|lia]. Qed.
Lemma adds_quiet V i nb r V' i' x : file_ok b V i → fresh b V r → adds b V i nb r V' i' → own V i x → x ≠ ind i → V' x = V x.
Proof.
  intros HF Hf A Hx Hi. destruct (fo_own _ _ _ HF x Hx) as [Hd _]. apply (ad_data _ _ _ _ _ _ _ A); [lia| |done].
  by eapply adds_fresh.
Qed.
Lemma length_add_in bl n : n ∈ bl → length (add bl n) = length bl.
Proof. intros. unfold add. by rewrite decide_True. Qed.
Lemma cost_slot bl i i' x r : ind i' = ind i → (cost (add (add bl x) r) i' ≤ cost bl i + 2)%nat.
Proof.
  intros E. unfold cost. rewrite E. pose proof (add_length bl x). pose proof (add_length (add bl x) r).
  destruct (ind i =? 0); [lia|]. destruct (decide (ind i ∈ bl)) as [Hin|]; [|case_decide; lia].
  rewrite decide_True; [lia|]. rewrite !elem_add. tauto.
Qed.
Lemma cost_entry bl i x r : ind i ≠ 0 → (cost (add (add (add bl x) r) (ind i)) i ≤ cost bl i + 2)%nat.
Proof.
  intros E. unfold cost. rewrite (proj2 (Z.eqb_neq _ 0)), decide_True by (done || (rewrite elem_add; by left)).
  pose proof (add_length bl x). pose proof (add_length (add bl x) r). pose proof (add_length (add (add bl x) r) (ind i)).
  destruct (decide (ind i ∈ bl)) as [Hin|]; [|lia]. rewrite length_add_in; [lia|]. rewrite !elem_add. tauto.
Qed.
Lemma extended_slot V bl i bn r : file_ok b V i → fresh b V r → 0 ≤ bn < NDIRECT → addr_at i bn = 0 →
  extended V bl i bn r (allocated b V r) (add (add bl (BBLOCK r b)) r) (i <| iaddrs ::= <[Z.to_nat bn := r]> |>).
Proof.
  intros HF Hf Hn Hz. pose proof (adds_slot b Hg V i bn r HF Hf ltac:(lia) Hz) as A. rewrite decide_False in A by lia.
  assert (Hr : r ≠ 0) by (pose proof (dstart_pos Hg); destruct Hf; lia). split; try done.
  - by eapply (adds_ok _ Hg).
  - by eapply (adds_grows _ Hg).
  - intros x. by eapply adds_quiet.
  - apply cost_slot. rewrite (ad_ind _ _ _ _ _ _ _ A), decide_False; [done|lia].
  - rewrite (ad_addr _ _ _ _ _ _ _ A), decide_True; [done|done|]. unfold in_file, MAXFILE. change NINDIRECT with 256. lia.
  - intros bm Hbm Hne. by rewrite (ad_addr _ _ _ _ _ _ _ A), decide_False.
  - intros _. split; [rewrite elem_add; by left|]. intros o Ho. by apply allocated_zero.
Qed.
Lemma extended_entry V bl i bn r : file_ok b V i → fresh b V r → NDIRECT ≤ bn < MAXFILE → ind i ≠ 0 → entry (V (ind i)) (bn - NDIRECT) = 0 →
  extended V bl i bn r (updV (allocated b V r) (ind i) (st32 (V (ind i)) (4 * (bn - NDIRECT)) r)) (add (add (add bl (BBLOCK r b)) r) (ind i)) i.
Proof.
  intros HF Hf Hn Hi Hz. pose proof (adds_entry b Hg V i bn r HF Hf Hn Hi Hz) as A.
  assert (Hr : r ≠ 0) by (pose proof (dstart_pos Hg); destruct Hf; lia). split; try done.
  - by eapply (adds_ok _ Hg).
  - by eapply (adds_grows _ Hg).
  - intros x. by eapply adds_quiet.
  - by apply cost_entry.
  - rewrite (ad_addr _ _ _ _ _ _ _ A), decide_True; [done|done|]. unfold in_file, NDIRECT in *. lia.
  - intros bm Hbm Hbne. by rewrite (ad_addr _ _ _ _ _ _ _ A), decide_False.
  - intros _. split; [rewrite !elem_add; tauto|]. intros o Ho. rewrite updV_ne; [by apply allocated_zero|].
    intros E. eapply (adds_fresh _ V i r (ind i)); [done|done|by split; [|left]|done].
Qed.
(** The indirect block is allocated first, and then the entry. *)
Lemma extended_trans V bl i bn V1 bl1 i1 r V2 bl2 i2 : file_ok b V i → ind i = 0 → grows b V i V1 i1 → used b V (ind i1) = false →
  (∀ bm, in_file bm → baddr V1 i1 bm = baddr V i bm) → (∀ x, own V i x → x ≠ ind i → V1 x = V x) → (cost bl1 i1 ≤ cost bl i)%nat →
  extended V1 bl1 i1 bn r V2 bl2 i2 → extended V bl i bn r V2 bl2 i2.
Proof.
  intros HF Hi G Hu Ha Hq Hc X. split; [exact (x_ok _ _ _ _ _ _ _ _ X)| | | |exact (x_addr _ _ _ _ _ _ _ _ X)| |exact (x_zero _ _ _ _ _ _ _ _ X)|exact (x_full _ _ _ _ _ _ _ _ X)].
  - eapply grows_trans; [done|apply X].
  - intros x Hx Hne. rewrite (x_quiet _ _ _ _ _ _ _ _ X); [by apply Hq|by eapply own_mono|].
    intros ->. destruct (fo_own _ _ _ HF _ Hx) as [_ ?]. congruence.
  - pose proof (x_cost _ _ _ _ _ _ _ _ X). lia.
  - intros bm Hbm Hne. by rewrite (x_only _ _ _ _ _ _ _ _ X), Ha.
Qed.
Lemma extended_first V bl i q : file_ok b V i → ind i = 0 → fresh b V q →
  let V1 := allocated b V q in let i1 := i <| iaddrs ::= <[Z.to_nat NDIRECT := q]> |> in
  ind i1 = q ∧ file_ok b V1 i1 ∧ grows b V i V1 i1 ∧ (∀ j, 0 ≤ j < NINDIRECT → entry (V1 (ind i1)) j = 0) ∧
  ∀ bn r V2 bl2 i2, extended V1 (add (add bl (BBLOCK q b)) q) i1 bn r V2 bl2 i2 → extended V bl i bn r V2 bl2 i2.
Proof.
  intros Hok E Hf V1 i1. pose proof (adds_slot b Hg V i NDIRECT q Hok Hf ltac:(unfold NDIRECT; lia) E) as A. rewrite decide_True in A by done. fold i1 V1 in A.
  assert (Hi1 : ind i1 = q) by (rewrite (ad_ind _ _ _ _ _ _ _ A); by rewrite decide_True).
  assert (Hq0 : q ≠ 0) by (pose proof (dstart_pos Hg); destruct Hf; lia).
  pose proof (adds_ok _ Hg _ _ _ _ _ _ Hok Hf A) as Hok1. pose proof (adds_grows _ Hg _ _ _ _ _ _ Hok Hf A) as G1.
  split_and!; [done|done|done|intros j Hj; rewrite Hi1; by apply entry_zero|]. intros bn r V2 bl2 i2. apply extended_trans; try done.
  - rewrite Hi1. apply Hf.
  - intros bm Hbm. rewrite (ad_addr _ _ _ _ _ _ _ A), decide_False; [done| |done]. destruct Hbm. lia.
  - intros x. by eapply adds_quiet.
  - unfold cost. rewrite Hi1, E, (proj2 (Z.eqb_neq q 0)), decide_True by (done || (rewrite elem_add; by left)). cbn [Z.eqb].
    pose proof (add_length bl (BBLOCK q b)). pose proof (add_length (add bl (BBLOCK q b)) q). lia.
Qed.
Lemma bmap_spec {B} (K : Z → M fsys B) Φ s V bl ip i bn k : FX (ls s) V bl ∅ → sb s = b → itable s !! ip = Some i →
  file_ok b V i → meta_used b V → in_file bn → room bl ∅ 6 →
  (baddr V i bn ≠ 0 → ∀ l' k', FX l' V bl ∅ → wp (K (baddr V i bn)) Φ (World h k' (s <| ls := l' |>))) →
  (baddr V i bn = 0 → ∀ r l' k' V' bl' i', FX l' V' bl' ∅ → extended V bl i bn r V' bl' i' → wp (K r) Φ (World h k' (put s l' ip i'))) →
  wp (bind (bmap ip bn) K) Φ (World h k s).
Proof.
  intros HF Hsb Hi Hok Hm [Hb0 Hb1] Hroom H1 H2. unfold bmap.
  assert (Hself : ∀ a k', wp (K a) Φ (World h k' (s <| ls := ls s |>)) → wp (K a) Φ (World h k' s)) by (by destruct s).
  assert (Hnone : baddr V i bn = 0 → ∀ l' k', full b V → FX l' V bl ∅ → wp (K 0) Φ (World h k' (s <| ls := l' |>))).
  { intros E l' k' Hfull HF'. rewrite <- (put_id s l' ip i) by done. apply (H2 E 0 l' k' V bl i HF'). by apply extended_none. }
  pose proof (room_le _ _ _ 2 Hroom ltac:(lia)) as Hroom2. unfold baddr in *.
  destruct (Z.ltb_spec bn NDIRECT) as [Hlt|Hge].
  - eapply bmap_slot_spec; try done; [lia| |].
    + intros Hne. apply Hself. by apply H1.
    + intros E r l' k' Hf HF'. eapply H2; [done|exact HF'|]. by apply extended_slot.
  - change (bn - NDIRECT <? NINDIRECT) with (bn - NDIRECT <? NINDIRECT). unfold MAXFILE in Hb1.
    rewrite (proj2 (Z.ltb_lt _ _)) by lia. apply wp_assoc. eapply (bmap_slot_spec _ _ _ V bl ip i NDIRECT); try done.
    + intros Hne. rewrite (proj2 (Z.eqb_neq _ 0)) in * by done. eapply bmap_entry_spec; try done; [lia|apply (room_le _ _ _ _ Hroom); lia|].
      * intros E r l' k' Hf HF'. rewrite <- (put_id s l' ip i) by done. eapply H2; [done|exact HF'|]. by apply extended_entry.
    + intros E q l1 k1 Hf HF1. destruct (extended_first V bl i q Hok E Hf) as (Hi1 & Hok1 & G1 & He & HX). set (i1 := i <| iaddrs ::= _ |>) in *.
      specialize (He (bn - NDIRECT) ltac:(lia)). assert (Hq0 : q ≠ 0) by (pose proof (dstart_pos Hg); destruct Hf; lia). rewrite (proj2 (Z.eqb_neq q 0)) by done.
      assert (Hm1 : meta_used b (allocated b V q)) by (intros x Hx; by apply (gr_used _ _ _ _ _ G1), Hm).
      rewrite <- Hi1 at 1. eapply bmap_entry_spec; [exact HF1|done|by eapply put_at|done|done|by rewrite Hi1|lia| |by rewrite He| |].
      * apply room_add, room_add. exact Hroom.
      * intros _ r l2 k2 Hf2 HF2. change ((put s l1 ip i1) <| ls := l2 |>) with (put s l2 ip i1). eapply H2; [by rewrite E|exact HF2|]. apply HX. apply extended_entry; try done. by rewrite Hi1.
      * intros _ l2 k2 Hfull HF2. change ((put s l1 ip i1) <| ls := l2 |>) with (put s l2 ip i1). eapply H2; [by rewrite E|exact HF2|]. apply HX, extended_none; try done.
        unfold baddr. rewrite (proj2 (Z.ltb_ge _ _)), He by lia. by destruct (ind i1 =? 0).
    + intros E l' k' Hfull HF'. cbn [Z.eqb]. apply wp_bind, wp_ret. apply Hnone; [by rewrite E|done|done].
Qed.
End inode.
