(* ===== verification/FsRW.v ===== *)
(** * Reading and writing files: readi, writei and iupdate of kernel/fs.c

    readi returns the bytes of the file and writei changes exactly the ones it
    is given, keeps the file well formed, touches no block of another file and
    stays within the blocks its caller reserved in the log. *)
From S2P Require Import Prelude Param CString Mem Bio BioSpec Cache Log LogSpec LogTx Fs FsBlock FsInode.
Import Fs.

Lemma wp_bind_ret_l {S A B C} (m : M S A) (x : B) (f : B → M S C) Φ w : wp (m;; f x) Φ w → wp (m;; (y ← ret x; f y)) Φ w.
Proof. done. Qed.

(** ** Copies between memories *)
Lemma rdb_copy_bytes n : ∀ dst d src s a, rdb (copy_bytes n dst d src s) a =
  if within d (Z.of_nat n) a then rdb src (s + (a - d)) else rdb dst a.
Proof.
  induction n as [|n IH]; intros dst d src s a; cbn [copy_bytes].
  - rewrite (proj2 (within_false _ _ _)) by lia. done.
  - rewrite IH, rdb_wrb, u8_rdb. destruct (within (d + 1) (Z.of_nat n) a) eqn:E.
    + apply within_spec in E. rewrite (proj2 (within_spec _ _ _)) by lia. f_equal. lia.
    + apply within_false in E. case_decide as E'.
      * subst a. rewrite (proj2 (within_spec _ _ _)) by lia. f_equal. lia.
      * rewrite (proj2 (within_false _ _ _)) by lia. done.
Qed.
Lemma copy_mapped_all n : ∀ um at_ dst d src s, (∀ j, 0 ≤ j < Z.of_nat n → um (PGROUNDDOWN (at_ + j)) = true) →
  copy_mapped n um at_ dst d src s = (copy_bytes n dst d src s, 0).
Proof.
  induction n as [|n IH]; intros um at_ dst d src s H; cbn [copy_mapped copy_bytes]; [done|].
  pose proof (H 0 ltac:(lia)) as H0. rewrite Z.add_0_r in H0. rewrite H0. apply IH. intros j Hj.
  replace (at_ + 1 + j) with (at_ + (j + 1)) by lia. apply H. lia.
Qed.
(** The memory that holds the caller's buffer, and when all of it can be accessed. *)
Definition target (user : bool) (s : fsys) : mem := if user then um s else km s.
Definition set_target (user : bool) (m : mem) (s : fsys) : fsys := if user then s <| um := m |> else s <| km := m |>.
Definition reach (user : bool) (s : fsys) (a n : Z) : Prop := user = true → ∀ j, 0 ≤ j < n → umap s (PGROUNDDOWN (a + j)) = true.

Lemma fbyte_block V i off j : 0 ≤ j → off mod BSIZE + j < BSIZE →
  fbyte V i (off + j) = rdb (V (baddr V i (off / BSIZE))) (off mod BSIZE + j).
Proof.
  intros Hj Hlt. pose proof (Z.mod_pos_bound off BSIZE ltac:(done)) as Hm. unfold fbyte.
  assert (E : off + j = off mod BSIZE + j + (off / BSIZE) * BSIZE) by (pose proof (Z.div_mod off BSIZE ltac:(done)); lia).
  rewrite E, Z.div_add, Z.mod_add, Z.div_small, Z.mod_small by (done || lia). done.
Qed.
(** The blocks that [n] bytes from [off] on reach into. *)
Definition turns (off n : Z) : Z := (off mod BSIZE + n + (BSIZE - 1)) / BSIZE.
Definition chunk (off n : Z) : Z := min n (BSIZE - off mod BSIZE).
Lemma chunk_in_block off n : 0 < n → 0 < chunk off n ≤ n ∧ off mod BSIZE + chunk off n ≤ BSIZE.
Proof.
  intros Hn. pose proof (Z.mod_pos_bound off BSIZE ltac:(done)). unfold chunk, min. destruct (Z.ltb_spec n (BSIZE - off mod BSIZE)); lia.
Qed.
Lemma turns_step off n : 0 < n → chunk off n = n ∨ turns (off + chunk off n) (n - chunk off n) = turns off n - 1.
Proof.
  intros Hn. pose proof (Z.mod_pos_bound off BSIZE ltac:(done)) as Hm. unfold chunk, min.
  destruct (Z.ltb_spec n (BSIZE - off mod BSIZE)); [by left|]. right. unfold turns.
  assert (E : off + (BSIZE - off mod BSIZE) = 0 + (off / BSIZE + 1) * BSIZE) by (pose proof (Z.div_mod off BSIZE ltac:(done)); lia).
  rewrite E, Z.mod_add, Z.mod_0_l by done.
  replace (off mod BSIZE + n + (BSIZE - 1)) with (0 + (n - (BSIZE - off mod BSIZE)) + (BSIZE - 1) + 1 * BSIZE) by lia.
  rewrite Z.div_add by done. lia.
Qed.
Lemma turns_pos off n : 0 < n → 1 ≤ turns off n.
Proof.
  intros Hn. pose proof (Z.mod_pos_bound off BSIZE ltac:(done)). unfold turns. apply Z.div_le_lower_bound; [done|]. lia.
Qed.
Lemma turns_fuel off n : 0 ≤ n → turns off n ≤ n / BSIZE + 2.
Proof.
  intros Hn. pose proof (Z.mod_pos_bound off BSIZE ltac:(done)). unfold turns.
  pose proof (Z.div_mod n BSIZE ltac:(done)). pose proof (Z.mod_pos_bound n BSIZE ltac:(done)).
  assert ((off mod BSIZE + n + (BSIZE - 1)) / BSIZE < n / BSIZE + 3); [|lia]. apply Z.div_lt_upper_bound; [done|]. unfold BSIZE in *. lia.
Qed.

(** The bytes readi returns. *)
Definition count (i : inode) (off n : Z) : Z :=
  if (isize i <? off) || (2 ^ 32 <=? off + n) then 0 else Z.min n (isize i - off).
Lemma u32_wraps off n : 0 ≤ off < 2 ^ 32 → 0 ≤ n < 2 ^ 32 → (u32 (off + n) <? off) = (2 ^ 32 <=? off + n).
Proof.
  intros Ho Hn. unfold u32. destruct (Z.leb_spec (2 ^ 32) (off + n)).
  - apply Z.ltb_lt. replace (off + n) with (off + n - 2 ^ 32 + 1 * 2 ^ 32) by lia. rewrite Z.mod_add, Z.mod_small; lia.
  - apply Z.ltb_ge. rewrite Z.mod_small; lia.
Qed.

Section rw.
Context {h : list lock} `{MT : !Mounted h}.
Local Abbreviation b := m_sb.
Local Abbreviation Hg := m_geometry.
Definition copied (m : mem) (dst n : Z) (f : Z → Z) (m' : mem) : Prop :=
  ∀ a, rdb m' a = if within dst n a then f (a - dst) else rdb m a.
Lemma either_copyout_spec {B} (K : Z → M fsys B) Φ user dst src o len s k : 0 ≤ len → reach user s dst len →
  (∀ m', copied (target user s) dst len (λ j, rdb src (o + j)) m' → wp (K 0) Φ (World h k (set_target user m' s))) →
  wp (bind (either_copyout user dst src o len) K) Φ (World h k s).
Proof.
  intros Hlen Hreach HK. unfold either_copyout, target, set_target, copied in *. destruct user.
  - apply wp_bind, wp_bind, wp_gets. cbn [st]. rewrite copy_mapped_all by (intros j Hj; apply Hreach; [done|lia]). cbn [fst snd].
    apply wp_bind, wp_modify, wp_ret. apply HK. intros a. by rewrite rdb_copy_bytes, Z2Nat.id.
  - apply wp_bind, wp_bind, wp_modify, wp_ret. apply (HK (copy_bytes (Z.to_nat len) (km s) dst src o)). intros a. by rewrite rdb_copy_bytes, Z2Nat.id.
Qed.
Lemma readi_loop_spec {B} (K : Z → M fsys B) Φ user V bl ip i dst off n : file_ok b V i → meta_used b V → room bl ∅ 6 →
  0 ≤ off → off + n ≤ isize i → ∀ fuel tot s k, FX (ls s) V bl ∅ → sb s = b → itable s !! ip = Some i → 0 ≤ tot ≤ n →
  (tot < n → turns (off + tot) (n - tot) ≤ Z.of_nat fuel) → reach user s (dst + tot) (n - tot) →
  (∀ l' k' m', FX l' V bl ∅ → copied (target user s) (dst + tot) (n - tot) (λ j, fbyte V i (off + tot + j)) m' →
     wp (K n) Φ (World h k' (set_target user m' (s <| ls := l' |>)))) →
  wp (bind (readi_loop fuel ip user n tot (off + tot) (dst + tot)) K) Φ (World h k s).
Proof.
  intros Hok Hm Hroom Hoff Hsz. induction fuel as [|fuel IH]; intros tot s k HF Hsb Hi Htot Hfuel Hreach HK; cbn [readi_loop].
  all: destruct (Z.ltb_spec tot n) as [Hlt|Hge].
  1:{ pose proof (turns_pos (off + tot) (n - tot)). specialize (Hfuel Hlt). lia. }
  1,3: apply wp_bind, wp_ret; assert (tot = n) as -> by lia;
    replace s with (set_target user (target user s) (s <| ls := ls s |>)) by (by destruct user, s);
    apply HK; [done|]; intros a; rewrite (proj2 (within_false _ _ _)) by lia; done.
  set (o := off + tot) in *. pose proof (chunk_in_block o (n - tot) ltac:(lia)) as [Hc1 Hc2].
  pose proof (Z.mod_pos_bound o BSIZE ltac:(done)) as Hmod. pose proof (Z.div_mod o BSIZE ltac:(done)) as Hdm.
  assert (Hbn : in_file (o / BSIZE)).
  { pose proof (fo_size _ _ _ Hok). split; [apply Z.div_pos; [lia|done]|]. apply Z.div_lt_upper_bound; [done|]. unfold o. lia. }
  pose proof (fo_hole _ _ _ Hok (o / BSIZE) (proj1 Hbn) ltac:(lia)) as Hne.
  apply wp_assoc. eapply bmap_spec; try done. intros _ l1 k1 HF1.
  rewrite (proj2 (Z.eqb_neq _ 0)) by done. apply wp_assoc. eapply wp_geti; [done|]. rewrite (fo_dev _ _ _ Hok).
  apply wp_assoc. eapply (fs_bread _ _ _ V bl ∅); [exact HF1|done|apply (room_le _ _ _ _ Hroom); lia|]. intros x l2 HF2.
  change (s <| ls := l1 |> <| ls := l2 |>) with (s <| ls := l2 |>). cbv zeta. fold (chunk o (n - tot)). set (c := chunk o (n - tot)) in *.
  apply wp_assoc. eapply fs_bdata; [exact HF2|apply lookup_insert_eq|].
  apply wp_assoc. apply either_copyout_spec; [lia| |].
  { intros Hu j Hj. apply Hreach; [done|lia]. }
  intros m1 Hm1. cbn [Z.eqb]. apply wp_assoc. assert (Hls : ls (set_target user m1 (s <| ls := l2 |>)) = l2) by (by destruct user).
  eapply (fs_brelse _ _ _ V bl); [rewrite Hls; exact HF2|apply lookup_insert_eq|]. intros l3 k3 HF3. rewrite delete_insert_id in HF3 by done.
  replace (o + c) with (off + (tot + c)) by (unfold o; lia). replace (dst + tot + c) with (dst + (tot + c)) by lia.
  set (s3 := (set_target _ _ _) <| ls := l3 |>). assert (Hl3 : ls s3 = l3) by (by destruct user).
  apply IH; [by rewrite Hl3|by destruct user|by destruct user|lia| | |].
  - intros Hlt'. destruct (turns_step o (n - tot)) as [E|E]; [lia|fold c in E; lia|]. fold c in E. specialize (Hfuel Hlt).
    replace (off + (tot + c)) with (o + c) by (unfold o; lia). replace (n - (tot + c)) with (n - tot - c) by lia. lia.
  - intros Hu j Hj. replace (umap s3) with (umap s) by (by destruct user).
    replace (dst + (tot + c) + j) with (dst + tot + (c + j)) by lia. apply Hreach; [done|lia].
  - intros l4 k4 m4 HF4 Hm4.
    replace (set_target user m4 (s3 <| ls := l4 |>)) with (set_target user m4 (s <| ls := l4 |>)) by (by destruct user).
    apply HK; [done|]. intros y. rewrite (Hm4 y). replace (target user s3) with m1 by (by destruct user).
    destruct (within (dst + (tot + c)) (n - (tot + c)) y) eqn:E1; [apply within_spec in E1|apply within_false in E1; rewrite (Hm1 y)].
    + rewrite (proj2 (within_spec _ _ _)) by lia. f_equal. unfold o. lia.
    + destruct (within (dst + tot) c y) eqn:E2; [apply within_spec in E2|apply within_false in E2].
      * rewrite (proj2 (within_spec _ _ _)) by lia. rewrite fbyte_block by lia. done.
      * rewrite (proj2 (within_false _ _ _)) by lia. by destruct user.
Qed.
Lemma readi_spec {B} (K : Z → M fsys B) Φ user s V bl ip i dst off n k : FX (ls s) V bl ∅ → sb s = b → itable s !! ip = Some i →
  file_ok b V i → meta_used b V → room bl ∅ 6 → 0 ≤ off < 2 ^ 32 → 0 ≤ n < 2 ^ 32 → reach user s dst (count i off n) →
  (∀ l' k' m', FX l' V bl ∅ → copied (target user s) dst (count i off n) (λ j, fbyte V i (off + j)) m' →
     wp (K (count i off n)) Φ (World h k' (set_target user m' (s <| ls := l' |>)))) →
  wp (bind (readi ip user dst off n) K) Φ (World h k s).
Proof.
  intros HF Hsb Hi Hok Hm Hroom Ho Hn Hreach HK. unfold readi. apply wp_assoc. eapply wp_geti; [done|].
  rewrite (u32_wraps _ _ Ho Hn), Z.gtb_ltb. unfold count in *. destruct ((isize i <? off) || (2 ^ 32 <=? off + n)) eqn:E.
  - apply wp_bind, wp_ret. replace s with (set_target user (target user s) (s <| ls := ls s |>)) by (by destruct user, s).
    apply HK; [done|]. intros a. rewrite (proj2 (within_false _ _ _)) by lia. done.
  - apply orb_false_iff in E as [E1%Z.ltb_ge E2%Z.leb_gt]. rewrite u32_small, Z.gtb_ltb by lia.
    assert (Hcnt : (if isize i <? off + n then isize i - off else n) = Z.min n (isize i - off)) by (destruct (Z.ltb_spec (isize i) (off + n)); lia).
    rewrite Hcnt. set (c := Z.min n (isize i - off)) in *. pose proof (turns_fuel off c ltac:(lia)). pose proof (Z.div_pos c BSIZE ltac:(lia) ltac:(done)).
    rewrite <- (Z.add_0_r off), <- (Z.add_0_r dst) at 1.
    eapply readi_loop_spec; try done; rewrite ?Z.add_0_r, ?Z.sub_0_r; try done; try lia.
Qed.

(** ** Writing one block of a file *)
Lemma write_baddr V i bn f bm : file_ok b V i → in_file bn → baddr V i bn ≠ 0 → in_file bm →
  baddr (updV V (baddr V i bn) f) i bm = baddr V i bm.
Proof.
  intros HF Hbn Hne [H0 _]. unfold baddr at 1 3. destruct (bm <? NDIRECT); [done|]. destruct (Z.eqb_spec (ind i) 0); [done|].
  rewrite updV_ne; [done|]. intros E. by apply (fo_ind _ _ _ HF bn Hbn Hne).
Qed.
Lemma write_own V i bn f x : file_ok b V i → in_file bn → baddr V i bn ≠ 0 → own (updV V (baddr V i bn) f) i x ↔ own V i x.
Proof.
  intros HF Hbn Hne. unfold own. split; intros (Hx & [Hi|(bm & Hbm & E)]); (split; [done|]); [by left| |by left|];
    right; exists bm; (split; [done|]); by rewrite (write_baddr V i bn f bm) in *.
Qed.
Lemma own_baddr V i bn : in_file bn → baddr V i bn ≠ 0 → own V i (baddr V i bn).
Proof. intros Hbn Hne. split; [done|]. right. eauto. Qed.
Lemma write_grows V i bn f : file_ok b V i → in_file bn → baddr V i bn ≠ 0 → grows b V i (updV V (baddr V i bn) f) i.
Proof.
  intros HF Hbn Hne. destruct (fo_own _ _ _ HF _ (own_baddr V i bn Hbn Hne)) as [Hd Hu]. split.
  - by destruct i.
  - intros bm Hbm _. by apply write_baddr.
  - done.
  - intros x Hx. left. by apply (write_own V i bn f).
  - intros x Hx. by rewrite used_data by lia.
  - intros x Hx. rewrite used_data in Hx by lia. by left.
  - intros x Hdx _ Hx. apply updV_ne. intros ->. by apply Hx, own_baddr.
  - intros x Hx. apply updV_ne. pose proof (BBLOCK_below (baddr V i bn) (used_range _ _ _ Hu)). lia.
Qed.
Lemma write_ok V i bn f : file_ok b V i → in_file bn → baddr V i bn ≠ 0 → file_ok b (updV V (baddr V i bn) f) i.
Proof.
  intros HF Hbn Hne. destruct (fo_own _ _ _ HF _ (own_baddr V i bn Hbn Hne)) as [Hd Hu]. split; try apply HF.
  - intros x Hx%write_own; try done. destruct (fo_own _ _ _ HF x Hx). split; [done|]. by rewrite used_data by lia.
  - intros x y Hx Hy. rewrite !write_baddr by done. by apply HF.
  - intros x Hx. rewrite !write_baddr by done. by apply HF.
  - intros x H0 Hlt. pose proof (fo_size _ _ _ HF). rewrite write_baddr; try done; [by apply HF|]. split; [done|]. unfold BSIZE in *. lia.
Qed.

(** ** writei *)
(** Bytes [off, off + n) of the file become [f 0, f 1, ...]; a block added
    to the file is 0 elsewhere, and the rest is as it was. *)
Record wrote (V0 : Z → block) (i0 : inode) (V : Z → block) (i : inode) (off n : Z) (f : Z → Z) : Prop := {
  wr_ok : file_ok b V i;
  wr_grows : grows b V0 i0 V i;
  wr_new o : off ≤ o < off + n → baddr V i (o / BSIZE) ≠ 0 ∧ fbyte V i o = f (o - off);
  wr_old o : in_file (o / BSIZE) → ¬ off ≤ o < off + n → baddr V0 i0 (o / BSIZE) ≠ 0 → fbyte V i o = fbyte V0 i0 o;
  wr_zero o : in_file (o / BSIZE) → ¬ off ≤ o < off + n → baddr V0 i0 (o / BSIZE) = 0 → baddr V i (o / BSIZE) ≠ 0 → fbyte V i o = 0;
}.
Lemma div_in_file o : 0 ≤ o < MAXFILE * BSIZE → in_file (o / BSIZE).
Proof. intros Ho. split; [apply Z.div_pos; [lia|done]|]. apply Z.div_lt_upper_bound; [done|]. unfold BSIZE in *. lia. Qed.
Lemma wrote_trans V0 i0 V1 i1 V2 i2 off c n f : wrote V0 i0 V1 i1 off c f → wrote V1 i1 V2 i2 (off + c) n (λ j, f (c + j)) →
  0 ≤ c → 0 ≤ n → 0 ≤ off → off + c + n ≤ MAXFILE * BSIZE → wrote V0 i0 V2 i2 off (c + n) f.
Proof.
  intros W1 W2 Hc Hn Ho Hmax. pose proof (wr_grows _ _ _ _ _ _ _ W1) as G1. pose proof (wr_grows _ _ _ _ _ _ _ W2) as G2. split.
  - apply W2.
  - by eapply grows_trans.
  - intros o Hr. pose proof (div_in_file o ltac:(lia)) as Hin. destruct (Z.lt_ge_cases o (off + c)).
    + destruct (wr_new _ _ _ _ _ _ _ W1 o ltac:(lia)) as [Ha Hb]. split; [by rewrite (gr_addr _ _ _ _ _ G2)|].
      rewrite (wr_old _ _ _ _ _ _ _ W2); try done. lia.
    + destruct (wr_new _ _ _ _ _ _ _ W2 o ltac:(lia)) as [Ha Hb]. split; [done|]. rewrite Hb. f_equal. lia.
  - intros o Hin Hr Ha. rewrite (wr_old _ _ _ _ _ _ _ W2); try done; [|lia|by rewrite (gr_addr _ _ _ _ _ G1)].
    apply (wr_old _ _ _ _ _ _ _ W1); try done. lia.
  - intros o Hin Hr Ha Ha2. destruct (Z.eq_dec (baddr V1 i1 (o / BSIZE)) 0) as [E|E].
    + apply (wr_zero _ _ _ _ _ _ _ W2); try done. lia.
    + rewrite (wr_old _ _ _ _ _ _ _ W2); try done; [|lia]. apply (wr_zero _ _ _ _ _ _ _ W1); try done. lia.
Qed.
Lemma wrote_extended V bl i bn r V' bl' i' off f : file_ok b V i → extended V bl i bn r V' bl' i' → wrote V i V' i' off 0 f.
Proof.
  intros HF X. pose proof (x_grows _ _ _ _ _ _ _ _ X) as G. split.
  - apply X.
  - apply G.
  - intros. lia.
  - intros o Hin _ Ha. unfold fbyte. rewrite (gr_addr _ _ _ _ _ G) by done.
    rewrite (x_quiet _ _ _ _ _ _ _ _ X); [done|by apply own_baddr|by apply (fo_ind _ _ _ HF)].
  - intros o Hin _ Ha Ha'. destruct (Z.eq_dec (o / BSIZE) bn) as [<-|Hne]; [|by rewrite (x_only _ _ _ _ _ _ _ _ X) in Ha'].
    unfold fbyte. rewrite (x_addr _ _ _ _ _ _ _ _ X) in Ha' |- *. apply (x_zero _ _ _ _ _ _ _ _ X Ha'). by apply Z.mod_pos_bound.
Qed.
Lemma wrote_block V i off c m src : file_ok b V i → in_file (off / BSIZE) → baddr V i (off / BSIZE) ≠ 0 → 0 ≤ c → off mod BSIZE + c ≤ BSIZE →
  let a := baddr V i (off / BSIZE) in
  wrote V i (updV V a (copy_bytes (Z.to_nat c) (V a) (off mod BSIZE) m src)) i off c (λ j, rdb m (src + j)).
Proof.
  intros HF Hin Hne Hc Hfit a. pose proof (Z.mod_pos_bound off BSIZE ltac:(done)) as Hmod. set (x := copy_bytes _ _ _ _ _).
  assert (HB : ∀ bm, in_file bm → baddr (updV V a x) i bm = baddr V i bm) by (intros; by apply write_baddr). split.
  - by apply write_ok.
  - by apply write_grows.
  - intros o Ho. replace o with (off + (o - off)) by lia. assert (E : (off + (o - off)) / BSIZE = off / BSIZE).
    { symmetry. apply (Z.div_unique _ _ _ (off mod BSIZE + (o - off))); [lia|]. pose proof (Z.div_mod off BSIZE ltac:(done)). lia. }
    rewrite E, fbyte_block, HB by (done || lia). split; [done|]. fold a. rewrite updV_eq. unfold x.
    rewrite rdb_copy_bytes, Z2Nat.id, (proj2 (within_spec _ _ _)) by lia. f_equal. lia.
  - intros o Hino Hr Ha. unfold fbyte. rewrite HB by done. destruct (Z.eq_dec (o / BSIZE) (off / BSIZE)) as [E|E].
    + rewrite E. fold a. rewrite updV_eq. unfold x. rewrite rdb_copy_bytes, Z2Nat.id by done. rewrite (proj2 (within_false _ _ _)); [done|].
      pose proof (Z.div_mod off BSIZE ltac:(done)). pose proof (Z.div_mod o BSIZE ltac:(done)). rewrite E in *. lia.
    + rewrite updV_ne; [done|]. intros E'. apply E. by apply (fo_inj _ _ _ HF).
  - intros o Hino Hr Ha Ha'. by rewrite HB in Ha'.
Qed.
Lemma write_turn {B} (K K' : M fsys B) Φ s V bl a x user o src c k : FX (ls s) V bl (<[a := x]> ∅) → home m_start a → room bl ∅ 1 →
  0 ≤ c → reach user s src c →
  (∀ l' k', FX l' (updV V a (copy_bytes (Z.to_nat c) (V a) o (target user s) src)) (add bl a) ∅ → wp K Φ (World h k' (s <| ls := l' |>))) →
  wp (r ← either_copyin x o user src c; if r =? -1 then K' else log_write x;; brelse x;; K) Φ (World h k s).
Proof.
  intros HF Hhome Hroom Hc Hreach HK. unfold either_copyin. apply wp_assoc.
  eapply (fs_bdata _ _ _ _ _ _ a); [exact HF|apply lookup_insert_eq|]. apply wp_assoc, wp_bind, wp_gets. cbn [st].
  set (m := copy_bytes (Z.to_nat c) (V a) o (target user s) src).
  assert (E : (if user then copy_mapped (Z.to_nat c) (umap s) src (V a) o (um s) src else (copy_bytes (Z.to_nat c) (V a) o (km s) src, 0)) = (m, 0)).
  { unfold m, target. destruct user; [|done]. apply copy_mapped_all. intros j Hj. apply Hreach; [done|lia]. }
  rewrite E. cbn [fst snd]. apply wp_assoc, wp_bind_ret_l. cbn [Z.eqb].
  eapply (fs_update _ _ _ _ _ _ a); [exact HF|apply lookup_insert_eq|done|by apply room_insert|]. intros l1 HF1.
  eapply (fs_brelse _ _ _ _ _ _ a); [exact HF1|apply lookup_insert_eq|]. intros l2 k2 HF2. rewrite delete_insert_id in HF2 by done. by apply HK.
Qed.
Lemma cost_add bl i x : (cost (add bl x) i ≤ cost bl i + 1)%nat.
Proof.
  unfold cost. pose proof (add_length bl x). destruct (ind i =? 0); [lia|]. destruct (decide (ind i ∈ bl)); [|case_decide; lia].
  rewrite decide_True; [lia|]. rewrite elem_add. by right.
Qed.
Lemma add_in bl x : x ∈ bl → add bl x = bl.
Proof. intros. unfold add. by rewrite decide_True. Qed.
Lemma room_cost bl i n : (cost bl i + n < 29)%nat → room bl ∅ n.
Proof. unfold room, cost. rewrite map_size_empty. lia. Qed.
Lemma meta_grows V i V' i' : grows b V i V' i' → meta_used b V → meta_used b V'.
Proof. intros G Hm x Hx. by apply (gr_used _ _ _ _ _ G), Hm. Qed.
Definition has_block (V : Z → block) (i : inode) (off n : Z) : nat := if (0 <? n) && negb (baddr V i (off / BSIZE) =? 0) then 1 else 0.
Definition steps (off n : Z) : nat := if 0 <? n then Z.to_nat (turns off n) else 0.
Lemma steps_step off n : 0 < n → (steps (off + chunk off n) (n - chunk off n) + 1 ≤ steps off n)%nat.
Proof.
  intros Hn. unfold steps. rewrite (proj2 (Z.ltb_lt 0 n) Hn). pose proof (turns_pos off n Hn).
  destruct (turns_step off n Hn) as [->|E]; [rewrite Z.sub_diag; cbn; lia|]. destruct (Z.ltb_spec 0 (n - chunk off n)); lia.
Qed.
Lemma wrote_ext V i V' i' o c f g : (∀ j, f j = g j) → wrote V i V' i' o c f → wrote V i V' i' o c g.
Proof. intros E [? ? Hnew ? ?]. split; try done. intros x Hx. rewrite <- E. by apply Hnew. Qed.
Definition ends_with (user : bool) (s : fsys) (V : Z → block) (bl : list Z) (i : inode) (off src n c : Z) (V' : Z → block) (bl' : list Z) (i' : inode) : Prop :=
  0 ≤ c ≤ n ∧ wrote V i V' i' off c (λ j, rdb (target user s) (src + j)) ∧ (c < n → full b V' ∧ baddr V' i' ((off + c) / BSIZE) = 0) ∧
  (cost bl' i' + has_block V i off n ≤ cost bl i + 2 * steps off n)%nat.
Lemma ends_with_cons user s s' V bl i V1 bl1 i1 V2 bl2 i2 off src n c : 0 < n → let m := chunk off n in
  target user s' = target user s →
  wrote V i V1 i1 off m (λ j, rdb (target user s) (src + j)) → (cost bl1 i1 + has_block V i off n ≤ cost bl i + 2)%nat →
  0 ≤ off → off + n ≤ MAXFILE * BSIZE →
  ends_with user s' V1 bl1 i1 (off + m) (src + m) (n - m) c V2 bl2 i2 → ends_with user s V bl i off src n (m + c) V2 bl2 i2.
Proof.
  intros Hn m Ht W1 Hc1 Ho Hmax (Hc & W2 & Hfull & Hcost). rewrite Ht in W2. pose proof (chunk_in_block off n Hn) as [Hm _]. fold m in Hm.
  pose proof (steps_step off n Hn) as Hst. fold m in Hst. unfold ends_with. split_and!; [lia|lia| |intros; rewrite Z.add_assoc; apply Hfull; lia|lia].
  eapply wrote_trans; [exact W1| |lia|lia|lia|lia].
  eapply wrote_ext; [|exact W2]. intros j. cbn. f_equal. lia.
Qed.
Lemma wrote_refl V i o f : file_ok b V i → wrote V i V i o 0 f.
Proof. intros HF. split; [done|apply grows_refl|intros; lia|done|done]. Qed.
Lemma ends_with_nil user s V bl i off src : file_ok b V i → ends_with user s V bl i off src 0 0 V bl i.
Proof. intros HF. split_and!; [lia|lia|by apply wrote_refl|lia|]. unfold has_block, steps. cbn. lia. Qed.
(** A block added before the disk was full. *)
Lemma ends_with_full user s V bl i off src n V' bl' i' : file_ok b V i → 0 < n → baddr V i (off / BSIZE) = 0 →
  extended V bl i (off / BSIZE) 0 V' bl' i' → ends_with user s V bl i off src n 0 V' bl' i'.
Proof.
  intros HF Hn E X. split_and!; [lia|lia|by eapply wrote_extended|intros _; rewrite Z.add_0_r; split; [by apply X|exact (x_addr _ _ _ _ _ _ _ _ X)]|].
  pose proof (x_cost _ _ _ _ _ _ _ _ X). pose proof (steps_step off n Hn). unfold has_block. rewrite E, andb_false_r. lia.
Qed.
Lemma length_add_le bl x : (length bl ≤ length (add bl x))%nat.
Proof. unfold add. case_decide; [done|]. rewrite length_app. lia. Qed.
(** The rest of a turn, once block [o / BSIZE] of the file has an address. *)
Lemma writei_turn {B} (W : M fsys B) W' Φ user s V i V1 bl1 i1 l1 ip o src N k :
  let a := baddr V1 i1 (o / BSIZE) in let m := chunk o N in let f := λ j, rdb (target user s) (src + j) in
  itable s !! ip = Some i → FX l1 V1 bl1 ∅ → wrote V i V1 i1 o 0 f → a ≠ 0 → 0 < N → 0 ≤ o → o + N ≤ MAXFILE * BSIZE → reach user s src m →
  (cost (add bl1 a) i1 < 28)%nat →
  (∀ l2 k2 V2, FX l2 V2 (add bl1 a) ∅ → wrote V i V2 i1 o m f → wp W Φ (World h k2 (put s l2 ip i1))) →
  wp (i' ← geti ip; bp ← bread (idev i') a; r ← either_copyin bp (o mod BSIZE) user src m;
      if r =? -1 then W' bp else log_write bp;; brelse bp;; W) Φ (World h k (put s l1 ip i1)).
Proof.
  intros a m f Hi HF W0 Ha HN Ho Hmax Hreach Hcost HK. pose proof (wr_ok _ _ _ _ _ _ _ W0) as Hok.
  pose proof (chunk_in_block o N HN) as [Hc1 Hc2]. fold m in Hc1, Hc2. pose proof (div_in_file o ltac:(lia)) as Hbn.
  assert (Hroom : room bl1 ∅ 1) by (pose proof (length_add_le bl1 a); unfold room, cost in *; rewrite map_size_empty; lia).
  eapply wp_geti; [by eapply put_at|]. rewrite (fo_dev _ _ _ Hok).
  eapply (fs_bread _ _ _ V1 bl1 ∅ a); [exact HF|done|by eapply room_le; [done|lia]|]. intros x l2 HF2.
  change ((put s l1 ip i1) <| ls := l2 |>) with (put s l2 ip i1).
  eapply write_turn; [exact HF2| |done|lia|done|].
  - apply dstart_home. destruct (fo_own _ _ _ Hok a); [by apply own_baddr|lia].
  - intros l3 k3 HF3. change ((put s l2 ip i1) <| ls := l3 |>) with (put s l3 ip i1). eapply HK; [exact HF3|].
    replace m with (0 + m) by lia. eapply wrote_trans; [exact W0| |lia|lia|lia|lia].
    rewrite Z.add_0_r. replace (0 + m) with m by lia. eapply wrote_ext; [|apply wrote_block; try done; lia].
    intros j. unfold f. cbn. by destruct user.
Qed.
Lemma writei_loop_spec {B} (K : Z * Z → M fsys B) Φ user ip n src off : 0 ≤ off → off + n ≤ MAXFILE * BSIZE →
  ∀ fuel tot s k V bl i, FX (ls s) V bl ∅ → sb s = b → itable s !! ip = Some i → file_ok b V i → meta_used b V → 0 ≤ tot ≤ n →
  (steps (off + tot) (n - tot) ≤ fuel)%nat → reach user s (src + tot) (n - tot) →
  (cost bl i + 2 * steps (off + tot) (n - tot) + 6 < 29)%nat →
  (∀ l' k' V' bl' i' c, FX l' V' bl' ∅ → ends_with user s V bl i (off + tot) (src + tot) (n - tot) c V' bl' i' →
     wp (K (tot + c, off + tot + c)) Φ (World h k' (put s l' ip i'))) →
  wp (bind (writei_loop fuel ip user n tot (off + tot) (src + tot)) K) Φ (World h k s).
Proof.
  intros Hoff Hmax. induction fuel as [|fuel IH]; intros tot s k V bl i HF Hsb Hi Hok Hm Htot Hfuel Hreach Hcost HK; cbn [writei_loop].
  all: destruct (Z.ltb_spec tot n) as [Hlt|Hge].
  1:{ pose proof (steps_step (off + tot) (n - tot)). lia. }
  1,3: apply wp_bind, wp_ret; assert (tot = n) as -> by lia; rewrite <- (Z.add_0_r n) at 1; rewrite <- (Z.add_0_r (off + n));
    replace s with (put s (ls s) ip i) by (rewrite put_id by done; by destruct s); apply (HK (ls s) k V bl i 0 HF);
    rewrite Z.sub_diag; by apply ends_with_nil.
  set (o := off + tot) in *. set (N := n - tot) in *. set (m := chunk o N) in *. pose proof (chunk_in_block o N ltac:(lia)) as [Hc1 Hc2]. fold m in Hc1, Hc2.
  pose proof (steps_step o N ltac:(lia)) as Hst. fold m in Hst. pose proof (div_in_file o ltac:(lia)) as Hbn.
  assert (Hnext : ∀ l1 k1 V1 bl1 i1, let a := baddr V1 i1 (o / BSIZE) in FX l1 V1 bl1 ∅ →
    wrote V i V1 i1 o 0 (λ j, rdb (target user s) (src + tot + j)) → a ≠ 0 → (cost (add bl1 a) i1 + has_block V i o N ≤ cost bl i + 2)%nat →
    wp (if a =? 0 then ret (tot, o) else i' ← geti ip; bp ← bread (idev i') a;
        let m := min N (BSIZE - o mod BSIZE) in r ← either_copyin bp (o mod BSIZE) user (src + tot) m;
        if r =? -1 then brelse bp;; ret (tot, o)
        else log_write bp;; brelse bp;; writei_loop fuel ip user n (tot + m) (o + m) (src + tot + m))
      (λ x, wp (K x) Φ) (World h k1 (put s l1 ip i1))).
  { intros l1 k1 V1 bl1 i1 a HF1 W1 Ha Hc. rewrite (proj2 (Z.eqb_neq a 0)) by done.
    eapply (writei_turn _ (λ bp, brelse bp;; ret (tot, o)) _ user s V i V1 bl1 i1 l1 ip o (src + tot) N k1); try done; try lia.
    { intros Hu j Hj. apply Hreach; [done|lia]. }
    { fold a. lia. }
    fold a m. intros l2 k2 V2 HF2 W2. change (min N (BSIZE - o mod BSIZE)) with m. replace (o + m) with (off + (tot + m)) by (unfold o; lia). replace (src + tot + m) with (src + (tot + m)) by lia.
    assert (E1 : off + (tot + m) = o + m) by (unfold o; lia). assert (E2 : n - (tot + m) = N - m) by (unfold N; lia).
    assert (E3 : src + (tot + m) = src + tot + m) by lia.
    apply wp_bind_inv. apply (IH (tot + m) _ k2 V2 (add bl1 a) i1); rewrite ?E1, ?E2, ?E3; try done; try lia.
    - by eapply put_at.
    - apply W2.
    - eapply meta_grows; [apply W2|done].
    - intros Hu j Hj. replace (src + tot + m + j) with (src + tot + (m + j)) by lia. apply Hreach; [done|lia].
    - intros l3 k3 V3 bl3 i3 c HF3 HE. rewrite put_put. replace (tot + m + c) with (tot + (m + c)) by lia. rewrite <- (Z.add_assoc o m c).
      eapply HK; [exact HF3|]. eapply ends_with_cons; [lia| |exact W2|exact Hc|lia|lia|exact HE]. by destruct user. }
  apply wp_bind. eapply bmap_spec; [exact HF|done|done|done|done|done|apply (room_cost _ i); lia| |].
  - intros Hne l1 k1 HF1. rewrite <- (put_id s l1 ip i) by done. apply (Hnext l1 k1 V bl i); [done|by apply wrote_refl|done|].
    unfold has_block. pose proof (cost_add bl i (baddr V i (o / BSIZE))). case_match; lia.
  - intros He r l1 k1 V1 bl1 i1 HF1 X. destruct (Z.eq_dec r 0) as [->|Hr].
    + apply wp_ret. rewrite <- (Z.add_0_r tot), <- (Z.add_0_r o). eapply HK; [exact HF1|]. apply ends_with_full; try done. lia.
    + pose proof (x_addr _ _ _ _ _ _ _ _ X) as Er. rewrite <- Er. apply (Hnext l1 k1 V1 bl1 i1); [done|by eapply wrote_extended|by rewrite Er|].
      rewrite Er, add_in by (by apply (x_zero _ _ _ _ _ _ _ _ X)). unfold has_block. rewrite He, andb_false_r.
      pose proof (x_cost _ _ _ _ _ _ _ _ X). lia.
Qed.

(** ** iupdate *)
Definition inode_ok (i : inode) : Prop := 0 ≤ inum i < ninodes b.
Lemma IBLOCK_range i : inode_ok i → inodestart b ≤ IBLOCK (inum i) b < bmapstart b.
Proof.
  intros [H0 H1]. destruct (g_inodes _ _ Hg). unfold IBLOCK in *. change IPB with 16 in *.
  pose proof (Z.div_pos (inum i) 16). pose proof (Z.div_le_mono (inum i) (ninodes b) 16). lia.
Qed.
(** The disk after iupdate. *)
Definition updated (V : Z → block) (i : inode) : Z → block :=
  updV V (IBLOCK (inum i) b) (put_dinode (V (IBLOCK (inum i) b)) (dinode_at (inum i)) i).
Lemma iupdate_spec {B} (K : M fsys B) Φ s V bl ip i k : FX (ls s) V bl ∅ → sb s = b → itable s !! ip = Some i → idev i = ROOTDEV →
  inode_ok i → room bl ∅ 1 →
  (∀ l' k', FX l' (updated V i) (add bl (IBLOCK (inum i) b)) ∅ → wp K Φ (World h k' (s <| ls := l' |>))) →
  wp (iupdate ip;; K) Φ (World h k s).
Proof.
  intros HF Hsb Hi Hdev Hin Hroom HK. unfold iupdate. apply wp_bind. eapply wp_geti; [done|]. apply wp_bind, wp_gets. cbn [st].
  rewrite Hsb, Hdev. eapply (fs_bread _ _ s V bl ∅); [exact HF|done|by eapply room_le; [done|lia]|]. intros x l1 HF1.
  eapply fs_update; [exact HF1|apply lookup_insert_eq|apply home_meta; by apply IBLOCK_range|by apply room_insert|]. intros l2 HF2.
  apply wp_seq_end. eapply fs_brelse; [exact HF2|apply lookup_insert_eq|]. intros l3 k3 HF3. rewrite delete_insert_id in HF3 by done.
  apply wp_ret. by apply HK.
Qed.
Section low.
Context (V : Z → block) (a : Z) (f : block) (Ha : a < bmapstart b).
Lemma low_dstart : bmapstart b < dstart b.
Proof. unfold dstart. destruct (g_size _ _ Hg). change BPB with 8192. pose proof (Z.div_pos (sbsize b - 1) 8192). lia. Qed.
Lemma low_used x : used b (updV V a f) x = used b V x.
Proof.
  unfold used. destruct (Z.leb_spec 0 x), (Z.ltb_spec x (sbsize b)); cbn [andb]; try done.
  rewrite updV_ne; [done|]. pose proof (BBLOCK_below (b := b) x). lia.
Qed.
Lemma low_baddr i bn : file_ok b V i → baddr (updV V a f) i bn = baddr V i bn.
Proof.
  intros HF. unfold baddr. destruct (bn <? NDIRECT); [done|]. destruct (Z.eqb_spec (ind i) 0) as [|Hne]; [done|].
  rewrite updV_ne; [done|]. destruct (ind_data _ _ _ HF Hne). pose proof low_dstart. lia.
Qed.
Lemma low_data i bn : file_ok b V i → in_file bn → baddr V i bn ≠ 0 → updV V a f (baddr V i bn) = V (baddr V i bn).
Proof. intros HF Hbn Hne. apply updV_ne. destruct (fo_own _ _ _ HF _ (own_baddr _ _ _ Hbn Hne)). pose proof low_dstart. lia. Qed.
Lemma low_own i x : file_ok b V i → own (updV V a f) i x ↔ own V i x.
Proof. intros HF. unfold own. split; intros (? & [?|(bn & ? & E)]); (split; [done|]); [by left| |by left|]; right; exists bn; rewrite low_baddr in *; done. Qed.
Lemma low_ok i : file_ok b V i → file_ok b (updV V a f) i.
Proof.
  intros HF. split; try apply HF.
  - intros x Hx%low_own; [|done]. destruct (fo_own _ _ _ HF x Hx). split; [done|]. by rewrite low_used.
  - intros x y Hx Hy. rewrite !low_baddr by done. by apply HF.
  - intros x Hx. rewrite !low_baddr by done. by apply HF.
  - intros x H0 H1. rewrite low_baddr by done. by apply HF.
Qed.
End low.

Definition resized (i : inode) (n : Z) : inode := if n >? isize i then i <| isize := n |> else i.
Lemma resized_ok V0 i0 V i off c f : wrote V0 i0 V i off c f → 0 ≤ off ≤ isize i → 0 ≤ c → off + c ≤ MAXFILE * BSIZE → file_ok b V (resized i (off + c)).
Proof.
  intros W Ho Hc Hmax. pose proof (wr_ok _ _ _ _ _ _ _ W) as HF. unfold resized. rewrite Z.gtb_ltb. destruct (Z.ltb_spec (isize i) (off + c)); [|done].
  split; try apply HF; [cbn; lia|]. intros bn H0 Hlt. cbn in Hlt. change (baddr V (i <| isize := off + c |>) bn) with (baddr V i bn).
  destruct (Z.lt_ge_cases (bn * BSIZE) (isize i)); [by apply HF|].
  destruct (wr_new _ _ _ _ _ _ _ W (bn * BSIZE)) as [Hne _]; [lia|]. by rewrite Z.div_mul in Hne.
Qed.
(** A write within the file or at its end, and within the largest file. *)
Definition writable (i : inode) (off n : Z) : Prop := off ≤ isize i ∧ off + n ≤ MAXFILE * BSIZE.
Lemma writei_spec {B} (K : Z → M fsys B) Φ user s V bl ip i src off n k : FX (ls s) V bl ∅ → sb s = b → itable s !! ip = Some i →
  file_ok b V i → inode_ok i → meta_used b V → 0 ≤ off < 2 ^ 32 → 0 ≤ n < 2 ^ 32 → reach user s src n →
  (cost bl i + 2 * steps off n + 6 < 29)%nat →
  (¬ writable i off n → wp (K (-1)) Φ (World h k s)) →
  (writable i off n → ∀ l' k' V1 bl1 i1 c, ends_with user s V bl i off src n c V1 bl1 i1 → let i' := resized i1 (off + c) in
     FX l' (updated V1 i') (add bl1 (IBLOCK (inum i) b)) ∅ → wp (K c) Φ (World h k' (put s l' ip i'))) →
  wp (bind (writei ip user src off n) K) Φ (World h k s).
Proof.
  intros HF Hsb Hi Hok Hin Hm Ho Hn Hreach Hcost Hbad Hgood. unfold writei. apply wp_assoc. eapply wp_geti; [done|].
  rewrite (u32_wraps _ _ Ho Hn), Z.gtb_ltb. destruct (Z.ltb_spec (isize i) off) as [H1|H1]; cbn [orb].
  { apply wp_bind, wp_ret, Hbad. unfold writable. lia. }
  destruct (Z.leb_spec (2 ^ 32) (off + n)) as [H2|H2]; cbn [orb].
  { apply wp_bind, wp_ret, Hbad. unfold writable, MAXFILE, BSIZE. change NINDIRECT with 256. change NDIRECT with 12. lia. }
  rewrite u32_small, Z.gtb_ltb by lia. destruct (Z.ltb_spec (MAXFILE * BSIZE) (off + n)) as [H3|H3].
  { apply wp_bind, wp_ret, Hbad. unfold writable. lia. }
  assert (Hw : writable i off n) by done. apply wp_assoc. pose proof (turns_fuel off n ltac:(lia)) as Ht.
  rewrite <- (Z.add_0_r off), <- (Z.add_0_r src) at 1.
  assert (Hst : (steps off n ≤ Z.to_nat (n / BSIZE + 2))%nat) by (unfold steps; case_match; lia).
  eapply writei_loop_spec; rewrite ?Z.add_0_r, ?Z.sub_0_r; try done; try lia.
  intros l1 k1 V1 bl1 i1 c HF1 HE. destruct HE as (Hc & W1 & Hfull & Hcost1) eqn:HE'. clear HE'.
  pose proof (gr_inode _ _ _ _ _ (wr_grows _ _ _ _ _ _ _ W1)) as Ei. rewrite Z.add_0_l. apply wp_assoc. eapply wp_geti; [by eapply put_at|].
  set (i' := resized i1 (off + c)).
  assert (Hres : ∀ K' : M fsys Z, wp (bind K' K) Φ (World h k1 (put s l1 ip i')) →
    wp (bind (when (off + c >? isize i1) (seti ip (λ i, i <| isize := off + c |>));; K') K) Φ (World h k1 (put s l1 ip i1))).
  { intros K' HK'. unfold i', resized in HK'. destruct (off + c >? isize i1); cbn [when].
    - apply wp_assoc. eapply wp_seti; [by eapply put_at|]. by rewrite put_put.
    - by apply wp_bind, wp_bind, wp_ret, wp_bind_inv. }
  apply Hres. apply wp_assoc.
  assert (Ei' : inum i' = inum i ∧ idev i' = idev i) by (unfold i', resized; destruct (_ >? _); rewrite Ei; done). destruct Ei' as [En Ed].
  eapply iupdate_spec; [exact HF1|done|by eapply put_at|rewrite Ed; apply Hok|unfold inode_ok; by rewrite En| |].
  { apply (room_cost _ i1). lia. }
  intros l2 k2 HF2. apply wp_bind, wp_ret. rewrite En in HF2. change ((put s l1 ip i') <| ls := l2 |>) with (put s l2 ip i').
  eapply Hgood; [done| |exact HF2]. done.
Qed.
End rw.
