(* ===== verification/FsFile.v ===== *)
(** * What a file is: the theorems about readi, writei and iupdate of kernel/fs.c *)
From S2P Require Import Prelude Param CString Mem Bio BioSpec Cache Log LogSpec LogTx LogCrash Fs FsBlock FsInode FsRW.
Import Fs.

(** ** Inodes on disk *)
Definition put_from (o : Z) (k : nat) (m : mem) (l : list Z) : mem := foldl (λ m '(i, a), st32 m (o + 12 + 4 * Z.of_nat i) a) m (imap (λ i a, ((k + i)%nat, a)) l).
Lemma put_from_cons o k m a l : put_from o k m (a :: l) = put_from o (S k) (st32 m (o + 12 + 4 * Z.of_nat k) a) l.
Proof.
  unfold put_from. cbn [imap foldl]. rewrite Nat.add_0_r. f_equal. apply imap_ext. intros i x _. cbn. f_equal. lia.
Qed.
Lemma put_from_out o l : ∀ k m x, x < o + 12 + 4 * Z.of_nat k ∨ o + 12 + 4 * Z.of_nat (k + length l) ≤ x → rdb (put_from o k m l) x = rdb m x.
Proof.
  induction l as [|a l IH]; intros k m x Hx; [done|]. rewrite put_from_cons. cbn [length] in Hx. rewrite IH by lia. apply rdb_sto. lia.
Qed.
Lemma put_from_in o l : ∀ k m j a, l !! j = Some a → 0 ≤ a < 2 ^ 32 → ld32 (put_from o k m l) (o + 12 + 4 * Z.of_nat (k + j)) = a.
Proof.
  induction l as [|x l IH]; intros k m j a Hj Ha; [done|]. rewrite put_from_cons. destruct j as [|j].
  - injection Hj as ->. rewrite Nat.add_0_r. rewrite (ld_ext _ (st32 m (o + 12 + 4 * Z.of_nat k) a)); [by apply ld32_st32|].
    intros c Hc. apply put_from_out. lia.
  - replace (k + S j)%nat with (S k + j)%nat by lia. by apply IH.
Qed.
Lemma put_addrs_from m o l : put_addrs m o l = put_from o 0 m l.
Proof. unfold put_addrs, put_from. f_equal. Qed.
(** The fields fit the types that struct dinode gives them. *)
Record fits_disk (i : inode) : Prop := {
  fd_short : Forall (λ v, - 2 ^ 15 ≤ v < 2 ^ 15) [itype i; imajor i; iminor i; inlink i];
  fd_size : 0 ≤ isize i < 2 ^ 32;
  fd_len : length (iaddrs i) = 13%nat;
  fd_addrs : Forall (λ a, 0 ≤ a < 2 ^ 32) (iaddrs i);
}.
Definition contents_of (i j : inode) : inode :=
  j <| itype := itype i |> <| imajor := imajor i |> <| iminor := iminor i |> <| inlink := inlink i |> <| isize := isize i |> <| iaddrs := iaddrs i |>.
Lemma put_dinode_out m o i x : length (iaddrs i) = 13%nat → x < o ∨ o + 64 ≤ x → rdb (put_dinode m o i) x = rdb m x.
Proof.
  intros Hl Hx. unfold put_dinode. rewrite put_addrs_from, put_from_out by lia. rewrite !rdb_sto by lia. done.
Qed.
Lemma i16_ld16 m a v : - 2 ^ 15 ≤ v < 2 ^ 15 → i16 (ld16 (st16 m a v) a) = v.
Proof.
  intros Hv. rewrite ld_sto_same. change (256 ^ Z.of_nat 2) with (2 ^ 16). unfold i16. rewrite Zplus_mod_idemp_l. rewrite Z.mod_small; lia.
Qed.
Lemma ld16_put m o i x : x + 2 ≤ o + 12 → ld16 (put_addrs m o i) x = ld16 m x.
Proof. intros Hx. apply ld_ext. intros c Hc. rewrite put_addrs_from. apply put_from_out. lia. Qed.
Lemma dinode_read_back m o i j : fits_disk i → get_dinode (put_dinode m o i) o j = contents_of i j.
Proof.
  intros [Hs Hz Hl Ha]. unfold get_dinode, contents_of, put_dinode. set (m1 := st16 m o _). set (m2 := st16 m1 _ _). set (m3 := st16 m2 _ _).
  set (m4 := st16 m3 _ _). set (m5 := st32 m4 _ _). apply Forall_cons in Hs as [H1 Hs]. apply Forall_cons in Hs as [H2 Hs].
  apply Forall_cons in Hs as [H3 Hs]. apply Forall_cons in Hs as [H4 _].
  assert (E5 : ld32 (put_addrs m5 o (iaddrs i)) (o + 8) = isize i).
  { rewrite (ld_ext _ m5); [by apply ld32_st32|]. intros c Hc. rewrite put_addrs_from. apply put_from_out. lia. }
  assert (EA : get_addrs (put_addrs m5 o (iaddrs i)) o = iaddrs i).
  { apply list_eq. intros n. unfold get_addrs. rewrite list_lookup_fmap. destruct (iaddrs i !! n) as [a|] eqn:E.
    - rewrite lookup_seq_lt by (apply lookup_lt_Some in E; lia). cbn. f_equal. rewrite put_addrs_from. rewrite Forall_lookup in Ha.
      by apply (put_from_in o (iaddrs i) 0 m5 n a E), (Ha n).
    - rewrite lookup_seq_ge by (apply lookup_ge_None in E; lia). done. }
  rewrite E5, EA, !ld16_put by lia. unfold m5, m4, m3, m2, m1.
  rewrite !(ld_sto_other 4 2), (i16_ld16 _ (o + 6)) by (done || (cbn; lia)).
  rewrite (ld_sto_other 2 2 _ (o + 6) _ (o + 4)), (i16_ld16 _ (o + 4)) by (done || (cbn; lia)).
  rewrite !(ld_sto_other 2 2 _ _ _ (o + 2)), (i16_ld16 _ (o + 2)) by (done || (cbn; lia)).
  rewrite !(ld_sto_other 2 2 _ _ _ o), (i16_ld16 _ o) by (done || (cbn; lia)). done.
Qed.
Lemma dinode_neighbour m o i o' j : length (iaddrs i) = 13%nat → o + 64 ≤ o' ∨ o' + 64 ≤ o → get_dinode (put_dinode m o i) o' j = get_dinode m o' j.
Proof.
  intros Hl Ho. assert (E : ∀ k x, o' ≤ x → x + Z.of_nat k ≤ o' + 64 → ld k (put_dinode m o i) x = ld k m x).
  { intros k x Hx1 Hx2. apply ld_ext. intros c Hc. apply put_dinode_out; [done|lia]. }
  assert (EA : get_addrs (put_dinode m o i) o' = get_addrs m o').
  { unfold get_addrs. apply list_fmap_ext. intros n x [-> Hx]%lookup_seq. apply E; cbn; lia. }
  unfold get_dinode. rewrite EA, !E by (cbn; lia). done.
Qed.

Section file.
Context {h : list lock} `{MT : !Mounted h}.
Local Abbreviation b := m_sb.
Local Abbreviation Hg := m_geometry.
Lemma inode_same V i i' : iaddrs i' = iaddrs i → (∀ bn, baddr V i' bn = baddr V i bn) ∧ (∀ o, fbyte V i' o = fbyte V i o).
Proof.
  intros E. assert (Hb : ∀ bn, baddr V i' bn = baddr V i bn) by (intros; unfold baddr, addr_at; by rewrite E).
  split; [done|]. intros o. unfold fbyte. by rewrite Hb.
Qed.
Lemma resized_addrs i n : iaddrs (resized i n) = iaddrs i.
Proof. unfold resized. by destruct (_ >? _). Qed.
Lemma resized_inum i n : inum (resized i n) = inum i.
Proof. unfold resized. by destruct (_ >? _). Qed.
Lemma resized_size i n : isize (resized i n) = Z.max (isize i) n.
Proof. unfold resized. rewrite Z.gtb_ltb. destruct (Z.ltb_spec (isize i) n); cbn; lia. Qed.

(** Writing the inode back moves no block and changes no byte of the file. *)
Lemma updated_same V i n : let i' := resized i n in file_ok b V i' → inode_ok i' →
  (∀ bn, baddr (updated V i') i' bn = baddr V i bn) ∧
  (∀ o, in_file (o / BSIZE) → baddr V i (o / BSIZE) ≠ 0 → fbyte (updated V i') i' o = fbyte V i o).
Proof.
  intros i' HF Hin. pose proof (IBLOCK_range i' Hin) as Hib. destruct (inode_same V i i' (resized_addrs _ _)) as [Ea Eb].
  assert (Hb : ∀ bn, baddr (updated V i') i' bn = baddr V i bn) by (intros bn; unfold updated; rewrite low_baddr by (done || lia); apply Ea).
  split; [done|]. intros o Ho Hne. unfold fbyte. rewrite Hb, <- Ea. unfold updated. rewrite low_data; [done|lia|done|done|by rewrite Ea].
Qed.

(** What a write of [c] bytes leaves behind. *)
Record after_write (V : Z → block) (i : inode) (off c : Z) (f : Z → Z) (V' : Z → block) (i' : inode) : Prop := {
  aw_ok : file_ok b V' i';
  aw_meta : meta_used b V → meta_used b V';
  aw_size : isize i' = Z.max (isize i) (off + c);
  aw_new o : off ≤ o < off + c → fbyte V' i' o = f (o - off);
  aw_old o : 0 ≤ o < isize i → ¬ off ≤ o < off + c → fbyte V' i' o = fbyte V i o;
  aw_other x : dstart b ≤ x → used b V x = true → ¬ own V i x → V' x = V x;
  aw_own x : own V' i' x → own V i x ∨ used b V x = false;
  aw_keep x : own V i x → own V' i' x;
  aw_leak x : used b V' x = true → used b V x = true ∨ own V' i' x;
  aw_inode : i' = i <| iaddrs := iaddrs i' |> <| isize := isize i' |>;
  aw_dinode : V' (IBLOCK (inum i) b) = put_dinode (V (IBLOCK (inum i) b)) (dinode_at (inum i)) i';
}.
Lemma wrote_after V i off c f V1 i1 : file_ok b V i → inode_ok i → writable i off c → 0 ≤ off → 0 ≤ c → wrote V i V1 i1 off c f →
  let i' := resized i1 (off + c) in after_write V i off c f (updated V1 i') i'.
Proof.
  intros HF Hin [Hw1 Hw2] H0 Hc W i'. pose proof (wr_grows _ _ _ _ _ _ _ W) as G.
  pose proof (gr_inode _ _ _ _ _ G) as Ei. assert (Es : isize i1 = isize i) by (by rewrite Ei).
  assert (En : inum i' = inum i) by (unfold i'; rewrite resized_inum; by rewrite Ei).
  assert (Hok : file_ok b V1 i') by (eapply resized_ok; [exact W|lia|lia|lia]).
  pose proof (IBLOCK_range i Hin) as Hib. unfold updated. rewrite En. set (a := IBLOCK (inum i) b) in *.
  destruct (inode_same V1 i1 i' (resized_addrs _ _)) as [Ea Eb].
  assert (Hlow : a < bmapstart b) by lia. assert (Hbyte : ∀ x o, in_file (o / BSIZE) → baddr V1 i' (o / BSIZE) ≠ 0 → fbyte (updV V1 a x) i' o = fbyte V1 i1 o).
  { intros x o Ho Hne. rewrite <- Eb. unfold fbyte. rewrite low_baddr, low_data by done. done. }
  split.
  - by apply low_ok.
  - intros Hm x Hx. rewrite low_used by done. by apply (gr_used _ _ _ _ _ G), Hm.
  - unfold i'. by rewrite resized_size, Es.
  - intros o Ho. destruct (wr_new _ _ _ _ _ _ _ W o Ho) as [Hne Hb]. rewrite Hbyte; [done|apply div_in_file; lia|by rewrite Ea].
  - intros o Ho Hr. pose proof (fo_size _ _ _ HF). assert (Hf : in_file (o / BSIZE)) by (apply div_in_file; lia).
    assert (Hne : baddr V i (o / BSIZE) ≠ 0).
    { apply (fo_hole _ _ _ HF); [apply Hf|]. pose proof (Z.div_mod o BSIZE ltac:(done)). pose proof (Z.mod_pos_bound o BSIZE ltac:(done)). lia. }
    rewrite Hbyte; [by apply (wr_old _ _ _ _ _ _ _ W)|done|]. rewrite Ea, (gr_addr _ _ _ _ _ G); done.
  - intros x Hd Hu Hx. rewrite updV_ne; [by apply (gr_frame _ _ _ _ _ G)|]. pose proof low_dstart. lia.
  - intros x Hx%low_own; [|done|done]. apply (gr_own _ _ _ _ _ G). unfold own in *. setoid_rewrite Ea in Hx.
    unfold addr_at in Hx |- *. unfold i' in Hx. by rewrite resized_addrs in Hx.
  - intros x Hx%(own_mono _ _ _ _ _ _ G). apply low_own; [done|done|]. unfold own in *. setoid_rewrite Ea. unfold addr_at in Hx |- *. unfold i'. by rewrite resized_addrs.
  - intros x Hx. rewrite low_used in Hx by done. apply (gr_leak _ _ _ _ _ G) in Hx as [Hx|Hx]; [by left|]. right. apply low_own; [done|done|].
    unfold own in *. setoid_rewrite Ea. unfold addr_at in Hx |- *. unfold i'. by rewrite resized_addrs.
  - unfold i', resized. rewrite Ei. by destruct i; cbn; destruct (_ >? _).
  - rewrite updV_eq. f_equal. apply (gr_low _ _ _ _ _ G). done.
Qed.

Lemma ends_after user s V bl i off src n c V1 bl1 i1 : file_ok b V i → inode_ok i → writable i off n → 0 ≤ off →
  ends_with user s V bl i off src n c V1 bl1 i1 →
  let i' := resized i1 (off + c) in after_write V i off c (λ j, rdb (target user s) (src + j)) (updated V1 i') i'.
Proof. intros HF Hin [Hw1 Hw2] H0 (Hc & W & _). apply wrote_after; [done|done|split; lia|done|lia|done]. Qed.

(** The inode [i] is in slot [ip] of the table, locked by the caller, in a
    transaction that sees the disk [V] and has logged [bl]. *)
Record Open (s : fsys) (V : Z → block) (bl : list Z) (ip : nat) (i : inode) : Prop := {
  o_fx : FX (ls s) V bl ∅;
  o_sb : sb s = b;
  o_slot : itable s !! ip = Some i;
  o_file : file_ok b V i;
  o_inode : inode_ok i;
  o_meta : meta_used b V;
}.
Lemma writei_open user s V bl ip i src off n k : Open s V bl ip i → 0 ≤ off < 2 ^ 32 → 0 ≤ n < 2 ^ 32 → reach user s src n →
  (cost bl i + 2 * steps off n + 6 < 29)%nat → writable i off n →
  wp (writei ip user src off n) (λ c w', ∃ k' s' V' bl' i', w' = World h k' s' ∧ Open s' V' bl' ip i' ∧
    after_write V i off c (λ j, rdb (target user s) (src + j)) V' i' ∧ 0 ≤ c ≤ n ∧ (c < n → full b V' ∧ baddr V' i' ((off + c) / BSIZE) = 0) ∧
    (length bl' + has_block V i off n ≤ cost bl i + 2 * steps off n + 1)%nat ∧
    (∃ l', s' = put s l' ip i')) (World h k s).
Proof.
  intros [HF Hsb Hi Hok Hin Hm] Ho Hn Hr Hc Hw. apply wp_bind_ret. eapply writei_spec; try done.
  intros _ l' k' V1 bl1 i1 c HE i' HF'. apply wp_ret. pose proof (ends_after _ _ _ _ _ _ _ _ _ _ _ _ Hok Hin Hw (proj1 Ho) HE) as HA.
  fold i' in HA. destruct HE as (Hc1 & W & Hfull & Hcost). pose proof (gr_inode _ _ _ _ _ (wr_grows _ _ _ _ _ _ _ W)) as Ei.
  assert (En : inum i' = inum i) by (unfold i'; rewrite resized_inum; by rewrite Ei).
  eexists k', _, _, _, i'. split; [done|]. split_and!; [|exact HA|lia|lia| | |by eexists].
  - split; [exact HF'|done|by eapply put_at|apply HA|unfold inode_ok; by rewrite En|by apply HA].
  - intros Hlt. destruct (Hfull Hlt) as [Hf Hz]. unfold updated. rewrite En. pose proof (IBLOCK_range i Hin) as Hib. split.
    + intros x Hx. rewrite low_used; [by apply Hf|]. lia.
    + destruct (inode_same V1 i1 i' (resized_addrs _ _)) as [Ea _]. rewrite low_baddr; [by rewrite Ea|lia|]. destruct Hw as [Hw1 Hw2]. assert (Es : isize i1 = isize i) by (by rewrite Ei). eapply resized_ok; [exact W|lia|lia|lia].
  - pose proof (add_length bl1 (IBLOCK (inum i) b)). unfold cost in Hcost at 1. lia.
Qed.
Lemma readi_open user s V bl ip i dst off n k : Open s V bl ip i → 0 ≤ off < 2 ^ 32 → 0 ≤ n < 2 ^ 32 → (length bl < 23)%nat →
  reach user s dst (count i off n) →
  wp (readi ip user dst off n) (λ r w', r = count i off n ∧ ∃ k' s', w' = World h k' s' ∧ Open s' V bl ip i ∧
    copied (target user s) dst r (λ j, fbyte V i (off + j)) (target user s')) (World h k s).
Proof.
  intros [HF Hsb Hi Hok Hin Hm] Ho Hn Hbl Hr. apply wp_bind_ret. eapply readi_spec; try done.
  { unfold room. rewrite map_size_empty. lia. }
  intros l' k' m' HF' Hc. apply wp_ret. split; [done|]. exists k', (set_target user m' (s <| ls := l' |>)). split; [done|].
  destruct user; (split; [|exact Hc]); by split.
Qed.
(** ilock of an inode that is not in memory yet reads it from the disk. *)
Lemma ilock_spec {B} (K : M fsys B) Φ s V bl ip i k : FX (ls s) V bl ∅ → sb s = b → itable s !! ip = Some i → 1 ≤ iref i → iowner i = None → ivalid i = false →
  idev i = ROOTDEV → room bl ∅ 0 → let i' := get_dinode (V (IBLOCK (inum i) b)) (dinode_at (inum i)) i in itype i' ≠ 0 →
  (∀ l' k' pid, FX l' V bl ∅ → wp K Φ (World h k' (put s l' ip (i' <| iowner := Some pid |> <| ivalid := true |>)))) → wp (ilock ip;; K) Φ (World h k s).
Proof.
  intros HF Hsb Hi Href Hown Hval Hdev Hroom i' Ht HK. unfold ilock. apply wp_assoc. eapply wp_geti; [done|]. rewrite (proj2 (Z.ltb_ge _ _)) by lia. cbn [when]. apply wp_assoc, wp_bind, wp_ret.
  apply wp_assoc. unfold iacquiresleep. apply wp_assoc. eapply wp_geti; [done|]. rewrite Hown. apply wp_assoc. unfold my_pid at 1. apply wp_bind, wp_gets. cbn [st]. eapply wp_seti; [done|].
  set (i1 := i <| iowner := _ |>). set (s1 := put s (ls s) ip i1). assert (H1 : itable s1 !! ip = Some i1) by (by eapply put_at). apply wp_assoc. eapply wp_geti; [exact H1|].
  rewrite (Hval : ivalid i1 = false). cbn [negb when]. apply wp_assoc, wp_bind, wp_gets. cbn [st]. rewrite (Hsb : sb s1 = b), (Hdev : idev i1 = ROOTDEV). set (a := IBLOCK (inum i1) b).
  apply wp_assoc. eapply (fs_bread _ _ s1 V bl ∅ a); [exact HF|done|done|]. intros x l1 HF1. apply wp_assoc. eapply (fs_bdata _ _ _ _ _ _ a); [exact HF1|apply lookup_insert_eq|].
  apply wp_assoc. eapply (wp_seti _ _ (s1 <| ls := l1 |>)); [exact H1|]. set (i2 := get_dinode _ _ i1). set (s2 := put _ _ ip i2). assert (H2 : itable s2 !! ip = Some i2) by (by eapply (put_at (s1 <| ls := l1 |>))).
  apply wp_assoc. eapply (fs_brelse _ _ s2 V bl (<[a := x]> ∅) a); [exact HF1|apply lookup_insert_eq|]. intros l2 k2 HF2. rewrite delete_insert_id in HF2 by done.
  apply wp_assoc. eapply (wp_seti _ _ (s2 <| ls := l2 |>)); [exact H2|]. apply wp_assoc. set (s3 := put _ _ ip (i2 <| ivalid := true |>)).
  assert (H3 : itable s3 !! ip = Some (i2 <| ivalid := true |>)) by (by eapply (put_at (s2 <| ls := l2 |>))). eapply wp_geti; [exact H3|].
  rewrite (proj2 (Z.eqb_neq _ 0)) by exact Ht. cbn [when]. apply wp_bind, wp_ret.
  assert (Es : s3 = put s l2 ip (i' <| iowner := Some (me (bs (ls s))) |> <| ivalid := true |>)).
  { transitivity (put (put (put s l1 ip i1) l2 ip i2) l2 ip (i2 <| ivalid := true |>)); [done|]. by rewrite !put_put. }
  rewrite Es. by apply HK.
Qed.
Lemma count_all i off c : 0 ≤ off → 0 ≤ c → off + c ≤ isize i → isize i < 2 ^ 32 → count i off c = c.
Proof.
  intros. unfold count. destruct (Z.ltb_spec (isize i) off); [lia|]. destruct (Z.leb_spec (2 ^ 32) (off + c)); cbn [orb]; lia.
Qed.
Lemma file_max V i : file_ok b V i → isize i < 2 ^ 32.
Proof. intros HF. pose proof (fo_size _ _ _ HF) as H. unfold MAXFILE in H. change NINDIRECT with 256 in H. unfold NDIRECT, BSIZE in H. lia. Qed.


(** C25: readi returns the file. It returns the number of bytes that the file
    has from [off] on, at most [n] of them (0 beyond the end, or when [off + n]
    overflows); exactly that many bytes of the buffer are overwritten, with
    the bytes of the file, and the file system is unchanged. *)
Theorem readi_correct user s V bl ip i dst off n k : Open s V bl ip i → 0 ≤ off < 2 ^ 32 → 0 ≤ n < 2 ^ 32 → (length bl < 23)%nat →
  reach user s dst (count i off n) →
  ∃ k' s', readi ip user dst off n (World h k s) = Done (count i off n) (World h k' s') ∧ Open s' V bl ip i ∧
    copied (target user s) dst (count i off n) (λ j, fbyte V i (off + j)) (target user s').
Proof.
  intros HO Ho Hn Hbl Hr. pose proof (readi_open user s V bl ip i dst off n k HO Ho Hn Hbl Hr) as H.
  apply wp_done in H as (r & w' & E & -> & k' & s' & -> & H1 & H2). by exists k', s'.
Qed.

(** C24: what is written is read back. Reading as many bytes as writei reported,
    from where it wrote, gives the bytes that were in the caller's buffer, for
    a buffer of the kernel or of the process, and all [n] of them unless the
    disk was full. *)
Theorem write_read_back user s V bl ip i src dst off n k : Open s V bl ip i → 0 ≤ off < 2 ^ 32 → 0 ≤ n < 2 ^ 32 → writable i off n →
  reach user s src n → reach user s dst n → (cost bl i + 2 * steps off n + 7 < 24)%nat →
  ∃ c k' s', (c ← writei ip user src off n; readi ip user dst off c) (World h k s) = Done c (World h k' s') ∧
    (∀ j, 0 ≤ j < c → rdb (target user s') (dst + j) = rdb (target user s) (src + j)) ∧
    (c = n ∨ ∃ V' bl' i', Open s' V' bl' ip i' ∧ full b V').
Proof.
  intros HO Ho Hn Hw Hr1 Hr2 Hc. assert (H : wp (c ← writei ip user src off n; readi ip user dst off c) (λ c w', ∃ k' s', w' = World h k' s' ∧
    (∀ j, 0 ≤ j < c → rdb (target user s') (dst + j) = rdb (target user s) (src + j)) ∧
    (c = n ∨ ∃ V' bl' i', Open s' V' bl' ip i' ∧ full b V')) (World h k s)).
  { apply wp_bind. eapply wp_mono; [by apply writei_open; try done; lia|].
    intros c w' (k1 & s1 & V1 & bl1 & i1 & -> & HO1 & HA & Hcn & Hfull & Hcost & l1 & Es).
    pose proof (file_max _ _ (o_file _ _ _ _ _ HO1)). pose proof (aw_size _ _ _ _ _ _ _ HA) as Hsz.
    assert (Ecount : count i1 off c = c) by (apply count_all; lia).
    eapply wp_mono; [apply (readi_open user s1 V1 bl1 ip i1 dst off c k1 HO1 Ho); [lia|lia|]|].
    { rewrite Ecount. intros Hu j Hj. rewrite Es. apply Hr2; [done|lia]. }
    rewrite Ecount. intros r w' (-> & k2 & s2 & -> & HO2 & Hcp). exists k2, s2. split; [done|]. split.
    - intros j Hj. rewrite (Hcp (dst + j)). rewrite (proj2 (within_spec _ _ _)) by lia. cbn.
      rewrite (aw_new _ _ _ _ _ _ _ HA) by lia. f_equal. lia.
    - destruct (Z.eq_dec c n); [by left|right]. exists V1, bl1, i1. split; [done|]. apply Hfull. lia. }
  apply wp_done in H as (c & w' & E & k' & s' & -> & H1 & H2). by exists c, k', s'.
Qed.
End file.

(** ** A freshly made file system

    The layout of mkfs (kernel/param.h's FSSIZE and LOGSIZE, 200 inodes): 46
    blocks of metadata, the rest free, a transaction open and an empty file in
    slot 0 of the inode table. *)
Definition demo_sb : superblock := mkSb FSMAGIC 2000 1954 200 30 2 32 45.
Definition demo_disk : disk := {[45 := wrb (memset ∅ 0 255 5) 5 63]}.
Definition demo_log : log := mkLog 2 30 1 false ROOTDEV (mkLh 0 (repeat 0 30)).
Definition demo_file : inode := mkInode ROOTDEV 7 1 (Some 1) true T_FILE 0 0 1 0 (repeat 0 13).
Definition demo_km : mem := wrb (wrb (wrb ∅ 1000 104) 1001 105) 1002 33.
Definition demo_fsys : fsys := mkFs (mkLsys (bs (boot demo_disk)) demo_log) [demo_file] demo_sb 0 demo_km ∅ (λ _, true).
Lemma demo_geometry : geometry 2 demo_sb.
Proof. by split. Qed.
(** That layout on any disk, with the log empty and a transaction open. *)
Definition mount_of (D : disk) : Mounted [].
Proof.
  refine {| m_R := bio 1; m_disk := D; m_writes := []; m_start := 2; m_nlog := 30; m_out := 1; m_sb := demo_sb; m_geometry := demo_geometry |};
    [done|done|apply not_elem_of_nil|apply not_elem_of_nil].
Defined.
Definition boot_ls (D : disk) : lsys := mkLsys (bs (boot D)) demo_log.
Lemma mount_fx D : FX (MT := mount_of D) (boot_ls D) (blk D) [] ∅.
Proof.
  split; [|done]. exists ∅, demo_log. split; [split; [exact (proj1 (boot_LS D))|done]|].
  split; [|split; [done|done]]. split; try done; [apply NoDup_nil_2|cbn; lia].
Qed.
#[export] Instance demo_mount : Mounted [] := mount_of demo_disk.
Lemma demo_fx : FX (ls demo_fsys) (blk demo_disk) [] ∅.
Proof. apply mount_fx. Qed.
Lemma demo_meta : meta_used demo_sb (blk demo_disk).
Proof.
  intros x Hx. change (dstart demo_sb) with 46 in Hx.
  assert (E : forallb (λ n, used demo_sb (blk demo_disk) (Z.of_nat n)) (seq 0 46) = true) by (vm_compute; reflexivity).
  rewrite forallb_forall in E. specialize (E (Z.to_nat x)). rewrite Z2Nat.id in E by lia. apply E, in_seq. lia.
Qed.
Lemma demo_baddr V bn : in_file bn → baddr V demo_file bn = 0.
Proof.
  intros [H0 _]. assert (E : ∀ n, addr_at demo_file n = 0).
  { intros n. unfold addr_at. generalize (Z.to_nat n). cbn. intros j. do 13 (destruct j as [|j]; [done|]). by destruct j. }
  unfold baddr. destruct (bn <? NDIRECT); by rewrite E.
Qed.
Lemma demo_open : Open demo_fsys (blk demo_disk) [] 0 demo_file.
Proof.
  split; [apply demo_fx|done|done| |split; done|apply demo_meta]. split; try done.
  - intros x (Hx & [->|(bn & Hbn & ->)]); [done|]. by rewrite demo_baddr in Hx.
  - intros bn bn' H1 _ H2. by rewrite demo_baddr in H2.
  - intros bn H0 H1. unfold BSIZE in *. cbn in H1. lia.
Qed.
(** The same with a file of three bytes in block 46. *)
Definition read_disk : disk := <[46 := wrb (wrb (wrb ∅ 0 104) 1 105) 2 33]> {[45 := wrb (memset ∅ 0 255 5) 5 127]}.
Definition read_file : inode := mkInode ROOTDEV 7 1 (Some 1) true T_FILE 0 0 1 3 (46 :: repeat 0 12).
Definition read_fsys : fsys := mkFs (boot_ls read_disk) [read_file] demo_sb 0 demo_km ∅ (λ _, true).
Lemma read_baddr V bn : in_file bn → baddr V read_file bn = if bn =? 0 then 46 else 0.
Proof.
  intros [H0 _]. assert (E : ∀ n, addr_at read_file n = if (Z.to_nat n =? 0)%nat then 46 else 0).
  { intros n. unfold addr_at. generalize (Z.to_nat n). cbn. intros j. do 13 (destruct j as [|j]; [done|]). by destruct j. }
  unfold baddr. destruct (Z.ltb_spec bn NDIRECT); rewrite E.
  - destruct (Z.eqb_spec bn 0) as [->|]; [done|]. destruct (Nat.eqb_spec (Z.to_nat bn) 0); [lia|done].
  - cbn. destruct (Z.eqb_spec bn 0) as [->|]; [done|]. done.
Qed.
Lemma read_used n : 0 ≤ n < 47 → used demo_sb (blk read_disk) n = true.
Proof.
  intros Hn. assert (E : forallb (λ n, used demo_sb (blk read_disk) (Z.of_nat n)) (seq 0 47) = true) by (vm_compute; reflexivity).
  rewrite forallb_forall in E. specialize (E (Z.to_nat n)). rewrite Z2Nat.id in E by lia. apply E, in_seq. lia.
Qed.
Lemma read_open : Open (MT := mount_of read_disk) read_fsys (blk read_disk) [] 0 read_file.
Proof.
  split; [apply (mount_fx read_disk)|done|done| |split; done|].
  2:{ intros x Hx. apply read_used. change (0 ≤ x < 46) in Hx. lia. }
  split; try done.
  - intros x (Hx & [->|(bn & Hbn & ->)]); [done|]. rewrite read_baddr in * by done. destruct (bn =? 0); [|done]. split; [done|]. by apply read_used.
  - intros bn bn' H1 H1' H2. rewrite !read_baddr in * by done. destruct (Z.eqb_spec bn 0), (Z.eqb_spec bn' 0); congruence.
  - intros bn H0 H1. unfold BSIZE in *. cbn in H1. assert (bn = 0) as -> by lia. done.
Qed.
Lemma readi_correct_witness : ∃ k' s', readi 0 false 2000 1 9 (World [] [] read_fsys) = Done 2 (World [] k' s') ∧
  Open (MT := mount_of read_disk) s' (blk read_disk) [] 0 read_file ∧ copied demo_km 2000 2 (λ j, fbyte (blk read_disk) read_file (1 + j)) (km s').
Proof. apply (readi_correct (MT := mount_of read_disk) false read_fsys (blk read_disk) [] 0 read_file 2000 1 9 [] read_open); [done|done|cbn; lia|done]. Defined.
Lemma write_read_back_witness : ∃ c k' s', (c ← writei 0 false 1000 0 3; readi 0 false 2000 0 c) (World [] [] demo_fsys) = Done c (World [] k' s') ∧
  (∀ j, 0 ≤ j < c → rdb (km s') (2000 + j) = rdb demo_km (1000 + j)) ∧ (c = 3 ∨ ∃ V' bl' i', Open s' V' bl' 0 i' ∧ full demo_sb V').
Proof. apply (write_read_back false demo_fsys (blk demo_disk) [] 0 demo_file 1000 2000 0 3 [] demo_open); [done|done|done|done|done|vm_compute; lia]. Defined.
