(* ===== verification/FsDir.v ===== *)
(** * Directories: dirlookup and dirlink of kernel/fs.c

    A directory is the sequence of its 16-byte entries; through the names of the
    entries in use it is a finite map from names to inode numbers. dirlookup
    looks a name up in that map and dirlink adds one to it. *)
From S2P Require Import Prelude Param CString Mem Bio BioSpec Cache Log LogSpec LogTx LogCrash Fs FsBlock FsInode FsRW FsFile.
Import Fs.

(** ** Entries *)
Abbreviation entry_of := (Z * list Z)%type.
Fixpoint fcstr (f : Z → Z) (p : Z) (n : nat) : list Z :=
  match n with
  | O => []
  | S n => if f p =? 0 then [] else f p :: fcstr f (p + 1) n
  end.
Lemma fcstr_ext f g n : ∀ p q, (∀ j, 0 ≤ j < Z.of_nat n → f (p + j) = g (q + j)) → fcstr f p n = fcstr g q n.
Proof.
  induction n as [|n IH]; intros p q H; cbn [fcstr]; [done|]. pose proof (H 0 ltac:(lia)) as H0. rewrite !Z.add_0_r in H0. rewrite H0.
  destruct (g q =? 0); [done|]. f_equal. apply IH. intros j Hj. replace (p + 1 + j) with (p + (j + 1)) by lia. replace (q + 1 + j) with (q + (j + 1)) by lia. apply H. lia.
Qed.
Lemma cstr_fcstr m p n : cstr m p n = fcstr (rdb m) p n.
Proof. revert p. induction n as [|n IH]; intros p; cbn; [done|]. by rewrite IH. Qed.
(** The number and the name of entry [k] of a file seen as a directory. *)
Definition dslot (V : Z → block) (i : inode) (k : Z) : entry_of :=
  (fbyte V i (16 * k) + 256 * fbyte V i (16 * k + 1), fcstr (fbyte V i) (16 * k + 2) (Z.to_nat DIRSIZ)).
Definition entries (V : Z → block) (i : inode) : list entry_of := dslot V i <$> seqZ 0 (isize i / 16).
Definition named (nm : list Z) (e : entry_of) : Prop := e.1 ≠ 0 ∧ e.2 = nm.
#[export] Instance named_dec nm e : Decision (named nm e).
Proof. unfold named. apply _. Defined.
(** The directory as a map. *)
Definition dir_lookup (l : list entry_of) (nm : list Z) : option Z := (λ x, x.2.1) <$> list_find (named nm) l.
Record is_dir (i : inode) : Prop := { id_type : itype i = T_DIR; id_whole : (16 | isize i) }.

Lemma entries_length V i : 0 ≤ isize i → length (entries V i) = Z.to_nat (isize i / 16).
Proof. intros H. unfold entries. by rewrite length_fmap, length_seqZ. Qed.
Lemma entries_at V i j : 0 ≤ j < isize i / 16 → entries V i !! Z.to_nat j = Some (dslot V i j).
Proof. intros H. unfold entries. rewrite list_lookup_fmap, lookup_seqZ_lt by lia. cbn. do 2 f_equal. lia. Qed.
Lemma drop_entries V i j : 0 ≤ j < isize i / 16 → drop (Z.to_nat j) (entries V i) = dslot V i j :: drop (Z.to_nat (j + 1)) (entries V i).
Proof. intros H. replace (Z.to_nat (j + 1)) with (S (Z.to_nat j)) by lia. apply drop_S. by apply entries_at. Qed.
Lemma list_find_skip {A} (P : A → Prop) `{∀ x, Decision (P x)} x l : ¬ P x → list_find P (x :: l) = prod_map S id <$> list_find P l.
Proof. intros H'. cbn. by rewrite decide_False. Qed.

Section dir.
Context {h : list lock} `{MT : !Mounted h}.
Local Abbreviation b := m_sb.
(** What reading entries leaves: the buffer cache and [struct dirent de] change. *)
Definition kept (s s' : fsys) : Prop := ∃ l m, s' = s <| ls := l |> <| km := m |> ∧ ∀ a, ¬ 0 ≤ a < 16 → rdb m a = rdb (km s) a.
Lemma kept_trans s1 s2 s3 : kept s1 s2 → kept s2 s3 → kept s1 s3.
Proof.
  intros (l & m & -> & H) (l' & m' & -> & H'). exists l', m'. split; [done|]. intros a Ha. rewrite H' by done. by apply H.
Qed.
Lemma kept_refl s : kept s s.
Proof. exists (ls s), (km s). by destruct s. Qed.
Lemma kept_name s s' p : kept s s' → 16 ≤ p → cstr (km s') p 14 = cstr (km s) p 14.
Proof. intros (l & m & -> & H) Hp. apply cstr_ext. intros a Ha. cbn. apply H. lia. Qed.
(** Entry [j] is read into [de]. *)
Lemma read_entry {B} (K : Z → M fsys B) Φ s V bl dp d j k : Open s V bl dp d → is_dir d → (length bl < 23)%nat → 0 ≤ j < isize d / 16 →
  (∀ k' s', Open s' V bl dp d → kept s s' → ld16 (km s') DE = (dslot V d j).1 → cstr (km s') (DE + 2) 14 = (dslot V d j).2 →
    wp (K DIRENT) Φ (World h k' s')) →
  wp (bind (readi dp false DE (16 * j) DIRENT) K) Φ (World h k s).
Proof.
  intros HO [_ [q Hq]] Hbl Hj HK. pose proof HO as [HF Hsb Hi Hok Hin Hm]. pose proof (file_max _ _ Hok) as Hmax.
  assert (E16 : isize d / 16 = q) by (rewrite Hq; by apply Z.div_mul). assert (Ecount : count d (16 * j) DIRENT = DIRENT) by (apply count_all; unfold DIRENT; lia).
  eapply readi_spec; try done; [unfold room; rewrite map_size_empty; lia|lia|]. rewrite Ecount. intros l' k' m' HF' Hc. unfold target, copied, set_target in *.
  assert (Hb : ∀ a, 0 ≤ a < 16 → rdb m' a = fbyte V d (16 * j + a)).
  { intros a Ha. rewrite Hc. unfold DIRENT, DE. rewrite (proj2 (within_spec _ _ _)) by lia. f_equal. lia. }
  apply HK.
  - by split.
  - exists l', m'. split; [done|]. intros a Ha. rewrite Hc. unfold DIRENT, DE. by rewrite (proj2 (within_false _ _ _)) by lia.
  - change (rdb m' 0 + 256 * (rdb m' (0 + 1) + 256 * 0) = fbyte V d (16 * j) + 256 * fbyte V d (16 * j + 1)). rewrite !Hb by lia. rewrite !Z.add_0_r. done.
  - cbn [km set_field]. rewrite cstr_fcstr. apply fcstr_ext. intros a Ha. change (0 ≤ a < 14) in Ha. change (km _) with m'. replace (DE + 2 + a) with (2 + a) by (unfold DE; lia). rewrite Hb by lia. f_equal; lia.
Qed.
Lemma named_test s' name V d j nm : cstr (km s') name 14 = nm → ld16 (km s') DE = (dslot V d j).1 → cstr (km s') (DE + 2) 14 = (dslot V d j).2 →
  (ld16 (km s') DE =? 0) = false → (namecmp (km s') name (DE + 2) =? 0) = bool_decide (named nm (dslot V d j)).
Proof.
  intros Hn H1 H2 H0. apply Z.eqb_neq in H0. unfold namecmp, strncmp. change (Z.to_nat DIRSIZ) with 14%nat. unfold named. apply eq_true_iff_eq.
  rewrite Z.eqb_eq, bool_decide_eq_true, strncmp_loop_zero, Hn, H2. split; [intros E; split; [congruence|done]|by intros [_ E]].
Qed.
Lemma dirlookup_loop_spec {B} (K : option (nat * Z) → M fsys B) Φ V bl dp d name fuel : ∀ j s k, Open s V bl dp d → is_dir d → (length bl < 23)%nat → 16 ≤ name →
  0 ≤ j ≤ isize d / 16 → (Z.to_nat (isize d / 16 - j) < fuel)%nat →
  (∀ k' s', Open s' V bl dp d → kept s s' → match list_find (named (cstr (km s) name 14)) (drop (Z.to_nat j) (entries V d)) with
     | None => wp (K None) Φ (World h k' s')
     | Some (m, e) => wp (ip ← iget (idev d) e.1; K (Some (ip, 16 * (j + Z.of_nat m)))) Φ (World h k' s')
     end) →
  wp (bind (dirlookup_loop fuel dp name (16 * j)) K) Φ (World h k s).
Proof.
  induction fuel as [|fuel IH]; intros j s k HO Hd Hbl Hname Hj Hfuel HK; [lia|]. cbn [dirlookup_loop]. set (nm := cstr (km s) name 14) in *.
  pose proof HO as [_ _ Hi Hok _ _]. apply wp_assoc. eapply wp_geti; [done|].
  assert (Hsz : isize d = 16 * (isize d / 16)) by (destruct (id_whole _ Hd) as [q ->]; rewrite Z.div_mul by done; lia).
  destruct (Z.ltb_spec (16 * j) (isize d)) as [Hlt|Hge].
  2:{ apply wp_bind, wp_ret. specialize (HK k s HO (kept_refl s)). rewrite drop_ge in HK; [done|]. rewrite entries_length; lia. }
  apply wp_assoc. eapply read_entry; [exact HO|done|done|lia|]. intros k' s' HO' Hk E1 E2. apply wp_assoc. rewrite Z.eqb_refl. cbn [negb when]. apply wp_bind, wp_ret.
  apply wp_assoc, wp_bind, wp_gets. cbn [st]. rewrite drop_entries in HK by lia.
  assert (Enm : cstr (km s') name 14 = nm) by (by apply kept_name).
  assert (Hnext : ¬ named nm (dslot V d j) → wp (bind (dirlookup_loop fuel dp name (16 * j + DIRENT)) K) Φ (World h k' s')).
  { intros Hn. rewrite list_find_skip in HK by done. replace (16 * j + DIRENT) with (16 * (j + 1)) by (unfold DIRENT; lia).
    apply IH; [done|done|done|done|lia|lia|]. rewrite Enm. intros k2 s2 HO2 Hk2. specialize (HK k2 s2 HO2 (kept_trans _ _ _ Hk Hk2)).
    destruct (list_find _ _) as [[m e]|]; cbn in HK; [|done]. replace (j + 1 + Z.of_nat m) with (j + Z.of_nat (S m)) by lia. done. }
  destruct (ld16 (km s') DE =? 0) eqn:E0; [apply Hnext; intros [H _]; apply Z.eqb_eq in E0; congruence|].
  rewrite (named_test s' name V d j nm) by done. case_bool_decide as Hm; [|by apply Hnext].
  specialize (HK k' s' HO' Hk). cbn in HK. rewrite decide_True in HK by done. rewrite E1. apply wp_assoc. rewrite Z.add_0_r in HK.
  exact HK.
Qed.

(** ** Linking a name *)
(** The index of the first unused entry, or the number of entries. *)
Definition vacant (l : list entry_of) : nat := match list_find (λ e, e.1 = 0) l with Some (j, _) => j | None => length l end.
Lemma vacant_skip e l : e.1 ≠ 0 → vacant (e :: l) = S (vacant l).
Proof. intros H. unfold vacant. rewrite list_find_skip by done. by destruct (list_find _ l) as [[? ?]|]. Qed.
Lemma dirlink_loop_spec {B} (K : Z → M fsys B) Φ V bl dp d fuel : ∀ j s k, Open s V bl dp d → is_dir d → (length bl < 23)%nat →
  0 ≤ j ≤ isize d / 16 → (Z.to_nat (isize d / 16 - j) < fuel)%nat →
  (∀ k' s', Open s' V bl dp d → kept s s' → wp (K (16 * (j + Z.of_nat (vacant (drop (Z.to_nat j) (entries V d)))))) Φ (World h k' s')) →
  wp (bind (dirlink_loop fuel dp (16 * j)) K) Φ (World h k s).
Proof.
  induction fuel as [|fuel IH]; intros j s k HO Hd Hbl Hj Hfuel HK; [lia|]. cbn [dirlink_loop].
  pose proof HO as [_ _ Hi Hok _ _]. apply wp_assoc. eapply wp_geti; [done|].
  assert (Hsz : isize d = 16 * (isize d / 16)) by (destruct (id_whole _ Hd) as [q ->]; rewrite Z.div_mul by done; lia).
  destruct (Z.ltb_spec (16 * j) (isize d)) as [Hlt|Hge].
  2:{ apply wp_bind, wp_ret. specialize (HK k s HO (kept_refl s)). rewrite drop_ge in HK by (rewrite entries_length; lia). cbn in HK. by rewrite Z.add_0_r in HK. }
  apply wp_assoc. eapply read_entry; [exact HO|done|done|lia|]. intros k' s' HO' Hk E1 E2. apply wp_assoc. rewrite Z.eqb_refl. cbn [negb when]. apply wp_bind, wp_ret.
  apply wp_assoc, wp_bind, wp_gets. cbn [st]. rewrite drop_entries in HK by lia. rewrite E1. destruct (Z.eqb_spec (dslot V d j).1 0) as [E0|E0].
  - apply wp_bind, wp_ret. specialize (HK k' s' HO' Hk). unfold vacant in HK. cbn in HK. rewrite decide_True in HK by done. by rewrite Z.add_0_r in HK.
  - rewrite vacant_skip in HK by done. replace (16 * j + DIRENT) with (16 * (j + 1)) by (unfold DIRENT; lia). apply IH; [done|done|done|lia|lia|].
    intros k2 s2 HO2 Hk2. specialize (HK k2 s2 HO2 (kept_trans _ _ _ Hk Hk2)). rewrite Nat2Z.inj_succ in HK.
    replace (j + 1 + Z.of_nat _) with (j + Z.succ (Z.of_nat (vacant (drop (Z.to_nat (j + 1)) (entries V d))))) by lia. done.
Qed.
(** [l] with entry [j] replaced, or added when [j] is its length. *)
Definition linked (l : list entry_of) (j : nat) (e : entry_of) : list entry_of := take j l ++ e :: drop (S j) l.
Lemma linked_lookup l j e n : (j ≤ length l)%nat → linked l j e !! n = if decide (n = j) then Some e else l !! n.
Proof.
  intros Hj. unfold linked. case_decide as Hn; [subst n; by rewrite list_lookup_middle by (rewrite length_take; lia)|].
  destruct (Nat.lt_ge_cases n j) as [H|H].
  - rewrite lookup_app_l by (rewrite length_take; lia). by rewrite lookup_take_lt.
  - rewrite lookup_app_r by (rewrite length_take; lia). rewrite length_take, Nat.min_l by lia.
    destruct (n - j)%nat as [|x] eqn:E; [lia|]. change (drop (S j) l !! x = l !! n). rewrite lookup_drop. f_equal. lia.
Qed.
Lemma entries_lookup V i n : entries V i !! n = if decide (Z.of_nat n < isize i / 16) then Some (dslot V i (Z.of_nat n)) else None.
Proof.
  unfold entries. rewrite list_lookup_fmap. case_decide; [rewrite lookup_seqZ_lt by lia|rewrite lookup_seqZ_ge by lia]; done.
Qed.
Lemma dslot_ext V V' d d' j : (∀ a, 0 ≤ a < 16 → fbyte V' d' (16 * j + a) = fbyte V d (16 * j + a)) → dslot V' d' j = dslot V d j.
Proof.
  intros H. unfold dslot. rewrite (H 1) by lia. pose proof (H 0 ltac:(lia)) as H0. rewrite !Z.add_0_r in H0. rewrite H0. f_equal.
  apply fcstr_ext. intros a Ha. change (0 ≤ a < 14) in Ha. rewrite <- !(Z.add_assoc _ 2 a). apply H. lia.
Qed.
Lemma after_nothing V d off f V' d' : off ≤ isize d → 0 ≤ isize d → (16 | isize d) → after_write V d off 0 f V' d' → entries V' d' = entries V d.
Proof.
  intros Ho H0 [q Hq] HA. pose proof (aw_size _ _ _ _ _ _ _ HA) as Hs. rewrite Z.add_0_r, Z.max_l in Hs by done. apply list_eq. intros n. rewrite !entries_lookup, Hs.
  case_decide as Hn; [|done]. f_equal. apply dslot_ext. intros a Ha. rewrite Hq, Z.div_mul in Hn by done. apply (aw_old _ _ _ _ _ _ _ HA); lia.
Qed.
Lemma after_entry V d j f V' d' : 0 ≤ j ≤ isize d / 16 → (16 | isize d) → after_write V d (16 * j) 16 f V' d' →
  entries V' d' = linked (entries V d) (Z.to_nat j) (f 0 + 256 * f 1, fcstr f 2 14) ∧ (16 | isize d').
Proof.
  intros Hj [q Hq] HA. pose proof (aw_size _ _ _ _ _ _ _ HA) as Hs. rewrite Hq, Z.div_mul in Hj by done.
  assert (Hs' : isize d' = Z.max q (j + 1) * 16) by lia. split; [|by exists (Z.max q (j + 1))].
  apply list_eq. intros n. rewrite linked_lookup by (rewrite entries_length, Hq, Z.div_mul; lia). rewrite !entries_lookup, Hs', Hq, !Z.div_mul by done.
  assert (Hnew : ∀ a, 0 ≤ a < 16 → fbyte V' d' (16 * j + a) = f a) by (intros a Ha; rewrite (aw_new _ _ _ _ _ _ _ HA) by lia; f_equal; lia).
  destruct (decide (n = Z.to_nat j)) as [->|Hn].
  - rewrite decide_True by lia. f_equal. rewrite Z2Nat.id by lia. unfold dslot. rewrite Hnew by lia. pose proof (Hnew 0 ltac:(lia)) as H0. rewrite Z.add_0_r in H0. rewrite H0. f_equal.
    apply fcstr_ext. intros a Ha. change (0 ≤ a < 14) in Ha. rewrite <- (Z.add_assoc _ 2 a). apply Hnew. lia.
  - destruct (decide (Z.of_nat n < q)) as [Hq'|Hq']; [rewrite decide_True by lia|rewrite decide_False by lia; done].
    f_equal. apply dslot_ext. intros a Ha. apply (aw_old _ _ _ _ _ _ _ HA); lia.
Qed.
(** A name of at most 14 bytes, without a NUL, and what strncpy makes of it. *)
Lemma fcstr_nth n : ∀ m t f p, (∀ a, 0 ≤ a < Z.of_nat n → f (p + a) = nth (Z.to_nat a) (cstr m t n) 0) → fcstr f p n = cstr m t n.
Proof.
  induction n as [|n IH]; intros m t f p H; cbn [fcstr cstr] in *; [done|]. pose proof (H 0 ltac:(lia)) as H0. rewrite Z.add_0_r in H0.
  destruct (Z.eqb_spec (rdb m t) 0) as [E|E]; change (Z.to_nat 0) with 0%nat in H0; cbn in H0; rewrite H0; [done|]. rewrite (proj2 (Z.eqb_neq _ _) E). f_equal.
  apply IH. intros a Ha. replace (p + 1 + a) with (p + (a + 1)) by lia. rewrite H by lia. by replace (Z.to_nat (a + 1)) with (S (Z.to_nat a)) by lia.
Qed.
(** The entry that dirlink prepares in [de]. *)
Lemma new_entry m name n : 16 ≤ name → 0 ≤ n < 2 ^ 16 → let m' := st16 (strncpy m (DE + 2) name DIRSIZ) DE n in
  rdb m' 0 + 256 * rdb m' 1 = n ∧ fcstr (λ j, rdb m' (DE + j)) 2 14 = cstr m name 14 ∧ ∀ a, ¬ 0 ≤ a < 16 → rdb m' a = rdb m a.
Proof.
  intros Hn Hr m'. assert (Hd : disjoint (DE + 2) name (Z.of_nat 14)) by (unfold disjoint, DE; lia). split_and!.
  - change (rdb m' 0 + 256 * rdb m' 1) with (rdb m' 0 + 256 * rdb m' (0 + 1)).
    replace (rdb m' 0 + 256 * rdb m' (0 + 1)) with (rdb m' 0 + 256 * (rdb m' (0 + 1) + 256 * 0)) by lia. change (ld16 m' 0 = n). unfold m', DE. rewrite ld_sto_same. cbn. by apply Z.mod_small.
  - apply fcstr_nth. intros a Ha. unfold m'. rewrite rdb_sto by (unfold DE; lia). unfold strncpy. change (Z.to_nat DIRSIZ) with 14%nat. rewrite strncpy_loop_spec by done.
    rewrite (proj2 (within_spec _ _ _)) by (unfold DE; lia). f_equal. unfold DE. f_equal. lia.
  - intros a Ha. unfold m'. rewrite rdb_sto by (unfold DE; cbn; lia). unfold strncpy. change (Z.to_nat DIRSIZ) with 14%nat. rewrite strncpy_loop_spec by done.
    by rewrite (proj2 (within_false _ _ _)) by (unfold DE; cbn; lia).
Qed.
Lemma entry_chunk j c : 0 ≤ c < 16 → (16 * j + c) / BSIZE = 16 * j / BSIZE.
Proof. intros Hc. change BSIZE with (16 * 64). rewrite <- !Z.div_div by done. rewrite (Z.mul_comm 16 j), Z.div_add_l, Z.div_mul, (Z.div_small c) by lia. f_equal. lia. Qed.
Lemma entry_steps j : steps (16 * j) DIRENT = 1%nat.
Proof.
  unfold steps, turns, DIRENT. cbn [Z.ltb Z.compare]. change BSIZE with (16 * 64). rewrite Z.mul_mod_distr_l by done. pose proof (Z.mod_pos_bound j 64 ltac:(done)).
  replace (_ / _) with 1; [done|]. apply Z.div_unique with (16 * (j mod 64) + 15); lia.
Qed.
(** A write of one entry writes all of it, or nothing and then beyond the end. *)
Lemma whole_entry V d j c f V' d' : 0 ≤ j → 0 ≤ c ≤ 16 → 16 * j ≤ isize d → after_write V d (16 * j) c f V' d' →
  (c < 16 → baddr V' d' ((16 * j + c) / BSIZE) = 0) → c = 16 ∨ c = 0.
Proof.
  intros Hj Hc Hs HA Hz. destruct (Z.eq_dec c 16); [by left|right]. destruct (Z.eq_dec c 0); [done|]. exfalso. specialize (Hz ltac:(lia)). rewrite entry_chunk in Hz by lia.
  apply (fo_hole _ _ _ (aw_ok _ _ _ _ _ _ _ HA)) in Hz; [done|apply Z.div_pos; [lia|done]|]. rewrite (aw_size _ _ _ _ _ _ _ HA).
  pose proof (Z.mul_div_le (16 * j) BSIZE ltac:(done)). lia.
Qed.
Lemma vacant_le l : (vacant l ≤ length l)%nat.
Proof. unfold vacant. destruct (list_find _ l) as [[j e]|] eqn:E; [|done]. apply list_find_Some in E as (E & _). apply lookup_lt_Some in E. lia. Qed.
Lemma write_entry s V bl dp d j e k : Open s V bl dp d → is_dir d → (cost bl d + 8 < 29)%nat → 0 ≤ j ≤ isize d / 16 →
  e = (rdb (km s) 0 + 256 * rdb (km s) 1, fcstr (λ a, rdb (km s) (DE + a)) 2 14) → 
  wp (r ← writei dp false DE (16 * j) DIRENT; if negb (r =? DIRENT) then ret (-1) else ret 0)
    (λ r w', ∃ k' s' V' bl' d', w' = World h k' s' ∧ Open s' V' bl' dp d' ∧ is_dir d' ∧
      (r = 0 ∧ entries V' d' = linked (entries V d) (Z.to_nat j) e ∨ r = -1 ∧ entries V' d' = entries V d ∧ (full b V' ∨ isize d = MAXFILE * BSIZE)))
    (World h k s).
Proof.
  intros HO Hd Hc Hj ->. pose proof HO as [HF Hsb Hi Hok Hin Hm]. pose proof (file_max _ _ Hok) as Hmax. pose proof (fo_size _ _ _ Hok) as Hsz.
  destruct Hd as [Ht Hdiv]. pose proof Hdiv as [q Hq]. assert (Hj' : j ≤ q) by (rewrite Hq, Z.div_mul in Hj; lia).
  destruct (Z.le_gt_cases (16 * j + DIRENT) (MAXFILE * BSIZE)) as [Hfit|Hfit].
  2:{ eapply writei_spec; try done; [lia|rewrite entry_steps; lia| |intros [_ Hw]; unfold DIRENT in *; lia].
      intros _. apply wp_ret. exists k, s, V, bl, d. split_and!; [done|done|by split|]. right. split_and!; [done|done|right].
      unfold MAXFILE, BSIZE, DIRENT in *. change NINDIRECT with 256 in *. change NDIRECT with 12 in *. lia. }
  apply wp_bind. eapply wp_mono; [apply (writei_open false s V bl dp d DE (16 * j) DIRENT k HO); [lia|done|done|rewrite entry_steps; lia|split; [lia|done]]|].
  intros c w' (k1 & s1 & V1 & bl1 & d1 & -> & HO1 & HA & Hcn & Hfull & _). change DIRENT with 16 in *.
  assert (Ht' : itype d1 = T_DIR) by (rewrite (aw_inode _ _ _ _ _ _ _ HA); done).
  destruct (whole_entry V d j c _ V1 d1 ltac:(lia) Hcn ltac:(lia) HA) as [->| ->]; [intros Hlt; by apply Hfull| |].
  - rewrite Z.eqb_refl. cbn [negb]. apply wp_ret. exists k1, s1, V1, bl1, d1. apply after_entry in HA as [HA Hd']; [|rewrite Hq, Z.div_mul; lia|done].
    split_and!; [done|done|by split|left]. split; [done|]. exact HA.
  - cbn [Z.eqb negb]. apply wp_ret. exists k1, s1, V1, bl1, d1. pose proof (aw_size _ _ _ _ _ _ _ HA) as Hs1.
    split_and!; [done|done|split; [done|exists q; lia]|right]. split_and!; [done| |left; by apply Hfull]. eapply after_nothing; [| |done|exact HA]; lia.
Qed.

(** ** The inode table *)
Definition holds (dv n : Z) (i : inode) : Prop := 0 < iref i ∧ idev i = dv ∧ inum i = n.
(** iget: the entry of the table that holds the inode gets one more reference;
    if there is none, an unused entry is given to it. *)
Definition got (t : list inode) (dv n : Z) (ip : nat) (t' : list inode) : Prop :=
  ∃ i, t !! ip = Some i ∧
    (holds dv n i ∧ t' = <[ip := i <| iref ::= λ r, r + 1 |>]> t ∨
     iref i = 0 ∧ (∀ i', i' ∈ t → ¬ holds dv n i') ∧ t' = <[ip := i <| idev := dv |> <| inum := n |> <| iref := 1 |> <| ivalid := false |>]> t).
Lemma iget_scan_spec dv n l : ∀ i0 e,
  match iget_scan l i0 dv n e with
  | (Some j, _) => ∃ m x, j = (i0 + m)%nat ∧ l !! m = Some x ∧ holds dv n x
  | (None, e') => (∀ x, x ∈ l → ¬ holds dv n x) ∧
      match e' with
      | Some j => e = Some j ∨ ∃ m x, j = (i0 + m)%nat ∧ l !! m = Some x ∧ iref x = 0
      | None => e = None ∧ ∀ x, x ∈ l → iref x ≠ 0
      end
  end.
Proof.
  induction l as [|x l IH]; intros i0 e; cbn [iget_scan].
  { split; [by intros x ?%elem_of_nil|]. destruct e; [by left|split; [done|by intros x ?%elem_of_nil]]. }
  rewrite Z.gtb_ltb. destruct ((0 <? iref x) && (idev x =? dv) && (inum x =? n)) eqn:E.
  { rewrite !andb_true_iff, Z.ltb_lt, !Z.eqb_eq in E. destruct E as [[? ?] ?]. exists 0%nat, x. by rewrite Nat.add_0_r. }
  assert (Hx : ¬ holds dv n x) by (intros (H1 & H2 & H3); apply not_true_iff_false in E; apply E; rewrite !andb_true_iff, Z.ltb_lt, !Z.eqb_eq; done).
  set (e1 := match e with None => _ | Some _ => _ end). specialize (IH (S i0) e1). destruct (iget_scan l (S i0) dv n e1) as [[j|] e'].
  - destruct IH as (m & y & -> & Hy & H). exists (S m), y. split; [lia|done].
  - destruct IH as [IH1 IH2]. split; [intros y [->|Hy]%elem_of_cons; [done|by apply IH1]|]. destruct e' as [j|].
    + destruct IH2 as [He|(m & y & -> & Hy & H)]; [|right; exists (S m), y; split; [lia|done]]. subst e1. destruct e as [z|]; [by left|].
      destruct (Z.eqb_spec (iref x) 0); [|done]. right. exists 0%nat, x. injection He as ->. by rewrite Nat.add_0_r.
    + destruct IH2 as [He IH2]. subst e1. destruct e as [z|]; [done|]. split; [done|]. destruct (Z.eqb_spec (iref x) 0); [done|].
      intros y [->|Hy]%elem_of_cons; [done|by apply IH2].
Qed.
Lemma iget_spec {B} (K : nat → M fsys B) Φ s dv n k : itable_lock ∉ h → (∃ i, i ∈ itable s ∧ (iref i = 0 ∨ holds dv n i)) →
  (∀ ip t', got (itable s) dv n ip t' → wp (K ip) Φ (World h k (s <| itable := t' |>))) →
  wp (bind (iget dv n) K) Φ (World h k s).
Proof.
  intros Hl (i & Hi & Hor) HK. unfold iget. apply wp_assoc, wp_bind, wp_acquire; [done|]. apply wp_assoc, wp_bind, wp_gets. cbn [st].
  pose proof (iget_scan_spec dv n (itable s) 0 None) as H. destruct (iget_scan (itable s) 0 dv n None) as [[j|] [e|]].
  1,2: destruct H as (m & x & -> & Hx & Hh); cbn [Nat.add]; apply wp_assoc; eapply wp_seti; [exact Hx|]; apply wp_assoc, wp_bind, wp_release; [done|];
    apply wp_bind, wp_ret; apply HK; exists x; split; [done|by left].
  - destruct H as [H1 [?|(m & x & -> & Hx & H0)]]; [done|]. cbn [Nat.add]. apply wp_assoc. eapply wp_seti; [exact Hx|]. apply wp_assoc, wp_bind, wp_release; [done|].
    apply wp_bind, wp_ret. apply HK. exists x. split; [done|right]. by split_and!.
  - destruct H as [H1 [_ H2]]. destruct Hor as [H0|H0]; [by destruct (H2 _ Hi)|by destruct (H1 _ Hi)].
Qed.

(** ** The map *)
Lemma dir_lookup_cons e l nm : dir_lookup (e :: l) nm = if decide (named nm e) then Some e.1 else dir_lookup l nm.
Proof. unfold dir_lookup. cbn. case_decide; [done|]. by destruct (list_find _ l) as [[j x]|]. Qed.
Lemma lookup_linked l nm n : n ≠ 0 → dir_lookup l nm = None →
  ∀ nm', dir_lookup (linked l (vacant l) (n, nm)) nm' = if decide (nm' = nm) then Some n else dir_lookup l nm'.
Proof.
  intros Hn. induction l as [|e l IH]; intros Hnone nm'.
  { change (dir_lookup [(n, nm)] nm' = if decide (nm' = nm) then Some n else None). rewrite dir_lookup_cons. unfold named. cbn.
    destruct (decide (nm' = nm)) as [->|H]; [by rewrite decide_True|by rewrite decide_False by naive_solver]. }
  rewrite dir_lookup_cons in Hnone. destruct (decide (named nm e)) as [|Hnm]; [done|]. destruct (Z.eq_dec e.1 0) as [E0|E0].
  - assert (Ev : vacant (e :: l) = 0%nat) by (unfold vacant; cbn; by rewrite decide_True). rewrite Ev. change (linked (e :: l) 0 (n, nm)) with ((n, nm) :: l).
    rewrite !dir_lookup_cons. assert (He : ∀ x, ¬ named x e) by (by intros x [? _]). rewrite (decide_False (P := named nm' e)) by apply He. unfold named. cbn.
    destruct (decide (nm' = nm)) as [->|H]; [by rewrite decide_True|by rewrite decide_False by naive_solver].
  - rewrite vacant_skip by done. change (linked (e :: l) (S (vacant l)) (n, nm)) with (e :: linked l (vacant l) (n, nm)). rewrite !dir_lookup_cons, IH by done.
    destruct (decide (named nm' e)) as [[_ <-]|]; [|done]. destruct (decide (e.2 = nm)) as [E|]; [|done]. by destruct Hnm.
Qed.

Lemma dirlookup_spec {B} (K : option (nat * Z) → M fsys B) Φ s V bl dp d name k : Open s V bl dp d → is_dir d → (length bl < 23)%nat → 16 ≤ name →
  (∀ k' s', Open s' V bl dp d → kept s s' → match list_find (named (cstr (km s) name 14)) (entries V d) with
     | None => wp (K None) Φ (World h k' s')
     | Some (j, e) => wp (ip ← iget (idev d) e.1; K (Some (ip, 16 * Z.of_nat j))) Φ (World h k' s')
     end) →
  wp (bind (dirlookup dp name) K) Φ (World h k s).
Proof.
  intros HO Hd Hbl Hname HK. pose proof (fo_size _ _ _ (o_file _ _ _ _ _ HO)) as Hsz. assert (Hq : 0 ≤ isize d / 16) by (apply Z.div_pos; lia).
  unfold dirlookup. apply wp_assoc. eapply wp_geti; [apply HO|]. rewrite (id_type _ Hd), Z.eqb_refl. cbn [negb when]. apply wp_assoc, wp_bind, wp_ret.
  change DIRENT with 16. change 0 with (16 * 0). eapply dirlookup_loop_spec; [done|done|done|done|lia|lia|exact HK].
Qed.

(** C26: dirlookup finds a name exactly when the directory maps it to a number.
    It reads the entries in order; when none in use has the name it returns 0
    and only the buffer cache and the local entry have changed. Otherwise it
    returns the offset of the first such entry and a reference, in the table of
    inodes, to the inode that it names: one more on the entry that held
    that inode already, or the only one on an entry that was unused. *)
Theorem dirlookup_correct s V bl dp d name k : Open s V bl dp d → is_dir d → (length bl < 23)%nat → 16 ≤ name → itable_lock ∉ h →
  match list_find (named (cstr (km s) name 14)) (entries V d) with
  | None => ∃ k' s', dirlookup dp name (World h k s) = Done None (World h k' s') ∧ Open s' V bl dp d ∧ kept s s'
  | Some (j, e) => (∃ i, i ∈ itable s ∧ (iref i = 0 ∨ holds (idev d) e.1 i)) →
      ∃ ip k' s' t', dirlookup dp name (World h k s) = Done (Some (ip, 16 * Z.of_nat j)) (World h k' (s' <| itable := t' |>)) ∧
        Open s' V bl dp d ∧ kept s s' ∧ got (itable s) (idev d) e.1 ip t'
  end.
Proof.
  intros HO Hd Hbl Hname Hl. destruct (list_find _ _) as [[j e]|] eqn:E.
  - intros Hroom. assert (H : wp (dirlookup dp name) (λ r w', ∃ ip k' s' t', r = Some (ip, 16 * Z.of_nat j) ∧ w' = World h k' (s' <| itable := t' |>) ∧
      Open s' V bl dp d ∧ kept s s' ∧ got (itable s) (idev d) e.1 ip t') (World h k s)).
    { apply wp_bind_ret. eapply dirlookup_spec; [done|done|done|done|]. rewrite E. intros k' s' HO' Hk. pose proof Hk as (l' & m' & Es & _).
      apply iget_spec; [done|rewrite Es; exact Hroom|]. intros ip t' Hgot. apply wp_ret. exists ip, k', s', t'. rewrite Es in Hgot. by split_and!. }
    apply wp_done in H as (r & w' & Er & ip & k' & s' & t' & -> & -> & H). by exists ip, k', s', t'.
  - assert (H : wp (dirlookup dp name) (λ r w', ∃ k' s', r = None ∧ w' = World h k' s' ∧ Open s' V bl dp d ∧ kept s s') (World h k s)).
    { apply wp_bind_ret. eapply dirlookup_spec; [done|done|done|done|]. rewrite E. intros k' s' HO' Hk. apply wp_ret. by exists k', s'. }
    apply wp_done in H as (r & w' & Er & k' & s' & -> & -> & H). by exists k', s'.
Qed.

(** C22: dirlink adds exactly one name. Linking a name that the directory does
    not have to inode [n] returns 0 or -1. If 0, the first unused entry, or a
    new one at the end, has become the entry of that name, all the others
    are as before, and the directory is the same map with that name mapped to
    [n]. If -1, no entry has changed, and the disk is full or the directory is
    as large as a file can be. *)
Theorem dirlink_correct s V bl dp d name n k : Open s V bl dp d → is_dir d → (cost bl d < 21)%nat → 16 ≤ name → 0 < n < 2 ^ 16 →
  dir_lookup (entries V d) (cstr (km s) name 14) = None →
  ∃ r k' s' V' bl' d', dirlink dp name n (World h k s) = Done r (World h k' s') ∧ Open s' V' bl' dp d' ∧ is_dir d' ∧
    (r = 0 ∧ entries V' d' = linked (entries V d) (vacant (entries V d)) (n, cstr (km s) name 14) ∧
       (∀ nm, dir_lookup (entries V' d') nm = if decide (nm = cstr (km s) name 14) then Some n else dir_lookup (entries V d) nm) ∨
     r = -1 ∧ entries V' d' = entries V d ∧ (full b V' ∨ isize d = MAXFILE * BSIZE)).
Proof.
  intros HO Hd Hc Hname Hn Hnone. set (nm := cstr (km s) name 14) in *. set (l := entries V d) in *.
  assert (Hbl : (length bl < 23)%nat) by (unfold cost in Hc; lia). pose proof (vacant_le l) as Hv. pose proof (fo_size _ _ _ (o_file _ _ _ _ _ HO)) as Hsz.
  assert (Hq : 0 ≤ isize d / 16) by (apply Z.div_pos; lia). unfold l in Hv at 2. rewrite entries_length in Hv by lia.
  assert (H : wp (dirlink dp name n) (λ r w', ∃ k' s' V' bl' d', w' = World h k' s' ∧ Open s' V' bl' dp d' ∧ is_dir d' ∧
    (r = 0 ∧ entries V' d' = linked l (vacant l) (n, nm) ∨ r = -1 ∧ entries V' d' = l ∧ (full b V' ∨ isize d = MAXFILE * BSIZE))) (World h k s)).
  { unfold dirlink. eapply dirlookup_spec; [done|done|done|done|]. intros k1 s1 HO1 Hk1. fold nm l.
    unfold dir_lookup in Hnone. destruct (list_find (named nm) l) as [|]; [done|]. eapply wp_geti; [apply HO1|].
    change DIRENT with 16 at 1. change 0 with (16 * 0) at 1. eapply dirlink_loop_spec; [exact HO1|done|done|lia|lia|]. intros k2 s2 HO2 Hk2.
    change (drop (Z.to_nat 0) (entries V d)) with l. rewrite Z.add_0_l. apply wp_bind, wp_modify.
    assert (Enm : cstr (km s2) name 14 = nm) by (rewrite (kept_name s1), (kept_name s); done). destruct (new_entry (km s2) name n Hname ltac:(lia)) as (E1 & E2 & _).
    rewrite Enm in E2. assert (Hv' : 0 ≤ Z.of_nat (vacant l) ≤ isize d / 16) by lia. set (s3 := s2 <| km ::= _ |>).
    assert (HO3 : Open s3 V bl dp d) by (destruct HO2; by split).
    assert (Ee : (n, nm) = (rdb (km s3) 0 + 256 * rdb (km s3) 1, fcstr (λ a, rdb (km s3) (DE + a)) 2 14)) by (f_equal; [by rewrite <- E1|by rewrite <- E2]).
    pose proof (write_entry s3 V bl dp d (Z.of_nat (vacant l)) _ k2 HO3 Hd ltac:(lia) Hv' Ee) as HW. by rewrite Nat2Z.id in HW. }
  apply wp_done in H as (r & w' & Er & k' & s' & V' & bl' & d' & -> & HO' & Hd' & Hor). exists r, k', s', V', bl', d'. split_and!; [done|done|done|].
  destruct Hor as [[-> E]|Hor]; [left|by right]. split_and!; [done|done|]. rewrite E. apply lookup_linked; [lia|done].
Qed.
End dir.

(** ** A root directory

    The layout of [demo_sb] with a root directory of one block, block 46: it
    has the entries of [.] and [..]. The second slot of the inode table is unused,
    and "lib" is at 1000. *)
Definition root_block : block := wrb (wrb (wrb (wrb (wrb ∅ 0 1) 2 46) 16 1) 18 46) 19 46.
Definition root_disk : disk := <[46 := root_block]> {[45 := wrb (memset ∅ 0 255 5) 5 127]}.
Definition root_inode : inode := mkInode ROOTDEV 1 1 (Some 1) true T_DIR 0 0 1 32 (46 :: repeat 0 12).
Definition no_inode : inode := mkInode 0 0 0 None false 0 0 0 0 0 (repeat 0 13).
Definition root_km : mem := wrb (wrb (wrb (wrb ∅ 1000 108) 1001 105) 1002 98) 1100 46.
Definition root_fsys : fsys := mkFs (boot_ls root_disk) [root_inode; no_inode] demo_sb 0 root_km ∅ (λ _, true).
Abbreviation root_mount := (mount_of root_disk).
Lemma root_meta : meta_used demo_sb (blk root_disk).
Proof.
  intros x Hx. change (dstart demo_sb) with 46 in Hx.
  assert (E : forallb (λ n, used demo_sb (blk root_disk) (Z.of_nat n)) (seq 0 46) = true) by (vm_compute; reflexivity).
  rewrite forallb_forall in E. specialize (E (Z.to_nat x)). rewrite Z2Nat.id in E by lia. apply E, in_seq. lia.
Qed.
Lemma root_baddr V bn : in_file bn → baddr V root_inode bn = if bn =? 0 then 46 else 0.
Proof.
  intros [H0 _]. unfold baddr. destruct (Z.ltb_spec bn NDIRECT) as [H|H]; [|by destruct (Z.eqb_spec bn 0); [subst|]].
  destruct (Z.eqb_spec bn 0) as [->|Hn]; [done|]. unfold addr_at. destruct (Z.to_nat bn) as [|j] eqn:E; [lia|].
  clear. cbn. do 12 (destruct j as [|j]; [done|]). by destruct j.
Qed.
Lemma root_open : Open (MT := root_mount) root_fsys (blk root_disk) [] 0 root_inode.
Proof.
  split; [apply mount_fx|done|done| |split; done|apply root_meta]. split; try done.
  - intros x (Hx & [->|(bn & Hbn & ->)]); [done|]. rewrite root_baddr in Hx |- * by done. destruct (bn =? 0); [|done]. by split.
  - intros bn bn' H1 H2 H3 H4. rewrite root_baddr in H3 by done. rewrite !root_baddr in H4 by done. destruct (Z.eqb_spec bn 0), (Z.eqb_spec bn' 0); try done. lia.
  - intros bn H0 H1. change (isize root_inode) with 32 in H1. unfold BSIZE in H1. assert (bn = 0) as -> by lia. done.
Qed.
Lemma root_is_dir : is_dir root_inode.
Proof. split; [done|by exists 2]. Qed.
Lemma root_entries : entries (blk root_disk) root_inode = [(1, [46]); (1, [46; 46])].
Proof. vm_compute. reflexivity. Qed.
(** Looking up [.] gives a second reference to the root. *)
Lemma dirlookup_correct_witness : ∃ ip k' s' t', dirlookup 0 1100 (World [] [] root_fsys) = Done (Some (ip, 0)) (World [] k' (s' <| itable := t' |>)) ∧
  Open (MT := root_mount) s' (blk root_disk) [] 0 root_inode ∧ kept root_fsys s' ∧ got [root_inode; no_inode] ROOTDEV 1 ip t'.
Proof.
  assert (E : list_find (named (cstr root_km 1100 14)) (entries (blk root_disk) root_inode) = Some (0%nat, (1, [46]))) by (rewrite root_entries; vm_compute; reflexivity).
  pose proof (dirlookup_correct (MT := root_mount) root_fsys (blk root_disk) [] 0 root_inode 1100 [] root_open root_is_dir ltac:(cbn; lia) ltac:(lia) (not_elem_of_nil _)) as H.
  change (km root_fsys) with root_km in H. rewrite E in H. apply H. exists no_inode. split; [exact (list_elem_of_further _ _ _ (list_elem_of_here _ _))|by left].
Defined.
(** Linking "lib" to inode 9. *)
Lemma dirlink_correct_witness : ∃ r k' s' V' bl' d', dirlink 0 1000 9 (World [] [] root_fsys) = Done r (World [] k' s') ∧ Open (MT := root_mount) s' V' bl' 0 d' ∧ is_dir d' ∧
  (r = 0 ∧ entries V' d' = linked (entries (blk root_disk) root_inode) (vacant (entries (blk root_disk) root_inode)) (9, cstr root_km 1000 14) ∧
     (∀ nm, dir_lookup (entries V' d') nm = if decide (nm = cstr root_km 1000 14) then Some 9 else dir_lookup (entries (blk root_disk) root_inode) nm) ∨
   r = -1 ∧ entries V' d' = entries (blk root_disk) root_inode ∧ (full demo_sb V' ∨ isize root_inode = MAXFILE * BSIZE)).
Proof.
  apply (dirlink_correct (MT := root_mount) root_fsys (blk root_disk) [] 0 root_inode 1000 9 [] root_open root_is_dir); [vm_compute; lia|lia|lia|].
  rewrite root_entries. vm_compute. reflexivity.
Defined.
