(* ===== verification/Mkfs.v ===== *)
(** * The disk image: mkfs/mkfs.c

    The host program that writes the initial file system. Its output file is the
    list of the sectors written so far, a read beyond them is short; [Panic]
    stands for die() and for an assertion that fails, [Done] for exit(0). The
    host is little-endian, and its files are a parameter: for each path the
    results of the successive reads until the one that returns 0, or nothing if
    it cannot be opened. *)
From S2P Require Import Prelude Param CString Mem Bio Log Fs.

Module Mkfs.
(** ** Layout *)
Definition NINODES : Z := 200.
Definition nbitmap : Z := FSSIZE / (BSIZE * 8) + 1.
Definition ninodeblocks : Z := NINODES / Fs.IPB + 1.
Definition nlog : Z := LOGSIZE.
Definition nmeta : Z := 2 + nlog + ninodeblocks + nbitmap.
Definition nblocks : Z := FSSIZE - nmeta.

(** [struct dinode] of kernel/fs.h. *)
Record dinode := mkDinode { dtype : Z; dmajor : Z; dminor : Z; dnlink : Z; dsize : Z; daddrs : list Z }.
#[export] Instance eta_dinode : Settable dinode := λ d, mkDinode (dtype d) (dmajor d) (dminor d) (dnlink d) (dsize d) (daddrs d).
(** The globals: the image, the superblock and the next free inode and block. *)
Record mkfs := mkMkfs { img : list block; sb : Fs.superblock; freeinode : Z; freeblock : Z }.
#[export] Instance eta_mkfs : Settable mkfs := λ s, mkMkfs (img s) (sb s) (freeinode s) (freeblock s).

Definition die {A} (s : string) : M mkfs A := panic s.
Definition assert (b : bool) : M mkfs unit := when (negb b) (panic "assert").

(** ** Byte order: the value whose bytes are those of [x], the lowest first *)
Definition xshort (x : Z) : Z := ld16 (wrb (wrb ∅ 0 x) 1 (Z.shiftr x 8)) 0.
Definition xint (x : Z) : Z :=
  ld32 (wrb (wrb (wrb (wrb ∅ 0 x) 1 (Z.shiftr x 8)) 2 (Z.shiftr x 16)) 3 (Z.shiftr x 24)) 0.

(** ** Sectors *)
Definition zeroes : block := memset ∅ 0 0 BSIZE.
(** [lseek(fsfd, sec * BSIZE, 0)]: the offset is a uint. *)
Definition seek (sec : Z) : nat := Z.to_nat (u32 (sec * BSIZE) / BSIZE).
(** A write beyond the end of the file leaves a hole that reads as zeroes. *)
Definition put_sector (l : list block) (n : nat) (buf : block) : list block :=
  if decide (n < length l)%nat then <[n := buf]> l else l ++ replicate (n - length l) ∅ ++ [buf].
Definition wsect (sec : Z) (buf : block) : M mkfs unit := modify (λ s, s <| img ::= λ l, put_sector l (seek sec) buf |>).
Definition rsect (sec : Z) : M mkfs block :=
  l ← gets img;
  match l !! seek sec with Some buf => ret buf | None => die "read" end.

(** ** Inodes *)
Definition get_din (m : mem) (o : Z) : dinode :=
  mkDinode (i16 (ld16 m o)) (i16 (ld16 m (o + 2))) (i16 (ld16 m (o + 4))) (i16 (ld16 m (o + 6))) (ld32 m (o + 8)) (Fs.get_addrs m o).
Definition put_din (m : mem) (o : Z) (d : dinode) : mem :=
  Fs.put_addrs (st32 (st16 (st16 (st16 (st16 m o (dtype d)) (o + 2) (dmajor d)) (o + 4) (dminor d)) (o + 6) (dnlink d)) (o + 8) (dsize d)) o (daddrs d).
Definition winode (inum : Z) (ip : dinode) : M mkfs unit :=
  s ← gets sb;
  let bn := Fs.IBLOCK inum s in
  buf ← rsect bn;
  wsect bn (put_din buf (Fs.dinode_at inum) ip).
Definition rinode (inum : Z) : M mkfs dinode :=
  s ← gets sb;
  buf ← rsect (Fs.IBLOCK inum s);
  ret (get_din buf (Fs.dinode_at inum)).
Definition dinode0 : dinode := mkDinode 0 0 0 0 0 (repeat 0 13).
Definition ialloc (type : Z) : M mkfs Z :=
  inum ← gets freeinode;
  modify (λ s, s <| freeinode ::= λ n, u32 (n + 1) |>);;
  let din := dinode0 <| dtype := i16 (xshort type) |> <| dnlink := i16 (xshort 1) |> <| dsize := xint 0 |> in
  winode inum din;;
  ret inum.

(** ** The bitmap *)
Fixpoint bitmap_loop (k : nat) (i : Z) (buf : block) : block :=
  match k with
  | O => buf
  | S k => bitmap_loop k (i + 1) (wrb buf (i / 8) (Z.lor (rdb buf (i / 8)) (Z.shiftl 1 (i mod 8))))
  end.
Definition balloc (used : Z) : M mkfs unit :=
  assert (used <? BSIZE * 8);;
  s ← gets sb;
  wsect (Fs.bmapstart s) (bitmap_loop (Z.to_nat used) 0 zeroes).

(** ** Appending to a file *)
(** [freeblock++] *)
Definition next_block : M mkfs Z :=
  b ← gets freeblock; modify (λ s, s <| freeblock ::= λ n, u32 (n + 1) |>);; ret b.
Definition addr (d : dinode) (n : Z) : Z := default 0 (daddrs d !! Z.to_nat n).
(** [din.addrs[n]], allocated if it is 0. *)
Definition need_addr (din : dinode) (n : Z) : M mkfs dinode :=
  if xint (addr din n) =? 0 then b ← next_block; ret (din <| daddrs ::= <[Z.to_nat n := xint b]> |>)
  else ret din.
(** [indirect[j]], allocated if it is 0. *)
Definition need_entry (at_ : Z) (indirect : block) (j : Z) : M mkfs block :=
  if ld32 indirect (4 * j) =? 0 then
    b ← next_block;
    let indirect := st32 indirect (4 * j) (xint b) in
    wsect at_ indirect;; ret indirect
  else ret indirect.
(** The sector of block [fbn] of the file. *)
Definition map_block (din : dinode) (fbn : Z) : M mkfs (dinode * Z) :=
  if fbn <? Fs.NDIRECT then
    din ← need_addr din fbn;
    ret (din, xint (addr din fbn))
  else
    din ← need_addr din Fs.NDIRECT;
    indirect ← rsect (xint (addr din Fs.NDIRECT));
    indirect ← need_entry (xint (addr din Fs.NDIRECT)) indirect (fbn - Fs.NDIRECT);
    ret (din, xint (ld32 indirect (4 * (fbn - Fs.NDIRECT)))).
Fixpoint iappend_loop (k : nat) (p : mem) (din : dinode) (off at_ n : Z) : M mkfs (dinode * Z) :=
  match k with
  | O => timeout
  | S k =>
      if 0 <? n then
        let fbn := off / BSIZE in
        assert (fbn <? Fs.MAXFILE);;
        '(din, x) ← map_block din fbn;
        let n1 := Fs.min n ((fbn + 1) * BSIZE - off) in
        buf ← rsect x;
        wsect x (Fs.copy_bytes (Z.to_nat n1) buf (off - fbn * BSIZE) p at_);;
        iappend_loop k p din (off + n1) (at_ + n1) (n - n1)
      else ret (din, off)
  end.
(** [iappend(inum, xp, n)]: the [n] bytes are at [xp] of the memory [p]. *)
Definition iappend (inum : Z) (p : mem) (xp n : Z) : M mkfs unit :=
  din ← rinode inum;
  '(din, off) ← iappend_loop (Z.to_nat (n / BSIZE + 3)) p din (xint (dsize din)) xp n;
  winode inum (din <| dsize := xint off |>).

(** ** main *)
Fixpoint put_bytes (m : mem) (a : Z) (l : list Z) : mem :=
  match l with
  | [] => m
  | c :: l => put_bytes (wrb m a c) (a + 1) l
  end.
(** [bzero(&de, sizeof(de)); de.inum = xshort(inum); strncpy(de.name, name, DIRSIZ)] *)
Definition dirent (inum : Z) (name : list Z) : mem :=
  let de := st16 (memset ∅ 0 0 Fs.DIRENT) 0 (xshort inum) in
  let name := take (Z.to_nat Fs.DIRSIZ) name in
  put_bytes de 2 (name ++ replicate (Z.to_nat Fs.DIRSIZ - length name) 0).
(** The same with [strcpy], which also writes the NUL. *)
Definition dirent_dot (inum : Z) (name : list Z) : mem :=
  put_bytes (st16 (memset ∅ 0 0 Fs.DIRENT) 0 (xshort inum)) 2 (name ++ [0]).
Definition user_slash : list Z := [117; 115; 101; 114; 47].
(** The name without "user/", and then without a leading underscore. *)
Definition shortname (path : list Z) : list Z := if decide (take 5 path = user_slash) then drop 5 path else path.
Definition skip_underscore (name : list Z) : list Z :=
  match name with c :: l => if c =? 95 then l else name | [] => [] end.
(** [while((cc = read(fd, buf, sizeof(buf))) > 0) iappend(inum, buf, cc);] *)
Fixpoint append_reads (inum : Z) (buf : mem) (reads : list (list Z)) : M mkfs mem :=
  match reads with
  | [] => ret buf
  | c :: reads =>
      let buf := put_bytes buf 0 c in
      iappend inum buf 0 (Z.of_nat (length c));;
      append_reads inum buf reads
  end.
Definition superblock_bytes (b : Fs.superblock) : mem :=
  st32 (st32 (st32 (st32 (st32 (st32 (st32 (st32 zeroes 0 (Fs.magic b)) 4 (Fs.sbsize b)) 8 (Fs.nblocks b)) 12 (Fs.ninodes b))
    16 (Fs.nlog b)) 20 (Fs.logstart b)) 24 (Fs.inodestart b)) 28 (Fs.bmapstart b).
Fixpoint zero_disk (k : nat) (i : Z) : M mkfs unit :=
  match k with
  | O => ret ()
  | S k => wsect i zeroes;; zero_disk k (i + 1)
  end.

Section main.
Context (host : list Z → option (list (list Z))).
(** One turn of the loop over the files; [buf] is main's local buffer. *)
Definition add_file (rootino : Z) (path : list Z) (buf : mem) : M mkfs mem :=
  let name := shortname path in
  assert (negb (bool_decide (47 ∈ name)));;
  match host path with
  | None => die "open"
  | Some reads =>
      let name := skip_underscore name in
      inum ← ialloc Fs.T_FILE;
      iappend rootino (dirent inum name) 0 Fs.DIRENT;;
      append_reads inum buf reads
  end.
Fixpoint add_files (rootino : Z) (argv : list (list Z)) (buf : mem) : M mkfs unit :=
  match argv with
  | [] => ret ()
  | path :: argv => buf ← add_file rootino path buf; add_files rootino argv buf
  end.
Definition fix_root_size (rootino : Z) : M mkfs unit :=
  din ← rinode rootino;
  let off := xint (dsize din) in
  let off := u32 ((off / BSIZE + 1) * BSIZE) in
  winode rootino (din <| dsize := xint off |>).
(** main, once the image is open and empty; [argv] is [argv[2..]]. *)
Definition main (argv : list (list Z)) : M mkfs unit :=
  assert (BSIZE mod 64 =? 0);; assert (BSIZE mod Fs.DIRENT =? 0);;
  modify (λ s, s <| sb := Fs.mkSb Fs.FSMAGIC (xint FSSIZE) (xint nblocks) (xint NINODES) (xint nlog) (xint 2) (xint (2 + nlog)) (xint (2 + nlog + ninodeblocks)) |>);;
  modify (λ s, s <| freeblock := nmeta |>);;
  zero_disk (Z.to_nat FSSIZE) 0;;
  s ← gets sb;
  wsect 1 (superblock_bytes s);;
  rootino ← ialloc Fs.T_DIR;
  assert (rootino =? Fs.ROOTINO);;
  iappend rootino (dirent_dot rootino [46]) 0 Fs.DIRENT;;
  iappend rootino (dirent_dot rootino [46; 46]) 0 Fs.DIRENT;;
  add_files rootino argv (superblock_bytes s);;
  fix_root_size rootino;;
  f ← gets freeblock;
  balloc f.
End main.
(** The globals when main starts. *)
Definition mkfs0 : mkfs := mkMkfs [] (Fs.mkSb 0 0 0 0 0 0 0 0) 1 0.
End Mkfs.
