(* ===== verification/MkfsSpec.v ===== *)
(** * What mkfs puts in a file

    mkfs and the kernel agree on the layout: the image of mkfs, with the bitmap
    that it writes last, is a view of the disk of the kind FsInode.v uses, and
    appending to a file changes it as a write of the kernel does. *)
From S2P Require Import Prelude Param CString Mem Bio BioSpec Cache Log LogSpec LogTx LogCrash Fs FsBlock FsInode FsRW FsFile Mkfs.
Import Fs Mkfs.

(** ** Byte order *)
Lemma xint_id x : 0 ≤ x < 2 ^ 32 → xint x = x.
Proof.
  intros Hx. unfold xint. set (m := wrb _ 3 _). change (rdb m 0 + 256 * (rdb m 1 + 256 * (rdb m 2 + 256 * (rdb m 3 + 256 * 0))) = x).
  assert (E0 : rdb m 0 = x mod 256) by (unfold m; by rewrite !rdb_wrb).
  assert (E1 : rdb m 1 = x / 2 ^ 8 mod 256) by (unfold m; rewrite !rdb_wrb; change (u8 (Z.shiftr x 8) = x / 2 ^ 8 mod 256); by rewrite Z.shiftr_div_pow2).
  assert (E2 : rdb m 2 = x / 2 ^ 16 mod 256) by (unfold m; rewrite !rdb_wrb; change (u8 (Z.shiftr x 16) = x / 2 ^ 16 mod 256); by rewrite Z.shiftr_div_pow2).
  assert (E3 : rdb m 3 = x / 2 ^ 24 mod 256) by (unfold m; rewrite !rdb_wrb; change (u8 (Z.shiftr x 24) = x / 2 ^ 24 mod 256); by rewrite Z.shiftr_div_pow2).
  rewrite E0, E1, E2, E3. change (2 ^ 8) with 256. change (2 ^ 16) with (256 * 256). change (2 ^ 24) with (256 * 256 * 256).
  rewrite <- !Z.div_div by done. set (y := x / 256). set (z := y / 256). assert (z / 256 < 256) by (unfold z, y; rewrite !Z.div_div by done; apply Z.div_lt_upper_bound; lia).
  assert (0 ≤ z / 256) by (unfold z, y; repeat apply Z.div_pos; lia). rewrite (Z.mod_small (z / 256)) by lia.
  pose proof (Z.div_mod x 256 ltac:(done)). pose proof (Z.div_mod y 256 ltac:(done)). pose proof (Z.div_mod z 256 ltac:(done)). fold y in H1. fold z in H2. lia.
Qed.
Lemma xshort_id x : 0 ≤ x < 2 ^ 16 → xshort x = x.
Proof.
  intros Hx. unfold xshort. set (m := wrb _ 1 _). change (rdb m 0 + 256 * (rdb m 1 + 256 * 0) = x).
  assert (E0 : rdb m 0 = x mod 256) by (unfold m; by rewrite !rdb_wrb).
  assert (E1 : rdb m 1 = x / 2 ^ 8 mod 256) by (unfold m; rewrite !rdb_wrb; change (u8 (Z.shiftr x 8) = x / 2 ^ 8 mod 256); by rewrite Z.shiftr_div_pow2).
  rewrite E0, E1. change (2 ^ 8) with 256. assert (x / 256 < 256) by (apply Z.div_lt_upper_bound; lia). assert (0 ≤ x / 256) by (apply Z.div_pos; lia).
  rewrite (Z.mod_small (x / 256)) by lia. pose proof (Z.div_mod x 256 ltac:(done)). lia.
Qed.

(** ** The image as a disk *)
(** The disk mkfs is making: its sectors, and as bitmap the one it will write. *)
Record Sim (s : mkfs) (V : Z → block) : Prop := {
  sim_len : length (img s) = Z.to_nat FSSIZE;
  sim_sb : sb s = demo_sb;
  sim_free : 46 ≤ freeblock s ≤ FSSIZE;
  sim_at n : 0 ≤ n < FSSIZE → n ≠ 45 → img s !! Z.to_nat n = Some (V n);
  sim_map : V 45 = bitmap_loop (Z.to_nat (freeblock s)) 0 zeroes;
  sim_zero n : freeblock s ≤ n < FSSIZE → V n = zeroes;
}.
Lemma seek_id x : 0 ≤ x < FSSIZE → seek x = Z.to_nat x.
Proof. intros Hx. unfold seek. rewrite u32_small by (unfold FSSIZE, BSIZE in *; lia). by rewrite Z.div_mul. Qed.
Lemma rsect_spec {B} (K : block → M mkfs B) Φ s V x h k : Sim s V → 0 ≤ x < FSSIZE → x ≠ 45 → wp (K (V x)) Φ (World h k s) → wp (bind (rsect x) K) Φ (World h k s).
Proof. intros HS Hx Hn HK. unfold rsect. apply wp_bind, wp_bind, wp_gets. cbn [st]. rewrite seek_id, (sim_at _ _ HS) by done. by apply wp_ret. Qed.
Lemma wsect_spec {B} (K : M mkfs B) Φ s V x y h k : Sim s V → 0 ≤ x < freeblock s → x ≠ 45 →
  (∀ s', Sim s' (updV V x y) → freeinode s' = freeinode s → freeblock s' = freeblock s → wp K Φ (World h k s')) → wp (wsect x y;; K) Φ (World h k s).
Proof.
  intros [Hl Hsb Hf Hat Hm Hz] Hx Hn HK. apply wp_bind, wp_modify. apply HK; [|done|done]. assert (Hx' : 0 ≤ x < FSSIZE) by lia.
  assert (E : img (s <| img ::= λ l, put_sector l (seek x) y |>) = <[Z.to_nat x := y]> (img s)).
  { cbn. unfold put_sector. rewrite seek_id by done. by rewrite decide_True by lia. }
  split; try done.
  - by rewrite E, length_insert.
  - intros n H0 H1. rewrite E. unfold updV. case_decide as Ex; [subst n; apply list_lookup_insert_eq; lia|]. rewrite list_lookup_insert_ne by lia. by apply Hat.
  - unfold updV. by rewrite decide_False.
  - intros n H0. change (freeblock _) with (freeblock s) in H0. unfold updV. rewrite decide_False by lia. by apply Hz.
Qed.

(** ** The bitmap *)
Lemma bitmap_loop_app k : ∀ j i m, bitmap_loop (k + j) i m = bitmap_loop j (i + Z.of_nat k) (bitmap_loop k i m).
Proof. induction k as [|k IH]; intros j i m; cbn [bitmap_loop Nat.add]; [by rewrite Z.add_0_r|]. rewrite IH. f_equal. lia. Qed.
Lemma bitmap_next n : bitmap_loop (S n) 0 zeroes = set_bit (bitmap_loop n 0 zeroes) (Z.of_nat n).
Proof. rewrite <- Nat.add_1_r, bitmap_loop_app. done. Qed.
Lemma bitmap_bit n j : 0 ≤ j → (bit_of (bitmap_loop n 0 zeroes) j =? 0) = (Z.of_nat n <=? j).
Proof.
  intros Hj. induction n as [|n IH].
  - rewrite (proj2 (Z.leb_le _ _)) by lia. apply Z.eqb_eq. unfold bit_of. cbn [bitmap_loop]. unfold zeroes. rewrite rdb_memset by done. within_cases.
  - rewrite bitmap_next, bit_set. case_decide as E; [subst; symmetry; apply Z.leb_gt; lia|]. rewrite IH. apply eq_true_iff_eq. rewrite !Z.leb_le. lia.
Qed.
Lemma sim_used s V x : Sim s V → used demo_sb V x = (0 <=? x) && (x <? freeblock s).
Proof.
  intros [_ _ Hf _ Hm _]. unfold used. change (sbsize demo_sb) with FSSIZE. destruct (Z.leb_spec 0 x) as [H0|]; [|done]. cbn [andb].
  destruct (Z.ltb_spec x FSSIZE) as [H1|H1]; cbn [andb]; [|symmetry; apply Z.ltb_ge; lia].
  assert (E : BBLOCK x demo_sb = 45) by (unfold BBLOCK; change BPB with 8192; unfold FSSIZE in *; rewrite Z.div_small by lia; done).
  rewrite E, Hm. change BPB with 8192. rewrite Z.mod_small by (unfold FSSIZE in *; lia). rewrite bitmap_bit by done. rewrite Z2Nat.id by lia.
  apply eq_true_iff_eq. rewrite negb_true_iff, Z.leb_gt, Z.ltb_lt. done.
Qed.
Lemma sim_fresh s V : Sim s V → freeblock s < FSSIZE → fresh demo_sb V (freeblock s).
Proof.
  intros HS Hlt. pose proof (sim_free _ _ HS). split; [change (dstart demo_sb) with 46; change (sbsize demo_sb) with FSSIZE; lia|]. split.
  - rewrite (sim_used s V) by done. rewrite Z.ltb_irrefl. apply andb_false_r.
  - intros x Hx. rewrite (sim_used s V) by done. rewrite (proj2 (Z.leb_le _ _)), (proj2 (Z.ltb_lt _ _)) by lia. done.
Qed.
Lemma sim_meta s V : Sim s V → meta_used demo_sb V.
Proof. intros HS x Hx. change (dstart demo_sb) with 46 in Hx. pose proof (sim_free _ _ HS). rewrite (sim_used s V) by done. rewrite (proj2 (Z.leb_le _ _)), (proj2 (Z.ltb_lt _ _)) by lia. done. Qed.
Lemma zeroes_again : memset zeroes 0 0 BSIZE = zeroes.
Proof. vm_compute. reflexivity. Qed.
Lemma next_block_spec {B} (K : Z → M mkfs B) Φ s V h k : Sim s V → freeblock s < FSSIZE →
  (∀ s', Sim s' (allocated demo_sb V (freeblock s)) → freeinode s' = freeinode s → freeblock s' = freeblock s + 1 → wp (K (freeblock s)) Φ (World h k s')) →
  wp (bind next_block K) Φ (World h k s).
Proof.
  intros HS Hlt HK. pose proof (sim_free _ _ HS) as Hf. unfold next_block. apply wp_bind, wp_bind, wp_gets. cbn [st]. apply wp_bind, wp_modify, wp_ret.
  assert (Eu : u32 (freeblock s + 1) = freeblock s + 1) by (apply u32_small; unfold FSSIZE in *; lia).
  assert (Eb : BBLOCK (freeblock s) demo_sb = 45) by (unfold BBLOCK; change BPB with 8192; unfold FSSIZE in *; rewrite Z.div_small by lia; done).
  assert (EV : ∀ n, 0 ≤ n → n ≠ 45 → allocated demo_sb V (freeblock s) n = V n).
  { intros n H0 Hn. unfold allocated, mark. rewrite Eb. unfold updV at 1. case_decide as E; [|by rewrite updV_ne]. subst n. rewrite updV_ne by done.
    rewrite (sim_zero _ _ HS) by lia. apply zeroes_again. }
  apply HK; [|done|exact Eu]. pose proof HS as [Hl Hsb _ Hat Hm Hz]. split; try done.
  - cbn. rewrite Eu. lia.
  - intros n H0 H1. rewrite EV by lia. by apply Hat.
  - unfold allocated, mark. rewrite Eb. rewrite updV_ne, updV_eq by lia. change BPB with 8192. rewrite Z.mod_small by (unfold FSSIZE in *; lia). rewrite Hm.
    cbn [freeblock set_field]. rewrite Eu. replace (Z.to_nat (freeblock s + 1)) with (S (Z.to_nat (freeblock s))) by lia. rewrite bitmap_next. by rewrite Z2Nat.id by lia.
  - intros n H0. cbn in H0. rewrite Eu in H0. rewrite EV by lia. apply Hz. lia.
Qed.

(** ** Addresses *)
Definition inode_of (n : Z) (d : dinode) : inode := mkInode ROOTDEV n 0 None false (dtype d) (dmajor d) (dminor d) (dnlink d) (dsize d) (daddrs d).
Lemma own_range V i x : file_ok demo_sb V i → own V i x → 46 ≤ x < FSSIZE ∧ xint x = x.
Proof. intros HF Hx. destruct (fo_own _ _ _ HF x Hx) as [H _]. change (46 ≤ x < FSSIZE) in H. split; [done|]. apply xint_id. unfold FSSIZE in *. lia. Qed.
Lemma own_slot V i n : 0 ≤ n ≤ NDIRECT → addr_at i n ≠ 0 → own V i (addr_at i n).
Proof.
  intros Hn Ha. split; [done|]. destruct (Z.eq_dec n NDIRECT) as [->|Hne]; [by left|right]. exists n. unfold baddr, in_file, MAXFILE. change NINDIRECT with 256.
  rewrite (proj2 (Z.ltb_lt _ _)) by lia. split; [lia|done].
Qed.
Lemma addr_test V i n : file_ok demo_sb V i → 0 ≤ n ≤ NDIRECT → xint (addr_at i n) = addr_at i n.
Proof. intros HF Hn. destruct (Z.eq_dec (addr_at i n) 0) as [->|Ha]; [done|]. apply (own_range V i); [done|]. by apply own_slot. Qed.
Lemma need_addr_spec {B} (K : dinode → M mkfs B) Φ s V j d n h k : Sim s V → file_ok demo_sb V (inode_of j d) → 0 ≤ n ≤ NDIRECT →
  (addr_at (inode_of j d) n = 0 → freeblock s < FSSIZE) →
  (addr_at (inode_of j d) n ≠ 0 → wp (K d) Φ (World h k s)) →
  (addr_at (inode_of j d) n = 0 → ∀ s', Sim s' (allocated demo_sb V (freeblock s)) → freeinode s' = freeinode s → freeblock s' = freeblock s + 1 →
     wp (K (d <| daddrs ::= <[Z.to_nat n := freeblock s]> |>)) Φ (World h k s')) →
  wp (bind (need_addr d n) K) Φ (World h k s).
Proof.
  intros HS HF Hn Hroom H1 H2. unfold need_addr. change (addr d n) with (addr_at (inode_of j d) n). rewrite (addr_test V) by done. apply wp_bind.
  destruct (Z.eqb_spec (addr_at (inode_of j d) n) 0) as [E|E]; [|apply wp_ret; by apply H1].
  eapply next_block_spec; [done|by apply Hroom|]. intros s' HS' Hi Hb. apply wp_ret. pose proof (sim_free _ _ HS). rewrite xint_id by (unfold FSSIZE in *; lia). by apply H2.
Qed.
Lemma need_entry_spec {B} (K : block → M mkfs B) Φ s V i j h k : Sim s V → file_ok demo_sb V i → ind i ≠ 0 → 
  (entry (V (ind i)) j = 0 → freeblock s < FSSIZE) →
  (entry (V (ind i)) j ≠ 0 → wp (K (V (ind i))) Φ (World h k s)) →
  (entry (V (ind i)) j = 0 → ∀ s', let y := st32 (V (ind i)) (4 * j) (freeblock s) in
     Sim s' (updV (allocated demo_sb V (freeblock s)) (ind i) y) → freeinode s' = freeinode s → freeblock s' = freeblock s + 1 → wp (K y) Φ (World h k s')) →
  wp (bind (need_entry (ind i) (V (ind i)) j) K) Φ (World h k s).
Proof.
  intros HS HF Hi Hroom H1 H2. unfold need_entry. fold (entry (V (ind i)) j). apply wp_bind. destruct (Z.eqb_spec (entry (V (ind i)) j) 0) as [E|E]; [|apply wp_ret; by apply H1].
  eapply next_block_spec; [done|by apply Hroom|]. intros s1 HS1 Hi1 Hb1. pose proof (sim_free _ _ HS). rewrite xint_id by (unfold FSSIZE in *; lia).
  destruct (ind_data _ _ _ HF Hi) as [Hd Hu]. change (46 ≤ ind i < FSSIZE) in Hd. rewrite (sim_used s V), andb_true_iff, Z.ltb_lt in Hu by done.
  eapply wsect_spec; [exact HS1|lia|lia|]. intros s2 HS2 Hi2 Hb2. apply wp_ret. apply H2; [done|exact HS2|by rewrite Hi2|by rewrite Hb2].
Qed.
(** What a block more costs: two if the indirect block is missing. *)
Definition price (i : inode) (bn : Z) : Z := if (NDIRECT <=? bn) && (ind i =? 0) then 2 else 1.
(** The case of a file that has its indirect block. *)
Lemma map_entry {B} (K : Z → M mkfs B) Φ s V bl i bn h k : Sim s V → file_ok demo_sb V i → NDIRECT ≤ bn < MAXFILE → ind i ≠ 0 →
  (baddr V i bn = 0 → freeblock s < FSSIZE) →
  (baddr V i bn ≠ 0 → wp (K (baddr V i bn)) Φ (World h k s)) →
  (baddr V i bn = 0 → ∀ s' V' bl', Sim s' V' → freeinode s' = freeinode s → freeblock s' = freeblock s + 1 →
     extended V bl i bn (freeblock s) V' bl' i → wp (K (freeblock s)) Φ (World h k s')) →
  wp (indirect ← rsect (ind i); indirect ← need_entry (ind i) indirect (bn - NDIRECT); K (xint (ld32 indirect (4 * (bn - NDIRECT))))) Φ (World h k s).
Proof.
  intros HS HF Hbn Hi Hroom H1 H2. destruct (own_range V i (ind i) HF) as [Hr _]; [split; [done|by left]|].
  assert (Eb : baddr V i bn = entry (V (ind i)) (bn - NDIRECT)) by (unfold baddr; by rewrite (proj2 (Z.ltb_ge _ _)), (proj2 (Z.eqb_neq _ 0)) by (done || lia)).
  assert (Hin : in_file bn) by (unfold in_file, NDIRECT in *; lia).
  eapply rsect_spec; [done|lia|lia|]. eapply need_entry_spec; [done|done|done|by rewrite <- Eb| |].
  - rewrite <- Eb. intros Hne. change (ld32 (V (ind i)) (4 * (bn - NDIRECT))) with (entry (V (ind i)) (bn - NDIRECT)). rewrite <- Eb.
    destruct (own_range V i (baddr V i bn) HF) as [_ ->]; [|by apply H1]. split; [done|]. right. by exists bn.
  - rewrite <- Eb. intros E s' y HS' Hn' Hf'. pose proof (sim_free _ _ HS). unfold y. rewrite ld32_st32, xint_id by (unfold FSSIZE in *; lia).
    assert (Ez : entry (V (ind i)) (bn - NDIRECT) = 0) by (by rewrite <- Eb).
    pose proof (extended_entry V bl i bn (freeblock s) HF (sim_fresh s V HS (Hroom E)) Hbn Hi Ez) as X. exact (H2 E s' _ _ HS' Hn' Hf' X).
Qed.
Lemma map_block_spec {B} (K : dinode * Z → M mkfs B) Φ s V j d bn h k : let i := inode_of j d in Sim s V → file_ok demo_sb V i → in_file bn →
  (baddr V i bn = 0 → freeblock s + price i bn ≤ FSSIZE) →
  (baddr V i bn ≠ 0 → wp (K (d, baddr V i bn)) Φ (World h k s)) →
  (baddr V i bn = 0 → ∀ s' V' bl' d' r, Sim s' V' → freeinode s' = freeinode s → freeblock s' = freeblock s + price i bn → r ≠ 0 →
     extended V [] i bn r V' bl' (inode_of j d') → (bn < NDIRECT → ind (inode_of j d') = ind i) → wp (K (d', r)) Φ (World h k s')) →
  wp (bind (map_block d bn) K) Φ (World h k s).
Proof.
  intros i HS HF Hin Hroom H1 H2. pose proof (sim_free _ _ HS) as Hf. unfold map_block. destruct Hin as [Hb0 Hb1]. destruct (Z.ltb_spec bn NDIRECT) as [Hlt|Hge].
  - assert (Eb : baddr V i bn = addr_at i bn) by (unfold baddr; by rewrite (proj2 (Z.ltb_lt _ _))). rewrite Eb in *.
    assert (Ep : price i bn = 1) by (unfold price; by rewrite (proj2 (Z.leb_gt _ _))). rewrite Ep in *. apply wp_assoc. eapply (need_addr_spec _ _ s V j); [done|done|lia|intros E; specialize (Hroom E); lia| |].
    + intros Hne. apply wp_bind, wp_ret. change (addr d bn) with (addr_at i bn). rewrite (addr_test V) by (done || lia). by apply H1.
    + intros E s' HS' Hn' Hf'. apply wp_bind, wp_ret. set (d' := d <| daddrs ::= _ |>). fold i in E.
      pose proof (extended_slot V [] i bn (freeblock s) HF (sim_fresh s V HS ltac:(specialize (Hroom E); lia)) ltac:(lia) E) as X.
      assert (Ea : addr_at (inode_of j d') bn = freeblock s) by (pose proof (addr_at_set i bn (freeblock s) bn (fo_len _ _ _ HF) ltac:(lia) ltac:(lia)) as Ha; rewrite decide_True in Ha by done; exact Ha).
      change (addr d' bn) with (addr_at (inode_of j d') bn). rewrite Ea, xint_id by (unfold FSSIZE in *; lia). eapply H2; [done|exact HS'|done|done|lia|exact X|].
      intros _. pose proof (addr_at_set i bn (freeblock s) NDIRECT (fo_len _ _ _ HF) ltac:(lia) ltac:(done)) as Ha. rewrite decide_False in Ha by lia. exact Ha.
  - apply wp_assoc. eapply (need_addr_spec _ _ s V j); [done|done|done| | |]; fold i.
    + intros E. destruct (Z.lt_ge_cases (freeblock s) FSSIZE) as [|Hge']; [done|]. 
      assert (Eb : baddr V i bn = 0) by (unfold baddr; rewrite (proj2 (Z.ltb_ge _ _)) by lia; by rewrite E). specialize (Hroom Eb). unfold price in Hroom. destruct (_ && _) in Hroom; lia.
    + intros Hi. assert (Ep : price i bn = 1) by (unfold price; by rewrite (proj2 (Z.eqb_neq _ 0)), andb_false_r). rewrite Ep in *.
      change (addr d NDIRECT) with (ind i). rewrite (addr_test V) by done. apply wp_bind. 
      eapply (map_entry (λ x, ret (d, x)) _ s V []); [done|done|unfold NDIRECT in *; lia|done|intros E; specialize (Hroom E); lia| |].
      * intros Hne. by apply wp_ret, H1.
      * intros E s' V' bl' HS' Hn' Hf' X. apply wp_ret. eapply H2; [done|exact HS'|done|done|lia|exact X|lia].
    + intros E s1 HS1 Hn1 Hf1. assert (Ez : baddr V i bn = 0) by (unfold baddr; rewrite (proj2 (Z.ltb_ge _ _)) by lia; by rewrite E).
      assert (Ep : price i bn = 2) by (unfold price; by rewrite (proj2 (Z.leb_le _ _)), E). rewrite Ep in *. specialize (Hroom Ez).
      destruct (extended_first (MT := demo_mount) V [] i (freeblock s) HF E (sim_fresh s V HS ltac:(lia))) as (Hi1 & Hok1 & _ & He & HX). set (d1 := d <| daddrs ::= _ |>).
      change (i <| iaddrs ::= _ |>) with (inode_of j d1) in *. change (addr d1 NDIRECT) with (ind (inode_of j d1)). set (V1 := allocated _ V _) in *.
      specialize (He (bn - NDIRECT) ltac:(unfold MAXFILE in Hb1; lia)). rewrite (addr_test V1) by done. apply wp_bind. assert (Hi0 : ind (inode_of j d1) ≠ 0) by lia.
      assert (Eb : baddr V1 (inode_of j d1) bn = 0) by (unfold baddr; rewrite (proj2 (Z.ltb_ge _ _)), (proj2 (Z.eqb_neq _ 0)) by (done || lia); done).
      eapply (map_entry (λ x, ret (d1, x)) _ s1 V1 (add (add [] (BBLOCK (freeblock s) demo_sb)) (freeblock s))); [exact HS1|done|lia|done|lia|done|]. intros _ s' V' bl' HS' Hn' Hf' X.
      apply wp_ret. eapply H2; [done|exact HS'|lia|lia|lia| |lia]. apply HX, X.
Qed.

(** ** Appending *)
Definition nblk (sz : Z) : Z := (sz + (BSIZE - 1)) / BSIZE.
(** The blocks of a file of [sz] bytes, its indirect block included. *)
Definition need (sz : Z) : Z := nblk sz + (if NDIRECT <? nblk sz then 1 else 0).
(** A file has the blocks that its first [sz] bytes need and no others. *)
Record tight (V : Z → block) (i : inode) (sz : Z) : Prop := {
  ti_addr bn : in_file bn → (baddr V i bn ≠ 0 ↔ bn * BSIZE < sz);
  ti_ind : sz ≤ NDIRECT * BSIZE → ind i = 0;
}.
Lemma nblk_mid q r : 0 < r ≤ BSIZE → nblk (q * BSIZE + r) = q + 1.
Proof. intros Hr. unfold nblk. symmetry. apply (Z.div_unique _ _ _ (r - 1)); lia. Qed.
Lemma nblk_whole q : nblk (q * BSIZE) = q.
Proof. unfold nblk. symmetry. apply (Z.div_unique _ _ _ (BSIZE - 1)); [left; done|lia]. Qed.
Lemma chunk_end off n : 0 < n → let q := off / BSIZE in let c := chunk off n in
  off = q * BSIZE + off mod BSIZE ∧ 0 ≤ off mod BSIZE < BSIZE ∧ 0 < c ≤ n ∧ off mod BSIZE + c ≤ BSIZE ∧ nblk (off + c) = q + 1.
Proof.
  intros Hn q c. destruct (chunk_in_block off n Hn) as [H1 H2]. fold c in H1, H2. pose proof (Z.mod_pos_bound off BSIZE ltac:(done)) as Hm.
  assert (E : off = q * BSIZE + off mod BSIZE) by (unfold q; pose proof (Z.div_mod off BSIZE ltac:(done)); lia). split_and!; [done|lia|lia|lia|lia|lia|].
  replace (off + c) with (q * BSIZE + (off mod BSIZE + c)) by lia. apply nblk_mid. lia.
Qed.
(** A turn that meets a block of the file. *)
Lemma need_same off n : 0 < n → 0 < off mod BSIZE → need (off + chunk off n) = need off.
Proof.
  intros Hn Hm. destruct (chunk_end off n Hn) as (E & H1 & H2 & H3 & H4). unfold need. rewrite H4.
  assert (nblk off = off / BSIZE + 1) as -> by (rewrite E at 1; apply nblk_mid; lia). done.
Qed.
(** A turn that adds one. *)
Lemma need_more V i off n : 0 < n → off = (off / BSIZE) * BSIZE → 0 ≤ off < MAXFILE * BSIZE → tight V i off → need (off + chunk off n) = need off + price i (off / BSIZE).
Proof.
  intros Hn E Hmax [Ta Ti]. destruct (chunk_end off n Hn) as (_ & H1 & H2 & H3 & H4). unfold need. rewrite H4. set (q := off / BSIZE) in *.
  assert (Eq : nblk off = q) by (rewrite E; apply nblk_whole). rewrite Eq. unfold price. destruct (Z.leb_spec NDIRECT q) as [Hq|Hq]; cbn [andb].
  - rewrite (proj2 (Z.ltb_lt _ (q + 1))) by lia. destruct (Z.eq_dec q NDIRECT) as [Hd|Hd].
    + rewrite (proj2 (Z.ltb_ge _ q)) by lia. rewrite Ti by (unfold BSIZE in *; lia). cbn. lia.
    + rewrite (proj2 (Z.ltb_lt _ q)) by lia. assert (Hin : in_file NDIRECT) by done. destruct (Z.eqb_spec (ind i) 0) as [E0|E0]; [|lia].
      exfalso. apply (Ta NDIRECT Hin); [unfold BSIZE in *; lia|]. unfold baddr. by rewrite E0.
  - rewrite !(proj2 (Z.ltb_ge _ _)) by lia. lia.
Qed.
Lemma turn_pure V i V1 i1 off n p at_ : let c := chunk off n in let a := baddr V1 i1 (off / BSIZE) in let f := λ j, rdb p (at_ + j) in
  let V2 := updV V1 a (copy_bytes (Z.to_nat c) (V1 a) (off mod BSIZE) p at_) in
  0 < n → 0 ≤ off → off + n ≤ MAXFILE * BSIZE → wrote V i V1 i1 off 0 f → tight V1 i1 (off + c) →
  wrote V i V2 i1 off c f ∧ tight V2 i1 (off + c).
Proof.
  intros c a f V2 Hn Ho Hmax W [Ta Ti]. destruct (chunk_end off n Hn) as (E & H1 & H2 & H3 & _). fold c in H2, H3. pose proof (wr_ok _ _ _ _ _ _ _ W) as HF.
  assert (Hin : in_file (off / BSIZE)) by (apply div_in_file; lia). assert (Ha : a ≠ 0) by (apply Ta; [done|lia]).
  pose proof (wrote_block V1 i1 off c p at_ HF Hin Ha ltac:(lia) ltac:(lia)) as W1. fold a V2 in W1. split.
  - replace c with (0 + c) by lia. eapply wrote_trans; [exact W| |lia|lia|lia|lia]. rewrite Z.add_0_r. eapply wrote_ext; [|exact W1]. intros x. done.
  - split; [|done]. intros bn Hbn. unfold V2. rewrite (write_baddr V1 i1 (off / BSIZE)) by done. by apply Ta.
Qed.
Lemma extended_tight V i off n bl r V1 bl1 i1 : 0 < n → off = (off / BSIZE) * BSIZE → 0 ≤ off < MAXFILE * BSIZE → tight V i off → r ≠ 0 → extended V bl i (off / BSIZE) r V1 bl1 i1 →
  (off / BSIZE < NDIRECT → ind i1 = ind i) → tight V1 i1 (off + chunk off n).
Proof.
  intros Hn E Hmax [Ta Ti] Hr X Hi. destruct (chunk_end off n Hn) as (_ & H1 & H2 & H3 & _). set (q := off / BSIZE) in *. split.
  - intros bn Hbn. destruct (Z.eq_dec bn q) as [->|Hne]; [rewrite (x_addr _ _ _ _ _ _ _ _ X); split; [lia|done]|].
    rewrite (x_only _ _ _ _ _ _ _ _ X) by done. rewrite Ta by done. unfold BSIZE in *. lia.
  - intros Hle. assert (q < NDIRECT) by (unfold BSIZE in *; lia). rewrite Hi by done. apply Ti. unfold BSIZE in *. lia.
Qed.
Lemma need_mono a c : a ≤ c → need a ≤ need c.
Proof.
  intros H. unfold need. assert (nblk a ≤ nblk c) by (apply Z.div_le_mono; [done|lia]). destruct (Z.ltb_spec NDIRECT (nblk a)), (Z.ltb_spec NDIRECT (nblk c)); lia.
Qed.
(** The rest of a turn, once the block has an address. *)
Lemma append_turn {A B} (L : M mkfs A) (K : A → M mkfs B) Φ V i s1 V1 i1 p off at_ n h k :
  let c := chunk off n in let a := baddr V1 i1 (off / BSIZE) in let f := λ x, rdb p (at_ + x) in
  0 < n → 0 ≤ off → off + n ≤ MAXFILE * BSIZE → Sim s1 V1 → wrote V i V1 i1 off 0 f → tight V1 i1 (off + c) →
  (∀ s2 V2, Sim s2 V2 → freeinode s2 = freeinode s1 → freeblock s2 = freeblock s1 → wrote V i V2 i1 off c f → tight V2 i1 (off + c) → wp (bind L K) Φ (World h k s2)) →
  wp (bind (buf ← rsect a; wsect a (copy_bytes (Z.to_nat c) buf (off mod BSIZE) p at_);; L) K) Φ (World h k s1).
Proof.
  intros c a f Hn Ho Hmax HS1 W1 T1 HK. destruct (turn_pure V i V1 i1 off n p at_ Hn Ho Hmax W1 T1) as [W2 T2]. fold c a f in W2, T2.
  destruct (chunk_end off n Hn) as (E & H1 & H2 & _ & _). fold c in H2.
  pose proof (wr_ok _ _ _ _ _ _ _ W1) as HF1. assert (Hin : in_file (off / BSIZE)) by (apply div_in_file; lia).
  assert (Ha : a ≠ 0) by (apply (ti_addr _ _ _ T1); [done|lia]). destruct (fo_own _ _ _ HF1 a (own_baddr V1 i1 _ Hin Ha)) as [Hd Hu]. change (46 ≤ a < FSSIZE) in Hd.
  change (used demo_sb V1 a = true) in Hu. rewrite (sim_used s1 V1), andb_true_iff, Z.ltb_lt in Hu by done. apply wp_assoc.
  eapply rsect_spec; [exact HS1|lia|lia|]. apply wp_assoc. eapply wsect_spec; [exact HS1|lia|lia|]. intros s2 HS2 Hi2 Hb2. by eapply HK.
Qed.
Lemma iappend_loop_spec {B} (K : dinode * Z → M mkfs B) Φ p j h k fuel : ∀ s V d off at_ n, let i := inode_of j d in
  Sim s V → file_ok demo_sb V i → tight V i off → 0 ≤ off → 0 ≤ n → off + n ≤ MAXFILE * BSIZE → (0 < n → turns off n < Z.of_nat fuel) → (0 < fuel)%nat →
  freeblock s + need (off + n) - need off ≤ FSSIZE →
  (∀ s' V' d', Sim s' V' → freeinode s' = freeinode s → freeblock s' = freeblock s + need (off + n) - need off →
     wrote V i V' (inode_of j d') off n (λ x, rdb p (at_ + x)) → tight V' (inode_of j d') (off + n) → wp (K (d', off + n)) Φ (World h k s')) →
  wp (bind (iappend_loop fuel p d off at_ n) K) Φ (World h k s).
Proof.
  induction fuel as [|fuel IH]; intros s V d off at_ n i HS HF HT Ho Hn0 Hmax Hfuel Hpos Hroom HK; [lia|]. cbn [iappend_loop].
  destruct (Z.ltb_spec 0 n) as [Hn|Hn].
  2:{ assert (n = 0) as -> by lia. apply wp_bind, wp_ret. rewrite Z.add_0_r in HK. eapply HK; [exact HS|done|lia|by apply wrote_refl|done]. }
  destruct (chunk_end off n Hn) as (E & H1 & H2 & H3 & H4). set (q := off / BSIZE) in *. set (c := chunk off n) in *.
  assert (Hin : in_file q) by (apply div_in_file; lia). unfold assert. rewrite (proj2 (Z.ltb_lt q MAXFILE)) by apply Hin. cbn [negb when]. apply wp_assoc, wp_bind, wp_ret.
  assert (Em : min n ((q + 1) * BSIZE - off) = c) by (unfold c, chunk; f_equal; lia). assert (Eo : off - q * BSIZE = off mod BSIZE) by lia. rewrite Em, Eo.
  pose proof (need_mono (off + c) (off + n) ltac:(lia)) as Hmono. pose proof (turns_pos off n Hn) as Htp. specialize (Hfuel Hn).
  assert (Hrest : ∀ s2 V2 d1, Sim s2 V2 → freeinode s2 = freeinode s → freeblock s2 = freeblock s + need (off + c) - need off →
    wrote V i V2 (inode_of j d1) off c (λ x, rdb p (at_ + x)) → tight V2 (inode_of j d1) (off + c) →
    wp (bind (iappend_loop fuel p d1 (off + c) (at_ + c) (n - c)) K) Φ (World h k s2)).
  { intros s2 V2 d1 HS2 Hi2 Hb2 W2 T2. assert (En : off + c + (n - c) = off + n) by lia.
    apply (IH s2 V2 d1); [done|apply W2|done|lia|lia|lia| |lia|rewrite En; lia|rewrite En].
    - intros Hr. destruct (turns_step off n Hn) as [Ec|Et]; [unfold c in Hr; lia|]. fold c in Et. lia.
    - intros s3 V3 d3 HS3 Hi3 Hb3 W3 T3. eapply HK; [exact HS3|congruence|lia| |exact T3].
      replace n with (c + (n - c)) by lia. eapply wrote_trans; [exact W2| |lia|lia|lia|lia]. eapply wrote_ext; [|exact W3]. intros x. cbn. f_equal. lia. }
  assert (Hcase : baddr V i q = 0 → off = q * BSIZE).
  { intros Ez. destruct (Z.eq_dec (off mod BSIZE) 0) as [|Hne]; [lia|]. exfalso. apply (proj2 (ti_addr _ _ _ HT q Hin)); [lia|done]. }
  apply wp_assoc. eapply (map_block_spec _ _ s V j d q); [done|done|done| | |]; fold i.
  - intros Ez. pose proof (need_more V i off n Hn (Hcase Ez) ltac:(lia) HT) as Hm. fold q c in Hm. lia.
  - intros Hne. assert (Hpm : 0 < off mod BSIZE) by (apply (ti_addr _ _ _ HT) in Hne; [lia|done]). pose proof (need_same off n Hn Hpm) as Hsame. fold c in Hsame.
    apply (append_turn _ _ _ V i s V i p off at_ n); [done|done|done|done|by apply wrote_refl| |].
    + destruct HT as [Ta Ti]. split; [|intros Hle; apply Ti; lia]. intros bn Hbn. rewrite Ta by done. fold c. unfold BSIZE in *. lia.
    + intros s2 V2 HS2 Hi2 Hb2. apply Hrest; [done|done|lia].
  - intros Ez s1 V1 bl1 d1 r HS1 Hi1 Hb1 Hr X Hind. pose proof (need_more V i off n Hn (Hcase Ez) ltac:(lia) HT) as Hm. fold q c in Hm.
    pose proof (x_addr _ _ _ _ _ _ _ _ X) as Er. rewrite <- Er.
    apply (append_turn _ _ _ V i s1 V1 (inode_of j d1) p off at_ n); [done|done|done|done|by eapply wrote_extended; [|exact X]| |].
    + eapply extended_tight; [done|by apply Hcase|lia|done|exact Hr|exact X|done].
    + intros s2 V2 HS2 Hi2 Hb2. apply Hrest; [done|congruence|lia].
Qed.

(** ** Inodes in the image *)
Definition din_at (V : Z → block) (n : Z) : dinode := get_din (V (IBLOCK n demo_sb)) (dinode_at n).
Definition ino (V : Z → block) (n : Z) : inode := inode_of n (din_at V n).
Definition bytes (p : mem) (at_ n : Z) : list Z := (λ x, rdb p (at_ + x)) <$> seqZ 0 n.
(** The file with contents [c]; bytes after the end, in its last block, are 0. *)
Record is_file (V : Z → block) (i : inode) (c : list Z) : Prop := {
  if_ok : file_ok demo_sb V i;
  if_size : isize i = Z.of_nat (length c);
  if_tight : tight V i (isize i);
  if_bytes o : 0 ≤ o → in_file (o / BSIZE) → baddr V i (o / BSIZE) ≠ 0 → fbyte V i o = nth (Z.to_nat o) c 0;
}.
Lemma IBLOCK_image n : 0 ≤ n < 208 → 32 ≤ IBLOCK n demo_sb < 45.
Proof.
  intros Hn. unfold IBLOCK. change IPB with 16. change (inodestart demo_sb) with 32. pose proof (Z.div_pos n 16 ltac:(lia) ltac:(done)).
  pose proof (Z.div_lt_upper_bound n 16 13 ltac:(done) ltac:(lia)). lia.
Qed.
Lemma inode_of_inj n d d' : inode_of n d = inode_of n d' → d = d'.
Proof. destruct d, d'. intros H. injection H. by intros -> -> -> -> -> ->. Qed.
Lemma get_put_same m n d : fits_disk (inode_of n d) → get_din (put_din m (dinode_at n) d) (dinode_at n) = d.
Proof. intros Hf. apply (inode_of_inj n). exact (dinode_read_back m (dinode_at n) (inode_of n d) (inode_of n d) Hf). Qed.
Lemma get_put_other m n n' d : length (daddrs d) = 13%nat → 0 ≤ n → 0 ≤ n' → IBLOCK n' demo_sb = IBLOCK n demo_sb → n' ≠ n →
  get_din (put_din m (dinode_at n) d) (dinode_at n') = get_din m (dinode_at n').
Proof.
  intros Hl Hn Hn' Eb Hne. apply (inode_of_inj n). refine (dinode_neighbour m (dinode_at n) (inode_of n d) (dinode_at n') (inode_of n d) Hl _).
  unfold dinode_at. unfold IBLOCK in Eb. change IPB with 16 in *. pose proof (Z.div_mod n 16 ltac:(done)). pose proof (Z.div_mod n' 16 ltac:(done)). lia.
Qed.
Lemma addrs_fit V i : file_ok demo_sb V i → Forall (λ a, 0 ≤ a < 2 ^ 32) (iaddrs i).
Proof.
  intros HF. apply Forall_lookup. intros n a Hn. assert (E : addr_at i (Z.of_nat n) = a) by (unfold addr_at; by rewrite Nat2Z.id, Hn).
  pose proof (lookup_lt_Some _ _ _ Hn) as Hlt. rewrite (fo_len _ _ _ HF) in Hlt. destruct (Z.eq_dec a 0) as [->|Ha]; [lia|].
  destruct (own_range V i a HF) as [H _]; [rewrite <- E; apply own_slot; [unfold NDIRECT; lia|by rewrite E]|]. unfold FSSIZE in *. lia.
Qed.
(** winode: one slot of one sector. *)
Definition put_inode (V : Z → block) (n : Z) (d : dinode) : Z → block := updV V (IBLOCK n demo_sb) (put_din (V (IBLOCK n demo_sb)) (dinode_at n) d).
Lemma winode_spec {B} (K : M mkfs B) Φ s V n d h k : Sim s V → 0 ≤ n < 208 →
  (∀ s', Sim s' (put_inode V n d) → freeinode s' = freeinode s → freeblock s' = freeblock s → wp K Φ (World h k s')) → wp (winode n d;; K) Φ (World h k s).
Proof.
  intros HS Hn HK. pose proof (IBLOCK_image n Hn) as Hb. pose proof (sim_free _ _ HS). unfold winode. apply wp_assoc, wp_bind, wp_gets. cbn [st]. rewrite (sim_sb _ _ HS).
  apply wp_assoc. eapply rsect_spec; [done|unfold FSSIZE; lia|lia|]. eapply wsect_spec; [done|lia|lia|done].
Qed.
Lemma rinode_spec {B} (K : dinode → M mkfs B) Φ s V n h k : Sim s V → 0 ≤ n < 208 → wp (K (din_at V n)) Φ (World h k s) → wp (bind (rinode n) K) Φ (World h k s).
Proof.
  intros HS Hn HK. pose proof (IBLOCK_image n Hn) as Hb. unfold rinode. apply wp_assoc, wp_bind, wp_gets. cbn [st]. rewrite (sim_sb _ _ HS).
  apply wp_assoc. eapply rsect_spec; [done|unfold FSSIZE; lia|lia|]. by apply wp_bind, wp_ret.
Qed.
Lemma din_at_put V n d n' : fits_disk (inode_of n d) → 0 ≤ n → 0 ≤ n' → din_at (put_inode V n d) n' = if decide (n' = n) then d else din_at V n'.
Proof.
  intros Hf Hn Hn'. unfold din_at, put_inode. case_decide as E; [subst; rewrite updV_eq; by apply get_put_same|].
  destruct (decide (IBLOCK n' demo_sb = IBLOCK n demo_sb)) as [Eb|Eb]; [|by rewrite updV_ne]. rewrite Eb, updV_eq. apply get_put_other; [apply Hf|done|done|done|done].
Qed.
Definition shorts (d : dinode) : list Z := [dtype d; dmajor d; dminor d; dnlink d].
(** Appending [l] to file [j], whose contents were [c], when the first free block was [f]. *)
Record appended (f : Z) (V : Z → block) (j : Z) (c l : list Z) (V' : Z → block) : Prop := {
  ap_file : is_file V' (ino V' j) (c ++ l);
  ap_shorts : shorts (din_at V' j) = shorts (din_at V j);
  ap_other n : 0 ≤ n < 208 → n ≠ j → din_at V' n = din_at V n;
  ap_frame x : 46 ≤ x < f → ¬ own V (ino V j) x → V' x = V x;
  ap_own x : own V' (ino V' j) x → own V (ino V j) x ∨ f ≤ x;
  ap_keep x : own V (ino V j) x → own V' (ino V' j) x;
  ap_cover x : f ≤ x → used demo_sb V' x = true → own V' (ino V' j) x;
  ap_low x : x < 32 → V' x = V x;
}.
Lemma nth_bytes p at_ n o : 0 ≤ o < n → nth (Z.to_nat o) (bytes p at_ n) 0 = rdb p (at_ + o).
Proof. intros Ho. apply nth_lookup_Some. unfold bytes. rewrite list_lookup_fmap, lookup_seqZ_lt by lia. cbn. do 2 f_equal. lia. Qed.
Lemma length_bytes p at_ n : 0 ≤ n → Z.of_nat (length (bytes p at_ n)) = n.
Proof. intros Hn. unfold bytes. rewrite length_fmap, length_seqZ. lia. Qed.
Lemma wrote_file V i c V1 i1 p at_ n : let off := isize i in let i' := resized i1 (off + n) in is_file V i c → inode_ok i → 0 ≤ n → off + n ≤ MAXFILE * BSIZE →
  wrote V i V1 i1 off n (λ x, rdb p (at_ + x)) → tight V1 i1 (off + n) → is_file (updated V1 i') i' (c ++ bytes p at_ n).
Proof.
  intros off i' [HF Hsz HT Hb] Hin Hn Hmax W [Ta Ti]. assert (Ho : 0 ≤ off) by (unfold off; lia).
  pose proof (wrote_after V i off n _ V1 i1 HF Hin ltac:(split; lia) Ho Hn W) as HA. fold i' in HA. pose proof (aw_ok _ _ _ _ _ _ _ HA) as HF'.
  pose proof (gr_inode _ _ _ _ _ (wr_grows _ _ _ _ _ _ _ W)) as Ei. assert (Es : isize i1 = off) by (by rewrite Ei).
  pose proof (resized_ok V i V1 i1 off n _ W ltac:(lia) Hn Hmax) as HF1. fold i' in HF1.
  assert (Hin' : inode_ok i') by (unfold inode_ok, i'; rewrite resized_inum, Ei; exact Hin).
  destruct (updated_same V1 i1 (off + n) HF1 Hin') as [Ea Eb]. fold i' in Ea, Eb. pose proof (aw_size _ _ _ _ _ _ _ HA) as Hs'. fold off in Hs'. rewrite Z.max_r in Hs' by lia. split.
  - done.
  - rewrite length_app, Nat2Z.inj_add, length_bytes by done. lia.
  - rewrite Hs'. split; [intros bn Hbn; rewrite Ea; by apply Ta|]. intros Hle. unfold addr_at, i'. rewrite resized_addrs. by apply Ti.
  - intros o Ho0 Hino Hne. rewrite Ea in Hne. rewrite Eb by done. destruct (Z.lt_ge_cases o off) as [H1|H1].
    + rewrite app_nth1 by lia. assert (Hne0 : baddr V i (o / BSIZE) ≠ 0).
      { apply (ti_addr _ _ _ HT); [done|]. pose proof (Z.mul_div_le o BSIZE ltac:(done)). lia. }
      rewrite (wr_old _ _ _ _ _ _ _ W) by (done || lia). by apply Hb.
    + destruct (Z.lt_ge_cases o (off + n)) as [H2|H2].
      * destruct (wr_new _ _ _ _ _ _ _ W o ltac:(lia)) as [_ ->]. rewrite app_nth2 by lia. replace (Z.to_nat o - length c)%nat with (Z.to_nat (o - off)) by lia. by rewrite nth_bytes by lia.
      * rewrite nth_overflow by (rewrite length_app; pose proof (length_bytes p at_ n Hn); lia). destruct (Z.eq_dec (baddr V i (o / BSIZE)) 0) as [E0|E0].
        -- by apply (wr_zero _ _ _ _ _ _ _ W); try lia.
        -- rewrite (wr_old _ _ _ _ _ _ _ W) by (done || lia). rewrite Hb by done. apply nth_overflow. lia.
Qed.
Definition small (d : dinode) : Prop := Forall (λ v, - 2 ^ 15 ≤ v < 2 ^ 15) (shorts d).
Lemma fits_file V j d c : is_file V (inode_of j d) c → small d → fits_disk (inode_of j d).
Proof.
  intros [HF Hsz _ _] Hs. pose proof (fo_size _ _ _ HF) as Hmax. unfold MAXFILE in Hmax. change NINDIRECT with 256 in Hmax. unfold NDIRECT, BSIZE in Hmax.
  split; [done|lia|apply HF|by apply (addrs_fit V)].
Qed.
Lemma iappend_spec {B} (K : M mkfs B) Φ s V j c p at_ n h k : Sim s V → 0 ≤ j < NINODES → is_file V (ino V j) c → small (din_at V j) → 0 ≤ n →
  let z := Z.of_nat (length c) in z + n ≤ MAXFILE * BSIZE → freeblock s + need (z + n) - need z ≤ FSSIZE →
  (∀ s' V', Sim s' V' → freeinode s' = freeinode s → freeblock s' = freeblock s + need (z + n) - need z →
     appended (freeblock s) V j c (bytes p at_ n) V' → wp K Φ (World h k s')) →
  wp (iappend j p at_ n;; K) Φ (World h k s).
Proof.
  intros HS Hj Hfile Hsm Hn z Hmax Hroom HK. unfold iappend. apply wp_assoc. eapply rinode_spec; [done|unfold NINODES in *; lia|]. set (d := din_at V j) in *.
  pose proof Hfile as [HF Hsz HT _]. change (ino V j) with (inode_of j d) in *. assert (Ez : dsize d = z) by exact Hsz. change (isize (inode_of j d)) with (dsize d) in *. rewrite Ez in HT.
  assert (Hz32 : 0 ≤ z + n < 2 ^ 32) by (unfold MAXFILE in Hmax; change NINDIRECT with 256 in Hmax; unfold NDIRECT, BSIZE in Hmax; lia).
  rewrite Ez, xint_id by lia. apply wp_assoc. pose proof (turns_fuel z n Hn) as Htf. pose proof (Z.div_pos n BSIZE Hn ltac:(done)).
  eapply (iappend_loop_spec _ _ p j h k _ s V d z at_ n); [done|done|done|lia|done|done|lia|lia|done|]. intros s1 V1 d1 HS1 Hi1 Hb1 W T1.
  rewrite xint_id by done. set (d2 := d1 <| dsize := z + n |>). pose proof (gr_inode _ _ _ _ _ (wr_grows _ _ _ _ _ _ _ W)) as Ei.
  assert (E1 : dsize d1 = z) by (change (dsize d1) with (isize (inode_of j d1)); rewrite Ei; exact Ez).
  assert (Er : inode_of j d2 = resized (inode_of j d1) (z + n)).
  { unfold resized. change (isize (inode_of j d1)) with (dsize d1). rewrite E1, Z.gtb_ltb. destruct (Z.ltb_spec z (z + n)); [done|].
    assert (n = 0) as -> by lia. unfold d2. rewrite Z.add_0_r, <- E1. by destruct d1. }
  assert (Hok : inode_ok (inode_of j d)) by (unfold NINODES in *; done). change (dsize d) with (isize (inode_of j d)) in Ez. rewrite <- Ez in W, T1, Hmax, Er.
  pose proof (wrote_file V (inode_of j d) c V1 (inode_of j d1) p at_ n Hfile Hok Hn Hmax W T1) as Hfile'. cbv zeta in Hfile'. rewrite <- Er in Hfile'.
  pose proof (wrote_after V (inode_of j d) (isize (inode_of j d)) n _ V1 (inode_of j d1) HF Hok ltac:(split; lia) ltac:(lia) Hn W) as HA. cbv zeta in HA. rewrite <- Er in HA.
  assert (Esh : shorts d2 = shorts d) by (injection Ei as E2 E3 E4 E5 _; unfold shorts, d2; cbn; congruence).
  change (updated V1 (inode_of j d2)) with (put_inode V1 j d2) in *. assert (Hfit : fits_disk (inode_of j d2)) by (eapply fits_file; [exact Hfile'|unfold small; by rewrite Esh]).
  eapply winode_spec; [exact HS1|unfold NINODES in *; lia|]. intros s2 HS2 Hi2 Hb2. apply (HK s2 _ HS2); [congruence|lia|]. 
  assert (Hat : din_at (put_inode V1 j d2) j = d2) by (rewrite din_at_put by (done || lia); by rewrite decide_True).
  assert (Elow : ∀ x, x < 45 → V1 x = V x) by (intros x Hx; apply (gr_low _ _ _ _ _ (wr_grows _ _ _ _ _ _ _ W)); exact Hx).
  split; unfold ino; rewrite ?Hat; try done.
  - intros m Hm Hne. rewrite din_at_put, decide_False by (done || lia). unfold din_at. rewrite Elow; [done|]. by apply IBLOCK_image.
  - intros x Hx Hown. apply (aw_other _ _ _ _ _ _ _ HA); [exact (proj1 Hx)| |done]. change (used demo_sb V x = true). rewrite (sim_used s V) by done.
    rewrite (proj2 (Z.leb_le _ _)), (proj2 (Z.ltb_lt _ _)) by lia. done.
  - intros x Hx. apply (aw_own _ _ _ _ _ _ _ HA) in Hx as Hx'. destruct Hx' as [Hx'|Hu]; [by left|]. right. change (used demo_sb V x = false) in Hu. rewrite (sim_used s V) in Hu by done.
    destruct (own_range _ _ _ (if_ok _ _ _ Hfile') Hx). rewrite (proj2 (Z.leb_le _ _)) in Hu by lia. by apply Z.ltb_ge in Hu.
  - intros x Hx. by apply (aw_keep _ _ _ _ _ _ _ HA).
  - intros x Hx Hu. apply (aw_leak _ _ _ _ _ _ _ HA) in Hu as [Hu|Hu]; [|done]. change (used demo_sb V x = true) in Hu. rewrite (sim_used s V), andb_true_iff, Z.ltb_lt in Hu by done. lia.
  - intros x Hx. unfold put_inode. rewrite updV_ne; [apply Elow; lia|]. pose proof (IBLOCK_image j ltac:(unfold NINODES in *; lia)). lia.
Qed.
