(* ===== verification/MkfsImage.v ===== *)
(** * The image mkfs makes, and the kernel that reads it

    After every call of mkfs's main the image is a file system with the files
    added so far ([Image]). The theorems are at the end: what the image is, and
    that the kernel's readi returns the files it was made from. *)
From S2P Require Import Prelude Param CString Mem Bio BioSpec Cache Log LogSpec LogTx LogCrash Fs FsBlock FsInode FsRW FsFile FsDir Mkfs MkfsSpec.
Import Fs Mkfs.

Abbreviation afile := (Z * list Z)%type.
Definition total (fs : list afile) : Z := foldr (λ f z, need (Z.of_nat (length f.2)) + z) 0 fs.
Abbreviation num k := (1 + Z.of_nat k).
(** Inode [1 + k] is a file of type [t] and contents [c] when entry [k] is [(t, c)]. *)
Record Image (s : mkfs) (V : Z → block) (fs : list afile) : Prop := {
  im_sim : Sim s V;
  im_count : (length fs < 200)%nat;
  im_inode : freeinode s = num (length fs);
  im_block : freeblock s = 46 + total fs;
  im_file k t c : fs !! k = Some (t, c) → is_file V (ino V (num k)) c ∧ shorts (din_at V (num k)) = [t; 0; 0; 1];
  im_apart k k' x : k ≠ k' → (k < length fs)%nat → (k' < length fs)%nat → own V (ino V (num k)) x → ¬ own V (ino V (num k')) x;
  im_cover x : 46 ≤ x < freeblock s → ∃ k, (k < length fs)%nat ∧ own V (ino V (num k)) x;
  im_unused n : num (length fs) ≤ n < 208 → din_at V n = dinode0;
  im_super : V 1 = superblock_bytes demo_sb;
  im_boot : V 0 = zeroes;
  im_log x : 2 ≤ x < 32 → V x = zeroes;
}.

(** ** Files that a change does not touch *)
Section frame.
Context {V V' : Z → block} {i : inode} (Hx : ∀ x, own V i x → V' x = V x).
Lemma frame_baddr bn : in_file bn → baddr V' i bn = baddr V i bn.
Proof.
  intros _. unfold baddr. destruct (bn <? NDIRECT); [done|]. destruct (Z.eqb_spec (ind i) 0); [done|]. rewrite Hx; [done|]. split; [done|by left].
Qed.
Lemma frame_own x : own V' i x ↔ own V i x.
Proof.
  unfold own. split; intros (H0 & [H|(bn & Hbn & E)]); (split; [done|]); [by left| |by left|]; right; exists bn; rewrite frame_baddr in *; done.
Qed.
Lemma frame_file c : (∀ x, used demo_sb V x = true → used demo_sb V' x = true) → is_file V i c → is_file V' i c.
Proof.
  intros Hu [HF Hsz [Ta Ti] Hb]. split; [split; try apply HF|done|split; [|done]|].
  - intros x [Hr Hx']%frame_own%(fo_own _ _ _ HF). split; [done|by apply Hu].
  - intros bn bn' H1 H2. rewrite !frame_baddr by done. by apply HF.
  - intros bn H1. rewrite frame_baddr by done. by apply HF.
  - intros bn H0 Hlt. pose proof (fo_size _ _ _ HF). rewrite frame_baddr by (split; [done|]; unfold BSIZE in *; lia). by apply HF.
  - intros bn Hbn. rewrite frame_baddr by done. by apply Ta.
  - intros o H0 Hin Hne. unfold fbyte. rewrite frame_baddr in * by done. rewrite Hx; [by apply Hb|]. by apply own_baddr.
Qed.
End frame.

Lemma total_cons f fs : total (f :: fs) = need (Z.of_nat (length f.2)) + total fs.
Proof. done. Qed.
Lemma total_app fs gs : total (fs ++ gs) = total fs + total gs.
Proof. induction fs as [|f fs IH]; [done|]. change ((f :: fs) ++ gs) with (f :: (fs ++ gs)). rewrite !total_cons. lia. Qed.
Lemma total_insert fs k t c l : fs !! k = Some (t, c) →
  total (<[k := (t, c ++ l)]> fs) = total fs + need (Z.of_nat (length c) + Z.of_nat (length l)) - need (Z.of_nat (length c)).
Proof.
  revert k. induction fs as [|f fs IH]; intros [|k] Hk; try done.
  - injection Hk as ->. change (<[0%nat := (t, c ++ l)]> ((t, c) :: fs)) with ((t, c ++ l) :: fs). rewrite !total_cons. cbn [snd]. rewrite length_app, Nat2Z.inj_add. lia.
  - change (<[S k := (t, c ++ l)]> (f :: fs)) with (f :: <[k := (t, c ++ l)]> fs). rewrite !total_cons, (IH k Hk). lia.
Qed.
Lemma own_below s V i x : Sim s V → file_ok demo_sb V i → own V i x → 46 ≤ x < freeblock s.
Proof.
  intros HS HF Hx. destruct (fo_own _ _ _ HF x Hx) as [Hd Hu]. change (46 ≤ x < FSSIZE) in Hd. rewrite (sim_used s V), andb_true_iff, Z.ltb_lt in Hu by done. lia.
Qed.
Lemma used_mono s V s' V' x : Sim s V → Sim s' V' → freeblock s ≤ freeblock s' → used demo_sb V x = true → used demo_sb V' x = true.
Proof. intros HS HS' Hle. rewrite (sim_used s V), (sim_used s' V') by done. rewrite !andb_true_iff, !Z.ltb_lt. lia. Qed.

(** ** One append *)
Section append.
Context {s s' : mkfs} {V V' : Z → block} {fs : list afile} {k : nat} {t : Z} {c l : list Z} (I : Image s V fs) (Hk : fs !! k = Some (t, c)) (HS' : Sim s' V') (Hi : freeinode s' = freeinode s).
Context (Hb : freeblock s' = freeblock s + need (Z.of_nat (length c) + Z.of_nat (length l)) - need (Z.of_nat (length c))).
Context (A : appended (freeblock s) V (num k) c l V').
Lemma append_mono : freeblock s ≤ freeblock s'.
Proof. rewrite Hb. pose proof (need_mono (Z.of_nat (length c)) (Z.of_nat (length c) + Z.of_nat (length l)) ltac:(lia)). lia. Qed.
Lemma append_other k' t' c' : k' ≠ k → fs !! k' = Some (t', c') →
  din_at V' (num k') = din_at V (num k') ∧ is_file V' (ino V' (num k')) c' ∧ ∀ x, own V' (ino V' (num k')) x ↔ own V (ino V (num k')) x.
Proof.
  intros Hne Hk'. pose proof (im_sim _ _ _ I) as HS. pose proof (im_count _ _ _ I). pose proof (lookup_lt_Some _ _ _ Hk) as Hlen. pose proof (lookup_lt_Some _ _ _ Hk') as Hlen'.
  pose proof (ap_other _ _ _ _ _ _ A (num k') ltac:(lia) ltac:(lia)) as Ed. destruct (im_file _ _ _ I k' t' c' Hk') as [Hf _].
  assert (Hx : ∀ x, own V (ino V (num k')) x → V' x = V x).
  { intros x Hx. apply (ap_frame _ _ _ _ _ _ A); [eapply own_below; [done|apply Hf|done]|]. by apply (im_apart _ _ _ I k' k). }
  assert (Ei : ino V' (num k') = ino V (num k')) by (unfold ino; by rewrite Ed). rewrite Ei. split_and!; [done| |intros x; by apply frame_own].
  apply (frame_file Hx); [|done]. intros x. apply (used_mono s _ s'); [done|done|apply append_mono].
Qed.
Lemma append_apart k' x : k' ≠ k → (k' < length fs)%nat → own V' (ino V' (num k')) x → ¬ own V' (ino V' (num k)) x.
Proof.
  intros Hne Hlen' Hx. destruct (lookup_lt_is_Some_2 fs k' Hlen') as [[t' c'] Hk']. destruct (append_other k' t' c' Hne Hk') as (_ & _ & Ho). apply Ho in Hx.
  pose proof (lookup_lt_Some _ _ _ Hk) as Hlen. destruct (im_file _ _ _ I k' t' c' Hk') as [Hf _]. pose proof (own_below s V _ x (im_sim _ _ _ I) (if_ok _ _ _ Hf) Hx) as Hr.
  intros [Hx'|Hx']%(ap_own _ _ _ _ _ _ A); [by apply (im_apart _ _ _ I k' k x)|lia].
Qed.
Lemma image_appended : Image s' V' (<[k := (t, c ++ l)]> fs).
Proof.
  pose proof (lookup_lt_Some _ _ _ Hk) as Hlen. pose proof (im_count _ _ _ I) as Hc. pose proof (sim_free _ _ (im_sim _ _ _ I)) as Hf0. split; rewrite ?length_insert; try done.
  - rewrite Hi. exact (im_inode _ _ _ I).
  - rewrite Hb, (total_insert fs k t c l Hk), (im_block _ _ _ I). lia.
  - intros k' t' c' Hk'. destruct (decide (k' = k)) as [->|Hne].
    + rewrite list_lookup_insert_eq in Hk' by done. injection Hk' as <- <-. split; [apply A|]. rewrite (ap_shorts _ _ _ _ _ _ A). by apply (im_file _ _ _ I) in Hk as [_ Hs].
    + rewrite list_lookup_insert_ne in Hk' by done. destruct (append_other k' t' c' Hne Hk') as (Ed & Hf & _). split; [done|]. rewrite Ed. by apply (im_file _ _ _ I) in Hk' as [_ Hs].
  - intros k1 k2 x Hne H1 H2 Hx Hx'. destruct (decide (k1 = k)) as [->|Hn1]; [by apply (append_apart k2 x)|]. destruct (decide (k2 = k)) as [->|Hn2]; [by apply (append_apart k1 x)|].
    destruct (lookup_lt_is_Some_2 fs k1 H1) as [[t1 c1] Hk1]. destruct (lookup_lt_is_Some_2 fs k2 H2) as [[t2 c2] Hk2].
    apply (append_other k1 t1 c1 Hn1 Hk1) in Hx. apply (append_other k2 t2 c2 Hn2 Hk2) in Hx'. by apply (im_apart _ _ _ I k1 k2 x).
  - intros x Hx. destruct (Z.lt_ge_cases x (freeblock s)) as [Hlt|Hge].
    + destruct (im_cover _ _ _ I x ltac:(lia)) as (k' & Hlen' & Hx'). destruct (decide (k' = k)) as [->|Hne].
      * exists k. split; [done|]. by apply (ap_keep _ _ _ _ _ _ A).
      * destruct (lookup_lt_is_Some_2 fs k' Hlen') as [[t' c'] Hk']. exists k'. split; [done|]. by apply (append_other k' t' c' Hne Hk').
    + exists k. split; [done|]. apply (ap_cover _ _ _ _ _ _ A); [lia|]. rewrite (sim_used s' V') by done. rewrite (proj2 (Z.leb_le _ _)), (proj2 (Z.ltb_lt _ _)) by lia. done.
  - intros n Hn. rewrite (ap_other _ _ _ _ _ _ A) by lia. by apply (im_unused _ _ _ I).
  - rewrite (ap_low _ _ _ _ _ _ A) by lia. exact (im_super _ _ _ I).
  - rewrite (ap_low _ _ _ _ _ _ A) by lia. exact (im_boot _ _ _ I).
  - intros x Hx. rewrite (ap_low _ _ _ _ _ _ A) by lia. by apply (im_log _ _ _ I).
Qed.
End append.
Lemma small_shorts d t : shorts d = [t; 0; 0; 1] → 0 ≤ t < 2 ^ 15 → small d.
Proof. intros E Ht. unfold small. rewrite E. repeat (apply Forall_cons; split; [lia|]). by apply Forall_nil. Qed.
Lemma image_iappend {B} (K : M mkfs B) Φ s V fs j t c p at_ n h k : Image s V fs → fs !! j = Some (t, c) → 0 ≤ t < 2 ^ 15 → 0 ≤ n →
  let z := Z.of_nat (length c) in z + n ≤ MAXFILE * BSIZE → 46 + total fs + need (z + n) - need z ≤ FSSIZE →
  (∀ s' V', Image s' V' (<[j := (t, c ++ bytes p at_ n)]> fs) → wp K Φ (World h k s')) →
  wp (iappend (num j) p at_ n;; K) Φ (World h k s).
Proof.
  intros I Hj Ht Hn z Hmax Hroom HK. destruct (im_file _ _ _ I j t c Hj) as [Hf Hs]. pose proof (im_count _ _ _ I). pose proof (lookup_lt_Some _ _ _ Hj).
  pose proof (im_block _ _ _ I) as Hb. eapply (iappend_spec _ _ s V (num j) c); [apply I|unfold NINODES; lia|done|by eapply small_shorts|done|done|fold z; lia|].
  intros s' V' HS' Hi Hb' A. apply (HK s' V'). eapply image_appended; [done|done|done|done| |done]. by rewrite length_bytes.
Qed.

(** ** A new inode *)
Definition new_din (t : Z) : dinode := mkDinode t 0 0 1 0 (repeat 0 13).
Lemma new_baddr V n t bn : in_file bn → baddr V (inode_of n (new_din t)) bn = 0.
Proof.
  intros [H0 _]. assert (E : ∀ m, addr_at (inode_of n (new_din t)) m = 0).
  { intros m. unfold addr_at. generalize (Z.to_nat m). cbn. intros j. do 13 (destruct j as [|j]; [done|]). by destruct j. }
  unfold baddr. destruct (bn <? NDIRECT); by rewrite E.
Qed.
Lemma new_own V n t x : ¬ own V (inode_of n (new_din t)) x.
Proof. intros (Hx & [->|(bn & Hbn & E)]); [done|]. by rewrite new_baddr in E. Qed.
Lemma new_file V n t : is_file V (inode_of n (new_din t)) [].
Proof.
  split; [split; try done|done|split; [|done]|].
  - by intros x ?%new_own.
  - intros bn bn' H1 _ H2. by rewrite new_baddr in H2.
  - intros bn H0 H1. cbn in H1. unfold BSIZE in H1. lia.
  - intros bn Hbn. rewrite new_baddr by done. change (isize _) with 0. destruct Hbn. unfold BSIZE. lia.
  - intros o H0 Hin Hne. by rewrite new_baddr in Hne.
Qed.
Lemma new_fits n t : 0 ≤ t < 2 ^ 15 → fits_disk (inode_of n (new_din t)).
Proof. intros Ht. apply (fits_file (λ _, ∅) n (new_din t) []); [apply new_file|]. by eapply small_shorts. Qed.
Lemma image_put s V fs t s' : let n := num (length fs) in Image s V fs → (length fs < 199)%nat → 0 ≤ t < 2 ^ 15 → Sim s' (put_inode V n (new_din t)) →
  freeinode s' = n + 1 → freeblock s' = freeblock s → Image s' (put_inode V n (new_din t)) (fs ++ [(t, [])]).
Proof.
  intros n I Hc Ht HS' Hi Hb. set (V' := put_inode V n (new_din t)) in *. pose proof (new_fits n t Ht) as Hfit. pose proof (IBLOCK_image n ltac:(lia)) as Hib.
  assert (Hat : ∀ m, 0 ≤ m → din_at V' m = if decide (m = n) then new_din t else din_at V m) by (intros m Hm; by apply din_at_put; [|lia|]).
  assert (Hnew : ino V' n = inode_of n (new_din t)) by (unfold ino; rewrite Hat by lia; by rewrite decide_True).
  assert (HV : ∀ x, x < 32 ∨ 46 ≤ x → V' x = V x) by (intros x Hx; apply updV_ne; lia).
  assert (Hold : ∀ k, (k < length fs)%nat → ino V' (num k) = ino V (num k)) by (intros k Hk; unfold ino; rewrite Hat by lia; by rewrite decide_False by lia).
  assert (Hown : ∀ k, (k < length fs)%nat → ∀ x, own V (ino V (num k)) x → V' x = V x).
  { intros k Hk x Hx. destruct (lookup_lt_is_Some_2 fs k Hk) as [[t' c'] E]. destruct (im_file _ _ _ I k t' c' E) as [Hf _].
    apply HV. destruct (own_below s V _ x (im_sim _ _ _ I) (if_ok _ _ _ Hf) Hx). lia. }
  split; try done; rewrite ?length_app; cbn [length].
  - lia.
  - rewrite Hi. unfold n. lia.
  - rewrite Hb, total_app, (im_block _ _ _ I). change (total [(t, [])]) with 0. lia.
  - intros k t' c' [Hk|[Hk1 Hk2]]%lookup_app_Some.
    + pose proof (lookup_lt_Some _ _ _ Hk) as Hlt. destruct (im_file _ _ _ I k t' c' Hk) as [Hf Hs]. rewrite Hold by done. split.
      * apply (frame_file (Hown k Hlt)); [|done]. intros x. apply (used_mono s _ s'); [apply I|done|lia].
      * rewrite Hat, decide_False by lia. done.
    + apply list_lookup_singleton_Some in Hk2 as [Hk2 [= <- <-]]. replace (num k) with n by (unfold n; lia). rewrite Hnew. split; [apply new_file|]. rewrite Hat by lia. by rewrite decide_True.
  - intros k1 k2 x Hne H1 H2 Hx Hx'. destruct (decide (k1 = length fs)) as [->|Hk1]; [fold n in Hx; rewrite Hnew in Hx; by apply new_own in Hx|].
    destruct (decide (k2 = length fs)) as [->|Hk2]; [fold n in Hx'; rewrite Hnew in Hx'; by apply new_own in Hx'|].
    rewrite Hold in Hx, Hx' by lia. apply (frame_own (Hown k1 ltac:(lia))) in Hx. apply (frame_own (Hown k2 ltac:(lia))) in Hx'. apply (im_apart _ _ _ I k1 k2 x); (done || lia).
  - intros x Hx. rewrite Hb in Hx. destruct (im_cover _ _ _ I x Hx) as (k & Hk & Hx'). exists k. split; [lia|]. rewrite Hold by done. by apply (frame_own (Hown k Hk)).
  - intros m Hm. rewrite Hat, decide_False by (unfold n; lia). apply (im_unused _ _ _ I). lia.
  - rewrite HV by lia. exact (im_super _ _ _ I).
  - rewrite HV by lia. exact (im_boot _ _ _ I).
  - intros x Hx. rewrite HV by lia. by apply (im_log _ _ _ I).
Qed.
Lemma image_ialloc {B} (K : Z → M mkfs B) Φ s V fs t h k : Image s V fs → (length fs < 199)%nat → 0 ≤ t < 2 ^ 15 →
  (∀ s' V', Image s' V' (fs ++ [(t, [])]) → wp (K (num (length fs))) Φ (World h k s')) → wp (bind (ialloc t) K) Φ (World h k s).
Proof.
  intros I Hc Ht HK. unfold ialloc. apply wp_assoc, wp_bind, wp_gets. cbn [st]. rewrite (im_inode _ _ _ I). apply wp_assoc, wp_bind, wp_modify. apply wp_assoc.
  assert (Ed : dinode0 <| dtype := i16 (xshort t) |> <| dnlink := i16 (xshort 1) |> <| dsize := xint 0 |> = new_din t).
  { assert (Et : i16 (xshort t) = t) by (rewrite xshort_id by lia; unfold i16; rewrite Z.mod_small by lia; lia). by rewrite Et. }
  rewrite Ed. set (s1 := s <| freeinode ::= _ |>). assert (HS1 : Sim s1 V) by (destruct (im_sim _ _ _ I); by split).
  eapply winode_spec; [exact HS1|lia|]. intros s2 HS2 Hi2 Hb2. apply wp_bind, wp_ret. eapply HK. apply (image_put s V fs t s2); [done|done|done|exact HS2| |done].
  rewrite Hi2. cbn. rewrite (im_inode _ _ _ I), u32_small by lia. lia.
Qed.

(** ** The bytes that main appends *)
Definition byte (x : Z) : Prop := 0 ≤ x < 256.
Lemma rdb_put_bytes l : ∀ m a x, rdb (put_bytes m a l) x = if within a (Z.of_nat (length l)) x then u8 (nth (Z.to_nat (x - a)) l 0) else rdb m x.
Proof.
  induction l as [|c l IH]; intros m a x; cbn [put_bytes length]; [within_cases|]. rewrite IH, rdb_wrb. within_cases.
  - replace (Z.to_nat (x - a)) with (S (Z.to_nat (x - (a + 1)))) by lia. done.
  - by rewrite Z.sub_diag.
Qed.
Lemma bytes_eq m at_ l : Forall byte l → (∀ j, (j < length l)%nat → rdb m (at_ + Z.of_nat j) = nth j l 0) → bytes m at_ (Z.of_nat (length l)) = l.
Proof.
  intros Hl H. assert (E : length (bytes m at_ (Z.of_nat (length l))) = length l) by (pose proof (length_bytes m at_ (Z.of_nat (length l))); lia).
  apply (nth_ext _ _ 0 0 E). intros j Hj. rewrite E in Hj. rewrite <- (Nat2Z.id j) at 1. rewrite nth_bytes by lia. by apply H.
Qed.
Lemma byte_nth l j : Forall byte l → u8 (nth j l 0) = nth j l 0.
Proof.
  intros Hl. apply u8_small. destruct (nth_in_or_default j l 0) as [H|H]; [|rewrite H; lia]. apply list_elem_of_In in H. rewrite Forall_forall in Hl. by apply Hl in H.
Qed.
Lemma bytes_chunk buf l : Forall byte l → bytes (put_bytes buf 0 l) 0 (Z.of_nat (length l)) = l.
Proof.
  intros Hl. apply bytes_eq; [done|]. intros j Hj. rewrite rdb_put_bytes, (proj2 (within_spec _ _ _)) by lia. rewrite byte_nth by done. f_equal. lia.
Qed.
(** A directory entry as bytes. *)
Definition enc (e : entry_of) : list Z := [e.1 mod 256; e.1 / 256] ++ e.2 ++ replicate (14 - length e.2) 0.
Record entry_ok (e : entry_of) : Prop := { eo_num : 0 ≤ e.1 < 2 ^ 16; eo_len : (length e.2 ≤ 14)%nat; eo_name : Forall (λ c, 0 < c < 256) e.2 }.
Lemma enc_length e : entry_ok e → length (enc e) = 16%nat.
Proof. intros [_ H _]. unfold enc. rewrite !length_app, length_replicate. cbn [length]. lia. Qed.
Lemma enc_bytes e : entry_ok e → Forall byte (enc e).
Proof.
  intros [Hn _ Hc]. unfold enc. repeat (apply Forall_cons; split); cbn [app].
  - unfold byte. apply Z.mod_pos_bound. done.
  - unfold byte. split; [apply Z.div_pos; lia|apply Z.div_lt_upper_bound; lia].
  - apply Forall_app. split; [eapply Forall_impl; [done|]; unfold byte; cbn; lia|]. apply Forall_replicate. unfold byte. lia.
Qed.
Lemma nth_pad l a j : nth j (l ++ replicate a 0) 0 = nth j l 0.
Proof.
  destruct (Nat.lt_ge_cases j (length l)); [by rewrite app_nth1|]. rewrite app_nth2, (nth_overflow l) by lia.
  generalize (j - length l)%nat. induction a as [|a IH]; intros [|n]; [done|done|done|apply IH].
Qed.
Lemma bytes_entry e r : entry_ok e → (length e.2 + r ≤ 14)%nat →
  bytes (put_bytes (st16 (memset ∅ 0 0 DIRENT) 0 (xshort e.1)) 2 (e.2 ++ replicate r 0)) 0 DIRENT = enc e.
Proof.
  intros He Hr. pose proof He as [Hn Hl Hc]. rewrite xshort_id by done. set (m := put_bytes _ _ _). change DIRENT with (Z.of_nat 16). rewrite <- (enc_length e He). apply bytes_eq; [by apply enc_bytes|].
  intros j Hj. rewrite (enc_length e He) in Hj. unfold m. rewrite rdb_put_bytes. destruct j as [|[|j]].
  - rewrite (proj2 (within_false _ _ _)) by lia. change (rdb (wrb (wrb (memset ∅ 0 0 16) 0 e.1) 1 (e.1 / 256)) 0 = e.1 mod 256). by rewrite !rdb_wrb.
  - rewrite (proj2 (within_false _ _ _)) by lia. change (rdb (wrb (wrb (memset ∅ 0 0 16) 0 e.1) 1 (e.1 / 256)) 1 = e.1 / 256). rewrite rdb_wrb, decide_True by done.
    apply u8_small. split; [apply Z.div_pos; lia|apply Z.div_lt_upper_bound; lia].
  - change (nth (S (S j)) (enc e) 0) with (nth j (e.2 ++ replicate (14 - length e.2) 0) 0). rewrite !nth_pad, length_app, length_replicate. destruct (within _ _ _) eqn:E.
    + replace (Z.to_nat (0 + Z.of_nat (S (S j)) - 2)) with j by lia. apply byte_nth. eapply Forall_impl; [done|]. unfold byte. cbn. lia.
    + apply within_false in E. rewrite nth_overflow by lia. change (st16 ?m 0 ?v) with (wrb (wrb m 0 v) (0 + 1) (v / 256)). rewrite !rdb_wrb, !decide_False by lia.
      rewrite rdb_memset by done. destruct (within _ _ _); done.
Qed.

(** ** Adding the files *)
Lemma append_reads_spec {B} (K : mem → M mkfs B) Φ j t h k reads : ∀ s V fs c buf, Image s V fs → fs !! j = Some (t, c) → 0 ≤ t < 2 ^ 15 →
  Forall (Forall byte) reads → let z := Z.of_nat (length (c ++ concat reads)) in z ≤ MAXFILE * BSIZE → 46 + total fs + need z - need (Z.of_nat (length c)) ≤ FSSIZE →
  (∀ s' V' buf', Image s' V' (<[j := (t, c ++ concat reads)]> fs) → wp (K buf') Φ (World h k s')) →
  wp (bind (append_reads (num j) buf reads) K) Φ (World h k s).
Proof.
  induction reads as [|l reads IH]; intros s V fs c buf I Hj Ht Hb z Hmax Hroom HK; cbn [append_reads].
  { apply wp_bind, wp_ret. eapply (HK s V). cbn [concat]. rewrite app_nil_r, list_insert_id by done. done. }
  apply Forall_cons in Hb as [Hl Hb]. apply wp_assoc. cbn [concat] in *. unfold z in *. rewrite app_assoc in *.
  assert (Hlen : Z.of_nat (length c) + Z.of_nat (length l) ≤ Z.of_nat (length ((c ++ l) ++ concat reads))) by (rewrite !length_app; lia).
  pose proof (need_mono _ _ Hlen). pose proof (lookup_lt_Some _ _ _ Hj).
  eapply (image_iappend _ _ s V fs j t c); [done|done|done|lia|lia|lia|]. intros s1 V1 I1. rewrite bytes_chunk in I1 by done.
  eapply (IH s1 V1 _ (c ++ l)); [exact I1|by apply list_lookup_insert_eq|done|done|lia| |].
  - rewrite (total_insert fs j t c l Hj). replace (Z.of_nat (length (c ++ l))) with (Z.of_nat (length c) + Z.of_nat (length l)) by (rewrite length_app; lia). lia.
  - intros s2 V2 buf' I2. rewrite list_insert_insert_eq in I2. by apply (HK s2 V2).
Qed.

Section files.
Context (host : list Z → option (list (list Z))).
Definition contents (path : list Z) : list Z := concat (default [] (host path)).
Definition name_of (path : list Z) : list Z := take (Z.to_nat DIRSIZ) (skip_underscore (shortname path)).
(** A file that mkfs can take: it opens, what is read are bytes and not more
    than a file can hold, and its name is a string without a slash in it. *)
Record takes (path : list Z) : Prop := {
  tk_open : is_Some (host path);
  tk_bytes : Forall (Forall byte) (default [] (host path));
  tk_size : Z.of_nat (length (contents path)) ≤ MAXFILE * BSIZE;
  tk_name : Forall (λ c, 0 < c < 256) path;
  tk_slash : 47 ∉ shortname path;
}.
Definition new_files (argv : list (list Z)) : list afile := (λ p, (T_FILE, contents p)) <$> argv.
Fixpoint new_entries (n : Z) (argv : list (list Z)) : list entry_of :=
  match argv with
  | [] => []
  | p :: argv => (n, name_of p) :: new_entries (n + 1) argv
  end.
Lemma name_bytes path : Forall (λ c, 0 < c < 256) path → Forall (λ c, 0 < c < 256) (name_of path).
Proof.
  intros H. unfold name_of. apply Forall_take. assert (Hs : Forall (λ c, 0 < c < 256) (shortname path)) by (unfold shortname; case_decide; [by apply Forall_drop|done]).
  unfold skip_underscore. destruct (shortname path) as [|c l]; [done|]. destruct (c =? 95); [|done]. by apply Forall_cons in Hs as [_ ?].
Qed.
Lemma name_entry_ok n path : 0 ≤ n < 2 ^ 16 → Forall (λ c, 0 < c < 256) path → entry_ok (n, name_of path).
Proof. intros Hn Hp. split; [done| |by apply name_bytes]. unfold name_of. cbn [snd]. rewrite length_take. change (Z.to_nat DIRSIZ) with 14%nat. lia. Qed.
Lemma add_file_spec {B} (K : mem → M mkfs B) Φ s V r rest path buf h k : let fs := (T_DIR, r) :: rest in
  let e := (num (length fs), name_of path) in let c := contents path in let z := Z.of_nat (length r) in
  Image s V fs → (length fs < 199)%nat → takes path → z + 16 ≤ MAXFILE * BSIZE →
  46 + total fs + need (z + 16) - need z + need (Z.of_nat (length c)) ≤ FSSIZE →
  (∀ s' V' buf', Image s' V' ((T_DIR, r ++ enc e) :: rest ++ [(T_FILE, c)]) → wp (K buf') Φ (World h k s')) →
  wp (bind (add_file host 1 path buf) K) Φ (World h k s).
Proof.
  intros fs e c z I Hlen [[reads Hopen] Hby Hsz Hname Hslash] Hz Hroom HK. unfold add_file, assert. rewrite bool_decide_eq_false_2 by done. cbn [negb when].
  apply wp_assoc, wp_bind, wp_ret. unfold contents in *. rewrite Hopen in *. cbn [default] in *. assert (He : entry_ok e) by (apply name_entry_ok; [lia|done]).
  apply wp_assoc. eapply (image_ialloc _ _ s V fs); [done|done|done|]. intros s1 V1 I1. apply wp_assoc.
  assert (Et : total (fs ++ [(T_FILE, [])]) = total fs) by (rewrite total_app; change (total [(T_FILE, [])]) with 0; lia).
  pose proof (Nat2Z.is_nonneg (length r)).
  assert (Hn0 : 0 ≤ need (Z.of_nat (length c))) by (pose proof (need_mono 0 (Z.of_nat (length c)) ltac:(lia)); change (need 0) with 0 in *; lia).
  eapply (image_iappend _ _ s1 V1 _ 0 T_DIR r); [exact I1|done|done|done|done|rewrite Et; fold z; unfold DIRENT; lia|]. intros s2 V2 I2.
  assert (Eb : bytes (dirent (num (length fs)) (skip_underscore (shortname path))) 0 DIRENT = enc e).
  { apply (bytes_entry e); [done|]. destruct He as [_ He _]. change (Z.to_nat DIRSIZ) with 14%nat. unfold e, name_of in *. cbn [snd] in *. change (Z.to_nat DIRSIZ) with 14%nat in *. lia. }
  rewrite Eb in I2. change (<[0%nat := (T_DIR, r ++ enc e)]> (fs ++ [(T_FILE, [])])) with ((T_DIR, r ++ enc e) :: (rest ++ [(T_FILE, [])])) in I2.
  assert (Hj : ((T_DIR, r ++ enc e) :: (rest ++ [(T_FILE, [])])) !! length fs = Some (T_FILE, [])).
  { change ((rest ++ [(T_FILE, [])]) !! length rest = Some (T_FILE, [])). by rewrite lookup_app_r, Nat.sub_diag by lia. }
  eapply (append_reads_spec _ _ _ T_FILE h k reads s2 V2 _ []); [exact I2|exact Hj|done|done|done| |].
  - cbn [app length]. rewrite total_cons. rewrite total_app. change (total [(T_FILE, [])]) with 0. cbn [snd]. rewrite length_app, enc_length by done. rewrite Nat2Z.inj_add.
    change (Z.of_nat 16) with 16. change (need (Z.of_nat 0)) with 0. unfold fs in Hroom. rewrite total_cons in Hroom. cbn [snd] in Hroom. fold z in Hroom |- *. unfold c in Hroom. rewrite Hopen in Hroom. change (default [] (Some reads)) with reads in Hroom. lia.
  - intros s3 V3 buf' I3. apply (HK s3 V3). cbn [app] in I3. change (Image s3 V3 ((T_DIR, r ++ enc e) :: <[length rest := (T_FILE, concat reads)]> (rest ++ [(T_FILE, [])]))) in I3. rewrite insert_app_r_alt, Nat.sub_diag in I3 by lia. unfold c. rewrite Hopen. exact I3.
Qed.
Lemma total_new path argv : total (new_files (path :: argv)) = need (Z.of_nat (length (contents path))) + total (new_files argv).
Proof. done. Qed.
Lemma total_pos fs : 0 ≤ total fs.
Proof.
  induction fs as [|f fs IH]; [done|]. rewrite total_cons. pose proof (need_mono 0 (Z.of_nat (length f.2)) ltac:(lia)) as H. change (need 0) with 0 in H. lia.
Qed.
Lemma add_files_spec {B} (K : M mkfs B) Φ h k argv : ∀ s V r rest buf, let fs := (T_DIR, r) :: rest in let z := Z.of_nat (length r) in let z' := z + 16 * Z.of_nat (length argv) in
  Image s V fs → Forall takes argv → (length fs + length argv < 200)%nat → z' ≤ MAXFILE * BSIZE → 46 + total fs + need z' - need z + total (new_files argv) ≤ FSSIZE →
  (∀ s' V', Image s' V' ((T_DIR, r ++ concat (enc <$> new_entries (num (length fs)) argv)) :: rest ++ new_files argv) → wp K Φ (World h k s')) →
  wp (add_files host 1 argv buf;; K) Φ (World h k s).
Proof.
  induction argv as [|path argv IH]; intros s V r rest buf fs z z' I Htk Hlen Hmax Hroom HK; cbn [add_files].
  { apply wp_bind, wp_ret. apply (HK s V). cbn [new_entries fmap list_fmap concat]. by rewrite !app_nil_r. }
  apply Forall_cons in Htk as [Hp Htk]. cbn [length] in *. rewrite total_new in Hroom. pose proof (total_pos (new_files argv)). unfold z' in *.
  pose proof (need_mono (z + 16) (z + 16 * Z.of_nat (S (length argv))) ltac:(lia)). apply wp_assoc.
  eapply (add_file_spec _ _ s V r rest path); [done|fold fs; lia|done|fold z; lia|fold fs z; lia|]. intros s1 V1 buf1 I1. fold fs in I1. set (e := (num (length fs), name_of path)) in *.
  assert (He : entry_ok e) by (apply name_entry_ok; [lia|apply Hp]). assert (Hr : Z.of_nat (length (r ++ enc e)) = z + 16) by (rewrite length_app, enc_length by done; unfold z; lia).
  eapply (IH s1 V1 (r ++ enc e) (rest ++ [(T_FILE, contents path)])); [exact I1|done|cbn [length]; rewrite length_app; cbn [length]; unfold fs in Hlen; cbn [length] in Hlen; lia|rewrite Hr; lia| |].
  - rewrite Hr. replace (z + 16 + 16 * Z.of_nat (length argv)) with (z + 16 * Z.of_nat (S (length argv))) by lia. unfold fs in Hroom. rewrite total_cons, total_app, total_cons in *.
    cbn [snd] in *. rewrite Hr. fold z in Hroom. change (total []) with 0. lia.
  - intros s2 V2 I2. apply (HK s2 V2). cbn [new_entries fmap list_fmap concat]. change (new_files (path :: argv)) with ((T_FILE, contents path) :: new_files argv).
    replace (num (S (length (rest ++ [(T_FILE, contents path)])))) with (num (length fs) + 1) in I2 by (unfold fs; cbn [length]; rewrite length_app; cbn [length]; lia).
    rewrite <- !app_assoc in I2. exact I2.
Qed.
End files.

(** ** The start *)
Lemma ld_zeroes k a : ld k zeroes a = 0.
Proof.
  rewrite (ld_ext k ∅).
  - revert a. induction k as [|k IH]; intros a; [done|]. change (rdb ∅ a + 256 * ld k ∅ (a + 1) = 0). by rewrite IH.
  - intros x _. unfold zeroes. rewrite rdb_memset by done. by destruct (within _ _ _).
Qed.
Lemma no_din o : get_din zeroes o = dinode0.
Proof.
  unfold get_din. rewrite !ld_zeroes. unfold dinode0. f_equal. unfold get_addrs. transitivity ((λ _, 0) <$> seq 0 13); [|done].
  apply list_fmap_ext. intros i x _. apply ld_zeroes.
Qed.
Lemma zero_disk_spec {B} (K : M mkfs B) Φ h w k : ∀ n b i f, Z.of_nat n + Z.of_nat k ≤ FSSIZE →
  wp K Φ (World h w (mkMkfs (replicate (n + k) zeroes) b i f)) → wp (zero_disk k (Z.of_nat n);; K) Φ (World h w (mkMkfs (replicate n zeroes) b i f)).
Proof.
  induction k as [|k IH]; intros n b i f Hn HK; cbn [zero_disk]; [rewrite Nat.add_0_r in HK; by apply wp_bind, wp_ret|].
  apply wp_assoc, wp_bind, wp_modify. change ((mkMkfs ?l b i f) <| img ::= ?g |>) with (mkMkfs (g l) b i f). cbv beta.
  rewrite seek_id by lia. unfold put_sector. rewrite Nat2Z.id, length_replicate, decide_False, Nat.sub_diag by lia. cbn [replicate app].
  replace (replicate n zeroes ++ [zeroes]) with (replicate (S n) zeroes) by (rewrite <- Nat.add_1_r, replicate_add; done).
  replace (Z.of_nat n + 1) with (Z.of_nat (S n)) by lia. apply IH; [lia|]. by replace (S n + k)%nat with (n + S k)%nat by lia.
Qed.
Definition V0 (n : Z) : block := if decide (n = 45) then bitmap_loop 46 0 zeroes else zeroes.
Lemma sim0 : Sim (mkMkfs (replicate 2000 zeroes) demo_sb 1 46) V0.
Proof.
  split; try done.
  - intros n Hn Hne. cbn [img]. unfold V0. rewrite decide_False by done. apply lookup_replicate. unfold FSSIZE in *. split; [done|lia].
  - intros n Hn. cbn [freeblock] in Hn. unfold V0. by rewrite decide_False by lia.
Qed.
Lemma image0 s : Sim s (updV V0 1 (superblock_bytes demo_sb)) → freeinode s = 1 → freeblock s = 46 → Image s (updV V0 1 (superblock_bytes demo_sb)) [].
Proof.
  intros HS Hi Hb. assert (HV : ∀ x, x ≠ 1 → x ≠ 45 → updV V0 1 (superblock_bytes demo_sb) x = zeroes) by (intros x H1 H2; rewrite updV_ne by done; unfold V0; by rewrite decide_False).
  split; try done.
  - cbn. lia.
  - intros k k' x _ Hk. cbn in Hk. lia.
  - intros x Hx. lia.
  - intros n Hn. cbn [length] in Hn. pose proof (IBLOCK_image n ltac:(lia)). unfold din_at. rewrite HV by lia. apply no_din.
  - intros x Hx. apply HV; lia.
Qed.

(** ** The end *)
(** The size of the root directory is rounded up; its last block is zero after
    the entries, so that is as if zeroes had been appended. *)
Definition padded (z : Z) : Z := (z / BSIZE + 1) * BSIZE.
Lemma padded_facts z : 0 ≤ z → z mod BSIZE ≠ 0 → z < padded z ∧ (∀ bn, bn * BSIZE < padded z ↔ bn * BSIZE < z) ∧ need (padded z) = need z ∧ padded z < z + BSIZE.
Proof.
  intros Hz Hm. pose proof (Z.div_mod z BSIZE ltac:(done)) as E. pose proof (Z.mod_pos_bound z BSIZE ltac:(done)) as Hr. unfold padded. set (q := z / BSIZE) in *. split_and!.
  - lia.
  - intros bn. unfold BSIZE in *. lia.
  - unfold need. rewrite nblk_whole. assert (nblk z = q + 1) as -> by (rewrite E, Z.mul_comm; apply nblk_mid; lia). done.
  - lia.
Qed.
Lemma pad_file V i c z : is_file V i c → let i' := i <| isize := z |> in Z.of_nat (length c) ≤ z ≤ MAXFILE * BSIZE →
  (∀ bn, bn * BSIZE < z ↔ bn * BSIZE < Z.of_nat (length c)) → is_file V i' (c ++ replicate (Z.to_nat z - length c) 0).
Proof.
  intros [HF Hsz HT Hb] i' Hz Hbn. rewrite Hsz in HT. destruct HT as [Ta Ti]. split.
  - split; try apply HF; [cbn; lia|]. intros bn H0 Hlt. change (isize i') with z in Hlt. apply Hbn in Hlt. rewrite <- Hsz in Hlt. by apply (fo_hole _ _ _ HF).
  - change (isize i') with z. rewrite length_app, length_replicate. lia.
  - change (isize i') with z. split; [intros bn Hin; rewrite Hbn; by apply Ta|]. intros Hle. apply Ti. lia.
  - intros o H0 Hin Hne. rewrite nth_pad. by apply Hb.
Qed.
Lemma padded_appended s V fs c : Image s V ((T_DIR, c) :: fs) → let z := Z.of_nat (length c) in z mod BSIZE ≠ 0 → padded z ≤ MAXFILE * BSIZE →
  appended (freeblock s) V 1 c (replicate (Z.to_nat (padded z) - length c) 0) (put_inode V 1 ((din_at V 1) <| dsize := padded z |>)).
Proof.
  intros I z Hm Hmax. destruct (padded_facts z ltac:(lia) Hm) as (H1 & H2 & _ & H4). destruct (im_file _ _ _ I 0%nat T_DIR c eq_refl) as [Hf Hs].
  change (num 0) with 1 in *. set (d := (din_at V 1) <| dsize := padded z |>). set (V' := put_inode V 1 d).
  pose proof (pad_file V (ino V 1) c (padded z) Hf ltac:(fold z; lia) ltac:(fold z; done)) as Hf'. change ((ino V 1) <| isize := padded z |>) with (inode_of 1 d) in Hf'.
  assert (Hfit : fits_disk (inode_of 1 d)) by (eapply fits_file; [exact Hf'|by eapply (small_shorts d T_DIR)]). pose proof (IBLOCK_image 1 ltac:(lia)) as Hib.
  assert (Hat : ∀ m, 0 ≤ m → din_at V' m = if decide (m = 1) then d else din_at V m) by (intros m Hm'; by apply din_at_put; [|lia|]).
  assert (Hi : ino V' 1 = inode_of 1 d) by (unfold ino; rewrite Hat by lia; by rewrite decide_True).
  assert (HV : ∀ x, x < 32 ∨ 46 ≤ x → V' x = V x) by (intros x Hx; apply updV_ne; lia).
  assert (HO : ∀ x, own V (inode_of 1 d) x → V' x = V x) by (intros x Hx; apply HV; destruct (own_below s V _ x (im_sim _ _ _ I) (if_ok _ _ _ Hf') Hx); lia).
  assert (Hu : ∀ x, used demo_sb V' x = used demo_sb V x).
  { intros x. unfold used. change (sbsize demo_sb) with FSSIZE. destruct (Z.leb_spec 0 x), (Z.ltb_spec x FSSIZE); try done. cbn [andb].
    assert (BBLOCK x demo_sb = 45) as -> by (unfold BBLOCK; change BPB with 8192; unfold FSSIZE in *; rewrite Z.div_small by lia; done). unfold V', put_inode. by rewrite updV_ne by lia. }
  split; rewrite ?Hi.
  - apply (frame_file HO); [|done]. intros x. by rewrite Hu.
  - rewrite Hat by lia. by rewrite decide_True.
  - intros n Hn Hne. rewrite Hat by lia. by rewrite decide_False.
  - intros x Hx _. apply HV. lia.
  - intros x Hx. left. by apply (frame_own HO).
  - intros x Hx. by apply (frame_own HO).
  - intros x Hx Hux. rewrite Hu, (sim_used s V), andb_true_iff, Z.ltb_lt in Hux by apply I. lia.
  - intros x Hx. apply HV. lia.
Qed.
Lemma fix_root_spec {B} (K : M mkfs B) Φ s V fs c h k : Image s V ((T_DIR, c) :: fs) → let z := Z.of_nat (length c) in z mod BSIZE ≠ 0 → padded z ≤ MAXFILE * BSIZE →
  (∀ s' V', Image s' V' ((T_DIR, c ++ replicate (Z.to_nat (padded z) - length c) 0) :: fs) → wp K Φ (World h k s')) → wp (fix_root_size 1;; K) Φ (World h k s).
Proof.
  intros I z Hm Hmax HK. destruct (padded_facts z ltac:(lia) Hm) as (H1 & _ & H3 & H4). pose proof (padded_appended s V fs c I Hm Hmax) as A. fold z in A.
  assert (H32 : 0 ≤ z ∧ padded z < 2 ^ 32) by (unfold MAXFILE in Hmax; change NINDIRECT with 256 in Hmax; unfold NDIRECT, BSIZE in *; lia).
  destruct (im_file _ _ _ I 0%nat T_DIR c eq_refl) as [Hf _]. assert (Ez : dsize (din_at V 1) = z) by exact (if_size _ _ _ Hf).
  unfold fix_root_size. apply wp_assoc. eapply rinode_spec; [apply I|lia|]. cbv zeta. rewrite Ez, (xint_id z) by lia. fold (padded z). rewrite u32_small, xint_id by lia.
  eapply winode_spec; [apply I|lia|]. intros s' HS' Hi' Hb'. eapply HK.
  apply (image_appended (k := 0) (fs := (T_DIR, c) :: fs) I eq_refl HS' Hi'); [|exact A]. rewrite Hb', length_replicate. fold z.
  replace (z + Z.of_nat (Z.to_nat (padded z) - length c)) with (padded z) by lia. lia.
Qed.
Definition dots : list entry_of := [(1, [46]); (1, [46; 46])].
Lemma dots_ok : Forall entry_ok dots.
Proof. repeat (apply Forall_cons; split; [split; cbn; [lia|lia|]; repeat (apply Forall_cons; split; [lia|]); by apply Forall_nil|]). by apply Forall_nil. Qed.
(** What is in the root directory before and after its size is rounded up. *)
Definition root_dirents (argv : list (list Z)) : list entry_of := dots ++ new_entries 2 argv.
Definition root_size (argv : list (list Z)) : Z := 16 * (2 + Z.of_nat (length argv)).
Definition root_bytes (argv : list (list Z)) : list Z := concat (enc <$> root_dirents argv).
Definition all_files (host : list Z → option (list (list Z))) (argv : list (list Z)) : list afile :=
  (T_DIR, root_bytes argv ++ replicate (Z.to_nat (padded (root_size argv)) - length (root_bytes argv)) 0) :: new_files host argv.
(** What mkfs needs: files that it can take, inodes and blocks for them, and a
    root directory that does not end with a block. *)
Record buildable (host : list Z → option (list (list Z))) (argv : list (list Z)) : Prop := {
  bu_takes : Forall (takes host) argv;
  bu_inodes : (length argv + 1 < 200)%nat;
  bu_blocks : 46 + need (root_size argv) + total (new_files host argv) ≤ FSSIZE;
  bu_partial : root_size argv mod BSIZE ≠ 0;
}.
Lemma new_entries_ok host argv : ∀ n, Forall (takes host) argv → 0 ≤ n → n + Z.of_nat (length argv) ≤ 2 ^ 16 → Forall entry_ok (new_entries n argv).
Proof.
  induction argv as [|p argv IH]; intros n Ht Hn Hl; cbn [new_entries]; [by apply Forall_nil|]. apply Forall_cons in Ht as [Hp Ht]. cbn [length] in Hl.
  apply Forall_cons. split; [apply name_entry_ok; [lia|apply Hp]|]. apply IH; [done|lia|lia].
Qed.
Lemma concat_enc_length es : Forall entry_ok es → length (concat (enc <$> es)) = (16 * length es)%nat.
Proof.
  induction 1 as [|e es He _ IH]; [done|]. change (concat (enc <$> e :: es)) with (enc e ++ concat (enc <$> es)). rewrite length_app, enc_length, IH by done. cbn [length]. lia.
Qed.
Lemma new_entries_length argv : ∀ n, length (new_entries n argv) = length argv.
Proof. induction argv as [|p argv IH]; intros n; cbn [new_entries length]; [done|]. by rewrite IH. Qed.
Lemma root_dirents_ok host argv : buildable host argv → Forall entry_ok (root_dirents argv).
Proof. intros B. apply Forall_app. split; [apply dots_ok|]. apply (new_entries_ok host); [apply B|lia|]. pose proof (bu_inodes _ _ B). lia. Qed.
Lemma root_bytes_length host argv : buildable host argv → Z.of_nat (length (root_bytes argv)) = root_size argv.
Proof.
  intros B. unfold root_bytes. rewrite concat_enc_length by (by eapply root_dirents_ok). unfold root_dirents, root_size. rewrite length_app, new_entries_length.
  change (length dots) with 2%nat. lia.
Qed.
(** The root directory with its two first entries. *)
Lemma root_spec {B} (K : Z → M mkfs B) Φ s V h k : Image s V [] → (∀ s' V', Image s' V' [(T_DIR, concat (enc <$> dots))] → wp (K 1) Φ (World h k s')) →
  wp (rootino ← ialloc T_DIR; assert (rootino =? ROOTINO);; iappend rootino (dirent_dot rootino [46]) 0 DIRENT;; iappend rootino (dirent_dot rootino [46; 46]) 0 DIRENT;; K rootino)
    Φ (World h k s).
Proof.
  intros I HK. eapply image_ialloc; [exact I|cbn; lia|done|]. intros s2 V2 I2. change (num (length [])) with 1. unfold assert. change (negb (1 =? ROOTINO)) with false. cbn [when]. apply wp_bind, wp_ret.
  change ([] ++ [(T_DIR, [])]) with [(T_DIR, @nil Z)] in I2. pose proof dots_ok as Hd. apply Forall_cons in Hd as [Hd1 Hd2]. apply Forall_cons in Hd2 as [Hd2 _].
  eapply (image_iappend _ _ s2 V2 _ 0 T_DIR []); [exact I2|done|done|done|done|by vm_compute|]. intros s3 V3 I3.
  change (dirent_dot 1 [46]) with (put_bytes (st16 (memset ∅ 0 0 DIRENT) 0 (xshort (1, [46]).1)) 2 ((1, [46]).2 ++ replicate 1 0)) in I3. rewrite bytes_entry in I3 by (done || (cbn; lia)).
  eapply (image_iappend _ _ s3 V3 _ 0 T_DIR (enc (1, [46]))); [exact I3|done|done|done|by vm_compute|by vm_compute|]. intros s4 V4 I4.
  change (dirent_dot 1 [46; 46]) with (put_bytes (st16 (memset ∅ 0 0 DIRENT) 0 (xshort (1, [46; 46]).1)) 2 ((1, [46; 46]).2 ++ replicate 1 0)) in I4. rewrite bytes_entry in I4 by (done || (cbn; lia)).
  exact (HK s4 V4 I4).
Qed.
Lemma padded_max argv : (length argv + 1 < 200)%nat → root_size argv < MAXFILE * BSIZE ∧ padded (root_size argv) ≤ MAXFILE * BSIZE.
Proof.
  intros H. unfold padded, root_size. change (MAXFILE * BSIZE) with (268 * 1024). change BSIZE with 1024. split; [lia|].
  pose proof (Z.div_lt_upper_bound (16 * (2 + Z.of_nat (length argv))) 1024 4 ltac:(done) ltac:(lia)). lia.
Qed.
Lemma main_spec host argv : buildable host argv → wp (main host argv) (λ _ w', ∃ s s' V, w' = World [] [] s' ∧ Image s V (all_files host argv) ∧
  img s' = <[45%nat := V 45]> (img s)) (World [] [] mkfs0).
Proof.
  intros Bu. pose proof (bu_inodes _ _ Bu) as Hin. unfold main, assert. change (negb (BSIZE mod 64 =? 0)) with false. change (negb (BSIZE mod DIRENT =? 0)) with false. cbn [when].
  do 2 (apply wp_bind, wp_ret). do 2 (apply wp_bind, wp_modify). match goal with |- wp _ _ (World _ _ ?x) => replace x with (mkMkfs (replicate 0 zeroes) demo_sb 1 46) by (vm_compute; reflexivity) end.
  change 0 with (Z.of_nat 0) at 1. apply zero_disk_spec; [by vm_compute|]. change (0 + Z.to_nat FSSIZE)%nat with 2000%nat. apply wp_bind, wp_gets. cbn [st sb].
  eapply wsect_spec; [apply sim0|cbn [freeblock]; lia|lia|]. intros s1 HS1 Hi1 Hb1. eapply root_spec; [exact (image0 s1 HS1 Hi1 Hb1)|]. intros s4 V4 I4. set (r := concat (enc <$> dots)) in I4.
  destruct (padded_max argv Hin) as [Hmax1 Hmax2]. assert (Ez : Z.of_nat (length r) + 16 * Z.of_nat (length argv) = root_size argv) by (change (Z.of_nat (length r)) with 32; unfold root_size; lia).
  eapply (add_files_spec host _ _ [] [] argv s4 V4 r []); [exact I4|apply Bu|cbn; lia|rewrite Ez; lia|rewrite Ez| ].
  { rewrite total_cons. cbn [snd]. change (total []) with 0. pose proof (bu_blocks _ _ Bu). lia. }
  intros s5 V5 I5. assert (Eb : root_bytes argv = r ++ concat (enc <$> new_entries 2 argv)) by (unfold root_bytes, root_dirents; by rewrite fmap_app, concat_app).
  change (num (length [(T_DIR, r)])) with 2 in I5. rewrite <- Eb in I5. pose proof (root_bytes_length host argv Bu) as El.
  eapply (fix_root_spec _ _ s5 V5); [exact I5|rewrite El; apply Bu|rewrite El; done|]. rewrite El. intros s6 V6 I6. apply wp_bind, wp_gets. cbn [st].
  pose proof (sim_free _ _ (im_sim _ _ _ I6)) as Hf. unfold balloc, assert. rewrite (proj2 (Z.ltb_lt _ _)) by (unfold FSSIZE, BSIZE in *; lia). cbn [negb when]. apply wp_bind, wp_ret.
  apply wp_bind, wp_gets. cbn [st]. rewrite (sim_sb _ _ (im_sim _ _ _ I6)). apply wp_modify. eexists s6, _, V6. split; [done|]. split; [exact I6|].
  pose proof (sim_len _ _ (im_sim _ _ _ I6)) as Hl. rewrite (sim_map _ _ (im_sim _ _ _ I6)). cbn [img set_field]. unfold put_sector. change (seek (bmapstart demo_sb)) with 45%nat.
  rewrite decide_True; [done|]. rewrite Hl. change (Z.to_nat FSSIZE) with 2000%nat. lia.
Qed.

(** ** Reading the root directory *)
Lemma fcstr_name f p nm n : Forall (λ c, 0 < c < 256) nm → (length nm ≤ n)%nat → (∀ a, 0 ≤ a < Z.of_nat n → f (p + a) = nth (Z.to_nat a) nm 0) → fcstr f p n = nm.
Proof.
  revert p nm. induction n as [|n IH]; intros p nm Hc Hl H; cbn [fcstr]; [destruct nm; [done|cbn in Hl; lia]|].
  pose proof (H 0 ltac:(lia)) as H0. rewrite Z.add_0_r in H0. change (Z.to_nat 0) with 0%nat in H0. destruct nm as [|c nm]; cbn [nth] in H0; rewrite H0; [done|].
  apply Forall_cons in Hc as [Hc Hr]. rewrite (proj2 (Z.eqb_neq c 0)) by lia. f_equal. apply IH; [done|cbn in Hl; lia|]. intros a Ha. replace (p + 1 + a) with (p + (a + 1)) by lia.
  rewrite H by lia. by replace (Z.to_nat (a + 1)) with (S (Z.to_nat a)) by lia.
Qed.
Lemma nth_concat_enc es : Forall entry_ok es → ∀ k e a, es !! k = Some e → (a < 16)%nat → nth (16 * k + a) (concat (enc <$> es)) 0 = nth a (enc e) 0.
Proof.
  induction 1 as [|x es Hx _ IH]; intros k e a Hk Ha; [done|]. change (concat (enc <$> x :: es)) with (enc x ++ concat (enc <$> es)). pose proof (enc_length x Hx). destruct k as [|k].
  - injection Hk as ->. rewrite app_nth1 by lia. done.
  - rewrite app_nth2 by lia. replace (16 * S k + a - length (enc x))%nat with (16 * k + a)%nat by lia. by apply IH.
Qed.
Lemma entries_of V i es : is_file V i (concat (enc <$> es)) → Forall entry_ok es → entries V i = es.
Proof.
  intros [HF Hsz HT Hb] Hes. rewrite concat_enc_length in Hsz by done. assert (E16 : isize i / 16 = Z.of_nat (length es)) by (rewrite Hsz; symmetry; apply (Z.div_unique _ _ _ 0); lia).
  apply list_eq. intros k. rewrite entries_lookup, E16. case_decide as Hk; [|symmetry; apply lookup_ge_None_2; lia].
  destruct (lookup_lt_is_Some_2 es k ltac:(lia)) as [e He]. rewrite He. f_equal. pose proof (proj1 (Forall_lookup _ _) Hes k e He) as Hok.
  assert (Hbyte : ∀ a, 0 ≤ a < 16 → fbyte V i (16 * Z.of_nat k + a) = nth (Z.to_nat a) (enc e) 0).
  { intros a Ha. pose proof (fo_size _ _ _ HF). assert (Hin : in_file ((16 * Z.of_nat k + a) / BSIZE)) by (apply div_in_file; lia).
    rewrite Hb; [|lia|done|apply (ti_addr _ _ _ HT); [done|]; pose proof (Z.mul_div_le (16 * Z.of_nat k + a) BSIZE ltac:(done)); lia].
    rewrite <- (nth_concat_enc es Hes k e) by (done || lia). f_equal. lia. }
  unfold dslot. pose proof (Hbyte 0 ltac:(lia)) as H0. rewrite Z.add_0_r in H0. rewrite H0, (Hbyte 1) by lia. destruct Hok as [Hn Hl Hc]. destruct e as [n nm]. cbn [fst snd] in *. f_equal.
  - change (n mod 256 + 256 * (n / 256) = n). pose proof (Z.div_mod n 256 ltac:(done)). lia.
  - apply fcstr_name; [done|done|]. intros a Ha. change (0 ≤ a < 14) in Ha. rewrite <- Z.add_assoc, Hbyte by lia. replace (Z.to_nat (2 + a)) with (S (S (Z.to_nat a))) by lia.
    apply (nth_pad nm).
Qed.
(** The unused entries at the end. *)
Definition spare (argv : list (list Z)) : nat := Z.to_nat ((padded (root_size argv) - root_size argv) / 16).
Lemma spare_bytes n : concat (enc <$> replicate n (0, [])) = replicate (16 * n) 0.
Proof.
  induction n as [|n IH]; [done|]. change (concat (enc <$> replicate (S n) (0, []))) with (replicate 16 0 ++ concat (enc <$> replicate n (0, []))).
  rewrite IH. replace (16 * S n)%nat with (16 + 16 * n)%nat by lia. by rewrite replicate_add.
Qed.
Lemma root_contents host argv : buildable host argv →
  root_bytes argv ++ replicate (Z.to_nat (padded (root_size argv)) - length (root_bytes argv)) 0 = concat (enc <$> root_dirents argv ++ replicate (spare argv) (0, [])) ∧
  Forall entry_ok (root_dirents argv ++ replicate (spare argv) (0, [])).
Proof.
  intros Bu. pose proof (root_bytes_length host argv Bu) as Hl. destruct (padded_facts (root_size argv) ltac:(unfold root_size; lia) (bu_partial _ _ Bu)) as (H1 & _).
  assert (E : (Z.to_nat (padded (root_size argv)) - length (root_bytes argv))%nat = (16 * spare argv)%nat).
  { unfold spare. set (p := padded (root_size argv)) in *. assert (Hp : p - root_size argv = (64 * (root_size argv / BSIZE + 1) - (2 + Z.of_nat (length argv))) * 16).
    { unfold p, padded. change BSIZE with 1024 at 2. unfold root_size at 2. lia. }
    rewrite Hp, Z.div_mul by done. lia. }
  split; [|apply Forall_app; split; [by eapply root_dirents_ok|apply Forall_replicate; split; cbn; [lia|lia|by apply Forall_nil]]].
  rewrite E, fmap_app, concat_app, spare_bytes. done.
Qed.

(** ** The theorems *)
(** The superblock as readsb of kernel/fs.c decodes it. *)
Definition sb_at (m : mem) : superblock := mkSb (ld32 m 0) (ld32 m 4) (ld32 m 8) (ld32 m 12) (ld32 m 16) (ld32 m 20) (ld32 m 24) (ld32 m 28).
Definition in_image (argv : list (list Z)) (n : Z) : Prop := 1 ≤ n ≤ 1 + Z.of_nat (length argv).
(** The file system made from the files [argv], on the disk [V]. *)
Record made (host : list Z → option (list (list Z))) (argv : list (list Z)) (V : Z → block) : Prop := {
  md_sb : sb_at (V 1) = demo_sb;
  md_log x : 2 ≤ x < 32 → V x = zeroes;
  md_used x : used demo_sb V x = true ↔ 0 ≤ x < 46 ∨ ∃ n, in_image argv n ∧ own V (ino V n) x;
  md_apart n n' x : in_image argv n → in_image argv n' → own V (ino V n) x → own V (ino V n') x → n = n';
  md_free n : 1 + Z.of_nat (length argv) < n < NINODES → itype (ino V n) = 0;
  md_root : file_ok demo_sb V (ino V 1) ∧ is_dir (ino V 1) ∧ entries V (ino V 1) = root_dirents argv ++ replicate (spare argv) (0, []);
  md_file k path : argv !! k = Some path → let i := ino V (2 + Z.of_nat k) in let c := contents host path in
    file_ok demo_sb V i ∧ itype i = T_FILE ∧ inlink i = 1 ∧ isize i = Z.of_nat (length c) ∧ ∀ o, 0 ≤ o < isize i → fbyte V i o = nth (Z.to_nat o) c 0;
}.
Lemma is_file_bytes V i c : is_file V i c → ∀ o, 0 ≤ o < isize i → fbyte V i o = nth (Z.to_nat o) c 0.
Proof.
  intros [HF Hsz HT Hb] o Ho. pose proof (fo_size _ _ _ HF). assert (Hin : in_file (o / BSIZE)) by (apply div_in_file; lia). apply Hb; [lia|done|].
  apply (ti_addr _ _ _ HT); [done|]. pose proof (Z.mul_div_le o BSIZE ltac:(done)). lia.
Qed.
Lemma image_made host argv s V : buildable host argv → Image s V (all_files host argv) → made host argv V.
Proof.
  intros Bu I. assert (Hlen : length (all_files host argv) = S (length argv)) by (unfold all_files, new_files; cbn [length]; by rewrite length_fmap).
  assert (Hnum : ∀ n, in_image argv n → ∃ k, n = num k ∧ (k < length (all_files host argv))%nat) by (intros n Hn; exists (Z.to_nat (n - 1)); unfold in_image in Hn; lia).
  split.
  - rewrite (im_super _ _ _ I). vm_compute. reflexivity.
  - exact (im_log _ _ _ I).
  - intros x. rewrite (sim_used s V) by apply I. rewrite andb_true_iff, Z.leb_le, Z.ltb_lt. pose proof (sim_free _ _ (im_sim _ _ _ I)). split.
    + intros Hx. destruct (Z.lt_ge_cases x 46); [left; lia|right]. destruct (im_cover _ _ _ I x ltac:(lia)) as (k & Hk & Hx'). exists (num k). unfold in_image. split; [lia|done].
    + intros [Hx|(n & (k & -> & Hk)%Hnum & Hx)]; [lia|]. destruct (lookup_lt_is_Some_2 _ k Hk) as [[t c] E]. destruct (im_file _ _ _ I k t c E) as [Hf _].
      pose proof (own_below s V _ x (im_sim _ _ _ I) (if_ok _ _ _ Hf) Hx). lia.
  - intros n n' x (k & -> & Hk)%Hnum (k' & -> & Hk')%Hnum Hx Hx'. destruct (decide (k = k')) as [->|Hne]; [done|]. by destruct (im_apart _ _ _ I k k' x).
  - intros n Hn. unfold ino. rewrite (im_unused _ _ _ I); [done|]. rewrite Hlen. unfold NINODES in *. lia.
  - destruct (root_contents host argv Bu) as [Ec Hes]. destruct (im_file _ _ _ I 0%nat _ _ eq_refl) as [Hf Hs]. change (num 0) with 1 in *. rewrite Ec in Hf. split_and!.
    + exact (if_ok _ _ _ Hf).
    + split; [by injection Hs|]. rewrite (if_size _ _ _ Hf), concat_enc_length by done. exists (Z.of_nat (length (root_dirents argv ++ replicate (spare argv) (0, [])))). lia.
    + by apply entries_of.
  - intros k path Hk i c. assert (E : all_files host argv !! S k = Some (T_FILE, c)) by (change (new_files host argv !! k = Some (T_FILE, c)); unfold new_files; by rewrite list_lookup_fmap, Hk).
    destruct (im_file _ _ _ I _ _ _ E) as [Hf Hs]. replace (num (S k)) with (2 + Z.of_nat k) in * by lia. split_and!; [exact (if_ok _ _ _ Hf)|by injection Hs|by injection Hs|exact (if_size _ _ _ Hf)|by apply is_file_bytes].
Qed.

Lemma mkfs_done host argv : buildable host argv →
  ∃ s V, main host argv (World [] [] mkfs0) = Done () (World [] [] s) ∧ length (img s) = Z.to_nat FSSIZE ∧
    (∀ n, 0 ≤ n < FSSIZE → img s !! Z.to_nat n = Some (V n)) ∧ made host argv V.
Proof.
  intros Bu. destruct (proj1 (wp_done _ _ _) (main_spec host argv Bu)) as ([] & w' & E & s & s' & V & -> & I & Himg). pose proof (im_sim _ _ _ I) as HS. exists s', V. split; [exact E|].
  rewrite Himg, length_insert. split; [apply HS|]. split; [|by eapply image_made]. intros n Hn. destruct (decide (n = 45)) as [->|Hne].
  - rewrite list_lookup_insert_eq; [done|]. rewrite (sim_len _ _ HS). vm_compute. lia.
  - rewrite list_lookup_insert_ne by lia. by apply HS.
Qed.

(** C9: mkfs makes the file system it is asked for. Suppose that the files can
    be read and have usable names, that there are fewer than 199 of them, that
    they fit on the disk with the root directory, and that the entries of the
    root directory do not fill its last block exactly ([bu_partial]; when they
    do, [mkfs_full_root_hole] shows that the image is wrong). Then main runs to
    its end, and the image it has written is a file
    system as the kernel requires it: the superblock decodes to the
    layout, the log is empty, the bitmap marks the blocks of the layout and
    those of the files and no others, no block belongs to two files, the root
    directory holds the names, cut to 14 bytes, with the numbers of their
    inodes, and each inode has the bytes of its file, however read() cut them. *)
Theorem mkfs_image host argv : buildable host argv →
  ∃ s V, main host argv (World [] [] mkfs0) = Done () (World [] [] s) ∧ length (img s) = Z.to_nat FSSIZE ∧
    (∀ n, 0 ≤ n < FSSIZE → img s !! Z.to_nat n = Some (V n)) ∧ made host argv V.
Proof. apply mkfs_done. Qed.

(** ** The kernel on that image *)
(** A kernel that has mounted the disk [D], with inode [n] in its table but not
    read yet. *)
Definition blank_inode (n : Z) : inode := mkInode ROOTDEV n 1 None false 0 0 0 0 0 (repeat 0 13).
Definition mounted (D : disk) (n : Z) : fsys := mkFs (boot_ls D) [blank_inode n] demo_sb 0 ∅ ∅ (λ _, true).
Definition as_disk (l : list block) : disk := map_seqZ 0 l.
Lemma blk_as_disk l V n : length l = Z.to_nat FSSIZE → (∀ n, 0 ≤ n < FSSIZE → l !! Z.to_nat n = Some (V n)) → 0 ≤ n < FSSIZE → blk (as_disk l) n = V n.
Proof. intros Hl H Hn. unfold blk, as_disk. rewrite <- (Z2Nat.id n) at 1 by lia. rewrite lookup_map_seqZ_0 by lia. rewrite Nat2Z.id, (H n Hn). done. Qed.
(** Two views that agree on the disk. *)
Lemma view_file V V' i : (∀ n, 0 ≤ n < FSSIZE → V' n = V n) → file_ok demo_sb V i → file_ok demo_sb V' i ∧ ∀ o, 0 ≤ o < isize i → fbyte V' i o = fbyte V i o.
Proof.
  intros HV HF. assert (Hx : ∀ x, own V i x → V' x = V x) by (intros x Hx; apply HV; destruct (own_range V i x HF Hx); lia).
  assert (Hu : ∀ x, used demo_sb V' x = used demo_sb V x).
  { intros x. unfold used. change (sbsize demo_sb) with FSSIZE. destruct (Z.leb_spec 0 x), (Z.ltb_spec x FSSIZE); try done. cbn [andb].
    assert (BBLOCK x demo_sb = 45) as -> by (unfold BBLOCK; change BPB with 8192; unfold FSSIZE in *; rewrite Z.div_small by lia; done). by rewrite HV by done. }
  split; [split; try apply HF|].
  - intros x [Hr Hx']%(frame_own Hx)%(fo_own _ _ _ HF). split; [done|]. by rewrite Hu.
  - intros bn bn' H1 H2. rewrite !(frame_baddr Hx) by done. by apply HF.
  - intros bn H1. rewrite (frame_baddr Hx) by done. by apply HF.
  - intros bn H0 Hlt. pose proof (fo_size _ _ _ HF). rewrite (frame_baddr Hx) by (split; [done|]; unfold BSIZE in *; lia). by apply HF.
  - intros o Ho. pose proof (fo_size _ _ _ HF). assert (Hin : in_file (o / BSIZE)) by (apply div_in_file; lia). unfold fbyte. rewrite (frame_baddr Hx) by done. rewrite Hx; [done|].
    apply own_baddr; [done|]. apply (fo_hole _ _ _ HF); [apply Hin|]. pose proof (Z.mul_div_le o BSIZE ltac:(done)). lia.
Qed.
Lemma view_meta V V' : (∀ n, 0 ≤ n < FSSIZE → V' n = V n) → meta_used demo_sb V → meta_used demo_sb V'.
Proof.
  intros HV Hm x Hx. specialize (Hm x Hx). unfold used in *. change (dstart demo_sb) with 46 in Hx.
  assert (BBLOCK x demo_sb = 45) as E by (unfold BBLOCK; change BPB with 8192; rewrite Z.div_small by lia; done). rewrite E in *. by rewrite HV.
Qed.
Lemma mounted_read host argv D V k path dst n : made host argv V → (∀ m, 0 ≤ m < FSSIZE → blk D m = V m) → argv !! k = Some path → (k < 198)%nat → 0 ≤ n < 2 ^ 32 →
  let c := contents host path in let r := Z.min n (Z.of_nat (length c)) in
  wp (ilock 0;; readi 0 false dst 0 n) (λ v w', v = r ∧ ∃ k' s', w' = World [] k' s' ∧ ∀ j, 0 ≤ j < r → rdb (km s') (dst + j) = nth (Z.to_nat j) c 0)
    (World [] [] (mounted D (2 + Z.of_nat k))).
Proof.
  intros Md HD Hk H198 Hn c r. destruct (md_file _ _ _ Md k path Hk) as (HF & Ht & _ & Hsz & Hb). set (m := 2 + Z.of_nat k) in *. set (i := ino V m) in *.
  assert (Hblk : blk D (IBLOCK m demo_sb) = V (IBLOCK m demo_sb)) by (apply HD; pose proof (IBLOCK_image m ltac:(lia)); unfold FSSIZE; lia).
  destruct (view_file V (blk D) i HD HF) as [HF' Hb']. assert (Hm : meta_used demo_sb (blk D)).
  { apply (view_meta V); [done|]. intros x Hx. apply (md_used _ _ _ Md). by left. }
  eapply (ilock_spec (MT := mount_of D) _ _ _ (blk D) [] 0 (blank_inode m)); [apply mount_fx|done|done|done|done|done|done|unfold room; rewrite map_size_empty; cbn; lia| |].
  { change (m_sb) with demo_sb. cbn [inum blank_inode]. rewrite Hblk. change (itype i ≠ 0). by rewrite Ht. }
  intros l' k' pid HF1. change (@m_sb [] (mount_of D)) with demo_sb. cbn [inum blank_inode]. rewrite Hblk. set (i2 := _ <| ivalid := true |>). set (s2 := put _ l' 0 i2).
  assert (HO : Open (MT := mount_of D) s2 (blk D) [] 0 i2) by (split; [exact HF1|done|done|destruct HF'; by split|unfold inode_ok; cbn; lia|done]).
  assert (Hsz2 : isize i2 = isize i) by done. pose proof (file_max (MT := mount_of D) _ _ (o_file _ _ _ _ _ HO)) as Hmax.
  assert (Hc : count i2 0 n = r).
  { unfold count. rewrite Hsz2, Hsz. destruct (Z.ltb_spec (Z.of_nat (length (contents host path))) 0), (Z.leb_spec (2 ^ 32) (0 + n)); cbn [orb]; [lia|lia|lia|]. unfold r, c. lia. }
  eapply wp_mono; [apply (readi_open (MT := mount_of D) false s2 (blk D) [] 0 i2 dst 0 n k' HO); [lia|done|cbn; lia|done]|]. rewrite Hc.
  intros v w' (-> & k2 & s3 & -> & _ & Hcp). split; [done|]. exists k2, s3. split; [done|]. intros j Hj. change (km s3) with (target false s3). rewrite (Hcp (dst + j)). rewrite (proj2 (within_spec _ _ _)) by lia.
  replace (0 + (dst + j - dst)) with j by lia. unfold r, c in *. rewrite <- (Hb j) by lia. rewrite <- (Hb' j) by lia. done.
Qed.

(** C23: the kernel reads what mkfs stored. Mounting the image that mkfs has
    made of the files [argv], locking the inode of file [k] (ilock reads it
    from the disk) and reading [n] bytes with readi returns as many bytes as
    the file has, at most [n], and puts the bytes of the host's file in the
    buffer. *)
Theorem mkfs_kernel_reads host argv k path dst n : buildable host argv → argv !! k = Some path → 0 ≤ n < 2 ^ 32 →
  let c := contents host path in let r := Z.min n (Z.of_nat (length c)) in
  ∃ s k' s', main host argv (World [] [] mkfs0) = Done () (World [] [] s) ∧
    (ilock 0;; readi 0 false dst 0 n) (World [] [] (mounted (as_disk (img s)) (2 + Z.of_nat k))) = Done r (World [] k' s') ∧
    ∀ j, 0 ≤ j < r → rdb (km s') (dst + j) = nth (Z.to_nat j) c 0.
Proof.
  intros Bu Hk Hn c r. destruct (mkfs_done host argv Bu) as (s & V & E & Hl & HV & Md). exists s.
  assert (HD : ∀ m, 0 ≤ m < FSSIZE → blk (as_disk (img s)) m = V m) by (intros m Hm; by apply blk_as_disk).
  assert (H198 : (k < 198)%nat) by (apply lookup_lt_Some in Hk; pose proof (bu_inodes _ _ Bu); lia).
  destruct (proj1 (wp_done _ _ _) (mounted_read host argv _ V k path dst n Md HD Hk H198 Hn)) as (v & w' & Er & -> & k' & s' & -> & Hb).
  exists k', s'. split; [exact E|]. split; [exact Er|exact Hb].
Qed.

(** A host with two files: "user/_ls", read in two pieces, and "README". *)
Definition ls_path : list Z := [117; 115; 101; 114; 47; 95; 108; 115].
Definition readme_path : list Z := [82; 69; 65; 68; 77; 69].
Definition demo_host (p : list Z) : option (list (list Z)) :=
  if decide (p = ls_path) then Some [[127; 69]; [76; 70; 2]] else if decide (p = readme_path) then Some [[120; 118; 54]] else None.
Lemma demo_buildable : buildable demo_host [ls_path; readme_path].
Proof.
  assert (Hb : ∀ l, forallb (λ c, (0 <? c) && (c <? 256)) l = true → Forall (λ c, 0 < c < 256) l).
  { intros l H. rewrite forallb_forall in H. apply Forall_forall. intros x Hx%list_elem_of_In%H. rewrite andb_true_iff, !Z.ltb_lt in Hx. lia. }
  assert (Hr : ∀ l, forallb (forallb (λ c, (0 <=? c) && (c <? 256))) l = true → Forall (Forall byte) l).
  { intros l H. rewrite forallb_forall in H. apply Forall_forall. intros x Hx%list_elem_of_In%H. rewrite forallb_forall in Hx. apply Forall_forall.
    intros y Hy%list_elem_of_In%Hx. rewrite andb_true_iff, Z.leb_le, Z.ltb_lt in Hy. exact Hy. }
  split; [|cbn; lia|by vm_compute|by vm_compute]. repeat (apply Forall_cons; split); [| |by apply Forall_nil].
  - split; [by exists [[127; 69]; [76; 70; 2]]|by apply Hr|by vm_compute|by apply Hb|]. vm_compute. set_solver.
  - split; [by exists [[120; 118; 54]]|by apply Hr|by vm_compute|by apply Hb|]. vm_compute. set_solver.
Qed.
Lemma mkfs_image_witness : ∃ s V, main demo_host [ls_path; readme_path] (World [] [] mkfs0) = Done () (World [] [] s) ∧ length (img s) = Z.to_nat FSSIZE ∧
  (∀ n, 0 ≤ n < FSSIZE → img s !! Z.to_nat n = Some (V n)) ∧ made demo_host [ls_path; readme_path] V.
Proof. exact (mkfs_image demo_host [ls_path; readme_path] demo_buildable). Defined.
Lemma mkfs_kernel_reads_witness : ∃ s k' s', main demo_host [ls_path; readme_path] (World [] [] mkfs0) = Done () (World [] [] s) ∧
  (ilock 0;; readi 0 false 5000 0 100) (World [] [] (mounted (as_disk (img s)) 2)) = Done 5 (World [] k' s') ∧
  ∀ j, 0 ≤ j < 5 → rdb (km s') (5000 + j) = nth (Z.to_nat j) [127; 69; 76; 70; 2] 0.
Proof. exact (mkfs_kernel_reads demo_host [ls_path; readme_path] 0 ls_path 5000 100 demo_buildable eq_refl ltac:(split; done)). Defined.

(** The condition [bu_partial] is needed. With 62 files the root directory ends
    with its first block; its size is rounded up to two blocks all the same,
    and the second one does not exist. *)
Definition empty_host (p : list Z) : option (list (list Z)) := Some [].
Definition names62 : list (list Z) := (λ n, [65 + Z.of_nat n]) <$> seq 0 62.
Lemma mkfs_full_root_hole :
  match main empty_host names62 (World [] [] mkfs0) with
  | Done _ w => let V n := default ∅ (img (st w) !! Z.to_nat n) in (isize (ino V 1) =? 2 * BSIZE) && (baddr V (ino V 1) 1 =? 0)
  | _ => false
  end = true.
Proof. vm_compute. reflexivity. Qed.
