(* ===== verification/File.v ===== *)
(** * Open files: kernel/file.c, and pipealloc of kernel/pipe.c

    The file table, the pipes and the descriptors of every process, over the
    file system of Fs.v and the page allocator of Kalloc.v. A [struct file*] is
    an index of the table; a pipe is named by the page it lives in. Copies to
    and from the calling process go to its memory [um] as in Fs.v. A call that
    has to wait for another process (a full or empty pipe) shows as
    [Blocked]. *)
From S2P Require Import Prelude Param CString Mem Kalloc Bio Log Ring Pipe Fs.
Import Fs.

Module File.
Inductive fdtype := FD_NONE | FD_PIPE | FD_INODE | FD_DEVICE.
#[export] Instance fdtype_eq : EqDecision fdtype.
Proof. solve_decision. Defined.
Record file := mkFile { ftype : fdtype; fref : Z; freadable : bool; fwritable : bool; fpipe : Z; fip : nat; foff : Z; fmajor : Z }.
#[export] Instance eta_file : Settable file := λ f,
  mkFile (ftype f) (fref f) (freadable f) (fwritable f) (fpipe f) (fip f) (foff f) (fmajor f).
Definition file0 : file := mkFile FD_NONE 0 false false 0 0 0 0.

(** [ofiles]: [p->ofile] of every process; [me] is myproc(), whose kill flag,
    size and argument registers are [killed], [psz] and [args]. *)
Record osys := mkOsys {
  fss : fsys; kms : kmem; ftable : list file; pipes : gmap Z Pipe.psys;
  ofiles : list (list (option nat)); me : nat; killed : bool; psz : Z; args : list Z }.
#[export] Instance eta_osys : Settable osys := λ s,
  mkOsys (fss s) (kms s) (ftable s) (pipes s) (ofiles s) (me s) (killed s) (psz s) (args s).

Section file.
(** [end] of kernel.ld, and the table of device functions. *)
Context (kend : Z) (devsw_read devsw_write : Z → option (Z → Z → M osys Z)).

Definition fsop {A} (m : M fsys A) : M osys A := zoom fss (λ f s, s <| fss := f |>) m.
Definition memop {A} (m : M kmem A) : M osys A := zoom kms (λ k s, s <| kms := k |>) m.
Definition begin_op : M osys unit := fsop (logged Log.begin_op).
Definition end_op : M osys unit := fsop (logged Log.end_op).
Definition getf (f : nat) : M osys file := o ← gets (λ s, ftable s !! f); nonnull o.
Definition setf (f : nat) (g : file → file) : M osys unit :=
  x ← getf f; modify (λ s, s <| ftable ::= <[f := g x]> |>).
Definition with_pipe {A} (pi : Z) (m : M Pipe.psys A) : M osys A :=
  o ← gets (λ s, pipes s !! pi);
  p ← nonnull o;
  zoom (λ _, p) (λ q s, s <| pipes ::= <[pi := q]> |>) m.
Definition ftable_lock : lock := ("ftable", 0%nat).

(** ** The file table *)
Fixpoint filealloc_loop (n : nat) (f : nat) : M osys (option nat) :=
  match n with
  | O => release ftable_lock;; ret None
  | S n =>
      x ← getf f;
      if fref x =? 0 then
        setf f (λ x, x <| fref := 1 |>);;
        release ftable_lock;;
        ret (Some f)
      else filealloc_loop n (S f)
  end.
Definition filealloc : M osys (option nat) := acquire ftable_lock;; filealloc_loop NFILE 0.

Definition filedup (f : nat) : M osys nat :=
  acquire ftable_lock;;
  x ← getf f;
  when (fref x <? 1) (panic "filedup");;
  setf f (λ x, x <| fref ::= λ r, r + 1 |>);;
  release ftable_lock;;
  ret f.

Definition pipeclose (pi : Z) (writable : bool) : M osys unit :=
  freed ← with_pipe pi (Pipe.pipeclose writable);
  when freed (modify (λ s, s <| pipes ::= delete pi |>);; memop (kfree kend pi)).
Definition fileclose (f : nat) : M osys unit :=
  acquire ftable_lock;;
  x ← getf f;
  when (fref x <? 1) (panic "fileclose");;
  setf f (λ x, x <| fref ::= λ r, r - 1 |>);;
  ff ← getf f;
  if fref ff >? 0 then release ftable_lock
  else
    setf f (λ x, x <| fref := 0 |> <| ftype := FD_NONE |>);;
    release ftable_lock;;
    match ftype ff with
    | FD_PIPE => pipeclose (fpipe ff) (fwritable ff)
    | FD_INODE | FD_DEVICE => begin_op;; fsop (iput (fip ff));; end_op
    | FD_NONE => ret ()
    end.

(** [struct stat]: dev, ino, type, nlink and size at 0, 4, 8, 10 and 16. *)
Definition STAT : Z := 24.
Definition stat_bytes (st : stat) : mem :=
  st64 (st16 (st16 (st32 (st32 ∅ 0 (st_dev st)) 4 (st_ino st)) 8 (st_type st)) 10 (st_nlink st)) 16 (st_size st).
Definition copyout (dst : Z) (src : mem) (len : Z) : M osys Z := fsop (either_copyout true dst src 0 len).
Definition filestat (f : nat) (addr : Z) : M osys Z :=
  x ← getf f;
  match ftype x with
  | FD_INODE | FD_DEVICE =>
      fsop (ilock (fip x));;
      st ← fsop (stati (fip x));
      fsop (iunlock (fip x));;
      r ← copyout addr (stat_bytes st) STAT;
      if r <? 0 then ret (-1) else ret 0
  | _ => ret (-1)
  end.

(** ** Pipes of the calling process *)
Definition user_byte (s : osys) (a : Z) : option Z :=
  if umap (fss s) (PGROUNDDOWN a) then Some (rdb (um (fss s)) a) else None.
(** The bytes a reader took, stored where its buffer could be reached. *)
Fixpoint deliver (m : mem) (addr : Z) (l : list (Z * bool)) : mem :=
  match l with
  | [] => m
  | (ch, ok) :: l => deliver (if ok : bool then wrb m addr ch else m) (addr + 1) l
  end.
Definition waits (c : chan) (e : Pipe.ending) : M osys Z :=
  match e with Pipe.Return r => ret r | Pipe.Sleep _ => blocked c end.
Definition pipewrite (pi addr n : Z) : M osys Z :=
  s ← gets id;
  e ← with_pipe pi (Pipe.pipewrite (λ _, killed s) (λ i, user_byte s (addr + i)) 0 n);
  waits Pipe.nwrite_chan e.
Definition piperead (pi addr n : Z) : M osys Z :=
  s ← gets id;
  e ← with_pipe pi (Pipe.piperead (λ _, killed s) (λ i _, umap (fss s) (PGROUNDDOWN (addr + i))) n);
  p ← gets (λ s, pipes s !! pi);
  p ← nonnull p;
  o ← nonnull (pipes s !! pi);
  modify (λ s, s <| fss ::= λ x, x <| um ::= λ m, deliver m addr (drop (length (Pipe.rx o)) (Pipe.rx p)) |> |>);;
  waits Pipe.nread_chan e.

(** ** Reading and writing *)
Definition fileread (f : nat) (addr n : Z) : M osys Z :=
  x ← getf f;
  if negb (freadable x) then ret (-1)
  else match ftype x with
    | FD_PIPE => piperead (fpipe x) addr n
    | FD_DEVICE =>
        if (fmajor x <? 0) || (fmajor x >=? NDEV) then ret (-1)
        else match devsw_read (fmajor x) with None => ret (-1) | Some read => read addr n end
    | FD_INODE =>
        fsop (ilock (fip x));;
        x ← getf f;
        r ← fsop (readi (fip x) true addr (foff x) (u32 n));
        when (r >? 0) (setf f (λ x, x <| foff ::= λ o, u32 (o + r) |>));;
        fsop (iunlock (fip x));;
        ret r
    | FD_NONE => panic "fileread"
    end.

Definition max_chunk : Z := (MAXOPBLOCKS - 1 - 1 - 2) / 2 * BSIZE.
(** One transaction of a write: what is written, and how much was asked. *)
Definition write_chunk (f : nat) (addr n1 : Z) : M osys Z :=
  begin_op;;
  x ← getf f;
  fsop (ilock (fip x));;
  x ← getf f;
  r ← fsop (writei (fip x) true addr (foff x) n1);
  when (r >? 0) (setf f (λ x, x <| foff ::= λ o, u32 (o + r) |>));;
  fsop (iunlock (fip x));;
  end_op;;
  ret r.
Fixpoint filewrite_loop (k : nat) (f : nat) (addr i n : Z) : M osys Z :=
  if i <? n then
    match k with
    | O => timeout
    | S k =>
        let n1 := min (n - i) max_chunk in
        r ← write_chunk f (u64 (addr + i)) n1;
        if negb (r =? n1) then ret i else filewrite_loop k f addr (i + r) n
    end
  else ret i.
Definition filewrite (f : nat) (addr n : Z) : M osys Z :=
  x ← getf f;
  if negb (fwritable x) then ret (-1)
  else match ftype x with
    | FD_PIPE => pipewrite (fpipe x) addr n
    | FD_DEVICE =>
        if (fmajor x <? 0) || (fmajor x >=? NDEV) then ret (-1)
        else match devsw_write (fmajor x) with None => ret (-1) | Some write => write addr n end
    | FD_INODE =>
        i ← filewrite_loop (Z.to_nat n) f addr 0 n;
        if i =? n then ret n else ret (-1)
    | FD_NONE => panic "filewrite"
    end.

(** ** pipealloc

    No page is held when the call fails, so the bad path closes the files only. *)
Definition close_opt (f : option nat) : M osys unit := match f with Some f => fileclose f | None => ret () end.
Definition pipealloc_bad (f0 f1 : option nat) : M osys (option (nat * nat)) :=
  close_opt f0;; close_opt f1;; ret None.
Definition pipealloc : M osys (option (nat * nat)) :=
  f0 ← filealloc;
  match f0 with
  | None => pipealloc_bad None None
  | Some a =>
      f1 ← filealloc;
      match f1 with
      | None => pipealloc_bad f0 None
      | Some b =>
          pi ← memop kalloc;
          if pi =? 0 then pipealloc_bad f0 f1
          else
            modify (λ s, s <| pipes ::= <[pi := Pipe.mkPsys
              (Pipe.pipe_init (Pipe.mkPipe (repeat 5 (Z.to_nat Pipe.PIPESIZE)) 0 0 false false)) [] []]> |>);;
            setf a (λ x, x <| ftype := FD_PIPE |> <| freadable := true |> <| fwritable := false |> <| fpipe := pi |>);;
            setf b (λ x, x <| ftype := FD_PIPE |> <| freadable := false |> <| fwritable := true |> <| fpipe := pi |>);;
            ret (Some (a, b))
      end
  end.
End file.
End File.
