(* ===== verification/SysFile.v ===== *)
(** * File system calls: kernel/sysfile.c and the argument fetching of kernel/syscall.c

    The argument registers of the caller are [args]. The character arrays on
    the kernel stack (path names) are at fixed places of the kernel memory
    [km]. *)
From S2P Require Import Prelude Param CString Mem Kalloc Bio Log Ring Pipe Fs File.
Import Fs File.

Module SysFile.
(** ** kernel/fcntl.h *)
Definition O_RDONLY : Z := 0x000.
Definition O_WRONLY : Z := 0x001.
Definition O_RDWR : Z := 0x002.
Definition O_CREATE : Z := 0x200.
Definition O_TRUNC : Z := 0x400.
(** [char name[DIRSIZ]], and the two path names of a call. *)
Definition SNAME : Z := 32.
Definition PATH : Z := 64.
Definition NEW : Z := PATH + MAXPATH.

(** ** Links, directories and creation

    What sys_link, sys_unlink and create do once the path names are in place. *)
Definition begin_fs : M fsys unit := logged Log.begin_op.
Definition end_fs : M fsys unit := logged Log.end_op.
Definition link_bad (ip : nat) : M fsys Z :=
  ilock ip;;
  seti ip (λ i, i <| inlink ::= λ n, i16 (n - 1) |>);;
  iupdate ip;;
  iunlockput ip;;
  end_fs;;
  ret (-1).
Definition link (old new : Z) : M fsys Z :=
  begin_fs;;
  o ← namei old;
  match o with
  | None => end_fs;; ret (-1)
  | Some ip =>
      ilock ip;;
      i ← geti ip;
      if itype i =? T_DIR then iunlockput ip;; end_fs;; ret (-1)
      else
        seti ip (λ i, i <| inlink ::= λ n, i16 (n + 1) |>);;
        iupdate ip;;
        iunlock ip;;
        o ← nameiparent new SNAME;
        match o with
        | None => link_bad ip
        | Some dp =>
            ilock dp;;
            d ← geti dp; i ← geti ip;
            r ← (if negb (idev d =? idev i) then ret (-1) else dirlink dp SNAME (inum i));
            if r <? 0 then iunlockput dp;; link_bad ip
            else iunlockput dp;; iput ip;; end_fs;; ret 0
        end
  end.

Fixpoint isdirempty_loop (k : nat) (dp : nat) (off : Z) : M fsys bool :=
  match k with
  | O => timeout
  | S k =>
      d ← geti dp;
      if off <? isize d then
        r ← readi dp false DE off DIRENT;
        when (negb (r =? DIRENT)) (panic "isdirempty: readi");;
        m ← gets km;
        if negb (ld16 m DE =? 0) then ret false else isdirempty_loop k dp (off + DIRENT)
      else ret true
  end.
Definition isdirempty (dp : nat) : M fsys bool :=
  d ← geti dp; isdirempty_loop (Z.to_nat (isize d / DIRENT + 1)) dp (2 * DIRENT).

(** The strings "." and ".." of the code. *)
Definition DOT : Z := NEW + MAXPATH.
Definition DOTDOT : Z := DOT + 2.
Definition literals (m : mem) : mem := wrb (wrb (wrb (wrb (wrb m DOT 46) (DOT + 1) 0) DOTDOT 46) (DOTDOT + 1) 46) (DOTDOT + 2) 0.
Definition unlink_bad (dp : nat) : M fsys Z := iunlockput dp;; end_fs;; ret (-1).
Definition unlink (path : Z) : M fsys Z :=
  begin_fs;;
  o ← nameiparent path SNAME;
  match o with
  | None => end_fs;; ret (-1)
  | Some dp =>
      ilock dp;;
      m ← gets (λ s, literals (km s));
      if (namecmp m SNAME DOT =? 0) || (namecmp m SNAME DOTDOT =? 0) then unlink_bad dp
      else
        o ← dirlookup dp SNAME;
        match o with
        | None => unlink_bad dp
        | Some (ip, off) =>
            ilock ip;;
            i ← geti ip;
            when (inlink i <? 1) (panic "unlink: nlink < 1");;
            full ← (if itype i =? T_DIR then e ← isdirempty ip; ret (negb e) else ret false);
            if full : bool then iunlockput ip;; unlink_bad dp
            else
              modify (λ s, s <| km ::= λ m, memset m DE 0 DIRENT |>);;
              r ← writei dp false DE off DIRENT;
              when (negb (r =? DIRENT)) (panic "unlink: writei");;
              when (itype i =? T_DIR) (seti dp (λ d, d <| inlink ::= λ n, i16 (n - 1) |>);; iupdate dp);;
              iunlockput dp;;
              seti ip (λ i, i <| inlink ::= λ n, i16 (n - 1) |>);;
              iupdate ip;;
              iunlockput ip;;
              end_fs;;
              ret 0
        end
  end.

Definition create_fail (ip dp : nat) : M fsys (option nat) :=
  seti ip (λ i, i <| inlink := 0 |>);;
  iupdate ip;;
  iunlockput ip;;
  iunlockput dp;;
  ret None.
Definition create (path type major minor : Z) : M fsys (option nat) :=
  o ← nameiparent path SNAME;
  match o with
  | None => ret None
  | Some dp =>
      ilock dp;;
      o ← dirlookup dp SNAME;
      match o with
      | Some (ip, _) =>
          iunlockput dp;;
          ilock ip;;
          i ← geti ip;
          if (type =? T_FILE) && ((itype i =? T_FILE) || (itype i =? T_DEVICE)) then ret (Some ip)
          else iunlockput ip;; ret None
      | None =>
          d ← geti dp;
          o ← ialloc (idev d) type;
          match o with
          | None => iunlockput dp;; ret None
          | Some ip =>
              ilock ip;;
              seti ip (λ i, i <| imajor := i16 major |> <| iminor := i16 minor |> <| inlink := 1 |>);;
              iupdate ip;;
              i ← geti ip;
              bad ← (if type =? T_DIR then
                       modify (λ s, s <| km ::= literals |>);;
                       r ← dirlink ip DOT (inum i);
                       if r <? 0 then ret true else r ← dirlink ip DOTDOT (inum d); ret (r <? 0)
                     else ret false);
              if bad : bool then create_fail ip dp
              else
                r ← dirlink dp SNAME (inum i);
                if r <? 0 then create_fail ip dp
                else
                  when (type =? T_DIR) (seti dp (λ d, d <| inlink ::= λ n, i16 (n + 1) |>);; iupdate dp);;
                  iunlockput dp;;
                  ret (Some ip)
          end
      end
  end.

Section sysfile.
Context (kend : Z) (devsw_read devsw_write : Z → option (Z → Z → M osys Z)).

(** ** Arguments: kernel/syscall.c *)
Definition argraw (n : nat) : M osys Z :=
  if (n <? 6)%nat then o ← gets (λ s, args s !! n); nonnull o else panic "argraw".
Definition argint (n : nat) : M osys Z := v ← argraw n; ret (i32 v).
Definition argaddr (n : nat) : M osys Z := argraw n.
(** The word at [addr], unless it is outside the process. *)
Definition fetchaddr (addr : Z) : M osys (option Z) :=
  s ← gets id;
  if (addr >=? psz s) || (u64 (addr + 8) >? psz s) then ret None
  else
    let '(m, r) := copy_mapped 8 (umap (fss s)) addr ∅ 0 (um (fss s)) addr in
    if negb (r =? 0) then ret None else ret (Some (ld64 m 0)).
(** copyinstr: bytes up to and with the first 0, at most [n]. *)
Fixpoint copy_string (n : nat) (s : fsys) (dst src : Z) : mem * Z :=
  match n with
  | O => (km s, -1)
  | S n =>
      if umap s (PGROUNDDOWN src) then
        let s' := s <| km ::= λ m, wrb m dst (rdb (um s) src) |> in
        if rdb (um s) src =? 0 then (km s', 0) else copy_string n s' (dst + 1) (u64 (src + 1))
      else (km s, -1)
  end.
Definition fetchstr (addr buf max : Z) : M osys Z :=
  x ← gets (λ s, copy_string (Z.to_nat max) (fss s) buf addr);
  modify (λ s, s <| fss ::= λ f, f <| km := x.1 |> |>);;
  if x.2 <? 0 then ret (-1)
  else o ← gets (λ s, strlen (km (fss s)) buf (Z.to_nat max)); nonnull o.
Definition argstr (n : nat) (buf max : Z) : M osys Z := addr ← argaddr n; fetchstr addr buf max.

(** ** Descriptors *)
Definition my_ofile : M osys (list (option nat)) := o ← gets (λ s, ofiles s !! me s); nonnull o.
Definition set_ofile (fd : nat) (f : option nat) : M osys unit :=
  l ← my_ofile; modify (λ s, s <| ofiles ::= <[me s := <[fd := f]> l]> |>).
Definition argfd (n : nat) : M osys (option (nat * nat)) :=
  fd ← argint n;
  if (fd <? 0) || (fd >=? Z.of_nat NOFILE) then ret None
  else
    l ← my_ofile;
    o ← nonnull (l !! Z.to_nat fd);
    match o with None => ret None | Some f => ret (Some (Z.to_nat fd, f)) end.
Fixpoint fdalloc_loop (n : nat) (fd : nat) (f : nat) : M osys (option nat) :=
  match n with
  | O => ret None
  | S n =>
      l ← my_ofile;
      o ← nonnull (l !! fd);
      match o with
      | None => set_ofile fd (Some f);; ret (Some fd)
      | Some _ => fdalloc_loop n (S fd) f
      end
  end.
Definition fdalloc (f : nat) : M osys (option nat) := fdalloc_loop NOFILE 0 f.

Definition sys_dup : M osys Z :=
  x ← argfd 0;
  match x with
  | None => ret (-1)
  | Some (_, f) =>
      fd ← fdalloc f;
      match fd with None => ret (-1) | Some fd => filedup f;; ret (Z.of_nat fd) end
  end.
Definition sys_read : M osys Z :=
  p ← argaddr 1; n ← argint 2;
  x ← argfd 0;
  match x with None => ret (-1) | Some (_, f) => fileread devsw_read f p n end.
Definition sys_write : M osys Z :=
  p ← argaddr 1; n ← argint 2;
  x ← argfd 0;
  match x with None => ret (-1) | Some (_, f) => filewrite devsw_write f p n end.
Definition sys_close : M osys Z :=
  x ← argfd 0;
  match x with
  | None => ret (-1)
  | Some (fd, f) => set_ofile fd None;; fileclose kend f;; ret 0
  end.
Definition sys_fstat : M osys Z :=
  st ← argaddr 1;
  x ← argfd 0;
  match x with None => ret (-1) | Some (_, f) => filestat f st end.

Definition sys_link : M osys Z :=
  r ← argstr 0 PATH MAXPATH;
  if r <? 0 then ret (-1)
  else r ← argstr 1 NEW MAXPATH; if r <? 0 then ret (-1) else fsop (link PATH NEW).
Definition sys_unlink : M osys Z :=
  r ← argstr 0 PATH MAXPATH; if r <? 0 then ret (-1) else fsop (unlink PATH).

Definition open_fail (ip : nat) : M osys Z := fsop (iunlockput ip);; end_op;; ret (-1).
(** sys_open once it has the inode, locked. *)
Definition open_inode (ip : nat) (omode : Z) : M osys Z :=
  i ← fsop (geti ip);
  if (itype i =? T_DEVICE) && ((imajor i <? 0) || (imajor i >=? NDEV)) then open_fail ip
  else
    f ← filealloc;
    match f with
    | None => open_fail ip
    | Some f =>
        fd ← fdalloc f;
        match fd with
        | None => fileclose kend f;; open_fail ip
        | Some fd =>
            (if itype i =? T_DEVICE then setf f (λ x, x <| ftype := FD_DEVICE |> <| fmajor := imajor i |>)
             else setf f (λ x, x <| ftype := FD_INODE |> <| foff := 0 |>));;
            let wronly := negb (Z.land omode O_WRONLY =? 0) in
            setf f (λ x, x <| fip := ip |> <| freadable := negb wronly |>
                           <| fwritable := wronly || negb (Z.land omode O_RDWR =? 0) |>);;
            when (negb (Z.land omode O_TRUNC =? 0) && (itype i =? T_FILE)) (fsop (itrunc ip));;
            fsop (iunlock ip);;
            end_op;;
            ret (Z.of_nat fd)
        end
    end.
Definition sys_open : M osys Z :=
  omode ← argint 1;
  n ← argstr 0 PATH MAXPATH;
  if n <? 0 then ret (-1)
  else
    begin_op;;
    if negb (Z.land omode O_CREATE =? 0) then
      o ← fsop (create PATH T_FILE 0 0);
      match o with None => end_op;; ret (-1) | Some ip => open_inode ip omode end
    else
      o ← fsop (namei PATH);
      match o with
      | None => end_op;; ret (-1)
      | Some ip =>
          fsop (ilock ip);;
          i ← fsop (geti ip);
          if (itype i =? T_DIR) && negb (omode =? O_RDONLY) then open_fail ip
          else open_inode ip omode
      end.
(** mkdir and mknod: create, and let go of the inode. *)
Definition make (type major minor : Z) : M osys Z :=
  n ← argstr 0 PATH MAXPATH;
  o ← (if n <? 0 then ret None else fsop (create PATH type major minor));
  match o with
  | None => end_op;; ret (-1)
  | Some ip => fsop (iunlockput ip);; end_op;; ret 0
  end.
Definition sys_mkdir : M osys Z := begin_op;; make T_DIR 0 0.
Definition sys_mknod : M osys Z :=
  begin_op;; major ← argint 1; minor ← argint 2; make T_DEVICE major minor.
Definition sys_chdir : M osys Z :=
  begin_op;;
  n ← argstr 0 PATH MAXPATH;
  o ← (if n <? 0 then ret None else fsop (namei PATH));
  match o with
  | None => end_op;; ret (-1)
  | Some ip =>
      fsop (ilock ip);;
      i ← fsop (geti ip);
      if negb (itype i =? T_DIR) then fsop (iunlockput ip);; end_op;; ret (-1)
      else
        fsop (iunlock ip);;
        d ← gets (λ s, cwd (fss s));
        fsop (iput d);;
        end_op;;
        modify (λ s, s <| fss ::= λ f, f <| cwd := ip |> |>);;
        ret 0
  end.

Definition int_bytes (v : Z) : mem := st32 ∅ 0 v.
Definition sys_pipe : M osys Z :=
  fdarray ← argaddr 0;
  x ← pipealloc kend;
  match x with
  | None => ret (-1)
  | Some (rf, wf) =>
      let close_both := fileclose kend rf;; fileclose kend wf;; ret (-1) in
      fd0 ← fdalloc rf;
      match fd0 with
      | None => close_both
      | Some fd0 =>
          fd1 ← fdalloc wf;
          match fd1 with
          | None => set_ofile fd0 None;; close_both
          | Some fd1 =>
              r ← copyout fdarray (int_bytes (Z.of_nat fd0)) 4;
              r ← (if r <? 0 then ret r else copyout (u64 (fdarray + 4)) (int_bytes (Z.of_nat fd1)) 4);
              if r <? 0 then set_ofile fd0 None;; set_ofile fd1 None;; close_both
              else ret 0
          end
      end
  end.

(** ** Descriptors across fork and exit: kernel/proc.c

    The loops over [p->ofile] of fork, for the child [np], and of exit. *)
Definition set_child (np fd : nat) (f : nat) : M osys unit :=
  o ← gets (λ s, ofiles s !! np);
  l ← nonnull o;
  modify (λ s, s <| ofiles ::= <[np := <[fd := Some f]> l]> |>).
Fixpoint fork_files (n : nat) (i : nat) (np : nat) : M osys unit :=
  match n with
  | O => ret ()
  | S n =>
      l ← my_ofile;
      o ← nonnull (l !! i);
      match o with
      | None => ret ()
      | Some f => filedup f;; set_child np i f
      end;;
      fork_files n (S i) np
  end.
Fixpoint exit_files (n : nat) (fd : nat) : M osys unit :=
  match n with
  | O => ret ()
  | S n =>
      l ← my_ofile;
      o ← nonnull (l !! fd);
      match o with
      | None => ret ()
      | Some f => fileclose kend f;; set_ofile fd None
      end;;
      exit_files n (S fd)
  end.

(** ** The rows of the table [syscalls] that are calls on files: kernel/syscall.c, syscall.h *)
Definition file_calls (num : Z) : option (M osys Z) :=
  match num with
  | 4 => Some sys_pipe
  | 5 => Some sys_read
  | 8 => Some sys_fstat
  | 9 => Some sys_chdir
  | 10 => Some sys_dup
  | 15 => Some sys_open
  | 16 => Some sys_write
  | 17 => Some sys_mknod
  | 18 => Some sys_unlink
  | 19 => Some sys_link
  | 20 => Some sys_mkdir
  | 21 => Some sys_close
  | _ => None
  end.
End sysfile.
End SysFile.
