(* ===== verification/FileSpec.v ===== *)
(** * Descriptors, open files and pipes: the reference counts of kernel/file.c

    Every system call keeps the file table consistent with the descriptors of
    all processes: the count of an entry is the number of descriptors that name
    it, an entry in use has a type, and a pipe lives exactly as long as one of
    its ends. *)
From S2P Require Import Prelude Param CString Mem Kalloc Bio Log Ring Pipe Fs File SysFile.
Import Fs File SysFile.

(** ** What a call leaves behind if it returns *)
Definition pwp {S A} (m : M S A) (Φ : A → S → Prop) (s : S) : Prop :=
  ∀ h k a w', m (World h k s) = Done a w' → Φ a (st w').
Section pwp.
Context {S : Type}.
Implicit Types s : S.
Lemma pwp_ret {A} (a : A) Φ s : Φ a s → pwp (ret a) Φ s.
Proof. intros H h k a' w' [= <- <-]. done. Qed.
Lemma pwp_bind {A B} (m : M S A) (f : A → M S B) Φ s : pwp m (λ a s', pwp (f a) Φ s') s → pwp (bind m f) Φ s.
Proof.
  intros H h k b w' E. unfold bind in E. destruct (m (World h k s)) as [a [h1 k1 s1]| | | |] eqn:Em; try done. exact (H h k a _ Em h1 k1 b w' E).
Qed.
Lemma pwp_mono {A} (m : M S A) (Φ Ψ : A → S → Prop) s : pwp m Φ s → (∀ a s', Φ a s' → Ψ a s') → pwp m Ψ s.
Proof. intros H HΨ h k a w' E. apply HΨ. by eapply H. Qed.
Lemma pwp_gets {A} (f : S → A) Φ s : Φ (f s) s → pwp (gets f) Φ s.
Proof. intros H h k a w' [= <- <-]. done. Qed.
Lemma pwp_modify f Φ s : Φ () (f s) → pwp (modify f) Φ s.
Proof. intros H h k a w' [= <- <-]. done. Qed.
Lemma pwp_when (b : bool) m Φ s : (b = true → pwp m Φ s) → (b = false → Φ () s) → pwp (when b m) Φ s.
Proof. destruct b; intros H1 H2; [by apply H1|apply pwp_ret; by apply H2]. Qed.
Lemma pwp_acquire l Φ s : Φ () s → pwp (acquire l) Φ s.
Proof. intros H h k a w'. unfold acquire. case_bool_decide; [done|]. by intros [= <- <-]. Qed.
Lemma pwp_release l Φ s : Φ () s → pwp (release l) Φ s.
Proof. intros H h k a w'. unfold release. case_bool_decide; [|done]. by intros [= <- <-]. Qed.
Lemma pwp_nonnull {A} (o : option A) Φ s : (∀ a, o = Some a → Φ a s) → pwp (nonnull o) Φ s.
Proof. intros H. destruct o as [a|]; [apply pwp_ret; by apply H|by intros h k a w']. Qed.
Lemma pwp_panic {A} msg Φ s : pwp (panic msg : M S A) Φ s.
Proof. by intros h k a w'. Qed.
Lemma pwp_blocked {A} c Φ s : pwp (blocked c : M S A) Φ s.
Proof. by intros h k a w'. Qed.
Lemma pwp_zoom {T A} (get : S → T) (put : T → S → S) (m : M T A) Φ s :
  pwp m (λ a t, Φ a (put t s)) (get s) → pwp (zoom get put m) Φ s.
Proof.
  intros H h k a w' E. unfold zoom in E. cbn in E. destruct (m _) as [b [h1 k1 t]| | | |] eqn:Em; try done.
  injection E as <- <-. exact (H h k b _ Em).
Qed.
Lemma pwp_any {A} (m : M S A) (Φ : A → S → Prop) s : (∀ a s', Φ a s') → pwp m Φ s.
Proof. intros H h k a w' _. apply H. Qed.
End pwp.
Ltac pstep := lazymatch goal with
  | |- pwp (bind _ _) _ _ => apply pwp_bind
  | |- pwp (ret _) _ _ => apply pwp_ret
  | |- pwp (gets _) _ _ => apply pwp_gets
  | |- pwp (modify _) _ _ => apply pwp_modify
  | |- pwp (acquire _) _ _ => apply pwp_acquire
  | |- pwp (release _) _ _ => apply pwp_release
  | |- pwp (panic _) _ _ => apply pwp_panic
  | |- pwp (blocked _) _ _ => apply pwp_blocked
  end; cbn beta.

(** ** Counting descriptors *)
Definition one (f : nat) (o : option nat) : Z := if decide (o = Some f) then 1 else 0.
Fixpoint cnt (f : nat) (l : list (option nat)) : Z := match l with [] => 0 | o :: l => one f o + cnt f l end.
Fixpoint tot (f : nat) (ls : list (list (option nat))) : Z := match ls with [] => 0 | l :: ls => cnt f l + tot f ls end.
Lemma one_nonneg f o : 0 ≤ one f o ≤ 1.
Proof. unfold one. case_decide; lia. Qed.
Lemma cnt_nonneg f l : 0 ≤ cnt f l.
Proof. induction l as [|o l IH]; cbn; [lia|]. pose proof (one_nonneg f o). lia. Qed.
Lemma tot_nonneg f ls : 0 ≤ tot f ls.
Proof. induction ls as [|l ls IH]; cbn; [lia|]. pose proof (cnt_nonneg f l). lia. Qed.
Lemma cnt_insert f l : ∀ i o v, l !! i = Some o → cnt f (<[i := v]> l) = cnt f l - one f o + one f v.
Proof. induction l as [|x l IH]; intros [|i] o v Hi; simplify_eq/=; [lia|]. rewrite (IH i o v Hi). lia. Qed.
Lemma tot_insert f ls : ∀ p l l', ls !! p = Some l → tot f (<[p := l']> ls) = tot f ls - cnt f l + cnt f l'.
Proof. induction ls as [|x ls IH]; intros [|p] l l' Hp; simplify_eq/=; [lia|]. rewrite (IH p l l' Hp). lia. Qed.
Lemma cnt_in f l i : l !! i = Some (Some f) → 1 ≤ cnt f l.
Proof.
  revert i. induction l as [|x l IH]; intros [|i] Hi; simplify_eq/=.
  - unfold one. rewrite decide_True by done. pose proof (cnt_nonneg f l). lia.
  - pose proof (one_nonneg f x). specialize (IH i Hi). lia.
Qed.
Lemma tot_in f ls p l i : ls !! p = Some l → l !! i = Some (Some f) → 1 ≤ tot f ls.
Proof.
  revert p. induction ls as [|x ls IH]; intros [|p] Hp Hi; simplify_eq/=.
  - pose proof (cnt_in f l i Hi). pose proof (tot_nonneg f ls). lia.
  - pose proof (cnt_nonneg f x). specialize (IH p Hp Hi). lia.
Qed.

(** ** The invariant

    [e f] is the number of references to [f] that the running call holds beyond
    the descriptors; the files of [fr] have been allocated but not filled in. *)
Definition bump (e : nat → Z) (f : nat) (d : Z) : nat → Z := λ g, if decide (g = f) then e g + d else e g.
Record TI (t : list file) (o : list (list (option nat))) (e : nat → Z) (fr : list nat) : Prop := {
  ti_len : length t = NFILE;
  ti_ref f x : t !! f = Some x → fref x = tot f o + e f;
  ti_out f : (NFILE ≤ f)%nat → tot f o + e f = 0;
  ti_type f x : t !! f = Some x → f ∉ fr → 0 < fref x ↔ ftype x ≠ FD_NONE;
  ti_fresh f x : t !! f = Some x → f ∈ fr → ftype x = FD_NONE ∧ fref x = 1;
}.
Definition end_open (w : bool) (p : Pipe.psys) : bool := if w then Pipe.writeopen (Pipe.pi p) else Pipe.readopen (Pipe.pi p).
(** File [x] is the end [w] of the pipe at [a]. *)
Definition is_end (a : Z) (w : bool) (x : file) : Prop := ftype x = FD_PIPE ∧ fpipe x = a ∧ fwritable x = w.
Record PV (kend : Z) (t : list file) (ps : gmap Z Pipe.psys) (km : kmem) : Prop := {
  pv_file f x : t !! f = Some x → ftype x = FD_PIPE → freadable x = negb (fwritable x) ∧
    ∃ p, ps !! fpipe x = Some p ∧ end_open (fwritable x) p = true;
  pv_uniq f g x y a w : t !! f = Some x → t !! g = Some y → is_end a w x → is_end a w y → f = g;
  pv_live a p w : ps !! a = Some p → end_open w p = true → ∃ f x, t !! f = Some x ∧ is_end a w x;
  pv_some a p : ps !! a = Some p → end_open true p = true ∨ end_open false p = true;
  pv_mem : ∃ l, KA kend km l ∧ ∀ a p, ps !! a = Some p → page_ok kend a ∧ a ∉ l;
}.
Definition FI (kend : Z) (s : osys) (e : nat → Z) (fr : list nat) : Prop :=
  TI (ftable s) (ofiles s) e fr ∧ PV kend (ftable s) (pipes s) (kms s).
(** What the calls on files leave alone. *)
Definition same_fds (s s' : osys) : Prop := ofiles s' = ofiles s ∧ me s' = me s.

Lemma TI_ext t o e e' fr : (∀ f, e' f = e f) → TI t o e fr → TI t o e' fr.
Proof. intros E []. split; try done; intros; rewrite E; auto. Qed.
Lemma TI_lt t o e fr f x : TI t o e fr → t !! f = Some x → (f < NFILE)%nat.
Proof. intros HT Hf%lookup_lt_Some. by rewrite (ti_len _ _ _ _ HT) in Hf. Qed.
(** An entry whose count changes by [d] with what is held, and which may become
    unfinished or finished. *)
Lemma TI_update t o e fr fr' f x x' d : TI t o e fr → t !! f = Some x → fref x' = fref x + d → (∀ g, g ≠ f → g ∈ fr' ↔ g ∈ fr) →
  (f ∉ fr' → 0 < fref x' ↔ ftype x' ≠ FD_NONE) → (f ∈ fr' → ftype x' = FD_NONE ∧ fref x' = 1) → TI (<[f := x']> t) o (bump e f d) fr'.
Proof.
  intros HT Hf Hr Hsame Hty Hfr. pose proof (TI_lt _ _ _ _ _ _ HT Hf) as Hlt.
  assert (Hl : ∀ g y, <[f := x']> t !! g = Some y → (g = f ∧ y = x') ∨ (g ≠ f ∧ t !! g = Some y)).
  { intros g y [(-> & <- & _)|[Hne H]]%list_lookup_insert_Some; [by left|]. right. split; [|done]. congruence. }
  split.
  - rewrite length_insert. apply HT.
  - intros g y [(-> & ->)|[Hne Hg]]%Hl; unfold bump.
    + rewrite decide_True by done. rewrite Hr, (ti_ref _ _ _ _ HT f x Hf). lia.
    + rewrite decide_False by done. by apply (ti_ref _ _ _ _ HT).
  - intros g Hg. unfold bump. rewrite decide_False by lia. by apply (ti_out _ _ _ _ HT).
  - intros g y [(-> & ->)|[Hne Hg]]%Hl; [done|]. rewrite Hsame by done. by apply (ti_type _ _ _ _ HT).
  - intros g y [(-> & ->)|[Hne Hg]]%Hl; [done|]. rewrite Hsame by done. by apply (ti_fresh _ _ _ _ HT).
Qed.
Lemma TI_descr t o e fr p l i v w : TI t o e fr → o !! p = Some l → l !! i = Some v → (∀ f, w = Some f → (f < NFILE)%nat) →
  TI t (<[p := <[i := w]> l]> o) (λ g, e g + one g v - one g w) fr.
Proof.
  intros HT Hp Hi Hw. assert (E : ∀ g, tot g (<[p := <[i := w]> l]> o) = tot g o - one g v + one g w).
  { intros g. rewrite (tot_insert g o p l) by done. rewrite (cnt_insert g l i v) by done. lia. }
  split; try apply HT.
  - intros f x Hf. rewrite E, (ti_ref _ _ _ _ HT f x Hf). lia.
  - intros f Hf. rewrite E. pose proof (ti_out _ _ _ _ HT f Hf). lia.
Qed.
(** What PV reads of an entry. *)
Definition fview (x : file) := (ftype x, fpipe x, freadable x, fwritable x).
Lemma PV_ext kend t t' ps km : (∀ f, fview <$> t' !! f = fview <$> t !! f) → PV kend t ps km → PV kend t' ps km.
Proof.
  intros E HP. assert (H : ∀ f x, t' !! f = Some x → ∃ y, t !! f = Some y ∧ fview y = fview x).
  { intros f x Hf. specialize (E f). rewrite Hf in E. destruct (t !! f) as [y|]; [|done]. exists y. split; [done|]. cbn in E. congruence. }
  assert (H' : ∀ f y, t !! f = Some y → ∃ x, t' !! f = Some x ∧ fview y = fview x).
  { intros f y Hf. specialize (E f). rewrite Hf in E. destruct (t' !! f) as [x|]; [|done]. exists x. split; [done|]. cbn in E. congruence. }
  assert (He : ∀ a w x y, fview y = fview x → is_end a w x → is_end a w y) by (unfold is_end, fview; intros a w x y [= -> -> _ ->]; done).
  split; try apply HP.
  - intros f x Hf Ht. destruct (H f x Hf) as (y & Hy & [= E1 E2 E3 E4]). rewrite <- E2, <- E3, <- E4. apply (pv_file _ _ _ _ HP f y Hy). congruence.
  - intros f g x y a w Hf Hg Hx Hy. destruct (H f x Hf) as (x' & Hx' & Ex). destruct (H g y Hg) as (y' & Hy' & Ey).
    apply (pv_uniq _ _ _ _ HP f g x' y' a w); try done; by eapply He.
  - intros a p w Ha Hw. destruct (pv_live _ _ _ _ HP a p w Ha Hw) as (f & y & Hf & Hy). destruct (H' f y Hf) as (x & Hx & Ex).
    exists f, x. split; [done|]. by eapply He.
Qed.

(** ** The allocator and the pipes *)
Lemma kfree_pwp kend s l pa : KA kend s l → page_ok kend pa → pa ∉ l → pwp (kfree kend pa) (λ _ s', KA kend s' (pa :: l)) s.
Proof.
  intros HK Hp Hl h k a w' E. destruct (decide (kmem_lock ∈ h)) as [Hin|Hin].
  - exfalso. unfold kfree, when, bind, do_memset, modify, acquire, panic, ret in E. destruct (_ || _); [done|]. cbn in E.
    by rewrite bool_decide_eq_true_2 in E.
  - pose proof (kfree_spec kend s l pa h k HK Hp Hl Hin) as H. unfold wp in H. rewrite E in H. by destruct H as (s' & -> & H & _).
Qed.
Lemma kalloc_pwp kend s l : KA kend s l → pwp kalloc (λ r s', match l with
  | [] => r = 0 ∧ KA kend s' l | pa :: l' => r = pa ∧ KA kend s' l' ∧ page_ok kend pa ∧ pa ∉ l' end) s.
Proof.
  intros HK h k a w' E. destruct (decide (kmem_lock ∈ h)) as [Hin|Hin].
  - exfalso. unfold kalloc, bind, acquire in E. cbn in E. by rewrite bool_decide_eq_true_2 in E.
  - pose proof (kalloc_spec kend s l h k HK Hin) as H. unfold wp in H. rewrite E in H. destruct H as (s' & -> & H).
    destruct l as [|pa l]; [by destruct H as [-> ->]|]. destruct H as (-> & HK' & _). destruct HK as [(_ & Hp & _) Hnd].
    split_and!; try done. by apply NoDup_cons in Hnd as [? _].
Qed.
#[local] Existing Instances Pipe.eta_pipe Pipe.eta_psys.
Definition close_end (w : bool) (p : Pipe.psys) : Pipe.psys :=
  if w then p <| Pipe.pi ::= λ q, q <| Pipe.writeopen := false |> |> else p <| Pipe.pi ::= λ q, q <| Pipe.readopen := false |> |>.
Lemma pwp_notify {S} c Φ (s : S) : Φ () s → pwp (notify c) Φ s.
Proof. intros H h k a w' [= <- <-]. done. Qed.
Lemma pipeclose_pwp w p : pwp (Pipe.pipeclose w) (λ r p', p' = close_end w p ∧ r = negb (end_open (negb w) p)) p.
Proof.
  unfold Pipe.pipeclose. repeat pstep. destruct w; repeat (pstep || apply pwp_notify); (split; [done|]); cbn; [by rewrite andb_true_r|done].
Qed.
Lemma end_open_close w v p : end_open v (close_end w p) = if decide (v = w) then false else end_open v p.
Proof. by destruct v, w. Qed.
Definition unused (x : file) : file := x <| fref := 0 |> <| ftype := FD_NONE |>.
Lemma is_end_fun a a' w w' x : is_end a w x → is_end a' w' x → a = a' ∧ w = w'.
Proof. unfold is_end. intros (_ & <- & <-) (_ & <- & <-). done. Qed.
Section close.
Context {kend : Z} {t : list file} {ps : gmap Z Pipe.psys} {km : kmem} (HP : PV kend t ps km).
Context {f : nat} {x x' : file} {a : Z} {w : bool} {p : Pipe.psys} (Hf : t !! f = Some x) (Hx : is_end a w x) (Hx' : ftype x' = FD_NONE) (Hp : ps !! a = Some p).
Lemma other_files g y : <[f := x']> t !! g = Some y → ftype y = FD_PIPE → g ≠ f ∧ t !! g = Some y.
Proof. intros [(-> & <- & _)|[Hne H]]%list_lookup_insert_Some Hy; [congruence|]. split; [congruence|done]. Qed.
Lemma not_closed g y b v : t !! g = Some y → g ≠ f → is_end b v y → (b, v) ≠ (a, w).
Proof. intros Hg Hne He [= -> ->]. apply Hne. by eapply (pv_uniq _ _ _ _ HP g f y x a w). Qed.
Lemma still_there g y : t !! g = Some y → g ≠ f → <[f := x']> t !! g = Some y.
Proof. intros Hg Hne. by rewrite list_lookup_insert_ne by done. Qed.
Lemma PV_close_one : end_open (negb w) p = true → PV kend (<[f := x']> t) (<[a := close_end w p]> ps) km.
Proof.
  intros Ho. split.
  - intros g y Hg Hy. destruct (other_files g y Hg Hy) as [Hne Hg']. destruct (pv_file _ _ _ _ HP g y Hg' Hy) as (Hr & q & Hq & Hq').
    split; [done|]. assert (Hn : (fpipe y, fwritable y) ≠ (a, w)) by (by eapply not_closed). destruct (decide (fpipe y = a)) as [E|E].
    + rewrite E, lookup_insert_eq. eexists. split; [done|]. rewrite end_open_close. case_decide; [congruence|]. rewrite E, Hp in Hq. congruence.
    + rewrite lookup_insert_ne by done. eauto.
  - intros g g' y y' b v Hg Hg' He He'. destruct (other_files g y Hg (proj1 He)), (other_files g' y' Hg' (proj1 He')). by eapply (pv_uniq _ _ _ _ HP).
  - intros b q v Hb Hv. assert (Hold : ∃ q', ps !! b = Some q' ∧ end_open v q' = true ∧ (b, v) ≠ (a, w)).
    { apply lookup_insert_Some in Hb as [[<- <-]|[Hne Hb]]; [|exists q; split_and!; congruence].
      rewrite end_open_close in Hv. case_decide as E; [done|]. exists p. split_and!; congruence. }
    destruct Hold as (q' & Hq' & Hv' & Hn). destruct (pv_live _ _ _ _ HP b q' v Hq' Hv') as (g & y & Hg & Hy).
    exists g, y. split; [|done]. apply still_there; [done|]. intros ->. rewrite Hf in Hg. injection Hg as <-. by destruct (is_end_fun _ _ _ _ _ Hx Hy) as [-> ->].
  - intros b q [[<- <-]|[Hne Hb]]%lookup_insert_Some; [|by eapply (pv_some _ _ _ _ HP)]. rewrite !end_open_close. destruct w; cbn in Ho |- *; tauto.
  - destruct (pv_mem _ _ _ _ HP) as (l & HK & Hl). exists l. split; [done|].
    intros b q [[<- <-]|[Hne Hb]]%lookup_insert_Some; [by eapply Hl|by eapply Hl].
Qed.
Lemma PV_close_both km' l : end_open (negb w) p = false → KA kend km' (a :: l) → (∀ b q, ps !! b = Some q → page_ok kend b ∧ b ∉ l) →
  PV kend (<[f := x']> t) (delete a ps) km'.
Proof.
  intros Ho HK Hl. assert (Hnone : ∀ g y, t !! g = Some y → g ≠ f → ftype y = FD_PIPE → fpipe y ≠ a).
  { intros g y Hg Hne Hy E. destruct (pv_file _ _ _ _ HP g y Hg Hy) as (_ & q & Hq & Hq'). rewrite E, Hp in Hq. injection Hq as <-.
    assert (Hn : (fpipe y, fwritable y) ≠ (a, w)) by (by eapply not_closed). destruct (fwritable y), w; cbn in *; congruence. }
  split.
  - intros g y Hg Hy. destruct (other_files g y Hg Hy) as [Hne Hg']. destruct (pv_file _ _ _ _ HP g y Hg' Hy) as (Hr & q & Hq & Hq').
    split; [done|]. exists q. split; [|done]. by rewrite lookup_delete_ne by (symmetry; by eapply Hnone).
  - intros g g' y y' b v Hg Hg' He He'. destruct (other_files g y Hg (proj1 He)), (other_files g' y' Hg' (proj1 He')). by eapply (pv_uniq _ _ _ _ HP).
  - intros b q v [Hne Hb]%lookup_delete_Some Hv. destruct (pv_live _ _ _ _ HP b q v Hb Hv) as (g & y & Hg & Hy). exists g, y. split; [|done].
    apply still_there; [done|]. intros ->. rewrite Hf in Hg. injection Hg as <-. by destruct (is_end_fun _ _ _ _ _ Hx Hy) as [-> _].
  - intros b q [Hne Hb]%lookup_delete_Some. by eapply (pv_some _ _ _ _ HP).
  - exists (a :: l). split; [done|]. intros b q [Hne Hb]%lookup_delete_Some. destruct (Hl b q Hb). split; [done|]. intros [?|?]%elem_of_cons; congruence.
Qed.
End close.

(** ** The operations of file.c *)
Section ops.
Context (kend : Z).
Local Abbreviation FI := (FI kend).
Definition keeps (s : osys) (e : nat → Z) (fr : list nat) (s' : osys) : Prop := same_fds s s' ∧ FI s' e fr.
Lemma pwp_fsop {A} (m : M fsys A) Φ s : (∀ a f', Φ a (s <| fss := f' |>)) → pwp (fsop m) Φ s.
Proof. intros H. apply pwp_zoom, pwp_any. done. Qed.
Lemma pwp_getf f Φ s : (∀ x, ftable s !! f = Some x → Φ x s) → pwp (getf f) Φ s.
Proof. intros H. unfold getf. repeat pstep. by apply pwp_nonnull. Qed.
Lemma pwp_setf f g Φ s : (∀ x, ftable s !! f = Some x → Φ () (s <| ftable ::= <[f := g x]> |>)) → pwp (setf f g) Φ s.
Proof. intros H. unfold setf. apply pwp_bind, pwp_getf. intros x Hx. pstep. by apply H. Qed.
Lemma keeps_trans s e fr s1 e1 fr1 s2 : keeps s e fr s1 → keeps s1 e1 fr1 s2 → keeps s e1 fr1 s2.
Proof. intros [[E1 E2] _] [[E3 E4] H]. split; [split; congruence|done]. Qed.

Lemma TI_alloc t o e fr f x : TI t o e fr → t !! f = Some x → fref x = 0 →
  f ∉ fr ∧ TI (<[f := x <| fref := 1 |>]> t) o (bump e f 1) (f :: fr).
Proof.
  intros HT Hf H0. assert (Hn : f ∉ fr) by (intros Hin; destruct (ti_fresh _ _ _ _ HT f x Hf Hin); lia). split; [done|].
  assert (Hty : ftype x = FD_NONE) by (destruct (ftype x) eqn:E; [done| | |]; exfalso; assert (0 < fref x) by (eapply (ti_type _ _ _ _ HT); [done|done|congruence]); lia).
  eapply TI_update; [done|done|cbn; lia| | |by intros _]; [intros g Hg; set_solver|intros Hf'; set_solver].
Qed.
Lemma PV_upd t ps km f x x' : PV kend t ps km → t !! f = Some x → fview x' = fview x → PV kend (<[f := x']> t) ps km.
Proof.
  intros HP Hf E. eapply PV_ext; [|done]. intros g. destruct (decide (g = f)) as [->|Hne].
  - rewrite list_lookup_insert_eq by (by eapply lookup_lt_Some). rewrite Hf. cbn. by rewrite E.
  - by rewrite list_lookup_insert_ne by done.
Qed.
Lemma filealloc_pwp s e fr : FI s e fr → pwp filealloc (λ r s', same_fds s s' ∧
  match r with None => FI s' e fr | Some f => f ∉ fr ∧ FI s' (bump e f 1) (f :: fr) end) s.
Proof.
  intros [HT HP]. unfold filealloc. apply pwp_bind, pwp_acquire. assert (H : ∀ n f, pwp (filealloc_loop n f) (λ r s', same_fds s s' ∧
    match r with None => FI s' e fr | Some f => f ∉ fr ∧ FI s' (bump e f 1) (f :: fr) end) s); [|apply H].
  induction n as [|n IH]; intros f; cbn [filealloc_loop]; [repeat pstep; done|].
  apply pwp_bind, pwp_getf. intros x Hf. destruct (Z.eqb_spec (fref x) 0) as [E|E]; [|apply IH].
  apply pwp_bind, pwp_setf. intros x' Hf'. rewrite Hf in Hf'. injection Hf' as <-. repeat pstep. split; [done|].
  destruct (TI_alloc _ _ _ _ _ _ HT Hf E) as [Hn HT']. split; [done|]. split; [done|]. by eapply PV_upd.
Qed.
Lemma filedup_pwp s e fr f : FI s e fr → f ∉ fr → pwp (filedup f) (λ r s', r = f ∧ keeps s (bump e f 1) fr s') s.
Proof.
  intros [HT HP] Hn. unfold filedup. repeat pstep. apply pwp_getf. intros x Hf. pstep. apply pwp_when; intros Hr; [apply pwp_panic|].
  apply Z.ltb_ge in Hr. pstep. apply pwp_setf. intros x' Hf'. rewrite Hf in Hf'. injection Hf' as <-. repeat pstep.
  split; [done|]. split; [done|]. split; [|by eapply PV_upd]. eapply TI_update; [done|done|done|done| |done].
  intros _. cbn. rewrite <- (ti_type _ _ _ _ HT f x Hf Hn). lia.
Qed.
Lemma pwp_with_pipe {A} a (m : M Pipe.psys A) Φ s : (∀ p, pipes s !! a = Some p → pwp m (λ r q, Φ r (s <| pipes ::= <[a := q]> |>)) p) → pwp (with_pipe a m) Φ s.
Proof. intros H. unfold with_pipe. repeat pstep. apply pwp_nonnull. intros p Hp. apply pwp_zoom. by apply H. Qed.
Lemma PV_drop t ps km f x x' : PV kend t ps km → t !! f = Some x → ftype x ≠ FD_PIPE → ftype x' ≠ FD_PIPE → PV kend (<[f := x']> t) ps km.
Proof.
  intros HP Hf Hx Hx'. assert (Ho : ∀ g y, <[f := x']> t !! g = Some y → ftype y = FD_PIPE → t !! g = Some y).
  { intros g y [(-> & <- & _)|[_ H]]%list_lookup_insert_Some Hy; [done|done]. }
  split; try apply HP.
  - intros g y Hg Hy. apply (pv_file _ _ _ _ HP g y); [by apply Ho|done].
  - intros g g' y y' b v Hg Hg' He He'. apply (pv_uniq _ _ _ _ HP g g' y y' b v); try done; apply Ho; try done; [apply He|apply He'].
  - intros b q v Hb Hv. destruct (pv_live _ _ _ _ HP b q v Hb Hv) as (g & y & Hg & Hy). exists g, y. split; [|done].
    rewrite list_lookup_insert_ne; [done|]. intros ->. rewrite Hf in Hg. injection Hg as <-. by destruct Hy.
Qed.
Lemma filter_keeps f (fr : list nat) g : g ≠ f → g ∈ filter (λ g, g ≠ f) fr ↔ g ∈ fr.
Proof. intros. rewrite list_elem_of_filter. naive_solver. Qed.
Lemma filter_drops f (fr : list nat) : f ∉ filter (λ g, g ≠ f) fr.
Proof. rewrite list_elem_of_filter. naive_solver. Qed.
Lemma TI_drop_one t o e fr f x : TI t o e fr → t !! f = Some x → 1 ≤ fref x → 0 < fref x - 1 →
  TI (<[f := x <| fref ::= λ r, r - 1 |>]> t) o (bump e f (-1)) (filter (λ g, g ≠ f) fr).
Proof.
  intros HT Hf H1 H2. eapply TI_update; [done|done|done|by apply filter_keeps| |intros Hin; by apply filter_drops in Hin].
  intros _. assert (Hn : f ∉ fr) by (intros Hin; destruct (ti_fresh _ _ _ _ HT f x Hf Hin); lia). cbn.
  pose proof (ti_type _ _ _ _ HT f x Hf Hn). split; intros; [|lia]. assert (0 < fref x) by lia. tauto.
Qed.
Lemma TI_drop_last t o e fr f x : TI t o e fr → t !! f = Some x → fref x = 1 →
  TI (<[f := unused x]> t) o (bump e f (-1)) (filter (λ g, g ≠ f) fr).
Proof.
  intros HT Hf H1. eapply TI_update; [done|done|cbn; lia|by apply filter_keeps| |intros Hin; by apply filter_drops in Hin].
  intros _. cbn. split; [lia|done].
Qed.
Lemma pipeclose_keeps s e fr f x x' : TI (<[f := x']> (ftable s)) (ofiles s) e fr → PV kend (ftable s) (pipes s) (kms s) → ftable s !! f = Some x →
  ftype x = FD_PIPE → ftype x' = FD_NONE →
  pwp (pipeclose kend (fpipe x) (fwritable x)) (λ _ s', keeps s e fr s') (s <| ftable ::= <[f := x']> |>).
Proof.
  intros HT HP Hf Hx Hx'. unfold pipeclose. apply pwp_bind, pwp_with_pipe. cbn [pipes set_field]. intros p Hp.
  eapply pwp_mono; [apply pipeclose_pwp|]. intros r q [-> ->]. assert (He : is_end (fpipe x) (fwritable x) x) by done.
  apply pwp_when; intros Ho; [apply negb_true_iff in Ho|apply negb_false_iff in Ho].
  - repeat pstep. destruct (pv_mem _ _ _ _ HP) as (l & HK & Hl). destruct (Hl _ _ Hp) as [Hpo Hpl].
    apply pwp_zoom. eapply pwp_mono; [apply (kfree_pwp kend _ l); [exact HK|done|done]|]. intros [] km' HK'. split; [done|]. split; [done|].
    cbn. rewrite delete_insert_eq. eapply PV_close_both; [done|done|done|done|done|done|done|]. intros b q Hb. by eapply Hl.
  - split; [done|]. split; [done|]. cbn. by eapply PV_close_one.
Qed.
Lemma fileclose_pwp s e fr f : FI s e fr → pwp (fileclose kend f) (λ _ s', keeps s (bump e f (-1)) (filter (λ g, g ≠ f) fr) s') s.
Proof.
  intros [HT HP]. unfold fileclose. repeat pstep. apply pwp_getf. intros x Hf. pstep. apply pwp_when; intros Hr; [apply pwp_panic|].
  apply Z.ltb_ge in Hr. pstep. apply pwp_setf. intros x' Hf'. rewrite Hf in Hf'. injection Hf' as <-. pstep. apply pwp_getf. cbn [ftable set_field].
  intros x1. rewrite list_lookup_insert_eq by (by eapply lookup_lt_Some). intros [= <-]. cbn [fref set_field]. rewrite Z.gtb_ltb.
  destruct (Z.ltb_spec 0 (fref x - 1)) as [Hgt|Hle]; cbn [ftype fpipe fip fwritable set_field].
  - pstep. split; [done|]. split; [by apply TI_drop_one|]. by eapply PV_upd.
  - assert (H1 : fref x = 1) by lia. pstep. apply pwp_setf. cbn [ftable set_field]. intros x1.
    rewrite list_lookup_insert_eq by (by eapply lookup_lt_Some). intros [= <-]. repeat pstep.
    pose proof (TI_drop_last _ _ _ _ _ _ HT Hf H1) as HT'.
    set (s1 := s <| ftable ::= <[f := unused x]> |>).
    assert (Es : s <| ftable ::= <[f := x <| fref ::= λ r, r - 1 |>]> |> <| ftable ::= <[f := unused (x <| fref ::= λ r, r - 1 |>)]> |> = s1).
    { unfold s1, set_field. destruct s. cbn. f_equal. by rewrite list_insert_insert_eq. }
    fold (unused (x <| fref ::= λ r, r - 1 |>)). rewrite Es.
    assert (Hrest : ftype x ≠ FD_PIPE → ∀ f', keeps s (bump e f (-1)) (filter (λ g, g ≠ f) fr) (s1 <| fss := f' |>)).
    { intros Hx f'. split; [done|]. split; [done|]. by eapply PV_drop. }
    destruct (ftype x) eqn:E.
    + apply pwp_ret. rewrite <- E in Hrest. by apply (Hrest ltac:(congruence) (fss s1)).
    + by apply pipeclose_keeps.
    + unfold begin_op, end_op. pstep. apply pwp_fsop. intros _ f1. pstep. apply pwp_fsop. intros _ f2. apply pwp_fsop. intros _ f3. by apply Hrest.
    + unfold begin_op, end_op. pstep. apply pwp_fsop. intros _ f1. pstep. apply pwp_fsop. intros _ f2. apply pwp_fsop. intros _ f3. by apply Hrest.
Qed.

(** ** Calls that change the file system only *)
Definition fsonly {A} (m : M osys A) : Prop := ∀ s (Φ : A → osys → Prop), (∀ a f', Φ a (s <| fss := f' |>)) → pwp m Φ s.
Lemma fsonly_fsop {A} (m : M fsys A) : fsonly (fsop m).
Proof. intros s Φ H. by apply pwp_fsop. Qed.
Lemma fsonly_bind {A B} (m : M osys A) (f : A → M osys B) : fsonly m → (∀ a, fsonly (f a)) → fsonly (bind m f).
Proof. intros Hm Hf s Φ H. apply pwp_bind, Hm. intros a f1. apply Hf. intros c f2. apply (H c f2). Qed.
Lemma fsonly_ret {A} (a : A) : fsonly (ret a).
Proof. intros s Φ H. apply pwp_ret. specialize (H a (fss s)). by destruct s. Qed.
Lemma fsonly_gets {A} (f : osys → A) : fsonly (gets f).
Proof. intros s Φ H. apply pwp_gets. specialize (H (f s) (fss s)). by destruct s. Qed.
Lemma fsonly_nonnull {A} (o : option A) : fsonly (nonnull o).
Proof. destruct o; [apply fsonly_ret|]. intros s Φ H. apply pwp_nonnull. done. Qed.
Lemma fsonly_panic {A} msg : fsonly (panic msg : M osys A).
Proof. intros s Φ H. apply pwp_panic. Qed.
Lemma fsonly_fss (g : fsys → fsys) : fsonly (modify (λ s, s <| fss ::= g |>)).
Proof. intros s Φ H. apply pwp_modify. apply (H () (g (fss s))). Qed.
Ltac fsstep := lazymatch goal with
  | |- fsonly (bind _ _) => apply fsonly_bind; [|intros ?]
  | |- fsonly (ret _) => apply fsonly_ret
  | |- fsonly (gets _) => apply fsonly_gets
  | |- fsonly (fsop _) => apply fsonly_fsop
  | |- fsonly (panic _) => apply fsonly_panic
  | |- fsonly (nonnull _) => apply fsonly_nonnull
  | |- fsonly (modify _) => apply fsonly_fss
  | |- fsonly (if ?c then _ else _) => destruct c
  | |- fsonly (match ?o with None => _ | Some _ => _ end) => destruct o
  | |- fsonly (let '(_, _) := ?x in _) => destruct x
  end.
Lemma argraw_fs n : fsonly (argraw n).
Proof. unfold argraw. repeat fsstep. Qed.
Lemma argint_fs n : fsonly (argint n).
Proof. unfold argint. fsstep; [apply argraw_fs|fsstep]. Qed.
Lemma argstr_fs n buf max : fsonly (argstr n buf max).
Proof. unfold argstr, argaddr, fetchstr. fsstep; [apply argraw_fs|]. repeat fsstep. Qed.
Lemma begin_fs_only : fsonly begin_op. Proof. apply fsonly_fsop. Qed.
Lemma end_fs_only : fsonly end_op. Proof. apply fsonly_fsop. Qed.
Lemma open_fail_fs ip : fsonly (open_fail ip).
Proof. unfold open_fail, end_op. repeat fsstep. Qed.
Lemma link_fs : fsonly sys_link.
Proof. unfold sys_link. fsstep; [apply argstr_fs|]. fsstep; [fsstep|]. fsstep; [apply argstr_fs|]. repeat fsstep. Qed.
Lemma unlink_fs : fsonly sys_unlink.
Proof. unfold sys_unlink. fsstep; [apply argstr_fs|]. repeat fsstep. Qed.
Lemma make_fs t a b : fsonly (make t a b).
Proof. unfold make, end_op. fsstep; [apply argstr_fs|]. repeat fsstep. Qed.
Lemma mkdir_fs : fsonly sys_mkdir.
Proof. unfold sys_mkdir. fsstep; [apply begin_fs_only|apply make_fs]. Qed.
Lemma mknod_fs : fsonly sys_mknod.
Proof. unfold sys_mknod. fsstep; [apply begin_fs_only|]. fsstep; [apply argint_fs|]. fsstep; [apply argint_fs|apply make_fs]. Qed.
Lemma chdir_fs : fsonly sys_chdir.
Proof. unfold sys_chdir, begin_op, end_op. fsstep; [fsstep|]. fsstep; [apply argstr_fs|]. repeat fsstep. Qed.
Lemma filestat_fs f addr : fsonly (filestat f addr).
Proof. unfold filestat, getf, copyout. fsstep; [repeat fsstep|]. destruct (ftype _); repeat fsstep. Qed.

(** ** Reading and writing *)
Definition same_ends (p q : Pipe.psys) : Prop := ∀ w, end_open w q = end_open w p.
Lemma write_while_ends killed copyin k : ∀ i n p, pwp (Pipe.write_while killed copyin k i n) (λ _ q, same_ends p q) p.
Proof.
  induction k as [|k IH]; intros i n p; cbn [Pipe.write_while]; unfold Pipe.write_end; (destruct (i <? n); [|repeat (pstep || apply pwp_notify); done]).
  { intros h k' a w'. done. }
  repeat pstep. destruct (_ || _); [repeat pstep; done|]. destruct (_ =? _); [repeat (pstep || apply pwp_notify); done|].
  destruct (copyin i); [|repeat (pstep || apply pwp_notify); done]. repeat pstep. eapply pwp_mono; [apply IH|].
  intros ? q H w. rewrite H. by destruct w.
Qed.
Lemma read_for_ends copyout k : ∀ i n p, pwp (Pipe.read_for copyout k i n) (λ _ q, same_ends p q) p.
Proof.
  induction k as [|k IH]; intros i n p; cbn [Pipe.read_for]; unfold Pipe.read_end; (destruct (i <? n); [|repeat (pstep || apply pwp_notify); done]).
  { intros h k' a w'. done. }
  repeat pstep. destruct (_ =? _); [repeat (pstep || apply pwp_notify); done|]. pstep. apply pwp_nonnull. intros ch _. repeat pstep.
  assert (Hs : same_ends p (Pipe.take_out ch (copyout i ch) p)) by (intros w; by destruct w).
  destruct (copyout i ch); [|repeat (pstep || apply pwp_notify); done]. eapply pwp_mono; [apply IH|]. intros ? q H w. by rewrite H.
Qed.
Lemma PV_pipe t ps km a p q : PV kend t ps km → ps !! a = Some p → same_ends p q → PV kend t (<[a := q]> ps) km.
Proof.
  intros HP Ha Hs. assert (Hl : ∀ b r, <[a := q]> ps !! b = Some r → ∃ r0, ps !! b = Some r0 ∧ same_ends r0 r).
  { intros b r [[<- <-]|[_ H]]%lookup_insert_Some; [by exists p|by exists r]. }
  split; try apply HP.
  - intros f x Hf Hx. destruct (pv_file _ _ _ _ HP f x Hf Hx) as (Hr & r & Hr1 & Hr2). split; [done|]. destruct (decide (fpipe x = a)) as [E|Hne].
    + rewrite E, lookup_insert_eq. exists q. split; [done|]. rewrite Hs. congruence.
    + rewrite lookup_insert_ne by done. eauto.
  - intros b r w Hb Hw. destruct (Hl b r Hb) as (r0 & H0 & E). apply (pv_live _ _ _ _ HP b r0 w H0). by rewrite <- E.
  - intros b r Hb. destruct (Hl b r Hb) as (r0 & H0 & E). rewrite !E. by apply (pv_some _ _ _ _ HP b).
  - destruct (pv_mem _ _ _ _ HP) as (l & HK & Hm). exists l. split; [done|]. intros b r Hb. destruct (Hl b r Hb) as (r0 & H0 & _). by eapply Hm.
Qed.
Lemma keeps_refl s e fr : FI s e fr → keeps s e fr s.
Proof. by split. Qed.
Lemma waits_pwp c x Φ (s : osys) : (∀ r, Φ r s) → pwp (waits c x) Φ s.
Proof. intros H. destruct x; cbn; pstep; auto. Qed.
Lemma pipewrite_keeps s e fr pi addr n : FI s e fr → pwp (pipewrite pi addr n) (λ _ s', keeps s e fr s') s.
Proof.
  intros [HT HP]. unfold pipewrite. repeat pstep. apply pwp_with_pipe. intros p Hp. unfold Pipe.pipewrite. repeat pstep.
  eapply pwp_mono; [apply write_while_ends|]. intros x q Hs. apply waits_pwp. intros _. split; [done|]. split; [done|]. by eapply PV_pipe.
Qed.
Lemma piperead_ends killed copyout n p : pwp (Pipe.piperead killed copyout n) (λ _ q, same_ends p q) p.
Proof.
  unfold Pipe.piperead. repeat pstep. destruct (_ && _); [destruct (killed 0); repeat pstep; done|]. apply read_for_ends.
Qed.
Lemma piperead_keeps s e fr pi addr n : FI s e fr → pwp (piperead pi addr n) (λ _ s', keeps s e fr s') s.
Proof.
  intros [HT HP]. unfold piperead. repeat pstep. apply pwp_with_pipe. intros p Hp.
  eapply pwp_mono; [apply piperead_ends|]. intros x q Hs. repeat pstep. apply pwp_nonnull. intros p1 _. repeat pstep. apply pwp_nonnull. intros p2 _.
  repeat pstep. apply waits_pwp. intros _. split; [done|]. split; [done|]. by eapply PV_pipe.
Qed.
Lemma FI_offset s e fr f x o : FI s e fr → ftable s !! f = Some x → FI (s <| ftable ::= <[f := x <| foff := o |>]> |>) e fr.
Proof.
  intros [HT HP] Hf. split; [|by eapply PV_upd]. eapply TI_ext; [|eapply (TI_update _ _ _ _ fr f x _ 0); [done|done|cbn; lia|done| |]].
  - intros g. unfold bump. case_decide; lia.
  - exact (ti_type _ _ _ _ HT f x Hf).
  - exact (ti_fresh _ _ _ _ HT f x Hf).
Qed.
(** Device functions change no file, pipe or descriptor. *)
Definition device_ok (dev : Z → option (Z → Z → M osys Z)) : Prop :=
  ∀ major f addr n s, dev major = Some f → pwp (f addr n) (λ _ s', ∃ fs, s' = s <| fss := fs |>) s.
Lemma fileread_keeps dev s e fr f addr n : device_ok dev → FI s e fr → pwp (fileread dev f addr n) (λ _ s', keeps s e fr s') s.
Proof.
  intros Hd HI. unfold fileread. pstep. apply pwp_getf. intros x Hf. destruct (freadable x); cbn [negb]; [|pstep; by apply keeps_refl].
  destruct (ftype x).
  - pstep.
  - by apply piperead_keeps.
  - pstep. apply pwp_fsop. intros _ f1. pstep. apply pwp_getf. intros x1 Hx1. pstep. apply pwp_fsop. intros r f2. pstep.
    apply pwp_when; intros Hr; [apply pwp_setf; intros x2 Hx2|]; pstep; apply pwp_fsop; intros _ f3; pstep; split; try done. by apply FI_offset.
  - destruct (_ || _); [pstep; by apply keeps_refl|]. destruct (dev (fmajor x)) as [g|] eqn:E; [|pstep; by apply keeps_refl].
    eapply pwp_mono; [by eapply Hd|]. intros ? s' [fs ->]. by split.
Qed.
Lemma write_chunk_keeps s e fr f addr n : FI s e fr → pwp (write_chunk f addr n) (λ _ s', keeps s e fr s') s.
Proof.
  intros HI. unfold write_chunk, begin_op, end_op. pstep. apply pwp_fsop. intros _ f0. pstep. apply pwp_getf. intros x Hf. pstep. apply pwp_fsop. intros _ f1.
  pstep. apply pwp_getf. intros x1 Hx1. pstep. apply pwp_fsop. intros r f2. pstep.
  apply pwp_when; intros Hr; [apply pwp_setf; intros x2 Hx2|]; pstep; apply pwp_fsop; intros _ f3; pstep; apply pwp_fsop; intros _ f4; pstep; split; try done. by apply FI_offset.
Qed.
Lemma filewrite_keeps dev s e fr f addr n : device_ok dev → FI s e fr → pwp (filewrite dev f addr n) (λ _ s', keeps s e fr s') s.
Proof.
  intros Hd HI. unfold filewrite. pstep. apply pwp_getf. intros x Hf. destruct (fwritable x); cbn [negb]; [|pstep; by apply keeps_refl].
  destruct (ftype x).
  - pstep.
  - by apply pipewrite_keeps.
  - pstep. assert (H : ∀ k i s1, keeps s e fr s1 → pwp (filewrite_loop k f addr i n) (λ _ s', keeps s e fr s') s1).
    { induction k as [|k IH]; intros i s1 H1; cbn [filewrite_loop]; (destruct (i <? n); [|by pstep]); [intros h k a w'; done|].
      cbv zeta. pstep. eapply pwp_mono; [apply write_chunk_keeps, H1|]. intros r s2 H2. pose proof (keeps_trans _ _ _ _ _ _ _ H1 H2) as H3.
      destruct (negb _); [by pstep|by apply IH]. }
    eapply pwp_mono; [by apply H, keeps_refl|]. intros r s1 H1. destruct (r =? n); by pstep.
  - destruct (_ || _); [pstep; by apply keeps_refl|]. destruct (dev (fmajor x)) as [g|] eqn:E; [|pstep; by apply keeps_refl].
    eapply pwp_mono; [by eapply Hd|]. intros ? s' [fs ->]. by split.
Qed.

(** ** pipealloc *)
Lemma FI_ext s e e' fr fr' : (∀ f, e' f = e f) → (∀ g, g ∈ fr' ↔ g ∈ fr) → FI s e fr → FI s e' fr'.
Proof.
  intros E Ef [HT HP]. split; [|done]. eapply TI_ext; [exact E|]. split; try apply HT.
  - intros f x Hf Hn. eapply (ti_type _ _ _ _ HT); [done|]. by rewrite <- Ef.
  - intros f x Hf Hn. eapply (ti_fresh _ _ _ _ HT); [done|]. by rewrite <- Ef.
Qed.
Definition new_pipe : Pipe.psys :=
  Pipe.mkPsys (Pipe.pipe_init (Pipe.mkPipe (repeat 5 (Z.to_nat Pipe.PIPESIZE)) 0 0 false false)) [] [].
Definition pipe_end (w : bool) (a : Z) (x : file) : file :=
  x <| ftype := FD_PIPE |> <| freadable := negb w |> <| fwritable := w |> <| fpipe := a |>.
Lemma PV_new t ps km km' a b xa xb pi l : PV kend t ps km → t !! a = Some xa → t !! b = Some xb → a ≠ b → ftype xa = FD_NONE → ftype xb = FD_NONE →
  KA kend km' l → (∀ x p, ps !! x = Some p → page_ok kend x ∧ x ∉ pi :: l) → page_ok kend pi → pi ∉ l →
  PV kend (<[b := pipe_end true pi xb]> (<[a := pipe_end false pi xa]> t)) (<[pi := new_pipe]> ps) km'.
Proof.
  intros HP Ha Hb Hab Hxa Hxb HK Hps Hpok Hpl. set (t' := <[b := _]> _).
  assert (Hfresh : ps !! pi = None) by (destruct (ps !! pi) eqn:E; [destruct (Hps _ _ E); set_solver|done]).
  assert (Hl : ∀ f x, t' !! f = Some x → ftype x = FD_PIPE → (f = b ∧ x = pipe_end true pi xb) ∨ (f = a ∧ x = pipe_end false pi xa) ∨ (f ≠ a ∧ f ≠ b ∧ t !! f = Some x)).
  { intros f x Hf Hx. apply list_lookup_insert_Some in Hf as [(-> & <- & _)|[Hne Hf]]; [by left|]. right.
    apply list_lookup_insert_Some in Hf as [(-> & <- & _)|[Hne' Hf]]; [by left|]. right. split_and!; congruence. }
  assert (Hold : ∀ f x, t !! f = Some x → ftype x = FD_PIPE → fpipe x ≠ pi ∧ t' !! f = Some x).
  { intros f x Hf Hx. destruct (pv_file _ _ _ _ HP f x Hf Hx) as (_ & p & Hp & _). split; [congruence|]. unfold t'.
    rewrite !list_lookup_insert_ne by congruence. done. }
  assert (Hta : t' !! a = Some (pipe_end false pi xa)).
  { unfold t'. rewrite list_lookup_insert_ne by done. apply list_lookup_insert_eq. by eapply lookup_lt_Some. }
  assert (Htb : t' !! b = Some (pipe_end true pi xb)).
  { unfold t'. apply list_lookup_insert_eq. rewrite length_insert. by eapply lookup_lt_Some. }
  split.
  - intros f x Hf Hx. destruct (Hl f x Hf Hx) as [(-> & ->)|[(-> & ->)|(_ & _ & Hf')]]; cbn.
    + rewrite lookup_insert_eq. split; [done|]. by exists new_pipe.
    + rewrite lookup_insert_eq. split; [done|]. by exists new_pipe.
    + destruct (Hold f x Hf' Hx) as [Hne _]. rewrite lookup_insert_ne by done. by apply (pv_file _ _ _ _ HP f x).
  - intros f g x y c w Hf Hg Hx Hy. pose proof Hx as (Tx & Px & Wx). pose proof Hy as (Ty & Py & Wy).
    destruct (Hl f x Hf Tx) as [(-> & ->)|[(-> & ->)|(_ & _ & Hf')]], (Hl g y Hg Ty) as [(-> & ->)|[(-> & ->)|(_ & _ & Hg')]]; try done; cbn in *; subst; try done.
    all: first [by destruct (Hold g y Hg' Ty) | by destruct (Hold f x Hf' Tx) | by eapply (pv_uniq _ _ _ _ HP f g x y)].
  - intros c p w [[<- <-]|[Hne Hc]]%lookup_insert_Some Hw.
    + destruct w; [exists b, (pipe_end true pi xb)|exists a, (pipe_end false pi xa)]; done.
    + destruct (pv_live _ _ _ _ HP c p w Hc Hw) as (f & x & Hf & Hx). exists f, x. split; [|done]. apply Hold; [done|apply Hx].
  - intros c p [[<- <-]|[Hne Hc]]%lookup_insert_Some; [by left|by eapply (pv_some _ _ _ _ HP)].
  - exists l. split; [done|]. intros c p [[<- <-]|[Hne Hc]]%lookup_insert_Some; [done|]. destruct (Hps c p Hc). split; [done|set_solver].
Qed.
Lemma bump_back e f g : bump (bump e f 1) f (-1) g = e g.
Proof. unfold bump. repeat case_decide; lia. Qed.
Lemma pipealloc_pwp s e : FI s e [] → pwp (pipealloc kend) (λ r s', same_fds s s' ∧
  match r with None => FI s' e [] | Some (a, b) => FI s' (bump (bump e a 1) b 1) [] end) s.
Proof.
  intros HI. unfold pipealloc, pipealloc_bad, close_opt. pstep. eapply pwp_mono; [apply filealloc_pwp, HI|]. intros [a|] s1 [Hs1 H1]; [|repeat pstep; done].
  destruct H1 as [_ H1]. pstep. eapply pwp_mono; [apply filealloc_pwp, H1|]. intros [b|] s2 [Hs2 H2].
  2:{ pstep. eapply pwp_mono; [apply fileclose_pwp, H2|]. intros ? s3 [Hs3 H3]. repeat pstep. split; [destruct Hs1, Hs2, Hs3; split; congruence|].
      eapply FI_ext; [| |exact H3]; intros g; [by rewrite bump_back|]. rewrite list_elem_of_filter. set_solver. }
  destruct H2 as [Hab H2]. pstep. destruct H2 as [HT HP]. destruct (pv_mem _ _ _ _ HP) as (l & HK & Hl).
  assert (Hab' : a ≠ b) by set_solver. apply pwp_zoom. eapply pwp_mono; [apply (kalloc_pwp kend), HK|]. intros pi km' Hpi.
  assert (Hbad : FI (s2 <| kms := km' |>) (bump (bump e a 1) b 1) [b; a] → pwp (fileclose kend a;; fileclose kend b;; ret (None : option (nat * nat)))
    (λ r s', same_fds s s' ∧ match r with None => FI s' e [] | Some (a, b) => FI s' (bump (bump e a 1) b 1) [] end) (s2 <| kms := km' |>)).
  { intros H2. pstep. eapply pwp_mono; [apply fileclose_pwp, H2|]. intros ? s3 [Hs3 H3]. pstep. eapply pwp_mono; [apply fileclose_pwp, H3|].
    intros ? s4 [Hs4 H4]. pstep. split; [destruct Hs1, Hs2, Hs3, Hs4; split; cbn in *; congruence|].
    eapply FI_ext; [| |exact H4]; intros g; [unfold bump; repeat case_decide; subst; try done; lia|]. rewrite !list_elem_of_filter. set_solver. }
  destruct l as [|q l]; destruct Hpi as [-> Hpi].
  { cbn [Z.eqb]. apply Hbad. split; [done|]. cbn. split; try apply HP. by exists []. }
  destruct Hpi as (HK' & Hqok & Hql). assert (Hq0 : q ≠ 0) by (destruct Hqok; lia). rewrite (proj2 (Z.eqb_neq q 0)) by done.
  repeat pstep. apply pwp_setf. cbn [ftable set_field]. intros xa Ha. repeat pstep. apply pwp_setf. cbn [ftable set_field]. intros xb Hb.
  rewrite list_lookup_insert_ne in Hb by done. repeat pstep. split; [destruct Hs1, Hs2; split; cbn; congruence|].
  destruct (ti_fresh _ _ _ _ HT a xa Ha) as [Ta Ra]; [set_solver|]. destruct (ti_fresh _ _ _ _ HT b xb Hb) as [Tb Rb]; [set_solver|]. split.
  - cbn. eapply TI_ext; [|eapply (TI_update _ _ _ [b] [] b xb _ 0); [eapply (TI_update _ _ _ [b; a] [b] a xa _ 0)|..]]; try done; cbn; try lia.
    + intros g. unfold bump. repeat case_decide; lia.
    + intros g Hg. set_solver.
    + intros _. split; [done|lia].
    + intros Hin. set_solver.
    + by rewrite list_lookup_insert_ne by done.
    + intros g Hg. set_solver.
    + intros _. split; [done|lia].
    + intros Hin. set_solver.
  - cbn. by eapply (PV_new _ _ _ _ a b xa xb q l).
Qed.
End ops.
