(* ===== verification/FdSpec.v ===== *)
(** * Descriptors: every system call of kernel/sysfile.c keeps the file table
    consistent with the descriptors of all processes, and so do fork and exit *)
From S2P Require Import Prelude Param CString Mem Kalloc Bio Log Ring Pipe Fs File SysFile FileSpec.
Import Fs File SysFile.

Section fds.
Context (kend : Z).
Local Abbreviation FI := (FI kend).
(** No call is running. *)
Definition zero : nat → Z := λ _, 0.
Definition FI0 (s : osys) : Prop := FI s zero [].

Lemma pwp_my_ofile Φ s : (∀ l, ofiles s !! me s = Some l → Φ l s) → pwp my_ofile Φ s.
Proof. intros H. unfold my_ofile. repeat pstep. by apply pwp_nonnull. Qed.
Lemma pwp_argraw n Φ s : (∀ v, Φ v s) → pwp (argraw n) Φ s.
Proof. intros H. unfold argraw. destruct (n <? 6)%nat; repeat pstep. by apply pwp_nonnull. Qed.
Lemma pwp_argint n Φ s : (∀ v, Φ v s) → pwp (argint n) Φ s.
Proof. intros H. unfold argint. pstep. apply pwp_argraw. intros v. by pstep. Qed.
Lemma pwp_argfd n Φ s : Φ None s → (∀ l fd f, ofiles s !! me s = Some l → l !! fd = Some (Some f) → Φ (Some (fd, f)) s) → pwp (argfd n) Φ s.
Proof.
  intros H0 H1. unfold argfd. pstep. apply pwp_argint. intros v. destruct (_ || _); [by pstep|]. pstep. apply pwp_my_ofile. intros l Hl.
  pstep. apply pwp_nonnull. intros o Ho. destruct o as [f|]; pstep; eauto.
Qed.
Lemma open_lt s l fd f : FI0 s → ofiles s !! me s = Some l → l !! fd = Some (Some f) → (f < NFILE)%nat.
Proof.
  intros [HT _] Hl Hf. destruct (Nat.lt_ge_cases f NFILE) as [|Hge]; [done|]. pose proof (ti_out _ _ _ _ HT f Hge).
  pose proof (tot_in f (ofiles s) (me s) l fd Hl Hf). unfold zero in *. lia.
Qed.
Lemma set_ofile_pwp s e fr l fd o v : FI s e fr → ofiles s !! me s = Some l → l !! fd = Some o → (∀ f, v = Some f → (f < NFILE)%nat) →
  pwp (set_ofile fd v) (λ _ s', FI s' (λ g, e g + one g o - one g v) fr ∧ s' = s <| ofiles ::= <[me s := <[fd := v]> l]> |>) s.
Proof.
  intros [HT HP] Hl Hfd Hv. unfold set_ofile. pstep. apply pwp_my_ofile. intros l' Hl'. rewrite Hl in Hl'. injection Hl' as <-. pstep.
  split; [|done]. split; [|done]. by apply TI_descr.
Qed.
Lemma fdalloc_pwp s e fr f : FI s e fr → (f < NFILE)%nat → pwp (fdalloc f) (λ r s', match r with
  | None => s' = s
  | Some fd => FI s' (bump e f (-1)) fr ∧ ∃ l, ofiles s !! me s = Some l ∧ l !! fd = Some None ∧ s' = s <| ofiles ::= <[me s := <[fd := Some f]> l]> |>
  end) s.
Proof.
  intros HI Hf. unfold fdalloc. generalize NOFILE, 0%nat. induction n as [|n IH]; intros fd; cbn [fdalloc_loop]; [by pstep|].
  pstep. apply pwp_my_ofile. intros l Hl. pstep. apply pwp_nonnull. intros [g|] Hg; [apply IH|].
  pstep. eapply pwp_mono; [eapply (set_ofile_pwp s e fr l fd None (Some f) HI Hl Hg); by intros ? [= <-]|]. intros ? s' [H' ->]. pstep.
  split; [|eauto]. eapply FI_ext; [| |exact H']; [|done]. intros g. unfold bump, one. repeat case_decide; simplify_eq; lia.
Qed.
Lemma dup_keeps s : FI0 s → pwp sys_dup (λ _ s', FI0 s') s.
Proof.
  intros HI. unfold sys_dup. pstep. apply pwp_argfd; [by pstep|]. intros l fd f Hl Hf. pose proof (open_lt s l fd f HI Hl Hf) as Hlt.
  pstep. eapply pwp_mono; [by apply fdalloc_pwp|]. intros [fd'|] s1 H1; [|pstep; by subst]. destruct H1 as [H1 _]. pstep.
  eapply pwp_mono; [apply filedup_pwp; [exact H1|set_solver]|]. intros ? s2 [_ [_ H2]]. pstep. eapply FI_ext; [| |exact H2]; [|done].
  intros g. unfold bump, zero. repeat case_decide; lia.
Qed.
Lemma close_keeps s : FI0 s → pwp (sys_close kend) (λ _ s', FI0 s') s.
Proof.
  intros HI. unfold sys_close. pstep. apply pwp_argfd; [by pstep|]. intros l fd f Hl Hf. pstep.
  eapply pwp_mono; [by eapply set_ofile_pwp|]. intros ? s1 [H1 _]. pstep. eapply pwp_mono; [apply fileclose_pwp, H1|].
  intros ? s2 [_ H2]. pstep. eapply FI_ext; [| |exact H2]; [|intros g; rewrite list_elem_of_filter; set_solver].
  intros g. unfold bump, one, zero. repeat case_decide; simplify_eq; lia.
Qed.
(** Giving up the two files of a pipe. *)
Lemma close_both_keeps s rf wf : FI s (bump (bump zero rf 1) wf 1) [] →
  pwp (fileclose kend rf;; fileclose kend wf;; ret (-1)) (λ _ s', FI0 s') s.
Proof.
  intros HI. pstep. eapply pwp_mono; [apply fileclose_pwp, HI|]. intros ? s1 [_ H1]. pstep. eapply pwp_mono; [apply fileclose_pwp, H1|].
  intros ? s2 [_ H2]. pstep. eapply FI_ext; [| |exact H2]; [|intros g; rewrite !list_elem_of_filter; set_solver].
  intros g. unfold bump, zero. repeat case_decide; lia.
Qed.
Lemma end_lt s e fr f : FI s e fr → (∀ g, 0 ≤ e g) → 0 < e f → (f < NFILE)%nat.
Proof.
  intros [HT _] He Hf. destruct (Nat.lt_ge_cases f NFILE) as [|Hge]; [done|]. pose proof (ti_out _ _ _ _ HT f Hge). pose proof (tot_nonneg f (ofiles s)). lia.
Qed.
Lemma pwp_copyout dst src len Φ (s : osys) : (∀ r f', Φ r (s <| fss := f' |>)) → pwp (copyout dst src len) Φ s.
Proof. intros H. by apply pwp_fsop. Qed.
Lemma list_insert_at {A} (l : list A) i (o v : A) : l !! i = Some o → <[i := v]> l !! i = Some v.
Proof. intros H. apply list_lookup_insert_eq. by eapply lookup_lt_Some. Qed.
Lemma pipe_keeps s : FI0 s → pwp (sys_pipe kend) (λ _ s', FI0 s') s.
Proof.
  intros HI. unfold sys_pipe, argaddr. pstep. apply pwp_argraw. intros fdarray. pstep. eapply pwp_mono; [by apply pipealloc_pwp|].
  intros [[rf wf]|] s1 [_ H1]; [|by pstep]. cbv zeta. set (e1 := bump (bump zero rf 1) wf 1) in *.
  assert (He : ∀ g, 0 ≤ e1 g) by (intros g; unfold e1, bump, zero; repeat case_decide; lia).
  assert (Hrf : (rf < NFILE)%nat) by (eapply end_lt; [exact H1|done|]; unfold e1, bump, zero; repeat case_decide; done || lia).
  assert (Hwf : (wf < NFILE)%nat) by (eapply end_lt; [exact H1|done|]; unfold e1, bump, zero; repeat case_decide; done || lia).
  pstep. eapply pwp_mono; [by apply fdalloc_pwp|]. intros [fd0|] s2 H2; [|subst s2; by apply close_both_keeps].
  destruct H2 as (H2 & l & Hl & Hfd0 & Es2). assert (Hl2 : ofiles s2 !! me s2 = Some (<[fd0 := Some rf]> l)) by (rewrite Es2; cbn; by eapply list_insert_at).
  pstep. eapply pwp_mono; [by apply fdalloc_pwp|]. intros [fd1|] s3 H3.
  - destruct H3 as (H3 & l' & Hl' & Hfd1 & Es3). rewrite Hl2 in Hl'. injection Hl' as <-.
    assert (Hne : fd1 ≠ fd0) by (intros ->; rewrite (list_insert_at l fd0 None) in Hfd1; done).
    assert (Hl3 : ofiles s3 !! me s3 = Some (<[fd1 := Some wf]> (<[fd0 := Some rf]> l))) by (rewrite Es3; cbn; by eapply list_insert_at).
    assert (H30 : FI0 s3) by (eapply FI_ext; [| |exact H3]; [|done]; intros g; unfold e1, bump, zero; repeat case_decide; lia).
    assert (Hundo : ∀ f1, pwp (set_ofile fd0 None;; set_ofile fd1 None;; fileclose kend rf;; fileclose kend wf;; ret (-1)) (λ _ s', FI0 s') (s3 <| fss := f1 |>)).
    { intros f1. set (s3' := s3 <| fss := f1 |>). assert (H31 : FI s3' zero []) by exact H30. assert (Hl31 : ofiles s3' !! me s3' = Some (<[fd1 := Some wf]> (<[fd0 := Some rf]> l))) by exact Hl3.
      pstep. eapply pwp_mono; [eapply (set_ofile_pwp s3' zero [] _ fd0 (Some rf) None H31 Hl31)|].
      - rewrite list_lookup_insert_ne by done. by eapply list_insert_at.
      - done.
      - intros ? s4 [H4 Es4]. pstep. eapply pwp_mono; [eapply (set_ofile_pwp s4 _ [] (<[fd0 := None]> (<[fd1 := Some wf]> (<[fd0 := Some rf]> l))) fd1 (Some wf) None H4)|].
        + rewrite Es4. cbn. by eapply list_insert_at.
        + rewrite list_lookup_insert_ne by done. eapply (list_insert_at _ _ None). by rewrite list_lookup_insert_ne in Hfd1 |- *.
        + done.
        + intros ? s5 [H5 _]. apply close_both_keeps. eapply FI_ext; [| |exact H5]; [|done]. intros g. unfold bump, one, zero. repeat case_decide; simplify_eq; lia. }
    pstep. apply pwp_copyout. intros r f1. pstep. destruct (r <? 0) eqn:Er.
    + pstep. rewrite Er. apply Hundo.
    + apply pwp_copyout. intros r' f2. destruct (r' <? 0); [apply (Hundo f2)|pstep; exact H30].
  - subst s3. pstep. eapply pwp_mono; [eapply (set_ofile_pwp s2 _ [] _ fd0 (Some rf) None H2 Hl2); [by eapply list_insert_at|done]|].
    intros ? s4 [H4 _]. apply close_both_keeps. eapply FI_ext; [| |exact H4]; [|done]. intros g. unfold e1, bump, one, zero. repeat case_decide; simplify_eq; lia.
Qed.
Lemma fsonly_keeps {A} (m : M osys A) s : fsonly m → FI0 s → pwp m (λ _ s', FI0 s') s.
Proof. intros Hm HI. apply Hm. done. Qed.
(** An entry that is given a type, not that of a pipe. *)
Lemma FI_typed s e fr f x x' : FI s e fr → ftable s !! f = Some x → fref x' = fref x → 0 < fref x →
  ftype x ≠ FD_PIPE → ftype x' ≠ FD_PIPE → ftype x' ≠ FD_NONE → FI (s <| ftable ::= <[f := x']> |>) e (filter (λ g, g ≠ f) fr).
Proof.
  intros [HT HP] Hf Hr Hpos Hp Hp' Hn. split; [|by eapply PV_drop].
  eapply TI_ext; [|eapply (TI_update _ _ _ _ _ f x _ 0); [done|done|lia|by apply filter_keeps| |intros Hin; by apply filter_drops in Hin]].
  - intros g. unfold bump. case_decide; lia.
  - intros _. rewrite Hr. done.
Qed.
Lemma open_inode_keeps ip omode s : FI0 s → pwp (open_inode kend ip omode) (λ _ s', FI0 s') s.
Proof.
  intros HI. unfold open_inode. pstep. apply pwp_fsop. intros i f1. assert (H1 : FI0 (s <| fss := f1 |>)) by exact HI. set (s1 := s <| fss := f1 |>) in *.
  destruct (_ && _); [by apply fsonly_keeps, H1; apply open_fail_fs|]. pstep. eapply pwp_mono; [by apply filealloc_pwp|].
  intros [f|] s2 [_ H2]; [|by apply fsonly_keeps, H2; apply open_fail_fs]. destruct H2 as [_ H2].
  assert (Hlt : (f < NFILE)%nat) by (eapply end_lt; [exact H2|intros g|]; unfold bump, zero; repeat case_decide; (lia || done)).
  pstep. eapply pwp_mono; [by apply fdalloc_pwp|]. intros [fd|] s3 H3.
  2:{ subst s3. pstep. eapply pwp_mono; [apply fileclose_pwp, H2|]. intros ? s4 [_ H4]. apply fsonly_keeps; [apply open_fail_fs|].
      eapply FI_ext; [| |exact H4]; intros g; [by rewrite bump_back|]. rewrite list_elem_of_filter. set_solver. }
  destruct H3 as (H3 & _). assert (H30 : FI s3 zero [f]) by (eapply FI_ext; [| |exact H3]; [|done]; intros g; by rewrite bump_back).
  assert (Hset : pwp (if itype i =? T_DEVICE then setf f (λ x, x <| ftype := FD_DEVICE |> <| fmajor := imajor i |>)
      else setf f (λ x, x <| ftype := FD_INODE |> <| foff := 0 |>)) (λ _ s', FI0 s' ∧ ∃ x, ftable s' !! f = Some x ∧ fref x = 1 ∧ ftype x ≠ FD_PIPE ∧ ftype x ≠ FD_NONE) s3).
  { assert (Hx : ∀ x g, ftable s3 !! f = Some x → fref (g x) = fref x → ftype (g x) ≠ FD_PIPE → ftype (g x) ≠ FD_NONE →
      FI0 (s3 <| ftable ::= <[f := g x]> |>) ∧ ∃ y, ftable (s3 <| ftable ::= <[f := g x]> |>) !! f = Some y ∧ fref y = 1 ∧ ftype y ≠ FD_PIPE ∧ ftype y ≠ FD_NONE).
    { intros x g Hx Hr Hp Hn. destruct (ti_fresh _ _ _ _ (proj1 H30) f x Hx) as [Tx Rx]; [set_solver|]. split.
      - eapply FI_ext; [| |eapply (FI_typed _ _ _ _ _ _ H30 Hx Hr); [lia|congruence|done|done]]; [done|]. intros g'. rewrite list_elem_of_filter. set_solver.
      - exists (g x). split_and!; [cbn; by eapply list_insert_at|lia|done|done]. }
    destruct (itype i =? T_DEVICE); apply pwp_setf; intros x Hxx; by apply (Hx x (λ x, _)). }
  pstep. eapply pwp_mono; [exact Hset|]. clear Hset. intros ? s4 (H4 & y & Hy & Ry & Py & Ny). cbv zeta. pstep. apply pwp_setf. intros y' Hy'.
  rewrite Hy in Hy'. injection Hy' as <-. set (s5 := s4 <| ftable ::= _ |>).
  assert (H5 : FI0 s5) by (eapply FI_ext; [| |eapply (FI_typed _ _ _ _ _ _ H4 Hy); [done|lia|done|done|done]]; [done|]; intros g; rewrite list_elem_of_filter; set_solver).
  unfold end_op. pstep. apply pwp_when; intros _; [apply pwp_fsop; intros _ f5|]; pstep; apply pwp_fsop; intros _ f6; pstep; apply pwp_fsop; intros _ f7; pstep; exact H5.
Qed.
Lemma open_keeps s : FI0 s → pwp (sys_open kend) (λ _ s', FI0 s') s.
Proof.
  intros HI. unfold sys_open, begin_op, end_op. pstep. apply pwp_argint. intros omode. pstep. apply argstr_fs. intros n f1. destruct (n <? 0); [by pstep|].
  pstep. apply pwp_fsop. intros _ f2. destruct (negb _).
  - pstep. apply pwp_fsop. intros [ip|] f3; [by apply open_inode_keeps|]. pstep. apply pwp_fsop. intros _ f4. by pstep.
  - pstep. apply pwp_fsop. intros [ip|] f3; [|pstep; apply pwp_fsop; intros _ f4; by pstep]. pstep. apply pwp_fsop. intros _ f4.
    pstep. apply pwp_fsop. intros i f5. destruct (_ && _); [by apply fsonly_keeps; [apply open_fail_fs|]|by apply open_inode_keeps].
Qed.
End fds.
