(* ===== verification/FdSys.v ===== *)
(** * The system of processes and open files

    Processes fork, exit and make the system calls of kernel/sysfile.c in any
    order. In every state they reach, each open descriptor names an entry of the
    file table that is in use, the counts are exact, and the pipes that exist are
    those with an open end. *)
From S2P Require Import Prelude Param CString Mem Kalloc Bio Log Ring Pipe Fs File SysFile FileSpec FdSpec.
Import Fs File SysFile.

(** ** A call changes the descriptors of its own process only *)
Definition own_fds (s s' : osys) : Prop :=
  me s' = me s ∧ length <$> ofiles s' = length <$> ofiles s ∧ ∀ q, q ≠ me s → ofiles s' !! q = ofiles s !! q.
#[export] Instance own_fds_refl : Reflexive own_fds.
Proof. by intros s. Qed.
#[export] Instance own_fds_trans : Transitive own_fds.
Proof.
  intros s1 s2 s3 (E1 & L1 & H1) (E2 & L2 & H2). split; [congruence|]. split; [congruence|]. intros q Hq. rewrite H2 by congruence. by apply H1.
Qed.
Definition mine {A} (m : M osys A) : Prop := ∀ s, pwp m (λ _ s', own_fds s s') s.
Lemma mine_bind {A B} (m : M osys A) (f : A → M osys B) : mine m → (∀ a, mine (f a)) → mine (bind m f).
Proof.
  intros Hm Hf s. apply pwp_bind. eapply pwp_mono; [apply Hm|]. intros a s1 H1. eapply pwp_mono; [apply Hf|]. intros ? s2 H2. exact (transitivity H1 H2).
Qed.
Lemma mine_modify (g : osys → osys) : (∀ s, same_fds s (g s)) → mine (modify g).
Proof. intros H s. apply pwp_modify. destruct (H s) as [E1 E2]. split; [done|]. by rewrite E1. Qed.
Lemma mine_pure {A} (m : M osys A) : (∀ s, pwp m (λ _ s', s' = s) s) → mine m.
Proof. intros H s. eapply pwp_mono; [apply H|]. by intros ? s' ->. Qed.
Lemma mine_zoom {T A} (get : osys → T) (put : T → osys → osys) (m : M T A) : (∀ t s, same_fds s (put t s)) → mine (zoom get put m).
Proof. intros H s. apply pwp_zoom, pwp_any. intros _ t. destruct (H t s) as [E1 E2]. split; [done|]. by rewrite E1. Qed.
Lemma mine_only {A} (m : M osys A) : fsonly m → mine m.
Proof. intros Hm s. by apply Hm. Qed.
Lemma mine_ofile fd v : mine (set_ofile fd v).
Proof.
  intros s. unfold set_ofile. pstep. apply pwp_my_ofile. intros l Hl. pstep. split; [done|]. split; cbn.
  - rewrite list_fmap_insert, length_insert. apply list_insert_id. by rewrite list_lookup_fmap, Hl.
  - intros q Hq. by rewrite list_lookup_insert_ne.
Qed.
(** The calls are walked down their syntax, each definition opened at its head. *)
Ltac head_sym t := lazymatch t with ?f _ => head_sym f | _ => t end.
Ltac mstep := lazymatch goal with
  | |- mine (bind _ _) => apply mine_bind; [|intros ?]
  | |- mine (ret _) => apply mine_pure; intros ?; by apply pwp_ret
  | |- mine (gets _) => apply mine_pure; intros ?; by apply pwp_gets
  | |- mine (nonnull _) => apply mine_pure; intros ?; by apply pwp_nonnull
  | |- mine (panic _) => apply mine_pure; intros ?; apply pwp_panic
  | |- mine (blocked _) => apply mine_pure; intros ?; apply pwp_blocked
  | |- mine timeout => intros ?; by intros ?
  | |- mine (acquire _) => apply mine_pure; intros ?; by apply pwp_acquire
  | |- mine (release _) => apply mine_pure; intros ?; by apply pwp_release
  | |- mine (modify _) => apply mine_modify; by intros ?
  | |- mine (zoom _ _ _) => apply mine_zoom; by intros ?
  | |- mine (fsop _) => apply mine_only, fsonly_fsop
  | |- mine (memop _) => apply mine_zoom; by intros ?
  | |- mine (when ?c _) => destruct c; cbn [when]
  | |- mine (set_ofile _ _) => apply mine_ofile
  | |- mine (argstr _ _ _) => apply mine_only, argstr_fs
  | |- mine (filestat _ _) => apply mine_only, filestat_fs
  | |- mine (if ?c then _ else _) => destruct c
  | |- mine (match ?o with _ => _ end) => destruct o eqn:?
  | |- mine ?m => let h := head_sym m in unfold h
  end.
Section calls.
Context (kend : Z).
Context (devsw_read devsw_write : Z → option (Z → Z → M osys Z)).
Lemma mine_filealloc : mine filealloc.
Proof. unfold filealloc. mstep; [mstep|]. generalize NFILE, 0%nat. induction n as [|n IH]; intros f; cbn [filealloc_loop]; repeat (apply IH || mstep). Qed.
Lemma mine_fdalloc f : mine (fdalloc f).
Proof. unfold fdalloc. generalize NOFILE, 0%nat. induction n as [|n IH]; intros i; cbn [fdalloc_loop]; repeat (apply IH || mstep). Qed.
Lemma mine_fileclose f : mine (fileclose kend f).
Proof. repeat mstep. Qed.
Lemma mine_filewrite_loop k f addr : ∀ i n, mine (filewrite_loop k f addr i n).
Proof. induction k as [|k IH]; intros i n; cbn [filewrite_loop]; repeat (apply IH || mstep). Qed.
Lemma mine_device dev major f addr n : device_ok dev → dev major = Some f → mine (f addr n).
Proof. intros Hd Hf s. eapply pwp_mono; [by eapply Hd|]. by intros ? ? [fs ->]. Qed.
Context (Hread : device_ok devsw_read) (Hwrite : device_ok devsw_write).
Ltac mcall := repeat (apply mine_filealloc || apply mine_fdalloc || apply mine_fileclose || apply mine_filewrite_loop || (eapply mine_device; [|eassumption]; assumption) || mstep).
Lemma mine_pipe : mine (sys_pipe kend).
Proof. mcall. Qed.
Lemma mine_read : mine (sys_read devsw_read).
Proof. mcall. Qed.
Lemma mine_write : mine (sys_write devsw_write).
Proof. mcall. Qed.
Lemma mine_open : mine (sys_open kend).
Proof. mcall. Qed.
Lemma mine_call num m : file_calls kend devsw_read devsw_write num = Some m → mine m.
Proof.
  intros Hm. unfold file_calls in Hm. destruct num as [|p|]; try done.
  repeat (destruct p as [p|p|]; try done); injection Hm as <-;
    first [apply mine_pipe|apply mine_read|apply mine_write|apply mine_open
      |apply mine_only; first [apply link_fs|apply unlink_fs|apply mkdir_fs|apply mknod_fs|apply chdir_fs]|mcall].
Qed.

(** ** Every call keeps the file table exact *)
Lemma read_keeps s : FI0 kend s → pwp (sys_read devsw_read) (λ _ s', FI0 kend s') s.
Proof.
  intros HI. unfold sys_read, argaddr. pstep. apply pwp_argraw. intros p. pstep. apply pwp_argint. intros n. pstep. apply pwp_argfd; [by pstep|].
  intros l fd f _ _. eapply pwp_mono; [by apply fileread_keeps|]. by intros ? s' [_ H].
Qed.
Lemma write_keeps s : FI0 kend s → pwp (sys_write devsw_write) (λ _ s', FI0 kend s') s.
Proof.
  intros HI. unfold sys_write, argaddr. pstep. apply pwp_argraw. intros p. pstep. apply pwp_argint. intros n. pstep. apply pwp_argfd; [by pstep|].
  intros l fd f _ _. eapply pwp_mono; [by apply filewrite_keeps|]. by intros ? s' [_ H].
Qed.
Lemma fstat_keeps s : FI0 kend s → pwp sys_fstat (λ _ s', FI0 kend s') s.
Proof.
  intros HI. unfold sys_fstat, argaddr. pstep. apply pwp_argraw. intros p. pstep. apply pwp_argfd; [by pstep|].
  intros l fd f _ _. by apply fsonly_keeps; [apply filestat_fs|].
Qed.
Lemma call_keeps num m s : file_calls kend devsw_read devsw_write num = Some m → FI0 kend s → pwp m (λ _ s', FI0 kend s') s.
Proof.
  intros Hm HI. unfold file_calls in Hm. destruct num as [|p|]; try done.
  repeat (destruct p as [p|p|]; try done); injection Hm as <-;
    first [by apply pipe_keeps|by apply read_keeps|by apply write_keeps|by apply fstat_keeps|by apply open_keeps|by apply dup_keeps|by apply close_keeps
      |apply fsonly_keeps; [|done]; first [apply link_fs|apply unlink_fs|apply mkdir_fs|apply mknod_fs|apply chdir_fs]].
Qed.
End calls.

Section procs.
Context (kend : Z).
(** fork: the child, with no descriptor yet from [i] on, gets the parent's. *)
Definition closed_from (i : nat) (l : list (option nat)) : Prop := ∀ j f, (i ≤ j)%nat → l !! j ≠ Some (Some f).
Lemma fork_keeps n np : ∀ i s l, FI0 kend s → np ≠ me s → ofiles s !! np = Some l → closed_from i l → (i + n)%nat = length l →
  pwp (fork_files n i np) (λ _ s', FI0 kend s' ∧ me s' = me s ∧ length <$> ofiles s' = length <$> ofiles s ∧ ∀ q, q ≠ np → ofiles s' !! q = ofiles s !! q) s.
Proof.
  induction n as [|n IH]; intros i s l HI Hne Hl Hc Hn; cbn [fork_files]; [by pstep|].
  pstep. apply pwp_my_ofile. intros lp Hlp. pstep. apply pwp_nonnull. intros [f|] Hf.
  2:{ pstep. pstep. eapply IH; [done|done|done| |lia]. intros j g Hj. apply Hc. lia. }
  pose proof (open_lt kend s lp i f HI Hlp Hf) as Hlt. pstep. pstep. eapply pwp_mono; [apply filedup_pwp; [exact HI|set_solver]|].
  intros ? s1 (_ & [Eo Em] & H1). unfold set_child. pstep. pstep. pstep. apply pwp_nonnull. intros l1 Hl1. rewrite Eo, Hl in Hl1. injection Hl1 as <-. pstep.
  set (s2 := s1 <| ofiles ::= _ |>). assert (Hi : l !! i = Some None).
  { destruct (l !! i) as [[g|]|] eqn:E; [by destruct (Hc i g)|done|]. apply lookup_ge_None in E. lia. }
  assert (Eo2 : ofiles s2 = <[np := <[i := Some f]> l]> (ofiles s)) by (unfold s2; cbn; by rewrite Eo).
  assert (H2 : FI0 kend s2).
  { destruct H1 as [HT HP]. split; [|exact HP]. rewrite Eo in HT. change (ftable s2) with (ftable s1). rewrite Eo2.
    eapply TI_ext; [|eapply (TI_descr _ _ _ _ np l i None (Some f)); [exact HT|done|done|by intros ? [= <-]]].
    intros g. unfold bump, one, zero. repeat case_decide; simplify_eq; lia. }
  eapply pwp_mono; [eapply (IH (S i) s2 (<[i := Some f]> l)); [done| | | |]|].
  - change (me s2) with (me s1). congruence.
  - rewrite Eo2. by eapply list_insert_at.
  - intros j g Hj. rewrite list_lookup_insert_ne by lia. apply Hc. lia.
  - rewrite length_insert. lia.
  - intros ? s3 (H3 & E3 & L3 & F3). split_and!; [done|by rewrite E3| |].
    + rewrite L3, Eo2, list_fmap_insert, length_insert. apply list_insert_id. by rewrite list_lookup_fmap, Hl.
    + intros q Hq. rewrite (F3 q Hq), Eo2. by rewrite list_lookup_insert_ne.
Qed.
(** exit: the process closes its descriptors one by one. *)
Lemma exit_keeps n : ∀ fd s l, FI0 kend s → ofiles s !! me s = Some l → (∀ j f, (j < fd)%nat → l !! j ≠ Some (Some f)) → (fd + n)%nat = length l →
  pwp (exit_files kend n fd) (λ _ s', FI0 kend s' ∧ ∃ l', ofiles s' !! me s = Some l' ∧ closed_from 0 l') s.
Proof.
  induction n as [|n IH]; intros fd s l HI Hl Hc Hn; cbn [exit_files].
  { pstep. split; [done|]. exists l. split; [done|]. intros j f _ Hj. apply (Hc j f); [|done]. apply lookup_lt_Some in Hj. lia. }
  pstep. apply pwp_my_ofile. intros l1 Hl1. rewrite Hl in Hl1. injection Hl1 as <-. pstep. apply pwp_nonnull. intros [f|] Hf.
  2:{ pstep. pstep. eapply IH; [done|done| |lia]. intros j g Hj. destruct (decide (j = fd)) as [->|]; [congruence|apply Hc; lia]. }
  pstep. pstep. eapply pwp_mono; [apply fileclose_pwp, HI|]. intros ? s1 ([Eo Em] & H1).
  assert (Hl1 : ofiles s1 !! me s1 = Some l) by (by rewrite Eo, Em).
  eapply pwp_mono; [eapply (set_ofile_pwp kend s1 _ _ l fd (Some f) None H1 Hl1 Hf); done|]. intros ? s2 [H2 Es2].
  assert (Em2 : me s2 = me s) by (by rewrite Es2). rewrite <- Em2. eapply (IH (S fd) s2 (<[fd := None]> l)).
  - eapply FI_ext; [| |exact H2]; [intros g|intros g; rewrite list_elem_of_filter; set_solver]. unfold bump, one, zero. repeat case_decide; simplify_eq; lia.
  - rewrite Es2. cbn. by eapply list_insert_at.
  - intros j g Hj. destruct (decide (j = fd)) as [->|Hne]; [by rewrite (list_insert_at l fd (Some f))|]. rewrite list_lookup_insert_ne by done. apply Hc. lia.
  - rewrite length_insert. lia.
Qed.
Lemma mine_exit n : ∀ fd, mine (exit_files kend n fd).
Proof. induction n as [|n IH]; intros fd; cbn [exit_files]; repeat (apply IH || apply mine_fileclose || mstep). Qed.
End procs.

(** ** The system *)
Section system.
Context (kend : Z) (devsw_read devsw_write : Z → option (Z → Z → M osys Z)).
(** A call that returns, made with no lock held. *)
Definition returns {A} (m : M osys A) (s : osys) : option (A * osys) :=
  match m (World [] [] s) with Done a w => Some (a, st w) | _ => None end.
Lemma pwp_returns {A} (m : M osys A) Φ s a s' : pwp m Φ s → returns m s = Some (a, s') → Φ a s'.
Proof. intros H E. unfold returns in E. destruct (m _) eqn:Em; try done. injection E as <- <-. by eapply H. Qed.
(** The state, with the processes that have been forked and have not exited. *)
Definition sysst : Type := osys * gset nat.
Inductive step : sysst → sysst → Prop :=
  | step_call s lv num m r s' : me s ∈ lv → file_calls kend devsw_read devsw_write num = Some m →
      returns m s = Some (r, s') → step (s, lv) (s' <| args ::= <[0%nat := u64 r]> |>, lv)
  | step_fork s lv np s' : me s ∈ lv → np ∉ lv → (np < NPROC)%nat → returns (fork_files NOFILE 0 np) s = Some ((), s') →
      step (s, lv) (s', {[np]} ∪ lv)
  | step_exit s lv s' : me s ∈ lv → returns (exit_files kend NOFILE 0) s = Some ((), s') → step (s, lv) (s', lv ∖ {[me s]})
  (** The rest of the kernel runs: another process, with its registers and
      memory, other pages allocated and freed. *)
  | step_other s lv s' l : ftable s' = ftable s → ofiles s' = ofiles s → pipes s' = pipes s → (me s' < NPROC)%nat →
      KA kend (kms s') l → (∀ a p, pipes s !! a = Some p → a ∉ l) → step (s, lv) (s', lv).
(** After fileinit and userinit. *)
Definition boot (s : osys) (p : nat) : Prop :=
  ftable s = repeat file0 NFILE ∧ ofiles s = repeat (repeat None NOFILE) NPROC ∧ pipes s = ∅ ∧ me s = p ∧ (p < NPROC)%nat ∧ ∃ l, KA kend (kms s) l.
Record SysI (x : sysst) : Prop := {
  si_files : FI0 kend x.1;
  si_len : length <$> ofiles x.1 = repeat NOFILE NPROC;
  si_dead q l : q ∉ x.2 → ofiles x.1 !! q = Some l → closed_from 0 l;
  si_me : (me x.1 < NPROC)%nat;
}.
Lemma cnt_none f n : cnt f (repeat None n) = 0.
Proof. induction n as [|n IH]; cbn; [done|]. rewrite IH. done. Qed.
Lemma tot_none f n k : tot f (repeat (repeat None n) k) = 0.
Proof. induction k as [|k IH]; [done|]. cbn [repeat tot]. by rewrite cnt_none, IH. Qed.
Lemma repeat_at {A} (a b : A) n i : repeat a n !! i = Some b → b = a.
Proof. revert i. induction n as [|n IH]; intros [|i] H; cbn in H; [done|done|by injection H|by eapply IH]. Qed.
Lemma boot_SysI s p : boot s p → SysI (s, {[p]}).
Proof.
  intros (Ht & Ho & Hp & Hm & Hlt & l & HK). split; cbn [fst snd].
  - split; [split|split].
    + by rewrite Ht, repeat_length.
    + intros f x. rewrite Ht, Ho, tot_none. intros ->%repeat_at. done.
    + intros f _. rewrite Ho, tot_none. done.
    + intros f x. rewrite Ht. intros ->%repeat_at _. done.
    + set_solver.
    + intros f x. rewrite Ht. intros ->%repeat_at. done.
    + intros f g x y a w. rewrite Ht. intros ->%repeat_at _ [? _]. done.
    + intros a q w. rewrite Hp. done.
    + intros a q. rewrite Hp. done.
    + exists l. split; [done|]. intros a q. by rewrite Hp.
  - rewrite Ho. done.
  - intros q l' _. rewrite Ho. intros ->%repeat_at j f _ Hj%repeat_at. done.
  - by subst.
Qed.
Lemma len_at s q : length <$> ofiles s = repeat NOFILE NPROC → (q < NPROC)%nat → ∃ l, ofiles s !! q = Some l ∧ length l = NOFILE.
Proof.
  intros HL Hq. assert (Hl : length (ofiles s) = NPROC) by (by rewrite <- (length_fmap length), HL, repeat_length).
  destruct (lookup_lt_is_Some_2 (ofiles s) q) as [l El]; [lia|]. exists l. split; [done|].
  apply (repeat_at NOFILE (length l) NPROC q). by rewrite <- HL, list_lookup_fmap, El.
Qed.
Context (Hread : device_ok devsw_read) (Hwrite : device_ok devsw_write).
Lemma step_SysI x y : step x y → SysI x → SysI y.
Proof.
  destruct 1 as [s lv num m r s' Hme Hm E|s lv np s' Hme Hnp Hlt E|s lv s' Hme E|s lv s' l Et Eo Ep Hme HK Hl]; intros [HI HL HD HM]; cbn [fst snd] in *.
  - pose proof (pwp_returns _ _ _ _ _ (call_keeps _ _ _ Hread Hwrite _ _ _ Hm HI) E) as HI'.
    pose proof (pwp_returns _ _ _ _ _ (mine_call _ _ _ Hread Hwrite _ _ Hm s) E) as (E1 & E2 & E3).
    split; cbn [fst snd]; [exact HI'|exact (eq_trans E2 HL)| |cbn; by rewrite E1]. intros q l Hq Hl. apply (HD q); [done|]. rewrite <- E3; [done|set_solver].
  - destruct (len_at s np HL Hlt) as (l & Hl & Ll). assert (Hne : np ≠ me s) by set_solver.
    destruct (pwp_returns _ _ _ _ _ (fork_keeps kend NOFILE np 0 s l HI Hne Hl (HD _ _ Hnp Hl) ltac:(lia)) E) as (HI' & E1 & E2 & E3).
    split; cbn [fst snd]; [done|exact (eq_trans E2 HL)| |by rewrite E1]. intros q lq Hq Hlq. rewrite E3 in Hlq by set_solver. apply (HD q); [set_solver|done].
  - destruct (len_at s (me s) HL HM) as (l & Hl & Ll).
    destruct (pwp_returns _ _ _ _ _ (exit_keeps kend NOFILE 0 s l HI Hl ltac:(lia) ltac:(lia)) E) as (HI' & l' & Hl' & Hc).
    pose proof (pwp_returns _ _ _ _ _ (mine_exit kend NOFILE 0 s) E) as (E1 & E2 & E3).
    split; cbn [fst snd]; [done|exact (eq_trans E2 HL)| |by rewrite E1]. intros q lq Hq Hlq. destruct (decide (q = me s)) as [->|Hne]; [rewrite Hl' in Hlq; by injection Hlq as <-|].
    rewrite E3 in Hlq by done. apply (HD q); [set_solver|done].
  - split; cbn [fst snd]; [|congruence| |done].
    + destruct HI as [HT HP]. split; [by rewrite Et, Eo|]. rewrite Et, Ep. split; try apply HP. exists l. split; [done|].
      intros a p Hp. destruct (pv_mem _ _ _ _ HP) as (l0 & _ & H0). split; [by eapply H0|by eapply Hl].
    + rewrite Eo. exact HD.
Qed.
End system.

(** C7: the file table is exact in every state the system reaches, whatever the
    processes do. An open descriptor of any process names an entry with a type
    and a count of at least one, so the checks of fileclose, filedup, fileread
    and filewrite that end in a panic cannot fire on it. The count of an entry
    is the number of descriptors that name it, over all processes; an entry
    counts none exactly when it is free. A pipe exists exactly while an open file is one of its
    ends, each end is open in the pipe exactly when some file is that end, and
    the page of a pipe is never on the free list. A process that has exited, or
    was not forked yet, has no open descriptor. *)
Theorem descriptors_exact kend devsw_read devsw_write s0 p0 s lv : device_ok devsw_read → device_ok devsw_write → boot kend s0 p0 →
  rtc (step kend devsw_read devsw_write) (s0, {[p0]}) (s, lv) →
  (∀ p l fd f, ofiles s !! p = Some l → l !! fd = Some (Some f) → p ∈ lv ∧ ∃ x, ftable s !! f = Some x ∧ ftype x ≠ FD_NONE ∧ 1 ≤ fref x) ∧
  (∀ f x, ftable s !! f = Some x → fref x = tot f (ofiles s) ∧ (fref x = 0 ↔ ftype x = FD_NONE)) ∧
  (∀ a w, (∃ p, pipes s !! a = Some p ∧ end_open w p = true) ↔ ∃ f x, ftable s !! f = Some x ∧ is_end a w x) ∧
  (∀ a p, pipes s !! a = Some p → ∃ w, end_open w p = true) ∧
  (∃ l, KA kend (kms s) l ∧ ∀ a p, pipes s !! a = Some p → a ∉ l).
Proof.
  intros Hr Hw Hb Hs. assert (HI : SysI kend (s, lv)).
  { eapply (rtc_ind_l (λ x, SysI kend x → SysI kend (s, lv))); [done| |exact Hs|by apply boot_SysI]. intros x y Hxy _ IH Hx. apply IH. exact (step_SysI _ _ _ Hr Hw _ _ Hxy Hx). }
  destruct HI as [[HT HP] _ HD _]. cbn [fst snd] in *. split_and!.
  - intros p l fd f Hl Hf. pose proof (tot_in f _ p l fd Hl Hf) as Ht. split.
    { destruct (decide (p ∈ lv)) as [|Hn]; [done|]. by destruct (HD p l Hn Hl fd f (Nat.le_0_l _)). }
    destruct (Nat.lt_ge_cases f NFILE) as [Hlt|Hge]; [|pose proof (ti_out _ _ _ _ HT f Hge); unfold zero in *; lia].
    destruct (lookup_lt_is_Some_2 (ftable s) f) as [x Hx]; [by rewrite (ti_len _ _ _ _ HT)|]. pose proof (ti_ref _ _ _ _ HT f x Hx) as Er.
    exists x. unfold zero in Er. split_and!; [done| |lia]. apply (ti_type _ _ _ _ HT f x Hx); [set_solver|lia].
  - intros f x Hx. pose proof (ti_ref _ _ _ _ HT f x Hx) as Er. unfold zero in Er. split; [lia|]. pose proof (tot_nonneg f (ofiles s)).
    destruct (ti_type _ _ _ _ HT f x Hx ltac:(set_solver)) as [H1 H2]. split; [|intros E; destruct (Z.eq_dec (fref x) 0); [done|by destruct H1; [lia|]]].
    intros E. destruct (decide (ftype x = FD_NONE)) as [|Hn]; [done|]. specialize (H2 Hn). lia.
  - intros a w. split; [intros (p & Hp & Ho); by eapply pv_live|]. intros (f & x & Hx & Hty & <- & <-).
    by destruct (pv_file _ _ _ _ HP f x Hx Hty) as (_ & p & Hp & Ho); eauto.
  - intros a p Hp. destruct (pv_some _ _ _ _ HP a p Hp); eauto.
  - destruct (pv_mem _ _ _ _ HP) as (l & HK & Hl). exists l. split; [done|]. intros a p Hp. by destruct (Hl a p Hp).
Qed.

(** A machine with one free page, in which the first process makes a pipe and
    forks, and its child, scheduled, closes the read end. *)
Definition demo_fs : fsys := mkFs (mkLsys (mkBsys [] ∅ [] 1) (mkLog 2 30 0 false ROOTDEV (mkLh 0 []))) [] (mkSb FSMAGIC 2000 1954 200 30 2 32 45) 0 ∅ ∅ (λ _, true).
Definition demo_boot : osys := mkOsys demo_fs (mkKmem 0x87fff000 ∅) (repeat file0 NFILE) ∅ (repeat (repeat None NOFILE) NPROC) 0 false 8192 [4096; 0; 0; 0; 0; 0].
Definition no_device : Z → option (Z → Z → M osys Z) := λ _, None.
Definition end_of {A} (m : M osys A) (s : osys) : osys := match returns m s with Some (_, s') => s' | None => s end.
Definition demo_piped : osys := (end_of (sys_pipe 0x80021000) demo_boot) <| args ::= <[0%nat := 0]> |>.
Definition demo_forked : osys := end_of (fork_files NOFILE 0 1) demo_piped.
Definition demo_child : osys := demo_forked <| me := 1%nat |> <| args := [0; 0; 0; 0; 0; 0] |>.
Definition demo_closed : osys := (end_of (sys_close 0x80021000) demo_child) <| args ::= <[0%nat := 0]> |>.
Lemma returns_end {A} (m : M osys A) s a : fst <$> returns m s = Some a → returns m s = Some (a, end_of m s).
Proof. unfold end_of. destruct (returns m s) as [[r s']|]; [|done]. by intros [= <-]. Qed.
Lemma switch_step kend dr dw s lv p a l : (p < NPROC)%nat → KA kend (kms s) l → (∀ a p, pipes s !! a = Some p → a ∉ l) →
  step kend dr dw (s, lv) (s <| me := p |> <| args := a |>, lv).
Proof. intros Hp HK Hl. by eapply step_other. Qed.
Lemma demo_pipe_reached : rtc (step 0x80021000 no_device no_device) (demo_boot, {[0%nat]}) (demo_closed, {[1%nat]} ∪ {[0%nat]}).
Proof.
  eapply rtc_l; [apply (step_call _ _ _ demo_boot _ 4 (sys_pipe 0x80021000) 0 (end_of (sys_pipe 0x80021000) demo_boot)); [set_solver|done|]|].
  { refine (returns_end _ _ _ _). vm_compute. reflexivity. }
  eapply rtc_l; [apply (step_fork _ _ _ demo_piped _ 1 demo_forked); [|set_solver|unfold NPROC; lia|]|].
  { apply elem_of_singleton. vm_compute. reflexivity. }
  { refine (returns_end (fork_files NOFILE 0 1) demo_piped () _). vm_compute. reflexivity. }
  eapply rtc_l; [apply (switch_step _ _ _ demo_forked _ 1 [0; 0; 0; 0; 0; 0] []); [unfold NPROC; lia|split; [vm_compute; reflexivity|apply NoDup_nil_2]|intros a p _; apply not_elem_of_nil]|].
  apply rtc_once. apply (step_call _ _ _ demo_child _ 21 (sys_close 0x80021000) 0 (end_of (sys_close 0x80021000) demo_child)); [set_solver|done|].
  refine (returns_end _ _ _ _). vm_compute. reflexivity.
Qed.
Lemma no_device_ok : device_ok no_device.
Proof. by intros ?. Qed.
Lemma demo_started : boot 0x80021000 demo_boot 0.
Proof. split_and!; try done; [unfold NPROC; lia|]. exists [0x87fff000]. split; [|apply NoDup_singleton]. vm_compute. by repeat split. Qed.
Lemma descriptors_exact_witness : (∀ f x, ftable demo_closed !! f = Some x → fref x = tot f (ofiles demo_closed) ∧ (fref x = 0 ↔ ftype x = FD_NONE)) ∧
  fref <$> ftable demo_closed !! 0%nat = Some 1 ∧ fref <$> ftable demo_closed !! 1%nat = Some 2.
Proof.
  destruct (descriptors_exact 0x80021000 no_device no_device demo_boot 0 demo_closed _ no_device_ok no_device_ok demo_started demo_pipe_reached) as (_ & H & _).
  split; [exact H|vm_compute; split; reflexivity].
Defined.
