(* ===== verification/Proc.v ===== *)
(** * Processes: allocproc, freeproc, userinit, growproc, fork, exit, wait

    The functions of kernel/proc.c that tie the parts of the kernel together.
    The state is the process table and the run queue (Sched.v), and what
    File.v has: the open files, the file system and the kernel's memory with
    its free list and page tables. The array [ofile] of process [i] is row [i]
    of [ofiles]. A call that switches away is cut at its [swtch], as in
    Sched.v. *)
From S2P Require Import Prelude Param ProcData RBTree Sched CString Mem Kalloc Vm ProcVm Bio Log Fs File SysFile.
Import Fs File.

Module Proc.
Record ksys := mkKsys { sch : sched; os : osys }.
#[export] Instance eta_ksys : Settable ksys := λ s, mkKsys (sch s) (os s).

(** ** The parts of the state *)
Definition sop {A} (m : M sched A) : M ksys A := zoom sch (λ x s, s <| sch := x |>) m.
Definition mop {A} (m : M kmem A) : M ksys A := zoom (λ s, kms (os s)) (λ k s, s <| os ::= λ o, o <| kms := k |> |>) m.
(** A file system operation; the kernel's variables are at addresses below the
    pages that kalloc hands out. *)
Definition fop {A} (m : M fsys A) : M ksys A := zoom (λ s, fss (os s)) (λ f s, s <| os ::= λ o, o <| fss := f |> |>) m.
(** What File.v and SysFile.v see of the process [i] that runs: its number, size,
    current directory, pid and argument registers. *)
Definition args_of (m : mem) (tf : Z) : list Z := (λ n, ld64 m (tf + 112 + 8 * Z.of_nat n)) <$> seq 0 6.
Definition view (i : nat) (s : ksys) : osys :=
  match procs (sch s) !! i with
  | None => os s
  | Some p =>
      (os s) <| File.me := i |> <| File.killed := negb (ProcData.killed p =? 0) |> <| psz := sz p |>
             <| args := args_of (ram (kms (os s))) (trapframe p) |>
             <| fss ::= λ f, f <| Fs.cwd := default 0%nat (ProcData.cwd p) |>
                               <| ls ::= λ l, l <| Log.bs ::= λ b, b <| Bio.me := pid p |> |> |> |>
  end.
Definition oop {A} (i : nat) (m : M osys A) : M ksys A := zoom (view i) (λ o s, s <| os := o |>) m.
Definition get {A} (f : proc → A) (i : nat) : M ksys A := sop (rd f (Some i)).
Definition put (i : nat) (g : proc → proc) : M ksys unit := sop (wr (Some i) g).
Definition me : M ksys nat := p ← sop myproc; nonnull p.

(** ** struct trapframe: kernel/proc.h *)
Definition TF_KERNEL_SATP : Z := 0.
Definition TF_KERNEL_SP : Z := 8.
Definition TF_KERNEL_TRAP : Z := 16.
Definition TF_EPC : Z := 24.
Definition TF_KERNEL_HARTID : Z := 32.
Definition TF_SP : Z := 48.
Definition TF_A0 : Z := 112.
Definition TF_A1 : Z := 120.
Definition TF_A7 : Z := 168.
(** [sizeof(struct trapframe)]. *)
Definition TRAPFRAME_SIZE : Z := 288.
Definition tf_load (tf off : Z) : M ksys Z := mop (gets (λ k, ld64 (ram k) (tf + off))).
Definition tf_store (tf off v : Z) : M ksys unit := mop (modify (λ k, k <| ram ::= λ m, st64 m (tf + off) v |>)).

(** ** Names

    [safestrcpy] of the [name] arrays, which are lists here. *)
Fixpoint put_name (m : mem) (a : Z) (l : list Z) : mem :=
  match l with [] => m | c :: l => put_name (wrb m a c) (a + 1) l end.
Definition name_bytes (m : mem) (a : Z) : list Z := (λ i, rdb m (a + Z.of_nat i)) <$> seq 0 16.
(** [safestrcpy(dst, src, sizeof(dst))], [dst] being [char[16]]. *)
Definition name_copy (dst src : list Z) : list Z :=
  name_bytes (safestrcpy (put_name (put_name ∅ 0 dst) 16 src) 0 16 16) 0.

Section proc.
(** [end] of kernel.ld, and the addresses of trampoline.S, [forkret],
    [initcode] and the [xstate] field of each process. *)
Context (kend trampoline forkret_addr initcode_addr : Z) (xstate_addr : nat → Z).

Definition freeproc (i : nat) : M ksys unit :=
  tf ← get trapframe i;
  when (negb (tf =? 0)) (mop (kfree kend tf));;
  put i (λ p, p <| trapframe := 0 |>);;
  pt ← get pagetable i;
  size ← get sz i;
  when (negb (pt =? 0)) (mop (proc_freepagetable kend pt size));;
  sop (free_fields i).

Definition alloc_fail (i : nat) : M ksys ptr :=
  freeproc i;;
  release (proc_lock i);;
  ret None.
(** From the label [found] on, after the fields that [alloc_fields] sets. *)
Definition alloc_found (i : nat) : M ksys ptr :=
  tf ← mop kalloc;
  put i (λ p, p <| trapframe := tf |>);;
  if tf =? 0 then alloc_fail i
  else
    pt ← mop (proc_pagetable kend trampoline tf);
    put i (λ p, p <| pagetable := pt |>);;
    if pt =? 0 then alloc_fail i
    else
      ks ← get kstack i;
      put i (λ p, p <| context_ := context0 |>);;
      put i (λ p, p <| context_ ::= λ c, c <| ra := forkret_addr |> |>);;
      put i (λ p, p <| context_ ::= λ c, c <| sp := u64 (ks + PGSIZE) |> |>);;
      ret (Some i).
Definition allocproc : M ksys ptr :=
  p ← sop (alloc_scan (seq 0 NPROC));
  match p with
  | None => ret None
  | Some i => alloc_found i
  end.

(** The machine code of user/initcode.S. *)
Definition initcode : list Z :=
  [0x17; 0x05; 0x00; 0x00; 0x13; 0x05; 0x45; 0x02;
   0x97; 0x05; 0x00; 0x00; 0x93; 0x85; 0x35; 0x02;
   0x93; 0x08; 0x70; 0x00; 0x73; 0x00; 0x00; 0x00;
   0x93; 0x08; 0x20; 0x00; 0x73; 0x00; 0x00; 0x00;
   0xef; 0xf0; 0x9f; 0xff; 0x2f; 0x69; 0x6e; 0x69;
   0x74; 0x00; 0x00; 0x24; 0x00; 0x00; 0x00; 0x00;
   0x00; 0x00; 0x00; 0x00].
(** The string constants "/" and "initcode". *)
Definition ROOTSTR : Z := SysFile.DOTDOT + 3.
Definition initcode_name : list Z := [105; 110; 105; 116; 99; 111; 100; 101; 0].
Definition userinit : M ksys unit :=
  p ← allocproc;
  sop (modify (λ s, s <| initproc := p |>));;
  i ← nonnull p;
  pt ← get pagetable i;
  mop (uvmfirst pt initcode_addr (Z.of_nat (length initcode)));;
  put i (λ p, p <| sz := PGSIZE |>);;
  tf ← get trapframe i;
  tf_store tf TF_EPC 0;;
  tf_store tf TF_SP PGSIZE;;
  put i (λ p, p <| name ::= λ n, name_copy n initcode_name |>);;
  fop (modify (λ s, s <| km ::= λ m, wrb (wrb m ROOTSTR 47) (ROOTSTR + 1) 0 |>));;
  c ← fop (namei ROOTSTR);
  put i (λ p, p <| ProcData.cwd := c |>);;
  put i (λ p, p <| state := RUNNABLE |>);;
  sop (insertProcess p);;
  release (proc_lock i).

Definition growproc (n : Z) : M ksys Z :=
  p ← me;
  size ← get sz p;
  pt ← get pagetable p;
  if 0 <? n then
    size' ← mop (uvmalloc kend pt size (u64 (size + n)) PTE_W);
    if size' =? 0 then ret (-1) else put p (λ q, q <| sz := size' |>);; ret 0
  else if n <? 0 then
    size' ← mop (uvmdealloc kend pt size (u64 (size + n)));
    put p (λ q, q <| sz := size' |>);; ret 0
  else put p (λ q, q <| sz := size |>);; ret 0.

(** [*(np->trapframe) = *(p->trapframe); np->trapframe->a0 = 0]. *)
Definition copy_trapframe (p np : nat) : M ksys unit :=
  src ← get trapframe p;
  dst ← get trapframe np;
  mop (modify (λ k, k <| ram ::= λ m, memmove m dst src TRAPFRAME_SIZE |>));;
  tf_store dst TF_A0 0.
(** What the child gets from the parent once its memory has been copied. *)
Definition fork_inherit (p np : nat) (size : Z) : M ksys unit :=
  put np (λ q, q <| sz := size |>);;
  copy_trapframe p np;;
  oop p (SysFile.fork_files NOFILE 0 np);;
  c ← get ProcData.cwd p;
  c ← nonnull c;
  c ← fop (idup c);
  put np (λ q, q <| ProcData.cwd := Some c |>);;
  nm ← get name p;
  put np (λ q, q <| name ::= λ n, name_copy n nm |>).
(** From [pid = np->pid] on: the child becomes visible. *)
Definition fork_publish (p np : nat) : M ksys Z :=
  n ← get pid np;
  release (proc_lock np);;
  acquire wait_lock;;
  put np (λ q, q <| parent := Some p |>);;
  release wait_lock;;
  sop (fork_ready np);;
  sop (insertProcess (Some np));;
  ret n.
Definition fork : M ksys Z :=
  p ← me;
  o ← allocproc;
  match o with
  | None => ret (-1)
  | Some np =>
      pt ← get pagetable p;
      npt ← get pagetable np;
      size ← get sz p;
      r ← mop (uvmcopy kend pt npt size);
      if r <? 0 then
        freeproc np;;
        release (proc_lock np);;
        ret (-1)
      else
        size ← get sz p;
        fork_inherit p np size;;
        fork_publish p np
  end.

(** Up to the [swtch] of its [sched()], which does not come back. *)
Definition exit (status : Z) : M ksys unit :=
  p ← me;
  init ← sop (gets initproc);
  when (bool_decide (Some p = init)) (panic "init exiting");;
  oop p (SysFile.exit_files kend NOFILE 0);;
  oop p File.begin_op;;
  c ← get ProcData.cwd p;
  c ← nonnull c;
  oop p (fsop (iput c));;
  oop p File.end_op;;
  put p (λ q, q <| ProcData.cwd := None |>);;
  acquire wait_lock;;
  sop (reparent (Some p));;
  pp ← get parent p;
  sop (wakeup (proc_chan pp));;
  sop (exit_zombie status).

(** One pass over the process table: the result of the call, or whether the
    process has children. *)
Definition wait_status (p i : nat) (addr : Z) : M ksys Z :=
  if addr =? 0 then ret 0
  else
    pt ← get pagetable p;
    x ← get xstate i;
    mop (modify (λ k, k <| ram ::= λ m, st32 m (xstate_addr i) x |>));;
    mop (Vm.copyout pt addr (xstate_addr i) 4).
Fixpoint wait_scan (l : list nat) (p : nat) (addr : Z) (havekids : bool) : M ksys (Z + bool) :=
  match l with
  | [] => ret (inr havekids)
  | i :: l =>
      pp ← get parent i;
      if bool_decide (pp = Some p) then
        acquire (proc_lock i);;
        s ← get state i;
        if bool_decide (s = ZOMBIE) then
          n ← get pid i;
          r ← wait_status p i addr;
          if r <? 0 then
            release (proc_lock i);;
            release wait_lock;;
            ret (inl (-1))
          else
            freeproc i;;
            release (proc_lock i);;
            release wait_lock;;
            ret (inl n)
        else
          release (proc_lock i);;
          wait_scan l p addr true
      else wait_scan l p addr havekids
  end.
(** [wait] returns, or it sleeps on [p] and what it keeps over the switch. *)
Inductive waited := Returned (r : Z) | Slept (saved : bool).
Definition wait_turn (p : nat) (addr : Z) : M ksys waited :=
  r ← wait_scan (seq 0 NPROC) p addr false;
  match r with
  | inl v => ret (Returned v)
  | inr havekids =>
      k ← (if havekids : bool then sop (is_killed p) else ret 0);
      if negb havekids || negb (k =? 0) then release wait_lock;; ret (Returned (-1))
      else saved ← sop (sleep ("proc", p) wait_lock); ret (Slept saved)
  end.
Definition wait (addr : Z) : M ksys waited :=
  p ← me;
  acquire wait_lock;;
  wait_turn p addr.
(** After the switch back: the loop goes on. *)
Definition wait_leave (addr : Z) (saved : bool) : M ksys waited :=
  p ← me;
  sop (sleep_leave saved wait_lock);;
  wait_turn p addr.
End proc.
End Proc.
