(* ===== verification/ProcSpec.v ===== *)
(** * Processes and their memory

    allocproc, freeproc, growproc, fork and wait as a whole: the process table
    keeps the scheduler's invariant, each live process has one address space
    whose table, trapframe and size are those of its entry, and the pages of
    the machine stay divided between the free list, the processes and the other
    holders (ProcMem.v). *)
From S2P Require Import Prelude Param ProcData RBTree RBSpec RBHeap RBInsert RunQueue Sched SchedInv SchedKeep.
From S2P Require Import CString Mem Kalloc Vm VmInv VmSpec VmUser VmFree VmCopy VmProc ProcVm ProcMem.
From S2P Require Import Bio Log Fs File SysFile Proc.
Import Fs File Proc.

Local Abbreviation parent := ProcData.parent.
Local Abbreviation cwd := ProcData.cwd.

(** ** Running the parts *)
Lemma wp_sop {A} (m : M sched A) Φ h w x o :
  wp m (λ a w', Φ a (World (held w') (wakes w') (mkKsys (st w') o))) (World h w x) → wp (sop m) Φ (World h w (mkKsys x o)).
Proof. intros H. unfold sop. apply wp_zoom. exact H. Qed.
Lemma wp_mop {A} (m : M kmem A) Φ h w x o :
  wp m (λ a w', Φ a (World (held w') (wakes w') (mkKsys x (o <| kms := st w' |>)))) (World h w (kms o)) → wp (mop m) Φ (World h w (mkKsys x o)).
Proof. intros H. unfold mop. apply wp_zoom. exact H. Qed.
Lemma wp_getp {A} (f : proc → A) i Φ h w x o pr : procs x !! i = Some pr →
  Φ (f pr) (World h w (mkKsys x o)) → wp (get f i) Φ (World h w (mkKsys x o)).
Proof. intros Hi H. apply wp_sop. by eapply wp_rd. Qed.
Definition setp (x : sched) (i : nat) (pr : proc) : sched := x <| procs ::= <[i := pr]> |>.
Lemma wp_put i g Φ h w x o pr : procs x !! i = Some pr →
  Φ () (World h w (mkKsys (setp x i (g pr)) o)) → wp (put i g) Φ (World h w (mkKsys x o)).
Proof. intros Hi H. apply wp_sop. by eapply wp_wr. Qed.
Lemma setp_eq x i pr pr' : procs x !! i = Some pr' → procs (setp x i pr) !! i = Some pr.
Proof. intros Hi. cbn. apply list_lookup_insert_eq. by eapply lookup_lt_Some. Qed.
Lemma setp_ne x i j pr : i ≠ j → procs (setp x i pr) !! j = procs x !! j.
Proof. intros Hij. cbn. by apply list_lookup_insert_ne. Qed.
Lemma setp_setp x i pr pr' : setp (setp x i pr) i pr' = setp x i pr'.
Proof. unfold setp, set_field. cbn. by rewrite list_insert_insert_eq. Qed.
Lemma setp_id x i pr : procs x !! i = Some pr → setp x i pr = x.
Proof. intros Hi. destruct x. unfold setp, set_field. cbn in *. by rewrite list_insert_id. Qed.
Lemma wp_wr_again i g p1 pr0 Φ h w x : procs x !! i = Some pr0 →
  Φ () (World h w (setp x i (g p1))) → wp (wr (Some i) g) Φ (World h w (setp x i p1)).
Proof. intros Hi H. eapply wp_wr; [by eapply setp_eq|]. by rewrite <- (setp_setp x i p1) in H. Qed.
Lemma wp_put_again i g p1 pr0 Φ h w x o : procs x !! i = Some pr0 →
  Φ () (World h w (mkKsys (setp x i (g p1)) o)) → wp (put i g) Φ (World h w (mkKsys (setp x i p1) o)).
Proof. intros Hi H. apply wp_sop. by eapply wp_wr_again. Qed.
Lemma wp_get_again {A} (f : proc → A) i p1 pr0 Φ h w x o : procs x !! i = Some pr0 →
  Φ (f p1) (World h w (mkKsys (setp x i p1) o)) → wp (get f i) Φ (World h w (mkKsys (setp x i p1) o)).
Proof. intros Hi H. eapply wp_getp; [by eapply setp_eq|done]. Qed.
Lemma setk_id (o : osys) : o <| kms := kms o |> = o.
Proof. by destruct o. Qed.
Lemma setk_setk (o : osys) k k' : (o <| kms := k |>) <| kms := k' |> = o <| kms := k' |>.
Proof. done. Qed.

Lemma wp_when_mop b (m : M kmem unit) Φ h w x o :
  wp (when b m) (λ a w', Φ a (World (held w') (wakes w') (mkKsys x (o <| kms := st w' |>)))) (World h w (kms o)) →
  wp (when b (mop m)) Φ (World h w (mkKsys x o)).
Proof. destruct b; [apply wp_mop|]. intros H. apply wp_ret. unfold wp in H. cbn [when ret held wakes st] in H. by rewrite setk_id in H. Qed.

(** A process may change its own data as long as the queue does not see it. *)
Record same_sched (p p' : proc) : Prop := {
  sm_state : state p' = state p;
  sm_chan : chan_ p' = chan_ p;
  sm_tree : (coloring p', parentP p', left p', right p') = (coloring p, parentP p, left p, right p);
  sm_weight : (virtualRuntime p', niceValue p', weightValue p') = (virtualRuntime p, niceValue p, weightValue p);
}.
Lemma Inv_same x q owned i pr pr' : Inv x q owned → procs x !! i = Some pr → same_sched pr pr' → Inv (setp x i pr') q owned.
Proof.
  intros HI Hi [H1 H2 [= H3 H4 H5 H6] [= H7 H8 H9]].
  assert (Hs : ∀ j, state_at (setp x i pr') j = state_at x j).
  { intros j. unfold setp. rewrite state_at_wr by (by eapply lookup_lt_Some). case_decide as E; [|done]. subst j. unfold state_at. rewrite Hi. simpl. by f_equal. }
  split; try apply HI.
  - eapply RQ_wr; [apply HI|done|done..].
  - intros j. rewrite Hs. apply HI.
  - intros j. rewrite Hs. apply HI.
  - intros j p Hj Hp. destruct (decide (i = j)) as [<-|Hne].
    + rewrite (setp_eq _ _ _ _ Hi) in Hj. injection Hj as <-. rewrite H2. eapply (inv_sleep _ _ _ HI); [done|congruence].
    + rewrite setp_ne in Hj by done. by eapply (inv_sleep _ _ _ HI).
Qed.

(** ** Creation in the process table *)
Definition allocated (n : Z) (p : proc) : proc :=
  p <| pid := n |> <| state := USED |> <| priority := 10 |> <| virtualRuntime := 0 |> <| currentRuntime := 0 |>
    <| maximumExecutiontime := 0 |> <| niceValue := 0 |> <| left := None |> <| right := None |> <| parentP := None |>.
Definition next_pid (x : sched) : sched := x <| nextpid ::= λ n, i32 (n + 1) |>.
Lemma wp_alloc_fields i pr Φ h w x : procs x !! i = Some pr → pid_lock ∉ h →
  Φ () (World h w (setp (next_pid x) i (allocated (nextpid x) pr))) → wp (alloc_fields i) Φ (World h w x).
Proof.
  intros Hi Hh HΦ. unfold alloc_fields. apply wp_bind, wp_allocpid; [done|]. apply wp_bind. eapply wp_wr; [exact Hi|].
  do 8 (apply wp_bind; eapply wp_wr_again; [exact Hi|]). eapply wp_wr_again; [exact Hi|]. exact HΦ.
Qed.
Lemma alloc_scan_exact l : ∀ x w, Forall (λ i, is_Some (procs x !! i)) l →
  wp (alloc_scan l) (λ r w', match r with
    | None => w' = World [] w x
    | Some i => ∃ pr, procs x !! i = Some pr ∧ state pr = UNUSED ∧
        w' = World [proc_lock i] w (setp (next_pid x) i (allocated (nextpid x) pr))
    end) (World [] w x).
Proof.
  induction l as [|i l IH]; intros x w Hl; cbn [alloc_scan]; [by apply wp_ret|]. inversion Hl as [|? ? [pr Hp] Hl']; subst.
  apply wp_bind, wp_acquire; [set_solver|]. apply wp_bind. eapply wp_rd; [exact Hp|]. case_bool_decide as E.
  - apply wp_bind. eapply wp_alloc_fields; [exact Hp|set_solver|]. apply wp_ret. eauto.
  - apply wp_bind, wp_release; [set_solver|]. by apply IH.
Qed.

(** ** freeproc *)
Definition freed (p : proc) : proc :=
  p <| trapframe := 0 |> <| pagetable := 0 |> <| sz := 0 |> <| pid := 0 |> <| ProcData.parent := None |>
    <| name ::= <[0%nat := 0]> |> <| chan_ := None |> <| ProcData.killed := 0 |> <| xstate := 0 |> <| state := UNUSED |>.
Lemma wp_free_fields i pr0 p Φ h w x : procs x !! i = Some pr0 →
  Φ () (World h w (setp x i (freed p))) → wp (free_fields i) Φ (World h w (setp x i (p <| trapframe := 0 |>))).
Proof.
  intros Hi HΦ. unfold free_fields. do 8 (apply wp_bind; eapply wp_wr_again; [exact Hi|]). eapply wp_wr_again; [exact Hi|]. exact HΦ.
Qed.

Lemma Inv_freed x q owned i pr : Inv x q owned → procs x !! i = Some pr → state pr ≠ RUNNING → state pr ≠ RUNNABLE →
  Inv (setp x i (freed pr)) q owned.
Proof.
  intros HI Hi Hr Hb. assert (Hs : state_at x i = Some (state pr)) by (unfold state_at; by rewrite Hi).
  assert (Hq : i ∉ q). { intros Hq. assert (state_at x i = Some RUNNABLE) by (apply (inv_own _ _ _ HI); set_solver). congruence. }
  destruct (rq_out _ _ (inv_rq _ _ _ HI) i pr Hq Hi) as (Hl & Hrr & Hp).
  eapply (Inv_update x q owned _ q owned i (state pr) UNUSED); try done.
  - eapply RQ_wr_gen; [apply HI|exact Hi|done|]. intros _. cbn. by rewrite Hl, Hrr, Hp.
  - intros j. unfold setp. rewrite state_at_wr by (by eapply lookup_lt_Some). done.
  - intros j Hj. by rewrite setp_ne.
Qed.

(** ** The invariant *)
Definition owns (pr : proc) (o : option pmem) : Prop :=
  match o with
  | None => state pr = UNUSED ∧ trapframe pr = 0 ∧ pagetable pr = 0 ∧ sz pr = 0
  | Some d => state pr ≠ UNUSED ∧ trapframe pr = m_tf d ∧ pagetable pr = m_root d ∧ sz pr = m_sz d
  end.
Lemma owns_freed pr : owns (freed pr) None.
Proof. done. Qed.
Lemma owns_memf pr pr' o : memf pr' = memf pr → (state pr' = UNUSED ↔ state pr = UNUSED) → owns pr o → owns pr' o.
Proof. intros [= H1 H2 H3 _ _] Hs. unfold owns. rewrite H1, H2, H3. destruct o; tauto. Qed.

Lemma owns_kept ids (ds : gmap nat pmem) x x' : kept ids [] x x' → (∀ i pr, procs x !! i = Some pr → owns pr (ds !! i)) →
  ∀ i pr, procs x' !! i = Some pr → owns pr (ds !! i).
Proof.
  intros Hk HO i pr' Hi'. destruct (kept_back _ _ _ _ _ _ Hk Hi') as [pr Hi].
  eapply owns_memf; [by eapply (kt_mem _ _ _ _ Hk)| |by apply HO]. split; [by eapply (kt_live _ _ _ _ Hk)|]. eapply (kt_dead _ _ _ _ Hk); [done|done|]. apply not_elem_of_nil.
Qed.
Section proc.
Context (kend trampoline forkret_addr : Z).
Local Abbreviation freeproc := (freeproc kend).
Local Abbreviation allocproc := (allocproc kend trampoline forkret_addr).
Local Abbreviation MemInv := (MemInv kend trampoline).

Lemma wp_freeproc i pr Φ h w x o : procs x !! i = Some pr →
  wp (when (negb (trapframe pr =? 0)) (kfree kend (trapframe pr))) (λ _ w1, ∃ k1, w1 = World h w k1 ∧
    wp (when (negb (pagetable pr =? 0)) (proc_freepagetable kend (pagetable pr) (sz pr))) (λ _ w2, ∃ k2, w2 = World h w k2 ∧
      Φ () (World h w (mkKsys (setp x i (freed pr)) (o <| kms := k2 |>)))) (World h w k1)) (World h w (kms o)) →
  wp (freeproc i) Φ (World h w (mkKsys x o)).
Proof.
  intros Hi H. unfold Proc.freeproc. apply wp_bind. eapply wp_getp; [exact Hi|]. apply wp_bind, wp_when_mop.
  eapply wp_mono; [exact H|]. intros _ w1 (k1 & -> & H1). cbn [held wakes st]. apply wp_bind. eapply wp_put; [exact Hi|].
  apply wp_bind. eapply wp_get_again; [exact Hi|]. apply wp_bind. eapply wp_get_again; [exact Hi|]. cbn [pagetable sz set_field].
  apply wp_bind, wp_when_mop. eapply wp_mono; [exact H1|]. intros _ w2 (k2 & -> & H2). cbn [held wakes st].
  rewrite setk_setk. apply wp_sop. by eapply wp_free_fields.
Qed.

(** The whole state: [q] is the run queue, [owned] the processes in between
    two queues, [l] the free list, [ds] the address spaces. *)
Record KInv (P : list Z) (s : ksys) (q owned : list nat) (l : list Z) (ds : gmap nat pmem) (ext : list Z) : Prop := {
  ki_inv : Inv (sch s) q owned;
  ki_mem : MemInv P (kms (os s)) l ds ext;
  ki_own i pr : procs (sch s) !! i = Some pr → owns pr (ds !! i);
  ki_dom i : is_Some (ds !! i) → (i < NPROC)%nat;
}.
Lemma own_setp x i pr' (ds ds' : gmap nat pmem) : is_Some (procs x !! i) →
  (∀ j pr, procs x !! j = Some pr → i ≠ j → owns pr (ds !! j)) → owns pr' (ds' !! i) → (∀ j, i ≠ j → ds' !! j = ds !! j) →
  ∀ j pr, procs (setp x i pr') !! j = Some pr → owns pr (ds' !! j).
Proof.
  intros [p0 Hi] Ho Hn Hd j pr Hj. destruct (decide (i = j)) as [<-|Hne].
  - rewrite (setp_eq _ _ _ _ Hi) in Hj. by injection Hj as <-.
  - rewrite setp_ne in Hj by done. rewrite Hd by done. by apply Ho.
Qed.
Lemma KInv_kept P x o q owned l ds ext ids x' q' owned' : KInv P (mkKsys x o) q owned l ds ext → kept ids [] x x' → Inv x' q' owned' →
  KInv P (mkKsys x' o) q' owned' l ds ext.
Proof.
  intros [HI HM HO HD] Hk HI'. split; [done|done| |done]. by eapply owns_kept.
Qed.
Lemma pages_nonzero P k l ds ext i d : MemInv P k l ds ext → ds !! i = Some d → m_tf d ≠ 0 ∧ m_root d ≠ 0.
Proof.
  intros HM Hd. assert (Hok : ∀ q, q ∈ m_pages d → q ≠ 0).
  { intros q Hq. destruct (mi_ok _ _ _ _ _ _ _ q HM) as (_ & _ & ?); [|lia]. apply elem_of_app. left. apply elem_of_all_pages. eauto. }
  split; apply Hok; [by left|]. apply tab_page. rewrite (pt_root _ _ _ _ _ (sp_pt _ _ _ (mi_space _ _ _ _ _ _ _ HM i d Hd))). by eexists.
Qed.
Lemma freeproc_spec P x o q owned l ds ext i pr d h w : KInv P (mkKsys x o) q owned l ds ext → procs x !! i = Some pr → ds !! i = Some d →
  state pr ≠ RUNNING → state pr ≠ RUNNABLE → kmem_lock ∉ h →
  wp (freeproc i) (λ _ w', ∃ k' l', w' = World h w (mkKsys (setp x i (freed pr)) (o <| kms := k' |>)) ∧
    KInv P (mkKsys (setp x i (freed pr)) (o <| kms := k' |>)) q owned l' (delete i ds) ext ∧
    untouched (others ds ext i) (ram (kms o)) (ram k')) (World h w (mkKsys x o)).
Proof.
  intros [HI HM HO HD] Hi Hd Hr Hb Hh. cbn in *. pose proof (HO i pr Hi) as Hown. rewrite Hd in Hown. destruct Hown as (_ & E1 & E2 & E3).
  destruct (pages_nonzero _ _ _ _ _ _ _ HM Hd) as [N1 N2]. eapply wp_freeproc; [exact Hi|]. rewrite E1, E2, E3.
  rewrite (proj2 (Z.eqb_neq (m_tf d) 0) N1), (proj2 (Z.eqb_neq (m_root d) 0) N2). cbn [negb when].
  eapply wp_mono; [by eapply free_mem|]. intros _ w1 (k1 & -> & H1). exists k1. split; [done|].
  eapply wp_mono; [exact H1|]. intros _ w2 (k2 & l2 & -> & HM2 & Hu). exists k2. split; [done|]. exists k2, l2. split; [done|]. split; [|done].
  split; cbn; [by apply Inv_freed|done| |].
  - eapply (own_setp x i _ ds); [by eexists|intros; by apply HO|by rewrite lookup_delete_eq|intros; by rewrite lookup_delete_ne].
  - intros j [dj Hj]. apply lookup_delete_Some in Hj as [_ Hj]. apply HD. by eexists.
Qed.

(** What a live process keeps while another one is created or removed. *)
Definition undisturbed (ds : gmap nat pmem) (x x' : sched) : Prop := ∀ j pr, is_Some (ds !! j) → procs x !! j = Some pr →
  ∃ pr', procs x' !! j = Some pr' ∧ memf pr' = memf pr ∧ (pid pr', parent pr') = (pid pr, parent pr).
Lemma undisturbed_trans ds x1 x2 x3 : undisturbed ds x1 x2 → undisturbed ds x2 x3 → undisturbed ds x1 x3.
Proof.
  intros H1 H2 j pr Hj Hp. destruct (H1 j pr Hj Hp) as (p2 & Hp2 & M2 & I2). destruct (H2 j p2 Hj Hp2) as (p3 & Hp3 & M3 & I3).
  exists p3. split; [done|]. split; congruence.
Qed.
Lemma undisturbed_setp ds x i pr : ds !! i = None → undisturbed ds x (setp x i pr).
Proof. intros Hi j p [d Hd] Hp. exists p. rewrite setp_ne by congruence. done. Qed.
Lemma undisturbed_kept ds x x' : kept true [] x x' → undisturbed ds x x'.
Proof.
  intros Hk j pr _ Hp. destruct (lookup_lt_is_Some_2 (procs x') j) as [pr' Hp']; [rewrite (kt_len _ _ _ _ Hk); by eapply lookup_lt_Some|].
  exists pr'. split; [done|]. split; [by eapply (kt_mem _ _ _ _ Hk)|by eapply (kt_ident _ _ _ _ Hk)].
Qed.
Lemma alloc_fail_spec P x o q owned l ds ext i pr w : Inv x q owned → procs x !! i = Some pr → state pr = USED → ds !! i = None → (i < NPROC)%nat →
  (∀ j p, procs x !! j = Some p → i ≠ j → owns p (ds !! j)) → (∀ j, is_Some (ds !! j) → (j < NPROC)%nat) → pagetable pr = 0 →
  ((trapframe pr = 0 ∧ MemInv P (kms o) l ds ext) ∨ (trapframe pr ≠ 0 ∧ MemInv P (kms o) l ds (trapframe pr :: ext))) →
  wp (alloc_fail kend i) (λ r w', r = None ∧ ∃ k' l', w' = World [] w (mkKsys (setp x i (freed pr)) (o <| kms := k' |>)) ∧
    KInv P (mkKsys (setp x i (freed pr)) (o <| kms := k' |>)) q owned l' ds ext ∧
    untouched (all_pages ds ++ ext) (ram (kms o)) (ram k')) (World [proc_lock i] w (mkKsys x o)).
Proof.
  intros HI Hi Hs Hd HiN HO HD Hpt Hm. unfold alloc_fail. apply wp_bind. eapply wp_freeproc; [exact Hi|]. rewrite Hpt. cbn [Z.eqb negb when].
  assert (Hend : ∀ k' l', MemInv P k' l' ds ext → KInv P (mkKsys (setp x i (freed pr)) (o <| kms := k' |>)) q owned l' ds ext).
  { intros k' l' HM'. split; cbn; [apply Inv_freed; congruence|done| |done]. eapply (own_setp x i _ ds); [by eexists|done|by rewrite Hd|done]. }
  destruct Hm as [[E HM]|[E HM]].
  - rewrite E. cbn [Z.eqb negb when]. apply wp_ret. exists (kms o). split; [done|]. apply wp_ret. exists (kms o). split; [done|].
    apply wp_bind, wp_release; [set_solver|]. apply wp_ret. split; [done|]. exists (kms o), l. split; [done|]. split; [by apply Hend|done].
  - rewrite (proj2 (Z.eqb_neq _ _) E). cbn [negb when]. eapply wp_mono; [eapply kfree_mem; [exact HM|set_solver]|].
    intros _ w1 (k1 & -> & HM1 & Hu). exists k1. split; [done|]. apply wp_ret. exists k1. split; [done|].
    apply wp_bind, wp_release; [set_solver|]. apply wp_ret. split; [done|]. eexists k1, _. split; [done|]. split; [by apply Hend|done].
Qed.

(** allocproc: a process with an empty address space, or nothing. *)
Definition alloc_post (P : list Z) (x : sched) (o : osys) (q owned : list nat) (ds : gmap nat pmem) (ext : list Z) (w : list chan)
    (r : ptr) (w' : world ksys) : Prop :=
  ∃ x' k' l', untouched (all_pages ds ++ ext) (ram (kms o)) (ram k') ∧ harts false x x' ∧ undisturbed ds x x' ∧
    match r with
    | None => w' = World [] w (mkKsys x' (o <| kms := k' |>)) ∧ KInv P (mkKsys x' (o <| kms := k' |>)) q owned l' ds ext
    | Some n => w' = World [proc_lock n] w (mkKsys x' (o <| kms := k' |>)) ∧ ds !! n = None ∧ (n < NPROC)%nat ∧ ∃ tf root T,
        KInv P (mkKsys x' (o <| kms := k' |>)) q owned l' (<[n := new_pmem trampoline tf root T]> ds) ext ∧
        state_at x' n = Some USED ∧ pid <$> procs x' !! n = Some (nextpid x)
    end.
Lemma alloc_found_spec P x o q owned l ds ext n pn pr w : Inv (setp (next_pid x) n pn) q owned → procs x !! n = Some pr →
  state pn = USED → pid pn = nextpid x → pagetable pn = 0 → sz pn = 0 → ds !! n = None → (n < NPROC)%nat → frame trampoline →
  (∀ j p, procs x !! j = Some p → n ≠ j → owns p (ds !! j)) → (∀ j, is_Some (ds !! j) → (j < NPROC)%nat) → MemInv P (kms o) l ds ext →
  wp (alloc_found kend trampoline forkret_addr n) (alloc_post P x o q owned ds ext w) (World [proc_lock n] w (mkKsys (setp (next_pid x) n pn) o)).
Proof.
  intros HI1 Hn E1 E2 E3 E4 Hd HnN Htr Hother HD HM.
  assert (Hund : ∀ p, undisturbed ds x (setp (next_pid x) n p)).
  { intros p j pj [d Hj] Hp. exists pj. rewrite setp_ne by congruence. done. }
  assert (HnI : ∀ p, same_sched pn p → Inv (setp (next_pid x) n p) q owned).
  { intros p Hp. rewrite <- (setp_setp _ n pn). eapply Inv_same; [exact HI1|by eapply setp_eq|done]. }
  assert (Hnn : procs (next_pid x) !! n = Some pr) by done.
  unfold alloc_found. apply wp_bind, wp_mop. eapply wp_mono; [eapply kalloc_mem; [exact HM|set_solver]|].
  intros tf w2 (k2 & -> & Htf). cbn [held wakes st]. apply wp_bind. eapply wp_put_again; [exact Hnn|].
  assert (Hfail : ∀ p k l', same_sched pn p → pagetable p = 0 → untouched (all_pages ds ++ ext) (ram (kms o)) (ram k) →
    ((trapframe p = 0 ∧ MemInv P k l' ds ext) ∨ (trapframe p ≠ 0 ∧ MemInv P k l' ds (trapframe p :: ext))) →
    wp (alloc_fail kend n) (alloc_post P x o q owned ds ext w) (World [proc_lock n] w (mkKsys (setp (next_pid x) n p) (o <| kms := k |>)))).
  { intros p k l' Hp Hpt Hu Hm. eapply wp_mono; [eapply (alloc_fail_spec P _ _ q owned l' ds ext n p); try done|].
    - by apply HnI.
    - by eapply setp_eq.
    - by rewrite (sm_state _ _ Hp), E1.
    - intros j pj Hj Hne. rewrite setp_ne in Hj by done. by apply Hother.
    - intros r w3 (-> & k' & l3 & -> & HK & Hu'). rewrite setp_setp, setk_setk in *. exists (setp (next_pid x) n (freed p)), k', l3.
      split; [by eapply untouched_trans|]. split; [by apply harts_same|]. split; [apply Hund|]. split; [done|exact HK]. }
  destruct Htf as [(-> & -> & ->)|(Htf & l2 & -> & HM2 & Hu2)]; cbn [Z.eqb].
  { eapply (Hfail _ _ []); [by split|exact E3|done|]. left. by split. }
  rewrite (proj2 (Z.eqb_neq tf 0) Htf). apply wp_bind, wp_mop.
  eapply wp_mono; [eapply (proc_pagetable_mem _ _ _ _ _ ds ext tf n); [exact HM2|done|done|set_solver]|].
  intros pt w3 (k3 & l3 & -> & Hu3 & Hpt). cbn [held wakes st]. apply wp_bind. eapply wp_put_again; [exact Hnn|].
  assert (Hu : untouched (all_pages ds ++ ext) (ram (kms o)) (ram k3)).
  { eapply untouched_trans; [exact Hu2|]. eapply untouched_sub; [|exact Hu3]. set_solver. }
  destruct Hpt as [[-> HM3]|(Hpt & T & HM3)]; cbn [Z.eqb].
  { rewrite setk_setk. eapply (Hfail _ _ l3); [by split|done|done|]. right. by split. }
  rewrite (proj2 (Z.eqb_neq pt 0) Hpt). apply wp_bind. eapply wp_get_again; [exact Hnn|].
  do 3 (apply wp_bind; eapply wp_put_again; [exact Hnn|]). apply wp_ret.
  lazymatch goal with |- alloc_post _ _ _ _ _ _ _ _ _ (World _ _ (mkKsys (setp _ _ ?p) _)) => set (pf := p) end.
  assert (Hpf : same_sched pn pf ∧ owns pf (Some (new_pmem trampoline tf pt T)) ∧ pid pf = nextpid x).
  { split; [by split|]. split; [|exact E2]. cbn. rewrite E1. done. }
  clearbody pf. destruct Hpf as (F1 & F2 & F3). exists (setp (next_pid x) n pf), k3, l3. rewrite setk_setk.
  split; [done|]. split; [by apply harts_same|]. split; [apply Hund|]. split; [done|]. split; [done|]. split; [done|]. exists tf, pt, T.
  split; [|split; [unfold state_at|]; rewrite (setp_eq _ _ _ _ Hnn); cbn; f_equal; [by rewrite (sm_state _ _ F1)|done]].
  split; cbn [sch os]; [by apply HnI|done| |].
  - eapply (own_setp (next_pid x) n _ ds); [by eexists|done|by rewrite lookup_insert_eq|intros; by rewrite lookup_insert_ne].
  - intros j [dj Hj]. destruct (decide (n = j)) as [<-|]; [done|]. rewrite lookup_insert_ne in Hj by done. apply HD. by eexists.
Qed.
Lemma allocproc_spec P x o q owned l ds ext w : KInv P (mkKsys x o) q owned l ds ext → frame trampoline →
  wp allocproc (alloc_post P x o q owned ds ext w) (World [] w (mkKsys x o)).
Proof.
  intros [HI HM HO HD] Htr. cbn in *. unfold Proc.allocproc. apply wp_bind, wp_sop.
  assert (Hall : Forall (λ i, is_Some (procs x !! i)) (seq 0 NPROC)).
  { apply Forall_forall. intros i Hi%elem_of_seq. eapply inv_lookup; [exact HI|lia]. }
  eapply wp_mono; [apply wp_conj; [apply (alloc_scan_safe _ x q owned w HI seq_below)|by apply (alloc_scan_exact _ x w)]|].
  intros [n|] w1 [H1 H2].
  2:{ subst w1. apply wp_ret. exists x, (kms o), l. rewrite setk_id. split; [done|]. split; [apply harts_refl|].
      split; [intros j pr _ Hj; eauto|]. split; [done|]. by split. }
  destruct H1 as (x1 & Hw1 & _ & HI1 & _ & _). destruct H2 as (pr & Hn & Hs & Hw1'). rewrite Hw1' in Hw1. injection Hw1 as Ex.
  rewrite Hw1'. cbn [held wakes st]. rewrite <- Ex in HI1.
  pose proof (HO n pr Hn) as Hown. destruct (ds !! n) as [?|] eqn:Hd; [by destruct Hown|]. destruct Hown as (_ & T0 & P0 & S0).
  eapply (alloc_found_spec P x o q owned l ds ext n _ pr w HI1 Hn); try done.
  - apply lookup_lt_Some in Hn. by rewrite (rq_len _ _ (inv_rq _ _ _ HI)) in Hn.
  - intros. by apply HO.
Qed.
End proc.

(** ** The files of a new process *)
Definition fork_row (n i : nat) (lp ln : list (option nat)) : list (option nat) :=
  imap (λ fd o, if decide (i ≤ fd < i + n)%nat then match lp !! fd with Some (Some f) => Some f | _ => o end else o) ln.
Definition opens (f : nat) (l : list (option nat)) : Z := Z.of_nat (length (filter (λ o, o = Some f) l)).
Record inherited (n i np : nat) (lp ln : list (option nat)) (o o' : osys) : Prop := {
  ih_kms : kms o' = kms o;
  ih_fss : fss o' = fss o;
  ih_row : ofiles o' = <[np := fork_row n i lp ln]> (ofiles o);
  ih_ref f y : ftable o !! f = Some y → ftable o' !! f = Some (y <| fref ::= λ r, r + opens f (take n (drop i lp)) |>);
}.
Lemma fork_row_lookup n i lp ln j : fork_row n i lp ln !! j =
  (λ o, if decide (i ≤ j < i + n)%nat then match lp !! j with Some (Some f) => Some f | _ => o end else o) <$> ln !! j.
Proof. unfold fork_row. by rewrite list_lookup_imap. Qed.
Lemma fork_row_nil i lp ln : fork_row 0 i lp ln = ln.
Proof. apply list_eq. intros j. rewrite fork_row_lookup. destruct (ln !! j); [|done]. cbn [fmap option_fmap option_map]. by rewrite decide_False by lia. Qed.
Lemma fork_row_skip n i lp ln : lp !! i = Some None → fork_row n (S i) lp ln = fork_row (S n) i lp ln.
Proof.
  intros Hi. apply list_eq. intros j. rewrite !fork_row_lookup. destruct (ln !! j); [|done]. cbn [fmap option_fmap option_map]. f_equal.
  destruct (decide (j = i)) as [->|]; [rewrite decide_False, decide_True, Hi by lia; done|].
  destruct (decide (S i ≤ j < S i + n)%nat); [rewrite decide_True by lia|rewrite decide_False by lia]; done.
Qed.
Lemma fork_row_copy n i lp ln f : lp !! i = Some (Some f) → fork_row n (S i) lp (<[i := Some f]> ln) = fork_row (S n) i lp ln.
Proof.
  intros Hi. apply list_eq. intros j. rewrite !fork_row_lookup. destruct (decide (i = j)) as [<-|Hne].
  - destruct (decide (i < length ln)%nat) as [Hl|Hl].
    + rewrite list_lookup_insert_eq by done. destruct (lookup_lt_is_Some_2 ln i Hl) as [v ->]. cbn [fmap option_fmap option_map]. by rewrite decide_False, decide_True, Hi by lia.
    + rewrite list_insert_ge by lia. by rewrite (lookup_ge_None_2 ln i) by lia.
  - rewrite list_lookup_insert_ne by done. destruct (ln !! j); [|done]. cbn [fmap option_fmap option_map]. f_equal.
    destruct (decide (S i ≤ j < S i + n)%nat); [rewrite decide_True by lia|rewrite decide_False by lia]; done.
Qed.
Lemma opens_step f n i lp v : lp !! i = Some v →
  opens f (take (S n) (drop i lp)) = (if decide (v = Some f) then 1 else 0) + opens f (take n (drop (S i) lp)).
Proof.
  intros Hi. rewrite (drop_S _ _ _ Hi). cbn [take]. unfold opens. rewrite filter_cons. case_decide; cbn [length]; lia.
Qed.
Lemma fork_files_wp n : ∀ i o lp ln np h w, File.me o ≠ np → ofiles o !! File.me o = Some lp → ofiles o !! np = Some ln →
  (i + n ≤ length lp)%nat → ftable_lock ∉ h → (∀ f, Some f ∈ lp → ∃ y, ftable o !! f = Some y ∧ 1 ≤ fref y) →
  wp (SysFile.fork_files n i np) (λ _ w', ∃ o', w' = World h w o' ∧ inherited n i np lp ln o o') (World h w o).
Proof.
  induction n as [|n IH]; intros i o lp ln np h w Hne Hp Hn Hlen Hh Hok; cbn [SysFile.fork_files].
  { apply wp_ret. exists o. split; [done|]. split; [done|done|by rewrite fork_row_nil, list_insert_id|].
    intros f [] Hf. rewrite Hf. unfold opens, set_field. cbn. by rewrite Z.add_0_r. }
  apply wp_bind. unfold SysFile.my_ofile. apply wp_bind, wp_gets. cbn [st]. rewrite Hp. apply wp_ret.
  destruct (lookup_lt_is_Some_2 lp i) as [v Hv]; [lia|]. rewrite Hv. apply wp_bind, wp_ret. apply wp_bind. destruct v as [f|].
  - destruct (Hok f) as (y & Hy & Hr); [by eapply list_elem_of_lookup_2|]. apply wp_bind. unfold filedup.
    apply wp_bind, wp_acquire; [done|]. unfold getf, setf. apply wp_bind, wp_bind, wp_gets. cbn [st]. rewrite Hy. apply wp_ret.
    apply wp_bind, wp_when. rewrite (proj2 (Z.ltb_ge _ _)) by lia. apply wp_bind. unfold getf. apply wp_bind, wp_bind, wp_gets. cbn [st]. rewrite Hy. apply wp_ret.
    apply wp_modify. apply wp_bind, wp_release; [done|]. apply wp_ret. unfold SysFile.set_child. apply wp_bind, wp_gets. cbn [st].
    replace (ofiles _ !! np) with (Some ln) by done. apply wp_bind, wp_ret, wp_modify. cbn [held wakes].
    set (o2 := set_field ofiles _ _).
    assert (Hft : ∀ g z, ftable o !! g = Some z → ftable o2 !! g = Some (z <| fref ::= λ r, r + (if decide (Some f = Some g) then 1 else 0) |>)).
    { intros g z Hz. cbn. destruct (decide (f = g)) as [<-|Hfg].
      - rewrite Hy in Hz. injection Hz as <-. rewrite decide_True by done. apply list_lookup_insert_eq. by eapply lookup_lt_Some.
      - rewrite list_lookup_insert_ne by done. rewrite decide_False by congruence. rewrite Hz. destruct z. unfold set_field. cbn. by rewrite Z.add_0_r. }
    eapply wp_mono; [apply (IH (S i) o2 lp (<[i := Some f]> ln) np h w)|].
    + done.
    + cbn. by rewrite list_lookup_insert_ne.
    + cbn. apply list_lookup_insert_eq. by eapply lookup_lt_Some.
    + lia.
    + done.
    + intros g Hg. destruct (Hok g Hg) as (z & Hz & Hz1). eexists. split; [by apply Hft|]. cbn. case_decide; lia.
    + intros _ w' (o' & -> & [I1 I2 I3 I4]). exists o'. split; [done|]. split; [done|done| |].
      * rewrite I3. cbn. by rewrite list_insert_insert_eq, (fork_row_copy n i lp ln f Hv).
      * intros g z Hz. rewrite (I4 _ _ (Hft g z Hz)), (opens_step g n i lp _ Hv). f_equal. destruct z. unfold set_field. cbn. f_equal. lia.
  - apply wp_ret. eapply wp_mono; [by apply (IH (S i) o lp ln np h w); try done; lia|]. intros _ w' (o' & -> & [I1 I2 I3 I4]).
    exists o'. split; [done|]. split; [done|done|by rewrite I3, (fork_row_skip n i lp ln Hv)|]. intros g z Hz.
    rewrite (I4 g z Hz), (opens_step g n i lp _ Hv). done.
Qed.

(** ** The registers and files of a new process *)
Record fork_files_post (o o' : osys) (np : nat) (lp ln : list (option nat)) (ci : nat) : Prop := {
  ff_row : ofiles o' = <[np := fork_row NOFILE 0 lp ln]> (ofiles o);
  ff_ref f y : ftable o !! f = Some y → ftable o' !! f = Some (y <| fref ::= λ r, r + opens f (take NOFILE lp) |>);
  ff_cwd j y : itable (fss o) !! j = Some y → itable (fss o') !! j = Some (if decide (j = ci) then y <| iref ::= λ r, r + 1 |> else y);
}.
Definition frame_copy (m : mem) (dst src : Z) : mem := st64 (memmove m dst src TRAPFRAME_SIZE) (dst + TF_A0) 0.
Lemma frame_copy_out m dst src b : ¬ in_page dst b → rdb (frame_copy m dst src) b = rdb m b.
Proof.
  intros Hb. unfold frame_copy, in_page, PGSIZE, TF_A0 in *. rewrite rdb_sto by (simpl; lia). rewrite rdb_memmove by done.
  rewrite (proj2 (within_false _ _ _)); [done|]. unfold TRAPFRAME_SIZE. lia.
Qed.
Lemma view_some p s pr : procs (sch s) !! p = Some pr →
  File.me (view p s) = p ∧ kms (view p s) = kms (os s) ∧ ofiles (view p s) = ofiles (os s) ∧ ftable (view p s) = ftable (os s) ∧
  itable (fss (view p s)) = itable (fss (os s)).
Proof. intros Hp. unfold view. rewrite Hp. done. Qed.
Lemma wp_oop {A} p (m : M osys A) Φ h w s :
  wp m (λ a w', Φ a (World (held w') (wakes w') (mkKsys (sch s) (st w')))) (World h w (view p s)) → wp (oop p m) Φ (World h w s).
Proof. intros H. unfold oop. apply wp_zoom. exact H. Qed.

Lemma fork_inherit_spec p np x o pr pn lp ln ci size w : p ≠ np → procs x !! p = Some pr → procs x !! np = Some pn →
  ofiles o !! p = Some lp → ofiles o !! np = Some ln → length lp = NOFILE →
  (∀ f, Some f ∈ lp → ∃ y, ftable o !! f = Some y ∧ 1 ≤ fref y) → cwd pr = Some ci → is_Some (itable (fss o) !! ci) →
  wp (fork_inherit p np size) (λ _ w', ∃ o',
    w' = World [proc_lock np] w (mkKsys (setp x np (pn <| sz := size |> <| ProcData.cwd := Some ci |> <| name ::= λ n, name_copy n (name pr) |>)) o') ∧
    kms o' = (kms o) <| ram := frame_copy (ram (kms o)) (trapframe pn) (trapframe pr) |> ∧ fork_files_post o o' np lp ln ci)
    (World [proc_lock np] w (mkKsys x o)).
Proof.
  intros Hne Hp Hn Hlp Hln Hlen Hok Hci [iy Hiy]. unfold fork_inherit. apply wp_bind. eapply wp_put; [exact Hn|].
  assert (Hp' : ∀ q, procs (setp x np q) !! p = Some pr) by (intros; by rewrite setp_ne).
  apply wp_bind. unfold copy_trapframe. apply wp_bind. eapply wp_getp; [apply Hp'|]. apply wp_bind. eapply wp_get_again; [exact Hn|].
  apply wp_bind, wp_mop, wp_modify. unfold tf_store. apply wp_mop, wp_modify. cbn [held wakes st].
  apply wp_bind, wp_oop. lazymatch goal with |- wp _ _ (World _ _ (view p ?S)) => destruct (view_some p S pr (Hp' _)) as (V1 & V2 & V3 & V4 & V5); set (v := view p S) in * end.
  cbn [os kms] in V2, V3, V4, V5.
  eapply wp_mono; [apply (fork_files_wp NOFILE 0 v lp ln np)|].
  { by rewrite V1. } { by rewrite V1, V3. } { by rewrite V3. } { lia. } { set_solver. } { intros f Hf. rewrite V4. by apply Hok. }
  intros _ w1 (o1 & -> & [I1 I2 I3 I4]). cbn [held wakes st sch]. apply wp_bind. eapply wp_getp; [apply Hp'|]. rewrite Hci. apply wp_bind, wp_ret.
  apply wp_bind. unfold fop. apply wp_zoom. unfold idup. apply wp_bind, wp_acquire; [set_solver|]. unfold seti, geti. apply wp_bind, wp_bind, wp_bind, wp_gets.
  assert (Hi1 : itable (fss o1) !! ci = Some iy) by (rewrite I2, V5; exact Hiy). cbn [st os]. rewrite Hi1. apply wp_ret, wp_modify.
  apply wp_bind, wp_release; [set_solver|]. apply wp_ret. cbn [held wakes st].
  apply wp_bind. eapply wp_put_again; [exact Hn|]. apply wp_bind. eapply wp_getp; [apply Hp'|]. eapply wp_put_again; [exact Hn|].
  eexists. split; [reflexivity|]. split; [cbn; rewrite I1, V2; done|]. split; cbn.
  - rewrite I3, V3. done.
  - intros f y Hf. apply I4. rewrite V4. exact Hf.
  - intros j y Hj. rewrite I2, V5. cbn. destruct (decide (j = ci)) as [->|Hj'].
    + assert (y = iy) as -> by congruence. apply list_lookup_insert_eq. by eapply lookup_lt_Some.
    + by rewrite list_lookup_insert_ne.
Qed.

Lemma keeps_fork_ready x i w : state_at x i = Some USED → keeps_at true [] (fork_ready i) (World [] w x).
Proof.
  intros Hs. apply (keeps_upgrade_at _ _ i); [cbn; congruence|]. apply steady_at. unfold fork_ready. st_step; [stdy|].
  st_step; [apply st_wr_state; [set_solver|done]|]. stdy.
Qed.
Lemma fork_publish_spec p np x o q owned pn w : Inv x q owned → procs x !! np = Some pn → state pn = USED →
  wp (fork_publish p np) (λ r w', r = pid pn ∧ ∃ x' q', w' = World [] w (mkKsys x' o) ∧ Inv x' q' owned ∧ q' ≡ₚ np :: q ∧
    kept true [] (setp x np (pn <| ProcData.parent := Some p |>)) x' ∧ harts false x x') (World [proc_lock np] w (mkKsys x o)).
Proof.
  intros HI Hn Hs. unfold fork_publish. apply wp_bind. eapply wp_getp; [exact Hn|]. apply wp_bind, wp_release; [set_solver|].
  apply wp_bind, wp_acquire; [set_solver|]. apply wp_bind. eapply wp_put; [exact Hn|]. apply wp_bind, wp_release; [set_solver|].
  set (x1 := setp x np _). assert (HI1 : Inv x1 q owned) by (eapply Inv_same; [exact HI|exact Hn|by split]).
  assert (Hs1 : state_at x1 np = Some USED) by (unfold state_at, x1; rewrite (setp_eq _ _ _ _ Hn); cbn; by f_equal).
  apply wp_bind, wp_sop. eapply wp_mono; [apply wp_keeps; [by apply keeps_fork_ready|by eapply fork_ready_safe]|].
  intros _ w1 [(x2 & -> & Hh2 & HI2) Hk2]. cbn [held wakes st] in *. apply wp_bind, wp_sop.
  eapply wp_mono; [apply wp_keeps; [apply (steady_at true []), st_insertProcess|by eapply fork_insert_safe]|].
  intros _ w2 [(x3 & -> & Hh3 & q' & Hq' & HI3) Hk3]. cbn [held wakes st] in *. apply wp_ret. split; [done|]. exists x3, q'.
  split; [done|]. split; [done|]. split; [done|]. split; [by eapply kept_comp|].
  eapply (harts_trans _ x x1); [|by eapply harts_trans]. by apply harts_same.
Qed.
