(* ===== verification/ProcFork.v ===== *)
(** * fork

    fork gives the child a copy of the parent's memory and registers, its files
    and directory, and queues it; or it fails and gives every page back. *)
From S2P Require Import Prelude Param ProcData RBTree RBSpec RBHeap RBInsert RunQueue Sched SchedInv SchedKeep SchedSys.
From S2P Require Import CString Mem Kalloc Vm VmInv VmSpec VmUser VmFree VmCopy VmProc ProcVm ProcMem.
From S2P Require Import Bio Log Fs File SysFile Proc ProcSpec.
Import Fs File Proc.

Local Abbreviation parent := ProcData.parent.
Local Abbreviation cwd := ProcData.cwd.

(** Process [p], with entry [pr], runs on this hart. *)
Record running (x : sched) (p : nat) (pr : proc) : Prop := {
  rn_cpu : ∃ c, cpus x !! tp x = Some c ∧ cproc c = Some p;
  rn_proc : procs x !! p = Some pr;
}.
Lemma wp_me x o p pr Φ h w : running x p pr → Φ p (World h w (mkKsys x o)) → wp me Φ (World h w (mkKsys x o)).
Proof.
  intros [(c & Hc & Hi) _] H. unfold me. apply wp_bind, wp_sop. eapply wp_myproc; [exact Hc|]. rewrite Hi. by apply wp_ret.
Qed.
(** Its open files and its directory are in use. *)
Record file_holder (o : osys) (p : nat) (pr : proc) (lp : list (option nat)) (ci : nat) : Prop := {
  fh_rows : length (ofiles o) = NPROC;
  fh_row : ofiles o !! p = Some lp;
  fh_len : length lp = NOFILE;
  fh_open f : Some f ∈ lp → ∃ y, ftable o !! f = Some y ∧ 1 ≤ fref y;
  fh_cwd : cwd pr = Some ci;
  fh_inode : is_Some (itable (fss o) !! ci);
}.
(** What the child [pn] is, with the memory [m'] of the end and [m] of the start. *)
Record child (m m' : mem) (p : nat) (pr pn : proc) (d d' : pmem) : Prop := {
  ch_parent : parent pn = Some p;
  ch_cwd : cwd pn = cwd pr;
  ch_name : ∃ old, name pn = name_copy old (name pr);
  ch_mem : clones m m' d d';
  ch_regs i : 0 ≤ i < TRAPFRAME_SIZE →
    rdb m' (m_tf d' + i) = if decide (TF_A0 ≤ i < TF_A0 + 8) then 0 else rdb m (m_tf d + i);
}.

Lemma rdb_st64_zero m a i : 0 ≤ i < 8 → rdb (st64 m a 0) (a + i) = 0.
Proof.
  intros Hi. change (st64 m a 0) with (wrb (wrb (wrb (wrb (wrb (wrb (wrb (wrb m a 0) (a + 1) 0) (a + 1 + 1) 0) (a + 1 + 1 + 1) 0)
    (a + 1 + 1 + 1 + 1) 0) (a + 1 + 1 + 1 + 1 + 1) 0) (a + 1 + 1 + 1 + 1 + 1 + 1) 0) (a + 1 + 1 + 1 + 1 + 1 + 1 + 1) 0).
  rewrite !rdb_wrb. repeat case_decide; try done. lia.
Qed.
Lemma frame_copy_in m dst src i : 0 ≤ i < TRAPFRAME_SIZE →
  rdb (frame_copy m dst src) (dst + i) = if decide (TF_A0 ≤ i < TF_A0 + 8) then 0 else rdb m (src + i).
Proof.
  intros Hi. unfold frame_copy. case_decide as Ha.
  - replace (dst + i) with (dst + TF_A0 + (i - TF_A0)) by lia. apply rdb_st64_zero. lia.
  - rewrite rdb_sto by (simpl; lia). rewrite rdb_memmove by done. rewrite (proj2 (within_spec _ _ _)) by lia. f_equal. lia.
Qed.

Section fork.
Context (kend trampoline forkret_addr : Z) (P : list Z).
Local Abbreviation KInv := (KInv kend trampoline P).
Local Abbreviation MemInv := (MemInv kend trampoline P).

Definition fork_post (x : sched) (o : osys) (q owned : list nat) (ds : gmap nat pmem) (ext : list Z) (w : list chan)
    (p : nat) (pr : proc) (d : pmem) (lp : list (option nat)) (ci : nat) (r : Z) (w' : world ksys) : Prop :=
  ∃ x' o' l', w' = World [] w (mkKsys x' o') ∧ undisturbed ds x x' ∧ harts false x x' ∧
    untouched (all_pages ds ++ ext) (ram (kms o)) (ram (kms o')) ∧
    ((r = -1 ∧ KInv (mkKsys x' o') q owned l' ds ext ∧ o' = o <| kms := kms o' |>) ∨
     (r = nextpid x ∧ ∃ n pn d' q' ln, ds !! n = None ∧ q' ≡ₚ n :: q ∧ KInv (mkKsys x' o') q' owned l' (<[n := d']> ds) ext ∧
        procs x' !! n = Some pn ∧ pid pn = r ∧ child (ram (kms o)) (ram (kms o')) p pr pn d d' ∧
        ofiles o !! n = Some ln ∧ fork_files_post o o' n lp ln ci)).

Section calls.
Context (x : sched) (o : osys) (q owned : list nat) (l : list Z) (ds : gmap nat pmem) (ext : list Z) (w : list chan).
Context (p : nat) (pr : proc) (d : pmem) (lp : list (option nat)) (ci : nat).
Context (HF : file_holder o p pr lp ci) (Hd : ds !! p = Some d) (Hpr : procs x !! p = Some pr).
Local Abbreviation post := (fork_post x o q owned ds ext w p pr d lp ci).
(** Between allocproc and the end: the child [n] is USED and locked. *)
Context (x1 : sched) (k1 k2 : kmem) (l2 : list Z) (n : nat) (pn : proc) (d' : pmem).
Context (HI1 : Inv x1 q owned) (Hund : undisturbed ds x x1) (Hh : harts false x x1) (Hn : ds !! n = None) (HnN : (n < NPROC)%nat).
Context (Hpn : procs x1 !! n = Some pn) (Hused : state pn = USED) (Hpid : pid pn = nextpid x) (Htf : trapframe pn = m_tf d') (Hpt : pagetable pn = m_root d').
Context (HO : ∀ j pr, procs x1 !! j = Some pr → n ≠ j → owns pr (ds !! j)) (HD : ∀ j, is_Some (ds !! j) → (j < NPROC)%nat).
Context (Hu1 : untouched (all_pages ds ++ ext) (ram (kms o)) (ram k1)) (Hu2 : untouched (all_pages ds ++ ext) (ram k1) (ram k2)).
Context (HM2 : MemInv k2 l2 (<[n := d']> ds) ext).

Lemma fork_fail : m_sz d' = 0 → sz pn = 0 →
  wp (freeproc kend n;; release (proc_lock n);; ret (-1)) post (World [proc_lock n] w (mkKsys x1 (o <| kms := k2 |>))).
Proof.
  intros Hs Hs'. assert (HK : KInv (mkKsys x1 (o <| kms := k2 |>)) q owned l2 (<[n := d']> ds) ext).
  { split; [done|done| |]; cbn.
    - intros j pj Hj. destruct (decide (n = j)) as [<-|Hne]; [|rewrite lookup_insert_ne by done; by apply HO].
      rewrite lookup_insert_eq. rewrite Hpn in Hj. injection Hj as <-. unfold owns. rewrite Hused, Hs. done.
    - intros j [dj Hj]. destruct (decide (n = j)) as [<-|]; [done|]. rewrite lookup_insert_ne in Hj by done. apply HD. by eexists. }
  apply wp_bind. eapply wp_mono; [eapply (freeproc_spec kend trampoline P x1 _ q owned l2 _ ext n pn d' _ w HK Hpn); [by rewrite lookup_insert_eq|congruence|congruence|set_solver]|].
  intros _ w' (k' & l' & -> & HK' & Hu). apply wp_bind, wp_release; [set_solver|]. apply wp_ret. rewrite setk_setk in *.
  rewrite delete_insert_id in HK' by done. unfold others in Hu. rewrite delete_insert_id in Hu by done.
  exists (setp x1 n (freed pn)), (o <| kms := k' |>), l'. split; [done|]. split; [eapply undisturbed_trans; [exact Hund|by apply undisturbed_setp]|].
  split; [eapply harts_trans; [exact Hh|by apply harts_same]|]. split; [|left; by split].
  eapply untouched_trans; [exact Hu1|]. by eapply untouched_trans.
Qed.

Lemma fork_success : clones (ram k1) (ram k2) d d' → untouched (all_pages ds ++ ext) (ram (kms o)) (ram k2) →
  wp (size ← get sz p; fork_inherit p n size;; fork_publish p n) post (World [proc_lock n] w (mkKsys x1 (o <| kms := k2 |>))).
Proof.
  intros Hc Hu. assert (Hpn' : p ≠ n) by congruence. destruct (Hund p pr) as (pr1 & Hpr1 & Hmf & Hid); [by eexists|done|].
  injection Hmf as E1 E2 E3 E4 E5. destruct HF as [F1 F2 F3 F4 F5 F6]. pose proof (HO p pr1 Hpr1 ltac:(done)) as Hown. rewrite Hd in Hown. destruct Hown as (_ & O1 & O2 & O3).
  destruct (lookup_lt_is_Some_2 (ofiles o) n) as [ln Hln]; [by rewrite F1|].
  apply wp_bind. eapply wp_getp; [exact Hpr1|]. apply wp_bind.
  eapply wp_mono; [eapply (fork_inherit_spec p n x1 (o <| kms := k2 |>) pr1 pn lp ln ci); try done; congruence|].
  intros _ w' (o' & -> & Hk & Hff). cbn [kms set_field] in Hk. set (pn2 := set_field name _ _) in *.
  assert (Hsame : same_sched pn pn2) by (by split). assert (G1 : trapframe pn2 = m_tf d') by exact Htf. assert (G2 : pagetable pn2 = m_root d') by exact Hpt.
  assert (G3 : sz pn2 = sz pr1) by done. assert (G4 : pid pn2 = nextpid x) by exact Hpid. assert (G5 : cwd pn2 = Some ci) by done.
  assert (G6 : name pn2 = name_copy (name pn) (name pr1)) by done. clearbody pn2.
  assert (HI2 : Inv (setp x1 n pn2) q owned) by (by eapply Inv_same).
  eapply wp_mono; [eapply (fork_publish_spec p n _ o' q owned pn2 w HI2); [by eapply setp_eq|by rewrite (sm_state _ _ Hsame)]|].
  intros r w' (-> & x' & q' & -> & HI' & Hq' & Hkept & Hh'). rewrite setp_setp in Hkept. set (pn3 := set_field ProcData.parent _ pn2) in *.
  assert (Hpn3 : memf pn3 = memf pn2 ∧ state pn3 = state pn2 ∧ (pid pn3, parent pn3) = (pid pn2, Some p)) by done. clearbody pn3. destruct Hpn3 as (Hm3 & Hs3 & Hi3).
  assert (Hx3 : procs (setp x1 n pn3) !! n = Some pn3) by (by eapply setp_eq).
  destruct (lookup_lt_is_Some_2 (procs x') n) as [pf Hpf]; [rewrite (kt_len _ _ _ _ Hkept); by eapply lookup_lt_Some|].
  pose proof (kt_mem _ _ _ _ Hkept _ _ _ Hx3 Hpf) as Hmf. pose proof (kt_ident _ _ _ _ Hkept _ _ _ Hx3 Hpf eq_refl) as Hif.
  destruct (poke_frame _ _ _ _ _ _ _ n d' (frame_copy (ram k2) (m_tf d') (m_tf d)) HM2) as [HM3 Hu3]; [by rewrite lookup_insert_eq|intros; by apply frame_copy_out|].
  assert (Hk' : kms o' = k2 <| ram := frame_copy (ram k2) (m_tf d') (m_tf d) |>) by (rewrite Hk, Htf, O1; done). clear Hk.
  unfold others in Hu3. rewrite delete_insert_id in Hu3 by done. assert (Hmsz : m_sz d' = m_sz d) by apply Hc.
  exists x', o', l2. split; [done|]. split; [|split; [|split; [|right; split; [done|]]]].
  - eapply undisturbed_trans; [exact Hund|]. eapply undisturbed_trans; [by apply (undisturbed_setp ds x1 n pn3)|by apply undisturbed_kept].
  - eapply harts_trans; [exact Hh|]. eapply (harts_trans _ _ (setp x1 n pn2)); [by apply harts_same|exact Hh'].
  - eapply untouched_trans; [exact Hu|]. rewrite Hk'. eapply untouched_sub; [|exact Hu3]. set_solver.
  - exists n, pf, d', q', ln. split; [done|]. split; [done|]. split; [|split; [done|split; [congruence|split; [|split; [done|destruct Hff; by split]]]]].
    + split; cbn; [done|by rewrite Hk'| |].
      * eapply owns_kept; [exact Hkept|]. eapply (own_setp x1 n _ ds); [by eexists|exact HO| |intros; by rewrite lookup_insert_ne].
        rewrite lookup_insert_eq. cbn. injection Hm3 as -> -> -> _ _. rewrite Hs3, (sm_state _ _ Hsame), Hused, G3, O3, Hmsz. done.
      * intros j [dj Hj]. destruct (decide (n = j)) as [<-|]; [done|]. rewrite lookup_insert_ne in Hj by done. apply HD. by eexists.
    + rewrite Hm3 in Hmf. injection Hmf as _ _ _ M4 M5. split; [congruence|congruence|exists (name pn); congruence| |].
      * rewrite Hk'. eapply clones_ext; [exact Hc| | |by eapply untouched_sub; [|exact Hu1]; intros; apply elem_of_app; left; eapply elem_of_all_pages; exists p, d; split; [done|]; unfold m_pages; set_solver|].
        -- eapply sp_proc, (mi_space _ _ _ _ _ _ _ HM2 p). by rewrite lookup_insert_ne.
        -- eapply sp_proc, (mi_space _ _ _ _ _ _ _ HM2 n). by rewrite lookup_insert_eq.
        -- eapply untouched_sub; [|exact Hu3]. set_solver.
      * intros i Hi. rewrite Hk'. cbn [ram set_field]. rewrite frame_copy_in by done. case_decide; [done|].
        apply (Hu (m_tf d)); [apply elem_of_app; left; apply elem_of_all_pages; exists p, d; split; [done|by left]|unfold in_page, TRAPFRAME_SIZE, PGSIZE in *; lia].
Qed.
End calls.

Lemma fork_spec x o q owned l ds ext w p pr d lp ci : KInv (mkKsys x o) q owned l ds ext → frame trampoline →
  running x p pr → ds !! p = Some d → file_holder o p pr lp ci →
  wp (fork kend trampoline forkret_addr) (fork_post x o q owned ds ext w p pr d lp ci) (World [] w (mkKsys x o)).
Proof.
  intros HK Htr Hr Hd HF. pose proof (rn_proc _ _ _ Hr) as Hpr. unfold fork. apply wp_bind. eapply wp_me; [exact Hr|].
  apply wp_bind. eapply wp_mono; [by eapply (allocproc_spec kend trampoline forkret_addr P x o q owned l ds ext w HK)|].
  intros [n|] w1 (x1 & k1 & l1 & Hu1 & Hh & Hund & Hr1).
  2:{ destruct Hr1 as [-> HK1]. apply wp_ret. exists x1, (o <| kms := k1 |>), l1. split; [done|]. split; [done|]. split; [done|]. split; [done|]. by left. }
  destruct Hr1 as (-> & Hn & HnN & tf & root & T & [HI1 HM1 HO1 HD1] & Hs & Hpid). cbn in *.
  assert (Hpn : n ≠ p) by congruence. destruct (Hund p pr) as (pr1 & Hpr1 & Hmf & _); [by eexists|done|]. injection Hmf as E1 E2 E3 _ _.
  unfold state_at in Hs. destruct (procs x1 !! n) as [pn|] eqn:Hpn1; [|done]. cbn in Hs, Hpid. injection Hs as Hs. injection Hpid as Hpid.
  pose proof (HO1 n pn Hpn1) as Hown. rewrite lookup_insert_eq in Hown. destruct Hown as (_ & N1 & N2 & N3). cbn [new_pmem m_tf m_root m_sz] in N1, N2, N3.
  pose proof (HO1 p pr1 Hpr1) as Hown. rewrite lookup_insert_ne, Hd in Hown by done. destruct Hown as (_ & O1 & O2 & O3).
  apply wp_bind. eapply wp_getp; [exact Hpr1|]. apply wp_bind. eapply wp_getp; [exact Hpn1|]. apply wp_bind. eapply wp_getp; [exact Hpr1|].
  rewrite O2, N2, O3. cbn [new_pmem m_root]. apply wp_bind, wp_mop.
  eapply wp_mono; [eapply (uvmcopy_mem kend trampoline P k1 l1 _ ext p d n tf root T _ w HM1); [by rewrite lookup_insert_ne|by rewrite lookup_insert_eq|done|set_solver]|].
  intros r w2 (k2 & l2 & d' & -> & HM2 & T1 & T2 & Hu2 & Hres). cbn [held wakes st]. rewrite insert_insert_eq in HM2. unfold others in Hu2. rewrite delete_insert_id in Hu2 by done.
  assert (Hu2' : untouched (all_pages ds ++ ext) (ram k1) (ram k2)) by (eapply untouched_sub; [|exact Hu2]; set_solver).
  assert (HO : ∀ j pj, procs x1 !! j = Some pj → n ≠ j → owns pj (ds !! j)).
  { intros j pj Hj Hne. pose proof (HO1 j pj Hj) as H. by rewrite lookup_insert_ne in H. }
  assert (HD : ∀ j, is_Some (ds !! j) → (j < NPROC)%nat).
  { intros j Hj. apply HD1. destruct (decide (n = j)) as [<-|]; [by rewrite lookup_insert_eq|by rewrite lookup_insert_ne]. }
  rewrite setk_setk. destruct Hres as [[-> Hc]|[-> Hsz]]; cbn [Z.ltb Z.compare].
  - eapply (fork_success x o q owned ds ext w p pr d lp ci HF Hd Hpr x1 k1 k2 l2 n pn d'); try done; [congruence|congruence|by eapply untouched_trans].
  - eapply (fork_fail x o q owned ds ext w p pr d lp ci HF Hd Hpr x1 k1 k2 l2 n pn d'); try done; congruence.
Qed.
End fork.

(** ** The first process

    A machine with sixteen pages, on which one process has been created and
    runs. *)
Definition first_os : osys :=
  mkOsys (mkFs (mkLsys (mkBsys [] ∅ [] 1) (mkLog 2 30 0 false ROOTDEV (mkLh 0 []))) (repeat inode0 NINODE) (mkSb FSMAGIC 2000 1954 200 30 2 32 45) 0 ∅ ∅ (λ _, true))
    boot_mem (repeat file0 NFILE) ∅ (repeat (repeat None NOFILE) NPROC) 0 false 0 [].
Definition first_boot : ksys := mkKsys boot_sched first_os.
Lemma boot_Inv : Inv boot_sched [] [].
Proof.
  destruct (si_inv _ boot_inv) as [q HI]. assert (sys_owned boot = []) as E by reflexivity. rewrite E in HI.
  assert (q = []) as ->; [|done]. destruct q as [|i q]; [done|]. exfalso. assert (Hs : state_at boot_sched i = Some RUNNABLE) by (apply (inv_own _ _ _ HI); by left).
  apply state_lookup in Hs as (pr & Hi & Hs). apply boot_lookup in Hi as ->. done.
Qed.
Lemma boot_mem_inv : MemInv vkend demo_tramp free_pages boot_mem free_pages ∅ [].
Proof.
  pose proof boot_mem_ka as HK. split; [done| | |done].
  - split; [apply HK|]. apply Forall_forall. intros a Ha. by eapply KA_ok.
  - unfold all_pages. rewrite map_to_list_empty. by rewrite !app_nil_r.
Qed.
Lemma first_boot_inv : KInv vkend demo_tramp free_pages first_boot [] [] free_pages ∅ [].
Proof.
  split; [exact boot_Inv|exact boot_mem_inv| |by intros i []%lookup_empty_is_Some].
  intros i pr Hi. apply boot_lookup in Hi as ->. by rewrite lookup_empty.
Qed.
Definition first_start : M ksys bool :=
  np ← allocproc vkend demo_tramp 0x80002000;
  n ← nonnull np;
  put n (λ p, p <| ProcData.cwd := Some 0%nat |>);;
  release (proc_lock n);;
  sop (fork_ready n);;
  sop (insertProcess (Some n));;
  m ← sop retrieveProcess;
  i ← nonnull m;
  sop (hart_run i RNew).
Definition first_world : world ksys := ending first_start (World [] [] first_boot).
Lemma first_alloc_result : result (allocproc vkend demo_tramp 0x80002000) (World [] [] first_boot) = Some (Some 0%nat).
Proof. vm_compute. reflexivity. Qed.
Lemma wp_with_result {S A} (m : M S A) Φ w r : wp m Φ w → result m w = Some r → wp m (λ a w', a = r ∧ Φ a w') w.
Proof. unfold wp, result. destruct (m w); try done. by intros H [= ->]. Qed.
Lemma boot_cpu : ∃ c, cpus boot_sched !! tp boot_sched = Some c ∧ cproc c = None.
Proof. vm_compute. eauto. Qed.
Lemma demo_frame : frame demo_tramp.
Proof. by vm_compute. Qed.
Lemma first_start_spec : wp first_start (λ _ w', ∃ x k l d, w' = World [] [] (mkKsys x (first_os <| kms := k |>)) ∧
  KInv vkend demo_tramp free_pages (mkKsys x (first_os <| kms := k |>)) [] [] l {[0%nat := d]} []) (World [] [] first_boot).
Proof.
  unfold first_start. apply wp_bind. eapply wp_mono; [apply wp_with_result, first_alloc_result|].
  { apply (allocproc_spec _ _ _ _ _ _ _ _ _ _ _ _ first_boot_inv demo_frame). }
  intros ? w1 [-> (x1 & k & l & _ & Hh1 & _ & -> & _ & _ & tf & root & T & HK & Hs & _)].
  apply wp_bind, wp_ret. set (o := first_os <| kms := k |>) in *. assert (Ho : o = first_os <| kms := kms o |>) by done. clearbody o. destruct (state_lookup _ _ _ Hs) as (pn & Hn & E).
  apply wp_bind. eapply wp_put; [exact Hn|]. set (x2 := setp x1 0 _). apply wp_bind, wp_release; [set_solver|].
  destruct HK as [HI HM HO HD]. cbn in HI, HM, HO.
  assert (HI2 : Inv x2 [] []) by (eapply Inv_same; [exact HI|exact Hn|by split]).
  assert (HO2 : ∀ i pr, procs x2 !! i = Some pr → owns pr (<[0%nat := new_pmem demo_tramp tf root T]> (∅ : gmap nat pmem) !! i)).
  { eapply (own_setp x1 0); [by eexists|intros j pr Hj _; by apply HO| |done]. apply (HO 0%nat pn Hn). }
  assert (Hs2 : state_at x2 0 = Some USED) by (unfold state_at, x2; rewrite (setp_eq _ _ _ _ Hn); cbn; by f_equal).
  assert (Hh2 : harts false boot_sched x2) by (eapply (harts_trans _ boot_sched x1); [done|by apply harts_same]).
  assert (HK2 : KInv vkend demo_tramp free_pages (mkKsys x2 o) [] [] l {[0%nat := new_pmem demo_tramp tf root T]} []) by (by split).
  clearbody x2. clear -HK2 Hs2 Hh2 HI2 Ho. revert HK2. generalize (new_pmem demo_tramp tf root T). intros d HK.
  apply wp_bind, wp_sop. eapply wp_mono; [apply wp_keeps; [by apply keeps_fork_ready|by eapply fork_ready_safe]|].
  intros _ w1 [(x3 & -> & Hh3 & HI3) Hk3]. cbn [held wakes st] in *. apply wp_bind, wp_sop.
  eapply wp_mono; [apply wp_keeps; [apply (steady_at true []), st_insertProcess|by eapply fork_insert_safe]|].
  intros _ w2 [(x4 & -> & Hh4 & q' & Hq' & HI4) Hk4]. cbn [held wakes st] in *. apply Permutation_singleton_r in Hq' as ->.
  apply wp_bind, wp_sop. eapply wp_mono; [apply wp_keeps; [apply (steady_at true []), st_retrieveProcess|by eapply hart_pick_safe]|].
  intros [m|] w3 [(x5 & -> & Hh5 & HP) Hk5]; [|by destruct HP]. destruct HP as (? & [= <- <-] & HI5). cbn [held wakes st] in *.
  apply wp_bind, wp_ret, wp_sop. destruct boot_cpu as (c & Hc & Hn).
  assert (Hh : harts false boot_sched x5) by (eapply (harts_trans _ _ x2); [done|]; eapply (harts_trans _ _ x3); [done|]; by eapply harts_trans).
  destruct Hh as [Ht Hcs]. eapply wp_mono; [apply wp_keeps; [apply (steady_at true []), st_hart_run|eapply (hart_run_safe _ _ _ _ c)]|].
  - exact HI5.
  - rewrite Ht, Hcs by done. done.
  - done.
  - intros b w4 [(x6 & -> & _ & _ & HI6 & _) Hk6]. cbn [held wakes st] in *. exists x6.
    exists (kms o), l, d. rewrite <- Ho. split; [done|]. eapply KInv_kept; [exact HK| |exact HI6].
    eapply kept_comp; [exact Hk3|]. eapply kept_comp; [exact Hk4|]. eapply kept_comp; [exact Hk5|exact Hk6].
Qed.
Definition first_sched : sched := sch (st first_world).
Definition first_kernel : osys := os (st first_world).
Definition first_proc : proc := default proc0 (procs first_sched !! 0%nat).
Lemma first_start_result : result first_start (World [] [] first_boot) = Some true.
Proof. vm_compute. reflexivity. Qed.
Lemma first_inv : ∃ k l d, first_world = World [] [] (mkKsys first_sched (first_os <| kms := k |>)) ∧
  KInv vkend demo_tramp free_pages (mkKsys first_sched (first_os <| kms := k |>)) [] [] l {[0%nat := d]} [].
Proof.
  pose proof (wp_result _ _ _ _ first_start_spec first_start_result) as H. cbv beta in H. unfold first_sched.
  assert (E : first_world = ending first_start (World [] [] first_boot)) by (unfold first_world; reflexivity).
  rewrite <- E in H. clear E. generalize dependent first_world. intros W (x & k & l & d & -> & HK). exists k, l, d. exact (conj eq_refl HK).
Qed.
Lemma running_intro x p pr : (cpus x !! tp x) ≫= cproc = Some p → procs x !! p = Some pr → running x p pr.
Proof. intros Hc Hp. split; [|done]. destruct (cpus x !! tp x) as [c|]; [|done]. by exists c. Qed.
Lemma first_running : running first_sched 0 first_proc.
Proof.
  apply running_intro; vm_compute; reflexivity.
Qed.
Lemma first_holder k : file_holder (first_os <| kms := k |>) 0 first_proc (repeat None NOFILE) 0.
Proof.
  split; try reflexivity.
  - intros f Hf. apply list_elem_of_In, repeat_spec in Hf. done.
  - vm_compute. eauto.
Qed.

(** ** fork is correct *)
(** C6: fork called by a running process that holds its files and directory,
    from any kernel state in which the run queue, the free list and every
    process's memory are consistent, returns. Either it returns -1 and the
    free list, the page tables and the run queue describe the same processes
    as before, with no page lost; or it returns the pid that was next, and a
    slot that was free is a queued process of that pid, whose parent is the
    caller, whose memory maps the same addresses to copies of the caller's
    pages, whose saved registers are the caller's but a0, which is 0, and which
    shares the caller's open files and directory with their reference counts
    raised. In both cases no page of another process changes and the harts run
    what they ran. *)
Theorem fork_correct kend trampoline forkret_addr P x o q owned l ds ext w p pr d lp ci :
  KInv kend trampoline P (mkKsys x o) q owned l ds ext → frame trampoline →
  running x p pr → ds !! p = Some d → file_holder o p pr lp ci →
  ∃ r w', fork kend trampoline forkret_addr (World [] w (mkKsys x o)) = Done r w' ∧
    fork_post kend trampoline P x o q owned ds ext w p pr d lp ci r w'.
Proof. intros HK Htr Hr Hd HF. apply wp_done. by eapply fork_spec. Qed.
Lemma result_done {S A} (m : M S A) w r w' r' : m w = Done r w' → result m w = Some r' → r = r'.
Proof. unfold result. by intros -> [= ->]. Qed.
Lemma first_fork_result : result (fork vkend demo_tramp 0x80002000) first_world = Some 2.
Proof. vm_compute. reflexivity. Qed.
Lemma fork_correct_witness : ∃ k d r w', first_world = World [] [] (mkKsys first_sched (first_os <| kms := k |>)) ∧
  fork vkend demo_tramp 0x80002000 (World [] [] (mkKsys first_sched (first_os <| kms := k |>))) = Done r w' ∧ r = 2 ∧
  fork_post vkend demo_tramp free_pages first_sched (first_os <| kms := k |>) [] [] {[0%nat := d]} [] [] 0 first_proc d (repeat None NOFILE) 0 r w'.
Proof.
  destruct first_inv as (k & l & d & E & HK). exists k, d.
  destruct (fork_correct vkend demo_tramp 0x80002000 free_pages first_sched (first_os <| kms := k |>) [] [] l {[0%nat := d]} [] []
    0 first_proc d (repeat None NOFILE) 0) as (r & w' & Hr & Hpost).
  - exact HK.
  - exact demo_frame.
  - exact first_running.
  - apply lookup_singleton_eq.
  - apply first_holder.
  - exists r, w'. split; [exact E|]. split; [exact Hr|]. split; [|exact Hpost].
    apply (result_done _ _ _ _ _ Hr). rewrite <- E. exact first_fork_result.
Defined.
