(* ===== verification/ProcWait.v ===== *)
(** * growproc and wait

    sbrk moves the end of a process's memory: old bytes stay, new pages are
    zero, removed pages are free again. wait takes the memory of an exited child
    back and hands its status to the parent. *)
From S2P Require Import Prelude Param ProcData RBTree RBSpec RBHeap RBInsert RunQueue Sched SchedInv SchedKeep.
From S2P Require Import CString Mem Kalloc Vm VmInv VmSpec VmUser VmFree VmCopy VmProc ProcVm ProcMem.
From S2P Require Import Bio Log Fs File SysFile Proc ProcSpec ProcFork.
Import Fs File Proc.

Local Abbreviation parent := ProcData.parent.

Section calls.
Context (kend trampoline : Z) (P : list Z).
Local Abbreviation KInv := (KInv kend trampoline P).
Local Abbreviation MemInv := (MemInv kend trampoline P).

(** ** growproc *)

(** From [d] to [d'] only the end of the user memory moved. *)
Record resized (m m' : mem) (d d' : pmem) : Prop := {
  rs_frame : m_tf d' = m_tf d ∧ m_root d' = m_root d;
  rs_old v pa f : 0 ≤ v < Z.min (up (m_sz d)) (up (m_sz d')) → m_space d !! v = Some (pa, f) →
    m_space d' !! v = Some (pa, f) ∧ ∀ i, 0 ≤ i < PGSIZE → rdb m' (pa + i) = rdb m (pa + i);
  rs_new v : up (m_sz d) ≤ v < up (m_sz d') → ∃ pa, m_space d' !! v = Some (pa, uflags PTE_W) ∧
    ∀ i, 0 ≤ i < PGSIZE → rdb m' (pa + i) = 0;
}.
Lemma resized_same m m' d T : proc_space trampoline (m_space d) (m_tf d) (m_sz d) (m_pas d) → untouched (m_pas d) m m' → resized m m' d (d <| m_tabs := T |>).
Proof.
  intros HS Hu. split; [done| |cbn; lia]. cbn. intros v pa f Hv Hpa. split; [done|]. intros i Hi.
  destruct (space_user_page _ _ _ _ _ v pa f HS ltac:(lia) Hpa) as [Hp _]. apply (Hu pa); [by eapply list_elem_of_lookup_2|unfold in_page; lia].
Qed.
Definition new_size (size n : Z) : Z := if (n <? 0) && (size + n <? 0) then size else size + n.
Definition grow_post (x : sched) (o : osys) (q owned : list nat) (ds : gmap nat pmem) (ext : list Z) (w : list chan)
    (p : nat) (pr : proc) (d : pmem) (n : Z) (r : Z) (w' : world ksys) : Prop :=
  ∃ k' l' d', w' = World [] w (mkKsys (setp x p (pr <| sz := m_sz d' |>)) (o <| kms := k' |>)) ∧
    KInv (mkKsys (setp x p (pr <| sz := m_sz d' |>)) (o <| kms := k' |>)) q owned l' (<[p := d']> ds) ext ∧
    untouched (m_tf d :: others ds ext p) (ram (kms o)) (ram k') ∧ resized (ram (kms o)) (ram k') d d' ∧
    ((r = 0 ∧ m_sz d' = new_size (m_sz d) n) ∨ (r = -1 ∧ 0 < n ∧ m_sz d' = m_sz d)).
Section grow.
Context (x : sched) (o : osys) (q owned : list nat) (l : list Z) (ds : gmap nat pmem) (ext : list Z) (w : list chan).
Context (p : nat) (pr : proc) (d : pmem) (n : Z).
Context (HK : KInv (mkKsys x o) q owned l ds ext) (Hr : running x p pr) (Hd : ds !! p = Some d).
Local Abbreviation post := (grow_post x o q owned ds ext w p pr d n).

Lemma grow_end k' l' d' : MemInv k' l' (<[p := d']> ds) ext → m_tf d' = m_tf d → m_root d' = m_root d →
  KInv (mkKsys (setp x p (pr <| sz := m_sz d' |>)) (o <| kms := k' |>)) q owned l' (<[p := d']> ds) ext.
Proof.
  destruct HK as [HI HM HO HD]. cbn in *. pose proof (rn_proc _ _ _ Hr) as Hpr. pose proof (HO p pr Hpr) as Hown. rewrite Hd in Hown.
  destruct Hown as (HU & O1 & O2 & O3). intros HM' E1 E2. split; cbn; [eapply Inv_same; [exact HI|exact Hpr|by split]|done| |].
  - eapply (own_setp x p _ ds); [by eexists|intros; by apply HO| |intros; by rewrite lookup_insert_ne]. rewrite lookup_insert_eq. cbn. rewrite E1, E2. done.
  - intros j Hj. apply HD. destruct (decide (p = j)) as [<-|]; [by eexists|]. by rewrite lookup_insert_ne in Hj.
Qed.
Lemma grow_own : pagetable pr = m_root d ∧ sz pr = m_sz d ∧ setp x p (pr <| sz := m_sz d |>) = x.
Proof.
  pose proof (rn_proc _ _ _ Hr) as Hpr. pose proof (ki_own _ _ _ _ _ _ _ _ _ HK p pr Hpr) as Hown. rewrite Hd in Hown. destruct Hown as (_ & _ & O2 & O3).
  split; [done|]. split; [done|]. rewrite <- O3. replace (pr <| sz := sz pr |>) with pr by (by destruct pr). by apply setp_id.
Qed.
Lemma grow_space : proc_space trampoline (m_space d) (m_tf d) (m_sz d) (m_pas d).
Proof. by eapply sp_proc, (mi_space _ _ _ _ _ _ _ (ki_mem _ _ _ _ _ _ _ _ _ HK) p). Qed.
Lemma grow_user v pa f m m' L i : 0 ≤ v < up (m_sz d) → m_space d !! v = Some (pa, f) → untouched L m m' →
  (∀ a, m_pas d !! Z.to_nat v = Some a → a ∈ L) → 0 ≤ i < PGSIZE → rdb m' (pa + i) = rdb m (pa + i).
Proof.
  intros Hv Hpa Hu HL Hi. destruct (space_user_page _ _ _ _ _ v pa f grow_space Hv Hpa) as [Hp _]. apply (Hu pa); [by apply HL|unfold in_page; lia].
Qed.
(** The size does not change. *)
Lemma grow_same r : ((r = 0 ∧ m_sz d = new_size (m_sz d) n) ∨ (r = -1 ∧ 0 < n)) → post r (World [] w (mkKsys x o)).
Proof.
  intros Hrr. destruct grow_own as (_ & _ & Hid). exists (kms o), l, (d <| m_tabs := m_tabs d |>). cbn [m_sz set_field]. rewrite Hid, setk_id.
  assert (E : d <| m_tabs := m_tabs d |> = d) by (by destruct d). rewrite E. rewrite insert_id by done. split; [done|]. split; [done|]. split; [done|].
  split; [rewrite <- E at 2; apply resized_same; [apply grow_space|done]|]. destruct Hrr as [?|[? ?]]; [by left|by right].
Qed.
Lemma grow_more : 0 < n < 2 ^ 31 → wp (size' ← mop (uvmalloc kend (m_root d) (m_sz d) (u64 (m_sz d + n)) PTE_W);
    if size' =? 0 then ret (-1) else put p (λ q, q <| sz := size' |>);; ret 0) post (World [] w (mkKsys x o)).
Proof.
  intros Hn. pose proof (rn_proc _ _ _ Hr) as Hpr. pose proof (ki_mem _ _ _ _ _ _ _ _ _ HK) as HM. cbn [os] in HM.
  pose proof (size_small _ _ _ _ _ _ _ _ _ HM Hd) as Hsz. destruct grow_own as (_ & _ & Hid).
  assert (HPT : PHYSTOP + 2 ^ 31 < TRAPFRAME) by done. rewrite u64_small by (unfold PHYSTOP, KERNBASE in *; lia). apply wp_bind, wp_mop.
  eapply wp_mono; [eapply (uvmalloc_mem kend trampoline P (kms o) l ds ext p d (m_sz d + n) [] w HM Hd); [lia|set_solver]|].
  intros r w' (k' & l' & T' & -> & Hu & Hres). cbn [held wakes st].
  assert (Hu' : untouched (m_tf d :: others ds ext p) (ram (kms o)) (ram k')) by (eapply untouched_sub; [|exact Hu]; set_solver).
  destruct Hres as [(-> & pas & HM' & Hz)|(-> & HM')].
  - rewrite (proj2 (Z.eqb_neq _ 0)) by lia. apply wp_bind. eapply wp_put; [exact Hpr|]. apply wp_ret.
    exists k', l', (grown_pmem d T' pas (m_sz d + n)). split; [done|]. split; [by apply grow_end|]. split; [done|].
    split; [|left; split; [done|]; unfold new_size; by rewrite (proj2 (Z.ltb_ge n 0)) by lia].
    pose proof (sp_proc _ _ _ (mi_space _ _ _ _ _ _ _ HM' p _ (lookup_insert_eq _ _ _))) as [_ _ [_ HL] _ _]. cbn [grown_pmem m_sz m_pas] in HL.
    rewrite length_app in HL. destruct grow_space as [_ _ [_ HL0] _ _]. split; [done| |]; cbn.
    + intros v pa f Hv Hpa. rewrite map_pages_out by lia. split; [done|]. intros i Hi. eapply (grow_user v pa f); [lia|done|exact Hu| |done].
      intros a Ha. apply elem_of_app. left. by eapply list_elem_of_lookup_2.
    + intros v Hv. destruct (lookup_lt_is_Some_2 pas (Z.to_nat (v - up (m_sz d)))) as [pa Hpa]; [lia|]. exists pa.
      replace v with (up (m_sz d) + Z.of_nat (Z.to_nat (v - up (m_sz d)))) by lia. split; [exact (map_pages_in _ _ _ _ _ _ Hpa)|].
      intros i Hi. apply Hz; [by eapply list_elem_of_lookup_2|done].
  - cbn [Z.eqb]. apply wp_ret. exists k', l', (d <| m_tabs := T' |>). cbn [m_sz set_field]. split; [by rewrite Hid|].
    split; [exact (grow_end k' l' (d <| m_tabs := T' |>) HM' eq_refl eq_refl)|]. split; [done|]. split; [|right; split; [done|]; split; [lia|done]].
    apply resized_same; [apply grow_space|]. eapply untouched_sub; [|exact Hu]. set_solver.
Qed.
Lemma grow_less : - 2 ^ 31 ≤ n < 0 → wp (size' ← mop (uvmdealloc kend (m_root d) (m_sz d) (u64 (m_sz d + n)));
    put p (λ q, q <| sz := size' |>);; ret 0) post (World [] w (mkKsys x o)).
Proof.
  intros Hn. pose proof (rn_proc _ _ _ Hr) as Hpr. pose proof (ki_mem _ _ _ _ _ _ _ _ _ HK) as HM. cbn [os] in HM.
  pose proof (size_small _ _ _ _ _ _ _ _ _ HM Hd) as Hsz. destruct grow_own as (_ & _ & Hid).
  assert (HPT : PHYSTOP + 2 ^ 31 < 2 ^ 63) by done. apply wp_bind, wp_mop. destruct (Z.ltb_spec (m_sz d + n) 0) as [Hlow|Hok].
  - unfold uvmdealloc. rewrite Z.geb_leb, (proj2 (Z.leb_le _ _)).
    2:{ replace (u64 (m_sz d + n)) with (2 ^ 64 + (m_sz d + n)); [lia|]. unfold u64. apply Z.mod_unique with (-1); lia. }
    apply wp_ret. cbn [held wakes st]. rewrite setk_id. apply wp_bind. eapply wp_put; [exact Hpr|]. apply wp_ret.
    rewrite Hid. apply grow_same. left. split; [done|]. unfold new_size. by rewrite (proj2 (Z.ltb_lt n 0)), (proj2 (Z.ltb_lt _ 0)) by lia.
  - rewrite u64_small by lia.
    eapply wp_mono; [eapply (uvmdealloc_mem kend trampoline P (kms o) l ds ext p d (m_sz d + n) [] w HM Hd); [lia|set_solver]|].
    intros r w' (-> & k' & l' & -> & HM' & Hu). cbn [held wakes st]. apply wp_bind. eapply wp_put; [exact Hpr|]. apply wp_ret.
    exists k', l', (shrunk_pmem d (m_sz d + n)). split; [done|]. split; [by apply grow_end|]. split; [eapply untouched_sub; [|exact Hu]; set_solver|].
    split; [|left; split; [done|]; unfold new_size; by rewrite (proj2 (Z.ltb_ge (m_sz d + n) 0)), andb_false_r by lia].
    pose proof (up_mono (m_sz d + n) (m_sz d) ltac:(lia)). split; [done| |cbn; lia]. cbn.
    intros v pa f Hv Hpa. destruct grow_space as [_ _ [_ HL0] _ _]. rewrite unmap_range_lookup, decide_False by (rewrite length_drop; lia). split; [done|]. intros i Hi.
    eapply (grow_user v pa f); [lia|done|exact Hu| |done]. intros a Ha. apply elem_of_app. left. apply list_elem_of_lookup. exists (Z.to_nat v). rewrite lookup_take_lt by lia. done.
Qed.
Lemma growproc_spec : - 2 ^ 31 ≤ n < 2 ^ 31 → wp (growproc kend n) post (World [] w (mkKsys x o)).
Proof.
  intros Hn. pose proof (rn_proc _ _ _ Hr) as Hpr. destruct grow_own as (O2 & O3 & Hid).
  unfold growproc. apply wp_bind. eapply wp_me; [exact Hr|]. apply wp_bind. eapply wp_getp; [exact Hpr|]. apply wp_bind. eapply wp_getp; [exact Hpr|].
  rewrite O2, O3. destruct (Z.ltb_spec 0 n); [apply grow_more; lia|]. destruct (Z.ltb_spec n 0); [apply grow_less; lia|].
  apply wp_bind. eapply wp_put; [exact Hpr|]. apply wp_ret. rewrite Hid. apply grow_same. left. split; [done|].
  assert (n = 0) as -> by lia. unfold new_size. cbn. lia.
Qed.
End grow.

(** ** wait *)
Context (xstate_addr : nat → Z).
(** The process table is outside the pages that kalloc hands out. *)
Context (Hout : ∀ i j q, 0 ≤ j < 4 → q ∈ P → ¬ in_page q (xstate_addr i + j)).

(** The bytes of [v] are at the user address [addr]. *)
Definition stored (m : mem) (U : space) (addr v : Z) : Prop :=
  ∀ j, 0 ≤ j < 4 → upage U (addr + j) ≠ 0 ∧ rdb m (phys U (addr + j)) = rdb (st32 ∅ 0 v) j.
(** Not all four bytes at [addr] are user memory. *)
Definition unwritable (U : space) (addr : Z) : Prop := ∃ j, 0 ≤ j < 4 ∧ upage U (addr + j) = 0.
Lemma sto_byte m a v j : 0 ≤ j < 4 → rdb (st32 m a v) (a + j) = rdb (st32 ∅ 0 v) j.
Proof.
  intros Hj. assert (E : ∀ m a, st32 m a v = wrb (wrb (wrb (wrb m a v) (a + 1) (v / 256)) (a + 1 + 1) (v / 256 / 256)) (a + 1 + 1 + 1) (v / 256 / 256 / 256)) by done.
  rewrite !E, !rdb_wrb. repeat case_decide; done || lia.
Qed.
Lemma wait_status_spec x o q owned l ds ext w h p pr d i pi addr : KInv (mkKsys x o) q owned l ds ext → procs x !! p = Some pr → ds !! p = Some d →
  procs x !! i = Some pi → 0 ≤ addr < 2 ^ 64 →
  wp (wait_status xstate_addr p i addr) (λ r w', ∃ k', w' = World h w (mkKsys x (o <| kms := k' |>)) ∧
    KInv (mkKsys x (o <| kms := k' |>)) q owned l ds ext ∧ untouched (m_tf d :: others ds ext p) (ram (kms o)) (ram k') ∧
    ((r = 0 ∧ if addr =? 0 then k' = kms o else stored (ram k') (m_space d) addr (xstate pi)) ∨ (r = -1 ∧ addr ≠ 0 ∧ unwritable (m_space d) addr)) ∧
    elsewhere (ram (kms o)) (ram k') d addr 4) (World h w (mkKsys x o)).
Proof.
  intros HK Hp Hd Hi Ha. unfold wait_status. destruct (Z.eqb_spec addr 0) as [->|Hne].
  { apply wp_ret. exists (kms o). rewrite setk_id. split; [done|]. split; [done|]. split; [done|]. split; [by left|by intros q0 b]. }
  destruct HK as [HI HM HO HD]. cbn in *. pose proof (HO p pr Hp) as Hown. rewrite Hd in Hown. destruct Hown as (_ & _ & O2 & _).
  apply wp_bind. eapply wp_getp; [exact Hp|]. apply wp_bind. eapply wp_getp; [exact Hi|]. apply wp_bind, wp_mop, wp_modify. cbn [held wakes st].
  rewrite O2. set (k1 := set_field ram _ (kms o)).
  assert (Hu1 : untouched P (ram (kms o)) (ram k1)).
  { intros a b Hq Hb. cbn. apply rdb_sto. intros Hr. apply (Hout i (b - xstate_addr i) a); [simpl in Hr; lia|done|].
    by replace (xstate_addr i + (b - xstate_addr i)) with b by lia. }
  assert (HPl : ∀ a, a ∈ l ∨ a ∈ all_pages ds ∨ a ∈ ext → a ∈ P) by (intros a Hq; rewrite <- (mi_part _ _ _ _ _ _ _ HM), !elem_of_app; done).
  assert (HM1 : MemInv k1 l ds ext).
  { eapply mi_poke; [exact HM|done|eapply untouched_sub; [|exact Hu1]; auto|]. intros j dj a b Hj Hq Hb. apply (Hu1 a); [|done].
    apply HPl. right. left. apply elem_of_all_pages. exists j, dj. split; [done|by apply tab_page]. }
  apply wp_mop. eapply wp_mono; [eapply (copyout_mem kend trampoline P k1 l ds ext p d addr (xstate_addr i) 4 h w HM1 Hd Ha); [lia|eauto]|].
  intros r w' (k' & -> & HM' & Hu & Hr & He). cbn [held wakes st]. rewrite setk_setk. exists k'. split; [done|]. split; [by split|].
  split; [eapply untouched_trans; [eapply untouched_sub; [|exact Hu1]|exact Hu]; intros a Ha'; apply (part_elem _ _ _ _ _ _ _ _ _ _ HM Hd); unfold m_pages; set_solver|].
  split.
  - destruct Hr as [[-> Hr]|[-> Hr]]; [left|by right]. split; [done|]. intros j Hj. destruct (Hr j Hj) as [Hp1 Hp2]. split; [done|]. rewrite Hp2. cbn. by apply sto_byte.
  - intros q0 b Hq Hb Hoth. rewrite (He q0 b Hq Hb Hoth). apply (Hu1 q0); [|done]. apply HPl. right. left. apply elem_of_all_pages. exists p, d. split; [done|].
    unfold m_pages. set_solver.
Qed.

(** What the hart does for a process that calls wait: the process returns, or
    it sleeps and the hart goes back to its scheduler. *)
Definition hart_wait (addr : Z) : M ksys (option Z) :=
  p ← me;
  r ← wait kend xstate_addr addr;
  match r with
  | Returned v => ret (Some v)
  | Slept _ => sop (scheduler_return p);; ret None
  end.
Lemma hart_sleep_unfold x c i ch lk Φ w : cpus x !! tp x = Some c → cproc c = Some i → wp (hart_sleep ch lk) Φ (World [] w x) →
  wp (sleep ch lk) (λ saved w1, wp (scheduler_return i) (λ _ w2, Φ saved w2) w1) (World [lk] w x).
Proof.
  intros Hc Hi. unfold hart_sleep, myproc, mycpu, cpuid, acquire, bind, gets, nonnull, wp, ret. cbn [held wakes st]. rewrite Hc. cbn [held wakes st]. rewrite Hi.
  cbn [held]. rewrite bool_decide_eq_false_2 by apply not_elem_of_nil. change ((World [] w x) <| held ::= cons lk |>) with (World [lk] w x).
  destruct (sleep ch lk (World [lk] w x)); try done. by destruct (scheduler_return i _).
Qed.

Section waiting.
Context (x : sched) (o : osys) (q owned : list nat) (l : list Z) (ds : gmap nat pmem) (ext : list Z) (w : list chan).
Context (p : nat) (pr : proc) (d : pmem) (addr : Z).
Context (HK : KInv (mkKsys x o) q owned l ds ext) (Hr : running x p pr) (Hd : ds !! p = Some d) (Ha : 0 ≤ addr < 2 ^ 64).

Definition exited (i : nat) (pi : proc) : Prop := procs x !! i = Some pi ∧ parent pi = Some p ∧ state pi = ZOMBIE.
(** A child has exited: it is gone and its status delivered, or the address
    was bad and the child is still there. *)
Definition reap_post (r : Z) (w' : world ksys) : Prop := ∃ i pi k' l', exited i pi ∧ is_Some (ds !! i) ∧
  ((r = -1 ∧ addr ≠ 0 ∧ unwritable (m_space d) addr ∧
      w' = World [] w (mkKsys x (o <| kms := k' |>)) ∧ KInv (mkKsys x (o <| kms := k' |>)) q owned l' ds ext ∧
      untouched (m_tf d :: others ds ext p) (ram (kms o)) (ram k') ∧ elsewhere (ram (kms o)) (ram k') d addr 4) ∨
   (r = pid pi ∧ w' = World [] w (mkKsys (setp x i (freed pi)) (o <| kms := k' |>)) ∧
      KInv (mkKsys (setp x i (freed pi)) (o <| kms := k' |>)) q owned l' (delete i ds) ext ∧
      untouched (m_tf d :: others (delete i ds) ext p) (ram (kms o)) (ram k') ∧ elsewhere (ram (kms o)) (ram k') d addr 4 ∧
      if addr =? 0 then untouched (m_pas d) (ram (kms o)) (ram k') else stored (ram k') (m_space d) addr (xstate pi))).

Lemma proc_wait_lock i : proc_lock i ∉ [wait_lock].
Proof. by intros [=]%list_elem_of_singleton. Qed.
Lemma others_delete i j a : a ∈ others (delete i ds) ext j → a ∈ others ds ext j ∧ a ∈ others ds ext i.
Proof.
  unfold others. rewrite !elem_of_app. intros [Hq|]; [|tauto]. apply elem_of_all_pages in Hq as (k & dk & Hk & Hq).
  apply lookup_delete_Some in Hk as [H1 Hk]. apply lookup_delete_Some in Hk as [H2 Hk].
  split; left; apply elem_of_all_pages; exists k, dk; (split; [by rewrite lookup_delete_ne|done]).
Qed.
Lemma stored_ext m m' v : stored m (m_space d) addr v → untouched (m_pas d) m m' → stored m' (m_space d) addr v.
Proof.
  intros Hs Hu j Hj. destruct (Hs j Hj) as [H1 H2]. split; [done|]. rewrite <- H2.
  pose proof (sp_proc _ _ _ (mi_space _ _ _ _ _ _ _ (ki_mem _ _ _ _ _ _ _ _ _ HK) p d Hd)) as HS.
  destruct (user_phys _ _ _ _ _ _ HS H1) as [_ Hp]. apply (Hu _ _ (list_elem_of_lookup_2 _ _ _ Hp)). apply phys_page.
Qed.
Lemma reap_spec i pi : exited i pi →
  wp (n ← get pid i;
      r ← wait_status xstate_addr p i addr;
      if r <? 0 then release (proc_lock i);; release wait_lock;; ret (inl (-1))
      else freeproc kend i;; release (proc_lock i);; release wait_lock;; ret (inl n))
    (λ (r : Z + bool) w', ∃ v, r = inl v ∧ reap_post v w') (World [proc_lock i; wait_lock] w (mkKsys x o)).
Proof.
  intros Hx. pose proof Hx as (Hi & Hpar & Hz). pose proof (rn_proc _ _ _ Hr) as Hpr.
  pose proof (ki_own _ _ _ _ _ _ _ _ _ HK i pi Hi) as Hown. destruct (ds !! i) as [di|] eqn:Hdi; [|destruct Hown; congruence].
  assert (Hpi : p ≠ i).
  { intros ->. destruct Hr as [(c & Hc & Hci) _]. destruct (inv_hart _ _ _ (ki_inv _ _ _ _ _ _ _ _ _ HK) c i Hc Hci) as (pr' & Hp' & Hrun & _). cbn in Hp'. congruence. }
  apply wp_bind. eapply wp_getp; [exact Hi|]. apply wp_bind.
  eapply wp_mono; [by eapply (wait_status_spec x o q owned l ds ext w _ p pr d i pi addr HK Hpr Hd Hi)|].
  intros r w1 (k1 & -> & HK1 & Hu1 & Hres & He1). destruct Hres as [[-> Hst]|(-> & Hne & Hbad)]; cbn [Z.ltb Z.compare].
  - apply wp_bind. eapply wp_mono; [eapply (freeproc_spec kend trampoline P x _ q owned l ds ext i pi di); [exact HK1|exact Hi|exact Hdi|congruence|congruence|]|].
    { intros [[=]|[[=]|Hx']%elem_of_cons]%elem_of_cons. by apply not_elem_of_nil in Hx'. }
    intros _ w2 (k2 & l2 & -> & HK2 & Hu2). rewrite setk_setk in *. cbn [kms set_field] in Hu2.
    apply wp_bind, wp_release; [apply proc_wait_lock|]. apply wp_bind, wp_release; [set_solver|]. apply wp_ret.
    exists (pid pi). split; [done|]. exists i, pi, k2, l2. split; [done|]. split; [by eexists|]. right. split; [done|]. split; [done|]. split; [done|].
    assert (Hown' : untouched (m_tf d :: m_pas d) (ram k1) (ram k2)).
    { eapply untouched_sub; [|exact Hu2]. intros a Ha'. eapply others_page; [exact Hd|done|]. unfold m_pages. set_solver. }
    split.
    + eapply untouched_trans; [eapply untouched_sub; [|exact Hu1]|].
      * intros a [->|Ha']%elem_of_cons; [by left|right; by apply (others_delete i)].
      * intros a b [->|Ha']%elem_of_cons Hb; [apply (Hown' (m_tf d)); [by left|done]|apply (Hu2 a); [by apply (others_delete i p)|done]].
    + assert (Hp2 : untouched (m_pas d) (ram k1) (ram k2)) by (eapply untouched_sub; [|exact Hown']; set_solver).
      split; [intros a b Ha' Hb Hoth; rewrite (Hp2 a b Ha' Hb); by apply (He1 a)|].
      destruct (Z.eqb_spec addr 0); [by rewrite Hst in Hp2|by eapply stored_ext].
  - apply wp_bind, wp_release; [apply proc_wait_lock|]. apply wp_bind, wp_release; [set_solver|]. apply wp_ret. exists (-1). split; [done|].
    exists i, pi, k1, l. split; [done|]. split; [by eexists|]. left. done.
Qed.
Lemma wait_scan_spec ls : ∀ hk, Forall (λ i, (i < NPROC)%nat) ls →
  wp (wait_scan kend xstate_addr ls p addr hk) (λ r w', match r with
    | inl v => reap_post v w'
    | inr hk' => w' = World [wait_lock] w (mkKsys x o) ∧
        (hk' = true ↔ hk = true ∨ ∃ i, i ∈ ls ∧ parent <$> procs x !! i = Some (Some p)) ∧ (∀ i pi, i ∈ ls → ¬ exited i pi)
    end) (World [wait_lock] w (mkKsys x o)).
Proof.
  induction ls as [|i ls IH]; intros hk Hls; cbn [wait_scan].
  { apply wp_ret. split; [done|]. split; [|intros i pi []%not_elem_of_nil]. split; [by left|]. intros [?|(i & []%not_elem_of_nil & _)]. done. }
  inversion Hls as [|? ? Hi Hls']; subst. destruct (inv_lookup _ _ _ (ki_inv _ _ _ _ _ _ _ _ _ HK) i Hi) as [pi Hpi]. cbn [sch] in Hpi.
  apply wp_bind. eapply wp_getp; [exact Hpi|]. case_bool_decide as Hpar.
  - apply wp_bind, wp_acquire; [apply proc_wait_lock|]. apply wp_bind. eapply wp_getp; [exact Hpi|]. case_bool_decide as Hz.
    + eapply wp_mono; [by apply (reap_spec i pi)|]. by intros r w' (v & -> & H).
    + apply wp_bind, wp_release; [apply proc_wait_lock|]. eapply wp_mono; [by apply IH|]. intros [v|hk'] w' H; [done|]. destruct H as (-> & H1 & H2).
      split; [done|]. split.
      * rewrite H1. split; [intros _; right; exists i; split; [by left|rewrite Hpi; cbn; by rewrite Hpar]|by left].
      * intros j pj [->|Hj]%elem_of_cons; [|by apply H2]. intros (E1 & _ & E3). congruence.
  - eapply wp_mono; [by apply IH|]. intros [v|hk'] w' H; [done|]. destruct H as (-> & H1 & H2). split; [done|]. split.
    + rewrite H1. split; (intros [?|(j & Hj & Hjp)]; [by left|right; exists j]).
      * split; [by right|done].
      * apply elem_of_cons in Hj as [->|Hj]; [|done]. rewrite Hpi in Hjp. cbn in Hjp. congruence.
    + intros j pj [->|Hj]%elem_of_cons; [|by apply H2]. intros (E1 & E2 & _). congruence.
Qed.
Definition wait_post (r : option Z) (w' : world ksys) : Prop :=
  let children := ∃ i, parent <$> procs x !! i = Some (Some p) in
  match r with
  | Some v => reap_post v w' ∨ (v = -1 ∧ w' = World [] w (mkKsys x o) ∧ (¬ children ∨ ProcData.killed pr ≠ 0) ∧ ∀ i pi, ¬ exited i pi)
  | None => ∃ x', w' = World [] w (mkKsys x' o) ∧ KInv (mkKsys x' o) q owned l ds ext ∧ state_at x' p = Some SLEEPING ∧
      undisturbed ds x x' ∧ children ∧ ∀ i pi, ¬ exited i pi
  end.
Lemma hart_wait_spec : wp (hart_wait addr) wait_post (World [] w (mkKsys x o)).
Proof.
  pose proof (rn_proc _ _ _ Hr) as Hpr. pose proof (ki_inv _ _ _ _ _ _ _ _ _ HK) as HI. cbn [sch] in HI.
  assert (Hall : ∀ i pi, procs x !! i = Some pi → i ∈ seq 0 NPROC).
  { intros i pi Hi. apply lookup_lt_Some in Hi. rewrite (rq_len _ _ (inv_rq _ _ _ HI)) in Hi. apply elem_of_seq. lia. }
  unfold hart_wait. apply wp_bind. eapply wp_me; [exact Hr|]. apply wp_bind. unfold wait. apply wp_bind. eapply wp_me; [exact Hr|].
  apply wp_bind, wp_acquire; [set_solver|]. unfold wait_turn. apply wp_bind. eapply wp_mono; [apply (wait_scan_spec _ false seq_below)|].
  intros [v|hk] w1 H; [do 2 apply wp_ret; by left|]. destruct H as (-> & Hk & Hno).
  assert (Hno' : ∀ i pi, ¬ exited i pi) by (intros i pi Hx; by apply (Hno i pi (Hall i pi (proj1 Hx)))).
  apply wp_bind. destruct hk.
  - apply wp_sop. unfold is_killed. apply wp_bind, wp_acquire; [apply proc_wait_lock|]. apply wp_bind. eapply wp_rd; [exact Hpr|].
    apply wp_bind, wp_release; [apply proc_wait_lock|]. apply wp_ret. cbn [held wakes st negb orb].
    assert (Hch : ∃ i, parent <$> procs x !! i = Some (Some p)) by (destruct (proj1 Hk eq_refl) as [?|(i & _ & Hi)]; [done|eauto]).
    destruct (Z.eqb_spec (ProcData.killed pr) 0) as [E|E]; cbn [negb].
    + pose proof (rn_cpu _ _ _ Hr) as (c & Hc & Hci). destruct (inv_hart _ _ _ HI c p Hc Hci) as (pr' & Hp' & Hrun & _).
      assert (Hsl : wp (hart_sleep ("proc", p) wait_lock) (λ _ w', (∃ x', w' = World [] w x' ∧ harts true x x' ∧ Inv x' q owned ∧ state_at x' p = Some SLEEPING) ∧ kept true [] x (st w')) (World [] w x)).
      { apply (wp_keeps true []); [eapply keeps_hart_sleep; [exact Hc|exact Hci|unfold state_at; rewrite Hp'; cbn; by f_equal]|by eapply hart_sleep_safe]. }
      apply (hart_sleep_unfold x c p _ _ _ w Hc Hci) in Hsl. apply wp_bind, wp_sop. eapply wp_mono; [exact Hsl|]. intros saved w1 H1.
      apply wp_ret, wp_bind, wp_sop. destruct w1 as [h1 k1 x1]. eapply wp_mono; [exact H1|]. intros _ w2 [(x' & -> & _ & HI' & Hs') Hkept]. apply wp_ret.
      exists x'. split; [done|]. split; [by eapply KInv_kept|]. split; [done|]. split; [by apply undisturbed_kept|]. done.
    + apply wp_bind, wp_release; [set_solver|]. do 2 apply wp_ret. right. split; [done|]. split; [done|]. split; [by right|done].
  - apply wp_ret. cbn [negb orb]. apply wp_bind, wp_release; [set_solver|]. do 2 apply wp_ret. right. split; [done|]. split; [done|]. split; [left|done].
    intros (i & Hi). assert (false = true); [|done]. apply Hk. right. exists i. split; [|done]. destruct (procs x !! i) as [pi|] eqn:E; [by eapply Hall|done].
Qed.
End waiting.
End calls.

(** ** growproc moves the end *)
(** C12: growproc called by a running process with any int, from any
    kernel state in which the run queue, the free list and every process's
    memory are consistent, returns, and the invariant holds again. On 0 the
    size is the old one plus n, unless that is negative, in which case nothing
    moves; on -1, which only a positive n gives, the size is the old one. The
    pages below both ends stay mapped where they were with their bytes, the
    pages past the old end are mapped to writable zeroed pages, and the pages
    of other processes and the saved registers are untouched. *)
Theorem growproc_moves_end kend trampoline P x o q owned l ds ext w p pr d n :
  KInv kend trampoline P (mkKsys x o) q owned l ds ext → running x p pr → ds !! p = Some d → - 2 ^ 31 ≤ n < 2 ^ 31 →
  ∃ r w', growproc kend n (World [] w (mkKsys x o)) = Done r w' ∧ grow_post kend trampoline P x o q owned ds ext w p pr d n r w'.
Proof. intros HK Hr Hd Hn. apply wp_done. by eapply growproc_spec. Qed.
Lemma first_grow_result : result (growproc vkend 5000) first_world = Some 0.
Proof. vm_compute. reflexivity. Qed.
Lemma growproc_moves_end_witness : ∃ k d r w', first_world = World [] [] (mkKsys first_sched (first_os <| kms := k |>)) ∧
  growproc vkend 5000 (World [] [] (mkKsys first_sched (first_os <| kms := k |>))) = Done r w' ∧ r = 0 ∧
  grow_post vkend demo_tramp free_pages first_sched (first_os <| kms := k |>) [] [] {[0%nat := d]} [] [] 0 first_proc d 5000 r w'.
Proof.
  destruct first_inv as (k & l & d & E & HK). exists k, d.
  destruct (growproc_moves_end vkend demo_tramp free_pages first_sched (first_os <| kms := k |>) [] [] l {[0%nat := d]} [] []
    0 first_proc d 5000) as (r & w' & Hr & Hpost).
  - exact HK.
  - exact first_running.
  - apply lookup_singleton_eq.
  - clear. lia.
  - exists r, w'. split; [exact E|]. split; [exact Hr|]. split; [|exact Hpost].
    apply (result_done _ _ _ _ _ Hr). rewrite <- E. exact first_grow_result.
Defined.

(** ** wait reaps

    The witness has a second process, a child of the first that has exited with
    status 7, which goes to an address two bytes before the end of a page. *)
Definition gone (pr : proc) : proc := pr <| ProcData.parent := Some 0%nat |> <| xstate := 7 |> <| state := ZOMBIE |>.
Lemma Inv_gone x q owned i pr : Inv x q owned → procs x !! i = Some pr → state pr = USED → Inv (setp x i (gone pr)) q owned.
Proof.
  intros HI Hi Hu. assert (Hs : state_at x i = Some USED) by (unfold state_at; rewrite Hi; cbn; by f_equal).
  eapply (Inv_update x q owned _ q owned i USED ZOMBIE); try done.
  - eapply RQ_wr; [apply HI|exact Hi|done..].
  - intros j. unfold setp. rewrite state_at_wr by (by eapply lookup_lt_Some). done.
  - intros j Hj. by rewrite setp_ne.
Qed.
(** The first process with 5000 bytes of memory. *)
Definition grown_world : world ksys := ending (growproc vkend 5000) first_world.
Lemma grown_inv : ∃ x o l d, grown_world = World [] [] (mkKsys x o) ∧ KInv vkend demo_tramp free_pages (mkKsys x o) [] [] l {[0%nat := d]} [].
Proof.
  destruct first_inv as (k & l & d & E & HK). pose proof first_grow_result as HR. unfold grown_world. rewrite E in HR |- *.
  pose proof (growproc_spec vkend demo_tramp free_pages first_sched _ [] [] l _ [] [] 0 first_proc d 5000 HK first_running
    (lookup_singleton_eq _ _) ltac:(clear; lia)) as Hwp.
  pose proof (wp_result _ _ _ _ Hwp HR) as (k' & l' & d' & Ew & HK' & _). rewrite insert_singleton_eq in HK'. eexists _, _, l', d'. exact (conj Ew HK').
Qed.
Definition second_start : M ksys unit :=
  np ← allocproc vkend demo_tramp 0x80002000;
  n ← nonnull np;
  put n gone;;
  release (proc_lock n).
Definition second_world : world ksys := ending second_start grown_world.
Definition second_sched : sched := sch (st second_world).
Lemma second_alloc_result : result (allocproc vkend demo_tramp 0x80002000) grown_world = Some (Some 1%nat).
Proof. vm_compute. reflexivity. Qed.
Lemma second_start_result : result second_start grown_world = Some ().
Proof. vm_compute. reflexivity. Qed.
Definition second_post (w' : world ksys) : Prop := ∃ x o l ds, w' = World [] [] (mkKsys x o) ∧
  KInv vkend demo_tramp free_pages (mkKsys x o) [] [] l ds [] ∧ is_Some (ds !! 0%nat).
Lemma second_start_spec x o l d : KInv vkend demo_tramp free_pages (mkKsys x o) [] [] l {[0%nat := d]} [] →
  result (allocproc vkend demo_tramp 0x80002000) (World [] [] (mkKsys x o)) = Some (Some 1%nat) →
  wp second_start (λ _, second_post) (World [] [] (mkKsys x o)).
Proof.
  intros HK0 HR. unfold second_start. apply wp_bind.
  eapply wp_mono; [apply wp_with_result, HR; exact (allocproc_spec _ _ _ _ _ _ _ _ _ _ _ _ HK0 demo_frame)|].
  intros ? w1 [-> (x1 & k1 & l1 & _ & _ & _ & -> & _ & _ & tf & root & T & [HI HM HO HD] & Hs & _)]. cbn in HI, HM, HO, HD.
  apply wp_bind, wp_ret. destruct (state_lookup _ _ _ Hs) as (pn & Hn & E). apply wp_bind. eapply wp_put; [exact Hn|].
  apply wp_release; [set_solver|]. pose proof (HO 1%nat pn Hn) as Ho1. rewrite lookup_insert_eq in Ho1.
  eexists _, _, l1, _. split; [reflexivity|]. split; [split; [by apply Inv_gone|exact HM| |exact HD]|].
  - eapply (own_setp x1 1); [by eexists|intros j pr Hj _; by apply HO| |done]. rewrite lookup_insert_eq. split; [done|apply Ho1].
  - rewrite lookup_insert_ne by done. rewrite lookup_singleton_eq. by eexists.
Qed.
Lemma second_inv : second_post second_world.
Proof.
  destruct grown_inv as (x & o & l & d & E & HK). pose proof second_alloc_result as H1. pose proof second_start_result as H2. rewrite E in H1, H2.
  pose proof (wp_result _ _ _ _ (second_start_spec x o l d HK H1) H2) as H. cbv beta in H. rewrite <- E in H. unfold second_world. exact H.
Qed.
Lemma second_running : running second_sched 0 (default proc0 (procs second_sched !! 0%nat)).
Proof. apply running_intro; vm_compute; reflexivity. Qed.

(** C11: wait called by a running process with any user address, from any kernel
    state in which the run queue, the free list and every process's memory are
    consistent, returns or goes to sleep. If a child has exited, then: when the
    address is 0 or four bytes of the caller's user memory are there, wait
    returns the child's pid, the child's slot is free again and its pages are
    back on the free list, and its status is at the address unless that is 0;
    otherwise, that is exactly when one of the four bytes is not mapped for the
    user, it returns -1 and the child is still there. If none has, it returns -1
    and changes nothing when the process has no child or was killed, and
    otherwise the process sleeps and the kernel is consistent. The pages of the
    other processes are untouched, and so is the caller's memory outside the
    four bytes. *)
Theorem wait_reaps kend trampoline P xstate_addr x o q owned l ds ext w p pr d addr :
  (∀ i j a, 0 ≤ j < 4 → a ∈ P → ¬ in_page a (xstate_addr i + j)) →
  KInv kend trampoline P (mkKsys x o) q owned l ds ext → running x p pr → ds !! p = Some d → 0 ≤ addr < 2 ^ 64 →
  ∃ r w', hart_wait kend xstate_addr addr (World [] w (mkKsys x o)) = Done r w' ∧
    wait_post kend trampoline P x o q owned l ds ext w p pr d addr r w'.
Proof. intros Hout HK Hr Hd Ha. apply wp_done. by eapply hart_wait_spec. Qed.
Definition xstates (i : nat) : Z := 0x1000 + 360 * Z.of_nat (i mod NPROC).
Lemma xstates_out i j a : 0 ≤ j < 4 → a ∈ free_pages → ¬ in_page a (xstates i + j).
Proof.
  intros Hj Ha. destruct (KA_ok _ _ _ a boot_mem_ka Ha) as (_ & Hlo & _). unfold in_page, xstates.
  assert (i mod NPROC < NPROC)%nat by (by apply Nat.mod_upper_bound). assert (0x10000 < vkend) by done. unfold NPROC in *. lia.
Qed.
Lemma second_wait_result : result (hart_wait vkend xstates 4094) second_world = Some (Some 2).
Proof. vm_compute. reflexivity. Qed.
Lemma wait_reaps_witness : ∃ o l ds d r w', second_world = World [] [] (mkKsys second_sched o) ∧
  hart_wait vkend xstates 4094 (World [] [] (mkKsys second_sched o)) = Done r w' ∧ r = Some 2 ∧
  wait_post vkend demo_tramp free_pages second_sched o [] [] l ds [] [] 0 (default proc0 (procs second_sched !! 0%nat)) d 4094 r w'.
Proof.
  destruct second_inv as (x & o & l & ds & E & HK & d & Hd).
  assert (x = second_sched) as Hx by exact (eq_sym (f_equal (λ w, sch (st w)) E)). rewrite Hx in E, HK. exists o, l, ds, d.
  destruct (wait_reaps vkend demo_tramp free_pages xstates second_sched o [] [] l ds [] [] 0
    (default proc0 (procs second_sched !! 0%nat)) d 4094) as (r & w' & Hr & Hpost).
  - exact xstates_out.
  - exact HK.
  - exact second_running.
  - exact Hd.
  - clear. lia.
  - exists r, w'. split; [exact E|]. split; [exact Hr|]. split; [|exact Hpost].
    apply (result_done _ _ _ _ _ Hr). rewrite <- E. exact second_wait_result.
Defined.
