(* ===== verification/Grep.v ===== *)
(** * grep: user/grep.c

    Strings are lists of non-zero bytes, the terminating 0 being the end of the
    list. The regular-expression matcher is proved equivalent to a declarative
    semantics, and [grep] to the selection of matching lines, however the input
    is cut into reads. *)
From S2P Require Import Prelude.

Module Grep.
Definition CARET : Z := 94.
Definition STAR : Z := 42.
Definition DOT : Z := 46.
Definition DOLLAR : Z := 36.
Definition NL : Z := 10.

(** ** The matcher *)
(** [here] is [matchhere] on the rest of the expression. *)
Fixpoint matchstar (here : list Z → bool) (c : Z) (text : list Z) : bool :=
  if here text then true
  else match text with
  | [] => false
  | t :: text => if (t =? c) || (c =? DOT) then matchstar here c text else false
  end.
Fixpoint matchhere (re : list Z) (text : list Z) : bool :=
  match re with
  | [] => true
  | c :: re1 =>
      let literal :=
        if (c =? DOLLAR) && bool_decide (re1 = []) then bool_decide (text = [])
        else match text with
        | [] => false
        | t :: text => if (c =? DOT) || (c =? t) then matchhere re1 text else false
        end in
      match re1 with
      | s :: re2 => if s =? STAR then matchstar (matchhere re2) c text else literal
      | [] => literal
      end
  end.
(** The loop of [match]: look at every suffix of the text. *)
Fixpoint match_loop (re text : list Z) : bool :=
  if matchhere re text then true
  else match text with [] => false | _ :: text => match_loop re text end.
Definition match_ (re text : list Z) : bool :=
  match re with
  | c :: re' => if c =? CARET then matchhere re' text else match_loop re text
  | [] => match_loop re text
  end.

(** ** Lines from a buffer *)
(** [strchr(p, '\n')]: the bytes before the newline and those after it. *)
Fixpoint strchr_nl (p : list Z) : option (list Z * list Z) :=
  match p with
  | [] => None
  | c :: p =>
      if c =? NL then Some ([], p)
      else if c =? 0 then None
      else '(l, r) ← strchr_nl p; Some (c :: l, r)
  end%stdpp.
(** The inner loop: what is written, and what stays in the buffer. *)
Fixpoint grep_lines (k : nat) (re p : list Z) : list Z * list Z :=
  match k with
  | O => ([], p)
  | S k =>
      match strchr_nl p with
      | None => ([], p)
      | Some (l, r) =>
          let out := grep_lines k re r in
          ((if match_ re l then l ++ [NL] else []) ++ out.1, out.2)
      end
  end.
(** The outer loop. A read asks for what is free in [buf] and gets at most the
    next element of [sizes]; [buf] holds the [m] bytes of an unfinished line. *)
Definition BUFSZ : nat := 1024.
Fixpoint grep (sizes : list nat) (re buf input : list Z) : list Z :=
  match sizes with
  | [] => []
  | n :: sizes =>
      let chunk := take (n `min` (BUFSZ - length buf - 1)) input in
      if bool_decide (chunk = []) then []
      else
        let p := buf ++ chunk in
        let r := grep_lines (S (length p)) re p in
        r.1 ++ grep sizes re r.2 (drop (length chunk) input)
  end.

(** ** What an expression means *)
Inductive here : list Z → list Z → Prop :=
  | here_nil t : here [] t
  | here_star c re t1 t2 : Forall (λ x, x = c ∨ c = DOT) t1 → here re t2 → here (c :: STAR :: re) (t1 ++ t2)
  | here_end : here [DOLLAR] []
  | here_char c re x t : head re ≠ Some STAR → (c = DOLLAR → re ≠ []) → c = DOT ∨ c = x → here re t → here (c :: re) (x :: t).
Definition matches (re text : list Z) : Prop :=
  match re with
  | c :: re' => if decide (c = CARET) then here re' text else ∃ t1 t2, text = t1 ++ t2 ∧ here re t2
  | [] => True
  end.

Lemma matchstar_spec f (P : list Z → Prop) c text : (∀ t, f t = true ↔ P t) →
  matchstar f c text = true ↔ ∃ t1 t2, text = t1 ++ t2 ∧ Forall (λ x, x = c ∨ c = DOT) t1 ∧ P t2.
Proof.
  intros Hf. induction text as [|t text IH]; cbn [matchstar].
  - specialize (Hf []). destruct (f []); [split; [|done]; intros _; exists [], []; split_and!; [done|constructor|by apply Hf]|].
    split; [done|]. intros (t1 & t2 & E & _ & HP). symmetry in E. apply app_eq_nil in E as [-> ->]. by apply Hf in HP.
  - pose proof (Hf (t :: text)) as Hf'. destruct (f (t :: text)).
    { split; [|done]. intros _. exists [], (t :: text). split_and!; [done|constructor|by apply Hf']. }
    destruct ((t =? c) || (c =? DOT)) eqn:E.
    + rewrite IH. apply orb_prop in E. split.
      * intros (t1 & t2 & -> & HF & HP). exists (t :: t1), t2. split_and!; [done|constructor; [lia|done]|done].
      * intros (t1 & t2 & Et & HF & HP). destruct t1 as [|x t1]; cbn in Et; [subst t2; by apply Hf' in HP|].
        injection Et as -> ->. apply Forall_cons in HF as [_ HF]. eauto.
    + split; [done|]. intros (t1 & t2 & Et & HF & HP). destruct t1 as [|x t1]; cbn in Et; [subst t2; by apply Hf' in HP|].
      injection Et as -> ->. apply Forall_cons in HF as [HF _]. apply orb_false_iff in E. lia.
Qed.
Lemma matchhere_spec re : ∀ text, matchhere re text = true ↔ here re text.
Proof.
  induction re as [re IH] using (induction_ltof1 _ (@length Z)). unfold ltof in IH. intros text.
  destruct re as [|c re1]; [cbn; split; [intros _; constructor|done]|]. cbn [matchhere]. cbv zeta.
  assert (Hlit : head re1 ≠ Some STAR → (if (c =? DOLLAR) && bool_decide (re1 = []) then bool_decide (text = [])
        else match text with [] => false | t :: text => if (c =? DOT) || (c =? t) then matchhere re1 text else false end) = true ↔ here (c :: re1) text).
  { intros Hs. destruct (Z.eqb_spec c DOLLAR) as [->|Hc]; [case_bool_decide as Hr|]; cbn [andb].
    - subst re1. rewrite bool_decide_eq_true. split; [intros ->; constructor|]. inversion 1; subst; [done|]. naive_solver.
    - destruct text as [|t text]; [split; [done|inversion 1; subst; done]|].
      destruct ((DOLLAR =? DOT) || (DOLLAR =? t)) eqn:E; [|split; [done|inversion 1; subst; [done|]; apply orb_false_iff in E; lia]].
      rewrite IH by (cbn; lia). split; [intros; constructor; try done; lia|]. by inversion 1; subst.
    - destruct text as [|t text]; [split; [done|inversion 1; subst; done]|].
      destruct ((c =? DOT) || (c =? t)) eqn:E; [|split; [done|inversion 1; subst; [done|]; apply orb_false_iff in E; lia]].
      rewrite IH by (cbn; lia). split; [intros; constructor; try done; lia|]. by inversion 1; subst. }
  destruct re1 as [|s re2]; [by apply Hlit|]. destruct (Z.eqb_spec s STAR) as [->|Hs]; [|apply Hlit; cbn; congruence].
  rewrite (matchstar_spec _ (here re2)) by (intros; apply IH; cbn; lia). split.
  - intros (t1 & t2 & -> & HF & HP). by constructor.
  - inversion 1; subst; [eauto 10|done].
Qed.
Lemma match_loop_spec re text : match_loop re text = true ↔ ∃ t1 t2, text = t1 ++ t2 ∧ here re t2.
Proof.
  induction text as [|t text IH]; cbn [match_loop].
  - destruct (matchhere re []) eqn:E; [split; [|done]; intros _; exists [], []; by apply matchhere_spec in E|].
    split; [done|]. intros (t1 & t2 & Et & HP). symmetry in Et. apply app_eq_nil in Et as [-> ->]. apply matchhere_spec in HP. congruence.
  - destruct (matchhere re (t :: text)) eqn:E; [split; [|done]; intros _; exists [], (t :: text); by apply matchhere_spec in E|].
    rewrite IH. split; [intros (t1 & t2 & -> & HP); by exists (t :: t1), t2|]. intros (t1 & t2 & Et & HP).
    destruct t1 as [|x t1]; cbn in Et; [subst t2; apply matchhere_spec in HP; congruence|]. injection Et as -> ->. eauto.
Qed.
Lemma match_spec re text : match_ re text = true ↔ matches re text.
Proof.
  destruct re as [|c re]; cbn [match_ matches].
  - rewrite match_loop_spec. split; [done|]. intros _. exists [], text. split; [done|constructor].
  - destruct (Z.eqb_spec c CARET); [rewrite decide_True by done; apply matchhere_spec|rewrite decide_False by done; apply match_loop_spec].
Qed.
#[export] Instance matches_dec re text : Decision (matches re text).
Proof. refine (cast_if (decide (match_ re text = true))); by rewrite <- match_spec. Defined.

(** ** The lines of the input *)
(** The complete lines of [l], the first of which starts with [cur]. *)
Fixpoint lines (cur l : list Z) : list (list Z) :=
  match l with
  | [] => []
  | c :: l => if c =? NL then cur :: lines [] l else lines (cur ++ [c]) l
  end.
(** The bytes after the last newline. *)
Fixpoint tail (cur l : list Z) : list Z :=
  match l with
  | [] => cur
  | c :: l => if c =? NL then tail [] l else tail (cur ++ [c]) l
  end.
Definition select (re : list Z) (ls : list (list Z)) : list Z :=
  concat ((λ l, l ++ [NL]) <$> filter (matches re) ls).
Lemma lines_app l1 : ∀ cur l2, lines cur (l1 ++ l2) = lines cur l1 ++ lines (tail cur l1) l2.
Proof. induction l1 as [|c l1 IH]; intros cur l2; [done|]. cbn. destruct (c =? NL); [cbn; by rewrite IH|apply IH]. Qed.
Lemma tail_app l1 : ∀ cur l2, tail cur (l1 ++ l2) = tail (tail cur l1) l2.
Proof. induction l1 as [|c l1 IH]; intros cur l2; [done|]. cbn. destruct (c =? NL); apply IH. Qed.
Lemma lines_none l : ∀ cur, NL ∉ l → lines cur l = [] ∧ tail cur l = cur ++ l.
Proof.
  induction l as [|c l IH]; intros cur H; [by rewrite app_nil_r|]. apply not_elem_of_cons in H as [H1 H2]. cbn.
  rewrite (proj2 (Z.eqb_neq c NL)) by done. destruct (IH (cur ++ [c]) H2) as [-> ->]. by rewrite <- app_assoc.
Qed.
Lemma select_app re l1 l2 : select re (l1 ++ l2) = select re l1 ++ select re l2.
Proof. unfold select. by rewrite filter_app, fmap_app, concat_app. Qed.
Lemma select_cons re l ls : select re (l :: ls) = (if match_ re l then l ++ [NL] else []) ++ select re ls.
Proof.
  unfold select. destruct (match_ re l) eqn:E.
  - rewrite filter_cons_True by (by apply match_spec). done.
  - rewrite filter_cons_False; [done|]. rewrite <- match_spec. congruence.
Qed.
Lemma tail_suffix l : ∀ cur, NL ∉ cur → NL ∉ tail cur l ∧ ∃ a, cur ++ l = a ++ tail cur l.
Proof.
  induction l as [|c l IH]; intros cur Hc; cbn; [split; [done|]; exists []; by rewrite app_nil_r|].
  destruct (Z.eqb_spec c NL) as [->|Hne].
  - destruct (IH []) as [H1 (a & Ha)]; [apply not_elem_of_nil|]. split; [done|]. exists (cur ++ NL :: a). cbn in Ha. rewrite <- app_assoc. cbn. by rewrite <- Ha.
  - destruct (IH (cur ++ [c])) as [H1 (a & Ha)]; [set_solver|]. split; [done|]. exists a. rewrite <- Ha, <- app_assoc. done.
Qed.
Lemma strchr_some p : ∀ l r, strchr_nl p = Some (l, r) → p = l ++ NL :: r ∧ NL ∉ l.
Proof.
  induction p as [|c p IH]; intros l r; cbn; [done|]. destruct (Z.eqb_spec c NL) as [->|Hne].
  { intros [= <- <-]. split; [done|apply not_elem_of_nil]. }
  destruct (c =? 0); [done|]. destruct (strchr_nl p) as [[l' r']|]; cbn; [|done]. intros [= <- <-].
  destruct (IH l' r' eq_refl) as [-> H]. split; [done|]. apply not_elem_of_cons. split; [congruence|done].
Qed.
Lemma strchr_none p : 0 ∉ p → strchr_nl p = None → NL ∉ p.
Proof.
  induction p as [|c p IH]; intros Hz; cbn; [intros _; apply not_elem_of_nil|]. apply not_elem_of_cons in Hz as [Hc Hz].
  destruct (Z.eqb_spec c NL) as [->|Hne]; [done|]. destruct (Z.eqb_spec c 0); [congruence|].
  destruct (strchr_nl p) as [[l' r']|]; cbn; [done|]. intros _. apply not_elem_of_cons. split; [congruence|by apply IH].
Qed.
Lemma grep_lines_spec re k : ∀ p, 0 ∉ p → (length p < k)%nat → grep_lines k re p = (select re (lines [] p), tail [] p).
Proof.
  induction k as [|k IH]; intros p Hz Hk; [lia|]. cbn [grep_lines]. destruct (strchr_nl p) as [[l r]|] eqn:E.
  - apply strchr_some in E as [-> Hl]. rewrite IH by (set_solver || (rewrite length_app in Hk; cbn in Hk; lia)). cbn [fst snd].
    destruct (lines_none l [] Hl) as [E1 E2]. rewrite lines_app, tail_app, E1, E2. cbn [app lines tail].
    change (NL =? NL) with true. cbv iota. by rewrite select_cons.
  - apply strchr_none in E; [|done]. by destruct (lines_none p [] E) as [-> ->].
Qed.
(** No line is too long for the buffer. *)
Definition short (input : list Z) : Prop := ∀ a b c, input = a ++ b ++ c → NL ∉ b → (length b < BUFSZ - 1)%nat.
Lemma grep_spec re sizes : ∀ buf input, NL ∉ buf → 0 ∉ buf ++ input → short (buf ++ input) → Forall (λ n, (0 < n)%nat) sizes →
  (length input < length sizes)%nat → grep sizes re buf input = select re (lines buf input).
Proof.
  induction sizes as [|n sizes IH]; intros buf input Hbuf Hz Hshort Hn Hlen; [cbn in Hlen; lia|]. cbn [grep]. cbv zeta.
  apply Forall_cons in Hn as [Hn0 Hn]. assert (Hb : (length buf < BUFSZ - 1)%nat) by (by apply (Hshort [] buf input)).
  set (chunk := take _ input). assert (Hin : input = chunk ++ drop (length chunk) input).
  { unfold chunk. rewrite length_take. set (x := (_ `min` (_ - _ - _))%nat). rewrite <- (take_drop x input) at 1.
    destruct (decide (x ≤ length input)%nat); [by rewrite Nat.min_l by lia|]. rewrite Nat.min_r, !drop_ge by lia. done. }
  case_bool_decide as Hc.
  { assert (input = []) as ->; [|done]. destruct input as [|c input]; [done|]. exfalso. unfold chunk in Hc.
    destruct (n `min` (BUFSZ - length buf - 1))%nat eqn:E; [unfold BUFSZ in *; lia|done]. }
  set (rest := drop (length chunk) input) in *. assert (Hz' : 0 ∉ buf ++ chunk) by (rewrite Hin in Hz; set_solver).
  rewrite grep_lines_spec by (done || lia). cbn [fst snd].
  destruct (lines_none buf [] Hbuf) as [E1 E2]. rewrite lines_app, tail_app, E1, E2. cbn [app].
  destruct (tail_suffix chunk buf Hbuf) as [Ht (a & Ha)]. rewrite IH.
  - rewrite <- select_app, <- lines_app. by rewrite <- Hin.
  - done.
  - rewrite Hin, app_assoc, Ha in Hz. set_solver.
  - intros x y z Hxyz. apply (Hshort (a ++ x) y z). rewrite Hin, app_assoc, Ha, <- !app_assoc. by rewrite Hxyz.
  - done.
  - assert (length chunk ≠ O) by (by destruct chunk). apply (f_equal length) in Hin. rewrite length_app in Hin. cbn in Hlen. lia.
Qed.

(** C19: grep prints exactly the matching lines of an input it can hold. For
    every expression, every input without 0 bytes in which no line has 1023
    bytes or more (on a longer line grep stops, as it takes the full buffer for
    the end of the input), and every way the input is delivered to the reads,
    the output is the complete lines that match the
    expression, in order, where matching means: a prefix of the line for [^],
    else a prefix of some suffix, is derived by the expression, [.] standing
    for any byte, [c*] for any number of [c] and a final [$] for the end. *)
Theorem grep_selects re sizes input : 0 ∉ input → short input → Forall (λ n, (0 < n)%nat) sizes → (length input < length sizes)%nat →
  grep sizes re [] input = concat ((λ l, l ++ [NL]) <$> filter (matches re) (lines [] input)).
Proof. intros Hz Hs Hn Hl. apply (grep_spec re sizes [] input); try done. apply not_elem_of_nil. Qed.
(** "^a.*b$" on "axb\nba\nab\nc", two bytes at a time. *)
Definition demo_re : list Z := [94; 97; 46; 42; 98; 36].
Definition demo_in : list Z := [97; 120; 98; 10; 98; 97; 10; 97; 98; 10; 99].
Lemma grep_selects_witness : grep (repeat 2%nat 12) demo_re [] demo_in = [97; 120; 98; 10; 97; 98; 10] ∧
  grep (repeat 2%nat 12) demo_re [] demo_in = concat ((λ l, l ++ [NL]) <$> filter (matches demo_re) (lines [] demo_in)).
Proof.
  split; [vm_compute; reflexivity|]. apply (grep_selects demo_re (repeat 2%nat 12) demo_in).
  - unfold demo_in. intros H. repeat (apply elem_of_cons in H as [H|H]; [discriminate|]). by apply elem_of_nil in H.
  - intros a b c E _. apply (f_equal length) in E. rewrite !length_app in E. cbn in E. unfold BUFSZ. lia.
  - repeat constructor.
  - cbn. lia.
Defined.
End Grep.
