(* ===== verification/Umalloc.v ===== *)
(** * User-level allocator: user/umalloc.c

    A [Header] is 16 bytes; [ptr] and [size] are the two fields of the header at
    an address. [base] is the address of the static list head. [sbrk] grows the
    process by its [int] argument unless that exceeds [limit] (sys_sbrk,
    growproc). *)
From S2P Require Import Prelude.

Module Umalloc.
Definition HDR : Z := 16.
Record heap := mkHeap { ptr : gmap Z Z; size : gmap Z Z; freep : Z; brk : Z; limit : Z }.
#[export] Instance eta_heap : Settable heap := λ h, mkHeap (ptr h) (size h) (freep h) (brk h) (limit h).

Section umalloc.
Context (base : Z).
Definition get_ptr (p : Z) : M heap Z := o ← gets (λ h, ptr h !! p); nonnull o.
Definition get_size (p : Z) : M heap Z := o ← gets (λ h, size h !! p); nonnull o.
Definition set_ptr (p v : Z) : M heap unit := modify (λ h, h <| ptr ::= <[p := v]> |>).
Definition set_size (p v : Z) : M heap unit := modify (λ h, h <| size ::= <[p := u32 v]> |>).

(** The place of [bp] in the circular list. *)
Definition find_place (bp : Z) (p : Z) : M heap Z :=
  loopM 64 (λ p,
    nx ← get_ptr p;
    if (bp >? p) && (bp <? nx) then break p
    else if (p >=? nx) && ((bp >? p) || (bp <? nx)) then break p
    else continue nx) p.
Definition free (ap : Z) : M heap unit :=
  let bp := ap - HDR in
  p ← gets freep;
  p ← find_place bp p;
  sz ← get_size bp; nx ← get_ptr p;
  (if bp + HDR * sz =? nx then
     nsz ← get_size nx; set_size bp (sz + nsz);;
     nnx ← get_ptr nx; set_ptr bp nnx
   else set_ptr bp nx);;
  psz ← get_size p;
  (if p + HDR * psz =? bp then
     bsz ← get_size bp; set_size p (psz + bsz);;
     bnx ← get_ptr bp; set_ptr p bnx
   else set_ptr p bp);;
  modify (λ h, h <| freep := p |>).

(** The old break, or -1. A negative size is not reached: growproc then leaves
    the process as it is. *)
Definition sbrk (n : Z) : M heap Z :=
  h ← gets id;
  if brk h + i32 n >? limit h then ret (-1)
  else if brk h + i32 n <? 0 then ret (brk h)
  else modify (λ h, h <| brk ::= λ b, b + i32 n |>);; ret (brk h).
Definition morecore (nu : Z) : M heap Z :=
  let nu := if nu <? 4096 then 4096 else nu in
  p ← sbrk (nu * HDR);
  if p =? -1 then ret 0
  else set_size p nu;; free (p + HDR);; gets freep.
(** One turn of malloc's loop, with [prevp] and [p]. *)
Definition malloc_turn (nunits : Z) (a : Z * Z) : M heap (Z * Z + Z) :=
  let '(prevp, p) := a in
  sz ← get_size p;
  if sz >=? nunits then
    p ← (if sz =? nunits then
           nx ← get_ptr p; set_ptr prevp nx;; ret p
         else
           set_size p (sz - nunits);;
           let q := p + HDR * (sz - nunits) in
           set_size q nunits;; ret q);
    modify (λ h, h <| freep := prevp |>);;
    break (p + HDR)
  else
    f ← gets freep;
    if p =? f then
      p ← morecore nunits;
      if p =? 0 then break 0 else nx ← get_ptr p; continue (p, nx)
    else nx ← get_ptr p; continue (p, nx).
Definition malloc (nbytes : Z) : M heap Z :=
  let nunits := u32 ((nbytes + HDR - 1) / HDR + 1) in
  f ← gets freep;
  when (f =? 0) (modify (λ h, h <| freep := base |>);; set_ptr base base;; set_size base 0);;
  prevp ← gets freep;
  p ← get_ptr prevp;
  loopM 64 (malloc_turn nunits) (prevp, p).
End umalloc.
End Umalloc.
