(* ===== verification/UmallocSpec.v ===== *)
(** * The allocator's invariant: the free list and the blocks handed out cover
    the heap exactly (user/umalloc.c) *)
From Stdlib Require Import Sorted.
From stdpp Require Import sorting.
From S2P Require Import Prelude Umalloc.

Module UmallocSpec.
Import Umalloc.

(** ** Units and blocks *)
(** The header-sized units of a block of [n] units at [a]. *)
Definition units (b : Z * Z) : list Z := (λ i, b.1 + HDR * i) <$> seqZ 0 b.2.
Lemma units_add a n m : 0 ≤ n → 0 ≤ m → units (a, n + m) = units (a, n) ++ units (a + HDR * n, m).
Proof.
  intros Hn Hm. unfold units. cbn [fst snd]. rewrite seqZ_app, fmap_app by done. f_equal. rewrite Z.add_0_l.
  rewrite <- (Z.add_0_r n) at 1. rewrite <- fmap_add_seqZ, <- list_fmap_compose. apply list_fmap_ext. intros i x _. unfold HDR. cbn. lia.
Qed.
Lemma elem_of_units a n x : x ∈ units (a, n) ↔ ∃ i, 0 ≤ i < n ∧ x = a + HDR * i.
Proof.
  unfold units. rewrite list_elem_of_fmap. cbn. split; [intros (i & -> & Hi%elem_of_seqZ); exists i; split; [lia|done]|].
  intros (i & Hi & ->). exists i. split; [done|]. apply elem_of_seqZ. lia.
Qed.
Lemma units_length a n : Z.of_nat (length (units (a, n))) = Z.max 0 n.
Proof. unfold units. rewrite length_fmap, length_seqZ. cbn. lia. Qed.
Lemma units_nodup a n : NoDup (units (a, n)).
Proof. apply NoDup_fmap_2; [|apply NoDup_seqZ]. intros x y E. unfold HDR in E. lia. Qed.
Lemma units_first a n : 0 < n → a ∈ units (a, n).
Proof. intros Hn. apply elem_of_units. exists 0. unfold HDR. lia. Qed.

Lemma elem_of_blocks bs u : u ∈ concat (units <$> bs) ↔ ∃ b, b ∈ bs ∧ u ∈ units b.
Proof.
  induction bs as [|b bs IH]; cbn; [split; [by intros ?%elem_of_nil|by intros (b & ?%elem_of_nil & _)]|].
  rewrite elem_of_app, IH. setoid_rewrite elem_of_cons. naive_solver.
Qed.

(** ** The circular list *)
Fixpoint chain (pt : gmap Z Z) (a : Z) (l : list Z) (z : Z) : Prop :=
  match l with
  | [] => pt !! a = Some z
  | x :: l => pt !! a = Some x ∧ chain pt x l z
  end.
Lemma chain_app pt l1 x l2 : ∀ a z, chain pt a (l1 ++ x :: l2) z ↔ chain pt a l1 x ∧ chain pt x l2 z.
Proof. induction l1 as [|y l1 IH]; intros a z; cbn; [done|]. rewrite IH. tauto. Qed.
Lemma chain_rotate pt a l1 b l2 : chain pt a (l1 ++ b :: l2) a ↔ chain pt b (l2 ++ a :: l1) b.
Proof. rewrite !chain_app. tauto. Qed.
Lemma links_ext pt pt' l : ∀ a z, (∀ x, x ∈ a :: l → pt' !! x = pt !! x) → chain pt a l z → chain pt' a l z.
Proof.
  induction l as [|y l IH]; intros a z He H; cbn in *; [rewrite He; [done|by left]|]. destruct H as [H1 H2].
  split; [rewrite He; [done|by left]|]. apply IH; [|done]. intros x Hx. apply He. by right.
Qed.
Lemma chain_next pt l a z x : chain pt a l z → x ∈ a :: l → ∃ y, pt !! x = Some y ∧ (y = z ∨ y ∈ l).
Proof.
  revert a. induction l as [|y l IH]; intros a H Hx; cbn in *.
  - apply elem_of_cons in Hx as [->|Hx]; [|by apply elem_of_nil in Hx]. eauto.
  - destruct H as [H1 H2]. apply elem_of_cons in Hx as [->|Hx]; [exists y; split; [done|right; by left]|].
    destruct (IH y H2 Hx) as (v & Hv & [Hz|Hin]); exists v; (split; [done|]); [by left|right; by right].
Qed.
(** From any node of a ring the whole ring. *)
Lemma ring_from pt b l f : chain pt b l b → f ∈ b :: l → ∃ r, chain pt f r f ∧ f :: r ≡ₚ b :: l.
Proof.
  intros H [->|Hf]%elem_of_cons; [eauto|]. apply list_elem_of_split in Hf as (l1 & l2 & ->). exists (l2 ++ b :: l1).
  split; [by apply chain_rotate|]. rewrite <- !Permutation_middle, (Permutation_app_comm l2 l1). apply Permutation_swap.
Qed.

(** Increasing nodes: nothing lies between a node and the next. *)
Lemma chain_sorted pt z l : ∀ a, chain pt a l z → StronglySorted Z.lt (a :: l) → ∀ x y, x ∈ a :: l → pt !! x = Some y →
  (y = z ∧ ∀ w, w ∈ a :: l → w ≤ x) ∨ (y ∈ l ∧ x < y ∧ ∀ w, w ∈ a :: l → w ≤ x ∨ y ≤ w).
Proof.
  induction l as [|b l IH]; intros a H Hs x y Hx Hy; cbn in H.
  { apply elem_of_cons in Hx as [->|Hx]; [|by apply elem_of_nil in Hx]. left. split; [congruence|].
    intros w [->|Hw]%elem_of_cons; [lia|by apply elem_of_nil in Hw]. }
  destruct H as [H1 H2]. apply StronglySorted_inv in Hs as [Hs Ha]. rewrite Forall_forall in Ha.
  apply elem_of_cons in Hx as [->|Hx].
  - right. rewrite H1 in Hy. injection Hy as <-. split_and!; [by left|apply Ha; by left|].
    intros w [->|Hw]%elem_of_cons; [left; lia|]. right. apply StronglySorted_inv in Hs as [_ Hb]. rewrite Forall_forall in Hb.
    apply elem_of_cons in Hw as [->|Hw]; [lia|]. specialize (Hb w Hw). lia.
  - assert (a < x) by (by apply Ha). destruct (IH b H2 Hs x y Hx Hy) as [(-> & Hw)|(Hin & Hlt & Hw)]; [left|right].
    + split; [done|]. intros w [->|Hin]%elem_of_cons; [lia|by apply Hw].
    + split_and!; [by right|done|]. intros w [->|Hw']%elem_of_cons; [left; lia|by apply Hw].
Qed.
(** Where [bp] goes: after the greatest node below it. *)
Definition place (bp x y : Z) : bool := (bp >? x) && (bp <? y) || (x >=? y) && ((bp >? x) || (bp <? y)).
Lemma place_exists pt z bp l : ∀ a, chain pt a l z → StronglySorted Z.lt (a :: l) → a < bp → bp ∉ l → z ≤ a →
  ∃ x y, x ∈ a :: l ∧ pt !! x = Some y ∧ place bp x y = true.
Proof.
  unfold place. induction l as [|b l IH]; intros a H Hs Ha Hn Hz; cbn in H.
  - exists a, z. split_and!; [by left|done|]. destruct (Z.gtb_spec bp a), (Z.geb_spec a z); cbn; try lia; done.
  - destruct H as [H1 H2]. apply not_elem_of_cons in Hn as [Hb Hn]. destruct (Z.lt_ge_cases bp b).
    + exists a, b. split_and!; [by left|done|]. destruct (Z.gtb_spec bp a), (Z.ltb_spec bp b); cbn; try lia; done.
    + pose proof (StronglySorted_inv Hs) as [Hs' Hab]. rewrite Forall_forall in Hab. specialize (Hab b ltac:(by left)).
      destruct (IH b H2 Hs' ltac:(lia) Hn ltac:(lia)) as (x & y & Hx & Hy & Hp). exists x, y. split_and!; [by right|done|done].
Qed.
Section loops.
Context {h : list lock} {k : list chan}.
Lemma wp_get_ptr {B} (K : Z → M heap B) Φ s p v : ptr s !! p = Some v → wp (K v) Φ (World h k s) → wp (bind (get_ptr p) K) Φ (World h k s).
Proof. intros Hp HK. apply wp_bind, wp_bind, wp_gets. cbn [st]. rewrite Hp. by apply wp_ret. Qed.
Lemma wp_get_size {B} (K : Z → M heap B) Φ s p v : size s !! p = Some v → wp (K v) Φ (World h k s) → wp (bind (get_size p) K) Φ (World h k s).
Proof. intros Hp HK. apply wp_bind, wp_bind, wp_gets. cbn [st]. rewrite Hp. by apply wp_ret. Qed.
Lemma find_place_spec (s : heap) bp f r Φ : chain (ptr s) f r f → Z.of_nat (length r) < 2 ^ 64 →
  (∃ x y, x ∈ f :: r ∧ ptr s !! x = Some y ∧ place bp x y = true) →
  (∀ x y, x ∈ f :: r → ptr s !! x = Some y → place bp x y = true → Φ x (World h k s)) →
  wp (find_place bp f) Φ (World h k s).
Proof.
  intros Hch Hlen (px & py & Hpx & Hpy & Hp) HΦ.
  apply (wp_loop _ (λ n x w, ∃ r1 r2, n = Z.of_nat (length r2) ∧ w = World h k s ∧ f :: r = r1 ++ x :: r2 ∧ px ∉ r1)) with (n := Z.of_nat (length r)).
  - intros n x w (r1 & r2 & -> & _). lia.
  - intros n x w (r1 & r2 & -> & -> & E & Hn). assert (Hx : x ∈ f :: r) by (rewrite E; set_solver).
    destruct (chain_next _ _ _ _ x Hch Hx) as (y & Hy & _). apply (wp_get_ptr _ _ _ _ _ Hy).
    assert (Hcont : place bp x y = false → ∃ n', (∃ r1' r2', n' = Z.of_nat (length r2') ∧ World h k s = World h k s ∧ f :: r = r1' ++ y :: r2' ∧ px ∉ r1') ∧ n' < Z.of_nat (length r2)).
    { intros Hf. assert (Hpx2 : px ∈ r2).
      { rewrite E in Hpx. apply elem_of_app in Hpx as [?|[->|?]%elem_of_cons]; [done| |done]. rewrite Hpy in Hy. congruence. }
      destruct r2 as [|y' r2]; [by apply elem_of_nil in Hpx2|]. assert (y' = y) as ->.
      { destruct r1 as [|f' r1]; cbn in E; injection E as -> ->; [cbn in Hch; destruct Hch; congruence|].
        change (x :: y' :: r2) with ([x] ++ y' :: r2) in Hch. rewrite app_assoc in Hch.
        apply chain_app in Hch as [Hch _]. apply chain_app in Hch as [_ Hch]. cbn in Hch. congruence. }
      exists (Z.of_nat (length r2)). split; [|cbn; lia]. exists (r1 ++ [x]), r2. split_and!; [done|done|by rewrite <- app_assoc|].
      rewrite elem_of_app, list_elem_of_singleton. intros [?| ->]; [done|]. rewrite Hpy in Hy. congruence. }
    unfold place in HΦ, Hcont. specialize (HΦ x y Hx Hy).
    destruct ((bp >? x) && (bp <? y)); cbn [orb] in *; [apply wp_ret; by apply HΦ|].
    destruct ((x >=? y) && ((bp >? x) || (bp <? y))); apply wp_ret; [by apply HΦ|by apply Hcont].
  - exists [], r. split_and!; [done|done|done|]. apply not_elem_of_nil.
  - exact Hlen.
Qed.
End loops.

(** The ring seen from its node [x]. *)
Lemma ring_at pt b l N1 x N2 : b :: l = N1 ++ x :: N2 → chain pt b l b ↔ chain pt x (N2 ++ N1) x.
Proof.
  intros E. destruct N1 as [|b' N1]; cbn in E; injection E as -> ->; [by rewrite app_nil_r|]. apply chain_rotate.
Qed.
(** Entering a chain from another node. *)
Lemma chain_head pt pt' a a' W z y : chain pt a W z → pt !! a = Some y → pt' !! a' = Some y →
  (∀ w, w ∈ W → pt' !! w = pt !! w) → chain pt' a' W z.
Proof.
  destruct W as [|w W]; cbn; [congruence|]. intros [H1 H2] Hy Hy' He. split; [congruence|]. by eapply links_ext.
Qed.
Definition U (bs : list (Z * Z)) : list Z := concat (units <$> bs).
#[export] Instance U_proper : Proper ((≡ₚ) ==> (≡ₚ)) U.
Proof. intros l l' H. unfold U. induction H; cbn; [done|by f_equiv| |by etrans]. rewrite !app_assoc. by rewrite (Permutation_app_comm (units y)). Qed.
Lemma U_split b n m bs : 0 ≤ n → 0 ≤ m → U ((b, n + m) :: bs) = U ((b, n) :: (b + HDR * n, m) :: bs).
Proof. intros Hn Hm. unfold U. cbn. by rewrite units_add, <- app_assoc. Qed.

(** ** The invariant *)
Definition before (x y : Z * Z) : Prop := x.1 + HDR * x.2 < y.1.
Section inv.
Context (base lo : Z).
Record HI (s : heap) (fl al : list (Z * Z)) : Prop := {
  hi_base : 0 < base ∧ base + HDR ≤ lo;
  hi_chain : chain (ptr s) base (fl.*1) base;
  hi_size0 : size s !! base = Some 0;
  hi_size a n : (a, n) ∈ fl ++ al → size s !! a = Some n ∧ 0 < n;
  hi_units : ∃ t, 0 ≤ t ∧ brk s = lo + HDR * t ∧ U (fl ++ al) ≡ₚ units (lo, t);
  hi_sorted : StronglySorted before fl;
  hi_freep : freep s ∈ base :: fl.*1;
  hi_limit : brk s ≤ limit s ≤ 2 ^ 34;
}.
Context {s : heap} {fl al : list (Z * Z)} (HH : HI s fl al).
Lemma hi_range a n : (a, n) ∈ fl ++ al → lo ≤ a ∧ a + HDR * n ≤ brk s ∧ 0 < n < 2 ^ 30 ∧ ∃ i, a = lo + HDR * i.
Proof.
  intros Hin. destruct (hi_size _ _ _ HH a n Hin) as [_ Hn]. destruct (hi_units _ _ _ HH) as (t & Ht & Hb & Hp).
  pose proof (hi_limit _ _ _ HH). pose proof (hi_base _ _ _ HH).
  assert (Hsub : ∀ x, x ∈ units (a, n) → x ∈ units (lo, t)).
  { intros x Hx. rewrite <- Hp. apply elem_of_blocks. eauto. }
  assert (H1 : a ∈ units (lo, t)) by (by apply Hsub, units_first).
  assert (H2 : a + HDR * (n - 1) ∈ units (lo, t)) by (apply Hsub, elem_of_units; exists (n - 1); lia).
  apply elem_of_units in H1 as (i & Hi & Ei), H2 as (j & Hj & Ej). split_and!; [..|by exists i]; unfold HDR in *; lia.
Qed.
Lemma hi_disjoint l1 x l2 a n : fl ++ al = l1 ++ x :: l2 → (a, n) ∈ l1 ++ l2 → ∀ u, u ∈ units x → u ∉ units (a, n).
Proof.
  intros E Hin u Hu Hu'. destruct (hi_units _ _ _ HH) as (t & _ & _ & Hp). pose proof (units_nodup lo t) as Hnd.
  rewrite <- Hp, E in Hnd. unfold U in Hnd. rewrite fmap_app, fmap_cons, concat_app in Hnd. cbn in Hnd.
  rewrite Permutation_app_comm, <- app_assoc in Hnd. apply NoDup_app in Hnd as (_ & Hd & _). apply (Hd u Hu).
  rewrite elem_of_app, !elem_of_blocks. apply elem_of_app in Hin as [Hin|Hin]; [right|left]; eauto.
Qed.
Definition nodes : list (Z * Z) := (base, 0) :: fl.
Lemma hi_sorted_nodes : StronglySorted before nodes.
Proof.
  constructor; [apply (hi_sorted _ _ _ HH)|]. apply Forall_forall. intros [a n] Hin. destruct (hi_range a n) as [H _]; [set_solver|].
  pose proof (hi_base _ _ _ HH). unfold before, HDR in *. cbn. lia.
Qed.
Lemma hi_increasing : StronglySorted Z.lt (base :: fl.*1).
Proof.
  change (base :: fl.*1) with (nodes.*1). pose proof hi_sorted_nodes as Hs.
  assert (Hn : Forall (λ x, 0 ≤ x.2) nodes).
  { constructor; [cbn; lia|]. apply Forall_forall. intros [a n] Hin. destruct (hi_range a n) as (_ & _ & ? & _); [set_solver|]. cbn. lia. }
  induction Hs as [|x l Hs IH Hx]; [constructor|]. apply Forall_cons in Hn as [Hx0 Hn]. cbn. constructor; [by apply IH|].
  apply Forall_forall. intros a (y & -> & Hy)%list_elem_of_fmap. rewrite Forall_forall in Hx. specialize (Hx y Hy). unfold before, HDR in Hx. lia.
Qed.
Lemma hi_node x : x ∈ base :: fl.*1 → ∃ xn F1 F2, nodes = F1 ++ (x, xn) :: F2 ∧ size s !! x = Some xn ∧ 0 ≤ xn < 2 ^ 30.
Proof.
  intros Hx. change (x ∈ nodes.*1) in Hx. apply list_elem_of_fmap in Hx as ([x' xn] & -> & Hin). cbn.
  pose proof Hin as (F1 & F2 & E)%list_elem_of_split. exists xn, F1, F2. split; [done|].
  apply elem_of_cons in Hin as [[= -> ->]|Hin]; [split; [apply (hi_size0 _ _ _ HH)|lia]|].
  split; [by apply (hi_size _ _ _ HH); set_solver|]. destruct (hi_range x' xn) as (_ & _ & ? & _); [set_solver|]. lia.
Qed.
Lemma hi_addrs : NoDup ((nodes ++ al).*1).
Proof.
  cbn. constructor.
  - rewrite list_elem_of_fmap. intros ([a n] & E & Hin). cbn in E. subst a. destruct (hi_range base n Hin) as [H _].
    pose proof (hi_base _ _ _ HH). unfold HDR in *. lia.
  - destruct (hi_units _ _ _ HH) as (t & _ & _ & Hp). pose proof (units_nodup lo t) as Hnd. rewrite <- Hp in Hnd.
    assert (Hpos : ∀ b, b ∈ fl ++ al → 0 < b.2) by (intros [a n] Hin; by apply (hi_size _ _ _ HH) in Hin as [_ ?]).
    revert Hpos Hnd. generalize (fl ++ al). clear. unfold U. induction l as [|[a n] l IH]; intros Hpos Hnd; cbn in *; [constructor|].
    apply NoDup_app in Hnd as (_ & Hd & Hnd). constructor; [|apply IH; [|done]; intros; apply Hpos; by right].
    rewrite list_elem_of_fmap. intros ([a' n'] & -> & Hin). apply (Hd a').
    + apply units_first. apply (Hpos (a', n)). by left.
    + apply elem_of_blocks. exists (a', n'). split; [done|]. apply units_first. apply (Hpos (a', n')). by right.
Qed.
Lemma hi_count : Z.of_nat (length fl) < 2 ^ 30.
Proof.
  destruct (hi_units _ _ _ HH) as (t & Ht & Hb & Hp). pose proof (hi_limit _ _ _ HH). pose proof (hi_base _ _ _ HH).
  assert (Hl : (length fl ≤ length (U (fl ++ al)))%nat).
  { assert (Hpos : ∀ b, b ∈ fl → (0 < length (units b))%nat).
    { intros [a n] Hin. destruct (hi_range a n) as (_ & _ & ? & _); [set_solver|]. pose proof (units_length a n). lia. }
    revert Hpos. clear. unfold U. induction fl as [|b l IH]; intros Hpos; cbn; [lia|]. rewrite length_app.
    specialize (Hpos b ltac:(by left)) as Hb. assert (H := IH ltac:(intros; apply Hpos; by right)). lia. }
  rewrite Hp in Hl. pose proof (units_length lo t). unfold HDR in *. lia.
Qed.
End inv.

Section free.
Context (base lo : Z).
Lemma hi_apart s fl al bp n a m : HI base lo s fl ((bp, n) :: al) → (a, m) ∈ fl → a + HDR * m ≤ bp ∨ bp + HDR * n ≤ a.
Proof.
  intros HH Hin. destruct (hi_range _ _ HH a m) as (_ & _ & Hm & i & Ei); [set_solver|].
  destruct (hi_range _ _ HH bp n) as (_ & _ & Hn & j & Ej); [set_solver|].
  destruct (Z.le_gt_cases (a + HDR * m) bp) as [|H1]; [by left|]. right.
  destruct (Z.le_gt_cases (bp + HDR * n) a) as [|H2]; [done|]. exfalso. unfold HDR in *.
  assert (Hd := hi_disjoint _ _ HH fl (bp, n) al a m eq_refl ltac:(set_solver)).
  destruct (Z.le_gt_cases a bp).
  - apply (Hd bp); [apply units_first; lia|]. apply elem_of_units. exists (j - i). unfold HDR. lia.
  - apply (Hd a); [|apply units_first; lia]. apply elem_of_units. exists (i - j). unfold HDR. lia.
Qed.
(** The neighbours of the block [bp]: [x] before it and [F2] after it. *)
Record around (s : heap) (fl : list (Z * Z)) (bp n x y xn : Z) (F1 F2 : list (Z * Z)) : Prop := {
  a_split : nodes base (fl := fl) = F1 ++ (x, xn) :: F2;
  a_size : size s !! x = Some xn ∧ 0 ≤ xn < 2 ^ 30;
  a_below : x + HDR * xn ≤ bp ∧ x < bp;
  a_above : ∀ z, z ∈ F2 → bp + HDR * n ≤ z.1;
  a_next : ptr s !! x = Some y ∧ ((F2 = [] ∧ y = base) ∨ ∃ yn F2', F2 = (y, yn) :: F2');
  a_chain : chain (ptr s) x (F2.*1 ++ F1.*1) x;
}.
Lemma free_around s fl al bp n x y : HI base lo s fl ((bp, n) :: al) → x ∈ base :: fl.*1 → ptr s !! x = Some y →
  place bp x y = true → ∃ xn F1 F2, around s fl bp n x y xn F1 F2.
Proof.
  intros HH Hx Hy Hp. destruct (hi_node _ _ HH x Hx) as (xn & F1 & F2 & E & Hsz & Hxn). exists xn, F1, F2.
  destruct (hi_range _ _ HH bp n) as (Hbp & _ & Hn & _); [set_solver|]. pose proof (hi_base _ _ _ _ _ HH) as [_ Hlo].
  assert (EN : base :: fl.*1 = F1.*1 ++ x :: F2.*1) by (change (base :: fl.*1) with ((nodes base (fl := fl)).*1); by rewrite E, fmap_app).
  pose proof (hi_chain _ _ _ _ _ HH) as Hch. rewrite (ring_at _ _ _ _ _ _ EN) in Hch.
  pose proof (hi_increasing _ _ HH) as Hinc. rewrite EN in Hinc. apply StronglySorted_app in Hinc as (_ & _ & Hinc).
  apply StronglySorted_inv in Hinc as [_ Hinc]. rewrite Forall_forall in Hinc.
  assert (Hnx : (F2 = [] ∧ y = base) ∨ ∃ yn F2', F2 = (y, yn) :: F2').
  { destruct F2 as [|[z zn] F2]; cbn in Hch; [left|right]; [|destruct Hch as [Hz _]; exists zn, F2; congruence].
    split; [done|]. destruct F1 as [|[b bn] F1]; cbn in Hch, EN; injection EN as -> EN; [congruence|]. destruct Hch. congruence. }
  assert (Hin : ∀ z, z ∈ F2 → z ∈ fl) by (intros z Hz; destruct F1; unfold nodes in E; cbn in E; [injection E as _ _ ->|injection E as _ ->]; set_solver).
  assert (Hlt : x < bp ∧ (F2 = [] ∨ bp < y)).
  { unfold place in Hp. unfold HDR in *. destruct Hnx as [[-> ->]|(yn & F2' & ->)].
    - split; [|by left]. destruct (Z.gtb_spec bp x), (Z.ltb_spec bp base), (Z.geb_spec x base); cbn in Hp; try done; lia.
    - specialize (Hinc y ltac:(by left)). destruct (Z.gtb_spec bp x), (Z.ltb_spec bp y), (Z.geb_spec x y); cbn in Hp; try done; lia. }
  split; try done.
  - split; [|apply Hlt]. destruct F1 as [|c F1]; unfold nodes in E; cbn in E; [injection E as <- <- _; unfold HDR in *; lia|].
    injection E as _ H2. destruct (hi_apart s fl al bp n x xn HH) as [?|?]; [rewrite H2; set_solver|done|unfold HDR in *; lia].
  - intros [a m] Hz. destruct (hi_apart s fl al bp n a m HH (Hin _ Hz)) as [H1|H1]; [|done]. cbn in *.
    destruct (hi_range _ _ HH a m) as (_ & _ & Hm & _); [apply Hin in Hz; set_solver|].
    destruct Hnx as [[-> _]|(yn & F2' & E2)]; [by apply elem_of_nil in Hz|]. destruct Hlt as [_ [->|Hlt]]; [done|].
    assert (y ≤ a); [|unfold HDR in *; lia]. rewrite E2 in Hz. apply elem_of_cons in Hz as [[= -> ->]|Hz]; [lia|].
    pose proof (hi_increasing _ _ HH) as Hi2. rewrite EN, E2 in Hi2. apply StronglySorted_app in Hi2 as (_ & _ & Hi2).
    apply StronglySorted_inv in Hi2 as [Hi2 _]. apply StronglySorted_inv in Hi2 as [_ Hi2]. rewrite Forall_forall in Hi2.
    specialize (Hi2 a). assert (y < a); [|lia]. apply Hi2. apply list_elem_of_fmap. by exists (a, m).
Qed.

(** Between the two halves of [free]: [bp] is merged with its upper neighbour
    and points on, but nothing points to it yet. *)
Record mid (s : heap) (F1 : list (Z * Z)) (x xn bp m : Z) (F2 al : list (Z * Z)) : Prop := {
  m_base : 0 < base ∧ base + HDR ≤ lo;
  m_head : ∃ l, F1 ++ (x, xn) :: F2 = (base, 0) :: l;
  m_chain : chain (ptr s) bp (F2.*1 ++ F1.*1) x;
  m_bp : size s !! bp = Some m ∧ 0 < m ∧ x + HDR * xn ≤ bp ∧ base < bp;
  m_x : size s !! x = Some xn ∧ (0 < xn ∨ (x, xn) = (base, 0));
  m_size a k : (a, k) ∈ F1 ++ F2 ++ al → size s !! a = Some k ∧ (0 < k ∨ (a, k) = (base, 0));
  m_addrs : NoDup (x :: bp :: (F1 ++ F2 ++ al).*1);
  m_units : ∃ t, 0 ≤ t ∧ brk s = lo + HDR * t ∧ U (F1 ++ (x, xn) :: (bp, m) :: F2 ++ al) ≡ₚ units (lo, t);
  m_sorted : StronglySorted before (F1 ++ (x, xn) :: F2);
  m_above : ∀ z, z ∈ F2 → before (bp, m) z;
  m_fits : 0 ≤ xn + m < 2 ^ 32;
  m_limit : brk s ≤ limit s ≤ 2 ^ 34;
}.
Section around.
Context {s : heap} {fl al : list (Z * Z)} {bp n x y xn : Z} {F1 F2 : list (Z * Z)}.
Context (HH : HI base lo s fl ((bp, n) :: al)) (HA : around s fl bp n x y xn F1 F2).
Lemma around_perm : nodes base (fl := fl) ++ (bp, n) :: al ≡ₚ (x, xn) :: (bp, n) :: F1 ++ F2 ++ al.
Proof.
  rewrite (a_split _ _ _ _ _ _ _ _ _ HA). rewrite <- Permutation_middle, <- (Permutation_middle F1). cbn.
  rewrite <- app_assoc. apply Permutation_swap.
Qed.
Lemma around_addrs : NoDup (x :: bp :: (F1 ++ F2 ++ al).*1).
Proof. pose proof (hi_addrs _ _ HH) as Hnd. by rewrite around_perm in Hnd. Qed.
Lemma around_size a k : (a, k) ∈ F1 ++ F2 ++ al → size s !! a = Some k ∧ (0 < k ∨ (a, k) = (base, 0)).
Proof.
  intros Hin. assert (Hin' : (a, k) ∈ nodes base (fl := fl) ++ (bp, n) :: al) by (rewrite around_perm; set_solver).
  apply elem_of_cons in Hin' as [[= -> ->]|Hin']; [split; [apply (hi_size0 _ _ _ _ _ HH)|by right]|].
  apply (hi_size _ _ _ _ _ HH) in Hin' as [? ?]. split; [done|by left].
Qed.
Lemma around_x : 0 < xn ∨ (x, xn) = (base, 0).
Proof.
  pose proof (a_split _ _ _ _ _ _ _ _ _ HA) as E. destruct F1 as [|c F1']; unfold nodes in E; cbn in E; [injection E as <- <- _; by right|].
  injection E as _ E. left. apply (hi_size _ _ _ _ _ HH x xn). rewrite E. set_solver.
Qed.
Lemma around_bp : size s !! bp = Some n ∧ 0 < n < 2 ^ 30 ∧ lo ≤ bp.
Proof.
  clear HA F1 F2 x y xn. destruct (hi_size _ _ _ _ _ HH bp n) as [? _]; [set_solver|]. destruct (hi_range _ _ HH bp n) as (? & _ & ? & _); [set_solver|]. done.
Qed.
Lemma around_units : ∃ t, 0 ≤ t ∧ brk s = lo + HDR * t ∧ U ((x, xn) :: (bp, n) :: F1 ++ F2 ++ al) ≡ₚ units (lo, t).
Proof.
  destruct (hi_units _ _ _ _ _ HH) as (t & Ht & Hb & Hp). exists t. split_and!; [done|done|]. rewrite <- around_perm.
  change (U (nodes base (fl := fl) ++ (bp, n) :: al)) with (U (fl ++ (bp, n) :: al)). done.
Qed.
End around.
Lemma U_mid F1 x bp (F2 al : list (Z * Z)) : F1 ++ x :: bp :: F2 ++ al ≡ₚ x :: bp :: F1 ++ F2 ++ al.
Proof. by rewrite <- !Permutation_middle. Qed.
Lemma mid_keep s fl al bp n x y xn F1 F2 : HI base lo s fl ((bp, n) :: al) → around s fl bp n x y xn F1 F2 →
  bp + HDR * n ≠ y → mid (s <| ptr ::= <[bp := y]> |>) F1 x xn bp n F2 al.
Proof.
  intros HH HA Hne. pose proof (around_addrs HH HA) as Hnd. destruct (around_bp HH) as (Hbs & Hn & Hlo).
  pose proof (hi_base _ _ _ _ _ HH) as Hbase. pose proof HA as [E [Hxs Hxn] [Hbe Hlt] Hab [Hy Hnx] Hch].
  pose proof (hi_sorted_nodes _ _ HH) as Hsort. rewrite E in Hsort. unfold HDR in *.
  split; try done.
  - by exists fl.
  - eapply (chain_head (ptr s) _ x); [exact Hch|exact Hy|apply lookup_insert_eq|].
    intros w Hw. cbn. apply lookup_insert_ne. intros <-. apply NoDup_cons in Hnd as [_ Hnd]. apply NoDup_cons in Hnd as [Hnd _].
    apply Hnd. rewrite !fmap_app. set_solver.
  - split_and!; [done|lia|done|unfold HDR in *; lia].
  - split; [done|by apply (around_x HH HA)].
  - apply (around_size HH HA).
  - destruct (around_units HH HA) as (t & ? & ? & Hu). exists t. split_and!; [done|done|]. by rewrite U_mid.
  - intros z Hz. unfold before, HDR. cbn. destruct Hnx as [[-> _]|(yn & F2' & ->)]; [by apply elem_of_nil in Hz|].
    destruct (around_size HH HA y yn) as [_ Hyn]; [set_solver|]. specialize (Hab (y, yn) ltac:(by left)). cbn in Hab.
    apply elem_of_cons in Hz as [->|Hz]; [cbn in *; lia|]. apply StronglySorted_app in Hsort as (_ & _ & Hs). apply StronglySorted_inv in Hs as [Hs _].
    apply StronglySorted_inv in Hs as [_ Hs]. rewrite Forall_forall in Hs. specialize (Hs z Hz). unfold before, HDR in Hs. cbn in Hs.
    destruct Hyn as [Hyn|[= -> ->]]; lia.
  - lia.
  - apply (hi_limit _ _ _ _ _ HH).
Qed.
Lemma mid_merge s fl al bp n x y yn yy xn F1 F2 : HI base lo s fl ((bp, n) :: al) → around s fl bp n x y xn F1 ((y, yn) :: F2) →
  bp + HDR * n = y → ptr s !! y = Some yy →
  mid (s <| size ::= <[bp := n + yn]> |> <| ptr ::= <[bp := yy]> |>) F1 x xn bp (n + yn) F2 al.
Proof.
  intros HH HA Hy Hyy. pose proof (around_addrs HH HA) as Hnd. destruct (around_bp HH) as (Hbs & Hn & Hlo).
  pose proof (hi_base _ _ _ _ _ HH) as Hbase. pose proof HA as [E [Hxs Hxn] [Hbe Hlt] Hab [Hx _] Hch].
  pose proof (hi_sorted_nodes _ _ HH) as Hsort. rewrite E in Hsort. unfold HDR in *.
  assert (Hyn : 0 < yn < 2 ^ 30).
  { destruct (hi_range _ _ HH y yn) as (_ & _ & ? & _); [|done]. destruct F1; unfold nodes in E; cbn in E; [injection E as _ _ ->|injection E as _ ->]; set_solver. }
  assert (Hsub : ∀ a k, (a, k) ∈ F1 ++ F2 ++ al → (a, k) ∈ F1 ++ ((y, yn) :: F2) ++ al) by set_solver.
  assert (Hbpn : ∀ a k, (a, k) ∈ F1 ++ ((y, yn) :: F2) ++ al → a ≠ bp).
  { intros a k Hin ->. apply NoDup_cons in Hnd as [_ Hnd]. apply NoDup_cons in Hnd as [Hnd _]. apply Hnd, list_elem_of_fmap. by exists (bp, k). }
  apply StronglySorted_app in Hsort as (S1 & S2 & S3). apply StronglySorted_inv in S3 as [S3 S4]. apply StronglySorted_inv in S3 as [S3 S5].
  split; try done.
  - destruct F1 as [|c F1]; unfold nodes in E; cbn in E; [injection E as <- <- _; by eexists|injection E as <- _; by eexists].
  - cbn in Hch. destruct Hch as [_ Hch]. eapply (chain_head (ptr s) _ y); [exact Hch|exact Hyy|apply lookup_insert_eq|].
    intros w Hw. cbn. apply lookup_insert_ne. intros <-. rewrite <- fmap_app in Hw. apply list_elem_of_fmap in Hw as ([a k] & -> & Hw).
    apply (Hbpn a k); [set_solver|done].
  - cbn. rewrite lookup_insert_eq. split_and!; [done|lia|done|unfold HDR in *; lia].
  - cbn. rewrite lookup_insert_ne by lia. split; [done|by apply (around_x HH HA)].
  - intros a k Hin. cbn. rewrite lookup_insert_ne; [apply (around_size HH HA), Hsub, Hin|]. intros <-. by apply (Hbpn bp k (Hsub _ _ Hin)).
  - cbn in Hnd. rewrite fmap_app in Hnd. cbn in Hnd. rewrite <- Permutation_middle in Hnd. rewrite fmap_app.
    apply NoDup_cons in Hnd as [N1 Hnd]. apply NoDup_cons in Hnd as [N2 Hnd]. apply NoDup_cons in Hnd as [N3 Hnd].
    constructor; [set_solver|]. constructor; [set_solver|done].
  - destruct (around_units HH HA) as (t & ? & ? & Hu). exists t. split_and!; [done|done|]. rewrite U_mid.
    rewrite Permutation_swap, U_split by lia. unfold HDR. rewrite Hy, <- Hu. f_equiv. cbn. rewrite <- (Permutation_middle F1).
    etrans; [apply perm_skip, perm_swap|apply perm_swap].
  - apply StronglySorted_app. split_and!; [intros; apply S1; set_solver|done|]. constructor; [done|]. by apply Forall_cons in S4 as [_ ?].
  - intros z Hz. rewrite Forall_forall in S5. specialize (S5 z Hz). unfold before, HDR in *. cbn in *. lia.
  - lia.
  - apply (hi_limit _ _ _ _ _ HH).
Qed.
Lemma mid_x_out s F1 x xn bp m F2 al : mid s F1 x xn bp m F2 al → x ∉ bp :: F2.*1 ++ F1.*1.
Proof. intros HM. pose proof (m_addrs _ _ _ _ _ _ _ _ HM) as Hnd. apply NoDup_cons in Hnd as [Hnd _]. rewrite !fmap_app in Hnd. set_solver. Qed.
Lemma HI_intro s fl al : let F := (base, 0) :: fl in 0 < base ∧ base + HDR ≤ lo → chain (ptr s) base (fl.*1) base →
  (∀ a k, (a, k) ∈ F ++ al → size s !! a = Some k ∧ (0 < k ∨ (a, k) = (base, 0))) → NoDup ((F ++ al).*1) →
  (∃ t, 0 ≤ t ∧ brk s = lo + HDR * t ∧ U (F ++ al) ≡ₚ units (lo, t)) → StronglySorted before F →
  freep s ∈ F.*1 → brk s ≤ limit s ≤ 2 ^ 34 → HI base lo s fl al.
Proof.
  intros F Hb Hch Hsz Hnd Hu Hsort Hf Hl. cbn in Hnd. apply NoDup_cons in Hnd as [Hnb Hnd]. split; try done.
  - by destruct (Hsz base 0) as [? _]; [by left|].
  - intros a n Hin. destruct (Hsz a n) as [Hs [?|[= -> ->]]]; [by right|done|]. destruct Hnb. apply list_elem_of_fmap. by exists (base, 0).
  - by apply StronglySorted_inv in Hsort as [? _].
Qed.
Lemma HI_build s F al : (∃ fl, F = (base, 0) :: fl) → 0 < base ∧ base + HDR ≤ lo →
  (∀ fl, F = (base, 0) :: fl → chain (ptr s) base (fl.*1) base) →
  (∀ a k, (a, k) ∈ F ++ al → size s !! a = Some k ∧ (0 < k ∨ (a, k) = (base, 0))) → NoDup ((F ++ al).*1) →
  (∃ t, 0 ≤ t ∧ brk s = lo + HDR * t ∧ U (F ++ al) ≡ₚ units (lo, t)) → StronglySorted before F →
  freep s ∈ F.*1 → brk s ≤ limit s ≤ 2 ^ 34 → ∀ m, (∃ a k, (a, k) ∈ F ∧ m ≤ k) → 0 < m →
  ∃ fl, HI base lo s fl al ∧ ∃ a k, (a, k) ∈ fl ∧ m ≤ k.
Proof.
  intros [fl ->] Hb Hch Hsz Hnd Hu Hsort Hf Hl m (a0 & k0 & Hin0 & Hk0) Hm. exists fl. split; [by apply HI_intro; try done; apply Hch|].
  exists a0, k0. split; [|done]. apply elem_of_cons in Hin0 as [[= -> ->]|?]; [lia|done].
Qed.
Lemma mid_link s F1 x xn bp m F2 al : mid s F1 x xn bp m F2 al → x + HDR * xn ≠ bp →
  ∃ fl, HI base lo (s <| ptr ::= <[x := bp]> |> <| freep := x |>) fl al ∧ ∃ a k, (a, k) ∈ fl ∧ m ≤ k.
Proof.
  intros HM Hne. pose proof (mid_x_out _ _ _ _ _ _ _ _ HM) as Hxo.
  destruct HM as [Hb [l El] Hch (Hbp1 & Hbp2 & Hbp3 & Hbp4) [Hx1 Hx2] Hs Hnd (t & Ht & Hbk & Hu) Hsort Hab Hf Hl].
  apply (HI_build _ (F1 ++ (x, xn) :: (bp, m) :: F2)); try done.
  - destruct F1 as [|c F1]; cbn in El; [injection El as -> -> _|injection El as -> _]; by eexists.
  - intros fl E. assert (EN : base :: fl.*1 = F1.*1 ++ x :: bp :: F2.*1) by (change (base :: fl.*1) with (((base, 0) :: fl).*1); by rewrite <- E, fmap_app).
    rewrite (ring_at _ _ _ _ _ _ EN). cbn. rewrite lookup_insert_eq. split; [done|]. eapply links_ext; [|exact Hch].
    intros w Hw. apply lookup_insert_ne. by intros ->.
  - intros a k Hin. cbn. rewrite <- app_assoc in Hin. cbn in Hin. rewrite U_mid in Hin.
    apply elem_of_cons in Hin as [[= -> ->]|Hin]; [done|]. apply elem_of_cons in Hin as [[= -> ->]|Hin]; [split; [done|by left]|by apply Hs].
  - rewrite <- app_assoc. cbn. rewrite U_mid. exact Hnd.
  - exists t. split_and!; [done|done|]. rewrite <- app_assoc. exact Hu.
  - apply StronglySorted_app in Hsort as (S1 & S2 & S3). apply StronglySorted_inv in S3 as [S3 S4]. rewrite Forall_forall in S4.
    assert (Hxb : before (x, xn) (bp, m)) by (unfold before, HDR in *; cbn; lia).
    apply StronglySorted_app. split_and!; [|done|].
    + intros a b Ha Hb'. apply elem_of_cons in Hb' as [->|Hb']; [apply S1; [done|by left]|]. apply elem_of_cons in Hb' as [->|Hb']; [|apply S1; [done|by right]].
      assert (before a (x, xn)) by (apply S1; [done|by left]). unfold before, HDR in *. cbn in *. destruct Hx2 as [?|[= -> ->]]; lia.
    + constructor; [constructor; [done|apply Forall_forall; apply Hab]|]. constructor; [done|]. by apply Forall_forall.
  - cbn. rewrite fmap_app. set_solver.
  - exists bp, m. split; [set_solver|done].
Qed.
Lemma mid_join s F1 x xn bp m F2 al bnx : mid s F1 x xn bp m F2 al → x + HDR * xn = bp → ptr s !! bp = Some bnx →
  ∃ fl, HI base lo (s <| size ::= <[x := xn + m]> |> <| ptr ::= <[x := bnx]> |> <| freep := x |>) fl al ∧ ∃ a k, (a, k) ∈ fl ∧ m ≤ k.
Proof.
  intros HM He Hbnx. pose proof (mid_x_out _ _ _ _ _ _ _ _ HM) as Hxo.
  destruct HM as [Hb [l El] Hch (Hbp1 & Hbp2 & Hbp3 & Hbp4) [Hx1 Hx2] Hs Hnd (t & Ht & Hbk & Hu) Hsort Hab Hf Hl].
  assert (Hxn : 0 < xn) by (unfold HDR in *; destruct Hx2 as [?|[= -> ->]]; lia).
  apply (HI_build _ (F1 ++ (x, xn + m) :: F2)); try done.
  - destruct F1 as [|c F1]; cbn in El; [injection El as -> -> _; lia|injection El as -> _]; by eexists.
  - intros fl E. assert (EN : base :: fl.*1 = F1.*1 ++ x :: F2.*1) by (change (base :: fl.*1) with (((base, 0) :: fl).*1); by rewrite <- E, fmap_app).
    rewrite (ring_at _ _ _ _ _ _ EN). eapply (chain_head (ptr s) _ bp); [exact Hch|exact Hbnx|apply lookup_insert_eq|].
    intros w Hw. apply lookup_insert_ne. intros ->. apply Hxo. by right.
  - intros a k Hin. cbn. rewrite <- app_assoc in Hin. cbn in Hin. rewrite <- Permutation_middle in Hin.
    apply elem_of_cons in Hin as [[= -> ->]|Hin]; [rewrite lookup_insert_eq; split; [done|left; lia]|].
    rewrite lookup_insert_ne; [by apply Hs|]. intros <-. apply NoDup_cons in Hnd as [Hnd _]. apply Hnd. right. apply list_elem_of_fmap. by exists (x, k).
  - rewrite <- app_assoc. cbn. rewrite <- Permutation_middle. cbn. apply NoDup_cons in Hnd as [N1 Hnd]. apply NoDup_cons in Hnd as [_ Hnd].
    constructor; [set_solver|done].
  - exists t. split_and!; [done|done|]. rewrite <- Hu, <- app_assoc. cbn. rewrite <- Permutation_middle, U_split, He by lia. by rewrite <- !Permutation_middle.
  - apply StronglySorted_app in Hsort as (S1 & S2 & S3). apply StronglySorted_inv in S3 as [S3 S4].
    apply StronglySorted_app. split_and!; [|done|].
    + intros a b Ha Hb'. apply elem_of_cons in Hb' as [->|Hb']; [|apply S1; [done|by right]].
      assert (before a (x, xn)) by (apply S1; [done|by left]). done.
    + constructor; [done|]. apply Forall_forall. intros z Hz. specialize (Hab z Hz). unfold before, HDR in *. cbn in *. lia.
  - cbn. rewrite fmap_app. set_solver.
  - exists x, (xn + m). split; [set_solver|lia].
Qed.

Context {h : list lock} {k : list chan}.
Lemma free_spec s fl al bp n Φ : HI base lo s fl ((bp, n) :: al) →
  (∀ s' fl', HI base lo s' fl' al → (∃ a m, (a, m) ∈ fl' ∧ n ≤ m) → brk s' = brk s ∧ limit s' = limit s → Φ () (World h k s')) →
  wp (free (bp + HDR)) Φ (World h k s).
Proof.
  intros HH HΦ. unfold free. replace (bp + HDR - HDR) with bp by lia. apply wp_bind, wp_gets. cbn [st].
  destruct (ring_from _ _ _ _ (hi_chain _ _ _ _ _ HH) (hi_freep _ _ _ _ _ HH)) as (r & Hr & Hperm).
  destruct (hi_range _ _ HH bp n) as (Hlo & _ & Hn & _); [set_solver|]. pose proof (hi_base _ _ _ _ _ HH) as [_ Hb].
  apply wp_bind, (find_place_spec s bp (freep s) r).
  { exact Hr. }
  { pose proof (hi_count _ _ HH). apply Permutation_length in Hperm. cbn in Hperm. rewrite length_fmap in Hperm. lia. }
  { setoid_rewrite Hperm. eapply place_exists; [apply (hi_chain _ _ _ _ _ HH)|by eapply hi_increasing|unfold HDR in *; lia| |lia].
    pose proof (hi_addrs _ _ HH) as Hnd. rewrite fmap_app in Hnd. apply NoDup_app in Hnd as (_ & Hnd & _). intros Hin. apply (Hnd bp); [by right|by left]. }
  intros x y Hx Hy Hp. rewrite Hperm in Hx. destruct (free_around s fl al bp n x y HH Hx Hy Hp) as (xn & F1 & F2 & HA).
  destruct (around_bp HH) as (Hbs & _ & _). apply (wp_get_size _ _ _ _ _ Hbs), (wp_get_ptr _ _ _ _ _ Hy).
  assert (Hrest : ∀ s1 m F2', mid s1 F1 x xn bp m F2' al → n ≤ m → brk s1 = brk s ∧ limit s1 = limit s →
    wp (psz ← get_size x; (if x + HDR * psz =? bp then bsz ← get_size bp; set_size x (psz + bsz);; bnx ← get_ptr bp; set_ptr x bnx else set_ptr x bp);;
        modify (λ h, h <| freep := x |>)) Φ (World h k s1)).
  { intros s1 m F2' HM Hnm Hsame. destruct (m_x _ _ _ _ _ _ _ _ HM) as [Hxs _]. apply (wp_get_size _ _ _ _ _ Hxs).
    destruct (Z.eqb_spec (x + HDR * xn) bp) as [E|E]; apply wp_bind.
    - destruct (m_bp _ _ _ _ _ _ _ _ HM) as (Hbm & _). apply (wp_get_size _ _ _ _ _ Hbm). apply wp_bind, wp_modify.
      destruct (chain_next _ _ _ _ bp (m_chain _ _ _ _ _ _ _ _ HM)) as (bnx & Hbnx & _); [by left|].
      apply (wp_get_ptr _ _ _ _ bnx); [exact Hbnx|]. apply wp_modify, wp_modify.
      destruct (mid_join _ _ _ _ _ _ _ _ bnx HM E Hbnx) as (fl' & HI' & a & m' & Hin & Hm').
      rewrite u32_small by apply (m_fits _ _ _ _ _ _ _ _ HM). apply (HΦ _ fl'); [exact HI'|exists a, m'; split; [done|lia]|done].
    - apply wp_modify, wp_modify. destruct (mid_link _ _ _ _ _ _ _ _ HM E) as (fl' & HI' & a & m' & Hin & Hm').
      apply (HΦ _ fl'); [exact HI'|exists a, m'; split; [done|lia]|done]. }
  destruct (Z.eqb_spec (bp + HDR * n) y) as [E|E]; apply wp_bind.
  - destruct (a_next _ _ _ _ _ _ _ _ _ HA) as [_ [[_ ->]|(yn & F2' & ->)]]; [unfold HDR in *; lia|].
    destruct (around_size HH HA y yn) as [Hys _]; [set_solver|]. apply (wp_get_size _ _ _ _ _ Hys). apply wp_bind, wp_modify.
    destruct (chain_next _ _ _ _ y (a_chain _ _ _ _ _ _ _ _ _ HA)) as (yy & Hyy & _); [cbn; set_solver|].
    apply (wp_get_ptr _ _ _ _ yy); [exact Hyy|]. apply wp_modify.
    destruct (hi_range _ _ HH y yn) as (_ & _ & Hyn & _).
    { pose proof (a_split _ _ _ _ _ _ _ _ _ HA) as ES. destruct F1; unfold nodes in ES; cbn in ES; [injection ES as _ _ ->|injection ES as _ ->]; set_solver. }
    rewrite u32_small by lia. apply (Hrest _ (n + yn) F2'); [by eapply mid_merge|lia|done].
  - apply wp_modify. apply (Hrest _ n F2); [by eapply mid_keep|lia|done].
Qed.
End free.

Section malloc.
Context (base lo : Z).
Lemma HI_grow s fl al n : HI base lo s fl al → 0 < n → brk s + HDR * n ≤ limit s →
  HI base lo (s <| brk ::= λ b, b + HDR * n |> <| size ::= <[brk s := n]> |>) fl ((brk s, n) :: al).
Proof.
  intros HH Hn Hlim. pose proof (hi_range _ _ HH) as Hr. destruct HH as [Hb Hch Hs0 Hs (t & Ht & Hbk & Hu) Hsort Hf Hl]. split; try done.
  - cbn. rewrite lookup_insert_ne; [done|]. unfold HDR in *. lia.
  - intros a k Hin. cbn. destruct (decide (a = brk s)) as [->|Ha].
    + rewrite lookup_insert_eq. apply elem_of_app in Hin as [Hin|[[= ->]|Hin]%elem_of_cons]; [|done|].
      * destruct (Hr (brk s) k) as (_ & ? & ? & _); [set_solver|]. unfold HDR in *. lia.
      * destruct (Hr (brk s) k) as (_ & ? & ? & _); [set_solver|]. unfold HDR in *. lia.
    + rewrite lookup_insert_ne by done. apply Hs. set_solver.
  - exists (t + n). split_and!; [lia|cbn; unfold HDR in *; lia|]. rewrite units_add by lia. rewrite <- Permutation_middle. cbn.
    rewrite <- Hbk, <- Hu. apply Permutation_app_comm.
  - cbn. lia.
Qed.
(** The predecessor [q] of a free block [p] in the ring. *)
Lemma pred_of s fl al q p : HI base lo s fl al → q ∈ base :: fl.*1 → ptr s !! q = Some p → p ≠ base →
  ∃ qn pn F1 F2, (base, 0) :: fl = F1 ++ (q, qn) :: (p, pn) :: F2 ∧ size s !! p = Some pn ∧ 0 < pn < 2 ^ 30 ∧
    chain (ptr s) p (F2.*1 ++ F1.*1) q.
Proof.
  intros HH Hq Hp Hne. destruct (hi_node _ _ HH q Hq) as (qn & F1 & F2 & E & _). unfold nodes in E.
  assert (EN : base :: fl.*1 = F1.*1 ++ q :: F2.*1) by (change (base :: fl.*1) with (((base, 0) :: fl).*1); by rewrite E, fmap_app).
  pose proof (hi_chain _ _ _ _ _ HH) as Hch. rewrite (ring_at _ _ _ _ _ _ EN) in Hch.
  destruct F2 as [|[p' pn] F2].
  { destruct F1 as [|[b bn] F1]; cbn in Hch, E; injection E as -> -> E; [congruence|]. destruct Hch as [Hc _]. congruence. }
  cbn in Hch. destruct Hch as [Hc Hch]. assert (p' = p) as -> by congruence. exists qn, pn, F1, F2.
  assert (Hin : (p, pn) ∈ fl ++ al).
  { destruct F1; cbn in E; [injection E as _ _ ->|injection E as _ ->]; set_solver. }
  destruct (hi_range _ _ HH p pn Hin) as (_ & _ & ? & _). split_and!; try done; try lia. by apply (hi_size _ _ _ _ _ HH).
Qed.
Lemma take_exact s fl al q p pn F1 F2 qn nx : HI base lo s fl al → (base, 0) :: fl = F1 ++ (q, qn) :: (p, pn) :: F2 →
  chain (ptr s) p (F2.*1 ++ F1.*1) q → ptr s !! p = Some nx → size s !! p = Some pn →
  ∃ fl', HI base lo (s <| ptr ::= <[q := nx]> |> <| freep := q |>) fl' ((p, pn) :: al).
Proof.
  intros HH E Hch Hnx Hps. pose proof (hi_addrs _ _ HH) as Hnd. unfold nodes in Hnd.
  pose proof (hi_sorted_nodes _ _ HH) as Hsort. unfold nodes in Hsort. rewrite E in Hsort, Hnd.
  assert (∃ fl', (base, 0) :: fl' = F1 ++ (q, qn) :: F2) as [fl' E'].
  { destruct F1 as [|c F1]; cbn in E; [injection E as <- <- _|injection E as <- _]; by eexists. }
  assert (Hperm : F1 ++ (q, qn) :: F2 ++ (p, pn) :: al ≡ₚ (F1 ++ (q, qn) :: (p, pn) :: F2) ++ al).
  { rewrite <- !app_assoc. f_equiv. cbn. f_equiv. by rewrite <- Permutation_middle. }
  exists fl'. apply HI_intro.
  - apply (hi_base _ _ _ _ _ HH).
  - assert (EN : base :: fl'.*1 = F1.*1 ++ q :: F2.*1) by (change (base :: fl'.*1) with (((base, 0) :: fl').*1); by rewrite E', fmap_app).
    rewrite (ring_at _ _ _ _ _ _ EN). eapply (chain_head (ptr s) _ p); [exact Hch|exact Hnx|apply lookup_insert_eq|].
    intros w Hw. apply lookup_insert_ne. intros <-. rewrite !fmap_app in Hnd. cbn in Hnd. rewrite <- app_assoc in Hnd.
    cbn in Hnd. rewrite <- Permutation_middle in Hnd. apply NoDup_cons in Hnd as [Hnd _]. set_solver.
  - intros a k Hin. rewrite E', <- app_assoc in Hin. cbn in Hin. rewrite Hperm, <- E in Hin. cbn.
    apply elem_of_cons in Hin as [[= -> ->]|Hin]; [split; [apply (hi_size0 _ _ _ _ _ HH)|by right]|].
    apply (hi_size _ _ _ _ _ HH) in Hin as [? ?]. split; [done|by left].
  - rewrite E', <- app_assoc. cbn. by rewrite Hperm.
  - destruct (hi_units _ _ _ _ _ HH) as (t & ? & ? & Hu). exists t. split_and!; [done|done|]. rewrite E', <- app_assoc. cbn. rewrite Hperm, <- E. exact Hu.
  - rewrite E'. apply StronglySorted_app in Hsort as (S1 & S2 & S3). apply StronglySorted_inv in S3 as [S3 S4]. apply StronglySorted_inv in S3 as [S3 _].
    apply StronglySorted_app. split_and!; [intros; apply S1; set_solver|done|]. constructor; [done|]. by apply Forall_cons in S4 as [_ ?].
  - rewrite E', fmap_app. cbn. set_solver.
  - apply (hi_limit _ _ _ _ _ HH).
Qed.
Lemma take_tail s fl al q p pn F1 F2 qn n : HI base lo s fl al → (base, 0) :: fl = F1 ++ (q, qn) :: (p, pn) :: F2 →
  0 < n < pn → let b := p + HDR * (pn - n) in
  ∃ fl', HI base lo (s <| size ::= <[p := pn - n]> |> <| size ::= <[b := n]> |> <| freep := q |>) fl' ((b, n) :: al).
Proof.
  intros HH E Hn b. pose proof (hi_addrs _ _ HH) as Hnd. unfold nodes in Hnd.
  pose proof (hi_sorted_nodes _ _ HH) as Hsort. unfold nodes in Hsort. rewrite E in Hsort, Hnd.
  assert (∃ l1 l2, fl = l1 ++ (p, pn) :: l2 ∧ (base, 0) :: l1 ++ (p, pn - n) :: l2 = F1 ++ (q, qn) :: (p, pn - n) :: F2) as (l1 & l2 & Efl & E').
  { destruct F1 as [|c F1]; cbn in E; [injection E as <- <- ->; by exists [], F2|injection E as <- ->].
    exists (F1 ++ [(q, qn)]), F2. by rewrite <- !app_assoc. }
  assert (Hbu : b ∈ units (p, pn)) by (apply elem_of_units; exists (pn - n); unfold b; split; [lia|done]).
  assert (Hother : ∀ a k, (a, k) ∈ l1 ++ l2 ++ al → a ≠ b ∧ a ≠ p).
  { intros a k Hin. assert (Hd := hi_disjoint _ _ HH l1 (p, pn) (l2 ++ al) a k ltac:(by rewrite Efl, <- app_assoc) Hin).
    destruct (hi_range _ _ HH a k) as (_ & _ & ? & _); [rewrite Efl; set_solver|].
    assert (Ha : a ∈ units (a, k)) by (apply units_first; lia). split; intros ->; [by apply (Hd b)|].
    apply (Hd p); [apply units_first; lia|done]. }
  assert (Hpb : p ≠ b) by (unfold b, HDR; lia).
  assert (Hbb : base ≠ b ∧ base ≠ p).
  { destruct (hi_range _ _ HH p pn) as (? & _); [rewrite Efl; set_solver|]. pose proof (hi_base _ _ _ _ _ HH). unfold b, HDR in *. lia. }
  exists (l1 ++ (p, pn - n) :: l2). split.
  - apply (hi_base _ _ _ _ _ HH).
  - pose proof (hi_chain _ _ _ _ _ HH) as Hch. rewrite Efl in Hch. by rewrite !fmap_app in Hch |- *.
  - cbn. rewrite !lookup_insert_ne by naive_solver. apply (hi_size0 _ _ _ _ _ HH).
  - intros a k Hin. cbn. rewrite <- app_assoc in Hin. cbn in Hin.
    destruct (decide (a = b)) as [->|Hab].
    { rewrite lookup_insert_eq. assert (k = n); [|split; [congruence|lia]].
      apply elem_of_app in Hin as [Hin|[[= ? ?]|Hin]%elem_of_cons]; [by destruct (Hother b k ltac:(set_solver))|done|].
      apply elem_of_app in Hin as [Hin|[[= ?]|Hin]%elem_of_cons]; [by destruct (Hother b k ltac:(set_solver))|done|by destruct (Hother b k ltac:(set_solver))]. }
    rewrite lookup_insert_ne by done. destruct (decide (a = p)) as [->|Hap].
    { rewrite lookup_insert_eq. assert (k = pn - n); [|split; [congruence|lia]].
      apply elem_of_app in Hin as [Hin|[[= ?]|Hin]%elem_of_cons]; [by destruct (Hother p k ltac:(set_solver))|done|].
      apply elem_of_app in Hin as [Hin|[[= ? ?]|Hin]%elem_of_cons]; [by destruct (Hother p k ltac:(set_solver))|done|by destruct (Hother p k ltac:(set_solver))]. }
    rewrite lookup_insert_ne by done. apply (hi_size _ _ _ _ _ HH). rewrite Efl. set_solver.
  - destruct (hi_units _ _ _ _ _ HH) as (t & ? & ? & Hu). exists t. split_and!; [done|done|]. rewrite <- Hu, Efl, <- !app_assoc. cbn.
    rewrite <- !(Permutation_middle l1). replace pn with ((pn - n) + n) at 2 by lia. rewrite U_split by lia. fold b.
    do 2 f_equiv. rewrite <- !Permutation_middle. done.
  - assert (Hs2 : StronglySorted before ((base, 0) :: l1 ++ (p, pn - n) :: l2)); [|by apply StronglySorted_inv in Hs2 as [? _]]. rewrite E'.
    apply StronglySorted_app in Hsort as (S1 & S2 & S3). apply StronglySorted_inv in S3 as [S3 S4]. apply StronglySorted_inv in S3 as [S3 S5].
    apply StronglySorted_app. split_and!; [|done|].
    + intros x y Hx Hy. apply elem_of_cons in Hy as [->|Hy]; [apply S1; set_solver|]. apply elem_of_cons in Hy as [->|Hy]; [|apply S1; set_solver].
      change (before x (p, pn)). apply S1; set_solver.
    + apply Forall_cons in S4 as [S4 S6]. constructor; [constructor; [done|]|by constructor].
      apply Forall_forall. intros z Hz. rewrite Forall_forall in S5. specialize (S5 z Hz). unfold before, HDR in *. cbn in *. lia.
  - cbn. change (base :: (l1 ++ (p, pn - n) :: l2).*1) with (((base, 0) :: l1 ++ (p, pn - n) :: l2).*1). rewrite E', fmap_app. cbn. set_solver.
  - apply (hi_limit _ _ _ _ _ HH).
Qed.

Context {h : list lock} {k : list chan}.
Lemma morecore_spec s fl al nu Φ : HI base lo s fl al → 0 < nu → nu * HDR < 2 ^ 31 →
  Φ 0 (World h k s) →
  (∀ s' fl', HI base lo s' fl' al → (∃ a m, (a, m) ∈ fl' ∧ nu ≤ m) → brk s' = brk s + HDR * Z.max nu 4096 → Φ (freep s') (World h k s')) →
  wp (morecore nu) Φ (World h k s).
Proof.
  intros HH Hnu Hfit Hfail Hok. unfold morecore. set (n := if nu <? 4096 then 4096 else nu).
  assert (Hn : n = Z.max nu 4096) by (unfold n; destruct (Z.ltb_spec nu 4096); lia).
  pose proof (hi_base _ _ _ _ _ HH) as Hb. destruct (hi_units _ _ _ _ _ HH) as (t & Ht & Hbk & _).
  unfold sbrk. apply wp_bind, wp_bind, wp_gets. cbn [st id]. unfold id. rewrite i32_small by (unfold HDR in *; lia).
  rewrite Z.gtb_ltb. destruct (Z.ltb_spec (limit s) (brk s + n * HDR)) as [Hlt|Hle].
  { apply wp_ret. change (-1 =? -1) with true. cbv iota. by apply wp_ret. }
  rewrite (proj2 (Z.ltb_ge (brk s + n * HDR) 0)) by (unfold HDR in *; lia).
  apply wp_bind, wp_modify, wp_ret. rewrite (proj2 (Z.eqb_neq (brk s) (-1))) by (unfold HDR in *; lia).
  apply wp_bind, wp_modify. pose proof (HI_grow s fl al n HH ltac:(lia) ltac:(unfold HDR in *; lia)) as HG.
  pose proof (hi_limit _ _ _ _ _ HH) as Hlim.
  apply wp_bind. rewrite u32_small by (unfold HDR in *; lia). replace (n * HDR) with (HDR * n) by lia.
  apply (free_spec base lo _ _ _ _ _ _ HG). intros s' fl' HI' (a & m & Hin & Hm) [Hbrk _]. apply wp_gets. cbn [st].
  apply (Hok s' fl' HI'); [exists a, m; split; [done|lia]|]. rewrite Hbrk, <- Hn. done.
Qed.

(** A turn of malloc's loop looks at [p], the node after [q]; [R] is what is
    left of the ring before [freep]. Once [morecore] has been called, a block
    that is big enough lies ahead. *)
Definition ahead (s : heap) (fl : list (Z * Z)) (q p : Z) (R : list Z) : Prop :=
  chain (ptr s) q R (freep s) ∧ p = default (freep s) (head R) ∧ q ∈ base :: fl.*1 ∧ (∀ x, x ∈ R → x ∈ base :: fl.*1) ∧ freep s ∉ R.
Definition turn (al : list (Z * Z)) (nunits : Z) (n : Z) (a : Z * Z) (w : world heap) : Prop :=
  ∃ s fl R, w = World h k s ∧ HI base lo s fl al ∧ ahead s fl a.1 a.2 R ∧
    (n = Z.of_nat (length R) + 2 ^ 40 ∨ (n = Z.of_nat (length R) ∧ ∃ x m, x ∈ R ++ [freep s] ∧ size s !! x = Some m ∧ nunits ≤ m)).
Lemma ahead_start s fl al : HI base lo s fl al → ∃ p R, ptr s !! freep s = Some p ∧ ahead s fl (freep s) p R ∧
  Z.of_nat (length R) < 2 ^ 31 ∧ freep s :: R ≡ₚ base :: fl.*1.
Proof.
  intros HH. destruct (ring_from _ _ _ _ (hi_chain _ _ _ _ _ HH) (hi_freep _ _ _ _ _ HH)) as (r & Hr & Hperm).
  exists (default (freep s) (head r)), r. assert (Hnd : NoDup (freep s :: r)).
  { rewrite Hperm. pose proof (hi_addrs _ _ HH) as Hnd. rewrite fmap_app in Hnd. by apply NoDup_app in Hnd as [? _]. }
  split_and!; [destruct r; cbn in *; [done|by destruct Hr]| |pose proof (hi_count _ _ HH); apply Permutation_length in Hperm; cbn in Hperm; rewrite length_fmap in Hperm; lia|done].
  split_and!; [done|done|apply (hi_freep _ _ _ _ _ HH)|intros x Hx; rewrite <- Hperm; by right|by apply NoDup_cons in Hnd as [? _]].
Qed.
Lemma ahead_p s fl al q p R : HI base lo s fl al → ahead s fl q p R → ptr s !! q = Some p ∧ p ∈ base :: fl.*1 ∧ (p = freep s ↔ R = []).
Proof.
  intros HH (Hch & -> & Hq & HR & Hn). destruct R as [|x R]; cbn in *.
  - split_and!; [done|apply (hi_freep _ _ _ _ _ HH)|done].
  - destruct Hch as [Hx _]. split_and!; [done|apply HR; by left|]. split; [intros ->; destruct Hn; by left|done].
Qed.
Lemma ahead_step s fl al q p x R : HI base lo s fl al → ahead s fl q p (x :: R) →
  x = p ∧ ∃ nx, ptr s !! p = Some nx ∧ ahead s fl p nx R.
Proof.
  intros HH (Hch & -> & Hq & HR & Hn). cbn in *. destruct Hch as [Hx Hch]. split; [done|]. exists (default (freep s) (head R)).
  split; [destruct R; cbn in *; [done|by destruct Hch]|]. split_and!; [done|done|apply HR; by left|intros; apply HR; by right|].
  intros Hin. apply Hn. by right.
Qed.
Definition got (al : list (Z * Z)) (nunits : Z) (r : Z) (w : world heap) : Prop :=
  ∃ s fl, w = World h k s ∧ ((r = 0 ∧ HI base lo s fl al) ∨ (r ≠ 0 ∧ HI base lo s fl ((r - HDR, nunits) :: al))).
Lemma take_block s fl al q p R sz nunits Φ : HI base lo s fl al → ahead s fl q p R → size s !! p = Some sz →
  0 < nunits ≤ sz → (∀ r w, got al nunits r w → Φ (inr r) w) →
  wp (p ← (if sz =? nunits then nx ← get_ptr p; set_ptr q nx;; ret p
           else set_size p (sz - nunits);; let b := p + HDR * (sz - nunits) in set_size b nunits;; ret b);
      modify (λ h, h <| freep := q |>);; break (A := Z * Z) (p + HDR)) Φ (World h k s).
Proof.
  intros HH HA Hsz Hn HΦ. destruct (ahead_p _ _ _ _ _ _ HH HA) as (Hqp & Hpn & _). pose proof (hi_base _ _ _ _ _ HH) as Hb.
  assert (Hpb : p ≠ base) by (intros ->; rewrite (hi_size0 _ _ _ _ _ HH) in Hsz; injection Hsz as <-; lia).
  destruct HA as (_ & _ & Hq & _). destruct (pred_of s fl al q p HH Hq Hqp Hpb) as (qn & pn & F1 & F2 & E & Hps & Hpn' & Hch).
  assert (pn = sz) as -> by congruence.
  assert (Hlo : lo ≤ p).
  { apply (hi_range _ _ HH p sz). destruct F1; cbn in E; [injection E as _ _ ->|injection E as _ ->]; set_solver. }
  apply wp_bind. destruct (Z.eqb_spec sz nunits) as [->|Hne].
  - destruct (chain_next _ _ _ _ p Hch) as (nx & Hnx & _); [by left|]. apply (wp_get_ptr _ _ _ _ nx Hnx), wp_bind, wp_modify, wp_ret, wp_bind, wp_modify, wp_ret, HΦ.
    destruct (take_exact s fl al q p nunits F1 F2 qn nx HH E Hch Hnx Hsz) as (fl' & HI'). eexists _, fl'. split; [done|]. right.
    split; [unfold HDR in *; lia|]. replace (p + HDR - HDR) with p by lia. exact HI'.
  - apply wp_bind, wp_modify, wp_bind, wp_modify, wp_ret, wp_bind, wp_modify, wp_ret, HΦ. rewrite !u32_small by lia.
    destruct (take_tail s fl al q p sz F1 F2 qn nunits HH E ltac:(lia)) as (fl' & HI'). eexists _, fl'. split; [done|]. right.
    split; [unfold HDR in *; lia|]. replace (p + HDR * (sz - nunits) + HDR - HDR) with (p + HDR * (sz - nunits)) by lia. exact HI'.
Qed.
Lemma malloc_spec s fl al nbytes : HI base lo s fl al → 0 ≤ nbytes < 2 ^ 31 - 31 →
  wp (malloc base nbytes) (got al ((nbytes + HDR - 1) / HDR + 1)) (World h k s).
Proof.
  intros HH Hnb. unfold malloc. set (nunits := (nbytes + HDR - 1) / HDR + 1).
  assert (Hnu : 0 < nunits ∧ nunits * HDR < 2 ^ 31).
  { unfold nunits, HDR. pose proof (Z.div_mod (nbytes + 16 - 1) 16). pose proof (Z.mod_pos_bound (nbytes + 16 - 1) 16). lia. }
  rewrite u32_small by (unfold HDR in *; lia). apply wp_bind, wp_gets. cbn [st].
  assert (Hf0 : ∀ s fl, HI base lo s fl al → freep s ≠ 0).
  { intros s0 fl0 H0 E. pose proof (hi_freep _ _ _ _ _ H0) as Hf. pose proof (hi_base _ _ _ _ _ H0) as [Hb Hlo]. rewrite E in Hf.
    apply elem_of_cons in Hf as [?|([a m] & Ea & Hin)%list_elem_of_fmap]; [lia|]. destruct (hi_range _ _ H0 a m) as [? _]; [set_solver|]. cbn in Ea. unfold HDR in *. lia. }
  rewrite (proj2 (Z.eqb_neq (freep s) 0)) by (by eapply Hf0). cbn [when]. apply wp_bind, wp_ret, wp_bind, wp_gets. cbn [st].
  destruct (ahead_start s fl al HH) as (p & R & Hp & HA & Hlen & _). apply (wp_get_ptr _ _ _ _ _ Hp).
  apply (wp_loop _ (turn al nunits)) with (n := Z.of_nat (length R) + 2 ^ 40).
  - intros n a w (s0 & fl0 & R0 & _ & _ & _ & [-> | [-> _]]); lia.
  - clear s fl HH p R Hp HA Hlen. intros n [q p] w (s & fl & R & -> & HH & HA & Hn). cbn [fst snd] in HA. unfold malloc_turn.
    destruct (ahead_p _ _ _ _ _ _ HH HA) as (_ & Hpn & Hpf). destruct (hi_node _ _ HH p Hpn) as (sz & _ & _ & _ & Hsz & _).
    apply (wp_get_size _ _ _ _ _ Hsz). rewrite Z.geb_leb. destruct (Z.leb_spec nunits sz) as [Hge|Hlt].
    { apply (take_block s fl al q p R sz nunits _ HH HA Hsz); [lia|done]. }
    apply wp_bind, wp_gets. cbn [st]. destruct (Z.eqb_spec p (freep s)) as [Ef|Ef].
    + apply wp_bind, (morecore_spec s fl al nunits); [done|lia|lia| |].
      { change (0 =? 0) with true. cbv iota. apply wp_ret. exists s, fl. split; [done|]. by left. }
      intros s' fl' HH' (a & m & Hin & Hm) _. rewrite (proj2 (Z.eqb_neq (freep s') 0)) by (by eapply Hf0).
      destruct (ahead_start s' fl' al HH') as (p' & R' & Hp' & HA' & Hlen' & Hperm'). apply (wp_get_ptr _ _ _ _ _ Hp'), wp_ret.
      exists (Z.of_nat (length R')). split; [|destruct Hn as [->|[-> (x & m' & Hx & Hx2 & Hx3)]]; [lia|]].
      * exists s', fl', R'. split_and!; try done. right. split; [done|]. exists a, m. split_and!; [|apply (hi_size _ _ _ _ _ HH'); set_solver|done].
        rewrite (Permutation_app_comm R'). cbn. rewrite Hperm'. right. apply list_elem_of_fmap. by exists (a, m).
      * apply Hpf in Ef as ->. cbn in Hx. apply list_elem_of_singleton in Hx as ->. destruct HA as (_ & -> & _). cbn in Hsz. assert (m' = sz) by congruence. lia.
    + destruct R as [|x R]; [by destruct Ef; apply Hpf|]. destruct (ahead_step _ _ _ _ _ _ _ HH HA) as (-> & nx & Hnx & HA').
      apply (wp_get_ptr _ _ _ _ _ Hnx), wp_ret. exists (n - 1). split; [|lia]. exists s, fl, R. split_and!; try done. cbn [length] in Hn.
      destruct Hn as [->|[-> (x & m' & Hx & Hx2 & Hx3)]]; [left; lia|right]. split; [lia|]. exists x, m'. split_and!; try done.
      apply elem_of_cons in Hx as [->|Hx]; [|done]. assert (m' = sz) by congruence. lia.
  - exists s, fl, R. split_and!; try done. by left.
  - change (2 ^ Z.of_nat 64) with (2 ^ 64). lia.
Qed.
End malloc.

(** ** All runs *)
Section runs.
Context (base lo : Z).
Lemma HI_perm s fl al al' : al ≡ₚ al' → HI base lo s fl al → HI base lo s fl al'.
Proof.
  intros Hp [Hb Hch Hs0 Hs (t & Ht & Hbk & Hu) Hsort Hf Hl]. split; try done.
  - intros a n Hin. apply Hs. by rewrite Hp.
  - exists t. split_and!; [done|done|]. by rewrite <- Hp.
Qed.
(** Before the first call: no list, no heap. The heap starts at [lo], the size
    exec leaves, which is a multiple of the page size. *)
Definition fresh (s : heap) : Prop :=
  freep s = 0 ∧ brk s = lo ∧ lo ≤ limit s ≤ 2 ^ 32 ∧ 0 < base ∧ base + HDR ≤ lo ∧ lo mod HDR = 0.
Definition init (s : heap) : heap := s <| freep := base |> <| ptr ::= <[base := base]> |> <| size ::= <[base := 0]> |>.
Lemma init_HI s : fresh s → HI base lo (init s) [] [].
Proof.
  intros (Hf & Hb & Hl & Hbase & Hlo & _). split; try done; cbn.
  - apply lookup_insert_eq.
  - apply lookup_insert_eq.
  - intros a n Hin. by apply elem_of_nil in Hin.
  - exists 0. split_and!; [lia|unfold HDR; lia|done].
  - constructor.
  - by left.
  - lia.
Qed.
Lemma malloc_fresh s n h k : fresh s → malloc base n (World h k s) = malloc base n (World h k (init s)).
Proof.
  intros (Hf & _ & _ & Hb & _). unfold malloc, bind, gets, when. cbn [st]. rewrite Hf. cbn [Z.eqb]. cbn [freep init].
  unfold init at 1. cbn [freep set_field]. rewrite (proj2 (Z.eqb_neq base 0)) by lia. reflexivity.
Qed.
(** [al]: the pointers handed out and not freed, with the sizes asked for. *)
Inductive reach : heap → list (Z * Z) → Prop :=
  | reach_init s : fresh s → reach s []
  | reach_malloc s al n r s' : reach s al → 0 ≤ n < 2 ^ 31 - 31 → malloc base n (World [] [] s) = Done r (World [] [] s') →
      reach s' (if decide (r = 0) then al else (r, n) :: al)
  | reach_free s al1 r n al2 s' : reach s (al1 ++ (r, n) :: al2) → free r (World [] [] s) = Done () (World [] [] s') →
      reach s' (al1 ++ al2).
(** The block of a pointer. *)
Definition block_of (b : Z * Z) : Z * Z := (b.1 - HDR, (b.2 + HDR - 1) / HDR + 1).
Definition Inv (s : heap) (al : list (Z * Z)) : Prop := ∃ fl, HI base lo s fl (block_of <$> al).
Lemma malloc_Inv s al n : Inv s al → 0 ≤ n < 2 ^ 31 - 31 →
  ∃ r s', malloc base n (World [] [] s) = Done r (World [] [] s') ∧ Inv s' (if decide (r = 0) then al else (r, n) :: al).
Proof.
  intros [fl HH] Hn. pose proof (malloc_spec base lo s fl _ n (h := []) (k := []) HH Hn) as Hwp.
  apply wp_done in Hwp as (r & w & Hrun & s' & fl' & -> & [(-> & H')|(Hr & H')]).
  - exists 0, s'. split; [done|]. by exists fl'.
  - exists r, s'. split; [done|]. rewrite decide_False by done. by exists fl'.
Qed.
Lemma free_Inv s al1 r n al2 : Inv s (al1 ++ (r, n) :: al2) →
  ∃ s', free r (World [] [] s) = Done () (World [] [] s') ∧ Inv s' (al1 ++ al2).
Proof.
  intros [fl HH]. apply (HI_perm _ _ _ (block_of <$> (r, n) :: al1 ++ al2)) in HH; [|by rewrite <- Permutation_middle].
  assert (Hwp : wp (free (r - HDR + HDR)) (λ _ w, ∃ s' fl', w = World [] [] s' ∧ HI base lo s' fl' (block_of <$> al1 ++ al2)) (World [] [] s)).
  { eapply (free_spec base lo s fl); [exact HH|]. intros s' fl' H' _ _. eauto. }
  replace (r - HDR + HDR) with r in Hwp by lia. apply wp_done in Hwp as ([] & w & Hrun & s' & fl' & -> & H'). exists s'. split; [done|]. by exists fl'.
Qed.
Lemma reach_Inv s al : reach s al → (fresh s ∧ al = []) ∨ Inv s al.
Proof.
  assert (Hinit : ∀ s, fresh s → Inv (init s) []) by (intros s0 Hs; exists []; by apply init_HI).
  induction 1 as [s Hs|s al n r s' _ IH Hn Hrun|s al1 r n al2 s' _ IH Hrun]; [by left|right..].
  - assert (∃ s0, Inv s0 al ∧ malloc base n (World [] [] s0) = Done r (World [] [] s')) as (s0 & HI0 & Hrun0).
    { destruct IH as [[Hs ->]|HI]; [|by exists s]. exists (init s). split; [by apply Hinit|]. by rewrite <- malloc_fresh. }
    destruct (malloc_Inv s0 al n HI0 Hn) as (r' & s'' & Hrun' & HI'). rewrite Hrun0 in Hrun'. by injection Hrun' as <- <-.
  - destruct IH as [[_ E]|HI]; [by destruct al1|]. destruct (free_Inv s al1 r n al2 HI) as (s'' & Hrun' & HI'). rewrite Hrun in Hrun'. by injection Hrun' as <-.
Qed.
Lemma reach_lo s al : reach s al → lo mod HDR = 0.
Proof. by induction 1 as [s (_ & _ & _ & _ & _ & H)| |]. Qed.
Lemma Inv_facts s al : lo mod HDR = 0 → Inv s al →
  (∀ r n, (r, n) ∈ al → lo < r ∧ r + n ≤ brk s ∧ r mod HDR = 0) ∧
  (∀ al1 r n al2 r' n', al = al1 ++ (r, n) :: al2 → (r', n') ∈ al1 ++ al2 → r + n ≤ r' ∨ r' + n' ≤ r).
Proof.
  intros Hal [fl HH].
  assert (Hfit : ∀ n, n ≤ HDR * ((n + HDR - 1) / HDR)).
  { intros n. unfold HDR. pose proof (Z.div_mod (n + 16 - 1) 16). pose proof (Z.mod_pos_bound (n + 16 - 1) 16). lia. }
  assert (Hin : ∀ r n, (r, n) ∈ al → block_of (r, n) ∈ fl ++ (block_of <$> al)).
  { intros r n Hr. apply elem_of_app. right. apply list_elem_of_fmap. by exists (r, n). }
  split.
  - intros r n Hr. apply Hin in Hr. destruct (hi_range _ _ HH _ _ Hr) as (H1 & H2 & H3 & i & Hi). specialize (Hfit n). unfold HDR in *. cbn [fst snd] in *.
    split_and!; [lia|lia|]. replace r with (lo + (i + 1) * 16) by lia. by rewrite Z_mod_plus_full.
  - intros al1 r n al2 r' n' E Hr'. assert (Hr : (r, n) ∈ al) by (rewrite E; set_solver). assert (Hr'' : (r', n') ∈ al) by (rewrite E; set_solver).
    apply Hin in Hr, Hr''. destruct (hi_range _ _ HH _ _ Hr) as (_ & _ & Hn & i & Hi), (hi_range _ _ HH _ _ Hr'') as (_ & _ & Hn' & j & Hj).
    assert (Hd := hi_disjoint _ _ HH (fl ++ (block_of <$> al1)) (block_of (r, n)) (block_of <$> al2) (block_of (r', n')).1 (block_of (r', n')).2).
    specialize (Hd ltac:(by rewrite E, fmap_app, <- app_assoc)).
    specialize (Hd ltac:(rewrite <- app_assoc, <- fmap_app; apply elem_of_app; right; apply list_elem_of_fmap; by exists (r', n'))).
    pose proof (Hfit n). pose proof (Hfit n'). unfold block_of, HDR in *. cbn [fst snd] in *.
    destruct (Z.le_gt_cases (r + n) r'), (Z.le_gt_cases (r' + n') r); try lia. exfalso. destruct (Z.le_gt_cases r r').
    + apply (Hd (r' - 16)); [apply elem_of_units; exists (j - i); unfold HDR; lia|apply units_first; lia].
    + apply (Hd (r - 16)); [apply units_first; lia|apply elem_of_units; exists (i - j); unfold HDR; lia].
Qed.

(** C15: malloc and free are a correct allocator for requests of less than
    2^31 - 31 bytes, on a heap that starts at a multiple of 16 and ends below
    4 GB. After any sequence of such mallocs and of frees in which each pointer
    is freed at most once: the next [malloc] of less than 2^31 - 31 bytes and the
    [free] of any live pointer return, without a fault; every live block lies in
    memory obtained from [sbrk], at an address that is a multiple of 16, and has
    at least the size asked for; no two overlap; and once everything is freed,
    the free list holds every unit of the heap exactly once. *)
Theorem umalloc_correct s al : reach s al →
  (∀ n, 0 ≤ n < 2 ^ 31 - 31 → ∃ r s', malloc base n (World [] [] s) = Done r (World [] [] s')) ∧
  (∀ r n, (r, n) ∈ al → ∃ s', free r (World [] [] s) = Done () (World [] [] s')) ∧
  (∀ r n, (r, n) ∈ al → lo < r ∧ r + n ≤ brk s ∧ r mod HDR = 0) ∧
  (∀ al1 r n al2 r' n', al = al1 ++ (r, n) :: al2 → (r', n') ∈ al1 ++ al2 → r + n ≤ r' ∨ r' + n' ≤ r) ∧
  (al = [] → freep s ≠ 0 → ∃ fl t, chain (ptr s) base (fl.*1) base ∧ (∀ a n, (a, n) ∈ fl → size s !! a = Some n) ∧
     brk s = lo + HDR * t ∧ concat (units <$> fl) ≡ₚ units (lo, t)).
Proof.
  intros Hr. destruct (reach_Inv s al Hr) as [[Hs ->]|HI0].
  - split_and!; try (intros; by match goal with H : _ ∈ [] |- _ => apply elem_of_nil in H end).
    + intros n Hn. destruct (malloc_Inv (init s) [] n) as (r & s' & Hrun & _); [exists []; by apply init_HI|done|]. exists r, s'. by rewrite malloc_fresh.
    + intros al1 r n al2 r' n' E. by destruct al1.
    + intros _ Hf. by destruct Hs as [? _].
  - destruct (Inv_facts s al (reach_lo _ _ Hr) HI0) as [H1 H2]. split_and!; try done.
    + intros n Hn. destruct (malloc_Inv s al n HI0 Hn) as (r & s' & Hrun & _). eauto.
    + intros r n (al1 & al2 & ->)%list_elem_of_split. destruct (free_Inv s al1 r n al2 HI0) as (s' & Hrun & _). eauto.
    + intros -> _. destruct HI0 as [fl [Hb Hch Hs0 Hs (t & Ht & Hbk & Hu) _ _ _]]. exists fl, t. cbn in Hs, Hu. rewrite app_nil_r in Hs, Hu.
      split_and!; [done|intros a n Hin; by apply Hs|done|done].
Qed.
End runs.

(** A run: two blocks, the first freed. *)
Definition heap0 : heap := mkHeap ∅ ∅ 0 8192 (2 ^ 20).
Definition heap1 : heap := final (malloc 64 100) (World [] [] heap0).
Definition heap2 : heap := final (malloc 64 24) (World [] [] heap1).
Definition heap3 : heap := final (free 73616) (World [] [] heap2).
Lemma heap3_reach : reach 64 8192 heap3 [(73568, 24)].
Proof.
  assert (H0 : reach 64 8192 heap0 []) by (apply reach_init; unfold fresh, HDR; cbn; repeat split; lia).
  assert (H1 : reach 64 8192 heap1 [(73616, 100)]) by (apply (reach_malloc 64 8192 heap0 [] 100 73616 heap1 H0); [lia|vm_compute; reflexivity]).
  assert (H2 : reach 64 8192 heap2 [(73568, 24); (73616, 100)])
    by (apply (reach_malloc 64 8192 heap1 [(73616, 100)] 24 73568 heap2 H1); [lia|vm_compute; reflexivity]).
  apply (reach_free 64 8192 heap2 [(73568, 24)] 73616 100 [] heap3 H2). vm_compute. reflexivity.
Qed.
Lemma umalloc_correct_witness : ∃ s', free 73568 (World [] [] heap3) = Done () (World [] [] s').
Proof.
  destruct (umalloc_correct 64 8192 heap3 [(73568, 24)] heap3_reach) as (_ & Hfree & _). apply (Hfree 73568 24). by left.
Defined.

End UmallocSpec.
