(* ===== verification/UmallocOverflow.v ===== *)
(** * A request that sbrk cannot express: user/umalloc.c

    [morecore] passes its size in bytes to [sbrk], whose argument is an [int].
    For the largest requests the product wraps to 16, so the process grows by one
    header while the block that is put on the free list is as big as asked
    for. *)
From S2P Require Import Prelude Umalloc UmallocSpec.

Module UmallocOverflow.
Import Umalloc UmallocSpec.

(** ** Code that does not look at the end of memory *)
Definition ends_at (b c : Z) (s : heap) : heap := s <| brk := b |> <| limit := c |>.
Section blind.
Context (b c : Z).
Definition blind {A} (m : M heap A) : Prop := ∀ h k s, m (World h k (ends_at b c s)) =
  match m (World h k s) with Done a w => Done a (World (held w) (wakes w) (ends_at b c (st w))) | o => o end.
Lemma blind_ret {A} (a : A) : blind (ret a).
Proof. done. Qed.
Lemma blind_bind {A B} (m : M heap A) (f : A → M heap B) : blind m → (∀ a, blind (f a)) → blind (bind m f).
Proof.
  intros Hm Hf h k s. unfold bind. rewrite Hm. destruct (m (World h k s)) as [a [h' k' s']| | | |]; try done. apply Hf.
Qed.
Lemma blind_gets {A} (f : heap → A) : (∀ s, f (ends_at b c s) = f s) → blind (gets f).
Proof. intros Hf h k s. unfold gets. cbn. by rewrite Hf. Qed.
Lemma blind_modify (g : heap → heap) : (∀ s, g (ends_at b c s) = ends_at b c (g s)) → blind (modify g).
Proof. intros Hg h k s. change (Done (S := heap) () (World h k (g (ends_at b c s))) = Done () (World h k (ends_at b c (g s)))). by rewrite Hg. Qed.
Lemma blind_nonnull {A} (o : option A) : blind (nonnull o).
Proof. by destruct o. Qed.
Lemma blind_if {A} (t : bool) (m n : M heap A) : blind m → blind n → blind (if t then m else n).
Proof. by destruct t. Qed.
Lemma blind_loop {A B} d (body : A → M heap (A + B)) : (∀ a, blind (body a)) → ∀ a, blind (loopM d body a).
Proof.
  intros Hb. assert (Hs : ∀ d a, blind (loop_steps d body a)).
  { induction d0 as [|d0 IH]; intros a; cbn [loop_steps]; [done|]. apply blind_bind; [done|]. intros [a'|x]; [done|apply blind_ret]. }
  intros a. unfold loopM. apply blind_bind; [done|]. by intros [a'|x].
Qed.
Ltac blinds := repeat lazymatch goal with
  | |- ∀ _, _ => intro
  | |- blind (bind _ _) => apply blind_bind
  | |- blind (if _ then _ else _) => apply blind_if
  | |- blind (loopM _ _ _) => apply blind_loop
  | |- blind (gets _) => apply blind_gets; by intros []
  | |- blind (modify _) => apply blind_modify; by intros []
  | |- blind (break _) => apply blind_ret
  | |- blind (continue _) => apply blind_ret
  | _ => solve [auto]
  end.
Lemma blind_free a : blind (free a).
Proof.
  assert (Hp : ∀ x, blind (get_ptr x)) by (intros x; apply blind_bind; [by apply blind_gets|intros; apply blind_nonnull]).
  assert (Hs : ∀ x, blind (get_size x)) by (intros x; apply blind_bind; [by apply blind_gets|intros; apply blind_nonnull]).
  assert (Hp' : ∀ x v, blind (set_ptr x v)) by (intros x v; by apply blind_modify; intros []).
  assert (Hs' : ∀ x v, blind (set_size x v)) by (intros x v; by apply blind_modify; intros []).
  unfold free, find_place. cbv zeta. blinds.
Qed.
Lemma wp_blind {A} (m : M heap A) Φ h k s : blind m → wp m Φ (World h k s) →
  wp m (λ a w', ∃ h' k' s', w' = World h' k' (ends_at b c s') ∧ Φ a (World h' k' s')) (World h k (ends_at b c s)).
Proof. intros Hm. unfold wp. rewrite Hm. destruct (m (World h k s)) as [a [h' k' s']| | | |]; try done. cbn. eauto. Qed.
End blind.

(** ** The largest requests *)
Section overflow.
Context (base lo : Z) {h : list lock} {k : list chan}.
(** The units of a request of 2^32 - 15 bytes or more. *)
Definition huge : Z := 2 ^ 28 + 1.
Lemma huge_units n : 2 ^ 32 - 15 ≤ n < 2 ^ 32 → u32 ((n + HDR - 1) / HDR + 1) = huge.
Proof.
  intros Hn. assert (E : (n + HDR - 1) / HDR = 2 ^ 28); [|by rewrite E]. symmetry. apply (Z.div_unique_pos _ _ _ (n - (2 ^ 32 - 15))); unfold HDR; lia.
Qed.
Lemma small_node s fl al x n : HI base lo s fl al → limit s ≤ 2 ^ 32 → x ∈ base :: fl.*1 → size s !! x = Some n → n < huge ∧ (0 < n → lo ≤ x).
Proof.
  intros HH Hl Hx Hn. apply elem_of_cons in Hx as [->|([a m] & -> & Hin)%list_elem_of_fmap].
  { rewrite (hi_size0 _ _ _ _ _ HH) in Hn. injection Hn as <-. unfold huge. lia. }
  destruct (hi_range _ _ HH a m) as (H1 & H2 & _); [set_solver|]. destruct (hi_size _ _ _ _ _ HH a m) as [H3 _]; [set_solver|].
  pose proof (hi_limit _ _ _ _ _ HH). pose proof (hi_base _ _ _ _ _ HH). cbn in Hn. assert (m = n) as -> by congruence. unfold huge, HDR in *. cbn. lia.
Qed.
Lemma HI_limit s fl al c : HI base lo s fl al → brk s ≤ c ≤ 2 ^ 34 → HI base lo (s <| limit := c |>) fl al.
Proof. intros [] Hc. by split. Qed.
(** [morecore] for such a request: the list describes a block of [huge] units,
    of which the process has one. *)
Lemma morecore_huge s fl al Φ : HI base lo s fl al → limit s ≤ 2 ^ 32 → brk s + HDR ≤ limit s →
  (∀ s' fl' a m, HI base lo s' fl' al → (a, m) ∈ fl' → huge ≤ m → Φ (freep s') (World h k (ends_at (brk s + HDR) (limit s) s'))) →
  wp (morecore huge) Φ (World h k s).
Proof.
  intros HH Hl Hb HΦ. pose proof (hi_base _ _ _ _ _ HH) as Hlo. destruct (hi_units _ _ _ _ _ HH) as (t & Ht & Hbk & _).
  assert (Hbrk : 0 < brk s) by (unfold HDR in *; lia). unfold morecore. change (huge <? 4096) with false. cbv iota zeta.
  apply wp_bind. unfold sbrk. change (i32 (huge * HDR)) with HDR. apply wp_bind, wp_gets. cbn [st id]. unfold id.
  rewrite Z.gtb_ltb, (proj2 (Z.ltb_ge _ _)), (proj2 (Z.ltb_ge _ _)) by (unfold HDR in *; lia). apply wp_bind, wp_modify, wp_ret.
  rewrite (proj2 (Z.eqb_neq (brk s) (-1))) by lia. apply wp_bind, wp_modify. change (u32 huge) with huge.
  set (si := (s <| limit := 2 ^ 34 |>) <| brk ::= λ x, x + HDR * huge |> <| size ::= <[brk s := huge]> |>).
  assert (HG : HI base lo si fl ((brk s, huge) :: al)).
  { pose proof (HI_grow base lo (s <| limit := 2 ^ 34 |>) fl al huge) as HG. change (brk (s <| limit := 2 ^ 34 |>)) with (brk s) in HG.
    apply HG; [apply HI_limit; [done|unfold HDR in *; lia]|done|]. change (brk s + HDR * huge ≤ 2 ^ 34). unfold huge, HDR in *. lia. }
  match goal with |- wp _ _ (World _ _ ?x) => replace x with (ends_at (brk s + HDR) (limit s) si) by (by destruct s) end.
  apply wp_bind. eapply wp_mono.
  { apply (wp_blind _ _ _ (λ _ w', ∃ s' fl' a m, w' = World h k s' ∧ HI base lo s' fl' al ∧ (a, m) ∈ fl' ∧ huge ≤ m)); [apply blind_free|].
    apply (free_spec base lo _ _ _ _ _ _ HG). intros s' fl' HI' (a & m & Hin & Hm) _. by exists s', fl', a, m. }
  intros _ w' (h' & k' & s1 & -> & s' & fl' & a & m & [= -> -> ->] & HI' & Hin & Hm). apply wp_gets. cbn [st]. by apply (HΦ s' fl' a m).
Qed.
(** A turn of malloc's loop, before [morecore] and after it. *)
Definition looking (s : heap) (fl al : list (Z * Z)) (n : Z) (a : Z * Z) (w : world heap) : Prop :=
  (∃ R, w = World h k s ∧ ahead base s fl a.1 a.2 R ∧ n = Z.of_nat (length R) + 2 ^ 40) ∨
  (∃ s' fl' R x m, w = World h k (ends_at (brk s + HDR) (limit s) s') ∧ HI base lo s' fl' al ∧ ahead base s' fl' a.1 a.2 R ∧
     n = Z.of_nat (length R) ∧ x ∈ R ++ [freep s'] ∧ size s' !! x = Some m ∧ huge ≤ m).
Lemma freep_nonzero s fl al : HI base lo s fl al → freep s ≠ 0.
Proof.
  intros HH E. pose proof (hi_freep _ _ _ _ _ HH) as Hf. pose proof (hi_base _ _ _ _ _ HH) as [Hb Hlo]. rewrite E in Hf.
  apply elem_of_cons in Hf as [?|([a m] & Ea & Hin)%list_elem_of_fmap]; [lia|]. destruct (hi_range _ _ HH a m) as [? _]; [set_solver|]. cbn in Ea. unfold HDR in *. lia.
Qed.
Definition finds (s : heap) (fl al : list (Z * Z)) (n : Z) (r : Z * Z + Z) (w' : world heap) : Prop :=
  match r with
  | inl a => ∃ n', looking s fl al n' a w' ∧ n' < n
  | inr r => ∃ s', w' = World h k s' ∧ brk s' = brk s + HDR ∧ lo + HDR ≤ r
  end.
Lemma turn_before s fl al R q p : HI base lo s fl al → limit s ≤ 2 ^ 32 → brk s + HDR ≤ limit s → ahead base s fl q p R →
  wp (malloc_turn huge (q, p)) (finds s fl al (Z.of_nat (length R) + 2 ^ 40)) (World h k s).
Proof.
  intros HH Hl Hb HA. destruct (ahead_p _ _ _ _ _ _ _ _ HH HA) as (_ & Hpn & Hpf). destruct (hi_node _ _ HH p Hpn) as (sz & _ & _ & _ & Hsz & _).
  destruct (small_node _ _ _ _ _ HH Hl Hpn Hsz) as [Hlt _]. unfold malloc_turn.
  apply (wp_get_size _ _ _ _ _ Hsz). rewrite Z.geb_leb, (proj2 (Z.leb_gt _ _)) by done. apply wp_bind, wp_gets. cbn [st].
  destruct (Z.eqb_spec p (freep s)) as [Ef|Ef].
  - apply wp_bind, (morecore_huge s fl al _ HH Hl Hb). intros s' fl' a m HH' Hin Hm. rewrite (proj2 (Z.eqb_neq _ _)) by (by eapply freep_nonzero).
    destruct (ahead_start base lo s' fl' al HH') as (p' & R' & Hp' & HA' & Hlen & Hperm). apply (wp_get_ptr _ _ _ _ p'); [exact Hp'|]. apply wp_ret.
    exists (Z.of_nat (length R')). split; [|lia]. right. exists s', fl', R', a, m. split_and!; try done; [|apply (hi_size _ _ _ _ _ HH'); set_solver].
    rewrite (Permutation_app_comm R'). cbn. rewrite Hperm. right. apply list_elem_of_fmap. by exists (a, m).
  - destruct R as [|x R]; [by destruct Ef; apply Hpf|]. destruct (ahead_step _ _ _ _ _ _ _ _ _ HH HA) as (-> & nx & Hnx & HA').
    apply (wp_get_ptr _ _ _ _ _ Hnx), wp_ret. exists (Z.of_nat (length R) + 2 ^ 40). split; [|cbn; lia]. left. by exists R.
Qed.
Lemma turn_after s fl al s' fl' R q p x m : HI base lo s' fl' al → ahead base s' fl' q p R → x ∈ R ++ [freep s'] → size s' !! x = Some m → huge ≤ m →
  wp (malloc_turn huge (q, p)) (finds s fl al (Z.of_nat (length R))) (World h k (ends_at (brk s + HDR) (limit s) s')).
Proof.
  intros HH HA Hx Hxm Hm. destruct (ahead_p _ _ _ _ _ _ _ _ HH HA) as (Hqp & Hpn & Hpf). destruct (hi_node _ _ HH p Hpn) as (sz & _ & _ & _ & Hsz & _).
  unfold malloc_turn. apply (wp_get_size _ _ _ _ sz); [exact Hsz|]. rewrite Z.geb_leb. destruct (Z.leb_spec huge sz) as [Hge|Hlt].
  - assert (Hlo : lo ≤ p).
    { apply elem_of_cons in Hpn as [->|([a k'] & -> & Hin)%list_elem_of_fmap]; [rewrite (hi_size0 _ _ _ _ _ HH) in Hsz; unfold huge in *; simplify_eq; lia|].
      apply (hi_range _ _ HH a k'). set_solver. }
    apply wp_bind. destruct (Z.eqb_spec sz huge).
    + destruct (chain_next _ _ _ _ p (hi_chain _ _ _ _ _ HH) Hpn) as (nx & Hnx & _). apply (wp_get_ptr _ _ _ _ nx); [exact Hnx|].
      apply wp_bind, wp_modify, wp_ret, wp_bind, wp_modify, wp_ret. eexists. split; [reflexivity|]. split; [done|lia].
    + apply wp_bind, wp_modify, wp_bind, wp_modify, wp_ret, wp_bind, wp_modify, wp_ret. eexists. split; [reflexivity|]. split; [done|unfold HDR; lia].
  - apply wp_bind, wp_gets. cbn [st]. change (freep (ends_at (brk s + HDR) (limit s) s')) with (freep s'). destruct (Z.eqb_spec p (freep s')) as [Ef|Ef].
    { apply Hpf in Ef as ->. cbn in Hx. apply list_elem_of_singleton in Hx as ->. destruct HA as (_ & -> & _). cbn in Hsz. assert (m = sz) by congruence. lia. }
    destruct R as [|y R]; [by destruct Ef; apply Hpf|]. destruct (ahead_step _ _ _ _ _ _ _ _ _ HH HA) as (-> & nx & Hnx & HA').
    apply (wp_get_ptr _ _ _ _ nx); [exact Hnx|]. apply wp_ret. exists (Z.of_nat (length R)). split; [|cbn; lia]. right. exists s', fl', R, x, m. split_and!; try done.
    apply elem_of_cons in Hx as [->|Hx]; [|done]. assert (m = sz) by congruence. lia.
Qed.
Lemma malloc_huge s fl al n : HI base lo s fl al → limit s ≤ 2 ^ 32 → brk s + HDR ≤ limit s → 2 ^ 32 - 15 ≤ n < 2 ^ 32 →
  wp (malloc base n) (λ r w', ∃ s', w' = World h k s' ∧ brk s' = brk s + HDR ∧ lo + HDR ≤ r) (World h k s).
Proof.
  intros HH Hl Hb Hn. unfold malloc. rewrite huge_units by done. apply wp_bind, wp_gets. cbn [st].
  rewrite (proj2 (Z.eqb_neq (freep s) 0)) by (by eapply freep_nonzero). cbn [when]. apply wp_bind, wp_ret, wp_bind, wp_gets. cbn [st].
  destruct (ahead_start base lo s fl al HH) as (p & R & Hp & HA & Hlen & _). apply (wp_get_ptr _ _ _ _ _ Hp).
  apply (wp_loop (malloc_turn huge) (looking s fl al)) with (n := Z.of_nat (length R) + 2 ^ 40).
  - intros m a w [(R0 & _ & _ & ->)|(? & ? & ? & ? & ? & _ & _ & _ & -> & _)]; lia.
  - intros m [q p'] w [(R0 & -> & HA0 & ->)|(s' & fl' & R0 & x & m' & -> & HH' & HA0 & -> & Hx & Hxm & Hm)].
    + by apply turn_before.
    + by eapply turn_after.
  - left. by exists R.
  - change (2 ^ Z.of_nat 64) with (2 ^ 64). lia.
Qed.
End overflow.

(** ** Every heap *)
Section still.
Definition still {A} (m : M heap A) : Prop := ∀ w a w', m w = Done a w' → limit (st w') = limit (st w).
Lemma still_bind {A B} (m : M heap A) (f : A → M heap B) : still m → (∀ a, still (f a)) → still (bind m f).
Proof. intros Hm Hf w b w'. unfold bind. destruct (m w) as [a w1| | | |] eqn:E; try done. intros H. rewrite (Hf _ _ _ _ H). by apply Hm in E. Qed.
Lemma still_ret {A} (a : A) : still (ret a).
Proof. by intros w x w' [= _ <-]. Qed.
Lemma still_gets {A} (f : heap → A) : still (gets f).
Proof. by intros w x w' [= _ <-]. Qed.
Lemma still_modify g : (∀ s, limit (g s) = limit s) → still (modify g).
Proof. intros Hg w x w' [= _ <-]. apply Hg. Qed.
Lemma still_nonnull {A} (o : option A) : still (nonnull o).
Proof. destruct o; [apply still_ret|by intros w x w']. Qed.
Lemma still_loop {A B} d (body : A → M heap (A + B)) : (∀ a, still (body a)) → ∀ a, still (loopM d body a).
Proof.
  intros Hb. assert (Hs : ∀ d a, still (loop_steps d body a)).
  { induction d0 as [|d0 IH]; intros a; cbn [loop_steps]; [done|]. apply still_bind; [done|]. intros [a'|x]; [done|apply still_ret]. }
  intros a. unfold loopM. apply still_bind; [done|]. intros [a'|x]; [by intros w y w'|apply still_ret].
Qed.
End still.
Ltac stills := repeat lazymatch goal with
  | |- ∀ _, _ => intro
  | |- still (bind _ _) => apply still_bind
  | |- still (loopM _ _ _) => apply still_loop
  | |- still (gets _) => apply still_gets
  | |- still (modify _) => apply still_modify; by intros []
  | |- still (nonnull _) => apply still_nonnull
  | |- still (ret _) => apply still_ret
  | |- still (break _) => apply still_ret
  | |- still (continue _) => apply still_ret
  | |- still (if ?b then _ else _) => destruct b
  | |- still (let '(_, _) := ?a in _) => destruct a
  | |- still (when ?b _) => destruct b; cbn [when]
  end.
Lemma still_free a : still (free a).
Proof. unfold free, find_place, get_ptr, get_size, set_ptr, set_size. cbv zeta. stills. Qed.
Lemma still_malloc base n : still (malloc base n).
Proof. unfold malloc, malloc_turn, morecore, sbrk, get_ptr, get_size, set_ptr, set_size. cbv zeta. stills; apply still_free. Qed.
Lemma reach_limit base lo s al : reach base lo s al → limit s ≤ 2 ^ 32.
Proof.
  induction 1 as [s (_ & _ & Hl & _)|s al n r s' _ IH _ Hrun|s al1 r n al2 s' _ IH Hrun]; [lia| |].
  - apply still_malloc in Hrun. cbn in Hrun. lia.
  - apply still_free in Hrun. cbn in Hrun. lia.
Qed.

(** C40: the largest requests are not safe. On every heap that mallocs of less
    than 2^31 - 31 bytes and frees can lead to, and that [sbrk] can still grow
    by 16 bytes, a request of 2^32 - 15 bytes or more, up to the largest
    [uint], succeeds: [morecore] passes its size to [sbrk], whose argument is an
    [int], the process grows by 16 bytes, and [malloc] returns a pointer to a
    block that goes on past the end of the process's memory. *)
Theorem malloc_overflows base lo s al n : reach base lo s al → brk s + HDR ≤ limit s → 2 ^ 32 - 15 ≤ n < 2 ^ 32 →
  ∃ r s', malloc base n (World [] [] s) = Done r (World [] [] s') ∧ r ≠ 0 ∧ brk s' = brk s + HDR ∧ brk s' < r + n.
Proof.
  intros Hr Hb Hn. pose proof (reach_limit _ _ _ _ Hr) as Hl.
  assert (∃ s0 fl al', HI base lo s0 fl al' ∧ brk s0 = brk s ∧ limit s0 = limit s ∧ malloc base n (World [] [] s0) = malloc base n (World [] [] s)) as (s0 & fl & al' & HH & E1 & E2 & E3).
  { destruct (reach_Inv _ _ _ _ Hr) as [[Hf ->]|[fl HH]]; [|by exists s, fl, (block_of <$> al)].
    exists (init base s), [], []. split; [by apply init_HI|]. by rewrite <- malloc_fresh with (lo := lo). }
  rewrite <- E1, <- E2, <- E3 in *. pose proof (malloc_huge base lo s0 fl al' n (h := []) (k := []) HH Hl Hb Hn) as (r & w' & Hrun & s' & -> & Hbrk & Hlo)%wp_done.
  exists r, s'. pose proof (hi_base _ _ _ _ _ HH). unfold HDR in *. split; [done|]. lia.
Qed.
Lemma malloc_overflows_witness : ∃ r s', malloc 64 (2 ^ 32 - 1) (World [] [] heap3) = Done r (World [] [] s') ∧ r ≠ 0 ∧ brk s' = brk heap3 + HDR ∧ brk s' < r + (2 ^ 32 - 1).
Proof. apply (malloc_overflows 64 8192 heap3 [(73568, 24)] (2 ^ 32 - 1) heap3_reach); vm_compute; [|split]; done. Defined.
End UmallocOverflow.
