(* ===== verification/Ulib.v ===== *)
(** * The user library: user/ulib.c

    The string and memory routines on the process's memory. [read] of one byte
    from the standard input is the next element of [input]. *)
From S2P Require Import Prelude CString.

Module Ulib.
(** The loops stop at a nul byte; [k] bounds the string's length. *)
Fixpoint strcpy_loop (k : nat) (m : mem) (s t : Z) : option mem :=
  match k with
  | O => None
  | S k =>
      let m' := wrb m s (rdb m t) in
      if rdb m t =? 0 then Some m' else strcpy_loop k m' (s + 1) (t + 1)
  end.
Definition strcpy (k : nat) (m : mem) (s t : Z) : option mem := strcpy_loop k m s t.
Fixpoint strcmp (k : nat) (m : mem) (p q : Z) : option Z :=
  match k with
  | O => None
  | S k =>
      if negb (rdb m p =? 0) && (rdb m p =? rdb m q) then strcmp k m (p + 1) (q + 1)
      else Some (rdb m p - rdb m q)
  end.
Fixpoint strlen_from (k : nat) (m : mem) (s n : Z) : option Z :=
  match k with
  | O => None
  | S k => if rdb m (s + n) =? 0 then Some n else strlen_from k m s (n + 1)
  end.
Definition strlen (k : nat) (m : mem) (s : Z) : option Z := strlen_from k m s 0.
Fixpoint memset_from (k : nat) (m : mem) (cdst c i : Z) : mem :=
  match k with
  | O => m
  | S k => memset_from k (wrb m (cdst + i) c) cdst c (i + 1)
  end.
Definition memset (m : mem) (dst c n : Z) : mem := memset_from (Z.to_nat n) m dst c 0.
(** 0 if [c] is not in the string. *)
Fixpoint strchr (k : nat) (m : mem) (s c : Z) : option Z :=
  match k with
  | O => None
  | S k => if rdb m s =? 0 then Some 0 else if rdb m s =? c then Some s else strchr k m (s + 1) c
  end.
(** What is in [buf] and what is left of the input. *)
Fixpoint gets_loop (k : nat) (m : mem) (buf i max : Z) (input : list Z) : mem * list Z :=
  match k with
  | O => (wrb m (buf + i) 0, input)
  | S k =>
      if i + 1 <? max then
        match input with
        | [] => (wrb m (buf + i) 0, [])
        | c :: input =>
            let m := wrb m (buf + i) c in
            if (c =? 10) || (c =? 13) then (wrb m (buf + (i + 1)) 0, input)
            else gets_loop k m buf (i + 1) max input
        end
      else (wrb m (buf + i) 0, input)
  end.
Definition gets (m : mem) (buf max : Z) (input : list Z) : mem * list Z := gets_loop (Z.to_nat max) m buf 0 max input.
(** On the bytes of the string; the [int] wraps around. *)
Fixpoint atoi_loop (s : list Z) (n : Z) : Z :=
  match s with
  | c :: s => if (48 <=? c) && (c <=? 57) then atoi_loop s (i32 (i32 (n * 10) + c - 48)) else n
  | [] => n
  end.
Definition atoi (s : list Z) : Z := atoi_loop s 0.
Fixpoint move_fwd (n : nat) (m : mem) (dst src : Z) : mem :=
  match n with
  | O => m
  | S n => move_fwd n (wrb m dst (rdb m src)) (dst + 1) (src + 1)
  end.
Fixpoint move_back (n : nat) (m : mem) (dst src : Z) : mem :=
  match n with
  | O => m
  | S n => move_back n (wrb m (dst - 1) (rdb m (src - 1))) (dst - 1) (src - 1)
  end.
Definition memmove (m : mem) (vdst vsrc n : Z) : mem :=
  if vsrc >? vdst then move_fwd (Z.to_nat n) m vdst vsrc
  else move_back (Z.to_nat n) m (vdst + n) (vsrc + n).
Fixpoint memcmp_loop (n : nat) (m : mem) (p1 p2 : Z) : Z :=
  match n with
  | O => 0
  | S n => if negb (rdb m p1 =? rdb m p2) then rdb m p1 - rdb m p2 else memcmp_loop n m (p1 + 1) (p2 + 1)
  end.
Definition memcmp (m : mem) (s1 s2 n : Z) : Z := memcmp_loop (Z.to_nat n) m s1 s2.
Definition memcpy (m : mem) (dst src n : Z) : mem := memmove m dst src n.

(** ** The two libraries agree *)
Lemma move_fwd_eq n : ∀ m d s, move_fwd n m d s = copy_fwd m d s n.
Proof. induction n as [|n IH]; intros m d s; [done|]. cbn. apply IH. Qed.
Lemma move_back_eq n : ∀ m d s, move_back n m d s = copy_back m d s n.
Proof. induction n as [|n IH]; intros m d s; [done|]. cbn. apply IH. Qed.
Lemma copy_back_same n : ∀ m d a, rdb (copy_back m d d n) a = rdb m a.
Proof.
  induction n as [|n IH]; intros m d a; [done|]. cbn. rewrite IH, rdb_wrb. case_decide as E; [|done]. by rewrite u8_rdb, E.
Qed.
(** The user's and the kernel's [memmove] leave the same memory. *)
Lemma memmove_agree m d s n a : 0 ≤ n → rdb (memmove m d s n) a = rdb (CString.memmove m d s n) a.
Proof.
  intros Hn. rewrite rdb_memmove by done. unfold memmove. rewrite Z.gtb_ltb. destruct (Z.ltb_spec d s).
  - rewrite move_fwd_eq, copy_fwd_spec by lia. within_cases.
  - rewrite move_back_eq. destruct (decide (d = s)) as [->|].
    + rewrite copy_back_same. within_cases. f_equal. lia.
    + rewrite copy_back_spec by lia. within_cases; f_equal; lia.
Qed.
Lemma memcmp_agree m p q n : memcmp m p q n = CString.memcmp m p q n.
Proof. unfold memcmp, CString.memcmp. generalize (Z.to_nat n). intros k. revert p q. induction k as [|k IH]; intros p q; [done|]. cbn. by rewrite IH. Qed.
End Ulib.
