(* ===== verification/Printf.v ===== *)
(** * Formatted output: kernel/printf.c and user/printf.c

    The output is the list of bytes sent to the console or the file descriptor.
    [va_arg] takes the next of a list of arguments; asking for another type than
    was passed is undefined and shows as a fault. *)
From S2P Require Import Prelude Ulib.

Inductive arg := Int (z : Z) | Long (z : Z) | Str (s : option (list Z)).
(** "(null)" *)
Definition null_str : list Z := [40; 110; 117; 108; 108; 41].
Definition PERCENT : Z := 37.
Definition MINUS : Z := 45.

(** The do-while loop of both [printint]s: the digits of [x] pushed on [buf],
    which has 16 bytes; [k] is the number of turns it may take. *)
Fixpoint push_digits (digit : Z → Z) (k : nat) (x base : Z) (buf : list Z) : option (list Z) :=
  match k with
  | O => None
  | S k =>
      if (16 <=? length buf)%nat then None
      else
        let buf := buf ++ [digit (x mod base)] in
        let x := x / base in
        if x =? 0 then Some buf else push_digits digit k x base buf
  end.
(** [if(neg) buf[i++] = '-'; while(--i >= 0) putc(buf[i]);] *)
Definition emit (neg : bool) (buf : list Z) : option (list Z) :=
  if neg then if (16 <=? length buf)%nat then None else Some (rev (buf ++ [MINUS])) else Some (rev buf).

Module KPrintf.
(** "0123456789abcdef" *)
Definition digits (d : Z) : Z := if d <? 10 then 48 + d else 87 + d.
Record state := mkState { out : list Z; locking : bool; panicked : bool }.
#[export] Instance eta_state : Settable state := λ s, mkState (out s) (locking s) (panicked s).
Definition pr_lock : lock := ("pr", 0%nat).
Definition consputc (c : Z) : M state unit := modify (λ s, s <| out ::= λ l, l ++ [c] |>).
Definition puts (l : list Z) : M state unit := modify (λ s, s <| out ::= λ o, o ++ l |>).

Definition printint (xx base : Z) (sign : bool) : M state unit :=
  let sign := sign && (xx <? 0) in
  let x := if sign then u32 (- xx) else u32 xx in
  buf ← nonnull (push_digits digits 32 x base []);
  o ← nonnull (emit sign buf);
  puts o.
(** The hexadecimal digits of a uint64, from the top. *)
Fixpoint ptr_digits (digit : Z → Z) (k : nat) (x : Z) : list Z :=
  match k with
  | O => []
  | S k => digit (Z.shiftr x 60) :: ptr_digits digit k (u64 (Z.shiftl x 4))
  end.
Definition printptr (x : Z) : M state unit := puts ([48; 120] ++ ptr_digits digits 16 x).

Fixpoint printf_loop (fmt : list Z) (ap : list arg) : M state unit :=
  match fmt with
  | [] => ret ()
  | c :: fmt =>
      if negb (c =? PERCENT) then consputc c;; printf_loop fmt ap
      else match fmt with
      | [] => ret ()
      | c :: fmt =>
          if c =? 100 (* d *) then
            match ap with Int z :: ap => printint z 10 true;; printf_loop fmt ap | _ => fault end
          else if c =? 120 (* x *) then
            match ap with Int z :: ap => printint z 16 true;; printf_loop fmt ap | _ => fault end
          else if c =? 112 (* p *) then
            match ap with Long z :: ap => printptr z;; printf_loop fmt ap | _ => fault end
          else if c =? 115 (* s *) then
            match ap with Str s :: ap => puts (default null_str s);; printf_loop fmt ap | _ => fault end
          else if c =? PERCENT then consputc PERCENT;; printf_loop fmt ap
          else consputc PERCENT;; consputc c;; printf_loop fmt ap
      end
  end.
Definition printf (fmt : option (list Z)) (ap : list arg) : M state unit :=
  lk ← gets locking;
  when lk (acquire pr_lock);;
  match fmt with
  | None => Prelude.panic "null fmt"
  | Some fmt => printf_loop fmt ap;; when lk (release pr_lock)
  end.
(** What a panic prints before the hart stops. *)
Definition panic_message (s : list Z) : M state unit :=
  modify (λ x, x <| locking := false |>);;
  printf (Some [112; 97; 110; 105; 99; 58; 32]) [];;
  printf (Some s) [];;
  printf (Some [10]) [];;
  modify (λ x, x <| panicked := true |>).
Definition printfinit : M state unit := modify (λ x, x <| locking := true |>).
End KPrintf.

Module UPrintf.
(** "0123456789ABCDEF" *)
Definition digits (d : Z) : Z := if d <? 10 then 48 + d else 55 + d.
(** The bytes written to the descriptor. *)
Definition putc (c : Z) : M (list Z) unit := modify (λ l, l ++ [c]).
Definition puts (s : list Z) : M (list Z) unit := modify (λ l, l ++ s).
Definition printint (xx base : Z) (sgn : bool) : M (list Z) unit :=
  let neg := sgn && (xx <? 0) in
  let x := if neg then u32 (- xx) else u32 xx in
  buf ← nonnull (push_digits digits 32 x base []);
  o ← nonnull (emit neg buf);
  puts o.
Definition printptr (x : Z) : M (list Z) unit := puts ([48; 120] ++ KPrintf.ptr_digits digits 16 x).
(** [state] is set after a '%'. *)
Fixpoint vprintf (fmt : list Z) (state : bool) (ap : list arg) : M (list Z) unit :=
  match fmt with
  | [] => ret ()
  | c :: fmt =>
      if negb state then
        if c =? PERCENT then vprintf fmt true ap else putc c;; vprintf fmt false ap
      else if c =? 100 (* d *) then
        match ap with Int z :: ap => printint z 10 true;; vprintf fmt false ap | _ => fault end
      else if c =? 108 (* l *) then
        match ap with Long z :: ap => printint (i32 z) 10 false;; vprintf fmt false ap | _ => fault end
      else if c =? 120 (* x *) then
        match ap with Int z :: ap => printint z 16 false;; vprintf fmt false ap | _ => fault end
      else if c =? 112 (* p *) then
        match ap with Long z :: ap => printptr z;; vprintf fmt false ap | _ => fault end
      else if c =? 115 (* s *) then
        match ap with Str s :: ap => puts (default null_str s);; vprintf fmt false ap | _ => fault end
      else if c =? 99 (* c *) then
        match ap with Int z :: ap => putc (u8 z);; vprintf fmt false ap | _ => fault end
      else if c =? PERCENT then putc c;; vprintf fmt false ap
      else putc PERCENT;; putc c;; vprintf fmt false ap
  end.
Definition fprintf (fmt : list Z) (ap : list arg) : M (list Z) unit := vprintf fmt false ap.
End UPrintf.

(** ** Numerals *)
(** Horner's rule, most significant digit first. *)
Definition value (base : Z) (ds : list Z) : Z := foldl (λ n d, n * base + d) 0 ds.
Lemma value_snoc base ds d : value base (ds ++ [d]) = value base ds * base + d.
Proof. unfold value. by rewrite foldl_app. Qed.
(** [ds] is the numeral of [x], without leading zeros. *)
Definition numeral (base x : Z) (ds : list Z) : Prop :=
  value base ds = x ∧ Forall (λ d, 0 ≤ d < base) ds ∧ ds ≠ [] ∧ (head ds = Some 0 → ds = [0]).
Lemma push_digits_spec base : 2 ≤ base → ∀ n x k, 0 ≤ x < base ^ Z.of_nat (S n) → (n < k)%nat →
  ∃ ds, numeral base x ds ∧ (length ds ≤ S n)%nat ∧
    ∀ digit buf, (length buf + n < 16)%nat → push_digits digit k x base buf = Some (buf ++ rev (digit <$> ds)).
Proof.
  intros Hb. induction n as [|n IH]; intros x [|k] Hx Hk; try lia; cbn [push_digits].
  - change (Z.of_nat 1) with 1 in Hx. rewrite Z.pow_1_r in Hx. rewrite Z.div_small, Z.mod_small by lia.
    exists [x]. split; [|split; [cbn; lia|]].
    + split_and!; [done|by apply Forall_singleton|done|by intros [= ->]].
    + intros digit buf Hl. by rewrite (proj2 (Nat.leb_gt 16 (length buf))) by lia.
  - pose proof (Z.div_mod x base) as Hdm. pose proof (Z.mod_pos_bound x base) as Hm. destruct (Z.eqb_spec (x / base) 0) as [E|E].
    + exists [x]. assert (x mod base = x) as -> by lia. split; [|split; [cbn; lia|]].
      * split_and!; [done|apply Forall_singleton; lia|done|by intros [= ->]].
      * intros digit buf Hl. by rewrite (proj2 (Nat.leb_gt 16 (length buf))) by lia.
    + assert (Hq : 0 ≤ x / base < base ^ Z.of_nat (S n)).
      { split; [apply Z.div_pos; lia|]. apply Z.div_lt_upper_bound; [lia|]. rewrite <- Z.pow_succ_r, <- Nat2Z.inj_succ by lia. apply Hx. }
      destruct (IH (x / base) k Hq) as (ds & (Hv & Hf & Hne & Hh) & Hlen & Hd); [lia|].
      exists (ds ++ [x mod base]). split; [|split; [rewrite length_app; cbn; lia|]].
      * split_and!; [rewrite value_snoc, Hv; lia|apply Forall_app_2; [done|apply Forall_singleton; lia]|by destruct ds|].
        destruct ds as [|d ds]; [done|]. cbn. intros H0. rewrite (Hh H0) in Hv. cbn in Hv. lia.
      * intros digit buf Hl. rewrite (proj2 (Nat.leb_gt 16 (length buf))) by lia. rewrite Hd by (rewrite length_app; cbn; lia).
        f_equal. rewrite fmap_app, rev_app_distr. cbn. by rewrite <- app_assoc.
Qed.
Lemma printint_bytes xx base (sign : bool) : base = 10 ∨ base = 16 → - 2 ^ 31 ≤ xx < 2 ^ 31 →
  let neg := sign && (xx <? 0) in
  ∃ ds, numeral base (if neg then - xx else u32 xx) ds ∧ ∀ digit, ∃ buf,
    push_digits digit 32 (if neg then u32 (- xx) else u32 xx) base [] = Some buf ∧
    emit neg buf = Some ((if neg then [MINUS] else []) ++ (digit <$> ds)).
Proof.
  intros Hb Hx neg. assert (Hn : u32 (if neg then - xx else xx) = if neg then - xx else u32 xx).
  { unfold neg. destruct sign; [|done]. cbn. destruct (Z.ltb_spec xx 0); [|done]. apply u32_small. lia. }
  replace (if neg then u32 (- xx) else u32 xx) with (u32 (if neg then - xx else xx)) by (by destruct neg).
  destruct (push_digits_spec base ltac:(lia) 9 (u32 (if neg then - xx else xx)) 32) as (ds & Hnum & Hlen & Hd); [|lia|].
  { pose proof (u32_range (if neg then - xx else xx)). split; [lia|]. destruct Hb as [-> | ->]; cbn; lia. }
  exists ds. rewrite Hn in Hnum. split; [done|]. intros digit. exists (rev (digit <$> ds)). split; [apply (Hd digit []); cbn; lia|].
  unfold emit. destruct neg; [|by rewrite rev_involutive].
  rewrite (proj2 (Nat.leb_gt _ _)) by (rewrite length_rev, length_fmap; lia). by rewrite rev_app_distr, rev_involutive.
Qed.
(** [atoi] reads a decimal numeral back, whatever follows it. *)
Lemma atoi_digits (ds : list Z) : ∀ n rest, 0 ≤ n → Forall (λ d, 0 ≤ d < 10) ds → foldl (λ n d, n * 10 + d) n ds < 2 ^ 31 →
  match rest with c :: _ => ¬ (48 ≤ c ≤ 57) | [] => True end →
  Ulib.atoi_loop ((UPrintf.digits <$> ds) ++ rest) n = foldl (λ n d, n * 10 + d) n ds.
Proof.
  assert (Hmono : ∀ ds n, 0 ≤ n → Forall (λ d, 0 ≤ d < 10) ds → n ≤ foldl (λ n d, n * 10 + d) n ds).
  { induction ds0 as [|d ds0 IH]; intros n Hn Hf; cbn; [lia|]. apply Forall_cons in Hf as [Hd Hf]. specialize (IH (n * 10 + d) ltac:(lia) Hf). lia. }
  induction ds as [|d ds IH]; intros n rest Hn Hf Hlt Hr; cbn [fmap list_fmap app foldl Ulib.atoi_loop] in *.
  - destruct rest as [|c rest]; [done|]. cbn [Ulib.atoi_loop]. destruct (Z.leb_spec 48 c), (Z.leb_spec c 57); cbn; try done. lia.
  - apply Forall_cons in Hf as [Hd Hf]. pose proof (Hmono ds (n * 10 + d) ltac:(lia) Hf).
    assert (UPrintf.digits d = 48 + d) as -> by (unfold UPrintf.digits; destruct (Z.ltb_spec d 10); lia).
    rewrite !(proj2 (Z.leb_le _ _)) by lia. cbn [andb]. rewrite (i32_small (n * 10)) by lia. rewrite i32_small by lia. replace (n * 10 + (48 + d) - 48) with (n * 10 + d) by lia. apply IH; [lia|done|done|done].
Qed.

(** Numbers are printed exactly. For every [int], in base 10 or 16, signed or
    not, both [printint]s return (the 16-byte buffer suffices, also for INT_MIN)
    and print a minus sign where the number is printed signed and negative, and
    then the numeral of its magnitude, of its value modulo 2^32 if unsigned,
    without leading zeros; and the user's [atoi] reads a printed non-negative
    decimal number back, whatever follows it. *)
Theorem printint_exact xx base (sign : bool) h k (s : KPrintf.state) (o : list Z) : base = 10 ∨ base = 16 → - 2 ^ 31 ≤ xx < 2 ^ 31 →
  let neg := sign && (xx <? 0) in
  ∃ ds, numeral base (if neg then - xx else u32 xx) ds ∧
    KPrintf.printint xx base sign (World h k s) =
      Done () (World h k (KPrintf.mkState (KPrintf.out s ++ (if neg then [MINUS] else []) ++ (KPrintf.digits <$> ds)) (KPrintf.locking s) (KPrintf.panicked s))) ∧
    UPrintf.printint xx base sign (World h k o) = Done () (World h k (o ++ (if neg then [MINUS] else []) ++ (UPrintf.digits <$> ds))) ∧
    (base = 10 → 0 ≤ xx → ∀ rest, match rest with c :: _ => ¬ (48 ≤ c ≤ 57) | [] => True end →
      Ulib.atoi ((UPrintf.digits <$> ds) ++ rest) = xx).
Proof.
  intros Hb Hx neg. destruct (printint_bytes xx base sign Hb Hx) as (ds & Hn & Hd). fold neg in Hn, Hd. exists ds. split; [done|]. split_and!.
  - unfold KPrintf.printint. fold neg. destruct (Hd KPrintf.digits) as (buf & H1 & H2). cbv zeta. rewrite H1. unfold bind. cbn [nonnull]. unfold ret.
    by rewrite H2.
  - unfold UPrintf.printint. fold neg. destruct (Hd UPrintf.digits) as (buf & H1 & H2). cbv zeta. rewrite H1. unfold bind. cbn [nonnull]. unfold ret.
    by rewrite H2.
  - intros -> H0 rest Hr. assert (neg = false) as Eneg by (unfold neg; destruct (Z.ltb_spec xx 0); [lia|by rewrite andb_false_r]).
    rewrite Eneg, u32_small in Hn by lia. destruct Hn as (Hv & Hf & _). unfold Ulib.atoi. rewrite <- Hv. apply atoi_digits; try done. fold (value 10 ds). lia.
Qed.
(** -2147483648, signed decimal. *)
Lemma printint_exact_witness : ∃ ds, numeral 10 2147483648 ds ∧
  UPrintf.printint (- 2147483648) 10 true (World [] [] []) = Done () (World [] [] ([] ++ [MINUS] ++ (UPrintf.digits <$> ds))).
Proof.
  destruct (printint_exact (- 2147483648) 10 true [] [] (KPrintf.mkState [] false false) []) as (ds & Hn & _ & Hu & _); [by left|lia|].
  exists ds. split; [exact Hn|exact Hu].
Defined.
