(* ===== verification/Sh.v ===== *)
(** * The shell's parser: user/sh.c

    A pointer into the line is the rest of the line from there up to [es], so
    [p] is the address [es - length p]. [panic] ends the parse with its message.
    [parseexec] fills the argument vector of its [execcmd] while [ret] already
    wraps it in redirections; here the arguments and the wrapper are kept apart
    until the vector is complete. *)
From S2P Require Import Prelude.

Module Sh.
Definition MAXARGS : nat := 10.
Definition O_RDONLY : Z := 0x000.
Definition O_WRONLY : Z := 0x001.
Definition O_CREATE : Z := 0x200.
Definition O_TRUNC : Z := 0x400.
(** [struct cmd] and its five layouts. [W] is the type of a word: the pair of
    pointers [argv[i]], [eargv[i]] (or [file], [efile]) in a parsed tree. *)
Inductive cmd (W : Type) :=
  | EXEC (argv : list W)
  | REDIR (c : cmd W) (file : W) (mode fd : Z)
  | PIPE (left right : cmd W)
  | LIST (left right : cmd W)
  | BACK (c : cmd W).
Arguments EXEC {W}. Arguments REDIR {W}. Arguments PIPE {W}. Arguments LIST {W}. Arguments BACK {W}.
Definition ptr := list Z.
Definition tree := cmd (ptr * ptr).

Inductive result (A : Type) := Parsed (a : A) | Syntax (msg : string) | Fuel.
Arguments Parsed {A}. Arguments Syntax {A}. Arguments Fuel {A}.
Definition rbind {A B} (r : result A) (f : A → result B) : result B :=
  match r with Parsed a => f a | Syntax m => Syntax m | Fuel => Fuel end.
Declare Scope sh_scope.
Delimit Scope sh_scope with sh.
Notation "x ← y ; z" := (rbind y (λ x, z)) (at level 20, y at level 100, z at level 200, only parsing) : sh_scope.
Notation "' x ← y ; z" := (rbind y (λ x, z)) (at level 20, x pattern, y at level 100, z at level 200, only parsing) : sh_scope.

(** " \t\r\n\v" and "<|>&;()" *)
Definition whitespace : list Z := [32; 9; 13; 10; 11].
Definition symbols : list Z := [60; 124; 62; 38; 59; 40; 41].
Definition strchr (l : list Z) (c : Z) : bool := bool_decide (c ∈ l).
Abbreviation LT := 60. Abbreviation BAR := 124. Abbreviation GT := 62. Abbreviation AMP := 38.
Abbreviation SEMI := 59. Abbreviation LPAR := 40. Abbreviation RPAR := 41. Abbreviation PLUS := 43. Abbreviation WORD := 97.

(** [while(s < es && strchr(whitespace, *s)) s++;] *)
Fixpoint skip_ws (s : ptr) : ptr :=
  match s with c :: s' => if strchr whitespace c then skip_ws s' else s | [] => [] end.
(** [while(s < es && !strchr(whitespace, *s) && !strchr(symbols, *s)) s++;] *)
Fixpoint skip_word (s : ptr) : ptr :=
  match s with
  | c :: s' => if negb (strchr whitespace c) && negb (strchr symbols c) then skip_word s' else s
  | [] => []
  end.
(** The token, the pointers [q] and [eq], and the next position. *)
Definition gettoken (s : ptr) : Z * (ptr * ptr) * ptr :=
  let s := skip_ws s in
  let q := s in
  let '(ret, s) :=
    match s with
    | [] => (0, s)
    | c :: s' =>
        if strchr [BAR; LPAR; RPAR; SEMI; AMP; LT] c then (c, s')
        else if c =? GT then
          match s' with
          | d :: s'' => if d =? GT then (PLUS, s'') else (c, s')
          | [] => (c, s')
          end
        else (WORD, skip_word s)
    end in
  let eq := s in
  (ret, (q, eq), skip_ws s).
Definition peek (s : ptr) (toks : list Z) : bool * ptr :=
  let s := skip_ws s in
  (match s with [] => false | c :: _ => strchr toks c end, s).

Open Scope sh_scope.
(** [f] wraps the command in the redirections seen so far. *)
Fixpoint parseredirs (k : nat) (f : tree → tree) (s : ptr) : result ((tree → tree) * ptr) :=
  let '(b, s) := peek s [LT; GT] in
  if negb b then Parsed (f, s)
  else match k with
  | O => Fuel
  | S k =>
      let '(tok, _, s) := gettoken s in
      let '(t, w, s) := gettoken s in
      if negb (t =? WORD) then Syntax "missing file for redirection"
      else
        let f' := if tok =? LT then λ c, REDIR (f c) w O_RDONLY 0
                  else if tok =? GT then λ c, REDIR (f c) w (Z.lor (Z.lor O_WRONLY O_CREATE) O_TRUNC) 1
                  else if tok =? PLUS then λ c, REDIR (f c) w (Z.lor O_WRONLY O_CREATE) 1
                  else f in
        parseredirs k f' s
  end.
(** The argument loop of parseexec. *)
Fixpoint parseargs (k : nat) (argv : list (ptr * ptr)) (f : tree → tree) (s : ptr) : result (tree * ptr) :=
  let '(b, s) := peek s [BAR; RPAR; AMP; SEMI] in
  if b then Parsed (f (EXEC argv), s)
  else match k with
  | O => Fuel
  | S k =>
      let '(tok, w, s) := gettoken s in
      if tok =? 0 then Parsed (f (EXEC argv), s)
      else if negb (tok =? WORD) then Syntax "syntax"
      else
        let argv := argv ++ [w] in
        if (MAXARGS <=? length argv)%nat then Syntax "too many args"
        else '(f, s) ← parseredirs (length s) f s; parseargs k argv f s
  end.
(** The while loop of parseline. *)
Fixpoint parseback (k : nat) (c : tree) (s : ptr) : result (tree * ptr) :=
  let '(b, s) := peek s [AMP] in
  if b then match k with O => Fuel | S k => let '(_, _, s) := gettoken s in parseback k (BACK c) s end
  else Parsed (c, s).
(** parseblock calls parseline, which calls parsepipe and parseexec: the call
    back is the argument [parseline] of the three, and parseline closes the knot. *)
Definition parseblock (parseline : ptr → result (tree * ptr)) (s : ptr) : result (tree * ptr) :=
  let '(b, s) := peek s [LPAR] in
  if negb b then Syntax "parseblock"
  else
    let '(_, _, s) := gettoken s in
    '(c, s) ← parseline s;
    let '(b, s) := peek s [RPAR] in
    if negb b then Syntax "syntax - missing )"
    else
      let '(_, _, s) := gettoken s in
      '(f, s) ← parseredirs (length s) id s;
      Parsed (f c, s).
Definition parseexec (parseline : ptr → result (tree * ptr)) (s : ptr) : result (tree * ptr) :=
  let '(b, s) := peek s [LPAR] in
  if b then parseblock parseline s
  else '(f, s) ← parseredirs (length s) id s; parseargs (S (length s)) [] f s.
Fixpoint parsepipe (k : nat) (parseline : ptr → result (tree * ptr)) (s : ptr) : result (tree * ptr) :=
  match k with
  | O => Fuel
  | S k =>
      '(c, s) ← parseexec parseline s;
      let '(b, s) := peek s [BAR] in
      if b then let '(_, _, s) := gettoken s in '(r, s) ← parsepipe k parseline s; Parsed (PIPE c r, s)
      else Parsed (c, s)
  end.
Fixpoint parseline (n : nat) (s : ptr) : result (tree * ptr) :=
  match n with
  | O => Fuel
  | S n =>
      '(c, s) ← parsepipe (S (length s)) (parseline n) s;
      '(c, s) ← parseback (length s) c s;
      let '(b, s) := peek s [SEMI] in
      if b then let '(_, _, s) := gettoken s in '(r, s) ← parseline n s; Parsed (LIST c r, s)
      else Parsed (c, s)
  end.
(** [*p = 0;] *)
Definition poke0 (es : nat) (p : ptr) (buf : list Z) : list Z := <[(es - length p)%nat := 0]> buf.
Fixpoint nulterminate (es : nat) (c : tree) (buf : list Z) : list Z :=
  match c with
  | EXEC argv => foldl (λ buf w, poke0 es w.2 buf) buf argv
  | REDIR c file _ _ => poke0 es file.2 (nulterminate es c buf)
  | PIPE l r | LIST l r => nulterminate es r (nulterminate es l buf)
  | BACK c => nulterminate es c buf
  end.
(** The bytes of [buf] before its NUL: [strlen] and every use of a [char*]. *)
Fixpoint cstring (buf : list Z) : list Z :=
  match buf with c :: r => if c =? 0 then [] else c :: cstring r | [] => [] end.
(** The tree and the line buffer after [nulterminate]. *)
Definition parsecmd (buf : list Z) : result (tree * list Z) :=
  let s := cstring buf in
  let es := length s in
  '(c, s) ← parseline (S es) s;
  let '(_, s) := peek s [] in
  if bool_decide (s = []) then Parsed (c, nulterminate es c buf) else Syntax "syntax".

(** ** What [runcmd] reads through the pointers of the tree. *)
Fixpoint map_cmd {V W} (f : V → W) (c : cmd V) : cmd W :=
  match c with
  | EXEC argv => EXEC (f <$> argv)
  | REDIR c file mode fd => REDIR (map_cmd f c) (f file) mode fd
  | PIPE l r => PIPE (map_cmd f l) (map_cmd f r)
  | LIST l r => LIST (map_cmd f l) (map_cmd f r)
  | BACK c => BACK (map_cmd f c)
  end.
Definition read_word (es : nat) (buf : list Z) (w : ptr * ptr) : list Z := cstring (drop (es - length w.1) buf).

(** ** The text of a command, with parentheses where its place in the grammar
    needs them: 0 in parseexec, 1 in parsepipe, 2 before an ampersand or a
    semicolon, 3 in parseline. *)
Definition prec {W} (c : cmd W) : nat :=
  match c with EXEC _ | REDIR _ _ _ _ => 0 | PIPE _ _ => 1 | BACK _ => 2 | LIST _ _ => 3 end%nat.
Definition redir_op (mode fd : Z) : list Z :=
  if fd =? 0 then [LT] else if mode =? Z.lor O_WRONLY O_CREATE then [GT; GT] else [GT].
Definition print_word (w : list Z) : list Z := 32 :: w.
Fixpoint unparse (lvl : nat) (c : cmd (list Z)) : list Z :=
  let body := match c with
    | EXEC argv => (argv ≫= print_word)
    | REDIR c file mode fd => unparse 0 c ++ redir_op mode fd ++ print_word file
    | PIPE l r => unparse 0 l ++ [BAR] ++ unparse 1 r
    | BACK c => unparse 2 c ++ [AMP]
    | LIST l r => unparse 2 l ++ [SEMI] ++ unparse 3 r
    end in
  if (prec c <=? lvl)%nat then body else [LPAR] ++ body ++ [RPAR].
(** The commands the grammar has: words of word characters, fewer than MAXARGS
    arguments, the three kinds of redirection. *)
Definition word_char (c : Z) : Prop := c ≠ 0 ∧ c ∉ whitespace ∧ c ∉ symbols.
Definition is_word (w : list Z) : Prop := w ≠ [] ∧ Forall word_char w.
Fixpoint valid (c : cmd (list Z)) : Prop :=
  match c with
  | EXEC argv => Forall is_word argv ∧ (length argv < MAXARGS)%nat
  | REDIR c file mode fd => valid c ∧ is_word file ∧
      ((mode, fd) = (O_RDONLY, 0) ∨ (mode, fd) = (Z.lor (Z.lor O_WRONLY O_CREATE) O_TRUNC, 1) ∨ (mode, fd) = (Z.lor O_WRONLY O_CREATE, 1))
  | PIPE l r | LIST l r => valid l ∧ valid r
  | BACK c => valid c
  end.
End Sh.
