(* ===== verification/ShRound.v ===== *)
(** * Printing a shell command and parsing it again

    [unparse] writes a command with the fewest parentheses; the parser of
    user/sh.c reads the text back as that command, for commands of any depth. *)
From S2P Require Import Prelude Sh ShSpec.

Module ShRound.
Import Sh ShSpec.
Definition word_of (w : ptr * ptr) : list Z := take (length w.1 - length w.2) w.1.
Definition reads (r : result (tree * ptr)) (c : cmd (list Z)) (rest : ptr) : Prop :=
  ∃ t, r = Parsed (t, rest) ∧ map_cmd word_of t = c.
(** What may follow a command printed at a level. *)
Definition follows (toks : list Z) (rest : ptr) : Prop := match rest with c :: _ => c ∈ toks | [] => True end.

Lemma follows_mono toks toks' rest : toks ⊆ toks' → follows toks rest → follows toks' rest.
Proof. destruct rest; cbn; [done|]. intros H1 H2. by apply H1. Qed.
Lemma wordc_word c : word_char c → wordc c = true.
Proof. intros (_ & H1 & H2). unfold wordc, strchr. by rewrite !bool_decide_eq_false_2. Qed.
Lemma skip_word_app w r : Forall word_char w → stops r → skip_word (w ++ r) = r.
Proof.
  intros Hw Hr. induction Hw as [|c w Hc _ IH]; cbn [app].
  - destruct r as [|c r]; cbn; [done|]. cbn in Hr. unfold wordc in Hr. by rewrite Hr.
  - cbn [skip_word]. apply wordc_word in Hc. unfold wordc in Hc. by rewrite Hc.
Qed.
Lemma skip_ws_word w r : is_word w → skip_ws (w ++ r) = w ++ r.
Proof. intros [Hne Hw]. destruct Hw as [|c w (_ & H & _) _]; [done|]. cbn. unfold strchr. by rewrite bool_decide_eq_false_2. Qed.
Lemma gettoken_word w r : is_word w → stops r → gettoken (w ++ r) = (WORD, (w ++ r, r), skip_ws r).
Proof.
  intros Hw Hr. unfold gettoken. rewrite skip_ws_word by done. destruct Hw as [Hne Hw]. destruct w as [|c w]; [done|].
  rewrite <- (skip_word_app (c :: w) r) at 1 2 3 by done. rewrite (skip_word_app (c :: w)) by done. cbn [app].
  apply Forall_cons in Hw as [(_ & _ & Hc) _]. unfold strchr. rewrite bool_decide_eq_false_2 by (unfold symbols in Hc; set_solver).
  destruct (Z.eqb_spec c GT) as [->|]; [unfold symbols in Hc; set_solver|]. done.
Qed.
Lemma peek_skip s toks : peek (skip_ws s) toks = peek s toks.
Proof. unfold peek. by rewrite skip_ws_idem. Qed.
Lemma parseredirs_skip k f s : parseredirs k f (skip_ws s) = parseredirs k f s.
Proof. destruct k; cbn [parseredirs]; by rewrite peek_skip. Qed.
Lemma parseexec_skip line s : parseexec line (skip_ws s) = parseexec line s.
Proof. unfold parseexec. by rewrite peek_skip. Qed.
Lemma parsepipe_skip k line s : parsepipe k line (skip_ws s) = parsepipe k line s.
Proof. destruct k; [done|]. cbn [parsepipe]. by rewrite parseexec_skip. Qed.
Lemma skip_ws_ge a c b : c ∉ whitespace → (length b < length (skip_ws (a ++ c :: b)))%nat.
Proof.
  intros Hc. induction a as [|d a IH]; cbn [app skip_ws].
  - unfold strchr. rewrite bool_decide_eq_false_2 by done. cbn. lia.
  - case_match; [done|]. cbn. rewrite length_app. cbn. lia.
Qed.
Lemma peek_hit s toks c r : s = c :: r → c ∉ whitespace → c ∈ toks → peek s toks = (true, s).
Proof. intros -> H1 H2. unfold peek, strchr. cbn. unfold strchr. rewrite (bool_decide_eq_false_2 _ H1). by rewrite (bool_decide_eq_true_2 _ H2). Qed.
Lemma peek_miss s toks : match s with c :: _ => c ∉ whitespace ∧ c ∉ toks | [] => True end → peek s toks = (false, s).
Proof. unfold peek, strchr. destruct s as [|c r]; [done|]. intros [H1 H2]. cbn. unfold strchr. rewrite (bool_decide_eq_false_2 _ H1). by rewrite (bool_decide_eq_false_2 _ H2). Qed.

(** ** Redirections *)
Definition redir := (list Z * Z * Z)%type.
Definition redirs_text (rs : list redir) : list Z := rs ≫= (λ '(file, mode, fd), redir_op mode fd ++ print_word file).
Definition apply_redirs (rs : list redir) (c : cmd (list Z)) : cmd (list Z) := foldl (λ c '(file, mode, fd), REDIR c file mode fd) c rs.
Definition valid_redir (r : redir) : Prop := is_word r.1.1 ∧
  ((r.1.2, r.2) = (O_RDONLY, 0) ∨ (r.1.2, r.2) = (Z.lor (Z.lor O_WRONLY O_CREATE) O_TRUNC, 1) ∨ (r.1.2, r.2) = (Z.lor O_WRONLY O_CREATE, 1)).
Definition denotes (f : tree → tree) (g : cmd (list Z) → cmd (list Z)) : Prop := ∀ c, map_cmd word_of (f c) = g (map_cmd word_of c).
Lemma word_of_app w r : word_of (w ++ r, r) = w.
Proof. unfold word_of. cbn. rewrite length_app, Nat.add_sub. by apply take_app_length. Qed.
Definition SIMPLE_END : list Z := [BAR; RPAR; AMP; SEMI].
Lemma follows_miss toks toks' rest : follows toks rest → (∀ c, c ∈ toks → c ∉ whitespace ∧ c ∉ toks') → peek rest toks' = (false, rest).
Proof. intros H1 H2. apply peek_miss. destruct rest; [done|]. by apply H2. Qed.
Lemma follows_stops toks rest : follows toks rest → toks ⊆ symbols → stops rest.
Proof. destruct rest as [|c r]; cbn; [done|]. intros H1 H2. unfold wordc, strchr. rewrite (bool_decide_eq_true_2 (c ∈ symbols)) by auto. apply andb_false_r. Qed.
Lemma redirs_stops rs rest : Forall valid_redir rs → stops rest → stops (redirs_text rs ++ rest).
Proof. intros Hrs Hr. destruct Hrs as [|[[f m] d] rs [_ [[= -> ->]|[[= -> ->]|[= -> ->]]]] _]; done. Qed.
Lemma redir_token mode fd file s : valid_redir (file, mode, fd) → is_word file → stops s →
  ∃ op w1, peek (redir_op mode fd ++ print_word file ++ s) [LT; GT] = (true, redir_op mode fd ++ print_word file ++ s) ∧
  gettoken (redir_op mode fd ++ print_word file ++ s) = (op, w1, file ++ s) ∧
  ∀ f : tree → tree, (if op =? LT then λ c : tree, REDIR (f c) (file ++ s, s) O_RDONLY 0
    else if op =? GT then λ c, REDIR (f c) (file ++ s, s) (Z.lor (Z.lor O_WRONLY O_CREATE) O_TRUNC) 1
    else if op =? PLUS then λ c, REDIR (f c) (file ++ s, s) (Z.lor O_WRONLY O_CREATE) 1 else f) = (λ c, REDIR (f c) (file ++ s, s) mode fd).
Proof.
  intros [_ Hm] Hw Hs. cbn [fst snd] in Hm. pose proof (skip_ws_word file s Hw) as Hk.
  destruct Hm as [[= -> ->]|[[= -> ->]|[= -> ->]]]; do 2 eexists; (split; [reflexivity|]); 
    (split; [match goal with |- _ = (?a, ?b, _) => refine (eq_trans (_ : _ = (a, b, skip_ws (file ++ s))) _); [reflexivity|by rewrite Hk] end|done]).
Qed.
Lemma parseredirs_print rs : ∀ k f g rest, Forall valid_redir rs → follows SIMPLE_END rest → denotes f g →
  (length rs ≤ k)%nat →
  ∃ f', parseredirs k f (redirs_text rs ++ rest) = Parsed (f', rest) ∧ denotes f' (λ c, apply_redirs rs (g c)).
Proof.
  induction rs as [|[[file mode] fd] rs IH]; intros k f g rest Hrs Hr Hf Hk.
  - exists f. split; [|done]. cbn [redirs_text mbind list_bind app]. destruct k; cbn [parseredirs];
      by rewrite (follows_miss SIMPLE_END) by (done || (unfold SIMPLE_END, whitespace; set_solver)).
  - apply Forall_cons in Hrs as [Hv Hrs]. pose proof Hv as [Hw _]. cbn [fst] in Hw.
    assert (Hst : stops (redirs_text rs ++ rest)) by (apply redirs_stops; [done|]; eapply follows_stops; [done|]; unfold SIMPLE_END, symbols; set_solver).
    cbn [redirs_text mbind list_bind] in *. fold (redirs_text rs) in *. cbn [length] in Hk. destruct k as [|k]; [lia|].
    rewrite <- !app_assoc. destruct (redir_token mode fd file (redirs_text rs ++ rest)) as (op & w1 & E1 & E2 & E3); [done..|].
    cbn [parseredirs]. rewrite E1. cbn [negb]. rewrite E2, gettoken_word by done. cbn [Z.eqb Pos.eqb negb]. rewrite E3, parseredirs_skip.
    destruct (IH k (λ c, REDIR (f c) (file ++ redirs_text rs ++ rest, redirs_text rs ++ rest) mode fd) (λ c, REDIR (g c) file mode fd) rest) as (f' & Ef & Hf');
      [done|done| |lia|by exists f'].
    intros c. cbn [map_cmd]. by rewrite Hf, word_of_app.
Qed.
(** ** Simple commands *)
Definition words_text (argv : list (list Z)) : list Z := argv ≫= print_word.
Lemma redirs_length rs : Forall valid_redir rs → (length rs ≤ length (redirs_text rs))%nat ∧ skip_ws (redirs_text rs) = redirs_text rs.
Proof.
  induction 1 as [|[[f m] d] rs [_ Hm] _ [IH _]]; [done|]. cbn [fst snd] in Hm.
  change (redirs_text ((f, m, d) :: rs)) with ((redir_op m d ++ print_word f) ++ redirs_text rs). split.
  - rewrite !length_app. cbn [print_word length]. lia.
  - by destruct Hm as [[= -> ->]|[[= -> ->]|[= -> ->]]].
Qed.
Lemma skip_ws_app s r : skip_ws s ≠ [] → skip_ws (s ++ r) = skip_ws s ++ r.
Proof. induction s as [|c s IH]; cbn; [done|]. case_match; [done|]. done. Qed.
Lemma skip_length argv rs rest : Forall is_word argv → Forall valid_redir rs →
  (length rs ≤ length (skip_ws (words_text argv ++ redirs_text rs ++ rest)))%nat.
Proof.
  intros Hw Hrs. destruct (redirs_length rs Hrs) as [Hl Hs]. destruct Hw as [|w argv Hw _].
  - cbn [words_text mbind list_bind app]. destruct rs as [|r rs]; [cbn; lia|]. rewrite skip_ws_app; rewrite Hs; [rewrite length_app; lia|].
    intros H. rewrite H in Hl. cbn in Hl. lia.
  - assert (E : words_text (w :: argv) ++ redirs_text rs ++ rest = 32 :: w ++ words_text argv ++ redirs_text rs ++ rest) by (cbn; by rewrite <- app_assoc).
    rewrite E. cbn [skip_ws]. change (strchr whitespace 32) with true. cbn match. rewrite skip_ws_word by done. rewrite !length_app. lia.
Qed.
Lemma words_length w argv r : is_word w → (length (w :: argv) ≤ length (w ++ words_text argv ++ r))%nat.
Proof.
  intros [Hne _]. assert (H : (length argv ≤ length (words_text argv))%nat).
  { induction argv as [|v argv IH]; [done|]. cbn. rewrite length_app. change (argv ≫= print_word) with (words_text argv). lia. }
  rewrite !length_app. destruct w; [done|]. cbn. lia.
Qed.
Lemma simple_print argv rs rest : Forall valid_redir rs → follows SIMPLE_END rest → 
  ∀ k1 (k2 : ptr → nat) acc f g, Forall is_word argv → (length acc + length argv < MAXARGS)%nat → denotes f g →
  (length rs ≤ k1)%nat → (∀ s, (length argv ≤ length s)%nat → (length argv < k2 s)%nat) →
  reads (rbind (parseredirs k1 f (words_text argv ++ redirs_text rs ++ rest)) (λ '(f, s), parseargs (k2 s) acc f s))
    (apply_redirs rs (g (EXEC ((word_of <$> acc) ++ argv)))) rest.
Proof.
  intros Hrs Hr. induction argv as [|w argv IH]; intros k1 k2 acc f g Hw Hn Hf Hk1 Hk2.
  - cbn [words_text mbind list_bind app] in *. destruct (parseredirs_print rs k1 f g rest) as (f' & -> & Hf'); [done..|].
    cbn [rbind]. exists (f' (EXEC acc)). split; [|rewrite Hf'; cbn [map_cmd]; by rewrite app_nil_r].
    specialize (Hk2 rest ltac:(cbn; lia)). destruct (k2 rest) as [|k]; [cbn in Hk2; lia|]. cbn [parseargs]. destruct rest as [|c r]; [done|].
    rewrite (peek_hit _ _ c r) by (done || (cbn in Hr; unfold SIMPLE_END in Hr; unfold whitespace; set_solver)). done.
  - apply Forall_cons in Hw as [Hw Hws]. set (tl := words_text argv ++ redirs_text rs ++ rest).
    assert (Hst : stops tl).
    { unfold tl. destruct argv; [|done]. apply redirs_stops; [done|]. eapply follows_stops; [done|]. unfold SIMPLE_END, symbols; set_solver. }
    assert (Epk : ∀ toks, toks ⊆ symbols → peek (w ++ tl) toks = (false, w ++ tl)).
    { intros toks Ht. apply peek_miss. destruct Hw as [Hne Hw]. destruct Hw as [|c w' (_ & H1 & H2) _]; [done|]. cbn. set_solver. }
    assert (E : words_text (w :: argv) ++ redirs_text rs ++ rest = 32 :: w ++ tl) by (cbn; by rewrite <- app_assoc).
    rewrite E, <- parseredirs_skip. cbn [skip_ws strchr]. change (strchr whitespace 32) with true. cbn match. rewrite skip_ws_word by done.
    replace (parseredirs k1 f (w ++ tl)) with (Parsed (f, w ++ tl)) by (destruct k1; cbn [parseredirs]; rewrite Epk by (unfold symbols; set_solver); done).
    cbn [rbind]. specialize (Hk2 (w ++ tl) (words_length _ _ _ Hw)). destruct (k2 (w ++ tl)) as [|k]; [lia|]. cbn [parseargs]. rewrite Epk by (unfold symbols; set_solver). rewrite gettoken_word by done.
    cbn [Z.eqb Pos.eqb negb]. cbn [length] in Hn.
    rewrite (proj2 (Nat.leb_gt _ _)) by (rewrite length_app; cbn [length]; lia).
    rewrite parseredirs_skip. replace ((word_of <$> acc) ++ w :: argv) with ((word_of <$> acc ++ [(w ++ tl, tl)]) ++ argv).
    2:{ rewrite fmap_app. cbn [fmap list_fmap]. rewrite word_of_app. by rewrite <- app_assoc. }
    apply (IH _ (λ _, k)); [done|rewrite !length_app; cbn [length]; lia|done|by apply skip_length|intros _ _; cbn [length] in Hk2; lia].
Qed.
(** ** The shape of the text at each level *)
Lemma exec_shape c : valid c → ∃ b rs, c = apply_redirs rs b ∧ unparse 0 c = unparse 0 b ++ redirs_text rs ∧ valid b ∧ Forall valid_redir rs ∧
  ((∃ argv, b = EXEC argv) ∨ unparse 0 b = LPAR :: unparse 3 b ++ [RPAR]).
Proof.
  induction c as [argv|c IH file mode fd|l _ r _|l _ r _|c _]; intros Hv.
  - exists (EXEC argv), []. cbn [redirs_text mbind list_bind]. rewrite app_nil_r. eauto 10.
  - destruct Hv as (Hc & Hw & Hm). destruct (IH Hc) as (b & rs & -> & E & Hb & Hrs & Hs). exists b, (rs ++ [(file, mode, fd)]).
    split; [unfold apply_redirs; by rewrite foldl_app|]. split; [|split; [done|split; [|done]]].
    + cbn [unparse prec Nat.leb]. rewrite E, <- app_assoc. unfold redirs_text. rewrite bind_app. cbn [mbind list_bind]. by rewrite app_nil_r.
    + apply Forall_app. split; [done|]. by apply Forall_singleton.
  - exists (PIPE l r), []. cbn [redirs_text mbind list_bind]. rewrite app_nil_r. split; [done|]. split; [done|]. split; [done|]. split; [done|]. by right.
  - exists (LIST l r), []. cbn [redirs_text mbind list_bind]. rewrite app_nil_r. split; [done|]. split; [done|]. split; [done|]. split; [done|]. by right.
  - exists (BACK c), []. cbn [redirs_text mbind list_bind]. rewrite app_nil_r. split; [done|]. split; [done|]. split; [done|]. split; [done|]. by right.
Qed.
Lemma back_shape c : valid c → ∃ p j, c = Nat.iter j BACK p ∧ unparse 2 c = unparse 1 p ++ replicate j AMP ∧ valid p.
Proof.
  induction c as [argv|c IH file mode fd|l _ r _|l _ r _|c IH]; intros Hv.
  5:{ destruct (IH Hv) as (p & j & -> & E & Hp). exists p, (S j). split; [done|]. split; [|done].
      change (unparse 2 (BACK (Nat.iter j BACK p))) with (unparse 2 (Nat.iter j BACK p) ++ [AMP]). rewrite E, <- app_assoc. f_equal.
      by rewrite replicate_S_end. }
  all: match type of Hv with valid ?c => exists c, 0%nat end; (split; [done|]); (split; [|done]); by rewrite app_nil_r.
Qed.
Lemma pipe_shape c : (∃ l r, c = PIPE l r) ∨ unparse 1 c = unparse 0 c.
Proof. destruct c; eauto. Qed.
Lemma line_shape c : (∃ l r, c = LIST l r) ∨ unparse 3 c = unparse 2 c.
Proof. destruct c; eauto. Qed.
Definition PIPE_END : list Z := [RPAR; AMP; SEMI].
Definition LINE_END : list Z := [RPAR].
Lemma parseback_print j rest : follows [RPAR; SEMI] rest → ∀ k t, (j ≤ k)%nat →
  parseback k t (replicate j AMP ++ rest) = Parsed (Nat.iter j BACK t, rest).
Proof.
  intros Hr. induction j as [|j IH]; intros k t Hk.
  - destruct k; cbn [parseback replicate app]; by rewrite (follows_miss [RPAR; SEMI]) by (done || (unfold whitespace; set_solver)).
  - destruct k as [|k]; [lia|]. cbn [parseback replicate app]. rewrite (peek_hit _ _ AMP (replicate j AMP ++ rest)) by (done || (unfold whitespace; set_solver)).
    change (gettoken (AMP :: replicate j AMP ++ rest)) with (AMP, (AMP :: replicate j AMP ++ rest, replicate j AMP ++ rest), skip_ws (replicate j AMP ++ rest)).
    cbn match. assert (E : skip_ws (replicate j AMP ++ rest) = replicate j AMP ++ rest).
    { destruct j; [|done]. destruct rest as [|c r]; [done|]. cbn in *. unfold strchr. rewrite bool_decide_eq_false_2 by (unfold whitespace; set_solver). done. }
    rewrite E, IH by lia. by rewrite <- Nat.iter_succ_r.
Qed.
(** ** The four mutually recursive functions *)
Lemma gettoken_sym c r : c ∈ [BAR; LPAR; RPAR; SEMI; AMP; LT] → gettoken (c :: r) = (c, (c :: r, r), skip_ws r).
Proof.
  intros Hc. unfold gettoken. cbn [skip_ws]. unfold strchr. rewrite bool_decide_eq_false_2 by (unfold whitespace; set_solver).
  cbn match. by rewrite bool_decide_eq_true_2.
Qed.
Lemma peek_sym toks c r : c ∈ [BAR; LPAR; RPAR; SEMI; AMP; LT] → c ∈ toks → peek (c :: r) toks = (true, c :: r).
Proof. intros H1 H2. apply (peek_hit _ _ c r); [done| |done]. unfold whitespace. set_solver. Qed.
(** [line] reads back the commands printed in fewer than [m] bytes, from the
    text or from the text without its leading blanks. *)
Definition line_ok (m : nat) (line : ptr → result (tree * ptr)) : Prop :=
  ∀ c rest, valid c → follows LINE_END rest → (length (unparse 3 c ++ rest) < m)%nat →
  reads (line (unparse 3 c ++ rest)) c rest ∧ reads (line (skip_ws (unparse 3 c ++ rest))) c rest.
Ltac lens := repeat (rewrite ?length_app in *; cbn [length] in *); lia.
Ltac tok := unfold LINE_END, PIPE_END, SIMPLE_END, symbols, whitespace; set_solver.

Lemma map_iter_back j t : map_cmd word_of (Nat.iter j BACK t) = Nat.iter j BACK (map_cmd word_of t).
Proof. induction j; cbn; [done|]. by f_equal. Qed.
Section Below.
Context (line : ptr → result (tree * ptr)) (m : nat) (Hline : line_ok m line).
Lemma block_print b rs rest : valid b → Forall valid_redir rs → follows SIMPLE_END rest →
  (length (LPAR :: unparse 3 b ++ RPAR :: redirs_text rs ++ rest) ≤ m)%nat →
  reads (parseblock line (LPAR :: unparse 3 b ++ RPAR :: redirs_text rs ++ rest)) (apply_redirs rs b) rest.
Proof.
  intros Hb Hrs Hr Hn. unfold parseblock. rewrite peek_sym by tok. cbn [negb]. rewrite gettoken_sym by tok.
  destruct (Hline b (RPAR :: redirs_text rs ++ rest)) as [_ (t & -> & Ht)]; [done|cbn; tok|lens|].
  cbn [rbind]. rewrite peek_sym by tok. cbn [negb]. rewrite gettoken_sym by tok. rewrite parseredirs_skip.
  destruct (parseredirs_print rs (length (skip_ws (redirs_text rs ++ rest))) id id rest) as (f & -> & Hf); [done..| |].
  { apply (skip_length []); [constructor|done]. }
  exists (f t). split; [done|]. rewrite Hf, Ht. done.
Qed.
Lemma peek_simple argv rs rest : Forall is_word argv → Forall valid_redir rs → follows SIMPLE_END rest →
  peek (words_text argv ++ redirs_text rs ++ rest) [LPAR] = (false, skip_ws (words_text argv ++ redirs_text rs ++ rest)).
Proof.
  intros Hw Hrs Hr. unfold peek. f_equal. destruct Hw as [|w argv' Hw _].
  - cbn [words_text mbind list_bind app]. destruct Hrs as [|[[f r] d] rs' [_ [[= -> ->]|[[= -> ->]|[= -> ->]]]] _]; [|done..].
    cbn [redirs_text mbind list_bind app]. destruct rest as [|z r]; [done|]. cbn in Hr |- *. unfold strchr. rewrite bool_decide_eq_false_2 by tok. rewrite bool_decide_eq_false_2; [done|tok].
  - change (skip_ws (words_text (w :: argv') ++ redirs_text rs ++ rest)) with (skip_ws ((w ++ words_text argv') ++ redirs_text rs ++ rest)).
    rewrite <- app_assoc, skip_ws_word by done. destruct Hw as [Hne Hw]. destruct Hw as [|z w' (_ & _ & H2) _]; [done|]. cbn. unfold strchr.
    rewrite bool_decide_eq_false_2; [done|]. clear -H2. unfold symbols in H2. set_solver.
Qed.
Lemma exec_print c rest : valid c → follows SIMPLE_END rest → (length (unparse 0 c ++ rest) ≤ m)%nat → reads (parseexec line (unparse 0 c ++ rest)) c rest.
Proof.
  intros Hv Hr Hn. unfold parseexec. destruct (exec_shape c Hv) as (b & rs & -> & E & Hb & Hrs & [[argv ->]|Eb]).
  - change (unparse 0 (EXEC argv)) with (words_text argv) in E. rewrite E, <- app_assoc in *. destruct Hb as [Hw Hlen].
    rewrite peek_simple, parseredirs_skip by done. apply (simple_print argv rs rest Hrs Hr _ (λ s, S (length s)) [] id id); [done|done|done|by apply skip_length|].
    intros s' Hs'. lia.
  - rewrite E, Eb, <- app_assoc in *. cbn [app] in *. rewrite <- app_assoc in *. cbn [app] in *. rewrite peek_sym by tok. apply block_print; [done..|lens].
Qed.
Lemma pipe_print k : ∀ c rest, valid c → follows PIPE_END rest → (length (unparse 1 c ++ rest) ≤ m)%nat → (length (skip_ws (unparse 1 c ++ rest)) < k)%nat →
  reads (parsepipe k line (unparse 1 c ++ rest)) c rest.
Proof.
  induction k as [|k IH]; intros c rest Hv Hr Hn Hk; [lia|]. cbn [parsepipe]. destruct (pipe_shape c) as [(l & r & ->)|E].
  - destruct Hv as [Hl Hr']. change (unparse 1 (PIPE l r)) with (unparse 0 l ++ [BAR] ++ unparse 1 r) in *. rewrite <- !app_assoc in *. cbn [app] in *.
    destruct (exec_print l (BAR :: unparse 1 r ++ rest)) as (t & -> & Ht); [done|cbn; tok|lens|].
    cbn [rbind]. rewrite peek_sym, gettoken_sym by tok. rewrite parsepipe_skip.
    pose proof (skip_ws_ge (unparse 0 l) BAR (unparse 1 r ++ rest) ltac:(tok)). pose proof (suffix_length _ _ (skip_ws_suffix (unparse 1 r ++ rest))).
    destruct (IH r rest) as (t' & -> & Ht'); [done|done|lens|lia|]. exists (PIPE t t'). split; [done|]. cbn. by rewrite Ht, Ht'.
  - rewrite E in *. destruct (exec_print c rest) as (t & -> & Ht); [done| |lens|].
    { eapply follows_mono; [|exact Hr]. tok. }
    cbn [rbind]. rewrite (follows_miss PIPE_END) by (done || tok). by exists t.
Qed.
Lemma back_part k d tl : valid d → follows [RPAR; SEMI] tl → (length (unparse 2 d ++ tl) ≤ m)%nat → (length (skip_ws (unparse 2 d ++ tl)) < k)%nat →
  ∃ t0 s0 t, parsepipe k line (unparse 2 d ++ tl) = Parsed (t0, s0) ∧ parseback (length s0) t0 s0 = Parsed (t, tl) ∧ map_cmd word_of t = d.
Proof.
  intros Hd Htl Hf Hk. destruct (back_shape d Hd) as (p & j & -> & E & Hp). rewrite E, <- app_assoc in *.
  destruct (pipe_print k p (replicate j AMP ++ tl)) as (t & -> & Ht); [done| |done|done|].
  { destruct j; [|cbn; tok]. eapply follows_mono; [|exact Htl]. tok. }
  exists t, (replicate j AMP ++ tl), (Nat.iter j BACK t). split; [done|].
  rewrite parseback_print by (done || (rewrite length_app, length_replicate; lia)). split; [done|]. by rewrite map_iter_back, Ht.
Qed.
(** What parseline does after its call of parsepipe, on either form of the text. *)
Lemma line_print k c rest : valid c → follows LINE_END rest → (length (unparse 3 c ++ rest) ≤ m)%nat → (length (skip_ws (unparse 3 c ++ rest)) < k)%nat →
  reads (rbind (parsepipe k line (unparse 3 c ++ rest)) (λ '(c, s), rbind (parseback (length s) c s) (λ '(c, s),
    let '(b, s) := peek s [SEMI] in
    if b then let '(_, _, s) := gettoken s in rbind (line s) (λ '(r, s), Parsed (LIST c r, s)) else Parsed (c, s)))) c rest.
Proof.
  intros Hv Hr Hn Hk. destruct (line_shape c) as [(l & r & ->)|E].
  - destruct Hv as [Hl Hr']. change (unparse 3 (LIST l r)) with (unparse 2 l ++ [SEMI] ++ unparse 3 r) in *. rewrite <- !app_assoc in *. cbn [app] in *.
    destruct (back_part k l (SEMI :: unparse 3 r ++ rest)) as (t0 & s0 & t & -> & E & Ht); [done|cbn; tok|done|done|].
    cbn [rbind]. rewrite E. cbn [rbind]. rewrite peek_sym, gettoken_sym by tok.
    destruct (Hline r rest) as [_ (t' & -> & Ht')]; [done|done|lens|]. exists (LIST t t'). split; [done|]. cbn. by rewrite Ht, Ht'.
  - rewrite E in *. destruct (back_part k c rest) as (t0 & s0 & t & -> & Eb & Ht); [done| |done|done|].
    { eapply follows_mono; [|exact Hr]. tok. }
    cbn [rbind]. rewrite Eb. cbn [rbind]. rewrite (follows_miss LINE_END) by (done || tok). by exists t.
Qed.
End Below.
Lemma parseline_print n : line_ok n (parseline n).
Proof.
  induction n as [|n IH]; intros c rest Hv Hr Hn; [lia|]. pose proof (suffix_length _ _ (skip_ws_suffix (unparse 3 c ++ rest))).
  split; cbn [parseline]; [|rewrite parsepipe_skip]; apply (line_print _ n IH); try done; lia.
Qed.
Lemma unparse_nonzero c : ∀ lvl, valid c → Forall (λ z, z ≠ 0) (unparse lvl c).
Proof.
  assert (Hp : ∀ w, is_word w → Forall (λ z, z ≠ 0) (print_word w)).
  { intros w [_ Hw]. constructor; [done|]. eapply Forall_impl; [exact Hw|]. by intros z (? & _). }
  assert (Hb : ∀ (b : bool) l, Forall (λ z, z ≠ 0) l → Forall (λ z, z ≠ 0) (if b then l else [LPAR] ++ l ++ [RPAR])).
  { intros [] l Hl; [done|]. apply Forall_app. split; [by repeat constructor|]. apply Forall_app. split; [done|by repeat constructor]. }
  induction c as [argv|c IH file mode fd|l IHl r IHr|l IHl r IHr|c IH]; intros lvl Hv; cbn [unparse]; apply Hb.
  - destruct Hv as [Hw _]. induction Hw as [|w argv Hw _ IH]; [done|]. cbn [mbind list_bind]. apply Forall_app. split; [by apply Hp|done].
  - destruct Hv as (Hc & Hw & Hm). apply Forall_app. split; [auto|]. apply Forall_app. split; [|auto].
    destruct Hm as [[= -> ->]|[[= -> ->]|[= -> ->]]]; by repeat constructor.
  - destruct Hv. apply Forall_app. split; [auto|]. apply Forall_app. split; [by repeat constructor|auto].
  - destruct Hv. apply Forall_app. split; [auto|]. apply Forall_app. split; [by repeat constructor|auto].
  - apply Forall_app. split; [auto|by repeat constructor].
Qed.
Lemma map_cmd_ext {V W} (f g : V → W) t : (∀ w, w ∈ tokens t → f w = g w) → map_cmd f t = map_cmd g t.
Proof.
  induction t as [argv|c IH file mode fd|l IHl r IHr|l IHl r IHr|c IH]; intros H; cbn in *; f_equal; try (apply IH || apply IHl || apply IHr; set_solver); try (apply H; set_solver).
  apply list_fmap_ext. intros i w Hw. apply H. by eapply list_elem_of_lookup_2.
Qed.
Lemma parsecmd_good line junk t buf : Forall (λ z, z ≠ 0) line → parsecmd (line ++ 0 :: junk) = Parsed (t, buf) →
  good line t ∧ buf = nulterminate (length line) t (line ++ 0 :: junk).
Proof.
  intros Hnz. unfold parsecmd. rewrite cstring_app by done. pose proof (parseline_ok line (S (length line)) line (reflexivity _) ltac:(lia)) as H.
  destruct (parseline _ _) as [[c s']| |]; cbn [rbind]; [|done..].
  destruct H as [Hg _]. cbn [peek fst snd]. case_bool_decide; [|done]. intros [= <- <-]. done.
Qed.

(** C36: the shell's parser always returns. For every line it ends, within fuel
    one more than the length, either with a syntax error or with a tree; and then,
    through the line buffer that nulterminate has cut up in place, every pointer
    of the tree is a C string that holds exactly the word of the line that starts
    there, up to the next blank, symbol or the end: no terminator falls inside
    another token. *)
Theorem parsecmd_total (line junk : list Z) : Forall (λ z, z ≠ 0) line →
  (∃ msg, parsecmd (line ++ 0 :: junk) = Syntax msg) ∨
  (∃ t buf, parsecmd (line ++ 0 :: junk) = Parsed (t, buf) ∧
    ∀ w, w ∈ tokens t → ∃ pre u post, line = pre ++ u ++ post ∧ is_word u ∧ stops post ∧ read_word (length line) buf w = u).
Proof.
  intros Hnz. destruct (parsecmd (line ++ 0 :: junk)) as [[t buf]|msg|] eqn:E; [right|left; by exists msg|].
  - exists t, buf. split; [done|]. intros w Hw. destruct (parsecmd_good _ _ _ _ Hnz E) as [Hg ->].
    destruct (read_word_good line junk t w Hnz Hg Hw) as (u & Eu & Hu & Hr). unfold good in Hg. rewrite Forall_forall in Hg.
    destruct (Hg w Hw) as [[pre Hpre] (u' & Eu' & _ & _ & Hst)]. destruct w as [q e]. cbn [fst snd] in *. subst q. exists pre, u, e. done.
  - exfalso. unfold parsecmd in E. rewrite cstring_app in E by done. pose proof (parseline_ok line (S (length line)) line (reflexivity _) ltac:(lia)) as H.
    destruct (parseline _ _) as [[c s']| |]; cbn in E; [|done..]. by case_bool_decide.
Qed.
(** "cat<f|wc>g" *)
Definition demo_line : list Z := [99; 97; 116; 60; 102; 124; 119; 99; 62; 103].
Lemma parsecmd_total_witness : parsecmd (demo_line ++ [0]) ≠ Fuel ∧
  ((∃ msg, parsecmd (demo_line ++ 0 :: []) = Syntax msg) ∨
  (∃ t buf, parsecmd (demo_line ++ 0 :: []) = Parsed (t, buf) ∧
    ∀ w, w ∈ tokens t → ∃ pre u post, demo_line = pre ++ u ++ post ∧ is_word u ∧ stops post ∧ read_word (length demo_line) buf w = u)).
Proof.
  split; [by vm_compute|]. apply (parsecmd_total demo_line []). unfold demo_line. repeat (constructor; [discriminate|]). constructor.
Defined.

(** C18: parsing inverts printing. The text of a command of any shape (lists,
    background jobs, pipelines, redirections, parenthesised blocks, nested to
    any depth) parses without an error, and the tree, read through its pointers
    in the nul-terminated buffer as runcmd reads it, is that command. *)
Theorem parse_unparse (c : cmd (list Z)) (junk : list Z) : valid c →
  ∃ t buf, parsecmd (unparse 3 c ++ 0 :: junk) = Parsed (t, buf) ∧ map_cmd (read_word (length (unparse 3 c)) buf) t = c.
Proof.
  intros Hv. pose proof (unparse_nonzero c 3 Hv) as Hnz. destruct (parseline_print (S (length (unparse 3 c))) c [] Hv) as [(t & E & Ht) _]; [done|rewrite app_nil_r; lia|]. rewrite app_nil_r in E.
  assert (Ep : parsecmd (unparse 3 c ++ 0 :: junk) = Parsed (t, nulterminate (length (unparse 3 c)) t (unparse 3 c ++ 0 :: junk))).
  { unfold parsecmd. rewrite cstring_app by done. rewrite E. done. }
  eexists t, _. split; [exact Ep|]. destruct (parsecmd_good _ _ _ _ Hnz Ep) as [Hg _]. rewrite <- Ht at 4. apply map_cmd_ext. intros w Hw.
  destruct (read_word_good _ junk _ w Hnz Hg Hw) as (u & Eu & _ & ->). destruct w as [q e]. cbn in Eu. subst q. by rewrite word_of_app.
Qed.
(** (a < f & ; b) | c >> g *)
Definition demo_cmd : cmd (list Z) :=
  PIPE (LIST (BACK (REDIR (EXEC [[97]]) [102] O_RDONLY 0)) (EXEC [[98]])) (REDIR (EXEC [[99]]) [103] (Z.lor O_WRONLY O_CREATE) 1).
Lemma parse_unparse_witness : valid demo_cmd ∧
  ∃ t buf, parsecmd (unparse 3 demo_cmd ++ 0 :: []) = Parsed (t, buf) ∧ map_cmd (read_word (length (unparse 3 demo_cmd)) buf) t = demo_cmd.
Proof.
  assert (Hw : ∀ z, 97 ≤ z < 104 → is_word [z]).
  { intros z Hz. split; [done|]. apply Forall_singleton. unfold word_char, whitespace, symbols. split; [lia|]. rewrite !not_elem_of_cons. repeat split; try lia; apply not_elem_of_nil. }
  assert (He : ∀ z, 97 ≤ z < 104 → valid (EXEC [[z]])) by (intros z Hz; split; [apply Forall_singleton; by apply Hw|unfold MAXARGS; cbn; lia]).
  assert (Hv : valid demo_cmd).
  { split; [split; [split; [apply He; lia|split; [apply Hw; lia|by left]]|apply He; lia]|].
    split; [apply He; lia|split; [apply Hw; lia|by right; right]]. }
  split; [exact Hv|]. apply (parse_unparse demo_cmd [] Hv).
Defined.
End ShRound.
